(* ===== verification/_CoqProject ===== *)
-Q . S2P
Prelude.v
GoStd.v
Rounding.v
GoRand.v
GoText.v
PathMatch.v
Seccomp.v
FaultRule.v
HoldQueue.v
Session.v
Notification.v
NetRule.v
NetQueue.v
Packet.v
Endpoint.v
Leaf.v
EventLog.v
Temporal.v
Trace.v
ProxyCore.v
Registry.v
Order.v
FaultBuiltins.v
Generate.v
Plan.v
ProxyManager.v
RawProxies.v
PacketFault.v
Gateway.v
Inject.v
Partition.v
Env.v
Services.v
Determinism.v
Verdict.v
ProcFs.v
ConnOwner.v
ConnPool.v
ConnQuiet.v
RedisProxy.v
MemcachedProxy.v
NatsProxy.v
SqlMatch.v
PostgresProxy.v
MysqlProxy.v
KafkaProxy.v
AmqpProxy.v
MongoProxy.v
CassandraProxy.v
