(* ===== verification/Prelude.v ===== *)
(** * Faultbox: a verification development

    Faultbox runs services under fault injection: it intercepts their system
    calls with a seccomp supervisor, their packets in a user-space network
    stack and their protocol traffic in proxies, drives them from a Starlark
    specification, and judges the recorded events.  This library models those
    parts as executable definitions and proves what makes them correct.

    ** Parts of the program, and the file that models each

    Standard library.  [Prelude] (this file) has the notations, tactics, the
    monad [Effect] of stateful code that may fail, and the list, map, string and
    integer lemmas that the components share.  [GoStd], [GoRand] and [GoText] are
    what the sources use of Go's own library: binary64 numbers, [strconv], [time],
    [fmt], the PCG generator of [math/rand/v2], [strings], [path/filepath] and
    [encoding/binary].  [Rounding] bounds the error of binary64 quotients and
    products.

    The supervisor ([internal/seccomp], [internal/pathmatch], [internal/engine]).
    [PathMatch] is the glob dialect of path filters; [Seccomp] the filter program
    handed to the kernel, the syscall tables and the decoders of target memory;
    [FaultRule] the rules of [fault.go] with their text format and triggers;
    [HoldQueue] the queues of held calls and the permuted release of [hold.go],
    [permutation.go] and [scheduler.go]; [Session] the state of [session.go] with
    its rule and queue tables, the virtual clock and the resolution of rules to
    syscall numbers; [Notification] the handler and the loop of
    [launch_linux.go].  A handler asks the session for hold rules, then for fault
    rules, and answers the kernel once; other goroutines change the session's
    tables while it is held.

    The packet gateway ([internal/netfault]).  [NetRule] is the view of a packet
    and the rule set; [NetQueue] the heap, the deadline queue, the reorder buffer
    and the shaper; [Packet] parsing, corruption and resets on real headers;
    [Endpoint] the decorated link that ties them together, its handlers, the
    deferred-release goroutine and [Close] interleaved; [Gateway] the addresses of
    the routes between services and the rules installed for each route, published
    together on the one endpoint.

    The specification and its registration ([internal/star], [internal/config],
    [internal/plan], [internal/generate]).  [Registry] has the Starlark values and
    the builtins that fill the runtime's tables; [FaultBuiltins] and [PacketFault]
    the builtins that make fault values; [Order] the start order of services;
    [Plan] the tests a run discovers and the plan that is enumerated without
    running anything; [Generate] the generator of fault scenarios; [Leaf] the
    expansion of a test's nondeterminism into leaves and the loop that runs them.

    The run of a test ([internal/star]).  [EventLog] is the log with its vector
    clocks; [Trace] the questions and assertions about it and its subscribers;
    [Temporal] the [eventually] and [always] expectations and the verdict they
    give.  [Inject] is the runtime a test body acts on, composed of the sessions of
    [Session], the proxies of [ProxyManager], the gateway and the log: faults
    applied and removed, and the runner of a fault scenario.  [Partition] and [Env]
    add partitions and the addresses that services are started with.  [Services] is
    the end of a test, in phases that may fail; [Determinism] the strict mode and
    the search for tests that prove nothing; [Verdict] one test from reset to
    verdict, the suite with its counts, and the exit code of the command.

    The ownership of connections ([internal/connowner]).  [ProcFs] reads the text
    of [/proc]; [ConnOwner] is the tracker that finds the registered process tree
    behind a connection while [/proc] changes at every access; [ConnPool] runs
    any number of such searches beside all other operations of the tracker;
    [ConnQuiet] is the search on a machine where nothing moves.

    The protocol proxies ([internal/proxy], [internal/kafkawire]).  [ProxyCore] has
    the rules ([Rules]), a connection handler's view of the world ([Net]) and the
    lifecycle events of [observability.go] ([Observe]); [ProxyManager] the table of
    running proxies.  [RedisProxy], [MemcachedProxy], [NatsProxy], [PostgresProxy],
    [MysqlProxy], [KafkaProxy], [AmqpProxy], [MongoProxy] and [CassandraProxy] are
    the handlers, one file each; [SqlMatch] is the query matcher two of them call;
    [RawProxies] has the TCP and UDP relays.

    ** How code is translated

    Strings and byte slices are [string]; integers are [Z] with the wrap-around of
    their width written out; [float64] is the binary64 of [SpecFloat].  Errors are
    values of [result], [nil] is [None], and a Go panic is an outcome of its own.
    Objects the code shares by pointer live in a store and are named by address.
    Where the result depends on the order in which Go iterates a map, the order is
    an argument.  A method that holds a mutex for its whole body is one
    transition; code that spans several critical sections is a sequence of steps,
    and the theorems quantify over its interleavings.  A proxy handler is a program
    of the monad [Net.M] over two byte streams: it returns a value, ends with a
    close reason, waits for bytes, or panics; goroutines that run beside it are
    scheduled by an explicit list of turns.  Reads past the bytes that have arrived
    wait, or end as the peer ended.  A Starlark function is a parameter: any change
    of the state with a result.

    Code outside the repository is an interface with its documented laws and an
    instance that satisfies them: the kernel's filter machine ([Seccomp]), packet
    buffers and header codecs ([Packet]), random sources ([NetRule]), Kafka
    message bodies ([KafkaProxy]), BSON encoding ([MongoProxy]), [/proc]
    ([ConnOwner]).

    ** What the theorems show

    Supervisor: the glob matcher decides its grammar; the filter program notifies
    exactly on the requested calls; every notification is answered exactly once,
    under any interleaving with releases and shutdown; the first rule that admits
    a call decides; closing a queue strands no one.
    Packets: every packet that enters is delivered, dropped by a rule, or held;
    deferred packets leave in deadline order; corruption changes the bytes it says
    and repairs checksums; a shaped link carries its bytes at its rate, up to a
    stated float tolerance, and never queues beyond its limit; an address of the
    gateway identifies its route.
    Specification: dependencies start first and circles are refused; what [deny]
    and [delay] return is what was asked for; the keywords of a packet fault mean
    what they say; the plan lists the tests that run and predicts their fan-out;
    leaves are exactly the combinations of the axes, each once.
    Runs: vector clocks characterise causality; the window of an [always] is what
    its anchors say when they come in order; a denial reaches the session; a fault
    scenario leaves nothing behind once its faults were applied, and leaks them
    when they could not be; a partition drops exactly the packets of its routes,
    among them those to the addresses a process was started with; teardown leaves
    nothing for the next test and stops dependents first; strict mode names the
    first call that is not tolerated; a test passes exactly when nothing is wrong
    with it, the suite accounts for every test, and the exit code is zero exactly
    in the stated case.
    Ownership: an attributed owner was seen to hold the connection while it was
    registered; the search ends; on a machine at rest it finds the owner.
    Proxies: the byte-level handlers refine exchanges of messages (what each side
    receives, in order, given what the other sent and the rules), handlers
    terminate, and texts of one query meet the same rules.
    Some theorems state defects: a stall, a desynchronisation, a panic, a lost or
    split frame.  They are listed in the manifest as findings.

    ** Bounds and fuel

    Recursions that are not structural take fuel and come with a lemma that a
    stated amount is enough: the pattern length for globs ([match_here_total]),
    twice the bytes received for RESP replies, one more than the bytes received
    for the message loops of the proxies, the sum of lengths for heaps, the number
    of services plus two for the walks over dependencies ([Order], [Verdict]), one
    more than the 4096 processes the code stops at for a process tree, and one more
    than the bindings for a chain of forwarded connections ([ConnOwner]).  Handlers are run for a
    number of rounds; the termination theorems show that more rounds than bytes
    always suffice.  Proxy refinements assume rules without a probability
    ([certain]); [rule_loop_picks] covers the probabilistic ones draw by draw.
    Counters that a theorem needs not to wrap are bounded in its hypotheses.

    ** What is coarser than the code

    A notification handler is one transition up to its answer, the sleep of a
    delay included; only a held call is interrupted.  The readings of [/proc] for
    one registered tree are one step with respect to the tracker, though [/proc]
    itself changes between them.  [ConnQuiet.healthy] describes a process tree by
    what the code's own reader of [children] files gives.  A phase of the teardown
    that fails says whether its change was made; a phase given up on a timeout does
    not act later.  The body of a test that does not end after its cancellation is
    waited for.  Instants are integers: the saturation of time differences at 292
    years is left out.  Read deadlines are left out: a read that would time out
    waits.

    ** Not modelled

    Process creation, ptrace-free launch and file-descriptor passing; the gVisor
    stack, its devices, listeners and relays; containers and the start of
    services; the HTTP-family proxies, which are library servers; accept loops and
    TLS; file watches; protocol clients; the Starlark interpreter and the loading
    of files; the declarations of services and mocks; report rendering, bundles,
    the command line apart from its exit code, and the MCP server.  They are input
    and output, or calls into libraries that are not part of the repository. *)

From stdpp Require Import base gmap strings list numbers pretty sorting.
From Stdlib Require Import ZArith Lia Ascii.

(** Notations of the development live in a scope of their own. *)
Declare Scope faultbox_scope.
Delimit Scope faultbox_scope with fb.
Open Scope faultbox_scope.
Local Open Scope Z_scope.

(** Closing lemmas of the components: frame conditions, bounds and the like. *)
Create HintDb faultbox.

(** Splits a goal or hypothesis on the outermost matched term and cleans up. *)
Ltac step_match :=
  match goal with
  | |- context [match ?x with _ => _ end] => destruct x eqn:?
  | H : context [match ?x with _ => _ end] |- _ => destruct x eqn:?
  end; simplify_eq/=.

(** ** Results: Go's [(T, error)] pairs *)

Inductive result (E A : Type) : Type :=
| Ok (a : A)
| Err (e : E).
Arguments Ok {E A} a.
Arguments Err {E A} e.

Definition result_bind {E A B} (r : result E A) (k : A -> result E B) : result E B :=
  match r with Ok a => k a | Err e => Err e end.

Notation "'let?' x ':=' r 'in' k" := (result_bind r (fun x => k))
  (at level 10, x binder, r at level 100, k at level 200) : faultbox_scope.

Definition is_ok {E A} (r : result E A) : bool :=
  match r with Ok _ => true | Err _ => false end.

(** A loop over a slice that stops at the first error. *)
Fixpoint result_mapM {E A B} (f : A -> result E B) (l : list A) : result E (list B) :=
  match l with
  | [] => Ok []
  | x :: l => let? y := f x in let? ys := result_mapM f l in Ok (y :: ys)
  end.

Lemma result_mapM_ok {E A B} (f : A -> result E B) l ys :
  result_mapM f l = Ok ys <-> Forall2 (fun x y => f x = Ok y) l ys.
Proof.
  revert ys; induction l as [|x l IH]; intros ys; cbn; split; intros H.
  - by simplify_eq.
  - by inversion H.
  - destruct (f x) eqn:Hx; cbn in H; [|done].
    destruct (result_mapM f l) eqn:Hl; cbn in H; [|done].
    simplify_eq. constructor; [done|by apply IH].
  - inversion H as [|? y ? ys' Hx Hl]; subst.
    rewrite Hx; cbn. apply IH in Hl. by rewrite Hl.
Qed.

(** ** Machine integers

    Go's fixed-width integers are [Z] with the wrap-around written out. *)

Definition wrap_u (w z : Z) : Z := z mod 2 ^ w.
Definition wrap_s (w z : Z) : Z := (z + 2 ^ (w - 1)) mod 2 ^ w - 2 ^ (w - 1).

Abbreviation u8 := (wrap_u 8).
Abbreviation u16 := (wrap_u 16).
Abbreviation u32 := (wrap_u 32).
Abbreviation u64 := (wrap_u 64).
Abbreviation i32 := (wrap_s 32).
Abbreviation i64 := (wrap_s 64).

Lemma wrap_u_range w z : 0 <= w -> 0 <= wrap_u w z < 2 ^ w.
Proof. intros. unfold wrap_u. apply Z.mod_pos_bound. lia. Qed.

Lemma wrap_u_small w z : 0 <= z < 2 ^ w -> wrap_u w z = z.
Proof. intros. unfold wrap_u. by apply Z.mod_small. Qed.

Lemma wrap_s_small w z :
  0 < w -> - 2 ^ (w - 1) <= z < 2 ^ (w - 1) -> wrap_s w z = z.
Proof.
  intros Hw Hz. unfold wrap_s.
  assert (2 ^ w = 2 * 2 ^ (w - 1)) as Hp.
  { replace w with (Z.succ (w - 1)) at 1 by lia. apply Z.pow_succ_r. lia. }
  rewrite Z.mod_small; lia.
Qed.

Lemma wrap_s_range w z :
  0 < w -> - 2 ^ (w - 1) <= wrap_s w z < 2 ^ (w - 1).
Proof.
  intros Hw. unfold wrap_s.
  assert (2 ^ w = 2 * 2 ^ (w - 1)) as Hp.
  { replace w with (Z.succ (w - 1)) at 1 by lia. apply Z.pow_succ_r. lia. }
  pose proof (Z.mod_pos_bound (z + 2 ^ (w - 1)) (2 ^ w)). lia.
Qed.

(** Go's [/] and [%] on integers truncate toward zero. *)
Abbreviation go_div := Z.quot.
Abbreviation go_mod := Z.rem.

(** ** Go strings

    A Go string is a sequence of bytes: Rocq's [string], one [ascii] per byte.
    The case and white-space functions of package [strings] are those of its
    ASCII fast path; a byte of 128 or more is neither white space nor a letter. *)

Abbreviation slen := String.length.

(** [s[n:]]; Go panics when [n] is past the end, so callers stay within it. *)
Fixpoint sdrop (n : nat) (s : string) : string :=
  match n, s with
  | O, _ => s
  | S n, String _ s => sdrop n s
  | S _, EmptyString => EmptyString
  end.

Definition is_space (c : ascii) : bool :=
  let n := nat_of_ascii c in (n =? 32)%nat || ((9 <=? n)%nat && (n <=? 13)%nat).

Fixpoint trim_left (s : string) : string :=
  match s with
  | String c r => if is_space c then trim_left r else s
  | EmptyString => EmptyString
  end.

Fixpoint trim_right (s : string) : string :=
  match s with
  | EmptyString => EmptyString
  | String c r =>
      match trim_right r with
      | EmptyString => if is_space c then EmptyString else String c EmptyString
      | r' => String c r'
      end
  end.

Definition trim_space (s : string) : string := trim_right (trim_left s).

Definition ascii_upper (c : ascii) : ascii :=
  let n := nat_of_ascii c in
  if (97 <=? n)%nat && (n <=? 122)%nat then ascii_of_nat (n - 32) else c.

Definition ascii_lower (c : ascii) : ascii :=
  let n := nat_of_ascii c in
  if (65 <=? n)%nat && (n <=? 90)%nat then ascii_of_nat (n + 32) else c.

Fixpoint smap (f : ascii -> ascii) (s : string) : string :=
  match s with EmptyString => EmptyString | String c r => String (f c) (smap f r) end.

Definition to_upper : string -> string := smap ascii_upper.
Definition to_lower : string -> string := smap ascii_lower.

(** [strings.Cut] on a one-byte separator. *)
Fixpoint scut (sep : ascii) (s : string) : option (string * string) :=
  match s with
  | EmptyString => None
  | String c r =>
      if Ascii.eqb c sep then Some (EmptyString, r)
      else match scut sep r with
           | Some (a, b) => Some (String c a, b)
           | None => None
           end
  end.

(** [strings.SplitN(s, sep, n)] for [n >= 0], and [strings.Split]. *)
Fixpoint split_n (sep : ascii) (n : nat) (s : string) : list string :=
  match n with
  | O => []
  | S O => [s]
  | S m => match scut sep s with
           | Some (a, b) => a :: split_n sep m b
           | None => [s]
           end
  end.

Definition split_all (sep : ascii) (s : string) : list string :=
  split_n sep (S (S (slen s))) s.

Definition has_prefix (p s : string) : bool := String.prefix p s.

Definition has_suffix (p s : string) : bool :=
  (slen p <=? slen s)%nat && String.eqb (sdrop (slen s - slen p) s) p.

(** [strings.CutSuffix]: the part before the suffix, when it is there. *)
Definition cut_suffix (s suf : string) : option string :=
  if has_suffix suf s then Some (String.substring 0 (slen s - slen suf) s) else None.

Definition trim_suffix (s suf : string) : string := default s (cut_suffix s suf).
Definition trim_prefix (s pre : string) : string :=
  if has_prefix pre s then sdrop (slen pre) s else s.

Fixpoint contains (sub s : string) : bool :=
  has_prefix sub s ||
  match s with EmptyString => false | String _ r => contains sub r end.

(** Go compares strings bytewise. *)
Definition str_lt (a b : string) : bool := String.ltb a b.

(** [strconv.Atoi]: an optional sign, then one or more decimal digits, in the
    range of a 64-bit [int]. *)
Definition digit_of (c : ascii) : option Z :=
  let n := Z.of_nat (nat_of_ascii c) in
  if (48 <=? n) && (n <=? 57) then Some (n - 48) else None.

Fixpoint digits_value (acc : Z) (s : string) : option Z :=
  match s with
  | EmptyString => Some acc
  | String c r => match digit_of c with
                  | Some d => digits_value (10 * acc + d) r
                  | None => None
                  end
  end.

Definition unsigned_value (s : string) : option Z :=
  match s with EmptyString => None | _ => digits_value 0 s end.

Definition in_int64 (z : Z) : bool := (- 2 ^ 63 <=? z) && (z <? 2 ^ 63).

Definition signed_value (s : string) : option Z :=
  match s with
  | String "-" r => Z.opp <$> unsigned_value r
  | String "+" r => unsigned_value r
  | _ => unsigned_value s
  end.

Definition atoi (s : string) : option Z :=
  match signed_value s with
  | Some z => if in_int64 z then Some z else None
  | None => None
  end.

(** [fmt]'s [%d]. *)
Definition show_Z (z : Z) : string := pretty z.

(** *** Facts about strings *)

Lemma sdrop_0 s : sdrop 0 s = s.
Proof. by destruct s. Qed.

Lemma slen_sdrop n s : slen (sdrop n s) = (slen s - n)%nat.
Proof. revert s; induction n; intros [|c s]; cbn; rewrite ?IHn; lia. Qed.

Lemma string_app_cons c a b : String c a +:+ b = String c (a +:+ b).
Proof. done. Qed.

Lemma slen_app a b : slen (a +:+ b) = (slen a + slen b)%nat.
Proof. induction a as [|c a IH]; [done|]. rewrite string_app_cons; simpl. by rewrite IH. Qed.

Lemma sdrop_app a b : sdrop (slen a) (a +:+ b) = b.
Proof. by induction a as [|c a IH]. Qed.

Lemma sdrop_sdrop n m s : sdrop n (sdrop m s) = sdrop (m + n) s.
Proof.
  revert s; induction m; intros s; [by rewrite sdrop_0|].
  destruct s; cbn; [by destruct n|apply IHm].
Qed.

Lemma has_prefix_app p s : has_prefix p (p +:+ s) = true.
Proof.
  unfold has_prefix. induction p as [|c p IH]; [by destruct s|].
  rewrite string_app_cons; simpl. by destruct (ascii_dec c c).
Qed.

Lemma string_app_nil s : s +:+ "" = s.
Proof. induction s as [|c s IH]; [done|]. by rewrite string_app_cons, IH. Qed.

Lemma string_app_assoc a b c : (a +:+ b) +:+ c = a +:+ (b +:+ c).
Proof. induction a as [|x a IH]; [done|]. by rewrite !string_app_cons, IH. Qed.

(** *** Characters of a string *)

Fixpoint sall (f : ascii -> bool) (s : string) : bool :=
  match s with EmptyString => true | String c r => f c && sall f r end.

Definition is_not (c d : ascii) : bool := negb (Ascii.eqb d c).
Definition not_space (c : ascii) : bool := negb (is_space c).

Lemma sall_app f a b : sall f (a +:+ b) = sall f a && sall f b.
Proof.
  induction a as [|c a IH]; [done|]. rewrite string_app_cons. simpl. by rewrite IH, andb_assoc.
Qed.

Lemma sall_impl (f g : ascii -> bool) s :
  (forall c, f c = true -> g c = true) -> sall f s = true -> sall g s = true.
Proof.
  intros Hfg. induction s as [|c s IH]; simpl; [done|].
  rewrite !andb_true_iff. intros [H1 H2]. auto.
Qed.

Lemma scut_app sep a b :
  sall (is_not sep) a = true -> scut sep (a +:+ String sep b) = Some (a, b).
Proof.
  induction a as [|c a IH]; intros Ha.
  - change ("" +:+ String sep b) with (String sep b). simpl. by rewrite Ascii.eqb_refl.
  - rewrite string_app_cons. simpl in *. apply andb_true_iff in Ha as [Hc Ha].
    unfold is_not in Hc. apply negb_true_iff in Hc. rewrite Hc. by rewrite IH.
Qed.

Lemma scut_none sep a : sall (is_not sep) a = true -> scut sep a = None.
Proof.
  induction a as [|c a IH]; simpl; [done|]. intros [Hc Ha]%andb_true_iff.
  unfold is_not in Hc. apply negb_true_iff in Hc. by rewrite Hc, IH.
Qed.

Lemma trim_space_nospace s : sall not_space s = true -> trim_space s = s.
Proof.
  unfold trim_space. intros H.
  assert (trim_left s = s) as ->.
  { destruct s; simpl in *; [done|]. unfold not_space in H. by destruct (is_space a). }
  induction s as [|c s IH]; simpl in *; [done|]. apply andb_true_iff in H as [Hc H].
  rewrite (IH H). unfold not_space in Hc. by destruct s; destruct (is_space c).
Qed.

Lemma has_prefix_length p s : has_prefix p s = true -> (slen p <= slen s)%nat.
Proof.
  unfold has_prefix. revert s. induction p as [|c p IH]; intros [|d s]; simpl; try (done || lia).
  destruct (ascii_dec c d); [|done]. intros H. apply IH in H. lia.
Qed.

Lemma trim_prefix_app p s : trim_prefix (p +:+ s) p = s.
Proof. unfold trim_prefix. by rewrite has_prefix_app, sdrop_app. Qed.

(** *** Decimal printing and reading *)

Lemma digit_of_pretty_N_char n :
  (n < 10)%N -> digit_of (pretty_N_char n) = Some (Z.of_N n).
Proof.
  intros Hn. destruct n as [|p]; [done|].
  do 4 (destruct p as [p|p|]; try done; try lia).
Qed.

Lemma digits_value_pretty x : forall s, digits_value 0 (pretty_N_go x s) = digits_value (Z.of_N x) s.
Proof.
  induction x as [x IH] using (well_founded_induction N.lt_wf_0). intros s.
  destruct (decide (x = 0%N)) as [->|Hx]; [by rewrite pretty_N_go_0|].
  rewrite pretty_N_go_step by lia. rewrite IH by (apply N.div_lt; lia). simpl.
  rewrite digit_of_pretty_N_char by (apply N.mod_lt; lia).
  f_equal. rewrite N2Z.inj_div, N2Z.inj_mod. pose proof (Z.div_mod (Z.of_N x) 10). lia.
Qed.

Lemma pretty_N_go_nonempty x s : s <> "" -> pretty_N_go x s <> "".
Proof.
  revert s. induction x as [x IH] using (well_founded_induction N.lt_wf_0). intros s Hs.
  destruct (decide (x = 0%N)) as [->|Hx]; [by rewrite pretty_N_go_0|].
  rewrite pretty_N_go_step by lia. apply IH; [apply N.div_lt; lia|done].
Qed.

Lemma unsigned_value_digits s : s <> "" -> unsigned_value s = digits_value 0 s.
Proof. by destruct s. Qed.

Lemma pretty_N_value (x : N) : unsigned_value (pretty x) = Some (Z.of_N x).
Proof.
  unfold pretty, pretty_N. case_decide as Hx; [by subst|].
  rewrite unsigned_value_digits.
  - by rewrite digits_value_pretty.
  - rewrite pretty_N_go_step by lia. by apply pretty_N_go_nonempty.
Qed.

Definition is_digit_char (c : ascii) : bool := bool_decide (is_Some (digit_of c)).

Lemma digits_value_sall acc s z : digits_value acc s = Some z -> sall is_digit_char s = true.
Proof.
  revert acc. induction s as [|c s IH]; intros acc; simpl; [done|].
  destruct (digit_of c) eqn:E; [|done]. intros H. apply andb_true_iff. split.
  - unfold is_digit_char. rewrite E. by apply bool_decide_eq_true_2.
  - by eapply IH.
Qed.

Lemma show_Z_nonneg z : 0 <= z -> show_Z z = pretty (Z.to_N z).
Proof. by destruct z. Qed.

Lemma show_Z_value z : 0 <= z -> unsigned_value (show_Z z) = Some z.
Proof. intros Hz. rewrite show_Z_nonneg, pretty_N_value by done. f_equal. lia. Qed.

Lemma show_Z_digits z : 0 <= z -> sall is_digit_char (show_Z z) = true.
Proof.
  intros Hz. pose proof (show_Z_value z Hz) as H. unfold unsigned_value in H.
  destruct (show_Z z) eqn:E; [done|]. by eapply digits_value_sall.
Qed.

Lemma atoi_show z : 0 <= z < 2 ^ 63 -> atoi (show_Z z) = Some z.
Proof.
  intros Hz. pose proof (show_Z_value z ltac:(lia)) as H.
  pose proof (show_Z_digits z ltac:(lia)) as Hd. unfold atoi.
  assert (signed_value (show_Z z) = unsigned_value (show_Z z)) as ->.
  { destruct (show_Z z) as [|c r]; [done|]. simpl in Hd. apply andb_true_iff in Hd as [Hc _].
    by destruct c as [[] [] [] [] [] [] [] []]. }
  rewrite H. unfold in_int64.
  by rewrite (proj2 (Z.leb_le _ _)), (proj2 (Z.ltb_lt _ _)) by lia.
Qed.

Lemma atoi_range s n : atoi s = Some n -> - 2 ^ 63 <= n < 2 ^ 63.
Proof.
  unfold atoi, in_int64. destruct (signed_value s) as [z|]; [|done].
  destruct (_ && _) eqn:E; [|done]. intros [= ->].
  apply andb_true_iff in E as [?%Z.leb_le ?%Z.ltb_lt]. lia.
Qed.

(** *** Joining and splitting *)

Fixpoint sjoin (sep : ascii) (l : list string) : string :=
  match l with
  | [] => ""
  | [x] => x
  | x :: l => x +:+ String sep (sjoin sep l)
  end.

Lemma split_n_join sep l : forall n,
  l <> [] -> (length l <= n)%nat -> Forall (fun x => sall (is_not sep) x = true) l ->
  split_n sep n (sjoin sep l) = l.
Proof.
  induction l as [|x l IH]; intros n Hne Hn HF; [done|].
  inversion HF as [|? ? Hx Hl]; subst. destruct n as [|n]; [simpl in Hn; lia|].
  destruct l as [|y l].
  - simpl. destruct n; [done|]. by rewrite scut_none.
  - destruct n as [|n]; [simpl in Hn; lia|].
    change (sjoin sep (x :: y :: l)) with (x +:+ String sep (sjoin sep (y :: l))).
    cbn [split_n]. rewrite scut_app by done. f_equal. apply (IH (S n)); [done| |done]. simpl in *. lia.
Qed.

Lemma length_sjoin sep l : (length l <= S (slen (sjoin sep l)))%nat.
Proof.
  induction l as [|x [|y l] IH]; [simpl; lia..|].
  change (sjoin sep (x :: y :: l)) with (x +:+ String sep (sjoin sep (y :: l))).
  rewrite slen_app. simpl in *. lia.
Qed.

(** [strings.Split] undoes [strings.Join]. *)
Lemma split_all_join sep l :
  l <> [] -> Forall (fun x => sall (is_not sep) x = true) l -> split_all sep (sjoin sep l) = l.
Proof.
  intros Hne HF. unfold split_all. apply split_n_join; [done| |done].
  pose proof (length_sjoin sep l). lia.
Qed.

Lemma sall_sjoin f sep l :
  f sep = true -> Forall (fun x => sall f x = true) l -> sall f (sjoin sep l) = true.
Proof.
  intros Hsep. induction 1 as [|x l Hx Hl IH]; [done|]. destruct l as [|y l]; [done|].
  change (sjoin sep (x :: y :: l)) with (x +:+ String sep (sjoin sep (y :: l))).
  rewrite sall_app, Hx. cbn [sall andb]. by rewrite Hsep, IH.
Qed.

Lemma sjoin_nonempty sep l : l <> [] -> Forall (fun x => x <> "") l -> sjoin sep l <> "".
Proof.
  intros Hne HF. destruct HF as [|x l Hx _]; [done|]. destruct l as [|y l]; [done|].
  change (sjoin sep (x :: y :: l)) with (x +:+ String sep (sjoin sep (y :: l))).
  by destruct x.
Qed.

Lemma split_n_2 sep a b :
  sall (is_not sep) a = true -> split_n sep 2 (a +:+ String sep b) = [a; b].
Proof. intros Ha. cbn [split_n]. by rewrite scut_app. Qed.

(** ** Lists *)

Lemma filter_ext_elem {A} (P Q : A -> Prop) `{!forall x, Decision (P x), !forall x, Decision (Q x)}
    (l : list A) :
  (forall x, x ∈ l -> P x <-> Q x) -> filter P l = filter Q l.
Proof.
  induction l as [|x l IH]; intros Hpq; [done|]. rewrite !filter_cons.
  rewrite IH by (intros; apply Hpq; by right).
  pose proof (Hpq x (list_elem_of_here _ _)) as Hx.
  destruct (decide (P x)), (decide (Q x)); tauto.
Qed.

Lemma filter_all {A} (P : A -> Prop) `{!forall x, Decision (P x)} (l : list A) :
  (forall x, x ∈ l -> P x) -> filter P l = l.
Proof.
  induction l as [|x l IH]; intros Hp; [done|].
  rewrite filter_cons, decide_True, IH; [done| |by apply Hp; left].
  intros; apply Hp; by right.
Qed.

Lemma filter_none {A} (P : A -> Prop) `{!forall x, Decision (P x)} (l : list A) :
  (forall x, x ∈ l -> ~ P x) -> filter P l = [].
Proof.
  induction l as [|x l IH]; intros Hp; [done|].
  rewrite filter_cons, decide_False, IH; [done| |by apply Hp; left].
  intros; apply Hp; by right.
Qed.

(** Pointwise relations that agree where it matters. *)
Lemma Forall2_iff {A B} (P R S : A -> B -> Prop) l k :
  Forall2 P l k -> (forall a b, P a b -> R a b <-> S a b) -> Forall2 R l k <-> Forall2 S l k.
Proof.
  intros HP HRS. induction HP as [|a b l k Hab _ IH]; [split; intros; constructor|].
  split; intros HF; inversion HF; subst; constructor; try (by apply IH); by apply (HRS a b Hab).
Qed.

Lemma Forall2_iff_l {A B} (P : A -> Prop) (R S : A -> B -> Prop) l k :
  Forall P l -> (forall a b, P a -> R a b <-> S a b) -> Forall2 R l k <-> Forall2 S l k.
Proof.
  intros HP HRS. revert k. induction HP as [|a l Ha _ IH]; intros k.
  - split; intros HF; inversion HF; constructor.
  - split; intros HF; inversion HF; subst; constructor; try (by apply IH); by apply HRS.
Qed.

(** Counting occurrences, and permutations by counting. *)
Definition occ {A} `{EqDecision A} (x : A) (l : list A) : nat := length (filter (x =.) l).

Lemma occ_app {A} `{EqDecision A} (x : A) l k : occ x (l ++ k) = (occ x l + occ x k)%nat.
Proof. unfold occ. by rewrite filter_app, length_app. Qed.

Lemma occ_cons {A} `{EqDecision A} (x y : A) l : occ x (y :: l) = (occ x [y] + occ x l)%nat.
Proof. apply (occ_app x [y] l). Qed.

Lemma occ_nil {A} `{EqDecision A} (x : A) : occ x [] = 0%nat.
Proof. done. Qed.

Lemma Permutation_occ {A} `{EqDecision A} (x : A) l k : l ≡ₚ k -> occ x l = occ x k.
Proof. intros Hp. unfold occ. by rewrite Hp. Qed.

Lemma occ_Permutation {A} `{EqDecision A} (l k : list A) :
  (forall x, occ x l = occ x k) -> l ≡ₚ k.
Proof.
  revert k. induction l as [|y l IH]; intros k Hk.
  - destruct k as [|z k]; [done|]. specialize (Hk z). rewrite (occ_cons z z k) in Hk.
    unfold occ at 2 in Hk. rewrite filter_cons_True in Hk by done. done.
  - assert (y ∈ k) as (k1 & k2 & ->)%list_elem_of_split.
    { specialize (Hk y). destruct (decide (y ∈ k)) as [|Hn]; [done|].
      rewrite occ_cons in Hk. unfold occ in Hk. rewrite filter_cons_True in Hk by done.
      destruct (filter (y =.) k) as [|z f] eqn:E; [done|].
      assert (z ∈ filter (y =.) k) as [-> Hz]%list_elem_of_filter by (rewrite E; by left). done. }
    rewrite <- Permutation_middle. f_equiv. apply IH. intros x. specialize (Hk x).
    rewrite occ_cons, occ_app, (occ_cons x y k2) in Hk. rewrite occ_app. lia.
Qed.

(** Closes a permutation of concatenations by counting. *)
Ltac perm_solve :=
  apply occ_Permutation;
  let x := fresh "x" in intros x;
  repeat match goal with H : _ ≡ₚ _ |- _ => apply (Permutation_occ x) in H end;
  repeat match goal with
         | H : context [occ x (_ ++ _)] |- _ => rewrite occ_app in H
         | H : context [occ x (?y :: ?l)] |- _ =>
             lazymatch l with [] => fail | _ => rewrite (occ_cons x y l) in H end
         | |- context [occ x (_ ++ _)] => rewrite occ_app
         | |- context [occ x (?y :: ?l)] =>
             lazymatch l with [] => fail | _ => rewrite (occ_cons x y l) end
         end;
  rewrite ?occ_nil in *; lia.

(** Reading a list at a run of positions. *)
Lemma omap_lookup_drop {A} (l : list A) (k : Z) :
  0 <= k <= Z.of_nat (length l) ->
  omap (fun i => l !! Z.to_nat i) (seqZ k (Z.of_nat (length l) - k)) = drop (Z.to_nat k) l.
Proof.
  intros Hk. remember (Z.to_nat (Z.of_nat (length l) - k)) as m eqn:Hm. revert k Hk Hm.
  induction m as [|m IH]; intros k Hk Hm.
  - replace (Z.of_nat (length l) - k) with 0 by lia. by rewrite drop_ge by lia.
  - destruct (lookup_lt_is_Some_2 l (Z.to_nat k)) as [x Hx]; [lia|].
    rewrite seqZ_cons by lia. cbn [omap list_omap]. rewrite Hx.
    rewrite (drop_S _ _ _ Hx). f_equal.
    specialize (IH (Z.succ k) ltac:(lia) ltac:(lia)).
    replace (Z.pred (Z.of_nat (length l) - k)) with (Z.of_nat (length l) - Z.succ k) by lia.
    by replace (S (Z.to_nat k)) with (Z.to_nat (Z.succ k)) by lia.
Qed.

Lemma NoDup_fmap_filter {A B} (f : A -> B) (p : A -> bool) l : NoDup (f <$> l) -> NoDup (f <$> List.filter p l).
Proof.
  induction l as [|x l IH]; cbn; [done|]. intros [Hx Hl]%NoDup_cons. destruct (p x); cbn; [|by apply IH].
  constructor; [|by apply IH]. contradict Hx. apply list_elem_of_fmap in Hx as (y & -> & Hy). apply list_elem_of_fmap_2.
  apply list_elem_of_In, List.filter_In in Hy as [Hy _]. by apply list_elem_of_In.
Qed.

(** ** The first element of a list that meets a condition *)

Lemma find_app {A} (f : A -> bool) l1 l2 : List.find f (l1 ++ l2) = match List.find f l1 with Some x => Some x | None => List.find f l2 end.
Proof. induction l1 as [|x l1 IH]; [done|]. cbn. by destruct (f x). Qed.

Lemma find_ext_in {A} (f g : A -> bool) l : (forall x, x ∈ l -> f x = g x) -> List.find f l = List.find g l.
Proof.
  induction l as [|x l IH]; intros H; [done|]. cbn. rewrite H by (by left). destruct (g x); [done|]. apply IH. intros y Hy. apply H. by right.
Qed.

Lemma find_ext {A} (f g : A -> bool) l : (forall x, f x = g x) -> List.find f l = List.find g l.
Proof. intros H. apply find_ext_in. auto. Qed.

(** ** State with errors: code that changes a state and may fail, keeping the changes made so far *)
Module Effect.

Definition SE (S E A : Type) : Type := S -> result E A * S.

Section Operations.
Context {S E : Type}.

Definition ret {A} (a : A) : SE S E A := fun s => (Ok a, s).
Definition fail {A} (e : E) : SE S E A := fun s => (Err e, s).
Definition bind {A B} (m : SE S E A) (k : A -> SE S E B) : SE S E B :=
  fun s => match m s with (Ok a, s) => k a s | (Err e, s) => (Err e, s) end.
Definition modify (f : S -> S) : SE S E unit := fun s => (Ok tt, f s).
Definition lift {A} (r : result E A) : SE S E A := fun s => (r, s).

(** [defer g()] after [m] has begun: [g] runs whether [m] returns or fails. *)
Definition deferring {A} (g : S -> S) (m : SE S E A) : SE S E A := fun s => let '(r, s) := m s in (r, g s).

(** A loop over the elements of a list, with their indexes. *)
Fixpoint each {A B} (f : nat -> A -> SE S E B) (i : nat) (l : list A) : SE S E (list B) :=
  match l with
  | [] => ret []
  | x :: l => bind (f i x) (fun y => bind (each f (Datatypes.S i) l) (fun ys => ret (y :: ys)))
  end.

(** A loop that threads a value. *)
Fixpoint over {A T} (f : T -> A -> SE S E T) (t : T) (l : list A) : SE S E T :=
  match l with [] => ret t | x :: l => bind (f t x) (fun t => over f t l) end.

Lemma bind_ok {A B} (m : SE S E A) (k : A -> SE S E B) a s s' : m s = (Ok a, s') -> bind m k s = k a s'.
Proof. intros H. unfold bind. by rewrite H. Qed.

Lemma each_ok {A B C} (f : nat -> B -> SE S E C) (g : A -> B) (h : A -> C) i l s :
  (forall i x, f i (g x) = ret (h x)) -> each f i (g <$> l) s = (Ok (h <$> l), s).
Proof.
  intros Hf. revert i. induction l as [|x l IH]; intros i; [done|]. cbn. rewrite Hf. unfold bind at 1. cbn. unfold bind at 1.
  by rewrite IH.
Qed.

(** A computation keeps a property of the state, whether it succeeds or fails. *)
Definition keeps (P : S -> Prop) {A} (m : SE S E A) : Prop := forall s, P s -> P (m s).2.

Context (P : S -> Prop).

Lemma keeps_ret {A} (a : A) : keeps P (ret a).
Proof. by intros s. Qed.
Lemma keeps_fail {A} e : keeps P (@fail A e).
Proof. by intros s. Qed.
Lemma keeps_lift {A} (r : result E A) : keeps P (lift r).
Proof. by intros s. Qed.
Lemma keeps_modify f : (forall s, P s -> P (f s)) -> keeps P (modify f).
Proof. intros H s. apply H. Qed.
Lemma keeps_bind {A B} (m : SE S E A) (k : A -> SE S E B) : keeps P m -> (forall a, keeps P (k a)) -> keeps P (bind m k).
Proof.
  intros Hm Hk s Hs. unfold bind. specialize (Hm s Hs). destruct (m s) as [[a|e] s']; [|done]. by apply Hk.
Qed.
Lemma keeps_deferring {A} g (m : SE S E A) : (forall s, P s -> P (g s)) -> keeps P m -> keeps P (deferring g m).
Proof. intros Hg Hm s Hs. unfold deferring. specialize (Hm s Hs). destruct (m s) as [r s']. by apply Hg. Qed.
Lemma keeps_each_in {A B} (f : nat -> A -> SE S E B) i l : (forall i x, x ∈ l -> keeps P (f i x)) -> keeps P (each f i l).
Proof.
  revert i. induction l as [|x l IH]; intros i Hf; [apply keeps_ret|].
  apply keeps_bind; [apply Hf; by left|]. intros y. apply keeps_bind; [apply IH; intros; apply Hf; by right|].
  intros ys. apply keeps_ret.
Qed.
Lemma keeps_each {A B} (f : nat -> A -> SE S E B) i l : (forall i x, keeps P (f i x)) -> keeps P (each f i l).
Proof. intros Hf. apply keeps_each_in. auto. Qed.
Lemma keeps_over {A T} (f : T -> A -> SE S E T) t l : (forall t x, keeps P (f t x)) -> keeps P (over f t l).
Proof. intros Hf. revert t. induction l as [|x l IH]; intros t; [apply keeps_ret|]. by apply keeps_bind. Qed.

End Operations.

Create HintDb keeps discriminated.
#[export] Hint Resolve keeps_ret keeps_fail keeps_lift keeps_bind keeps_each keeps_over : keeps.

(** Case analysis on the arguments that code looks at. *)
Ltac keeps_cases :=
  repeat match goal with
  | |- keeps _ (match ?x with _ => _ end) => destruct x
  | |- keeps _ (bind _ _) => apply keeps_bind; [|intros ?]
  | |- keeps _ (each _ _ _) => apply keeps_each; intros ? ?
  | |- keeps _ (over _ _ _) => apply keeps_over; intros ? ?
  | |- keeps _ (ret _) => apply keeps_ret
  | |- keeps _ (lift _) => apply keeps_lift
  | |- keeps _ (fail _) => apply keeps_fail
  end.

Declare Scope effect_scope.
Delimit Scope effect_scope with effect.
Notation "x ⇐ m ; k" := (bind m (fun x => k)) (at level 20, m at level 100, k at level 200) : effect_scope.
Notation "m ;; k" := (bind m (fun _ => k)) (at level 100, k at level 200, right associativity) : effect_scope.

End Effect.
