(* ===== verification/GoStd.v ===== *)
(** * The standard-library functions the components call

    Go's [float64] as the IEEE-754 binary64 of Stdlib's [SpecFloat], and the text
    conversions of [strconv], [time] and [fmt] that the rule parsers use:
    [ParseFloat], [ParseDuration] and the [%.0f] verb. *)

From stdpp Require Import base strings list numbers pretty.
From Stdlib Require Import ZArith Lia SpecFloat Ascii.
From S2P Require Import Prelude.
Local Open Scope Z_scope.

Module GoStd.

(** ** float64 *)

Abbreviation float64 := spec_float.

#[export] Instance float64_eq_dec : EqDecision float64.
Proof. solve_decision. Defined.

Definition f64_prec : Z := 53.
Definition f64_emax : Z := 1024.

Definition f64_of_Z (z : Z) : float64 := binary_normalize f64_prec f64_emax z 0 false.
Definition f64_mul : float64 -> float64 -> float64 := SFmul f64_prec f64_emax.
Definition f64_div : float64 -> float64 -> float64 := SFdiv f64_prec f64_emax.

(** Comparisons; every one of them is false on a NaN. *)
Definition f64_lt (x y : float64) : bool := SFltb x y.
Definition f64_le (x y : float64) : bool := SFleb x y.
Definition f64_gt (x y : float64) : bool := SFltb y x.
Definition f64_ge (x y : float64) : bool := SFleb y x.

Definition f64_0 : float64 := f64_of_Z 0.
Definition f64_1 : float64 := f64_of_Z 1.

(** Conversion to an integer truncates toward zero. *)
Definition f64_trunc (x : float64) : Z :=
  match x with
  | S754_finite s m e =>
      let v := if 0 <=? e then Z.pos m * 2 ^ e else Z.pos m / 2 ^ (- e) in
      if s then - v else v
  | _ => 0
  end.

(** [int64(x)] on amd64: a value out of range, infinite or not a number becomes
    the smallest integer. *)
Definition f64_to_int64 (x : float64) : Z :=
  match x with
  | S754_zero _ => 0
  | S754_finite _ _ _ => let v := f64_trunc x in if in_int64 v then v else - 2 ^ 63
  | _ => - 2 ^ 63
  end.

(** The float nearest to [num / den * 2^e] for a positive [den]; ties to even. *)
Definition f64_ratio (neg : bool) (num : Z) (den : positive) (e : Z) : float64 :=
  match num with
  | Z.pos m => SFdiv f64_prec f64_emax (S754_finite neg m e) (S754_finite false den 0)
  | _ => S754_zero neg
  end.

Definition is_finite (x : float64) : bool :=
  match x with S754_zero _ | S754_finite _ _ _ => true | _ => false end.

(** ** strconv.ParseFloat *)

Definition lower_is (c d : ascii) : bool := Ascii.eqb (ascii_lower c) d.
Definition is_digit (c : ascii) : bool := bool_decide (is_Some (digit_of c)).

Definition hex_value (c : ascii) : option Z :=
  match digit_of c with
  | Some d => Some d
  | None =>
      let n := Z.of_nat (nat_of_ascii (ascii_lower c)) in
      if (97 <=? n) && (n <=? 102) then Some (n - 87) else None
  end.

(** The mantissa loop of [readFloat]: digits, at most one point, underscores. *)
Record Mantissa := mkMant {
  m_value : Z;        (* the digits read, as a number in the base *)
  m_frac : Z;         (* how many of them follow the point *)
  m_digits : bool;
  m_underscore : bool;
  m_rest : string }.

Fixpoint read_mantissa (hex : bool) (s : string) (v frac : Z) (dot digits us : bool) : Mantissa :=
  match s with
  | EmptyString => mkMant v frac digits us s
  | String c r =>
      if Ascii.eqb c "_" then read_mantissa hex r v frac dot digits true
      else if Ascii.eqb c "." then
        if dot then mkMant v frac digits us s
        else read_mantissa hex r v frac true digits us
      else
        match (if hex then hex_value c else digit_of c) with
        | Some d => read_mantissa hex r ((if hex then 16 else 10) * v + d)
                      (if dot then frac + 1 else frac) dot true us
        | None => mkMant v frac digits us s
        end
  end.

(** The exponent's digits; the value saturates once it has passed 10000. *)
Fixpoint read_exponent (s : string) (e : Z) (us : bool) : Z * bool * string :=
  match s with
  | EmptyString => (e, us, s)
  | String c r =>
      if Ascii.eqb c "_" then read_exponent r e true
      else match digit_of c with
           | Some d => read_exponent r (if e <? 10000 then 10 * e + d else e) us
           | None => (e, us, s)
           end
  end.

(** [underscoreOK] after the optional sign: every underscore stands between two
    digits, a base prefix counting as a digit. *)
Fixpoint underscore_scan (hex : bool) (s : string) (saw_digit saw_us : bool) : bool :=
  match s with
  | EmptyString => negb saw_us
  | String c r =>
      if is_digit c || (hex && bool_decide (is_Some (hex_value c)))
      then underscore_scan hex r true false
      else if Ascii.eqb c "_" then
        if saw_digit then underscore_scan hex r false true else false
      else if saw_us then false else underscore_scan hex r false false
  end.

Definition underscore_ok (s : string) : bool :=
  let s := match s with
           | String "-" r | String "+" r => r
           | _ => s
           end in
  match s with
  | String "0" (String x r) =>
      if lower_is x "b" || lower_is x "o" || lower_is x "x"
      then underscore_scan (lower_is x "x") r true false
      else underscore_scan false s false false
  | _ => underscore_scan false s false false
  end.

(** The float a parsed number denotes; an overflow is a range error. *)
Definition float_value (neg hex : bool) (m frac e : Z) : option float64 :=
  let v := if hex then f64_ratio neg m 1 (e - 4 * frac)
           else let p := e - frac in
                if 0 <=? p then f64_ratio neg (m * 10 ^ p) 1 0
                else f64_ratio neg m (Z.to_pos (10 ^ (- p))) 0 in
  if is_finite v then Some v else None.

Definition special (s : string) : option float64 :=
  let inf r := bool_decide (to_lower r ∈ ["inf"; "infinity"]) in
  match s with
  | String "+" r => if inf r then Some (S754_infinity false) else None
  | String "-" r => if inf r then Some (S754_infinity true) else None
  | _ => if inf s then Some (S754_infinity false)
         else if String.eqb (to_lower s) "nan" then Some S754_nan else None
  end.

Definition ParseFloat (s : string) : option float64 :=
  match special s with
  | Some v => Some v
  | None =>
      let '(neg, r) := match s with
                       | String "+" r => (false, r)
                       | String "-" r => (true, r)
                       | _ => (false, s)
                       end in
      let '(hex, r) := match r with
                       | String "0" (String x (String y r')) =>
                           if lower_is x "x" then (true, String y r') else (false, r)
                       | _ => (false, r)
                       end in
      let m := read_mantissa hex r 0 0 false false false in
      if negb (m_digits m) then None
      else
        let finish e us rest :=
          if negb (String.eqb rest "") || (us && negb (underscore_ok s)) then None
          else float_value neg hex (m_value m) (m_frac m) e in
        match m_rest m with
        | String c r =>
            if lower_is c (if hex then "p" else "e") then
              let '(esign, r) := match r with
                                 | String "+" r => (1, r)
                                 | String "-" r => (-1, r)
                                 | _ => (1, r)
                                 end in
              match r with
              | String d _ =>
                  if is_digit d then
                    let '(e, us, rest) := read_exponent r 0 (m_underscore m) in
                    finish (esign * e) us rest
                  else None
              | EmptyString => None
              end
            else if hex then None else finish 0 (m_underscore m) (m_rest m)
        | EmptyString => if hex then None else finish 0 (m_underscore m) ""
        end
  end.

Example parse_float_ex :
  (ParseFloat "50", ParseFloat "0.5", ParseFloat "1e400", ParseFloat "0x1p-1",
   ParseFloat "1_0", ParseFloat "_1", ParseFloat "NaN") =
  (Some (f64_of_Z 50), Some (f64_div f64_1 (f64_of_Z 2)), None,
   Some (f64_div f64_1 (f64_of_Z 2)), Some (f64_of_Z 10), None, Some S754_nan).
Proof. vm_compute. reflexivity. Qed.

(** ** time.ParseDuration *)

(** [leadingInt]: [None] is its overflow error. *)
Fixpoint leadingInt (x : Z) (s : string) : option (Z * string) :=
  match s with
  | EmptyString => Some (x, s)
  | String c r =>
      match digit_of c with
      | None => Some (x, s)
      | Some d =>
          if 2 ^ 63 / 10 <? x then None
          else let x := 10 * x + d in
               if 2 ^ 63 <? x then None else leadingInt x r
      end
  end.

(** [leadingFraction]: digits past the precision are skipped. *)
Fixpoint leadingFraction (x : Z) (scale : float64) (overflow : bool) (s : string)
    : Z * float64 * string :=
  match s with
  | EmptyString => (x, scale, s)
  | String c r =>
      match digit_of c with
      | None => (x, scale, s)
      | Some d =>
          if overflow then leadingFraction x scale true r
          else if (2 ^ 63 - 1) / 10 <? x then leadingFraction x scale true r
          else let y := 10 * x + d in
               if 2 ^ 63 <? y then leadingFraction x scale true r
               else leadingFraction y (f64_mul scale (f64_of_Z 10)) false r
      end
  end.

Fixpoint take_unit (s : string) : string * string :=
  match s with
  | EmptyString => ("", "")
  | String c r =>
      if Ascii.eqb c "." || is_digit c then ("", s)
      else let '(u, rest) := take_unit r in (String c u, rest)
  end.

Definition unitMap (u : string) : option Z :=
  if String.eqb u "ns" then Some 1
  else if bool_decide (u ∈ ["us"; "µs"; "μs"]) then Some 1000
  else if String.eqb u "ms" then Some 1000000
  else if String.eqb u "s" then Some 1000000000
  else if String.eqb u "m" then Some 60000000000
  else if String.eqb u "h" then Some 3600000000000
  else None.

(** One pass of the loop: a number with its unit, in nanoseconds, and what
    follows it. *)
Definition duration_term (s : string) : option (Z * string) :=
  match s with
  | EmptyString => None
  | String c _ =>
      if negb (Ascii.eqb c "." || is_digit c) then None
      else
        match leadingInt 0 s with
        | None => None
        | Some (v, s1) =>
            let pre := negb (slen s =? slen s1)%nat in
            let '(f, scale, s2, post) :=
              match s1 with
              | String "." r => let '(f, scale, s2) := leadingFraction 0 f64_1 false r in
                                (f, scale, s2, negb (slen r =? slen s2)%nat)
              | _ => (0, f64_1, s1, false)
              end in
            if negb pre && negb post then None
            else
              let '(u, s3) := take_unit s2 in
              match unitMap u with
              | None => None
              | Some unit =>
                  if 2 ^ 63 / unit <? v then None
                  else
                    let v := v * unit in
                    if 0 <? f then
                      let v := u64 (v + f64_trunc (f64_mul (f64_of_Z f)
                                                     (f64_div (f64_of_Z unit) scale))) in
                      if 2 ^ 63 <? v then None else Some (v, s3)
                    else Some (v, s3)
              end
        end
  end.

(** Each term takes at least one byte, so the length of the text is enough fuel. *)
Fixpoint duration_terms (fuel : nat) (d : Z) (s : string) : option Z :=
  match s with
  | EmptyString => Some d
  | _ =>
      match fuel with
      | O => None
      | S fuel =>
          match duration_term s with
          | None => None
          | Some (v, r) =>
              let d := u64 (d + v) in
              if 2 ^ 63 <? d then None else duration_terms fuel d r
          end
      end
  end.

Definition ParseDuration (s : string) : option Z :=
  let '(neg, r) := match s with
                   | String "-" r => (true, r)
                   | String "+" r => (false, r)
                   | _ => (false, s)
                   end in
  if String.eqb r "0" then Some 0
  else if String.eqb r "" then None
  else
    match duration_terms (slen r) 0 r with
    | None => None
    | Some d =>
        if neg then Some (- d)
        else if 2 ^ 63 - 1 <? d then None else Some d
    end.

Example parse_duration_ex :
  (ParseDuration "200ms", ParseDuration "1h1.5s", ParseDuration "-3us", ParseDuration "5",
   ParseDuration ".s", ParseDuration "9223372036854775807ns", ParseDuration "3000000h") =
  (Some 200000000, Some 3601500000000, Some (-3000), None, None,
   Some 9223372036854775807, None).
Proof. vm_compute. reflexivity. Qed.

(** ** fmt's [%.0f]: the nearest integer, ties to even *)

Definition round_even (m : positive) (e : Z) : Z :=
  if 0 <=? e then Z.pos m * 2 ^ e
  else let q := Z.pos m / 2 ^ (- e) in
       let r2 := 2 * (Z.pos m mod 2 ^ (- e)) in
       if (r2 <? 2 ^ (- e)) || ((r2 =? 2 ^ (- e)) && Z.even q) then q else q + 1.

Definition fmt_f0 (x : float64) : string :=
  match x with
  | S754_zero s => if s then "-0" else "0"
  | S754_infinity s => if s then "-Inf" else "+Inf"
  | S754_nan => "NaN"
  | S754_finite s m e => (if s then "-" else "") +:+ show_Z (round_even m e)
  end.

(** ** time.Duration's String *)

Fixpoint zpad (n : nat) (s : string) : string :=
  match n with O => s | S n => String "0" (zpad n s) end.

Fixpoint strip_zeros (s : string) : string :=
  match s with
  | EmptyString => ""
  | String c r => match strip_zeros r with
                  | EmptyString => if Ascii.eqb c "0" then "" else String c ""
                  | r' => String c r'
                  end
  end.

(** [fmtFrac]: the last [prec] digits as a fraction, without trailing zeros. *)
Definition fmt_frac (u : Z) (prec : nat) : string :=
  let d := show_Z (u mod 10 ^ Z.of_nat prec) in
  match strip_zeros (zpad (prec - slen d) d) with
  | EmptyString => ""
  | f => "." +:+ f
  end.

Definition show_duration (d : Z) : string :=
  let u := Z.abs d in
  let sign := if d <? 0 then "-" else "" in
  if u =? 0 then "0s"
  else if u <? 1000 then sign +:+ show_Z u +:+ "ns"
  else if u <? 1000000 then sign +:+ show_Z (u / 1000) +:+ fmt_frac u 3 +:+ "µs"
  else if u <? 1000000000 then sign +:+ show_Z (u / 1000000) +:+ fmt_frac u 6 +:+ "ms"
  else
    let secs := u / 1000000000 in
    let mins := secs / 60 in
    let hours := mins / 60 in
    sign +:+ (if 0 <? hours then show_Z hours +:+ "h" else "")
      +:+ (if 0 <? mins then show_Z (mins mod 60) +:+ "m" else "")
      +:+ show_Z (secs mod 60) +:+ fmt_frac u 9 +:+ "s".

Example show_duration_ex :
  (show_duration 500000000, show_duration 1500, show_duration 3661000000000,
   show_duration (-2500000000), show_duration 0) =
  ("500ms", "1.5µs", "1h1m1s", "-2.5s", "0s").
Proof. vm_compute. reflexivity. Qed.

End GoStd.
