(* ===== verification/Rounding.v ===== *)
(** * Accuracy of float64 arithmetic

    The rounding error of the [float64] operations of [GoStd] in the standard
    model: a quotient or a product that does not overflow is the exact rational
    result up to a relative error of [2^-53] and an absolute error of [2^-1075],
    the unit roundoff and the underflow threshold of binary64.  The proofs follow
    the definition of [binary_round_aux] in Stdlib's [SpecFloat]: an exact value
    located between two integers, a shift that keeps the location, one rounding
    to nearest, and a renormalisation that is exact. *)

From stdpp Require Import base numbers.
From Stdlib Require Import ZArith Lia QArith Qpower Qabs Lqa SpecFloat.
From S2P Require Import Prelude GoStd.
Import GoStd.
Local Open Scope Z_scope.

Module Rounding.

(** ** Powers of two *)

Definition pow2 (e : Z) : Q := ((2 # 1) ^ e)%Q.

Lemma pow2_pos e : (0 < pow2 e)%Q.
Proof. apply Qpower_0_lt. reflexivity. Qed.

Lemma pow2_plus a b : (pow2 (a + b) == pow2 a * pow2 b)%Q.
Proof. apply Qpower_plus. discriminate. Qed.

Lemma pow2_Z e : 0 <= e -> (pow2 e == inject_Z (2 ^ e))%Q.
Proof. intros H. unfold pow2. change (2 # 1)%Q with (inject_Z 2). symmetry. by apply Zpower_Qpower. Qed.

Lemma pow2_le a b : a <= b -> (pow2 a <= pow2 b)%Q.
Proof.
  intros H. replace b with (a + (b - a)) by lia. rewrite pow2_plus, (pow2_Z (b - a)) by lia.
  rewrite <- (Qmult_1_r (pow2 a)) at 1. apply Qmult_le_l; [apply pow2_pos|].
  change 1%Q with (inject_Z 1). rewrite <- Zle_Qle. pose proof (Z.pow_pos_nonneg 2 (b - a)). lia.
Qed.

Lemma pow2_succ e : (pow2 (e + 1) == (2 # 1) * pow2 e)%Q.
Proof. rewrite pow2_plus. change (pow2 1) with (2 # 1)%Q. apply Qmult_comm. Qed.

(** ** Where a value lies between two integers *)

(** The round and sticky bits of a shift place [v] relative to [shr_m]. *)
Definition located (v : Q) (x : shr_record) : Prop :=
  let m := inject_Z (shr_m x) in
  match shr_r x, shr_s x with
  | false, false => (v == m)%Q
  | false, true => (m < v /\ v < m + (1 # 2))%Q
  | true, false => (v == m + (1 # 2))%Q
  | true, true => (m + (1 # 2) < v /\ v < m + 1)%Q
  end.

#[export] Instance located_proper : Proper (Qeq ==> eq ==> iff) located.
Proof.
  intros v w E x _ <-. unfold located. destruct (shr_r x), (shr_s x); rewrite E; reflexivity.
Qed.

Lemma located_half v x :
  0 <= shr_m x -> located v x ->
  located (v * (1 # 2)) (shr_1 x) /\ shr_m (shr_1 x) = shr_m x / 2.
Proof.
  destruct x as [m r s]. cbn [shr_m]. intros Hm Hl.
  assert (forall b m' : Z, m = 2 * m' + b -> 0 <= b <= 1 ->
    (inject_Z m == (2 # 1) * inject_Z m' + inject_Z b)%Q /\ m / 2 = m') as Hhalf.
  { intros b m' -> Hb. rewrite inject_Z_plus, inject_Z_mult. split; [reflexivity|].
    symmetry. apply (Z.div_unique _ _ _ b); lia. }
  destruct m as [|[p|p|]|p]; [| | | |lia]; cbn [shr_1].
  1: destruct (Hhalf 0 0 eq_refl) as [E ->]; [lia|].
  2: destruct (Hhalf 1 (Z.pos p) eq_refl) as [E ->]; [lia|].
  3: destruct (Hhalf 0 (Z.pos p) eq_refl) as [E ->]; [lia|].
  4: destruct (Hhalf 1 0 eq_refl) as [E ->]; [lia|].
  all: split; [|reflexivity]; unfold located in *; cbn [shr_m shr_r shr_s] in *;
    destruct r, s; cbn [orb] in *; change (inject_Z 1) with 1%Q in *;
    change (inject_Z 0) with 0%Q in *; first [lra|split; lra].
Qed.

Lemma located_shift p : forall v x,
  0 <= shr_m x -> located v x ->
  located (v * pow2 (- Z.pos p)) (iter_pos shr_1 p x) /\
  shr_m (iter_pos shr_1 p x) = shr_m x / 2 ^ Z.pos p.
Proof.
  assert (forall m a b, 0 <= a -> 0 <= b -> m / 2 ^ a / 2 ^ b = m / 2 ^ (a + b)) as Hdiv.
  { intros m a b Ha Hb. rewrite Z.pow_add_r by done. apply Z.div_div; lia. }
  induction p as [p IH|p IH|]; intros v x Hm Hl; cbn [iter_pos].
  - destruct (located_half v x Hm Hl) as [L0 M0].
    destruct (IH _ (shr_1 x) ltac:(rewrite M0; apply Z.div_pos; lia) L0) as [L1 M1].
    destruct (IH _ (iter_pos shr_1 p (shr_1 x)) ltac:(rewrite M1, M0; repeat apply Z.div_pos; lia) L1) as [L2 M2].
    rewrite M2, M1, M0, (Hdiv (shr_m x / 2)) by lia.
    change (shr_m x / 2) with (shr_m x / 2 ^ 1). rewrite Hdiv by lia.
    split; [|f_equal; f_equal; lia].
    eapply located_proper; [|reflexivity|exact L2].
    replace (- Z.pos p~1) with ((-1) + (- Z.pos p) + (- Z.pos p)) by lia.
    rewrite !pow2_plus. change (pow2 (-1)) with (1 # 2)%Q. ring.
  - destruct (IH _ x Hm Hl) as [L1 M1].
    destruct (IH _ (iter_pos shr_1 p x) ltac:(rewrite M1; apply Z.div_pos; lia) L1) as [L2 M2].
    rewrite M2, M1, Hdiv by lia. split; [|f_equal; f_equal; lia].
    eapply located_proper; [|reflexivity|exact L2].
    replace (- Z.pos p~0) with ((- Z.pos p) + (- Z.pos p)) by lia. rewrite pow2_plus. ring.
  - by apply located_half.
Qed.

(** Rounding to nearest moves a value by at most a half. *)
Lemma round_nearest v x :
  located v x ->
  let m := round_nearest_even (shr_m x) (loc_of_shr_record x) in
  shr_m x <= m <= shr_m x + 1 /\ (v - (1 # 2) <= inject_Z m <= v + (1 # 2))%Q.
Proof.
  destruct x as [m r s]. unfold located. cbn [shr_m shr_r shr_s].
  destruct r, s; cbn [loc_of_shr_record round_nearest_even]; intros Hl;
    try (destruct (Z.even m)); rewrite ?inject_Z_plus; change (inject_Z 1) with 1%Q; (split; [lia|split; lra]).
Qed.

(** ** Digits *)

Lemma digits_log m : 0 < m -> Zdigits2 m = Z.log2 m + 1.
Proof.
  intros H. destruct m as [|p|]; [lia| |lia]. clear H. cbn [Zdigits2].
  induction p as [p IH|p IH|]; [| |reflexivity]; cbn [digits2_pos];
    rewrite Pos2Z.inj_succ, IH.
  - rewrite (Pos2Z.inj_xI p), Z.log2_succ_double by lia. lia.
  - rewrite (Pos2Z.inj_xO p), Z.log2_double by lia. lia.
Qed.

Lemma digits_spec m : 0 < m -> 0 < Zdigits2 m /\ 2 ^ (Zdigits2 m - 1) <= m < 2 ^ Zdigits2 m.
Proof.
  intros H. rewrite (digits_log m H). pose proof (Z.log2_nonneg m).
  replace (Z.log2 m + 1 - 1) with (Z.log2 m) by lia. split; [lia|]. by apply Z.log2_spec.
Qed.

Lemma digits_ge m d : 0 < m -> 0 <= d -> 2 ^ d <= m -> d + 1 <= Zdigits2 m.
Proof. intros H Hd Hm. rewrite (digits_log m H). apply Z.log2_le_pow2 in Hm; lia. Qed.

Lemma digits_le m d : 0 <= m -> 0 <= d -> m < 2 ^ d -> Zdigits2 m <= d.
Proof.
  intros H Hd Hm. destruct (decide (m = 0)) as [->|]; [done|].
  rewrite digits_log by lia. apply Z.log2_lt_pow2 in Hm; lia.
Qed.

(** ** One rounding *)

Lemma shr_spec x e k v :
  0 <= k -> 0 <= shr_m x -> located v x ->
  exists x', shr x e k = (x', e + k) /\ located (v * pow2 (- k)) x' /\ shr_m x' = shr_m x / 2 ^ k.
Proof.
  intros Hk Hm Hl. destruct k as [|p|]; [| |lia]; cbn [shr].
  - exists x. rewrite Z.add_0_r, Z.pow_0_r, Z.div_1_r. split_and!; [done| |done].
    eapply located_proper; [|reflexivity|exact Hl]. change (pow2 (- 0)) with 1%Q. ring.
  - exists (iter_pos shr_1 p x). split; [done|]. by apply located_shift.
Qed.

Lemma shr_record_of_loc_m m l : shr_m (shr_record_of_loc m l) = m.
Proof. by destruct l as [|[]]. Qed.

(** The first shift brings a mantissa of enough digits to 53 bits, or to the
    smallest exponent. *)
Lemma shr_fexp_spec m e l v :
  0 <= m -> located v (shr_record_of_loc m l) ->
  e <= fexp f64_prec f64_emax (Zdigits2 m + e) ->
  exists x e', shr_fexp f64_prec f64_emax m e l = (x, e') /\
    0 <= shr_m x < 2 ^ 53 /\ located (v * pow2 (e - e')) x /\
    -1074 <= e' /\ (e' = -1074 \/ 2 ^ 52 <= shr_m x).
Proof.
  intros Hm Hl He. unfold shr_fexp. set (e' := fexp _ _ _) in *.
  destruct (shr_spec _ e (e' - e) v ltac:(lia) ltac:(by rewrite shr_record_of_loc_m) Hl)
    as (x & -> & Hx & Hxm).
  rewrite shr_record_of_loc_m in Hxm. exists x, e'. split; [f_equal; lia|].
  replace (e - e') with (- (e' - e)) by lia.
  assert (e' = Z.max (Zdigits2 m + e - 53) (-1074)) as Ee by reflexivity. clearbody e'.
  assert (0 < 2 ^ (e' - e)) as Hp by (apply Z.pow_pos_nonneg; lia).
  assert (0 <= shr_m x) by (rewrite Hxm; apply Z.div_pos; lia).
  destruct (decide (m = 0)) as [->|Hne].
  { rewrite Z.div_0_l in Hxm by lia. cbn [Zdigits2] in Ee. split_and!; lia || done. }
  destruct (digits_spec m ltac:(lia)) as (Hd & Hlo & Hhi).
  split_and!; [done| |done|lia|].
  - rewrite Hxm. apply Z.div_lt_upper_bound; [done|]. rewrite <- Z.pow_add_r by lia.
    eapply Z.lt_le_trans; [exact Hhi|]. apply Z.pow_le_mono_r; lia.
  - destruct (decide (e' = -1074)); [by left|right]. rewrite Hxm.
    apply Z.div_le_lower_bound; [done|]. rewrite <- Z.pow_add_r by lia.
    replace (e' - e + 52) with (Zdigits2 m - 1) by lia. done.
Qed.

(** The second shift renormalises the rounded mantissa without losing a bit. *)
Lemma renormalise m e :
  0 <= m <= 2 ^ 53 -> -1074 <= e -> e = -1074 \/ 2 ^ 52 <= m ->
  exists x e', shr_fexp f64_prec f64_emax m e loc_Exact = (x, e') /\ 0 <= shr_m x /\
    (inject_Z (shr_m x) * pow2 e' == inject_Z m * pow2 e)%Q /\ (e' = -1074 \/ 2 ^ 52 <= shr_m x).
Proof.
  intros Hm He Hor. destruct (decide (m = 2 ^ 53)) as [->|Hne].
  - unfold shr_fexp. change (Zdigits2 (2 ^ 53)) with 54. unfold fexp, emin, f64_prec, f64_emax.
    replace (Z.max (54 + e - 53) (3 - 1024 - 53) - e) with 1 by lia.
    exists (Build_shr_record (2 ^ 52) false false), (e + 1). split; [reflexivity|]. cbn [shr_m].
    split_and!; [done| |by right]. rewrite pow2_succ. change (2 ^ 53) with (2 * 2 ^ 52).
    rewrite inject_Z_mult. change (inject_Z 2) with (2 # 1)%Q. ring.
  - exists (shr_record_of_loc m loc_Exact), e. unfold shr_fexp, shr, fexp, emin, f64_prec, f64_emax.
    pose proof (digits_le m 53 ltac:(lia) ltac:(lia) ltac:(lia)).
    cbn [shr_record_of_loc shr_m].
    destruct (Z.max (Zdigits2 m + e - 53) (3 - 1024 - 53) - e) eqn:Ek; [|lia|]; split_and!; done || lia.
Qed.

(** What a float stands for, when it is finite and not negative. *)
Definition stands_for (x : float64) (q : Q) : Prop :=
  match x with
  | S754_zero false => (q == 0)%Q
  | S754_finite false m e => (q == inject_Z (Z.pos m) * pow2 e)%Q
  | _ => False
  end.

(** A value and its rounding: one unit roundoff, and half the smallest float. *)
Definition rounds (exact q : Q) : Prop :=
  (exact - (exact * pow2 (-53) + pow2 (-1075)) <= q <= exact + (exact * pow2 (-53) + pow2 (-1075)))%Q.

#[export] Instance rounds_proper : Proper (Qeq ==> Qeq ==> iff) rounds.
Proof. intros a b E c d F. unfold rounds. rewrite E, F. reflexivity. Qed.

Lemma located_ge v x : located v x -> (inject_Z (shr_m x) <= v)%Q.
Proof. unfold located. destruct (shr_r x), (shr_s x); intros; lra. Qed.

(** Half a unit in the last place is within the rounding model. *)
Lemma half_ulp w e x m :
  located w x -> 0 <= shr_m x -> e = -1074 \/ 2 ^ 52 <= shr_m x ->
  (w - (1 # 2) <= m <= w + (1 # 2))%Q -> rounds (w * pow2 e) (m * pow2 e).
Proof.
  intros Hl Hm Hor Hn. apply located_ge in Hl. pose proof (pow2_pos e) as Hp.
  assert (0 <= w)%Q as Hw.
  { eapply Qle_trans; [|exact Hl]. change 0%Q with (inject_Z 0). by rewrite <- Zle_Qle. }
  assert ((1 # 2) * pow2 e <= w * pow2 e * pow2 (-53) + pow2 (-1075))%Q as Hulp.
  { destruct Hor as [->|Hbig].
    - change (pow2 (-1074)) with (pow2 (-1075 + 1)). rewrite pow2_succ.
      pose proof (Qmult_le_0_compat _ _ (Qmult_le_0_compat _ _ Hw (Qlt_le_weak _ _ (pow2_pos (-1075 + 1))))
                    (Qlt_le_weak _ _ (pow2_pos (-53)))) as H0. rewrite pow2_succ in H0. lra.
    - pose proof (pow2_pos (-1075)). rewrite Zle_Qle, <- pow2_Z in Hbig by done.
      assert ((1 # 2) == pow2 52 * pow2 (-53))%Q as E by reflexivity.
      assert (pow2 52 * pow2 (-53) <= w * pow2 (-53))%Q as Hw2.
      { apply Qmult_le_compat_r; [lra|apply Qlt_le_weak, pow2_pos]. }
      assert ((1 # 2) * pow2 e <= w * pow2 (-53) * pow2 e)%Q as H1.
      { apply Qmult_le_compat_r; [lra|by apply Qlt_le_weak]. }
      assert (w * pow2 (-53) * pow2 e == w * pow2 e * pow2 (-53))%Q as E2 by ring. lra. }
  assert ((w - (1 # 2)) * pow2 e <= m * pow2 e /\ m * pow2 e <= (w + (1 # 2)) * pow2 e)%Q as [H1 H2].
  { split; apply Qmult_le_compat_r; try lra. }
  unfold rounds. split; lra.
Qed.

Lemma round_aux_rounds m e l v :
  0 <= m -> located v (shr_record_of_loc m l) ->
  e <= fexp f64_prec f64_emax (Zdigits2 m + e) -> (v * pow2 e < pow2 1023)%Q ->
  exists q, stands_for (binary_round_aux f64_prec f64_emax false m e l) q /\ rounds (v * pow2 e) q.
Proof.
  intros Hm Hl He Hv. unfold binary_round_aux.
  destruct (shr_fexp_spec m e l v Hm Hl He) as (x & e' & -> & Hx & Hlx & He' & Hor).
  destruct (round_nearest _ x Hlx) as [Hr Hn]. set (M := round_nearest_even _ _) in *.
  destruct (renormalise M e') as (y & e'' & -> & Hy & Eq & Hor'); [lia|done|lia|].
  assert (rounds (v * pow2 e) (inject_Z (shr_m y) * pow2 e'')) as Hround.
  { rewrite Eq. assert (v * pow2 e == v * pow2 (e - e') * pow2 e')%Q as ->.
    { rewrite <- Qmult_assoc, <- pow2_plus. by replace (e - e' + e') with e by lia. }
    eapply half_ulp; [exact Hlx|lia|done|exact Hn]. }
  exists (inject_Z (shr_m y) * pow2 e'')%Q. split; [|exact Hround].
  destruct (shr_m y) as [|p|] eqn:Ey; [cbn; ring| |lia].
  rewrite (proj2 (Z.leb_le _ _)); [reflexivity|].
  destruct (Z_le_gt_dec e'' (f64_emax - f64_prec)) as [|Hgt]; [done|exfalso].
  unfold f64_emax, f64_prec in Hgt. destruct Hor' as [->|Hbig]; [lia|].
  destruct Hround as [_ Hup].
  assert (pow2 1023 + pow2 1023 <= inject_Z (Z.pos p) * pow2 e'')%Q as Hlow.
  { assert (pow2 1023 + pow2 1023 == pow2 52 * pow2 972)%Q as -> by reflexivity.
    apply Qmult_le_compat_nonneg; (split; [apply Qlt_le_weak, pow2_pos|]).
    - by rewrite pow2_Z, <- Zle_Qle.
    - apply pow2_le. lia. }
  assert (pow2 (-1075) + pow2 (-53) * pow2 1023 <= pow2 1023)%Q as Hsmall by (vm_compute; discriminate).
  assert (v * pow2 e * pow2 (-53) <= pow2 1023 * pow2 (-53))%Q as Hrel.
  { apply Qmult_le_compat_r; [lra|apply Qlt_le_weak, pow2_pos]. }
  lra.
Qed.

(** ** Quotients *)

Lemma new_location_spec n q r :
  0 <= r < n ->
  located (inject_Z (n * q + r) / inject_Z n) (shr_record_of_loc q (new_location n r)).
Proof.
  intros Hr. assert (0 < inject_Z n)%Q as Hn by (change 0%Q with (inject_Z 0); rewrite <- Zlt_Qlt; lia).
  set (f := (inject_Z r / inject_Z n)%Q).
  assert (inject_Z (n * q + r) / inject_Z n == inject_Z q + f)%Q as ->.
  { unfold f. rewrite inject_Z_plus, inject_Z_mult. field. lra. }
  assert (f * inject_Z n == inject_Z r)%Q as Ef by (unfold f; field; lra).
  assert (r < n -> (f < 1)%Q) as Hlt.
  { intros H. rewrite Zlt_Qlt, <- Ef in H. apply (Qmult_lt_r _ _ (inject_Z n)); lra. }
  assert (0 < r -> (0 < f)%Q) as Hpos.
  { intros H. rewrite Zlt_Qlt, <- Ef in H. change (inject_Z 0) with 0%Q in H.
    apply (Qmult_lt_r _ _ (inject_Z n)); lra. }
  assert (f * inject_Z n * (2 # 1) == inject_Z (2 * r))%Q as E2.
  { rewrite Ef, inject_Z_mult. change (inject_Z 2) with (2 # 1)%Q. ring. }
  assert (match 2 * r ?= n with
          | Lt => (f < 1 # 2)%Q | Eq => (f == 1 # 2)%Q | Gt => (1 # 2 < f)%Q end) as Hcmp.
  { destruct (Z.compare_spec (2 * r) n) as [H|H|H].
    - rewrite H in E2. apply (Qmult_inj_r _ _ (inject_Z n)); lra.
    - rewrite Zlt_Qlt in H. apply (Qmult_lt_r _ _ (inject_Z n)); lra.
    - rewrite Zlt_Qlt in H. apply (Qmult_lt_r _ _ (inject_Z n)); lra. }
  assert (new_location n r = if r =? 0 then loc_Exact else loc_Inexact (2 * r ?= n)) as ->.
  { unfold new_location, new_location_even, new_location_odd. destruct (Z.even n) eqn:Ee; [done|].
    destruct (r =? 0); [done|]. f_equal. apply Bool.negb_true_iff in Ee. rewrite Z.negb_even in Ee.
    apply Z.odd_spec in Ee as [k Hk].
    destruct (Z.compare_spec (2 * r + 1) n), (Z.compare_spec (2 * r) n); done || lia. }
  destruct (Z.eqb_spec r 0) as [->|Hne].
  - unfold located. cbn [shr_record_of_loc shr_m shr_r shr_s]. change (inject_Z 0) with 0%Q in *.
    assert (f == 0)%Q; [|lra]. apply (Qmult_inj_r _ _ (inject_Z n)); lra.
  - specialize (Hlt ltac:(lia)). specialize (Hpos ltac:(lia)). unfold located.
    destruct (2 * r ?= n); cbn [shr_record_of_loc shr_m shr_r shr_s]; first [lra|split; lra].
Qed.

Lemma fexp_mono a b : a <= b -> fexp f64_prec f64_emax a <= fexp f64_prec f64_emax b.
Proof. unfold fexp. lia. Qed.

(** The quotient is computed with enough digits to be rounded once. *)
Lemma quotient_digits m1 m2 s :
  0 < m1 -> 0 < m2 -> 0 <= s -> Zdigits2 m1 + s - Zdigits2 m2 <= Zdigits2 (m1 * 2 ^ s / m2).
Proof.
  intros H1 H2 Hs. destruct (digits_spec m1 H1) as (D1 & L1 & _), (digits_spec m2 H2) as (D2 & _ & U2).
  destruct (Z_le_gt_dec (Zdigits2 m1 + s - Zdigits2 m2) 0) as [|Hgt].
  { assert (0 <= Zdigits2 (m1 * 2 ^ s / m2)); [|lia].
    pose proof (Z.div_pos (m1 * 2 ^ s) m2). destruct (m1 * 2 ^ s / m2); cbn; lia. }
  set (j := Zdigits2 m1 + s - Zdigits2 m2 - 1).
  assert (2 ^ j <= m1 * 2 ^ s / m2) as Hj.
  { apply Z.div_le_lower_bound; [done|]. transitivity (2 ^ Zdigits2 m2 * 2 ^ j).
    - apply Z.mul_le_mono_nonneg_r; lia.
    - rewrite <- Z.pow_add_r by lia.
      replace (Zdigits2 m2 + j) with (Zdigits2 m1 - 1 + s) by lia. rewrite Z.pow_add_r by lia.
      apply Z.mul_le_mono_nonneg_r; lia. }
  pose proof (Z.pow_pos_nonneg 2 j ltac:(lia) ltac:(lia)).
  pose proof (digits_ge (m1 * 2 ^ s / m2) j ltac:(lia) ltac:(lia) Hj). lia.
Qed.

Lemma finite_pos m e : (0 < inject_Z (Z.pos m) * pow2 e)%Q.
Proof.
  rewrite <- (Qmult_0_l (pow2 e)). apply Qmult_lt_r; [apply pow2_pos|].
  change 0%Q with (inject_Z 0). by rewrite <- Zlt_Qlt.
Qed.

(** The quotient of two positive floats. *)
Lemma f64_div_rounds m1 e1 m2 e2 :
  let exact := ((inject_Z (Z.pos m1) * pow2 e1) / (inject_Z (Z.pos m2) * pow2 e2))%Q in
  (exact < pow2 1023)%Q ->
  exists q, stands_for (f64_div (S754_finite false m1 e1) (S754_finite false m2 e2)) q /\
    rounds exact q.
Proof.
  intros exact Hx. unfold f64_div, SFdiv, SFdiv_core_binary. cbn [xorb].
  set (d := Zdigits2 (Z.pos m1) + e1 - (Zdigits2 (Z.pos m2) + e2)).
  set (e' := Z.min (fexp f64_prec f64_emax d) (e1 - e2)). set (s := e1 - e2 - e').
  assert (0 <= s) as Hs by lia.
  replace (match s with 0 => Z.pos m1 | Z.pos _ => Z.shiftl (Z.pos m1) s | Z.neg _ => 0 end)
    with (Z.pos m1 * 2 ^ s)
    by (destruct s; [rewrite Z.pow_0_r; lia|rewrite Z.shiftl_mul_pow2; lia|lia]).
  pose proof (Z_div_mod (Z.pos m1 * 2 ^ s) (Z.pos m2) ltac:(lia)) as Hdm.
  pose proof (quotient_digits (Z.pos m1) (Z.pos m2) s ltac:(lia) ltac:(lia) Hs) as Hq.
  unfold Z.div in Hq. destruct (Z.div_eucl _ _) as [q r]. destruct Hdm as [Em Hr].
  pose proof (new_location_spec (Z.pos m2) q r Hr) as Hl. rewrite <- Em in Hl.
  assert (inject_Z (Z.pos m1 * 2 ^ s) / inject_Z (Z.pos m2) * pow2 e' == exact)%Q as Ex.
  { unfold exact. rewrite inject_Z_mult, <- pow2_Z by done.
    assert (pow2 s * pow2 e' * pow2 e2 == pow2 e1)%Q as E1.
    { rewrite <- !pow2_plus. by replace (s + e' + e2) with e1 by lia. }
    rewrite <- E1. field. pose proof (pow2_pos e2). split; [lra|discriminate]. }
  set (v := (inject_Z (Z.pos m1 * 2 ^ s) / inject_Z (Z.pos m2))%Q) in *.
  destruct (round_aux_rounds q e' (new_location (Z.pos m2) r) v) as (z & Hz & Hr'); [|exact Hl| | |].
  - pose proof (Z.pow_pos_nonneg 2 s ltac:(lia) Hs). nia.
  - transitivity (fexp f64_prec f64_emax d); [lia|]. apply fexp_mono. lia.
  - by rewrite Ex.
  - exists z. split; [exact Hz|]. by rewrite <- Ex.
Qed.

(** The product with a normal float. *)
Lemma f64_mul_rounds m1 e1 m2 e2 :
  let exact := ((inject_Z (Z.pos m1) * pow2 e1) * (inject_Z (Z.pos m2) * pow2 e2))%Q in
  2 ^ 52 <= Z.pos m2 -> (exact < pow2 1023)%Q ->
  exists q, stands_for (f64_mul (S754_finite false m1 e1) (S754_finite false m2 e2)) q /\
    rounds exact q.
Proof.
  intros exact Hn Hx. unfold f64_mul, SFmul. cbn [xorb].
  assert (inject_Z (Z.pos (m1 * m2)) * pow2 (e1 + e2) == exact)%Q as Ex.
  { unfold exact. rewrite Pos2Z.inj_mul, inject_Z_mult, pow2_plus. ring. }
  destruct (round_aux_rounds (Z.pos (m1 * m2)) (e1 + e2) loc_Exact (inject_Z (Z.pos (m1 * m2))))
    as (z & Hz & Hr); [lia|reflexivity| |by rewrite Ex|].
  - pose proof (digits_ge (Z.pos (m1 * m2)) 52 ltac:(lia) ltac:(lia) ltac:(nia)).
    unfold fexp, f64_prec. lia.
  - exists z. split; [exact Hz|]. by rewrite <- Ex.
Qed.

(** ** Conversions *)

Lemma iter_xO m k : Z.pos (Pos.iter xO m k) = Z.pos m * 2 ^ Z.pos k.
Proof.
  induction k as [|k IH] using Pos.peano_ind; [cbn; lia|].
  rewrite Pos.iter_succ, Pos2Z.inj_xO, IH, Pos2Z.inj_succ, Z.pow_succ_r by lia. lia.
Qed.

(** An integer below [2^53] is a float. *)
Lemma f64_of_Z_exact n :
  0 < n < 2 ^ 53 ->
  exists m e, f64_of_Z n = S754_finite false m e /\ (inject_Z (Z.pos m) * pow2 e == inject_Z n)%Q.
Proof.
  intros Hn. destruct n as [|p|]; [lia| |lia].
  pose proof (digits_le (Z.pos p) 53 ltac:(lia) ltac:(lia) ltac:(lia)) as Hd.
  destruct (digits_spec (Z.pos p) ltac:(lia)) as (Hd0 & Hlo & Hhi). cbn [Zdigits2] in *.
  set (d := Z.pos (digits2_pos p)) in *.
  assert (exists m, shl_align p 0 (fexp f64_prec f64_emax (d + 0)) = (m, d - 53) /\
            Z.pos m = Z.pos p * 2 ^ (53 - d)) as (m & Hs & Em).
  { unfold shl_align. assert (fexp f64_prec f64_emax (d + 0) = d - 53) as ->
      by (unfold fexp, emin, f64_prec, f64_emax; lia).
    rewrite Z.sub_0_r. destruct (d - 53) as [|k|k] eqn:Ek; [|lia|].
    - exists p. replace (53 - d) with 0 by lia. by rewrite Z.mul_1_r.
    - eexists. split; [reflexivity|]. rewrite iter_xO. f_equal. f_equal. lia. }
  exists m, (d - 53). split.
  - unfold f64_of_Z, binary_normalize, binary_round. change (Z.pos (digits2_pos p)) with d. rewrite Hs.
    assert (shr_fexp f64_prec f64_emax (Z.pos m) (d - 53) loc_Exact =
      (Build_shr_record (Z.pos m) false false, d - 53)) as E.
    { unfold shr_fexp. assert (Zdigits2 (Z.pos m) = 53) as ->.
      { apply Z.le_antisymm; [apply digits_le|apply (digits_ge _ 52)]; rewrite ?Em; try lia.
        - replace 53 with (d + (53 - d)) at 2 by lia. rewrite Z.pow_add_r by lia.
          apply Z.mul_lt_mono_pos_r; [apply Z.pow_pos_nonneg; lia|done].
        - replace 52 with (d - 1 + (53 - d)) by lia. rewrite Z.pow_add_r by lia.
          apply Z.mul_le_mono_nonneg_r; [apply Z.pow_nonneg; lia|done]. }
      unfold fexp, emin, f64_prec, f64_emax.
      replace (Z.max (53 + (d - 53) - 53) (3 - 1024 - 53) - (d - 53)) with 0 by lia. reflexivity. }
    unfold binary_round_aux. rewrite E. cbn [shr_m loc_of_shr_record round_nearest_even].
    rewrite E. cbn [shr_m]. rewrite (proj2 (Z.leb_le _ _)); [done|]. unfold f64_emax, f64_prec. lia.
  - rewrite Em, inject_Z_mult, <- pow2_Z by lia. rewrite <- Qmult_assoc, <- pow2_plus.
    replace (53 - d + (d - 53)) with 0 by lia. change (pow2 0) with 1%Q. ring.
Qed.

(** The conversion to an integer drops less than one. *)
Lemma f64_to_int64_floor x q :
  stands_for x q -> (q < pow2 63)%Q ->
  (q - 1 < inject_Z (f64_to_int64 x) <= q)%Q /\ 0 <= f64_to_int64 x.
Proof.
  destruct x as [[]| | |[] m e]; cbn [stands_for]; try done.
  { intros E _. cbn. change (inject_Z 0) with 0%Q. split; [split; lra|lia]. }
  intros E Hq. set (t := f64_trunc (S754_finite false m e)).
  assert ((q - 1 < inject_Z t <= q)%Q /\ 0 <= t) as [[Hlo Hhi] H0].
  { unfold t, f64_trunc. destruct (Z.leb_spec 0 e) as [He|He].
    - rewrite inject_Z_mult, <- pow2_Z by done. split; [split; lra|]. pose proof (Z.pow_nonneg 2 e). nia.
    - assert (0 < 2 ^ (- e)) as Hp by (apply Z.pow_pos_nonneg; lia).
      pose proof (Z.div_mod (Z.pos m) (2 ^ (- e)) ltac:(lia)) as Hdm.
      pose proof (Z.mod_pos_bound (Z.pos m) (2 ^ (- e)) Hp) as Hmod.
      split; [|apply Z.div_pos; lia].
      set (k := Z.pos m / 2 ^ (- e)) in *. set (r := Z.pos m mod 2 ^ (- e)) in *.
      rewrite Hdm, inject_Z_plus, inject_Z_mult, <- pow2_Z in E by lia.
      assert (pow2 (- e) * pow2 e == 1)%Q as E1.
      { rewrite <- pow2_plus. by replace (- e + e) with 0 by lia. }
      destruct Hmod as [Hr0 Hr1]. rewrite Zle_Qle in Hr0. rewrite Zlt_Qlt, <- pow2_Z in Hr1 by lia.
      pose proof (pow2_pos e) as Hpe.
      assert (0 <= inject_Z r * pow2 e)%Q by (apply Qmult_le_0_compat; [done|lra]).
      assert (inject_Z r * pow2 e < pow2 (- e) * pow2 e)%Q by (apply Qmult_lt_r; done).
      assert (q == inject_Z k + inject_Z r * pow2 e)%Q as Eq.
      { rewrite E. transitivity (inject_Z k * (pow2 (- e) * pow2 e) + inject_Z r * pow2 e)%Q; [ring|].
        rewrite E1. ring. }
      split; lra. }
  assert (t < 2 ^ 63) as Ht.
  { rewrite Zlt_Qlt, <- pow2_Z by lia. lra. }
  cbn [f64_to_int64]. fold t. replace (in_int64 t) with true; [done|].
  symmetry. unfold in_int64. lia.
Qed.
End Rounding.
