(* ===== verification/GoRand.v ===== *)
(** * Random numbers and paths of the Go standard library

    The PCG-DXSM generator of [math/rand/v2] that a session draws from, its
    [Float64], and [path/filepath.Dir].  The lemmas say what the clients rely on:
    a drawn float lies in [0, 1). *)

From stdpp Require Import base strings list numbers.
From Stdlib Require Import ZArith Lia SpecFloat Ascii.
From S2P Require Import Prelude GoStd.
Local Open Scope Z_scope.
Import GoStd.

Module GoRand.

(** ** rand.PCG *)

Record PCG := mkPCG { pcg_hi : Z; pcg_lo : Z }.

Definition NewPCG (seed1 seed2 : Z) : PCG := mkPCG (u64 seed1) (u64 seed2).

Definition pcg_mul : Z := 2549297995355413924 * 2 ^ 64 + 4865540595714422341.
Definition pcg_inc : Z := 6364136223846793005 * 2 ^ 64 + 1442695040888963407.

(** One step of the 128-bit linear congruential generator. *)
Definition pcg_next (p : PCG) : PCG :=
  let st := wrap_u 128 ((pcg_hi p * 2 ^ 64 + pcg_lo p) * pcg_mul + pcg_inc) in
  mkPCG (st / 2 ^ 64) (st mod 2 ^ 64).

(** [PCG.Uint64]: step, then the double xor-shift multiply output function. *)
Definition pcg_uint64 (p : PCG) : Z * PCG :=
  let p := pcg_next p in
  let hi := pcg_hi p in
  let hi := Z.lxor hi (Z.shiftr hi 32) in
  let hi := u64 (hi * 0xda942042e4dd58b5) in
  let hi := Z.lxor hi (Z.shiftr hi 48) in
  (u64 (hi * Z.lor (pcg_lo p) 1), p).

(** [float64(r.Uint64()<<11>>11) / (1<<53)]. *)
Definition rand_float64 (p : PCG) : float64 * PCG :=
  let (x, p) := pcg_uint64 p in
  (f64_div (f64_of_Z (Z.shiftr (u64 (Z.shiftl x 11)) 11)) (f64_of_Z (2 ^ 53)), p).

(** The first outputs for the seeds 1 and 2. *)
Example pcg_outputs :
  let (a, p) := pcg_uint64 (NewPCG 1 2) in
  (a, fst (pcg_uint64 p)) = (0xc4f5a58656eef510, 0x9dcec3ad077dec6c).
Proof. vm_compute. reflexivity. Qed.

(** ** The range of a drawn float *)

Lemma digits2_iter_xO m d : digits2_pos (Pos.iter xO m d) = (digits2_pos m + d)%positive.
Proof.
  induction d as [|d IH] using Pos.peano_ind; cbn; [lia|].
  rewrite Pos.iter_succ. cbn. rewrite IH. lia.
Qed.

Lemma digits2_bound m (n : Z) :
  0 <= n -> Z.pos m < 2 ^ n -> Z.pos (digits2_pos m) <= n.
Proof.
  revert n; induction m as [m IH|m IH|]; intros n Hn Hm; cbn.
  - destruct (decide (n = 0)) as [->|]; [cbn in Hm; lia|].
    assert (2 ^ n = 2 * 2 ^ (n - 1)) by (rewrite <- Z.pow_succ_r by lia; f_equal; lia).
    specialize (IH (n - 1) ltac:(lia) ltac:(lia)). lia.
  - destruct (decide (n = 0)) as [->|]; [cbn in Hm; lia|].
    assert (2 ^ n = 2 * 2 ^ (n - 1)) by (rewrite <- Z.pow_succ_r by lia; f_equal; lia).
    specialize (IH (n - 1) ltac:(lia) ltac:(lia)). lia.
  - destruct (decide (n = 0)) as [->|]; [cbn in Hm; lia|]. lia.
Qed.

(** A 53-bit mantissa in the normal exponent range is already rounded. *)
Lemma round_aux_53 s m e :
  digits2_pos m = 53%positive -> -1074 <= e <= 971 ->
  binary_round_aux f64_prec f64_emax s (Z.pos m) e loc_Exact = S754_finite s m e.
Proof.
  intros Hd He.
  assert (fexp f64_prec f64_emax (53 + e) - e = 0) as Hf
    by (unfold fexp, emin, f64_prec, f64_emax; lia).
  unfold binary_round_aux, shr_fexp. cbn [Zdigits2]. rewrite Hd, Hf.
  cbn [shr shr_record_of_loc loc_of_shr_record round_nearest_even shr_m].
  cbn [Zdigits2]. rewrite Hd, Hf. cbn [shr shr_m].
  by rewrite (proj2 (Z.leb_le _ _)) by (unfold f64_prec, f64_emax; lia).
Qed.

(** A positive integer below 2^53 converts exactly: its mantissa is shifted to
    53 bits. *)
Lemma f64_of_small m :
  Z.pos (digits2_pos m) <= 53 ->
  exists m', f64_of_Z (Z.pos m) = S754_finite false m' (Z.pos (digits2_pos m) - 53) /\
             digits2_pos m' = 53%positive.
Proof.
  intros Hm. set (d := Z.pos (digits2_pos m)) in *.
  unfold f64_of_Z, binary_normalize, binary_round, shl_align.
  assert (fexp f64_prec f64_emax (d + 0) - 0 = d - 53) as Hf
    by (unfold fexp, emin, f64_prec, f64_emax; lia).
  assert (fexp f64_prec f64_emax (d + 0) = d - 53) as Hf'
    by (unfold fexp, emin, f64_prec, f64_emax; lia).
  fold d. rewrite Hf. destruct (d - 53) as [|p|p] eqn:Ed; [| lia |].
  - exists m. split; [|lia]. apply round_aux_53; lia.
  - exists (Pos.iter xO m p). assert (digits2_pos (Pos.iter xO m p) = 53%positive) as H53
      by (rewrite digits2_iter_xO; lia).
    split; [|done]. rewrite Hf'. apply round_aux_53; [done|lia].
Qed.

(** An even 54-bit mantissa loses its last bit exactly. *)
Lemma round_aux_54 s m e :
  digits2_pos m = 53%positive -> -1074 <= e <= 970 ->
  binary_round_aux f64_prec f64_emax s (Z.pos m~0) e loc_Exact = S754_finite s m (e + 1).
Proof.
  intros Hd He. rewrite <- (round_aux_53 s m (e + 1)) by (done || lia).
  unfold binary_round_aux at 1, shr_fexp at 1. cbn [Zdigits2 digits2_pos]. rewrite Hd.
  replace (fexp f64_prec f64_emax (Z.pos (Pos.succ 53) + e) - e) with 1
    by (unfold fexp, emin, f64_prec, f64_emax; lia).
  cbn [shr shr_record_of_loc iter_pos shr_1 orb loc_of_shr_record round_nearest_even shr_m].
  unfold binary_round_aux. unfold shr_fexp at 2. cbn [Zdigits2]. rewrite Hd.
  replace (fexp f64_prec f64_emax (53 + (e + 1)) - (e + 1)) with 0
    by (unfold fexp, emin, f64_prec, f64_emax; lia).
  by cbn [shr shr_record_of_loc loc_of_shr_record round_nearest_even shr_m].
Qed.

Lemma div_by_two_pow_53 m e :
  digits2_pos m = 53%positive -> -52 <= e <= 0 ->
  f64_div (S754_finite false m e) (f64_of_Z (2 ^ 53)) = S754_finite false m (e - 53).
Proof.
  intros Hd He.
  replace (f64_of_Z (2 ^ 53)) with (S754_finite false (2 ^ 52) 1) by (vm_compute; reflexivity).
  unfold f64_div, SFdiv, SFdiv_core_binary. cbn [Zdigits2].
  change (digits2_pos (2 ^ 52)) with 53%positive. rewrite Hd.
  replace (fexp f64_prec f64_emax (53 + e - (53 + 1))) with (e - 54)
    by (unfold fexp, emin, f64_prec, f64_emax; lia).
  replace (Z.min (e - 54) (e - 1)) with (e - 54) by lia.
  replace (e - 1 - (e - 54)) with 53 by lia. cbv zeta. rewrite Z.shiftl_mul_pow2 by lia.
  replace (Z.div_eucl (Z.pos m * 2 ^ 53) (Z.pos (2 ^ 52))) with (Z.pos m~0, 0).
  - change (new_location (Z.pos (2 ^ 52)) 0) with loc_Exact. 
    replace (e - 53) with (e - 54 + 1) by lia. apply round_aux_54; [done|lia].
  - assert (Z.pos m * 2 ^ 53 = Z.pos m~0 * Z.pos (2 ^ 52)) as ->
      by (rewrite (Pos2Z.inj_xO m); lia).
    pose proof (Z.div_mul (Z.pos m~0) (Z.pos (2 ^ 52)) ltac:(lia)) as Hq.
    pose proof (Z.mod_mul (Z.pos m~0) (Z.pos (2 ^ 52)) ltac:(lia)) as Hr.
    unfold Z.div, Z.modulo in Hq, Hr. destruct (Z.div_eucl _ _). by subst.
Qed.

(** [Float64] is never negative and always below one: a rule of probability 1
    fires whenever it is consulted and one of probability 0 never does. *)
Lemma rand_float64_range p :
  f64_lt (fst (rand_float64 p)) f64_1 = true /\ f64_lt (fst (rand_float64 p)) f64_0 = false.
Proof.
  unfold rand_float64. destruct (pcg_uint64 p) as [x p']. cbn [fst].
  set (y := Z.shiftr (u64 (Z.shiftl x 11)) 11).
  assert (0 <= y < 2 ^ 53) as Hy.
  { unfold y. pose proof (wrap_u_range 64 (Z.shiftl x 11)).
    rewrite Z.shiftr_div_pow2 by lia. split; [apply Z.div_pos; lia|].
    apply Z.div_lt_upper_bound; lia. }
  clearbody y. destruct y as [|m|m]; [by vm_compute| |lia].
  destruct (f64_of_small m) as (m' & -> & Hd); [apply digits2_bound; lia|].
  pose proof (digits2_bound m 53 ltac:(lia) ltac:(lia)).
  rewrite div_by_two_pow_53 by (done || lia). split; [|done].
  replace f64_1 with (S754_finite false (2 ^ 52) (-52)) by (vm_compute; reflexivity).
  unfold f64_lt, SFltb, SFcompare.
  by rewrite (proj2 (Z.compare_lt_iff _ _)) by lia.
Qed.

(** ** filepath.Dir *)

(** One path element of [filepath.Clean]; the stack is the cleaned prefix, last
    element first. *)
Definition clean_step (rooted : bool) (stack : list string) (elem : string) : list string :=
  if String.eqb elem "" || String.eqb elem "." then stack
  else if String.eqb elem ".." then
    match stack with
    | top :: rest => if String.eqb top ".." then elem :: stack else rest
    | [] => if rooted then [] else [elem]
    end
  else elem :: stack.

Definition Clean (path : string) : string :=
  let rooted := has_prefix "/" path in
  let out := sjoin "/" (reverse (fold_left (clean_step rooted) (split_all "/" path) [])) in
  if rooted then "/" +:+ out else if String.eqb out "" then "." else out.

(** The path up to and including its last separator. *)
Fixpoint upto_last_slash (s : string) : string :=
  match s with
  | EmptyString => EmptyString
  | String c r =>
      match upto_last_slash r with
      | EmptyString => if Ascii.eqb c "/" then String c EmptyString else EmptyString
      | r' => String c r'
      end
  end.

Definition Dir (path : string) : string := Clean (upto_last_slash path).

Example dir_ex :
  map Dir ["/data/db/file"; "/file"; "file"; "/a/../../b/c"; "../../x/y"; "a//b/./c"; ""] =
    ["/data/db"; "/"; "."; "/b"; "../../x"; "a/b"; "."].
Proof. vm_compute. reflexivity. Qed.

End GoRand.
