(* ===== verification/GoText.v ===== *)
(** * Text functions of the Go standard library

    What the proxies and matchers use of packages [strings], [bytes],
    [path/filepath] and [encoding/binary]: slices of a string, [Fields],
    [TrimRight], [EqualFold], [filepath.Match] and the fixed-width integers of a
    byte string.  As in the prelude, letters and white space are those of ASCII,
    and a rune is a byte. *)

From Stdlib Require Import ZArith Lia Ascii.
From S2P Require Import Prelude.
From stdpp Require Import base strings numbers list.
Local Open Scope Z_scope.

Module GoText.

(** ** Slices *)

(** [s[:n]], all of [s] when it is shorter. *)
Fixpoint stake (n : nat) (s : string) : string :=
  match n, s with
  | S n, String c s => String c (stake n s)
  | _, _ => EmptyString
  end.

Definition bval (c : ascii) : Z := Z.of_N (N_of_ascii c).
Definition byte_of (z : Z) : ascii := ascii_of_N (Z.to_N (u8 z)).

(** [s[i]], when [i] is in range. *)
Fixpoint sget (n : nat) (s : string) : option ascii :=
  match n, s with
  | _, EmptyString => None
  | O, String c _ => Some c
  | S n, String _ s => sget n s
  end.

Fixpoint srev_app (s acc : string) : string :=
  match s with EmptyString => acc | String c s => srev_app s (String c acc) end.

(** [strings.TrimRight(s, cutset)]. *)
Fixpoint trim_right_if (f : ascii -> bool) (s : string) : string :=
  match s with
  | EmptyString => EmptyString
  | String c r =>
      match trim_right_if f r with
      | EmptyString => if f c then EmptyString else String c EmptyString
      | r' => String c r'
      end
  end.

Definition CR : ascii := ascii_of_nat 13.
Definition LF : ascii := ascii_of_nat 10.
Definition NUL : ascii := ascii_of_nat 0.
Definition is_crlf (c : ascii) : bool := Ascii.eqb c CR || Ascii.eqb c LF.
Definition crlf : string := String CR (String LF EmptyString).

Definition trim_crlf : string -> string := trim_right_if is_crlf.

(** The bytes up to a NUL, and those after it. *)
Fixpoint cut_nul (s : string) : string * option string :=
  match s with
  | EmptyString => (EmptyString, None)
  | String c r =>
      if Ascii.eqb c NUL then (EmptyString, Some r)
      else let '(a, b) := cut_nul r in (String c a, b)
  end.

(** [strings.Fields]. *)
Fixpoint fields_from (s cur : string) : list string :=
  match s with
  | EmptyString => match cur with EmptyString => [] | _ => [srev_app cur EmptyString] end
  | String c r =>
      if is_space c then
        match cur with
        | EmptyString => fields_from r EmptyString
        | _ => srev_app cur EmptyString :: fields_from r EmptyString
        end
      else fields_from r (String c cur)
  end.

Definition fields (s : string) : list string := fields_from s EmptyString.

(** [strings.EqualFold]. *)
Definition equal_fold (a b : string) : bool := String.eqb (to_lower a) (to_lower b).

Definition has_char (c : ascii) (s : string) : bool := negb (sall (is_not c) s).

(** What is before and after the last occurrence of a byte ([strings.LastIndexByte]). *)
Fixpoint scut_last (sep : ascii) (s : string) : option (string * string) :=
  match s with
  | EmptyString => None
  | String c r =>
      match scut_last sep r with
      | Some (a, b) => Some (String c a, b)
      | None => if Ascii.eqb c sep then Some (EmptyString, r) else None
      end
  end.

(** ** [filepath.Match] on Unix *)

Module FilePath.

Definition Sep : ascii := "/".

(** The end of the leading chunk of a pattern: up to a star outside a class. *)
Fixpoint chunk_end (pattern : string) (inrange : bool) : string * string :=
  match pattern with
  | EmptyString => (EmptyString, EmptyString)
  | String c r =>
      if Ascii.eqb c "\" then
        match r with
        | String d r' => let '(a, b) := chunk_end r' inrange in (String c (String d a), b)
        | EmptyString => (String c EmptyString, EmptyString)
        end
      else if Ascii.eqb c "*" && negb inrange then (EmptyString, pattern)
      else
        let inrange := if Ascii.eqb c "[" then true else if Ascii.eqb c "]" then false else inrange in
        let '(a, b) := chunk_end r inrange in (String c a, b)
  end.

Fixpoint skip_stars (pattern : string) : string :=
  match pattern with
  | String c r => if Ascii.eqb c "*" then skip_stars r else pattern
  | EmptyString => EmptyString
  end.

Definition scanChunk (pattern : string) : bool * string * string :=
  let star := match pattern with String c _ => Ascii.eqb c "*" | EmptyString => false end in
  let '(chunk, rest) := chunk_end (skip_stars pattern) false in
  (star, chunk, rest).

(** One character of a class: [None] is a bad pattern. *)
Definition getEsc (chunk : string) : option (ascii * string) :=
  let after c r := match r with EmptyString => None | _ => Some (c, r) end in
  match chunk with
  | EmptyString => None
  | String c r =>
      if Ascii.eqb c "-" || Ascii.eqb c "]" then None
      else if Ascii.eqb c "\" then match r with String d r' => after d r' | EmptyString => None end
      else after c r
  end.

(** The ranges of a class against a character; the fuel is the chunk's length. *)
Fixpoint class_ranges (fuel : nat) (chunk : string) (r : Z) (first matched : bool)
    : option (bool * string) :=
  match fuel with
  | O => None
  | S fuel =>
      match chunk with
      | String "]" rest => if first then None else Some (matched, rest)
      | _ =>
          match getEsc chunk with
          | None => None
          | Some (lo, chunk) =>
              match chunk with
              | String "-" rest =>
                  match getEsc rest with
                  | None => None
                  | Some (hi, chunk) =>
                      class_ranges fuel chunk r false (matched || ((bval lo <=? r) && (r <=? bval hi)))
                  end
              | _ => class_ranges fuel chunk r false (matched || ((bval lo <=? r) && (r <=? bval lo)))
              end
          end
      end
  end.

(** The rest of the name after the chunk: [None] is a bad pattern, [Some None] no
    match.  After a mismatch the chunk is still read to its end. *)
Fixpoint match_chunk (fuel : nat) (chunk s : string) (failed : bool) : option (option string) :=
  match fuel with
  | O => None
  | S fuel =>
      match chunk with
      | EmptyString => Some (if failed then None else Some s)
      | String c chunk' =>
          let failed := failed || match s with EmptyString => true | _ => false end in
          let tail := match s with String _ r => r | EmptyString => EmptyString end in
          let head := match s with String h _ => h | EmptyString => NUL end in
          let s' := if failed then s else tail in
          if Ascii.eqb c "[" then
            let r := if failed then 0 else bval head in
            let '(negated, chunk') := match chunk' with
                                      | String "^" x => (true, x)
                                      | _ => (false, chunk')
                                      end in
            match class_ranges (S (slen chunk')) chunk' r true false with
            | None => None
            | Some (matched, chunk') =>
                match_chunk fuel chunk' s' (failed || Bool.eqb matched negated)
            end
          else if Ascii.eqb c "?" then
            match_chunk fuel chunk' s' (failed || Ascii.eqb head Sep)
          else
            let lit := if Ascii.eqb c "\" then
                         match chunk' with String d x => Some (d, x) | EmptyString => None end
                       else Some (c, chunk') in
            match lit with
            | None => None
            | Some (d, chunk') => match_chunk fuel chunk' s' (failed || negb (Ascii.eqb d head))
            end
      end
  end.

Definition matchChunk (chunk s : string) : option (option string) :=
  match_chunk (S (slen chunk)) chunk s false.

(** The star's search: skip bytes other than the separator until the chunk fits. *)
Fixpoint star_search (chunk name : string) (last : bool) : option (option string) :=
  match name with
  | EmptyString => Some None
  | String c r =>
      if Ascii.eqb c Sep then Some None
      else match matchChunk chunk r with
           | None => None
           | Some (Some t) =>
               if last && negb (String.eqb t "") then star_search chunk r last else Some (Some t)
           | Some None => star_search chunk r last
           end
  end.

(** The remaining pattern is well formed. *)
Fixpoint well_formed (fuel : nat) (pattern : string) : bool :=
  match fuel, pattern with
  | _, EmptyString => true
  | O, _ => false
  | S fuel, _ =>
      let '(_, chunk, pattern) := scanChunk pattern in
      match matchChunk chunk "" with None => false | Some _ => well_formed fuel pattern end
  end.

(** [None] is [ErrBadPattern]. *)
Fixpoint match_from (fuel : nat) (pattern name : string) : option bool :=
  match fuel with
  | O => None
  | S fuel =>
      match pattern with
      | EmptyString => Some (String.eqb name "")
      | _ =>
          let '(star, chunk, pattern) := scanChunk pattern in
          if star && String.eqb chunk "" then Some (negb (has_char Sep name))
          else
            let last := String.eqb pattern "" in
            let give_false := if well_formed (slen pattern) pattern then Some false else None in
            match matchChunk chunk name with
            | None => None
            | Some (Some t) =>
                if String.eqb t "" || negb last then match_from fuel pattern t
                else if star then
                  match star_search chunk name last with
                  | None => None
                  | Some (Some t) => match_from fuel pattern t
                  | Some None => give_false
                  end
                else give_false
            | Some None =>
                if star then
                  match star_search chunk name last with
                  | None => None
                  | Some (Some t) => match_from fuel pattern t
                  | Some None => give_false
                  end
                else give_false
            end
      end
  end.

Definition Match (pattern name : string) : option bool := match_from (S (slen pattern)) pattern name.

(** Samples of the documented behaviour. *)
Example match_samples :
  (Match "*.go" "main.go", Match "a*/b" "abc/b", Match "a*/b" "a/c/b", Match "[a-c]?" "bx",
   Match "[^a]*" "abc", Match "a[" "a", Match "a[" "b", Match "\*" "*", Match "*" "a/b") =
  (Some true, Some true, Some false, Some true, Some false, None, None, Some true, Some false).
Proof. vm_compute. reflexivity. Qed.

End FilePath.

(** ** Integers of a byte string *)

Fixpoint be_value (acc : Z) (s : string) : Z :=
  match s with EmptyString => acc | String c r => be_value (256 * acc + bval c) r end.

(** [binary.BigEndian.UintN(s)] for the [n] leading bytes, of which there are enough. *)
Definition be (n : nat) (s : string) : Z := be_value 0 (stake n s).

Fixpoint le_value (s : string) : Z :=
  match s with EmptyString => 0 | String c r => bval c + 256 * le_value r end.

Definition le (n : nat) (s : string) : Z := le_value (stake n s).

(** [PutUintN]: the low [n] bytes of a value. *)
Fixpoint put_le (n : nat) (z : Z) : string :=
  match n with O => EmptyString | S n => String (byte_of z) (put_le n (z / 256)) end.

Fixpoint put_be_acc (n : nat) (z : Z) (acc : string) : string :=
  match n with O => acc | S n => put_be_acc n (z / 256) (String (byte_of z) acc) end.
Definition put_be (n : nat) (z : Z) : string := put_be_acc n z EmptyString.

(** ** Lemmas *)

Lemma scut_last_app sep a b :
  sall (is_not sep) b = true -> scut_last sep (a +:+ String sep b) = Some (a, b).
Proof.
  intros Hb. assert (scut_last sep b = None) as Hn.
  { induction b as [|c b IH]; [done|]. cbn in Hb |- *. apply andb_prop in Hb as [Hc Hb]. rewrite (IH Hb).
    unfold is_not in Hc. by destruct (Ascii.eqb c sep). }
  induction a as [|c a IH]; [|by rewrite string_app_cons; cbn; rewrite IH].
  change ("" +:+ ?x) with x. cbn. by rewrite Hn, Ascii.eqb_refl.
Qed.

Lemma stake_sdrop n s : stake n s +:+ sdrop n s = s.
Proof.
  revert s; induction n as [|n IH]; intros [|c s]; try done.
  cbn [stake sdrop]. by rewrite string_app_cons, IH.
Qed.

Lemma slen_stake n s : slen (stake n s) = (n `min` slen s)%nat.
Proof. revert s; induction n as [|n IH]; intros [|c s]; cbn; try done. by rewrite IH. Qed.

Lemma stake_app a b : stake (slen a) (a +:+ b) = a.
Proof. induction a as [|c a IH]; [by destruct b|]. rewrite string_app_cons. cbn. by rewrite IH. Qed.

Lemma stake_app_n n a b : slen a = n -> stake n (a +:+ b) = a.
Proof. intros <-. apply stake_app. Qed.

Lemma sdrop_app_n n a b : slen a = n -> sdrop n (a +:+ b) = b.
Proof. intros <-. apply sdrop_app. Qed.

Lemma stake_all n s : (slen s <= n)%nat -> stake n s = s.
Proof.
  revert s; induction n as [|n IH]; intros [|c s] H; cbn in *; try done; [lia|].
  by rewrite IH by lia.
Qed.

Lemma stake_0 s : stake 0 s = "".
Proof. by destruct s. Qed.

Lemma slen_0 s : slen s = 0%nat -> s = "".
Proof. by destruct s. Qed.

(** A prefix long enough holds what is read from its front. *)
Lemma stake_app_le n a b : (n <= slen a)%nat -> stake n (a +:+ b) = stake n a.
Proof.
  revert a; induction n as [|n IH]; intros [|c a] H; cbn in H; try lia; [by rewrite stake_0|done|].
  rewrite string_app_cons. cbn. by rewrite IH by lia.
Qed.

Lemma sdrop_app_le n a b : (n <= slen a)%nat -> sdrop n (a +:+ b) = sdrop n a +:+ b.
Proof.
  revert a; induction n as [|n IH]; intros [|c a] H; cbn in H; try lia; [done..|].
  rewrite string_app_cons. cbn. apply IH. lia.
Qed.

Lemma bval_range c : 0 <= bval c < 256.
Proof. unfold bval. pose proof (N_ascii_bounded c). lia. Qed.

Lemma bval_byte_of z : bval (byte_of z) = u8 z.
Proof.
  unfold bval, byte_of. pose proof (wrap_u_range 8 z ltac:(lia)).
  rewrite N_ascii_embedding; lia.
Qed.

Lemma byte_of_bval c : byte_of (bval c) = c.
Proof.
  unfold byte_of, bval. rewrite wrap_u_small by apply bval_range.
  rewrite N2Z.id. apply ascii_N_embedding.
Qed.

Lemma slen_put_le n z : slen (put_le n z) = n.
Proof. revert z; induction n; intros z; cbn; by rewrite ?IHn. Qed.

Lemma le_put_le n z : 0 <= z < 256 ^ Z.of_nat n -> le_value (put_le n z) = z.
Proof.
  revert z; induction n as [|n IH]; intros z Hz; cbn [put_le le_value].
  - change (256 ^ Z.of_nat 0) with 1 in Hz. lia.
  - rewrite bval_byte_of, IH.
    + unfold wrap_u. change (2 ^ 8) with 256. pose proof (Z.div_mod z 256 ltac:(lia)). lia.
    + replace (Z.of_nat (S n)) with (Z.succ (Z.of_nat n)) in Hz by lia.
      rewrite Z.pow_succ_r in Hz by lia. split; [apply Z.div_pos; lia|]. apply Z.div_lt_upper_bound; lia.
Qed.

Lemma put_be_acc_app n z acc : put_be_acc n z acc = put_be_acc n z "" +:+ acc.
Proof.
  revert z acc; induction n as [|n IH]; intros z acc; [done|]. cbn [put_be_acc].
  rewrite IH, (IH _ (String _ "")), string_app_assoc. by rewrite string_app_cons.
Qed.

Lemma put_be_S n z : put_be (S n) z = put_be n (z / 256) +:+ String (byte_of z) "".
Proof. unfold put_be. cbn [put_be_acc]. apply put_be_acc_app. Qed.

Lemma slen_put_be n z : slen (put_be n z) = n.
Proof.
  revert z; induction n as [|n IH]; intros z; [done|]. rewrite put_be_S, slen_app, IH. cbn. lia.
Qed.

Lemma be_value_app acc a b : be_value acc (a +:+ b) = be_value (be_value acc a) b.
Proof. revert acc; induction a as [|c a IH]; intros acc; [done|]. rewrite string_app_cons. cbn. apply IH. Qed.

Lemma be_put_be n z : 0 <= z < 256 ^ Z.of_nat n -> be_value 0 (put_be n z) = z.
Proof.
  revert z; induction n as [|n IH]; intros z Hz.
  - change (256 ^ Z.of_nat 0) with 1 in Hz. cbn. lia.
  - rewrite put_be_S, be_value_app, IH.
    + cbn [be_value]. rewrite bval_byte_of. unfold wrap_u. change (2 ^ 8) with 256. pose proof (Z.div_mod z 256 ltac:(lia)). lia.
    + replace (Z.of_nat (S n)) with (Z.succ (Z.of_nat n)) in Hz by lia.
      rewrite Z.pow_succ_r in Hz by lia. split; [apply Z.div_pos; lia|]. apply Z.div_lt_upper_bound; lia.
Qed.

Lemma be_app n z rest : 0 <= z < 256 ^ Z.of_nat n -> be n (put_be n z +:+ rest) = z.
Proof. intros H. unfold be. rewrite stake_app_n by apply slen_put_be. by apply be_put_be. Qed.

Lemma le_app n z rest : 0 <= z < 256 ^ Z.of_nat n -> le n (put_le n z +:+ rest) = z.
Proof. intros H. unfold le. rewrite stake_app_n by apply slen_put_le. by apply le_put_le. Qed.

Lemma be_value_bound acc s : 0 <= acc ->
  0 <= be_value acc s < (acc + 1) * 256 ^ Z.of_nat (slen s).
Proof.
  revert acc; induction s as [|c s IH]; intros acc Ha; [cbn; lia|]. cbn [be_value slen].
  pose proof (bval_range c). specialize (IH (256 * acc + bval c) ltac:(lia)).
  replace (Z.of_nat (S (slen s))) with (Z.succ (Z.of_nat (slen s))) by lia.
  rewrite Z.pow_succ_r by lia. assert (0 < 256 ^ Z.of_nat (slen s)) by (apply Z.pow_pos_nonneg; lia).
  nia.
Qed.

Lemma be_range n s : 0 <= be n s < 256 ^ Z.of_nat n.
Proof.
  unfold be. pose proof (be_value_bound 0 (stake n s) ltac:(lia)) as H.
  rewrite slen_stake in H. assert (256 ^ Z.of_nat (n `min` slen s) <= 256 ^ Z.of_nat n)
    by (apply Z.pow_le_mono_r; lia). lia.
Qed.

Lemma le_value_bound s : 0 <= le_value s < 256 ^ Z.of_nat (slen s).
Proof.
  induction s as [|c s IH]; [cbn; lia|]. cbn [le_value slen]. pose proof (bval_range c).
  replace (Z.of_nat (S (slen s))) with (Z.succ (Z.of_nat (slen s))) by lia.
  rewrite Z.pow_succ_r by lia. lia.
Qed.

Lemma le_range n s : 0 <= le n s < 256 ^ Z.of_nat n.
Proof.
  unfold le. pose proof (le_value_bound (stake n s)) as H. rewrite slen_stake in H.
  assert (256 ^ Z.of_nat (n `min` slen s) <= 256 ^ Z.of_nat n) by (apply Z.pow_le_mono_r; lia). lia.
Qed.

Lemma lor_shift a b k : 0 <= k -> 0 <= a < 2 ^ k -> Z.lor a (Z.shiftl b k) = a + b * 2 ^ k.
Proof.
  intros Hk Ha. rewrite <- Z.shiftl_mul_pow2 by done.
  assert (E : Z.land a (Z.shiftl b k) = 0).
  { apply Z.bits_inj'. intros i Hi. rewrite Z.land_spec, Z.bits_0.
    destruct (Z.lt_ge_cases i k).
    - rewrite Z.shiftl_spec_low by done. apply andb_false_r.
    - rewrite <- (Z.mod_small a (2 ^ k)), Z.mod_pow2_bits_high by lia. done. }
  pose proof (Z.add_lor_land a (Z.shiftl b k)). lia.
Qed.

(** *** Trailing characters *)

Lemma trim_right_if_all f s : sall f s = true -> trim_right_if f s = "".
Proof.
  induction s as [|c s IH]; [done|]. cbn. rewrite andb_true_iff. intros [Hc Hs]. by rewrite IH, Hc.
Qed.

Lemma trim_right_if_app f a b : sall f b = true -> trim_right_if f (a +:+ b) = trim_right_if f a.
Proof.
  intros Hb. induction a as [|c a IH]; [by apply trim_right_if_all|].
  rewrite string_app_cons. cbn. by rewrite IH.
Qed.

Lemma trim_right_if_none f s : sall (fun c => negb (f c)) s = true -> trim_right_if f s = s.
Proof.
  induction s as [|c s IH]; [done|]. cbn. rewrite andb_true_iff, negb_true_iff. intros [Hc Hs].
  rewrite IH by done. destruct s; [by rewrite Hc|done].
Qed.

(** A line without line-end characters survives being terminated and trimmed. *)
Lemma trim_crlf_line s : sall (fun c => negb (is_crlf c)) s = true -> trim_crlf (s +:+ crlf) = s.
Proof. intros H. unfold trim_crlf. rewrite trim_right_if_app by done. by apply trim_right_if_none. Qed.

(** *** Words *)

Definition word (s : string) : Prop := s <> "" /\ sall (fun c => negb (is_space c)) s = true.

Lemma srev_app_app a b c : srev_app a (b +:+ c) = srev_app a b +:+ c.
Proof.
  revert b. induction a as [|x a IH]; intros b; [done|]. cbn [srev_app].
  by rewrite <- string_app_cons, IH.
Qed.

Lemma fields_from_word w cur rest : sall (fun c => negb (is_space c)) w = true ->
  fields_from (w +:+ rest) cur = fields_from rest (srev_app w cur).
Proof.
  revert cur. induction w as [|c w IH]; intros cur; [done|]. cbn [sall]. rewrite andb_true_iff, negb_true_iff.
  intros [Hc Hw]. rewrite string_app_cons. cbn [fields_from]. rewrite Hc. by apply IH.
Qed.

Lemma srev_app_invol a b : srev_app (srev_app a b) "" = srev_app b a.
Proof. revert b. induction a as [|x a IH]; intros b; [done|]. cbn [srev_app]. by rewrite IH. Qed.

(** Words with a space between them are what [Fields] finds. *)
Lemma fields_cons w rest : word w -> fields (w +:+ String " " rest) = w :: fields rest.
Proof.
  intros [Hne Hw]. unfold fields. rewrite fields_from_word by done. cbn [fields_from].
  change (is_space " ") with true. cbv iota.
  pose proof (srev_app_invol w "") as E. cbn [srev_app] in E. rewrite E.
  destruct (srev_app w "") eqn:Ew; [|done]. by rewrite <- E in Hne.
Qed.

Lemma fields_one w : word w -> fields w = [w].
Proof.
  intros [Hne Hw]. unfold fields. rewrite <- (string_app_nil w) at 1. rewrite fields_from_word by done.
  cbn [fields_from]. pose proof (srev_app_invol w "") as E. cbn [srev_app] in E. rewrite E.
  destruct (srev_app w "") eqn:Ew; [|done]. by rewrite <- E in Hne.
Qed.

Lemma show_Z_word z : 0 <= z -> word (show_Z z).
Proof.
  intros Hz. split.
  - pose proof (show_Z_value z Hz) as H. by destruct (show_Z z).
  - eapply sall_impl; [|by apply show_Z_digits]. by intros [[] [] [] [] [] [] [] []].
Qed.

Lemma word_no_crlf w : word w -> sall (fun c => negb (is_crlf c)) w = true.
Proof. intros [_ H]. eapply sall_impl; [|exact H]. by intros [[] [] [] [] [] [] [] []]. Qed.

(** *** [strconv.Atoi] with its error ignored *)

(** Zero for text that is not a number, the nearest bound for a number out of range. *)
Definition atoi_value (s : string) : Z :=
  match signed_value s with
  | None => 0
  | Some z => Z.max (- 2 ^ 63) (Z.min z (2 ^ 63 - 1))
  end.

Lemma atoi_value_range s : - 2 ^ 63 <= atoi_value s < 2 ^ 63.
Proof. unfold atoi_value. destruct (signed_value s); lia. Qed.

Lemma atoi_value_atoi s z : atoi s = Some z -> atoi_value s = z.
Proof.
  unfold atoi, atoi_value, in_int64. destruct (signed_value s) as [v|]; [|done].
  destruct (_ && _) eqn:E; [|done]. intros [= ->].
  apply andb_true_iff in E as [?%Z.leb_le ?%Z.ltb_lt]. lia.
Qed.

Lemma atoi_value_show z : 0 <= z < 2 ^ 63 -> atoi_value (show_Z z) = z.
Proof. intros Hz. by apply atoi_value_atoi, atoi_show. Qed.

(** Digits are none of the line-end characters. *)
Lemma digit_not_crlf c : is_digit_char c = true -> negb (is_crlf c) = true.
Proof. by destruct c as [[] [] [] [] [] [] [] []]. Qed.

Lemma show_Z_no_crlf z : 0 <= z -> sall (fun c => negb (is_crlf c)) (show_Z z) = true.
Proof. intros Hz. eapply sall_impl; [apply digit_not_crlf|by apply show_Z_digits]. Qed.

Lemma no_crlf_no_lf s : sall (fun c => negb (is_crlf c)) s = true -> sall (is_not LF) s = true.
Proof.
  apply sall_impl. intros c. unfold is_crlf, is_not. rewrite negb_orb, andb_true_iff. naive_solver.
Qed.

End GoText.
