(* ===== verification/PathMatch.v ===== *)
(** * The path glob dialect ([internal/pathmatch/pathmatch.go])

    [match_here_fuel] follows [matchHere]: the loop's tail and the recursive
    calls are both recursive calls, with fuel because a character class consumes
    a computed number of pattern bytes.  Every call shortens the pattern, so
    [S (slen pat)] units are enough ([match_here_total]).  [Glob] is the dialect
    as a grammar-directed relation; [Match_iff] shows that the code decides it. *)

From stdpp Require Import base strings list sets.
From Stdlib Require Import Ascii String Lia.
From S2P Require Import Prelude.

Module PathMatch.

Definition ascii_le (a b : ascii) : bool := (nat_of_ascii a <=? nat_of_ascii b)%nat.

(** The loop of [matchClass]: [rest] is [pat[i:]].  [None] is the loop running
    off the pattern without meeting the closing bracket. *)
Fixpoint class_loop (rest : string) (c : ascii) (i : nat) (found first : bool)
    : option (nat * bool) :=
  match rest with
  | EmptyString => None
  | String x r1 =>
      if Ascii.eqb x "]" && negb first then Some (i, found)
      else
        match Ascii.eqb x "\", r1 with
        | true, String y r2 => class_loop r2 c (i + 2) (found || Ascii.eqb y c) false
        | _, _ =>
            match r1 with
            | String d (String z r3) =>
                if Ascii.eqb d "-" && negb (Ascii.eqb z "]")
                then class_loop r3 c (i + 3) (found || (ascii_le x c && ascii_le c z)) false
                else class_loop r1 c (i + 1) (found || Ascii.eqb x c) false
            | _ => class_loop r1 c (i + 1) (found || Ascii.eqb x c) false
            end
        end
  end.

(** [matchClass]: how many pattern bytes the class takes, and whether [c] is in it. *)
Definition matchClass (pat : string) (c : ascii) : nat * bool :=
  let r1 := sdrop 1 pat in
  let negate := match r1 with
                | String x _ => Ascii.eqb x "!" || Ascii.eqb x "^"
                | EmptyString => false
                end in
  let i := if negate then 2 else 1 in
  match class_loop (sdrop i pat) c i false true with
  | None => (0, false)
  | Some (i, found) => (i + 1, xorb found negate)
  end.

(** The two loops over split points: [**] tries every suffix of the path, [*]
    stops after the suffix that begins with a separator. *)
Fixpoint any_suffix (f : string -> option bool) (s : string) : option bool :=
  match f s with
  | Some false => match s with
                  | EmptyString => Some false
                  | String _ r => any_suffix f r
                  end
  | r => r
  end.

Fixpoint any_segment_suffix (f : string -> option bool) (s : string) : option bool :=
  match f s with
  | Some false => match s with
                  | EmptyString => Some false
                  | String c r => if Ascii.eqb c "/" then Some false
                                  else any_segment_suffix f r
                  end
  | r => r
  end.

Fixpoint match_here_fuel (fuel : nat) (pat s : string) {struct fuel} : option bool :=
  match fuel with
  | O => None
  | S fuel =>
      match pat with
      | EmptyString => Some (String.eqb s "")
      | String p rest =>
          if String.eqb pat "/**" && String.eqb s "" then Some true
          else if Ascii.eqb p "*" then
            match rest with
            | EmptyString => any_segment_suffix (match_here_fuel fuel rest) s
            | String q rest2 =>
                if negb (Ascii.eqb q "*") then any_segment_suffix (match_here_fuel fuel rest) s
                else
                  match rest2 with
                  | EmptyString => Some true
                  | String x r =>
                      match (if Ascii.eqb x "/" then match_here_fuel fuel r s else Some false) with
                      | Some false => any_suffix (match_here_fuel fuel rest2) s
                      | res => res
                      end
                  end
            end
          else
            match s with
            | EmptyString => Some false
            | String c s' =>
                if Ascii.eqb p "?" then
                  if Ascii.eqb c "/" then Some false else match_here_fuel fuel rest s'
                else if Ascii.eqb p "[" then
                  if Ascii.eqb c "/" then Some false
                  else match matchClass pat c with
                       | (_, false) => Some false
                       | (n, true) => match_here_fuel fuel (sdrop n pat) s'
                       end
                else if Ascii.eqb p "\" then
                  match rest with
                  | EmptyString => Some false
                  | String q rest' =>
                      if Ascii.eqb c q then match_here_fuel fuel rest' s' else Some false
                  end
                else if Ascii.eqb c p then match_here_fuel fuel rest s' else Some false
            end
      end
  end.

Definition matchHere (pat s : string) : bool :=
  default false (match_here_fuel (S (slen pat)) pat s).

Definition Match (pattern path : string) : bool :=
  if String.eqb pattern "" then true else matchHere pattern path.

Definition contains_any (chars s : string) : bool :=
  existsb (fun c => existsb (Ascii.eqb c) (list_ascii_of_string chars))
          (list_ascii_of_string s).

Definition HasWildcard (pattern : string) : bool := contains_any "*?[" pattern.

Definition MatchAny (patterns : list string) (path : string) : bool :=
  match patterns with
  | [] => true
  | _ => existsb (fun p => Match p path) patterns
  end.

Example ex1 : Match "/data/**" "/data/a/b" = true. Proof. reflexivity. Qed.
Example ex2 : Match "/data/**" "/data" = true. Proof. reflexivity. Qed.
Example ex3 : Match "a/**/b" "a/b" = true. Proof. reflexivity. Qed.
Example ex4 : Match "/d[a-c!]x" "/d!x" = true. Proof. reflexivity. Qed.
Example ex5 : Match "/d[!a-c]x" "/dbx" = false. Proof. reflexivity. Qed.

(** ** The dialect as a relation *)

(** A class body after the opening bracket and its negation mark: its items as
    byte ranges, and the pattern that follows the closing bracket.  The flag says
    that no item has been read yet, when a closing bracket is an item itself. *)
Inductive ClassBody : bool -> string -> list (ascii * ascii) -> string -> Prop :=
| CB_close after : ClassBody false (String "]" after) [] after
| CB_escape first y r items after :
    ClassBody false r items after ->
    ClassBody first (String "\" (String y r)) ((y, y) :: items) after
| CB_range first x z r items after :
    x <> "\"%char -> (x = "]"%char -> first = true) -> z <> "]"%char ->
    ClassBody false r items after ->
    ClassBody first (String x (String "-" (String z r))) ((x, z) :: items) after
| CB_char first x r items after :
    x <> "\"%char -> (x = "]"%char -> first = true) ->
    (forall z r', r = String "-" (String z r') -> z = "]"%char) ->
    ClassBody false r items after ->
    ClassBody first (String x r) ((x, x) :: items) after.

Definition in_items (c : ascii) (items : list (ascii * ascii)) : bool :=
  existsb (fun i => ascii_le i.1 c && ascii_le c i.2) items.

(** The class at the head of a pattern, with its negation mark. *)
Inductive Class : string -> bool -> list (ascii * ascii) -> string -> Prop :=
| Class_neg m r items after :
    m = "!"%char \/ m = "^"%char -> ClassBody true r items after ->
    Class (String "[" (String m r)) true items after
| Class_pos r items after :
    (forall m r', r = String m r' -> m <> "!"%char /\ m <> "^"%char) ->
    ClassBody true r items after ->
    Class (String "[" r) false items after.

Fixpoint no_slash (s : string) : bool :=
  match s with
  | EmptyString => true
  | String c r => negb (Ascii.eqb c "/") && no_slash r
  end.

Inductive Glob : string -> string -> Prop :=
| G_end : Glob "" ""
| G_dir : Glob "/**" ""
| G_deep_end s : Glob "**" s
| G_deep rest a b :
    rest <> "" -> Glob rest b -> Glob (String "*" (String "*" rest)) (a +:+ b)
| G_deep_skip rest s :
    Glob rest s -> Glob (String "*" (String "*" (String "/" rest))) s
| G_star rest a b :
    (forall r, rest <> String "*" r) -> no_slash a = true -> Glob rest b ->
    Glob (String "*" rest) (a +:+ b)
| G_any rest c s :
    c <> "/"%char -> Glob rest s -> Glob (String "?" rest) (String c s)
| G_class pat neg items after c s :
    Class pat neg items after -> c <> "/"%char -> in_items c items = negb neg ->
    Glob after s -> Glob pat (String c s)
| G_escape rest c s : Glob rest s -> Glob (String "\" (String c rest)) (String c s)
| G_literal rest c s :
    c ∉ ["*"; "?"; "["; "\"]%char -> Glob rest s -> Glob (String c rest) (String c s).

(** ** Character classes *)

Lemma string_len_ind (P : string -> Prop) :
  (forall s, (forall r, slen r < slen s -> P r) -> P s) -> forall s, P s.
Proof.
  intros H s. remember (slen s) as n eqn:Hn. revert s Hn.
  induction n as [n IH] using lt_wf_ind. intros s ->.
  apply H. intros r Hr. eapply IH; [exact Hr|done].
Qed.

Lemma ascii_le_antisym a b : ascii_le a b = true -> ascii_le b a = true -> a = b.
Proof.
  unfold ascii_le. rewrite !Nat.leb_le. intros.
  rewrite <- (ascii_nat_embedding a), <- (ascii_nat_embedding b). f_equal. lia.
Qed.

Lemma ascii_le_refl a : ascii_le a a = true.
Proof. apply Nat.leb_refl. Qed.

Lemma in_items_single c y items :
  in_items c ((y, y) :: items) = Ascii.eqb y c || in_items c items.
Proof.
  cbn. f_equal. destruct (Ascii.eqb_spec y c) as [->|Hne].
  - by rewrite ascii_le_refl.
  - destruct (ascii_le y c) eqn:H1, (ascii_le c y) eqn:H2; try done.
    by destruct Hne; apply ascii_le_antisym.
Qed.

Lemma ClassBody_suffix first rest items after :
  ClassBody first rest items after ->
  sdrop (slen rest - slen after) rest = after /\ slen after < slen rest.
Proof.
  induction 1 as [after|first y r items after _ [IH Hl]
                 |first x z r items after _ _ _ _ [IH Hl]
                 |first x r items after _ _ _ _ [IH Hl]]; cbn [slen].
  - split; [|lia]. by replace (S (slen after) - slen after) with 1 by lia.
  - split; [|lia].
    by replace (S (S (slen r)) - slen after) with (S (S (slen r - slen after))) by lia.
  - split; [|lia].
    by replace (S (S (S (slen r))) - slen after) with (S (S (S (slen r - slen after)))) by lia.
  - split; [|lia].
    by replace (S (slen r) - slen after) with (S (slen r - slen after)) by lia.
Qed.

Lemma class_loop_complete first rest items after c i found :
  ClassBody first rest items after ->
  class_loop rest c i found first
    = Some (i + (slen rest - S (slen after)), found || in_items c items).
Proof.
  intros H. revert i found.
  induction H as [after|first y r items after HB IH
                 |first x z r items after Hx Hc Hz HB IH
                 |first x r items after Hx Hc Hr HB IH]; intros i found;
    [| |apply ClassBody_suffix in HB as [_ Hl]..].
  - cbn. by rewrite Nat.sub_diag, Nat.add_0_r, orb_false_r.
  - apply ClassBody_suffix in HB as [_ Hl].
    cbn [class_loop]. rewrite in_items_single.
    cbn. rewrite IH, orb_assoc. f_equal; f_equal; lia.
  - cbn [class_loop].
    replace (Ascii.eqb x "]" && negb first) with false
      by (symmetry; destruct (Ascii.eqb_spec x "]"); [by rewrite Hc|done]).
    destruct (Ascii.eqb_spec x "\"); [done|].
    destruct (Ascii.eqb_spec z "]"); [done|]. cbn -[ascii_le].
    rewrite IH. cbn. rewrite orb_assoc. f_equal; f_equal; lia.
  - cbn [class_loop].
    replace (Ascii.eqb x "]" && negb first) with false
      by (symmetry; destruct (Ascii.eqb_spec x "]"); [by rewrite Hc|done]).
    destruct (Ascii.eqb_spec x "\"); [done|]. rewrite in_items_single, orb_assoc.
    assert (class_loop r c (i + 1) (found || Ascii.eqb x c) false =
            Some (i + (slen (String x r) - S (slen after)),
                  (found || Ascii.eqb x c) || in_items c items)) as E
      by (rewrite IH; cbn; f_equal; f_equal; lia).
    destruct r as [|d [|z r]]; [exact E..|].
    destruct (Ascii.eqb_spec d "-") as [->|]; [|exact E].
    destruct (Ascii.eqb_spec z "]"); [exact E|]. by specialize (Hr z r eq_refl).
Qed.

Lemma class_loop_sound rest : forall c i found first res,
  class_loop rest c i found first = Some res ->
  exists items after, ClassBody first rest items after.
Proof.
  induction rest as [rest IH] using string_len_ind. intros c i found first res H.
  destruct rest as [|x r1]; [done|]. cbn [class_loop] in H.
  destruct (Ascii.eqb x "]" && negb first) eqn:Hclose.
  { apply andb_true_iff in Hclose as [->%Ascii.eqb_eq Hf].
    destruct first; [done|]. by exists [], r1; constructor. }
  assert (x = "]"%char -> first = true) as Hx by (intros ->; by destruct first).
  assert (forall r j g, slen r < slen (String x r1) ->
            class_loop r c j g false = Some res ->
            exists items after, ClassBody false r items after) as IH' by eauto.
  clear IH. destruct (Ascii.eqb_spec x "\") as [->|Hb].
  - destruct r1 as [|y r2]; [done|].
    destruct (IH' r2 _ _ ltac:(cbn; lia) H) as (it & af & HB).
    eexists _, _; by apply CB_escape.
  - assert ((forall z r', r1 = String "-" (String z r') -> z = "]"%char) ->
            class_loop r1 c (i + 1) (found || Ascii.eqb x c) false = Some res ->
            exists items after, ClassBody first (String x r1) items after) as Hchar.
    { intros Hr Hl. destruct (IH' r1 _ _ ltac:(cbn; lia) Hl) as (it & af & HB).
      eexists _, _; by apply CB_char. }
    destruct r1 as [|d [|z r3]]; [by apply Hchar..|].
    destruct (Ascii.eqb_spec d "-") as [->|Hd], (Ascii.eqb_spec z "]") as [->|Hz];
      cbn [negb andb] in H; try (apply Hchar; [by intros ? ? [=]|done]).
    destruct (IH' r3 _ _ ltac:(cbn; lia) H) as (it & af & HB).
    eexists _, _; by apply CB_range.
Qed.

Lemma matchClass_complete pat neg items after c :
  Class pat neg items after ->
  exists n, matchClass pat c = (n, xorb (in_items c items) neg) /\ sdrop n pat = after
            /\ slen after < slen pat.
Proof.
  intros [m r it af Hm HB|r it af Hm HB]; pose proof (ClassBody_suffix _ _ _ _ HB) as [Hs Hl];
    unfold matchClass.
  - exists (S (S (slen r - slen af))).
    replace (match sdrop 1 (String "[" (String m r)) with
             | "" => false | String x _ => Ascii.eqb x "!" || Ascii.eqb x "^" end)
      with true by (by destruct Hm as [->| ->]).
    cbn [sdrop]. rewrite ?sdrop_0, (class_loop_complete _ _ _ _ _ _ _ HB). cbn.
    rewrite Hs. split; [f_equal; lia|split; [done|lia]].
  - exists (S (slen r - slen af)).
    replace (match sdrop 1 (String "[" r) with
             | "" => false | String x _ => Ascii.eqb x "!" || Ascii.eqb x "^" end)
      with false.
    2: { destruct r as [|x r]; [done|]. destruct (Hm x r eq_refl).
         cbn. destruct (Ascii.eqb_spec x "!"), (Ascii.eqb_spec x "^"); done. }
    cbn [sdrop]. rewrite ?sdrop_0, (class_loop_complete _ _ _ _ _ _ _ HB). cbn.
    rewrite Hs. split; [f_equal; lia|split; [done|lia]].
Qed.

Lemma matchClass_sound rest c n :
  matchClass (String "[" rest) c = (n, true) ->
  exists neg items after,
    Class (String "[" rest) neg items after /\ in_items c items = negb neg
    /\ sdrop n (String "[" rest) = after.
Proof.
  intros H.
  assert (exists neg items after, Class (String "[" rest) neg items after)
    as (neg & items & after & HC).
  { unfold matchClass in H. cbn [sdrop] in H.
    destruct rest as [|m r]; [done|].
    destruct (Ascii.eqb m "!" || Ascii.eqb m "^") eqn:Hm; cbn [sdrop] in H;
      rewrite ?sdrop_0 in H; destruct (class_loop _ _ _ _ _) eqn:E; try done;
      apply class_loop_sound in E as (it & af & HB).
    - exists true, it, af. constructor; [|done].
      apply orb_true_iff in Hm as [?%Ascii.eqb_eq|?%Ascii.eqb_eq]; auto.
    - exists false, it, af. constructor; [|done].
      apply orb_false_iff in Hm as [?%Ascii.eqb_neq ?%Ascii.eqb_neq].
      by intros ? ? [= <- <-]. }
  destruct (matchClass_complete _ _ _ _ c HC) as (n' & E & Hd & _).
  rewrite H in E. simplify_eq. exists neg, items, (sdrop n' (String "[" rest)).
  split_and!; [done| |done]. by destruct (in_items c items), neg.
Qed.

(** ** The loops over split points *)

Section Suffixes.
Context (f : string -> option bool).
Hypothesis f_total : forall s, is_Some (f s).

Lemma any_suffix_total s : is_Some (any_suffix f s).
Proof using f_total.
  induction s as [|c s IH]; cbn.
  - destruct (f_total "") as [[] ->]; eauto.
  - destruct (f_total (String c s)) as [[] ->]; eauto.
Qed.

Lemma any_segment_suffix_total s : is_Some (any_segment_suffix f s).
Proof using f_total.
  induction s as [|c s IH]; cbn.
  - destruct (f_total "") as [[] ->]; eauto.
  - destruct (f_total (String c s)) as [[] ->]; [eauto|]. destruct (Ascii.eqb c "/"); eauto.
Qed.

Lemma any_suffix_true s :
  any_suffix f s = Some true <-> exists a b, s = a +:+ b /\ f b = Some true.
Proof using f_total.
  induction s as [|c s IH]; cbn.
  - destruct (f_total "") as [b Hb]; rewrite Hb; split.
    + intros H. exists "", "". destruct b; naive_solver.
    + intros ([|] & b' & Hs & H); [|done]. change ("" +:+ b') with b' in Hs.
      subst. by simplify_eq.
  - destruct (f_total (String c s)) as [[] Hb]; rewrite Hb; split; intros H.
    + by exists "", (String c s).
    + done.
    + apply IH in H as (a & b & -> & H). by exists (String c a), b.
    + apply IH. destruct H as ([|x a] & b & Hs & H).
      * change ("" +:+ b) with b in Hs. subst. by rewrite Hb in H.
      * rewrite string_app_cons in Hs. simplify_eq. eauto.
Qed.

Lemma any_segment_suffix_true s :
  any_segment_suffix f s = Some true <->
  exists a b, s = a +:+ b /\ no_slash a = true /\ f b = Some true.
Proof using f_total.
  induction s as [|c s IH]; cbn.
  - destruct (f_total "") as [b Hb]; rewrite Hb; split.
    + intros H. exists "", "". destruct b; naive_solver.
    + intros ([|] & b' & Hs & _ & H); [|done]. change ("" +:+ b') with b' in Hs.
      subst. by simplify_eq.
  - destruct (f_total (String c s)) as [[] Hb]; rewrite Hb; split; intros H.
    + by exists "", (String c s).
    + done.
    + destruct (Ascii.eqb c "/") eqn:Hc; [done|].
      apply IH in H as (a & b & -> & Ha & H). exists (String c a), b. by cbn; rewrite Hc.
    + destruct H as ([|x a] & b & Hs & Ha & H).
      * change ("" +:+ b) with b in Hs. subst. by rewrite Hb in H.
      * rewrite string_app_cons in Hs. simplify_eq. cbn in Ha.
        apply andb_true_iff in Ha as [Hx Ha]. apply negb_true_iff in Hx. rewrite Hx.
        apply IH. eauto.
Qed.
End Suffixes.

(** ** Termination and correctness of the matcher *)

Lemma match_here_total fuel : forall pat s,
  slen pat < fuel -> is_Some (match_here_fuel fuel pat s).
Proof.
  induction fuel as [|fuel IH]; intros pat s Hf; [lia|].
  destruct pat as [|p rest]; cbn [match_here_fuel]; [eauto|]. cbn [slen] in Hf.
  destruct (_ && _); [eauto|]. destruct (Ascii.eqb p "*").
  - assert (is_Some (any_segment_suffix (match_here_fuel fuel rest) s)) as Hseg.
    { apply any_segment_suffix_total. intros. apply IH. lia. }
    destruct rest as [|q [|x r]]; [done|by destruct (Ascii.eqb q "*")|].
    destruct (Ascii.eqb q "*"); [|done]. cbn [slen negb] in *.
    assert (is_Some (any_suffix (match_here_fuel fuel (String x r)) s)) as Hany.
    { apply any_suffix_total. intros. apply IH. cbn; lia. }
    destruct (Ascii.eqb x "/"); [|done].
    destruct (IH r s ltac:(lia)) as [[] ->]; eauto.
  - destruct s as [|c s']; [eauto|].
    destruct (Ascii.eqb p "?"); [destruct (Ascii.eqb c "/"); [eauto|apply IH; lia]|].
    destruct (Ascii.eqb_spec p "["%char) as [->|].
    { destruct (Ascii.eqb c "/"); [eauto|].
      destruct (matchClass _ c) as [n []] eqn:E; [|eauto].
      apply matchClass_sound in E as (neg & it & af & HC & _ & Hd).
      destruct (matchClass_complete _ _ _ _ c HC) as (_ & _ & _ & Hl).
      rewrite Hd. apply IH. cbn [slen] in Hl. lia. }
    destruct (Ascii.eqb p "\").
    { destruct rest as [|q rest']; [eauto|]. cbn [slen] in Hf.
      destruct (Ascii.eqb c q); [apply IH; lia|eauto]. }
    destruct (Ascii.eqb c p); [apply IH; lia|eauto].
Qed.

Lemma match_here_sound fuel : forall pat s,
  slen pat < fuel -> match_here_fuel fuel pat s = Some true -> Glob pat s.
Proof.
  induction fuel as [|fuel IH]; intros pat s Hf H; [lia|].
  destruct pat as [|p rest]; cbn [match_here_fuel] in H.
  { simplify_eq. apply String.eqb_eq in H as ->. constructor. }
  cbn [slen] in Hf. destruct (_ && _) eqn:Hdir.
  { apply andb_true_iff in Hdir as [->%String.eqb_eq ->%String.eqb_eq]. constructor. }
  clear Hdir. destruct (Ascii.eqb_spec p "*") as [->|Hstar].
  - destruct rest as [|q rest2].
    + apply any_segment_suffix_true in H as (a & b & -> & Ha & H);
        [|intros; apply match_here_total; cbn; lia].
      apply G_star; [done|done|]. apply IH; [cbn; lia|done].
    + destruct (Ascii.eqb_spec q "*") as [->|Hq]; cbn [negb] in H.
      2: { apply any_segment_suffix_true in H as (a & b & -> & Ha & H);
             [|intros; apply match_here_total; lia].
           apply G_star; [by intros ? [=]|done|]. apply IH; [lia|done]. }
      destruct rest2 as [|x r]; [apply G_deep_end|]. cbn [slen] in Hf.
      destruct (Ascii.eqb_spec x "/") as [->|Hx].
      * destruct (match_here_fuel fuel r s) as [[]|] eqn:E; [|clear E|done].
        { apply G_deep_skip. apply IH; [lia|done]. }
        apply any_suffix_true in H as (a & b & -> & H);
          [|intros; apply match_here_total; cbn; lia].
        apply G_deep; [done|]. apply IH; [cbn; lia|done].
      * apply any_suffix_true in H as (a & b & -> & H);
          [|intros; apply match_here_total; cbn; lia].
        apply G_deep; [done|]. apply IH; [cbn; lia|done].
  - destruct s as [|c s']; [done|].
    destruct (Ascii.eqb_spec p "?") as [->|Hany].
    { destruct (Ascii.eqb_spec c "/"); [done|]. apply G_any; [done|]. apply IH; [lia|done]. }
    destruct (Ascii.eqb_spec p "["%char) as [->|Hcl].
    { destruct (Ascii.eqb_spec c "/"); [done|].
      destruct (matchClass _ c) as [k []] eqn:E; [|done].
      apply matchClass_sound in E as (neg & it & af & HC & Hin & Hd).
      destruct (matchClass_complete _ _ _ _ c HC) as (_ & _ & _ & Hl).
      rewrite Hd in H. eapply G_class; [done..|]. apply IH; [cbn [slen] in Hl; lia|done]. }
    destruct (Ascii.eqb_spec p "\") as [->|Hesc].
    { destruct rest as [|q rest']; [done|]. cbn [slen] in Hf.
      destruct (Ascii.eqb_spec c q) as [->|]; [|done].
      apply G_escape. apply IH; [lia|done]. }
    destruct (Ascii.eqb_spec c p) as [->|]; [|done].
    apply G_literal; [by set_solver|]. apply IH; [lia|done].
Qed.

Lemma match_here_complete pat s :
  Glob pat s -> forall fuel, slen pat < fuel -> match_here_fuel fuel pat s = Some true.
Proof.
  induction 1 as [| |s|rest a b Hne _ IH|rest s _ IH|rest a b Hs Ha _ IH|rest c s Hc _ IH
                 |pat neg items after c s HC Hc Hin _ IH|rest c s _ IH|rest c s Hc _ IH];
    (intros [|fuel] Hf; [lia|]); cbn [slen] in *.
  - done.
  - done.
  - done.
  - destruct rest as [|x r]; [done|]. cbn [match_here_fuel]. cbn -[any_suffix slen] in *.
    assert (any_suffix (match_here_fuel fuel (String x r)) (a +:+ b) = Some true) as E.
    { apply any_suffix_true; [intros; apply match_here_total; lia|].
      exists a, b. split; [done|]. apply IH. lia. }
    destruct (Ascii.eqb x "/"); [|done].
    destruct (match_here_total fuel r (a +:+ b)) as [[] ->]; [cbn in Hf; lia|done..].
  - cbn [match_here_fuel]. cbn -[any_suffix]. rewrite IH; [done|lia].
  - cbn [match_here_fuel]. cbn -[any_segment_suffix].
    assert (any_segment_suffix (match_here_fuel fuel rest) (a +:+ b) = Some true) as E.
    { apply any_segment_suffix_true; [intros; apply match_here_total; lia|].
      exists a, b. split_and!; [done..|]. apply IH. lia. }
    destruct rest as [|q r]; [done|]. destruct (Ascii.eqb_spec q "*") as [->|]; [|done].
    by destruct (Hs r).
  - cbn [match_here_fuel]. cbn -[any_suffix].
    destruct (Ascii.eqb_spec c "/"); [done|]. apply IH. lia.
  - destruct (matchClass_complete _ _ _ _ c HC) as (n & Hn & Hd & Hl).
    assert (exists r, pat = String "[" r) as [r ->] by (destruct HC; eauto).
    cbn [match_here_fuel]. rewrite Hn, Hin, Hd. cbn -[slen].
    destruct (Ascii.eqb_spec c "/"); [done|].
    replace (xorb (negb neg) neg) with true by (by destruct neg). apply IH. lia.
  - cbn [match_here_fuel]. cbn. rewrite Ascii.eqb_refl. apply IH. lia.
  - cbn [match_here_fuel].
    replace (String.eqb (String c s) "") with false by done. rewrite andb_false_r.
    destruct (Ascii.eqb_spec c "*"); [set_solver|]. destruct (Ascii.eqb_spec c "?"); [set_solver|].
    destruct (Ascii.eqb_spec c "["%char); [set_solver|].
    destruct (Ascii.eqb_spec c "\"); [set_solver|].
    rewrite Ascii.eqb_refl. apply IH. lia.
Qed.

Lemma matchHere_iff pat s : matchHere pat s = true <-> Glob pat s.
Proof.
  unfold matchHere. split; intros H.
  - destruct (match_here_fuel _ pat s) eqn:E; cbn in H; [subst|done].
    eapply match_here_sound; [|done]. lia.
  - by rewrite (match_here_complete _ _ H) by lia.
Qed.

(** ** What the dialect means for the patterns specs are written with *)

Definition literal_char (c : ascii) : bool :=
  negb (existsb (Ascii.eqb c) ["*"; "?"; "["; "\"]%char).

Fixpoint literal (s : string) : bool :=
  match s with EmptyString => true | String c r => literal_char c && literal r end.

Lemma literal_char_spec c :
  literal_char c = true <-> c ∉ ["*"; "?"; "["; "\"]%char.
Proof.
  unfold literal_char. rewrite negb_true_iff, <- not_true_iff_false, existsb_exists.
  setoid_rewrite Ascii.eqb_eq. setoid_rewrite <- list_elem_of_In. naive_solver.
Qed.

Lemma Class_bracket pat neg items after : Class pat neg items after -> exists r, pat = String "[" r.
Proof. destruct 1; eauto. Qed.

(** A literal byte consumes itself, unless the pattern is the special ["/**"]
    applied to the empty path. *)
Lemma Glob_literal_cons c pat s :
  literal_char c = true -> (c = "/"%char -> pat <> "**") ->
  Glob (String c pat) s <-> exists s', s = String c s' /\ Glob pat s'.
Proof.
  intros Hc%literal_char_spec Hd. split.
  - intros H. inversion H; subst; try (destruct Hc; set_solver); try (by destruct Hd); eauto.
    match goal with HC : Class _ _ _ _ |- _ =>
      destruct (Class_bracket _ _ _ _ HC) as [? [= -> _]] end.
    destruct Hc. set_solver.
  - intros (s' & -> & H). by apply G_literal.
Qed.

Lemma Glob_literal_app d pat s :
  literal d = true -> pat <> "**" ->
  Glob (d +:+ pat) s <->
  (exists s', s = d +:+ s' /\ Glob pat s').
Proof.
  intros Hd Hp. revert s. induction d as [|c d IH]; intros s.
  { split; [intros H; by exists s|by intros (s' & -> & ?)]. }
  cbn in Hd. apply andb_true_iff in Hd as [Hc Hd].
  rewrite string_app_cons, Glob_literal_cons; [|done|].
  - setoid_rewrite (IH Hd). setoid_rewrite string_app_cons. naive_solver.
  - intros -> Heq. destruct d as [|x d]; [done|].
    rewrite string_app_cons in Heq. by injection Heq as -> _.
Qed.

Lemma Glob_nil s : Glob "" s <-> s = "".
Proof.
  split; [|intros ->; constructor]. inversion 1 as [| | | | | | |? ? ? ? ? ? HC| |]; [done|].
  by destruct (Class_bracket _ _ _ _ HC).
Qed.

Lemma Glob_subtree s : Glob "/**" s <-> s = "" \/ exists x, s = "/" +:+ x.
Proof.
  split.
  - inversion 1 as [| | | | | | |? ? ? ? ? ? HC| |]; subst; [by left| |right; by eexists].
    by destruct (Class_bracket _ _ _ _ HC).
  - intros [->|[x ->]]; [constructor|]. apply G_literal; [|apply G_deep_end].
    by apply literal_char_spec.
Qed.

Lemma Glob_segment s : Glob "/*" s <-> exists x, no_slash x = true /\ s = "/" +:+ x.
Proof.
  rewrite (Glob_literal_cons "/" "*"); [|done..]. split.
  - intros (s' & -> & H). inversion H as [| | | | |? a b Hr Ha Hb| |? ? ? ? ? ? HC| |]; subst.
    + apply Glob_nil in Hb as ->. exists a. by rewrite string_app_nil.
    + by destruct (Class_bracket _ _ _ _ HC).
    + set_solver.
  - intros (x & Hx & ->). exists x. split; [done|].
    rewrite <- (string_app_nil x). apply G_star; [done..|constructor].
Qed.

Lemma Match_nonempty pat s : pat <> "" -> Match pat s = matchHere pat s.
Proof. intros H. unfold Match. by destruct (String.eqb_spec pat ""). Qed.

(** C1: The glob matcher decides the documented dialect: an empty pattern
    matches every path, and any other pattern matches exactly the paths the
    grammar-directed relation [Glob] relates it to (every combination of
    literals, escapes, classes, [?], [*] and [**]). *)
Theorem Match_iff pattern path :
  Match pattern path = true <-> pattern = "" \/ Glob pattern path.
Proof.
  unfold Match. destruct (String.eqb_spec pattern "") as [->|Hne]; [tauto|].
  rewrite matchHere_iff. tauto.
Qed.

(** For a literal directory [d], the pattern [d/**] matches exactly [d]
    itself and every path below it at any depth, while [d/*] matches exactly the
    paths one segment below it and never crosses a separator. *)
Theorem Match_subtree_and_segment d path :
  literal d = true ->
  (Match (d +:+ "/**") path = true <-> path = d \/ exists x, path = d +:+ "/" +:+ x) /\
  (Match (d +:+ "/*") path = true <->
     exists x, no_slash x = true /\ path = d +:+ "/" +:+ x).
Proof.
  intros Hd. rewrite !Match_nonempty, !matchHere_iff by (by destruct d).
  rewrite !Glob_literal_app by done. setoid_rewrite Glob_subtree. setoid_rewrite Glob_segment.
  split; split.
  - intros (s' & -> & [->|[x ->]]); [left; apply string_app_nil|eauto].
  - intros [->|[x ->]]; [exists ""; by rewrite string_app_nil; auto|eauto].
  - intros (s' & -> & x & Hx & ->). eauto.
  - intros (x & Hx & ->). eauto.
Qed.

Lemma Match_subtree_and_segment_witness :
  literal "/data" = true /\ Match "/data/**" "/data/a/b" = true.
Proof.
  split; [reflexivity|].
  apply (proj1 (Match_subtree_and_segment "/data" "/data/a/b" eq_refl)).
  right. exists "a/b". reflexivity.
Defined.

End PathMatch.
