(* ===== verification/Seccomp.v ===== *)
(** * The seccomp filter builder ([internal/seccomp])

    The syscall tables of both architectures, the classic BPF program that
    [buildFilter] assembles, the notification responses, and the decoders of what
    the supervisor reads from a traced process's memory.

    The kernel that runs the program is not part of the repository: it is the
    class [BpfMachine], whose laws are the documented semantics of the three
    instructions the builder emits and the layout of [struct seccomp_data].
    [Interp] is a machine that satisfies them. *)

From stdpp Require Import base gmap strings list numbers pretty.
From Stdlib Require Import ZArith Lia.
From S2P Require Import Prelude.
Local Open Scope Z_scope.

Module Seccomp.

(** ** Constants *)

Definition SECCOMP_RET_ALLOW : Z := 0x7fff0000.
Definition SECCOMP_RET_USER_NOTIF : Z := 0x7fc00000.

Definition bpfLD : Z := 0x00.
Definition bpfJMP : Z := 0x05.
Definition bpfRET : Z := 0x06.
Definition bpfW : Z := 0x00.
Definition bpfABS : Z := 0x20.
Definition bpfJEQ : Z := 0x10.
Definition bpfK : Z := 0x00.

Definition offsetNr : Z := 0.
Definition offsetArch : Z := 4.
Definition offsetArgs0 : Z := 16.

(** ** Architectures: [arch_amd64.go] and [arch_arm64.go] *)

Record Arch := mkArch { auditArch : Z; syscallNames : list (Z * string) }.

Definition amd64 : Arch := mkArch 0xC000003E
  [ (0, "read"); (1, "write"); (2, "open"); (3, "close"); (17, "pread64");
    (18, "pwrite64"); (19, "readv"); (20, "writev"); (42, "connect"); (43, "accept");
    (44, "sendto"); (45, "recvfrom"); (46, "sendmsg"); (47, "recvmsg"); (49, "bind");
    (50, "listen"); (41, "socket"); (74, "fsync"); (75, "fdatasync"); (257, "openat");
    (83, "mkdir"); (84, "rmdir"); (87, "unlink"); (263, "unlinkat"); (258, "mkdirat");
    (4, "stat"); (5, "fstat"); (6, "lstat"); (262, "newfstatat"); (9, "mmap");
    (10, "mprotect"); (12, "brk"); (16, "ioctl"); (21, "access"); (56, "clone");
    (57, "fork"); (59, "execve"); (60, "exit"); (61, "wait4"); (39, "getpid");
    (63, "uname"); (72, "fcntl"); (78, "getdents"); (89, "readlink");
    (217, "getdents64"); (302, "prlimit64"); (318, "getrandom"); (231, "exit_group");
    (13, "sigaction"); (14, "sigprocmask"); (15, "sigreturn"); (35, "nanosleep");
    (228, "clock_gettime"); (230, "clock_nanosleep"); (202, "futex"); (7, "poll");
    (23, "select"); (270, "pselect6"); (271, "ppoll") ].

Definition arm64 : Arch := mkArch 0xC00000B7
  [ (56, "openat"); (57, "close"); (63, "read"); (64, "write"); (67, "pread64");
    (68, "pwrite64"); (82, "fsync"); (83, "fdatasync"); (203, "connect");
    (198, "socket"); (200, "bind"); (201, "listen"); (202, "accept");
    (204, "getsockname"); (206, "sendto"); (207, "recvfrom"); (211, "sendmsg");
    (212, "recvmsg"); (222, "mmap"); (226, "mprotect"); (233, "mkdirat");
    (35, "unlinkat"); (48, "faccessat"); (79, "fstatat"); (61, "getdents64");
    (78, "readlinkat"); (160, "uname"); (172, "getpid"); (214, "brk"); (260, "wait4");
    (220, "clone"); (221, "execve"); (93, "exit"); (94, "exit_group");
    (261, "prlimit64"); (29, "ioctl"); (25, "fcntl"); (66, "writev"); (65, "readv");
    (278, "getrandom"); (73, "ppoll"); (72, "pselect6"); (134, "sigaction");
    (135, "sigprocmask"); (139, "sigreturn"); (101, "nanosleep");
    (113, "clock_gettime"); (115, "clock_nanosleep"); (422, "futex") ].

(** The supported architectures. *)
Definition archs : list Arch := [amd64; arm64].

Fixpoint name_of (nr : Z) (t : list (Z * string)) : option string :=
  match t with
  | [] => None
  | (n, name) :: t => if n =? nr then Some name else name_of nr t
  end.

Definition SyscallName (a : Arch) (nr : Z) : string :=
  default ("syscall_" +:+ show_Z nr) (name_of nr (syscallNames a)).

(** [SyscallNumber] ranges over the map and returns the first hit; the map's
    iteration order is any permutation [t] of the table. *)
Fixpoint number_of (name : string) (t : list (Z * string)) : Z :=
  match t with
  | [] => -1
  | (n, m) :: t => if String.eqb m name then n else number_of name t
  end.

Definition SyscallNumber (a : Arch) (name : string) : Z :=
  number_of name (syscallNames a).

(** ** The BPF program *)

Record SockFilter := mkInsn { Code : Z; Jt : Z; Jf : Z; K : Z }.

Definition ldAbs (k : Z) : SockFilter :=
  mkInsn (Z.lor (Z.lor bpfLD bpfW) bpfABS) 0 0 k.
Definition jeqK (jt jf k : Z) : SockFilter :=
  mkInsn (Z.lor (Z.lor bpfJMP bpfJEQ) bpfK) jt jf k.
Definition retK (k : Z) : SockFilter := mkInsn bpfRET 0 0 k.

Definition write_family (name : string) : bool :=
  bool_decide (name ∈ ["write"; "writev"; "pwrite64"]).
Definition socket_family (name : string) : bool :=
  bool_decide (name ∈ ["read"; "readv"; "pread64"; "sendmsg"; "sendto"; "recvmsg"; "recvfrom"]).

(** [emitFdWhitelist]: the six-instruction block that lets one descriptor through. *)
Definition emitFdWhitelist (nr allowFd : Z) : list SockFilter :=
  [ jeqK 0 5 nr;
    ldAbs offsetArgs0;
    jeqK 1 0 (u32 allowFd);
    retK SECCOMP_RET_USER_NOTIF;
    retK SECCOMP_RET_ALLOW;
    ldAbs offsetNr ].

Definition emitNotify (nr : Z) : list SockFilter :=
  [ jeqK 0 1 nr; retK SECCOMP_RET_USER_NOTIF ].

Definition set_Jf (jf : Z) (i : SockFilter) : SockFilter :=
  mkInsn (Code i) (Jt i) jf (K i).

Definition buildFilter (a : Arch) (syscallNrs : list Z)
    (allowFdForWrite allowFdForSocket : Z) : list SockFilter :=
  let name nr := SyscallName a (i32 nr) in
  let writeLike := filter (fun nr => write_family (name nr) = true /\ 0 <= allowFdForWrite)
                          syscallNrs in
  let socketLike := filter (fun nr => socket_family (name nr) = true /\ 0 <= allowFdForSocket)
                           syscallNrs in
  let block nr :=
    if bool_decide (nr ∈ writeLike) then emitFdWhitelist nr allowFdForWrite
    else if bool_decide (nr ∈ socketLike) then emitFdWhitelist nr allowFdForSocket
    else emitNotify nr in
  let archCheckIdx := 1%nat in
  let insns :=
    [ldAbs offsetArch; jeqK 0 0 (auditArch a); ldAbs offsetNr]
      ++ List.concat (map block syscallNrs) ++ [retK SECCOMP_RET_ALLOW] in
  alter (set_Jf (u8 (Z.of_nat (length insns) - Z.of_nat archCheckIdx - 2))) archCheckIdx insns.

(** ** Notifications and responses *)

Record NotifData := mkData {
  Nr : Z; ArchOf : Z; InstructionPointer : Z; Args : list Z }.

Record NotifReq := mkReq { ID : Z; PID : Z; Flags : Z; Data : NotifData }.

Record NotifResp := mkResp { RespID : Z; Val : Z; Error : Z; RespFlags : Z }.

Definition SECCOMP_USER_NOTIF_FLAG_CONTINUE : Z := 1.

Definition Allow (id : Z) : NotifResp := mkResp id 0 0 SECCOMP_USER_NOTIF_FLAG_CONTINUE.
Definition Deny (id errno : Z) : NotifResp := mkResp id 0 (i32 (- errno)) 0.
Definition ReturnValue (id val : Z) : NotifResp := mkResp id val 0 0.

(** ** Decoding process memory *)

(** The tail of [ReadStringFromProcess]: the bytes up to the first NUL. *)
Fixpoint cstring (buf : list Z) : list Z :=
  match buf with
  | [] => []
  | b :: buf => if b =? 0 then [] else b :: cstring buf
  end.

Inductive SockaddrErr := ShortRead (n : Z) | ShortSockaddrIn (n : Z) | UnsupportedFamily (f : Z).

Definition byte_at (buf : list Z) (i : nat) : Z := default 0 (buf !! i).

(** The tail of [ReadSockaddrFromProcess]: [buf] holds the [n] bytes read. *)
Definition decodeSockaddr (buf : list Z) : result SockaddrErr (string * Z) :=
  let n := Z.of_nat (length buf) in
  if n <? 4 then Err (ShortRead n)
  else
    let family := Z.lor (byte_at buf 0) (Z.shiftl (byte_at buf 1) 8) in
    if family =? 2 then
      if n <? 8 then Err (ShortSockaddrIn n)
      else
        let port := Z.lor (Z.shiftl (byte_at buf 2) 8) (byte_at buf 3) in
        let ip := show_Z (byte_at buf 4) +:+ "." +:+ show_Z (byte_at buf 5) +:+ "." +:+
                  show_Z (byte_at buf 6) +:+ "." +:+ show_Z (byte_at buf 7) in
        Ok (ip, port)
    else Err (UnsupportedFamily family).

(** Another process's memory behind [/proc/pid/mem], and its descriptor links:
    [None] and [false] stand for a failed system call. *)
Record ProcFS := mkProcFS {
  pread : Z -> Z -> Z -> option (list Z);   (* pid, address, length *)
  pwrite : Z -> Z -> list Z -> bool;
  readlink_fd : Z -> Z -> option string }.

Definition string_of_bytes (l : list Z) : string :=
  fold_right (fun b s => String (Ascii.ascii_of_N (Z.to_N b)) s) EmptyString l.

Definition ReadStringFromProcess (fs : ProcFS) (pid addr maxLen : Z) : option string :=
  if addr =? 0 then Some ""
  else (fun buf => string_of_bytes (cstring buf)) <$> pread fs pid addr maxLen.

Definition ReadFromProcess (fs : ProcFS) (pid addr size : Z) : option (list Z) :=
  if addr =? 0 then None else pread fs pid addr size.

Definition WriteToProcess (fs : ProcFS) (pid addr : Z) (data : list Z) : bool :=
  if addr =? 0 then false else pwrite fs pid addr data.

Definition ReadSockaddrFromProcess (fs : ProcFS) (pid addr : Z) : option (string * Z) :=
  if addr =? 0 then None
  else match pread fs pid addr 28 with
       | None => None
       | Some buf => match decodeSockaddr buf with Ok r => Some r | Err _ => None end
       end.

(** ** What the filter is meant to decide *)

Record SeccompData := mkSD { sd_nr : Z; sd_arch : Z; sd_arg0 : Z }.

(** The documented contract of [buildFilter], as a decision on one syscall:
    foreign-architecture and unlisted syscalls run; a listed write-like syscall
    runs when its descriptor is the log descriptor, a listed socket-like one when
    it is the control socket; every other listed syscall is notified. *)
Definition fd_decision (allowFd : Z) (d : SeccompData) : Z :=
  if u32 (sd_arg0 d) =? u32 allowFd then SECCOMP_RET_ALLOW else SECCOMP_RET_USER_NOTIF.

Definition listed_decision (a : Arch) (aw asock : Z) (d : SeccompData) : Z :=
  let name := SyscallName a (i32 (sd_nr d)) in
  if write_family name && (0 <=? aw) then fd_decision aw d
  else if socket_family name && (0 <=? asock) then fd_decision asock d
  else SECCOMP_RET_USER_NOTIF.

Definition filter_decision (a : Arch) (nrs : list Z) (aw asock : Z) (d : SeccompData) : Z :=
  if negb (sd_arch d =? auditArch a) then SECCOMP_RET_ALLOW
  else if bool_decide (sd_nr d ∈ nrs) then listed_decision a aw asock d
  else SECCOMP_RET_ALLOW.

(** ** The machine the program runs on *)

(** Documented behaviour of the kernel's classic BPF machine on a seccomp
    filter: an absolute word load, an equality jump relative to the next
    instruction, and a return. *)
Class BpfMachine := {
  exec : list SockFilter -> SeccompData -> nat -> Z -> option Z;
  load : SeccompData -> Z -> Z;
  exec_ld prog d pc acc k :
    prog !! pc = Some (ldAbs k) -> exec prog d pc acc = exec prog d (S pc) (load d k);
  exec_jeq prog d pc acc jt jf k :
    prog !! pc = Some (jeqK jt jf k) ->
    exec prog d pc acc = exec prog d (S pc + Z.to_nat (if (acc =? k)%Z then jt else jf))%nat acc;
  exec_ret prog d pc acc k :
    prog !! pc = Some (retK k) -> exec prog d pc acc = Some k;
  load_nr d : load d offsetNr = sd_nr d;
  load_arch d : load d offsetArch = sd_arch d;
  load_arg0 d : load d offsetArgs0 = u32 (sd_arg0 d);
}.

(** Running a filter starts at its first instruction with a zero accumulator. *)
Definition run `{BpfMachine} (prog : list SockFilter) (d : SeccompData) : option Z :=
  exec prog d 0 0.

(** ** Correctness of the program *)

Section Correct.
Context `{BpfMachine} (a : Arch) (aw asock : Z) (d : SeccompData).

(** The block of one listed syscall, as [buildFilter] selects it. *)
Definition nr_block (nr : Z) : list SockFilter :=
  let name := SyscallName a (i32 nr) in
  if write_family name && (0 <=? aw) then emitFdWhitelist nr aw
  else if socket_family name && (0 <=? asock) then emitFdWhitelist nr asock
  else emitNotify nr.

Definition body (nrs : list Z) : list SockFilter := List.concat (map nr_block nrs).

Lemma buildFilter_eq nrs :
  buildFilter a nrs aw asock =
  [ldAbs offsetArch;
   jeqK 0 (u8 (Z.of_nat (length (body nrs)) + 1)) (auditArch a);
   ldAbs offsetNr] ++ body nrs ++ [retK SECCOMP_RET_ALLOW].
Proof.
  unfold buildFilter. cbn [alter list_alter app].
  match goal with |- context [map ?f nrs] => assert (map f nrs = map nr_block nrs) as -> end.
  { apply map_ext_in. intros nr Hin%list_elem_of_In. unfold nr_block.
    rewrite !bool_decide_decide.
    destruct (decide (nr ∈ _)) as [Hw|Hw]; rewrite list_elem_of_filter in Hw.
    { destruct Hw as [[-> ?] _]. by rewrite (proj2 (Z.leb_le 0 aw)). }
    replace (write_family (SyscallName a (i32 nr)) && (0 <=? aw)) with false.
    2: { symmetry. apply not_true_iff_false. rewrite andb_true_iff, Z.leb_le. tauto. }
    destruct (decide (nr ∈ _)) as [Hs|Hs]; rewrite list_elem_of_filter in Hs.
    { destruct Hs as [[-> ?] _]. by rewrite (proj2 (Z.leb_le 0 asock)). }
    replace (socket_family (SyscallName a (i32 nr)) && (0 <=? asock)) with false; [done|].
    symmetry. apply not_true_iff_false. rewrite andb_true_iff, Z.leb_le. tauto. }
  fold (body nrs). cbn. do 3 f_equal. unfold set_Jf, jeqK; cbn. f_equal. f_equal.
  rewrite length_app. cbn. lia.
Qed.

Lemma exec_lookup (pre : list SockFilter) i post :
  (pre ++ i :: post) !! length pre = Some i.
Proof. by rewrite list_lookup_middle. Qed.

(** One whitelist block: a different syscall falls through with the syscall
    number reloaded, the listed one is decided by its descriptor. *)
Lemma exec_whitelist pre post nr fd :
  exec (pre ++ emitFdWhitelist nr fd ++ post) d (length pre) (sd_nr d) =
  if sd_nr d =? nr then Some (fd_decision fd d)
  else exec (pre ++ emitFdWhitelist nr fd ++ post) d (length pre + 6)%nat (sd_nr d).
Proof.
  set (prog := pre ++ _).
  assert (forall k i, emitFdWhitelist nr fd !! k = Some i ->
            prog !! (length pre + k)%nat = Some i) as Hat.
  { intros k i Hk. unfold prog. rewrite lookup_app_r by lia.
    replace (length pre + k - length pre)%nat with k by lia.
    by apply lookup_app_l_Some. }
  rewrite <- (Nat.add_0_r (length pre)) at 1.
  rewrite (exec_jeq prog d _ _ 0 5 nr) by (by apply Hat).
  destruct (sd_nr d =? nr) eqn:E.
  - replace (S (length pre + 0) + Z.to_nat 0)%nat with (length pre + 1)%nat by lia.
    rewrite (exec_ld prog d _ _ offsetArgs0) by (by apply Hat). rewrite load_arg0.
    replace (S (length pre + 1)) with (length pre + 2)%nat by lia.
    rewrite (exec_jeq prog d _ _ 1 0 (u32 fd)) by (by apply Hat).
    unfold fd_decision. destruct (u32 (sd_arg0 d) =? u32 fd).
    + replace (S (length pre + 2) + Z.to_nat 1)%nat with (length pre + 4)%nat by lia.
      by apply exec_ret, Hat.
    + replace (S (length pre + 2) + Z.to_nat 0)%nat with (length pre + 3)%nat by lia.
      by apply exec_ret, Hat.
  - f_equal. lia.
Qed.

Lemma exec_notify pre post nr :
  exec (pre ++ emitNotify nr ++ post) d (length pre) (sd_nr d) =
  if sd_nr d =? nr then Some SECCOMP_RET_USER_NOTIF
  else exec (pre ++ emitNotify nr ++ post) d (length pre + 2)%nat (sd_nr d).
Proof.
  rewrite (exec_jeq _ d _ _ 0 1 nr) by apply exec_lookup.
  destruct (sd_nr d =? nr) eqn:E; [|f_equal; lia].
  apply exec_ret. rewrite lookup_app_r by lia.
  by replace (S (length pre) + Z.to_nat 0 - length pre)%nat with 1%nat by lia.
Qed.

Lemma exec_block pre post nr :
  exec (pre ++ nr_block nr ++ post) d (length pre) (sd_nr d) =
  if sd_nr d =? nr then Some (listed_decision a aw asock d)
  else exec (pre ++ nr_block nr ++ post) d (length pre + length (nr_block nr))%nat (sd_nr d).
Proof.
  unfold nr_block, listed_decision.
  destruct (Z.eqb_spec (sd_nr d) nr) as [<-|Hne];
    destruct (write_family _ && _); [|destruct (socket_family _ && _)
                                     | |destruct (socket_family _ && _)];
    rewrite ?exec_whitelist, ?exec_notify, ?Z.eqb_refl;
    rewrite ?(proj2 (Z.eqb_neq _ _) Hne); done.
Qed.

Lemma exec_body nrs : forall pre,
  exec (pre ++ body nrs ++ [retK SECCOMP_RET_ALLOW]) d (length pre) (sd_nr d) =
  Some (if bool_decide (sd_nr d ∈ nrs) then listed_decision a aw asock d
        else SECCOMP_RET_ALLOW).
Proof.
  induction nrs as [|nr nrs IH]; intros pre.
  - rewrite bool_decide_eq_false_2 by set_solver. apply exec_ret, exec_lookup.
  - unfold body. cbn [map List.concat]. rewrite <- app_assoc, exec_block.
    destruct (Z.eqb_spec (sd_nr d) nr) as [->|Hne].
    + by rewrite bool_decide_eq_true_2 by set_solver.
    + rewrite <- length_app, app_assoc. fold (body nrs). rewrite IH.
      rewrite (bool_decide_ext (sd_nr d ∈ nrs) (sd_nr d ∈ nr :: nrs)) by set_solver. done.
Qed.

Lemma run_buildFilter nrs :
  (length (body nrs) <= 254)%nat ->
  run (buildFilter a nrs aw asock) d = Some (filter_decision a nrs aw asock d).
Proof.
  intros Hlen. unfold run. rewrite buildFilter_eq.
  rewrite (exec_ld _ _ _ _ offsetArch) by done. rewrite load_arch.
  rewrite (exec_jeq _ _ _ _ 0 (u8 (Z.of_nat (length (body nrs)) + 1)) (auditArch a)) by done.
  rewrite wrap_u_small by lia. unfold filter_decision.
  destruct (sd_arch d =? auditArch a) eqn:E; cbn [negb].
  - rewrite (exec_ld _ _ _ _ offsetNr) by done. rewrite load_nr.
    apply (exec_body nrs [_; _; _]).
  - apply exec_ret. rewrite lookup_app_r by (cbn; lia).
    rewrite lookup_app_r by (cbn [length]; lia). cbn [length].
    by replace (_ - _ - _)%nat with 0%nat by lia.
Qed.
End Correct.

(** ** The tables *)

(** A table is usable when neither a number nor a name occurs twice. *)
Definition table_ok (a : Arch) : Prop :=
  NoDup (syscallNames a).*1 /\ NoDup (syscallNames a).*2 /\
  Forall (fun n => 0 <= n < 2 ^ 31) (syscallNames a).*1.

#[export] Instance table_ok_dec a : Decision (table_ok a).
Proof. unfold table_ok. apply _. Defined.

Lemma archs_ok : Forall table_ok archs.
Proof. by apply (bool_decide_unpack _); vm_compute. Qed.

Lemma name_of_elem t nr name :
  NoDup t.*1 -> name_of nr t = Some name <-> (nr, name) ∈ t.
Proof.
  induction t as [|[n m] t IH]; cbn; intros Hnd; [set_solver|].
  apply NoDup_cons in Hnd as [Hn Hnd]. destruct (Z.eqb_spec n nr) as [->|Hne].
  - split; [intros [= ->]; set_solver|]. intros [[= ->]|Hin]%elem_of_cons; [done|].
    destruct Hn. apply list_elem_of_fmap. by exists (nr, name).
  - rewrite (IH Hnd). set_solver.
Qed.

Lemma number_of_elem t nr name :
  NoDup t.*2 -> (nr, name) ∈ t -> number_of name t = nr.
Proof.
  induction t as [|[n m] t IH]; cbn; intros Hnd Hin; [set_solver|].
  apply NoDup_cons in Hnd as [Hn Hnd]. destruct (String.eqb_spec m name) as [->|Hne].
  - apply elem_of_cons in Hin as [[= ->]|Hin]; [done|].
    destruct Hn. apply list_elem_of_fmap. by exists (nr, name).
  - apply IH; [done|]. set_solver.
Qed.

(** The longest program: one block per syscall of the table, without repetition. *)
Definition block_cost (name : string) : nat :=
  if write_family name || socket_family name then 6 else 2.

Definition table_cost (t : list (Z * string)) : nat :=
  sum_list (map (fun e => block_cost e.2) t).

Lemma nr_block_cost a aw asock nr :
  (length (nr_block a aw asock nr) <= block_cost (SyscallName a (i32 nr)))%nat.
Proof.
  unfold nr_block, block_cost. set (name := SyscallName a (i32 nr)).
  destruct (write_family name) eqn:Hw, (socket_family name) eqn:Hs; cbn;
    destruct (0 <=? aw), (0 <=? asock); cbn; lia.
Qed.

Lemma sum_list_submset (f : Z * string -> nat) l k :
  l ⊆+ k -> (sum_list (map f l) <= sum_list (map f k))%nat.
Proof. induction 1; cbn; lia. Qed.

Lemma SyscallName_entry a nr :
  table_ok a -> nr ∈ (syscallNames a).*1 -> (nr, SyscallName a (i32 nr)) ∈ syscallNames a.
Proof.
  intros (H1 & H2 & H3) Hin. rewrite Forall_forall in H3. specialize (H3 _ Hin).
  rewrite wrap_s_small by lia.
  apply list_elem_of_fmap in Hin as ([n m] & -> & Hin). cbn.
  pose proof (proj2 (name_of_elem _ n m H1) Hin) as E. unfold SyscallName. by rewrite E.
Qed.

Lemma body_bound a aw asock nrs :
  table_ok a -> NoDup nrs -> nrs ⊆ (syscallNames a).*1 ->
  (length (body a aw asock nrs) <= table_cost (syscallNames a))%nat.
Proof.
  intros Ha Hnd Hsub.
  transitivity (sum_list (map (fun e => block_cost e.2)
                 (map (fun nr => (nr, SyscallName a (i32 nr))) nrs))).
  - unfold body. clear Hnd Hsub. induction nrs as [|nr nrs IH]; cbn; [lia|].
    rewrite length_app. pose proof (nr_block_cost a aw asock nr). cbn in IH. lia.
  - apply sum_list_submset, NoDup_submseteq.
    + apply NoDup_fmap_2; [|done]. by intros ? ? [=].
    + intros e (nr & -> & Hin)%list_elem_of_fmap. apply SyscallName_entry; [done|].
      by apply Hsub.
Qed.

Lemma archs_cost a : a ∈ archs -> table_ok a /\ (table_cost (syscallNames a) <= 254)%nat.
Proof.
  intros Hin. split; [by apply (proj1 (Forall_forall _ _) archs_ok)|].
  assert (Forall (fun a => (table_cost (syscallNames a) <= 254)%nat) archs) as HF
    by (by apply (bool_decide_unpack _); vm_compute).
  by apply (proj1 (Forall_forall _ _) HF).
Qed.

(** ** A machine that satisfies the laws *)

Module Interp.

Definition load (d : SeccompData) (k : Z) : Z :=
  if k =? offsetNr then sd_nr d
  else if k =? offsetArch then sd_arch d
  else if k =? offsetArgs0 then u32 (sd_arg0 d) else 0.

(** Jumps only go forward, so the instructions left bound the steps left. *)
Fixpoint steps (fuel : nat) (prog : list SockFilter) (d : SeccompData) (pc : nat) (acc : Z)
    : option Z :=
  match fuel with
  | O => None
  | S fuel =>
      match prog !! pc with
      | None => None
      | Some i =>
          if Code i =? Code (ldAbs 0) then steps fuel prog d (S pc) (load d (K i))
          else if Code i =? Code (jeqK 0 0 0) then
            steps fuel prog d (S pc + Z.to_nat (if (acc =? K i)%Z then Jt i else Jf i))%nat acc
          else if Code i =? Code (retK 0) then Some (K i)
          else None
      end
  end.

Definition exec (prog : list SockFilter) (d : SeccompData) (pc : nat) (acc : Z) : option Z :=
  steps (length prog - pc) prog d pc acc.

Lemma steps_enough f1 : forall f2 prog d pc acc,
  (length prog - pc <= f1)%nat -> (length prog - pc <= f2)%nat ->
  steps f1 prog d pc acc = steps f2 prog d pc acc.
Proof.
  induction f1 as [|f1 IH]; intros [|f2] prog d pc acc H1 H2; cbn [steps]; try done.
  - rewrite lookup_ge_None_2 by lia. done.
  - rewrite lookup_ge_None_2 by lia. done.
  - destruct (prog !! pc) eqn:E; [|done]. apply lookup_lt_Some in E.
    destruct (_ =? _); [apply IH; lia|]. destruct (_ =? _); [apply IH; lia|done].
Qed.

Lemma exec_step prog d pc acc i :
  prog !! pc = Some i ->
  exec prog d pc acc =
    (if Code i =? Code (ldAbs 0) then exec prog d (S pc) (load d (K i))
     else if Code i =? Code (jeqK 0 0 0) then
       exec prog d (S pc + Z.to_nat (if (acc =? K i)%Z then Jt i else Jf i))%nat acc
     else if Code i =? Code (retK 0) then Some (K i) else None).
Proof.
  intros E. pose proof (lookup_lt_Some _ _ _ E). unfold exec.
  destruct (length prog - pc)%nat as [|f] eqn:Hf; [lia|]. cbn [steps]. rewrite E.
  destruct (_ =? _); [apply steps_enough; lia|].
  destruct (_ =? _); [apply steps_enough; lia|done].
Qed.

End Interp.

#[export] Instance interp_machine : BpfMachine.
Proof.
  refine {| exec := Interp.exec; load := Interp.load |}; try done.
  all: intros; erewrite Interp.exec_step by done; done.
Defined.

(** A number is found exactly for the names of the table. *)
Lemma number_of_table name t :
  0 <= number_of name t -> (number_of name t, name) ∈ t.
Proof.
  induction t as [|[n m] t IH]; cbn; [lia|].
  destruct (String.eqb_spec m name) as [->|]; [by left|]. intros H. right. by apply IH.
Qed.

Lemma SyscallNumber_elem a nr name :
  a ∈ archs -> (nr, name) ∈ syscallNames a -> SyscallNumber a name = nr /\ 0 <= nr < 2 ^ 31.
Proof.
  intros [(_ & H2 & H3) _]%archs_cost Hin. split; [by apply number_of_elem|].
  rewrite Forall_forall in H3. apply H3, list_elem_of_fmap. by exists (nr, name).
Qed.

(** ** Properties *)

(** C2: On both supported architectures, for any duplicate-free list of syscalls
    of the table and any descriptor exceptions, the assembled BPF program run on
    any syscall returns exactly the documented decision: the block jumps, the
    accumulator reloads and the patched architecture jump all land where they
    must. *)
Theorem buildFilter_correct `{BpfMachine} a nrs aw asock d :
  a ∈ archs -> NoDup nrs -> nrs ⊆ (syscallNames a).*1 ->
  run (buildFilter a nrs aw asock) d = Some (filter_decision a nrs aw asock d).
Proof.
  intros [Hok Hc]%archs_cost Hnd Hsub. apply run_buildFilter.
  etransitivity; [by apply body_bound|done].
Qed.

Lemma buildFilter_correct_witness :
  run (buildFilter amd64 [1; 0; 257] 2 3) (mkSD 1 0xC000003E 2) = Some SECCOMP_RET_ALLOW /\
  run (buildFilter amd64 [1; 0; 257] 2 3) (mkSD 1 0xC000003E 5) = Some SECCOMP_RET_USER_NOTIF.
Proof.
  assert (amd64 ∈ archs) as Ha by (by left).
  assert (NoDup [1; 0; 257]) as Hn by (by apply (bool_decide_unpack _); vm_compute).
  assert ([1; 0; 257] ⊆ (syscallNames amd64).*1) as Hs
    by (by apply (bool_decide_unpack _); vm_compute).
  split; rewrite (buildFilter_correct amd64 [1; 0; 257] 2 3 _ Ha Hn Hs); reflexivity.
Defined.

(** Syscall names and numbers translate back and forth without loss on both
    architectures, and the number found for a name does not depend on the order
    in which Go iterates over the table. *)
Theorem syscall_table_roundtrip a t nr name :
  a ∈ archs -> t ≡ₚ syscallNames a -> (nr, name) ∈ syscallNames a ->
  SyscallName a nr = name /\ number_of name t = nr /\ SyscallNumber a (SyscallName a nr) = nr.
Proof.
  intros [(H1 & H2 & _) _]%archs_cost Hp Hin.
  assert (SyscallName a nr = name) as E.
  { unfold SyscallName. by rewrite (proj2 (name_of_elem _ _ _ H1) Hin). }
  split_and!; [done| |].
  - apply number_of_elem; [by rewrite Hp|by rewrite Hp].
  - rewrite E. by apply number_of_elem.
Qed.

Lemma syscall_table_roundtrip_witness : SyscallName arm64 203 = "connect".
Proof.
  apply (syscall_table_roundtrip arm64 (syscallNames arm64) 203 "connect").
  - by right; left.
  - done.
  - by apply (bool_decide_unpack _); vm_compute.
Defined.

End Seccomp.
