(* ===== verification/FaultRule.v ===== *)
(** * Syscall fault rules ([internal/engine/fault.go])

    The rule record with its two counters, the stateful triggers, the textual
    rule format, and the classification of syscalls and paths. *)

From stdpp Require Import base strings list numbers pretty sorting.
From Stdlib Require Import ZArith Lia Ascii SpecFloat.
From S2P Require Import Prelude GoStd PathMatch.
Import GoStd.
Local Open Scope Z_scope.

Module FaultRule.

Inductive FaultAction := ActionDeny | ActionDelay | ActionHold | ActionTrace.
Inductive FaultTrigger := TriggerAlways | TriggerNth | TriggerAfter.

#[export] Instance FaultAction_eq_dec : EqDecision FaultAction.
Proof. solve_decision. Defined.
#[export] Instance FaultTrigger_eq_dec : EqDecision FaultTrigger.
Proof. solve_decision. Defined.

(** A counter is a pointer to an atomic integer: [None] is the nil pointer. *)
Record FaultRule := mkRule {
  Syscall : string;
  Action : FaultAction;
  Errno : Z;
  Delay : Z;
  Probability : float64;
  PathGlob : string;
  Trigger : FaultTrigger;
  TriggerN : Z;
  DestAddr : string;
  Label : string;
  Op : string;
  HoldTag : string;
  MaxFires : Z;
  Mode : string;
  counter : option Z;
  probCounter : option Z;
}.

Definition set_counter (c : option Z) (r : FaultRule) : FaultRule :=
  mkRule (Syscall r) (Action r) (Errno r) (Delay r) (Probability r) (PathGlob r) (Trigger r)
    (TriggerN r) (DestAddr r) (Label r) (Op r) (HoldTag r) (MaxFires r) (Mode r)
    c (probCounter r).

Definition set_probCounter (c : option Z) (r : FaultRule) : FaultRule :=
  mkRule (Syscall r) (Action r) (Errno r) (Delay r) (Probability r) (PathGlob r) (Trigger r)
    (TriggerN r) (DestAddr r) (Label r) (Op r) (HoldTag r) (MaxFires r) (Mode r)
    (counter r) c.

Definition set_HoldTag (t : string) (r : FaultRule) : FaultRule :=
  mkRule (Syscall r) (Action r) (Errno r) (Delay r) (Probability r) (PathGlob r) (Trigger r)
    (TriggerN r) (DestAddr r) (Label r) (Op r) t (MaxFires r) (Mode r)
    (counter r) (probCounter r).

Definition MatchPath (r : FaultRule) (path : string) : bool := PathMatch.Match (PathGlob r) path.

Definition MatchCount (r : FaultRule) : Z := default 0 (counter r).

Definition actionName (a : FaultAction) : string :=
  match a with
  | ActionDeny => "deny"
  | ActionDelay => "delay"
  | ActionHold => "hold"
  | ActionTrace => "trace"
  end.

Definition NextProbabilityOccurrence (r : FaultRule) : Z * FaultRule :=
  let n := i64 (default 0 (probCounter r) + 1) in
  (i64 (n - 1), set_probCounter (Some n) r).

Definition ShouldFire (r : FaultRule) : bool * FaultRule :=
  let n := i64 (default 0 (counter r) + 1) in
  let r' := set_counter (Some n) r in
  match Trigger r with
  | TriggerNth => (n =? TriggerN r, r')
  | TriggerAfter => (TriggerN r <? n, r')
  | TriggerAlways => (true, r')
  end.

Definition SystemPathPrefixes : list string :=
  ["/lib/"; "/lib64/"; "/usr/lib/"; "/usr/lib64/"; "/proc/"; "/sys/"; "/dev/"; "/etc/ld.so."].

Definition IsSystemPath (path : string) : bool :=
  existsb (fun p => has_prefix p path) SystemPathPrefixes.

Definition IsFileSyscall (name : string) : bool :=
  bool_decide (name ∈ ["open"; "openat"; "creat"; "mkdirat"; "unlinkat"; "faccessat";
    "fstatat"; "readlinkat"; "renameat"; "renameat2"; "linkat"; "symlinkat"]).

Definition IsFdSyscall (name : string) : bool :=
  bool_decide (name ∈ ["write"; "writev"; "pwrite64"; "pwritev"; "pwritev2";
    "read"; "readv"; "pread64"; "preadv"; "preadv2";
    "fsync"; "fdatasync"; "ftruncate"; "fchmod"; "fchown"]).

(** ** Errno names (the values are those of Linux) *)

Definition errnoMap : list (string * Z) :=
  [ ("ENOENT", 2); ("EACCES", 13); ("EPERM", 1); ("EIO", 5); ("ENOSPC", 28); ("EROFS", 30);
    ("EEXIST", 17); ("ENOTEMPTY", 39); ("ENFILE", 23); ("EMFILE", 24); ("EFBIG", 27);
    ("ECONNREFUSED", 111); ("ECONNRESET", 104); ("ECONNABORTED", 103); ("ETIMEDOUT", 110);
    ("ENETUNREACH", 101); ("EHOSTUNREACH", 113); ("EADDRINUSE", 98); ("EADDRNOTAVAIL", 99);
    ("EINTR", 4); ("EAGAIN", 11); ("ENOMEM", 12); ("EBUSY", 16); ("EINVAL", 22);
    ("ENOSYS", 38); ("EDEADLK", 35); ("ELOOP", 40); ("EDQUOT", 122); ("ENOLCK", 37) ].

Fixpoint assoc {A} (name : string) (t : list (string * A)) : option A :=
  match t with
  | [] => None
  | (n, v) :: t => if String.eqb n name then Some v else assoc name t
  end.

Definition errnoByName (name : string) : option Z := assoc (to_upper name) errnoMap.

Definition ValidErrno (name : string) : bool := bool_decide (is_Some (errnoByName name)).

Definition string_le (a b : string) : Prop := String.leb a b = true.
#[export] Instance string_le_dec a b : Decision (string_le a b).
Proof. unfold string_le. apply _. Defined.

Definition sort_strings (l : list string) : list string := merge_sort string_le l.

Definition SupportedErrnos : list string := sort_strings errnoMap.*1.

Fixpoint errno_name_in (e : Z) (t : list (string * Z)) : option string :=
  match t with
  | [] => None
  | (n, v) :: t => if v =? e then Some n else errno_name_in e t
  end.

Definition errnoName (e : Z) : string :=
  default ("errno(" +:+ show_Z e +:+ ")") (errno_name_in e errnoMap).

(** ** The rule format *)

Inductive ParseErr :=
| ErrNoEquals | ErrEmptySyscall | ErrNoParams
| ErrDelayParams | ErrBadDuration | ErrNegativeDelay
| ErrUnknownErrno | ErrBadProbability | ErrProbabilityRange
| ErrBadNth | ErrBadAfter.

Definition isTriggerSegment (s : string) : bool :=
  has_prefix "nth=" s || has_prefix "after=" s.

Fixpoint parseTriggerFromSegments (segments : list string)
    : result ParseErr (FaultTrigger * Z) :=
  match segments with
  | [] => Ok (TriggerAlways, 0)
  | seg :: segments =>
      let seg := trim_space seg in
      if String.eqb seg "" then parseTriggerFromSegments segments
      else if has_prefix "nth=" seg then
        match atoi (trim_prefix seg "nth=") with
        | Some n => if n <? 1 then Err ErrBadNth else Ok (TriggerNth, n)
        | None => Err ErrBadNth
        end
      else if has_prefix "after=" seg then
        match atoi (trim_prefix seg "after=") with
        | Some n => if n <? 0 then Err ErrBadAfter else Ok (TriggerAfter, n)
        | None => Err ErrBadAfter
        end
      else parseTriggerFromSegments segments
  end.

(** The probability text both rule kinds share: [strings.TrimSpace],
    [TrimSuffix "%"], [ParseFloat], the division and the range check. *)
Definition parseProbability (seg : string) : result ParseErr float64 :=
  match ParseFloat (trim_suffix (trim_space seg) "%") with
  | None => Err ErrBadProbability
  | Some p =>
      let prob := f64_div p (f64_of_Z 100) in
      if f64_lt prob f64_0 || f64_gt prob f64_1 then Err ErrProbabilityRange else Ok prob
  end.

Definition parseDelayRule (syscallName : string) (segments : list string)
    : result ParseErr FaultRule :=
  match segments with
  | d :: p :: rest =>
      match ParseDuration (trim_space d) with
      | None => Err ErrBadDuration
      | Some delay =>
          if delay <? 0 then Err ErrNegativeDelay
          else
            let? prob := parseProbability p in
            let? tr := parseTriggerFromSegments rest in
            Ok (mkRule syscallName ActionDelay 0 delay prob "" tr.1 tr.2 "" "" "" "" 0 "" None None)
      end
  | _ => Err ErrDelayParams
  end.

(** The loop that sorts the remaining segments into a path glob (the last one
    wins) and trigger segments. *)
Fixpoint splitSegments (segs : list string) (pathGlob : string) (triggers : list string)
    : string * list string :=
  match segs with
  | [] => (pathGlob, triggers)
  | seg :: segs =>
      let seg := trim_space seg in
      if isTriggerSegment seg then splitSegments segs pathGlob (triggers ++ [seg])
      else if negb (String.eqb seg "") then splitSegments segs seg triggers
      else splitSegments segs pathGlob triggers
  end.

Definition parseDenyRule (syscallName : string) (segments : list string)
    : result ParseErr FaultRule :=
  match segments with
  | e :: p :: rest =>
      match errnoByName (trim_space e) with
      | None => Err ErrUnknownErrno
      | Some errno =>
          let? prob := parseProbability p in
          let '(pathGlob, triggers) := splitSegments rest "" [] in
          let? tr := parseTriggerFromSegments triggers in
          Ok (mkRule syscallName ActionDeny errno 0 prob pathGlob tr.1 tr.2 "" "" "" "" 0 "" None None)
      end
  | _ => Err ErrNoParams
  end.

Definition ParseFaultRule (s : string) : result ParseErr FaultRule :=
  match split_n "=" 2 s with
  | [name; params] =>
      let syscallName := trim_space name in
      if String.eqb syscallName "" then Err ErrEmptySyscall
      else
        match split_n ":" 5 params with
        | (action :: ((_ :: _) as more)) as rest =>
            if String.eqb (to_lower (trim_space action)) "delay"
            then parseDelayRule syscallName more
            else parseDenyRule syscallName rest
        | _ => Err ErrNoParams
        end
  | _ => Err ErrNoEquals
  end.

Definition ParseFaultRules (rules : list string) : result ParseErr (list FaultRule) :=
  result_mapM ParseFaultRule rules.

(** [FaultRule.String]. *)
Definition String_ (r : FaultRule) : string :=
  let pct := fmt_f0 (f64_mul (Probability r) (f64_of_Z 100)) +:+ "%" in
  (match Action r with
   | ActionDelay => Syscall r +:+ "=delay:" +:+ show_duration (Delay r) +:+ ":" +:+ pct
   | _ => Syscall r +:+ "=" +:+ errnoName (Errno r) +:+ ":" +:+ pct +:+
          (if String.eqb (PathGlob r) "" then "" else ":" +:+ PathGlob r)
   end) +:+
  (match Trigger r with
   | TriggerNth => ":nth=" +:+ show_Z (TriggerN r)
   | TriggerAfter => ":after=" +:+ show_Z (TriggerN r)
   | TriggerAlways => ""
   end).

Example parse_ex1 :
  match ParseFaultRule "openat=ENOENT:100%:/data/*:nth=3" with
  | Ok r => (Syscall r, Errno r, PathGlob r, Trigger r, TriggerN r, f64_ge (Probability r) f64_1)
            = ("openat", 2, "/data/*", TriggerNth, 3, true)
            /\ String_ r = "openat=ENOENT:100%:/data/*:nth=3"
  | Err _ => False
  end.
Proof. vm_compute. split; reflexivity. Qed.

Example parse_ex2 :
  match ParseFaultRule "connect=delay:200ms:100%" with
  | Ok r => (Action r, Delay r) = (ActionDelay, 200000000) /\ String_ r = "connect=delay:200ms:100%"
  | Err _ => False
  end.
Proof. vm_compute. split; reflexivity. Qed.

(** ** Stateful triggers *)

(** The answers of [n] consecutive matching calls, and the rule afterwards. *)
Fixpoint fire_seq (n : nat) (r : FaultRule) : list bool * FaultRule :=
  match n with
  | O => ([], r)
  | S n => let '(b, r1) := ShouldFire r in
           let '(bs, r2) := fire_seq n r1 in (b :: bs, r2)
  end.

(** When the [i]-th matching call (counted from 1) is meant to fire. *)
Definition fires_at (r : FaultRule) (i : Z) : bool :=
  match Trigger r with
  | TriggerAlways => true
  | TriggerNth => i =? TriggerN r
  | TriggerAfter => TriggerN r <? i
  end.

Lemma ShouldFire_count r k :
  default 0 (counter r) = k -> 0 <= k < 2 ^ 63 - 1 ->
  ShouldFire r = (fires_at r (k + 1), set_counter (Some (k + 1)) r).
Proof.
  intros Hk Hb. unfold ShouldFire, fires_at. rewrite Hk, wrap_s_small by lia.
  by destruct (Trigger r).
Qed.

Lemma fire_seq_spec n : forall r k,
  default 0 (counter r) = k -> 0 <= k -> k + Z.of_nat n < 2 ^ 63 ->
  (fire_seq n r).1 = map (fun i => fires_at r (k + Z.of_nat i)) (seq 1 n) /\
  default 0 (counter (fire_seq n r).2) = k + Z.of_nat n.
Proof.
  induction n as [|n IH]; intros r k Hk H0 Hb; cbn [fire_seq]; [split; [done|cbn; lia]|].
  rewrite (ShouldFire_count r k) by (done || lia).
  destruct (IH (set_counter (Some (k + 1)) r) (k + 1) eq_refl ltac:(lia) ltac:(lia))
    as [IH1 IH2].
  destruct (fire_seq n _) as [bs r2].
  cbn in IH1, IH2 |- *. split; [|lia]. f_equal.
  rewrite IH1, <- (seq_shift n 1), map_map. apply map_ext. intros i.
  unfold fires_at; cbn. by replace (k + 1 + Z.of_nat i) with (k + Z.of_nat (S i)) by lia.
Qed.

(** Consulting a fresh rule once per matching call, the answers follow its
    trigger exactly: every call, only the [N]-th, or every one after the first
    [N]; and the match count afterwards is the number of calls. *)
Theorem trigger_schedule r n :
  counter r = None -> Z.of_nat n < 2 ^ 63 ->
  (fire_seq n r).1 = map (fun i => fires_at r (Z.of_nat i)) (seq 1 n) /\
  MatchCount (fire_seq n r).2 = Z.of_nat n.
Proof.
  intros Hc Hn. destruct (fire_seq_spec n r 0) as [H1 H2]; [by rewrite Hc|lia..|].
  split; [exact H1|exact H2].
Qed.

Definition sample_rule : FaultRule :=
  mkRule "fsync" ActionDeny 5 0 f64_1 "" TriggerAfter 2 "" "" "" "" 0 "" None None.

Lemma trigger_schedule_witness :
  (fire_seq 4 sample_rule).1 = [false; false; true; true].
Proof.
  rewrite (proj1 (trigger_schedule sample_rule 4 eq_refl ltac:(reflexivity))). reflexivity.
Defined.

(** ** Parsed rules *)

(** A probability is a number of the unit interval, or not a number. *)
Definition unit_or_nan (p : float64) : Prop :=
  p = S754_nan \/ (f64_le f64_0 p = true /\ f64_le p f64_1 = true).

Definition trigger_ok (t : FaultTrigger) (n : Z) : Prop :=
  match t with
  | TriggerAlways => n = 0
  | TriggerNth => 1 <= n < 2 ^ 63
  | TriggerAfter => 0 <= n < 2 ^ 63
  end.

Record rule_ok (r : FaultRule) : Prop := {
  ok_syscall : Syscall r <> "";
  ok_action : match Action r with
              | ActionDeny => Errno r ∈ errnoMap.*2 /\ Delay r = 0
              | ActionDelay => Errno r = 0 /\ 0 <= Delay r < 2 ^ 63 /\ PathGlob r = ""
              | _ => False
              end;
  ok_probability : unit_or_nan (Probability r);
  ok_trigger : trigger_ok (Trigger r) (TriggerN r);
  ok_fresh : counter r = None /\ probCounter r = None;
}.

Lemma SFcompare_flip x y :
  SFcompare y x = option_map CompOpp (SFcompare x y).
Proof.
  destruct x as [[]|[]| |[] mx ex], y as [[]|[]| |[] my ey]; cbn; try done;
    rewrite (Z.compare_antisym ex ey); destruct (Z.compare ex ey); cbn; try done;
    change (Pos.compare_cont Eq my mx) with (Pos.compare my mx);
    change (Pos.compare_cont Eq mx my) with (Pos.compare mx my);
    rewrite (Pos.compare_antisym mx my); by destruct (Pos.compare mx my).
Qed.

Lemma f64_not_lt x y c :
  SFcompare x y = Some c -> f64_lt x y = false -> f64_le y x = true.
Proof.
  unfold f64_lt, f64_le, SFltb, SFleb. intros Hc. rewrite (SFcompare_flip x y), Hc.
  by destruct c.
Qed.

Lemma SFcompare_total x y :
  x <> S754_nan -> y <> S754_nan -> exists c, SFcompare x y = Some c.
Proof. intros. destruct x as [[]|[]| |[] ? ?], y as [[]|[]| |[] ? ?]; cbn; eauto; done. Qed.

Lemma unit_check p : f64_lt p f64_0 || f64_gt p f64_1 = false -> unit_or_nan p.
Proof.
  rewrite orb_false_iff. intros [H1 H2]. destruct (decide (p = S754_nan)) as [|Hp].
  { by left. }
  right. split.
  - destruct (SFcompare_total p f64_0) as [c Hc]; [done..|]. by eapply f64_not_lt.
  - destruct (SFcompare_total f64_1 p) as [c Hc]; [done..|]. by eapply f64_not_lt.
Qed.

Lemma parseProbability_ok seg p : parseProbability seg = Ok p -> unit_or_nan p.
Proof.
  unfold parseProbability. destruct (ParseFloat _); [|done].
  destruct (_ || _) eqn:E; [done|]. intros [= <-]. by apply unit_check.
Qed.

Lemma parseTrigger_ok segs t n :
  parseTriggerFromSegments segs = Ok (t, n) -> trigger_ok t n.
Proof.
  induction segs as [|seg segs IH]; cbn; [by intros [= <- <-]|].
  destruct (String.eqb _ ""); [done|].
  destruct (has_prefix "nth=" _); [|destruct (has_prefix "after=" _); [|done]].
  all: destruct (atoi _) as [m|] eqn:E; [|done]; apply atoi_range in E.
  all: destruct (_ <? _) eqn:Hm; [done|]; apply Z.ltb_ge in Hm.
  all: intros [= <- <-]; cbn; lia.
Qed.

Lemma assoc_elem {A} name (t : list (string * A)) v : assoc name t = Some v -> v ∈ t.*2.
Proof.
  induction t as [|[n w] t IH]; cbn; [done|]. destruct (String.eqb n name).
  - intros [= ->]. by left.
  - intros. right. auto.
Qed.

Lemma duration_terms_range fuel : forall d s v,
  duration_terms fuel d s = Some v -> 0 <= d -> 0 <= v.
Proof.
  induction fuel as [|fuel IH]; intros d [|c s] v; cbn [duration_terms]; intros H Hd;
    simplify_eq; try lia.
  destruct (duration_term _) as [[x r]|]; [|done]. destruct (_ <? _); [done|].
  eapply IH; [done|]. apply wrap_u_range. lia.
Qed.

Lemma ParseDuration_bound s d : ParseDuration s = Some d -> d < 2 ^ 63.
Proof.
  unfold ParseDuration. intros H.
  destruct (match s with String "-" r => _ | _ => _ end) as [neg r].
  destruct (String.eqb r "0"); [simplify_eq; lia|]. destruct (String.eqb r ""); [done|].
  destruct (duration_terms _ _ _) as [v|] eqn:E; [|done].
  apply duration_terms_range in E; [|lia].
  destruct neg; [simplify_eq; lia|]. destruct (_ <? _) eqn:Hv; [done|].
  apply Z.ltb_ge in Hv. simplify_eq. lia.
Qed.

(** Whatever text is given, a rule that parses is well-formed: a non-empty
    syscall name, an errno of the table or a delay in range, trigger counts in
    range, a probability that is never outside the unit interval, and no counter
    yet. *)
Theorem ParseFaultRule_ok s r : ParseFaultRule s = Ok r -> rule_ok r.
Proof.
  unfold ParseFaultRule. intros H.
  destruct (split_n "=" 2 s) as [|name [|params [|]]]; try done.
  destruct (String.eqb_spec (trim_space name) "") as [|Hn]; [done|].
  destruct (split_n ":" 5 params) as [|action [|q more]]; try done.
  destruct (String.eqb _ "delay").
  - unfold parseDelayRule in H. destruct more as [|p rest]; [done|].
    destruct (ParseDuration _) as [d|] eqn:Ed; [|done]. apply ParseDuration_bound in Ed.
    destruct (d <? 0) eqn:Hd; [done|]. apply Z.ltb_ge in Hd.
    destruct (parseProbability p) eqn:Ep; [|done]. apply parseProbability_ok in Ep.
    cbn in H. destruct (parseTriggerFromSegments rest) as [[t n]|] eqn:Et; [|done].
    apply parseTrigger_ok in Et. cbn in H. simplify_eq. by split.
  - unfold parseDenyRule in H.
    destruct (errnoByName _) as [e|] eqn:Ee; [|done]. apply assoc_elem in Ee.
    destruct (parseProbability q) eqn:Ep; [|done]. apply parseProbability_ok in Ep.
    cbn in H. destruct (splitSegments more "" []) as [g tr].
    destruct (parseTriggerFromSegments tr) as [[t n]|] eqn:Et; [|done].
    apply parseTrigger_ok in Et. cbn in H. simplify_eq. by split.
Qed.

Lemma ParseFaultRule_ok_witness :
  exists r, ParseFaultRule "fsync=EIO:100%:after=2" = Ok r /\ rule_ok r.
Proof.
  eexists. split; [vm_compute; reflexivity|].
  apply (ParseFaultRule_ok "fsync=EIO:100%:after=2"). vm_compute. reflexivity.
Defined.

(** The range check does not reject a probability that is not a number: the
    text [nan%] parses into a rule that no random draw ever fires. *)
Theorem nan_probability_accepted :
  exists r, ParseFaultRule "write=EIO:nan%" = Ok r /\
            forall draw, f64_lt draw (Probability r) = false.
Proof.
  eexists. split; [vm_compute; reflexivity|]. intros draw. by destruct draw as [[]|[]| |[] ? ?].
Qed.

(** ** Printing and parsing *)

(** The deny rules the textual format can express: a whole percentage, a glob
    without a colon that does not read as a trigger. *)
Definition percent (pct : Z) : float64 := f64_div (f64_of_Z pct) (f64_of_Z 100).

Definition name_ok (sc : string) : Prop :=
  sc <> "" /\ trim_space sc = sc /\ sall (is_not "=") sc = true.

Definition glob_ok (g : string) : Prop :=
  trim_space g = g /\ sall (is_not ":") g = true /\ isTriggerSegment g = false.

Definition deny_rule (sc : string) (errno pct : Z) (g : string) (t : FaultTrigger) (n : Z) :=
  mkRule sc ActionDeny errno 0 (percent pct) g t n "" "" "" "" 0 "" None None.

Definition trigger_segs (t : FaultTrigger) (n : Z) : list string :=
  match t with
  | TriggerAlways => []
  | TriggerNth => ["nth=" +:+ show_Z n]
  | TriggerAfter => ["after=" +:+ show_Z n]
  end.

Definition glob_segs (g : string) : list string := if String.eqb g "" then [] else [g].

(** What is checked of every whole percentage and of every errno by evaluation. *)
Definition percent_text_ok (pct : Z) : Prop :=
  fmt_f0 (f64_mul (percent pct) (f64_of_Z 100)) = show_Z pct /\
  parseProbability (show_Z pct +:+ "%") = Ok (percent pct).

Definition errno_text_ok (e : string * Z) : Prop :=
  errnoName e.2 = e.1 /\ errnoByName (trim_space e.1) = Some e.2 /\
  sall (is_not ":") e.1 = true /\ String.eqb (to_lower (trim_space e.1)) "delay" = false.

#[export] Instance result_eq_dec {E A} `{EqDecision E, EqDecision A} : EqDecision (result E A).
Proof. solve_decision. Defined.
#[export] Instance ParseErr_eq_dec : EqDecision ParseErr.
Proof. solve_decision. Defined.

Lemma percents_ok pct : 0 <= pct <= 100 -> percent_text_ok pct.
Proof.
  intros Hp. assert (Forall percent_text_ok (seqZ 0 101)) as HF.
  { unfold percent_text_ok. by apply (bool_decide_unpack _); vm_compute. }
  rewrite Forall_forall in HF. apply HF, elem_of_seqZ. lia.
Qed.

Lemma errnos_ok e : e ∈ errnoMap -> errno_text_ok e.
Proof.
  intros He. assert (Forall errno_text_ok errnoMap) as HF.
  { unfold errno_text_ok. by apply (bool_decide_unpack _); vm_compute. }
  by rewrite Forall_forall in HF; apply HF.
Qed.

Lemma digit_char_facts c :
  is_digit_char c = true -> not_space c = true /\ is_not ":" c = true.
Proof. by destruct c as [[] [] [] [] [] [] [] []]. Qed.

Lemma trigger_seg_ok pre n :
  (pre = "nth=" \/ pre = "after=") -> 0 <= n ->
  trim_space (pre +:+ show_Z n) = pre +:+ show_Z n /\
  sall (is_not ":") (pre +:+ show_Z n) = true /\
  isTriggerSegment (pre +:+ show_Z n) = true.
Proof.
  intros Hpre Hn. pose proof (show_Z_digits n Hn) as Hd. split_and!.
  - apply trim_space_nospace. rewrite sall_app. apply andb_true_iff.
    split; [by destruct Hpre; subst|]. eapply sall_impl; [|exact Hd]. apply digit_char_facts.
  - rewrite sall_app. apply andb_true_iff.
    split; [by destruct Hpre; subst|]. eapply sall_impl; [|exact Hd]. apply digit_char_facts.
  - unfold isTriggerSegment. destruct Hpre; subst; rewrite has_prefix_app; [done|apply orb_true_r].
Qed.

Lemma parseTrigger_segs t n :
  trigger_ok t n -> parseTriggerFromSegments (trigger_segs t n) = Ok (t, n).
Proof.
  intros Ht. destruct t; cbn in Ht; cbn [trigger_segs]; [by subst|..].
  all: cbn [parseTriggerFromSegments].
  - destruct (trigger_seg_ok "nth=" n) as (-> & _ & _); [by left|lia|].
    change (String.eqb ("nth=" +:+ show_Z n) "") with false. rewrite has_prefix_app.
    rewrite trim_prefix_app, atoi_show by lia. by rewrite (proj2 (Z.ltb_ge _ _)) by lia.
  - destruct (trigger_seg_ok "after=" n) as (-> & _ & _); [by right|lia|].
    change (String.eqb ("after=" +:+ show_Z n) "") with false.
    change (has_prefix "nth=" ("after=" +:+ show_Z n)) with false. rewrite has_prefix_app.
    rewrite trim_prefix_app, atoi_show by lia. by rewrite (proj2 (Z.ltb_ge _ _)) by lia.
Qed.

Lemma splitSegments_trigger t n g :
  trigger_ok t n -> splitSegments (trigger_segs t n) g [] = (g, trigger_segs t n).
Proof.
  intros Ht. destruct t; cbn in Ht; cbn [trigger_segs splitSegments app]; [done|..].
  - destruct (trigger_seg_ok "nth=" n) as (-> & _ & ->); [by left|lia|done].
  - destruct (trigger_seg_ok "after=" n) as (-> & _ & ->); [by right|lia|done].
Qed.

Lemma splitSegments_deny g t n :
  glob_ok g -> trigger_ok t n ->
  splitSegments (glob_segs g ++ trigger_segs t n) "" [] = (g, trigger_segs t n).
Proof.
  intros (Hg & _ & Hgt) Ht. unfold glob_segs. destruct (String.eqb_spec g "") as [->|Hne].
  - by apply splitSegments_trigger.
  - cbn [app splitSegments]. rewrite Hg, Hgt.
    rewrite (proj2 (String.eqb_neq g "")) by done. by apply splitSegments_trigger.
Qed.

Lemma deny_rule_text sc en e pct g t n :
  (en, e) ∈ errnoMap -> 0 <= pct <= 100 ->
  String_ (deny_rule sc e pct g t n) =
  sc +:+ String "=" (sjoin ":" (en :: (show_Z pct +:+ "%") :: glob_segs g ++ trigger_segs t n)).
Proof.
  intros (Hen & _)%errnos_ok [Hpct _]%percents_ok. cbn [fst snd] in Hen.
  unfold String_, deny_rule; cbn [Action Syscall Errno Probability PathGlob Trigger TriggerN].
  rewrite Hpct, Hen. unfold glob_segs.
  destruct (String.eqb g ""), t; cbn [trigger_segs sjoin app];
    rewrite ?string_app_nil, ?string_app_assoc; done.
Qed.

(** Printing a deny rule and parsing the text gives the rule back, for every
    errno of the table, every whole percentage, every expressible glob and every
    trigger. *)
Theorem deny_rule_roundtrip sc en e pct g t n :
  name_ok sc -> (en, e) ∈ errnoMap -> 0 <= pct <= 100 -> glob_ok g -> trigger_ok t n ->
  ParseFaultRule (String_ (deny_rule sc e pct g t n)) = Ok (deny_rule sc e pct g t n).
Proof.
  intros (Hne & Htrim & Heq) Hen Hpct Hg Ht.
  rewrite (deny_rule_text sc en) by done. unfold ParseFaultRule.
  rewrite split_n_2 by done. rewrite Htrim, (proj2 (String.eqb_neq sc "")) by done.
  destruct (errnos_ok _ Hen) as (_ & Herr & Hcolon & Hdelay). cbn [fst snd] in Herr, Hcolon, Hdelay.
  destruct (percents_ok pct Hpct) as [_ Hprob].
  rewrite split_n_join; [|done| |].
  - rewrite Hdelay. unfold parseDenyRule. rewrite Herr, Hprob. cbn [result_bind].
    rewrite splitSegments_deny by done. rewrite parseTrigger_segs by done. done.
  - cbn [length]. rewrite length_app. unfold glob_segs.
    destruct (String.eqb g ""), t; cbn; lia.
  - repeat constructor; [done| |].
    { rewrite sall_app. apply andb_true_iff. split; [|done].
      eapply sall_impl; [|apply show_Z_digits; lia]. apply digit_char_facts. }
    apply Forall_app. split.
    + unfold glob_segs. destruct (String.eqb g ""); repeat constructor. apply Hg.
    + destruct t; cbn in Ht; repeat constructor; cbn [trigger_segs].
      * apply (trigger_seg_ok "nth=" n); [by left|lia].
      * apply (trigger_seg_ok "after=" n); [by right|lia].
Qed.

Lemma deny_rule_roundtrip_witness :
  ParseFaultRule "openat=ENOENT:100%:/data/*:nth=3" =
  Ok (deny_rule "openat" 2 100 "/data/*" TriggerNth 3).
Proof.
  assert (ParseFaultRule (String_ (deny_rule "openat" 2 100 "/data/*" TriggerNth 3)) =
          Ok (deny_rule "openat" 2 100 "/data/*" TriggerNth 3)) as H.
  { apply (deny_rule_roundtrip "openat" "ENOENT").
    - split_and!; [discriminate|reflexivity|reflexivity].
    - by apply (bool_decide_unpack _); vm_compute.
    - lia.
    - split_and!; reflexivity.
    - cbn; lia. }
  replace "openat=ENOENT:100%:/data/*:nth=3"
    with (String_ (deny_rule "openat" 2 100 "/data/*" TriggerNth 3)) by (vm_compute; reflexivity).
  exact H.
Defined.

End FaultRule.
