(* ===== verification/HoldQueue.v ===== *)
(** * Hold queues and release scheduling

    [internal/engine/hold.go] (the queue of held syscalls),
    [internal/engine/permutation.go] (the factorial number system) and
    [internal/engine/scheduler.go] (release in a permuted order).

    A mutex guards every queue operation, so each is one atomic transition of the
    queue.  A release channel has room for one decision; the model keeps the log
    of the sends, in order.  [Wait] alone spans several critical sections and is
    modelled as an interleaving of its own steps with its watcher's. *)

From stdpp Require Import base strings list numbers sorting relations.
From Stdlib Require Import ZArith Lia.
From S2P Require Import Prelude.
Local Open Scope Z_scope.

Module HoldQueue.

Record HoldDecision := mkDecision { DAllow : bool; DErrno : Z }.

Record HeldNotif := mkHeld {
  ReqID : Z; ListenerFd : Z; HSyscallName : string; HPID : Z; HPath : string }.

#[export] Instance HoldDecision_eq_dec : EqDecision HoldDecision.
Proof. solve_decision. Defined.
#[export] Instance HeldNotif_eq_dec : EqDecision HeldNotif.
Proof. solve_decision. Defined.

(** [sent] is what was sent on the release channels, oldest first. *)
Record HoldQueue := mkQueue {
  pending : list HeldNotif;
  closed : bool;
  sent : list (HeldNotif * HoldDecision) }.

Definition NewHoldQueue : HoldQueue := mkQueue [] false [].

Definition allowed : HoldDecision := mkDecision true 0.

Definition Enqueue (h : HeldNotif) (q : HoldQueue) : HoldQueue :=
  if closed q then mkQueue (pending q) true (sent q ++ [(h, allowed)])
  else mkQueue (pending q ++ [h]) false (sent q).

Definition ReleaseOne (d : HoldDecision) (q : HoldQueue) : bool * HoldQueue :=
  match pending q with
  | [] => (false, q)
  | h :: rest => (true, mkQueue rest (closed q) (sent q ++ [(h, d)]))
  end.

Definition ReleaseAll (d : HoldDecision) (q : HoldQueue) : HoldQueue :=
  mkQueue [] (closed q) (sent q ++ map (fun h => (h, d)) (pending q)).

Definition ReleaseByIndex (i : Z) (d : HoldDecision) (q : HoldQueue) : bool * HoldQueue :=
  if (i <? 0) || (Z.of_nat (length (pending q)) <=? i) then (false, q)
  else match pending q !! Z.to_nat i with
       | None => (false, q)
       | Some h => (true, mkQueue (take (Z.to_nat i) (pending q) ++ drop (S (Z.to_nat i)) (pending q))
                            (closed q) (sent q ++ [(h, d)]))
       end.

Definition Pending (q : HoldQueue) : list HeldNotif := pending q.
Definition Len (q : HoldQueue) : Z := Z.of_nat (length (pending q)).

Definition Close (q : HoldQueue) : HoldQueue :=
  if closed q then q
  else mkQueue [] true (sent q ++ map (fun h => (h, allowed)) (pending q)).

(** ** Sequences of operations *)

Inductive Op :=
| OpEnqueue (h : HeldNotif)
| OpReleaseOne (d : HoldDecision)
| OpReleaseAll (d : HoldDecision)
| OpReleaseByIndex (i : Z) (d : HoldDecision)
| OpClose.

Definition apply (o : Op) (q : HoldQueue) : HoldQueue :=
  match o with
  | OpEnqueue h => Enqueue h q
  | OpReleaseOne d => (ReleaseOne d q).2
  | OpReleaseAll d => ReleaseAll d q
  | OpReleaseByIndex i d => (ReleaseByIndex i d q).2
  | OpClose => Close q
  end.

Definition run (ops : list Op) (q : HoldQueue) : HoldQueue := fold_left (fun q o => apply o q) ops q.

Definition enqueued_by (o : Op) : list HeldNotif :=
  match o with OpEnqueue h => [h] | _ => [] end.

Definition enqueued (ops : list Op) : list HeldNotif := List.concat (map enqueued_by ops).

Lemma ReleaseByIndex_some i d q h :
  pending q !! i = Some h ->
  ReleaseByIndex (Z.of_nat i) d q =
  (true, mkQueue (take i (pending q) ++ drop (S i) (pending q)) (closed q) (sent q ++ [(h, d)])).
Proof.
  intros Hi. pose proof (lookup_lt_Some _ _ _ Hi). unfold ReleaseByIndex.
  rewrite (proj2 (Z.ltb_ge _ _)), (proj2 (Z.leb_gt _ _)) by lia. cbn.
  by rewrite Nat2Z.id, Hi.
Qed.

Lemma fst_answers d l : (map (fun h : HeldNotif => (h, d : HoldDecision)) l).*1 = l.
Proof. induction l; cbn; [done|by f_equal]. Qed.

(** Each operation answers or keeps exactly the notifications it was given. *)
Lemma apply_conserves o q :
  (sent (apply o q)).*1 ++ pending (apply o q) ≡ₚ (sent q).*1 ++ pending q ++ enqueued_by o.
Proof.
  destruct o as [h|d|d|i d|]; cbn [apply enqueued_by]; rewrite ?app_nil_r.
  - unfold Enqueue. destruct (closed q); cbn; rewrite ?fmap_app; cbn; [|done].
    rewrite <- app_assoc. apply Permutation_app_head. apply Permutation_app_comm.
  - unfold ReleaseOne. destruct (pending q) as [|h rest] eqn:E; cbn; [by rewrite E|].
    by rewrite fmap_app, <- app_assoc.
  - unfold ReleaseAll; cbn. by rewrite fmap_app, fst_answers.
  - unfold ReleaseByIndex. destruct (_ || _); [done|].
    destruct (pending q !! Z.to_nat i) as [h|] eqn:E; [|done]. cbn.
    rewrite fmap_app, <- app_assoc. apply Permutation_app_head. cbn.
    rewrite <- (take_drop_middle _ _ _ E) at 3. by rewrite Permutation_middle.
  - unfold Close. destruct (closed q); [done|]. cbn.
    by rewrite fmap_app, fst_answers, app_nil_r.
Qed.

Lemma run_conserves ops : forall q,
  (sent (run ops q)).*1 ++ pending (run ops q) ≡ₚ (sent q).*1 ++ pending q ++ enqueued ops.
Proof.
  induction ops as [|o ops IH]; intros q; cbn; [by rewrite app_nil_r|].
  fold (run ops (apply o q)). rewrite IH, app_assoc, apply_conserves.
  by rewrite <- !app_assoc.
Qed.

Definition queue_ok (q : HoldQueue) : Prop := closed q = true -> pending q = [].

Lemma apply_ok o q : queue_ok q -> queue_ok (apply o q).
Proof.
  unfold queue_ok. intros Hq. destruct o as [h|d|d|i d|]; cbn [apply].
  - unfold Enqueue. destruct (closed q) eqn:E; cbn; [auto|done].
  - unfold ReleaseOne. destruct (pending q) eqn:E; cbn; [auto|]. intros Hc. by specialize (Hq Hc).
  - done.
  - unfold ReleaseByIndex. destruct (_ || _); [auto|].
    destruct (pending q !! _) eqn:E; [|auto]. cbn. intros Hc. by rewrite (Hq Hc) in E.
  - unfold Close. by destruct (closed q) eqn:E; [auto|].
Qed.

Lemma run_ok ops : forall q, queue_ok q -> queue_ok (run ops q).
Proof. induction ops as [|o ops IH]; intros q Hq; cbn; [done|]. by apply IH, apply_ok. Qed.

Lemma run_app ops1 ops2 q : run (ops1 ++ ops2) q = run ops2 (run ops1 q).
Proof. unfold run. apply fold_left_app. Qed.

Lemma run_closed ops : forall q, closed q = true -> closed (run ops q) = true.
Proof.
  induction ops as [|o ops IH]; intros q Hq; cbn; [done|]. apply IH.
  destruct o; cbn [apply]; unfold Enqueue, ReleaseOne, ReleaseByIndex, Close; rewrite ?Hq; try done.
  - by destruct (pending q).
  - destruct (_ || _); [done|]. by destruct (pending q !! _).
Qed.

(** C27: In every sequence of operations on a new queue, each held syscall is
    either still pending or has been sent exactly one decision: none is lost and
    none is answered twice, so a one-place release channel never blocks. *)
Theorem each_notification_answered_once ops :
  (sent (run ops NewHoldQueue)).*1 ++ pending (run ops NewHoldQueue) ≡ₚ enqueued ops.
Proof. apply (run_conserves ops NewHoldQueue). Qed.

Lemma run_after_close ops : forall q,
  closed q = true -> pending q = [] ->
  run ops q = mkQueue [] true (sent q ++ map (fun h => (h, allowed)) (enqueued ops)).
Proof.
  induction ops as [|o ops IH]; intros [p c snt] Hc Hp; cbn in Hc, Hp; subst; cbn.
  { by rewrite app_nil_r. }
  fold (run ops (apply o (mkQueue [] true snt))).
  assert (apply o (mkQueue [] true snt) =
          mkQueue [] true (snt ++ map (fun h => (h, allowed)) (enqueued_by o))) as ->.
  { destruct o as [h|d|d|i d|]; cbn [apply enqueued_by map]; rewrite ?app_nil_r; try done.
    - unfold ReleaseAll; cbn. by rewrite app_nil_r.
    - unfold ReleaseByIndex; cbn. destruct (i <? 0) eqn:E; [done|]. apply Z.ltb_ge in E.
      by rewrite (proj2 (Z.leb_le _ _)) by lia. }
  rewrite IH by done. cbn. by rewrite map_app, app_assoc.
Qed.

(** Once the queue has been closed nothing stays blocked: whatever happened
    before and after, every syscall ever enqueued has its decision, and those
    held at the close or enqueued after it are allowed. *)
Theorem close_releases_everything before after :
  let q := run (before ++ OpClose :: after) NewHoldQueue in
  pending q = [] /\ (sent q).*1 ≡ₚ enqueued (before ++ OpClose :: after) /\
  Forall (fun h => (h, allowed) ∈ sent q)
    (pending (run before NewHoldQueue) ++ enqueued after).
Proof.
  intros q. pose proof (run_conserves (before ++ OpClose :: after) NewHoldQueue) as Hall.
  fold q in Hall. set (q0 := run before NewHoldQueue) in *.
  assert (queue_ok q0) as Hok by (by apply run_ok).
  assert (closed (Close q0) = true /\ pending (Close q0) = [] /\
          sent (Close q0) = sent q0 ++ map (fun h => (h, allowed)) (pending q0))
    as (Hc & Hp & Hs).
  { unfold Close. destruct (closed q0) eqn:E; [|done].
    rewrite (Hok E). by rewrite app_nil_r. }
  assert (q = mkQueue [] true (sent (Close q0) ++ map (fun h => (h, allowed)) (enqueued after)))
    as Hq.
  { unfold q. rewrite run_app. by apply (run_after_close after). }
  rewrite Hq in *. cbn [pending sent] in *. split_and!; [done| |].
  { by rewrite app_nil_r in Hall. }
  rewrite Hs. apply Forall_app. split; apply Forall_forall; intros h Hh.
  - apply elem_of_app. left. apply elem_of_app. right.
    apply list_elem_of_In, in_map_iff. exists h. by rewrite <- list_elem_of_In.
  - apply elem_of_app. right. apply list_elem_of_In, in_map_iff.
    exists h. by rewrite <- list_elem_of_In.
Qed.

(** ** Wait

    [Wait] tests the queue under the mutex and parks on the condition variable;
    a watcher goroutine broadcasts when the context is cancelled, without taking
    the mutex.  [cond.Wait] registers the waiter and then sleeps, so a broadcast
    that comes before the registration wakes nobody. *)

(** One evaluation of the loop test and of the code after the loop: [None] parks. *)
Definition wait_test (count : Z) (cancelled : bool) (q : HoldQueue) : option bool :=
  if (Len q <? count) && negb (closed q)
  then (if cancelled then Some false else None)
  else Some (negb cancelled).

Inductive WaiterPC :=
| WTest              (* holds the mutex, about to evaluate the loop test *)
| WParking           (* test failed and context alive: about to register *)
| WAsleep            (* registered on the condition variable *)
| WReturned (ok : bool).

Inductive WatcherPC := SelectDone | Broadcasting | WatcherGone.

Record WaitState := mkWait {
  waiter : WaiterPC; watcher : WatcherPC; cancelled : bool; wq : HoldQueue }.

Definition wake (w : WaiterPC) : WaiterPC := match w with WAsleep => WTest | _ => w end.

(** Steps of the waiter, of its watcher and of the context. *)
Inductive wait_step (count : Z) : WaitState -> WaitState -> Prop :=
| step_return s b :
    waiter s = WTest -> wait_test count (cancelled s) (wq s) = Some b ->
    wait_step count s (mkWait (WReturned b) (watcher s) (cancelled s) (wq s))
| step_park s :
    waiter s = WTest -> wait_test count (cancelled s) (wq s) = None ->
    wait_step count s (mkWait WParking (watcher s) (cancelled s) (wq s))
| step_register s :
    waiter s = WParking ->
    wait_step count s (mkWait WAsleep (watcher s) (cancelled s) (wq s))
| step_cancel s :
    cancelled s = false ->
    wait_step count s (mkWait (waiter s) (watcher s) true (wq s))
| step_watch s :
    watcher s = SelectDone -> cancelled s = true ->
    wait_step count s (mkWait (waiter s) Broadcasting (cancelled s) (wq s))
| step_broadcast s :
    watcher s = Broadcasting ->
    wait_step count s (mkWait (wake (waiter s)) WatcherGone (cancelled s) (wq s)).

Definition wait_init (q : HoldQueue) : WaitState := mkWait WTest SelectDone false q.

(** Cancelling the context does not always end [Wait]: on a queue that is
    short of notifications there is a schedule after which the context is
    cancelled and the watcher gone, while the waiter sleeps and no step of the
    three can wake it. *)
Theorem Wait_can_miss_cancellation count q :
  Len q < count -> closed q = false ->
  exists s, rtc (wait_step count) (wait_init q) s /\
    cancelled s = true /\ waiter s = WAsleep /\
    forall s', ~ wait_step count s s'.
Proof.
  intros Hl Hc. exists (mkWait WAsleep WatcherGone true q).
  assert (wait_test count false q = None) as Ht.
  { unfold wait_test. by rewrite (proj2 (Z.ltb_lt _ _)), Hc by lia. }
  split_and!; [|done..|].
  - eapply rtc_l; [by apply step_park|]. eapply rtc_l; [by apply step_cancel|].
    eapply rtc_l; [by apply step_watch|]. eapply rtc_l; [by apply step_broadcast|].
    eapply rtc_l; [by apply step_register|]. done.
  - intros s'. by inversion 1.
Qed.

Lemma Wait_can_miss_cancellation_witness :
  exists s, rtc (wait_step 1) (wait_init NewHoldQueue) s /\
    cancelled s = true /\ waiter s = WAsleep /\ forall s', ~ wait_step 1 s s'.
Proof. apply (Wait_can_miss_cancellation 1 NewHoldQueue); reflexivity. Defined.

End HoldQueue.

(** ** Decoding a permutation from its index

    Shared by the explorer's [PermutationFromIndex] and the plan's
    [permutationByIndex]: the digits of the index in the factorial base choose
    the elements one by one. *)

Module Lehmer.

(** [available[digit]] and [append(available[:digit], available[digit+1:]...)];
    [None] is the index panic. *)
Definition take_at (digit : Z) (available : list Z) : option (Z * list Z) :=
  if digit <? 0 then None
  else match available !! Z.to_nat digit with
       | None => None
       | Some x => Some (x, take (Z.to_nat digit) available ++ drop (S (Z.to_nat digit)) available)
       end.

(** The loop with [m] positions left to fill, over a table of factorials. *)
Fixpoint decode (F : nat -> Z) (m : nat) (index : Z) (available : list Z) : option (list Z) :=
  match m with
  | O => Some []
  | S m' =>
      let digit := go_div index (F m') in
      let index := go_mod index (F m') in
      match take_at digit available with
      | None => None
      | Some (x, available) =>
          match decode F m' index available with
          | None => None
          | Some p => Some (x :: p)
          end
      end
  end.

Lemma take_at_some k x l :
  l !! k = Some x -> take_at (Z.of_nat k) l = Some (x, take k l ++ drop (S k) l).
Proof.
  intros Hk. unfold take_at. rewrite (proj2 (Z.ltb_ge _ _)) by lia. by rewrite Nat2Z.id, Hk.
Qed.

Lemma take_at_inv d l x rest :
  take_at d l = Some (x, rest) ->
  0 <= d /\ l !! Z.to_nat d = Some x /\ rest = take (Z.to_nat d) l ++ drop (S (Z.to_nat d)) l.
Proof.
  unfold take_at. destruct (d <? 0) eqn:E; [done|]. apply Z.ltb_ge in E.
  destruct (l !! _) eqn:E'; [|done]. intros [= <- <-]. done.
Qed.

Lemma remove_perm (k : nat) (x : Z) l :
  l !! k = Some x -> x :: take k l ++ drop (S k) l ≡ₚ l.
Proof.
  intros Hk. rewrite <- (take_drop_middle _ _ _ Hk) at 3. by rewrite Permutation_middle.
Qed.

Section Table.
Context (F : nat -> Z) (N : nat).
Hypothesis F_zero : F 0%nat = 1.
Hypothesis F_pos : forall m, 0 < F m.
(** The table may grow slower than the factorials: it is capped somewhere. *)
Hypothesis F_bound : forall m, F (S m) <= (Z.of_nat m + 1) * F m.
(** Below [N] it is exact. *)
Hypothesis F_step : forall m, (m < N)%nat -> F (S m) = (Z.of_nat m + 1) * F m.

(** The digit of a position is within the elements left. *)
Lemma digit_range m index :
  0 <= index < F (S m) ->
  0 <= go_div index (F m) < Z.of_nat m + 1 /\ 0 <= go_mod index (F m) < F m.
Proof.
  intros Hi. pose proof (F_pos m). pose proof (F_bound m).
  rewrite Z.quot_div_nonneg, Z.rem_mod_nonneg by lia.
  split; [|apply Z.mod_pos_bound; lia]. split; [apply Z.div_pos; lia|].
  apply Z.div_lt_upper_bound; nia.
Qed.

Lemma decode_total m : forall index avail,
  length avail = m -> 0 <= index < F m ->
  exists p, decode F m index avail = Some p /\ p ≡ₚ avail.
Proof.
  induction m as [|m IH]; intros index avail Hl Hi; cbn [decode].
  { destruct avail; [|done]. by exists []. }
  destruct (digit_range m index Hi) as [Hd Hr].
  set (d := go_div _ _) in *. set (r := go_mod _ _) in *.
  destruct (lookup_lt_is_Some_2 avail (Z.to_nat d)) as [x Hx]; [lia|].
  pose proof (take_at_some _ _ _ Hx) as Ht. rewrite Z2Nat.id in Ht by lia. rewrite Ht.
  pose proof (remove_perm _ _ _ Hx) as Hp.
  destruct (IH r (take (Z.to_nat d) avail ++ drop (S (Z.to_nat d)) avail)) as (p & -> & Hpp).
  - apply Permutation_length in Hp. cbn in Hp. lia.
  - done.
  - exists (x :: p). split; [done|]. by rewrite Hpp.
Qed.

Lemma decode_inj m : forall i j avail p,
  (m <= N)%nat -> NoDup avail -> 0 <= i < F m -> 0 <= j < F m ->
  decode F m i avail = Some p -> decode F m j avail = Some p -> i = j.
Proof.
  induction m as [|m IH]; intros i j avail p Hm Hnd Hi Hj; cbn [decode].
  { rewrite F_zero in *. lia. }
  pose proof (F_pos m).
  destruct (digit_range m i Hi) as [Hdi Hri]. destruct (digit_range m j Hj) as [Hdj Hrj].
  pose proof (Z.quot_rem i (F m)) as Ei. pose proof (Z.quot_rem j (F m)) as Ej.
  destruct (take_at (go_div i _) avail) as [[x ri]|] eqn:Ti; [|done].
  destruct (take_at (go_div j _) avail) as [[y rj]|] eqn:Tj; [|done].
  apply take_at_inv in Ti as (_ & Hx & ->), Tj as (_ & Hy & ->).
  destruct (decode F m (go_mod i _) _) as [pi|] eqn:Pi; [|done].
  destruct (decode F m (go_mod j _) _) as [pj|] eqn:Pj; [|done].
  intros [= <-] [= <- <-].
  pose proof (NoDup_lookup _ _ _ _ Hnd Hx Hy) as Hd.
  assert (go_div i (F m) = go_div j (F m)) as Hdd by lia. rewrite Hdd in Pi.
  assert (go_mod i (F m) = go_mod j (F m)) as Hrr.
  { pose proof (remove_perm _ _ _ Hy) as Hp. rewrite <- Hp in Hnd.
    apply NoDup_cons in Hnd as [_ Hnd]. by eapply IH; [lia|exact Hnd|..]. }
  lia.
Qed.

Lemma decode_surj m : forall avail p,
  (m <= N)%nat -> length avail = m -> p ≡ₚ avail ->
  exists i, 0 <= i < F m /\ decode F m i avail = Some p.
Proof.
  induction m as [|m IH]; intros avail p Hm Hl Hp.
  { destruct avail; [|done]. apply Permutation_nil_r in Hp as ->. exists 0. by rewrite F_zero. }
  destruct p as [|x p]; [apply Permutation_length in Hp; cbn in Hp; lia|].
  assert (x ∈ avail) as [k Hk]%list_elem_of_lookup by (rewrite <- Hp; by left).
  pose proof (remove_perm _ _ _ Hk) as Hr. pose proof (lookup_lt_Some _ _ _ Hk) as Hlt.
  destruct (IH (take k avail ++ drop (S k) avail) p) as (i & Hi & Pi); [lia| | |].
  { apply Permutation_length in Hr. cbn in Hr. lia. }
  { apply (Permutation_cons_inv (a := x)). by rewrite Hr. }
  pose proof (F_pos m). rewrite F_step by lia. exists (Z.of_nat k * F m + i). split; [nia|].
  cbn [decode].
  assert (go_div (Z.of_nat k * F m + i) (F m) = Z.of_nat k) as ->.
  { rewrite Z.quot_div_nonneg by nia. rewrite Z.div_add_l, Z.div_small by lia. lia. }
  assert (go_mod (Z.of_nat k * F m + i) (F m) = i) as ->.
  { rewrite Z.rem_mod_nonneg, Z.add_comm, Z_mod_plus_full by nia. apply Z.mod_small. lia. }
  rewrite (take_at_some _ _ _ Hk). by rewrite Pi.
Qed.

End Table.
End Lehmer.

(** ** The factorial number system ([permutation.go]) *)

Module Permutation.

Fixpoint fact_loop (k : nat) (i result : Z) : Z :=
  match k with O => result | S k => fact_loop k (i + 1) (i64 (result * i)) end.

Definition Factorial (n : Z) : Z :=
  if n <=? 1 then 1
  else let n := if 12 <? n then 12 else n in fact_loop (Z.to_nat (n - 1)) 2 1.

(** The loop fills [m] positions. *)
Definition perm_loop (m : nat) (index : Z) (available : list Z) : option (list Z) :=
  Lehmer.decode (fun k => Factorial (Z.of_nat k)) m index available.

Definition PermutationFromIndex (n index : Z) : option (list Z) :=
  if n <=? 0 then Some []
  else perm_loop (Z.to_nat n) (go_mod index (Factorial n)) (seqZ 0 n).

Example perm_ex : PermutationFromIndex 3 3 = Some [1; 2; 0].
Proof. reflexivity. Qed.

(** [n!], capped where the code caps it. *)
Lemma Factorial_cap n : 12 <= n -> Factorial n = 479001600.
Proof.
  intros Hn. destruct (decide (n = 12)) as [->|]; [reflexivity|]. unfold Factorial.
  rewrite (proj2 (Z.leb_gt _ _)), (proj2 (Z.ltb_lt _ _)) by lia. reflexivity.
Qed.

Fixpoint zfact (n : nat) : Z :=
  match n with O => 1 | S m => Z.of_nat (S m) * zfact m end.

Lemma zfact_pos n : 0 < zfact n.
Proof. induction n; cbn [zfact]; lia. Qed.

Lemma Factorial_small n : 0 <= n <= 12 -> Factorial n = zfact (Z.to_nat n).
Proof.
  intros Hn.
  assert (Forall (fun n => Factorial n = zfact (Z.to_nat n)) (seqZ 0 13)) as HF
    by (by apply (bool_decide_unpack _); vm_compute).
  rewrite Forall_forall in HF. apply HF, elem_of_seqZ. lia.
Qed.

Lemma Factorial_pos n : 0 <= n -> 0 < Factorial n.
Proof.
  intros Hn. destruct (Z.le_gt_cases n 12).
  - rewrite Factorial_small by lia. apply zfact_pos.
  - rewrite Factorial_cap; lia.
Qed.

Lemma Factorial_step m : 0 <= m < 12 -> Factorial (m + 1) = (m + 1) * Factorial m.
Proof.
  intros Hm. rewrite !Factorial_small by lia.
  replace (Z.to_nat (m + 1)) with (S (Z.to_nat m)) by lia. cbn [zfact].
  f_equal. lia.
Qed.

Lemma Factorial_bound m :
  Factorial (Z.of_nat (S m)) <= (Z.of_nat m + 1) * Factorial (Z.of_nat m).
Proof.
  replace (Z.of_nat (S m)) with (Z.of_nat m + 1) by lia. destruct (Z.lt_ge_cases (Z.of_nat m) 12).
  - rewrite Factorial_step; lia.
  - rewrite !Factorial_cap by lia. nia.
Qed.

(** The generic facts at the capped factorials. *)
Lemma perm_loop_total m index avail :
  length avail = m -> 0 <= index < Factorial (Z.of_nat m) ->
  exists p, perm_loop m index avail = Some p /\ p ≡ₚ avail.
Proof.
  apply (Lehmer.decode_total (fun k => Factorial (Z.of_nat k))).
  - intros k. apply Factorial_pos. lia.
  - apply Factorial_bound.
Qed.

Lemma perm_loop_inj m i j avail p :
  (m <= 12)%nat -> NoDup avail ->
  0 <= i < Factorial (Z.of_nat m) -> 0 <= j < Factorial (Z.of_nat m) ->
  perm_loop m i avail = Some p -> perm_loop m j avail = Some p -> i = j.
Proof.
  apply (Lehmer.decode_inj (fun k => Factorial (Z.of_nat k)) 12).
  - done.
  - intros k. apply Factorial_pos. lia.
  - apply Factorial_bound.
Qed.

Lemma perm_loop_surj m avail p :
  (m <= 12)%nat -> length avail = m -> p ≡ₚ avail ->
  exists i, 0 <= i < Factorial (Z.of_nat m) /\ perm_loop m i avail = Some p.
Proof.
  apply (Lehmer.decode_surj (fun k => Factorial (Z.of_nat k)) 12).
  - done.
  - intros k. apply Factorial_pos. lia.
  - intros k Hk. replace (Z.of_nat (S k)) with (Z.of_nat k + 1) by lia. apply Factorial_step. lia.
Qed.

Lemma PermutationFromIndex_small n index :
  0 < n -> 0 <= index < Factorial n ->
  PermutationFromIndex n index = perm_loop (Z.to_nat n) index (seqZ 0 n).
Proof.
  intros Hn Hi. unfold PermutationFromIndex. rewrite (proj2 (Z.leb_gt _ _)) by lia.
  by rewrite Z.rem_mod_nonneg, Z.mod_small by lia.
Qed.

Lemma PermutationFromIndex_total n index :
  0 <= n -> 0 <= index -> exists p, PermutationFromIndex n index = Some p /\ p ≡ₚ seqZ 0 n.
Proof.
  intros Hn Hi. unfold PermutationFromIndex. destruct (n <=? 0) eqn:E.
  { apply Z.leb_le in E. replace n with 0 by lia. by exists []. }
  apply Z.leb_gt in E. apply perm_loop_total; [rewrite length_seqZ; lia|].
  pose proof (Factorial_pos n). rewrite Z2Nat.id by lia.
  rewrite Z.rem_mod_nonneg by lia. apply Z.mod_pos_bound. lia.
Qed.

(** For up to twelve branches, running the index through [0..Factorial(n)-1]
    explores every release order exactly once: each index gives a permutation of
    [0..n-1], different indices give different ones, and every permutation has
    its index. *)
Theorem permutation_index_bijection n :
  1 <= n <= 12 ->
  (forall i, 0 <= i < Factorial n ->
     exists p, PermutationFromIndex n i = Some p /\ p ≡ₚ seqZ 0 n) /\
  (forall i j, 0 <= i < Factorial n -> 0 <= j < Factorial n ->
     PermutationFromIndex n i = PermutationFromIndex n j -> i = j) /\
  (forall p, p ≡ₚ seqZ 0 n ->
     exists i, 0 <= i < Factorial n /\ PermutationFromIndex n i = Some p).
Proof.
  intros Hn. assert (n = Z.of_nat (Z.to_nat n)) as En by lia. split_and!.
  - intros i Hi. apply PermutationFromIndex_total; lia.
  - intros i j Hi Hj. rewrite !PermutationFromIndex_small by lia. intros Heq.
    destruct (perm_loop_total (Z.to_nat n) i (seqZ 0 n)) as (p & Hp & _);
      [rewrite length_seqZ; lia|by rewrite <- En|].
    eapply (perm_loop_inj (Z.to_nat n) i j (seqZ 0 n) p);
      rewrite <- ?En; [lia|apply NoDup_seqZ|done|done|done|congruence].
  - intros p Hp. destruct (perm_loop_surj (Z.to_nat n) (seqZ 0 n) p) as (i & Hi & Pi);
      [lia|rewrite length_seqZ; lia|done|].
    rewrite <- En in Hi. exists i. split; [done|]. by rewrite PermutationFromIndex_small by lia.
Qed.

Lemma permutation_index_bijection_witness :
  exists i, 0 <= i < Factorial 3 /\ PermutationFromIndex 3 i = Some [2; 0; 1].
Proof.
  apply (permutation_index_bijection 3 ltac:(lia)).
  by apply (bool_decide_unpack _); vm_compute.
Defined.

(** Beyond twelve branches the capped factorial keeps the decoding total
    (still a permutation, no panic) but no longer exhaustive: whatever the index,
    the first branch is always released first. *)
Theorem permutation_index_capped n index :
  13 <= n -> 0 <= index ->
  exists p, PermutationFromIndex n index = Some (0 :: p) /\ 0 :: p ≡ₚ seqZ 0 n.
Proof.
  intros Hn Hi. destruct (PermutationFromIndex_total n index) as (p & Hp & Hpp); [lia..|].
  enough (exists p', p = 0 :: p') as [p' ->] by eauto.
  unfold PermutationFromIndex in Hp. rewrite (proj2 (Z.leb_gt _ _)) in Hp by lia.
  assert (0 <= go_mod index (Factorial n) < 479001600) as Hr.
  { rewrite Factorial_cap, Z.rem_mod_nonneg by lia. apply Z.mod_pos_bound. lia. }
  destruct (Z.to_nat n) as [|m] eqn:En; [lia|]. unfold perm_loop in Hp. cbn [Lehmer.decode] in Hp.
  rewrite (Factorial_cap (Z.of_nat m)) in Hp by lia.
  rewrite Z.quot_small in Hp by lia. rewrite seqZ_cons in Hp by lia. unfold Lehmer.take_at in Hp.
  change (Z.to_nat 0) with 0%nat in Hp. cbn [lookup list_lookup Z.ltb Z.compare] in Hp.
  match type of Hp with context [Lehmer.decode ?F m ?i ?l] => destruct (Lehmer.decode F m i l) end;
    simplify_eq. eauto.
Qed.

Lemma permutation_index_capped_witness :
  exists p, PermutationFromIndex 13 479001600 = Some (0 :: p) /\ 0 :: p ≡ₚ seqZ 0 13.
Proof. apply (permutation_index_capped 13 479001600); lia. Defined.

End Permutation.

(** ** The exploration scheduler ([scheduler.go]) *)

Module Scheduler.
Import HoldQueue Permutation.

Inductive SchedErr := ErrWait | ErrRelease (currentIdx targetOrigIdx step : Z).

(** How far the items released before it have shifted the target to the left. *)
Definition currentIdx (released : list Z) (target : Z) : Z :=
  fold_left (fun c prev => if prev <? target then c - 1 else c) released target.

Fixpoint release_loop (todo released : list Z) (q : HoldQueue) : option SchedErr * HoldQueue :=
  match todo with
  | [] => (None, q)
  | t :: todo =>
      let c := currentIdx released t in
      match ReleaseByIndex c allowed q with
      | (true, q) => release_loop todo (released ++ [t]) q
      | (false, q) => (Some (ErrRelease c t (Z.of_nat (length released))), q)
      end
  end.

(** [ReleaseInOrder] from the moment its [Wait] looks at the queue, with no other
    operation on the queue in between: the permutation, the error if any, and the
    queue; [None] while it is blocked, or when the permutation decoder panics. *)
Definition ReleaseInOrder (permIndex n : Z) (cancelled : bool) (q : HoldQueue)
    : option (list Z * option SchedErr * HoldQueue) :=
  match wait_test n cancelled q with
  | None => None
  | Some false => Some ([], Some ErrWait, q)
  | Some true =>
      match PermutationFromIndex n permIndex with
      | None => None
      | Some perm => let (err, q) := release_loop perm [] q in Some (perm, err, q)
      end
  end.

Lemma currentIdx_eq released t :
  currentIdx released t = t - Z.of_nat (length (filter (fun p => p < t) released)).
Proof.
  unfold currentIdx.
  assert (forall c, fold_left (fun c prev => if prev <? t then c - 1 else c) released c =
                    c - Z.of_nat (length (filter (fun p => p < t) released))) as H; [|apply H].
  induction released as [|p released IH]; intros c; cbn [fold_left]; [cbn; lia|].
  rewrite IH, filter_cons. destruct (Z.ltb_spec p t); case_decide; cbn [length]; lia.
Qed.

Section Release.
(** The notifications pending when the releases begin. *)
Context (items : list HeldNotif).

Definition item (i : Z) : option HeldNotif := items !! Z.to_nat i.

(** The original positions still pending after some were released. *)
Definition left_of (released : list Z) : list Z :=
  filter (fun i => i ∉ released) (seqZ 0 (Z.of_nat (length items))).

Lemma left_split released t :
  NoDup released -> (forall i, i ∈ released -> 0 <= i) ->
  0 <= t < Z.of_nat (length items) -> t ∉ released ->
  exists a b, left_of released = a ++ t :: b /\
              Z.of_nat (length a) = currentIdx released t /\
              left_of (released ++ [t]) = a ++ b.
Proof.
  intros Hnd Hpos Ht Hnin. unfold left_of. set (n := Z.of_nat (length items)) in *.
  assert (seqZ 0 n = seqZ 0 t ++ t :: seqZ (t + 1) (n - t - 1)) as ->.
  { replace n with (t + (n - t)) at 1 by lia. rewrite seqZ_app by lia. f_equal.
    rewrite (seqZ_cons (0 + t)) by lia.
    by replace (Z.succ (0 + t)) with (t + 1) by lia; replace (Z.pred (n - t)) with (n - t - 1) by lia. }
  exists (filter (fun i => i ∉ released) (seqZ 0 t)),
         (filter (fun i => i ∉ released) (seqZ (t + 1) (n - t - 1))).
  rewrite !filter_app, !filter_cons. split_and!.
  - rewrite decide_True by done. done.
  - rewrite currentIdx_eq.
    assert (length (filter (fun i => i ∈ released) (seqZ 0 t)) =
            length (filter (fun p => p < t) released)) as Hlen.
    { apply Permutation_length, NoDup_Permutation.
      - apply NoDup_filter, NoDup_seqZ.
      - by apply NoDup_filter.
      - intros i. rewrite !list_elem_of_filter, elem_of_seqZ. split; [naive_solver lia|].
        intros [? Hi]. specialize (Hpos i Hi). split; [done|lia]. }
    assert (length (filter (fun i => i ∈ released) (seqZ 0 t)) +
            length (filter (fun i => i ∉ released) (seqZ 0 t)) = Z.to_nat t)%nat as Hsum.
    { rewrite <- (length_seqZ 0 t), <- length_app. apply Permutation_length.
      apply (filter_app_complement (fun i => i ∈ released)). }
    lia.
  - rewrite decide_False by set_solver.
    f_equal; apply filter_ext_elem; intros i Hi%elem_of_seqZ;
      rewrite not_elem_of_app, not_elem_of_cons;
      (split; [tauto|]); intros ?; split_and!; first [done|lia|apply not_elem_of_nil].
Qed.

Lemma omap_item_length l :
  Forall (fun i => 0 <= i < Z.of_nat (length items)) l -> length (omap item l) = length l.
Proof.
  induction 1 as [|i l Hi _ IH]; [done|]. cbn. unfold item at 1.
  destruct (lookup_lt_is_Some_2 items (Z.to_nat i)) as [h ->]; [lia|]. cbn. by rewrite IH.
Qed.

Lemma left_in_range released :
  Forall (fun i => 0 <= i < Z.of_nat (length items)) (left_of released).
Proof.
  apply Forall_forall. intros i. unfold left_of.
  rewrite list_elem_of_filter, elem_of_seqZ. lia.
Qed.

(** Releasing in order answers the items at the given original positions, in
    that order, whatever was released before. *)
Lemma release_loop_spec todo : forall released q,
  NoDup (released ++ todo) ->
  Forall (fun i => 0 <= i < Z.of_nat (length items)) (released ++ todo) ->
  pending q = omap item (left_of released) ->
  release_loop todo released q =
    (None, mkQueue (omap item (left_of (released ++ todo))) (closed q)
             (sent q ++ map (fun h => (h, allowed)) (omap item todo))).
Proof.
  induction todo as [|t todo IH]; intros released q Hnd Hr Hq.
  { rewrite !app_nil_r. destruct q; cbn in *; by subst. }
  pose proof (proj1 (Forall_app _ _ _) Hr) as [Hrel [Ht _]%Forall_cons].
  pose proof (proj1 (NoDup_app _ _) Hnd) as (Hndr & Hdisj & _).
  destruct (left_split released t) as (a & b & Hab & Hla & Hab'); [done| |done| |].
  { intros i Hi. rewrite Forall_forall in Hrel. by apply Hrel. }
  { intros Hin. apply (Hdisj t Hin). by left. }
  pose proof (left_in_range released) as Hrange. rewrite Hab, Forall_app in Hrange.
  destruct (lookup_lt_is_Some_2 items (Z.to_nat t)) as [h Hh]; [lia|].
  assert (pending q = omap item a ++ h :: omap item b) as Hq'.
  { rewrite Hq, Hab, omap_app. cbn. change (item t) with (items !! Z.to_nat t). by rewrite Hh. }
  cbn [release_loop]. rewrite <- Hla, <- (omap_item_length a) by apply Hrange.
  rewrite (ReleaseByIndex_some _ _ _ h) by (by rewrite Hq', list_lookup_middle).
  rewrite IH; cbn [pending closed sent].
  - rewrite <- app_assoc. cbn. change (item t) with (items !! Z.to_nat t). rewrite Hh. cbn.
    by rewrite <- app_assoc.
  - by rewrite <- app_assoc.
  - by rewrite <- app_assoc.
  - rewrite Hab', omap_app, Hq', take_app_length. f_equal.
    by rewrite drop_app_ge, Nat.sub_succ_l, Nat.sub_diag by lia.
Qed.

Lemma left_of_prefix perm n :
  0 <= n <= Z.of_nat (length items) -> perm ≡ₚ seqZ 0 n ->
  omap item (left_of perm) = drop (Z.to_nat n) items.
Proof.
  intros Hn Hp. unfold left_of.
  replace (Z.of_nat (length items)) with (n + (Z.of_nat (length items) - n)) by lia.
  rewrite seqZ_app, filter_app by lia.
  assert (filter (fun i => i ∉ perm) (seqZ 0 n) = []) as ->.
  { apply filter_none. intros i Hi. rewrite Hp. tauto. }
  assert (filter (fun i => i ∉ perm) (seqZ (0 + n) (Z.of_nat (length items) - n)) =
          seqZ n (Z.of_nat (length items) - n)) as ->; [|by apply omap_lookup_drop].
  apply filter_all. intros i Hi%elem_of_seqZ.
  rewrite Hp, elem_of_seqZ. lia.
Qed.
End Release.

(** with no cancellation and at least [n] notifications held,
    [ReleaseInOrder] succeeds for every permutation index: it allows the first
    [n] held notifications exactly once each, in the order the decoded
    permutation of their original positions prescribes, and leaves the rest of
    the queue untouched. *)
Theorem ReleaseInOrder_order permIndex n q :
  0 <= permIndex -> 0 <= n <= Len q ->
  exists perm, PermutationFromIndex n permIndex = Some perm /\ perm ≡ₚ seqZ 0 n /\
    ReleaseInOrder permIndex n false q =
      Some (perm, None,
            mkQueue (drop (Z.to_nat n) (pending q)) (closed q)
              (sent q ++ map (fun h => (h, allowed)) (omap (item (pending q)) perm))).
Proof.
  intros Hi Hn. unfold Len in Hn.
  destruct (PermutationFromIndex_total n permIndex) as (perm & Hp & Hperm); [lia..|].
  exists perm. split; [done|]. split; [done|]. unfold ReleaseInOrder, wait_test.
  rewrite (proj2 (Z.ltb_ge (Len q) n)) by (unfold Len; lia). cbn [andb negb].
  rewrite Hp, (release_loop_spec (pending q) perm [] q); cbn [app].
  - by rewrite (left_of_prefix _ perm n).
  - rewrite Hperm. apply NoDup_seqZ.
  - apply Forall_forall. intros i. rewrite Hperm, elem_of_seqZ. lia.
  - unfold left_of. rewrite (filter_all _ (seqZ _ _)) by (intros ? _; apply not_elem_of_nil).
    rewrite <- (Z.sub_0_r (Z.of_nat _)). symmetry. apply (omap_lookup_drop (pending q) 0). lia.
Qed.

(** Two held calls, to be released last first. *)
Definition two_held : HoldQueue :=
  Enqueue (mkHeld 2 5 "fsync" 11 "/b") (Enqueue (mkHeld 1 5 "write" 10 "/a") NewHoldQueue).

Lemma ReleaseInOrder_order_witness :
  exists perm, PermutationFromIndex 2 1 = Some perm /\ perm ≡ₚ seqZ 0 2 /\
    ReleaseInOrder 1 2 false two_held =
      Some (perm, None,
            mkQueue (drop (Z.to_nat 2) (pending two_held)) (closed two_held)
              (sent two_held ++
               map (fun h => (h, allowed)) (omap (item (pending two_held)) perm))).
Proof. apply (ReleaseInOrder_order 1 2 two_held); [lia|]. by vm_compute. Defined.

Lemma two_held_reversed :
  (fun r => map (fun s => ReqID s.1) (sent r.2)) <$> ReleaseInOrder 1 2 false two_held =
    Some [2; 1].
Proof. reflexivity. Qed.

End Scheduler.
