(* ===== verification/Session.v ===== *)
(** * A session and the operations other goroutines perform on it
    ([internal/engine/session.go], and the rule resolution of
    [launch_linux.go] and [launch_container_linux.go])

    Rules and hold queues are shared by pointer: the session record carries the
    store its pointers point into, and an address is a position in that store.
    The methods lock a mutex for their whole body, so each is one transition.
    What the session sends to the kernel, reports to the event callback and
    writes into the target's memory is kept in order in [responses], [events]
    and [written]. *)

From stdpp Require Import base gmap strings list numbers sorting.
From Stdlib Require Import ZArith Lia SpecFloat.
From S2P Require Import Prelude GoStd GoRand Seccomp FaultRule HoldQueue.
Import GoStd Seccomp FaultRule.
Local Open Scope Z_scope.

Module VClock.

Record VirtualClock := mkClock { enabled : bool; elapsed : Z }.

Definition Advance (d : Z) (vc : VirtualClock) : VirtualClock :=
  mkClock (enabled vc) (i64 (elapsed vc + d)).

Definition Elapsed (vc : VirtualClock) : Z := elapsed vc.

Definition Timespec (vc : VirtualClock) : Z * Z :=
  (go_div (elapsed vc) 1000000000, go_mod (elapsed vc) 1000000000).

Lemma Timespec_elapsed vc :
  (Timespec vc).1 * 1000000000 + (Timespec vc).2 = elapsed vc.
Proof. unfold Timespec. cbn [fst snd]. pose proof (Z.quot_rem' (elapsed vc) 1000000000). lia. Qed.

End VClock.

Module Session.
Import VClock.

Inductive State := StateCreated | StateStarting | StateRunning | StateStopped | StateFailed.

(** The decision an event reports; the source renders it as text. *)
Inductive Decision :=
| DecAllow | DecAllowSystemPath | DecDeny (errno : Z) | DecDelay (d : Z) | DecTrace
| DecHold (tag : string) | DecAllowReleased | DecDenyReleased (errno : Z)
| DecVirtualSleep (d : Z) | DecVirtualTime (sec nsec : Z).

Record SyscallEvent := mkEvent {
  Seq : Z; EvService : string; EvSyscall : string; EvPID : Z; EvDecision : Decision;
  EvPath : string; EvLatency : Z; EvLabel : string; EvOp : string;
  EvDestIP : string; EvDestPort : Z }.

(** The configuration the session consults while it runs; [OnSyscall] is whether
    a callback is set, and [native] the architecture the binary is built for. *)
Record SessionConfig := mkConfig {
  native : Arch;
  FaultRules : list FaultRule;
  OnSyscall : bool;
  Seed : option Z;
  VirtualTime : bool;
  ProbabilityDecider : option (FaultRule -> Z -> bool * bool) }.

Record Session := mkSession {
  Service : string;
  cfg : SessionConfig;
  state : State;
  rng : GoRand.PCG;
  vclock : option VirtualClock;
  syscallSeq : Z;
  unresolvedPaths : Z;
  droppedNotifs : Z;
  supervisorFailed : bool;
  supervisorErr : option string;
  dynamicRules : option (gmap Z (list nat));
  holdRules : option (gmap Z (list nat));
  holdQueues : option (gmap string nat);
  rules : list FaultRule;                    (* the rule store *)
  queues : list HoldQueue.HoldQueue;         (* the queue store *)
  responses : list NotifResp;
  events : list SyscallEvent;
  written : list (Z * Z * list Z) }.         (* pid, address, bytes *)

(** ** Field updates *)

Definition set_state v s := mkSession (Service s) (cfg s) v (rng s) (vclock s) (syscallSeq s)
  (unresolvedPaths s) (droppedNotifs s) (supervisorFailed s) (supervisorErr s) (dynamicRules s)
  (holdRules s) (holdQueues s) (rules s) (queues s) (responses s) (events s) (written s).
Definition set_rng v s := mkSession (Service s) (cfg s) (state s) v (vclock s) (syscallSeq s)
  (unresolvedPaths s) (droppedNotifs s) (supervisorFailed s) (supervisorErr s) (dynamicRules s)
  (holdRules s) (holdQueues s) (rules s) (queues s) (responses s) (events s) (written s).
Definition set_vclock v s := mkSession (Service s) (cfg s) (state s) (rng s) v (syscallSeq s)
  (unresolvedPaths s) (droppedNotifs s) (supervisorFailed s) (supervisorErr s) (dynamicRules s)
  (holdRules s) (holdQueues s) (rules s) (queues s) (responses s) (events s) (written s).
Definition set_unresolvedPaths v s := mkSession (Service s) (cfg s) (state s) (rng s) (vclock s)
  (syscallSeq s) v (droppedNotifs s) (supervisorFailed s) (supervisorErr s) (dynamicRules s)
  (holdRules s) (holdQueues s) (rules s) (queues s) (responses s) (events s) (written s).
Definition set_droppedNotifs v s := mkSession (Service s) (cfg s) (state s) (rng s) (vclock s)
  (syscallSeq s) (unresolvedPaths s) v (supervisorFailed s) (supervisorErr s) (dynamicRules s)
  (holdRules s) (holdQueues s) (rules s) (queues s) (responses s) (events s) (written s).
Definition set_supervisor f e s := mkSession (Service s) (cfg s) (state s) (rng s) (vclock s)
  (syscallSeq s) (unresolvedPaths s) (droppedNotifs s) f e (dynamicRules s)
  (holdRules s) (holdQueues s) (rules s) (queues s) (responses s) (events s) (written s).
Definition set_dynamicRules v s := mkSession (Service s) (cfg s) (state s) (rng s) (vclock s)
  (syscallSeq s) (unresolvedPaths s) (droppedNotifs s) (supervisorFailed s) (supervisorErr s) v
  (holdRules s) (holdQueues s) (rules s) (queues s) (responses s) (events s) (written s).
Definition set_holdRules v s := mkSession (Service s) (cfg s) (state s) (rng s) (vclock s)
  (syscallSeq s) (unresolvedPaths s) (droppedNotifs s) (supervisorFailed s) (supervisorErr s)
  (dynamicRules s) v (holdQueues s) (rules s) (queues s) (responses s) (events s) (written s).
Definition set_holdQueues v s := mkSession (Service s) (cfg s) (state s) (rng s) (vclock s)
  (syscallSeq s) (unresolvedPaths s) (droppedNotifs s) (supervisorFailed s) (supervisorErr s)
  (dynamicRules s) (holdRules s) v (rules s) (queues s) (responses s) (events s) (written s).
Definition set_rules v s := mkSession (Service s) (cfg s) (state s) (rng s) (vclock s)
  (syscallSeq s) (unresolvedPaths s) (droppedNotifs s) (supervisorFailed s) (supervisorErr s)
  (dynamicRules s) (holdRules s) (holdQueues s) v (queues s) (responses s) (events s) (written s).
Definition set_queues v s := mkSession (Service s) (cfg s) (state s) (rng s) (vclock s)
  (syscallSeq s) (unresolvedPaths s) (droppedNotifs s) (supervisorFailed s) (supervisorErr s)
  (dynamicRules s) (holdRules s) (holdQueues s) (rules s) v (responses s) (events s) (written s).
Definition respond r s := mkSession (Service s) (cfg s) (state s) (rng s) (vclock s)
  (syscallSeq s) (unresolvedPaths s) (droppedNotifs s) (supervisorFailed s) (supervisorErr s)
  (dynamicRules s) (holdRules s) (holdQueues s) (rules s) (queues s) (responses s ++ [r]) (events s)
  (written s).
Definition push_event e s := mkSession (Service s) (cfg s) (state s) (rng s) (vclock s)
  (Seq e) (unresolvedPaths s) (droppedNotifs s) (supervisorFailed s) (supervisorErr s)
  (dynamicRules s) (holdRules s) (holdQueues s) (rules s) (queues s) (responses s) (events s ++ [e])
  (written s).

Definition push_write w s := mkSession (Service s) (cfg s) (state s) (rng s) (vclock s)
  (syscallSeq s) (unresolvedPaths s) (droppedNotifs s) (supervisorFailed s) (supervisorErr s)
  (dynamicRules s) (holdRules s) (holdQueues s) (rules s) (queues s) (responses s) (events s)
  (written s ++ [w]).

(** ** Construction *)

(** [NewSession]; [fresh] stands for the two words of a randomly seeded
    generator. *)
Definition NewSession (service : string) (c : SessionConfig) (fresh : Z * Z) : Session :=
  mkSession service c StateCreated
    (match Seed c with
     | Some seed => GoRand.NewPCG seed 0
     | None => GoRand.NewPCG fresh.1 fresh.2
     end)
    (if VirtualTime c then Some (mkClock true 0) else None)
    0 0 0 false None None None None [] [] [] [] [].

Definition setState (st : State) (s : Session) : Session := set_state st s.

(** ** What the filter covers *)

Definition FiltersSyscall (rs : list FaultRule) (name : string) : bool :=
  existsb (fun r => String.eqb (Syscall r) name ||
                    (String.eqb (Syscall r) "open" && String.eqb name "openat")) rs.

(** The keys of the map [seen], sorted. *)
Definition FilteredSyscalls (rs : list FaultRule) : list string :=
  sort_strings (elements (fold_left (fun (seen : gset string) r =>
    let seen := {[Syscall r]} ∪ seen in
    if String.eqb (Syscall r) "open" then {["openat"]} ∪ seen else seen) rs ∅)).

(** ** Supervisor failure *)

Definition supervisor_message : string :=
  "seccomp notification loop stopped while the target was still running; " +:+
  "every intercepted syscall after that point blocks indefinitely".

Definition SupervisorFailure (s : Session) : option string :=
  if supervisorFailed s then
    Some (match supervisorErr s with
          | Some m => if String.eqb m "" then supervisor_message
                      else supervisor_message +:+ ": " +:+ m
          | None => supervisor_message
          end)
  else None.

Definition noteSupervisorExit (cause : string) (s : Session) : Session :=
  set_supervisor true (if String.eqb cause "" then supervisorErr s else Some cause) s.

(** ** Dynamic fault rules *)

Definition init_counters (r : FaultRule) : FaultRule :=
  set_probCounter (Some (default 0 (probCounter r)))
    (set_counter (Some (default 0 (counter r))) r).

(** [m[k] = append(m[k], a)]. *)
Definition map_append (k : Z) (a : nat) (m : gmap Z (list nat)) : gmap Z (list nat) :=
  <[k := default [] (m !! k) ++ [a]]> m.

(** The loop over the caller's slice, whose elements live at the addresses
    [slice]: unknown syscalls are skipped, the others get their counters and an
    entry in the map. *)
Fixpoint index_dynamic (a : Arch) (slice : list nat) (store : list FaultRule)
    (m : gmap Z (list nat)) : list FaultRule * gmap Z (list nat) :=
  match slice with
  | [] => (store, m)
  | p :: slice =>
      match store !! p with
      | None => index_dynamic a slice store m
      | Some r =>
          let nr := SyscallNumber a (Syscall r) in
          if nr <? 0 then index_dynamic a slice store m
          else index_dynamic a slice (<[p := init_counters r]> store) (map_append nr p m)
      end
  end.

(** The methods below guard against a nil receiver; [None] is nil. *)
Definition SetDynamicFaultRules (slice : list nat) (s : option Session) : option Session :=
  s ← s; let (store, m) := index_dynamic (native (cfg s)) slice (rules s) ∅ in
  Some (set_dynamicRules (Some m) (set_rules store s)).

Definition ClearDynamicFaultRules (s : option Session) : option Session :=
  set_dynamicRules None <$> s.

Record DynamicRuleReport := mkReport {
  RepSyscall : string; RepAction : string; RepOp : string; RepLabel : string;
  RepMatchCount : Z; RepPathGlob : string; RepUnresolvedPaths : Z }.

Definition report (s : Session) (r : FaultRule) : DynamicRuleReport :=
  mkReport (Syscall r) (actionName (Action r)) (Op r) (Label r) (MatchCount r) (PathGlob r)
    (unresolvedPaths s).

(** Go iterates over the map in any order; the model takes the store's. *)
Definition DynamicRuleActivity (s : option Session) : list DynamicRuleReport :=
  match s with
  | None => []
  | Some s =>
      match dynamicRules s with
      | None => []
      | Some m => report s <$> omap (fun p => rules s !! p) (List.concat (map_to_list m).*2)
      end
  end.

Definition getDynamicRules (nr : Z) (s : Session) : list nat :=
  match dynamicRules s with None => [] | Some m => default [] (m !! nr) end.

(** ** Hold rules and queues *)

Definition RegisterHoldQueue (tag : string) (s : option Session) : option nat * option Session :=
  match s with
  | None => (None, None)
  | Some s =>
      let q := length (queues s) in
      (Some q, Some (set_holdQueues (Some (<[tag := q]> (default ∅ (holdQueues s))))
                       (set_queues (queues s ++ [HoldQueue.NewHoldQueue]) s)))
  end.

Definition queue_of (tag : string) (s : Session) : option nat :=
  match holdQueues s with None => None | Some m => m !! tag end.

Definition GetHoldQueue (tag : string) (s : option Session) : option nat :=
  s ← s; queue_of tag s.

Fixpoint index_hold (a : Arch) (tag : string) (slice : list nat) (store : list FaultRule)
    (m : gmap Z (list nat)) : list FaultRule * gmap Z (list nat) :=
  match slice with
  | [] => (store, m)
  | p :: slice =>
      match store !! p with
      | None => index_hold a tag slice store m
      | Some r =>
          let store := <[p := set_HoldTag tag r]> store in
          let nr := SyscallNumber a (Syscall r) in
          if nr <? 0 then index_hold a tag slice store m
          else index_hold a tag slice store (map_append nr p m)
      end
  end.

Definition AddHoldRules (tag : string) (slice : list nat) (s : option Session)
    : option Session :=
  s ← s;
  let (store, m) := index_hold (native (cfg s)) tag slice (rules s) (default ∅ (holdRules s)) in
  Some (set_holdRules (Some m) (set_rules store s)).

Definition has_tag (store : list FaultRule) (tag : string) (p : nat) : bool :=
  match store !! p with Some r => String.eqb (HoldTag r) tag | None => false end.

(** The rules of one syscall that are not the tag's; an emptied entry is deleted. *)
Definition without_tag (store : list FaultRule) (tag : string) (l : list nat)
    : option (list nat) :=
  let filtered := List.filter (fun p => negb (has_tag store tag p)) l in
  match filtered with [] => None | _ => Some filtered end.

Definition RemoveHoldRules (tag : string) (s : option Session) : option Session :=
  s ← s;
  let s := set_holdRules (option_map (omap (without_tag (rules s) tag)) (holdRules s)) s in
  Some (match queue_of tag s with
        | Some q => set_holdQueues (option_map (delete tag) (holdQueues s))
                      (set_queues (alter HoldQueue.Close q (queues s)) s)
        | None => s
        end).

Definition CloseAllHoldQueues (s : option Session) : option Session :=
  s ← s;
  let qs := (map_to_list (default ∅ (holdQueues s))).*2 in
  Some (set_holdQueues None (set_holdRules None
          (set_queues (fold_left (fun qh q => alter HoldQueue.Close q qh) qs (queues s)) s))).

Definition getHoldRules (nr : Z) (s : Session) : list nat :=
  match holdRules s with None => [] | Some m => default [] (m !! nr) end.

(** ** Randomness and events *)

Definition randFloat64 (s : Session) : float64 * Session :=
  let (x, g) := GoRand.rand_float64 (rng s) in (x, set_rng g s).

(** [emitSyscallEventDest]; the time stamp is not part of the model. *)
Definition emitSyscallEventDest (name : string) (pid : Z) (d : Decision) (path : string)
    (latency : Z) (destIP : string) (destPort : Z) (label op : string) (s : Session) : Session :=
  if OnSyscall (cfg s) then
    push_event (mkEvent (i64 (syscallSeq s + 1)) (Service s) name pid d path latency label op
                  destIP destPort) s
  else s.

Definition emitSyscallEvent (name : string) (pid : Z) (d : Decision) (path : string)
    (latency : Z) (label op : string) (s : Session) : Session :=
  emitSyscallEventDest name pid d path latency "" 0 label op s.

End Session.

(** ** Resolving the configured rules at launch *)

Module Launch.
Import Session.

(** The first loop of [launch]: every rule with its number, and the numbers in
    order of first appearance ([seen] is membership in that list).  An unknown
    name ends the launch. *)
Fixpoint resolve (a : Arch) (rs : list FaultRule) (acc : list (Z * FaultRule)) (nrs : list Z)
    : result string (list (Z * FaultRule) * list Z) :=
  match rs with
  | [] => Ok (acc, nrs)
  | r :: rs =>
      let nr := SyscallNumber a (Syscall r) in
      if nr <? 0 then Err (Syscall r)
      else resolve a rs (acc ++ [(nr, r)]) (if bool_decide (nr ∈ nrs) then nrs else nrs ++ [nr])
  end.

(** The second loop: a rule on [open] also stands for [openat]. *)
Fixpoint add_openat (a : Arch) (rs : list FaultRule) (acc : list (Z * FaultRule)) (nrs : list Z)
    : list (Z * FaultRule) * list Z :=
  match rs with
  | [] => (acc, nrs)
  | r :: rs =>
      if String.eqb (Syscall r) "open" then
        let nr := SyscallNumber a "openat" in
        if (0 <=? nr) && negb (bool_decide (nr ∈ nrs))
        then add_openat a rs (acc ++ [(nr, r)]) (nrs ++ [nr])
        else add_openat a rs acc nrs
      else add_openat a rs acc nrs
  end.

(** The rules and the syscall numbers a binary launch filters. *)
Definition launch_rules (a : Arch) (rs : list FaultRule)
    : result string (list (Z * FaultRule) * list Z) :=
  let? p := resolve a rs [] [] in Ok (add_openat a rs p.1 p.2).

(** The same two loops of [launchExternal], one rule at a time: an unknown name
    is skipped, and every rule on [open] is copied. *)
Definition numbered (a : Arch) (r : FaultRule) : option (Z * FaultRule) :=
  let nr := SyscallNumber a (Syscall r) in if nr <? 0 then None else Some (nr, r).

Definition openat_copy (a : Arch) (r : FaultRule) : option (Z * FaultRule) :=
  let nr := SyscallNumber a "openat" in
  if String.eqb (Syscall r) "open" && (0 <=? nr) then Some (nr, r) else None.

Definition external_rules (a : Arch) (rs : list FaultRule) : list (Z * FaultRule) :=
  omap (numbered a) rs ++ omap (openat_copy a) rs.

(** [ruleMap]: the resolved rules move into the store; a binary launch gives
    them their counters first, an external one leaves them to first use. *)
Definition build_rule_map (init : bool) (resolved : list (Z * FaultRule)) (s : Session)
    : gmap Z (list nat) * Session :=
  fold_left (fun '(m, s) '(nr, r) =>
      let p := length (rules s) in
      (map_append nr p m, set_rules (rules s ++ [if init then init_counters r else r]) s))
    resolved (∅, s).

(** The rules that apply to one syscall, in the order they are consulted. *)
Definition rules_for (nr : Z) (resolved : list (Z * FaultRule)) : list FaultRule :=
  (filter (fun p => p.1 = nr) resolved).*2.

Definition named (n : string) (rs : list FaultRule) : list FaultRule :=
  filter (fun r => Syscall r = n) rs.

Lemma named_cons n r rs :
  named n (r :: rs) = if String.eqb (Syscall r) n then r :: named n rs else named n rs.
Proof.
  unfold named. rewrite filter_cons.
  destruct (String.eqb_spec (Syscall r) n); case_decide; congruence.
Qed.

Lemma resolve_spec a rs : forall acc nrs acc' nrs',
  resolve a rs acc nrs = Ok (acc', nrs') ->
  acc' = acc ++ map (fun r => (SyscallNumber a (Syscall r), r)) rs /\
  Forall (fun r => 0 <= SyscallNumber a (Syscall r)) rs /\
  (forall n, n ∈ nrs' <-> n ∈ nrs \/ exists r, r ∈ rs /\ SyscallNumber a (Syscall r) = n) /\
  (NoDup nrs -> NoDup nrs').
Proof.
  induction rs as [|r rs IH]; intros acc nrs acc' nrs' H; cbn in H.
  { simplify_eq. rewrite app_nil_r. split_and!; [done|done| |done]. set_solver. }
  destruct (Z.ltb_spec (SyscallNumber a (Syscall r)) 0) as [|Hge]; [done|].
  apply IH in H as (-> & Hall & Hin & Hnd). split_and!.
  - by rewrite <- app_assoc.
  - by constructor.
  - intros n. rewrite Hin. case_bool_decide; set_solver.
  - intros H. apply Hnd. case_bool_decide as Hd; [done|].
    apply NoDup_app. split_and!; [done|set_solver|apply NoDup_singleton].
Qed.

Lemma add_openat_spec a rs : forall acc nrs,
  let o := SyscallNumber a "openat" in
  0 <= o ->
  add_openat a rs acc nrs =
    if bool_decide (o ∈ nrs) then (acc, nrs)
    else (acc ++ map (fun r => (o, r)) (take 1 (named "open" rs)),
          nrs ++ map (fun _ => o) (take 1 (named "open" rs))).
Proof.
  cbv zeta. induction rs as [|r rs IH]; intros acc nrs Ho; cbn [add_openat].
  { cbn. rewrite !app_nil_r. by case_bool_decide. }
  rewrite named_cons. destruct (String.eqb (Syscall r) "open"); [|by apply IH].
  rewrite (proj2 (Z.leb_le _ _) Ho). cbn [andb].
  destruct (bool_decide_reflect (SyscallNumber a "openat" ∈ nrs)) as [Hin|Hnin]; cbn [negb].
  - rewrite IH by done. by rewrite bool_decide_true.
  - rewrite IH by done. rewrite bool_decide_true by set_solver. done.
Qed.

Lemma openat_number a : a ∈ archs -> 0 <= SyscallNumber a "openat".
Proof.
  intros Ha. assert (Forall (fun a => 0 <= SyscallNumber a "openat") archs) as HF
    by (by apply (bool_decide_unpack _); vm_compute).
  by apply (proj1 (Forall_forall _ _) HF).
Qed.

Lemma FiltersSyscall_spec rs name :
  FiltersSyscall rs name = true <->
  exists r, r ∈ rs /\ (Syscall r = name \/ Syscall r = "open" /\ name = "openat").
Proof.
  unfold FiltersSyscall. rewrite existsb_exists. setoid_rewrite <- list_elem_of_In.
  setoid_rewrite orb_true_iff. setoid_rewrite andb_true_iff. by setoid_rewrite String.eqb_eq.
Qed.

Lemma named_nonempty n rs : take 1 (named n rs) <> [] <-> exists r, r ∈ rs /\ Syscall r = n.
Proof.
  unfold named. split.
  - destruct (filter _ rs) as [|r l] eqn:E; [done|]. intros _. exists r.
    assert (r ∈ filter (fun r => Syscall r = n) rs) as H by (rewrite E; by left).
    apply list_elem_of_filter in H. tauto.
  - intros (r & Hin & Hr). destruct (filter _ rs) as [|x l] eqn:E; [|done].
    by apply (filter_nil_not_elem_of _ _ r E) in Hin.
Qed.

(** The numbers of a successful launch: duplicate-free, from the table, those of
    the configured rules and [openat] when [open] is configured. *)
Lemma launch_rules_numbers a rs resolved nrs :
  a ∈ archs -> launch_rules a rs = Ok (resolved, nrs) ->
  NoDup nrs /\ Forall (fun r => 0 <= SyscallNumber a (Syscall r)) rs /\
  (forall n, n ∈ nrs <-> (exists r, r ∈ rs /\ SyscallNumber a (Syscall r) = n) \/
             n = SyscallNumber a "openat" /\ exists r, r ∈ rs /\ Syscall r = "open").
Proof.
  intros Ha H. pose proof (openat_number a Ha) as Ho. unfold launch_rules in H.
  destruct (resolve a rs [] []) as [[acc nrs0]|] eqn:Hr; cbn in H; [|done].
  apply resolve_spec in Hr as (-> & Hall & Hin & Hnd).
  rewrite add_openat_spec in H by done. specialize (Hnd (NoDup_nil_2)).
  setoid_rewrite <- named_nonempty.
  assert (length (take 1 (named "open" rs)) <= 1)%nat as Hlen by (rewrite length_take; lia).
  set (l := take 1 (named "open" rs)) in *. clearbody l.
  assert (forall n, n ∈ nrs0 <-> exists r, r ∈ rs /\ SyscallNumber a (Syscall r) = n) as Hin'.
  { intros n. rewrite Hin. split; [intros [[]%not_elem_of_nil|?]|]; tauto. }
  clear Hin. setoid_rewrite <- Hin'. clear Hin'.
  set (o := SyscallNumber a "openat") in *. clearbody o.
  destruct (bool_decide_reflect (o ∈ nrs0)) as [Ho'|Ho']; simplify_eq;
    (split; [|split; [done|]]).
  - done.
  - intros n. split; [tauto|]. by intros [|[-> _]].
  - apply NoDup_app. split_and!; [done| |].
    + intros x Hx (? & -> & _)%list_elem_of_fmap. done.
    + destruct l as [|? [|]]; [apply NoDup_nil_2|apply NoDup_singleton|cbn in Hlen; lia].
  - intros n. rewrite elem_of_app, list_elem_of_fmap. split.
    + intros [?|(r & -> & Hr)]; [tauto|]. right. split; [done|].
      intros ->. by apply not_elem_of_nil in Hr.
    + intros [?|[-> Hl]]; [tauto|]. destruct l as [|r l]; [done|]. right. exists r.
      split; [done|by left].
Qed.

Lemma launch_numbers_in_table a rs resolved nrs :
  a ∈ archs -> launch_rules a rs = Ok (resolved, nrs) -> nrs ⊆ (syscallNames a).*1.
Proof.
  intros Ha H n Hn. apply launch_rules_numbers in H as (_ & Hall & Hin); [|done].
  apply Hin in Hn as [(r & Hr & <-)|[-> _]]; apply list_elem_of_fmap;
    (eexists; split; [|apply number_of_table]); try done.
  - by apply (proj1 (Forall_forall _ _) Hall).
  - by apply openat_number.
Qed.

(** A listed name is in the filter exactly when [FiltersSyscall] says so. *)
Lemma filtered_number a rs resolved nrs nr name :
  a ∈ archs -> launch_rules a rs = Ok (resolved, nrs) -> (nr, name) ∈ syscallNames a ->
  nr ∈ nrs <-> FiltersSyscall rs name = true.
Proof.
  intros Ha H Hin. apply launch_rules_numbers in H as (_ & Hall & Hn); [|done].
  destruct (SyscallNumber_elem a nr name Ha Hin) as [Hnum _].
  assert (forall m, 0 <= SyscallNumber a m -> SyscallNumber a m = nr -> m = name) as Hinj.
  { intros m Hm E. pose proof (number_of_table m _ Hm) as Hm'. fold (SyscallNumber a m) in Hm'.
    rewrite E in Hm'. destruct (archs_cost a Ha) as [(H1 & _ & _) _].
    apply (proj2 (name_of_elem _ _ _ H1)) in Hm', Hin. congruence. }
  rewrite Hn, FiltersSyscall_spec. rewrite Forall_forall in Hall. split.
  - intros [(r & Hr & E)|[E (r & Hr & Ho)]]; exists r; (split; [done|]).
    + left. apply Hinj; [by apply Hall|done].
    + right. split; [done|]. symmetry. apply Hinj; [by apply openat_number|done].
  - intros (r & Hr & [<-|[Ho ->]]); [left|right]; eauto.
Qed.

(** what [FiltersSyscall] promises is what the kernel does.  After a binary
    launch with rules [rs], the installed BPF program lets a syscall of the native
    table run untouched exactly when [FiltersSyscall] denies that it is
    intercepted; an intercepted one gets the notification (or its descriptor
    exception), including [openat] when only [open] was configured. *)
Theorem FiltersSyscall_matches_kernel `{BpfMachine} a rs resolved nrs aw asock nr name arg0 :
  a ∈ archs -> launch_rules a rs = Ok (resolved, nrs) -> (nr, name) ∈ syscallNames a ->
  let d := mkSD nr (auditArch a) arg0 in
  run (buildFilter a nrs aw asock) d =
    Some (if FiltersSyscall rs name then listed_decision a aw asock d else SECCOMP_RET_ALLOW).
Proof.
  intros Ha Hl Hin d. pose proof (filtered_number _ _ _ _ _ _ Ha Hl Hin) as Hf.
  pose proof (launch_rules_numbers _ _ _ _ Ha Hl) as (Hnd & _).
  destruct (archs_cost a Ha) as [Hok Hc].
  rewrite run_buildFilter.
  - unfold filter_decision, d. cbn [sd_arch sd_nr]. rewrite Z.eqb_refl. cbn [negb].
    destruct (FiltersSyscall rs name); case_bool_decide; intuition congruence.
  - etransitivity; [|exact Hc]. by apply body_bound; [| |eapply launch_numbers_in_table].
Qed.

(** A rule of the raw parser's shape, for the examples. *)
Definition sample (name : string) (errno : Z) : FaultRule :=
  mkRule name ActionDeny errno 0 f64_1 "" TriggerAlways 0 "" "" "" "" 0 "" None None.

Lemma FiltersSyscall_matches_kernel_witness :
  run (buildFilter amd64 [2; 257] (-1) (-1)) (mkSD 257 (auditArch amd64) 0) =
    Some SECCOMP_RET_USER_NOTIF.
Proof.
  apply (FiltersSyscall_matches_kernel amd64 [sample "open" 2]
           [(2, sample "open" 2); (257, sample "open" 2)] [2; 257] (-1) (-1) 257 "openat" 0).
  - by left.
  - vm_compute. reflexivity.
  - by apply (bool_decide_unpack _); vm_compute.
Defined.

Lemma SyscallNumber_inj a m n :
  a ∈ archs -> 0 <= SyscallNumber a m -> SyscallNumber a m = SyscallNumber a n -> m = n.
Proof.
  intros Ha Hm E. pose proof (number_of_table m _ Hm) as Hm'.
  assert (0 <= SyscallNumber a n) as Hn by lia. pose proof (number_of_table n _ Hn) as Hn'.
  fold (SyscallNumber a m) in Hm'. fold (SyscallNumber a n) in Hn'. rewrite <- E in Hn'.
  destruct (archs_cost a Ha) as [(H1 & _ & _) _].
  apply (proj2 (name_of_elem _ _ _ H1)) in Hm', Hn'. congruence.
Qed.

Lemma rules_for_app nr l1 l2 : rules_for nr (l1 ++ l2) = rules_for nr l1 ++ rules_for nr l2.
Proof. unfold rules_for. by rewrite filter_app, fmap_app. Qed.

(** The rules found under one number are those configured under that name. *)
Lemma rules_for_numbered a name rs :
  a ∈ archs -> 0 <= SyscallNumber a name ->
  rules_for (SyscallNumber a name)
    (omap (numbered a) rs) = named name rs.
Proof.
  intros Ha Hn. induction rs as [|r rs IH]; [done|]. rewrite named_cons. csimpl. unfold numbered at 1. cbv zeta.
  destruct (Z.ltb_spec (SyscallNumber a (Syscall r)) 0) as [Hneg|Hge].
  - destruct (String.eqb_spec (Syscall r) name); [subst; lia|]. apply IH.
  - unfold rules_for in *. rewrite filter_cons. cbn.
    destruct (String.eqb_spec (Syscall r) name) as [E|E]; case_decide as D; cbn.
    + by f_equal.
    + by rewrite E in D.
    + apply SyscallNumber_inj in D; done.
    + done.
Qed.

Lemma omap_all_numbered a rs :
  Forall (fun r => 0 <= SyscallNumber a (Syscall r)) rs ->
  omap (numbered a) rs =
  map (fun r => (SyscallNumber a (Syscall r), r)) rs.
Proof.
  induction 1 as [|r rs Hr _ IH]; [done|]. csimpl. unfold numbered at 1. cbv zeta.
  rewrite (proj2 (Z.ltb_ge _ _) Hr). by rewrite IH.
Qed.

Lemma rules_for_const nr l : rules_for nr (map (fun r => (nr, r)) l) = l.
Proof.
  unfold rules_for. induction l as [|r l IH]; [done|]. cbn [map]. rewrite filter_cons.
  rewrite decide_True by done. cbn. by rewrite IH.
Qed.

Lemma external_openat a rs :
  0 <= SyscallNumber a "openat" ->
  omap (openat_copy a) rs =
  map (fun r => (SyscallNumber a "openat", r)) (named "open" rs).
Proof.
  intros Ho. induction rs as [|r rs IH]; [done|]. rewrite named_cons. csimpl. unfold openat_copy at 1.
  cbv zeta. rewrite (proj2 (Z.leb_le _ _) Ho). destruct (String.eqb (Syscall r) "open"); cbn;
    [by f_equal|done].
Qed.

(** both launch paths mean to apply every rule on [open] to [openat] as
    well, but they do not agree.  In a container every such rule is consulted,
    after the rules on [openat] itself; for a binary only the first one is, and
    none when a rule on [openat] is configured. *)
Theorem open_rules_on_openat a rs resolved nrs :
  a ∈ archs -> launch_rules a rs = Ok (resolved, nrs) ->
  rules_for (SyscallNumber a "openat") resolved =
    (match named "openat" rs with [] => take 1 (named "open" rs) | l => l end) /\
  rules_for (SyscallNumber a "openat") (external_rules a rs) =
    named "openat" rs ++ named "open" rs.
Proof.
  intros Ha H. pose proof (openat_number a Ha) as Ho. unfold launch_rules in H.
  destruct (resolve a rs [] []) as [[acc nrs0]|] eqn:Hr; cbn in H; [|done].
  apply resolve_spec in Hr as (-> & Hall & Hin & _). rewrite add_openat_spec in H by done.
  pose proof (rules_for_numbered a "openat" rs Ha Ho) as Hnum.
  unfold external_rules. rewrite rules_for_app, Hnum, external_openat, rules_for_const by done.
  split; [|done]. rewrite omap_all_numbered in Hnum by done.
  assert (SyscallNumber a "openat" ∈ nrs0 <-> named "openat" rs <> []) as Hiff.
  { rewrite Hin. transitivity (take 1 (named "openat" rs) <> []).
    - rewrite named_nonempty. rewrite Forall_forall in Hall. split.
      + intros [[]%not_elem_of_nil|(r & Hr & E)]. exists r. split; [done|].
        apply (SyscallNumber_inj a); [done|by apply Hall|done].
      + intros (r & Hr & E). right. exists r. by rewrite E.
    - by destruct (named "openat" rs). }
  destruct (bool_decide_reflect (SyscallNumber a "openat" ∈ nrs0)) as [Hi|Hi]; simplify_eq.
  - cbn [app]. rewrite Hnum. apply Hiff in Hi. by destruct (named "openat" rs).
  - rewrite rules_for_app, rules_for_const. cbn [app]. rewrite Hnum.
    destruct (named "openat" rs); [done|]. destruct Hi. by apply Hiff.
Qed.

Lemma open_rules_on_openat_witness :
  rules_for 257 [(2, sample "open" 2); (2, sample "open" 13); (257, sample "open" 2)] =
    [sample "open" 2] /\
  rules_for 257 (external_rules amd64 [sample "open" 2; sample "open" 13]) =
    [sample "open" 2; sample "open" 13].
Proof.
  apply (open_rules_on_openat amd64 [sample "open" 2; sample "open" 13]
           [(2, sample "open" 2); (2, sample "open" 13); (257, sample "open" 2)] [2; 257]).
  - by left.
  - vm_compute. reflexivity.
Defined.

End Launch.
