(* ===== verification/Notification.v ===== *)
(** * Handling seccomp notifications ([internal/engine/launch_linux.go])

    [handleNotification] decides one intercepted syscall: virtual time first,
    then hold rules, then the fault rules in order.  A handler runs as one
    transition up to its answer, except that a held syscall blocks it; [System]
    interleaves handlers with everything other goroutines do to the session and
    to its queues.  [notificationLoop] and the supervisor check follow. *)

From stdpp Require Import base gmap strings list numbers.
From Stdlib Require Import ZArith Lia SpecFloat.
From S2P Require Import Prelude GoStd GoRand Seccomp FaultRule HoldQueue Session.
Import GoStd Seccomp FaultRule VClock Session.
Local Open Scope Z_scope.

Module Notification.

(** ** Virtual time *)

(** [binary.LittleEndian.Uint64] of eight bytes, and its inverse. *)
Fixpoint le_decode (l : list Z) : Z :=
  match l with [] => 0 | b :: l => b + 256 * le_decode l end.

Fixpoint le_encode (n : nat) (z : Z) : list Z :=
  match n with O => [] | S n => z mod 256 :: le_encode n (z / 256) end.

(** A timespec the process passed, as a duration; 0 when it cannot be read. *)
Definition readTimespec (fs : ProcFS) (pid addr : Z) : Z :=
  if addr =? 0 then 0
  else match ReadFromProcess fs pid addr 16 with
       | None => 0
       | Some buf =>
           if (length buf <? 16)%nat then 0
           else
             let sec := i64 (le_decode (take 8 buf)) in
             let nsec := i64 (le_decode (take 8 (drop 8 buf))) in
             i64 (i64 (sec * 1000000000) + nsec)
       end.

Definition zeros (n : nat) : list Z := replicate n 0.

Definition arg (req : NotifReq) (i : nat) : Z := byte_at (Args (Data req)) i.

Definition on_clock (f : VirtualClock -> VirtualClock) (s : Session) : Session :=
  set_vclock (f <$> vclock s) s.

Definition clock_elapsed (s : Session) : Z :=
  match vclock s with Some vc => Elapsed vc | None => 0 end.

(** [WriteToProcess]: a non-null address is written, and [pwrite] says whether
    the kernel took it. *)
Definition write_process (fs : ProcFS) (pid addr : Z) (data : list Z) (s : Session)
    : bool * Session :=
  if WriteToProcess fs pid addr data then (true, push_write (pid, addr, data) s) else (false, s).

(** The common end of the two sleeps: the clock moves, the remaining time is
    zeroed when the caller asked for it, and the syscall returns 0. *)
Definition finish_sleep (fs : ProcFS) (req : NotifReq) (name : string) (dur rem : Z)
    (s : Session) : Session :=
  let s := on_clock (Advance dur) s in
  let s := if rem =? 0 then s else (write_process fs (PID req) rem (zeros 16) s).2 in
  let s := emitSyscallEvent name (PID req) (DecVirtualSleep dur) "" dur "" "" s in
  respond (ReturnValue (ID req) 0) s.

(** [handleTimeSyscall]: [None] when the syscall is not a time syscall. *)
Definition handleTimeSyscall (fs : ProcFS) (req : NotifReq) (name : string) (s : Session)
    : option Session :=
  if String.eqb name "nanosleep" then
    Some (finish_sleep fs req name (readTimespec fs (PID req) (arg req 0)) (arg req 1) s)
  else if String.eqb name "clock_nanosleep" then
    let dur := readTimespec fs (PID req) (arg req 2) in
    let dur := if Z.testbit (arg req 1) 0 then
                 let currentNs := clock_elapsed s in
                 if currentNs <? dur then i64 (dur - currentNs) else 0
               else dur in
    Some (finish_sleep fs req name dur (arg req 3) s)
  else if String.eqb name "clock_gettime" then
    let '(sec, nsec) := match vclock s with Some vc => Timespec vc | None => (0, 0) end in
    let buf := le_encode 8 (u64 sec) ++ le_encode 8 (u64 nsec) in
    match write_process fs (PID req) (arg req 1) buf s with
    | (true, s) =>
        let s := emitSyscallEvent name (PID req) (DecVirtualTime sec nsec) "" 0 "" "" s in
        Some (respond (ReturnValue (ID req) 0) s)
    | (false, s) => Some (respond (Allow (ID req)) s)
    end
  else None.

(** ** Path and destination of the syscall *)

Definition resolve_path (fs : ProcFS) (req : NotifReq) (name : string) (s : Session)
    : string * Session :=
  let unresolved := set_unresolvedPaths (i64 (unresolvedPaths s + 1)) s in
  if IsFileSyscall name then
    let addr := arg req (if String.eqb name "open" then 0 else 1) in
    match ReadStringFromProcess fs (PID req) addr 256 with
    | Some p => (p, s)
    | None => ("", unresolved)
    end
  else if IsFdSyscall name then
    match readlink_fd fs (PID req) (arg req 0) with
    | None => ("", unresolved)
    | Some p => (if IsSystemPath p then "" else p, s)
    end
  else ("", s).

Definition resolve_dest (fs : ProcFS) (req : NotifReq) (name : string) : string * Z :=
  if String.eqb name "connect" then
    default ("", 0) (ReadSockaddrFromProcess fs (PID req) (arg req 1))
  else ("", 0).

(** The closure [emit] of the handler. *)
Definition emit (req : NotifReq) (name : string) (dest : string * Z) (d : Decision)
    (path : string) (latency : Z) (label op : string) (s : Session) : Session :=
  if String.eqb name "connect"
  then emitSyscallEventDest name (PID req) d path latency dest.1 dest.2 label op s
  else emitSyscallEvent name (PID req) d path latency label op s.

(** A glob matches the path itself or the directory it is in. *)
Definition path_selected (r : FaultRule) (path : string) : bool :=
  MatchPath r path || MatchPath r (GoRand.Dir path +:+ "/").

(** ** Hold rules *)

Inductive Outcome :=
| Answered
| Blocked (q : nat) (h : HoldQueue.HeldNotif) (dest : string * Z).

(** The first hold rule that selects the call and still has its queue. *)
Fixpoint hold_loop (name path : string) (ps : list nat) (s : Session) : option (nat * string) :=
  match ps with
  | [] => None
  | p :: ps =>
      match rules s !! p with
      | None => hold_loop name path ps s
      | Some r =>
          if IsFileSyscall name && negb (String.eqb path "") && negb (String.eqb (PathGlob r) "")
             && negb (path_selected r path)
          then hold_loop name path ps s
          else match queue_of (HoldTag r) s with
               | None => hold_loop name path ps s
               | Some q => Some (q, HoldTag r)
               end
      end
  end.

(** ** Fault rules *)

Inductive Filtered := Skip | SystemPath | Consult.

(** The path and destination conditions of one rule. *)
Definition rule_filter (name path : string) (dest : string * Z) (r : FaultRule) : Filtered :=
  let by_path :=
    if (IsFileSyscall name || IsFdSyscall name) && negb (String.eqb path "") then
      if negb (String.eqb (PathGlob r) "") then
        if path_selected r path then Consult else Skip
      else if IsSystemPath path then SystemPath else Consult
    else Consult in
  match by_path with
  | Consult =>
      if negb (String.eqb (DestAddr r) "") && String.eqb name "connect" then
        if String.eqb dest.1 "" || negb (String.eqb (dest.1 +:+ ":" +:+ show_Z dest.2) (DestAddr r))
        then Skip else Consult
      else Consult
  | v => v
  end.

(** The probability of one consulted rule: the generator is always drawn from;
    a decider that pins the occurrence overrides it. *)
Definition fire_decision (r : FaultRule) (s : Session) : bool * FaultRule * Session :=
  let (x, s) := randFloat64 s in
  let fire := f64_lt x (Probability r) in
  match ProbabilityDecider (cfg s) with
  | Some decide =>
      if String.eqb (Mode r) "stochastic" then (fire, r, s)
      else
        let (occ, r) := NextProbabilityOccurrence r in
        let (f, pinned) := decide r occ in
        (if pinned then f else fire, r, s)
  | None => (fire, r, s)
  end.

Inductive LoopResult := NoFault (d : Decision) | Fire (r : FaultRule).

(** The loop over the merged rules. *)
Fixpoint fault_loop (name path : string) (dest : string * Z) (ps : list nat) (s : Session)
    : LoopResult * Session :=
  match ps with
  | [] => (NoFault DecAllow, s)
  | p :: ps =>
      match rules s !! p with
      | None => fault_loop name path dest ps s
      | Some r =>
          match rule_filter name path dest r with
          | Skip => fault_loop name path dest ps s
          | SystemPath => (NoFault DecAllowSystemPath, s)
          | Consult =>
              let (should, r) := ShouldFire r in
              let s := set_rules (<[p := r]> (rules s)) s in
              if should then
                let '(fire, r, s) := fire_decision r s in
                let s := set_rules (<[p := r]> (rules s)) s in
                match fire, Action r with
                | true, (ActionDelay | ActionDeny | ActionTrace) => (Fire r, s)
                | _, _ => fault_loop name path dest ps s
                end
              else fault_loop name path dest ps s
          end
      end
  end.

(** What the handler does with the rule that fired. *)
Definition apply_fault (req : NotifReq) (name path : string) (dest : string * Z) (r : FaultRule)
    (s : Session) : Session :=
  match Action r with
  | ActionDelay =>
      let s := match vclock s with
               | Some vc => if enabled vc then on_clock (Advance (Delay r)) s else s
               | None => s
               end in
      let s := emit req name dest (DecDelay (Delay r)) path (Delay r) (Label r) (Op r) s in
      respond (Allow (ID req)) s
  | ActionDeny =>
      let s := emit req name dest (DecDeny (Errno r)) path 0 (Label r) (Op r) s in
      respond (Deny (ID req) (i32 (Errno r))) s
  | ActionTrace =>
      let s := emit req name dest DecTrace path 0 "" "" s in
      respond (Allow (ID req)) s
  | ActionHold => s
  end.

(** ** The handler *)

Definition clock_enabled (s : Session) : bool :=
  match vclock s with Some vc => enabled vc | None => false end.

Definition merged_rules (ruleMap : gmap Z (list nat)) (nr : Z) (s : Session) : list nat :=
  default [] (ruleMap !! nr) ++ getDynamicRules nr s.

Definition handleNotification (fs : ProcFS) (listenerFd : Z) (ruleMap : gmap Z (list nat))
    (req : NotifReq) (s : Session) : Outcome * Session :=
  let name := SyscallName (native (cfg s)) (Nr (Data req)) in
  let (path, s) := resolve_path fs req name s in
  let dest := resolve_dest fs req name in
  match (if clock_enabled s then handleTimeSyscall fs req name s else None) with
  | Some s => (Answered, s)
  | None =>
      match hold_loop name path (getHoldRules (Nr (Data req)) s) s with
      | Some (q, tag) =>
          let s := emit req name dest (DecHold tag) path 0 "" "" s in
          let h := HoldQueue.mkHeld (ID req) listenerFd name (PID req) path in
          (Blocked q h dest, set_queues (alter (HoldQueue.Enqueue h) q (queues s)) s)
      | None =>
          match fault_loop name path dest (merged_rules ruleMap (Nr (Data req)) s) s with
          | (Fire r, s) => (Answered, apply_fault req name path dest r s)
          | (NoFault d, s) =>
              (Answered, respond (Allow (ID req)) (emit req name dest d path 0 "" "" s))
          end
      end
  end.

(** The [select] of a held handler: a decision from the queue, or the context
    cancelled ([None]).  The name, path and destination are those captured before
    it blocked. *)
Definition resume_held (req : NotifReq) (name path : string) (dest : string * Z)
    (d : option HoldQueue.HoldDecision) (s : Session) : Session :=
  match d with
  | Some d =>
      if HoldQueue.DAllow d then
        emit req name dest DecAllowReleased path 0 "" "" (respond (Allow (ID req)) s)
      else
        emit req name dest (DecDenyReleased (HoldQueue.DErrno d)) path 0 "" ""
          (respond (Deny (ID req) (HoldQueue.DErrno d)) s)
  | None => respond (Allow (ID req)) s
  end.

(** ** What the steps of a handler leave alone *)

(** [quiet s s']: [s'] differs from [s] only in counters, rules' counters, the
    generator, the clock, events and memory writes. *)
Record quiet (s s' : Session) : Prop := mkQuiet {
  quiet_cfg : cfg s' = cfg s;
  quiet_responses : responses s' = responses s;
  quiet_queues : queues s' = queues s;
  quiet_hold : holdRules s' = holdRules s;
  quiet_tags : holdQueues s' = holdQueues s;
  quiet_dynamic : dynamicRules s' = dynamicRules s }.

#[export] Instance quiet_preorder : PreOrder quiet.
Proof.
  split.
  - intros s. by constructor.
  - intros s1 s2 s3 [] []. constructor; congruence.
Qed.

Lemma quiet_queue_of tag s s' : quiet s s' -> queue_of tag s' = queue_of tag s.
Proof. intros []. unfold queue_of. by rewrite quiet_tags0. Qed.

Lemma quiet_emit req name dest d path lat l o s :
  quiet s (emit req name dest d path lat l o s).
Proof.
  unfold emit, emitSyscallEvent, emitSyscallEventDest.
  repeat case_match; by constructor.
Qed.

Lemma quiet_emit_plain name pid d path lat l o s :
  quiet s (emitSyscallEvent name pid d path lat l o s).
Proof. unfold emitSyscallEvent, emitSyscallEventDest. case_match; by constructor. Qed.

Lemma quiet_set_rules v s : quiet s (set_rules v s).
Proof. by constructor. Qed.

Lemma quiet_on_clock f s : quiet s (on_clock f s).
Proof. by constructor. Qed.

Lemma quiet_write fs pid addr data s : quiet s (write_process fs pid addr data s).2.
Proof. unfold write_process. case_match; by constructor. Qed.

Lemma quiet_resolve_path fs req name s : quiet s (resolve_path fs req name s).2.
Proof. unfold resolve_path. repeat case_match; by constructor. Qed.

Lemma quiet_fire_decision r s : quiet s (fire_decision r s).2.
Proof.
  unfold fire_decision, randFloat64. destruct (GoRand.rand_float64 (rng s)) as [x g].
  repeat case_match; by constructor.
Qed.

#[export] Hint Resolve quiet_emit quiet_emit_plain quiet_set_rules quiet_on_clock quiet_write
  quiet_resolve_path quiet_fire_decision : faultbox.

Lemma quiet_fault_loop name path dest ps : forall s,
  quiet s (fault_loop name path dest ps s).2.
Proof.
  induction ps as [|p ps IH]; intros s; cbn [fault_loop]; [done|].
  destruct (rules s !! p) as [r|]; [|by apply IH].
  destruct (rule_filter name path dest r); [by apply IH|done|].
  destruct (ShouldFire r) as [should r1].
  set (s1 := set_rules (<[p:=r1]> (rules s)) s).
  transitivity s1; [by apply quiet_set_rules|].
  destruct should; [|by apply IH].
  pose proof (quiet_fire_decision r1 s1) as Hq.
  destruct (fire_decision r1 s1) as [[fire r2] s2]. cbn [snd] in Hq.
  transitivity s2; [done|]. set (s3 := set_rules (<[p:=r2]> (rules s2)) s2).
  transitivity s3; [by apply quiet_set_rules|].
  destruct fire; [|by apply IH]. destruct (Action r2); [done|done|by apply IH|done].
Qed.

Lemma hold_loop_queue name path s : forall ps q tag,
  hold_loop name path ps s = Some (q, tag) -> queue_of tag s = Some q.
Proof.
  induction ps as [|p ps IH]; intros q tag H; cbn in H; [done|].
  destruct (rules s !! p) as [r|]; [|eauto].
  destruct (IsFileSyscall name && _ && _ && _); [eauto|].
  destruct (queue_of (HoldTag r) s) as [q'|] eqn:E; [|eauto]. by simplify_eq.
Qed.

(** One answer, and the rest of the session as before. *)
Definition answers (id : Z) (s s' : Session) : Prop :=
  exists resp, RespID resp = id /\ exists t, quiet s t /\ s' = respond resp t.

Lemma answers_finish_sleep fs req name dur rem s :
  answers (ID req) s (finish_sleep fs req name dur rem s).
Proof.
  unfold finish_sleep, answers. exists (ReturnValue (ID req) 0). split; [done|].
  eexists; split; [|reflexivity]. etransitivity; [apply quiet_on_clock|].
  etransitivity; [|apply quiet_emit_plain]. case_match; [done|apply quiet_write].
Qed.

Lemma answers_time fs req name s s' :
  handleTimeSyscall fs req name s = Some s' -> answers (ID req) s s'.
Proof.
  unfold handleTimeSyscall. case_match.
  { intros [= <-]. apply answers_finish_sleep. }
  case_match. { intros [= <-]. apply answers_finish_sleep. }
  case_match; [|done]. case_match.
  match goal with |- context [write_process ?a ?b ?c ?d ?e] =>
    pose proof (quiet_write a b c d e) as Hw; destruct (write_process a b c d e) as [[] s1] end;
    cbn [snd] in Hw; intros [= <-]; unfold answers.
  - exists (ReturnValue (ID req) 0). split; [done|]. eexists; split; [|done].
    etransitivity; [exact Hw|apply quiet_emit_plain].
  - exists (Allow (ID req)). split; [done|]. by exists s1.
Qed.

Lemma answers_fault req name path dest r s :
  Action r <> ActionHold -> answers (ID req) s (apply_fault req name path dest r s).
Proof.
  intros Ha. unfold apply_fault, answers. destruct (Action r); [| | done |].
  - eexists; split; [|eexists; split; [|reflexivity]]; [done|]. apply quiet_emit.
  - eexists; split; [|eexists; split; [|reflexivity]]; [done|].
    etransitivity; [|apply quiet_emit]. repeat case_match; done || apply quiet_on_clock.
  - eexists; split; [|eexists; split; [|reflexivity]]; [done|]. apply quiet_emit.
Qed.

Lemma fault_loop_action name path dest ps : forall s r s',
  fault_loop name path dest ps s = (Fire r, s') -> Action r <> ActionHold.
Proof.
  induction ps as [|p ps IH]; intros s r s' H; cbn [fault_loop] in H; [done|].
  destruct (rules s !! p) as [r0|]; [|eauto].
  destruct (rule_filter name path dest r0); [eauto|done|].
  destruct (ShouldFire r0) as [[] r1]; [|eauto].
  destruct (fire_decision r1 _) as [[[] r2] s2]; [|eauto].
  destruct (Action r2) eqn:Ea; [| |eauto|]; simplify_eq; by rewrite Ea.
Qed.

(** Every run of the handler either answers the notification once or leaves it
    in a registered hold queue, unanswered. *)
Lemma handler_outcome fs lfd rm req s out s' :
  handleNotification fs lfd rm req s = (out, s') ->
  match out with
  | Answered => answers (ID req) s s'
  | Blocked q h _ =>
      HoldQueue.ReqID h = ID req /\
      exists t tag, quiet s t /\ queue_of tag s = Some q /\
        s' = set_queues (alter (HoldQueue.Enqueue h) q (queues t)) t
  end.
Proof.
  unfold handleNotification. set (name := SyscallName _ _).
  pose proof (quiet_resolve_path fs req name s) as Hq.
  destruct (resolve_path fs req name s) as [path s1]. cbn [snd] in Hq.
  destruct (if clock_enabled s1 then _ else None) as [s2|] eqn:Et.
  { intros [= <- <-]. destruct (clock_enabled s1); [|done].
    apply answers_time in Et as (resp & Hid & t & Ht & ->). exists resp. split; [done|].
    exists t. split; [by etransitivity|done]. }
  destruct (hold_loop name path _ s1) as [[q tag]|] eqn:Eh.
  { intros [= <- <-]. split; [done|]. exists (emit req name (resolve_dest fs req name)
      (DecHold tag) path 0 "" "" s1), tag. split_and!;
      [|by rewrite <- (quiet_queue_of _ _ _ Hq); apply hold_loop_queue in Eh|done].
    etransitivity; [exact Hq|apply quiet_emit]. }
  pose proof (quiet_fault_loop name path (resolve_dest fs req name)
                (merged_rules rm (Nr (Data req)) s1) s1) as Hl.
  destruct (fault_loop _ _ _ _ _) as [[d|r] s2] eqn:El; cbn [snd] in Hl; intros [= <- <-].
  - exists (Allow (ID req)). split; [done|]. eexists; split; [|reflexivity].
    etransitivity; [exact Hq|]. etransitivity; [exact Hl|apply quiet_emit].
  - apply fault_loop_action in El.
    apply (answers_fault req name path (resolve_dest fs req name) r s2) in El
      as (resp & Hid & t & Ht & ->).
    exists resp. split; [done|]. exists t. split; [|done].
    etransitivity; [exact Hq|]. by etransitivity.
Qed.

End Notification.

(** ** Virtual time *)

Module Time.
Import Notification.

Lemma length_le_encode n z : length (le_encode n z) = n.
Proof. revert z; induction n as [|n IH]; intros z; cbn; [done|]. by rewrite IH. Qed.

Lemma le_decode_encode n : forall z, 0 <= z < 256 ^ Z.of_nat n -> le_decode (le_encode n z) = z.
Proof.
  induction n as [|n IH]; intros z Hz; cbn [le_encode le_decode].
  { cbn in Hz. lia. }
  rewrite Nat2Z.inj_succ, Z.pow_succ_r in Hz by lia. rewrite IH.
  - pose proof (Z.div_mod z 256). lia.
  - split; [apply Z.div_pos; lia|]. apply Z.div_lt_upper_bound; lia.
Qed.

Lemma vclock_finish_sleep fs req name dur rem s vc :
  vclock s = Some vc ->
  vclock (finish_sleep fs req name dur rem s) = Some (Advance dur vc) /\
  responses (finish_sleep fs req name dur rem s) = responses s ++ [ReturnValue (ID req) 0].
Proof.
  intros Hv. unfold finish_sleep, write_process, emitSyscallEvent, emitSyscallEventDest, on_clock.
  repeat case_match; cbn in *; by rewrite Hv.
Qed.

Lemma readTimespec_range fs pid addr : - 2 ^ 63 <= readTimespec fs pid addr < 2 ^ 63.
Proof.
  unfold readTimespec. repeat case_match; try lia.
  pose proof (wrap_s_range 64 (i64 (i64 (le_decode (take 8 l)) * 1000000000) +
                               i64 (le_decode (take 8 (drop 8 l))))). lia.
Qed.

(** Sleeping to an absolute deadline moves the clock to the deadline, unless it
    has passed. *)
Lemma sleep_until fs req s vc :
  vclock s = Some vc -> 0 <= elapsed vc < 2 ^ 63 -> Z.testbit (arg req 1) 0 = true ->
  let t := readTimespec fs (PID req) (arg req 2) in 0 <= t ->
  exists s1, handleTimeSyscall fs req "clock_nanosleep" s = Some s1 /\
    vclock s1 = Some (mkClock (enabled vc) (Z.max (elapsed vc) t)) /\
    responses s1 = responses s ++ [ReturnValue (ID req) 0].
Proof.
  intros Hv He Hb t Ht. unfold handleTimeSyscall. cbn [String.eqb Ascii.eqb Bool.eqb].
  rewrite Hb. fold t. unfold clock_elapsed. rewrite Hv. unfold Elapsed.
  pose proof (readTimespec_range fs (PID req) (arg req 2)) as Hr. fold t in Hr.
  eexists; split; [reflexivity|].
  match goal with |- context [finish_sleep _ _ _ ?d ?m _] =>
    destruct (vclock_finish_sleep fs req "clock_nanosleep" d m s vc Hv) as [-> ->] end.
  split; [|done]. unfold Advance. do 2 f_equal.
  destruct (Z.ltb_spec (elapsed vc) t) as [Hlt|Hge].
  - rewrite (wrap_s_small 64 (t - elapsed vc)), wrap_s_small by lia. lia.
  - rewrite wrap_s_small by lia. lia.
Qed.

(** virtual time is one consistent clock.  After an absolute
    [clock_nanosleep] to the instant [t], the next [clock_gettime] writes sixteen
    bytes into the caller's timespec that decode to the later of [t] and the time
    before the sleep, with nanoseconds below a second; both calls are answered
    with success. *)
Theorem sleep_until_then_gettime fs req1 req2 s vc :
  vclock s = Some vc -> 0 <= elapsed vc < 2 ^ 63 -> Z.testbit (arg req1 1) 0 = true ->
  let t := readTimespec fs (PID req1) (arg req1 2) in 0 <= t ->
  arg req2 1 <> 0 -> (forall pid a d, pwrite fs pid a d = true) ->
  exists s1 s2 sec nsec,
    handleTimeSyscall fs req1 "clock_nanosleep" s = Some s1 /\
    handleTimeSyscall fs req2 "clock_gettime" s1 = Some s2 /\
    written s2 = written s1 ++ [(PID req2, arg req2 1, sec ++ nsec)] /\
    length sec = 8%nat /\ length nsec = 8%nat /\ 0 <= le_decode nsec < 1000000000 /\
    le_decode sec * 1000000000 + le_decode nsec = Z.max (elapsed vc) t /\
    responses s2 = responses s ++ [ReturnValue (ID req1) 0; ReturnValue (ID req2) 0].
Proof.
  intros Hv He Hb t Ht Ha Hw.
  destruct (sleep_until fs req1 s vc Hv He Hb Ht) as (s1 & Hs1 & Hv1 & Hr1). fold t in Hv1.
  pose proof (readTimespec_range fs (PID req1) (arg req1 2)) as Hrange. fold t in Hrange.
  set (m := Z.max (elapsed vc) t) in *. assert (0 <= m < 2 ^ 63) as Hm by lia.
  assert (0 <= go_div m 1000000000 < 256 ^ Z.of_nat 8) as Hsec.
  { split; [apply Z.quot_pos; lia|]. rewrite Z.quot_div_nonneg by lia.
    apply Z.div_lt_upper_bound; lia. }
  assert (0 <= go_mod m 1000000000 < 1000000000) as Hns by (apply Z.rem_bound_pos; lia).
  exists s1. unfold handleTimeSyscall at 2. cbn [String.eqb Ascii.eqb Bool.eqb].
  rewrite Hv1. unfold Timespec. cbn [elapsed]. unfold write_process, WriteToProcess.
  rewrite (proj2 (Z.eqb_neq _ _) Ha), Hw.
  eexists _, (le_encode 8 (go_div m 1000000000)), (le_encode 8 (go_mod m 1000000000)).
  split; [exact Hs1|]. split; [reflexivity|].
  rewrite !wrap_u_small by (split; try lia; apply (Z.lt_le_trans _ (256 ^ Z.of_nat 8)); lia).
  rewrite !le_decode_encode, !length_le_encode by lia. split_and!; try done; try lia.
  - unfold emitSyscallEvent, emitSyscallEventDest. by case_match.
  - pose proof (Z.quot_rem' m 1000000000). lia.
  - cbn. rewrite (quiet_responses _ _ (quiet_emit_plain _ _ _ _ _ _ _ _)). cbn.
    by rewrite Hr1, <- app_assoc.
Qed.

(** a sleep whose timespec is negative, which the kernel rejects, is
    accepted under virtual time: it is answered with success and turns the clock
    back. *)
Theorem negative_sleep_turns_clock_back fs req s vc :
  vclock s = Some vc -> 0 <= elapsed vc < 2 ^ 63 ->
  let d := readTimespec fs (PID req) (arg req 0) in d < 0 ->
  exists s1, handleTimeSyscall fs req "nanosleep" s = Some s1 /\
    clock_elapsed s1 = elapsed vc + d /\ clock_elapsed s1 < clock_elapsed s /\
    responses s1 = responses s ++ [ReturnValue (ID req) 0].
Proof.
  intros Hv He d Hd. unfold handleTimeSyscall. cbn [String.eqb Ascii.eqb Bool.eqb].
  eexists; split; [reflexivity|]. unfold clock_elapsed. rewrite Hv.
  destruct (vclock_finish_sleep fs req "nanosleep" d (arg req 1) s vc Hv) as [Hv' Hr'].
  fold d. rewrite Hv', Hr'. unfold Elapsed, Advance. cbn [elapsed].
  pose proof (readTimespec_range fs (PID req) (arg req 0)) as Hr. fold d in Hr.
  rewrite wrap_s_small by lia. split_and!; [done|lia|done].
Qed.

(** A process whose timespec argument holds the given seconds. *)
Definition timespec_fs (sec : list Z) : ProcFS :=
  mkProcFS (fun _ _ _ => Some (sec ++ replicate 8 0)) (fun _ _ _ => true) (fun _ _ => None).

Definition clock_session : Session :=
  NewSession "svc" (mkConfig amd64 [] true (Some 7) true None) (0, 0).

Definition time_req (nr : Z) (args : list Z) : NotifReq := mkReq 9 100 0 (mkData nr 0xC000003E 0 args).

Lemma sleep_until_then_gettime_witness :
  exists s1 s2 sec nsec,
    handleTimeSyscall (timespec_fs [5; 0; 0; 0; 0; 0; 0; 0]) (time_req 230 [1; 1; 4096; 0])
      "clock_nanosleep" clock_session = Some s1 /\
    handleTimeSyscall (timespec_fs [5; 0; 0; 0; 0; 0; 0; 0]) (time_req 228 [1; 8192])
      "clock_gettime" s1 = Some s2 /\
    written s2 = written s1 ++ [(100, 8192, sec ++ nsec)] /\
    le_decode sec * 1000000000 + le_decode nsec = 5000000000.
Proof.
  destruct (sleep_until_then_gettime (timespec_fs [5; 0; 0; 0; 0; 0; 0; 0])
    (time_req 230 [1; 1; 4096; 0]) (time_req 228 [1; 8192]) clock_session (mkClock true 0))
    as (s1 & s2 & sec & nsec & H1 & H2 & Hw & _ & _ & _ & Hd & _);
    [reflexivity|by vm_compute|reflexivity|by vm_compute|by vm_compute|done|].
  exists s1, s2, sec, nsec. split_and!; [exact H1|exact H2|exact Hw|exact Hd].
Defined.

Lemma negative_sleep_turns_clock_back_witness :
  exists s1, handleTimeSyscall (timespec_fs (replicate 8 255)) (time_req 35 [4096; 0]) "nanosleep"
      (on_clock (Advance 5000000000) clock_session) = Some s1 /\
    clock_elapsed s1 = 4000000000.
Proof.
  destruct (negative_sleep_turns_clock_back (timespec_fs (replicate 8 255))
    (time_req 35 [4096; 0]) (on_clock (Advance 5000000000) clock_session)
    (mkClock true 5000000000)) as (s1 & H1 & He & _);
    [reflexivity|by vm_compute|by vm_compute|].
  exists s1. split; [exact H1|exact He].
Defined.

End Time.

(** ** Which rule decides *)

Module Decide.
Import Notification.

(** Rules that the path or destination rules out leave no trace. *)
Lemma fault_loop_skip name path dest pre : forall post s,
  Forall (fun p => exists r, rules s !! p = Some r /\ rule_filter name path dest r = Skip) pre ->
  fault_loop name path dest (pre ++ post) s = fault_loop name path dest post s.
Proof.
  induction pre as [|p pre IH]; intros post s H; [done|].
  apply Forall_cons_iff in H as [(r & Hr & Hf) Hpre]. cbn [fault_loop app]. rewrite Hr, Hf. by apply IH.
Qed.

Definition unpinned (r : FaultRule) (s : Session) : Prop :=
  ProbabilityDecider (cfg s) = None \/ Mode r = "stochastic".

(** A probability of one fires on every draw, a probability of zero on none. *)
Lemma fire_decision_certain r s :
  unpinned r s ->
  (Probability r = f64_1 -> (fire_decision r s).1 = (true, r)) /\
  (Probability r = f64_0 -> (fire_decision r s).1 = (false, r)).
Proof.
  intros Hu. unfold fire_decision, randFloat64.
  pose proof (GoRand.rand_float64_range (rng s)) as [H1 H0].
  destruct (GoRand.rand_float64 (rng s)) as [x g]. cbn [fst] in H1, H0. cbn [cfg set_rng].
  destruct Hu as [-> | ->]; [|destruct (ProbabilityDecider (cfg s))];
    (split; intros ->; rewrite ?H1, ?H0; reflexivity).
Qed.

Lemma ShouldFire_keeps r :
  let r' := (ShouldFire r).2 in
  Action r' = Action r /\ Probability r' = Probability r /\ Mode r' = Mode r /\
  Errno r' = Errno r /\ Delay r' = Delay r /\ Label r' = Label r /\ Op r' = Op r /\
  counter r' = Some (i64 (MatchCount r + 1)).
Proof. cbv zeta. unfold ShouldFire. by destruct (Trigger r). Qed.

(** The loop reaches a certain rule, counts the call, and fires it. *)
Lemma fault_loop_certain name path dest pre p post s r :
  Forall (fun p => exists r, rules s !! p = Some r /\ rule_filter name path dest r = Skip) pre ->
  rules s !! p = Some r -> rule_filter name path dest r = Consult ->
  (ShouldFire r).1 = true -> Probability r = f64_1 -> unpinned r s -> Action r <> ActionHold ->
  exists s', fault_loop name path dest (pre ++ p :: post) s = (Fire (ShouldFire r).2, s') /\
    quiet s s' /\ rules s' = <[p := (ShouldFire r).2]> (rules s).
Proof.
  intros Hpre Hr Hf Hs Hp Hu Ha. rewrite fault_loop_skip by done. cbn [fault_loop].
  rewrite Hr, Hf. destruct (ShouldFire_keeps r) as (Ea & Ep & Em & _).
  destruct (ShouldFire r) as [should r1]. cbn [fst snd] in *. subst should.
  set (s1 := set_rules (<[p:=r1]> (rules s)) s).
  assert (unpinned r1 s1) as Hu1 by (unfold unpinned; rewrite Em; exact Hu).
  destruct (fire_decision_certain r1 s1 Hu1) as [Hc _]. rewrite Ep in Hc. specialize (Hc Hp).
  pose proof (quiet_fire_decision r1 s1) as Hq.
  assert (rules (fire_decision r1 s1).2 = rules s1) as Hrules.
  { unfold fire_decision, randFloat64. destruct (GoRand.rand_float64 (rng s1)).
    repeat case_match; done. }
  destruct (fire_decision r1 s1) as [fr s2]. cbn [fst snd] in *. subst fr.
  rewrite <- Ea in Ha.
  exists (set_rules (<[p := r1]> (rules s2)) s2). split_and!.
  - by destruct (Action r1).
  - transitivity s1; [apply quiet_set_rules|]. transitivity s2; [done|apply quiet_set_rules].
  - cbn. rewrite Hrules. unfold s1. cbn. by rewrite list_insert_insert_eq.
Qed.

Lemma resolve_path_keeps fs req name s :
  rules (resolve_path fs req name s).2 = rules s /\
  clock_enabled (resolve_path fs req name s).2 = clock_enabled s.
Proof. unfold resolve_path. repeat case_match; done. Qed.

Definition call_name (req : NotifReq) (s : Session) : string :=
  SyscallName (native (cfg s)) (Nr (Data req)).

Lemma rules_emit req name dest d path lat l o s :
  rules (emit req name dest d path lat l o s) = rules s.
Proof. unfold emit, emitSyscallEvent, emitSyscallEventDest. repeat case_match; done. Qed.

Lemma handler_certain_deny fs lfd rm req s pre p post r :
  clock_enabled s = false -> getHoldRules (Nr (Data req)) s = [] ->
  let name := call_name req s in
  let path := (resolve_path fs req name s).1 in
  let dest := resolve_dest fs req name in
  merged_rules rm (Nr (Data req)) s = pre ++ p :: post ->
  Forall (fun p => exists r, rules s !! p = Some r /\ rule_filter name path dest r = Skip) pre ->
  rules s !! p = Some r -> rule_filter name path dest r = Consult ->
  (ShouldFire r).1 = true -> Probability r = f64_1 -> unpinned r s -> Action r = ActionDeny ->
  exists s', handleNotification fs lfd rm req s = (Answered, s') /\
    responses s' = responses s ++ [mkResp (ID req) 0 (i32 (- i32 (Errno r))) 0] /\
    rules s' = <[p := (ShouldFire r).2]> (rules s) /\
    MatchCount (ShouldFire r).2 = i64 (MatchCount r + 1).
Proof.
  intros Hclk Hh name path dest Hm Hpre Hr Hf Hs Hp Hu Ha. unfold handleNotification.
  change (SyscallName _ _) with name. fold dest.
  destruct (resolve_path_keeps fs req name s) as [Hk1 Hk2].
  pose proof (quiet_resolve_path fs req name s) as Hq.
  unfold path in *. destruct (resolve_path fs req name s) as [path' s1]. cbn [fst snd] in *.
  rewrite Hk2, Hclk.
  assert (getHoldRules (Nr (Data req)) s1 = []) as -> by (unfold getHoldRules in *; by destruct Hq as [? ? ? -> ? ?]).
  cbn [hold_loop].
  assert (merged_rules rm (Nr (Data req)) s1 = pre ++ p :: post) as ->.
  { unfold merged_rules, getDynamicRules in *. by rewrite (quiet_dynamic _ _ Hq). }
  destruct (fault_loop_certain name path' dest pre p post s1 r) as (s2 & -> & Hq2 & Hr2);
    rewrite ?Hk1; try done; [|by rewrite Ha|].
  { unfold unpinned in *. by rewrite (quiet_cfg _ _ Hq). }
  destruct (ShouldFire_keeps r) as (Ea & _ & _ & Ee & _ & _ & _ & Ec).
  eexists; split; [reflexivity|]. unfold apply_fault. rewrite Ea, Ha. cbn [respond responses rules].
  rewrite (quiet_responses _ _ (quiet_emit _ _ _ _ _ _ _ _ _)), (quiet_responses _ _ Hq2),
    (quiet_responses _ _ Hq), Ee.
  split_and!; [done|by rewrite rules_emit, Hr2, Hk1|by unfold MatchCount; rewrite Ec].
Qed.

(** outside virtual time and with no hold rule on the call, the first rule
    whose path and destination conditions admit the call decides it: when its
    trigger fires and its probability is 100%, a deny rule is answered with the
    negated errno, whatever the random generator yields and whatever rules come
    later; the rule's match count grows by one and the rules before it keep
    theirs. *)
Theorem first_admitting_deny_rule_decides fs lfd rm req s pre p post r :
  clock_enabled s = false -> getHoldRules (Nr (Data req)) s = [] ->
  let name := call_name req s in
  let path := (resolve_path fs req name s).1 in
  let dest := resolve_dest fs req name in
  merged_rules rm (Nr (Data req)) s = pre ++ p :: post ->
  Forall (fun p => exists r, rules s !! p = Some r /\ rule_filter name path dest r = Skip) pre ->
  rules s !! p = Some r -> rule_filter name path dest r = Consult ->
  (ShouldFire r).1 = true -> Probability r = f64_1 -> unpinned r s -> Action r = ActionDeny ->
  exists s', handleNotification fs lfd rm req s = (Answered, s') /\
    responses s' = responses s ++ [mkResp (ID req) 0 (i32 (- i32 (Errno r))) 0] /\
    rules s' = <[p := (ShouldFire r).2]> (rules s) /\
    MatchCount (ShouldFire r).2 = i64 (MatchCount r + 1).
Proof. exact (handler_certain_deny fs lfd rm req s pre p post r). Qed.

(** A rule as the text format gives it. *)
Definition deny_openat (glob : string) : FaultRule :=
  mkRule "openat" ActionDeny 5 0 f64_1 glob TriggerAlways 0 "" "" "" "" 0 "" None None.

Definition file_session (glob : string) : Session :=
  set_rules [deny_openat glob]
    (NewSession "svc" (mkConfig amd64 [] true (Some 7) false None) (0, 0)).

Definition openat_req : NotifReq :=
  mkReq 40 100 0 (mkData 257 0xC000003E 0 [0; 4096; 0; 0; 0; 0]).

Lemma first_admitting_deny_rule_decides_witness :
  exists s', handleNotification
      (mkProcFS (fun _ _ _ => Some [47; 100; 47; 120; 0]) (fun _ _ _ => true) (fun _ _ => None))
      5 {[257 := [0%nat]]} openat_req (file_session "/d/*") = (Answered, s') /\
    responses s' = [mkResp 40 0 (-5) 0].
Proof.
  destruct (first_admitting_deny_rule_decides
    (mkProcFS (fun _ _ _ => Some [47; 100; 47; 120; 0]) (fun _ _ _ => true) (fun _ _ => None))
    5 {[257 := [0%nat]]} openat_req (file_session "/d/*") [] 0%nat [] (deny_openat "/d/*"))
    as (s' & Hs & Hr & _); try reflexivity; [constructor|left; reflexivity|].
  exists s'. split; [exact Hs|exact Hr].
Defined.

(** the glob of a rule is not consulted when the path could not be read: a
    certain deny rule on a file syscall then denies the call, for every glob.  The
    comment above the resolution says such a rule never matches. *)
Theorem unresolved_path_is_denied fs lfd rm req s p post r :
  clock_enabled s = false -> getHoldRules (Nr (Data req)) s = [] ->
  let name := call_name req s in
  IsFileSyscall name = true -> arg req (if String.eqb name "open" then 0 else 1) <> 0 ->
  (forall pid a n, pread fs pid a n = None) ->
  merged_rules rm (Nr (Data req)) s = p :: post -> rules s !! p = Some r ->
  Action r = ActionDeny -> Trigger r = TriggerAlways -> Probability r = f64_1 ->
  unpinned r s -> DestAddr r = "" ->
  exists s', handleNotification fs lfd rm req s = (Answered, s') /\
    responses s' = responses s ++ [mkResp (ID req) 0 (i32 (- i32 (Errno r))) 0].
Proof.
  intros Hclk Hh name Hfile Harg Hread Hm Hr Ha Ht Hp Hu Hd.
  assert ((resolve_path fs req name s).1 = "") as Hpath.
  { unfold resolve_path. rewrite Hfile. unfold ReadStringFromProcess.
    rewrite (proj2 (Z.eqb_neq _ _) Harg), Hread. done. }
  destruct (handler_certain_deny fs lfd rm req s [] p post r) as (s' & Hs & Hr' & _); eauto.
  - unfold rule_filter. fold name. rewrite Hpath, Hd. cbn. by rewrite andb_false_r.
  - unfold ShouldFire. by rewrite Ht.
Qed.

Lemma unresolved_path_is_denied_witness :
  exists s', handleNotification
      (mkProcFS (fun _ _ _ => None) (fun _ _ _ => true) (fun _ _ => None))
      5 {[257 := [0%nat]]} openat_req (file_session "/never/matches") = (Answered, s') /\
    responses s' = [mkResp 40 0 (-5) 0].
Proof.
  destruct (unresolved_path_is_denied
    (mkProcFS (fun _ _ _ => None) (fun _ _ _ => true) (fun _ _ => None))
    5 {[257 := [0%nat]]} openat_req (file_session "/never/matches") 0%nat []
    (deny_openat "/never/matches")) as (s' & Hs & Hr);
    try reflexivity; [intros Hz; discriminate Hz|left; reflexivity|].
  exists s'. split; [exact Hs|exact Hr].
Defined.

End Decide.

(** ** Handlers, queues and session operations interleaved *)

Module System.
Import Notification.

(** A handler blocked in its [select]. *)
Record Waiting := mkWaiting {
  w_req : NotifReq; w_queue : nat; w_held : HoldQueue.HeldNotif; w_dest : string * Z }.

(** [received] is what the kernel delivered, as notification ids. *)
Record Sys := mkSys {
  sess : Session; waiting : list Waiting; received : list Z; cancelled : bool }.

Definition init (s : Session) : Sys := mkSys s [] [] false.

(** What other goroutines do: the methods of the session, and the releases on a
    queue they hold a pointer to.  [OpNewRules] is a caller making a slice of
    rules. *)
Inductive SessionOp :=
| OpNewRules (rs : list FaultRule)
| OpSetDynamic (slice : list nat)
| OpClearDynamic
| OpRegister (tag : string)
| OpAddHold (tag : string) (slice : list nat)
| OpRemoveHold (tag : string)
| OpCloseAll
| OpQueue (q : nat) (o : HoldQueue.Op).

Definition apply_op (o : SessionOp) (s : Session) : Session :=
  match o with
  | OpNewRules rs => set_rules (rules s ++ rs) s
  | OpSetDynamic slice => default s (SetDynamicFaultRules slice (Some s))
  | OpClearDynamic => default s (ClearDynamicFaultRules (Some s))
  | OpRegister tag => default s (RegisterHoldQueue tag (Some s)).2
  | OpAddHold tag slice => default s (AddHoldRules tag slice (Some s))
  | OpRemoveHold tag => default s (RemoveHoldRules tag (Some s))
  | OpCloseAll => default s (CloseAllHoldQueues (Some s))
  | OpQueue q o => set_queues (alter (HoldQueue.apply o) q (queues s)) s
  end.

(** Only handlers enqueue. *)
Definition op_allowed (o : SessionOp) : bool :=
  match o with OpQueue _ (HoldQueue.OpEnqueue _) => false | _ => true end.

(** A tag in use is not registered again. *)
Definition fresh_tag (o : SessionOp) (s : Session) : Prop :=
  match o with OpRegister tag => queue_of tag s = None | _ => True end.

Definition wake (w : Waiting) (d : option HoldQueue.HoldDecision) (s : Session) : Session :=
  resume_held (w_req w) (HoldQueue.HSyscallName (w_held w)) (HoldQueue.HPath (w_held w))
    (w_dest w) d s.

Section Steps.
Context (fs : ProcFS) (lfd : Z) (rm : gmap Z (list nat)).

Inductive step (reuse : bool) : Sys -> Sys -> Prop :=
| step_answered σ req s' :
    ID req ∉ received σ ->
    handleNotification fs lfd rm req (sess σ) = (Answered, s') ->
    step reuse σ (mkSys s' (waiting σ) (ID req :: received σ) (cancelled σ))
| step_blocked σ req q h dest s' :
    ID req ∉ received σ ->
    handleNotification fs lfd rm req (sess σ) = (Blocked q h dest, s') ->
    step reuse σ (mkSys s' (mkWaiting req q h dest :: waiting σ) (ID req :: received σ)
                    (cancelled σ))
| step_released σ ws1 w ws2 Q d :
    waiting σ = ws1 ++ w :: ws2 ->
    queues (sess σ) !! w_queue w = Some Q -> (w_held w, d) ∈ HoldQueue.sent Q ->
    step reuse σ (mkSys (wake w (Some d) (sess σ)) (ws1 ++ ws2) (received σ) (cancelled σ))
| step_shutdown σ ws1 w ws2 :
    waiting σ = ws1 ++ w :: ws2 -> cancelled σ = true ->
    step reuse σ (mkSys (wake w None (sess σ)) (ws1 ++ ws2) (received σ) true)
| step_cancel σ :
    step reuse σ (mkSys (sess σ) (waiting σ) (received σ) true)
| step_op σ o :
    op_allowed o = true -> reuse = true \/ fresh_tag o (sess σ) ->
    step reuse σ (mkSys (apply_op o (sess σ)) (waiting σ) (received σ) (cancelled σ)).

(** *** Every notification is answered at most once *)

Definition answered_ids (σ : Sys) : list Z := map RespID (responses (sess σ)).
Definition waiting_ids (σ : Sys) : list Z := map (fun w => ID (w_req w)) (waiting σ).

Definition accounted (σ : Sys) : Prop :=
  NoDup (received σ) /\ answered_ids σ ++ waiting_ids σ ≡ₚ received σ.

Lemma responses_op o s : responses (apply_op o s) = responses s.
Proof.
  destruct o; try done; cbn.
  - by destruct (index_dynamic _ _ _ _).
  - by destruct (index_hold _ _ _ _ _).
  - by destruct (queue_of _ _).
Qed.

Lemma responses_wake w d s :
  exists resp, RespID resp = ID (w_req w) /\ responses (wake w d s) = responses s ++ [resp].
Proof.
  unfold wake, resume_held. destruct d as [d|]; [destruct (HoldQueue.DAllow d)|].
  - eexists; split; [|rewrite (quiet_responses _ _ (quiet_emit _ _ _ _ _ _ _ _ _)); reflexivity].
    done.
  - eexists; split; [|rewrite (quiet_responses _ _ (quiet_emit _ _ _ _ _ _ _ _ _)); reflexivity].
    done.
  - eexists; split; [|reflexivity]. done.
Qed.

Lemma accounted_wake w d σ ws1 ws2 c :
  waiting σ = ws1 ++ w :: ws2 -> accounted σ ->
  accounted (mkSys (wake w d (sess σ)) (ws1 ++ ws2) (received σ) c).
Proof.
  intros Hw [Hnd Hp]. split; [done|]. unfold answered_ids, waiting_ids in *.
  cbn [sess waiting received]. destruct (responses_wake w d (sess σ)) as (resp & Hid & ->).
  rewrite <- Hp, Hw, !map_app. cbn [map]. rewrite Hid, <- app_assoc.
  apply Permutation_app_head. cbn. by rewrite Permutation_middle.
Qed.

Lemma accounted_step reuse σ σ' : accounted σ -> step reuse σ σ' -> accounted σ'.
Proof.
  intros Hacc Hs. pose proof Hacc as [Hnd Hp].
  destruct Hs as [σ req s' Hn H|σ req q h dest s' Hn H|σ ws1 w ws2 Q d Hw HQ Hd
                 |σ ws1 w ws2 Hw Hc|σ|σ o Ho _].
  - apply handler_outcome in H as (resp & Hid & t & [] & ->).
    split; [by constructor|]. unfold answered_ids, waiting_ids in *.
    cbn [sess waiting received responses respond]. rewrite map_app, quiet_responses0. cbn [map].
    rewrite <- Hp, Hid, <- app_assoc. cbn. by rewrite Permutation_middle.
  - apply handler_outcome in H as (Hid & t & tag & [] & _ & ->).
    split; [by constructor|]. unfold answered_ids, waiting_ids in *. cbn. rewrite quiet_responses0.
    rewrite <- Hp. by rewrite Permutation_middle.
  - by apply accounted_wake.
  - by apply accounted_wake.
  - done.
  - split; [done|]. unfold answered_ids. cbn [sess]. by rewrite responses_op.
Qed.

End Steps.

(** C3: in every interleaving of handlers, releases, cancellation and session
    operations, each notification the kernel delivered is either still held or has
    been answered exactly once; nothing is answered twice and nothing is answered
    that was not delivered. *)
Theorem one_answer_per_notification fs lfd rm reuse s σ :
  responses s = [] -> rtc (step fs lfd rm reuse) (init s) σ ->
  NoDup (answered_ids σ ++ waiting_ids σ) /\ answered_ids σ ++ waiting_ids σ ≡ₚ received σ.
Proof.
  intros Hs Hr. assert (accounted σ) as [Hnd Hp].
  { revert Hr. assert (accounted (init s)) as H0.
    { split; [apply NoDup_nil_2|]. unfold answered_ids, waiting_ids. cbn. by rewrite Hs. }
    intros Hr. induction Hr; [done|]. eauto using accounted_step. }
  by rewrite Hp.
Qed.

(** A run: a hold rule on [write] is installed under a tag and a write arrives. *)
Definition demo_fs : ProcFS :=
  mkProcFS (fun _ _ _ => None) (fun _ _ _ => false) (fun _ _ => Some "/data/wal").
Definition demo_session : Session :=
  NewSession "svc" (mkConfig amd64 [] true (Some 7) false None) (0, 0).
Definition demo_ready : Session :=
  apply_op (OpAddHold "t" [0%nat]) (apply_op (OpRegister "t")
    (apply_op (OpNewRules [Launch.sample "write" 5]) demo_session)).
Definition demo_req : NotifReq := mkReq 40 100 0 (mkData 1 0xC000003E 0 [3; 0; 0; 0; 0; 0]).
Definition demo_waiting : Waiting :=
  mkWaiting demo_req 0 (HoldQueue.mkHeld 40 5 "write" 100 "/data/wal") ("", 0).
Definition demo_held : Sys :=
  mkSys (handleNotification demo_fs 5 ∅ demo_req demo_ready).2 [demo_waiting] [40] false.

Lemma demo_run : rtc (step demo_fs 5 ∅ false) (init demo_session) demo_held.
Proof.
  eapply rtc_l; [apply (step_op _ _ _ _ _ (OpNewRules [Launch.sample "write" 5])); [done|by right]|].
  eapply rtc_l; [apply (step_op _ _ _ _ _ (OpRegister "t")); [done|by right]|].
  eapply rtc_l; [apply (step_op _ _ _ _ _ (OpAddHold "t" [0%nat])); [done|by right]|].
  apply rtc_once. apply (step_blocked demo_fs 5 ∅ false (mkSys demo_ready [] [] false) demo_req 0
    (HoldQueue.mkHeld 40 5 "write" 100 "/data/wal") ("", 0)); [apply not_elem_of_nil|].
  cbn [sess]. assert ((handleNotification demo_fs 5 ∅ demo_req demo_ready).1 =
    Blocked 0 (HoldQueue.mkHeld 40 5 "write" 100 "/data/wal") ("", 0)) as <-
    by (vm_compute; reflexivity).
  apply surjective_pairing.
Qed.

Lemma one_answer_per_notification_witness :
  NoDup (answered_ids demo_held ++ waiting_ids demo_held).
Proof.
  apply (one_answer_per_notification demo_fs 5 ∅ false demo_session demo_held);
    [reflexivity|exact demo_run].
Defined.

(** *** Held syscalls are never stranded *)

(** Every notification a queue was given is still there or was sent a decision. *)
Definition held_by (Q : HoldQueue.HoldQueue) : list HoldQueue.HeldNotif :=
  (HoldQueue.sent Q).*1 ++ HoldQueue.pending Q.

(** Queues only move forward: addresses stay valid, and what a queue holds or has
    answered it keeps, closed queues stay closed. *)
Definition queues_advance (qs qs' : list HoldQueue.HoldQueue) : Prop :=
  forall i Q, qs !! i = Some Q -> exists Q', qs' !! i = Some Q' /\
    held_by Q ⊆ held_by Q' /\ (HoldQueue.queue_ok Q -> HoldQueue.queue_ok Q') /\
    (HoldQueue.closed Q = true -> HoldQueue.closed Q' = true).

#[export] Instance queues_advance_preorder : PreOrder queues_advance.
Proof.
  split.
  - intros qs i Q H. exists Q. split_and!; auto.
  - intros q1 q2 q3 H12 H23 i Q H. destruct (H12 i Q H) as (Q2 & HQ2 & ? & ? & ?).
    destruct (H23 i Q2 HQ2) as (Q3 & HQ3 & ? & ? & ?). exists Q3. split_and!; auto.
    by etransitivity.
Qed.

Lemma advance_alter o q qs : queues_advance qs (alter (HoldQueue.apply o) q qs).
Proof.
  intros i Q H. destruct (decide (q = i)) as [->|Hne].
  - exists (HoldQueue.apply o Q). rewrite list_lookup_alter_eq, H. split_and!; [done| | |].
    + intros h Hh. unfold held_by in *. rewrite HoldQueue.apply_conserves, app_assoc.
      apply elem_of_app. by left.
    + apply HoldQueue.apply_ok.
    + intros Hc. apply (HoldQueue.run_closed [o] Q Hc).
  - exists Q. rewrite list_lookup_alter_ne by done. auto.
Qed.

Lemma advance_app qs l : queues_advance qs (qs ++ l).
Proof.
  intros i Q H. exists Q. split_and!; auto. apply lookup_app_l_Some. done.
Qed.

Lemma advance_close_all ps : forall qs,
  queues_advance qs (fold_left (fun qh q => alter HoldQueue.Close q qh) ps qs).
Proof.
  induction ps as [|p ps IH]; intros qs; cbn; [done|].
  etransitivity; [|apply IH]. apply (advance_alter HoldQueue.OpClose).
Qed.

Lemma advance_op o s : queues_advance (queues s) (queues (apply_op o s)).
Proof.
  destruct o; cbn; try done.
  - by destruct (index_dynamic _ _ _ _).
  - apply advance_app.
  - by destruct (index_hold _ _ _ _ _).
  - destruct (queue_of _ _); [|done]. apply (advance_alter HoldQueue.OpClose).
  - apply advance_close_all.
  - apply advance_alter.
Qed.

(** The registry: a registered tag names a queue, and a queue that is no longer
    registered has been closed. *)
Definition registry_ok (s : Session) : Prop :=
  (forall tag q, queue_of tag s = Some q -> (q < length (queues s))%nat) /\
  (forall i Q, queues s !! i = Some Q ->
     HoldQueue.closed Q = true \/ exists tag, queue_of tag s = Some i).

Lemma length_close_all ps : forall qs : list HoldQueue.HoldQueue,
  length (fold_left (fun qh q => alter HoldQueue.Close q qh) ps qs) = length qs.
Proof. induction ps as [|p ps IH]; intros qs; cbn; [done|]. by rewrite IH, length_alter. Qed.

Lemma close_all_closed (ps : list nat) : forall (qs : list HoldQueue.HoldQueue) (i : nat) Q,
  fold_left (fun qh q => alter HoldQueue.Close q qh) ps qs !! i = Some Q ->
  i ∈ ps \/ (exists Q0, qs !! i = Some Q0 /\ HoldQueue.closed Q0 = true) ->
  HoldQueue.closed Q = true.
Proof.
  assert (forall Q, HoldQueue.closed (HoldQueue.Close Q) = true) as Hcl.
  { intros Q. unfold HoldQueue.Close. by destruct (HoldQueue.closed Q) eqn:E. }
  induction ps as [|p ps IH]; intros qs i Q HQ Hi; cbn in HQ.
  { destruct Hi as [[]%not_elem_of_nil|(Q0 & H0 & Hc)]. by simplify_eq. }
  eapply IH; [exact HQ|]. destruct (decide (p = i)) as [->|Hne].
  - right. destruct (lookup_lt_is_Some_2 qs i) as [Q0 H0].
    { apply lookup_lt_Some in HQ. revert HQ.
      by rewrite length_close_all, length_alter. }
    exists (HoldQueue.Close Q0). rewrite list_lookup_alter_eq, H0. by split; [|apply Hcl].
  - destruct Hi as [[->|Hi]%elem_of_cons|(Q0 & H0 & Hc)]; [done|by left|].
    right. exists Q0. by rewrite list_lookup_alter_ne.
Qed.

Lemma registry_same s s' :
  queues s' = queues s -> holdQueues s' = holdQueues s -> registry_ok s -> registry_ok s'.
Proof. intros Hq Ht. unfold registry_ok, queue_of. by rewrite Hq, Ht. Qed.

Lemma registry_register tag s :
  queue_of tag s = None -> registry_ok s -> registry_ok (apply_op (OpRegister tag) s).
Proof.
  intros Hfresh [Hv Ho].
  assert (forall t, queue_of t (apply_op (OpRegister tag) s) =
                    if decide (t = tag) then Some (length (queues s)) else queue_of t s) as Hq.
  { intros t. cbn. unfold queue_of. cbn. case_decide as D; [subst; by rewrite lookup_insert_eq|].
    rewrite lookup_insert_ne by done. by destruct (holdQueues s). }
  split.
  - intros t q. rewrite Hq. cbn. rewrite length_app. cbn. case_decide.
    + intros [= <-]. lia.
    + intros Hq0%Hv. lia.
  - intros i Q.
    change (queues (apply_op (OpRegister tag) s)) with (queues s ++ [HoldQueue.NewHoldQueue]).
    intros [Hi|(Hle & Hi)]%lookup_app_Some.
    + destruct (Ho i Q Hi) as [|[t Ht]]; [by left|right]. exists t. rewrite Hq.
      rewrite decide_False by congruence. done.
    + apply list_lookup_singleton_Some in Hi as [Hi <-]. right. exists tag. rewrite Hq.
      rewrite decide_True by done. f_equal. lia.
Qed.

Lemma registry_remove tag s : registry_ok s -> registry_ok (apply_op (OpRemoveHold tag) s).
Proof.
  intros [Hv Ho]. cbn. unfold queue_of at 1. cbn. fold (queue_of tag s).
  destruct (queue_of tag s) as [q|] eqn:Eq; cbn; [|by split].
  assert (forall t, queue_of t (set_holdQueues (option_map (delete tag) (holdQueues s)) s) =
                    if decide (t = tag) then None else queue_of t s) as Hq.
  { intros t. unfold queue_of. cbn. destruct (holdQueues s); cbn; case_decide as D; try done.
    - subst. by rewrite lookup_delete_eq.
    - by rewrite lookup_delete_ne. }
  split.
  - intros t q' H. cbn. rewrite length_alter. apply (Hv t).
    pose proof (Hq t) as E. unfold queue_of in *. cbn in *. rewrite E in H. by case_decide.
  - intros i Q. cbn. intros Hi. destruct (decide (q = i)) as [->|Hne].
    + left. rewrite list_lookup_alter_eq in Hi. destruct (queues s !! i) as [Q0|]; [|done].
      simplify_eq/=. unfold HoldQueue.Close. by destruct (HoldQueue.closed Q0) eqn:E.
    + rewrite list_lookup_alter_ne in Hi by done. destruct (Ho i Q Hi) as [|[t Ht]]; [by left|].
      right. exists t. pose proof (Hq t) as E. unfold queue_of in *. cbn in *. rewrite E.
      rewrite decide_False by (intros ->; congruence). done.
Qed.

Lemma registry_close_all s : registry_ok s -> registry_ok (apply_op OpCloseAll s).
Proof.
  intros [Hv Ho]. split; [done|]. intros i Q Hi. left. cbn in Hi.
  assert (exists Q0, queues s !! i = Some Q0) as [Q0 H0].
  { apply lookup_lt_is_Some_2. apply lookup_lt_Some in Hi. by rewrite length_close_all in Hi. }
  eapply close_all_closed; [exact Hi|]. destruct (Ho i Q0 H0) as [Hc|[t Ht]]; [right; eauto|left].
  unfold queue_of in Ht. destruct (holdQueues s) as [m|]; [|done]. cbn.
  apply list_elem_of_fmap. exists (t, i). split; [done|]. by apply elem_of_map_to_list.
Qed.

Lemma registry_op o s : fresh_tag o s -> registry_ok s -> registry_ok (apply_op o s).
Proof.
  intros Hf Hr. destruct o as [rs|slice| |tag|tag slice|tag| |q o];
    try (by apply (registry_same s)).
  - apply (registry_same s); [| |done]; cbn; by destruct (index_dynamic _ _ _ _).
  - by apply registry_register.
  - apply (registry_same s); [| |done]; cbn; by destruct (index_hold _ _ _ _ _).
  - by apply registry_remove.
  - by apply registry_close_all.
  - destruct Hr as [Hv Ho]. split.
    + intros t q' H. cbn. rewrite length_alter. by apply (Hv t).
    + intros i Q Hi. cbn in Hi. destruct (queues s !! i) as [Q0|] eqn:H0.
      * destruct (advance_alter o q _ i Q0 H0) as (Q' & HQ' & _ & _ & Hc). simplify_eq.
        destruct (Ho i Q0 H0) as [|[t Ht]]; [left; auto|right; by exists t].
      * apply lookup_lt_Some in Hi. rewrite length_alter in Hi.
        apply lookup_ge_None in H0. lia.
Qed.

(** Every blocked handler is known to its queue. *)
Definition held_ok (σ : Sys) : Prop :=
  (forall i Q, queues (sess σ) !! i = Some Q -> HoldQueue.queue_ok Q) /\
  (forall w, w ∈ waiting σ -> exists Q,
     queues (sess σ) !! w_queue w = Some Q /\ w_held w ∈ held_by Q).

Definition queues_ok (qs : list HoldQueue.HoldQueue) : Prop :=
  forall i Q, qs !! i = Some Q -> HoldQueue.queue_ok Q.

Lemma held_ok_advance s s' ws ws' rec rec' c c' :
  queues_advance (queues s) (queues s') -> queues_ok (queues s') ->
  (forall w, w ∈ ws' -> w ∈ ws) -> held_ok (mkSys s ws rec c) -> held_ok (mkSys s' ws' rec' c').
Proof.
  intros Ha Hq Hw [Hok Hheld]. split; [exact Hq|]. intros w Hin. cbn [sess waiting] in *.
  destruct (Hheld w (Hw w Hin)) as (Q & HQ & Hh).
  destruct (Ha _ Q HQ) as (Q' & HQ' & Hsub & _). exists Q'. split; [done|by apply Hsub].
Qed.

Lemma queues_ok_alter o q qs : queues_ok qs -> queues_ok (alter (HoldQueue.apply o) q qs).
Proof.
  intros Hq i Q Hi. destruct (decide (q = i)) as [->|Hne].
  - rewrite list_lookup_alter_eq in Hi. destruct (qs !! i) as [Q0|] eqn:E; [|done].
    simplify_eq/=. by eapply HoldQueue.apply_ok, Hq.
  - rewrite list_lookup_alter_ne in Hi by done. by eapply Hq.
Qed.

Lemma queues_ok_op o s : queues_ok (queues s) -> queues_ok (queues (apply_op o s)).
Proof.
  intros Hq. destruct o as [rs|slice| |tag|tag slice|tag| |q o]; cbn; try done.
  - by destruct (index_dynamic _ _ _ _).
  - intros i Q [Hi|(_ & Hi)]%lookup_app_Some; [by eapply Hq|].
    apply list_lookup_singleton_Some in Hi as [_ <-]. done.
  - by destruct (index_hold _ _ _ _ _).
  - destruct (queue_of _ _); [|done]. by apply (queues_ok_alter HoldQueue.OpClose).
  - generalize ((map_to_list (default ∅ (holdQueues s))).*2) as ps. intros ps. revert Hq.
    generalize (queues s). induction ps as [|p ps IH]; intros qs Hq; cbn; [done|].
    by apply IH, (queues_ok_alter HoldQueue.OpClose).
  - by apply queues_ok_alter.
Qed.

Lemma queues_wake w d s : queues (wake w d s) = queues s /\ holdQueues (wake w d s) = holdQueues s.
Proof.
  unfold wake, resume_held. destruct d as [d|]; [destruct (HoldQueue.DAllow d)|done];
    (split; [rewrite (quiet_queues _ _ (quiet_emit _ _ _ _ _ _ _ _ _))
            |rewrite (quiet_tags _ _ (quiet_emit _ _ _ _ _ _ _ _ _))]); done.
Qed.

Lemma Enqueue_held h Q : h ∈ held_by (HoldQueue.Enqueue h Q).
Proof.
  unfold held_by. change (HoldQueue.Enqueue h Q) with (HoldQueue.apply (HoldQueue.OpEnqueue h) Q).
  rewrite HoldQueue.apply_conserves. cbn. set_solver.
Qed.

Definition live (σ : Sys) : Prop := registry_ok (sess σ) /\ held_ok σ.

Lemma live_wake w d σ ws1 ws2 c :
  waiting σ = ws1 ++ w :: ws2 -> live σ ->
  live (mkSys (wake w d (sess σ)) (ws1 ++ ws2) (received σ) c).
Proof.
  intros Hw [Hr Hh]. destruct (queues_wake w d (sess σ)) as [Hq Ht]. split.
  - by apply (registry_same (sess σ)).
  - destruct σ as [s ws rec c']. cbn in *. subst ws.
    apply (held_ok_advance s _ (ws1 ++ w :: ws2) _ rec _ c'); [by rewrite Hq| | |done].
    + rewrite Hq. exact (proj1 Hh).
    + intros x. rewrite !elem_of_app, elem_of_cons. tauto.
Qed.

Lemma live_answered fs lfd rm req σ s' c :
  handleNotification fs lfd rm req (sess σ) = (Answered, s') -> live σ ->
  live (mkSys s' (waiting σ) (ID req :: received σ) c).
Proof.
  intros (resp & _ & t & Hq & ->)%handler_outcome [Hr Hh]. split.
  - apply (registry_same (sess σ)); [apply Hq|apply Hq|done].
  - destruct σ as [s ws rec c']. cbn [sess waiting received] in *.
    assert (queues (respond resp t) = queues s) as E by apply Hq.
    apply (held_ok_advance s _ ws _ rec _ c'); rewrite ?E; [done|exact (proj1 Hh)|done|done].
Qed.

Lemma live_blocked fs lfd rm req q h dest σ s' c :
  handleNotification fs lfd rm req (sess σ) = (Blocked q h dest, s') -> live σ ->
  live (mkSys s' (mkWaiting req q h dest :: waiting σ) (ID req :: received σ) c).
Proof.
  intros (_ & t & tag & Hq & Htag & ->)%handler_outcome [[Hv Ho] Hh].
  destruct σ as [s ws rec c']. cbn [sess waiting received] in *.
  set (s' := set_queues _ t).
  assert (queues s' = alter (HoldQueue.apply (HoldQueue.OpEnqueue h)) q (queues s)) as E.
  { unfold s'. cbn. by rewrite (quiet_queues _ _ Hq). }
  assert (forall tg, queue_of tg s' = queue_of tg s) as Et
    by (intros tg; apply (quiet_queue_of tg _ _ Hq)).
  clearbody s'.
  destruct (lookup_lt_is_Some_2 (queues s) q (Hv _ _ Htag)) as [Q HQ].
  split; [split|]; cbn [sess].
  - intros tg q'. rewrite Et, E, length_alter. apply Hv.
  - intros i Q' Hi. rewrite E in Hi. destruct (decide (q = i)) as [->|Hne].
    { right. exists tag. by rewrite Et. }
    rewrite list_lookup_alter_ne in Hi by done.
    destruct (Ho i Q' Hi) as [|[tg Htg]]; [by left|right; exists tg; by rewrite Et].
  - assert (held_ok (mkSys s' ws rec c)) as [Hok Hheld].
    { apply (held_ok_advance s _ ws _ rec _ c'); rewrite ?E; try done.
      - apply advance_alter.
      - apply queues_ok_alter. exact (proj1 Hh). }
    split; [done|]. cbn [sess waiting] in *. intros w [->|Hw]%elem_of_cons; [|by apply Hheld].
    exists (HoldQueue.Enqueue h Q). cbn [w_queue w_held]. split; [|apply Enqueue_held].
    by rewrite E, list_lookup_alter_eq, HQ.
Qed.

Lemma live_step fs lfd rm σ σ' : live σ -> step fs lfd rm false σ σ' -> live σ'.
Proof.
  intros Hl Hs. destruct Hs as [σ req s' Hn H|σ req q h dest s' Hn H|σ ws1 w ws2 Q d Hw HQ Hd
                 |σ ws1 w ws2 Hw Hc|σ|σ o Ho Hf].
  - by eapply live_answered.
  - by eapply live_blocked.
  - by apply live_wake.
  - by apply live_wake.
  - exact Hl.
  - destruct Hl as [Hr Hh]. destruct Hf as [|Hf]; [done|]. split; cbn [sess].
    + by apply registry_op.
    + destruct σ as [s ws rec c]. cbn in *.
      apply (held_ok_advance s _ ws _ rec _ c); [apply advance_op| |done|done].
      apply queues_ok_op. exact (proj1 Hh).
Qed.

(** C38: as long as no tag that is still in use is registered again, closing all
    hold queues leaves no held syscall stranded: every handler blocked in any
    reachable state then has a decision waiting for it, and can take the step that
    answers its notification. *)
Theorem close_all_releases_every_handler fs lfd rm s σ w :
  queues s = [] -> holdQueues s = None ->
  rtc (step fs lfd rm false) (init s) σ -> w ∈ waiting σ ->
  let s' := apply_op OpCloseAll (sess σ) in
  exists Q d ws1 ws2, queues s' !! w_queue w = Some Q /\ (w_held w, d) ∈ HoldQueue.sent Q /\
    waiting σ = ws1 ++ w :: ws2 /\
    step fs lfd rm false (mkSys s' (waiting σ) (received σ) (cancelled σ))
      (mkSys (wake w (Some d) s') (ws1 ++ ws2) (received σ) (cancelled σ)).
Proof.
  intros Hq Ht Hrun Hw s'.
  assert (live σ) as Hl.
  { assert (live (init s)) as H0.
    { split; split; unfold queue_of; cbn; rewrite ?Hq, ?Ht; try done.
      intros x []%not_elem_of_nil. }
    revert H0 Hrun. generalize (init s). intros σ0 H0 Hrun.
    induction Hrun; [done|]. eauto using live_step. }
  assert (live (mkSys s' (waiting σ) (received σ) (cancelled σ))) as [Hr' [Hok' Hheld']].
  { apply (live_step fs lfd rm σ); [exact Hl|]. apply step_op; [done|by right]. }
  destruct (Hheld' w Hw) as (Q & HQ & Hin). cbn [sess waiting] in *.
  destruct (proj2 Hr' _ _ HQ) as [Hc|[tg Htg]]; [|done].
  unfold held_by in Hin. rewrite (Hok' _ _ HQ Hc), app_nil_r in Hin.
  apply list_elem_of_fmap in Hin as ([h d] & Hh & Hd). cbn in Hh.
  apply list_elem_of_split in Hw as (ws1 & ws2 & Hsplit).
  exists Q, d, ws1, ws2. rewrite Hh. split_and!; [done..|].
  apply (step_released fs lfd rm false (mkSys s' (waiting σ) (received σ) (cancelled σ))
           ws1 w ws2 Q d Hsplit HQ). by rewrite Hh.
Qed.

Lemma close_all_releases_every_handler_witness :
  exists Q d, queues (apply_op OpCloseAll (sess demo_held)) !! 0%nat = Some Q /\
              (w_held demo_waiting, d) ∈ HoldQueue.sent Q.
Proof.
  destruct (close_all_releases_every_handler demo_fs 5 ∅ demo_session demo_held demo_waiting)
    as (Q & d & _ & _ & HQ & Hd & _); [reflexivity|reflexivity|exact demo_run|by left|].
  by exists Q, d.
Defined.

(** Registering a tag again while it is in use takes the old queue out of the
    registry: its held syscall gets no decision when all queues are closed. *)
Example reused_tag_strands :
  match queues (apply_op OpCloseAll (apply_op (OpRegister "t") (sess demo_held))) with
  | [old; new] => HoldQueue.pending old = [w_held demo_waiting] /\ HoldQueue.sent old = [] /\
                  HoldQueue.closed new = true
  | _ => False
  end.
Proof. vm_compute. done. Qed.

End System.

(** ** The notification loop and its supervisor *)

Module Loop.
Import Notification System.

(** An error as [errors.Is] sees it: the listener-closed sentinel or an errno. *)
Inductive LoopErr := ErrListenerClosed | ErrErrno (n : Z).

Definition ENOENT : Z := 2.
Definition EBADF : Z := 9.
Definition EPIPE : Z := 32.

Definition isClosedFdErr (e : LoopErr) : bool :=
  match e with ErrListenerClosed => true | ErrErrno n => (n =? EBADF) || (n =? EPIPE) end.

Definition isDroppedNotifErr (e : LoopErr) : bool :=
  match e with ErrListenerClosed => false | ErrErrno n => n =? ENOENT end.

Definition isBenignRespondErr (e : LoopErr) : bool := isClosedFdErr e || isDroppedNotifErr e.

(** What one iteration of the loop meets. *)
Inductive Poll := PollErr (e : LoopErr) | PollIdle | PollReady (recv : result LoopErr NotifReq).

Record Iteration := mkIter { ctx_done : bool; stop_closed : bool; polled : Poll }.

(** Why the loop returned. *)
Inductive Exit := ExitCtx | ExitStop | ExitClosed | ExitPoll (e : LoopErr) | ExitReceive (e : LoopErr).

(** One iteration: return, or go on, perhaps with a request for a new handler and
    with the count of dropped notifications. *)
Definition iterate (it : Iteration) (dropped : Z) : Exit + (option NotifReq * Z) :=
  if ctx_done it then inl ExitCtx
  else if stop_closed it then inl ExitStop
  else match polled it with
       | PollErr e => inl (if isClosedFdErr e then ExitClosed else ExitPoll e)
       | PollIdle => inr (None, dropped)
       | PollReady (Err e) =>
           if isDroppedNotifErr e then inr (None, i64 (dropped + 1))
           else inl (if isClosedFdErr e then ExitClosed else ExitReceive e)
       | PollReady (Ok req) => inr (Some req, dropped)
       end.

(** [notificationLoop] over what it meets: the exit when it returned, the requests
    it started a handler for, and the dropped count. *)
Fixpoint notificationLoop (its : list Iteration) (dropped : Z)
    : option Exit * list NotifReq * Z :=
  match its with
  | [] => (None, [], dropped)
  | it :: its =>
      match iterate it dropped with
      | inl e => (Some e, [], dropped)
      | inr (r, dropped) =>
          let '(e, reqs, dropped) := notificationLoop its dropped in
          (e, option_list r ++ reqs, dropped)
      end
  end.

(** What [checkSupervisorExit] sees: whether teardown was asked for when the loop
    returned, then one sample per poll until the grace period is over. *)
Record Sample := mkSample { alive : bool; teardown : bool }.

Fixpoint stranded (samples : list Sample) : bool :=
  match samples with
  | [] => true
  | x :: xs => if negb (alive x) then false else if teardown x then false else stranded xs
  end.

Definition checkSupervisorExit (asked : bool) (samples : list Sample) (loopErr : string)
    (s : Session) : Session :=
  if asked then s
  else if stranded samples
  then noteSupervisorExit (if String.eqb loopErr "" then "loop returned without an error"
                           else loopErr) s
  else s.

(** Nothing asked the loop to stop and the listener works; a notification may be
    gone by the time it is received. *)
Definition survivable (it : Iteration) : Prop :=
  ctx_done it = false /\ stop_closed it = false /\
  match polled it with
  | PollErr _ => False
  | PollReady (Err e) => e = ErrErrno ENOENT
  | _ => True
  end.

Definition request_of (it : Iteration) : option NotifReq :=
  match polled it with PollReady (Ok r) => Some r | _ => None end.

Definition is_drop (it : Iteration) : bool :=
  match polled it with PollReady (Err _) => true | _ => false end.

Definition drops (its : list Iteration) : Z := Z.of_nat (length (List.filter is_drop its)).

Lemma loop_runs its : forall dropped,
  Forall survivable its -> 0 <= dropped -> dropped + Z.of_nat (length its) < 2 ^ 63 ->
  notificationLoop its dropped = (None, omap request_of its, dropped + drops its).
Proof.
  unfold drops. induction its as [|it its IH]; intros dropped Hs H0 Hb.
  { cbn. by rewrite Z.add_0_r. }
  apply Forall_cons_iff in Hs as [(Hc & Hst & Hp) Hs]. cbn [length] in Hb.
  cbn [notificationLoop]. unfold iterate. rewrite Hc, Hst. csimpl. unfold request_of, is_drop.
  destruct (polled it) as [e| |[r|e]]; cbn [option_list app]; [done| | |].
  - rewrite IH by (done || lia). done.
  - rewrite IH by (done || lia). done.
  - subst e. change (isDroppedNotifErr (ErrErrno ENOENT)) with true. cbv iota.
    rewrite wrap_s_small by lia. rewrite IH by (done || lia).
    cbn [length app option_list]. f_equal. unfold is_drop. lia.
Qed.

Lemma notificationLoop_app its1 : forall its2 dropped reqs d,
  notificationLoop its1 dropped = (None, reqs, d) ->
  notificationLoop (its1 ++ its2) dropped =
    let '(e, reqs', d') := notificationLoop its2 d in (e, reqs ++ reqs', d').
Proof.
  induction its1 as [|it its1 IH]; intros its2 dropped reqs d H; cbn in H |- *.
  { simplify_eq. by destruct (notificationLoop its2 d) as [[]]. }
  destruct (iterate it dropped) as [e|[r d1]]; [done|].
  destruct (notificationLoop its1 d1) as [[e1 reqs1] d1'] eqn:E. simplify_eq.
  erewrite IH by done. destruct (notificationLoop its2 d) as [[]]. by rewrite app_assoc.
Qed.

(** the loop keeps supervising until something ends it.  However many
    notifications the kernel dropped before they were received, every request that
    is received is handed to a handler, in order, the drops are counted, and the
    loop returns exactly when the context is cancelled, the stop channel is closed,
    the listener is gone or another error occurs. *)
Theorem loop_serves_until_ended its it rest :
  Forall survivable its -> Z.of_nat (length its) < 2 ^ 63 -> ~ survivable it ->
  exists e, notificationLoop (its ++ it :: rest) 0 = (Some e, omap request_of its, drops its) /\
    (e = ExitCtx <-> ctx_done it = true) /\
    (e = ExitStop <-> ctx_done it = false /\ stop_closed it = true).
Proof.
  intros Hs Hb Hn. rewrite (notificationLoop_app its (it :: rest) 0 (omap request_of its) (drops its)).
  2: { rewrite loop_runs by (done || lia). done. }
  cbn [notificationLoop]. unfold iterate, survivable in *.
  destruct (ctx_done it); [exists ExitCtx; rewrite app_nil_r; naive_solver|].
  destruct (stop_closed it); [exists ExitStop; rewrite app_nil_r; naive_solver|].
  destruct (polled it) as [e| |[r|e]]; [| naive_solver | naive_solver |].
  - destruct (isClosedFdErr e); eexists; rewrite app_nil_r; naive_solver.
  - destruct (isDroppedNotifErr e) eqn:E.
    + destruct e as [|n]; [done|]. apply Z.eqb_eq in E as ->. naive_solver.
    + destruct (isClosedFdErr e); eexists; rewrite app_nil_r; naive_solver.
Qed.

Lemma loop_serves_until_ended_witness :
  exists e, notificationLoop
      [mkIter false false (PollReady (Err (ErrErrno ENOENT)));
       mkIter false false (PollReady (Ok demo_req));
       mkIter false false (PollErr ErrListenerClosed)] 0 = (Some e, [demo_req], 1).
Proof.
  destruct (loop_serves_until_ended
    [mkIter false false (PollReady (Err (ErrErrno ENOENT)));
     mkIter false false (PollReady (Ok demo_req))]
    (mkIter false false (PollErr ErrListenerClosed)) []) as (e & He & _).
  - repeat constructor.
  - by vm_compute.
  - by intros (_ & _ & []).
  - exists e. exact He.
Defined.

End Loop.
