(* ===== verification/NetRule.v ===== *)
(** * Packet fault rules ([internal/netfault/rule.go], [match.go] and the parts of
    [packetview.go] that do not touch a packet buffer)

    The parsed view of a packet, the declarative matcher with its escape hatch,
    the stateful rule gates, and the first-match walk over a rule set.  A rule's
    counters change as the walk passes it, so the walk returns the rules.  The
    pseudo-random source the walk is handed is the class [RandSource]. *)

From stdpp Require Import base sets strings list numbers pretty.
From Stdlib Require Import ZArith Lia SpecFloat Ascii.
From S2P Require Import Prelude GoStd.
Import GoStd.
Local Open Scope Z_scope.

Module PacketView.

Inductive Direction := DirC2S | DirS2C | DirBoth.

#[export] Instance Direction_eq_dec : EqDecision Direction.
Proof. solve_decision. Defined.

Definition Direction_String (d : Direction) : string :=
  match d with DirC2S => "c2s" | _ => "s2c" end.

Definition ParseDirection (s : string) : option Direction :=
  if String.eqb s "c2s" then Some DirC2S
  else if String.eqb s "s2c" then Some DirS2C else None.

(** The TCP header's flag bits. *)
Definition FlagFIN : Z := 0x01.
Definition FlagSYN : Z := 0x02.
Definition FlagRST : Z := 0x04.
Definition FlagPSH : Z := 0x08.
Definition FlagACK : Z := 0x10.
Definition FlagURG : Z := 0x20.
Definition FlagECE : Z := 0x40.
Definition FlagCWR : Z := 0x80.

Definition flagNames : list (Z * string) :=
  [ (FlagFIN, "FIN"); (FlagSYN, "SYN"); (FlagRST, "RST"); (FlagPSH, "PSH");
    (FlagACK, "ACK"); (FlagURG, "URG"); (FlagECE, "ECE"); (FlagCWR, "CWR") ].

Fixpoint flag_named (name : string) (t : list (Z * string)) : option Z :=
  match t with
  | [] => None
  | (bit, n) :: t => if String.eqb n name then Some bit else flag_named name t
  end.

Definition ParseFlagName (s : string) : option Z :=
  flag_named (to_upper (trim_space s)) flagNames.

Definition FlagNames (flags : Z) : list string :=
  omap (fun f => if Z.land flags f.1 =? 0 then None else Some f.2) flagNames.

Definition ProtoTCP : string := "tcp".
Definition ProtoUDP : string := "udp".
Definition ProtoICMP : string := "icmp".
Definition ProtoOther : string := "other".

Record PacketView := mkView {
  Proto : string; Dir : Direction;
  SrcIP : string; DstIP : string; SrcPort : Z; DstPort : Z;
  PayloadLen : Z; Payload : list Z;
  Flags : Z; Seq : Z; Ack : Z; Window : Z;
  Index : Z; Flow : string }.

Definition set_Index (i : Z) (p : PacketView) : PacketView :=
  mkView (Proto p) (Dir p) (SrcIP p) (DstIP p) (SrcPort p) (DstPort p) (PayloadLen p)
    (Payload p) (Flags p) (Seq p) (Ack p) (Window p) i (Flow p).

Definition set_Flow (f : string) (p : PacketView) : PacketView :=
  mkView (Proto p) (Dir p) (SrcIP p) (DstIP p) (SrcPort p) (DstPort p) (PayloadLen p)
    (Payload p) (Flags p) (Seq p) (Ack p) (Window p) (Index p) f.

Definition HasFlags (p : PacketView) (mask : Z) : bool := Z.land (Flags p) mask =? mask.

(** [PacketView.String]. *)
Definition View_String (p : PacketView) : string :=
  let dir := Direction_String (Dir p) in
  let src := SrcIP p +:+ ":" +:+ show_Z (SrcPort p) in
  let dst := DstIP p +:+ ":" +:+ show_Z (DstPort p) in
  if String.eqb (Proto p) ProtoTCP then
    dir +:+ " tcp " +:+ src +:+ "->" +:+ dst +:+ " flags=" +:+ sjoin "|" (FlagNames (Flags p))
      +:+ " seq=" +:+ show_Z (Seq p) +:+ " win=" +:+ show_Z (Window p)
      +:+ " len=" +:+ show_Z (PayloadLen p)
  else if String.eqb (Proto p) ProtoUDP then
    dir +:+ " udp " +:+ src +:+ "->" +:+ dst +:+ " len=" +:+ show_Z (PayloadLen p)
  else dir +:+ " " +:+ Proto p +:+ " " +:+ SrcIP p +:+ "->" +:+ DstIP p
         +:+ " len=" +:+ show_Z (PayloadLen p).

Definition maxPayloadCapture : nat := 4096.

Definition clampPayload (b : list Z) : list Z :=
  if (maxPayloadCapture <? length b)%nat then take maxPayloadCapture b else b.

(** [writeUint] fills a buffer from its end; [digits] is what it has filled so
    far.  Twenty digits hold any 64-bit value. *)
Fixpoint write_digits (fuel : nat) (v : Z) (digits : string) : string :=
  match fuel with
  | O => digits
  | S fuel =>
      let digits := String (ascii_of_N (Z.to_N (48 + v mod 10))) digits in
      if v / 10 =? 0 then digits else write_digits fuel (v / 10) digits
  end.

Definition writeUint (v : Z) : string := write_digits 20 v "".

(** Go compares strings bytewise. *)
Definition flowID (p : PacketView) : string :=
  let swap := str_lt (DstIP p) (SrcIP p) ||
              (String.eqb (SrcIP p) (DstIP p) && (DstPort p <? SrcPort p)) in
  let '(lo, loPort, hi, hiPort) :=
    if swap then (DstIP p, DstPort p, SrcIP p, SrcPort p)
    else (SrcIP p, SrcPort p, DstIP p, DstPort p) in
  Proto p +:+ "|" +:+ lo +:+ ":" +:+ writeUint loPort +:+ "-" +:+ hi +:+ ":" +:+ writeUint hiPort.

Example flow_ex :
  flowID (mkView "tcp" DirC2S "10.0.0.2" "10.0.0.1" 50000 5432 0 [] 0 0 0 0 0 "") =
    "tcp|10.0.0.1:5432-10.0.0.2:50000".
Proof. vm_compute. reflexivity. Qed.

(** *** Flow identifiers *)

Lemma digit_char d : (d < 10)%N -> ascii_of_N (48 + d) = pretty_N_char d.
Proof.
  intros Hd. assert (d ∈ [0; 1; 2; 3; 4; 5; 6; 7; 8; 9]%N) as Hin.
  { assert (d = 0 \/ d = 1 \/ d = 2 \/ d = 3 \/ d = 4 \/ d = 5 \/ d = 6 \/ d = 7 \/ d = 8 \/ d = 9)%N
      by lia. set_solver. }
  revert d Hin Hd. assert (Forall (fun d => ascii_of_N (48 + d) = pretty_N_char d)
    [0; 1; 2; 3; 4; 5; 6; 7; 8; 9]%N) as HF by (by apply (bool_decide_unpack _); vm_compute).
  intros d Hin _. by apply (proj1 (Forall_forall _ _) HF).
Qed.

Lemma write_digits_pretty fuel : forall n s,
  (0 < n)%N -> Z.of_N n < 10 ^ Z.of_nat fuel ->
  write_digits fuel (Z.of_N n) s = pretty_N_go n s.
Proof.
  induction fuel as [|fuel IH]; intros n s Hn Hb; [cbn in Hb; lia|].
  rewrite Nat2Z.inj_succ, Z.pow_succ_r in Hb by lia. cbn [write_digits].
  rewrite pretty_N_go_step by done.
  replace (48 + Z.of_N n mod 10) with (Z.of_N (48 + n mod 10)) by (rewrite N2Z.inj_add, N2Z.inj_mod; lia).
  rewrite N2Z.id, digit_char by (apply N.mod_lt; lia).
  change 10 with (Z.of_N 10) at 1 2. rewrite <- N2Z.inj_div.
  destruct (Z.eqb_spec (Z.of_N (n / 10)) 0) as [E|E].
  - apply (N2Z.inj _ 0) in E. by rewrite E, pretty_N_go_0.
  - apply IH; [|rewrite N2Z.inj_div; apply Z.div_lt_upper_bound; lia].
    apply N.neq_0_lt_0. intros E'. apply E. by rewrite E'.
Qed.

(** The hand-written decimal writer prints what [%d] prints. *)
Lemma writeUint_show v : 0 <= v < 2 ^ 64 -> writeUint v = show_Z v.
Proof.
  intros Hv. unfold writeUint. destruct (decide (v = 0)) as [->|Hne]; [done|].
  rewrite show_Z_nonneg by lia. replace v with (Z.of_N (Z.to_N v)) at 1 by lia.
  rewrite write_digits_pretty by lia. unfold pretty, pretty_N.
  rewrite decide_False by lia. done.
Qed.

(** An address as [String] of an IPv4 address prints it, and a known protocol. *)
Definition ip_char (c : ascii) : bool := is_digit_char c || Ascii.eqb c ".".

Record view_ok (p : PacketView) : Prop := {
  ok_proto : Proto p ∈ [ProtoTCP; ProtoUDP; ProtoICMP; ProtoOther];
  ok_src : sall ip_char (SrcIP p) = true;
  ok_dst : sall ip_char (DstIP p) = true;
  ok_sport : 0 <= SrcPort p < 2 ^ 16;
  ok_dport : 0 <= DstPort p < 2 ^ 16 }.

Definition flow_text (proto lo : string) (loPort : Z) (hi : string) (hiPort : Z) : string :=
  proto +:+ "|" +:+ lo +:+ ":" +:+ show_Z loPort +:+ "-" +:+ hi +:+ ":" +:+ show_Z hiPort.

Lemma show_Z_inj a b : 0 <= a -> 0 <= b -> show_Z a = show_Z b -> a = b.
Proof.
  intros Ha Hb E. pose proof (show_Z_value a Ha) as H1. pose proof (show_Z_value b Hb) as H2.
  rewrite E in H1. congruence.
Qed.

Lemma sall_is_not f c s : sall f s = true -> f c = false -> sall (is_not c) s = true.
Proof.
  intros Hs Hc. apply (sall_impl f); [|done]. intros d Hd. unfold is_not.
  destruct (Ascii.eqb_spec d c) as [->|]; [congruence|done].
Qed.

(** Splitting two equal texts at a separator neither left part contains. *)
Lemma split_at_sep sep a b a' b' :
  sall (is_not sep) a = true -> sall (is_not sep) a' = true ->
  a +:+ String sep b = a' +:+ String sep b' -> a = a' /\ b = b'.
Proof.
  intros Ha Ha' E. pose proof (scut_app sep a b Ha) as H1. pose proof (scut_app sep a' b' Ha') as H2.
  rewrite E in H1. rewrite H1 in H2. by simplify_eq.
Qed.

Lemma flow_text_inj proto lo lp hi hp proto' lo' lp' hi' hp' :
  proto ∈ [ProtoTCP; ProtoUDP; ProtoICMP; ProtoOther] ->
  proto' ∈ [ProtoTCP; ProtoUDP; ProtoICMP; ProtoOther] ->
  sall ip_char lo = true -> sall ip_char lo' = true ->
  sall ip_char hi = true -> sall ip_char hi' = true ->
  0 <= lp -> 0 <= lp' -> 0 <= hp -> 0 <= hp' ->
  flow_text proto lo lp hi hp = flow_text proto' lo' lp' hi' hp' ->
  proto = proto' /\ lo = lo' /\ lp = lp' /\ hi = hi' /\ hp = hp'.
Proof.
  intros Hp Hp' Hlo Hlo' Hhi Hhi' H1 H2 H3 H4 E. unfold flow_text in E.
  assert (forall q, q ∈ [ProtoTCP; ProtoUDP; ProtoICMP; ProtoOther] -> sall (is_not "|") q = true)
    as Hbar. { intros q Hq. set_unfold in Hq. destruct_or? Hq; by subst. }
  pose proof (show_Z_digits lp H1). pose proof (show_Z_digits lp' H2).
  apply (split_at_sep "|") in E as [-> E]; [|by apply Hbar..].
  apply (split_at_sep ":") in E as [-> E]; [|by apply (sall_is_not ip_char)..].
  apply (split_at_sep "-") in E as [E1 E]; [|by apply (sall_is_not is_digit_char)..].
  apply (split_at_sep ":") in E as [-> E]; [|by apply (sall_is_not ip_char)..].
  apply show_Z_inj in E1, E; [|done..]. by subst.
Qed.

Lemma str_lt_flip a b : a <> b -> str_lt a b = negb (str_lt b a).
Proof.
  intros Hne. unfold str_lt, String.ltb. rewrite (String.compare_antisym a b).
  destruct (String.compare b a) eqn:E; try done. by apply String.compare_eq_iff in E.
Qed.

Lemma str_lt_irrefl a : str_lt a a = false.
Proof.
  unfold str_lt, String.ltb. pose proof (String.compare_antisym a a) as H.
  by destruct (String.compare a a).
Qed.

(** The ordered endpoints the identifier is built from. *)
Definition ordered (a : string * Z) (b : string * Z) : (string * Z) * (string * Z) :=
  if str_lt b.1 a.1 || (String.eqb a.1 b.1 && (b.2 <? a.2)) then (b, a) else (a, b).

Lemma ordered_comm a b : ordered a b = ordered b a.
Proof.
  destruct a as [x i], b as [y j]. unfold ordered. cbn [fst snd].
  destruct (String.eqb_spec x y) as [->|Hne].
  - rewrite String.eqb_refl, str_lt_irrefl. cbn.
    destruct (Z.ltb_spec j i), (Z.ltb_spec i j); try done; [lia|]. by replace i with j by lia.
  - rewrite (str_lt_flip x y) by done.
    destruct (String.eqb_spec y x); [congruence|]. by destruct (str_lt y x).
Qed.

Lemma ordered_cases a b : ordered a b = (a, b) \/ ordered a b = (b, a).
Proof. unfold ordered. case_match; auto. Qed.

Definition src (p : PacketView) : string * Z := (SrcIP p, SrcPort p).
Definition dst (p : PacketView) : string * Z := (DstIP p, DstPort p).

Lemma flowID_text p : view_ok p ->
  flowID p = let '((lo, lp), (hi, hp)) := ordered (src p) (dst p) in
             flow_text (Proto p) lo lp hi hp.
Proof.
  intros []. unfold flowID, ordered, src, dst, flow_text. cbn [fst snd].
  destruct (str_lt (DstIP p) (SrcIP p) || _);
    rewrite (writeUint_show (SrcPort p)), (writeUint_show (DstPort p)) by lia; done.
Qed.

(** The identifier does not depend on the direction. *)
Lemma flowID_swap p q :
  Proto p = Proto q -> src p = dst q -> dst p = src q -> flowID p = flowID q.
Proof.
  intros Ep Es Ed.
  assert (forall v, flowID v = let '((lo, lp), (hi, hp)) := ordered (src v) (dst v) in
    Proto v +:+ "|" +:+ lo +:+ ":" +:+ writeUint lp +:+ "-" +:+ hi +:+ ":" +:+ writeUint hp) as E.
  { intros v. unfold flowID, ordered, src, dst. cbn [fst snd]. by destruct (str_lt _ _ || _). }
  rewrite !E, Es, Ed, Ep, ordered_comm. done.
Qed.

(** a flow identifier names a conversation: two packets get the same
    identifier exactly when they have the same protocol and the same two
    endpoints, in either direction. *)
Theorem flowID_identifies_conversation p q :
  view_ok p -> view_ok q ->
  flowID p = flowID q <->
  Proto p = Proto q /\ (src p = src q /\ dst p = dst q \/ src p = dst q /\ dst p = src q).
Proof.
  intros Hp Hq. rewrite !flowID_text by done. split.
  - intros E. destruct Hp as [? ? ? ? ?], Hq as [? ? ? ? ?].
    destruct (ordered_cases (src p) (dst p)) as [E1|E1],
      (ordered_cases (src q) (dst q)) as [E2|E2]; rewrite E1, E2 in E; unfold src, dst in *;
      apply flow_text_inj in E as (Ep & Ei & Ej & Ek & El); try done; try lia;
      rewrite Ep, Ei, Ej, Ek, El; auto.
  - intros [-> [[-> ->]|[-> ->]]]; [done|]. by rewrite ordered_comm.
Qed.

Lemma flowID_identifies_conversation_witness :
  flowID (mkView "tcp" DirC2S "10.0.0.2" "10.0.0.1" 50000 5432 0 [] 0 0 0 0 0 "") =
  flowID (mkView "tcp" DirS2C "10.0.0.1" "10.0.0.2" 5432 50000 9 [] 0 0 0 0 0 "").
Proof.
  apply (flowID_identifies_conversation
    (mkView "tcp" DirC2S "10.0.0.2" "10.0.0.1" 50000 5432 0 [] 0 0 0 0 0 "")
    (mkView "tcp" DirS2C "10.0.0.1" "10.0.0.2" 5432 50000 9 [] 0 0 0 0 0 "")).
  - constructor; [by left|done|done|done|done].
  - constructor; [by left|done|done|done|done].
  - split; [done|]. by right.
Defined.

End PacketView.

Module Match.
Import PacketView.

Record Match := mkMatch {
  MDir : option Direction; MProto : string; FlagsSet : Z; FlagsClear : Z; MPort : Z;
  MDstIP : string; MLen : option Z; MLenGT : option Z; MLenLT : option Z;
  PayloadPrefix : list Z; PayloadContains : list Z; Where : option (PacketView -> bool) }.

Fixpoint bytes_prefix (pre l : list Z) : bool :=
  match pre, l with
  | [], _ => true
  | x :: pre, y :: l => (x =? y) && bytes_prefix pre l
  | _ :: _, [] => false
  end.

Fixpoint bytes_contain (sub l : list Z) : bool :=
  bytes_prefix sub l || match l with [] => false | _ :: l => bytes_contain sub l end.

Definition matchesDeclarative (m : Match) (p : PacketView) : bool :=
  (match MDir m with Some d => bool_decide (d = Dir p) | None => true end) &&
  (String.eqb (MProto m) "" || String.eqb (MProto m) (Proto p)) &&
  ((FlagsSet m =? 0) || (Z.land (Flags p) (FlagsSet m) =? FlagsSet m)) &&
  ((FlagsClear m =? 0) || (Z.land (Flags p) (FlagsClear m) =? 0)) &&
  ((MPort m =? 0) || (DstPort p =? MPort m)) &&
  (String.eqb (MDstIP m) "" || String.eqb (DstIP p) (MDstIP m)) &&
  (match MLen m with Some n => PayloadLen p =? n | None => true end) &&
  (match MLenGT m with Some n => n <? PayloadLen p | None => true end) &&
  (match MLenLT m with Some n => PayloadLen p <? n | None => true end) &&
  ((length (PayloadPrefix m) =? 0)%nat || bytes_prefix (PayloadPrefix m) (Payload p)) &&
  ((length (PayloadContains m) =? 0)%nat || bytes_contain (PayloadContains m) (Payload p)).

(** The second component counts the calls of the escape hatch. *)
Definition Matches (m : Match) (p : PacketView) (evals : Z) : bool * Z :=
  if matchesDeclarative m p then
    match Where m with
    | Some f => (f p, i64 (evals + 1))
    | None => (true, evals)
    end
  else (false, evals).

Definition UsesWhere (m : Match) : bool := match Where m with Some _ => true | None => false end.

Inductive FlagErr := UnknownFlag (p : string) | ConflictingFlags.

Fixpoint flag_parts (parts : list string) (set clear : Z) : result FlagErr (Z * Z) :=
  match parts with
  | [] => Ok (set, clear)
  | part :: parts =>
      let p := trim_space part in
      if String.eqb p "" then flag_parts parts set clear
      else
        let negate := has_prefix "!" p in
        let p := if negate then trim_space (sdrop 1 p) else p in
        match ParseFlagName p with
        | None => Err (UnknownFlag p)
        | Some bit => if negate then flag_parts parts set (Z.lor clear bit)
                      else flag_parts parts (Z.lor set bit) clear
        end
  end.

Definition ParseFlagSpec (spec : string) : result FlagErr (Z * Z) :=
  if String.eqb (trim_space spec) "" then Ok (0, 0)
  else
    let? sc := flag_parts (split_all "," spec) 0 0 in
    if Z.land sc.1 sc.2 =? 0 then Ok sc else Err ConflictingFlags.

Example flag_spec_ex :
  (ParseFlagSpec "ACK,!SYN", ParseFlagSpec " psh , ack", ParseFlagSpec "SYN,!SYN",
   ParseFlagSpec "foo") =
  (Ok (16, 2), Ok (24, 0), Err ConflictingFlags, Err (UnknownFlag "foo")).
Proof. vm_compute. reflexivity. Qed.

(** The text of a pair of masks. *)
Definition flag_text (set clear : Z) : string :=
  sjoin "," (FlagNames set ++ map (fun n => "!" +:+ n) (FlagNames clear)).

(** The flags of a mask. *)
Definition flags_of (f : Z) : list (Z * string) :=
  List.filter (fun x => negb (Z.land f x.1 =? 0)) flagNames.

Lemma FlagNames_eq f : FlagNames f = (flags_of f).*2.
Proof.
  unfold FlagNames, flags_of. induction flagNames as [|x l IH]; [done|]. csimpl.
  destruct (Z.land f x.1 =? 0); cbn; by rewrite IH.
Qed.

Lemma flags_of_known f : Forall (fun x => x ∈ flagNames) (flags_of f).
Proof.
  apply Forall_forall. intros x Hx. unfold flags_of in Hx.
  apply list_elem_of_In, filter_In in Hx as [Hx _]. by apply list_elem_of_In.
Qed.

Definition lor_all (l : list Z) (acc : Z) : Z := fold_left Z.lor l acc.

(** Or-ing the bits of a mask's flags together gives the mask. *)
Lemma lor_flags f : 0 <= f < 256 -> lor_all (flags_of f).*1 0 = f.
Proof.
  intros Hf. assert (Forall (fun f => lor_all (flags_of f).*1 0 = f) (seqZ 0 256)) as HF
    by (by apply (bool_decide_unpack _); vm_compute).
  apply (proj1 (Forall_forall _ _) HF), elem_of_seqZ. lia.
Qed.

(** What the parser makes of a flag's name, plain and negated. *)
Definition part_ok (x : Z * string) : Prop :=
  trim_space x.2 = x.2 /\ x.2 <> "" /\ has_prefix "!" x.2 = false /\
  ParseFlagName x.2 = Some x.1 /\
  trim_space ("!" +:+ x.2) = "!" +:+ x.2 /\ trim_space (sdrop 1 ("!" +:+ x.2)) = x.2 /\
  sall (is_not ",") x.2 = true /\ sall (is_not ",") ("!" +:+ x.2) = true /\
  sall not_space x.2 = true.

Lemma part_known x : x ∈ flagNames -> part_ok x.
Proof.
  intros Hx. assert (Forall part_ok flagNames) as HF.
  { unfold part_ok. by apply (bool_decide_unpack _); vm_compute. }
  by apply (proj1 (Forall_forall _ _) HF).
Qed.

Lemma flag_parts_set l : forall rest s c,
  Forall (fun x => x ∈ flagNames) l ->
  flag_parts (l.*2 ++ rest) s c = flag_parts rest (lor_all l.*1 s) c.
Proof.
  induction l as [|x l IH]; intros rest s c H; [done|].
  apply Forall_cons_iff in H as [Hx Hl].
  destruct (part_known x Hx) as (E1 & E2 & E3 & E4 & _).
  cbn [fmap list_fmap app flag_parts]. cbv zeta. rewrite E1, E3. cbv iota. rewrite E4.
  destruct (String.eqb_spec x.2 ""); [done|]. by apply IH.
Qed.

Lemma flag_parts_clear l : forall s c,
  Forall (fun x => x ∈ flagNames) l ->
  flag_parts (map (fun n => "!" +:+ n) l.*2) s c = Ok (s, lor_all l.*1 c).
Proof.
  induction l as [|x l IH]; intros s c H; [done|].
  apply Forall_cons_iff in H as [Hx Hl].
  destruct (part_known x Hx) as (_ & _ & _ & E4 & E5 & E6 & _).
  cbn [fmap list_fmap map flag_parts]. cbv zeta. rewrite E5, has_prefix_app.
  cbv iota. rewrite E6, E4. 
  change (String.eqb ("!" +:+ x.2) "") with false. by apply IH.
Qed.

Lemma flag_text_empty set clear :
  0 <= set < 256 -> 0 <= clear < 256 -> FlagNames set ++ map (fun n => "!" +:+ n) (FlagNames clear) = [] ->
  set = 0 /\ clear = 0.
Proof.
  intros Hs Hc [E1 E2]%app_eq_nil. rewrite FlagNames_eq in E1, E2.
  apply map_eq_nil in E2. apply fmap_nil_inv in E1, E2.
  rewrite <- (lor_flags set), <- (lor_flags clear) by lia. by rewrite E1, E2.
Qed.

(** The parts are plain words. *)
Lemma flag_parts_forall set clear :
  let parts := FlagNames set ++ map (fun n => "!" +:+ n) (FlagNames clear) in
  Forall (fun x => sall (is_not ",") x = true) parts /\
  Forall (fun x => sall not_space x = true) parts /\ Forall (fun x => x <> "") parts.
Proof.
  cbv zeta. rewrite !FlagNames_eq, <- !Forall_and, Forall_app. split; apply Forall_forall; intros x.
  - intros (y & -> & Hy)%list_elem_of_fmap.
    assert (y ∈ flagNames) as (? & ? & ? & ? & ? & ? & ? & ? & ?)%part_known
      by (by apply (proj1 (Forall_forall _ _) (flags_of_known set))). done.
  - intros (n & <- & Hn)%list_elem_of_In%in_map_iff.
    apply list_elem_of_In, list_elem_of_fmap in Hn as (y & -> & Hy).
    assert (y ∈ flagNames) as (? & ? & ? & ? & ? & ? & ? & ? & ?)%part_known
      by (by apply (proj1 (Forall_forall _ _) (flags_of_known clear))).
    split_and!; [done|by rewrite string_app_cons|done].
Qed.

(** every pair of disjoint flag masks can be written: the text of a pair,
    the required names followed by the negated ones, parses back to exactly that
    pair. *)
Theorem flag_spec_roundtrip set clear :
  0 <= set < 256 -> 0 <= clear < 256 -> Z.land set clear = 0 ->
  ParseFlagSpec (flag_text set clear) = Ok (set, clear).
Proof.
  intros Hs Hc Hd. unfold ParseFlagSpec, flag_text.
  set (parts := FlagNames set ++ map (fun n => "!" +:+ n) (FlagNames clear)).
  destruct (decide (parts = [])) as [E|Hne].
  { apply flag_text_empty in E as [-> ->]; [done|lia..]. }
  assert (flag_parts parts 0 0 = Ok (set, clear)) as Hparts.
  { unfold parts. rewrite !FlagNames_eq, flag_parts_set, flag_parts_clear by apply flags_of_known.
    by rewrite !lor_flags by lia. }
  pose proof (flag_parts_forall set clear) as (Hcomma & Hsp & Hnon). fold parts in Hcomma, Hsp, Hnon.
  rewrite trim_space_nospace by (by apply sall_sjoin).
  destruct (String.eqb_spec (sjoin "," parts) "") as [E|_].
  { by apply (sjoin_nonempty ",") in Hnon. }
  rewrite split_all_join, Hparts by done. cbn [result_bind fst snd]. by rewrite Hd.
Qed.

Lemma flag_spec_roundtrip_witness : ParseFlagSpec "PSH,ACK,!RST" = Ok (24, 4).
Proof. apply (flag_spec_roundtrip 24 4); [lia|lia|reflexivity]. Defined.

End Match.

(** ** Rules *)

(** The pseudo-random source of an endpoint, with what [math/rand] documents:
    [Float64] lies in [0, 1) and [Intn n] in [0, n). *)
Class RandSource (G : Type) := {
  draw : G -> float64 * G;
  intn : Z -> G -> Z * G;
  draw_range : forall g, f64_lt (fst (draw g)) f64_1 = true /\ f64_lt (fst (draw g)) f64_0 = false;
  intn_range : forall n g, 0 < n -> 0 <= fst (intn n g) < n }.

(** A source that always yields zero. *)
#[export] Instance zero_source : RandSource unit.
Proof.
  refine {| draw := fun g => (f64_0, g); intn := fun _ g => (0, g) |}.
  - intros g. by vm_compute.
  - intros n g Hn. cbn. lia.
Defined.

Module Rule.
Import PacketView Match.

Inductive Action :=
| ActionPass | ActionDrop | ActionDelay | ActionDuplicate | ActionReorder | ActionCorrupt
| ActionReset | ActionWindow.

#[export] Instance Action_eq_dec : EqDecision Action.
Proof. solve_decision. Defined.

Definition Action_String (a : Action) : string :=
  match a with
  | ActionPass => "pass" | ActionDrop => "drop" | ActionDelay => "delay"
  | ActionDuplicate => "duplicate" | ActionReorder => "reorder" | ActionCorrupt => "corrupt"
  | ActionReset => "reset" | ActionWindow => "window"
  end.

Inductive Trigger := TriggerAlways | TriggerNth | TriggerAfter | TriggerEvery.

#[export] Instance Trigger_eq_dec : EqDecision Trigger.
Proof. solve_decision. Defined.

Record Rule := mkRule {
  RAction : Action; RMatch : Match; RLabel : string;
  RDelay : Z; ReorderBy : Z; DuplicateCount : Z;
  CorruptOffset : Z; CorruptLength : Z; CorruptMode : string; Checksum : string;
  WindowSize : Z;
  RTrigger : Trigger; RTriggerN : Z;
  RProbability : float64; RMaxFires : Z; RMode : string;
  rcounter : Z; rprobCounter : Z; rfired : Z }.

Definition set_counters (c p f : Z) (r : Rule) : Rule :=
  mkRule (RAction r) (RMatch r) (RLabel r) (RDelay r) (ReorderBy r) (DuplicateCount r)
    (CorruptOffset r) (CorruptLength r) (CorruptMode r) (Checksum r) (WindowSize r)
    (RTrigger r) (RTriggerN r) (RProbability r) (RMaxFires r) (RMode r) c p f.

Definition MatchCount (r : Rule) : Z := rcounter r.
Definition FireCount (r : Rule) : Z := rfired r.

(** Whether the trigger lets the [n]-th match fire. *)
Definition trigger_at (r : Rule) (n : Z) : bool :=
  match RTrigger r with
  | TriggerNth => n =? RTriggerN r
  | TriggerAfter => RTriggerN r <? n
  | TriggerEvery => if RTriggerN r <=? 0 then true else go_mod n (RTriggerN r) =? 0
  | TriggerAlways => true
  end.

Definition shouldTrigger (r : Rule) : bool * Rule :=
  let n := i64 (rcounter r + 1) in
  (trigger_at r n, set_counters n (rprobCounter r) (rfired r) r).

Definition nextProbabilityOccurrence (r : Rule) : Z * Rule :=
  let n := i64 (rprobCounter r + 1) in
  (i64 (n - 1), set_counters (rcounter r) n (rfired r) r).

Inductive ValidateErr :=
| BadDelay | BadReorder | BadDuplicate | BadCorruptLength | BadCorruptOffset | BadCorruptMode
| BadChecksum | NotTCP | BadProbability | BadMaxFires | BadMode | BadTriggerN.

Definition validate_action (r : Rule) : option ValidateErr :=
  match RAction r with
  | ActionDelay => if RDelay r <=? 0 then Some BadDelay else None
  | ActionReorder => if ReorderBy r <=? 0 then Some BadReorder else None
  | ActionDuplicate => if DuplicateCount r <? 2 then Some BadDuplicate else None
  | ActionCorrupt =>
      if CorruptLength r <=? 0 then Some BadCorruptLength
      else if CorruptOffset r <? 0 then Some BadCorruptOffset
      else if negb (bool_decide (CorruptMode r ∈ ["flip"; "zero"; "random"])) then Some BadCorruptMode
      else if negb (bool_decide (Checksum r ∈ ["fix"; "break"])) then Some BadChecksum
      else None
  | ActionReset | ActionWindow =>
      if negb (String.eqb (MProto (RMatch r)) "") && negb (String.eqb (MProto (RMatch r)) ProtoTCP)
      then Some NotTCP else None
  | ActionPass | ActionDrop => None
  end.

Definition Validate (r : Rule) : option ValidateErr :=
  match validate_action r with
  | Some e => Some e
  | None =>
      let p := RProbability r in
      if f64_lt p f64_0 || f64_gt p f64_1 then Some BadProbability
      else if (0 <? RMaxFires r) && (f64_le p f64_0 || f64_ge p f64_1) then Some BadMaxFires
      else if String.eqb (RMode r) "stochastic" && (0 <? RMaxFires r) then Some BadMode
      else if negb (bool_decide (RTrigger r = TriggerAlways)) && (RTriggerN r <=? 0)
      then Some BadTriggerN
      else None
  end.

(** [NewRuleSet]: the index of the first rule that does not validate, or the set. *)
Fixpoint validate_all (i : Z) (rs : list Rule) : result (Z * ValidateErr) unit :=
  match rs with
  | [] => Ok tt
  | r :: rs => match Validate r with Some e => Err (i, e) | None => validate_all (i + 1) rs end
  end.

Definition NewRuleSet (rs : list Rule) : result (Z * ValidateErr) (list Rule) :=
  let? _ := validate_all 0 rs in Ok rs.

Section Decide.
Context {G : Type} `{!RandSource G}.
(** The plan-leaf oracle, and whether a random source is supplied. *)
Context (decider : option (Rule -> Z -> bool * bool)) (has_rnd : bool).

Definition rollProbability (r : Rule) (g : G) : bool * Rule * G :=
  if f64_le (RProbability r) f64_0 || f64_ge (RProbability r) f64_1 then (true, r, g)
  else
    let '(fire, g) := if has_rnd then let (x, g) := draw g in (f64_lt x (RProbability r), g)
                      else (false, g) in
    match decider with
    | Some dec =>
        if String.eqb (RMode r) "stochastic" then (fire, r, g)
        else
          let (occ, r) := nextProbabilityOccurrence r in
          let (f, pinned) := dec r occ in
          (if pinned then f else fire, r, g)
    | None => (fire, r, g)
    end.

(** [decide]: the position of the rule that acts, the rules with their counters,
    the source and the count of predicate calls. *)
Fixpoint decide_from (rs : list Rule) (p : PacketView) (g : G) (evals : Z)
    : option nat * list Rule * G * Z :=
  match rs with
  | [] => (None, [], g, evals)
  | r :: rs =>
      let (m, evals) := Matches (RMatch r) p evals in
      let '(fires, r, g) :=
        if m then
          let (t, r) := shouldTrigger r in
          if t then
            let '(fire, r, g) := rollProbability r g in
            (fire, if fire then set_counters (rcounter r) (rprobCounter r) (i64 (rfired r + 1)) r
                   else r, g)
          else (false, r, g)
        else (false, r, g) in
      if fires then (Some 0%nat, r :: rs, g, evals)
      else
        let '(w, rs, g, evals) := decide_from rs p g evals in
        (S <$> w, r :: rs, g, evals)
  end.

Definition decide_rule (rs : option (list Rule)) (p : PacketView) (g : G) (evals : Z)
    : option nat * option (list Rule) * G * Z :=
  match rs with
  | None => (None, None, g, evals)
  | Some rs => let '(w, rs, g, evals) := decide_from rs p g evals in (w, Some rs, g, evals)
  end.

(** Whether a rule's predicates hold of a packet. *)
Definition matches (m : Match) (p : PacketView) : bool :=
  matchesDeclarative m p && match Where m with Some f => f p | None => true end.

Lemma Matches_fst m p evals : (Matches m p evals).1 = matches m p.
Proof.
  unfold Matches, matches. destruct (matchesDeclarative m p), (Where m); done.
Qed.

(** One rule's turn: whether it acts, and the rule afterwards. *)
Definition turn (r : Rule) (p : PacketView) (g : G) : bool * Rule * G :=
  if matches (RMatch r) p then
    let (t, r) := shouldTrigger r in
    if t then
      let '(fire, r, g) := rollProbability r g in
      (fire, if fire then set_counters (rcounter r) (rprobCounter r) (i64 (rfired r + 1)) r
             else r, g)
    else (false, r, g)
  else (false, r, g).

Lemma decide_from_cons r rs p g evals :
  decide_from (r :: rs) p g evals =
    let evals := (Matches (RMatch r) p evals).2 in
    let '(fires, r, g) := turn r p g in
    if fires then (Some 0%nat, r :: rs, g, evals)
    else let '(w, rs, g, evals) := decide_from rs p g evals in (S <$> w, r :: rs, g, evals).
Proof.
  cbn [decide_from]. unfold turn. rewrite <- (Matches_fst _ _ evals).
  by destruct (Matches (RMatch r) p evals) as [[] ?].
Qed.

(** Nothing but the counters of a rule changes. *)
Lemma rollProbability_keeps r g :
  let r' := (rollProbability r g).1.2 in
  exists q, r' = set_counters (rcounter r) q (rfired r) r.
Proof.
  cbv zeta. unfold rollProbability, nextProbabilityOccurrence.
  assert (r = set_counters (rcounter r) (rprobCounter r) (rfired r) r) as Hr by (by destruct r).
  destruct (_ || _); [by eexists|]. destruct has_rnd; [destruct (draw g)|];
    (destruct decider as [dec|]; [destruct (String.eqb _ _); [by eexists|];
       destruct (dec _ _); by eexists|by eexists]).
Qed.

Lemma turn_counts r p g :
  let '(fires, r', _) := turn r p g in
  exists q, r' = set_counters (if matches (RMatch r) p then i64 (rcounter r + 1) else rcounter r) q
                   (if fires then i64 (rfired r + 1) else rfired r) r.
Proof.
  unfold turn. destruct (matches (RMatch r) p).
  - unfold shouldTrigger. destruct (trigger_at r _); [|by eexists].
    set (r1 := set_counters _ _ _ r). destruct (rollProbability_keeps r1 g) as [q Hq].
    destruct (rollProbability r1 g) as [[fire r2] g2]. cbn [fst snd] in Hq. subst r2.
    destruct fire; by eexists.
  - exists (rprobCounter r). by destruct r.
Qed.

Definition upto (w : option nat) (j : nat) : bool :=
  match w with Some i => (j <=? i)%nat | None => true end.

Lemma decide_counts rs p : forall g evals w rs' g' evals',
  decide_from rs p g evals = (w, rs', g', evals') ->
  length rs' = length rs /\
  forall j r, rs !! j = Some r -> exists q,
    rs' !! j = Some
      (set_counters (if matches (RMatch r) p && upto w j then i64 (rcounter r + 1) else rcounter r)
         q (if bool_decide (w = Some j) then i64 (rfired r + 1) else rfired r) r).
Proof.
  induction rs as [|r rs IH]; intros g evals w rs' g' evals' H; [by simplify_eq/=|].
  rewrite decide_from_cons in H. cbv zeta in H. pose proof (turn_counts r p g) as Ht.
  destruct (turn r p g) as [[fires r1] g1]. destruct Ht as [q ->].
  destruct fires; [simplify_eq|].
  - split; [reflexivity|]. intros [|j] r0 Hr0; simplify_eq/=.
    + exists q. by rewrite andb_true_r.
    + exists (rprobCounter r0). rewrite Hr0, andb_false_r. by destruct r0.
  - destruct (decide_from rs p g1 _) as [[[w1 rs1] g2] ev2] eqn:E. simplify_eq.
    apply IH in E as [Hlen Hin]. split; [cbn; by rewrite Hlen|].
    intros [|j] r0 Hr0; simplify_eq/=.
    + exists q. rewrite bool_decide_false by (by destruct w1). do 2 f_equal.
      destruct w1; by destruct (matches _ _).
    + destruct (Hin j r0 Hr0) as [q' ->]. exists q'. destruct w1 as [i|]; [|done].
      by rewrite (bool_decide_ext (S <$> Some i = Some (S j)) (Some i = Some j)) by naive_solver.
Qed.

(** A rule whose probability is unset or total. *)
Definition certain (r : Rule) : bool :=
  f64_le (RProbability r) f64_0 || f64_ge (RProbability r) f64_1.

(** Whether a certain rule acts on a packet now. *)
Definition acts (r : Rule) (p : PacketView) : bool :=
  matches (RMatch r) p && trigger_at r (i64 (rcounter r + 1)).

Fixpoint first_acting (rs : list Rule) (p : PacketView) : option nat :=
  match rs with
  | [] => None
  | r :: rs => if acts r p then Some 0%nat else S <$> first_acting rs p
  end.

Lemma turn_certain r p g :
  certain r = true -> exists r', turn r p g = (acts r p, r', g).
Proof.
  intros Hc. unfold turn, acts. destruct (matches (RMatch r) p); [|by eexists].
  unfold shouldTrigger. destruct (trigger_at r _); [|by eexists].
  unfold rollProbability. unfold certain in Hc. cbn [RProbability set_counters]. rewrite Hc.
  by eexists.
Qed.

Lemma decide_certain rs p : forall g evals,
  Forall (fun r => certain r = true) rs ->
  let '(w, _, g', _) := decide_from rs p g evals in w = first_acting rs p /\ g' = g.
Proof.
  induction rs as [|r rs IH]; intros g evals H; [done|].
  apply Forall_cons_iff in H as [Hc Hrs]. rewrite decide_from_cons.
  destruct (turn_certain r p g Hc) as [r' ->]. cbn [first_acting].
  destruct (acts r p); [done|]. cbv zeta. specialize (IH g (Matches (RMatch r) p evals).2 Hrs).
  destruct (decide_from rs p g _) as [[[w rs'] g'] ev']. by destruct IH as [-> ->].
Qed.

End Decide.

(** over rules whose probability is unset or 100%, the walk is first match
    wins and draws nothing at random: the rule that acts is the first whose
    predicates hold and whose trigger lets this match fire. *)
Theorem decide_first_match_wins {G} `{!RandSource G} decider has_rnd rs p (g : G) evals :
  Forall (fun r => certain r = true) rs ->
  let '(w, _, g', _) := decide_from decider has_rnd rs p g evals in
  w = first_acting rs p /\ g' = g.
Proof. apply decide_certain. Qed.

(** whatever the probabilities, the seed and the plan decide, one packet
    counts at most once against each rule: a rule's match count grows by one
    exactly when the packet satisfies its predicates and no earlier rule acted,
    its fire count exactly when it is the one that acted, and nothing else about
    any rule changes. *)
Theorem decide_counts_each_rule_once {G} `{!RandSource G} decider has_rnd rs p (g : G) evals w rs' g' evals' :
  decide_from decider has_rnd rs p g evals = (w, rs', g', evals') ->
  length rs' = length rs /\
  forall j r, rs !! j = Some r -> exists q,
    rs' !! j = Some
      (set_counters (if matches (RMatch r) p && upto w j then i64 (rcounter r + 1) else rcounter r)
         q (if bool_decide (w = Some j) then i64 (rfired r + 1) else rfired r) r).
Proof. apply decide_counts. Qed.

(** A rule on the second and every later SYN, and the packet it sees. *)
Definition sample_rule (trig : Trigger) (n : Z) (prob : float64) : Rule :=
  mkRule ActionDrop (mkMatch None "tcp" FlagSYN 0 0 "" None None None [] [] None) "sample"
    0 0 0 0 0 "" "" 0 trig n prob 0 "" 0 0 0.

Definition sample_view : PacketView :=
  mkView "tcp" DirC2S "10.0.0.2" "10.0.0.1" 50000 5432 0 [] FlagSYN 0 0 0 0 "".

Lemma decide_first_match_wins_witness :
  let '(w, _, _, _) := decide_from None true
    [sample_rule TriggerAfter 1 f64_0; sample_rule TriggerAlways 0 f64_1] sample_view tt 0 in
  w = Some 1%nat.
Proof.
  pose proof (decide_first_match_wins None true
    [sample_rule TriggerAfter 1 f64_0; sample_rule TriggerAlways 0 f64_1] sample_view tt 0) as H.
  destruct (decide_from _ _ _ _ _ _) as [[[w rs'] g'] ev'] in H |- *.
  destruct H as [-> _]; [repeat constructor|reflexivity].
Defined.

Lemma decide_counts_each_rule_once_witness :
  length [set_counters 1 0 1 (sample_rule TriggerAlways 0 f64_0)] = 1%nat.
Proof.
  apply (decide_counts_each_rule_once None true [sample_rule TriggerAlways 0 f64_0] sample_view tt 0
           (Some 0%nat) [set_counters 1 0 1 (sample_rule TriggerAlways 0 f64_0)] tt 0).
  vm_compute. reflexivity.
Defined.

(** A probability that is not a number validates and then never fires. *)
Example nan_probability_validates :
  Validate (sample_rule TriggerAlways 0 S754_nan) = None /\
  fst (fst (rollProbability None true (sample_rule TriggerAlways 0 S754_nan) tt)) = false.
Proof. vm_compute. done. Qed.

End Rule.
