(* ===== verification/NetQueue.v ===== *)
(** * Deferred packets ([internal/netfault/defer.go] and [shape.go])

    [Heap] is Go's [container/heap] over a slice, with its invariant; [DeferQueue]
    the deadline queue that owns the order of delayed packets; [Reorder] the
    per-flow hold; [Shaper] the link pacer.  Times are nanoseconds. *)

From stdpp Require Import base gmap sets strings list numbers sorting.
From Stdlib Require Import ZArith Lia SpecFloat QArith Lqa.
From stdpp Require Import list.
From S2P Require Import Prelude GoStd Rounding.
Import GoStd Rounding.
Local Open Scope Z_scope.

(** ** container/heap *)

Module Heap.
Section Heap.
Context {A : Type} `{!Inhabited A} (less : A -> A -> bool).

Definition swap (i j : nat) (h : list A) : list A := <[i := h !!! j]> (<[j := h !!! i]> h).

Definition parent (k : nat) : nat := ((k - 1) / 2)%nat.

Fixpoint up (fuel : nat) (j : nat) (h : list A) : list A :=
  match fuel with
  | O => h
  | S fuel =>
      let i := parent j in
      if (i =? j)%nat || negb (less (h !!! j) (h !!! i)) then h else up fuel i (swap i j h)
  end.

Fixpoint down (fuel : nat) (i n : nat) (h : list A) : list A :=
  match fuel with
  | O => h
  | S fuel =>
      let j1 := (2 * i + 1)%nat in
      if (n <=? j1)%nat then h
      else
        let j2 := S j1 in
        let j := if (j2 <? n)%nat && less (h !!! j2) (h !!! j1) then j2 else j1 in
        if negb (less (h !!! j) (h !!! i)) then h else down fuel j n (swap i j h)
  end.

(** The loops move along a path of the tree, so the length of the slice is fuel
    enough. *)
Definition push (x : A) (h : list A) : list A :=
  let h := h ++ [x] in up (length h) (length h - 1) h.

Definition pop (h : list A) : option (A * list A) :=
  match h with
  | [] => None
  | _ =>
      let n := (length h - 1)%nat in
      let h := down (length h) 0 n (swap 0 n h) in
      Some (h !!! n, take n h)
  end.

(** *** Order *)

(** [x] need not come after [y]. *)
Definition le (x y : A) : Prop := less y x = false.

Context (less_trans : forall x y z, le x y -> le y z -> le x z)
        (less_asym : forall x y, less x y = true -> le x y).

Lemma le_refl x : le x x.
Proof. unfold le. destruct (less x x) eqn:E; [|done]. by rewrite (less_asym x x E) in E. Qed.

Definition heap_ok (n : nat) (h : list A) : Prop :=
  forall k, (0 < k < n)%nat -> le (h !!! parent k) (h !!! k).

(** The order holds except between [i] and its children, which respect the
    parent of [i]. *)
Definition down_inv (i n : nat) (h : list A) : Prop :=
  (forall k, (0 < k < n)%nat -> parent k <> i -> le (h !!! parent k) (h !!! k)) /\
  (forall k, (0 < k < n)%nat -> parent k = i -> (0 < i)%nat -> le (h !!! parent i) (h !!! k)).

(** The order holds except between [j] and its parent, which precedes the
    children of [j]. *)
Definition up_inv (j n : nat) (h : list A) : Prop :=
  (forall k, (0 < k < n)%nat -> k <> j -> le (h !!! parent k) (h !!! k)) /\
  (forall k, (0 < k < n)%nat -> parent k = j -> (0 < j)%nat -> le (h !!! parent j) (h !!! k)).

Lemma parent_lt k : (0 < k)%nat -> (parent k < k)%nat.
Proof.
  unfold parent. intros Hk. pose proof (Nat.Div0.div_le_upper_bound (k - 1) 2 (k - 1)). lia.
Qed.

Lemma parent_children k i : (0 < k)%nat -> parent k = i <-> (k = 2 * i + 1 \/ k = 2 * i + 2)%nat.
Proof.
  unfold parent. intros Hk. pose proof (Nat.div_mod_eq (k - 1) 2).
  pose proof (Nat.mod_upper_bound (k - 1) 2). lia.
Qed.

Lemma length_swap i j h : length (swap i j h) = length h.
Proof. unfold swap. by rewrite !length_insert. Qed.

Lemma swap_l i j h : (i < length h)%nat -> swap i j h !!! i = h !!! j.
Proof. intros. unfold swap. rewrite list_lookup_total_insert_eq; [done|by rewrite length_insert]. Qed.

Lemma swap_r i j h : (j < length h)%nat -> swap i j h !!! j = h !!! i.
Proof.
  intros. unfold swap. destruct (decide (i = j)) as [->|Hne].
  - rewrite list_lookup_total_insert_eq; [done|by rewrite length_insert].
  - rewrite list_lookup_total_insert_ne, list_lookup_total_insert_eq; done.
Qed.

Lemma swap_ne i j k h : k <> i -> k <> j -> swap i j h !!! k = h !!! k.
Proof. intros. unfold swap. by rewrite !list_lookup_total_insert_ne by done. Qed.

Lemma swap_perm i j h : (i < length h)%nat -> (j < length h)%nat -> swap i j h ≡ₚ h.
Proof.
  intros Hi Hj. unfold swap. apply Permutation_insert_swap;
    by apply list_lookup_lookup_total_lt.
Qed.

Lemma down_step i j n h :
  (n <= length h)%nat -> (j < n)%nat -> (0 < j)%nat -> parent j = i -> down_inv i n h ->
  le (h !!! j) (h !!! i) ->
  (forall k, (0 < k < n)%nat -> parent k = i -> le (h !!! j) (h !!! k)) ->
  down_inv j n (swap i j h).
Proof.
  intros Hn Hj H0 Hp [H1 H2] Hle Hmin. pose proof (parent_lt j H0) as Hlt. rewrite Hp in Hlt.
  assert (swap i j h !!! i = h !!! j) as Si by (apply swap_l; lia).
  assert (swap i j h !!! j = h !!! i) as Sj by (apply swap_r; lia).
  split.
  - intros k Hk Hpk. pose proof (parent_lt k (proj1 Hk)) as Hpl.
    destruct (decide (k = j)) as [->|Hkj]; [by rewrite Hp, Si, Sj|].
    destruct (decide (parent k = i)) as [E|E].
    + rewrite E, Si, swap_ne by lia. by apply Hmin.
    + rewrite (swap_ne i j (parent k)) by done. destruct (decide (k = i)) as [->|Hki].
      * rewrite Si. apply H2; [lia|done|lia].
      * rewrite swap_ne by done. by apply H1.
  - intros k Hk Hpk _. pose proof (parent_lt k (proj1 Hk)) as Hpl.
    rewrite Hp, Si, swap_ne by lia. rewrite <- Hpk. apply H1; [done|lia].
Qed.

Lemma down_spec fuel : forall i n h,
  (n <= length h)%nat -> (n <= i + fuel)%nat -> down_inv i n h ->
  heap_ok n (down fuel i n h) /\ down fuel i n h ≡ₚ h /\ length (down fuel i n h) = length h /\
  (forall k, (n <= k)%nat -> down fuel i n h !!! k = h !!! k).
Proof.
  assert (forall i n h, (n <= 2 * i + 1)%nat -> down_inv i n h -> heap_ok n h) as Hleaf.
  { intros i n h Hb [H1 _] k Hk. apply H1; [done|]. intros E.
    apply parent_children in E; lia. }
  induction fuel as [|fuel IH]; intros i n h Hn Hf Hinv; cbn [down].
  { split_and!; try done. apply (Hleaf i); [lia|done]. }
  destruct (Nat.leb_spec n (2 * i + 1)) as [Hb|Hb].
  { split_and!; try done. by apply (Hleaf i). }
  set (j := if (S (2 * i + 1) <? n)%nat && less (h !!! S (2 * i + 1)) (h !!! (2 * i + 1)%nat)
            then S (2 * i + 1) else (2 * i + 1)%nat).
  assert ((j = 2 * i + 1 \/ j = 2 * i + 2) /\ j < n)%nat as [Hj Hjn].
  { unfold j. destruct (Nat.ltb_spec (S (2 * i + 1)) n); cbn; [|lia]. case_match; lia. }
  assert (parent j = i) as Hp by (apply parent_children; lia).
  assert (forall k, (0 < k < n)%nat -> parent k = i -> le (h !!! j) (h !!! k)) as Hmin.
  { intros k Hk E. apply parent_children in E; [|lia]. unfold j.
    destruct (Nat.ltb_spec (S (2 * i + 1)) n) as [Hlt|Hge]; cbn [andb].
    - destruct (less (h !!! S (2 * i + 1)) (h !!! (2 * i + 1)%nat)) eqn:El.
      + destruct E as [-> | ->]; [by apply less_asym|].
        replace (S (2 * i + 1)) with (2 * i + 2)%nat by lia. apply le_refl.
      + destruct E as [-> | ->]; [apply le_refl|].
        by replace (2 * i + 2)%nat with (S (2 * i + 1)) by lia.
    - destruct E as [-> | ->]; [apply le_refl|lia]. }
  destruct (less (h !!! j) (h !!! i)) eqn:El; cbn [negb].
  - destruct (IH j n (swap i j h)) as (I1 & I2 & I3 & I4).
    + by rewrite length_swap.
    + lia.
    + apply down_step; try done; [lia|by apply less_asym].
    + split_and!; [done| |by rewrite I3, length_swap|].
      * rewrite I2. apply swap_perm; lia.
      * intros k Hk. rewrite I4 by done. apply swap_ne; lia.
  - split_and!; try done. intros k Hk. destruct (decide (parent k = i)) as [E|E].
    + rewrite E. eapply less_trans; [exact El|]. by apply Hmin.
    + by apply Hinv.
Qed.

Lemma up_step j n h :
  (n <= length h)%nat -> (0 < j < n)%nat -> up_inv j n h -> less (h !!! j) (h !!! parent j) = true ->
  up_inv (parent j) n (swap (parent j) j h).
Proof.
  intros Hn Hj [H1 H2] Hless. set (i := parent j) in *.
  pose proof (parent_lt j (proj1 Hj)) as Hlt. fold i in Hlt.
  assert (swap i j h !!! i = h !!! j) as Si by (apply swap_l; lia).
  assert (swap i j h !!! j = h !!! i) as Sj by (apply swap_r; lia).
  split.
  - intros k Hk Hki. pose proof (parent_lt k (proj1 Hk)) as Hpl.
    destruct (decide (k = j)) as [->|Hkj].
    { fold i. rewrite Si, Sj. by apply less_asym. }
    rewrite (swap_ne i j k) by done.
    destruct (decide (parent k = i)) as [E|E].
    { rewrite E, Si. eapply less_trans; [by apply less_asym|]. rewrite <- E. by apply H1. }
    destruct (decide (parent k = j)) as [E'|E'].
    { rewrite E', Sj. apply H2; [done|done|lia]. }
    rewrite swap_ne by done. by apply H1.
  - intros k Hk Hpk H0. pose proof (parent_lt k (proj1 Hk)) as Hpl.
    pose proof (parent_lt i H0) as Hpi.
    rewrite (swap_ne i j (parent i)) by lia.
    assert (le (h !!! parent i) (h !!! i)) as Hgi by (apply H1; lia).
    destruct (decide (k = j)) as [->|Hkj]; [by rewrite Sj|].
    rewrite swap_ne by lia. eapply less_trans; [exact Hgi|]. rewrite <- Hpk. by apply H1.
Qed.

Lemma up_spec fuel : forall j n h,
  n = length h -> (j < n)%nat -> (j < fuel)%nat -> up_inv j n h ->
  heap_ok n (up fuel j h) /\ up fuel j h ≡ₚ h.
Proof.
  induction fuel as [|fuel IH]; intros j n h Hn Hj Hf Hinv; [lia|]. cbn [up].
  destruct (Nat.eqb_spec (parent j) j) as [E|E]; cbn [orb].
  { split; [|done]. intros k Hk. apply Hinv; [done|]. intros ->.
    pose proof (parent_lt j). lia. }
  assert (0 < j)%nat as H0 by (destruct j; [done|lia]). pose proof (parent_lt j H0) as Hlt.
  destruct (less (h !!! j) (h !!! parent j)) eqn:El; cbn [negb].
  - destruct (IH (parent j) n (swap (parent j) j h)) as [I1 I2].
    + by rewrite length_swap.
    + lia.
    + lia.
    + apply up_step; [lia|lia|done|done].
    + split; [done|]. rewrite I2. apply swap_perm; lia.
  - split; [|done]. intros k Hk. destruct (decide (k = j)) as [->|Hne]; [exact El|by apply Hinv].
Qed.

Lemma push_spec x h :
  heap_ok (length h) h ->
  heap_ok (length (push x h)) (push x h) /\ push x h ≡ₚ x :: h.
Proof.
  intros Hok. unfold push. set (h' := h ++ [x]).
  assert (length h' = S (length h)) as Hlen by (unfold h'; rewrite length_app; cbn; lia).
  destruct (up_spec (length h') (length h' - 1) (length h') h') as [I1 I2]; [done|lia|lia| |].
  - split.
    + intros k Hk Hne. pose proof (parent_lt k (proj1 Hk)).
      unfold h'. rewrite !lookup_total_app_l by lia. apply Hok. lia.
    + intros k Hk Hp _. pose proof (parent_lt k (proj1 Hk)). lia.
  - rewrite (Permutation_length I2). split; [done|]. rewrite I2. unfold h'.
    by rewrite Permutation_app_comm.
Qed.

(** The root precedes every element. *)
Lemma root_min n h : heap_ok n h -> forall k, (k < n)%nat -> le (h !!! 0%nat) (h !!! k).
Proof.
  intros Hok k. induction k as [k IH] using lt_wf_ind. intros Hk.
  destruct (decide (k = 0%nat)) as [->|Hne]; [apply le_refl|].
  pose proof (parent_lt k ltac:(lia)). apply (less_trans _ (h !!! parent k)); [apply IH; lia|].
  apply Hok. lia.
Qed.

Lemma pop_spec h :
  heap_ok (length h) h ->
  match pop h with
  | None => h = []
  | Some (x, h') =>
      heap_ok (length h') h' /\ h ≡ₚ x :: h' /\ Forall (le x) h'
  end.
Proof.
  intros Hok. unfold pop. destruct h as [|x0 h0]; [done|]. set (h := x0 :: h0) in *.
  set (n := (length h - 1)%nat). assert (length h = S n) as Hlen by (unfold n, h; cbn; lia).
  destruct (down_spec (length h) 0 n (swap 0 n h)) as (I1 & I2 & I3 & I4).
  - rewrite length_swap. lia.
  - lia.
  - split; [|lia]. intros k Hk Hp. pose proof (parent_lt k (proj1 Hk)).
    rewrite !swap_ne by lia. apply Hok. lia.
  - set (h1 := down _ _ _ _) in *. rewrite length_swap in I3.
    assert (h1 !!! n = h !!! 0%nat) as Hx by (rewrite I4, swap_r by lia; done).
    assert (h1 = take n h1 ++ [h1 !!! n]) as Hsplit.
    { assert (h1 !! n = Some (h1 !!! n)) as Hl by (apply list_lookup_lookup_total_lt; lia).
      rewrite <- (take_S_r _ _ _ Hl). rewrite take_ge by lia. done. }
    assert (h ≡ₚ h1 !!! n :: take n h1) as Hperm.
    { rewrite <- (swap_perm 0 n h), <- I2 by lia. rewrite Hsplit at 1.
      by rewrite Permutation_app_comm. }
    split_and!; [|done|].
    + intros k Hk. rewrite length_take in Hk. pose proof (parent_lt k (proj1 Hk)).
      rewrite !lookup_total_take_lt by lia. apply I1. lia.
    + apply Forall_forall. intros y Hy. rewrite Hx.
      assert (y ∈ h) as (k & Hk)%list_elem_of_lookup by (rewrite Hperm; by right).
      pose proof (lookup_lt_Some _ _ _ Hk). apply list_lookup_total_correct in Hk. subst y.
      by apply (root_min (length h)).
Qed.

End Heap.
End Heap.

(** ** The deadline queue *)

Module DeferQueue.

(** [fn] identifies the packet's release; the heap position the source also
    stores is never read. *)
Record deferred := mkDeferred { deadline : Z; seq : Z; fn : Z }.

#[export] Instance deferred_eq_dec : EqDecision deferred.
Proof. solve_decision. Defined.
#[export] Instance deferred_inhabited : Inhabited deferred := populate (mkDeferred 0 0 0).

(** [deferHeap.Less]. *)
Definition Less (x y : deferred) : bool :=
  if deadline x =? deadline y then seq x <? seq y else deadline x <? deadline y.

(** [released] is the order in which releases ran. *)
Record deferQueue := mkDQ {
  h : list deferred; qseq : Z; stopped : bool; released : list deferred }.

Definition newDeferQueue : deferQueue := mkDQ [] 0 false [].

(** [schedule] at time [now]. *)
Definition schedule (now d f : Z) (q : deferQueue) : bool * deferQueue :=
  if stopped q then (false, q)
  else
    let s := u64 (qseq q + 1) in
    (true, mkDQ (Heap.push Less (mkDeferred (now + d) s f) (h q)) s false (released q)).

(** One turn of [run]: release the head when its deadline has come. *)
Definition run_step (now : Z) (q : deferQueue) : deferQueue :=
  if stopped q then q
  else match h q with
       | [] => q
       | x :: _ =>
           if deadline x - now <=? 0 then
             match Heap.pop Less (h q) with
             | Some (d, h') => mkDQ h' (qseq q) false (released q ++ [d])
             | None => q
             end
           else q
       end.

(** [stop] pops everything, in order, and runs it. *)
Fixpoint pop_all (fuel : nat) (hp : list deferred) : list deferred :=
  match fuel with
  | O => []
  | S fuel => match Heap.pop Less hp with Some (d, hp) => d :: pop_all fuel hp | None => [] end
  end.

Definition stop (q : deferQueue) : deferQueue :=
  if stopped q then q
  else mkDQ [] (qseq q) true (released q ++ pop_all (length (h q)) (h q)).

Definition pending (q : deferQueue) : Z := Z.of_nat (length (h q)).

(** *** The order *)

Definition before (x y : deferred) : Prop := Heap.le Less x y.

Lemma before_spec x y : before x y <-> deadline x < deadline y \/ deadline x = deadline y /\ seq x <= seq y.
Proof.
  unfold before, Heap.le, Less. destruct (Z.eqb_spec (deadline y) (deadline x)).
  - rewrite Z.ltb_ge. lia.
  - rewrite Z.ltb_ge. lia.
Qed.

Lemma before_trans x y z : before x y -> before y z -> before x z.
Proof. rewrite !before_spec. lia. Qed.

Lemma before_asym x y : Less x y = true -> before x y.
Proof.
  rewrite before_spec. unfold Less. destruct (Z.eqb_spec (deadline x) (deadline y)).
  - rewrite Z.ltb_lt. lia.
  - rewrite Z.ltb_lt. lia.
Qed.

Definition queue_heap (q : deferQueue) : Prop := Heap.heap_ok Less (length (h q)) (h q).

(** Popping everything sorts. *)
Lemma pop_all_spec fuel : forall hp,
  (length hp <= fuel)%nat -> Heap.heap_ok Less (length hp) hp ->
  pop_all fuel hp ≡ₚ hp /\ StronglySorted before (pop_all fuel hp).
Proof.
  induction fuel as [|fuel IH]; intros hp Hf Hok; cbn [pop_all].
  { destruct hp; [|cbn in Hf; lia]. split; [done|constructor]. }
  pose proof (Heap.pop_spec Less before_trans before_asym hp Hok) as Hp.
  destruct (Heap.pop Less hp) as [[d hp']|]; [|subst; split; [done|constructor]].
  destruct Hp as (Hok' & Hperm & Hall). pose proof (Permutation_length Hperm) as Hl. cbn in Hl.
  destruct (IH hp') as [I1 I2]; [lia|done|]. split.
  - by rewrite I1, Hperm.
  - constructor; [done|]. by rewrite I1.
Qed.

Lemma queue_heap_schedule now d f q : queue_heap q -> queue_heap (schedule now d f q).2.
Proof.
  intros Hq. unfold schedule, queue_heap. destruct (stopped q); [done|]. cbn [snd h].
  by apply (Heap.push_spec Less before_trans before_asym).
Qed.

Lemma queue_heap_run now q : queue_heap q -> queue_heap (run_step now q).
Proof.
  intros Hq. unfold run_step. destruct (stopped q); [done|].
  pose proof (Heap.pop_spec Less before_trans before_asym (h q) Hq) as Hp.
  destruct (h q) as [|x0 h0] eqn:E; [done|]. destruct (deadline x0 - now <=? 0); [|done].
  destruct (Heap.pop Less _) as [[x h']|]; [|done]. apply Hp.
Qed.

Lemma queue_heap_stop q : queue_heap q -> queue_heap (stop q).
Proof. intros Hq. unfold stop. destruct (stopped q); [done|]. intros k Hk. cbn in Hk. lia. Qed.

(** *** Sequences of operations *)

Inductive Op := OpSchedule (now d f : Z) | OpRun (now : Z) | OpStop.

Definition apply (o : Op) (q : deferQueue) : deferQueue :=
  match o with
  | OpSchedule now d f => (schedule now d f q).2
  | OpRun now => run_step now q
  | OpStop => stop q
  end.

(** What an operation adds to the queue's responsibility. *)
Definition accepted_by (o : Op) (q : deferQueue) : list deferred :=
  match o with
  | OpSchedule now d f =>
      if stopped q then [] else [mkDeferred (now + d) (u64 (qseq q + 1)) f]
  | _ => []
  end.

Fixpoint run_ops (ops : list Op) (q : deferQueue) : list deferred * deferQueue :=
  match ops with
  | [] => ([], q)
  | o :: ops => let (acc, q') := run_ops ops (apply o q) in (accepted_by o q ++ acc, q')
  end.

Lemma run_step_cases now q :
  queue_heap q ->
  run_step now q = q \/
  exists x, h q ≡ₚ x :: h (run_step now q) /\ released (run_step now q) = released q ++ [x] /\
    deadline x <= now /\ Forall (before x) (h (run_step now q)) /\
    qseq (run_step now q) = qseq q /\ stopped (run_step now q) = stopped q.
Proof.
  intros Hq. unfold run_step. destruct (stopped q) eqn:Es; [by left|].
  pose proof (Heap.pop_spec Less before_trans before_asym (h q) Hq) as Hp.
  destruct (h q) as [|x0 h0] eqn:E; [by left|].
  destruct (Z.leb_spec (deadline x0 - now) 0) as [Hd|]; [|by left].
  destruct (Heap.pop Less (x0 :: h0)) as [[x h']|]; [|by left]. destruct Hp as (_ & Hperm & Hall).
  right. exists x. cbn [h released qseq stopped]. split_and!; try done.
  assert (x0 ∈ x :: h') as [->|Hin]%elem_of_cons by (rewrite <- Hperm; by left); [lia|].
  rewrite Forall_forall in Hall. specialize (Hall x0 Hin).
  apply before_spec in Hall. lia.
Qed.

Lemma defer_apply_conserves o q :
  queue_heap q ->
  released (apply o q) ++ h (apply o q) ≡ₚ (released q ++ h q) ++ accepted_by o q.
Proof.
  intros Hq. destruct o as [now d f|now|]; cbn [apply accepted_by]; rewrite ?app_nil_r.
  - unfold schedule. destruct (stopped q); cbn; [by rewrite app_nil_r|].
    destruct (Heap.push_spec Less before_trans before_asym
                (mkDeferred (now + d) (u64 (qseq q + 1)) f) (h q) Hq) as [_ ->].
    rewrite <- app_assoc. apply Permutation_app_head. by rewrite Permutation_app_comm.
  - destruct (run_step_cases now q Hq) as [->|(x & Hp & -> & _)]; [done|].
    by rewrite Hp, <- app_assoc.
  - unfold stop. destruct (stopped q); [done|]. cbn. rewrite app_nil_r.
    by rewrite (proj1 (pop_all_spec (length (h q)) (h q) (le_n _) Hq)).
Qed.

Lemma queue_heap_apply o q : queue_heap q -> queue_heap (apply o q).
Proof.
  destruct o; cbn; eauto using queue_heap_schedule, queue_heap_run, queue_heap_stop.
Qed.

Lemma run_ops_spec ops : forall q,
  queue_heap q ->
  queue_heap (run_ops ops q).2 /\
  released (run_ops ops q).2 ++ h (run_ops ops q).2 ≡ₚ (released q ++ h q) ++ (run_ops ops q).1.
Proof.
  induction ops as [|o ops IH]; intros q Hq; cbn [run_ops]; [by rewrite app_nil_r|].
  pose proof (IH (apply o q) (queue_heap_apply o q Hq)) as [I1 I2].
  destruct (run_ops ops (apply o q)) as [acc q']. cbn [fst snd] in *. split; [done|].
  rewrite I2, defer_apply_conserves by done. by rewrite <- !app_assoc.
Qed.

(** the deadline queue releases every packet it accepted exactly once, never
    early, and in an order that does not depend on scheduling: in any state
    reached by any operations, what the queue accepted is what it released or
    still holds; the next release is due and precedes, by deadline and then by
    arrival, everything still held; and stopping releases all the rest, sorted. *)
Theorem defer_queue_releases_in_order ops :
  let '(accepted, q) := run_ops ops newDeferQueue in
  released q ++ h q ≡ₚ accepted /\
  (forall now, run_step now q = q \/
     exists x, released (run_step now q) = released q ++ [x] /\ deadline x <= now /\
       h q ≡ₚ x :: h (run_step now q) /\ Forall (before x) (h (run_step now q))) /\
  (stopped q = false -> exists rest,
     released (stop q) = released q ++ rest /\ rest ≡ₚ h q /\ StronglySorted before rest /\
     h (stop q) = []).
Proof.
  assert (queue_heap newDeferQueue) as H0 by (intros k Hk; cbn in Hk; lia).
  destruct (run_ops_spec ops newDeferQueue H0) as [Hq Hp].
  destruct (run_ops ops newDeferQueue) as [accepted q]. cbn [fst snd] in *. split_and!.
  - by rewrite Hp.
  - intros now. destruct (run_step_cases now q Hq) as [|(x & ? & ? & ? & ? & _)]; [by left|].
    right. by exists x.
  - intros Hs. destruct (pop_all_spec (length (h q)) (h q) (le_n _) Hq) as [P1 P2].
    exists (pop_all (length (h q)) (h q)). unfold stop. by rewrite Hs.
Qed.

(** Three packets, two due at the same instant: arrival breaks the tie. *)
Example release_order :
  map fn (released (stop (run_ops [OpSchedule 0 5 1; OpSchedule 0 3 2; OpSchedule 1 2 3]
    newDeferQueue).2)) = [2; 3; 1].
Proof. vm_compute. reflexivity. Qed.

End DeferQueue.

(** ** Reordering *)

Module Reorder.

Record heldPacket := mkHeld { remaining : Z; release : Z }.

Abbreviation reorderBuffer := (gmap string heldPacket).

Definition newReorderBuffer : reorderBuffer := ∅.

Definition hold (flow : string) (by_ rel : Z) (rb : reorderBuffer) : bool * reorderBuffer :=
  match rb !! flow with
  | Some _ => (false, rb)
  | None => (true, <[flow := mkHeld by_ rel]> rb)
  end.

Definition advance (flow : string) (rb : reorderBuffer) : option Z * reorderBuffer :=
  match rb !! flow with
  | None => (None, rb)
  | Some hp =>
      let r := remaining hp - 1 in
      if 0 <? r then (None, <[flow := mkHeld r (release hp)]> rb)
      else (Some (release hp), delete flow rb)
  end.

Definition drain (rb : reorderBuffer) : list Z * reorderBuffer :=
  (release <$> (map_to_list rb).*2, ∅).

(** What packets do to the buffer: each passing packet advances its flow, and a
    reorder rule may try to hold it. *)
Inductive Event := EvAdvance (flow : string) | EvHold (flow : string) (by_ rel : Z).

Definition apply (e : Event) (rb : reorderBuffer) : reorderBuffer :=
  match e with
  | EvAdvance f => (advance f rb).2
  | EvHold f n r => (hold f n r rb).2
  end.

Definition run (es : list Event) (rb : reorderBuffer) : reorderBuffer :=
  fold_left (fun rb e => apply e rb) es rb.

(** The packets of [flow] among the events. *)
Definition passed (flow : string) (es : list Event) : Z :=
  Z.of_nat (length (List.filter (fun e => match e with EvAdvance f => String.eqb f flow
                                                     | _ => false end) es)).

Lemma passed_cons flow e es :
  passed flow (e :: es) =
    (match e with EvAdvance f => if String.eqb f flow then 1 else 0 | _ => 0 end) + passed flow es.
Proof. unfold passed. cbn. destruct e; [|lia]. destruct (String.eqb _ _); cbn [length]; lia. Qed.

Lemma held_countdown flow rel es : forall rb n,
  rb !! flow = Some (mkHeld n rel) -> passed flow es < n ->
  run es rb !! flow = Some (mkHeld (n - passed flow es) rel).
Proof.
  induction es as [|e es IH]; intros rb n Hrb Hp.
  { cbn. by rewrite Z.sub_0_r. }
  rewrite passed_cons in Hp |- *. cbn [run fold_left]. change (fold_left _ es ?r) with (run es r).
  assert (0 <= passed flow es) by (unfold passed; lia).
  destruct e as [f|f m r]; cbn [apply].
  - unfold advance. destruct (String.eqb_spec f flow) as [->|Hne].
    + rewrite Hrb. cbn [remaining]. rewrite (proj2 (Z.ltb_lt _ _)) by lia.
      cbn [snd release]. rewrite (IH _ (n - 1)); [do 2 f_equal; lia|by rewrite lookup_insert_eq|lia].
    + assert (forall rb', rb' !! flow = rb !! flow -> run es rb' !! flow =
                Some (mkHeld (n - (0 + passed flow es)) rel)) as Hgo.
      { intros rb' E. rewrite (IH _ n); [done|by rewrite E|lia]. }
      destruct (rb !! f) as [hp|]; [|by apply Hgo].
      case_match; cbn [snd]; apply Hgo; [by rewrite lookup_insert_ne|by rewrite lookup_delete_ne].
  - rewrite (IH _ n); [done| |lia]. unfold hold. destruct (rb !! f) eqn:E; [done|]. cbn [snd].
    rewrite lookup_insert_ne; [done|]. intros ->. congruence.
Qed.

(** a held packet is overtaken by exactly as many later packets of its flow
    as the rule asks for: it stays held while fewer have passed, whatever other
    flows do and however often another hold on the flow is tried, and the packet
    that makes the count complete releases it, once. *)
Theorem held_packet_overtaken_exactly flow by_ rel rb es :
  rb !! flow = None -> 1 <= by_ -> passed flow es = by_ - 1 ->
  let rb1 := (hold flow by_ rel rb).2 in
  (hold flow by_ rel rb).1 = true /\
  (forall es', es' `prefix_of` es -> run es' rb1 !! flow = Some (mkHeld (by_ - passed flow es') rel)) /\
  (advance flow (run es rb1)).1 = Some rel /\
  (advance flow (run es rb1)).2 !! flow = None.
Proof.
  intros Hrb Hby Hp rb1. unfold rb1, hold. rewrite Hrb. cbn [fst snd]. split; [done|].
  assert (forall es', passed flow es' < by_ ->
    run es' (<[flow:=mkHeld by_ rel]> rb) !! flow = Some (mkHeld (by_ - passed flow es') rel)) as Hrun.
  { intros es' H. apply held_countdown; [by rewrite lookup_insert_eq|done]. }
  split.
  - intros es' [es'' ->]. apply Hrun. unfold passed in *.
    rewrite List.filter_app, length_app in Hp. lia.
  - unfold advance. rewrite Hrun by lia. cbn [remaining release].
    rewrite Hp. replace (by_ - (by_ - 1) - 1) with 0 by lia. cbn. split; [done|].
    by rewrite lookup_delete_eq.
Qed.

Lemma held_packet_overtaken_exactly_witness :
  (advance "f" (run [EvAdvance "g"; EvAdvance "f"; EvHold "f" 9 8] (hold "f" 2 7 ∅).2)).1 = Some 7.
Proof.
  apply (held_packet_overtaken_exactly "f" 2 7 ∅ [EvAdvance "g"; EvAdvance "f"; EvHold "f" 9 8]);
    [reflexivity|lia|reflexivity].
Defined.

End Reorder.

(** ** Link shaping *)

Module Shaper.

Definition DefaultShaperBacklog : Z := 250000000.

Inductive RateErr := RateEmpty | RateNumber | RateNoUnit.

Definition parsePositiveFloat (s : string) : option float64 :=
  let s := trim_space s in
  if String.eqb s "" then None
  else match ParseFloat s with
       | None => None
       | Some v => if f64_le v f64_0 then None else Some v
       end.

Definition byteUnits : list (string * Z) :=
  [("gb/s", 1000000000); ("mb/s", 1000000); ("kb/s", 1000); ("b/s", 1)].

Definition bitUnits : list (string * Z) :=
  [("gbps", 1000000000); ("gbit", 1000000000); ("mbps", 1000000); ("mbit", 1000000);
   ("kbps", 1000); ("kbit", 1000); ("bps", 1); ("bit", 1)].

(** The first unit the text ends with, and the number before it. *)
Fixpoint find_unit (units : list (string * Z)) (s : string) : option (string * Z) :=
  match units with
  | [] => None
  | (suffix, mult) :: units =>
      match cut_suffix s suffix with Some num => Some (num, mult) | None => find_unit units s end
  end.

Definition ParseRate (s : string) : result RateErr float64 :=
  let raw := trim_space s in
  if String.eqb raw "" then Err RateEmpty
  else
    let lower := to_lower raw in
    match find_unit byteUnits lower with
    | Some (num, mult) =>
        match parsePositiveFloat num with
        | Some v => Ok (f64_mul v (f64_of_Z mult))
        | None => Err RateNumber
        end
    | None =>
        match find_unit bitUnits lower with
        | Some (num, mult) =>
            match parsePositiveFloat num with
            | Some v => Ok (f64_div (f64_mul v (f64_of_Z mult)) (f64_of_Z 8))
            | None => Err RateNumber
            end
        | None => Err RateNoUnit
        end
    end.

(** Bits and bytes differ by eight; a rate that is not a number is accepted. *)
Example parse_rate_ex :
  (ParseRate "1mbit", ParseRate "512 kbps", ParseRate "2MB/s", ParseRate "10", ParseRate "0bit",
   ParseRate "nanmbit") =
  (Ok (f64_of_Z 125000), Ok (f64_of_Z 64000), Ok (f64_of_Z 2000000), Err RateNoUnit,
   Err RateNumber, Ok S754_nan).
Proof. vm_compute. reflexivity. Qed.

(** [nextFree] starts as Go's zero time, before every instant. *)
Record shaper := mkShaper {
  bytesPerSec : float64; maxBacklog : Z; nextFree : option Z;
  admitted : Z; dropped : Z; backlogPeak : Z }.

Definition newShaper (rate : float64) (backlog : Z) : shaper :=
  mkShaper rate (if backlog <=? 0 then DefaultShaperBacklog else backlog) None 0 0 0.

(** How long the link is busy with a packet. *)
Definition txTime (rate : float64) (size : Z) : Z :=
  f64_to_int64 (f64_mul (f64_div (f64_of_Z size) rate) (f64_of_Z 1000000000)).

Definition start_of (now : Z) (s : shaper) : Z :=
  match nextFree s with Some t => Z.max t now | None => now end.

(** [shaper_admit]: how long the packet waits, or [None] when the queue is full.
    Instants are exact: [Time.Sub]'s saturation at 292 years is left out. *)
Definition shaper_admit (size now : Z) (s : shaper) : option Z * shaper :=
  if size <=? 0 then (Some 0, s)
  else
    let free := start_of now s in
    let backlog := free - now in
    if maxBacklog s <? backlog then
      (None, mkShaper (bytesPerSec s) (maxBacklog s) (Some free) (admitted s) (i64 (dropped s + 1))
               (backlogPeak s))
    else
      (Some backlog,
       mkShaper (bytesPerSec s) (maxBacklog s) (Some (free + txTime (bytesPerSec s) size))
         (i64 (admitted s + 1)) (dropped s) (Z.max (backlogPeak s) backlog)).

Definition stats (s : shaper) : Z * Z * Z := (admitted s, dropped s, backlogPeak s).

(** ** What pacing at a rate means *)

(** The nanoseconds [n] bytes take at [r] bytes per second. *)
Definition link_time (r : Q) (n : Z) : Q := (inject_Z n * (1000000000 # 1) / r)%Q.

(** Two roundings and a truncation for each packet: a relative error of [2^-51],
    and two nanoseconds a packet. *)
Definition tolerance (packets : Z) (t : Q) : Q :=
  (t * pow2 (-51) + inject_Z (2 * packets))%Q.

(** The rates and packets in scope: a finite positive rate, and a packet that
    occupies the link for less than [2^62] nanoseconds. *)
Definition carries (r : Q) (n : Z) : Prop := 0 < n < 2 ^ 53 /\ (link_time r n < pow2 62)%Q.

(** Seconds to nanoseconds, in floats. *)
Lemma nanoseconds d q :
  stands_for d q -> (q * (1000000000 # 1) < pow2 63)%Q ->
  exists t, stands_for (f64_mul d (f64_of_Z 1000000000)) t /\ rounds (q * (1000000000 # 1)) t.
Proof.
  destruct d as [[]| | |[] m e]; cbn [stands_for]; try done; intros Hd Hq.
  - exists 0%Q. split; [reflexivity|]. unfold rounds. rewrite Hd. pose proof (pow2_pos (-1075)).
    split; lra.
  - assert (inject_Z 8388608000000000 * pow2 (-23) == 1000000000 # 1)%Q as Es by reflexivity.
    destruct (f64_mul_rounds m e 8388608000000000 (-23)) as (t & Ht & Hr'); [done| |].
    + rewrite <- Hd, Es. eapply Qlt_le_trans; [exact Hq|]. apply pow2_le. lia.
    + exists t. split; [exact Ht|]. by rewrite <- Hd, Es in Hr'.
Qed.

(** The float quotient and product are within the tolerance of the exact time. *)
Lemma txTime_rate rate r n :
  stands_for rate r -> (0 < r)%Q -> carries r n ->
  (link_time r n - tolerance 1 (link_time r n) <= inject_Z (txTime rate n) <=
     link_time r n + tolerance 1 (link_time r n))%Q /\ 0 <= txTime rate n.
Proof.
  intros Hrate Hr [Hn Hb]. destruct (f64_of_Z_exact n Hn) as (m1 & e1 & En & E1).
  destruct rate as [[]| | |[] m2 e2]; cbn [stands_for] in Hrate; try done; [lra|].
  set (x := ((inject_Z (Z.pos m1) * pow2 e1) / (inject_Z (Z.pos m2) * pow2 e2))%Q).
  assert (link_time r n == x * (1000000000 # 1))%Q as ET.
  { unfold x, link_time. rewrite E1, Hrate. field. pose proof (pow2_pos e2).
    split; [lra|discriminate]. }
  assert (0 < x)%Q as Hx.
  { unfold x, Qdiv. apply Qmult_lt_0_compat; [|apply Qinv_lt_0_compat]; apply finite_pos. }
  unfold tolerance. change (inject_Z (2 * 1)) with (2 # 1)%Q. rewrite ET in Hb |- *. unfold txTime. rewrite En.
  assert (pow2 (-1075) <= pow2 (-60))%Q as Hsmall by (apply pow2_le; lia).
  assert (pow2 62 <= pow2 1023)%Q as Hlarge by (apply pow2_le; lia).
  destruct (f64_div_rounds m1 e1 m2 e2) as (q & Hd & Hq).
  { fold x. eapply Qlt_le_trans; [|exact Hlarge]. lra. }
  fold x in Hq. unfold rounds in Hq. pose proof (pow2_pos (-1075)) as Hp0. clear Hlarge.
  set (eta := pow2 (-1075)) in *.
  change (pow2 (-53)) with (1 # 9007199254740992)%Q in *.
  change (pow2 (-51)) with (1 # 2251799813685248)%Q in *.
  change (pow2 (-60)) with (1 # 1152921504606846976)%Q in *.
  change (pow2 62) with (4611686018427387904 # 1)%Q in *.
  destruct (nanoseconds _ q Hd) as (t & Ht & Hrt).
  { change (pow2 63) with (9223372036854775808 # 1)%Q. lra. }
  unfold rounds in Hrt. fold eta in Hrt. change (pow2 (-53)) with (1 # 9007199254740992)%Q in *.
  destruct (f64_to_int64_floor _ t Ht) as [Hfl H0].
  { change (pow2 63) with (9223372036854775808 # 1)%Q. lra. }
  split; [split; lra|done].
Qed.

(** ** The link as a queue *)

(** What became of an admitted packet: its size, when it arrived and how long it
    waits. *)
Record Departure := mkDep { nbytes : Z; arrived : Z; waits : Z }.

Definition leaves (d : Departure) : Z := arrived d + waits d.

(** A sequence of arrivals, as (size, time). *)
Fixpoint run (arrivals : list (Z * Z)) (s : shaper) : list Departure * shaper :=
  match arrivals with
  | [] => ([], s)
  | (size, now) :: arrivals =>
      let (w, s') := shaper_admit size now s in
      let (deps, s'') := run arrivals s' in
      (match w with Some wait => [mkDep size now wait] | None => [] end ++ deps, s'')
  end.

(** Each packet leaves when it has arrived and the one before it has had its
    time on the link. *)
Fixpoint served (rate : float64) (free : option Z) (deps : list Departure) : Prop :=
  match deps with
  | [] => True
  | d :: deps =>
      leaves d = match free with Some t => Z.max t (arrived d) | None => arrived d end /\
      served rate (Some (leaves d + txTime rate (nbytes d))) deps
  end.

Lemma run_served arrivals : forall s,
  Forall (fun a => 0 < a.1) arrivals -> 0 <= maxBacklog s ->
  let deps := (run arrivals s).1 in
  served (bytesPerSec s) (nextFree s) deps /\
  Forall (fun d => 0 <= waits d <= maxBacklog s) deps /\
  map (fun d => (nbytes d, arrived d)) deps `sublist_of` arrivals.
Proof.
  induction arrivals as [|[size now] arrivals IH]; intros s Hpos Hb; cbn [run].
  { split_and!; [done|constructor|constructor]. }
  apply Forall_cons_iff in Hpos as [Hs Hpos]. cbn [fst] in Hs.
  unfold shaper_admit. rewrite (proj2 (Z.leb_gt _ _)) by lia. cbv zeta.
  destruct (Z.ltb_spec (maxBacklog s) (start_of now s - now)) as [Hfull|Hok].
  - assert (Some (start_of now s) = nextFree s) as Ef.
    { unfold start_of in *. destruct (nextFree s); [f_equal; lia|lia]. }
    rewrite Ef. set (s' := mkShaper _ _ _ _ _ _). destruct (IH s' Hpos Hb) as (I1 & I2 & I3).
    destruct (run arrivals s') as [deps s'']. cbn [fst app] in *. split_and!; [done..|].
    by apply sublist_cons.
  - set (s' := mkShaper _ _ _ _ _ _). destruct (IH s' Hpos Hb) as (I1 & I2 & I3).
    destruct (run arrivals s') as [deps s'']. cbn [fst app served map] in *.
    assert (leaves (mkDep size now (start_of now s - now)) = start_of now s) as El
      by (unfold leaves; cbn [arrived waits]; lia).
    rewrite El. split_and!; [by unfold start_of|exact I1| |by apply sublist_skip].
    constructor; [|exact I2]. cbn [waits]. unfold start_of in *. destruct (nextFree s); lia.
Qed.

Lemma run_accounts arrivals : forall s,
  Forall (fun a => 0 < a.1) arrivals -> 0 <= dropped s ->
  dropped s + Z.of_nat (length arrivals) < 2 ^ 63 ->
  Z.of_nat (length (run arrivals s).1) + dropped (run arrivals s).2 =
    Z.of_nat (length arrivals) + dropped s.
Proof.
  induction arrivals as [|[size now] arrivals IH]; intros s Hpos H0 Hb; [cbn; lia|].
  cbn [run length] in *. apply Forall_cons_iff in Hpos as [Hs Hpos]. cbn [fst] in Hs.
  unfold shaper_admit. rewrite (proj2 (Z.leb_gt _ _)) by lia. cbv zeta.
  destruct (maxBacklog s <? start_of now s - now).
  - set (s' := mkShaper _ _ _ _ _ _). assert (dropped s' = dropped s + 1) as Hd.
    { unfold s'. cbn [dropped]. apply wrap_s_small; lia. }
    specialize (IH s' Hpos). destruct (run arrivals s') as [deps s'']. cbn [fst snd app] in *. lia.
  - set (s' := mkShaper _ _ _ _ _ _). assert (dropped s' = dropped s) as Hd by done.
    specialize (IH s' Hpos). destruct (run arrivals s') as [deps s'']. cbn [fst snd app length] in *.
    lia.
Qed.

Lemma served_suffix rate pre deps : forall free,
  served rate free (pre ++ deps) -> exists free', served rate free' deps.
Proof.
  induction pre as [|d pre IH]; intros free H; [by exists free|]. destruct H as [_ H]. by eapply IH.
Qed.

Definition bytes (deps : list Departure) : Z := foldr (fun d n => nbytes d + n) 0 deps.

Lemma link_time_add r a b : (link_time r (a + b) == link_time r a + link_time r b)%Q.
Proof. unfold link_time, Qdiv. rewrite inject_Z_plus. ring. Qed.

(** What leaves from one packet up to another had its time on the link. *)
Lemma served_paces rate r q post mid : stands_for rate r -> (0 < r)%Q -> forall p free,
  served rate free (p :: mid ++ q :: post) ->
  Forall (fun d => carries r (nbytes d)) (p :: mid) ->
  let t := link_time r (bytes (p :: mid)) in
  (t - tolerance (Z.of_nat (length (p :: mid))) t <= inject_Z (leaves q - leaves p))%Q.
Proof.
  intros Hrate Hr. induction mid as [|p' mid IH]; intros p free [_ Hs] Hc t; unfold t; clear t;
    apply Forall_cons_iff in Hc as [Hp Hc].
  - destruct (txTime_rate rate r _ Hrate Hr Hp) as [[Hlo _] _]. destruct Hs as [Hq _].
    cbn [bytes foldr]. rewrite Z.add_0_r. change (Z.of_nat (length [p])) with 1.
    eapply Qle_trans; [exact Hlo|]. rewrite <- Zle_Qle. lia.
  - specialize (IH p' _ Hs Hc). cbv zeta in IH.
    destruct (txTime_rate rate r _ Hrate Hr Hp) as [[Hlo _] _]. destruct Hs as [Hq _].
    change (bytes (p :: p' :: mid)) with (nbytes p + bytes (p' :: mid)).
    change (length (p :: p' :: mid)) with (S (length (p' :: mid))).
    rewrite Nat2Z.inj_succ. unfold tolerance in *. rewrite link_time_add.
    replace (2 * Z.succ (Z.of_nat (length (p' :: mid))))
      with (2 * Z.of_nat (length (p' :: mid)) + 2 * 1) by lia. rewrite inject_Z_plus.
    assert (inject_Z (txTime rate (nbytes p)) + inject_Z (leaves q - leaves p') <=
              inject_Z (leaves q - leaves p))%Q.
    { rewrite <- inject_Z_plus, <- Zle_Qle. lia. }
    lra.
Qed.

(** A packet that had to wait left as soon as the one before it was through. *)
Lemma served_busy rate r p q post free : stands_for rate r -> (0 < r)%Q ->
  served rate free (p :: q :: post) -> carries r (nbytes p) ->
  waits q = 0 \/
  let t := link_time r (nbytes p) in (inject_Z (leaves q - leaves p) <= t + tolerance 1 t)%Q.
Proof.
  intros Hrate Hr (_ & Hq & _) Hp. destruct (txTime_rate rate r _ Hrate Hr Hp) as [[_ Hhi] _].
  destruct (decide (leaves q = arrived q)) as [E|Hne].
  - left. unfold leaves in E. lia.
  - right. cbv zeta. eapply Qle_trans; [|exact Hhi]. rewrite <- Zle_Qle. lia.
Qed.

(** C40: a shaped link carries packets at its rate, never faster, in order and
    without queueing beyond its limit.  Take a finite positive rate of [r] bytes
    per second and any arrivals, each of at least one byte and fewer than [2^53],
    and of less than [2^62] nanoseconds on such a link.  Then the admitted packets are arrivals in
    their order; the first leaves at once; between the departures of any two
    admitted packets there is the exact time the bytes in between take at [r],
    up to the stated tolerance for the float arithmetic; a packet that had to
    wait leaves no later after its predecessor than the predecessor's bytes take,
    up to the tolerance; no packet waits longer than the backlog limit, and every
    packet that was not admitted is counted as dropped.  The rates outside are
    the infinite one and the one that is not a number, which [ParseRate] accepts:
    a packet then occupies the link for the smallest [int64] or for no time. *)
Theorem shaper_paces_link rate r backlog arrivals :
  stands_for rate r -> (0 < r)%Q ->
  Forall (fun a => carries r a.1) arrivals ->
  Z.of_nat (length arrivals) < 2 ^ 63 ->
  let '(deps, s) := run arrivals (newShaper rate backlog) in
  map (fun d => (nbytes d, arrived d)) deps `sublist_of` arrivals /\
  (forall d rest, deps = d :: rest -> waits d = 0) /\
  (forall pre p mid q post, deps = pre ++ p :: mid ++ q :: post ->
     let t := link_time r (bytes (p :: mid)) in
     (t - tolerance (Z.of_nat (length (p :: mid))) t <= inject_Z (leaves q - leaves p))%Q) /\
  (forall pre p q post, deps = pre ++ p :: q :: post ->
     waits q = 0 \/
     let t := link_time r (nbytes p) in (inject_Z (leaves q - leaves p) <= t + tolerance 1 t)%Q) /\
  Forall (fun d => 0 <= waits d <= (if backlog <=? 0 then DefaultShaperBacklog else backlog)) deps /\
  Z.of_nat (length deps) + dropped s = Z.of_nat (length arrivals).
Proof.
  intros Hrate Hr Hc Hlen. set (s0 := newShaper rate backlog).
  assert (Forall (fun a : Z * Z => 0 < a.1) arrivals) as Hpos.
  { eapply Forall_impl; [exact Hc|]. intros a [[H _] _]. exact H. }
  assert (0 <= maxBacklog s0) as Hb.
  { unfold s0, newShaper, DefaultShaperBacklog. cbn [maxBacklog]. destruct (Z.leb_spec backlog 0); lia. }
  destruct (run_served arrivals s0 Hpos Hb) as (Hs & Hw & Hsub).
  pose proof (run_accounts arrivals s0 Hpos ltac:(cbn; lia) Hlen) as Ha.
  destruct (run arrivals s0) as [deps s]. cbn [fst snd] in *.
  assert (Forall (fun d => carries r (nbytes d)) deps) as Hd.
  { apply (Forall_map (fun d => (nbytes d, arrived d)) (fun a => carries r a.1)).
    apply Forall_forall. intros a Ha'. eapply Forall_forall in Hc; [exact Hc|].
    eapply elem_of_submseteq; [exact Ha'|]. by apply sublist_submseteq. }
  split_and!; [done| | | |done|cbn [dropped s0 newShaper] in Ha; lia].
  - intros d rest ->. destruct Hs as [Hl _]. unfold leaves in Hl. cbn in Hl. lia.
  - intros pre p mid q post ->. apply served_suffix in Hs as [free Hs].
    apply Forall_app in Hd as [_ Hd]. rewrite app_comm_cons in Hd. apply Forall_app in Hd as [Hd _].
    by eapply served_paces.
  - intros pre p q post ->. apply served_suffix in Hs as [free Hs].
    apply Forall_app in Hd as [_ [Hd _]%Forall_cons_iff]. by eapply served_busy.
Qed.

(** A 1 Mbit link fed 1500-byte packets: 12 ms each. *)
Definition mbit : float64 := f64_of_Z 125000.

Lemma mbit_rate : stands_for mbit (125000 # 1).
Proof. vm_compute. reflexivity. Qed.

Definition packets : list (Z * Z) := [(1500, 0); (1500, 0); (1500, 1000000)].

Lemma shaper_paces_link_witness :
  let '(deps, s) := run packets (newShaper mbit 15000000) in
  map leaves deps = [0; 12000000] /\ Z.of_nat (length deps) + dropped s = 3.
Proof.
  pose proof (shaper_paces_link mbit (125000 # 1) 15000000 packets mbit_rate) as H.
  assert (map leaves (run packets (newShaper mbit 15000000)).1 = [0; 12000000]) as Hl
    by (vm_compute; reflexivity).
  destruct (run _ _) as [deps s] in H, Hl |- *. split; [exact Hl|].
  apply H; [reflexivity| |reflexivity].
  repeat constructor; by vm_compute.
Defined.

End Shaper.
