(* ===== verification/Packet.v ===== *)
(** * Packets: parsing, corruption, rewriting and resets
    ([internal/netfault/packetview.go] and the packet-level half of [endpoint.go])

    Packet buffers and header codecs belong to gVisor and are not part of the
    repository: [Headers] is the interface, whose laws are the header layouts of
    RFC 791, RFC 793 and RFC 768 and the checksum of RFC 1071.  [Wire] is an
    implementation that satisfies it.  Bytes are integers from 0 to 255. *)

From stdpp Require Import base sets strings list numbers pretty.
From Stdlib Require Import ZArith Lia SpecFloat Ascii.
From S2P Require Import Prelude GoStd NetRule.
Import PacketView.
Local Open Scope Z_scope.

Definition byte (z : Z) : Prop := 0 <= z < 256.

(** ** The header interface *)

(** The 16-bit ones' complement sum of RFC 1071, of an integer sum of words. *)
Definition oc_fold (t : Z) : Z := if t =? 0 then 0 else (t - 1) mod 65535 + 1.

(** The sum of the big-endian 16-bit words of a byte string, padded with a zero
    byte when its length is odd. *)
Fixpoint word_sum (b : list Z) : Z :=
  match b with
  | [] => 0
  | [x] => x * 256
  | x :: y :: b => x * 256 + y + word_sum b
  end.

(** A 16-bit field in network byte order. *)
Definition put16 (off : nat) (v : Z) (b : list Z) : list Z :=
  <[off := v / 256]> (<[S off := v mod 256]> b).

Definition get16 (off : nat) (b : list Z) : Z := (b !!! off) * 256 + (b !!! S off).

Record TCPFields := mkTCP {
  tSrcPort : Z; tDstPort : Z; tSeqNum : Z; tAckNum : Z; tDataOffset : Z; tFlags : Z;
  tWindowSize : Z }.

Class Headers := {
  IPv4MinimumSize : Z;
  TCPMinimumSize : Z;
  UDPMinimumSize : Z;
  (* an IPv4 header at the start of a byte string *)
  IPv4_IsValid : list Z -> bool;
  IPv4_HeaderLength : list Z -> Z;
  IPv4_Source : list Z -> list Z;
  IPv4_Destination : list Z -> list Z;
  IPv4_Protocol : list Z -> Z;
  Address_String : list Z -> string;
  (* a TCP or UDP header at the start of a byte string *)
  TCP_DataOffset : list Z -> Z;
  TCP_Flags : list Z -> Z;
  TCP_Seq : list Z -> Z;
  TCP_Ack : list Z -> Z;
  TCP_Window : list Z -> Z;
  Port_Source : list Z -> Z;
  Port_Destination : list Z -> Z;
  TCP_SetChecksum : Z -> list Z -> list Z;
  UDP_SetChecksum : Z -> list Z -> list Z;
  TCP_SetWindowSize : Z -> list Z -> list Z;
  (* checksums *)
  PseudoHeaderChecksum : Z -> list Z -> list Z -> Z -> Z;
  Checksum : list Z -> Z -> Z;
  (* encoders, of a minimal header *)
  IPv4_Encode : Z -> Z -> Z -> list Z -> list Z -> list Z;   (* total, ttl, proto, src, dst *)
  IPv4_SetChecksum : Z -> list Z -> list Z;
  IPv4_CalculateChecksum : list Z -> Z;
  TCP_Encode : TCPFields -> list Z;
  (* laws *)
  minimum_sizes : IPv4MinimumSize = 20 /\ TCPMinimumSize = 20 /\ UDPMinimumSize = 8;
  address_bytes : forall b, IPv4MinimumSize <= Z.of_nat (length b) -> Forall byte b ->
    (length (IPv4_Source b) = 4%nat /\ Forall byte (IPv4_Source b)) /\
    (length (IPv4_Destination b) = 4%nat /\ Forall byte (IPv4_Destination b));
  Address_String_quad : forall w x y z,
    Address_String [w; x; y; z] =
      show_Z w +:+ "." +:+ show_Z x +:+ "." +:+ show_Z y +:+ "." +:+ show_Z z;
  field_ranges : forall b, Forall byte b ->
    0 <= Port_Source b < 65536 /\ 0 <= Port_Destination b < 65536 /\
    0 <= TCP_Seq b < 2 ^ 32 /\ 0 <= TCP_Ack b < 2 ^ 32 /\ 0 <= IPv4_CalculateChecksum b < 65536;
  IPv4_SetChecksum_layout : forall c b, 0 <= c < 65536 -> 20 <= Z.of_nat (length b) ->
    IPv4_SetChecksum c b = put16 10 c b;
  TCP_SetChecksum_layout : forall c b, 0 <= c < 65536 -> 20 <= Z.of_nat (length b) ->
    TCP_SetChecksum c b = put16 16 c b;
  UDP_SetChecksum_layout : forall c b, 0 <= c < 65536 -> 8 <= Z.of_nat (length b) ->
    UDP_SetChecksum c b = put16 6 c b;
  TCP_SetWindowSize_layout : forall w b, 0 <= w < 65536 -> 20 <= Z.of_nat (length b) ->
    TCP_SetWindowSize w b = put16 14 w b;
  pseudo_range : forall p s d n, 0 <= PseudoHeaderChecksum p s d n < 65536;
  Checksum_rfc1071 : forall b init, Forall byte b -> 0 <= init < 65536 ->
    Checksum b init = oc_fold (init + word_sum b);
  IPv4_Encode_reads : forall total ttl proto src dst,
    20 <= total < 65536 -> byte ttl -> byte proto ->
    length src = 4%nat -> Forall byte src -> length dst = 4%nat -> Forall byte dst ->
    let h := IPv4_Encode total ttl proto src dst in
    length h = 20%nat /\ Forall byte h /\
    forall c payload, 0 <= c < 65536 -> total = 20 + Z.of_nat (length payload) ->
      let b := put16 10 c h ++ payload in
      IPv4_IsValid b = true /\ IPv4_HeaderLength b = 20 /\ IPv4_Source b = src /\
      IPv4_Destination b = dst /\ IPv4_Protocol b = proto;
  TCP_Encode_reads : forall f,
    0 <= tSrcPort f < 65536 -> 0 <= tDstPort f < 65536 -> 0 <= tSeqNum f < 2 ^ 32 ->
    0 <= tAckNum f < 2 ^ 32 -> tDataOffset f = 20 -> 0 <= tFlags f < 256 ->
    0 <= tWindowSize f < 65536 ->
    let b := TCP_Encode f in
    length b = 20%nat /\ Forall byte b /\ get16 16 b = 0 /\
    forall c, 0 <= c < 65536 -> let b := put16 16 c b in
      Port_Source b = tSrcPort f /\ Port_Destination b = tDstPort f /\ TCP_Seq b = tSeqNum f /\
      TCP_Ack b = tAckNum f /\ TCP_DataOffset b = 20 /\ TCP_Flags b = tFlags f /\
      TCP_Window b = tWindowSize f }.

Definition TCPProtocolNumber : Z := 6.
Definition UDPProtocolNumber : Z := 17.
Definition ICMPv4ProtocolNumber : Z := 1.

Module Packet.
Section Packet.
Context `{Headers}.

(** ** Packet buffers *)

(** A packet buffer is the list of its views. *)
Definition PacketBuffer := list (list Z).

(** [PacketBytes]: the bytes, and whether writing them writes the packet. *)
Definition PacketBytes (pkt : PacketBuffer) : list Z * bool :=
  match pkt with
  | [] => ([], false)
  | [v] => (v, true)
  | vs => (List.concat vs, false)
  end.

(** ** Parsing *)

Definition Parse (pkt : PacketBuffer) (dir : Direction) : option PacketView :=
  let b := (PacketBytes pkt).1 in
  let blen := Z.of_nat (length b) in
  if blen <? IPv4MinimumSize then None
  else if negb (IPv4_IsValid b) then None
  else
    let hlen := IPv4_HeaderLength b in
    if (hlen <? IPv4MinimumSize) || (blen <? hlen) then None
    else
      let src := Address_String (IPv4_Source b) in
      let dst := Address_String (IPv4_Destination b) in
      let rest := drop (Z.to_nat hlen) b in
      let rlen := Z.of_nat (length rest) in
      let proto := IPv4_Protocol b in
      let pv :=
        if proto =? TCPProtocolNumber then
          if rlen <? TCPMinimumSize then None
          else
            let off := TCP_DataOffset rest in
            if (off <? TCPMinimumSize) || (rlen <? off) then None
            else Some (mkView ProtoTCP dir src dst (Port_Source rest) (Port_Destination rest)
                         (rlen - off) (clampPayload (drop (Z.to_nat off) rest))
                         (TCP_Flags rest) (TCP_Seq rest) (TCP_Ack rest) (TCP_Window rest) 0 "")
        else if proto =? UDPProtocolNumber then
          if rlen <? UDPMinimumSize then None
          else Some (mkView ProtoUDP dir src dst (Port_Source rest) (Port_Destination rest)
                       (rlen - UDPMinimumSize)
                       (clampPayload (drop (Z.to_nat UDPMinimumSize) rest)) 0 0 0 0 0 "")
        else
          Some (mkView (if proto =? ICMPv4ProtocolNumber then ProtoICMP else ProtoOther) dir src dst
                  0 0 rlen (clampPayload rest) 0 0 0 0 0 "") in
      match pv with
      | None => None
      | Some pv => Some (set_Flow (flowID pv) pv)
      end.

(** ** Checksums and mutation *)

(** [recomputeChecksum] on the transport part of a packet. *)
Definition recomputeChecksum (ip rest : list Z) (proto : string) : list Z :=
  let fix_up (number : Z) (set_checksum : Z -> list Z -> list Z) :=
    let rest := set_checksum 0 rest in
    let xsum := PseudoHeaderChecksum number (IPv4_Source ip) (IPv4_Destination ip)
                  (u16 (Z.of_nat (length rest))) in
    set_checksum (65535 - Checksum rest xsum) rest in
  if String.eqb proto ProtoTCP then fix_up TCPProtocolNumber TCP_SetChecksum
  else if String.eqb proto ProtoUDP then fix_up UDPProtocolNumber UDP_SetChecksum
  else rest.

(** Bytes [start..end_) of a payload rewritten one by one; a random byte comes
    from the source. *)
Section Mutate.
Context {G : Type} `{!RandSource G}.

Fixpoint mutate (mode : string) (i start end_ : Z) (payload : list Z) (g : G) : list Z * G :=
  match payload with
  | [] => ([], g)
  | x :: payload =>
      if (start <=? i) && (i <? end_) then
        let '(y, g) :=
          if String.eqb mode "zero" then (0, g)
          else if String.eqb mode "random" then let (v, g) := intn 256 g in (u8 v, g)
          else (Z.lxor x 255, g) in
        let (ys, g) := mutate mode (i + 1) start end_ payload g in (y :: ys, g)
      else
        let (ys, g) := mutate mode (i + 1) start end_ payload g in (x :: ys, g)
  end.

(** Where the transport payload starts, when the packet has one. *)
Definition payload_offset (proto : string) (rest : list Z) : option Z :=
  let rlen := Z.of_nat (length rest) in
  if String.eqb proto ProtoTCP then
    if rlen <? TCPMinimumSize then None else Some (TCP_DataOffset rest)
  else if String.eqb proto ProtoUDP then
    if rlen <? UDPMinimumSize then None else Some UDPMinimumSize
  else None.

(** [corrupt]: the packet afterwards, whether the mutation had to be skipped
    because the packet spans views, and the source. *)
Definition corrupt (pkt : PacketBuffer) (r : Rule.Rule) (pv : PacketView) (g : G)
    : PacketBuffer * bool * G :=
  let '(b, aliased) := PacketBytes pkt in
  if negb aliased then (pkt, true, g)
  else if Z.of_nat (length b) <? IPv4MinimumSize then (pkt, false, g)
  else
    let hlen := IPv4_HeaderLength b in
    if Z.of_nat (length b) <? hlen then (pkt, false, g)
    else
      let rest := drop (Z.to_nat hlen) b in
      match payload_offset (Proto pv) rest with
      | None => (pkt, false, g)
      | Some off =>
          if Z.of_nat (length rest) <? off then (pkt, false, g)
          else
            let payload := drop (Z.to_nat off) rest in
            let start := Rule.CorruptOffset r in
            if Z.of_nat (length payload) <=? start then (pkt, false, g)
            else
              let end_ := Z.min (start + Rule.CorruptLength r) (Z.of_nat (length payload)) in
              let (payload, g) := mutate (Rule.CorruptMode r) 0 start end_ payload g in
              let rest := take (Z.to_nat off) rest ++ payload in
              let rest := if String.eqb (Rule.Checksum r) "fix"
                          then recomputeChecksum b rest (Proto pv) else rest in
              ([take (Z.to_nat hlen) b ++ rest], false, g)
      end.

End Mutate.

(** [rewriteWindow]. *)
Definition rewriteWindow (pkt : PacketBuffer) (r : Rule.Rule) : PacketBuffer * bool :=
  let '(b, aliased) := PacketBytes pkt in
  if negb aliased then (pkt, true)
  else if Z.of_nat (length b) <? IPv4MinimumSize then (pkt, false)
  else
    let hlen := IPv4_HeaderLength b in
    if Z.of_nat (length b) <? hlen then (pkt, false)
    else
      let rest := drop (Z.to_nat hlen) b in
      if negb (IPv4_Protocol b =? TCPProtocolNumber) || (Z.of_nat (length rest) <? TCPMinimumSize)
      then (pkt, false)
      else
        let rest := recomputeChecksum b (TCP_SetWindowSize (Rule.WindowSize r) rest) ProtoTCP in
        ([take (Z.to_nat hlen) b ++ rest], false).

(** ** Resets *)

(** [parseIPv4]: [n] is the field being read, [out] the fields read. *)
Fixpoint parse_fields (s : string) (n : Z) (out : list Z) : option (list Z) :=
  match s with
  | EmptyString => if (length out =? 3)%nat then Some (out ++ [n]) else None
  | String c s =>
      match digit_of c with
      | Some d => let n := n * 10 + d in if 255 <? n then None else parse_fields s n out
      | None =>
          if Ascii.eqb c "." then
            if (3 <=? length out)%nat then None else parse_fields s 0 (out ++ [n])
          else None
      end
  end.

Definition parseIPv4 (s : string) : option (list Z) := parse_fields s 0 [].

Definition buildRST (pv : PacketView) : option PacketBuffer :=
  if negb (String.eqb (Proto pv) ProtoTCP) then None
  else
    match parseIPv4 (DstIP pv), parseIPv4 (SrcIP pv) with
    | Some src, Some dst =>
        let ip := IPv4_Encode 40 64 TCPProtocolNumber src dst in
        let ip := IPv4_SetChecksum 0 ip in
        let ip := IPv4_SetChecksum (65535 - IPv4_CalculateChecksum ip) ip in
        let ackNum := u32 (Seq pv + u32 (PayloadLen pv)) in
        let ackNum := if HasFlags pv FlagSYN || HasFlags pv FlagFIN then u32 (ackNum + 1)
                      else ackNum in
        let t := TCP_Encode (mkTCP (DstPort pv) (SrcPort pv) (Ack pv) ackNum 20
                               (Z.lor FlagRST FlagACK) 0) in
        let xsum := PseudoHeaderChecksum TCPProtocolNumber src dst 20 in
        let t := TCP_SetChecksum (65535 - Checksum t xsum) t in
        Some [ip ++ t]
    | _, _ => None
    end.

(** ** Checksum arithmetic *)

Lemma oc_fold_complete t : 0 <= t -> oc_fold (t + (65535 - oc_fold t)) = 65535.
Proof.
  intros Ht. unfold oc_fold. destruct (Z.eqb_spec t 0) as [->|Hne]; [done|].
  pose proof (Z.mod_pos_bound (t - 1) 65535 ltac:(lia)).
  destruct (Z.eqb_spec (t + (65535 - ((t - 1) mod 65535 + 1))) 0); [lia|].
  replace (t + (65535 - ((t - 1) mod 65535 + 1)) - 1)
    with (65534 + ((t - 1) / 65535) * 65535) by (pose proof (Z.div_mod (t - 1) 65535); lia).
  rewrite Z.mod_add by lia. done.
Qed.

Lemma oc_fold_range t : 0 <= oc_fold t < 65536.
Proof.
  unfold oc_fold. destruct (t =? 0); [lia|].
  pose proof (Z.mod_pos_bound (t - 1) 65535). lia.
Qed.

Lemma length_put16 off v b : length (put16 off v b) = length b.
Proof. unfold put16. by rewrite !length_insert. Qed.

Lemma put16_cons2 off v x y b : put16 (S (S off)) v (x :: y :: b) = x :: y :: put16 off v b.
Proof. done. Qed.

Lemma put16_put16 off v w b : put16 off v (put16 off w b) = put16 off v b.
Proof.
  unfold put16. rewrite (list_insert_insert_ne _ (S off) off) by lia.
  by rewrite !list_insert_insert_eq.
Qed.

Lemma put16_same off b : Forall byte b -> (S off < length b)%nat -> get16 off b = 0 -> put16 off 0 b = b.
Proof.
  intros Hb Hl Hg. unfold get16 in Hg.
  destruct (lookup_lt_is_Some_2 b off) as [x Hx]; [lia|].
  destruct (lookup_lt_is_Some_2 b (S off)) as [y Hy]; [lia|].
  rewrite (list_lookup_total_correct _ _ _ Hx), (list_lookup_total_correct _ _ _ Hy) in Hg.
  pose proof (Forall_lookup_1 _ _ _ _ Hb Hx) as Bx. pose proof (Forall_lookup_1 _ _ _ _ Hb Hy) as By.
  unfold byte in *. assert (x = 0) as -> by lia. assert (y = 0) as -> by lia.
  unfold put16. change (0 / 256) with 0. change (0 mod 256) with 0.
  rewrite (list_insert_id b) by done. by apply list_insert_id.
Qed.

(** Writing an aligned word changes the sum by the difference. *)
Lemma word_sum_put16 k v : forall b, (2 * k + 1 < length b)%nat ->
  word_sum (put16 (2 * k) v b) = word_sum b - get16 (2 * k) b + v.
Proof.
  induction k as [|k IH]; intros [|x [|y b]] Hl; cbn [length] in Hl; try lia.
  - change (word_sum (v / 256 :: v mod 256 :: b) = word_sum (x :: y :: b) - (x * 256 + y) + v).
    cbn [word_sum]. pose proof (Z.div_mod v 256). lia.
  - replace (2 * S k)%nat with (S (S (2 * k))) by lia. rewrite put16_cons2.
    change (get16 (S (S (2 * k))) (x :: y :: b)) with (get16 (2 * k) b).
    cbn [word_sum]. rewrite IH by lia. lia.
Qed.

Lemma get16_put16 off v b :
  0 <= v < 65536 -> (S off < length b)%nat -> get16 off (put16 off v b) = v.
Proof.
  intros Hv Hl. unfold get16, put16.
  rewrite list_lookup_total_insert_eq by (rewrite length_insert; lia).
  rewrite list_lookup_total_insert_ne, list_lookup_total_insert_eq by lia.
  pose proof (Z.div_mod v 256). lia.
Qed.

Lemma byte_put16 off v b : 0 <= v < 65536 -> Forall byte b -> Forall byte (put16 off v b).
Proof.
  intros Hv Hb. unfold put16. apply Forall_insert; [apply Forall_insert; [done|]|]; unfold byte.
  - apply Z.mod_pos_bound. lia.
  - split; [apply Z.div_pos; lia|]. apply Z.div_lt_upper_bound; lia.
Qed.

Lemma word_sum_nonneg b : Forall byte b -> 0 <= word_sum b.
Proof.
  revert b. assert (forall n b, (length b <= n)%nat -> Forall byte b -> 0 <= word_sum b) as Hn.
  { induction n as [|n IH]; intros b Hl Hb; [by destruct b; [|cbn in Hl; lia]|].
    destruct b as [|x [|y b]]; [done| |].
    - apply Forall_cons_iff in Hb as [Hx _]. unfold byte in Hx. cbn. lia.
    - apply Forall_cons_iff in Hb as [Hx [Hy Hb]%Forall_cons_iff]. unfold byte in Hx, Hy.
      cbn [word_sum]. specialize (IH b). cbn in Hl. pose proof (IH ltac:(lia) Hb). lia. }
  intros b. by apply (Hn (length b)).
Qed.

(** The transport checksum a receiver accepts: the segment and its pseudo header
    sum to all ones. *)
Definition checksum_ok (number : Z) (ip rest : list Z) : Prop :=
  oc_fold (PseudoHeaderChecksum number (IPv4_Source ip) (IPv4_Destination ip)
             (u16 (Z.of_nat (length rest))) + word_sum rest) = 65535.

(** Zeroing an aligned checksum field and storing the complement of the sum there
    makes the segment sum to all ones. *)
Lemma stored_checksum_ok number ip rest k :
  Forall byte rest -> (2 * k + 1 < length rest)%nat ->
  let rest0 := put16 (2 * k) 0 rest in
  let xsum := PseudoHeaderChecksum number (IPv4_Source ip) (IPv4_Destination ip)
                (u16 (Z.of_nat (length rest0))) in
  0 <= 65535 - Checksum rest0 xsum < 65536 /\
  checksum_ok number ip (put16 (2 * k) (65535 - Checksum rest0 xsum) rest0).
Proof.
  intros Hb Hl rest0 xsum. pose proof (pseudo_range number (IPv4_Source ip) (IPv4_Destination ip)
    (u16 (Z.of_nat (length rest0)))) as Hx. fold xsum in Hx.
  assert (Forall byte rest0) as Hb0 by (apply byte_put16; [lia|done]).
  assert (length rest0 = length rest) as Hl0 by apply length_put16.
  rewrite Checksum_rfc1071 by done. set (t := xsum + word_sum rest0).
  assert (0 <= t) as Ht by (pose proof (word_sum_nonneg rest0 Hb0); lia).
  pose proof (oc_fold_range t) as Hr. split; [lia|].
  unfold checksum_ok. rewrite length_put16, word_sum_put16 by (rewrite Hl0; lia). fold xsum.
  unfold rest0 at 2. rewrite get16_put16 by lia. fold rest0.
  replace (xsum + (word_sum rest0 - 0 + (65535 - oc_fold t))) with (t + (65535 - oc_fold t))
    by (unfold t; lia).
  by apply oc_fold_complete.
Qed.

(** ** Corruption *)

Lemma byte_flip x : byte x -> byte (Z.lxor x 255).
Proof.
  intros Hx. assert (Forall (fun x => byte (Z.lxor x 255)) (seqZ 0 256)) as HF
    by (unfold byte; by apply (bool_decide_unpack _); vm_compute).
  apply (proj1 (Forall_forall _ _) HF), elem_of_seqZ. unfold byte in Hx. lia.
Qed.

Section MutateLemmas.
Context {G : Type} `{!RandSource G}.

(** One byte of the range, as the mode rewrites it. *)
Definition mutated (mode : string) (x y : Z) : Prop :=
  byte y /\ (mode = "zero" -> y = 0) /\ (mode <> "zero" -> mode <> "random" -> y = Z.lxor x 255).

Lemma mutate_spec mode start end_ payload : forall i (g : G),
  Forall byte payload ->
  let out := (mutate mode i start end_ payload g).1 in
  length out = length payload /\ Forall byte out /\
  forall k x, payload !! k = Some x -> exists y, out !! k = Some y /\
    (if (start <=? i + Z.of_nat k) && (i + Z.of_nat k <? end_) then mutated mode x y else y = x).
Proof.
  induction payload as [|x payload IH]; intros i g Hb; cbn [mutate]; [done|].
  apply Forall_cons_iff in Hb as [Hx Hb].
  set (step := if (start <=? i) && (i <? end_) then
    (if String.eqb mode "zero" then (0, g) else if String.eqb mode "random"
     then let (v, g) := intn 256 g in (u8 v, g) else (Z.lxor x 255, g)) else (x, g)).
  assert (mutate mode i start end_ (x :: payload) g =
    let (ys, g') := mutate mode (i + 1) start end_ payload step.2 in (step.1 :: ys, g')) as E.
  { cbn [mutate]. unfold step. destruct ((start <=? i) && (i <? end_)); [|done].
    destruct (String.eqb mode "zero"); [done|]. destruct (String.eqb mode "random"); [|done].
    by destruct (intn 256 g). }
  cbn [mutate] in E. rewrite E.
  assert (byte step.1 /\ (if (start <=? i) && (i <? end_) then mutated mode x step.1
                          else step.1 = x)) as [Hbs Hs].
  { unfold step, mutated. destruct ((start <=? i) && (i <? end_)); [|done].
    destruct (String.eqb_spec mode "zero") as [->|Hz]; [done|].
    destruct (String.eqb_spec mode "random") as [->|Hr].
    - destruct (intn 256 g) as [v g']. cbn [fst].
      pose proof (wrap_u_range 8 v) as Hv. unfold byte. change (2 ^ 8) with 256 in Hv.
      split; [lia|]. split; [lia|]. naive_solver.
    - cbn [fst]. pose proof (byte_flip x Hx). naive_solver. }
  destruct (IH (i + 1) step.2 Hb) as (I1 & I2 & I3).
  destruct (mutate mode (i + 1) start end_ payload step.2) as [ys g']. cbn [fst length] in *.
  split_and!; [by rewrite I1|by constructor|].
  intros [|k] z Hz; cbn in Hz.
  - simplify_eq. exists step.1. split; [done|]. by rewrite Z.add_0_r.
  - destruct (I3 k z Hz) as (y & Hy & Hy'). exists y. split; [done|].
    by replace (i + Z.of_nat (S k)) with (i + 1 + Z.of_nat k) by lia.
Qed.

End MutateLemmas.

(** What a successful parse establishes about a TCP or UDP packet. *)
Definition transport (proto : string) : option (Z * nat) :=
  if String.eqb proto ProtoTCP then Some (TCPProtocolNumber, 8%nat)
  else if String.eqb proto ProtoUDP then Some (UDPProtocolNumber, 3%nat)
  else None.

Lemma parse_layout b dir pv number k :
  Parse [b] dir = Some pv -> transport (Proto pv) = Some (number, k) ->
  let hlen := IPv4_HeaderLength b in
  let rest := drop (Z.to_nat hlen) b in
  20 <= hlen <= Z.of_nat (length b) /\ 20 <= Z.of_nat (length b) /\
  exists off, payload_offset (Proto pv) rest = Some off /\
    Z.of_nat (2 * k + 2) <= off <= Z.of_nat (length rest) /\
    (number = TCPProtocolNumber -> 20 <= off) /\
    PayloadLen pv = Z.of_nat (length rest) - off.
Proof.
  intros Hp Ht. destruct minimum_sizes as (Em & Et & Eu). unfold Parse in Hp.
  cbn [PacketBytes fst] in Hp. cbv zeta in Hp |- *.
  rewrite Em in Hp. destruct (Z.ltb_spec (Z.of_nat (length b)) 20); [done|].
  destruct (IPv4_IsValid b); [|done]. cbn [negb] in Hp.
  set (hlen := IPv4_HeaderLength b) in *.
  destruct (Z.ltb_spec hlen 20); [done|]. destruct (Z.ltb_spec (Z.of_nat (length b)) hlen); [done|].
  cbn [orb] in Hp. set (rest := drop (Z.to_nat hlen) b) in *.
  split; [lia|]. split; [lia|]. unfold payload_offset. rewrite Et, Eu in *.
  destruct (IPv4_Protocol b =? TCPProtocolNumber).
  - destruct (Z.ltb_spec (Z.of_nat (length rest)) 20); [done|].
    destruct (Z.ltb_spec (TCP_DataOffset rest) 20); [done|].
    destruct (Z.ltb_spec (Z.of_nat (length rest)) (TCP_DataOffset rest)); [done|].
    cbn [orb] in Hp. injection Hp as <-. cbn in Ht. simplify_eq.
    exists (TCP_DataOffset rest). split; [done|]. split_and!; [lia|lia|lia|done].
  - destruct (IPv4_Protocol b =? UDPProtocolNumber).
    + destruct (Z.ltb_spec (Z.of_nat (length rest)) 8); [done|].
      injection Hp as <-. cbn in Ht. simplify_eq. exists 8. split; [done|]. by split_and!; [lia|lia| |].
    + injection Hp as <-. cbn in Ht. by destruct (_ =? _).
Qed.

Lemma recompute_spec proto number k ip rest :
  transport proto = Some (number, k) -> Forall byte rest -> (2 * k + 1 < length rest)%nat ->
  (number = TCPProtocolNumber -> 20 <= Z.of_nat (length rest)) ->
  exists c, 0 <= c < 65536 /\ recomputeChecksum ip rest proto = put16 (2 * k) c (put16 (2 * k) 0 rest) /\
    checksum_ok number ip (recomputeChecksum ip rest proto).
Proof.
  intros Ht Hb Hl Htcp. pose proof (stored_checksum_ok number ip rest k Hb Hl) as [Hc Hok].
  cbv zeta in *. unfold recomputeChecksum, transport in *.
  destruct (String.eqb proto ProtoTCP); [|destruct (String.eqb proto ProtoUDP); [|done]];
    simplify_eq.
  - change (2 * 8)%nat with 16%nat in *. specialize (Htcp eq_refl).
    rewrite (TCP_SetChecksum_layout 0) by lia.
    rewrite TCP_SetChecksum_layout by (done || (rewrite length_put16; lia)). eauto.
  - change (2 * 3)%nat with 6%nat in *.
    rewrite (UDP_SetChecksum_layout 0) by lia.
    rewrite UDP_SetChecksum_layout by (done || (rewrite length_put16; lia)). eauto.
Qed.

Lemma lookup_put16_ne off v b i : i <> off -> i <> S off -> put16 off v b !! i = b !! i.
Proof. intros. unfold put16. by rewrite !list_lookup_insert_ne by done. Qed.

(** The payload rewritten in place, the checksum untouched. *)
Lemma corrupted_bytes {G} `{!RandSource G} mode (base : nat) start end_ b (g : G) :
  (base <= length b)%nat -> Forall byte b ->
  let b1 := take base b ++ (mutate mode 0 start end_ (drop base b) g).1 in
  length b1 = length b /\ Forall byte b1 /\
  forall i x, b !! i = Some x -> exists y, b1 !! i = Some y /\
    (if (base <=? i)%nat && (start <=? Z.of_nat i - Z.of_nat base) && (Z.of_nat i - Z.of_nat base <? end_)
     then mutated mode x y else y = x).
Proof.
  intros Hb Hby b1.
  destruct (mutate_spec mode start end_ (drop base b) 0 g) as (M1 & M2 & M3);
    [by apply Forall_drop|].
  assert (length (take base b) = base) as Hl by (rewrite length_take; lia).
  unfold b1. split_and!.
  - rewrite length_app, M1, Hl, length_drop. lia.
  - apply Forall_app. split; [by apply Forall_take|done].
  - intros i x Hx. destruct (Nat.leb_spec base i) as [Hge|Hlt]; cbn [andb].
    + destruct (M3 (i - base)%nat x) as (y & Hy & Hm).
      { rewrite lookup_drop. by replace (base + (i - base))%nat with i by lia. }
      exists y. rewrite lookup_app_r, Hl by lia. split; [done|].
      by replace (Z.of_nat i - Z.of_nat base) with (0 + Z.of_nat (i - base)) by lia.
    + exists x. rewrite lookup_app_l, lookup_take_lt by lia. done.
Qed.

(** The bytes a rule names: [len] bytes from [start] of the payload at [base]. *)
Definition named_bytes (base : nat) (start len : Z) (i : nat) : bool :=
  (base <=? i)%nat && (start <=? Z.of_nat i - Z.of_nat base) &&
  (Z.of_nat i - Z.of_nat base <? start + len).

(** The range ends with the payload when the rule names more. *)
Lemma named_bytes_end base start n i len :
  (i < len)%nat ->
  named_bytes base start n i =
  (base <=? i)%nat && (start <=? Z.of_nat i - Z.of_nat base) &&
  (Z.of_nat i - Z.of_nat base <? Z.min (start + n) (Z.of_nat len - Z.of_nat base)).
Proof.
  intros Hi. unfold named_bytes. f_equal.
  destruct (Z.ltb_spec (Z.of_nat i - Z.of_nat base) (start + n)); symmetry;
    [apply Z.ltb_lt|apply Z.ltb_ge]; lia.
Qed.

Lemma named_bytes_before base start n i : (i < base)%nat -> named_bytes base start n i = false.
Proof. intros Hi. unfold named_bytes. by rewrite (proj2 (Nat.leb_gt _ _)). Qed.

Lemma corrupt_eq {G} `{!RandSource G} r pv b dir (g : G) number k :
  Parse [b] dir = Some pv -> transport (Proto pv) = Some (number, k) ->
  0 <= Rule.CorruptOffset r < PayloadLen pv ->
  exists base g', let hl := Z.to_nat (IPv4_HeaderLength b) in
    let end_ := Z.min (Rule.CorruptOffset r + Rule.CorruptLength r) (PayloadLen pv) in
    let b1 := take base b ++ (mutate (Rule.CorruptMode r) 0 (Rule.CorruptOffset r) end_ (drop base b) g).1 in
    (hl + 2 * k + 2 <= base <= length b)%nat /\
    PayloadLen pv = Z.of_nat (length b) - Z.of_nat base /\
    (number = TCPProtocolNumber -> 20 <= Z.of_nat (length (drop hl b1))) /\
    corrupt [b] r pv g =
      ([take hl b ++ (if String.eqb (Rule.Checksum r) "fix"
                      then recomputeChecksum b (drop hl b1) (Proto pv) else drop hl b1)], false, g').
Proof.
  intros Hp Ht Hs. destruct (parse_layout b dir pv number k Hp Ht) as (Hh & Hb & off & Hoff & Ho & Ht20 & Hlen).
  cbv zeta in *. set (hl := Z.to_nat (IPv4_HeaderLength b)) in *.
  set (base := (hl + Z.to_nat off)%nat).
  set (end_ := Z.min _ _). set (m := mutate (Rule.CorruptMode r) 0 (Rule.CorruptOffset r) end_ (drop base b) g).
  exists base, m.2.
  assert (length (drop hl b) = length b - hl)%nat as Hrl by apply length_drop.
  assert (take base b ++ m.1 = take hl b ++ take (Z.to_nat off) (drop hl b) ++ m.1) as Eb1.
  { rewrite app_assoc. f_equal. unfold base. symmetry. apply take_take_drop. }
  assert (drop hl (take base b ++ m.1) = take (Z.to_nat off) (drop hl b) ++ m.1) as Erest.
  { rewrite Eb1. apply drop_app_length'. rewrite length_take. lia. }
  fold m. split; [lia|]. split; [rewrite Hlen; lia|]. split.
  - intros Hn. rewrite Erest, length_app, length_take. specialize (Ht20 Hn). lia.
  - unfold corrupt. cbn [PacketBytes negb]. destruct minimum_sizes as (Em & Et & Eu). rewrite Em.
    rewrite (proj2 (Z.ltb_ge _ _)), (proj2 (Z.ltb_ge _ _)) by lia. fold hl. rewrite Hoff.
    rewrite (proj2 (Z.ltb_ge _ _)) by lia. rewrite drop_drop. fold base.
    assert (Z.of_nat (length (drop base b)) = PayloadLen pv) as Epl
      by (rewrite length_drop, Hlen; lia).
    rewrite Epl, (proj2 (Z.leb_gt _ _)) by lia. fold end_. fold m. rewrite Erest.
    by destruct m.
Qed.

(** Whether byte [i] is in the checksum field a repairing rule rewrites. *)
Definition in_checksum (r : Rule.Rule) (hl k i : nat) : bool :=
  String.eqb (Rule.Checksum r) "fix" && ((i =? hl + 2 * k)%nat || (i =? hl + 2 * k + 1)%nat).

(** Repairing the checksum of a segment rewrites two bytes and leaves the rest. *)
Lemma repaired_bytes proto number k ip hl b :
  transport proto = Some (number, k) -> Forall byte b -> (hl + 2 * k + 2 <= length b)%nat ->
  (number = TCPProtocolNumber -> 20 <= Z.of_nat (length (drop hl b))) ->
  let b' := take hl b ++ recomputeChecksum ip (drop hl b) proto in
  length b' = length b /\ checksum_ok number ip (drop hl b') /\
  forall i, i <> (hl + 2 * k)%nat -> i <> (hl + 2 * k + 1)%nat -> b' !! i = b !! i.
Proof.
  intros Ht Hb Hl H20 b'. assert (length (take hl b) = hl) as Hlt by (rewrite length_take; lia).
  destruct (recompute_spec proto number k ip (drop hl b)) as (c & Hcr & Ec & Hok);
    [done|by apply Forall_drop|rewrite length_drop; lia|done|].
  unfold b'. split_and!.
  - rewrite Ec, length_app, !length_put16, length_drop. lia.
  - by rewrite drop_app_length'.
  - intros i Hi1 Hi2. transitivity ((take hl b ++ drop hl b) !! i); [|by rewrite take_drop].
    destruct (decide (i < hl)%nat).
    + by rewrite !lookup_app_l by lia.
    + rewrite !lookup_app_r by lia. by rewrite Ec, !lookup_put16_ne by lia.
Qed.

End Packet.

(** a corruption rule damages exactly what it names.  For a parsed TCP or UDP
    packet held in one view whose payload reaches the rule's offset, every byte in
    the named range is rewritten by the mode (zeroed, flipped or random), every
    other byte of the packet is unchanged, except the transport checksum when the
    rule repairs it, and then the repaired segment passes the receiver's check. *)
Theorem corrupt_exact `{Headers} {G} `{!RandSource G} r pv b dir (g : G) number k :
  Parse [b] dir = Some pv -> transport (Proto pv) = Some (number, k) -> Forall byte b ->
  0 <= Rule.CorruptOffset r < PayloadLen pv ->
  exists b' g' base, let hl := Z.to_nat (IPv4_HeaderLength b) in
    corrupt [b] r pv g = ([b'], false, g') /\ length b' = length b /\
    PayloadLen pv = Z.of_nat (length b) - Z.of_nat base /\
    (forall i x, b !! i = Some x -> exists y, b' !! i = Some y /\
       (if named_bytes base (Rule.CorruptOffset r) (Rule.CorruptLength r) i
        then mutated (Rule.CorruptMode r) x y
        else if in_checksum r hl k i then True else y = x)) /\
    (Rule.Checksum r = "fix" -> checksum_ok number b (drop hl b')).
Proof.
  intros Hp Ht Hb Hs.
  destruct (corrupt_eq r pv b dir g number k Hp Ht Hs) as (base & g' & Hbase & Hpl & H20 & Hc).
  cbv zeta in *. set (hl := Z.to_nat (IPv4_HeaderLength b)) in *. set (end_ := Z.min _ _) in *.
  set (b1 := take base b ++ (mutate (Rule.CorruptMode r) 0 (Rule.CorruptOffset r) end_ (drop base b) g).1) in *.
  destruct (corrupted_bytes (Rule.CorruptMode r) base (Rule.CorruptOffset r) end_ b g) as (L1 & B1 & E1);
    [lia|done|]. fold b1 in L1, B1, E1.
  assert (take hl b = take hl b1) as Etake.
  { unfold b1. rewrite take_app_le by (rewrite length_take; lia). rewrite take_take. f_equal. lia. }
  assert (forall i x, b !! i = Some x -> exists y, b1 !! i = Some y /\
    (if named_bytes base (Rule.CorruptOffset r) (Rule.CorruptLength r) i
     then mutated (Rule.CorruptMode r) x y else y = x)) as E2.
  { intros i x Hx. destruct (E1 i x Hx) as (y & Hy & Hm). exists y. split; [done|].
    apply lookup_lt_Some in Hx. rewrite named_bytes_end with (len := length b) by lia.
    by rewrite <- Hpl. }
  rewrite Etake in Hc. unfold in_checksum. destruct (String.eqb_spec (Rule.Checksum r) "fix") as [Ef|Ef].
  - destruct (repaired_bytes (Proto pv) number k b hl b1) as (L2 & Hok & Eq); [done|done|lia|done|].
    exists (take hl b1 ++ recomputeChecksum b (drop hl b1) (Proto pv)), g', base.
    rewrite L2. split_and!; [done|done|done| |done].
    intros i x Hx. destruct (E2 i x Hx) as (y & Hy & Hm). cbn [andb].
    destruct ((i =? hl + 2 * k)%nat || (i =? hl + 2 * k + 1)%nat) eqn:Hi.
    + rewrite orb_true_iff, !Nat.eqb_eq in Hi. apply lookup_lt_Some in Hx.
      rewrite named_bytes_before by lia.
      destruct (lookup_lt_is_Some_2 (take hl b1 ++ recomputeChecksum b (drop hl b1) (Proto pv)) i)
        as [z Hz]; [lia|]. by exists z.
    + rewrite orb_false_iff, !Nat.eqb_neq in Hi. exists y. rewrite Eq by lia.
      split; [done|by destruct (named_bytes _ _ _ _)].
  - rewrite take_drop in Hc. exists b1, g', base. split; [done|].
    split; [done|]. split; [done|]. split; [exact E2|by intros].
Qed.

(** ** Resets *)

Section Reset.
Context `{Headers}.

(** The value of a run of digits that stays within a byte. *)
Fixpoint run_digits (s : string) (n : Z) : option Z :=
  match s with
  | EmptyString => Some n
  | String c s =>
      match digit_of c with
      | Some d => if 255 <? n * 10 + d then None else run_digits s (n * 10 + d)
      | None => None
      end
  end.

Lemma parse_fields_digits t s m out : forall n,
  run_digits t n = Some m -> parse_fields (t +:+ s) n out = parse_fields s m out.
Proof.
  induction t as [|c t IH]; intros n E; cbn [run_digits] in E.
  - by simplify_eq.
  - rewrite string_app_cons. cbn [parse_fields]. destruct (digit_of c); [|done].
    destruct (255 <? _); [done|]. by apply IH.
Qed.

Lemma run_digits_show w : byte w -> run_digits (show_Z w) 0 = Some w.
Proof.
  intros Hw. assert (Forall (fun w => run_digits (show_Z w) 0 = Some w) (seqZ 0 256)) as HF
    by (by apply (bool_decide_unpack _); vm_compute).
  apply (proj1 (Forall_forall _ _) HF), elem_of_seqZ. unfold byte in Hw. lia.
Qed.

Lemma parse_fields_dot s n out :
  (length out < 3)%nat -> parse_fields ("." +:+ s) n out = parse_fields s 0 (out ++ [n]).
Proof. intros Hl. destruct out as [|? [|? [|? out]]]; [done..|cbn in Hl; lia]. Qed.

(** Reading back a printed address. *)
Lemma parseIPv4_print a : length a = 4%nat -> Forall byte a -> parseIPv4 (Address_String a) = Some a.
Proof.
  intros Hl Hb. destruct a as [|w [|x [|y [|z [|]]]]]; try done.
  rewrite !Forall_cons_iff in Hb. destruct Hb as (Hw & Hx & Hy & Hz & _).
  rewrite Address_String_quad. unfold parseIPv4.
  rewrite (parse_fields_digits _ _ w), parse_fields_dot by (by apply run_digits_show || (cbn; lia)).
  rewrite (parse_fields_digits _ _ x), parse_fields_dot by (by apply run_digits_show || (cbn; lia)).
  rewrite (parse_fields_digits _ _ y), parse_fields_dot by (by apply run_digits_show || (cbn; lia)).
  rewrite <- (string_app_nil (show_Z z)).
  by rewrite (parse_fields_digits _ _ z) by by apply run_digits_show.
Qed.

(** What a parsed TCP view says about the bytes. *)
Lemma parse_tcp_fields b dir pv :
  Parse [b] dir = Some pv -> Proto pv = ProtoTCP ->
  let rest := drop (Z.to_nat (IPv4_HeaderLength b)) b in
  IPv4MinimumSize <= Z.of_nat (length b) /\
  SrcIP pv = Address_String (IPv4_Source b) /\ DstIP pv = Address_String (IPv4_Destination b) /\
  SrcPort pv = Port_Source rest /\ DstPort pv = Port_Destination rest /\
  Seq pv = TCP_Seq rest /\ Ack pv = TCP_Ack rest /\ Flow pv = flowID pv.
Proof.
  intros Hp Ht. unfold Parse in Hp. cbn [PacketBytes fst] in Hp. cbv zeta in Hp |- *.
  destruct (Z.ltb_spec (Z.of_nat (length b)) IPv4MinimumSize); [done|].
  destruct (negb _); [done|]. destruct (_ || _); [done|].
  destruct (IPv4_Protocol b =? TCPProtocolNumber).
  - destruct (_ <? TCPMinimumSize); [done|]. destruct (_ || _); [done|]. by injection Hp as <-.
  - destruct (IPv4_Protocol b =? UDPProtocolNumber); [by destruct (_ <? UDPMinimumSize); simplify_eq|].
    injection Hp as <-. cbn in Ht. by destruct (_ =? _).
Qed.

(** The acknowledgement a reset carries: the end of the segment it answers, a SYN
    or FIN counting one. *)
Definition segment_end (pv : PacketView) : Z :=
  u32 (Seq pv + PayloadLen pv +
       (if HasFlags pv FlagSYN || HasFlags pv FlagFIN then 1 else 0)).

(** The packet [buildRST] makes, as a receiver reads it. *)
Lemma rst_parses src dst sport dport seq ack dir :
  length src = 4%nat -> Forall byte src -> length dst = 4%nat -> Forall byte dst ->
  0 <= sport < 65536 -> 0 <= dport < 65536 -> 0 <= seq < 2 ^ 32 -> 0 <= ack < 2 ^ 32 ->
  let ip := IPv4_SetChecksum 0 (IPv4_Encode 40 64 TCPProtocolNumber src dst) in
  let ip := IPv4_SetChecksum (65535 - IPv4_CalculateChecksum ip) ip in
  let t := TCP_Encode (mkTCP sport dport seq ack 20 (Z.lor FlagRST FlagACK) 0) in
  let t := TCP_SetChecksum
    (65535 - Checksum t (PseudoHeaderChecksum TCPProtocolNumber src dst 20)) t in
  let v := mkView ProtoTCP dir (Address_String src) (Address_String dst) sport dport 0 []
             (Z.lor FlagRST FlagACK) seq ack 0 0 "" in
  Parse [ip ++ t] dir = Some (set_Flow (flowID v) v) /\
  checksum_ok TCPProtocolNumber (ip ++ t) (drop 20 (ip ++ t)).
Proof.
  intros Ls Bs Ld Bd Hsp Hdp Hseq Hack. cbv zeta.
  destruct (IPv4_Encode_reads 40 64 TCPProtocolNumber src dst) as (L & B & R); [done..|].
  set (h := IPv4_Encode 40 64 TCPProtocolNumber src dst) in *.
  rewrite (IPv4_SetChecksum_layout 0) by lia.
  assert (Forall byte (put16 10 0 h)) as B0 by (apply byte_put16; [lia|done]).
  destruct (field_ranges (put16 10 0 h) B0) as (_ & _ & _ & _ & Hc).
  set (c := 65535 - IPv4_CalculateChecksum (put16 10 0 h)).
  rewrite IPv4_SetChecksum_layout by (unfold c; rewrite ?length_put16; lia).
  rewrite put16_put16.
  destruct (TCP_Encode_reads (mkTCP sport dport seq ack 20 (Z.lor FlagRST FlagACK) 0))
    as (Lt & Bt & Zt & Rt); [done..|].
  set (t := TCP_Encode _) in *. set (x := PseudoHeaderChecksum _ _ _ _).
  assert (forall c', let p := put16 10 c h ++ put16 16 c' t in
    IPv4_IsValid p = true /\ IPv4_HeaderLength p = 20 /\ IPv4_Source p = src /\
    IPv4_Destination p = dst /\ IPv4_Protocol p = TCPProtocolNumber) as Rp.
  { intros c'. apply R; [unfold c; lia|]. by rewrite length_put16, Lt. }
  assert (0 <= 65535 - Checksum t x < 65536 /\ forall c', checksum_ok TCPProtocolNumber
    (put16 10 c h ++ put16 16 c' t) (put16 16 (65535 - Checksum t x) t)) as [Hx Hok].
  { pose proof (stored_checksum_ok TCPProtocolNumber) as Hs. cbv zeta in Hs.
    specialize (Hs (put16 10 c h ++ put16 16 0 t) t 8%nat Bt ltac:(lia)).
    destruct (Rp 0) as (_ & _ & Es & Ed & _). rewrite Es, Ed in Hs.
    change (2 * 8)%nat with 16%nat in Hs. rewrite (put16_same 16 t), Lt in Hs by (done || lia).
    rewrite (put16_same 16 t) in Es, Ed by (done || lia).
    fold x in Hs. destruct Hs as [Hr Hk]. split; [done|]. intros c'.
    destruct (Rp c') as (_ & _ & Es' & Ed' & _). unfold checksum_ok in *.
    rewrite Es', Ed'. by rewrite Es, Ed in Hk. }
  rewrite TCP_SetChecksum_layout by (done || lia).
  set (c' := 65535 - Checksum t x) in *.
  assert (drop 20 (put16 10 c h ++ put16 16 c' t) = put16 16 c' t) as Edrop
    by (apply drop_app_length'; by rewrite length_put16).
  split; [|rewrite Edrop; apply Hok].
  destruct (Rp c') as (Ev & Eh & Es & Ed & Ep). destruct minimum_sizes as (Em & Et & Eu).
  destruct (Rt c' Hx) as (P1 & P2 & P3 & P4 & P5 & P6 & P7).
  unfold Parse. cbn [PacketBytes fst]. cbv zeta. rewrite Ev, Eh, Es, Ed, Ep, Em, Et.
  rewrite length_app, !length_put16, L, Lt. change (Z.to_nat 20) with 20%nat. rewrite Edrop.
  rewrite !length_put16, Lt, P1, P2, P3, P4, P5, P6, P7.
  rewrite drop_ge by (rewrite length_put16; cbn; lia). done.
Qed.

Lemma ack_number pv :
  (if HasFlags pv FlagSYN || HasFlags pv FlagFIN
   then u32 (u32 (Seq pv + u32 (PayloadLen pv)) + 1)
   else u32 (Seq pv + u32 (PayloadLen pv))) = segment_end pv.
Proof.
  unfold segment_end, wrap_u. destruct (_ || _).
  - rewrite Zplus_mod_idemp_l. replace (Seq pv + PayloadLen pv mod 2 ^ 32 + 1)
      with (Seq pv + 1 + PayloadLen pv mod 2 ^ 32) by lia.
    rewrite Zplus_mod_idemp_r. f_equal. lia.
  - by rewrite Zplus_mod_idemp_r, Z.add_0_r.
Qed.

End Reset.

(** a reset is one its target accepts.  For every parsed TCP packet the code
    builds a reset; read back, it comes from the packet's destination to its
    source on the same flow, carries RST and ACK and no payload, continues the
    sequence the sender acknowledged, acknowledges everything the packet sent (a
    SYN or FIN counts one) and has a correct checksum. *)
Theorem reset_answers_segment `{Headers} b dir dir' pv :
  Parse [b] dir = Some pv -> Proto pv = ProtoTCP -> Forall byte b ->
  exists rst rv, buildRST pv = Some [rst] /\ Parse [rst] dir' = Some rv /\
    src rv = dst pv /\ dst rv = src pv /\ Flow rv = Flow pv /\
    Flags rv = Z.lor FlagRST FlagACK /\ PayloadLen rv = 0 /\
    Seq rv = Ack pv /\ Ack rv = segment_end pv /\
    checksum_ok TCPProtocolNumber rst (drop 20 rst).
Proof.
  intros Hp Ht Hb. destruct (parse_tcp_fields b dir pv Hp Ht)
    as (Hl & Esrc & Edst & Esp & Edp & Eseq & Eack & Efl). cbv zeta in *.
  destruct (address_bytes b Hl Hb) as [[Ls Bs] [Ld Bd]].
  destruct (field_ranges (drop (Z.to_nat (IPv4_HeaderLength b)) b)) as (R1 & R2 & R3 & R4 & _);
    [by apply Forall_drop|]. rewrite <- Esp, <- Edp, <- Eseq, <- Eack in *.
  destruct (rst_parses (IPv4_Destination b) (IPv4_Source b) (DstPort pv) (SrcPort pv) (Ack pv)
    (segment_end pv) dir') as [Hr Hc]; [done..|by apply wrap_u_range|].
  cbv zeta in Hr, Hc. eexists _, _. split; [|split; [exact Hr|]].
  - unfold buildRST. rewrite Ht, Esrc, Edst, !parseIPv4_print by done. cbn [negb].
    rewrite (ack_number pv). done.
  - rewrite <- Esrc, <- Edst in *. split_and!; try done. cbn [Flow set_Flow]. rewrite Efl.
    by apply flowID_swap.
Qed.

End Packet.

(** ** An implementation of the header interface *)

Module Wire.
Import Packet.

Definition get32 (off : nat) (b : list Z) : Z := get16 off b * 65536 + get16 (off + 2) b.

Definition be16 (v : Z) : list Z := [v / 256; v mod 256].
Definition be32 (v : Z) : list Z := be16 (v / 65536) ++ be16 (v mod 65536).

Definition valid (b : list Z) : bool :=
  let hlen := (b !!! 0%nat) mod 16 * 4 in
  (b !!! 0%nat / 16 =? 4) && (20 <=? hlen) && (hlen <=? get16 2 b) &&
  (get16 2 b <=? Z.of_nat (length b)).

Definition print_quad (a : list Z) : string :=
  match a with
  | [w; x; y; z] => show_Z w +:+ "." +:+ show_Z x +:+ "." +:+ show_Z y +:+ "." +:+ show_Z z
  | _ => ""
  end.

Definition encode_ip (total ttl proto : Z) (src dst : list Z) : list Z :=
  [69; 0] ++ be16 total ++ [0; 0; 0; 0; ttl; proto; 0; 0] ++ src ++ dst.

Definition encode_tcp (f : TCPFields) : list Z :=
  be16 (tSrcPort f) ++ be16 (tDstPort f) ++ be32 (tSeqNum f) ++ be32 (tAckNum f) ++
  [tDataOffset f / 4 * 16; tFlags f] ++ be16 (tWindowSize f) ++ [0; 0; 0; 0].

Lemma byte_total b i : Forall byte b -> byte (b !!! i).
Proof.
  intros Hb. destruct (b !! i) as [x|] eqn:E.
  - rewrite (list_lookup_total_correct _ _ _ E). by apply (Forall_lookup_1 _ _ _ _ Hb E).
  - by rewrite list_lookup_total_alt, E.
Qed.

Lemma get16_range off b : Forall byte b -> 0 <= get16 off b < 65536.
Proof.
  intros Hb. unfold get16. pose proof (byte_total b off Hb). pose proof (byte_total b (S off) Hb).
  unfold byte in *. lia.
Qed.

Lemma get32_range off b : Forall byte b -> 0 <= get32 off b < 2 ^ 32.
Proof.
  intros Hb. unfold get32. pose proof (get16_range off b Hb). pose proof (get16_range (off + 2) b Hb).
  lia.
Qed.

Lemma byte_be16 v : 0 <= v < 65536 -> Forall byte (be16 v).
Proof.
  intros Hv. unfold be16. repeat constructor; unfold byte;
    first [apply Z.div_pos; lia|apply Z.div_lt_upper_bound; lia|apply Z.mod_pos_bound; lia].
Qed.

Lemma byte_be32 v : 0 <= v < 2 ^ 32 -> Forall byte (be32 v).
Proof.
  intros Hv. unfold be32. apply Forall_app. split; apply byte_be16.
  - split; [apply Z.div_pos; lia|apply Z.div_lt_upper_bound; lia].
  - apply Z.mod_pos_bound. lia.
Qed.

Lemma fold_be16 v : v / 256 * 256 + v mod 256 = v.
Proof. pose proof (Z.div_mod v 256). lia. Qed.

Lemma encode_ip_reads total ttl proto src dst :
  20 <= total < 65536 -> byte ttl -> byte proto ->
  length src = 4%nat -> Forall byte src -> length dst = 4%nat -> Forall byte dst ->
  let h := encode_ip total ttl proto src dst in
  length h = 20%nat /\ Forall byte h /\
  forall c payload, 0 <= c < 65536 -> total = 20 + Z.of_nat (length payload) ->
    let b := put16 10 c h ++ payload in
    valid b = true /\ (b !!! 0%nat) mod 16 * 4 = 20 /\ take 4 (drop 12 b) = src /\
    take 4 (drop 16 b) = dst /\ b !!! 9%nat = proto.
Proof.
  intros Ht Htt Hp Ls Bs Ld Bd.
  destruct src as [|s0 [|s1 [|s2 [|s3 [|]]]]]; try done.
  destruct dst as [|d0 [|d1 [|d2 [|d3 [|]]]]]; try done.
  cbv zeta. split; [done|]. split.
  - unfold encode_ip. rewrite !Forall_app. split_and!; try done; [|by apply byte_be16; lia|].
    + repeat constructor; unfold byte; lia.
    + repeat (constructor; [unfold byte in *; lia|]). constructor.
  - intros c payload Hc Hl. unfold encode_ip, be16, put16. cbn [app insert list_insert].
    split_and!; try done. unfold valid, get16.
    cbn [lookup_total list_lookup_total length]. rewrite fold_be16.
    change (69 / 16 =? 4) with true. change (69 mod 16 * 4) with 20. cbn [andb Z.leb Z.compare].
    change (20 <=? 20) with true. cbn [andb].
    rewrite (proj2 (Z.leb_le 20 total)) by lia. cbn [andb]. apply Z.leb_le. lia.
Qed.

Lemma encode_tcp_reads f :
  0 <= tSrcPort f < 65536 -> 0 <= tDstPort f < 65536 -> 0 <= tSeqNum f < 2 ^ 32 ->
  0 <= tAckNum f < 2 ^ 32 -> tDataOffset f = 20 -> 0 <= tFlags f < 256 ->
  0 <= tWindowSize f < 65536 ->
  let b := encode_tcp f in
  length b = 20%nat /\ Forall byte b /\ get16 16 b = 0 /\
  forall c, 0 <= c < 65536 -> let b := put16 16 c b in
    get16 0 b = tSrcPort f /\ get16 2 b = tDstPort f /\ get32 4 b = tSeqNum f /\
    get32 8 b = tAckNum f /\ (b !!! 12%nat) / 16 * 4 = 20 /\ b !!! 13%nat = tFlags f /\
    get16 14 b = tWindowSize f.
Proof.
  destruct f as [sp dp sq ak off fl wn]. cbn [tSrcPort tDstPort tSeqNum tAckNum tDataOffset tFlags tWindowSize].
  intros Hsp Hdp Hsq Hak -> Hfl Hwn. unfold encode_tcp. cbv zeta.
  cbn [tSrcPort tDstPort tSeqNum tAckNum tDataOffset tFlags tWindowSize].
  split; [done|]. split.
  - change (20 / 4 * 16) with 80. rewrite !Forall_app.
    split_and!; try (by apply byte_be16); try (by apply byte_be32);
      repeat constructor; unfold byte; lia.
  - split; [done|]. intros c Hc. unfold be32, be16, put16, get32, get16. cbn.
    rewrite !fold_be16. split_and!; try done.
    + pose proof (Z.div_mod sq 65536). lia.
    + pose proof (Z.div_mod ak 65536). lia.
Qed.

#[export] Program Instance wire_headers : Headers := {|
  IPv4MinimumSize := 20;
  TCPMinimumSize := 20;
  UDPMinimumSize := 8;
  IPv4_IsValid := valid;
  IPv4_HeaderLength b := (b !!! 0%nat) mod 16 * 4;
  IPv4_Source b := take 4 (drop 12 b);
  IPv4_Destination b := take 4 (drop 16 b);
  IPv4_Protocol b := b !!! 9%nat;
  Address_String := print_quad;
  TCP_DataOffset b := (b !!! 12%nat) / 16 * 4;
  TCP_Flags b := b !!! 13%nat;
  TCP_Seq := get32 4;
  TCP_Ack := get32 8;
  TCP_Window := get16 14;
  Port_Source := get16 0;
  Port_Destination := get16 2;
  TCP_SetChecksum := put16 16;
  UDP_SetChecksum := put16 6;
  TCP_SetWindowSize := put16 14;
  PseudoHeaderChecksum p s d n := oc_fold (word_sum s + word_sum d + p + n);
  Checksum b init := oc_fold (init + word_sum b);
  IPv4_Encode := encode_ip;
  IPv4_SetChecksum := put16 10;
  IPv4_CalculateChecksum b := oc_fold (word_sum (take (Z.to_nat ((b !!! 0%nat) mod 16 * 4)) b));
  TCP_Encode := encode_tcp |}.
Next Obligation. done. Qed.
Next Obligation.
  intros b Hl Hb. assert (20 <= length b)%nat by lia. split; (split;
    [rewrite length_take, length_drop; lia|by apply Forall_take, Forall_drop]).
Qed.
Next Obligation. done. Qed.
Next Obligation.
  intros b Hb. split_and!;
    first [by apply get16_range|by apply get32_range|apply oc_fold_range].
Qed.
Next Obligation. done. Qed.
Next Obligation. done. Qed.
Next Obligation. done. Qed.
Next Obligation. done. Qed.
Next Obligation. intros. apply oc_fold_range. Qed.
Next Obligation. done. Qed.
Next Obligation. exact encode_ip_reads. Qed.
Next Obligation. exact encode_tcp_reads. Qed.

(** A data segment of four bytes, and a rule that flips two of them. *)
Definition segment : list Z :=
  encode_ip 44 64 6 [10; 0; 0; 2] [10; 0; 0; 1] ++
  encode_tcp (mkTCP 50000 5432 100 200 20 16 1024) ++ [1; 2; 3; 4].

Definition segment_view : PacketView :=
  default (mkView "" DirC2S "" "" 0 0 0 [] 0 0 0 0 0 "") (Parse [segment] DirC2S).

Definition flip_rule : Rule.Rule :=
  Rule.mkRule Rule.ActionCorrupt
    (Match.mkMatch None "tcp" 0 0 0 "" None None None [] [] None) "flip" 0 0 0 1 2 "flip" "fix" 0
    Rule.TriggerAlways 0 GoStd.f64_0 0 "" 0 0 0.

Lemma segment_bytes : Forall byte segment.
Proof. unfold byte. by apply (bool_decide_unpack _); vm_compute. Qed.

Lemma segment_parses : Parse [segment] DirC2S = Some segment_view.
Proof. vm_compute. reflexivity. Qed.

Lemma corrupt_exact_witness : exists b' g',
  corrupt [segment] flip_rule segment_view tt = ([b'], false, g') /\
  checksum_ok TCPProtocolNumber segment (drop 20 b').
Proof.
  destruct (corrupt_exact flip_rule segment_view segment DirC2S tt TCPProtocolNumber 8)
    as (b' & g' & base & Hc & _ & _ & _ & Hk);
    [exact segment_parses|vm_compute; reflexivity|exact segment_bytes|vm_compute; by split|].
  exists b', g'. split; [exact Hc|]. by apply Hk.
Defined.

Lemma reset_answers_segment_witness : exists rst rv,
  buildRST segment_view = Some [rst] /\ Parse [rst] DirS2C = Some rv /\ Ack rv = 104.
Proof.
  destruct (reset_answers_segment segment DirC2S DirS2C segment_view)
    as (rst & rv & H1 & H2 & _ & _ & _ & _ & _ & _ & H3 & _);
    [exact segment_parses|vm_compute; reflexivity|exact segment_bytes|].
  exists rst, rv. split; [exact H1|]. split; [exact H2|]. rewrite H3. vm_compute. reflexivity.
Defined.

End Wire.
