(* ===== verification/Endpoint.v ===== *)
(** * The fault endpoint ([internal/netfault/endpoint.go])

    [FaultEndpoint] decorates a link: packets enter from either side, a rule may
    act on them, and they leave through the link's bandwidth shaper, through a
    write batch on the way out, or later from the deadline queue or the reorder
    buffer.  The callbacks the source passes around are data here: a [Closure] is
    the release of one packet, kept in a store whose addresses the two queues of
    [NetQueue] hold.  Rule sets, shapers and batches are shared objects in stores
    of their own, so a handler can still use one that was replaced meanwhile.

    The clock is read several times while one packet is handled; a transition
    takes one reading, [now]. *)

From stdpp Require Import base gmap sets strings list numbers.
From Stdlib Require Import ZArith Lia SpecFloat.
From S2P Require Import Prelude GoStd NetRule NetQueue Packet.
Import GoStd PacketView Packet.
Local Open Scope Z_scope.

Definition IPv4ProtocolNumber : Z := 2048.

Module Endpoint.

(** ** State *)

(** Where a released packet goes: up into the stack, or into a write batch. *)
Inductive Target := TUp (proto : Z) | TBatch (b : nat).

(** The way back to a packet's sender. *)
Inductive Reverse := RevDown | RevUp.

(** The release of one packet, paced by a shaper or not. *)
Record Closure := mkClosure { csh : option nat; ctarget : Target; cpkt : PacketBuffer }.

Record Event := mkEvent {
  EvAction : Rule.Action; EvDirection : Direction; EvProtocol : string; EvSrc : string;
  EvDst : string; EvLen : Z; EvFlags : list string; EvFlow : string; EvRuleLabel : string }.

(** The queues that hold packets back. *)
Record Queues := mkQueues {
  deferQ : DeferQueue.deferQueue; reorder : Reorder.reorderBuffer; closures : list Closure }.

Record Links := mkLinks {
  shapers : list Shaper.shaper; shapeC2S : option nat; shapeS2C : option nat; mtuOverride : Z }.

(** What left the endpoint: [up] to the stack, [down] one write after another,
    [batches] the open and sealed write batches, [lost] what full shapers refused. *)
Record Output := mkOutput {
  up : list (Z * PacketBuffer); down : list (list PacketBuffer);
  batches : list (list PacketBuffer * bool); lost : list PacketBuffer }.

Section Endpoint.
Context `{Headers} {G : Type} `{!RandSource G}.
Context (decider : option (Rule.Rule -> Z -> bool * bool)).
(** Whether an event callback is installed, and the wrapped link's MTU. *)
Context (onEvent : bool) (lowerMTU : Z).

Record Control := mkControl {
  rulesets : list (list Rule.Rule); rules : option nat; rnd : G;
  whereEvals : Z; mutationsSkipped : Z; flows : gmap string Z; events : list Event }.

Record FaultEndpoint := mkEP {
  queues : Queues; links : Links; out : Output; ctl : Control;
  dispatcher : bool; stopped : bool; lowerClosed : bool }.

Definition New (g : G) : FaultEndpoint :=
  mkEP (mkQueues DeferQueue.newDeferQueue Reorder.newReorderBuffer []) (mkLinks [] None None 0)
    (mkOutput [] [] [] []) (mkControl [] None g 0 0 ∅ []) false false false.

Definition set_queues (q : Queues) (e : FaultEndpoint) : FaultEndpoint :=
  mkEP q (links e) (out e) (ctl e) (dispatcher e) (stopped e) (lowerClosed e).
Definition set_links (l : Links) (e : FaultEndpoint) : FaultEndpoint :=
  mkEP (queues e) l (out e) (ctl e) (dispatcher e) (stopped e) (lowerClosed e).
Definition set_out (o : Output) (e : FaultEndpoint) : FaultEndpoint :=
  mkEP (queues e) (links e) o (ctl e) (dispatcher e) (stopped e) (lowerClosed e).
Definition set_ctl (c : Control) (e : FaultEndpoint) : FaultEndpoint :=
  mkEP (queues e) (links e) (out e) c (dispatcher e) (stopped e) (lowerClosed e).

(** ** Configuration *)

Definition SetRules (rs : option nat) (e : FaultEndpoint) : FaultEndpoint :=
  let c := ctl e in
  set_ctl (mkControl (rulesets c) rs (rnd c) (whereEvals c) (mutationsSkipped c) (flows c) (events c)) e.

(** A rule set made by [NewRuleSet], as a new shared object. *)
Definition new_rules (rs : list Rule.Rule) (e : FaultEndpoint) : nat * FaultEndpoint :=
  let c := ctl e in
  (length (rulesets c),
   set_ctl (mkControl (rulesets c ++ [rs]) (rules c) (rnd c) (whereEvals c) (mutationsSkipped c)
              (flows c) (events c)) e).

Definition Rules (e : FaultEndpoint) : option nat := rules (ctl e).
Definition WhereEvaluations (e : FaultEndpoint) : Z := whereEvals (ctl e).
Definition MutationsSkipped (e : FaultEndpoint) : Z := mutationsSkipped (ctl e).

(** The shaper [SetBandwidth] stores for one direction. *)
Definition new_shaper (rate : float64) (backlog : Z) (l : Links) : option nat * list Shaper.shaper :=
  if f64_le rate f64_0 then (None, shapers l)
  else (Some (length (shapers l)), shapers l ++ [Shaper.newShaper rate backlog]).

Definition SetBandwidth (dir : Direction) (rate : float64) (backlog : Z) (e : FaultEndpoint)
    : FaultEndpoint :=
  let set_c2s (l : Links) :=
    let (a, s) := new_shaper rate backlog l in mkLinks s a (shapeS2C l) (mtuOverride l) in
  let set_s2c (l : Links) :=
    let (a, s) := new_shaper rate backlog l in mkLinks s (shapeC2S l) a (mtuOverride l) in
  match dir with
  | DirC2S => set_links (set_c2s (links e)) e
  | DirS2C => set_links (set_s2c (links e)) e
  | DirBoth => set_links (set_s2c (set_c2s (links e))) e
  end.

Definition SetMTU (mtu : Z) (e : FaultEndpoint) : FaultEndpoint :=
  let l := links e in set_links (mkLinks (shapers l) (shapeC2S l) (shapeS2C l) mtu) e.

Definition MTU (e : FaultEndpoint) : Z :=
  if 0 <? mtuOverride (links e) then mtuOverride (links e) else lowerMTU.

Definition shaper_of (dir : Direction) (l : Links) : option nat :=
  match dir with DirC2S => shapeC2S l | _ => shapeS2C l end.

Definition ShaperStatsFor (dir : Direction) (e : FaultEndpoint) : (Z * Z * Z) * bool :=
  match shaper_of dir (links e) ≫= (shapers (links e) !!.) with
  | Some s => (Shaper.stats s, true)
  | None => ((0, 0, 0), false)
  end.

Definition ClearShapers (e : FaultEndpoint) : FaultEndpoint :=
  set_links (mkLinks (shapers (links e)) None None 0) e.

Definition Attach (d : bool) (e : FaultEndpoint) : FaultEndpoint :=
  mkEP (queues e) (links e) (out e) (ctl e) d (stopped e) (lowerClosed e).

Definition IsAttached (e : FaultEndpoint) : bool := dispatcher e.

(** ** Sending *)

(** [writeDown]: one packet in a write of its own. *)
Definition writeDown (p : PacketBuffer) (o : Output) : Output :=
  mkOutput (up o) (down o ++ [[p]]) (batches o) (lost o).

(** [egressBatch.release]: into the batch while it is open, straight down after. *)
Definition batch_release (b : nat) (p : PacketBuffer) (o : Output) : Output :=
  match batches o !! b with
  | Some (l, false) => mkOutput (up o) (down o) (<[b := (l ++ [p], false)]> (batches o)) (lost o)
  | _ => writeDown p o
  end.

(** [egressBatch.seal]. *)
Definition seal (b : nat) (o : Output) : Output :=
  match batches o !! b with
  | Some (l, _) =>
      let o := mkOutput (up o) (down o) (<[b := ([], true)]> (batches o)) (lost o) in
      if (length l =? 0)%nat then o else mkOutput (up o) (down o ++ [l]) (batches o) (lost o)
  | None => o
  end.

(** An unpaced release. *)
Definition send (t : Target) (p : PacketBuffer) (o : Output) : Output :=
  match t with
  | TUp proto => mkOutput (up o ++ [(proto, p)]) (down o) (batches o) (lost o)
  | TBatch b => batch_release b p o
  end.

(** The reverse callback: down the wire, or up when a stack is attached. *)
Definition send_back (r : Reverse) (p : PacketBuffer) (e : FaultEndpoint) : FaultEndpoint :=
  match r with
  | RevDown => set_out (writeDown p (out e)) e
  | RevUp => if dispatcher e then set_out (send (TUp IPv4ProtocolNumber) p (out e)) e else e
  end.

(** A new closure and its address. *)
Definition new_closure (c : Closure) (q : Queues) : Z * Queues :=
  (Z.of_nat (length (closures q)), mkQueues (deferQ q) (reorder q) (closures q ++ [c])).

(** [deferQ.schedule] of a closure; whether the queue took it. *)
Definition defer_ (now d : Z) (c : Closure) (q : Queues) : bool * Queues :=
  let (a, q) := new_closure c q in
  let (ok, dq) := DeferQueue.schedule now d a (deferQ q) in
  (ok, mkQueues dq (reorder q) (closures q)).

(** [reorder.hold] of a closure; whether the buffer took it. *)
Definition hold_ (flow : string) (by_ : Z) (c : Closure) (q : Queues) : bool * Queues :=
  let (a, q) := new_closure c q in
  let (ok, rb) := Reorder.hold flow by_ a (reorder q) in
  (ok, mkQueues (deferQ q) rb (closures q)).

(** [PacketBuffer.Size]. *)
Definition Size (p : PacketBuffer) : Z := Z.of_nat (length (List.concat p)).

(** The callback [paced] returns: through the shaper loaded when it was made. *)
Definition release (sh : option nat) (t : Target) (p : PacketBuffer) (now : Z) (e : FaultEndpoint)
    : FaultEndpoint :=
  match sh ≫= (fun a => (a,.) <$> shapers (links e) !! a) with
  | None => set_out (send t p (out e)) e
  | Some (a, s) =>
      let (wait, s) := Shaper.shaper_admit (Size p) now s in
      let l := links e in
      let e := set_links (mkLinks (<[a := s]> (shapers l)) (shapeC2S l) (shapeS2C l) (mtuOverride l)) e in
      match wait with
      | None => let o := out e in set_out (mkOutput (up o) (down o) (batches o) (lost o ++ [p])) e
      | Some wait =>
          if wait <=? 0 then set_out (send t p (out e)) e
          else
            let (ok, q) := defer_ now wait (mkClosure None t p) (queues e) in
            let e := set_queues q e in
            if ok then e else set_out (send t p (out e)) e
      end
  end.

(** Running a stored closure. *)
Definition run_closure (now : Z) (e : FaultEndpoint) (a : Z) : FaultEndpoint :=
  match closures (queues e) !! Z.to_nat a with
  | Some c => release (csh c) (ctarget c) (cpkt c) now e
  | None => e
  end.

(** ** The pipeline *)

Definition nextIndex (flow : string) (fl : gmap string Z) : Z * gmap string Z :=
  let n := i64 (default 0 (fl !! flow) + 1) in (n - 1, <[flow := n]> fl).

Definition emit (r : Rule.Rule) (pv : PacketView) (c : Control) : Control :=
  if onEvent then
    mkControl (rulesets c) (rules c) (rnd c) (whereEvals c) (mutationsSkipped c) (flows c)
      (events c ++ [mkEvent (Rule.RAction r) (Dir pv) (Proto pv) (SrcIP pv) (DstIP pv)
                      (PayloadLen pv) (FlagNames (Flags pv)) (Flow pv) (Rule.RLabel r)])
  else c.

(** Indexing the packet and choosing its rule, in rule set [a]. *)
Definition judge (a : nat) (pv : PacketView) (c : Control) : option Rule.Rule * PacketView * Control :=
  let (i, fl) := nextIndex (Flow pv) (flows c) in
  let pv := set_Index i pv in
  let '(w, rs, g, evals) :=
    Rule.decide_rule decider true (rulesets c !! a) pv (rnd c) (whereEvals c) in
  let sets := match rs with Some rs => <[a := rs]> (rulesets c) | None => rulesets c end in
  (w ≫= (fun k => rs ≫= (.!! k)), pv,
   mkControl sets (rules c) g evals (mutationsSkipped c) fl (events c)).

(** The mutations in place, with their random bytes and the skipped count. *)
Definition mutate_packet (r : Rule.Rule) (p : PacketBuffer) (pv : PacketView) (c : Control)
    : PacketBuffer * Control :=
  let '(p, skipped, g) :=
    match Rule.RAction r with
    | Rule.ActionCorrupt => corrupt p r pv (rnd c)
    | Rule.ActionWindow => let (p, skipped) := rewriteWindow p r in (p, skipped, rnd c)
    | _ => (p, false, rnd c)
    end in
  (p, mkControl (rulesets c) (rules c) g (whereEvals c)
        (if skipped then i64 (mutationsSkipped c + 1) else mutationsSkipped c) (flows c) (events c)).

(** The switch on the rule's action. *)
Definition act (r : Rule.Rule) (sh : option nat) (fwd : Target) (rev : Reverse) (p : PacketBuffer)
    (pv : PacketView) (now : Z) (e : FaultEndpoint) : FaultEndpoint :=
  let held (take_ : Queues -> bool * Queues) :=
    let (ok, q) := take_ (queues e) in
    let e := set_queues q e in if ok then e else release sh fwd p now e in
  match Rule.RAction r with
  | Rule.ActionDrop => e
  | Rule.ActionDelay => held (defer_ now (Rule.RDelay r) (mkClosure sh fwd p))
  | Rule.ActionDuplicate =>
      Nat.iter (Z.to_nat (Rule.DuplicateCount r)) (release sh fwd p now) e
  | Rule.ActionReorder => held (hold_ (Flow pv) (Rule.ReorderBy r) (mkClosure sh fwd p))
  | Rule.ActionCorrupt | Rule.ActionWindow =>
      let (p, c) := mutate_packet r p pv (ctl e) in release sh fwd p now (set_ctl c e)
  | Rule.ActionReset =>
      match buildRST pv with Some rst => send_back rev rst e | None => e end
  | Rule.ActionPass => release sh fwd p now e
  end.

(** What a handler loads when it starts: the shaper, the rule set, the stop flag. *)
Record Entry := mkEntry { esh : option nat; ers : option nat; estopped : bool }.

Definition enter (dir : Direction) (e : FaultEndpoint) : Entry :=
  mkEntry (shaper_of dir (links e)) (rules (ctl e)) (stopped e).

(** The rest of [handle], after those loads. *)
Definition handle_entered (n : Entry) (p : PacketBuffer) (dir : Direction) (fwd : Target)
    (rev : Reverse) (now : Z) (e : FaultEndpoint) : FaultEndpoint :=
  match ers n with
  | None => release (esh n) fwd p now e
  | Some a =>
      if (length (default [] (rulesets (ctl e) !! a)) =? 0)%nat || estopped n
      then release (esh n) fwd p now e
      else
        match Parse p dir with
        | None => release (esh n) fwd p now e
        | Some pv =>
            let '(r, pv, c) := judge a pv (ctl e) in
            let e := set_ctl c e in
            let q := queues e in
            let (fn, rb) := Reorder.advance (Flow pv) (reorder q) in
            let e := set_queues (mkQueues (deferQ q) rb (closures q)) e in
            let e := match r with
                     | None => release (esh n) fwd p now e
                     | Some r => act r (esh n) fwd rev p pv now (set_ctl (emit r pv (ctl e)) e)
                     end in
            (* the deferred call *)
            match fn with Some a => run_closure now e a | None => e end
        end
  end.

Definition handle (p : PacketBuffer) (dir : Direction) (fwd : Target) (rev : Reverse) (now : Z)
    (e : FaultEndpoint) : FaultEndpoint :=
  handle_entered (enter dir e) p dir fwd rev now e.

Definition DeliverNetworkPacket (proto : Z) (p : PacketBuffer) (now : Z) (e : FaultEndpoint)
    : FaultEndpoint :=
  if dispatcher e then handle p DirC2S (TUp proto) RevDown now e else e.

(** A new write batch. *)
Definition open_batch (e : FaultEndpoint) : nat * FaultEndpoint :=
  let o := out e in
  (length (batches o), set_out (mkOutput (up o) (down o) (batches o ++ [([], false)]) (lost o)) e).

(** [WritePackets]: every packet counts as written, whatever became of it. *)
Definition WritePackets (pkts : list PacketBuffer) (now : Z) (e : FaultEndpoint) : Z * FaultEndpoint :=
  let (b, e) := open_batch e in
  let e := foldl (fun e p => handle p DirS2C (TBatch b) RevUp now e) e pkts in
  (Z.of_nat (length pkts), set_out (seal b (out e)) e).

(** One turn of the deadline queue's goroutine: it pops a packet that is due and
    then runs its release. *)
Definition deferred_turn (now : Z) (e : FaultEndpoint) : FaultEndpoint :=
  let q := queues e in
  let dq := DeferQueue.run_step now (deferQ q) in
  let e := set_queues (mkQueues dq (reorder q) (closures q)) e in
  foldl (run_closure now) e
    (DeferQueue.fn <$> drop (length (DeferQueue.released (deferQ q))) (DeferQueue.released dq)).

(** [deferQ.stop]: the queue is stopped and emptied, then what it held is run. *)
Definition stop_deferred (now : Z) (e : FaultEndpoint) : FaultEndpoint :=
  let q := queues e in
  let dq := DeferQueue.stop (deferQ q) in
  let e := set_queues (mkQueues dq (reorder q) (closures q)) e in
  foldl (run_closure now) e
    (DeferQueue.fn <$> drop (length (DeferQueue.released (deferQ q))) (DeferQueue.released dq)).

Definition set_stopped (e : FaultEndpoint) : FaultEndpoint :=
  mkEP (queues e) (links e) (out e) (ctl e) (dispatcher e) true (lowerClosed e).

Definition close_lower (e : FaultEndpoint) : FaultEndpoint :=
  mkEP (queues e) (links e) (out e) (ctl e) (dispatcher e) (stopped e) true.

Definition Close (now : Z) (e : FaultEndpoint) : FaultEndpoint :=
  if stopped e then e
  else
    let e := set_stopped e in
    let q := queues e in
    let (fns, rb) := Reorder.drain (reorder q) in
    let e := set_queues (mkQueues (deferQ q) rb (closures q)) e in
    let e := foldl (run_closure now) e fns in
    close_lower (stop_deferred now e).

(** ** Accounting *)

(** The packets behind a list of closure addresses. *)
Definition packets (cs : list Closure) (ids : list Z) : list PacketBuffer :=
  omap (fun a => cpkt <$> cs !! Z.to_nat a) ids.

Definition queue_ids (q : Queues) : list Z :=
  (DeferQueue.fn <$> DeferQueue.h (deferQ q)) ++ (Reorder.release <$> (map_to_list (reorder q)).*2).

Definition in_flight (q : Queues) : list PacketBuffer := packets (closures q) (queue_ids q).

Definition sent_out (o : Output) : list PacketBuffer :=
  (up o).*2 ++ List.concat (down o) ++ List.concat (batches o).*1 ++ lost o.

Definition in_system (e : FaultEndpoint) : list PacketBuffer :=
  sent_out (out e) ++ in_flight (queues e).

Definition valid_id (cs : list Closure) (a : Z) : Prop := 0 <= a < Z.of_nat (length cs).

Definition queues_ok (q : Queues) : Prop :=
  DeferQueue.queue_heap (deferQ q) /\ Forall (valid_id (closures q)) (queue_ids q).

Lemma valid_id_extend cs cs' ids :
  cs `prefix_of` cs' -> Forall (valid_id cs) ids -> Forall (valid_id cs') ids.
Proof.
  intros [k ->]. apply Forall_impl. unfold valid_id. intros a. rewrite length_app. lia.
Qed.

Lemma packets_extend cs cs' ids :
  cs `prefix_of` cs' -> Forall (valid_id cs) ids -> packets cs' ids = packets cs ids.
Proof.
  intros [k ->]. induction 1 as [|a ids Ha _ IH]; [done|]. unfold packets in *. cbn [omap list_omap].
  unfold valid_id in Ha. by rewrite lookup_app_l, IH by lia.
Qed.

Lemma packets_app cs k l : packets cs (k ++ l) = packets cs k ++ packets cs l.
Proof. apply omap_app. Qed.

#[global] Instance packets_proper cs : Proper ((≡ₚ) ==> (≡ₚ)) (packets cs).
Proof. intros k l Hp. unfold packets. by rewrite Hp. Qed.

(** *** Outputs *)

Lemma concat_insert (b : nat) (bs : list (list PacketBuffer * bool)) l l' f f' :
  bs !! b = Some (l, f) ->
  List.concat (<[b := (l', f')]> bs).*1 ++ l ≡ₚ List.concat bs.*1 ++ l'.
Proof.
  revert b. induction bs as [|[k g] bs IH]; intros [|b] E; cbn in E; simplify_eq; cbn.
  - perm_solve.
  - rewrite <- !app_assoc. apply Permutation_app_head. exact (IH b E).
Qed.

Lemma sent_writeDown p o : sent_out (writeDown p o) ≡ₚ sent_out o ++ [p].
Proof. unfold sent_out, writeDown. cbn. rewrite List.concat_app. cbn. perm_solve. Qed.

Lemma sent_send t p o : sent_out (send t p o) ≡ₚ sent_out o ++ [p].
Proof.
  destruct t as [proto|b]; cbn [send].
  - unfold sent_out. cbn. rewrite fmap_app. cbn. perm_solve.
  - unfold batch_release. destruct (batches o !! b) as [[l []]|] eqn:E;
      [apply sent_writeDown| |apply sent_writeDown].
    unfold sent_out. cbn. pose proof (concat_insert b (batches o) l (l ++ [p]) false false E).
    perm_solve.
Qed.

Lemma sent_seal b o : sent_out (seal b o) ≡ₚ sent_out o.
Proof.
  unfold seal. destruct (batches o !! b) as [[l f]|] eqn:E; [|done].
  pose proof (concat_insert b (batches o) l [] f true E) as Hp. unfold sent_out.
  destruct (Nat.eqb_spec (length l) 0) as [E0|_]; cbn.
  - apply length_zero_iff_nil in E0 as ->. perm_solve.
  - rewrite List.concat_app. cbn. perm_solve.
Qed.

(** *** Queues *)

(** The queues [q'] hold what [q] held and [l] besides. *)
Definition queues_add (l : list PacketBuffer) (q q' : Queues) : Prop :=
  queues_ok q' /\ closures q `prefix_of` closures q' /\ in_flight q' ≡ₚ in_flight q ++ l.

(** Queues that gained one closure, a new one. *)
Lemma queues_gain c q dq rb :
  queues_ok q -> DeferQueue.queue_heap dq ->
  let q' := mkQueues dq rb (closures q ++ [c]) in
  queue_ids q' ≡ₚ Z.of_nat (length (closures q)) :: queue_ids q ->
  queues_add [cpkt c] q q'.
Proof.
  intros [_ Hv] Hdq q' Hids. assert (closures q `prefix_of` closures q') as Hp by by exists [c].
  split; [split|split]; [done| |done|].
  - rewrite Hids. constructor; [|by apply (valid_id_extend (closures q))].
    unfold valid_id, q'. cbn [closures]. rewrite length_app. cbn. lia.
  - unfold in_flight at 1. rewrite Hids.
    change (?x :: queue_ids q) with ([x] ++ queue_ids q). rewrite packets_app.
    rewrite (packets_extend (closures q) _ (queue_ids q)) by done.
    etrans; [apply Permutation_app_comm|]. apply Permutation_app; [done|].
    unfold packets, q'. cbn [omap list_omap closures]. rewrite Nat2Z.id.
    by rewrite list_lookup_middle.
Qed.

(** Queues that only gained an unused closure. *)
Lemma queues_same c q :
  queues_ok q -> queues_add [] q (mkQueues (deferQ q) (reorder q) (closures q ++ [c])).
Proof.
  intros [Hh Hv]. set (q' := mkQueues _ _ _).
  assert (closures q `prefix_of` closures q') as Hp by by exists [c].
  split; [split|split]; [done|by apply (valid_id_extend (closures q))|done|].
  rewrite app_nil_r. unfold in_flight. change (queue_ids q') with (queue_ids q).
  by rewrite (packets_extend (closures q)).
Qed.

Lemma defer_spec now d c q :
  queues_ok q -> let (ok, q') := defer_ now d c q in
  queues_add (if ok then [cpkt c] else []) q q' /\ reorder q' = reorder q /\
  DeferQueue.stopped (deferQ q') = DeferQueue.stopped (deferQ q) /\
  (DeferQueue.stopped (deferQ q) = true -> ok = false /\ deferQ q' = deferQ q).
Proof.
  intros Hq. unfold defer_, new_closure. cbn [deferQ reorder closures].
  unfold DeferQueue.schedule. destruct (DeferQueue.stopped (deferQ q)) eqn:Es.
  - split; [|done]. by apply queues_same.
  - destruct (Heap.push_spec DeferQueue.Less DeferQueue.before_trans DeferQueue.before_asym
      (DeferQueue.mkDeferred (now + d) (u64 (DeferQueue.qseq (deferQ q) + 1))
         (Z.of_nat (length (closures q)))) (DeferQueue.h (deferQ q)) (proj1 Hq)) as [Hok Hperm].
    split; [|done]. apply queues_gain; [done|done|].
    unfold queue_ids. cbn [deferQ reorder DeferQueue.h]. by rewrite Hperm.
Qed.

(** The addresses the reorder buffer holds, around one flow. *)
Lemma reorder_ids_delete flow hp (rb : Reorder.reorderBuffer) :
  rb !! flow = Some hp ->
  Reorder.release <$> (map_to_list rb).*2 ≡ₚ
  Reorder.release hp :: (Reorder.release <$> (map_to_list (delete flow rb)).*2).
Proof. intros E. by rewrite <- (map_to_list_delete rb flow hp E). Qed.

Lemma reorder_ids_insert flow hp (rb : Reorder.reorderBuffer) :
  rb !! flow = None ->
  Reorder.release <$> (map_to_list (<[flow := hp]> rb)).*2 ≡ₚ
  Reorder.release hp :: (Reorder.release <$> (map_to_list rb).*2).
Proof. intros E. by rewrite (map_to_list_insert rb flow hp E). Qed.

Lemma hold_spec flow by_ c q :
  queues_ok q -> let (ok, q') := hold_ flow by_ c q in
  queues_add (if ok then [cpkt c] else []) q q' /\ deferQ q' = deferQ q.
Proof.
  intros Hq. unfold hold_, new_closure, Reorder.hold. cbn [deferQ reorder closures].
  destruct (reorder q !! flow) as [hp|] eqn:E; (split; [|done]).
  - by apply queues_same.
  - apply queues_gain; [done|exact (proj1 Hq)|].
    unfold queue_ids. cbn [deferQ reorder]. rewrite (reorder_ids_insert flow _ _ E). cbn [Reorder.release].
    by rewrite <- Permutation_middle.
Qed.

(** Queues from which the addresses [ids] were taken. *)
Definition queues_take (ids : list Z) (q q' : Queues) : Prop :=
  queues_ok q' /\ closures q' = closures q /\ Forall (valid_id (closures q)) ids /\
  in_flight q ≡ₚ in_flight q' ++ packets (closures q) ids.

Lemma queues_lose ids q dq rb :
  queues_ok q -> DeferQueue.queue_heap dq ->
  let q' := mkQueues dq rb (closures q) in
  queue_ids q ≡ₚ ids ++ queue_ids q' -> queues_take ids q q'.
Proof.
  intros [_ Hv] Hdq q' Hids. rewrite Hids in Hv. apply Forall_app in Hv as [H1 H2].
  split; [done|]. split; [done|]. split; [done|].
  unfold in_flight at 1. rewrite Hids, packets_app. apply Permutation_app_comm.
Qed.

Lemma advance_spec flow q :
  queues_ok q -> let (fn, rb) := Reorder.advance flow (reorder q) in
  queues_take (option_list fn) q (mkQueues (deferQ q) rb (closures q)).
Proof.
  intros Hq. unfold Reorder.advance. destruct (reorder q !! flow) as [hp|] eqn:E;
    [destruct (0 <? _)|]; (apply queues_lose; [done|apply Hq|]); unfold queue_ids;
    cbn [deferQ reorder option_list app].
  - rewrite (reorder_ids_delete flow hp _ E), <- insert_delete_eq.
    by rewrite reorder_ids_insert by apply lookup_delete_eq.
  - rewrite (reorder_ids_delete flow hp _ E). by rewrite <- Permutation_middle.
  - done.
Qed.

Lemma drain_spec q :
  queues_ok q -> let (fns, rb) := Reorder.drain (reorder q) in
  queues_take fns q (mkQueues (deferQ q) rb (closures q)) /\ rb = ∅.
Proof.
  intros Hq. unfold Reorder.drain. split; [|done]. apply queues_lose; [done|apply Hq|].
  unfold queue_ids. cbn [deferQ reorder]. rewrite map_to_list_empty. cbn. rewrite app_nil_r.
  apply Permutation_app_comm.
Qed.

(** What one turn of the queue, or stopping it, takes out. *)
Lemma turn_spec now q :
  queues_ok q -> let dq := DeferQueue.run_step now (deferQ q) in
  queues_take (DeferQueue.fn <$> drop (length (DeferQueue.released (deferQ q))) (DeferQueue.released dq))
    q (mkQueues dq (reorder q) (closures q)).
Proof.
  intros Hq dq. apply queues_lose; [done|by apply DeferQueue.queue_heap_run, Hq|].
  unfold queue_ids. cbn [deferQ reorder]. subst dq.
  destruct (DeferQueue.run_step_cases now (deferQ q) (proj1 Hq)) as [->|(x & Hp & -> & _)].
  - rewrite drop_all. done.
  - rewrite drop_app_length, Hp. done.
Qed.

Lemma stop_spec q :
  queues_ok q -> let dq := DeferQueue.stop (deferQ q) in
  queues_take (DeferQueue.fn <$> drop (length (DeferQueue.released (deferQ q))) (DeferQueue.released dq))
    q (mkQueues dq (reorder q) (closures q)) /\
  DeferQueue.stopped dq = true /\ (DeferQueue.stopped (deferQ q) = false -> DeferQueue.h dq = []).
Proof.
  intros Hq dq. assert (DeferQueue.stopped dq = true) as Hs.
  { unfold dq, DeferQueue.stop. by destruct (DeferQueue.stopped (deferQ q)) eqn:?. }
  split; [|split; [done|]].
  - apply queues_lose; [done|by apply DeferQueue.queue_heap_stop, Hq|].
    unfold queue_ids. cbn [deferQ reorder]. unfold dq, DeferQueue.stop.
    destruct (DeferQueue.stopped (deferQ q)); cbn [DeferQueue.released DeferQueue.h].
    + by rewrite drop_all.
    + rewrite drop_app_length, fmap_nil. cbn [app].
      by rewrite (proj1 (DeferQueue.pop_all_spec _ _ (le_n _) (proj1 Hq))).
  - intros E. unfold dq, DeferQueue.stop. by rewrite E.
Qed.

(** *** Endpoints *)

(** [e'] accounts for what [e] did and for [l] besides. *)
Definition adds (l : list PacketBuffer) (e e' : FaultEndpoint) : Prop :=
  queues_ok (queues e) ->
  queues_ok (queues e') /\ closures (queues e) `prefix_of` closures (queues e') /\
  in_system e' ≡ₚ in_system e ++ l.

(** What sending leaves alone: the reorder buffer and the flags, and a stopped
    deadline queue. *)
Record frame (e e' : FaultEndpoint) : Prop := {
  frame_stopped : stopped e' = stopped e;
  frame_dispatcher : dispatcher e' = dispatcher e;
  frame_reorder : reorder (queues e') = reorder (queues e);
  frame_deferred : DeferQueue.stopped (deferQ (queues e')) = DeferQueue.stopped (deferQ (queues e));
  frame_idle : DeferQueue.stopped (deferQ (queues e)) = true -> deferQ (queues e') = deferQ (queues e) }.

Lemma adds_trans l1 l2 e1 e2 e3 : adds l1 e1 e2 -> adds l2 e2 e3 -> adds (l1 ++ l2) e1 e3.
Proof.
  intros A1 A2 Hq. destruct (A1 Hq) as (Q1 & P1 & S1). destruct (A2 Q1) as (Q2 & P2 & S2).
  split; [done|]. split; [by etrans|]. by rewrite S2, S1, app_assoc.
Qed.

Lemma adds_perm l l' e e' : l ≡ₚ l' -> adds l e e' -> adds l' e e'.
Proof. intros Hl A Hq. destruct (A Hq) as (? & ? & ?). by rewrite <- Hl. Qed.

Lemma frame_trans e1 e2 e3 : frame e1 e2 -> frame e2 e3 -> frame e1 e3.
Proof.
  intros [A1 A2 A3 A4 A5] [B1 B2 B3 B4 B5]. split; try congruence.
  intros E. rewrite B5, A5 by congruence. done.
Qed.

Lemma frame_refl e : frame e e.
Proof. done. Qed.

Lemma adds_refl e : adds [] e e.
Proof. intros Hq. rewrite app_nil_r. done. Qed.

(** An update of the outputs alone. *)
Lemma adds_out l o e : sent_out o ≡ₚ sent_out (out e) ++ l -> adds l e (set_out o e).
Proof.
  intros Ho Hq. split; [done|]. split; [done|]. unfold in_system. cbn [out queues set_out].
  rewrite Ho. perm_solve.
Qed.

(** An update that touches neither outputs nor queues. *)
Lemma adds_same e e' : out e' = out e -> queues e' = queues e -> adds [] e e'.
Proof. intros Eo Eq Hq. unfold in_system. rewrite Eo, Eq, app_nil_r. done. Qed.

Lemma adds_queues l q e : (queues_ok (queues e) -> queues_add l (queues e) q) -> adds l e (set_queues q e).
Proof.
  intros Hl Hq. destruct (Hl Hq) as (Q & P & F). split; [done|]. split; [done|].
  unfold in_system. cbn [out queues set_queues]. by rewrite F, app_assoc.
Qed.

Lemma release_sends sh t p now e :
  queues_ok (queues e) ->
  adds [p] e (release sh t p now e) /\ frame e (release sh t p now e) /\
  ctl (release sh t p now e) = ctl e.
Proof.
  intros Hq. unfold release. destruct (sh ≫= _) as [[a s]|].
  2: { split; [|done]. apply adds_out, sent_send. }
  destruct (Shaper.shaper_admit (Size p) now s) as [wait s']. cbv zeta. set (e1 := set_links _ e).
  assert (adds [] e e1) as A1 by by apply adds_same.
  destruct wait as [wait|].
  2: { split; [|done]. apply (adds_trans [] [p] e e1); [done|].
       apply adds_out. unfold sent_out. cbn. perm_solve. }
  destruct (wait <=? 0).
  { split; [|done]. apply (adds_trans [] [p] e e1); [done|]. apply adds_out, sent_send. }
  pose proof (defer_spec now wait (mkClosure None t p) (queues e1) Hq) as Hd.
  destruct (defer_ now wait (mkClosure None t p) (queues e1)) as [ok q].
  destruct Hd as (Hd & Hr & Hst & Hs). set (e2 := set_queues q e1).
  assert (adds (if ok then [p] else []) e1 e2) as A2 by by apply adds_queues.
  assert (frame e e2) as F by (split; try done; apply Hs).
  destruct ok.
  - split; [|done]. by apply (adds_trans [] [p] e e1).
  - split; [|split; [by destruct F|done]].
    apply (adds_trans [] [p] e e1); [done|]. apply (adds_trans [] [p] e1 e2); [done|].
    apply adds_out, sent_send.
Qed.

Lemma run_closure_sends now e a :
  queues_ok (queues e) ->
  adds (packets (closures (queues e)) [a]) e (run_closure now e a) /\ frame e (run_closure now e a).
Proof.
  intros Hq. unfold run_closure, packets. cbn [omap list_omap].
  destruct (closures (queues e) !! Z.to_nat a) as [c|]; cbn [fmap option_fmap option_map].
  - destruct (release_sends (csh c) (ctarget c) (cpkt c) now e Hq) as (? & ? & _). done.
  - split; [apply adds_refl|apply frame_refl].
Qed.

Lemma run_closures_send now ids : forall e,
  queues_ok (queues e) -> Forall (valid_id (closures (queues e))) ids ->
  adds (packets (closures (queues e)) ids) e (foldl (run_closure now) e ids) /\
  frame e (foldl (run_closure now) e ids).
Proof.
  induction ids as [|a ids IH]; intros e Hq Hv; cbn [foldl].
  - split; [apply adds_refl|apply frame_refl].
  - apply Forall_cons_iff in Hv as [Ha Hv].
    destruct (run_closure_sends now e a Hq) as [A F]. destruct (A Hq) as (Q & P & _).
    destruct (IH (run_closure now e a)) as [A' F']; [done|by apply (valid_id_extend (closures (queues e)))|].
    rewrite (packets_extend (closures (queues e))) in A' by done.
    split; [|by apply (frame_trans e (run_closure now e a))].
    change (a :: ids) with ([a] ++ ids). rewrite packets_app. by apply (adds_trans _ _ e (run_closure now e a)).
Qed.

(** Taking closures out of the queues, doing something else and running them. *)
Lemma take_then_run now ids l q e e' :
  queues_ok (queues e) -> queues_take ids (queues e) q -> adds l (set_queues q e) e' ->
  adds l e (foldl (run_closure now) e' ids) /\ frame e' (foldl (run_closure now) e' ids).
Proof.
  intros Hq (Q & Ec & Hv & Hf) A. destruct (A Q) as (Q1 & P1 & S1).
  cbn [queues set_queues] in *. rewrite Ec in P1.
  destruct (run_closures_send now ids e') as [A2 F]; [done|by apply (valid_id_extend (closures (queues e)))|].
  split; [|done]. intros _. destruct (A2 Q1) as (Q2 & P2 & S2).
  split; [done|]. split; [by etrans|]. rewrite S2, S1. unfold in_system.
  cbn [out queues set_queues]. rewrite (packets_extend (closures (queues e))) by done. perm_solve.
Qed.

(** Taking closures out of the queues and running them changes no account. *)
Lemma take_and_run now ids q e :
  queues_ok (queues e) -> queues_take ids (queues e) q ->
  adds [] e (foldl (run_closure now) (set_queues q e) ids) /\
  frame (set_queues q e) (foldl (run_closure now) (set_queues q e) ids).
Proof.
  intros Hq Ht. apply take_then_run with q; [done|done|apply adds_refl].
Qed.

(** ** What a rule makes of a packet *)

(** The packets that result: none for a drop, the copies of a duplicate, the
    mutated packet, the reset instead of the packet, and the packet itself. *)
Definition outcome (r : Rule.Rule) (rev : Reverse) (p : PacketBuffer) (pv : PacketView) (c : Control)
    (attached : bool) : list PacketBuffer :=
  match Rule.RAction r with
  | Rule.ActionDrop => []
  | Rule.ActionDuplicate => replicate (Z.to_nat (Rule.DuplicateCount r)) p
  | Rule.ActionCorrupt | Rule.ActionWindow => [(mutate_packet r p pv c).1]
  | Rule.ActionReset =>
      match rev, attached with
      | RevUp, false => []
      | _, _ => option_list (buildRST pv)
      end
  | Rule.ActionPass | Rule.ActionDelay | Rule.ActionReorder => [p]
  end.

(** The rule that acts on a packet, when a handler that loaded [n] reaches it. *)
Definition verdict (n : Entry) (p : PacketBuffer) (dir : Direction) (c : Control)
    : option (Rule.Rule * PacketView * Control) :=
  match ers n with
  | Some a =>
      if (length (default [] (rulesets c !! a)) =? 0)%nat || estopped n then None
      else match Parse p dir with
           | Some pv =>
               let '(r, pv, c) := judge a pv c in (fun r => (r, pv, emit r pv c)) <$> r
           | None => None
           end
  | None => None
  end.

Definition fate (n : Entry) (p : PacketBuffer) (dir : Direction) (rev : Reverse) (e : FaultEndpoint)
    : list PacketBuffer :=
  match verdict n p dir (ctl e) with
  | None => [p]
  | Some (r, pv, c) => outcome r rev p pv c (dispatcher e)
  end.

Lemma iter_release_adds n sh t p now e :
  queues_ok (queues e) -> adds (replicate n p) e (Nat.iter n (release sh t p now) e) /\
  frame e (Nat.iter n (release sh t p now) e).
Proof.
  intros Hq. induction n as [|n IH]; cbn [Nat.iter].
  - split; [apply adds_refl|apply frame_refl].
  - destruct IH as [A F]. destruct (A Hq) as (Q & _).
    destruct (release_sends sh t p now _ Q) as (A' & F' & _).
    split; [|by apply (frame_trans e (Nat.iter n (release sh t p now) e))].
    apply (adds_perm (replicate n p ++ [p])).
    + cbn [replicate]. perm_solve.
    + by apply (adds_trans _ _ e (Nat.iter n (release sh t p now) e)).
Qed.

(** A packet held back, or released when the queue refuses it. *)
Lemma held_adds ok q sh t p now e :
  queues_ok (queues e) -> queues_add (if ok : bool then [p] else []) (queues e) q ->
  adds [p] e (let e := set_queues q e in if ok then e else release sh t p now e).
Proof.
  intros Hq Ha. cbv zeta. assert (adds (if ok then [p] else []) e (set_queues q e)) as A
    by by apply adds_queues.
  destruct ok; [done|]. apply (adds_trans [] [p] e (set_queues q e)); [done|].
  apply release_sends. by apply A.
Qed.

Lemma act_adds r sh fwd rev p pv now e :
  queues_ok (queues e) ->
  adds (outcome r rev p pv (ctl e) (dispatcher e)) e (act r sh fwd rev p pv now e).
Proof.
  intros Hq. unfold act, outcome. destruct (Rule.RAction r); cbv zeta.
  - by apply release_sends.
  - apply adds_refl.
  - pose proof (defer_spec now (Rule.RDelay r) (mkClosure sh fwd p) (queues e) Hq) as Hd.
    destruct (defer_ _ _ _ _) as [ok q]. destruct Hd as [Hd _]. by apply held_adds.
  - by apply iter_release_adds.
  - pose proof (hold_spec (Flow pv) (Rule.ReorderBy r) (mkClosure sh fwd p) (queues e) Hq) as Hd.
    destruct (hold_ _ _ _ _) as [ok q]. destruct Hd as [Hd _]. by apply held_adds.
  - destruct (mutate_packet r p pv (ctl e)) as [p' c]. cbn [fst].
    apply (adds_trans [] [p'] e (set_ctl c e)); [by apply adds_same|]. by apply release_sends.
  - destruct (buildRST pv) as [rst|]; cbn [option_list].
    + unfold send_back. destruct rev; [by apply adds_out, sent_writeDown|].
      destruct (dispatcher e); [apply adds_out, sent_send|apply adds_refl].
    + destruct rev, (dispatcher e); apply adds_refl.
  - destruct (mutate_packet r p pv (ctl e)) as [p' c]. cbn [fst].
    apply (adds_trans [] [p'] e (set_ctl c e)); [by apply adds_same|]. by apply release_sends.
Qed.

Lemma handle_adds n p dir fwd rev now e :
  queues_ok (queues e) -> adds (fate n p dir rev e) e (handle_entered n p dir fwd rev now e).
Proof.
  intros Hq. unfold handle_entered, fate, verdict.
  destruct (ers n) as [a|]; [|by apply release_sends].
  destruct (_ || _); [by apply release_sends|].
  destruct (Parse p dir) as [pv|]; [|by apply release_sends].
  destruct (judge a pv (ctl e)) as [[r pv'] c]. cbv zeta. cbn [queues set_ctl].
  pose proof (advance_spec (Flow pv') (queues e) Hq) as Ht.
  destruct (Reorder.advance (Flow pv') (reorder (queues e))) as [fn rb].
  set (q := mkQueues _ _ _) in *. change (set_queues q (set_ctl c e)) with (set_ctl c (set_queues q e)).
  set (e2 := set_ctl c (set_queues q e)).
  assert (adds [] (set_queues q e) e2) as A2 by by apply adds_same.
  assert (queues_ok (queues e2)) as Q2 by apply Ht.
  match goal with |- adds ?l e (match fn with Some a => run_closure now ?e3 a | None => _ end) =>
    assert (adds l (set_queues q e) e3) as A3;
      [|destruct (take_then_run now (option_list fn) l q e e3 Hq Ht A3) as [A4 _]; by destruct fn] end.
  destruct r as [r|]; cbn [fmap option_fmap option_map].
  - apply (adds_trans [] _ (set_queues q e) e2); [done|].
    set (e3 := set_ctl (emit r pv' (ctl e2)) e2).
    apply (adds_trans [] _ e2 e3); [by apply adds_same|].
    change (emit r pv' c) with (ctl e3). change (dispatcher e) with (dispatcher e3). by apply act_adds.
  - apply (adds_trans [] _ (set_queues q e) e2); [done|]. by apply release_sends.
Qed.

(** ** Interleavings *)

(** A handler between its first loads and the rest of its work. *)
Record Handler := mkHandler {
  hentry : Entry; hpkt : PacketBuffer; hdir : Direction; hfwd : Target; hrev : Reverse }.

Record Sys := mkSys { ep : FaultEndpoint; entered : list Handler }.

(** The transitions of the endpoint: configuration, a packet entering from either
    side, an entered handler running to its end, a write batch opened and sealed,
    a turn of the deadline queue, and closing. *)
Inductive Op :=
| OpNewRules (rs : list Rule.Rule) | OpSetRules (a : option nat)
| OpBandwidth (dir : Direction) (rate : float64) (backlog : Z) | OpMTU (m : Z) | OpClear
| OpAttach (d : bool)
| OpIngress (proto : Z) (p : PacketBuffer) | OpEgress (b : nat) (p : PacketBuffer)
| OpFinish (i : nat) (now : Z)
| OpOpen | OpSeal (b : nat)
| OpTurn (now : Z) | OpClose (now : Z).

Definition apply_op (o : Op) (s : Sys) : Sys :=
  let e := ep s in
  let on (e : FaultEndpoint) := mkSys e (entered s) in
  match o with
  | OpNewRules rs => on (new_rules rs e).2
  | OpSetRules a => on (SetRules a e)
  | OpBandwidth dir rate backlog => on (SetBandwidth dir rate backlog e)
  | OpMTU m => on (SetMTU m e)
  | OpClear => on (ClearShapers e)
  | OpAttach d => on (Attach d e)
  | OpIngress proto p =>
      if dispatcher e then
        mkSys e (entered s ++ [mkHandler (enter DirC2S e) p DirC2S (TUp proto) RevDown])
      else s
  | OpEgress b p =>
      mkSys e (entered s ++ [mkHandler (enter DirS2C e) p DirS2C (TBatch b) RevUp])
  | OpFinish i now =>
      match entered s !! i with
      | Some h => mkSys (handle_entered (hentry h) (hpkt h) (hdir h) (hfwd h) (hrev h) now e)
                    (delete i (entered s))
      | None => s
      end
  | OpOpen => on (open_batch e).2
  | OpSeal b => on (set_out (seal b (out e)) e)
  | OpTurn now => on (deferred_turn now e)
  | OpClose now => on (Close now e)
  end.

Definition run (ops : list Op) (s : Sys) : Sys := foldl (fun s o => apply_op o s) s ops.

(** What the rules make of the packets whose handling ends in a run. *)
Fixpoint handled (ops : list Op) (s : Sys) : list PacketBuffer :=
  match ops with
  | [] => []
  | o :: ops =>
      match o with
      | OpFinish i _ =>
          match entered s !! i with
          | Some h => fate (hentry h) (hpkt h) (hdir h) (hrev h) (ep s)
          | None => []
          end
      | _ => []
      end ++ handled ops (apply_op o s)
  end.

(** The source's entry points are sequences of these transitions. *)
Lemma DeliverNetworkPacket_steps proto p now e :
  ep (run [OpIngress proto p; OpFinish 0 now] (mkSys e [])) = DeliverNetworkPacket proto p now e.
Proof. unfold DeliverNetworkPacket. cbn. by destruct (dispatcher e) eqn:E; cbn; rewrite ?E. Qed.

Lemma WritePackets_steps pkts now e :
  let b := length (batches (out e)) in
  ep (run (OpOpen :: concat ((fun p => [OpEgress b p; OpFinish 0 now]) <$> pkts) ++ [OpSeal b])
        (mkSys e [])) = (WritePackets pkts now e).2.
Proof.
  intros b. unfold run. cbn [foldl]. unfold WritePackets, open_batch. fold b.
  set (e1 := set_out _ e). cbn [snd].
  change (apply_op OpOpen (mkSys e [])) with (mkSys e1 []). clearbody e1.
  revert e1. induction pkts as [|p pkts IH]; intros e1; [done|]. cbn [fmap list_fmap concat app foldl].
  apply IH.
Qed.

Lemma new_ok g : queues_ok (queues (New g)).
Proof.
  split; [intros k Hk; cbn in Hk; lia|]. unfold queue_ids.
  cbn [New queues deferQ reorder]. unfold Reorder.newReorderBuffer. rewrite map_to_list_empty. constructor.
Qed.

(** Stopping the deadline queue empties it for good. *)
Lemma stop_deferred_spec now e :
  queues_ok (queues e) -> DeferQueue.stopped (deferQ (queues e)) = false ->
  let e' := stop_deferred now e in
  adds [] e e' /\ stopped e' = stopped e /\ reorder (queues e') = reorder (queues e) /\
  DeferQueue.stopped (deferQ (queues e')) = true /\ DeferQueue.h (deferQ (queues e')) = [].
Proof.
  intros Hq Hs. destruct (stop_spec (queues e) Hq) as (Ht & Hs' & Hh).
  destruct (take_and_run now _ _ e Hq Ht) as [A F]. cbv zeta.
  split; [exact A|]. split; [apply (frame_stopped _ _ F)|]. split; [apply (frame_reorder _ _ F)|].
  split; [exact (eq_trans (frame_deferred _ _ F) Hs')|].
  etrans; [exact (f_equal DeferQueue.h (frame_idle _ _ F Hs'))|]. by apply Hh.
Qed.

(** The state a closed endpoint is in: nothing is held, and nothing can be. *)
Definition settled (e : FaultEndpoint) : Prop :=
  stopped e = true /\ DeferQueue.stopped (deferQ (queues e)) = true /\
  DeferQueue.h (deferQ (queues e)) = [] /\ reorder (queues e) = ∅.

Lemma settled_in_flight e : settled e -> in_flight (queues e) = [].
Proof.
  intros (_ & _ & Eh & Er). unfold in_flight, queue_ids. rewrite Eh, Er, map_to_list_empty. done.
Qed.

Lemma close_spec now e :
  queues_ok (queues e) -> stopped e = false -> DeferQueue.stopped (deferQ (queues e)) = false ->
  adds [] e (Close now e) /\ settled (Close now e).
Proof.
  intros Hq Hs Hd. unfold Close. rewrite Hs.
  pose proof (drain_spec (queues e) Hq) as Hdr. cbv zeta. cbn [queues set_stopped].
  destruct (Reorder.drain _) as [fns rb]. destruct Hdr as [Hdr ->].
  set (q := mkQueues _ _ _) in *. set (e1 := set_stopped e).
  destruct (take_and_run now fns q e1 Hq Hdr) as [A1 F1]. set (e2 := foldl _ _ _) in *.
  assert (queues_ok (queues e2)) as Q2 by by apply A1.
  assert (DeferQueue.stopped (deferQ (queues e2)) = false) as Hd2 by by rewrite (frame_deferred _ _ F1).
  destruct (stop_deferred_spec now e2 Q2 Hd2) as (A2 & S2 & R2 & D2 & H2).
  set (e3 := stop_deferred now e2) in *. split.
  - apply (adds_trans [] [] e e1); [by apply adds_same|]. apply (adds_trans [] [] e1 e2); [done|].
    apply (adds_trans [] [] e2 e3); [done|]. by apply adds_same.
  - split_and!; [|done|done|].
    + change (stopped e3 = true). by rewrite S2, (frame_stopped _ _ F1).
    + change (reorder (queues e3) = ∅). by rewrite R2, (frame_reorder _ _ F1).
Qed.

(** *** The stop flags *)

Definition flags (e e' : FaultEndpoint) : Prop :=
  stopped e' = stopped e /\
  DeferQueue.stopped (deferQ (queues e')) = DeferQueue.stopped (deferQ (queues e)).

Lemma frame_flags e e' : frame e e' -> flags e e'.
Proof. by intros []. Qed.

Lemma flags_trans e1 e2 e3 : flags e1 e2 -> flags e2 e3 -> flags e1 e3.
Proof. intros [] []. split; congruence. Qed.

Lemma held_flags (ok : bool) q sh t p now e :
  queues_ok q -> DeferQueue.stopped (deferQ q) = DeferQueue.stopped (deferQ (queues e)) ->
  flags e (let e := set_queues q e in if ok then e else release sh t p now e).
Proof.
  intros Hq Hs. destruct ok; [done|]. apply (flags_trans e (set_queues q e)); [done|].
  by apply frame_flags, release_sends.
Qed.

Lemma act_flags r sh fwd rev p pv now e :
  queues_ok (queues e) -> flags e (act r sh fwd rev p pv now e).
Proof.
  intros Hq. unfold act. destruct (Rule.RAction r); cbv zeta.
  - by apply frame_flags, release_sends.
  - done.
  - pose proof (defer_spec now (Rule.RDelay r) (mkClosure sh fwd p) (queues e) Hq) as Hd.
    destruct (defer_ _ _ _ _) as [ok q]. destruct Hd as ([Hd _] & _ & Hs & _). by apply held_flags.
  - by apply frame_flags, iter_release_adds.
  - pose proof (hold_spec (Flow pv) (Rule.ReorderBy r) (mkClosure sh fwd p) (queues e) Hq) as Hd.
    destruct (hold_ _ _ _ _) as [ok q]. destruct Hd as ([Hd _] & Es).
    apply held_flags; [done|]. by rewrite Es.
  - destruct (mutate_packet r p pv (ctl e)) as [p' c].
    apply (flags_trans e (set_ctl c e)); [done|]. by apply frame_flags, release_sends.
  - destruct (buildRST pv) as [rst|]; [|done]. unfold send_back. destruct rev; [done|].
    by destruct (dispatcher e).
  - destruct (mutate_packet r p pv (ctl e)) as [p' c].
    apply (flags_trans e (set_ctl c e)); [done|]. by apply frame_flags, release_sends.
Qed.

Lemma handle_flags n p dir fwd rev now e :
  queues_ok (queues e) -> flags e (handle_entered n p dir fwd rev now e).
Proof.
  intros Hq. unfold handle_entered.
  destruct (ers n) as [a|]; [|by apply frame_flags, release_sends].
  destruct (_ || _); [by apply frame_flags, release_sends|].
  destruct (Parse p dir) as [pv|]; [|by apply frame_flags, release_sends].
  destruct (judge a pv (ctl e)) as [[r pv'] c]. cbv zeta. cbn [queues set_ctl].
  pose proof (advance_spec (Flow pv') (queues e) Hq) as Ht.
  destruct (Reorder.advance (Flow pv') (reorder (queues e))) as [fn rb].
  set (q := mkQueues _ _ _) in *. set (e2 := set_queues q (set_ctl c e)).
  assert (queues_ok (queues e2)) as Q2 by apply Ht.
  match goal with |- flags e (match fn with Some a => run_closure now ?e3 a | None => _ end) =>
    assert (flags e e3 /\ queues_ok (queues e3)) as [F3 Q3] end.
  { destruct r as [r|].
    - split; [apply (flags_trans e e2); [done|]|];
        (apply (flags_trans e2 (set_ctl (emit r pv' (ctl e2)) e2)); [done|by apply act_flags]) ||
        by apply act_adds.
    - split; [apply (flags_trans e e2); [done|by apply frame_flags, release_sends]|].
      by apply release_sends. }
  destruct fn as [i|]; [|done]. apply (flags_trans _ _ _ F3).
  by apply frame_flags, run_closure_sends.
Qed.

Lemma deferred_turn_spec now e :
  queues_ok (queues e) -> adds [] e (deferred_turn now e) /\ flags e (deferred_turn now e) /\
  reorder (queues (deferred_turn now e)) = reorder (queues e) /\
  (DeferQueue.stopped (deferQ (queues e)) = true ->
   deferQ (queues (deferred_turn now e)) = deferQ (queues e)).
Proof.
  intros Hq. destruct (take_and_run now _ _ e Hq (turn_spec now (queues e) Hq)) as [A F].
  assert (DeferQueue.stopped (DeferQueue.run_step now (deferQ (queues e))) =
          DeferQueue.stopped (deferQ (queues e))) as E.
  { destruct (DeferQueue.run_step_cases now (deferQ (queues e)) (proj1 Hq)) as [->|(x & Hx)]; [done|].
    apply Hx. }
  split; [exact A|]. split; [|split; [apply (frame_reorder _ _ F)|]].
  - split; [apply (frame_stopped _ _ F)|]. exact (eq_trans (frame_deferred _ _ F) E).
  - intros Hs. etrans; [apply (frame_idle _ _ F); exact (eq_trans E Hs)|].
    cbn [queues set_queues deferQ]. unfold DeferQueue.run_step. by rewrite Hs.
Qed.

(** A handler that saw the endpoint stopped holds nothing back. *)
Lemma handle_settled n p dir fwd rev now e :
  queues_ok (queues e) -> estopped n = true -> frame e (handle_entered n p dir fwd rev now e).
Proof.
  intros Hq Hn. unfold handle_entered.
  destruct (ers n) as [a|]; [rewrite Hn, orb_true_r|]; by apply release_sends.
Qed.

(** *** Runs *)

Definition sys_ok (s : Sys) : Prop :=
  queues_ok (queues (ep s)) /\ DeferQueue.stopped (deferQ (queues (ep s))) = stopped (ep s).

Lemma open_adds e : adds [] e (open_batch e).2.
Proof.
  apply adds_out. unfold sent_out. cbn. rewrite fmap_app, List.concat_app. cbn. rewrite !app_nil_r. done.
Qed.

Lemma apply_op_adds o s :
  sys_ok s -> adds (handled [o] s) (ep s) (ep (apply_op o s)) /\ sys_ok (apply_op o s).
Proof.
  intros [Hq Hs]. cbn [handled].
  assert (forall e', adds [] (ep s) e' -> flags (ep s) e' ->
    adds [] (ep s) (ep (mkSys e' (entered s))) /\ sys_ok (mkSys e' (entered s))) as K.
  { intros e' A [F1 F2]. split; [done|]. split; [by apply A|]. cbn [ep]. by rewrite F1, F2. }
  destruct o; cbn [apply_op app]; try (apply K; [by apply adds_same|done]).
  - apply K; [unfold SetBandwidth; by destruct dir; destruct (new_shaper _ _ _); apply adds_same|].
    unfold SetBandwidth. by destruct dir; destruct (new_shaper _ _ _).
  - destruct (dispatcher (ep s)); (split; [by apply adds_same|done]).
  - destruct (entered s !! i) as [h|]; [|split; [apply adds_refl|done]]. rewrite app_nil_r.
    destruct (handle_flags (hentry h) (hpkt h) (hdir h) (hfwd h) (hrev h) now (ep s) Hq) as [F1 F2].
    pose proof (handle_adds (hentry h) (hpkt h) (hdir h) (hfwd h) (hrev h) now (ep s) Hq) as A.
    split; [exact A|]. split; [by apply A|]. cbn [ep]. by rewrite F1, F2.
  - apply K; [apply open_adds|done].
  - apply K; [apply adds_out; by rewrite sent_seal, app_nil_r|done].
  - apply K; by apply deferred_turn_spec.
  - destruct (stopped (ep s)) eqn:Es.
    + unfold Close. rewrite Es. apply K; [apply adds_refl|done].
    + destruct (close_spec now (ep s) Hq Es Hs) as (A & S1 & S2 & _).
      split; [exact A|]. split; [by apply A|]. cbn [ep]. by rewrite S1, S2.
Qed.

Lemma handled_cons o ops s : handled (o :: ops) s = handled [o] s ++ handled ops (apply_op o s).
Proof. cbn [handled]. by rewrite app_nil_r. Qed.

Lemma run_adds ops : forall s,
  sys_ok s -> adds (handled ops s) (ep s) (ep (run ops s)) /\ sys_ok (run ops s).
Proof.
  induction ops as [|o ops IH]; intros s Hs; [split; [apply adds_refl|done]|].
  destruct (apply_op_adds o s Hs) as [A1 S1]. destruct (IH _ S1) as [A2 S2].
  rewrite handled_cons. split; [|done]. by apply (adds_trans _ _ _ (ep (apply_op o s))).
Qed.

(** Once closed, with every handler that entered before gone, an endpoint stays
    settled. *)
Definition quiesced (s : Sys) : Prop :=
  queues_ok (queues (ep s)) /\ stopped (ep s) = true /\
  DeferQueue.stopped (deferQ (queues (ep s))) = true /\
  Forall (fun h => estopped (hentry h) = true) (entered s).

Lemma apply_op_quiesced o s :
  quiesced s -> quiesced (apply_op o s) /\
  reorder (queues (ep (apply_op o s))) = reorder (queues (ep s)) /\
  deferQ (queues (ep (apply_op o s))) = deferQ (queues (ep s)).
Proof.
  intros (Hq & Hs & Hd & Hh).
  destruct o; cbn [apply_op]; try done.
  - unfold SetBandwidth. by destruct dir; destruct (new_shaper _ _ _).
  - destruct (dispatcher (ep s)); [|done]. split; [|done]. split_and!; [done..|].
    apply Forall_app. by repeat constructor.
  - split; [|done]. split_and!; [done..|]. apply Forall_app. by repeat constructor.
  - destruct (entered s !! i) as [h|] eqn:E; [|done].
    pose proof (Forall_lookup_1 _ _ _ _ Hh E) as Eh.
    pose proof (handle_settled (hentry h) (hpkt h) (hdir h) (hfwd h) (hrev h) now (ep s) Hq Eh) as F.
    split; [|split; [apply (frame_reorder _ _ F)|by apply (frame_idle _ _ F)]]. split_and!.
    + by apply handle_adds.
    + by rewrite <- Hs; apply (frame_stopped _ _ F).
    + by rewrite <- Hd; apply (frame_deferred _ _ F).
    + by apply Forall_delete.
  - destruct (deferred_turn_spec now (ep s) Hq) as (A & [F1 F2] & R & D).
    split; [|split; [exact R|by apply D]]. split_and!; [by apply A|by rewrite <- Hs|by rewrite <- Hd|done].
  - unfold Close. by rewrite Hs.
Qed.

Lemma run_quiesced ops : forall s, quiesced s ->
  quiesced (run ops s) /\ reorder (queues (ep (run ops s))) = reorder (queues (ep s)) /\
  deferQ (queues (ep (run ops s))) = deferQ (queues (ep s)).
Proof.
  induction ops as [|o ops IH]; intros s Hs; [done|].
  destruct (apply_op_quiesced o s Hs) as (Q & R & D). destruct (IH _ Q) as (Q' & R' & D').
  cbn [run foldl] in *. split; [exact Q'|]. split; [by rewrite <- R|by rewrite <- D].
Qed.

(** What a quiesced endpoint holds back stays held back. *)
Lemma stranded_forever ops s :
  quiesced s -> in_flight (queues (ep (run ops s))) = in_flight (queues (ep s)).
Proof.
  intros Hs. destruct (run_quiesced ops s Hs) as (_ & R & D). destruct Hs as (Q & Hs & Hd & _).
  destruct (run_adds ops s) as [A _]; [split; [done|by rewrite Hs, Hd]|].
  destruct (A Q) as (_ & P & _). unfold in_flight.
  assert (queue_ids (queues (ep (run ops s))) = queue_ids (queues (ep s))) as ->
    by (unfold queue_ids; by rewrite R, D).
  apply packets_extend; [done|apply Q].
Qed.

Definition start (g : G) : Sys := mkSys (New g) [].

Lemma start_ok g : sys_ok (start g).
Proof. split; [apply new_ok|done]. Qed.

(** C4: no packet is lost or invented by the machinery.  Whatever the
    interleaving of packets, timer turns, configuration changes, write batches
    and closing, the packets that went up, went down, wait in a batch, were
    refused by a full shaper or are still held back are together exactly what the
    rules made of the packets handled. *)
Theorem packets_accounted g ops :
  let e := ep (run ops (start g)) in
  (up (out e)).*2 ++ List.concat (down (out e)) ++ List.concat (batches (out e)).*1 ++
    lost (out e) ++ in_flight (queues e) ≡ₚ handled ops (start g).
Proof.
  destruct (run_adds ops (start g) (start_ok g)) as [A _].
  destruct (A (new_ok g)) as (_ & _ & S). cbv zeta.
  change (in_system (ep (start g))) with ([] : list PacketBuffer) in S.
  unfold in_system, sent_out in S. rewrite <- !app_assoc in S. exact S.
Qed.

Lemma run_ops_app ops1 ops2 s : run (ops1 ++ ops2) s = run ops2 (run ops1 s).
Proof. apply foldl_app. Qed.

(** closing flushes.  If the endpoint is closed while no handler is under
    way, nothing is held back then or ever after, so everything the rules let
    through has left, short of what full shapers refused. *)
Theorem close_flushes g ops now ops' :
  stopped (ep (run ops (start g))) = false -> entered (run ops (start g)) = [] ->
  let all := ops ++ OpClose now :: ops' in
  let e := ep (run all (start g)) in
  in_flight (queues e) = [] /\
  (up (out e)).*2 ++ List.concat (down (out e)) ++ List.concat (batches (out e)).*1 ++
    lost (out e) ≡ₚ handled all (start g).
Proof.
  intros Hs He all e. destruct (run_adds ops (start g) (start_ok g)) as [_ [Q S]].
  set (s1 := run ops (start g)) in *. rewrite Hs in S.
  destruct (close_spec now (ep s1) Q Hs S) as (A & S1 & S2 & S3 & S4).
  assert (quiesced (apply_op (OpClose now) s1)) as Hq.
  { split; [by apply A|]. split; [done|]. split; [done|]. cbn [apply_op entered]. by rewrite He. }
  assert (e = ep (run ops' (apply_op (OpClose now) s1))) as Ee by (unfold e, all; by rewrite run_ops_app).
  destruct (run_quiesced ops' _ Hq) as ((_ & T1 & T2 & _) & R & D). rewrite <- Ee in *.
  assert (in_flight (queues e) = []) as Hf.
  { apply settled_in_flight. split_and!; [done|done| |].
    - rewrite D. exact S3.
    - rewrite R. exact S4. }
  split; [done|]. destruct (run_adds all (start g) (start_ok g)) as [A' _].
  destruct (A' (new_ok g)) as (_ & _ & P). change (in_system (ep (start g))) with ([] : list PacketBuffer) in P.
  cbn [app] in P. fold e in P. unfold in_system in P. rewrite Hf, app_nil_r in P. exact P.
Qed.

End Endpoint.

(** ** A link with one reorder rule *)

Definition late_rule : Rule.Rule :=
  Rule.mkRule Rule.ActionReorder (Match.mkMatch None "tcp" 0 0 0 "" None None None [] [] None) "late"
    0 1 0 0 0 "" "" 0 Rule.TriggerAlways 0 f64_0 0 "" 0 0 0.

Definition setup : list Op := [OpAttach true; OpNewRules [late_rule]; OpSetRules (Some 0%nat)].

Abbreviation demo ops := (@run Wire.wire_headers unit zero_source None false ops (start tt)).

(** A packet held for reordering leaves when the link is closed. *)
Lemma close_flushes_witness :
  let ops := setup ++ [OpIngress 2048 [Wire.segment]; OpFinish 0 0] in
  in_flight (queues (ep (demo ops))) = [[Wire.segment]] /\
  in_flight (queues (ep (demo (ops ++ [OpClose 7])))) = [].
Proof.
  split; [vm_compute; reflexivity|].
  apply (@close_flushes Wire.wire_headers unit zero_source None false tt
    (setup ++ [OpIngress 2048 [Wire.segment]; OpFinish 0 0]) 7 []); vm_compute; reflexivity.
Defined.

(** closing can strand a packet.  A handler that checked the stop flag just
    before [Close] and reaches the reorder buffer just after it was drained puts
    its packet where nothing will look again: the packet is never released,
    whatever happens later. *)
Theorem close_can_strand_packet :
  exists ops, entered (demo ops) = [] /\ stopped (ep (demo ops)) = true /\
    forall ops', in_flight (queues (ep (demo (ops ++ ops')))) ≡ₚ [[Wire.segment]].
Proof.
  exists (setup ++ [OpIngress 2048 [Wire.segment]; OpClose 5; OpFinish 0 6]).
  split; [vm_compute; reflexivity|]. split; [vm_compute; reflexivity|]. intros ops'.
  rewrite run_ops_app. set (s := demo _). 
  assert (queues_ok (queues (ep s))) as Q
    by apply (@run_adds Wire.wire_headers unit zero_source None false), start_ok. rewrite stranded_forever; [vm_compute; reflexivity|].
  split; [exact Q|]. split; [vm_compute; reflexivity|]. split; [vm_compute; reflexivity|].
  replace (entered s) with ([] : list Handler) by (vm_compute; reflexivity). constructor.
Qed.

End Endpoint.
