(* ===== verification/Leaf.v ===== *)
(** * Plan leaves: fanning a test out over its nondeterminism
    ([internal/star/leaf.go], [nondet.go], [interleavings.go], [choose.go] and the
    fan-out loop of [runtime.go])

    A test body records the axes it meets: named [choose] calls, probabilistic
    faults with [max_fires], and [parallel] calls with an interleaving policy.
    [enumerateLeaves] expands them to one [PlanLeaf] per combination, and
    [runTestFanout] runs the body once per leaf.  Starlark values are a type
    parameter: the code only selects among them. *)

From Stdlib Require Import ZArith Lia SpecFloat.
From S2P Require Import Prelude GoStd HoldQueue.
From stdpp Require Import base gmap sets strings numbers list.
Import GoStd.
Local Open Scope Z_scope.

Module Leaf.

(** ** Leaves and axes *)

(** A missing map and an empty one read alike. *)
Record PlanLeaf := mkLeaf {
  Index : Z;
  Choices : gmap string Z;
  ProbabilityOutcomes : gmap string (list bool);
  IsDiscovery : bool;
  InterleavingIDs : gmap string Z }.

Record InterleavingPolicy := mkPolicy { Kind : string; PolicyN : Z }.

Record ParallelSite := mkSite { SiteKey : string; Branches : Z; Policy : InterleavingPolicy }.

Record ProbFaultSite := mkProb { ProbKey : string; MaxFires : Z; Prob : float64 }.

Record ChoiceVal (V : Type) := mkChoice { ChoiceName : string; Options : list V }.
Arguments mkChoice {V} ChoiceName Options.
Arguments ChoiceName {V} _.
Arguments Options {V} _.

(** The methods on a possibly missing leaf: the index or outcome it pins. *)
Definition optionIndex (l : option PlanLeaf) (name : string) : option Z :=
  match l with
  | None => None
  | Some l => if String.eqb name "" then None else Choices l !! name
  end.

Definition InterleavingIndex (l : option PlanLeaf) (key : string) : option Z :=
  match l with
  | None => None
  | Some l => if String.eqb key "" then None else InterleavingIDs l !! key
  end.

Definition ProbabilityFire (l : option PlanLeaf) (key : string) (occurrence : Z) : bool * bool :=
  match l with
  | None => (false, false)
  | Some l =>
      if String.eqb key "" || (occurrence <? 0) then (false, false)
      else match ProbabilityOutcomes l !! key with
           | None => (false, false)
           | Some vec =>
               if Z.of_nat (length vec) <=? occurrence then (false, false)
               else (default false (vec !! Z.to_nat occurrence), true)
           end
  end.

(** The closure a session consults: the rule's label, or service and syscall. *)
Definition probabilityDecider (svcName : string) (leaf : option PlanLeaf) (label syscall : string)
    (occurrence : Z) : bool * bool :=
  ProbabilityFire leaf (if String.eqb label "" then svcName +:+ ":" +:+ syscall else label) occurrence.

Section Choose.
Context {V : Type} (None_ : V).

Definition FirstOption (c : ChoiceVal V) : V := default None_ (head (Options c)).

Definition Selected (c : ChoiceVal V) (leaf : option PlanLeaf) : V :=
  match optionIndex leaf (ChoiceName c) with
  | Some idx =>
      if (idx <? 0) || (Z.of_nat (length (Options c)) <=? idx) then FirstOption c
      else default None_ (Options c !! Z.to_nat idx)
  | None => FirstOption c
  end.

(** [collectNamedAxes]: named, with something to vary, the first of each name. *)
Fixpoint collect_axes (seen : list string) (cs : list (ChoiceVal V)) : list (ChoiceVal V) :=
  match cs with
  | [] => []
  | c :: cs =>
      if String.eqb (ChoiceName c) "" || (length (Options c) <? 2)%nat then collect_axes seen cs
      else if bool_decide (ChoiceName c ∈ seen) then collect_axes seen cs
      else c :: collect_axes (ChoiceName c :: seen) cs
  end.

Definition collectNamedAxes (cs : list (ChoiceVal V)) : list (ChoiceVal V) := collect_axes [] cs.

End Choose.

Definition recordProbFault (site : ProbFaultSite) (ps : list ProbFaultSite) : list ProbFaultSite :=
  if String.eqb (ProbKey site) "" || (MaxFires site <=? 0) then ps
  else if existsb (fun s => String.eqb (ProbKey s) (ProbKey site)) ps then ps
  else ps ++ [site].

Definition recordParallelSite (site : ParallelSite) (ps : list ParallelSite) : list ParallelSite :=
  if String.eqb (SiteKey site) "" || (Branches site <? 2) then ps
  else if existsb (fun s => String.eqb (SiteKey s) (SiteKey site)) ps then ps
  else ps ++ [site].

(** ** Interleavings *)

Definition Policy_String (p : InterleavingPolicy) : string :=
  if String.eqb (Kind p) "single" then "1"
  else if String.eqb (Kind p) "all" then "all"
  else if String.eqb (Kind p) "critical" then "critical"
  else if String.eqb (Kind p) "n" then show_Z (PolicyN p)
  else Kind p.

(** The table of factorials, at 64 bits. *)
Fixpoint fact (i : nat) : Z :=
  match i with O => 1 | S j => i64 (fact j * Z.of_nat (S j)) end.

(** The loop with [m] positions left; a zero divisor and an index out of range
    panic. *)
Fixpoint perm_digits (m : nat) (k : Z) (pool : list Z) : option (list Z) :=
  match m with
  | O => Some []
  | S m' =>
      let f := fact m' in
      if f =? 0 then None
      else
        let digit := go_div k f in
        let k := go_mod k f in
        let digit := if Z.of_nat (length pool) <=? digit then Z.of_nat (length pool) - 1 else digit in
        match Lehmer.take_at digit pool with
        | None => None
        | Some (x, pool) =>
            match perm_digits m' k pool with
            | None => None
            | Some p => Some (x :: p)
            end
        end
  end.

Definition permutationByIndex (n k : Z) : option (list Z) :=
  if n <=? 0 then Some []
  else perm_digits (Z.to_nat n) (if k <? 0 then 0 else k) (seqZ 0 n).

Definition identityOrdering (n : Z) : list Z := seqZ 0 n.

(** The product [2 * 3 * .. * n], at 64 bits. *)
Definition factorial (n : Z) : Z := Permutation.fact_loop (Z.to_nat (n - 1)) 2 1.

Definition critical_cap (n : Z) : Z := Z.min (2 * n - 1) (factorial n).

Definition interleavingOrdering (site : ParallelSite) (idx : Z) : option (list Z) :=
  let n := Branches site in
  let kind := Kind (Policy site) in
  if String.eqb kind "single" then Some (identityOrdering n)
  else if String.eqb kind "all" then permutationByIndex n idx
  else if String.eqb kind "n" then
    if (0 <=? idx) && (idx <? PolicyN (Policy site)) then permutationByIndex n idx
    else Some (identityOrdering n)
  else if String.eqb kind "critical" then
    if (0 <=? idx) && (idx <? critical_cap n) then permutationByIndex n idx
    else Some (identityOrdering n)
  else Some (identityOrdering n).

Definition interleavingCardinality (site : ParallelSite) : Z :=
  let n := Branches site in
  let kind := Kind (Policy site) in
  if n <? 2 then 0
  else if String.eqb kind "single" then 0
  else if String.eqb kind "all" then factorial n
  else if String.eqb kind "n" then Z.min (PolicyN (Policy site)) (factorial n)
  else if String.eqb kind "critical" then critical_cap n
  else 0.

(** The Starlark values the keyword is read from; [StarOther] names a type. *)
Inductive StarValue := StarInt (z : Z) | StarString (s : string) | StarOther (ty : string).

Inductive KwargErr := NotPositive | Reserved (value : string) | UnknownValue (value : string) | WrongType.

Fixpoint starKwarg (kwargs : list (string * StarValue)) (name : string) : option StarValue :=
  match kwargs with
  | [] => None
  | (k, v) :: kwargs => if String.eqb k name then Some v else starKwarg kwargs name
  end.

Definition parseInterleavingsKwarg (kwargs : list (string * StarValue))
    : result KwargErr InterleavingPolicy :=
  match starKwarg kwargs "interleavings" with
  | None => Ok (mkPolicy "single" 0)
  | Some (StarInt n) =>
      if (n <? - 2 ^ 63) || (2 ^ 63 <=? n) || (n <=? 0) then Err NotPositive
      else if n =? 1 then Ok (mkPolicy "single" 0)
      else Ok (mkPolicy "n" n)
  | Some (StarString s) =>
      if String.eqb s "1" then Ok (mkPolicy "single" 0)
      else if String.eqb s "all" then Ok (mkPolicy "all" 0)
      else if String.eqb s "critical" then Ok (mkPolicy "critical" 0)
      else if String.eqb s "dpor" || String.eqb s "sut-internal" then Err (Reserved s)
      else Err (UnknownValue s)
  | Some (StarOther _) => Err WrongType
  end.

(** ** The axis interface *)

Record NonDeterministicChoice := mkNDC {
  Cardinality : Z;
  Apply : PlanLeaf -> Z -> PlanLeaf }.

Definition set_Choices (m : gmap string Z) (l : PlanLeaf) : PlanLeaf :=
  mkLeaf (Index l) m (ProbabilityOutcomes l) (IsDiscovery l) (InterleavingIDs l).
Definition set_Outcomes (m : gmap string (list bool)) (l : PlanLeaf) : PlanLeaf :=
  mkLeaf (Index l) (Choices l) m (IsDiscovery l) (InterleavingIDs l).
Definition set_Interleavings (m : gmap string Z) (l : PlanLeaf) : PlanLeaf :=
  mkLeaf (Index l) (Choices l) (ProbabilityOutcomes l) (IsDiscovery l) m.

Definition choice_axis {V} (c : ChoiceVal V) : NonDeterministicChoice :=
  mkNDC
    (if String.eqb (ChoiceName c) "" || (length (Options c) <? 2)%nat then 0
     else Z.of_nat (length (Options c)))
    (fun l d => if String.eqb (ChoiceName c) "" then l
                else set_Choices (<[ChoiceName c := d]> (Choices l)) l).

(** The outcome vector a digit stands for. *)
Definition outcome_vector (n digit : Z) : list bool :=
  (fun b => Z.land (Z.shiftr digit b) 1 =? 1) <$> seqZ 0 n.

Definition prob_axis (p : ProbFaultSite) : NonDeterministicChoice :=
  mkNDC
    (if MaxFires p <=? 0 then 0 else i64 (2 ^ MaxFires p))
    (fun l d => if String.eqb (ProbKey p) "" || (MaxFires p <=? 0) then l
                else set_Outcomes (<[ProbKey p := outcome_vector (MaxFires p) d]>
                                     (ProbabilityOutcomes l)) l).

Definition par_axis (p : ParallelSite) : NonDeterministicChoice :=
  mkNDC (interleavingCardinality p)
    (fun l d => if String.eqb (SiteKey p) "" then l
                else set_Interleavings (<[SiteKey p := d]> (InterleavingIDs l)) l).

Definition collectChoices {V} (axes : list (ChoiceVal V)) (probAxes : list ProbFaultSite)
    (parAxes : list ParallelSite) : list NonDeterministicChoice :=
  filter (fun c => 0 < Cardinality c)
    ((choice_axis <$> axes) ++ (prob_axis <$> probAxes) ++ (par_axis <$> parAxes)).

(** ** Expansion *)

(** One leaf: the digits of [rem], least significant first. *)
Fixpoint stamp (choices : list NonDeterministicChoice) (rem : Z) (l : PlanLeaf) : PlanLeaf :=
  match choices with
  | [] => l
  | c :: choices =>
      let card := Cardinality c in stamp choices (go_div rem card) (Apply c l (go_mod rem card))
  end.

Definition blank (i : Z) : PlanLeaf := mkLeaf i ∅ ∅ false ∅.

(** The number of leaves, at 64 bits. *)
Definition total (choices : list NonDeterministicChoice) : Z :=
  foldl (fun t c => i64 (t * Cardinality c)) 1 choices.

(** [None] is the panic of [make] with a negative length. *)
Definition expandLeaves (choices : list NonDeterministicChoice) : option (list PlanLeaf) :=
  match choices with
  | [] => Some [blank 0]
  | _ =>
      if total choices <? 0 then None
      else Some ((fun i => stamp choices i (blank i)) <$> seqZ 0 (total choices))
  end.

Definition enumerateLeaves {V} (axes : list (ChoiceVal V)) (probAxes : list ProbFaultSite)
    (parAxes : list ParallelSite) : option (list PlanLeaf) :=
  expandLeaves (collectChoices axes probAxes parAxes).

(** ** Running the leaves *)

Record TestResult (R : Type) := mkResult { LeafID : string; Outcome : R }.
Arguments mkResult {R} LeafID Outcome.
Arguments LeafID {R} _.
Arguments Outcome {R} _.

(** What a body recorded since its recordings were reset. *)
Record Recording (V : Type) := mkRec {
  rchoices : list (ChoiceVal V); rprobs : list ProbFaultSite; rpars : list ParallelSite }.
Arguments mkRec {V} rchoices rprobs rpars.
Arguments rchoices {V} _.
Arguments rprobs {V} _.
Arguments rpars {V} _.

Section Fanout.
Context {V R : Type}.
(** The body under a leaf, with what it records. *)
Context (body : PlanLeaf -> R * Recording V).
(** Whether the run was found cancelled before a leaf. *)
Context (cancelled : nat -> bool).

Definition run_leaf (l : PlanLeaf) : TestResult R := mkResult (show_Z (Index l)) (body l).1.

(** The loop over the leaves after the first, with the number left out. *)
Fixpoint run_leaves (i : nat) (leaves : list PlanLeaf) : list (TestResult R) * Z :=
  match leaves with
  | [] => ([], 0)
  | l :: leaves =>
      if cancelled i then ([], Z.of_nat (S (length leaves)))
      else let (rs, skipped) := run_leaves (S i) leaves in (run_leaf l :: rs, skipped)
  end.

(** [None] is a panic: of [enumerateLeaves], or of reading the first leaf. *)
Definition runTestFanout : option (list (TestResult R) * Z) :=
  let leaf0 := mkLeaf 0 ∅ ∅ true ∅ in
  let '(r0, rec) := body leaf0 in
  let axes := collectNamedAxes (rchoices rec) in
  let hasActiveParAxes := existsb (fun p => 0 <? interleavingCardinality p) (rpars rec) in
  if (length axes =? 0)%nat && (length (rprobs rec) =? 0)%nat && negb hasActiveParAxes then
    Some ([mkResult "" r0], 0)
  else
    match enumerateLeaves axes (rprobs rec) (rpars rec) with
    | None | Some [] => None
    | Some (l :: leaves) =>
        let (rs, skipped) := run_leaves 1 leaves in Some (run_leaf l :: rs, skipped)
    end.

End Fanout.

(** ** The cross product, against the interface *)

(** Where an axis leaves its mark on a leaf, and the digit read back there. *)
Inductive Slot := SlotChoice (name : string) | SlotProb (key : string) | SlotPar (key : string).

#[export] Instance Slot_eq_dec : EqDecision Slot.
Proof. solve_decision. Defined.

(** An option or ordering index, or a vector of outcomes. *)
Inductive Mark := MIndex (d : Z) | MVector (v : list bool).

Definition view (l : PlanLeaf) (s : Slot) : option Mark :=
  match s with
  | SlotChoice n => MIndex <$> Choices l !! n
  | SlotProb k => MVector <$> ProbabilityOutcomes l !! k
  | SlotPar k => MIndex <$> InterleavingIDs l !! k
  end.

(** The place of an axis and the mark of each digit. *)
Record Face := mkFace { slot : Slot; mark : Z -> Mark }.

(** What every kind of axis promises the enumerator. *)
Class AxisAt (c : NonDeterministicChoice) (f : Face) : Prop := {
  axis_card : 1 <= Cardinality c;
  axis_writes : forall l d, 0 <= d < Cardinality c -> view (Apply c l d) (slot f) = Some (mark f d);
  axis_frame : forall l d s, s <> slot f -> view (Apply c l d) s = view l s;
  axis_index : forall l d, Index (Apply c l d) = Index l;
  axis_mark : forall d d', 0 <= d < Cardinality c -> 0 <= d' < Cardinality c ->
    mark f d = mark f d' -> d = d' }.

Fixpoint product (cards : list Z) : Z :=
  match cards with [] => 1 | c :: cards => c * product cards end.

Fixpoint digits (cards : list Z) (i : Z) : list Z :=
  match cards with [] => [] | c :: cards => i mod c :: digits cards (i / c) end.

Fixpoint encode (cards ds : list Z) : Z :=
  match cards, ds with
  | c :: cards, d :: ds => d + c * encode cards ds
  | _, _ => 0
  end.

Definition in_range (d c : Z) : Prop := 0 <= d < c.

Lemma product_pos cards : Forall (fun c => 1 <= c) cards -> 1 <= product cards.
Proof. induction 1; cbn; nia. Qed.

Lemma digits_range cards i :
  Forall (fun c => 1 <= c) cards -> Forall2 in_range (digits cards i) cards.
Proof.
  intros Hc. revert i. induction Hc as [|c cards Hc _ IH]; intros i; cbn; constructor; [|done].
  apply Z.mod_pos_bound. lia.
Qed.

Lemma encode_range cards ds :
  Forall2 in_range ds cards -> 0 <= encode cards ds < product cards.
Proof.
  induction 1 as [|d c ds cards Hd _ IH]; cbn; [lia|]. unfold in_range in Hd. nia.
Qed.

Lemma digits_encode cards ds : Forall2 in_range ds cards -> digits cards (encode cards ds) = ds.
Proof.
  induction 1 as [|d c ds cards Hd _ IH]; cbn; [done|]. unfold in_range in Hd.
  rewrite (Z.mul_comm c), Z_mod_plus_full, Z.mod_small, Z.div_add, Z.div_small by lia.
  by rewrite Z.add_0_l, IH.
Qed.

Lemma encode_digits cards i :
  Forall (fun c => 1 <= c) cards -> 0 <= i < product cards -> encode cards (digits cards i) = i.
Proof.
  intros Hc. revert i. induction Hc as [|c cards Hc _ IH]; intros i Hi; cbn in *; [lia|].
  rewrite IH; [pose proof (Z.div_mod i c); lia|].
  split; [apply Z.div_pos; lia|]. apply Z.div_lt_upper_bound; lia.
Qed.

(** The 64-bit product is the product while it fits. *)
Lemma total_product choices :
  Forall (fun c => 1 <= Cardinality c) choices -> product (Cardinality <$> choices) < 2 ^ 63 ->
  total choices = product (Cardinality <$> choices).
Proof.
  unfold total. enough (forall t, 1 <= t ->
    Forall (fun c => 1 <= Cardinality c) choices -> t * product (Cardinality <$> choices) < 2 ^ 63 ->
    foldl (fun t c => i64 (t * Cardinality c)) t choices = t * product (Cardinality <$> choices)) as K.
  { intros Hc Hp. rewrite K by (done || lia). lia. }
  induction choices as [|c choices IH]; intros t Ht Hc Hp; cbn [foldl fmap list_fmap]; [cbn; lia|].
  apply Forall_cons_iff in Hc as [Hc Hcs].
  assert (1 <= product (Cardinality <$> choices)) as Hpos by (apply product_pos; by apply Forall_fmap).
  change (product (Cardinality <$> c :: choices))
    with (Cardinality c * product (Cardinality <$> choices)) in *.
  assert (1 <= t * Cardinality c < 2 ^ 63) as Hb by nia.
  rewrite wrap_s_small by (cbn in *; lia). rewrite IH; [cbn; lia|lia|done|lia].
Qed.

Lemma stamp_frame choices faces : Forall2 AxisAt choices faces ->
  forall rem l, Index (stamp choices rem l) = Index l /\
  forall s, s ∉ slot <$> faces -> view (stamp choices rem l) s = view l s.
Proof.
  induction 1 as [|c f choices faces Hc _ IH]; intros rem l; cbn [stamp]; [done|].
  destruct (IH (go_div rem (Cardinality c)) (Apply c l (go_mod rem (Cardinality c)))) as [I1 I2].
  split; [rewrite I1; apply Hc|]. intros s Hs.
  apply not_elem_of_cons in Hs as [Hne Hs]. rewrite I2 by done. by apply Hc.
Qed.

(** A leaf shows the digits it was stamped with. *)
Definition shows (l : PlanLeaf) (f : Face) (d : Z) : Prop := view l (slot f) = Some (mark f d).

Lemma stamp_digits choices faces : Forall2 AxisAt choices faces -> NoDup (slot <$> faces) ->
  forall rem l, 0 <= rem ->
  Forall2 (shows (stamp choices rem l)) faces (digits (Cardinality <$> choices) rem).
Proof.
  induction 1 as [|c f choices faces Hc Hcs IH]; intros Hnd rem l Hr; [constructor|].
  destruct (proj1 (NoDup_cons _ _) Hnd) as [Hs Hnd'].
  pose proof (axis_card (AxisAt := Hc)) as H1.
  cbn [stamp fmap list_fmap digits]. constructor.
  - unfold shows. rewrite (proj2 (stamp_frame _ _ Hcs _ _)) by done. rewrite Z.rem_mod_nonneg by lia.
    apply axis_writes. apply Z.mod_pos_bound. lia.
  - rewrite Z.quot_div_nonneg by lia. apply IH; [done|]. apply Z.div_pos; lia.
Qed.

Lemma shows_inj choices faces l ds ds' :
  Forall2 AxisAt choices faces ->
  Forall2 in_range ds (Cardinality <$> choices) -> Forall2 in_range ds' (Cardinality <$> choices) ->
  Forall2 (shows l) faces ds -> Forall2 (shows l) faces ds' -> ds = ds'.
Proof.
  intros Hc. revert ds ds'. induction Hc as [|c f choices faces Hc _ IH]; intros ds ds' R R' S S'.
  - inversion S; inversion S'; by subst.
  - inversion S as [|? d ? ds1 E1 S1]; subst. inversion S' as [|? d' ? ds2 E2 S2]; subst.
    inversion R; inversion R'; subst. f_equal; [|by apply IH].
    unfold shows in *. apply Hc; [done|done|congruence].
Qed.

(** The enumerator against the interface: one leaf for each combination of
    digits, numbered in order. *)
Lemma expandLeaves_cross choices faces :
  Forall2 AxisAt choices faces -> NoDup (slot <$> faces) ->
  product (Cardinality <$> choices) < 2 ^ 63 ->
  exists leaves, expandLeaves choices = Some leaves /\
    Z.of_nat (length leaves) = product (Cardinality <$> choices) /\
    (forall i l, leaves !! i = Some l -> Index l = Z.of_nat i) /\
    forall ds, Forall2 in_range ds (Cardinality <$> choices) ->
      exists i l, leaves !! i = Some l /\ Forall2 (shows l) faces ds /\
        forall j l', leaves !! j = Some l' -> Forall2 (shows l') faces ds -> j = i.
Proof.
  intros Hf Hnd Hp.
  assert (Forall (fun c => 1 <= Cardinality c) choices) as Hc.
  { clear -Hf. induction Hf as [|c f choices faces Hc _ IH]; constructor; [apply Hc|done]. }
  assert (Forall (fun c => 1 <= c) (Cardinality <$> choices)) as Hc' by by apply Forall_fmap.
  pose proof (product_pos _ Hc') as Hpos. pose proof (total_product choices Hc Hp) as Et.
  assert (expandLeaves choices =
    Some ((fun i => stamp choices i (blank i)) <$> seqZ 0 (product (Cardinality <$> choices)))) as ->.
  { destruct choices as [|c choices]; [done|]. unfold expandLeaves. rewrite Et.
    by rewrite (proj2 (Z.ltb_ge _ _)) by lia. }
  eexists. split; [done|]. split; [rewrite length_fmap, length_seqZ; lia|].
  assert (forall i l, ((fun i => stamp choices i (blank i)) <$>
      seqZ 0 (product (Cardinality <$> choices))) !! i = Some l ->
    0 <= Z.of_nat i < product (Cardinality <$> choices) /\
    l = stamp choices (Z.of_nat i) (blank (Z.of_nat i))) as Hl.
  { intros i l E. apply list_lookup_fmap_Some in E as (z & -> & [Ez Hz]%lookup_seqZ).
    split; [lia|]. by replace z with (Z.of_nat i) by lia. }
  split.
  - intros i l [_ ->]%Hl. apply (stamp_frame _ _ Hf).
  - intros ds Hds. pose proof (encode_range _ _ Hds) as He.
    set (k := encode (Cardinality <$> choices) ds) in *.
    exists (Z.to_nat k), (stamp choices k (blank k)). split_and!.
    + rewrite list_lookup_fmap, lookup_seqZ_lt by lia. cbn [fmap option_fmap option_map].
      by replace (0 + Z.of_nat (Z.to_nat k)) with k by lia.
    + rewrite <- (digits_encode _ _ Hds). apply stamp_digits; [done|done|lia].
    + intros j l' [Hj ->]%Hl Hs.
      pose proof (stamp_digits _ _ Hf Hnd (Z.of_nat j) (blank (Z.of_nat j)) ltac:(lia)) as Hd.
      assert (digits (Cardinality <$> choices) (Z.of_nat j) = ds) as E.
      { eapply (shows_inj _ _ _ _ _ Hf); [by apply digits_range|done|exact Hd|exact Hs]. }
      unfold k. rewrite <- E, encode_digits by done. lia.
Qed.

(** ** The three kinds of axis keep the promise *)

Fixpoint bits_value (v : list bool) : Z :=
  match v with [] => 0 | b :: v => Z.b2z b + 2 * bits_value v end.

Lemma bits_value_range v : 0 <= bits_value v < 2 ^ Z.of_nat (length v).
Proof.
  induction v as [|b v IH]; cbn [bits_value length]; [cbn; lia|].
  rewrite Nat2Z.inj_succ, Z.pow_succ_r by lia. destruct b; cbn [Z.b2z]; lia.
Qed.

Lemma bit_test d b : 0 <= b -> (Z.land (Z.shiftr d b) 1 =? 1) = Z.odd (d / 2 ^ b).
Proof.
  intros Hb. rewrite Z.shiftr_div_pow2 by done. change 1 with (Z.ones 1) at 1.
  rewrite Z.land_ones by lia. change (2 ^ 1) with 2. rewrite Zmod_odd.
  by destruct (Z.odd (d / 2 ^ b)).
Qed.

(** The vector of a digit, from bit [k] on. *)
Lemma bits_value_from n : forall k d, 0 <= k -> 0 <= d ->
  bits_value ((fun b => Z.land (Z.shiftr d b) 1 =? 1) <$> seqZ k (Z.of_nat n)) = (d / 2 ^ k) mod 2 ^ Z.of_nat n.
Proof.
  induction n as [|n IH]; intros k d Hk Hd.
  - cbn. by rewrite Z.mod_1_r.
  - rewrite seqZ_cons by lia. cbn [fmap list_fmap bits_value].
    replace (Z.pred (Z.of_nat (S n))) with (Z.of_nat n) by lia.
    rewrite IH, bit_test by lia. rewrite Nat2Z.inj_succ, (Z.pow_succ_r 2 (Z.of_nat n)) by lia.
    rewrite (Z.rem_mul_r (d / 2 ^ k) 2 (2 ^ Z.of_nat n)) by lia.
    replace (Z.succ k) with (k + 1) by lia.
    rewrite Z.pow_add_r, Z.div_div by lia. change (2 ^ 1) with 2.
    rewrite Zmod_odd. by destruct (Z.odd (d / 2 ^ k)).
Qed.

Lemma bits_value_vector n d : 0 <= n -> 0 <= d < 2 ^ n -> bits_value (outcome_vector n d) = d.
Proof.
  intros Hn Hd. unfold outcome_vector. rewrite <- (Z2Nat.id n) by lia.
  rewrite bits_value_from by lia. rewrite Z2Nat.id by lia. change (2 ^ 0) with 1.
  rewrite Z.div_1_r. by apply Z.mod_small.
Qed.

Lemma bits_value_inj v : forall w, length v = length w -> bits_value v = bits_value w -> v = w.
Proof.
  induction v as [|b v IH]; intros [|c w] Hl E; try done. cbn [bits_value length] in *.
  assert (b = c) as -> by (destruct b, c; cbn [Z.b2z] in E; lia). f_equal. apply IH; lia.
Qed.

Lemma vector_bits_value v : outcome_vector (Z.of_nat (length v)) (bits_value v) = v.
Proof.
  pose proof (bits_value_range v) as Hr. apply bits_value_inj.
  - unfold outcome_vector. rewrite length_fmap, length_seqZ. lia.
  - apply bits_value_vector; lia.
Qed.

Definition choice_face {V} (c : ChoiceVal V) : Face := mkFace (SlotChoice (ChoiceName c)) MIndex.
Definition prob_face (p : ProbFaultSite) : Face :=
  mkFace (SlotProb (ProbKey p)) (fun d => MVector (outcome_vector (MaxFires p) d)).
Definition par_face (p : ParallelSite) : Face := mkFace (SlotPar (SiteKey p)) MIndex.

(** Reading a map after an insertion, under a constructor. *)
Lemma view_insert {A B} (f : A -> B) (m : gmap string A) k a k' :
  f <$> <[k := a]> m !! k' = if decide (k = k') then Some (f a) else f <$> m !! k'.
Proof.
  destruct (decide (k = k')) as [->|Hne]; [by rewrite lookup_insert_eq|by rewrite lookup_insert_ne].
Qed.

Lemma choice_axis_at {V} (c : ChoiceVal V) :
  ChoiceName c <> "" -> (2 <= length (Options c))%nat -> AxisAt (choice_axis c) (choice_face c).
Proof.
  intros Hn Ho.
  assert (Cardinality (choice_axis c) = Z.of_nat (length (Options c))) as Ec.
  { unfold choice_axis. cbn [Cardinality].
    by rewrite (proj2 (String.eqb_neq _ _) Hn), (proj2 (Nat.ltb_ge _ _) Ho). }
  assert (forall l d, Apply (choice_axis c) l d = set_Choices (<[ChoiceName c := d]> (Choices l)) l) as Ea.
  { intros l d. cbn. by rewrite (proj2 (String.eqb_neq _ _) Hn). }
  split; rewrite ?Ec; [lia| | | |by intros ?? _ _ [= ->]]; intros; rewrite Ea; [| |done].
  - cbn. by rewrite lookup_insert_eq.
  - destruct s as [n| |]; [|done|done]. cbn in *. rewrite view_insert.
    rewrite decide_False; [done|congruence].
Qed.

Lemma prob_axis_at p :
  ProbKey p <> "" -> 1 <= MaxFires p <= 62 -> AxisAt (prob_axis p) (prob_face p).
Proof.
  intros Hn Hm.
  assert (Cardinality (prob_axis p) = 2 ^ MaxFires p) as Ec.
  { cbn. rewrite (proj2 (Z.leb_gt _ _)) by lia. apply wrap_s_small; [lia|].
    pose proof (Z.pow_lt_mono_r 2 (MaxFires p) 63). lia. }
  assert (forall l d, Apply (prob_axis p) l d =
    set_Outcomes (<[ProbKey p := outcome_vector (MaxFires p) d]> (ProbabilityOutcomes l)) l) as Ea.
  { intros l d. cbn. rewrite (proj2 (String.eqb_neq _ _) Hn), (proj2 (Z.leb_gt _ _)) by lia. done. }
  split; rewrite ?Ec; [lia| | | |]; try (intros; rewrite Ea).
  - cbn. by rewrite lookup_insert_eq.
  - destruct s as [|k|]; [done| |done]. cbn in *. rewrite view_insert.
    rewrite decide_False; [done|congruence].
  - done.
  - intros d d' Hd Hd' [= E]. rewrite <- (bits_value_vector (MaxFires p) d), E by lia.
    apply bits_value_vector; lia.
Qed.

Lemma par_axis_at p :
  SiteKey p <> "" -> 1 <= interleavingCardinality p -> AxisAt (par_axis p) (par_face p).
Proof.
  intros Hn Hc.
  assert (forall l d, Apply (par_axis p) l d =
    set_Interleavings (<[SiteKey p := d]> (InterleavingIDs l)) l) as Ea.
  { intros l d. cbn. by rewrite (proj2 (String.eqb_neq _ _) Hn). }
  split; [done| | | |by intros ?? _ _ [= ->]]; intros; rewrite Ea; [| |done].
  - cbn. by rewrite lookup_insert_eq.
  - destruct s as [| |k]; [done|done|]. cbn in *. rewrite view_insert.
    rewrite decide_False; [done|congruence].
Qed.

(** ** What is recorded *)

Definition axis_ok {V} (c : ChoiceVal V) : Prop := ChoiceName c <> "" /\ (2 <= length (Options c))%nat.

Lemma collect_axes_ok {V} (cs : list (ChoiceVal V)) : forall seen,
  Forall axis_ok (collect_axes seen cs) /\ NoDup (ChoiceName <$> collect_axes seen cs) /\
  Forall (fun n => n ∉ seen) (ChoiceName <$> collect_axes seen cs).
Proof.
  induction cs as [|c cs IH]; intros seen; cbn [collect_axes].
  { split_and!; constructor. }
  destruct (String.eqb_spec (ChoiceName c) "") as [|Hn]; [apply IH|].
  destruct (Nat.ltb_spec (length (Options c)) 2) as [|Ho]; [apply IH|]. cbn [orb].
  case_bool_decide as Hs; [apply IH|].
  destruct (IH (ChoiceName c :: seen)) as (I1 & I2 & I3). cbn [fmap list_fmap]. split_and!.
  - by constructor.
  - constructor; [|done]. intros Hin. rewrite Forall_forall in I3.
    apply (I3 _ Hin). by left.
  - constructor; [done|]. eapply Forall_impl; [exact I3|]. intros n Hn'. by apply not_elem_of_cons in Hn' as [].
Qed.

(** The sites a body leaves behind, however often it meets them. *)
Definition recorded_probs (sites : list ProbFaultSite) : list ProbFaultSite :=
  foldl (fun ps s => recordProbFault s ps) [] sites.
Definition recorded_pars (sites : list ParallelSite) : list ParallelSite :=
  foldl (fun ps s => recordParallelSite s ps) [] sites.

(** Recording by key keeps keys distinct, whatever the guard. *)
Lemma record_keys {A} (key : A -> string) (ok : A -> bool) (record : A -> list A -> list A) :
  (forall a l, record a l = if ok a then
     (if existsb (fun s => String.eqb (key s) (key a)) l then l else l ++ [a]) else l) ->
  forall sites, let l := foldl (fun l a => record a l) [] sites in
  Forall (fun a => ok a = true) l /\ NoDup (key <$> l).
Proof.
  intros Hr sites. cbv zeta.
  assert (forall l, Forall (fun a => ok a = true) l -> NoDup (key <$> l) ->
    let l' := foldl (fun l a => record a l) l sites in
    Forall (fun a => ok a = true) l' /\ NoDup (key <$> l')) as K; [|apply K; constructor].
  induction sites as [|a sites IH]; intros l Ho Hn; [done|]. cbn [foldl]. rewrite Hr.
  destruct (ok a) eqn:Eo; [|by apply IH].
  destruct (existsb _ l) eqn:Ee; [by apply IH|]. apply IH.
  - apply Forall_app. by repeat constructor.
  - rewrite fmap_app. apply NoDup_app. split_and!; [done| |apply NoDup_singleton].
    intros k (b & Ek & Hb)%list_elem_of_fmap Ea%list_elem_of_singleton.
    assert (existsb (fun s => String.eqb (key s) (key a)) l = true); [|congruence].
    apply existsb_exists. exists b. split; [by apply list_elem_of_In|].
    apply String.eqb_eq. congruence.
Qed.

Lemma recorded_probs_ok sites :
  Forall (fun p => ProbKey p <> "" /\ 1 <= MaxFires p) (recorded_probs sites) /\
  NoDup (ProbKey <$> recorded_probs sites).
Proof.
  destruct (record_keys ProbKey (fun p => negb (String.eqb (ProbKey p) "" || (MaxFires p <=? 0)))
    recordProbFault) with sites as [H1 H2].
  { intros a l. unfold recordProbFault. by destruct (_ || _). }
  split; [|done]. eapply Forall_impl; [exact H1|]. intros p Hp.
  apply negb_true_iff, orb_false_iff in Hp as [H3%String.eqb_neq H4%Z.leb_gt]. split; [done|lia].
Qed.

Lemma recorded_pars_ok sites :
  Forall (fun p => SiteKey p <> "" /\ 2 <= Branches p) (recorded_pars sites) /\
  NoDup (SiteKey <$> recorded_pars sites).
Proof.
  destruct (record_keys SiteKey (fun p => negb (String.eqb (SiteKey p) "" || (Branches p <? 2)))
    recordParallelSite) with sites as [H1 H2].
  { intros a l. unfold recordParallelSite. by destruct (_ || _). }
  split; [|done]. eapply Forall_impl; [exact H1|]. intros p Hp.
  apply negb_true_iff, orb_false_iff in Hp as [H3%String.eqb_neq H4%Z.ltb_ge]. split; [done|lia].
Qed.

(** ** Every combination, once *)

(** The [parallel] calls that fan out. *)
Definition active (pars : list ParallelSite) : list ParallelSite :=
  filter (fun p => 0 < interleavingCardinality p) pars.

Definition combinations {V} (axes : list (ChoiceVal V)) (probs : list ProbFaultSite)
    (pars : list ParallelSite) : Z :=
  product (((fun a => Z.of_nat (length (Options a))) <$> axes) ++
           ((fun p => 2 ^ MaxFires p) <$> probs) ++ (interleavingCardinality <$> pars)).

(** The leaf pins these options, these outcomes and these orderings. *)
Definition pins {V} (l : PlanLeaf) (axes : list (ChoiceVal V)) (probs : list ProbFaultSite)
    (pars : list ParallelSite) (picks : list Z) (vs : list (list bool)) (os : list Z) : Prop :=
  Forall2 (fun a d => optionIndex (Some l) (ChoiceName a) = Some d) axes picks /\
  Forall2 (fun p v => ProbabilityOutcomes l !! ProbKey p = Some v) probs vs /\
  Forall2 (fun p o => InterleavingIndex (Some l) (SiteKey p) = Some o) pars os.

Lemma product_app k l : product (k ++ l) = product k * product l.
Proof. induction k as [|c k IH]; cbn [app product]; [lia|]. rewrite IH. lia. Qed.

(** A factor of a product below [2^63] has an exponent below 63. *)
Lemma factor_bound l n k :
  Forall (fun c => 1 <= c) l -> 2 ^ n ∈ l -> product (l ++ k) < 2 ^ 63 -> 1 <= product k -> n < 63.
Proof.
  intros Hl (l1 & l2 & ->)%list_elem_of_split Hp Hk. apply Forall_app in Hl as [H1 H2].
  apply Forall_cons in H2 as [H0 H2]. rewrite !product_app in Hp. cbn [product] in Hp.
  pose proof (product_pos _ H1). pose proof (product_pos _ H2).
  destruct (Z.lt_ge_cases n 63) as [|Hge]; [done|].
  pose proof (Z.pow_le_mono_r 2 63 n ltac:(lia) Hge). nia.
Qed.

Lemma NoDup_slots {V} (axes : list (ChoiceVal V)) probs pars :
  NoDup (ChoiceName <$> axes) -> NoDup (ProbKey <$> probs) -> NoDup (SiteKey <$> pars) ->
  NoDup (slot <$> ((choice_face <$> axes) ++ (prob_face <$> probs) ++ (par_face <$> pars))).
Proof.
  intros H1 H2 H3. rewrite !fmap_app.
  assert (slot <$> (choice_face <$> axes) = SlotChoice <$> (ChoiceName <$> axes)) as -> by
    by rewrite <- !list_fmap_compose.
  assert (slot <$> (prob_face <$> probs) = SlotProb <$> (ProbKey <$> probs)) as -> by
    by rewrite <- !list_fmap_compose.
  assert (slot <$> (par_face <$> pars) = SlotPar <$> (SiteKey <$> pars)) as -> by
    by rewrite <- !list_fmap_compose.
  rewrite !NoDup_app. split_and!; try (apply NoDup_fmap_2; [by intros ?? [= ->]|done]).
  - intros s (a & -> & _)%list_elem_of_fmap [(b & ? & _)%list_elem_of_fmap|
      (b & ? & _)%list_elem_of_fmap]%elem_of_app; done.
  - intros s (a & -> & _)%list_elem_of_fmap (b & ? & _)%list_elem_of_fmap; done.
Qed.

Section Combinations.
Context {V : Type} (axes : list (ChoiceVal V)) (probs : list ProbFaultSite) (pars : list ParallelSite).
Hypothesis Haxes : Forall axis_ok axes.
Hypothesis Hprobs : Forall (fun p => ProbKey p <> "" /\ 1 <= MaxFires p <= 62) probs.
Hypothesis Hpars : Forall (fun p => SiteKey p <> "" /\ 1 <= interleavingCardinality p) pars.

Abbreviation all_choices := ((choice_axis <$> axes) ++ (prob_axis <$> probs) ++ (par_axis <$> pars)).
Abbreviation all_faces := ((choice_face <$> axes) ++ (prob_face <$> probs) ++ (par_face <$> pars)).

Lemma all_axes_at : Forall2 AxisAt all_choices all_faces.
Proof.
  apply Forall2_app; [|apply Forall2_app]; apply Forall2_fmap_2, Forall_Forall2_diag;
    (eapply Forall_impl; [eassumption|]); intros ? [? ?].
  - by apply choice_axis_at.
  - by apply prob_axis_at.
  - by apply par_axis_at.
Qed.

Lemma all_cards : Cardinality <$> all_choices =
  ((fun a => Z.of_nat (length (Options a))) <$> axes) ++
  ((fun p => 2 ^ MaxFires p) <$> probs) ++ (interleavingCardinality <$> pars).
Proof.
  rewrite !fmap_app, <- !list_fmap_compose. f_equal; [|f_equal].
  - apply Forall_fmap_ext_1. eapply Forall_impl; [exact Haxes|]. intros a [Hn Ho].
    unfold compose, choice_axis. cbn [Cardinality].
    by rewrite (proj2 (String.eqb_neq _ _) Hn), (proj2 (Nat.ltb_ge _ _) Ho).
  - apply Forall_fmap_ext_1. eapply Forall_impl; [exact Hprobs|]. intros p [_ Hm].
    unfold compose, prob_axis. cbn [Cardinality]. rewrite (proj2 (Z.leb_gt _ _)) by lia.
    apply wrap_s_small; [lia|]. pose proof (Z.pow_lt_mono_r 2 (MaxFires p) 63). lia.
Qed.

Lemma all_positive : Forall (fun c => 0 < Cardinality c) all_choices.
Proof.
  pose proof all_axes_at as Ha. clear -Ha.
  induction Ha as [|c f choices faces Hc _ IH]; constructor; [|done].
  pose proof (axis_card (AxisAt := Hc)). lia.
Qed.

(** A leaf shows the digits of a combination exactly when it pins it. *)
Lemma shows_pins l picks vs os :
  length picks = length axes -> Forall2 (fun p v => Z.of_nat (length v) = MaxFires p) probs vs ->
  Forall2 (shows l) all_faces (picks ++ (bits_value <$> vs) ++ os) <->
  pins l axes probs pars picks vs os.
Proof.
  intros Hl Hv. unfold pins.
  assert (length (choice_face <$> axes) = length picks) as E1 by by rewrite length_fmap.
  assert (length (prob_face <$> probs) = length (bits_value <$> vs)) as E2
    by (rewrite !length_fmap; by apply Forall2_length in Hv).
  assert (Forall2 (shows l) (choice_face <$> axes) picks <->
    Forall2 (fun a d => optionIndex (Some l) (ChoiceName a) = Some d) axes picks) as F1.
  { rewrite Forall2_fmap_l. apply (Forall2_iff_l axis_ok); [done|]. intros a d [Hn _].
    unfold shows. cbn. rewrite (proj2 (String.eqb_neq _ _) Hn).
    destruct (Choices l !! ChoiceName a); naive_solver. }
  assert (Forall2 (shows l) (par_face <$> pars) os <->
    Forall2 (fun p o => InterleavingIndex (Some l) (SiteKey p) = Some o) pars os) as F3.
  { rewrite Forall2_fmap_l. apply (Forall2_iff_l _ _ _ _ _ Hpars). intros p o [Hn _].
    unfold shows. cbn. rewrite (proj2 (String.eqb_neq _ _) Hn).
    destruct (InterleavingIDs l !! SiteKey p); naive_solver. }
  assert (Forall2 (shows l) (prob_face <$> probs) (bits_value <$> vs) <->
    Forall2 (fun p v => ProbabilityOutcomes l !! ProbKey p = Some v) probs vs) as F2.
  { rewrite Forall2_fmap. apply (Forall2_iff _ _ _ _ _ Hv). intros p v Hlen.
    unfold shows. cbn. rewrite <- Hlen, vector_bits_value.
    destruct (ProbabilityOutcomes l !! ProbKey p); naive_solver. }
  rewrite <- F1, <- F2, <- F3. split.
  - intros (G1 & G2)%Forall2_app_inv; [|done]. by apply Forall2_app_inv in G2 as [? ?].
  - intros (G1 & G2 & G3). by repeat apply Forall2_app.
Qed.

Lemma digits_in_range picks vs os :
  Forall2 (fun a d => 0 <= d < Z.of_nat (length (Options a))) axes picks ->
  Forall2 (fun p v => Z.of_nat (length v) = MaxFires p) probs vs ->
  Forall2 (fun p o => 0 <= o < interleavingCardinality p) pars os ->
  Forall2 in_range (picks ++ (bits_value <$> vs) ++ os)
    (((fun a => Z.of_nat (length (Options a))) <$> axes) ++
     ((fun p => 2 ^ MaxFires p) <$> probs) ++ (interleavingCardinality <$> pars)).
Proof.
  intros H1 H2 H3. apply Forall2_app; [|apply Forall2_app].
  - apply Forall2_fmap_r, Forall2_flip. exact H1.
  - apply Forall2_fmap, Forall2_flip. eapply Forall2_impl; [exact H2|]. intros p v Hv. cbn.
    unfold in_range. rewrite <- Hv. apply bits_value_range.
  - apply Forall2_fmap_r, Forall2_flip. exact H3.
Qed.

End Combinations.

(** No outcome vector is too long when the combinations fit. *)
Lemma probs_bounded {V} (axes : list (ChoiceVal V)) probs pars :
  Forall axis_ok axes -> Forall (fun p => ProbKey p <> "" /\ 1 <= MaxFires p) probs ->
  Forall (fun p => SiteKey p <> "" /\ 1 <= interleavingCardinality p) pars ->
  combinations axes probs pars < 2 ^ 63 -> forall p, p ∈ probs -> MaxFires p < 63.
Proof.
  intros Ha Hp Hq Hc p Hin. unfold combinations in Hc. rewrite app_assoc in Hc.
  assert (Forall (fun c => 1 <= c) (interleavingCardinality <$> pars)) as Hq'
    by (apply Forall_fmap; eapply Forall_impl; [exact Hq|]; by intros ? []).
  apply (factor_bound (((fun a => Z.of_nat (length (Options a))) <$> axes) ++
     ((fun p => 2 ^ MaxFires p) <$> probs)) (MaxFires p) (interleavingCardinality <$> pars));
    [|..|done|by apply product_pos].
  - apply Forall_app. split; apply Forall_fmap.
    + eapply Forall_impl; [exact Ha|]. intros a [_ Ho]. cbn. lia.
    + eapply Forall_impl; [exact Hp|]. intros q [_ Hm]. cbn.
      pose proof (Z.pow_pos_nonneg 2 (MaxFires q)). lia.
  - apply elem_of_app. right. by apply (list_elem_of_fmap_2 (fun p => 2 ^ MaxFires p)).
Qed.

Lemma collectChoices_active {V} (axes : list (ChoiceVal V)) probs pars :
  Forall axis_ok axes -> Forall (fun p => ProbKey p <> "" /\ 1 <= MaxFires p <= 62) probs ->
  collectChoices axes probs pars =
  (choice_axis <$> axes) ++ (prob_axis <$> probs) ++ (par_axis <$> active pars).
Proof.
  intros Ha Hp. unfold collectChoices. rewrite !filter_app.
  pose proof (all_positive axes probs [] Ha Hp ltac:(constructor)) as Hpos.
  rewrite !Forall_app in Hpos. destruct Hpos as (H1 & H2 & _).
  rewrite (filter_all _ (choice_axis <$> axes)), (filter_all _ (prob_axis <$> probs))
    by (by apply Forall_forall).
  do 2 f_equal. unfold active. clear. induction pars as [|p pars IH]; [done|].
  cbn [fmap list_fmap]. rewrite !filter_cons. cbn [Cardinality par_axis].
  case_decide; [|done]. cbn [fmap list_fmap]. by rewrite <- IH.
Qed.

(** C6: a fan-out covers every combination exactly once.  Whatever choices,
    probabilistic faults and parallel calls a body records, while their
    combinations fit in 63 bits the leaves are as many as the combinations, and
    for every selection of an option per named choice, of an outcome per
    occurrence of each probabilistic fault and of an ordering per fanned-out
    parallel call, exactly one leaf pins precisely that selection. *)
Theorem leaves_cover_every_combination {V} (cs : list (ChoiceVal V)) psites qsites :
  let axes := collectNamedAxes cs in
  let probs := recorded_probs psites in
  let pars := recorded_pars qsites in
  combinations axes probs (active pars) < 2 ^ 63 ->
  exists leaves, enumerateLeaves axes probs pars = Some leaves /\
    Z.of_nat (length leaves) = combinations axes probs (active pars) /\
    forall picks vs os,
      Forall2 (fun a d => 0 <= d < Z.of_nat (length (Options a))) axes picks ->
      Forall2 (fun p v => Z.of_nat (length v) = MaxFires p) probs vs ->
      Forall2 (fun p o => 0 <= o < interleavingCardinality p) (active pars) os ->
      exists i l, leaves !! i = Some l /\ Index l = Z.of_nat i /\
        pins l axes probs (active pars) picks vs os /\
        forall j l', leaves !! j = Some l' -> pins l' axes probs (active pars) picks vs os -> j = i.
Proof.
  intros axes probs pars Hc. destruct (collect_axes_ok cs []) as (Ha & Na & _). fold axes in Ha, Na.
  destruct (recorded_probs_ok psites) as [Hp Np]. fold probs in Hp, Np.
  destruct (recorded_pars_ok qsites) as [Hq Nq]. fold pars in Hq, Nq.
  assert (Forall (fun p => SiteKey p <> "" /\ 1 <= interleavingCardinality p) (active pars)) as Hq'.
  { unfold active. apply Forall_forall. intros p [Hi Hin]%list_elem_of_filter.
    rewrite Forall_forall in Hq. destruct (Hq p Hin). split; [done|lia]. }
  assert (NoDup (SiteKey <$> active pars)) as Nq'.
  { eapply sublist_NoDup; [exact Nq|]. apply fmap_sublist, sublist_filter. }
  assert (Forall (fun p => ProbKey p <> "" /\ 1 <= MaxFires p <= 62) probs) as Hp'.
  { apply Forall_forall. intros p Hin. pose proof (probs_bounded axes probs (active pars) Ha Hp Hq' Hc p Hin).
    rewrite Forall_forall in Hp. destruct (Hp p Hin). split; [done|lia]. }
  pose proof (all_axes_at axes probs (active pars) Ha Hp' Hq') as HA.
  pose proof (all_cards axes probs (active pars) Ha Hp') as HE.
  destruct (expandLeaves_cross _ _ HA) as (leaves & E & L & I & C).
  { by apply NoDup_slots. }
  { by rewrite HE. }
  rewrite HE in L, C. exists leaves. split; [|split; [done|]].
  { unfold enumerateLeaves. by rewrite collectChoices_active. }
  intros picks vs os Hpk Hvs Hos. pose proof (Forall2_length _ _ _ Hpk) as Hlen.
  destruct (C (picks ++ (bits_value <$> vs) ++ os)) as (i & l & Hl & Hs & Hu).
  { by apply digits_in_range. }
  exists i, l. split; [done|]. split; [by apply I|]. split.
  - by apply (shows_pins axes probs (active pars) Ha Hq' l picks vs os).
  - intros j l' Hl' Hs'. apply (Hu j l' Hl'). by apply shows_pins.
Qed.

(** Two named choices and a fault that may fire twice: twelve leaves, and the one
    that picks the second and third options and fires only the second time. *)
Definition demo_choices : list (ChoiceVal string) :=
  [mkChoice "mode" ["sync"; "async"]; mkChoice "retries" ["0"; "1"; "3"]; mkChoice "mode" ["x"; "y"]].

Definition demo_fault : ProbFaultSite := mkProb "db:write" 2 f64_1.

Lemma leaves_cover_every_combination_witness :
  exists leaves i l,
    enumerateLeaves (collectNamedAxes demo_choices) (recorded_probs [demo_fault]) [] = Some leaves /\
    leaves !! i = Some l /\ Choices l !! "mode" = Some 1 /\ Choices l !! "retries" = Some 2 /\
    ProbabilityOutcomes l !! "db:write" = Some [false; true].
Proof.
  destruct (leaves_cover_every_combination demo_choices [demo_fault] [] ltac:(vm_compute; reflexivity))
    as (leaves & E & _ & C).
  destruct (C [1; 2] [[false; true]] []) as (i & l & Hl & _ & (P1 & P2 & _) & _).
  - repeat constructor; vm_compute; congruence.
  - repeat constructor.
  - constructor.
  - exists leaves, i, l. split; [exact E|]. split; [exact Hl|].
    inversion P1 as [|? ? ? ? E1 P1']; subst. inversion P1' as [|? ? ? ? E2 _]; subst.
    inversion P2 as [|? ? ? ? E3 _]; subst. split; [exact E1|]. split; [exact E2|exact E3].
Defined.

(** ** The loop over the leaves *)

Section FanoutLemmas.
Context {V R : Type} (body : PlanLeaf -> R * Recording V) (cancelled : nat -> bool).

Lemma run_leaves_prefix leaves : forall i, exists n,
  run_leaves body cancelled i leaves =
    (run_leaf body <$> take n leaves, Z.of_nat (length leaves - n)) /\ (n <= length leaves)%nat /\
  (forall k, (k < n)%nat -> cancelled (i + k)%nat = false) /\
  ((n < length leaves)%nat -> cancelled (i + n)%nat = true).
Proof.
  induction leaves as [|l leaves IH]; intros i; cbn [run_leaves].
  { exists 0%nat. split_and!; [done|done|lia|cbn; lia]. }
  destruct (cancelled i) eqn:E.
  { exists 0%nat. split_and!; [done|lia|lia|]. intros _. by rewrite Nat.add_0_r. }
  destruct (IH (S i)) as (n & -> & Hn & H1 & H2). exists (S n). split_and!.
  - done.
  - cbn. lia.
  - intros [|k] Hk; [by rewrite Nat.add_0_r|]. replace (i + S k)%nat with (S i + k)%nat by lia.
    apply H1. lia.
  - intros Hl. replace (i + S n)%nat with (S i + n)%nat by lia. apply H2. cbn in Hl. lia.
Qed.

End FanoutLemmas.

Lemma no_active pars :
  existsb (fun p => 0 <? interleavingCardinality p) pars = false ->
  filter (fun c => 0 < Cardinality c) (par_axis <$> pars) = [].
Proof.
  induction pars as [|p pars IH]; [done|]. cbn [existsb fmap list_fmap].
  intros [Hp%Z.ltb_ge Hps]%orb_false_iff. rewrite filter_cons_False by (cbn; lia). by apply IH.
Qed.

(** a fan-out reports every leaf.  When a body has something to fan out, the
    results are those of the leaves in order, from the first up to the first leaf
    before which the run was found cancelled, and the rest is what the fan-out
    says it skipped: no leaf is run twice, left out or unaccounted for. *)
Theorem fanout_accounts_for_leaves {V R} (body : PlanLeaf -> R * Recording V) cancelled leaves l0 :
  let rec := (body (mkLeaf 0 ∅ ∅ true ∅)).2 in
  let axes := collectNamedAxes (rchoices rec) in
  collectChoices axes (rprobs rec) (rpars rec) <> [] ->
  enumerateLeaves axes (rprobs rec) (rpars rec) = Some (l0 :: leaves) ->
  exists n, (1 <= n <= S (length leaves))%nat /\
    runTestFanout body cancelled =
      Some (run_leaf body <$> take n (l0 :: leaves), Z.of_nat (S (length leaves) - n)) /\
    (forall k, (1 <= k < n)%nat -> cancelled k = false) /\
    ((n < S (length leaves))%nat -> cancelled n = true).
Proof.
  intros rec axes Hne E. unfold runTestFanout.
  destruct (body (mkLeaf 0 ∅ ∅ true ∅)) as [r0 rec'] eqn:Eb. cbn [snd] in rec. subst rec.
  fold axes. destruct (_ && _) eqn:Ec.
  - exfalso. apply Hne. apply andb_true_iff in Ec as [[E1 E2]%andb_true_iff E3%negb_true_iff].
    apply Nat.eqb_eq, length_zero_iff_nil in E1, E2. unfold collectChoices. rewrite E1, E2. cbn [fmap list_fmap app].
    apply no_active. done.
  - rewrite E. destruct (run_leaves_prefix body cancelled leaves 1) as (n & -> & Hn & H1 & H2).
    exists (S n). split_and!; [lia|lia|done| |].
    + intros k Hk. destruct k as [|k]; [lia|]. apply (H1 k). lia.
    + intros Hl. apply H2. lia.
Qed.

Definition demo_body (l : PlanLeaf) : Z * Recording string :=
  (Index l, mkRec demo_choices [demo_fault] []).

Lemma fanout_accounts_for_leaves_witness :
  exists rs, runTestFanout demo_body (fun k => (5 <=? k)%nat) = Some (rs, 19) /\ length rs = 5%nat.
Proof.
  assert (option_map (@length PlanLeaf) (enumerateLeaves (collectNamedAxes demo_choices) [demo_fault] [])
    = Some 24%nat) as H24 by (vm_compute; reflexivity).
  destruct (enumerateLeaves (collectNamedAxes demo_choices) [demo_fault] []) as [[|l0 leaves]|] eqn:E;
    cbn [option_map length] in H24; [discriminate| |discriminate]. injection H24 as Hl.
  destruct (fanout_accounts_for_leaves demo_body (fun k => (5 <=? k)%nat) leaves l0)
    as (n & Hn & Hr & H1 & H2).
  { intros Hc. apply (f_equal (@length _)) in Hc. vm_compute in Hc. discriminate. }
  { exact E. }
  assert (n = 5%nat) as ->.
  { destruct (Nat.lt_trichotomy n 5) as [Hlt|[->|Hgt]]; [|done|].
    - assert ((5 <=? n)%nat = true) as H5%Nat.leb_le by (apply H2; lia). lia.
    - specialize (H1 5%nat ltac:(lia)). discriminate. }
  exists (run_leaf demo_body <$> take 5 (l0 :: leaves)). rewrite Hr, Hl. split; [reflexivity|].
  rewrite length_fmap, length_take. cbn [length]. lia.
Defined.

(** ** Overflow *)

Lemma i64_pow_zero n : 64 <= n -> i64 (2 ^ n) = 0.
Proof.
  intros Hn. unfold wrap_s. change (64 - 1) with 63.
  replace (2 ^ n) with (2 ^ (n - 64) * 2 ^ 64) by (rewrite <- Z.pow_add_r by lia; f_equal; lia).
  rewrite Z.add_comm, Z_mod_plus_full. reflexivity.
Qed.

(** the number of leaves can overflow to none.  Two exhaustive faults whose
    [max_fires] add up to 64 or more make the 64-bit product zero: there are no
    leaves, and taking the first one panics instead of reporting the test. *)
Theorem fanout_overflow_panics {V R} (body : PlanLeaf -> R * Recording V) cancelled r k1 k2 a b x y :
  body (mkLeaf 0 ∅ ∅ true ∅) = (r, mkRec [] [mkProb k1 a x; mkProb k2 b y] []) ->
  1 <= a <= 62 -> 1 <= b <= 62 -> 64 <= a + b ->
  enumerateLeaves (V := V) [] [mkProb k1 a x; mkProb k2 b y] [] = Some [] /\
  runTestFanout body cancelled = None.
Proof.
  intros Eb Ha Hb Hab.
  assert (enumerateLeaves (V := V) [] [mkProb k1 a x; mkProb k2 b y] [] = Some []) as E.
  { unfold enumerateLeaves, collectChoices. cbn [fmap list_fmap app].
    assert (forall k n z, 1 <= n <= 62 -> Cardinality (prob_axis (mkProb k n z)) = 2 ^ n) as Ec.
    { intros k n z Hn. cbn. rewrite (proj2 (Z.leb_gt _ _)) by lia. apply wrap_s_small; [lia|].
      pose proof (Z.pow_lt_mono_r 2 n 63). lia. }
    pose proof (Z.pow_pos_nonneg 2 a). pose proof (Z.pow_pos_nonneg 2 b).
    rewrite !filter_cons_True, filter_nil by (rewrite Ec; lia).
    unfold expandLeaves, total. cbn [foldl]. rewrite !Ec, Z.mul_1_l by lia.
    rewrite (wrap_s_small 64 (2 ^ a)) by
      (try lia; pose proof (Z.pow_lt_mono_r 2 a 63); lia).
    by rewrite <- Z.pow_add_r, i64_pow_zero by lia. }
  split; [done|]. unfold runTestFanout. rewrite Eb. cbn [rchoices rprobs rpars].
  change (collectNamedAxes (@nil (ChoiceVal V))) with (@nil (ChoiceVal V)). rewrite E. done.
Qed.

Lemma fanout_overflow_panics_witness :
  runTestFanout (V := string) (fun l => (Index l, mkRec [] [mkProb "a" 32 f64_1; mkProb "b" 32 f64_1] []))
    (fun _ => false) = None.
Proof.
  apply (fanout_overflow_panics (V := string)
    (fun l => (Index l, mkRec [] [mkProb "a" 32 f64_1; mkProb "b" 32 f64_1] []))
    (fun _ => false) 0 "a" "b" 32 32 f64_1 f64_1); [reflexivity|lia|lia|lia].
Defined.

(** ** Orderings *)

Lemma fact_small m : (m <= 20)%nat -> fact m = Permutation.zfact m.
Proof.
  intros Hm. assert (Forall (fun m => fact m = Permutation.zfact m) (seq 0 21)) as HF
    by (by apply (bool_decide_unpack _); vm_compute).
  rewrite Forall_forall in HF. apply HF, elem_of_seq. lia.
Qed.

Lemma factorial_small n : 1 <= n <= 20 -> factorial n = Permutation.zfact (Z.to_nat n).
Proof.
  intros Hn. assert (Forall (fun n => factorial n = Permutation.zfact (Z.to_nat n)) (seqZ 1 20)) as HF
    by (by apply (bool_decide_unpack _); vm_compute).
  rewrite Forall_forall in HF. apply HF, elem_of_seqZ. lia.
Qed.

Lemma zfact_step m : Permutation.zfact (S m) = (Z.of_nat m + 1) * Permutation.zfact m.
Proof. cbn [Permutation.zfact]. f_equal. lia. Qed.

Lemma perm_digits_decode m : forall k pool,
  (m <= 20)%nat -> length pool = m -> 0 <= k < Permutation.zfact m ->
  perm_digits m k pool = Lehmer.decode Permutation.zfact m k pool.
Proof.
  induction m as [|m IH]; intros k pool Hm Hl Hk; cbn [perm_digits Lehmer.decode]; [done|].
  pose proof (Permutation.zfact_pos m) as Hp. rewrite fact_small by lia.
  destruct (Lehmer.digit_range Permutation.zfact Permutation.zfact_pos) with m k as [Hd Hr];
    [intros j; rewrite zfact_step; lia|done|].
  rewrite (proj2 (Z.eqb_neq _ _)), (proj2 (Z.leb_gt _ _)) by lia.
  destruct (Lehmer.take_at (go_div k (Permutation.zfact m)) pool) as [[x rest]|] eqn:E; [|done].
  rewrite IH; [done|lia| |done]. apply Lehmer.take_at_inv in E as (_ & Hx & ->).
  pose proof (Permutation_length (Lehmer.remove_perm _ _ _ Hx)) as HL. cbn in HL. lia.
Qed.

Lemma zfact_bound m : Permutation.zfact (S m) <= (Z.of_nat m + 1) * Permutation.zfact m.
Proof. rewrite zfact_step. lia. Qed.

(** [permutationByIndex] decodes, without overflow up to twenty branches. *)
Lemma permutationByIndex_decode n k :
  1 <= n <= 20 -> 0 <= k < Permutation.zfact (Z.to_nat n) ->
  permutationByIndex n k = Lehmer.decode Permutation.zfact (Z.to_nat n) k (seqZ 0 n).
Proof.
  intros Hn Hk. unfold permutationByIndex.
  rewrite (proj2 (Z.leb_gt _ _)), (proj2 (Z.ltb_ge _ _)) by lia.
  apply perm_digits_decode; [lia|rewrite length_seqZ; lia|done].
Qed.

(** Below its cardinality a site's ordering is the decoded permutation. *)
Lemma ordering_decode site i :
  2 <= Branches site <= 20 -> 0 <= i < interleavingCardinality site ->
  interleavingCardinality site <= Permutation.zfact (Z.to_nat (Branches site)) /\
  interleavingOrdering site i =
    Lehmer.decode Permutation.zfact (Z.to_nat (Branches site)) i (seqZ 0 (Branches site)).
Proof.
  intros Hb Hi. rewrite <- (factorial_small (Branches site)) by lia.
  rewrite <- (permutationByIndex_decode (Branches site) i);
    [|lia|rewrite <- factorial_small by lia];
    unfold interleavingCardinality, interleavingOrdering in *;
    rewrite (proj2 (Z.ltb_ge (Branches site) 2)) in * by lia;
    destruct (String.eqb (Kind (Policy site)) "single"); try lia;
    destruct (String.eqb (Kind (Policy site)) "all"); try (split; [lia|done]); try lia;
    destruct (String.eqb (Kind (Policy site)) "n"); try lia;
    try (destruct (String.eqb (Kind (Policy site)) "critical"); unfold critical_cap in *; try lia);
    rewrite (proj2 (Z.leb_le 0 i)), (proj2 (Z.ltb_lt i _)) by lia; (split; [lia|done]).
Qed.

(** the leaves of a [parallel] call try different orders.  For up to twenty
    branches, every index below the cardinality of the policy gives a release
    order of the branches, different indices give different orders, and under
    the policy "all" every order has its index. *)
Theorem interleavings_distinct site :
  2 <= Branches site <= 20 ->
  let n := Branches site in
  let card := interleavingCardinality site in
  (forall i, 0 <= i < card -> exists p, interleavingOrdering site i = Some p /\ p ≡ₚ seqZ 0 n) /\
  (forall i j, 0 <= i < card -> 0 <= j < card ->
     interleavingOrdering site i = interleavingOrdering site j -> i = j) /\
  (Kind (Policy site) = "all" -> forall p, p ≡ₚ seqZ 0 n ->
     exists i, 0 <= i < card /\ interleavingOrdering site i = Some p).
Proof.
  intros Hb n card.
  assert (length (seqZ 0 n) = Z.to_nat n) as Hl by (rewrite length_seqZ; lia).
  assert (forall i, 0 <= i < card -> exists p, interleavingOrdering site i = Some p /\ p ≡ₚ seqZ 0 n) as HT.
  { intros i Hi. destruct (ordering_decode site i Hb Hi) as [Hc ->].
    apply (Lehmer.decode_total _ Permutation.zfact_pos zfact_bound); [done|].
    fold card in Hc. subst n. lia. }
  split; [done|]. split.
  - intros i j Hi Hj E. destruct (HT i Hi) as (p & Ep & _).
    destruct (ordering_decode site i Hb Hi) as [Hc Ei]. destruct (ordering_decode site j Hb Hj) as [_ Ej].
    fold card in Hc. eapply (Lehmer.decode_inj Permutation.zfact (Z.to_nat n) eq_refl
      Permutation.zfact_pos zfact_bound (Z.to_nat n) i j (seqZ 0 n) p); try (subst n; lia).
    + apply NoDup_seqZ.
    + subst n. congruence.
    + subst n. congruence.
  - intros Hk p Hp. destruct (Lehmer.decode_surj Permutation.zfact (Z.to_nat n) eq_refl
      Permutation.zfact_pos (fun m _ => zfact_step m) (Z.to_nat n) (seqZ 0 n) p)
      as (i & Hi & Ei); [done|done|done|].
    assert (0 <= i < card) as Hic.
    { subst card. unfold interleavingCardinality. rewrite Hk, (proj2 (Z.ltb_ge _ _)) by lia. cbn.
      rewrite factorial_small by lia. exact Hi. }
    exists i. split; [done|]. destruct (ordering_decode site i Hb Hic) as [_ ->]. exact Ei.
Qed.

Lemma interleavings_distinct_witness :
  exists i, 0 <= i < 24 /\
    interleavingOrdering (mkSite "spec.star:12" 4 (mkPolicy "all" 0)) i = Some [2; 0; 3; 1].
Proof.
  apply (interleavings_distinct (mkSite "spec.star:12" 4 (mkPolicy "all" 0)));
    [cbn; lia|reflexivity|]. by apply (bool_decide_unpack _); vm_compute.
Defined.

End Leaf.
