(* ===== verification/EventLog.v ===== *)
(** * The event log and its vector clocks
    ([internal/star/events.go] and the matchers of [match.go])

    The log is append-only: an event gets the next sequence number, a snapshot of
    its service's vector clock and an entry in the two secondary indexes.
    [MergeClock] records that one service heard from another.  Subscribers are
    not modelled here. *)

From Stdlib Require Import ZArith Lia.
From S2P Require Import Prelude.
From stdpp Require Import base gmap sets strings numbers list.
Local Open Scope Z_scope.

Module EventLog.

(** ** Events *)

Record Event := mkEvent {
  Seq : Z; Timestamp : Z; Type_ : string; EventType : string; PartitionKey : string;
  Service : string; Fields : gmap string string; VectorClock : gmap string Z }.

Record EventLog := mkLog {
  events : list Event;
  generation : Z;
  lseq : Z;
  clocks : gmap string (gmap string Z);
  byType : gmap string (list nat);
  byService : gmap string (list nat) }.

Definition NewEventLog : EventLog := mkLog [] 0 0 ∅ ∅ ∅.

(** ** Emitting *)

(** The dotted type of an event. *)
Definition event_type (typ : string) (fields : gmap string string) : string :=
  let with_target := match fields !! "target" with Some t => typ +:+ "." +:+ t | None => typ end in
  match fields !! "syscall" with
  | Some sc => typ +:+ "." +:+ sc
  | None =>
      if String.eqb typ "service_started" || String.eqb typ "service_ready" then
        "lifecycle." +:+ trim_prefix typ "service_"
      else if String.eqb typ "step_send" || String.eqb typ "step_recv" then with_target
      else if String.eqb typ "client_call" || String.eqb typ "client_return" ||
              String.eqb typ "contract_violation" then with_target
      else typ
  end.

(** Advancing a service's own component. *)
Definition tick (service : string) (cs : gmap string (gmap string Z)) : gmap string (gmap string Z) :=
  let c := default ∅ (cs !! service) in
  <[service := <[service := i64 (default 0 (c !! service) + 1)]> c]> cs.

Definition push_index (key : string) (idx : nat) (m : gmap string (list nat)) : gmap string (list nat) :=
  if String.eqb key "" then m else <[key := default [] (m !! key) ++ [idx]]> m.

Definition emit (typ service : string) (fields : gmap string string) (now : Z) (l : EventLog) : EventLog :=
  let seq := i64 (lseq l + 1) in
  let cs := if String.eqb service "" then clocks l else tick service (clocks l) in
  let vc := if String.eqb service "" then ∅ else default ∅ (cs !! service) in
  let ev := mkEvent seq now typ (event_type typ fields) service service fields vc in
  let idx := length (events l) in
  mkLog (events l ++ [ev]) (generation l) seq cs (push_index typ idx (byType l))
    (push_index service idx (byService l)).

(** The loop of [MergeClock] touches each key of the remote clock on its own. *)
Definition merge_entry (a b : option Z) : option Z :=
  match a, b with
  | _, None => a
  | None, Some v => if 0 <? v then Some v else None
  | Some x, Some v => if x <? v then Some v else Some x
  end.

Definition MergeClock (local remote : string) (l : EventLog) : EventLog :=
  let cs := match clocks l !! local with
            | Some _ => clocks l
            | None => <[local := ∅]> (clocks l)
            end in
  let cs := match cs !! remote with
            | None => cs
            | Some rc => <[local := merge merge_entry (default ∅ (cs !! local)) rc]> cs
            end in
  mkLog (events l) (generation l) (lseq l) cs (byType l) (byService l).

Definition Reset (l : EventLog) : EventLog := mkLog [] (u64 (generation l + 1)) 0 ∅ ∅ ∅.

(** ** Queries *)

Definition Len (l : EventLog) : Z := Z.of_nat (length (events l)).

(** Reading the events at a list of indices. *)
Definition at_indices (l : EventLog) (idxs : list nat) : list Event := omap (events l !!.) idxs.

Definition EventsByType (typ : string) (l : EventLog) : list Event :=
  at_indices l (default [] (byType l !! typ)).
Definition EventsByService (svc : string) (l : EventLog) : list Event :=
  at_indices l (default [] (byService l !! svc)).

(** A matcher; one without a function matches nothing. *)
Record MatcherVal := mkMatcher { mname : string; matchFn : option (Event -> bool) }.

Definition Matches (m : MatcherVal) (ev : Event) : bool :=
  match matchFn m with Some f => f ev | None => false end.

Definition match_any (ms : list MatcherVal) : MatcherVal :=
  mkMatcher "any(...)" (Some (fun ev => existsb (fun m => Matches m ev) ms)).
Definition match_all (ms : list MatcherVal) : MatcherVal :=
  mkMatcher "all(...)" (Some (fun ev => forallb (fun m => Matches m ev) ms)).
Definition match_never : MatcherVal := mkMatcher "never" (Some (fun _ => false)).

Definition MatchingEvents (m : MatcherVal) (l : EventLog) : list Event :=
  List.filter (Matches m) (events l).
Definition FirstMatching (m : MatcherVal) (l : EventLog) : option Event :=
  List.find (Matches m) (events l).
Definition LastMatching (m : MatcherVal) (l : EventLog) : option Event :=
  List.find (Matches m) (reverse (events l)).
Definition CountMatching (m : MatcherVal) (l : EventLog) : Z :=
  Z.of_nat (length (List.filter (Matches m) (events l))).

(** ** Runs of the log *)

Inductive op :=
| OEmit (typ service : string) (fields : gmap string string) (now : Z)
| OMerge (local remote : string).

Definition apply_op (l : EventLog) (o : op) : EventLog :=
  match o with
  | OEmit typ service fields now => emit typ service fields now l
  | OMerge local remote => MergeClock local remote l
  end.

Definition run (ops : list op) : EventLog := foldl apply_op NewEventLog ops.

(** The services whose knowledge an operation uses, and the one it adds to. *)
Definition reads (o : op) : list string :=
  match o with
  | OEmit _ service _ _ => if String.eqb service "" then [] else [service]
  | OMerge local remote => [local; remote]
  end.
Definition writes (o : op) : list string :=
  match o with
  | OEmit _ service _ _ => if String.eqb service "" then [] else [service]
  | OMerge local _ => [local]
  end.

(** Lamport's relation on the positions of a run: an operation depends on every
    earlier one that added to what it uses, and so on transitively. *)
Definition edge (ops : list op) (p q : nat) : Prop :=
  (p < q)%nat /\ exists o o' s, ops !! p = Some o /\ ops !! q = Some o' /\
    s ∈ writes o /\ s ∈ reads o'.
Definition happens_before (ops : list op) : nat -> nat -> Prop := tc (edge ops).

(** Position [p] emits an event of service [t]. *)
Definition emits (ops : list op) (p : nat) (t : string) : Prop :=
  t <> "" /\ exists typ fields now, ops !! p = Some (OEmit typ t fields now).

Definition is_emit (o : op) : bool := match o with OEmit _ _ _ _ => true | _ => false end.
Definition emit_of (t : string) (o : op) : bool :=
  match o with
  | OEmit _ service _ _ => negb (String.eqb t "") && String.eqb service t
  | _ => false
  end.
Definition count (f : op -> bool) (ops : list op) : Z := Z.of_nat (length (List.filter f ops)).

(** The event a position logged. *)
Definition logged (ops : list op) (p : nat) : option Event :=
  match ops !! p with
  | Some (OEmit _ _ _ _) => events (run ops) !! length (List.filter is_emit (take p ops))
  | _ => None
  end.

(** The pointwise order of clocks, absent components being zero. *)
Definition at_ (vc : gmap string Z) (k : string) : Z := default 0 (vc !! k).
Definition clock_le (a b : gmap string Z) : Prop := forall k, at_ a k <= at_ b k.

Definition clock (l : EventLog) (s t : string) : Z := at_ (default ∅ (clocks l !! s)) t.

(** Service [s] has heard, directly or not, of position [p]. *)
Definition knows (ops : list op) (s : string) (p : nat) : Prop :=
  exists w o, ops !! w = Some o /\ s ∈ writes o /\ (p = w \/ happens_before ops p w).

(** *** The relation grows with the run *)

Lemma run_snoc ops o : run (ops ++ [o]) = apply_op (run ops) o.
Proof. unfold run. by rewrite foldl_app. Qed.

Lemma edge_bound ops p q : edge ops p q -> (p < q)%nat /\ (q < length ops)%nat.
Proof. intros (Hlt & o & o' & s & Hp & Hq & _). split; [done|]. by eapply lookup_lt_Some. Qed.

Lemma hb_bound ops p q : happens_before ops p q -> (p < q)%nat /\ (q < length ops)%nat.
Proof. induction 1 as [x y H|x y z H _ IH]; apply edge_bound in H; lia. Qed.

Lemma hb_last_edge ops p q : happens_before ops p q ->
  edge ops p q \/ exists w, happens_before ops p w /\ edge ops w q.
Proof.
  intros H. apply (tc_ind_r (fun q => edge ops p q \/ exists w, happens_before ops p w /\ edge ops w q) p) with (3 := H).
  - by left.
  - intros w z Hpw He _. right. by exists w.
Qed.

Lemma edge_app ops os p q : (q < length ops)%nat -> edge (ops ++ os) p q <-> edge ops p q.
Proof.
  intros Hq. unfold edge. split; intros (Hlt & o & o' & s & H1 & H2 & H3); split; try done;
    exists o, o', s; rewrite !lookup_app_l in * by lia; done.
Qed.

Lemma hb_app ops os p q : (q < length ops)%nat ->
  happens_before (ops ++ os) p q <-> happens_before ops p q.
Proof.
  intros Hq. split; intros H; induction H as [x y H|x y z H Hyz IH].
  - apply tc_once. by eapply edge_app.
  - pose proof (hb_bound _ _ _ (IH Hq)). eapply tc_l; [|by apply IH]. eapply edge_app; [|exact H]. lia.
  - apply tc_once. by apply edge_app.
  - pose proof (hb_bound _ _ _ Hyz). eapply tc_l; [|by apply IH]. apply edge_app; [lia|done].
Qed.

Lemma knows_bound ops s p : knows ops s p -> (p < length ops)%nat.
Proof.
  intros (w & o & Hw & _ & [->|H]); [by eapply lookup_lt_Some|]. apply hb_bound in H. lia.
Qed.

(** What precedes a new operation is what the services it uses know. *)
Lemma hb_last ops o p :
  happens_before (ops ++ [o]) p (length ops) <-> exists s, s ∈ reads o /\ knows ops s p.
Proof.
  split.
  - intros H. apply hb_last_edge in H.
    assert (Hstep : forall w, edge (ops ++ [o]) w (length ops) ->
              exists s o1, ops !! w = Some o1 /\ s ∈ writes o1 /\ s ∈ reads o).
    { intros w (Hlt & o1 & o2 & s & H1 & H2 & Hw & Hr).
      rewrite lookup_app_l in H1 by lia. rewrite list_lookup_middle in H2 by done.
      injection H2 as <-. by exists s, o1. }
    destruct H as [H|(w & Hpw & H)]; destruct (Hstep _ H) as (s & o1 & H1 & Hw & Hr);
      exists s; (split; [done|]); eexists _, o1; (split; [exact H1|]); (split; [done|]); [by left|right].
    apply hb_app in Hpw; [done|]. by eapply lookup_lt_Some.
  - intros (s & Hr & w & o1 & H1 & Hw & Hp).
    assert (Hlt : (w < length ops)%nat) by (by eapply lookup_lt_Some).
    assert (He : edge (ops ++ [o]) w (length ops)).
    { split; [done|]. exists o1, o, s. rewrite lookup_app_l, list_lookup_middle by done. done. }
    destruct Hp as [->|Hp]; [by apply tc_once|].
    eapply tc_r; [|exact He]. by apply hb_app.
Qed.

Lemma knows_snoc ops o s p :
  knows (ops ++ [o]) s p <->
  knows ops s p \/ (s ∈ writes o /\ (p = length ops \/ exists r, r ∈ reads o /\ knows ops r p)).
Proof.
  rewrite <- hb_last. split.
  - intros (w & o1 & H1 & Hw & Hp). apply lookup_snoc_Some in H1 as [[Hlt H1]|[-> <-]].
    + left. exists w, o1. split; [done|]. split; [done|].
      destruct Hp as [->|Hp]; [by left|right]. by eapply hb_app.
    + right. by split.
  - intros [(w & o1 & H1 & Hw & Hp)|[Hw Hp]].
    + assert (Hlt : (w < length ops)%nat) by (by eapply lookup_lt_Some).
      exists w, o1. rewrite lookup_app_l by done. split; [done|]. split; [done|].
      destruct Hp as [->|Hp]; [by left|right]. by apply hb_app.
    + exists (length ops), o. rewrite list_lookup_middle by done. done.
Qed.

(** *** What the operations do to the clocks *)

Lemma clock_tick s (l : EventLog) s' t :
  at_ (default ∅ (tick s (clocks l) !! s')) t =
  if decide (s' = s /\ t = s) then i64 (clock l s s + 1) else clock l s' t.
Proof.
  unfold tick, clock. destruct (decide (s' = s)) as [->|Hs].
  - rewrite lookup_insert_eq. cbn. destruct (decide (t = s)) as [->|Ht].
    + rewrite decide_True by done. unfold at_. by rewrite lookup_insert_eq.
    + rewrite decide_False by tauto. unfold at_. by rewrite lookup_insert_ne by done.
  - rewrite decide_False by tauto. by rewrite lookup_insert_ne by done.
Qed.

Lemma clock_emit typ s fields now l s' t :
  clock (emit typ s fields now l) s' t =
  if decide (s <> "" /\ s' = s /\ t = s) then i64 (clock l s s + 1) else clock l s' t.
Proof.
  unfold clock at 1, emit. cbn [clocks]. destruct (String.eqb_spec s "") as [->|Hs].
  - by rewrite decide_False by tauto.
  - rewrite clock_tick. apply decide_ext. tauto.
Qed.

Lemma merge_entry_max a b k : 0 <= at_ a k -> 0 <= at_ b k ->
  at_ (merge merge_entry a b) k = Z.max (at_ a k) (at_ b k).
Proof.
  unfold at_. rewrite lookup_merge. destruct (a !! k) as [x|], (b !! k) as [y|]; cbn; intros; try lia.
  - destruct (Z.ltb_spec x y); cbn; lia.
  - destruct (Z.ltb_spec 0 y); cbn; lia.
Qed.

Lemma clock_merge a b l s t : 0 <= clock l a t -> 0 <= clock l b t ->
  clock (MergeClock a b l) s t = if decide (s = a) then Z.max (clock l a t) (clock l b t) else clock l s t.
Proof.
  intros Ha Hb. unfold MergeClock.
  set (cs := match clocks l !! a with Some _ => _ | None => _ end).
  assert (Hcs : forall s', at_ (default ∅ (cs !! s')) t = clock l s' t).
  { intros s'. unfold cs, clock. destruct (clocks l !! a) eqn:E; [done|].
    destruct (decide (s' = a)) as [->|]; [by rewrite lookup_insert_eq, E|by rewrite lookup_insert_ne]. }
  unfold clock at 1. cbn [clocks]. pose proof (Hcs b) as Hb'. destruct (cs !! b) as [rc|] eqn:Erc.
  - cbn in Hb'. destruct (decide (s = a)) as [->|]; [|by rewrite lookup_insert_ne].
    rewrite lookup_insert_eq. cbn. rewrite merge_entry_max, Hcs, Hb'; rewrite ?Hcs, ?Hb'; done.
  - rewrite Hcs. destruct (decide (s = a)) as [->|]; [|done]. cbn in Hb'. unfold at_ in Hb'.
    rewrite lookup_empty in Hb'. cbn in Hb'. lia.
Qed.

(** *** Counting a service's events *)

Lemma count_snoc f ops o : count f (ops ++ [o]) = count f ops + (if f o then 1 else 0).
Proof. unfold count. rewrite List.filter_app, length_app. cbn. destruct (f o); cbn; lia. Qed.

Lemma count_bound f ops : 0 <= count f ops <= Z.of_nat (length ops).
Proof. unfold count. pose proof (List.filter_length_le f ops). lia. Qed.

Lemma count_app f ops os : count f (ops ++ os) = count f ops + count f os.
Proof. unfold count. rewrite List.filter_app, length_app. lia. Qed.

(** The rank of an event among those of its service. *)
Definition rank (ops : list op) (t : string) (p : nat) : Z := count (emit_of t) (take (S p) ops).

Lemma emits_bound ops p t : emits ops p t -> (p < length ops)%nat.
Proof. intros (_ & typ & f & now & H). by eapply lookup_lt_Some. Qed.

Lemma emits_app ops os p t : (p < length ops)%nat -> emits (ops ++ os) p t <-> emits ops p t.
Proof. intros H. unfold emits. by rewrite lookup_app_l. Qed.

Lemma emits_writes ops p t : emits ops p t -> exists o, ops !! p = Some o /\ t ∈ writes o.
Proof.
  intros (Ht & typ & f & now & H). eexists. split; [exact H|]. cbn.
  destruct (String.eqb_spec t ""); [done|]. set_solver.
Qed.

Lemma emit_of_true t o : emit_of t o = true <-> t <> "" /\ exists typ f now, o = OEmit typ t f now.
Proof.
  destruct o as [typ s f now|a b]; cbn.
  - rewrite andb_true_iff, negb_true_iff, String.eqb_neq, String.eqb_eq. naive_solver.
  - naive_solver.
Qed.

Lemma rank_app ops os t p : (p < length ops)%nat -> rank (ops ++ os) t p = rank ops t p.
Proof. intros H. unfold rank. by rewrite take_app_le by lia. Qed.

Lemma rank_last ops o t : emit_of t o = true -> rank (ops ++ [o]) t (length ops) = count (emit_of t) ops + 1.
Proof.
  intros H. unfold rank. rewrite take_ge by (rewrite length_app; cbn; lia). by rewrite count_snoc, H.
Qed.

Lemma rank_pos ops p t : emits ops p t -> 1 <= rank ops t p.
Proof.
  intros (Ht & typ & f & now & H). unfold rank. erewrite take_S_r by exact H.
  rewrite count_snoc. pose proof (count_bound (emit_of t) (take p ops)).
  assert (E : emit_of t (OEmit typ t f now) = true) by (apply emit_of_true; eauto 6). rewrite E. lia.
Qed.

Lemma rank_le_count ops p t : rank ops t p <= count (emit_of t) ops.
Proof.
  unfold rank. pose proof (count_app (emit_of t) (take (S p) ops) (drop (S p) ops)) as H.
  rewrite take_drop in H. pose proof (count_bound (emit_of t) (drop (S p) ops)). lia.
Qed.

(** A later event has a greater rank than all those up to an earlier position. *)
Lemma rank_gap ops p q t : emits ops p t -> (q < p)%nat ->
  count (emit_of t) (take (S q) ops) < rank ops t p.
Proof.
  intros (Ht & typ & f & now & H) Hq. unfold rank. erewrite (take_S_r _ p) by exact H.
  rewrite count_snoc. assert (E : emit_of t (OEmit typ t f now) = true) by (apply emit_of_true; eauto 6).
  rewrite E. pose proof (rank_le_count (take p ops) q t) as Hle. unfold rank in Hle.
  rewrite take_take, Nat.min_l in Hle by lia. lia.
Qed.

(** Every rank up to the count belongs to an event. *)
Lemma rank_onto ops t n : 1 <= n <= count (emit_of t) ops -> exists p, emits ops p t /\ rank ops t p = n.
Proof.
  induction ops as [|o ops IH] using rev_ind; [unfold count; cbn; lia|].
  rewrite count_snoc. intros Hn. destruct (decide (n <= count (emit_of t) ops)) as [Hle|Hgt].
  - destruct IH as (p & Hp & Hr); [lia|]. exists p. pose proof (emits_bound _ _ _ Hp).
    by rewrite emits_app, rank_app.
  - destruct (emit_of t o) eqn:E; [|lia]. exists (length ops). rewrite rank_last by done.
    apply emit_of_true in E as (Ht & typ & f & now & ->).
    split; [|lia]. split; [done|]. exists typ, f, now. by rewrite list_lookup_middle.
Qed.

(** *** The clocks count what each service knows *)

Definition exact (ops : list op) (l : EventLog) : Prop :=
  forall s t, 0 <= clock l s t <= count (emit_of t) ops /\ clock l t t = count (emit_of t) ops /\
    (forall p, emits ops p t -> rank ops t p <= clock l s t <-> knows ops s p).

Lemma exact_merge ops l a b : exact ops l -> exact (ops ++ [OMerge a b]) (MergeClock a b l).
Proof.
  intros H s t. destruct (H s t) as (Hr & Hown & Hk), (H a t) as (Ha & _ & Hka),
    (H b t) as (Hb & _ & Hkb). rewrite count_snoc. cbn [emit_of]. rewrite Z.add_0_r.
  rewrite !clock_merge by lia. split; [destruct (decide (s = a)); lia|]. split.
  { destruct (decide (t = a)) as [->|]; lia. }
  intros p Hp. assert (Hlt : (p < length ops)%nat).
  { pose proof (emits_bound _ _ _ Hp) as Hb'. rewrite length_app in Hb'. cbn in Hb'.
    destruct (decide (p = length ops)) as [->|]; [|lia].
    destruct Hp as (_ & ? & ? & ? & Hp). by rewrite list_lookup_middle in Hp. }
  rewrite emits_app in Hp by done. rewrite rank_app by done. rewrite knows_snoc. cbn [writes reads].
  specialize (Hk p Hp). specialize (Hka p Hp). specialize (Hkb p Hp).
  destruct (decide (s = a)) as [->|Hs].
  - rewrite Z.max_le_iff, Hka, Hkb. set_solver by lia.
  - rewrite Hk. set_solver.
Qed.

Lemma emits_last ops o t : emits (ops ++ [o]) (length ops) t <-> emit_of t o = true.
Proof.
  rewrite emit_of_true. unfold emits. rewrite list_lookup_middle by done. naive_solver.
Qed.

Lemma exact_unattributed ops l typ f now : exact ops l ->
  exact (ops ++ [OEmit typ "" f now]) (emit typ "" f now l).
Proof.
  intros H s t. destruct (H s t) as (Hr & Hown & Hk).
  assert (E : emit_of t (OEmit typ "" f now) = false).
  { destruct (emit_of t _) eqn:E; [|done]. apply emit_of_true in E as (? & ? & ? & ? & [=]). done. }
  rewrite count_snoc, E, Z.add_0_r. rewrite !clock_emit, !decide_False by tauto.
  split; [done|]. split; [done|]. intros p Hp.
  destruct (decide (p < length ops)%nat) as [Hlt|Hge].
  - rewrite emits_app in Hp by done. rewrite rank_app, knows_snoc by done. cbn. rewrite Hk by done.
    set_solver.
  - pose proof (emits_bound _ _ _ Hp) as Hb. rewrite length_app in Hb. cbn in Hb.
    replace p with (length ops) in Hp by lia. apply emits_last in Hp. congruence.
Qed.

Lemma exact_emit ops l typ u f now : u <> "" -> Z.of_nat (length ops) < 2 ^ 63 - 1 ->
  exact ops l -> exact (ops ++ [OEmit typ u f now]) (emit typ u f now l).
Proof.
  intros Hu Hlen H s t. destruct (H s t) as (Hr & Hown & Hk), (H u u) as (_ & Huu & _).
  set (o := OEmit typ u f now).
  assert (E : emit_of t o = true <-> t = u) by (rewrite emit_of_true; unfold o; naive_solver).
  assert (Hw : i64 (clock l u u + 1) = count (emit_of u) ops + 1).
  { pose proof (count_bound (emit_of u) ops). rewrite Huu. apply wrap_s_small; lia. }
  rewrite count_snoc, !clock_emit, Hw.
  assert (Hcnt : (if emit_of t o then 1 else 0) = if decide (t = u) then 1 else 0).
  { destruct (emit_of t o), (decide (t = u)); try done; naive_solver. }
  rewrite Hcnt. clear Hcnt. assert (Hkn : forall p, knows (ops ++ [o]) s p <-> knows ops s p \/ s = u /\ p = length ops).
  { intros p. rewrite knows_snoc. unfold o. cbn. destruct (String.eqb_spec u ""); [done|]. set_solver. }
  split; [repeat case_decide; naive_solver lia|].
  split; [repeat case_decide; naive_solver lia|].
  intros p Hp. rewrite Hkn. destruct (decide (p < length ops)%nat) as [Hlt|Hge].
  - rewrite emits_app in Hp by done. rewrite rank_app by done. pose proof (rank_le_count ops p t).
    specialize (Hk p Hp). case_decide as Hd; [|rewrite Hk; naive_solver lia].
    destruct Hd as (_ & -> & ->). split; [|naive_solver lia]. intros _. left.
    apply Hk. lia.
  - pose proof (emits_bound _ _ _ Hp) as Hb. rewrite length_app in Hb. cbn in Hb.
    assert (p = length ops) as -> by lia. apply emits_last in Hp. rewrite rank_last by done.
    apply E in Hp as ->. assert (~ knows ops s (length ops)) by (intros ?%knows_bound; lia).
    case_decide; naive_solver lia.
Qed.

Lemma run_exact ops : Z.of_nat (length ops) < 2 ^ 63 -> exact ops (run ops).
Proof.
  induction ops as [|o ops IH] using rev_ind.
  - intros _ s t. split; [done|]. split; [done|]. intros p Hp%emits_bound. cbn in Hp. lia.
  - rewrite length_app, run_snoc. cbn. intros Hlen. destruct o as [typ u f now|a b]; cbn [apply_op].
    + destruct (decide (u = "")) as [->|Hu]; [apply exact_unattributed|apply exact_emit]; try done;
        try apply IH; lia.
    + apply exact_merge, IH. lia.
Qed.

(** *** The logged events carry those clocks *)

Lemma run_events ops os : exists evs, events (run (ops ++ os)) = events (run ops) ++ evs.
Proof.
  induction os as [|o os IH] using rev_ind; [exists []; by rewrite !app_nil_r|].
  destruct IH as (evs & IH). rewrite app_assoc, run_snoc.
  destruct o as [typ s f now|a b]; cbn [apply_op emit MergeClock events]; rewrite IH; [|by exists evs].
  eexists. by rewrite <- app_assoc.
Qed.

Lemma run_length ops : length (events (run ops)) = length (List.filter is_emit ops).
Proof.
  induction ops as [|o ops IH] using rev_ind; [done|]. rewrite run_snoc, List.filter_app, length_app.
  destruct o as [typ s f now|a b]; cbn [apply_op emit MergeClock events]; rewrite ?length_app; cbn; lia.
Qed.

Lemma logged_emit ops p t : emits ops p t ->
  exists e, logged ops p = Some e /\ Service e = t /\
    forall k, at_ (VectorClock e) k = clock (run (take (S p) ops)) t k.
Proof.
  intros (Ht & typ & f & now & H). unfold logged. rewrite H.
  destruct (run_events (take (S p) ops) (drop (S p) ops)) as (evs & Hevs). rewrite take_drop in Hevs.
  rewrite Hevs. erewrite take_S_r by exact H. rewrite run_snoc.
  cbn [apply_op]. unfold emit. cbn [events clocks]. rewrite <- app_assoc. cbn [app].
  rewrite list_lookup_middle by (symmetry; apply run_length).
  eexists. split; [reflexivity|]. split; [done|]. intros k. unfold clock. cbn [VectorClock clocks].
  by destruct (String.eqb_spec t "").
Qed.

(** Positions below a cut read the same in the prefix. *)
Lemma emits_take ops n p t : (p < n)%nat -> emits (take n ops) p t <-> emits ops p t.
Proof. intros H. unfold emits. by rewrite lookup_take_lt. Qed.

Lemma rank_take ops n p t : (p < n)%nat -> rank (take n ops) t p = rank ops t p.
Proof. intros H. unfold rank. by rewrite take_take, Nat.min_l by lia. Qed.

(** The clock of an event counts the events that precede it. *)
Lemma stamp_counts ops p q s t : Z.of_nat (length ops) < 2 ^ 63 -> emits ops p s -> emits ops q t ->
  rank ops s p <= clock (run (take (S q) ops)) t s <-> p = q \/ happens_before ops p q.
Proof.
  intros Hlen Hp Hq. pose proof (emits_bound _ _ _ Hq) as Hql.
  assert (Hlt : length (take (S q) ops) = S q) by (rewrite length_take; lia).
  destruct (run_exact (take (S q) ops)) with (s := t) (t := s) as ([_ Hle] & _ & Hk); [lia|].
  assert (Hhb : happens_before ops p q <-> happens_before (take (S q) ops) p q).
  { rewrite <- (take_drop (S q) ops) at 1. apply hb_app. lia. }
  rewrite Hhb. destruct (decide (p <= q)%nat) as [Hpq|Hpq].
  - rewrite <- (rank_take ops (S q)), Hk by (lia || by apply emits_take; [lia|]).
    destruct (emits_writes _ _ _ Hq) as (o & Ho & Hw).
    destruct Hq as (Ht & typ & f & now & Ho'). rewrite Ho in Ho'. injection Ho' as ->.
    erewrite take_S_r by exact Ho. assert (Hq : length (take q ops) = q) by (rewrite length_take; lia).
    pose proof (hb_last (take q ops) (OEmit typ t f now) p) as Hl. rewrite Hq in Hl.
    rewrite Hl, knows_snoc, Hq. cbn.
    destruct (String.eqb_spec t ""); [done|]. clear. set_solver.
  - split; [|intros [->|H]; [lia|apply hb_bound in H; lia]]. intros Hr. exfalso.
    pose proof (rank_gap ops p q s Hp ltac:(lia)). unfold rank in *. lia.
Qed.

(** The order of the clocks that two events carry. *)
Lemma stamps_ordered ops p q s t : Z.of_nat (length ops) < 2 ^ 63 -> emits ops p s -> emits ops q t ->
  exists e f, logged ops p = Some e /\ logged ops q = Some f /\ Service e = s /\ Service f = t /\
    (clock_le (VectorClock e) (VectorClock f) <-> p = q \/ happens_before ops p q).
Proof.
  intros Hlen Hp Hq.
  destruct (logged_emit _ _ _ Hp) as (e & He & Hes & Hvc), (logged_emit _ _ _ Hq) as (f & Hf & Hft & Hvf).
  exists e, f. repeat (split; [done|]). unfold clock_le.
  destruct (run_exact (take (S p) ops)) with (s := s) (t := s) as (_ & Hown & _).
  { rewrite length_take. lia. }
  split.
  - intros Hle. apply (stamp_counts ops p q s t); try done. rewrite <- Hvf. etransitivity; [|apply Hle].
    rewrite Hvc, Hown. unfold rank. done.
  - intros Hpq k. rewrite Hvc, Hvf.
    destruct (run_exact (take (S p) ops)) with (s := s) (t := k) as ([Hr0 Hr] & _); [rewrite length_take; lia|].
    destruct (run_exact (take (S q) ops)) with (s := t) (t := k) as ([Hr0' _] & _); [rewrite length_take; lia|].
    destruct (decide (clock (run (take (S p) ops)) s k = 0)) as [->|Hne]; [done|].
    destruct (rank_onto (take (S p) ops) k (clock (run (take (S p) ops)) s k)) as (r & Hre & Hrr); [lia|].
    pose proof (emits_bound _ _ _ Hre) as Hrl. rewrite length_take in Hrl.
    rewrite emits_take in Hre by lia. rewrite rank_take in Hrr by lia. rewrite <- Hrr.
    apply (stamp_counts ops r q k t); try done.
    assert (Hrp : r = p \/ happens_before ops r p) by (apply (stamp_counts ops r p k s); try done; lia).
    destruct Hrp as [->|Hrp]; [done|]. destruct Hpq as [->|Hpq]; [by right|right].
    by eapply tc_trans.
Qed.

(** C8: Vector clocks characterise causality.  However events are emitted and
    clocks merged, of two events attributed to services the first one's clock is
    pointwise below the second one's exactly when they are the same event or the
    first happened before the second: a chain of operations leads from one to the
    other, each using what the one before it added to.  Concurrent events
    therefore have incomparable clocks. *)
Theorem vector_clocks_characterise_causality ops p q s t
    (Hlen : Z.of_nat (length ops) < 2 ^ 63) (Hp : emits ops p s) (Hq : emits ops q t) :
  exists e f, logged ops p = Some e /\ logged ops q = Some f /\ Service e = s /\ Service f = t /\
    (clock_le (VectorClock e) (VectorClock f) <-> p = q \/ happens_before ops p q).
Proof. by apply stamps_ordered. Qed.

Definition sample : list op :=
  [OEmit "step_send" "api" ∅ 1; OMerge "db" "api"; OEmit "step_recv" "db" ∅ 2; OEmit "log" "api" ∅ 3].

Lemma vector_clocks_characterise_causality_witness :
  exists e f, logged sample 0 = Some e /\ logged sample 2 = Some f /\ Service e = "api" /\
    Service f = "db" /\ (clock_le (VectorClock e) (VectorClock f) <-> 0%nat = 2%nat \/ happens_before sample 0 2).
Proof.
  apply (vector_clocks_characterise_causality sample 0 2 "api" "db").
  - reflexivity.
  - split; [discriminate|]. exists "step_send", ∅, 1. reflexivity.
  - split; [discriminate|]. exists "step_recv", ∅, 2. reflexivity.
Defined.

(** The receiver's event is after the sender's; the sender's next event is
    concurrent with it. *)
Example sample_clocks :
  (VectorClock <$> logged sample 2) = Some (<["db" := 1]> (<["api" := 1]> ∅)) /\
  (VectorClock <$> logged sample 3) = Some (<["api" := 2]> ∅).
Proof. split; vm_compute; reflexivity. Qed.

(** ** The secondary indexes *)

Definition key_index (key : Event -> string) (k : string) (evs : list Event) : list nat :=
  List.filter (fun i => match evs !! i with Some e => String.eqb (key e) k | None => false end)
    (seq 0 (length evs)).

Definition indexed (key : Event -> string) (m : gmap string (list nat)) (evs : list Event) : Prop :=
  forall k, k <> "" -> default [] (m !! k) = key_index key k evs.

Lemma key_index_snoc key k evs ev :
  key_index key k (evs ++ [ev]) =
  key_index key k evs ++ (if String.eqb (key ev) k then [length evs] else []).
Proof.
  unfold key_index. rewrite length_app. cbn [length]. rewrite seq_app, List.filter_app. f_equal.
  - apply List.filter_ext_in. intros i Hi. apply in_seq in Hi. by rewrite lookup_app_l by lia.
  - cbn. by rewrite list_lookup_middle.
Qed.

Lemma push_indexed key m evs ev : indexed key m evs ->
  indexed key (push_index (key ev) (length evs) m) (evs ++ [ev]).
Proof.
  intros H k Hk. rewrite key_index_snoc. unfold push_index.
  destruct (String.eqb_spec (key ev) "") as [E|E].
  - rewrite H by done. destruct (String.eqb_spec (key ev) k); [congruence|]. by rewrite app_nil_r.
  - destruct (String.eqb_spec (key ev) k) as [->|Hne].
    + rewrite lookup_insert_eq. cbn. by rewrite H.
    + rewrite lookup_insert_ne, app_nil_r by done. by apply H.
Qed.

Lemma at_key_index key k evs :
  omap (evs !!.) (key_index key k evs) = List.filter (fun e => String.eqb (key e) k) evs.
Proof.
  induction evs as [|ev evs IH] using rev_ind; [done|].
  rewrite key_index_snoc, omap_app, List.filter_app, <- IH. f_equal.
  - assert (Hlt : Forall (fun i => (i < length evs)%nat) (key_index key k evs)).
    { apply Forall_forall. intros i Hi. apply list_elem_of_In, List.filter_In in Hi as [Hi _].
      apply in_seq in Hi. lia. }
    clear IH. induction Hlt as [|i is_ Hi _ IHl]; [done|]. cbn. rewrite (lookup_app_l evs [ev] i) by done.
    by rewrite IHl.
  - cbn. destruct (String.eqb (key ev) k); [|done]. cbn. by rewrite list_lookup_middle.
Qed.

Lemma run_indexed ops : indexed Type_ (byType (run ops)) (events (run ops)) /\
  indexed Service (byService (run ops)) (events (run ops)).
Proof.
  induction ops as [|o ops [IHt IHs]] using rev_ind; [by split|]. rewrite run_snoc.
  destruct o as [typ s f now|a b]; [|done]. cbn [apply_op]. unfold emit. cbn [byType byService events].
  set (ev := mkEvent _ _ _ _ _ _ _ _). split.
  - by apply (push_indexed Type_ _ _ ev).
  - by apply (push_indexed Service _ _ ev).
Qed.

(** The indexed lookups agree with a scan of the log. *)
Theorem index_lookup_is_scan ops k : k <> "" ->
  EventsByType k (run ops) = List.filter (fun e => String.eqb (Type_ e) k) (events (run ops)) /\
  EventsByService k (run ops) = List.filter (fun e => String.eqb (Service e) k) (events (run ops)).
Proof.
  intros Hk. destruct (run_indexed ops) as [Ht Hs]. unfold EventsByType, EventsByService, at_indices.
  rewrite Ht, Hs by done. by rewrite !at_key_index.
Qed.

End EventLog.
