(* ===== verification/Temporal.v ===== *)
(** * Temporal expectations
    ([internal/star/temporal.go] and the verdict phase of [runTestImpl] in
    [runtime.go])

    [eventually] and [always] values are objects with latches of their own,
    evaluated against the live event log.  A test registers them, a subscriber of
    the log re-evaluates the [always] ones after each event, and the end of the
    test finalises them all.  Objects live in a store: a test's [expect=] is the
    same object in every run of that test.  A predicate is a function of the log
    that may raise; an evaluation is atomic, since it runs under the object's
    mutex. *)

From Stdlib Require Import ZArith Lia.
From S2P Require Import Prelude EventLog.
From stdpp Require Import base gmap sets strings numbers list.
Local Open Scope Z_scope.

Module Temporal.
Export EventLog.

(** ** Verdicts *)

Inductive Verdict := VerdictPending | VerdictPass | VerdictFail.

Definition Verdict_String (v : Verdict) : string :=
  match v with VerdictPass => "pass" | VerdictFail => "fail" | VerdictPending => "pending" end.

Inductive TerminationCause :=
| TerminationNatural | TerminationTerminateWhen | TerminationTimeout | TerminationImmediateFail.

#[export] Instance Verdict_eq_dec : EqDecision Verdict.
Proof. solve_decision. Defined.
#[export] Instance TerminationCause_eq_dec : EqDecision TerminationCause.
Proof. solve_decision. Defined.

(** A Starlark callable applied to the trace: an error, or the truth of its result. *)
Record Callable := mkCallable { fname : string; call : EventLog -> result string bool }.

(** ** [eventually] *)

Record EventuallyExpectation := mkEv {
  e_predicate : Callable; e_anchor : option MatcherVal; satisfied : bool; anchorReached : bool }.

Definition found (m : MatcherVal) (log : EventLog) : bool :=
  match FirstMatching m log with Some _ => true | None => false end.

(** The object after the call, the verdict, its reason and the error. *)
Definition eventually_Evaluate (e : EventuallyExpectation) (log : EventLog)
    : EventuallyExpectation * Verdict * string * option string :=
  if satisfied e then (e, VerdictPass, "", None)
  else
    let waiting := match e_anchor e with
                   | Some m => negb (anchorReached e) && negb (found m log)
                   | None => false
                   end in
    if waiting then (e, VerdictPending, "", None)
    else
      let reached := match e_anchor e with Some _ => true | None => anchorReached e end in
      let e := mkEv (e_predicate e) (e_anchor e) (satisfied e) reached in
      match call (e_predicate e) log with
      | Err msg => (e, VerdictFail, "predicate raised: " +:+ msg, Some msg)
      | Ok true => (mkEv (e_predicate e) (e_anchor e) true reached, VerdictPass, "", None)
      | Ok false => (e, VerdictPending, "", None)
      end.

Definition eventually_Finalize (e : EventuallyExpectation) (log : EventLog) (cause : TerminationCause)
    : EventuallyExpectation * Verdict * string :=
  let '(e', v, _, err) := eventually_Evaluate e log in
  let name := "eventually(" +:+ fname (e_predicate e) +:+ ")" in
  match err with
  | Some msg => (e', VerdictFail, "predicate raised at termination: " +:+ msg)
  | None =>
      if decide (v = VerdictPass) then (e', VerdictPass, "")
      else match cause with
           | TerminationTerminateWhen | TerminationImmediateFail =>
               (e', VerdictFail, name +:+ " never satisfied; terminate_when fired")
           | TerminationTimeout => (e', VerdictPending, name +:+ " never satisfied within timeout")
           | TerminationNatural => (e', VerdictFail, name +:+ " never satisfied before body returned")
           end
  end.

(** ** [always] *)

Record betweenAnchor := mkAnchor { aname : string; amatcher : option MatcherVal }.

(** The anchor of an [always] without [between=]. *)
Definition no_anchor : betweenAnchor := mkAnchor "" None.

(** The values [between=] accepts: a string, a matcher, anything else. *)
Inductive AnchorArg := ArgString (s : string) | ArgMatcher (m : MatcherVal) | ArgOther (ty : string).
Inductive AnchorErr := UnknownAnchor (name s : string) | WrongAnchorType (name ty : string).

Definition parseBetweenAnchor (name : string) (v : AnchorArg) : result AnchorErr betweenAnchor :=
  match v with
  | ArgString s =>
      if existsb (String.eqb s) ["body_start"; "body_end"; "stable"] then Ok (mkAnchor s None)
      else Err (UnknownAnchor name s)
  | ArgMatcher m => Ok (mkAnchor "" (Some m))
  | ArgOther ty => Err (WrongAnchorType name ty)
  end.

Record AlwaysExpectation := mkAl {
  a_predicate : Callable; betweenStart : betweenAnchor; betweenEnd : betweenAnchor;
  violated : bool; violationMsg : string; windowStarted : bool; windowEnded : bool }.

Definition set_started (a : AlwaysExpectation) : AlwaysExpectation :=
  mkAl (a_predicate a) (betweenStart a) (betweenEnd a) (violated a) (violationMsg a) true (windowEnded a).
Definition set_ended (a : AlwaysExpectation) : AlwaysExpectation :=
  mkAl (a_predicate a) (betweenStart a) (betweenEnd a) (violated a) (violationMsg a) (windowStarted a) true.
Definition set_violated (msg : string) (a : AlwaysExpectation) : AlwaysExpectation :=
  mkAl (a_predicate a) (betweenStart a) (betweenEnd a) true msg (windowStarted a) (windowEnded a).

Definition SetWindowStarted (anchor : string) (a : AlwaysExpectation) : AlwaysExpectation :=
  if String.eqb (aname (betweenStart a)) anchor then set_started a else a.
Definition SetWindowEnded (anchor : string) (a : AlwaysExpectation) : AlwaysExpectation :=
  if String.eqb (aname (betweenEnd a)) anchor then set_ended a else a.

Definition hasNamedEndAnchor (a : AlwaysExpectation) : bool :=
  negb (String.eqb (aname (betweenEnd a)) "") &&
  match amatcher (betweenEnd a) with None => true | Some _ => false end.

(** The window-start check: the object with the window open, or none yet. *)
Definition open_window (a : AlwaysExpectation) (log : EventLog) : option AlwaysExpectation :=
  if windowStarted a then Some a
  else match amatcher (betweenStart a) with
       | Some m => if found m log then Some (set_started a) else None
       | None =>
           if String.eqb (aname (betweenStart a)) "" || String.eqb (aname (betweenStart a)) "body_start"
           then Some (set_started a) else None
       end.

Definition close_window (a : AlwaysExpectation) (log : EventLog) : AlwaysExpectation :=
  match amatcher (betweenEnd a) with
  | Some m => if negb (windowEnded a) && found m log then set_ended a else a
  | None => a
  end.

Definition always_Evaluate (a : AlwaysExpectation) (log : EventLog)
    : AlwaysExpectation * Verdict * string * option string :=
  if violated a then (a, VerdictFail, violationMsg a, None)
  else
    match open_window a log with
    | None => (a, VerdictPending, "", None)
    | Some a =>
        let a := close_window a log in
        if windowEnded a then (a, VerdictPass, "", None)
        else
          match call (a_predicate a) log with
          | Err msg =>
              let reason := "predicate raised: " +:+ msg in
              (set_violated reason a, VerdictFail, reason, Some msg)
          | Ok false =>
              let reason := "always(" +:+ fname (a_predicate a) +:+ ") violated" in
              (set_violated reason a, VerdictFail, reason, None)
          | Ok true => (a, VerdictPending, "", None)
          end
    end.

Definition unbounded (a : AlwaysExpectation) : bool :=
  match amatcher (betweenEnd a) with None => String.eqb (aname (betweenEnd a)) "" | Some _ => false end.

Definition end_pending (a : AlwaysExpectation) : bool :=
  negb (windowEnded a) &&
  (match amatcher (betweenEnd a) with Some _ => true | None => false end || hasNamedEndAnchor a).

Definition always_Finalize (a : AlwaysExpectation) (log : EventLog) (cause : TerminationCause)
    : AlwaysExpectation * Verdict * string :=
  let '(a', v, msg, _) := always_Evaluate a log in
  let name := "always(" +:+ fname (a_predicate a) +:+ ")" in
  if decide (v = VerdictFail) then (a', VerdictFail, msg)
  else if end_pending a' && bool_decide (cause = TerminationTimeout) then
    (a', VerdictPending, name +:+ " end-anchor never reached within timeout")
  else if end_pending a' && bool_decide (cause = TerminationTerminateWhen) then (a', VerdictPass, "")
  else if unbounded a' && bool_decide (cause = TerminationTimeout) then
    (a', VerdictPending, name +:+ " held through a truncated (timed-out) prefix — safety not definitively established (RFC-049)")
  else (a', VerdictPass, "").

Definition VacuousWindow (a : AlwaysExpectation) : bool :=
  let hasStartAnchor :=
    match amatcher (betweenStart a) with
    | Some _ => true
    | None => negb (String.eqb (aname (betweenStart a)) "") &&
              negb (String.eqb (aname (betweenStart a)) "body_start")
    end in
  hasStartAnchor && negb (windowStarted a) && negb (violated a).

(** ** The runtime's expectations *)

Inductive ExpectationVal := Ev (e : EventuallyExpectation) | Al (a : AlwaysExpectation).

Definition Name (x : ExpectationVal) : string :=
  match x with
  | Ev e => "eventually(" +:+ fname (e_predicate e) +:+ ")"
  | Al a => "always(" +:+ fname (a_predicate a) +:+ ")"
  end.

Definition Evaluate (x : ExpectationVal) (log : EventLog) : ExpectationVal * Verdict :=
  match x with
  | Ev e => let '(e, v, _, _) := eventually_Evaluate e log in (Ev e, v)
  | Al a => let '(a, v, _, _) := always_Evaluate a log in (Al a, v)
  end.

Definition Finalize (x : ExpectationVal) (log : EventLog) (cause : TerminationCause)
    : ExpectationVal * Verdict * string :=
  match x with
  | Ev e => let '(e, v, m) := eventually_Finalize e log cause in (Ev e, v, m)
  | Al a => let '(a, v, m) := always_Finalize a log cause in (Al a, v, m)
  end.

(** What a test run shares: the store of expectation objects, the registered
    ones, the log and the two signals of the watchers. *)
Record Runtime := mkRt {
  objs : list ExpectationVal; registered : list nat; rlog : EventLog;
  alwaysFired : bool; twFired : bool }.

Definition set_objs (os : list ExpectationVal) (rt : Runtime) : Runtime :=
  mkRt os (registered rt) (rlog rt) (alwaysFired rt) (twFired rt).
Definition set_log (l : EventLog) (rt : Runtime) : Runtime :=
  mkRt (objs rt) (registered rt) l (alwaysFired rt) (twFired rt).

Definition registerExpectation (i : nat) (rt : Runtime) : Runtime :=
  mkRt (objs rt) (registered rt ++ [i]) (rlog rt) (alwaysFired rt) (twFired rt).
Definition resetExpectations (rt : Runtime) : Runtime :=
  mkRt (objs rt) [] (rlog rt) (alwaysFired rt) (twFired rt).

(** [eventually(...)] and [always(...)] make an object and register it. *)
Definition new_expectation (x : ExpectationVal) (rt : Runtime) : Runtime :=
  registerExpectation (length (objs rt)) (set_objs (objs rt ++ [x]) rt).

Definition signal_object (anchor : string) (x : ExpectationVal) : ExpectationVal :=
  match x with Al a => Al (SetWindowEnded anchor (SetWindowStarted anchor a)) | Ev _ => x end.

Definition signalLifecycleAnchor (anchor : string) (rt : Runtime) : Runtime :=
  set_objs (foldl (fun os i => alter (signal_object anchor) i os) (objs rt) (registered rt)) rt.

(** The subscriber that fails a test at the first violated [always]. *)
Fixpoint watch_loop (log : EventLog) (ixs : list nat) (os : list ExpectationVal)
    : list ExpectationVal * bool :=
  match ixs with
  | [] => (os, false)
  | i :: ixs =>
      match os !! i with
      | Some (Al a) =>
          let '(x, v) := Evaluate (Al a) log in
          let os := <[i := x]> os in
          if decide (v = VerdictFail) then (os, true) else watch_loop log ixs os
      | _ => watch_loop log ixs os
      end
  end.

Definition watch_always (rt : Runtime) : Runtime :=
  let '(os, fired) := watch_loop (rlog rt) (registered rt) (objs rt) in
  mkRt os (registered rt) (rlog rt) (alwaysFired rt || fired) (twFired rt).

(** The subscriber of [terminate_when=]. *)
Definition watch_terminate (tw : option nat) (rt : Runtime) : Runtime :=
  match tw with
  | None => rt
  | Some i =>
      match objs rt !! i with
      | None => rt
      | Some x =>
          let '(x, v) := Evaluate x (rlog rt) in
          mkRt (<[i := x]> (objs rt)) (registered rt) (rlog rt) (alwaysFired rt)
            (twFired rt || bool_decide (v = VerdictPass))
      end
  end.

Record TestConfig := mkConfig { Expect : option nat; TerminateWhen : option nat }.

(** What can happen while a test runs, in any order. *)
Inductive step :=
| SLog (o : op)
| SNew (x : ExpectationVal)
| SWatchAlways
| SWatchTerminate
| SStable.

Definition apply_step (cfg : TestConfig) (rt : Runtime) (s : step) : Runtime :=
  match s with
  | SLog o => set_log (apply_op (rlog rt) o) rt
  | SNew x => new_expectation x rt
  | SWatchAlways => watch_always rt
  | SWatchTerminate => watch_terminate (TerminateWhen cfg) rt
  | SStable => signalLifecycleAnchor "stable" rt
  end.

(** The start of [runTestImpl]: an empty log, no expectation but [expect=]. *)
Definition begin_test (cfg : TestConfig) (rt : Runtime) : Runtime :=
  let rt := resetExpectations (mkRt (objs rt) (registered rt) (Reset (rlog rt)) false false) in
  match Expect cfg with Some i => registerExpectation i rt | None => rt end.

(** The arm of the [select] that ended the body, and which signal the inner one
    takes when both are ready. *)
Inductive Arm := ArmBody | ArmAlways | ArmTerminate | ArmContext.

Definition drain (first_always fired_always fired_tw : bool) (other : TerminationCause) : TerminationCause :=
  match fired_always, fired_tw with
  | true, true => if first_always then TerminationImmediateFail else TerminationTerminateWhen
  | true, false => TerminationImmediateFail
  | false, true => TerminationTerminateWhen
  | false, false => other
  end.

Definition termination_cause (arm : Arm) (first_always : bool) (rt : Runtime) : TerminationCause :=
  match arm with
  | ArmBody => drain first_always (alwaysFired rt) (twFired rt) TerminationNatural
  | ArmAlways => TerminationImmediateFail
  | ArmTerminate => TerminationTerminateWhen
  | ArmContext => drain first_always (alwaysFired rt) (twFired rt) TerminationTimeout
  end.

Inductive Outcome := Passed | Failed (reason : string) | Inconclusive.

Definition vacuous_fields (x : ExpectationVal) : gmap string string :=
  <["property" := Name x]> (<["reason" :=
    "between= start anchor never fired; window never opened — verify the anchor"]> ∅).

(** The finalisation of the registered expectations: the first failure ends it.
    The warning about a vacuous window is an event, so the watchers see it. *)
Fixpoint finalize_loop (tw : option nat) (now : Z) (cause : TerminationCause) (ixs : list nat) (pending : bool) (rt : Runtime)
    : Runtime * (string + bool) :=
  match ixs with
  | [] => (rt, inr pending)
  | i :: ixs =>
      match objs rt !! i with
      | None => finalize_loop tw now cause ixs pending rt
      | Some x =>
          let '(x', v, msg) := Finalize x (rlog rt) cause in
          let rt := set_objs (<[i := x']> (objs rt)) rt in
          let vacuous := match x' with Al a => VacuousWindow a | Ev _ => false end in
          let rt := if vacuous then
                      watch_terminate tw (watch_always (set_log (emit "vacuous_property" "test"
                        (vacuous_fields x') now (rlog rt)) rt))
                    else rt in
          match v with
          | VerdictFail => (rt, inl (Name x' +:+ ": " +:+ msg))
          | VerdictPending => finalize_loop tw now cause ixs true rt
          | VerdictPass => finalize_loop tw now cause ixs pending rt
          end
      end
  end.

Definition conclude (tw : option nat) (now : Z) (cause : TerminationCause) (rt : Runtime) : Runtime * Outcome :=
  match finalize_loop tw now cause (registered rt) false rt with
  | (rt, inl reason) => (rt, Failed reason)
  | (rt, inr true) => (rt, Inconclusive)
  | (rt, inr false) => (rt, if decide (cause = TerminationTimeout) then Inconclusive else Passed)
  end.

(** A run of a test whose body raised nothing: before, during and after the body. *)
Record Script := mkScript {
  before : list step; body : list step; after : list step; arm : Arm; first_always : bool;
  now : Z }.

Definition run_test (cfg : TestConfig) (sc : Script) (rt : Runtime) : Runtime * Outcome :=
  let steps := foldl (apply_step cfg) in
  let rt := steps (begin_test cfg rt) (before sc) in
  let rt := steps (signalLifecycleAnchor "body_start" rt) (body sc) in
  let cause := termination_cause (arm sc) (first_always sc) rt in
  let rt := steps (signalLifecycleAnchor "body_end" rt) (after sc) in
  conclude (TerminateWhen cfg) (now sc) cause rt.

(** ** What [always] means over a history *)

(** The history of one [always] object: evaluations against a log, and lifecycle
    anchors. *)
Inductive act := Observe (l : EventLog) | Signal (anchor : string).

Definition always_act (a : AlwaysExpectation) (x : act) : AlwaysExpectation :=
  match x with
  | Observe l => (always_Evaluate a l).1.1.1
  | Signal n => SetWindowEnded n (SetWindowStarted n a)
  end.

Definition signals (acts : list act) : list string :=
  omap (fun x => match x with Signal n => Some n | Observe _ => None end) acts.

(** A property of some evaluation, given the anchors signalled before it. *)
Definition observed (acts : list act) (Q : list string -> EventLog -> bool) : Prop :=
  exists xs l ys, acts = xs ++ Observe l :: ys /\ Q (signals xs) l = true.

(** The log is append-only, and lifecycle anchors have names. *)
Definition grows (acts : list act) : Prop :=
  (forall xs l ys l' zs, acts = xs ++ Observe l :: ys ++ Observe l' :: zs -> events l `prefix_of` events l') /\
  Forall (fun n => n <> "") (signals acts).

(** Anchors as [parseBetweenAnchor] makes them, or none. *)
Definition anchor_ok (b : betweenAnchor) : bool :=
  match amatcher b with
  | Some _ => String.eqb (aname b) ""
  | None => existsb (String.eqb (aname b)) [""; "body_start"; "body_end"; "stable"]
  end.

Lemma parse_anchor_ok name v b : parseBetweenAnchor name v = Ok b -> anchor_ok b = true.
Proof.
  unfold parseBetweenAnchor, anchor_ok. destruct v as [n|m|ty]; [|by intros [= <-]|done].
  destruct (existsb _ _) eqn:E; [|done]. intros [= <-]. cbn [amatcher aname]. cbn [existsb] in E |- *.
  rewrite E. apply orb_true_r.
Qed.

Definition named_in (b : betweenAnchor) (sigs : list string) : bool :=
  negb (String.eqb (aname b) "") && existsb (String.eqb (aname b)) sigs.

Definition window_started (b : betweenAnchor) (sigs : list string) (l : EventLog) : bool :=
  match amatcher b with
  | Some m => existsb (Matches m) (events l)
  | None => String.eqb (aname b) "" || String.eqb (aname b) "body_start" || named_in b sigs
  end.

Definition end_seen (s b : betweenAnchor) (sigs : list string) (l : EventLog) : bool :=
  window_started s sigs l &&
  match amatcher b with Some m => existsb (Matches m) (events l) | None => false end.

Definition window_ended (s b : betweenAnchor) (sigs : list string) (l : EventLog) : bool :=
  named_in b sigs || end_seen s b sigs l.

(** The predicate is false, or raises, inside the window. *)
Definition breaks (p : Callable) (s b : betweenAnchor) (sigs : list string) (l : EventLog) : bool :=
  window_started s sigs l && negb (window_ended s b sigs l) &&
  match call p l with Ok true => false | _ => true end.

Definition fresh_always (p : Callable) (s b : betweenAnchor) : AlwaysExpectation :=
  mkAl p s b false "" false false.

Lemma found_existsb m l : found m l = existsb (Matches m) (events l).
Proof.
  unfold found, FirstMatching. induction (events l) as [|ev evs IH]; [done|]. cbn.
  by destruct (Matches m ev).
Qed.

Lemma signals_app xs ys : signals (xs ++ ys) = signals xs ++ signals ys.
Proof. apply omap_app. Qed.

Lemma observed_observe acts l Q :
  observed (acts ++ [Observe l]) Q <-> observed acts Q \/ Q (signals acts) l = true.
Proof.
  split.
  - intros (xs & l0 & ys & E & HQ). destruct ys as [|y ys _] using rev_ind.
    + apply app_inj_tail in E as [-> [= ->]]. by right.
    + rewrite app_comm_cons, app_assoc in E. apply app_inj_tail in E as [-> _].
      left. by exists xs, l0, ys.
  - intros [(xs & l0 & ys & -> & HQ)|HQ]; [exists xs, l0, (ys ++ [Observe l])|by exists acts, l, []].
    by rewrite <- app_assoc.
Qed.

Lemma observed_signal acts n Q : observed (acts ++ [Signal n]) Q <-> observed acts Q.
Proof.
  split.
  - intros (xs & l0 & ys & E & HQ). destruct ys as [|y ys _] using rev_ind.
    + by apply app_inj_tail in E as [-> ?].
    + rewrite app_comm_cons, app_assoc in E. apply app_inj_tail in E as [-> _]. by exists xs, l0, ys.
  - intros (xs & l0 & ys & -> & HQ). exists xs, l0, (ys ++ [Signal n]). by rewrite <- app_assoc.
Qed.

Lemma grows_app acts ys : grows (acts ++ ys) -> grows acts.
Proof.
  intros [Hg Hn]. split.
  - intros xs l zs l' us ->. eapply (Hg xs l zs l' (us ++ ys)). by rewrite <- !app_assoc, <- app_comm_cons, <- !app_assoc.
  - rewrite signals_app in Hn. by apply Forall_app in Hn as [? _].
Qed.

(** What holds at an evaluation and cannot stop holding holds at the next one. *)
Lemma observed_last acts l (Q : list string -> EventLog -> bool) :
  grows (acts ++ [Observe l]) ->
  (forall sigs sigs' l0, events l0 `prefix_of` events l -> Q sigs l0 = true -> Q (sigs ++ sigs') l = true) ->
  observed acts Q -> Q (signals acts) l = true.
Proof.
  intros [Hg _] Hmono (xs & l0 & ys & -> & HQ). rewrite signals_app. apply (Hmono _ _ l0); [|done].
  apply (Hg xs l0 ys l []). by rewrite <- app_assoc.
Qed.

Lemma existsb_app_mono {A} (f : A -> bool) xs ys : existsb f xs = true -> existsb f (xs ++ ys) = true.
Proof. intros H. by rewrite existsb_app, H. Qed.

Lemma named_in_mono b sigs sigs' : named_in b sigs = true -> named_in b (sigs ++ sigs') = true.
Proof. unfold named_in. rewrite !andb_true_iff. intros [? ?]. by split; [|apply existsb_app_mono]. Qed.

Lemma window_started_mono b sigs sigs' l l' : events l `prefix_of` events l' ->
  window_started b sigs l = true -> window_started b (sigs ++ sigs') l' = true.
Proof.
  intros [evs E]. unfold window_started. destruct (amatcher b).
  - rewrite E. apply existsb_app_mono.
  - rewrite !orb_true_iff. intros [?|?]; [by left|right]. by apply named_in_mono.
Qed.

Lemma end_seen_mono s b sigs sigs' l l' : events l `prefix_of` events l' ->
  end_seen s b sigs l = true -> end_seen s b (sigs ++ sigs') l' = true.
Proof.
  intros Hp. unfold end_seen. rewrite !andb_true_iff. intros [Hs He].
  split; [by eapply window_started_mono|]. destruct Hp as [evs E].
  destruct (amatcher b); [|done]. rewrite E. by apply existsb_app_mono.
Qed.

Section Window.
Context (p : Callable) (s b : betweenAnchor).
Hypothesis s_ok : anchor_ok s = true.

(** What the latches of an [always] object say of its history. *)
Record tracks (acts : list act) (a : AlwaysExpectation) : Prop := {
  tracks_shape : a_predicate a = p /\ betweenStart a = s /\ betweenEnd a = b;
  tracks_violated : violated a = true <-> observed acts (breaks p s b);
  tracks_started : windowStarted a = true ->
    named_in s (signals acts) = true \/ observed acts (window_started s);
  tracks_signalled : named_in s (signals acts) = true -> windowStarted a = true;
  tracks_ended : windowEnded a = true ->
    named_in b (signals acts) = true \/ observed acts (end_seen s b);
  tracks_closed : named_in b (signals acts) = true -> windowEnded a = true }.

Lemma fresh_tracks : tracks [] (fresh_always p s b).
Proof.
  split; try done.
  - split; [done|]. intros (xs & l & ys & E & _). by destruct xs.
  - unfold named_in. cbn. by rewrite andb_false_r.
  - unfold named_in. cbn. by rewrite andb_false_r.
Qed.

(** A named start anchor that was signalled starts the window. *)
Lemma named_starts sigs l : named_in s sigs = true -> window_started s sigs l = true.
Proof.
  unfold window_started, named_in. pose proof s_ok as H. unfold anchor_ok in H.
  destruct (amatcher s); [by rewrite H|]. intros ->. by rewrite !orb_true_r.
Qed.

Lemma open_window_tracks acts a l : tracks acts a -> grows (acts ++ [Observe l]) ->
  open_window a l = if window_started s (signals acts) l
                    then Some (set_started a) else None.
Proof.
  intros T Hg. destruct T as [(Hp & Hs & Hb) _ Hst Hsig _ _]. unfold open_window. rewrite Hs.
  destruct (windowStarted a) eqn:Ew.
  - assert (window_started s (signals acts) l = true) as ->.
    { destruct (Hst eq_refl) as [Hn|Ho]; [by apply named_starts|].
      eapply observed_last; [exact Hg| |exact Ho]. intros. by eapply window_started_mono. }
    f_equal. destruct a. cbn in *. by subst.
  - unfold window_started. destruct (amatcher s) as [m|]; [by rewrite found_existsb|].
    destruct (String.eqb (aname s) "" || String.eqb (aname s) "body_start"); [done|].
    destruct (named_in s (signals acts)); [|done]. by discriminate Hsig.
Qed.

(** The object after an evaluation inside a started window. *)
Definition evaluated (acts : list act) (a : AlwaysExpectation) (l : EventLog) : AlwaysExpectation :=
  mkAl p s b (violated a) (violationMsg a) true (window_ended s b (signals acts) l).

Lemma close_window_tracks acts a l : tracks acts a -> grows (acts ++ [Observe l]) ->
  window_started s (signals acts) l = true ->
  close_window (set_started a) l = evaluated acts a l.
Proof.
  intros T Hg Hs. destruct T as [(Hp & Hs' & Hb) _ _ _ He Hc].
  assert (E : windowEnded a || match amatcher b with Some m => found m l | None => false end =
              window_ended s b (signals acts) l).
  { unfold window_ended, end_seen. rewrite Hs, andb_true_l. destruct (windowEnded a) eqn:Ew.
    - symmetry. destruct (He eq_refl) as [->|Ho]; [done|].
      assert (H : end_seen s b (signals acts) l = true).
      { eapply observed_last; [exact Hg| |exact Ho]. intros. by eapply end_seen_mono. }
      unfold end_seen in H. by rewrite Hs in H; cbn in H; rewrite H, orb_true_r.
    - destruct (named_in b (signals acts)); [by discriminate Hc|]. cbn.
      destruct (amatcher b); [apply found_existsb|done]. }
  unfold close_window, evaluated. rewrite <- E. destruct a as [p0 s0 b0 v vm ws we]. cbn in *. subst.
  destruct (amatcher b) as [m|]; [|by rewrite orb_false_r].
  destruct we, (found m l); done.
Qed.

Lemma evaluate_tracks acts a l : tracks acts a -> grows (acts ++ [Observe l]) -> violated a = false ->
  always_Evaluate a l =
  if window_started s (signals acts) l then
    let a' := evaluated acts a l in
    if window_ended s b (signals acts) l then (a', VerdictPass, "", None)
    else match call p l with
         | Err msg => let reason := "predicate raised: " +:+ msg in
                      (set_violated reason a', VerdictFail, reason, Some msg)
         | Ok false => let reason := "always(" +:+ fname p +:+ ") violated" in
                       (set_violated reason a', VerdictFail, reason, None)
         | Ok true => (a', VerdictPending, "", None)
         end
  else (a, VerdictPending, "", None).
Proof.
  intros T Hg Hv. unfold always_Evaluate. rewrite Hv, (open_window_tracks acts) by done.
  destruct (window_started s (signals acts) l) eqn:Es; [|done].
  by rewrite (close_window_tracks acts).
Qed.

Lemma signals_observe acts l : signals (acts ++ [Observe l]) = signals acts.
Proof. rewrite signals_app. cbn. apply app_nil_r. Qed.

Lemma named_in_signal c acts n : n <> "" ->
  named_in c (signals (acts ++ [Signal n])) = named_in c (signals acts) || String.eqb (aname c) n.
Proof.
  intros Hn. rewrite signals_app. unfold named_in. rewrite existsb_app. cbn.
  destruct (String.eqb_spec (aname c) "") as [->|]; cbn.
  - by destruct n.
  - by rewrite orb_false_r.
Qed.

Lemma signal_tracks acts a n : n <> "" -> tracks acts a ->
  tracks (acts ++ [Signal n]) (always_act a (Signal n)).
Proof.
  intros Hn [(Hp & Hs & Hb) Hv Hst Hsig He Hc]. cbn [always_act]. unfold SetWindowEnded, SetWindowStarted.
  assert (Hb' : forall c : bool, betweenEnd (if c then set_started a else a) = b) by (intros []; done).
  rewrite Hb', Hs. clear Hb'.
  split; rewrite ?named_in_signal, ?observed_signal by done.
  - by repeat case_match.
  - rewrite <- Hv. by repeat case_match.
  - intros Hw. destruct (String.eqb (aname s) n) eqn:E; [left; by rewrite orb_true_r|].
    rewrite orb_false_r. apply Hst. by repeat case_match.
  - intros [H|H]%orb_true_iff; [apply Hsig in H|]; repeat case_match; done.
  - intros Hw. destruct (String.eqb (aname b) n) eqn:E; [left; by rewrite orb_true_r|].
    rewrite orb_false_r. apply He. by repeat case_match.
  - intros [H|H]%orb_true_iff; [apply Hc in H|]; repeat case_match; done.
Qed.

(** An evaluation that changes only the window latches, or latches a violation. *)
Lemma evaluated_tracks acts a l v we msg : tracks acts a -> violated a = false ->
  window_started s (signals acts) l = true -> breaks p s b (signals acts) l = v ->
  window_ended s b (signals acts) l = we ->
  tracks (acts ++ [Observe l]) (mkAl p s b v msg true we).
Proof.
  intros [_ Hv _ Hsig _ Hc] Ev Hs <- <-. split; rewrite ?signals_observe, ?observed_observe; cbn; try done.
  - rewrite <- Hv, Ev. naive_solver.
  - intros _. right. by right.
  - unfold window_ended. rewrite orb_true_iff. intros [H|H]; [by left|right]. by right.
  - unfold window_ended. by intros ->.
Qed.

Lemma observe_tracks acts a l : grows (acts ++ [Observe l]) -> tracks acts a ->
  tracks (acts ++ [Observe l]) (always_act a (Observe l)).
Proof.
  intros Hg T. cbn [always_act]. destruct (violated a) eqn:Ev.
  - unfold always_Evaluate. rewrite Ev. cbn. destruct T as [Hsh Hv Hst Hsig He Hc].
    split; rewrite ?signals_observe, ?observed_observe; try done.
    + rewrite <- Hv. by rewrite Ev; split; [left|].
    + intros H. destruct (Hst H); [by left|right]. by left.
    + intros H. destruct (He H); [by left|right]. by left.
  - rewrite (evaluate_tracks acts) by done. destruct (window_started s (signals acts) l) eqn:Es.
    + assert (Hb : breaks p s b (signals acts) l = negb (window_ended s b (signals acts) l) &&
                     match call p l with Ok true => false | _ => true end) by (unfold breaks; by rewrite Es).
      destruct (window_ended s b (signals acts) l) eqn:Ee; [|destruct (call p l) as [[]|]]; cbn in *;
        unfold evaluated, set_violated; cbn; rewrite ?Ev, ?Ee; by eapply evaluated_tracks.
    + cbn. destruct T as [Hsh Hv Hst Hsig He Hc].
      assert (Hb : breaks p s b (signals acts) l = false) by (unfold breaks; by rewrite Es).
      split; rewrite ?signals_observe, ?observed_observe, ?Hb; try done.
      * rewrite <- Hv. naive_solver.
      * intros H. destruct (Hst H); [by left|right]. by left.
      * intros H. destruct (He H); [by left|right]. by left.
Qed.

Lemma history_tracks acts : grows acts -> tracks acts (foldl always_act (fresh_always p s b) acts).
Proof.
  induction acts as [|x acts IH] using rev_ind; intros Hg; [apply fresh_tracks|].
  rewrite foldl_app. cbn [foldl]. pose proof (IH (grows_app _ _ Hg)) as T.
  destruct x as [l|n]; [by apply observe_tracks|]. apply signal_tracks; [|done].
  destruct Hg as [_ Hn]. rewrite signals_app in Hn. apply Forall_app in Hn as [_ Hn].
  by apply Forall_cons_1 in Hn as [? _].
Qed.

(** At the last evaluation the end latch says whether the window has ended. *)
Lemma ended_exact acts a l : grows (acts ++ [Observe l]) -> tracks acts a ->
  violated (always_Evaluate a l).1.1.1 = false ->
  windowEnded (always_Evaluate a l).1.1.1 = window_ended s b (signals acts) l.
Proof.
  intros Hg T. destruct (violated a) eqn:Ev; [unfold always_Evaluate; rewrite Ev; cbn; congruence|].
  rewrite (evaluate_tracks acts) by done. destruct (window_started s (signals acts) l) eqn:Es.
  - cbv zeta. destruct (window_ended s b (signals acts) l) eqn:Ee; [|destruct (call p l) as [[]|]];
      cbn; by rewrite ?Ee.
  - cbn. intros _. unfold window_ended, end_seen. rewrite Es, orb_false_r.
    destruct T as [_ _ _ _ He Hc]. destruct (windowEnded a) eqn:Ew.
    + destruct (He eq_refl) as [->|Ho]; [done|].
      assert (H : end_seen s b (signals acts) l = true)
        by (eapply observed_last; [exact Hg| |exact Ho]; intros; by eapply end_seen_mono).
      unfold end_seen in H. by rewrite Es in H.
    + destruct (named_in b (signals acts)); [by discriminate Hc|done].
Qed.

End Window.

Lemma evaluate_fails a l :
  (always_Evaluate a l).1.1.2 = VerdictFail <-> violated (always_Evaluate a l).1.1.1 = true.
Proof.
  unfold always_Evaluate. destruct (violated a) eqn:Ev; [done|].
  destruct (open_window a l) as [a1|] eqn:Eo; [|cbn; by rewrite Ev].
  assert (Hv : violated (close_window a1 l) = false).
  { unfold open_window in Eo. unfold close_window. repeat case_match; simplify_eq/=; done. }
  cbv zeta. destruct (windowEnded _); [cbn; by rewrite Hv|].
  destruct (call _ l) as [[]|]; cbn; rewrite ?Hv; done.
Qed.

(** The verdict at the end in terms of the last evaluation. *)
Lemma finalize_verdict a l cause : let a' := (always_Evaluate a l).1.1.1 in
  (always_Finalize a l cause).1.2 =
  if violated a' then VerdictFail
  else if negb (windowEnded a' && negb (unbounded a')) && bool_decide (cause = TerminationTimeout)
  then VerdictPending else VerdictPass.
Proof.
  cbv zeta. unfold always_Finalize. pose proof (evaluate_fails a l) as Hf.
  destruct (always_Evaluate a l) as [[[a' v] msg] err]. cbn in *.
  destruct (decide (v = VerdictFail)) as [->|Hv]; [by rewrite (proj1 Hf)|].
  destruct (violated a') eqn:Ev; [naive_solver|]. unfold end_pending, unbounded, hasNamedEndAnchor.
  destruct (windowEnded a'), (amatcher (betweenEnd a')), (String.eqb (aname (betweenEnd a')) ""), cause;
    done.
Qed.

(** *** The documented window

    docs/temporal.md reads [between=(s, b)] as the span from the start event to
    the end event after it. *)

(** The events up to and including the first match, and those after it. *)
Fixpoint through (f : Event -> bool) (evs : list Event) : list Event :=
  match evs with [] => [] | e :: r => if f e then [e] else e :: through f r end.
Fixpoint after_first (f : Event -> bool) (evs : list Event) : list Event :=
  match evs with [] => [] | e :: r => if f e then r else after_first f r end.

Definition ended_after (s b : betweenAnchor) (sigs : list string) (l : EventLog) : bool :=
  named_in b sigs ||
  window_started s sigs l &&
  match amatcher b with
  | Some m => existsb (Matches m)
      match amatcher s with Some f => after_first (Matches f) (events l) | None => events l end
  | None => false
  end.

Definition breaks_documented (p : Callable) (s b : betweenAnchor) (sigs : list string) (l : EventLog) : bool :=
  window_started s sigs l && negb (ended_after s b sigs l) &&
  match call p l with Ok true => false | _ => true end.

(** No end event comes before the start event (a start that is no event is the
    start of the log). *)
Definition in_order (s b : betweenAnchor) (l : EventLog) : bool :=
  match amatcher b, amatcher s with
  | None, _ => true
  | Some m, Some f => negb (existsb (Matches m) (through (Matches f) (events l)))
  | Some _, None => String.eqb (aname s) ""
  end.

Lemma through_after f evs : evs = through f evs ++ after_first f evs.
Proof. induction evs as [|e r IH]; [done|]. cbn. destruct (f e); cbn; congruence. Qed.

Lemma through_prefix f evs evs' : existsb f evs = true -> through f (evs ++ evs') = through f evs.
Proof. induction evs as [|e r IH]; [done|]. cbn. destruct (f e); cbn; [done|]. intros H. by rewrite IH. Qed.

(** In order, the code's window ends when the documented one does, at every
    earlier evaluation too. *)
Lemma window_ended_documented s b sigs l0 l : events l0 `prefix_of` events l -> in_order s b l = true ->
  window_ended s b sigs l0 = ended_after s b sigs l0.
Proof.
  intros [evs E]. unfold in_order, window_ended, end_seen, ended_after, window_started.
  destruct (amatcher b) as [m|]; [|by rewrite !andb_false_r].
  destruct (amatcher s) as [f|]; [|done]. rewrite E. intros H%negb_true_iff.
  destruct (existsb (Matches f) (events l0)) eqn:Es; [|done]. rewrite through_prefix in H by done.
  rewrite (through_after (Matches f) (events l0)) at 1. by rewrite existsb_app, H.
Qed.

Lemma breaks_documented_iff p s b acts l : grows (acts ++ [Observe l]) -> in_order s b l = true ->
  observed (acts ++ [Observe l]) (breaks p s b) <->
  observed (acts ++ [Observe l]) (breaks_documented p s b).
Proof.
  intros [Hg _] Ho.
  assert (H : forall xs l0 ys, acts ++ [Observe l] = xs ++ Observe l0 :: ys ->
    breaks p s b (signals xs) l0 = breaks_documented p s b (signals xs) l0).
  { intros xs l0 ys E. unfold breaks, breaks_documented. rewrite (window_ended_documented s b _ l0 l); [done| |done].
    destruct ys as [|y ys _] using rev_ind; [by apply app_inj_tail in E as [_ [= ->]]|].
    rewrite app_comm_cons, app_assoc in E. apply app_inj_tail in E as [E <-].
    apply (Hg xs l0 ys l []). by rewrite E, <- app_assoc. }
  split; intros (xs & l0 & ys & E & HQ); exists xs, l0, ys; split; try done; rewrite <- HQ.
  - symmetry. by eapply H.
  - by eapply H.
Qed.

(** C7: The meaning of [always(p, between=(s, b))].  Evaluated any number of
    times against the growing log, with lifecycle anchors signalled in between,
    and finalised against the log at the end, the expectation fails exactly when
    at one of these evaluations the window had started, had not ended, and [p]
    was false or raised.  It stays pending exactly when it did not fail, the test
    timed out and the window has no end or has not reached it; otherwise it
    passes, also when a test that did not time out never reached the end.  The
    code's window ends with an end event anywhere in the log, one before the
    start event included ([end_before_start_passes]); when no end event comes
    before the start event it is the documented window, from the start event to
    the end event after it. *)
Theorem always_window_semantics p s b acts l cause (Hs : anchor_ok s = true)
    (Hg : grows (acts ++ [Observe l])) :
  let v := (always_Finalize (foldl always_act (fresh_always p s b) acts) l cause).1.2 in
  let broken := observed (acts ++ [Observe l]) (breaks p s b) in
  let open_end := unbounded (fresh_always p s b) || negb (window_ended s b (signals acts) l) in
  (v = VerdictFail <-> broken) /\
  (v = VerdictPending <-> ~ broken /\ cause = TerminationTimeout /\ open_end = true) /\
  (in_order s b l = true ->
   (broken <-> observed (acts ++ [Observe l]) (breaks_documented p s b)) /\
   window_ended s b (signals acts) l = ended_after s b (signals acts) l).
Proof.
  cbv zeta. apply and_assoc. split; cycle 1.
  { intros Ho. split; [by apply breaks_documented_iff|by apply (window_ended_documented s b _ l l)]. }
  rewrite finalize_verdict.
  pose proof (history_tracks p s b Hs acts (grows_app _ _ Hg)) as T.
  pose proof (observe_tracks p s b Hs acts _ l Hg T) as T'. cbn [always_act] in T'.
  pose proof (ended_exact p s b Hs acts _ l Hg T) as He.
  destruct T' as [(_ & _ & Hb) Hv _ _ _ _]. rewrite <- Hv.
  assert (Hu : unbounded (always_Evaluate (foldl always_act (fresh_always p s b) acts) l).1.1.1 =
               unbounded (fresh_always p s b)) by (unfold unbounded; by rewrite Hb). rewrite Hu.
  destruct (violated _); [naive_solver|]. rewrite He by done.
  destruct (bool_decide_reflect (cause = TerminationTimeout)) as [Hc|Hc], (window_ended _ _ _ _),
    (unbounded (fresh_always p s b)); cbn; clear - Hc; naive_solver.
Qed.

(** ** An [eventually] in a test run *)

Definition is_new (s : step) : bool := match s with SNew _ => true | _ => false end.
Definition log_ops (steps : list step) : list op :=
  omap (fun s => match s with SLog o => Some o | _ => None end) steps.

(** The object at [i] is an [eventually] with a property. *)
Definition ev_at (i : nat) (P : EventuallyExpectation -> Prop) (os : list ExpectationVal) : Prop :=
  exists e, os !! i = Some (Ev e) /\ P e.

(** Evaluations of [terminate_when=] keep the property, if they are of this object. *)
Definition stable_under (cfg : TestConfig) (i : nat) (P : EventuallyExpectation -> Prop) : Prop :=
  TerminateWhen cfg = Some i -> forall e l, P e -> P (eventually_Evaluate e l).1.1.1.

Lemma signal_ev_at anchor i P ixs os : ev_at i P os ->
  ev_at i P (foldl (fun os j => alter (signal_object anchor) j os) os ixs).
Proof.
  revert os. induction ixs as [|j ixs IH]; intros os H; [done|]. cbn. apply IH.
  destruct H as (e & He & HP). exists e. split; [|done]. destruct (decide (i = j)) as [<-|Hne].
  - by rewrite list_lookup_alter_eq, He.
  - by rewrite list_lookup_alter_ne.
Qed.

Lemma watch_ev_at log i P ixs os : ev_at i P os -> ev_at i P (watch_loop log ixs os).1.
Proof.
  revert os. induction ixs as [|j ixs IH]; intros os H; [done|]. cbn.
  destruct (os !! j) as [[e|a]|] eqn:Ej; try by apply IH.
  destruct (always_Evaluate a log) as [[[a' v] m] err].
  assert (H' : ev_at i P (<[j := Al a']> os)).
  { destruct H as (e & He & HP). exists e. split; [|done]. rewrite list_lookup_insert_ne; [done|congruence]. }
  case_decide; [done|by apply IH].
Qed.

Lemma step_ev_at cfg i P rt s : is_new s = false -> stable_under cfg i P ->
  ev_at i P (objs rt) -> ev_at i P (objs (apply_step cfg rt s)).
Proof.
  intros Hn Hst H. destruct s as [o|x| | |]; cbn [apply_step]; try done.
  - unfold watch_always. pose proof (watch_ev_at (rlog rt) i P (registered rt) _ H) as H'.
    by destruct (watch_loop _ _ _).
  - unfold watch_terminate. destruct (TerminateWhen cfg) as [j|] eqn:Etw; [|done].
    destruct (objs rt !! j) as [x|] eqn:Ej; [|done]. destruct (Evaluate x (rlog rt)) as [x' v] eqn:Ee.
    cbn. destruct H as (e & He & HP). destruct (decide (j = i)) as [->|Hne].
    + rewrite He in Ej. injection Ej as <-. cbn in Ee.
      pose proof (Hst Etw e (rlog rt) HP) as HP'.
      destruct (eventually_Evaluate e (rlog rt)) as [[[e' v'] m] err]. injection Ee as <- <-.
      exists e'. by rewrite list_lookup_insert_eq by (by eapply lookup_lt_Some).
    + exists e. by rewrite list_lookup_insert_ne.
  - by apply signal_ev_at.
Qed.

Lemma step_frame cfg rt s : is_new s = false ->
  registered (apply_step cfg rt s) = registered rt /\
  rlog (apply_step cfg rt s) = foldl apply_op (rlog rt) (log_ops [s]).
Proof.
  intros Hn. destruct s as [o|x| | |]; try done; cbn.
  - unfold watch_always. by destruct (watch_loop _ _ _).
  - unfold watch_terminate. destruct (TerminateWhen cfg); [|done]. destruct (objs rt !! _); [|done].
    by destruct (Evaluate _ _).
Qed.

(** A stretch of a run without new expectations. *)
Lemma steps_ev cfg i P steps rt : forallb (fun s => negb (is_new s)) steps = true ->
  stable_under cfg i P -> ev_at i P (objs rt) ->
  let rt' := foldl (apply_step cfg) rt steps in
  ev_at i P (objs rt') /\ registered rt' = registered rt /\
  rlog rt' = foldl apply_op (rlog rt) (log_ops steps).
Proof.
  intros Hn Hst. revert rt. induction steps as [|s steps IH]; intros rt H; [done|].
  cbn in Hn. apply andb_true_iff in Hn as [Hs%negb_true_iff Hn].
  destruct (step_frame cfg rt s Hs) as [Hr Hl].
  destruct (IH Hn (apply_step cfg rt s)) as (Ho & Hr' & Hl'); [by apply step_ev_at|]. cbn [foldl]. split; [exact Ho|]. split; [by rewrite Hr', Hr|].
  rewrite Hl', Hl, <- foldl_app. f_equal. by destruct s.
Qed.

Definition no_new (sc : Script) : bool :=
  forallb (fun s => negb (is_new s)) (before sc ++ body sc ++ after sc).

(** A run of a test whose only expectation is the [eventually] at [i]: it ends with
    the finalisation of that object. *)
Lemma run_test_ev cfg sc rt i P : Expect cfg = Some i -> no_new sc = true ->
  stable_under cfg i P -> ev_at i P (objs rt) ->
  exists rt' cause, run_test cfg sc rt = conclude (TerminateWhen cfg) (now sc) cause rt' /\
    ev_at i P (objs rt') /\ registered rt' = [i] /\
    rlog rt' = foldl apply_op (Reset (rlog rt)) (log_ops (before sc ++ body sc ++ after sc)) /\
    (arm sc = ArmBody -> cause <> TerminationTimeout).
Proof.
  intros HE Hn Hst H. unfold no_new in Hn. rewrite !forallb_app, !andb_true_iff in Hn.
  destruct Hn as (Hn1 & Hn2 & Hn3). unfold run_test.
  set (rt0 := begin_test cfg rt).
  assert (H0 : ev_at i P (objs rt0) /\ registered rt0 = [i] /\ rlog rt0 = Reset (rlog rt)).
  { unfold rt0, begin_test. by rewrite HE. }
  destruct H0 as (H0 & Hr0 & Hl0).
  destruct (steps_ev cfg i P _ rt0 Hn1 Hst H0) as (H1 & Hr1 & Hl1).
  set (rt1 := foldl _ rt0 (before sc)) in *.
  pose proof (signal_ev_at "body_start" i P (registered rt1) _ H1) as H2.
  destruct (steps_ev cfg i P (body sc) (signalLifecycleAnchor "body_start" rt1) Hn2 Hst H2) as (H3 & Hr3 & Hl3).
  set (rt3 := foldl _ _ (body sc)) in *.
  pose proof (signal_ev_at "body_end" i P (registered rt3) _ H3) as H4.
  destruct (steps_ev cfg i P (after sc) (signalLifecycleAnchor "body_end" rt3) Hn3 Hst H4) as (H5 & Hr5 & Hl5).
  eexists _, _. split; [reflexivity|]. split; [exact H5|]. split.
  { rewrite Hr5. cbn. rewrite Hr3. cbn. by rewrite Hr1. }
  split.
  { rewrite Hl5. cbn. rewrite Hl3. cbn. rewrite Hl1, Hl0. unfold log_ops. by rewrite !omap_app, !foldl_app. }
  intros ->. cbn. unfold drain. by repeat case_match.
Qed.

Lemma conclude_ev tw now cause rt i e : registered rt = [i] -> objs rt !! i = Some (Ev e) ->
  conclude tw now cause rt =
  let '(e', v, msg) := eventually_Finalize e (rlog rt) cause in
  (set_objs (<[i := Ev e']> (objs rt)) rt,
   match v with
   | VerdictFail => Failed (Name (Ev e') +:+ ": " +:+ msg)
   | VerdictPending => Inconclusive
   | VerdictPass => if decide (cause = TerminationTimeout) then Inconclusive else Passed
   end).
Proof.
  intros Hr Hi. unfold conclude. rewrite Hr. cbn [finalize_loop]. rewrite Hi. cbn [Finalize].
  by destruct (eventually_Finalize e (rlog rt) cause) as [[e' []] msg].
Qed.

(** The anchor of an [eventually] has been reached. *)
Definition anchored (e : EventuallyExpectation) (l : EventLog) : bool :=
  match e_anchor e with Some m => existsb (Matches m) (events l) | None => true end.

(** A finalisation passes exactly when the object is latched or the predicate
    holds of the final log, and it latches the object. *)
Lemma finalize_passes e l cause : let '(e', v, _) := eventually_Finalize e l cause in
  (v = VerdictPass <-> satisfied e = true \/
     (anchorReached e || anchored e l) = true /\ call (e_predicate e) l = Ok true) /\
  (v = VerdictPass -> satisfied e' = true) /\ (v = VerdictPending -> cause = TerminationTimeout).
Proof.
  unfold eventually_Finalize, eventually_Evaluate, anchored.
  destruct (satisfied e) eqn:Es; [cbn; naive_solver|].
  destruct (e_anchor e) as [m|] eqn:Ea; [rewrite found_existsb;
    destruct (anchorReached e), (existsb (Matches m) (events l)); cbn|cbn; rewrite orb_true_r].
  all: try (destruct (call (e_predicate e) l) as [[]|]; destruct cause; cbn; naive_solver).
Qed.

(** An [eventually] given as [expect=] is judged by the log at the end of the
    test alone.  Whatever its predicate said of the log while the test ran, a run
    whose body returns passes exactly when the anchor occurs in the final log and
    the predicate holds of the final log: no watcher evaluates it before. *)
Theorem eventually_judged_at_termination cfg sc rt i e (HE : Expect cfg = Some i)
    (Htw : TerminateWhen cfg <> Some i) (Hn : no_new sc = true) (Ha : arm sc = ArmBody)
    (Hi : objs rt !! i = Some (Ev e)) (Hf : satisfied e = false /\ anchorReached e = false) :
  let l := foldl apply_op (Reset (rlog rt)) (log_ops (before sc ++ body sc ++ after sc)) in
  (run_test cfg sc rt).2 = Passed <-> anchored e l = true /\ call (e_predicate e) l = Ok true.
Proof.
  cbv zeta. destruct (run_test_ev cfg sc rt i (eq e)) as (rt' & cause & -> & (e0 & Hi' & <-) & Hr & <- & Hc);
    try done; [by intros ?|by exists e|]. specialize (Hc Ha). rewrite (conclude_ev _ _ _ _ i e) by done.
  pose proof (finalize_passes e (rlog rt') cause) as Hp.
  destruct (eventually_Finalize e (rlog rt') cause) as [[e' v] msg]. cbn [snd].
  destruct Hf as [Hs Hr']. rewrite Hs, Hr' in Hp. cbn in Hp. destruct Hp as (Hp & _ & _).
  destruct v; [| |]; try rewrite decide_False by done; naive_solver.
Qed.

(** The latch of an [expect=] expectation outlives the run.  Once a run of a
    test passed - its discovery run, or an earlier leaf - every later run of the
    same test whose body returns passes, whatever the log of that run is and even
    where the predicate is false of it: the object is shared by the runs and
    nothing resets it. *)
Theorem passed_eventually_passes_every_later_leaf cfg sc1 sc2 rt i e (HE : Expect cfg = Some i)
    (Hi : objs rt !! i = Some (Ev e)) (Hn1 : no_new sc1 = true) (Hn2 : no_new sc2 = true)
    (Hp1 : (run_test cfg sc1 rt).2 = Passed) (Ha2 : arm sc2 = ArmBody) :
  (run_test cfg sc2 (run_test cfg sc1 rt).1).2 = Passed.
Proof.
  assert (Hl : ev_at i (fun e => satisfied e = true) (objs (run_test cfg sc1 rt).1)).
  { destruct (run_test_ev cfg sc1 rt i (fun _ => True)) as (rt' & cause & E & (e0 & Hi' & _) & Hr & _);
      try done; [by exists e|]. rewrite E in Hp1 |- *. rewrite (conclude_ev _ _ _ _ i e0) in Hp1 |- * by done.
    pose proof (finalize_passes e0 (rlog rt') cause) as Hp.
    destruct (eventually_Finalize e0 (rlog rt') cause) as [[e' v] msg]. cbn in *.
    destruct v; try done. exists e'. split; [|by apply Hp].
    by rewrite list_lookup_insert_eq by (by eapply lookup_lt_Some). }
  destruct (run_test_ev cfg sc2 (run_test cfg sc1 rt).1 i (fun e => satisfied e = true))
    as (rt' & cause & -> & (e0 & Hi' & Hs) & Hr & _ & Hc); try done.
  { intros _ e0 l Hs. unfold eventually_Evaluate. by rewrite Hs. }
  rewrite (conclude_ev _ _ _ _ i e0) by done. unfold eventually_Finalize, eventually_Evaluate.
  rewrite Hs. cbn. rewrite decide_True by done. cbn. rewrite decide_False; [done|by apply Hc].
Qed.

(** *** Concrete runs *)

(** The last event of the log is of the given type. *)
Definition last_is (t : string) : Callable :=
  mkCallable "last" (fun l => Ok match last (events l) with
                                 | Some ev => String.eqb (Type_ ev) t
                                 | None => false
                                 end).

Definition emit_step (t : string) : step := SLog (OEmit t "svc" ∅ 0).
Definition script (ts : list string) : Script := mkScript [] (emit_step <$> ts) [] ArmBody true 0.
Definition start (x : ExpectationVal) : Runtime := mkRt [x] [] NewEventLog false false.
Definition ev_last (t : string) : EventuallyExpectation := mkEv (last_is t) None false false.
Definition expect0 : TestConfig := mkConfig (Some 0%nat) None.

(** A test that saw its event but ended with another fails. *)
Lemma eventually_judged_at_termination_witness :
  ~ (run_test expect0 (script ["charge"; "log"]) (start (Ev (ev_last "charge")))).2 = Passed.
Proof.
  intros H. apply (eventually_judged_at_termination expect0 (script ["charge"; "log"])
    (start (Ev (ev_last "charge"))) 0 (ev_last "charge") eq_refl) in H;
    [|discriminate|reflexivity|reflexivity|reflexivity|split; reflexivity].
  destruct H as [_ H]. vm_compute in H. discriminate H.
Defined.

(** The second leaf never charges, and passes. *)
Lemma passed_eventually_passes_every_later_leaf_witness :
  let rt := (run_test expect0 (script ["charge"]) (start (Ev (ev_last "charge")))).1 in
  (run_test expect0 (script ["refund"]) rt).2 = Passed /\
  (run_test expect0 (script ["refund"]) (start (Ev (ev_last "charge")))).2 <> Passed.
Proof.
  split; [|vm_compute; discriminate].
  apply (passed_eventually_passes_every_later_leaf expect0 (script ["charge"]) (script ["refund"])
    (start (Ev (ev_last "charge"))) 0 (ev_last "charge")); vm_compute; reflexivity.
Defined.

Definition of_type (t : string) : MatcherVal :=
  mkMatcher t (Some (fun ev => String.eqb (Type_ ev) t)).

Definition log_of (ts : list string) : EventLog :=
  foldl apply_op NewEventLog ((fun t => OEmit t "svc" ∅ 0) <$> ts).

(** The window between a start and an end event, violated inside it. *)
Lemma always_window_semantics_witness :
  let s := mkAnchor "" (Some (of_type "open")) in
  let b := mkAnchor "" (Some (of_type "close")) in
  let acts := [Observe (log_of ["open"]); Signal "stable"] in
  (always_Finalize (foldl always_act (fresh_always (last_is "open") s b) acts)
     (log_of ["open"; "log"]) TerminationNatural).1.2 = VerdictFail.
Proof.
  cbv zeta. apply (always_window_semantics (last_is "open") _ _ _ (log_of ["open"; "log"])).
  - reflexivity.
  - split; [|by repeat constructor]. intros xs l ys l' zs E.
    destruct xs as [|? [|? [|? xs]]]; [|discriminate E|by destruct ys|by destruct xs].
    destruct ys as [|? [|? ys]]; [discriminate E| |by destruct ys].
    injection E as <- _ <- _. vm_compute. by eexists.
  - exists [Observe (log_of ["open"]); Signal "stable"], (log_of ["open"; "log"]), [].
    split; [reflexivity|vm_compute; reflexivity].
Defined.

(** An end event that precedes the start event closes the window as soon as it
    opens: the predicate, which always raises, is never called, the expectation
    passes, and no vacuity is reported. *)
Example end_before_start_passes :
  let s := mkAnchor "" (Some (of_type "open")) in
  let b := mkAnchor "" (Some (of_type "close")) in
  let a := fresh_always (mkCallable "boom" (fun _ => Err "boom")) s b in
  let '(a', v, _) := always_Finalize a (log_of ["close"; "open"; "log"]) TerminationNatural in
  v = VerdictPass /\ VacuousWindow a' = false.
Proof. by vm_compute. Qed.

End Temporal.
