(* ===== verification/Trace.v ===== *)
(** * Queries and assertions over the event log
    ([internal/star/trace.go] and the assertions of [builtins.go])

    [Trace] has the [trace] object of predicates: searches, windows, and the causal
    questions, which compare vector clocks.  A Go map is iterated in no fixed order,
    so the comparison takes the two orders as arguments.  [Assertions] has
    [assert_eventually], [assert_never], [assert_before] and [events], and
    [Subscribers] the log's subscriptions.  A Starlark callable is a function of the
    event that may raise. *)

From Stdlib Require Import ZArith Lia Ascii.
From S2P Require Import Prelude GoStd GoText EventLog.
From stdpp Require Import base gmap sets strings numbers list.
Local Open Scope Z_scope.
Import GoStd GoText.

Module Trace.
Import EventLog.

(** ** Matching values *)

Definition matchValue (actual pattern : string) : bool :=
  if String.eqb pattern "" then true
  else if contains "*" pattern then
    match FilePath.Match pattern actual with
    | Some true => true
    | _ =>
        if has_suffix "*" pattern then has_prefix (trim_suffix pattern "*") actual
        else if has_prefix "*" pattern then has_suffix (trim_prefix pattern "*") actual
        else false
    end
  else String.eqb actual pattern.

Definition matchEventCriteria (ev : Event) (criteria : gmap string string) : bool :=
  forallb (fun '(key, pattern) =>
    let actual := if String.eqb key "type" then Type_ ev
                  else if String.eqb key "service" then Service ev
                  else default "" (Fields ev !! key) in
    matchValue actual pattern) (map_to_list criteria).

(** ** Vector clocks *)

(** The first pass, over the entries of [vc2]; [None] is its early return. *)
Fixpoint vc_pass1 (vc1 : gmap string Z) (l : list (string * Z)) (strictLess : bool) : option bool :=
  match l with
  | [] => Some strictLess
  | (k, v2) :: l =>
      let v1 := at_ vc1 k in
      if v2 <? v1 then None else vc_pass1 vc1 l (if v1 <? v2 then true else strictLess)
  end.

(** The second pass, over the entries of [vc1]; [false] is its early return. *)
Fixpoint vc_pass2 (vc2 : gmap string Z) (l : list (string * Z)) : bool :=
  match l with
  | [] => true
  | (k, v1) :: l =>
      match vc2 !! k with
      | Some _ => vc_pass2 vc2 l
      | None => if 0 <? v1 then false else vc_pass2 vc2 l
      end
  end.

(** The comparison, with the orders in which the two maps are iterated. *)
Definition vc_before (o1 o2 : list (string * Z)) (vc1 vc2 : gmap string Z) : bool :=
  if (size vc1 =? 0)%nat && (size vc2 =? 0)%nat then false
  else
    match vc_pass1 vc1 o2 false with
    | None => false
    | Some strictLess => if vc_pass2 vc2 o1 then strictLess else false
    end.

Definition vcHappensBefore (vc1 vc2 : gmap string Z) : bool :=
  vc_before (map_to_list vc1) (map_to_list vc2) vc1 vc2.

(** ** Causal questions on events *)

Definition happensBefore (e other : Event) : bool := vcHappensBefore (VectorClock e) (VectorClock other).
Definition happensAfter (e other : Event) : bool := vcHappensBefore (VectorClock other) (VectorClock e).
Definition concurrentWith (e other : Event) : bool :=
  let ab := vcHappensBefore (VectorClock e) (VectorClock other) in
  let ba := vcHappensBefore (VectorClock other) (VectorClock e) in
  negb ab && negb ba.
Definition sameServiceAs (e other : Event) : bool :=
  negb (String.eqb (Service e) "") && String.eqb (Service e) (Service other).
Definition sameCorrelationAs (e other : Event) : bool :=
  let corr := default "" (Fields e !! "correlation_id") in
  let otherCorr := default "" (Fields other !! "correlation_id") in
  negb (String.eqb corr "") && String.eqb corr otherCorr.

(** [time.Time.Sub] saturates. *)
Definition Sub (a b : Z) : Z := Z.max (- 2 ^ 63) (Z.min (2 ^ 63 - 1) (a - b)).
Definition absDuration (d : Z) : Z := if d <? 0 then i64 (- d) else d.
Definition durationSince (e other : Event) : Z := Sub (Timestamp e) (Timestamp other).

(** The loops stop at the first event that is not earlier. *)
Fixpoint before_loop (seq : Z) (f : Event -> bool) (all : list Event) : bool :=
  match all with
  | [] => false
  | ev :: all => if seq <=? Seq ev then false else if f ev then true else before_loop seq f all
  end.
(** From the end, down to the first that is not later. *)
Fixpoint after_loop (seq : Z) (f : Event -> bool) (rall : list Event) : bool :=
  match rall with
  | [] => false
  | ev :: rall => if Seq ev <=? seq then false else if f ev then true else after_loop seq f rall
  end.

(** The log behind an event value; without one the searches find nothing. *)
Definition searching (f : list Event -> bool) (log : option EventLog) : bool :=
  match log with Some l => f (events l) | None => false end.

Definition precededBy (e : Event) (m : MatcherVal) : option EventLog -> bool :=
  searching (before_loop (Seq e) (Matches m)).
Definition followedBy (e : Event) (m : MatcherVal) : option EventLog -> bool :=
  searching (fun all => after_loop (Seq e) (Matches m) (reverse all)).
Definition precededByWithin (e : Event) (m : MatcherVal) (window : Z) : option EventLog -> bool :=
  searching (before_loop (Seq e) (fun ev => Matches m ev && (Sub (Timestamp e) (Timestamp ev) <=? window))).
Definition followedByWithin (e : Event) (m : MatcherVal) (window : Z) : option EventLog -> bool :=
  searching (existsb (fun ev => negb (Seq ev <=? Seq e) &&
                                (Matches m ev && (Sub (Timestamp ev) (Timestamp e) <=? window)))).
Definition directlyCausedBy (e : Event) (m : MatcherVal) : option EventLog -> bool :=
  searching (fun all => existsb (fun ev => negb (Seq e <=? Seq ev) &&
                                  (vcHappensBefore (VectorClock ev) (VectorClock e) && Matches m ev)) (reverse all)).

(** [matcherOrPredFromArg] on a callable: the event it is called with has no log, and an error is no
    match. *)
Definition pred_matcher (fn : Event -> option EventLog -> result string bool) : MatcherVal :=
  mkMatcher "predicate" (Some (fun ev => match fn ev None with Ok b => b | Err _ => false end)).

(** ** The trace object *)

Definition traceEvent (m : MatcherVal) (l : EventLog) : option Event := LastMatching m l.
Definition traceEvents (m : MatcherVal) (l : EventLog) : list Event := MatchingEvents m l.
Definition traceFirst (m : MatcherVal) (l : EventLog) : option Event := FirstMatching m l.
Definition traceLast (m : MatcherVal) (l : EventLog) : option Event := LastMatching m l.
Definition traceCount (m : MatcherVal) (l : EventLog) : Z := CountMatching m l.

Fixpoint between_loop (startSeq endSeq : Z) (all : list Event) : list Event :=
  match all with
  | [] => []
  | ev :: all =>
      if (0 <=? startSeq) && (Seq ev <=? startSeq) then between_loop startSeq endSeq all
      else if (0 <=? endSeq) && (endSeq <=? Seq ev) then []
      else ev :: between_loop startSeq endSeq all
  end.

(** An anchor that is not an event leaves its side open. *)
Definition anchor_seq (a : option Event) : Z := match a with Some ev => Seq ev | None => -1 end.

Definition traceEventsBetween (start end_ : option Event) (l : EventLog) : list Event :=
  between_loop (anchor_seq start) (anchor_seq end_) (events l).

Definition traceEventsWithin (m : MatcherVal) (window : Z) (anchor : option Event) (l : EventLog) : list Event :=
  List.filter (fun ev => Matches m ev &&
    match anchor with
    | Some a => negb (window <? absDuration (Sub (Timestamp ev) (Timestamp a)))
    | None => true
    end) (events l).

Fixpoint chain_loop (e : Event) (all : list Event) : list Event :=
  match all with
  | [] => []
  | candidate :: all =>
      if Seq e <=? Seq candidate then []
      else if vcHappensBefore (VectorClock candidate) (VectorClock e) then candidate :: chain_loop e all
      else chain_loop e all
  end.

Definition traceCausalChain (e : Event) (l : EventLog) : list Event := chain_loop e (events l).

(** ** Event lists *)

Fixpoint listMap {V} (fn : Event -> result string V) (evs : list Event) : result string (list V) :=
  match evs with
  | [] => Ok []
  | ev :: evs => let? v := fn ev in let? out := listMap fn evs in Ok (v :: out)
  end.
Fixpoint listFilter (fn : Event -> result string bool) (evs : list Event) : result string (list Event) :=
  match evs with
  | [] => Ok []
  | ev :: evs =>
      let? b := fn ev in
      let? out := listFilter fn evs in
      Ok (if b : bool then ev :: out else out)
  end.
Fixpoint listReduce {V} (fn : V -> Event -> result string V) (acc : V) (evs : list Event) : result string V :=
  match evs with
  | [] => Ok acc
  | ev :: evs => let? acc := fn acc ev in listReduce fn acc evs
  end.


(** *** The comparison of clocks *)

Lemma vc_pass1_spec vc1 l b :
  (forall k v2, (k, v2) ∈ l -> at_ vc1 k <= v2) /\ vc_pass1 vc1 l b = Some (b || existsb (fun p => at_ vc1 p.1 <? p.2) l) \/
  (exists k v2, (k, v2) ∈ l /\ v2 < at_ vc1 k) /\ vc_pass1 vc1 l b = None.
Proof.
  revert b. induction l as [|[k v2] l IH]; intros b; cbn [vc_pass1 existsb fst snd].
  - left. split; [set_solver|]. by rewrite orb_false_r.
  - destruct (Z.ltb_spec v2 (at_ vc1 k)) as [Hlt|Hge].
    + right. split; [exists k, v2; set_solver|done].
    + destruct (IH (if at_ vc1 k <? v2 then true else b)) as [[H ->]|[H ->]].
      * left. split; [set_solver|]. destruct (at_ vc1 k <? v2), b; done.
      * right. split; [set_solver|done].
Qed.

Lemma vc_pass2_spec vc2 l : vc_pass2 vc2 l = true <-> forall k v1, (k, v1) ∈ l -> vc2 !! k = None -> v1 <= 0.
Proof.
  induction l as [|[k v1] l IH]; cbn [vc_pass2]; [set_solver|].
  destruct (vc2 !! k) eqn:E; [rewrite IH; set_solver|].
  destruct (Z.ltb_spec 0 v1) as [Hlt|Hge]; [|rewrite IH; set_solver by eauto].
  split; [done|]. intros H. specialize (H k v1 ltac:(set_solver) E). lia.
Qed.

(** Whatever the iteration orders: below in every component, and strictly in one that the second
    clock has. *)
Lemma vc_before_spec o1 o2 vc1 vc2 : o1 ≡ₚ map_to_list vc1 -> o2 ≡ₚ map_to_list vc2 ->
  vc_before o1 o2 vc1 vc2 = true <->
  clock_le vc1 vc2 /\ exists k v2, vc2 !! k = Some v2 /\ at_ vc1 k < v2.
Proof.
  intros H1 H2.
  assert (E1 : forall k v, (k, v) ∈ o1 <-> vc1 !! k = Some v) by (intros; by rewrite H1, elem_of_map_to_list).
  assert (E2 : forall k v, (k, v) ∈ o2 <-> vc2 !! k = Some v) by (intros; by rewrite H2, elem_of_map_to_list).
  unfold vc_before. destruct (_ && _) eqn:Ez.
  { apply andb_true_iff in Ez as [_ Ez]. apply Nat.eqb_eq, map_size_empty_inv in Ez. subst vc2.
    split; [done|]. intros (_ & k & v2 & Hk & _). by rewrite lookup_empty in Hk. }
  destruct (vc_pass1_spec vc1 o2 false) as [[Hle ->]|[(k & v2 & Hk & Hlt) ->]].
  2: { split; [done|]. intros [Hle _]. specialize (Hle k). apply E2 in Hk. unfold at_ in Hle at 2. rewrite Hk in Hle.
       cbn in Hle. lia. }
  cbn [orb]. destruct (vc_pass2 vc2 o1) eqn:Ep.
  - rewrite vc_pass2_spec in Ep. rewrite List.existsb_exists. split.
    + intros ([k v2] & Hin & Hlt). apply list_elem_of_In in Hin. apply Z.ltb_lt in Hlt. cbn in Hlt.
      split; [|exists k, v2; by rewrite <- E2]. intros k'. destruct (vc2 !! k') as [w|] eqn:Ew.
      * unfold at_ at 2. rewrite Ew. apply Hle. by apply E2.
      * unfold at_. rewrite Ew. destruct (vc1 !! k') as [v|] eqn:Ev; cbn; [|lia]. apply (Ep k' v); [by apply E1|done].
    + intros (_ & k & v2 & Hk & Hlt). exists (k, v2). split; [by apply list_elem_of_In, E2|by apply Z.ltb_lt].
  - split; [done|]. intros [Hall _]. rewrite <- Ep. apply vc_pass2_spec. intros k v1 Hk Hn. apply E1 in Hk.
    specialize (Hall k). unfold at_ in Hall. rewrite Hk, Hn in Hall. cbn in Hall. lia.
Qed.

Lemma vc_before_order o1 o2 vc1 vc2 : o1 ≡ₚ map_to_list vc1 -> o2 ≡ₚ map_to_list vc2 ->
  vc_before o1 o2 vc1 vc2 = vcHappensBefore vc1 vc2.
Proof. intros H1 H2. apply eq_true_iff_eq. unfold vcHappensBefore. by rewrite !vc_before_spec. Qed.

(** On clocks without negative entries: strictly below. *)
Lemma vcHappensBefore_iff vc1 vc2 : (forall k, 0 <= at_ vc1 k) ->
  vcHappensBefore vc1 vc2 = true <-> clock_le vc1 vc2 /\ ~ clock_le vc2 vc1.
Proof.
  intros H0. unfold vcHappensBefore. rewrite vc_before_spec by done. split; intros [Hle H]; (split; [done|]).
  - destruct H as (k & v2 & Hk & Hlt). intros Hge. specialize (Hge k). unfold at_ in Hge at 1. rewrite Hk in Hge.
    cbn in Hge. lia.
  - destruct (decide (Forall (fun p => p.2 <= at_ vc1 p.1) (map_to_list vc2))) as [Hall|Hnot].
    + destruct H. intros k. destruct (vc2 !! k) as [v|] eqn:E; unfold at_ at 1; rewrite E; cbn; [|apply H0].
      rewrite Forall_forall in Hall. apply (Hall (k, v)). by apply elem_of_map_to_list.
    + apply not_Forall_Exists, Exists_exists in Hnot; [|apply _]. destruct Hnot as ([k v] & Hk & Hlt).
      exists k, v. apply elem_of_map_to_list in Hk. cbn in Hlt. split; [done|lia].
Qed.

(** *** Clocks of a run *)

Lemma stamp_nonneg ops p t e : Z.of_nat (length ops) < 2 ^ 63 -> emits ops p t -> logged ops p = Some e ->
  forall k, 0 <= at_ (VectorClock e) k.
Proof.
  intros Hlen Hp He k. destruct (logged_emit _ _ _ Hp) as (e' & He' & _ & Hvc).
  rewrite He in He'. injection He' as <-. rewrite Hvc.
  destruct (run_exact (take (S p) ops)) with (s := t) (t := k) as (Hr & _); [rewrite length_take; lia|]. lia.
Qed.

Lemma hb_irrefl ops p : ~ happens_before ops p p.
Proof. intros H%hb_bound. lia. Qed.

Lemma hb_asym ops p q : happens_before ops p q -> ~ happens_before ops q p.
Proof. intros H1%hb_bound H2%hb_bound. lia. Qed.

(** The comparison of two services' events decides Lamport's relation. *)
Lemma stamps_decide ops p q s t e f : Z.of_nat (length ops) < 2 ^ 63 -> emits ops p s -> emits ops q t ->
  logged ops p = Some e -> logged ops q = Some f ->
  vcHappensBefore (VectorClock e) (VectorClock f) = true <-> happens_before ops p q.
Proof.
  intros Hlen Hp Hq He Hf. rewrite vcHappensBefore_iff by (by apply (stamp_nonneg ops p s)).
  destruct (stamps_ordered ops p q s t Hlen Hp Hq) as (e1 & f1 & He1 & Hf1 & _ & _ & H1).
  destruct (stamps_ordered ops q p t s Hlen Hq Hp) as (f2 & e2 & Hf2 & He2 & _ & _ & H2).
  rewrite He in He1, He2. rewrite Hf in Hf1, Hf2. injection He1 as <-. injection Hf1 as <-.
  injection He2 as <-. injection Hf2 as <-. rewrite H1, H2. split.
  - intros [[->|H] Hn]; [|done]. destruct (Hn (or_introl eq_refl)).
  - intros H. split; [by right|]. intros [->|H']; [by eapply hb_irrefl|by eapply hb_asym].
Qed.

(** The causal questions of a specification are Lamport's: of two events attributed to services,
    [happens_before] and [happens_after] hold exactly when a chain of emissions and clock merges leads
    from one to the other, and [concurrent_with] exactly when none does, in whatever order the two
    maps of the comparison are iterated. *)
Theorem causal_questions_decide_causality (ops : list op) (p q : nat) (s t : string) (e f : Event)
    (o1 o2 : list (string * Z)) :
  Z.of_nat (length ops) < 2 ^ 63 -> emits ops p s -> emits ops q t ->
  logged ops p = Some e -> logged ops q = Some f ->
  o1 ≡ₚ map_to_list (VectorClock e) -> o2 ≡ₚ map_to_list (VectorClock f) ->
  (vc_before o1 o2 (VectorClock e) (VectorClock f) = true <-> happens_before ops p q) /\
  (happensBefore e f = true <-> happens_before ops p q) /\
  (happensAfter e f = true <-> happens_before ops q p) /\
  (concurrentWith e f = true <-> ~ happens_before ops p q /\ ~ happens_before ops q p).
Proof.
  intros Hlen Hp Hq He Hf H1 H2. rewrite vc_before_order by done.
  pose proof (stamps_decide ops p q s t e f Hlen Hp Hq He Hf) as Hpq.
  pose proof (stamps_decide ops q p t s f e Hlen Hq Hp Hf He) as Hqp.
  unfold happensBefore, happensAfter, concurrentWith. cbv zeta.
  rewrite andb_true_iff, !negb_true_iff, <- !not_true_iff_false, Hpq, Hqp. done.
Qed.

(** The event at a position of a concrete run. *)
Definition nth_event (ops : list op) (p : nat) : Event :=
  default (mkEvent 0 0 "" "" "" "" ∅ ∅) (logged ops p).

Lemma causal_questions_decide_causality_witness :
  happensBefore (nth_event sample 0) (nth_event sample 2) = true <-> happens_before sample 0 2.
Proof.
  apply (causal_questions_decide_causality sample 0 2 "api" "db" (nth_event sample 0) (nth_event sample 2)
    (map_to_list (VectorClock (nth_event sample 0))) (map_to_list (VectorClock (nth_event sample 2)))).
  - vm_compute. reflexivity.
  - split; [discriminate|]. exists "step_send", ∅, 1. reflexivity.
  - split; [discriminate|]. exists "step_recv", ∅, 2. reflexivity.
  - vm_compute. reflexivity.
  - vm_compute. reflexivity.
  - done.
  - done.
Defined.

(** *** Events without a service *)

(** Position [p] emits an event that no service is named for. *)
Definition anonymous (ops : list op) (p : nat) : Prop :=
  exists typ fields now, ops !! p = Some (OEmit typ "" fields now).

Lemma logged_anonymous ops p e : anonymous ops p -> logged ops p = Some e -> Service e = "" /\ VectorClock e = ∅.
Proof.
  intros (typ & f & now & H). unfold logged. rewrite H.
  destruct (run_events (take (S p) ops) (drop (S p) ops)) as (evs & Hevs). rewrite take_drop in Hevs.
  rewrite Hevs. erewrite take_S_r by exact H. rewrite run_snoc. cbn [apply_op]. unfold emit. cbn [events clocks].
  rewrite <- app_assoc. cbn [app]. rewrite list_lookup_middle by (symmetry; apply run_length).
  intros [= <-]. done.
Qed.

Lemma own_entry_pos ops q t f : Z.of_nat (length ops) < 2 ^ 63 -> emits ops q t -> logged ops q = Some f ->
  0 < at_ (VectorClock f) t.
Proof.
  intros Hlen Hq Hf. destruct (logged_emit _ _ _ Hq) as (f' & Hf' & _ & Hvc). rewrite Hf in Hf'. injection Hf' as <-.
  rewrite Hvc. destruct (run_exact (take (S q) ops)) with (s := t) (t := t) as (_ & -> & _); [rewrite length_take; lia|].
  pose proof (emits_bound _ _ _ Hq). apply emits_take with (n := S q) in Hq; [|lia].
  pose proof (rank_pos _ _ _ Hq). pose proof (rank_le_count (take (S q) ops) q t). lia.
Qed.

Lemma anonymous_precedes (ops : list op) (p q : nat) (t : string) (e f : Event) :
  Z.of_nat (length ops) < 2 ^ 63 -> anonymous ops p -> emits ops q t ->
  logged ops p = Some e -> logged ops q = Some f ->
  happensBefore e f = true /\ concurrentWith e f = false.
Proof.
  intros Hlen Hp Hq He Hf. destruct (logged_anonymous _ _ _ Hp He) as [_ Hvc].
  assert (H : happensBefore e f = true).
  { unfold happensBefore. rewrite Hvc. apply vcHappensBefore_iff; [intros k; unfold at_; by rewrite lookup_empty|].
    split.
    - intros k. unfold at_ at 1. rewrite lookup_empty. by apply (stamp_nonneg ops q t).
    - intros Hle. specialize (Hle t). unfold at_ at 2 in Hle. rewrite lookup_empty in Hle. cbn in Hle.
      pose proof (own_entry_pos _ _ _ _ Hlen Hq Hf). lia. }
  split; [done|]. unfold concurrentWith. unfold happensBefore in H. by rewrite H.
Qed.

(** An event without a service has no clock, and the comparison takes a missing entry for zero: it
    is said to happen before every event of a service, also before those that were logged earlier, and
    never to be concurrent with one. *)
Theorem anonymous_event_precedes_the_past (ops : list op) (p q : nat) (t : string) (e f : Event) :
  Z.of_nat (length ops) < 2 ^ 63 -> anonymous ops p -> emits ops q t ->
  logged ops p = Some e -> logged ops q = Some f ->
  happensBefore e f = true /\ concurrentWith e f = false.
Proof. by apply anonymous_precedes. Qed.

Lemma anonymous_event_precedes_the_past_witness :
  let ops := [OEmit "syscall" "db" ∅ 1; OEmit "fault_applied" "" ∅ 2] in
  happensBefore (nth_event ops 1) (nth_event ops 0) = true /\ concurrentWith (nth_event ops 1) (nth_event ops 0) = false.
Proof.
  intros ops. apply (anonymous_event_precedes_the_past ops 1 0 "db").
  - vm_compute. reflexivity.
  - exists "fault_applied", ∅, 2. reflexivity.
  - split; [discriminate|]. exists "syscall", ∅, 1. reflexivity.
  - vm_compute. reflexivity.
  - vm_compute. reflexivity.
Defined.

(** *** Sequence numbers *)

(** Events numbered one after the other. *)
Fixpoint numbered (n : Z) (l : list Event) : Prop :=
  match l with [] => True | e :: l => Seq e = n /\ numbered (n + 1) l end.

Lemma numbered_snoc n l e : numbered n (l ++ [e]) <-> numbered n l /\ Seq e = n + Z.of_nat (length l).
Proof.
  revert n. induction l as [|x l IH]; intros n; cbn [app numbered length].
  - rewrite Z.add_0_r. tauto.
  - rewrite IH. replace (n + 1 + Z.of_nat (length l)) with (n + Z.of_nat (S (length l))) by lia. tauto.
Qed.

Lemma numbered_lookup n l i e : numbered n l -> l !! i = Some e -> Seq e = n + Z.of_nat i.
Proof.
  revert n i. induction l as [|x l IH]; intros n i Hn He; [done|]. destruct Hn as [Hx Hn].
  destruct i as [|i]; cbn in He; [injection He as <-; lia|]. rewrite (IH _ _ Hn He). lia.
Qed.

Lemma numbered_min n l e : numbered n l -> e ∈ l -> n <= Seq e.
Proof. intros Hn (i & Hi)%list_elem_of_lookup. rewrite (numbered_lookup _ _ _ _ Hn Hi). lia. Qed.

Lemma run_numbered ops : Z.of_nat (length ops) < 2 ^ 63 ->
  numbered 1 (events (run ops)) /\ lseq (run ops) = Z.of_nat (length (events (run ops))).
Proof.
  induction ops as [|o ops IH] using rev_ind; [done|]. rewrite length_app, run_snoc. cbn [length]. intros Hlen.
  destruct IH as [IH1 IH2]; [lia|]. destruct o as [typ u f now|a b]; [|done].
  pose proof (run_length ops) as Hl. pose proof (List.filter_length_le is_emit ops).
  assert (E : i64 (lseq (run ops) + 1) = 1 + Z.of_nat (length (events (run ops)))) by (rewrite IH2; rewrite wrap_s_small; lia).
  cbn [apply_op]. unfold emit. cbn [events lseq]. rewrite E, numbered_snoc, length_app. cbn [length Seq]. split; [done|lia].
Qed.

(** Where an emission is in the log. *)
Definition place (ops : list op) (p : nat) : nat := length (List.filter is_emit (take p ops)).

Lemma place_lt ops p q o : ops !! p = Some o -> is_emit o = true -> (p < q)%nat -> (place ops p < place ops q)%nat.
Proof.
  intros Ho He Hlt. unfold place. rewrite <- (take_drop (S p) (take q ops)), take_take, Nat.min_l by lia.
  rewrite (take_S_r _ _ _ Ho), !List.filter_app, !length_app. cbn. rewrite He. cbn. lia.
Qed.

Lemma logged_place ops p e : logged ops p = Some e ->
  exists o, ops !! p = Some o /\ is_emit o = true /\ events (run ops) !! place ops p = Some e.
Proof. unfold logged, place. destruct (ops !! p) as [[]|]; [|done..]. intros H. by eexists. Qed.

Lemma place_onto ops i e : events (run ops) !! i = Some e ->
  exists p, logged ops p = Some e /\ place ops p = i.
Proof.
  revert i e. induction ops as [|o ops IH] using rev_ind; intros i e; [done|]. rewrite run_snoc. intros He.
  assert (Hold : forall j x, events (run ops) !! j = Some x -> exists p, logged (ops ++ [o]) p = Some x /\ place (ops ++ [o]) p = j).
  { intros j x Hx. destruct (IH j x Hx) as (p & Hp & Hj). destruct (logged_place _ _ _ Hp) as (o1 & Ho & Ei & Hev).
    pose proof (lookup_lt_Some _ _ _ Ho). exists p. unfold logged, place in *. rewrite lookup_app_l, take_app_le by lia.
    split; [|done]. rewrite Ho. destruct o1; [|done]. rewrite run_snoc.
    destruct o as [? ? ? ?|? ?]; cbn [apply_op]; unfold emit, MergeClock; cbn [events]; [|done].
    by apply lookup_app_l_Some. }
  destruct o as [typ u f now|a b]; cbn [apply_op] in He; [|by apply Hold].
  unfold emit in He. cbn [events] in He. apply lookup_snoc_Some in He as [[_ He]|[-> <-]]; [by apply Hold|].
  exists (length ops). unfold logged, place. rewrite list_lookup_middle, take_app_length by done.
  split; [|symmetry; apply run_length]. rewrite run_snoc. cbn [apply_op]. unfold emit. cbn [events].
  by rewrite list_lookup_middle by (symmetry; apply run_length).
Qed.

(** Sequence numbers follow positions. *)
Lemma seq_order ops p q e f : Z.of_nat (length ops) < 2 ^ 63 -> logged ops p = Some e -> logged ops q = Some f ->
  Seq e < Seq f <-> (p < q)%nat.
Proof.
  intros Hlen He Hf. destruct (run_numbered ops Hlen) as [Hn _].
  destruct (logged_place _ _ _ He) as (o1 & Ho1 & Ei1 & H1), (logged_place _ _ _ Hf) as (o2 & Ho2 & Ei2 & H2).
  rewrite (numbered_lookup _ _ _ _ Hn H1), (numbered_lookup _ _ _ _ Hn H2). split.
  - intros Hlt. destruct (decide (p < q)%nat) as [|Hge]; [done|]. destruct (decide (p = q)) as [->|]; [lia|].
    pose proof (place_lt ops q p o2 Ho2 Ei2 ltac:(lia)). lia.
  - intros Hlt. pose proof (place_lt ops p q o1 Ho1 Ei1 Hlt). lia.
Qed.

(** *** Searches *)

Lemma list_filter_none (f : Event -> bool) l : (forall x, x ∈ l -> f x = false) -> List.filter f l = [].
Proof. induction l as [|x l IH]; intros H; [done|]. cbn. rewrite H by set_solver. apply IH. set_solver. Qed.

(** In a numbered list an event that is not earlier is followed by none that is. *)
Lemma numbered_late n c l seq : numbered n (c :: l) -> seq <= Seq c -> forall x, x ∈ c :: l -> (Seq x <? seq) = false.
Proof.
  intros [Hc Hn] Hle x [->|Hx]%elem_of_cons; [apply Z.ltb_ge; lia|].
  pose proof (numbered_min _ _ _ Hn Hx). apply Z.ltb_ge. lia.
Qed.

Lemma chain_loop_filter n e l : numbered n l ->
  chain_loop e l = List.filter (fun c => (Seq c <? Seq e) && vcHappensBefore (VectorClock c) (VectorClock e)) l.
Proof.
  revert n. induction l as [|c l IH]; intros n Hn; [done|]. cbn [chain_loop].
  destruct (Z.leb_spec (Seq e) (Seq c)) as [Hle|Hlt].
  - symmetry. apply list_filter_none. intros x Hx. by rewrite (numbered_late n c l (Seq e)).
  - cbn [List.filter]. rewrite (proj2 (Z.ltb_lt _ _)) by lia. cbn [andb]. destruct Hn as [_ Hn].
    rewrite (IH _ Hn). done.
Qed.

Lemma before_loop_exists n seq f l : numbered n l ->
  before_loop seq f l = existsb (fun x => (Seq x <? seq) && f x) l.
Proof.
  revert n. induction l as [|c l IH]; intros n Hn; [done|]. cbn [before_loop].
  destruct (Z.leb_spec seq (Seq c)) as [Hle|Hlt].
  - symmetry. apply not_true_is_false. rewrite List.existsb_exists. intros (x & Hx & Hf).
    apply list_elem_of_In in Hx. by rewrite (numbered_late n c l seq) in Hf.
  - cbn [existsb]. rewrite (proj2 (Z.ltb_lt _ _)) by lia. cbn [andb]. destruct Hn as [_ Hn].
    rewrite (IH _ Hn). by destruct (f c).
Qed.

Lemma after_loop_exists n seq f l : numbered n l ->
  after_loop seq f (reverse l) = existsb (fun x => (seq <? Seq x) && f x) l.
Proof.
  induction l as [|c l IH] using rev_ind; intros Hn; [done|]. rewrite reverse_snoc. cbn [after_loop].
  rewrite List.existsb_app. cbn [existsb]. rewrite orb_false_r. apply numbered_snoc in Hn as [Hn Hc].
  destruct (Z.leb_spec (Seq c) seq) as [Hle|Hlt].
  - symmetry. apply not_true_is_false. rewrite orb_true_iff, List.existsb_exists.
    intros [(x & Hx & Hf)|Hf]; apply andb_true_iff in Hf as [Hf _]; apply Z.ltb_lt in Hf; [|lia].
    apply list_elem_of_In, list_elem_of_lookup in Hx as (i & Hi).
    pose proof (lookup_lt_Some _ _ _ Hi). rewrite (numbered_lookup _ _ _ _ Hn Hi) in Hf. lia.
  - rewrite (proj2 (Z.ltb_lt _ _)) by lia. cbn [andb]. rewrite <- IH by done.
    destruct (f c); [by rewrite orb_true_r|by rewrite orb_false_r].
Qed.

Lemma between_loop_filter n a b l : numbered n l -> 0 <= n ->
  between_loop a b l =
  List.filter (fun x => (if 0 <=? a then a <? Seq x else true) && (if 0 <=? b then Seq x <? b else true)) l.
Proof.
  revert n. induction l as [|c l IH]; intros n Hn H0; [done|]. cbn [between_loop List.filter].
  pose proof (proj2 Hn) as Hn'. rewrite !(IH _ Hn' ltac:(lia)). rewrite (Z.leb_antisym a (Seq c)).
  destruct (0 <=? a), (a <? Seq c) eqn:Ea; cbn [andb negb]; try done;
    (destruct (0 <=? b) eqn:Eb; cbn [andb]; [|done]; destruct (Z.leb_spec b (Seq c)) as [Hle|Hlt];
     [|by rewrite (proj2 (Z.ltb_lt _ _)) by lia]; rewrite (proj2 (Z.ltb_ge _ _)) by lia;
     symmetry; apply list_filter_none; intros x Hx;
     by rewrite (numbered_late n c l b Hn Hle x (list_elem_of_further _ _ _ Hx)), ?andb_false_r).
Qed.

Lemma logged_emission ops p e : logged ops p = Some e -> anonymous ops p \/ exists t, emits ops p t.
Proof.
  intros (o & Ho & Ei & _)%logged_place. destruct o as [typ t f now|]; [|done].
  destruct (decide (t = "")) as [->|Ht]; [left; by eexists _, _, _|]. right. exists t. split; [done|]. by eexists _, _, _.
Qed.

(** The causal chain of an event is its causal past: the logged events from which a chain of
    emissions and merges leads to it, in the order of the log, together with every earlier event that
    has no service. *)
Theorem causal_chain_is_the_past (ops : list op) (q : nat) (t : string) (f : Event) :
  Z.of_nat (length ops) < 2 ^ 63 -> emits ops q t -> logged ops q = Some f ->
  traceCausalChain f (run ops) `sublist_of` events (run ops) /\
  forall x, x ∈ traceCausalChain f (run ops) <->
    exists p, logged ops p = Some x /\ (happens_before ops p q \/ anonymous ops p /\ (p < q)%nat).
Proof.
  intros Hlen Hq Hf. destruct (run_numbered ops Hlen) as [Hn _]. unfold traceCausalChain.
  rewrite (chain_loop_filter 1) by done. split.
  { clear Hn. induction (events (run ops)) as [|x l IH]; [done|]. cbn. destruct (_ && _); by constructor. }
  intros x. rewrite list_elem_of_In, List.filter_In, <- list_elem_of_In, andb_true_iff, Z.ltb_lt. split.
  - intros (Hx & Hlt & Hvc). apply list_elem_of_lookup in Hx as (i & Hi).
    destruct (place_onto _ _ _ Hi) as (p & Hp & _). exists p. split; [done|].
    destruct (logged_emission _ _ _ Hp) as [Ha|(s & Hs)].
    + right. split; [done|]. by apply (seq_order ops p q x f).
    + left. by apply (stamps_decide ops p q s t x f).
  - intros (p & Hp & H). destruct (logged_place _ _ _ Hp) as (o & Ho & Ei & Hi).
    split; [by apply list_elem_of_lookup; eexists|].
    assert (Hpq : (p < q)%nat) by (destruct H as [H%hb_bound|[_ H]]; lia).
    split; [by apply (seq_order ops p q x f)|]. destruct (logged_emission _ _ _ Hp) as [Ha|(s & Hs)].
    + by apply (anonymous_precedes ops p q t x f).
    + apply (stamps_decide ops p q s t x f); try done. destruct H as [H|[(? & ? & ? & Ha) _]]; [done|].
      destruct Hs as (Hne & ? & ? & ? & Hs). rewrite Ha in Hs. by injection Hs as ? <-.
Qed.

Lemma causal_chain_is_the_past_witness :
  traceCausalChain (nth_event sample 2) (run sample) `sublist_of` events (run sample) /\
  forall x, x ∈ traceCausalChain (nth_event sample 2) (run sample) <->
    exists p, logged sample p = Some x /\ (happens_before sample p 2 \/ anonymous sample p /\ (p < 2)%nat).
Proof.
  apply (causal_chain_is_the_past sample 2 "db").
  - vm_compute. reflexivity.
  - split; [discriminate|]. exists "step_recv", ∅, 2. reflexivity.
  - vm_compute. reflexivity.
Defined.

(** [directly_caused_by] accepts any event of the causal chain, not only an immediate predecessor. *)
Lemma directly_caused_by_any_ancestor ops f m : Z.of_nat (length ops) < 2 ^ 63 ->
  directlyCausedBy f m (Some (run ops)) = existsb (Matches m) (traceCausalChain f (run ops)).
Proof.
  intros Hlen. destruct (run_numbered ops Hlen) as [Hn _]. unfold directlyCausedBy, searching, traceCausalChain.
  rewrite (chain_loop_filter 1) by done. apply eq_true_iff_eq. rewrite !List.existsb_exists.
  setoid_rewrite List.filter_In. setoid_rewrite <- list_elem_of_In. setoid_rewrite elem_of_reverse.
  split; intros (x & Hx); exists x; rewrite !andb_true_iff, Z.ltb_antisym in *; naive_solver.
Qed.

(** The searches with a bound find what their documentation says. *)
Lemma searches_in_run ops e m w : Z.of_nat (length ops) < 2 ^ 63 ->
  let l := events (run ops) in
  precededBy e m (Some (run ops)) = existsb (fun x => (Seq x <? Seq e) && Matches m x) l /\
  followedBy e m (Some (run ops)) = existsb (fun x => (Seq e <? Seq x) && Matches m x) l /\
  precededByWithin e m w (Some (run ops)) =
    existsb (fun x => (Seq x <? Seq e) && (Matches m x && (Sub (Timestamp e) (Timestamp x) <=? w))) l /\
  forall a b, traceEventsBetween (Some a) (Some b) (run ops) =
    List.filter (fun x => (if 0 <=? Seq a then Seq a <? Seq x else true) && (if 0 <=? Seq b then Seq x <? Seq b else true)) l.
Proof.
  intros Hlen l. destruct (run_numbered ops Hlen) as [Hn _]. unfold precededBy, followedBy, precededByWithin, searching.
  rewrite !(before_loop_exists 1), (after_loop_exists 1) by done. repeat split.
  intros a b. unfold traceEventsBetween. by rewrite (between_loop_filter 1) by (done || lia).
Qed.

(** A predicate used as a matcher sees events without a log: the searches it makes find nothing. *)
Lemma predicates_see_no_log m e l :
  traceEvents (pred_matcher (fun ev log => Ok (precededBy ev m log || followedBy ev m log || directlyCausedBy ev m log))) l = [] /\
  Matches (pred_matcher (fun ev log => Ok (precededBy ev m log))) e = false.
Proof. split; [|done]. unfold traceEvents, MatchingEvents. by apply list_filter_none. Qed.

End Trace.

(** ** Assertions over the trace *)
Module Assertions.
Import EventLog Trace.

Record eventFilter := mkFilter { key : string; value : string }.

Definition filter_value (ev : Event) (k : string) : string :=
  if String.eqb k "service" then Service ev else default "" (Fields ev !! k).

Definition matchesFilters (ev : Event) (filters : list eventFilter) : bool :=
  forallb (fun f => matchValue (filter_value ev (key f)) (value f)) filters.

(** A Starlark argument: a string, a callable, or something else. *)
Abbreviation Callable := (Event -> result string bool).
Inductive Value := VString (s : string) | VCallable (f : Callable) | VOther.
Abbreviation Kwargs := (list (string * Value)).

Definition AsString (v : Value) : string := match v with VString s => s | _ => "" end.

(** The last callable [where=] wins; one that is not callable is dropped. *)
Fixpoint extractWhere (kwargs : Kwargs) : option Callable * Kwargs :=
  match kwargs with
  | [] => (None, [])
  | (k, v) :: kwargs =>
      let '(w, rest) := extractWhere kwargs in
      if String.eqb k "where" then
        (match w with Some _ => w | None => match v with VCallable f => Some f | _ => None end end, rest)
      else (w, (k, v) :: rest)
  end.

Definition extractEventFilters (kwargs : Kwargs) : list eventFilter :=
  (fun '(k, v) => mkFilter k (AsString v)) <$> kwargs.

(** The families that the assertions look at. *)
Definition assertable (ev : Event) : bool :=
  String.eqb (Type_ ev) "syscall" || String.eqb (Type_ ev) "stdout" || String.eqb (Type_ ev) "topic" ||
  String.eqb (Type_ ev) "wal".

(** Whether an event is the one that is looked for. *)
Definition hit (whereFn : option Callable) (filters : list eventFilter) (ev : Event) : result string bool :=
  match whereFn with
  | Some f => f ev
  | None => Ok (matchesFilters ev filters)
  end.

(** The first hit; an error of the callback ends the search. *)
Fixpoint search (whereFn : option Callable) (filters : list eventFilter) (evs : list Event) : result string (option Event) :=
  match evs with
  | [] => Ok None
  | ev :: evs =>
      if negb (assertable ev) then search whereFn filters evs
      else
        let? b := hit whereFn filters ev in
        if b : bool then Ok (Some ev) else search whereFn filters evs
  end.

(** The positional arguments are not looked at. *)
Definition builtinAssertEventually (args : list Value) (kwargs : Kwargs) (l : EventLog) : result string unit :=
  let '(whereFn, rest) := extractWhere kwargs in
  match search whereFn (extractEventFilters rest) (events l) with
  | Err e => Err e
  | Ok (Some _) => Ok tt
  | Ok None => Err (match whereFn with
                    | Some _ => "assert_eventually: no event matched where= predicate"
                    | None => "assert_eventually: no matching event found"
                    end)
  end.

Definition builtinAssertNever (args : list Value) (kwargs : Kwargs) (l : EventLog) : result string unit :=
  let '(whereFn, rest) := extractWhere kwargs in
  match search whereFn (extractEventFilters rest) (events l) with
  | Err e => Err e
  | Ok (Some ev) => Err ("assert_never: found matching event #" +:+ show_Z (Seq ev))
  | Ok None => Ok tt
  end.

(** The loop of [assert_before]; -1 is not found. *)
Fixpoint before_scan (first then_ : list eventFilter) (firstSeq thenSeq : Z) (evs : list Event) : Z * Z :=
  match evs with
  | [] => (firstSeq, thenSeq)
  | ev :: evs =>
      if negb (String.eqb (Type_ ev) "syscall") then before_scan first then_ firstSeq thenSeq evs
      else
        let firstSeq := if (firstSeq <? 0) && matchesFilters ev first then Seq ev else firstSeq in
        let thenSeq := if (thenSeq <? 0) && matchesFilters ev then_ then Seq ev else thenSeq in
        if (0 <=? firstSeq) && (0 <=? thenSeq) then (firstSeq, thenSeq)
        else before_scan first then_ firstSeq thenSeq evs
  end.

Definition builtinAssertBefore (first then_ : list eventFilter) (l : EventLog) : result string unit :=
  let '(firstSeq, thenSeq) := before_scan first then_ (-1) (-1) (events l) in
  if firstSeq <? 0 then Err "assert_before: no event matching 'first' filters"
  else if thenSeq <? 0 then Err "assert_before: no event matching 'then' filters"
  else if thenSeq <=? firstSeq then Err "assert_before: 'first' event did not occur before 'then' event"
  else Ok tt.

Definition dictFilterQueryable (typ : string) : bool :=
  existsb (String.eqb typ)
    ["syscall"; "stdout"; "topic"; "wal"; "client_call"; "client_return"; "contract_violation"].

Fixpoint events_loop (whereFn : option Callable) (filters : list eventFilter) (evs : list Event)
    : result string (list Event) :=
  match evs with
  | [] => Ok []
  | ev :: evs =>
      if match whereFn with None => negb (dictFilterQueryable (Type_ ev)) | Some _ => false end
      then events_loop whereFn filters evs
      else if (0 <? length filters)%nat && negb (matchesFilters ev filters) then events_loop whereFn filters evs
      else
        let? keep := match whereFn with Some f => f ev | None => Ok true end in
        let? rest := events_loop whereFn filters evs in
        Ok (if keep : bool then ev :: rest else rest)
  end.

Definition builtinEvents (kwargs : Kwargs) (l : EventLog) : result string (list Event) :=
  let '(whereFn, rest) := extractWhere kwargs in
  events_loop whereFn (extractEventFilters rest) (events l).

(** *** The search *)

(** The first hit among the families looked at, when the callback does not raise. *)
Lemma search_find whereFn filters evs (P : Event -> bool) :
  (forall ev, assertable ev = true -> ev ∈ evs -> hit whereFn filters ev = Ok (P ev)) ->
  search whereFn filters evs = Ok (List.find (fun ev => assertable ev && P ev) evs).
Proof.
  induction evs as [|ev evs IH]; intros H; [done|]. cbn [search List.find].
  assert (IH' : search whereFn filters evs = Ok (List.find (fun ev => assertable ev && P ev) evs)).
  { apply IH. intros x Ha Hx. apply H; set_solver. }
  destruct (assertable ev) eqn:Ea; cbn [negb andb]; [|exact IH'].
  rewrite (H ev Ea) by set_solver. cbn. by destruct (P ev).
Qed.

(** On the same arguments exactly one of [assert_eventually] and [assert_never] holds, unless the
    callback raises, and then neither does: [assert_eventually] succeeds when an event of the four
    families it looks at satisfies the predicate, [assert_never] when none does.  Positional arguments
    change nothing. *)
Theorem eventually_never_complement (args args' : list Value) (kwargs : Kwargs) (l : EventLog) (P : Event -> bool) :
  let '(whereFn, rest) := extractWhere kwargs in
  (forall ev, assertable ev = true -> ev ∈ events l -> hit whereFn (extractEventFilters rest) ev = Ok (P ev)) ->
  (builtinAssertEventually args kwargs l = Ok tt <-> exists ev, ev ∈ events l /\ assertable ev = true /\ P ev = true) /\
  (builtinAssertNever args' kwargs l = Ok tt <-> forall ev, ev ∈ events l -> assertable ev = true -> P ev = false).
Proof.
  unfold builtinAssertEventually, builtinAssertNever. destruct (extractWhere kwargs) as [whereFn rest].
  intros H. rewrite (search_find _ _ _ P H). destruct (List.find _ (events l)) as [ev|] eqn:E.
  - apply List.find_some in E as [Hin Hev]. apply andb_true_iff in Hev as [Ha Hp]. apply list_elem_of_In in Hin.
    split; [split; [by exists ev|done]|]. split; [done|]. intros Hall. rewrite (Hall ev) in Hp by done. done.
  - pose proof (List.find_none _ _ E) as Hn. cbn in Hn. split; split.
    + by destruct whereFn.
    + intros (ev & Hin & Ha & Hp). apply list_elem_of_In in Hin. specialize (Hn ev Hin). by rewrite Ha, Hp in Hn.
    + intros _ ev Hin Ha. apply list_elem_of_In in Hin. specialize (Hn ev Hin). by rewrite Ha in Hn.
    + done.
Qed.

Lemma eventually_never_complement_witness :
  let l := emit "syscall" "db" {[ "syscall" := "fsync"; "decision" := "deny(EIO)" ]} 1 NewEventLog in
  let kwargs := [("syscall", VString "fsync"); ("decision", VString "deny*")] in
  (builtinAssertEventually [] kwargs l = Ok tt <-> exists ev, ev ∈ events l /\ assertable ev = true /\ true = true) /\
  (builtinAssertNever [] kwargs l = Ok tt <-> forall ev, ev ∈ events l -> assertable ev = true -> true = false).
Proof.
  intros l kwargs. apply (eventually_never_complement [] [] kwargs l (fun _ => true)).
  intros ev Ha Hin. apply list_elem_of_singleton in Hin. subst ev. vm_compute. reflexivity.
Defined.

(** A predicate over another family is never called: [assert_never] holds whatever was logged, and
    [assert_eventually] fails. *)
Lemma other_families_are_invisible args kwargs l : Forall (fun ev => assertable ev = false) (events l) ->
  builtinAssertNever args kwargs l = Ok tt /\ builtinAssertEventually args kwargs l <> Ok tt.
Proof.
  intros H. unfold builtinAssertNever, builtinAssertEventually. destruct (extractWhere kwargs) as [whereFn rest].
  assert (E : search whereFn (extractEventFilters rest) (events l) = Ok None).
  { induction H as [|ev evs Ha _ IH]; [done|]. cbn [search]. by rewrite Ha. }
  rewrite E. split; [done|]. by destruct whereFn.
Qed.

(** A predicate passed by position is ignored: the assertion is then about every event. *)
Lemma positional_predicate_ignored f l : (exists ev, ev ∈ events l /\ assertable ev = true) ->
  builtinAssertNever [VCallable f] [] l <> Ok tt.
Proof.
  intros (ev & Hin & Ha) H. pose proof (search_find None [] (events l) (fun _ => true) ltac:(done)) as E.
  unfold builtinAssertNever in H. cbn [extractWhere extractEventFilters fmap list_fmap] in H. rewrite E in H.
  destruct (List.find _ (events l)) eqn:Ef; [done|]. pose proof (List.find_none _ _ Ef ev) as Hn.
  apply list_elem_of_In in Hin. specialize (Hn Hin). cbn in Hn. by rewrite Ha in Hn.
Qed.

(** *** Order of first occurrences *)

Definition is_syscall (ev : Event) : bool := String.eqb (Type_ ev) "syscall".
(** The first system call that passes the filters, and its number, or [d]. *)
Definition first_hit (fs : list eventFilter) (evs : list Event) : option Event :=
  List.find (fun ev => is_syscall ev && matchesFilters ev fs) evs.
Definition first_seq (fs : list eventFilter) (d : Z) (evs : list Event) : Z :=
  match first_hit fs evs with Some ev => Seq ev | None => d end.

Lemma before_scan_first n first then_ evs a b : numbered n evs -> 0 <= n ->
  before_scan first then_ a b evs =
  (if a <? 0 then first_seq first a evs else a, if b <? 0 then first_seq then_ b evs else b).
Proof.
  revert n a b. induction evs as [|ev evs IH]; intros n a b Hn H0.
  { cbn. by destruct (a <? 0), (b <? 0). }
  destruct Hn as [Hev Hn]. unfold first_seq, first_hit in *. cbn [before_scan List.find]. fold (is_syscall ev).
  destruct (is_syscall ev); cbn [negb andb]; [|apply (IH (n + 1)); [done|lia]]. cbv zeta.
  rewrite (IH (n + 1)) by (done || lia).
  destruct (Z.ltb_spec a 0), (matchesFilters ev first); cbn [andb];
    destruct (Z.ltb_spec b 0), (matchesFilters ev then_); cbn [andb]; repeat case_match; f_equal; lia.
Qed.

(** [assert_before] compares the first system call that passes each filter: it succeeds exactly when
    both exist and the first one's comes earlier in the log. *)
Theorem assert_before_compares_first (ops : list op) (first then_ : list eventFilter) :
  Z.of_nat (length ops) < 2 ^ 63 ->
  builtinAssertBefore first then_ (run ops) = Ok tt <->
  exists i j e f, events (run ops) !! i = Some e /\ events (run ops) !! j = Some f /\ (i < j)%nat /\
    first_hit first (events (run ops)) = Some e /\ first_hit then_ (events (run ops)) = Some f.
Proof.
  intros Hlen. destruct (run_numbered ops Hlen) as [Hn _].
  unfold builtinAssertBefore. rewrite (before_scan_first 1) by (done || lia). change (-1 <? 0) with true. cbv iota.
  unfold first_seq.
  assert (Hat : forall fs e, first_hit fs (events (run ops)) = Some e ->
    exists i, events (run ops) !! i = Some e /\ Seq e = 1 + Z.of_nat i).
  { intros fs e [Hin _]%List.find_some. apply list_elem_of_In, list_elem_of_lookup in Hin as (i & Hi).
    exists i. split; [done|]. by apply (numbered_lookup 1 (events (run ops))). }
  destruct (first_hit first (events (run ops))) as [e|] eqn:E1.
  2: { cbn. split; [done|]. naive_solver. }
  destruct (Hat _ _ E1) as (i & Hi & Si). rewrite (proj2 (Z.ltb_ge (Seq e) 0)) by lia.
  destruct (first_hit then_ (events (run ops))) as [f|] eqn:E2.
  2: { cbn. split; [done|]. naive_solver. }
  destruct (Hat _ _ E2) as (j & Hj & Sj). rewrite (proj2 (Z.ltb_ge (Seq f) 0)) by lia.
  destruct (Z.leb_spec (Seq f) (Seq e)) as [Hle|Hlt].
  - split; [done|]. intros (i' & j' & e' & f' & Hi' & Hj' & Hlt & E1' & E2').
    injection E1' as <-. injection E2' as <-.
    rewrite (numbered_lookup _ _ _ _ Hn Hi'), (numbered_lookup _ _ _ _ Hn Hj') in Hle. lia.
  - split; [|done]. intros _. exists i, j, e, f. repeat (split; [done||lia|]). done.
Qed.

Lemma assert_before_compares_first_witness :
  let ops := [OEmit "syscall" "db" {[ "syscall" := "write" ]} 1; OEmit "syscall" "db" {[ "syscall" := "fsync" ]} 2] in
  builtinAssertBefore [mkFilter "syscall" "write"] [mkFilter "syscall" "fsync"] (run ops) = Ok tt <->
  exists i j e f, events (run ops) !! i = Some e /\ events (run ops) !! j = Some f /\ (i < j)%nat /\
    first_hit [mkFilter "syscall" "write"] (events (run ops)) = Some e /\
    first_hit [mkFilter "syscall" "fsync"] (events (run ops)) = Some f.
Proof. intros ops. apply (assert_before_compares_first ops). vm_compute. reflexivity. Defined.

End Assertions.

(** ** Subscriptions *)
Module Subscribers.
Import EventLog Assertions.

(** A subscription; the callback is named by a number. *)
Record Subscriber := mkSub { ID : Z; Filters : list eventFilter; OnEvent : nat }.

Record State := mkState { subscribers : list Subscriber; nextSubID : Z }.

Definition Subscribe (filters : list eventFilter) (fn : nat) (s : State) : Z * State :=
  let id := i64 (nextSubID s + 1) in
  (id, mkState (subscribers s ++ [mkSub id filters fn]) id).

Fixpoint remove_first (id : Z) (l : list Subscriber) : list Subscriber :=
  match l with
  | [] => []
  | s :: l => if ID s =? id then l else s :: remove_first id l
  end.

Definition Unsubscribe (id : Z) (s : State) : State := mkState (remove_first id (subscribers s)) (nextSubID s).
Definition ClearSubscribers (s : State) : State := mkState [] (nextSubID s).

(** The callbacks that an emitted event is dispatched to, in order. *)
Definition dispatch (ev : Event) (s : State) : list (Z * nat) :=
  (fun b => (ID b, OnEvent b)) <$> List.filter (fun b => matchesFilters ev (Filters b)) (subscribers s).

Inductive sop := OSubscribe (filters : list eventFilter) (fn : nat) | OUnsubscribe (id : Z) | OClear.

Definition step (s : State) (o : sop) : State :=
  match o with
  | OSubscribe filters fn => (Subscribe filters fn s).2
  | OUnsubscribe id => Unsubscribe id s
  | OClear => ClearSubscribers s
  end.
Definition steps (os : list sop) : State := foldl step (mkState [] 0) os.

(** What is registered after the operations, the subscriptions being numbered from 1. *)
Definition register (r : gmap Z (list eventFilter * nat) * Z) (o : sop) : gmap Z (list eventFilter * nat) * Z :=
  match o with
  | OSubscribe filters fn => (<[r.2 + 1 := (filters, fn)]> r.1, r.2 + 1)
  | OUnsubscribe id => (delete id r.1, r.2)
  | OClear => (∅, r.2)
  end.
Definition registered (os : list sop) : gmap Z (list eventFilter * nat) * Z := foldl register (∅, 0) os.

(** Identifiers increase along the list and were handed out. *)
Definition well_formed (s : State) : Prop :=
  NoDup (ID <$> subscribers s) /\ Forall (fun b => 0 < ID b <= nextSubID s) (subscribers s) /\ 0 <= nextSubID s.

Definition represents (s : State) (r : gmap Z (list eventFilter * nat) * Z) : Prop :=
  nextSubID s = r.2 /\
  forall b, b ∈ subscribers s <-> r.1 !! ID b = Some (Filters b, OnEvent b).

Lemma elem_remove_first id l b : NoDup (ID <$> l) -> b ∈ remove_first id l <-> b ∈ l /\ ID b <> id.
Proof.
  induction l as [|x l IH]; cbn [remove_first fmap list_fmap]; [set_solver|]. intros [Hx Hl]%NoDup_cons.
  destruct (Z.eqb_spec (ID x) id) as [<-|Hne].
  - split; [|set_solver]. intros Hb. split; [set_solver|]. intros E. destruct Hx. rewrite <- E. by apply list_elem_of_fmap_2.
  - rewrite !elem_of_cons, IH by done. naive_solver.
Qed.

Lemma map_sublist {A B} (f : A -> B) l1 l2 : l1 `sublist_of` l2 -> (f <$> l1) `sublist_of` (f <$> l2).
Proof. induction 1; cbn; by constructor. Qed.

Lemma remove_first_sublist id l : remove_first id l `sublist_of` l.
Proof. induction l as [|x l IH]; [done|]. cbn. destruct (_ =? _); by constructor. Qed.

Lemma steps_inv os : Z.of_nat (length os) < 2 ^ 63 ->
  well_formed (steps os) /\ represents (steps os) (registered os) /\ nextSubID (steps os) <= Z.of_nat (length os).
Proof.
  induction os as [|o os IH] using rev_ind.
  { intros _. split; [split; [constructor|by split; [constructor|]]|]. split; [split; [done|]|done].
    intros b. cbn. rewrite lookup_empty. set_solver. }
  rewrite length_app. cbn [length]. intros Hlen. destruct IH as ((Hnd & Hf & H0) & (Hnext & Hrep) & Hle); [lia|].
  unfold steps, registered in *. rewrite !foldl_app. cbn [foldl]. set (s := foldl step _ os) in *. set (r := foldl register _ os) in *.
  destruct o as [filters fn|id|]; cbn [step register].
  - unfold Subscribe. cbn [snd]. rewrite wrap_s_small by lia. unfold well_formed, represents. cbn [subscribers nextSubID fst snd].
    split; [split; [|split; [|lia]]|split; [split; [lia|]|lia]].
    + rewrite fmap_app. cbn. apply NoDup_app. split; [done|]. split; [|apply NoDup_singleton].
      intros x (b & -> & Hb)%list_elem_of_fmap E%list_elem_of_singleton. rewrite Forall_forall in Hf. specialize (Hf b Hb). lia.
    + apply Forall_app. split; [eapply Forall_impl; [exact Hf|]; intros b Hb; cbn in *; lia|].
      constructor; [cbn; lia|constructor].
    + intros b. rewrite elem_of_app, list_elem_of_singleton, Hrep, <- Hnext. destruct (decide (ID b = nextSubID s + 1)) as [E|E].
      * rewrite E, lookup_insert_eq. split; [|intros [= E1 E2]; right; destruct b; cbn in *; congruence].
        intros [Hb| ->]; [|done]. rewrite <- E, <- Hrep in Hb. rewrite Forall_forall in Hf. specialize (Hf b Hb). lia.
      * rewrite lookup_insert_ne by done. split; [|naive_solver]. intros [Hb| ->]; [done|]. done.
  - unfold Unsubscribe, well_formed, represents. cbn [subscribers nextSubID fst snd].
    pose proof (remove_first_sublist id (subscribers s)) as Hsub.
    split; [split; [|split; [|done]]|split; [split; [done|]|lia]].
    + eapply sublist_NoDup; [exact Hnd|by apply map_sublist].
    + rewrite Forall_forall in *. intros b [Hb _]%elem_remove_first; auto.
    + intros b. rewrite elem_remove_first, Hrep by done. rewrite lookup_delete_Some. naive_solver.
  - split; [split; [constructor|by split; [constructor|]]|]. split; [split; [done|]|cbn; lia].
    intros b. cbn. rewrite lookup_empty. set_solver.
Qed.

(** Through any sequence of subscriptions and cancellations the identifiers stay distinct and below
    the counter, and an event is dispatched exactly once to each subscription that is registered and
    whose filters it passes, and to no other. *)
Theorem subscribers_well_formed (os : list sop) (ev : Event) :
  Z.of_nat (length os) < 2 ^ 63 ->
  well_formed (steps os) /\ NoDup (dispatch ev (steps os)).*1 /\
  forall id fn, (id, fn) ∈ dispatch ev (steps os) <->
    exists filters, (registered os).1 !! id = Some (filters, fn) /\ matchesFilters ev filters = true.
Proof.
  intros Hlen. destruct (steps_inv os Hlen) as (Hwf & (_ & Hrep) & _). split; [done|].
  unfold dispatch. split.
  - rewrite <- list_fmap_compose. destruct Hwf as (Hnd & _).
    eapply sublist_NoDup; [exact Hnd|]. apply map_sublist.
    clear Hrep Hnd. induction (subscribers (steps os)) as [|b l IH]; [done|]. cbn.
    destruct (matchesFilters ev _); by constructor.
  - intros id fn. rewrite list_elem_of_fmap. split.
    + intros (b & [= -> ->] & Hb). apply list_elem_of_In, List.filter_In in Hb as [Hb Hm].
      apply list_elem_of_In, Hrep in Hb. by exists (Filters b).
    + intros (filters & Hr & Hm). exists (mkSub id filters fn). split; [done|].
      apply list_elem_of_In, List.filter_In. split; [|done]. by apply list_elem_of_In, Hrep.
Qed.

Lemma subscribers_well_formed_witness :
  let os := [OSubscribe [mkFilter "service" "db"] 0; OSubscribe [] 1; OUnsubscribe 1] in
  let ev := mkEvent 1 0 "syscall" "syscall" "db" "db" ∅ ∅ in
  well_formed (steps os) /\ NoDup (dispatch ev (steps os)).*1 /\
  forall id fn, (id, fn) ∈ dispatch ev (steps os) <->
    exists filters, (registered os).1 !! id = Some (filters, fn) /\ matchesFilters ev filters = true.
Proof. intros os ev. apply (subscribers_well_formed os ev). vm_compute. reflexivity. Defined.

End Subscribers.
