(* ===== verification/ProxyCore.v ===== *)
(** * Protocol proxies: rules, connections and lifecycle events
    ([internal/proxy/proxy.go], [internal/proxy/observability.go])

    [Rules] holds the fault rules and their glob matching.  [Net] is the setting
    of a connection handler: the two connections as byte streams, the random
    draws, the delays and the events, in a state monad whose outcomes are a value,
    the end of the handler with its close reason, waiting for more bytes, and a
    Go panic.  [Observe] has the connection trackers and the events they emit. *)

From Stdlib Require Import ZArith Lia Ascii SpecFloat.
From S2P Require Import Prelude GoStd GoText.
From stdpp Require Import base gmap strings numbers list.
Local Open Scope Z_scope.
Import GoStd GoText.

Module Rules.

Inductive Action := ActionRespond | ActionError | ActionDelay | ActionDrop | ActionDuplicate.

#[export] Instance Action_eq_dec : EqDecision Action.
Proof. solve_decision. Defined.

Record Rule := mkRule {
  Method : string; Path : string; Query : string; Key : string; Topic : string; Command : string;
  RuleAction : Action; Status : Z; Body : string; ErrorMsg : string; Delay : Z; Prob : float64 }.

(** The prefix and suffix fallback of a pattern with a star. *)
Definition star_fallback (actual pattern : string) : bool :=
  if has_suffix "*" pattern then has_prefix (trim_suffix pattern "*") actual
  else if has_prefix "*" pattern then has_suffix (trim_prefix pattern "*") actual
  else false.

Definition matchGlob (actual pattern : string) : bool :=
  if String.eqb pattern "" then true
  else if contains "*" pattern then
    match FilePath.Match pattern actual with
    | Some true => true
    | _ => star_fallback actual pattern
    end
  else equal_fold actual pattern.

(** A criterion that is set must match. *)
Definition criterion (actual pattern : string) : bool :=
  String.eqb pattern "" || matchGlob actual pattern.

Definition MatchRequest (r : Rule) (method path query key topic command : string) : bool :=
  criterion method (Method r) && criterion path (Path r) && criterion query (Query r) &&
  criterion key (Key r) && criterion topic (Topic r) && criterion command (Command r).

Record ProxyEvent := mkEvent {
  EvType : string; Protocol : string; EvAction : string; To : string; EvFields : gmap string string }.

(** *** What the glob matcher accepts *)

(** A pattern without the characters that [filepath.Match] interprets. *)
Definition plain_char (c : ascii) : bool :=
  negb (Ascii.eqb c "*" || Ascii.eqb c "?" || Ascii.eqb c "[" || Ascii.eqb c "\").
Definition plain (s : string) : bool := sall plain_char s.

Lemma criterion_matchGlob actual pattern : criterion actual pattern = matchGlob actual pattern.
Proof. unfold criterion, matchGlob. by destruct (String.eqb pattern ""). Qed.

Lemma has_prefix_cons c p d s : has_prefix (String c p) (String d s) = Ascii.eqb c d && has_prefix p s.
Proof.
  unfold has_prefix. simpl String.prefix at 1. destruct (ascii_dec c d) as [<-|Hne].
  - by rewrite Ascii.eqb_refl.
  - apply Ascii.eqb_neq in Hne. by rewrite Hne.
Qed.

Lemma has_prefix_nil s : has_prefix "" s = true.
Proof. by destruct s. Qed.

Lemma contains_star_app a b : contains "*" (a +:+ String "*" b) = true.
Proof.
  induction a as [|c a IH]; [by destruct b|].
  rewrite string_app_cons. cbn [contains]. rewrite IH. apply orb_true_r.
Qed.

Lemma plain_cons c s : plain (String c s) = true ->
  plain s = true /\ Ascii.eqb c "*" = false /\ Ascii.eqb c "?" = false /\
  Ascii.eqb c "[" = false /\ Ascii.eqb c "\" = false.
Proof.
  unfold plain. cbn [sall]. rewrite andb_true_iff. intros [Hc Hs]. unfold plain_char in Hc.
  rewrite negb_true_iff, !orb_false_iff in Hc. naive_solver.
Qed.

Lemma contains_star_plain s : plain s = true -> contains "*" s = false.
Proof.
  induction s as [|c s IH]; [done|]. intros (Hs & Hc & _)%plain_cons.
  cbn [contains]. rewrite has_prefix_cons, IH by done. by rewrite Ascii.eqb_sym, Hc.
Qed.

Lemma has_suffix_app a b : has_suffix b (a +:+ b) = true.
Proof.
  unfold has_suffix. rewrite slen_app, Nat.add_sub, sdrop_app, String.eqb_refl.
  rewrite andb_true_r. apply Nat.leb_le. lia.
Qed.

Lemma has_suffix_iff p s : has_suffix p s = true <-> exists r, s = r +:+ p.
Proof.
  split; [|intros [r ->]; apply has_suffix_app].
  unfold has_suffix. rewrite andb_true_iff, String.eqb_eq. intros [_ E].
  exists (stake (slen s - slen p) s). by rewrite <- E at 2; rewrite stake_sdrop.
Qed.

Lemma substring_stake n s : String.substring 0 n s = stake n s.
Proof. revert s; induction n as [|n IH]; intros [|c s]; cbn; try done. by rewrite IH. Qed.

Lemma trim_suffix_app a b : trim_suffix (a +:+ b) b = a.
Proof.
  unfold trim_suffix, cut_suffix. rewrite has_suffix_app. cbn.
  by rewrite slen_app, Nat.add_sub, substring_stake, stake_app.
Qed.

Lemma has_prefix_iff p s : has_prefix p s = true <-> exists r, s = p +:+ r.
Proof.
  split; [|intros [r ->]; apply has_prefix_app].
  revert s; induction p as [|c p IH]; intros s; [by exists s|].
  destruct s as [|d s]; [done|]. rewrite has_prefix_cons, andb_true_iff, Ascii.eqb_eq.
  intros [<- [r ->]%IH]. exists r. by rewrite string_app_cons.
Qed.

(** *** The library matcher on plain text and a star *)

Lemma chunk_end_plain a b : plain a = true ->
  FilePath.chunk_end (a +:+ String "*" b) false = (a, String "*" b) /\
  FilePath.chunk_end a false = (a, "").
Proof.
  induction a as [|c a IH]; [done|]. intros (Ha & H1 & H2 & H3 & H4)%plain_cons.
  destruct (IH Ha) as [E1 E2].
  rewrite string_app_cons. cbn [FilePath.chunk_end]. rewrite H4, H1, H3. cbn [andb].
  destruct (Ascii.eqb c "]"); by rewrite E1, E2.
Qed.

Lemma match_chunk_plain a : plain a = true -> forall fuel s, (slen a < fuel)%nat ->
  FilePath.match_chunk fuel a s false =
  Some (if has_prefix a s then Some (sdrop (slen a) s) else None) /\
  FilePath.match_chunk fuel a s true = Some None.
Proof.
  induction a as [|c a IH]; intros Ha fuel s Hf; (destruct fuel as [|fuel]; [cbn in Hf; lia|]).
  { cbn [FilePath.match_chunk]. by rewrite has_prefix_nil, sdrop_0. }
  apply plain_cons in Ha as (Ha & H1 & H2 & H3 & H4). cbn in Hf.
  split; cbn [FilePath.match_chunk]; rewrite H3, H2, H4; cbn [orb].
  - destruct s as [|d s]; cbn [orb].
    + by destruct (IH Ha fuel "" ltac:(lia)) as [_ ->].
    + destruct (IH Ha fuel s ltac:(lia)) as [E1 E2]. rewrite has_prefix_cons.
      destruct (Ascii.eqb c d); [apply E1|apply E2].
  - by destruct (IH Ha fuel s ltac:(lia)) as [_ ->].
Qed.

Lemma matchChunk_plain a s : plain a = true ->
  FilePath.matchChunk a s = Some (if has_prefix a s then Some (sdrop (slen a) s) else None).
Proof. intros Ha. by apply match_chunk_plain; [|lia]. Qed.

Lemma skip_stars_plain a b : plain a = true -> a <> "" -> FilePath.skip_stars (a +:+ b) = a +:+ b.
Proof.
  destruct a as [|c a]; [done|]. intros (_ & H & _)%plain_cons _.
  rewrite string_app_cons. cbn. by rewrite H.
Qed.

Lemma Match_prefix_sound a s : plain a = true -> a <> "" ->
  FilePath.Match (a +:+ "*") s = Some true -> has_prefix a s = true.
Proof.
  intros Ha Hne. unfold FilePath.Match. cbn [FilePath.match_from].
  assert (E : FilePath.scanChunk (a +:+ "*") = (false, a, "*")).
  { unfold FilePath.scanChunk. rewrite skip_stars_plain by done.
    rewrite (proj1 (chunk_end_plain a "" Ha)). destruct a as [|c a]; [done|].
    apply plain_cons in Ha as (_ & H & _). rewrite string_app_cons. by rewrite H. }
  rewrite E. cbn [andb]. rewrite matchChunk_plain by done.
  destruct (has_prefix a s); [done|]. destruct a as [|c a]; [done|].
  rewrite string_app_cons. by destruct (FilePath.well_formed _ _).
Qed.

Lemma star_search_sound a s t : plain a = true ->
  FilePath.star_search a s true = Some (Some t) -> t = "" /\ has_suffix a s = true.
Proof.
  intros Ha. induction s as [|c s IH]; [done|]. cbn [FilePath.star_search].
  destruct (Ascii.eqb c FilePath.Sep); [done|]. rewrite matchChunk_plain by done.
  assert (Hcons : forall u, has_suffix a s = true -> u = "" -> u = "" /\ has_suffix a (String c s) = true).
  { intros u [r ->]%has_suffix_iff ->. split; [done|]. apply has_suffix_iff. exists (String c r).
    by rewrite string_app_cons. }
  destruct (has_prefix a s) eqn:Hp; [|intros [-> ?]%IH; by apply Hcons].
  destruct (String.eqb_spec (sdrop (slen a) s) "") as [E|Hn]; cbn; [|intros [-> ?]%IH; by apply Hcons].
  intros [= <-]. apply Hcons; [|done]. apply has_prefix_iff in Hp as [r ->].
  rewrite sdrop_app in E. subst r. rewrite string_app_nil. apply has_suffix_iff. by exists "".
Qed.

Lemma Match_suffix_sound a s : plain a = true -> a <> "" ->
  FilePath.Match (String "*" a) s = Some true -> has_suffix a s = true.
Proof.
  intros Ha Hne. unfold FilePath.Match. cbn [FilePath.match_from slen].
  assert (E : FilePath.scanChunk (String "*" a) = (true, a, "")).
  { unfold FilePath.scanChunk. cbn [FilePath.skip_stars]. rewrite Ascii.eqb_refl.
    rewrite <- (string_app_nil a) at 1. rewrite skip_stars_plain, string_app_nil by done.
    by rewrite (proj2 (chunk_end_plain a "" Ha)). }
  rewrite E. destruct (String.eqb_spec a "") as [|_]; [done|]. cbn [andb].
  rewrite matchChunk_plain by done. cbn [String.eqb negb orb].
  pose proof (star_search_sound a s) as Hs.
  assert (Hsearch : match FilePath.star_search a s true with
                    | Some (Some t) => Some (String.eqb t "")
                    | Some None => Some false
                    | None => None
                    end = Some true -> has_suffix a s = true).
  { destruct (FilePath.star_search a s true) as [[t|]|]; try done. by destruct (Hs t Ha eq_refl). }
  destruct (has_prefix a s) eqn:Hp; [|apply Hsearch].
  destruct (String.eqb_spec (sdrop (slen a) s) "") as [E'|]; cbn [orb]; [|apply Hsearch].
  intros _. apply has_prefix_iff in Hp as [r ->]. rewrite sdrop_app in E'. subst r.
  apply has_suffix_iff. exists "". by rewrite string_app_nil.
Qed.

Lemma plain_not_star_suffix a : plain a = true -> a <> "" -> has_suffix "*" (String "*" a) = false.
Proof.
  intros Ha Hne. apply not_true_iff_false. intros [r E]%has_suffix_iff. destruct r as [|c r].
  { injection E. intros ->. done. }
  rewrite string_app_cons in E. injection E as _ ->.
  pose proof (contains_star_app r "") as H. by rewrite contains_star_plain in H.
Qed.

(** A pattern of plain text with one star at its end is a prefix test, with one star at its front
    a suffix test, both case-sensitive; without a star it is an equality that ignores case. *)
Lemma matchGlob_plain (a s : string) : plain a = true -> a <> "" ->
  matchGlob s (a +:+ "*") = has_prefix a s /\
  matchGlob s ("*" +:+ a) = has_suffix a s /\
  matchGlob s a = equal_fold s a.
Proof.
  intros Ha Hne. unfold matchGlob. split_and!.
  - rewrite contains_star_app. unfold star_fallback. rewrite has_suffix_app, trim_suffix_app.
    destruct (String.eqb_spec (a +:+ "*") ""); [by destruct a|].
    pose proof (Match_prefix_sound a s Ha Hne) as H.
    destruct (FilePath.Match _ s) as [[]|]; [by rewrite H|done..].
  - change ("*" +:+ a) with (String "*" a). unfold star_fallback.
    rewrite plain_not_star_suffix by done.
    rewrite (contains_star_app "" a : contains "*" (String "*" a) = true).
    pose proof (Match_suffix_sound a s Ha Hne) as H. cbn [String.eqb].
    replace (trim_prefix (String "*" a) "*") with a by (symmetry; apply (trim_prefix_app "*" a)).
    rewrite has_prefix_cons, has_prefix_nil.
    destruct (FilePath.Match _ s) as [[]|]; [by rewrite H|done..].
  - rewrite contains_star_plain by done. by destruct (String.eqb_spec a "").
Qed.

End Rules.

Module Net.
Import Rules.

(** ** Connections and the world of a handler *)

(** The two connections of a handler. *)
Inductive Side := Client | Server.

(** One connection: the bytes that arrived and were not read, how many of them a buffered reader
    already holds, whether the peer closed its half, the bytes written, whether this side closed it,
    and whether writes fail. *)
Record Conn := mkConn {
  unread : string; ahead : nat; peer_closed : bool; written : string; shut : bool; broken : bool }.

Inductive IOErr := EOF | UnexpectedEOF | ErrClosed | ErrOther (msg : string).

(** The state of one handler: the connections, the results of [rand.Float64], [time.Since] and
    [ctx.Done] in the order they are asked for, the delays slept, the events, and the connection
    tracker's counters. *)
Record IO := mkIO {
  client : Conn; server : Conn;
  floats : nat -> float64; drawn : nat;
  sinces : nat -> Z; asked : nat;
  cancels : nat -> bool; polled : nat;
  slept : list Z; emitted : list ProxyEvent;
  handshakeDone : bool; bytesC2S : Z; bytesS2C : Z }.

(** The handler returned a value; it returned from [handleConn] with a close reason; it waits for
    bytes; it panicked.  [OutOfFuel] is the model's own outcome of a recursion that was given too
    little fuel. *)
Inductive res (A : Type) := Val (a : A) | Exit (reason : string) | Block (s : Side) | Panic | OutOfFuel.
Arguments Val {A} a.
Arguments Exit {A} reason.
Arguments Block {A} s.
Arguments Panic {A}.
Arguments OutOfFuel {A}.

Definition M (A : Type) : Type := IO -> res A * IO.

#[export] Instance M_ret : MRet M := fun A a io => (Val a, io).
#[export] Instance M_bind : MBind M := fun A B k m io =>
  match m io with
  | (Val a, io) => k a io
  | (Exit r, io) => (Exit r, io)
  | (Block s, io) => (Block s, io)
  | (Panic, io) => (Panic, io)
  | (OutOfFuel, io) => (OutOfFuel, io)
  end.

Definition exit {A} (reason : string) : M A := fun io => (Exit reason, io).
Definition panic {A} : M A := fun io => (Panic, io).
Definition out_of_fuel {A} : M A := fun io => (OutOfFuel, io).

Definition conn (s : Side) (io : IO) : Conn := match s with Client => client io | Server => server io end.
Definition set_conn (s : Side) (c : Conn) (io : IO) : IO :=
  match s with
  | Client => mkIO c (server io) (floats io) (drawn io) (sinces io) (asked io) (cancels io) (polled io)
                (slept io) (emitted io) (handshakeDone io) (bytesC2S io) (bytesS2C io)
  | Server => mkIO (client io) c (floats io) (drawn io) (sinces io) (asked io) (cancels io) (polled io)
                (slept io) (emitted io) (handshakeDone io) (bytesC2S io) (bytesS2C io)
  end.

Definition set_unread (s : Side) (u : string) (io : IO) : IO :=
  let c := conn s io in set_conn s (mkConn u (ahead c) (peer_closed c) (written c) (shut c) (broken c)) io.
Definition wrote (s : Side) (b : string) (io : IO) : IO :=
  let c := conn s io in
  set_conn s (mkConn (unread c) (ahead c) (peer_closed c) (written c +:+ b) (shut c) (broken c)) io.

(** ** The operations of the standard library *)

(** [io.ReadFull] on a buffer of [n] bytes. *)
Definition read_full (s : Side) (n : nat) : M (result IOErr string) := fun io =>
  let c := conn s io in
  if (n <=? slen (unread c))%nat then (Val (Ok (stake n (unread c))), set_unread s (sdrop n (unread c)) io)
  else if shut c then (Val (Err ErrClosed), set_unread s "" io)
  else if peer_closed c then
    (Val (Err (if String.eqb (unread c) "" then EOF else UnexpectedEOF)), set_unread s "" io)
  else (Block s, io).

Fixpoint zeros (n : nat) : string := match n with O => EmptyString | S n => String NUL (zeros n) end.

(** The buffer after [io.ReadFull] whose error is ignored: what was not filled stays zero. *)
Definition read_fill (s : Side) (n : nat) : M string := fun io =>
  let c := conn s io in
  if (n <=? slen (unread c))%nat then (Val (stake n (unread c)), set_unread s (sdrop n (unread c)) io)
  else if shut c || peer_closed c then
    (Val (unread c +:+ zeros (n - slen (unread c))), set_unread s "" io)
  else (Block s, io).

(** The bytes up to and with the first line feed. *)
Fixpoint line_split (s : string) : option (string * string) :=
  match s with
  | EmptyString => None
  | String c r =>
      if Ascii.eqb c LF then Some (String c EmptyString, r)
      else match line_split r with Some (l, t) => Some (String c l, t) | None => None end
  end.

(** [ReadString] and [ReadBytes] with a line feed.  The partial line of an error is not used by the
    callers. *)
Definition read_line (s : Side) : M (result IOErr string) := fun io =>
  let c := conn s io in
  match line_split (unread c) with
  | Some (l, t) => (Val (Ok l), set_unread s t io)
  | None =>
      if shut c then (Val (Err ErrClosed), set_unread s "" io)
      else if peer_closed c then (Val (Err EOF), set_unread s "" io)
      else (Block s, io)
  end.

(** [ReadBytes] where the caller uses the partial line of an error. *)
Definition read_bytes (s : Side) : M (string * option IOErr) := fun io =>
  let c := conn s io in
  match line_split (unread c) with
  | Some (l, t) => (Val (l, None), set_unread s t io)
  | None =>
      if shut c then (Val (unread c, Some ErrClosed), set_unread s "" io)
      else if peer_closed c then (Val (unread c, Some EOF), set_unread s "" io)
      else (Block s, io)
  end.

(** [Write]: the error, if any. *)
Definition write (s : Side) (b : string) : M (option IOErr) := fun io =>
  let c := conn s io in
  if shut c then (Val (Some ErrClosed), io)
  else if broken c then (Val (Some (ErrOther "write: broken pipe")), io)
  else (Val None, wrote s b io).

(** [conn.Close()]: the unread bytes are lost but for those a buffered reader holds. *)
Definition close (s : Side) : M unit := fun io =>
  let c := conn s io in
  (Val tt, set_conn s (mkConn (stake (ahead c) (unread c)) (ahead c) (peer_closed c) (written c) true (broken c)) io).

Definition max_alloc : Z := 2 ^ 48.

(** [make] of [n] elements of a size: a length that is negative or too large panics. *)
Definition make (size n : Z) : M unit :=
  if (n <? 0) || (max_alloc <? n * size) then panic else mret tt.

Definition Float64 : M float64 := fun io =>
  (Val (floats io (drawn io)),
   mkIO (client io) (server io) (floats io) (S (drawn io)) (sinces io) (asked io) (cancels io)
     (polled io) (slept io) (emitted io) (handshakeDone io) (bytesC2S io) (bytesS2C io)).

Definition Sleep (d : Z) : M unit := fun io =>
  (Val tt,
   mkIO (client io) (server io) (floats io) (drawn io) (sinces io) (asked io) (cancels io)
     (polled io) (slept io ++ [d]) (emitted io) (handshakeDone io) (bytesC2S io) (bytesS2C io)).

Definition Since : M Z := fun io =>
  (Val (sinces io (asked io)),
   mkIO (client io) (server io) (floats io) (drawn io) (sinces io) (S (asked io)) (cancels io)
     (polled io) (slept io) (emitted io) (handshakeDone io) (bytesC2S io) (bytesS2C io)).

(** The poll of [ctx.Done()] at the head of a loop. *)
Definition ctx_done : M bool := fun io =>
  (Val (cancels io (polled io)),
   mkIO (client io) (server io) (floats io) (drawn io) (sinces io) (asked io) (cancels io)
     (S (polled io)) (slept io) (emitted io) (handshakeDone io) (bytesC2S io) (bytesS2C io)).

Definition logged (e : ProxyEvent) (io : IO) : IO :=
  mkIO (client io) (server io) (floats io) (drawn io) (sinces io) (asked io) (cancels io)
    (polled io) (slept io) (emitted io ++ [e]) (handshakeDone io) (bytesC2S io) (bytesS2C io).

(** A result or the end of the handler. *)
Definition or_exit {A} (reason : IOErr -> string) (m : M (result IOErr A)) : M A :=
  r ← m; match r with Ok a => mret a | Err e => exit (reason e) end.
Definition write_or_exit (reason : IOErr -> string) (s : Side) (b : string) : M unit :=
  e ← write s b; match e with None => mret tt | Some e => exit (reason e) end.

(** Sequencing that stops at an error value. *)
Definition and_then {A B} (m : M (result IOErr A)) (k : A -> M (result IOErr B)) : M (result IOErr B) :=
  r ← m; match r with Ok a => k a | Err e => mret (Err e) end.

(** An error wrapped with a prefix is no longer the end of file or closed connection it was. *)
Definition wrapped {A} (what : string) (m : M (result IOErr A)) : M (result IOErr A) :=
  r ← m; mret (match r with Ok a => Ok a | Err _ => Err (ErrOther what) end).

(** *** The rule loop every handler runs on a request *)

(** [rule.Prob > 0 && rand.Float64() > rule.Prob]: the number is drawn only for a positive
    probability. *)
Definition skipped (r : Rule) : M bool :=
  if f64_gt (Prob r) f64_0 then x ← Float64; mret (f64_gt x (Prob r)) else mret false.

Definition pause (r : Rule) : M unit := if 0 <? Delay r then Sleep (Delay r) else mret tt.

(** The rules in order: one that matches and passes its draw sleeps and acts, and the loop goes on
    unless the action settled the request. *)
Fixpoint rule_loop {A} (matches : Rule -> bool) (act : Rule -> M (option A)) (rules : list Rule)
    : M (option A) :=
  match rules with
  | [] => mret None
  | r :: rest =>
      if negb (matches r) then rule_loop matches act rest
      else
        skip ← skipped r;
        if skip : bool then rule_loop matches act rest
        else
          pause r ;;
          o ← act r;
          match o with Some a => mret (Some a) | None => rule_loop matches act rest end
  end.

(** A loop of a handler, for at most so many rounds. *)
Fixpoint rounds {S} (fuel : nat) (body : S -> M S) (s : S) : M S :=
  match fuel with O => mret s | Datatypes.S fuel => s ← body s; rounds fuel body s end.

(** *** The rule a request meets *)

Definition set_drawn (k : nat) (io : IO) : IO :=
  mkIO (client io) (server io) (floats io) k (sinces io) (asked io) (cancels io)
    (polled io) (slept io) (emitted io) (handshakeDone io) (bytesC2S io) (bytesS2C io).

(** The first rule that matches and passes its draw, the rules after it, and the draws used. *)
Fixpoint picks (fl : nat -> float64) (k : nat) (matches : Rule -> bool) (rules : list Rule)
    : option (Rule * list Rule) * nat :=
  match rules with
  | [] => (None, k)
  | r :: rest =>
      if negb (matches r) then picks fl k matches rest
      else if f64_gt (Prob r) f64_0 then
        if f64_gt (fl k) (Prob r) then picks fl (S k) matches rest else (Some (r, rest), S k)
      else (Some (r, rest), k)
  end.

Lemma set_drawn_same io : set_drawn (drawn io) io = io.
Proof. by destruct io. Qed.

(** The loop is the rule picked, its delay and action, and the loop on the rules after it. *)
Lemma rule_loop_picks {A} matches (act : Rule -> M (option A)) rules io :
  rule_loop matches act rules io =
  match picks (floats io) (drawn io) matches rules with
  | (None, k) => (Val None, set_drawn k io)
  | (Some (r, rest), k) =>
      (pause r ;; o ← act r;
       match o with Some a => mret (Some a) | None => rule_loop matches act rest end) (set_drawn k io)
  end.
Proof.
  revert io. induction rules as [|r rest IH]; intros io; cbn [rule_loop picks].
  - by rewrite set_drawn_same.
  - destruct (matches r); cbn [negb]; [|apply IH]. unfold skipped.
    destruct (f64_gt (Prob r) f64_0).
    + unfold mbind at 1, M_bind at 1, mbind at 1, M_bind at 1, Float64 at 1. cbn.
      destruct (f64_gt (floats io (drawn io)) (Prob r)); [|done]. rewrite IH. by destruct io.
    + cbn. by rewrite set_drawn_same.
Qed.

(** Rules none of which matches are not there. *)
Lemma picks_none fl k matches rules :
  Forall (fun r => matches r = false) rules -> picks fl k matches rules = (None, k).
Proof. induction 1 as [|r rest Hr _ IH]; [done|]. cbn. by rewrite Hr. Qed.

(** A rule without a probability that matches is met before every later rule. *)
Lemma picks_first fl k matches pre r rest :
  Forall (fun r => matches r = false) pre -> matches r = true -> f64_gt (Prob r) f64_0 = false ->
  picks fl k matches (pre ++ r :: rest) = (Some (r, rest), k).
Proof.
  intros Hpre Hr Hp.
  induction Hpre as [|p pre Hn _ IH]; cbn [app picks]; [by rewrite Hr, Hp|by rewrite Hn].
Qed.

(** *** Running a sequence *)

Lemma bind_val {A B} (m : M A) (k : A -> M B) io a io' :
  m io = (Val a, io') -> (x ← m; k x) io = k a io'.
Proof. intros E. unfold mbind, M_bind. by rewrite E. Qed.

Lemma and_then_ok {A B} (m : M (result IOErr A)) (k : A -> M (result IOErr B)) io a io' :
  m io = (Val (Ok a), io') -> and_then m k io = k a io'.
Proof. intros E. unfold and_then. by erewrite bind_val by exact E. Qed.

Lemma wrapped_ok {A} what (m : M (result IOErr A)) io a io' :
  m io = (Val (Ok a), io') -> wrapped what m io = (Val (Ok a), io').
Proof. intros E. unfold wrapped. by erewrite bind_val by exact E. Qed.

Lemma or_exit_ok {A} reason (m : M (result IOErr A)) io a io' :
  m io = (Val (Ok a), io') -> or_exit reason m io = (Val a, io').
Proof. intros E. unfold or_exit. by erewrite bind_val by exact E. Qed.

(** Both connections take writes, and the context is not cancelled. *)
Record live (io : IO) : Prop := {
  live_client : shut (client io) = false /\ broken (client io) = false;
  live_server : shut (server io) = false /\ broken (server io) = false;
  live_ctx : forall n, cancels io n = false }.

Lemma write_live s b io : live io -> write s b io = (Val None, wrote s b io).
Proof. intros [[H1 H2] [H3 H4] _]. unfold write. destruct s; cbn [conn]; by rewrite ?H1, ?H2, ?H3, ?H4. Qed.

Lemma write_or_exit_live reason s b io : live io -> write_or_exit reason s b io = (Val tt, wrote s b io).
Proof. intros H. unfold write_or_exit. by erewrite bind_val by (by apply write_live). Qed.

(** A connection just accepted, with the bytes its two sides have sent; [buffered] of the client's
    are already in the reader. *)
Definition on_wire (cin sin : string) (buffered : nat) : IO :=
  mkIO (mkConn cin buffered false "" false false) (mkConn sin 0 false "" false false)
    (fun _ => f64_0) 0 (fun _ => 0) 0 (fun _ => false) 0 [] [] false 0 0.

Lemma on_wire_live cin sin buffered : live (on_wire cin sin buffered).
Proof. by split. Qed.

(** *** Reading what has arrived *)

Lemma conn_set_unread s u io : unread (conn s (set_unread s u io)) = u.
Proof. by destruct s. Qed.

Lemma read_full_app s n a r io : unread (conn s io) = a +:+ r -> slen a = n ->
  read_full s n io = (Val (Ok a), set_unread s r io).
Proof.
  intros Hu <-. unfold read_full. rewrite Hu, slen_app.
  replace (slen a <=? slen a + slen r)%nat with true by (symmetry; apply Nat.leb_le; lia).
  by rewrite stake_app, sdrop_app.
Qed.

Definition no_lf (s : string) : bool := sall (is_not LF) s.

Lemma line_split_app a r : no_lf a = true ->
  line_split (a +:+ String LF r) = Some (a +:+ String LF "", r).
Proof.
  induction a as [|c a IH]; [done|]. unfold no_lf. cbn [sall]. rewrite andb_true_iff.
  intros [Hc Ha]. rewrite !string_app_cons. cbn [line_split]. unfold is_not in Hc.
  destruct (Ascii.eqb c LF); [done|]. by rewrite IH.
Qed.

Lemma line_split_sound s l t : line_split s = Some (l, t) ->
  s = l +:+ t /\ exists a, l = a +:+ String LF "" /\ no_lf a = true.
Proof.
  revert l. induction s as [|c s IH]; [done|]. intros l. cbn [line_split].
  destruct (Ascii.eqb_spec c LF) as [->|Hne].
  - intros [= <- <-]. split; [done|]. by exists "".
  - destruct (line_split s) as [[l' t']|]; [|done]. intros [= <- <-].
    destruct (IH l' eq_refl) as (-> & a & -> & Ha). split; [by rewrite string_app_cons|].
    exists (String c a). split; [by rewrite string_app_cons|]. unfold no_lf. cbn [sall].
    unfold no_lf in Ha. rewrite Ha, andb_true_r. unfold is_not. by destruct (Ascii.eqb_spec c LF).
Qed.

Lemma read_line_app s a r io : unread (conn s io) = a +:+ String LF r -> no_lf a = true ->
  read_line s io = (Val (Ok (a +:+ String LF "")), set_unread s r io).
Proof. intros Hu Ha. unfold read_line. by rewrite Hu, line_split_app. Qed.

(** A line of text without line ends, terminated by CR LF. *)
Lemma read_line_text s a rest io : sall (fun c => negb (is_crlf c)) a = true ->
  unread (conn s io) = a +:+ crlf +:+ rest ->
  read_line s io = (Val (Ok (a +:+ crlf)), set_unread s rest io).
Proof.
  intros Ha Hu. rewrite (read_line_app s (a +:+ String CR "") rest io).
  - by rewrite string_app_assoc.
  - by rewrite Hu, string_app_assoc.
  - unfold no_lf. rewrite sall_app. by rewrite (no_crlf_no_lf a Ha).
Qed.

Lemma read_bytes_text s a rest io : sall (fun c => negb (is_crlf c)) a = true ->
  unread (conn s io) = a +:+ crlf +:+ rest ->
  read_bytes s io = (Val (a +:+ crlf, None), set_unread s rest io).
Proof.
  intros Ha Hu. unfold read_bytes. rewrite Hu.
  replace (a +:+ crlf +:+ rest) with ((a +:+ String CR "") +:+ String LF rest) by (by rewrite string_app_assoc).
  rewrite line_split_app; [by rewrite string_app_assoc|].
  unfold no_lf. rewrite sall_app. by rewrite (no_crlf_no_lf a Ha).
Qed.

Lemma make_ok size n io : 0 <= n -> n * size <= max_alloc -> make size n io = (Val tt, io).
Proof.
  intros H1 H2. unfold make. rewrite (proj2 (Z.ltb_ge n 0)), (proj2 (Z.ltb_ge _ _)) by lia. done.
Qed.

Lemma i64_small n : 0 <= n < 2 ^ 63 -> i64 n = n.
Proof. intros H. rewrite wrap_s_small; lia. Qed.

Lemma set_unread_twice s a b io : set_unread s a (set_unread s b io) = set_unread s a io.
Proof. by destruct s. Qed.

Lemma set_unread_same s io : set_unread s (unread (conn s io)) io = io.
Proof. by destruct s, io as [[] [] ? ? ? ? ? ? ? ? ? ? ?]. Qed.

Lemma make_then {A} size n (k : M A) io x io' :
  (make size n ;; k) io = (Val x, io') -> k io = (Val x, io').
Proof. unfold make. by destruct (_ || _). Qed.

Lemma read_line_progress s io l io' : read_line s io = (Val (Ok l), io') ->
  (slen (unread (conn s io')) < slen (unread (conn s io)))%nat.
Proof.
  unfold read_line. destruct (line_split (unread (conn s io))) as [[x t]|] eqn:E.
  - intros [= <- <-]. apply line_split_sound in E as (-> & a & -> & _).
    rewrite conn_set_unread, !slen_app. cbn. lia.
  - by destruct (shut (conn s io)), (peer_closed (conn s io)).
Qed.

(** A sequence does not run out of fuel when its parts do not. *)
Lemma and_then_fuel {A B} (m : M (result IOErr A)) (k : A -> M (result IOErr B)) io :
  (m io).1 <> OutOfFuel -> (forall a io1, m io = (Val (Ok a), io1) -> (k a io1).1 <> OutOfFuel) ->
  (and_then m k io).1 <> OutOfFuel.
Proof.
  intros H1 H2. unfold and_then, mbind, M_bind.
  destruct (m io) as [[[a|]| | | |] io1] eqn:E; try done. by apply H2.
Qed.

Lemma read_fuel s n io : (read_line s io).1 <> OutOfFuel /\ (read_full s n io).1 <> OutOfFuel.
Proof.
  unfold read_line, read_full.
  destruct (line_split _) as [[]|], (_ <=? _)%nat, (shut (conn s io)), (peer_closed (conn s io)); done.
Qed.

(** The connections after a round: what is left to read on each, and what was written. *)
Record moved (io io' : IO) (cr sr cw sw : string) : Prop := {
  mv_client : unread (client io') = cr;
  mv_server : unread (server io') = sr;
  mv_to_client : written (client io') = written (client io) +:+ cw;
  mv_to_server : written (server io') = written (server io) +:+ sw;
  mv_live : live io' }.

(** *** The rule that settles a request *)

(** The first rule, in order, that matches, passes its draw and ends the loop. *)
Fixpoint settles (fl : nat -> float64) (k : nat) (terminal matches : Rule -> bool) (rules : list Rule)
    : option Rule :=
  match rules with
  | [] => None
  | r :: rest =>
      if negb (matches r) then settles fl k terminal matches rest
      else if f64_gt (Prob r) f64_0 then
        if f64_gt (fl k) (Prob r) then settles fl (S k) terminal matches rest
        else if terminal r then Some r else settles fl (S k) terminal matches rest
      else if terminal r then Some r else settles fl k terminal matches rest
  end.

Lemma settles_some fl k terminal matches rules r : settles fl k terminal matches rules = Some r ->
  terminal r = true /\ matches r = true /\ r ∈ rules.
Proof.
  revert k. induction rules as [|r0 rest IH]; intros k; [done|]. cbn [settles].
  assert (IH' : forall k, settles fl k terminal matches rest = Some r ->
    terminal r = true /\ matches r = true /\ r ∈ r0 :: rest).
  { intros k' (? & ? & ?)%IH. split_and!; [done..|by right]. }
  destruct (matches r0) eqn:M; cbn [negb]; [|apply IH'].
  destruct (f64_gt (Prob r0) f64_0), (f64_gt (fl k) (Prob r0)), (terminal r0) eqn:T;
    try apply IH'; intros [= <-]; (split_and!; [done..|by left]).
Qed.

Lemma settles_none fl k terminal matches rules :
  Forall (fun r => matches r = false) rules -> settles fl k terminal matches rules = None.
Proof. induction 1 as [|r rest Hr _ IH]; [done|]. cbn. by rewrite Hr. Qed.

(** A settling rule without a probability comes before every later rule. *)
Lemma settles_first fl k terminal matches pre r rest :
  Forall (fun r => matches r = false) pre -> matches r = true -> f64_gt (Prob r) f64_0 = false ->
  terminal r = true -> settles fl k terminal matches (pre ++ r :: rest) = Some r.
Proof.
  intros Hpre Hr Hp Ht.
  induction Hpre as [|p pre Hn _ IH]; cbn [app settles]; [by rewrite Hr, Hp, Ht|by rewrite Hn].
Qed.

(** A rule without a probability; rules all of which are certain settle the same way whatever is
    drawn. *)
Definition certain (r : Rule) : Prop := f64_gt (Prob r) f64_0 = false.

Lemma settles_certain fl k terminal matches rules : Forall certain rules ->
  settles fl k terminal matches rules = List.find (fun r => matches r && terminal r) rules.
Proof.
  induction 1 as [|r rest Hr _ IH]; [done|]. unfold certain in Hr. cbn [settles List.find]. rewrite Hr.
  by destruct (matches r), (terminal r).
Qed.

(** Nothing has moved on the wire. *)
Record quiet (io io' : IO) : Prop := {
  q_client : client io' = client io;
  q_server : server io' = server io;
  q_floats : floats io' = floats io;
  q_cancels : cancels io' = cancels io }.

Lemma quiet_refl io : quiet io io.
Proof. done. Qed.
Lemma quiet_trans a b c : quiet a b -> quiet b c -> quiet a c.
Proof. intros [] []. split; congruence. Qed.
Lemma quiet_live a b : quiet a b -> live a -> live b.
Proof. intros [H1 H2 H3 H4] [? ? ?]. split; by rewrite ?H1, ?H2, ?H4. Qed.

(** Effects that leave the wire and the draws alone. *)
Definition silent {A} (a : A) (m : M A) : Prop :=
  forall io, exists io', m io = (Val a, io') /\ quiet io io' /\ drawn io' = drawn io.

Lemma silent_ret {A} (a : A) : silent a (mret a).
Proof. intros io. by exists io. Qed.

Lemma silent_bind {A B} (a : A) (b : B) m k : silent a m -> silent b (k a) -> silent b (x ← m; k x).
Proof.
  intros Hm Hk io. destruct (Hm io) as (io1 & E & Q1 & D1). destruct (Hk io1) as (io2 & E2 & Q2 & D2).
  exists io2. erewrite bind_val by exact E. split; [done|]. split; [by eapply quiet_trans|congruence].
Qed.

Lemma silent_pause r : silent tt (pause r).
Proof. unfold pause. destruct (0 <? Delay r); [|apply silent_ret]. intros io. eexists. split; [done|]. by split. Qed.

(** The loop does what the settling rule does, after delays and events of the rules before it. *)
Lemma rule_loop_settles {A} terminal matches (act : Rule -> M (option A)) rules :
  (forall r, terminal r = false -> silent None (act r)) ->
  (forall r io io', terminal r = true -> act r io <> (Val None, io')) ->
  forall io, exists io1, quiet io io1 /\
    rule_loop matches act rules io =
    match settles (floats io) (drawn io) terminal matches rules with
    | None => (Val None, io1)
    | Some r => act r io1
    end.
Proof.
  intros Hsil Hterm. induction rules as [|r rest IH]; intros io; [by exists io|]. cbn [rule_loop settles].
  destruct (matches r); cbn [negb]; [|apply IH].
  assert (Hgo : forall io0, exists io1, quiet io0 io1 /\
    (pause r ;; o ← act r; match o with Some a => mret (Some a) | None => rule_loop matches act rest end) io0 =
    match (if terminal r then Some r else settles (floats io0) (drawn io0) terminal matches rest) with
    | None => (Val None, io1)
    | Some r => act r io1
    end).
  { intros io0. destruct (silent_pause r io0) as (io1 & E & Q & D). erewrite bind_val by exact E.
    destruct (terminal r) eqn:T.
    - exists io1. split; [done|]. unfold mbind, M_bind. pose proof (Hterm r io1) as Hn.
      destruct (act r io1) as [[[a|]| | | |] io2]; try done. by destruct (Hn io2 T).
    - destruct (Hsil r T io1) as (io2 & E2 & Q2 & D2). erewrite bind_val by exact E2.
      destruct (IH io2) as (io3 & Q3 & E3). exists io3.
      split; [by eapply quiet_trans; [|eapply quiet_trans]|]. rewrite E3, D2, D.
      by rewrite (q_floats _ _ Q2), (q_floats _ _ Q). }
  unfold skipped. destruct (f64_gt (Prob r) f64_0); [|apply Hgo].
  unfold mbind at 1, M_bind at 1, mbind at 1, M_bind at 1, Float64 at 1. cbn.
  set (io0 := mkIO _ _ _ _ _ _ _ _ _ _ _ _ _).
  assert (Q0 : quiet io io0) by done.
  destruct (f64_gt (floats io (drawn io)) (Prob r)).
  - destruct (IH io0) as (io1 & Q & E). exists io1. split; [by eapply quiet_trans|done].
  - destruct (Hgo io0) as (io1 & Q & E). exists io1. split; [by eapply quiet_trans|done].
Qed.

Lemma quiet_moved io io1 io2 cr sr cw sw : quiet io io1 -> moved io1 io2 cr sr cw sw -> moved io io2 cr sr cw sw.
Proof. intros [H1 H2 _ _] []. split; try done; by rewrite <- ?H1, <- ?H2. Qed.

Lemma moved_quiet io1 io2 io3 cr sr cw sw : moved io1 io2 cr sr cw sw -> quiet io2 io3 -> moved io1 io3 cr sr cw sw.
Proof.
  intros M Q. pose proof (quiet_live _ _ Q (mv_live _ _ _ _ _ _ M)). destruct Q as [H1 H2 _ _], M.
  split; rewrite ?H1, ?H2; done.
Qed.

Lemma quiet_moved_self io io' : live io -> quiet io io' ->
  moved io io' (unread (client io)) (unread (server io)) "" "".
Proof.
  intros Hl Q. pose proof (quiet_live _ _ Q Hl). destruct Q as [H1 H2 _ _].
  split; rewrite ?H1, ?H2, ?string_app_nil; done.
Qed.

Lemma moved_trans io1 io2 io3 cr1 sr1 cr sr cw1 sw1 cw sw :
  moved io1 io2 cr1 sr1 cw1 sw1 -> moved io2 io3 cr sr cw sw ->
  moved io1 io3 cr sr (cw1 +:+ cw) (sw1 +:+ sw).
Proof.
  intros [? ? E1 E2 _] [? ? E3 E4 ?]. split; [done..| | |done]; rewrite ?E3, ?E4, ?E1, ?E2;
    by rewrite string_app_assoc.
Qed.

Lemma wrote_wrote s a b io : wrote s b (wrote s a io) = wrote s (a +:+ b) io.
Proof. unfold wrote. destruct s; cbn; by rewrite string_app_assoc. Qed.

Lemma wrote_live s b io : live io -> live (wrote s b io).
Proof. intros [[] [] ?]. by destruct s. Qed.

Lemma moved_wrote_client io b : live io ->
  moved io (wrote Client b io) (unread (client io)) (unread (server io)) b "".
Proof. intros [[] [] ?]. split; cbn; try done. by rewrite string_app_nil. Qed.

Lemma moved_wrote_server io b : live io ->
  moved io (wrote Server b io) (unread (client io)) (unread (server io)) "" b.
Proof. intros [[] [] ?]. split; cbn; try done. by rewrite string_app_nil. Qed.

Lemma moved_read s io rest : live io ->
  moved io (set_unread s rest io) (if s is Client then rest else unread (client io))
    (if s is Server then rest else unread (server io)) "" "".
Proof. intros [[] [] ?]. destruct s; split; cbn; try done; by rewrite string_app_nil. Qed.

(** *** One direction *)

Definition other (s : Side) : Side := match s with Client => Server | Server => Client end.

(** The streams of a direction: what is left of its source, and what its destination got. *)
Definition passed (src : Side) (io io' : IO) (rest out : string) : Prop :=
  match src with
  | Client => moved io io' rest (unread (server io)) "" out
  | Server => moved io io' (unread (client io)) rest out ""
  end.

Lemma passed_live src io io' rest out : passed src io io' rest out -> live io'.
Proof. destruct src; apply mv_live. Qed.

Lemma passed_rest src io io' rest out : passed src io io' rest out -> unread (conn src io') = rest.
Proof. destruct src; intros []; done. Qed.

Lemma passed_quiet src io io1 io2 rest out : passed src io io1 rest out -> quiet io1 io2 -> passed src io io2 rest out.
Proof. destruct src; apply moved_quiet. Qed.

Lemma passed_read src io rest : live io -> passed src io (set_unread src rest io) rest "".
Proof. intros Hl. destruct src; exact (moved_read _ io rest Hl). Qed.

Lemma passed_more src io io1 rest rest' out : passed src io io1 rest out ->
  passed src io (set_unread src rest' io1) rest' out.
Proof.
  destruct src; intros M; pose proof (mv_live _ _ _ _ _ _ M) as [[] [] ?]; destruct M; by split.
Qed.

Lemma passed_wrote src io io1 rest out b : passed src io io1 rest out ->
  passed src io (wrote (other src) b io1) rest (out +:+ b).
Proof.
  destruct src; intros M; pose proof (mv_live _ _ _ _ _ _ M) as [[] [] ?]; destruct M as [? ? E1 E2 ?];
    (split; cbn; [done..| | |by split]); rewrite ?E1, ?E2, ?string_app_assoc, ?string_app_nil; done.
Qed.

Lemma passed_trans src io1 io2 io3 r1 r2 o1 o2 :
  passed src io1 io2 r1 o1 -> passed src io2 io3 r2 o2 -> passed src io1 io3 r2 (o1 +:+ o2).
Proof.
  destruct src; cbn [passed]; intros M1 M2.
  - rewrite (mv_server _ _ _ _ _ _ M1) in M2. exact (moved_trans _ _ _ _ _ _ _ _ _ _ _ M1 M2).
  - rewrite (mv_client _ _ _ _ _ _ M1) in M2. exact (moved_trans _ _ _ _ _ _ _ _ _ _ _ M1 M2).
Qed.

(** *** A check of the rules with certain rules *)

Lemma check_settles {A} (d : A) terminal matches (act : Rule -> M (option A)) rules io :
  (forall r, terminal r = false -> silent None (act r)) ->
  (forall r io io', terminal r = true -> act r io <> (Val None, io')) -> Forall certain rules ->
  exists io1, quiet io io1 /\
    (o ← rule_loop matches act rules; mret (default d o)) io =
    match List.find (fun r => matches r && terminal r) rules with
    | None => (Val d, io1)
    | Some r => (o ← act r; mret (default d o)) io1
    end.
Proof.
  intros Hs Ht Hc. destruct (rule_loop_settles terminal matches act rules Hs Ht io) as (io1 & Q & E).
  exists io1. split; [done|]. rewrite settles_certain in E by done. unfold mbind at 1, M_bind at 1. rewrite E.
  destruct (List.find _ rules); [|done]. unfold mbind, M_bind. by destruct (act _ io1) as [[]].
Qed.

(** *** A loop whose every round reads from its client comes to an end *)

(** Each round that goes on has read something. *)
Definition productive {S} (s0 : Side) (body : S -> M S) : Prop :=
  forall s io s' io', body s io = (Val s', io') ->
  (slen (unread (conn s0 io')) < slen (unread (conn s0 io)))%nat.

Lemma rounds_end {S} s0 (body : S -> M S) : productive s0 body ->
  forall fuel s io, (slen (unread (conn s0 io)) < fuel)%nat ->
  forall s' io', rounds fuel body s io <> (Val s', io').
Proof.
  intros Hp fuel. induction fuel as [|fuel IH]; intros s io Hf s' io'; [lia|].
  cbn [rounds]. unfold mbind, M_bind. destruct (body s io) as [[s1| | | |] io1] eqn:E; try done.
  apply IH. apply Hp in E. lia.
Qed.

(** Nothing a handler does puts bytes back on its input. *)
Definition shrinks {A} (s : Side) (m : M A) : Prop :=
  forall io r io', m io = (r, io') -> (slen (unread (conn s io')) <= slen (unread (conn s io)))%nat.

(** A computation that has read something whenever it returns a value. *)
Definition consumes {A} (s : Side) (m : M A) : Prop :=
  shrinks s m /\ forall io a io', m io = (Val a, io') ->
  (slen (unread (conn s io')) < slen (unread (conn s io)))%nat.

Lemma shrinks_bind {A B} s (m : M A) (k : A -> M B) :
  shrinks s m -> (forall a, shrinks s (k a)) -> shrinks s (x ← m; k x).
Proof.
  intros Hm Hk io r io'. unfold mbind, M_bind. destruct (m io) as [[a| | | |] io1] eqn:E;
    [|intros [= <- <-]; by eapply Hm..].
  intros E'. apply Hm in E. apply Hk in E'. lia.
Qed.

Lemma consumes_bind {A B} s (m : M A) (k : A -> M B) :
  consumes s m -> (forall a, shrinks s (k a)) -> consumes s (x ← m; k x).
Proof.
  intros [Hs Hm] Hk. split; [by apply shrinks_bind|]. intros io b io'. unfold mbind, M_bind.
  destruct (m io) as [[a| | | |] io1] eqn:E; try done. intros E'. apply Hm in E. apply Hk in E'. lia.
Qed.

(** The part that reads may come after one that does not. *)
Lemma consumes_after {A B} s (m : M A) (k : A -> M B) :
  shrinks s m -> (forall a, consumes s (k a)) -> consumes s (x ← m; k x).
Proof.
  intros Hs Hk. split; [apply shrinks_bind; [done|intros a; apply Hk]|]. intros io b io'. unfold mbind, M_bind.
  destruct (m io) as [[a| | | |] io1] eqn:E; try done. intros E'. apply Hs in E. apply Hk in E'. lia.
Qed.

(** A computation that ends the handler reads enough. *)
Lemma consumes_exit {A} s reason : consumes s (exit (A := A) reason).
Proof. split; [by intros io r io' [= <- <-]|done]. Qed.

Lemma consumes_productive {S} s (body : S -> M S) : (forall x, consumes s (body x)) -> productive s body.
Proof. intros H x io x' io' E. by apply (H x) in E. Qed.

Lemma shrinks_ret {A} s (a : A) : shrinks s (mret a).
Proof. by intros io r io' [= <- <-]. Qed.
Lemma shrinks_exit {A} s reason : shrinks s (exit (A := A) reason).
Proof. by intros io r io' [= <- <-]. Qed.
Lemma shrinks_panic {A} s : shrinks s (panic (A := A)).
Proof. by intros io r io' [= <- <-]. Qed.
Lemma shrinks_out_of_fuel {A} s : shrinks s (out_of_fuel (A := A)).
Proof. by intros io r io' [= <- <-]. Qed.
Lemma shrinks_make s size n : shrinks s (make size n).
Proof. unfold make. destruct (_ || _); [apply shrinks_panic|apply shrinks_ret]. Qed.

Lemma conn_set_unread_le s s' u io : (slen u <= slen (unread (conn s' io)))%nat ->
  (slen (unread (conn s (set_unread s' u io))) <= slen (unread (conn s io)))%nat.
Proof. by destruct s, s'. Qed.

Lemma shrinks_read_line s s' : shrinks s (read_line s').
Proof.
  intros io r io'. unfold read_line. destruct (line_split _) as [[l t]|] eqn:E.
  - intros [= <- <-]. apply line_split_sound in E as [E _]. apply conn_set_unread_le. rewrite E, slen_app. lia.
  - destruct (shut (conn s' io)), (peer_closed (conn s' io)); intros [= <- <-]; try done;
      apply conn_set_unread_le; cbn; lia.
Qed.

Lemma shrinks_read_full s s' n : shrinks s (read_full s' n).
Proof.
  intros io r io'. unfold read_full. destruct (_ <=? _)%nat.
  - intros [= <- <-]. apply conn_set_unread_le. rewrite slen_sdrop. lia.
  - destruct (shut (conn s' io)), (peer_closed (conn s' io)); intros [= <- <-]; try done;
      apply conn_set_unread_le; cbn; lia.
Qed.

Lemma shrinks_read_fill s s' n : shrinks s (read_fill s' n).
Proof.
  intros io r io'. unfold read_fill. destruct (_ <=? _)%nat.
  - intros [= <- <-]. apply conn_set_unread_le. rewrite slen_sdrop. lia.
  - destruct (shut (conn s' io) || peer_closed (conn s' io)); intros [= <- <-]; try done;
      apply conn_set_unread_le; cbn; lia.
Qed.

Lemma shrinks_read_bytes s s' : shrinks s (read_bytes s').
Proof.
  intros io r io'. unfold read_bytes. destruct (line_split _) as [[l t]|] eqn:E.
  - intros [= <- <-]. apply line_split_sound in E as [E _]. apply conn_set_unread_le. rewrite E, slen_app. lia.
  - destruct (shut (conn s' io)), (peer_closed (conn s' io)); intros [= <- <-]; try done;
      apply conn_set_unread_le; cbn; lia.
Qed.

Lemma shrinks_write s s' b : shrinks s (write s' b).
Proof.
  intros io r io'. unfold write. destruct (shut (conn s' io)), (broken (conn s' io)); intros [= <- <-]; try done.
  by destruct s, s'.
Qed.

Lemma shrinks_close s s' : shrinks s (close s').
Proof. intros io r io' [= <- <-]. destruct s, s'; cbn; rewrite ?slen_stake; lia. Qed.

Lemma shrinks_Float64 s : shrinks s Float64.
Proof. intros io r io' [= <- <-]. by destruct s. Qed.
Lemma shrinks_Sleep s d : shrinks s (Sleep d).
Proof. intros io r io' [= <- <-]. by destruct s. Qed.
Lemma shrinks_Since s : shrinks s Since.
Proof. intros io r io' [= <- <-]. by destruct s. Qed.
Lemma shrinks_ctx_done s : shrinks s ctx_done.
Proof. intros io r io' [= <- <-]. by destruct s. Qed.

Lemma shrinks_or_exit {A} s reason (m : M (result IOErr A)) : shrinks s m -> shrinks s (or_exit reason m).
Proof. intros H. apply shrinks_bind; [done|]. intros [a|e]; [apply shrinks_ret|apply shrinks_exit]. Qed.

Lemma shrinks_and_then {A B} s (m : M (result IOErr A)) (k : A -> M (result IOErr B)) :
  shrinks s m -> (forall a, shrinks s (k a)) -> shrinks s (and_then m k).
Proof. intros H Hk. apply shrinks_bind; [done|]. intros [a|e]; [apply Hk|apply shrinks_ret]. Qed.

Lemma shrinks_write_or_exit s reason s' b : shrinks s (write_or_exit reason s' b).
Proof. apply shrinks_bind; [apply shrinks_write|]. intros [e|]; [apply shrinks_exit|apply shrinks_ret]. Qed.

Lemma shrinks_rule_loop {A} s matches (act : Rule -> M (option A)) rules :
  (forall r, shrinks s (act r)) -> shrinks s (rule_loop matches act rules).
Proof.
  intros Ha. pose proof (shrinks_Float64 s) as Hf. pose proof (shrinks_Sleep s) as Hs.
  induction rules as [|r rest IH]; [apply shrinks_ret|]. cbn [rule_loop].
  destruct (negb (matches r)); [done|]. apply shrinks_bind.
  { unfold skipped. destruct (f64_gt _ _); [|apply shrinks_ret]. apply shrinks_bind; [done|].
    intros x. apply shrinks_ret. }
  intros []; [done|]. apply shrinks_bind; [unfold pause; destruct (0 <? Delay r); [done|apply shrinks_ret]|].
  intros _. apply shrinks_bind; [done|]. intros [a|]; [apply shrinks_ret|done].
Qed.

(** A line that was read was not empty. *)
Lemma consumes_line {B} s reason (k : string -> M (result IOErr B)) :
  (forall l, shrinks s (k l)) -> consumes s (or_exit reason (and_then (read_line s) k)).
Proof.
  intros Hk. split; [apply shrinks_or_exit, shrinks_and_then; [apply shrinks_read_line|done]|].
  intros io b io'. unfold or_exit, and_then, mbind, M_bind.
  destruct (read_line s io) as [[[l|]| | | |] io1] eqn:E; try done. apply read_line_progress in E.
  destruct (k l io1) as [[[a|]| | | |] io2] eqn:E2; try done. apply Hk in E2. intros [= <- <-]. lia.
Qed.

(** *** Fuel *)

(** A computation that never runs out of fuel. *)
Definition fueled {A} (m : M A) : Prop := forall io, (m io).1 <> OutOfFuel.

Lemma fueled_bind {A B} (m : M A) (k : A -> M B) :
  fueled m -> (forall a, fueled (k a)) -> fueled (x ← m; k x).
Proof.
  intros Hm Hk io. specialize (Hm io). unfold mbind, M_bind. destruct (m io) as [[a| | | |] io1]; try done.
  apply Hk.
Qed.

Lemma fueled_ret {A} (a : A) : fueled (mret a).
Proof. done. Qed.
Lemma fueled_exit {A} reason : fueled (exit (A := A) reason).
Proof. done. Qed.
Lemma fueled_panic {A} : fueled (panic (A := A)).
Proof. done. Qed.
Lemma fueled_make size n : fueled (make size n).
Proof. unfold make. by destruct (_ || _). Qed.
Lemma fueled_read_line s : fueled (read_line s).
Proof. intros io. apply (read_fuel s 0 io). Qed.
Lemma fueled_read_full s n : fueled (read_full s n).
Proof. intros io. apply (read_fuel s n io). Qed.
Lemma fueled_read_bytes s : fueled (read_bytes s).
Proof.
  intros io. unfold read_bytes. by destruct (line_split _) as [[]|], (shut (conn s io)), (peer_closed (conn s io)).
Qed.
Lemma fueled_read_fill s n : fueled (read_fill s n).
Proof. intros io. unfold read_fill. by destruct (_ <=? _)%nat, (shut (conn s io) || peer_closed (conn s io)). Qed.
Lemma fueled_write s b : fueled (write s b).
Proof. intros io. unfold write. by destruct (shut (conn s io)), (broken (conn s io)). Qed.
Lemma fueled_quiet : fueled Float64 /\ (forall d, fueled (Sleep d)) /\ fueled Since /\ fueled ctx_done /\
  (forall s, fueled (close s)).
Proof. done. Qed.

Lemma fueled_or_exit {A} reason (m : M (result IOErr A)) : fueled m -> fueled (or_exit reason m).
Proof. intros H. apply fueled_bind; [done|]. by intros [a|e]. Qed.
Lemma fueled_and_then {A B} (m : M (result IOErr A)) (k : A -> M (result IOErr B)) :
  fueled m -> (forall a, fueled (k a)) -> fueled (and_then m k).
Proof. intros H Hk. apply fueled_bind; [done|]. intros [a|e]; [apply Hk|done]. Qed.
Lemma fueled_write_or_exit reason s b : fueled (write_or_exit reason s b).
Proof. apply fueled_bind; [apply fueled_write|]. by intros [e|]. Qed.

Lemma fueled_rule_loop {A} matches (act : Rule -> M (option A)) rules :
  (forall r, fueled (act r)) -> fueled (rule_loop matches act rules).
Proof.
  intros Ha. induction rules as [|r rest IH]; [done|]. cbn [rule_loop].
  destruct (negb (matches r)); [done|]. apply fueled_bind.
  { unfold skipped. destruct (f64_gt _ _); done. }
  intros []; [done|]. apply fueled_bind; [unfold pause; by destruct (0 <? Delay r)|].
  intros _. apply fueled_bind; [done|]. by intros [a|].
Qed.

(** The handler returned, waits, or panicked. *)
Definition ended {A} (r : res A) : Prop := match r with Val _ | OutOfFuel => False | _ => True end.

Lemma rounds_ended {S} s0 (body : S -> M S) : productive s0 body -> (forall s, fueled (body s)) ->
  forall fuel s io, (slen (unread (conn s0 io)) < fuel)%nat -> ended (rounds fuel body s io).1.
Proof.
  intros Hp Hfu fuel s io Hf. pose proof (rounds_end s0 body Hp fuel s io Hf) as Hv.
  assert (Ho : fueled (rounds fuel body s)).
  { clear - Hfu. revert s. induction fuel as [|fuel IH]; intros s; [done|]. by apply fueled_bind. }
  specialize (Ho io). destruct (rounds fuel body s io) as [[x| | | |] io']; try done. by apply (Hv x io').
Qed.

Lemma read_full_progress s n io b io' : (0 < n)%nat -> read_full s n io = (Val (Ok b), io') ->
  (slen (unread (conn s io')) < slen (unread (conn s io)))%nat.
Proof.
  intros Hn. unfold read_full. destruct (Nat.leb_spec n (slen (unread (conn s io)))).
  - intros [= <- <-]. rewrite conn_set_unread, slen_sdrop. lia.
  - by destruct (shut (conn s io)), (peer_closed (conn s io)).
Qed.

Lemma consumes_read_full s reason n : (0 < n)%nat -> consumes s (or_exit reason (read_full s n)).
Proof.
  intros Hn. split; [apply shrinks_or_exit, shrinks_read_full|]. intros io l io'. unfold or_exit, mbind, M_bind.
  destruct (read_full s n io) as [[[x|]| | | |] io1] eqn:E; try done. intros [= <- <-].
  by apply read_full_progress in E.
Qed.

Lemma consumes_read_line s reason : consumes s (or_exit reason (read_line s)).
Proof.
  split; [apply shrinks_or_exit, shrinks_read_line|]. intros io l io'. unfold or_exit, mbind, M_bind.
  destruct (read_line s io) as [[[x|]| | | |] io1] eqn:E; try done. intros [= <- <-].
  by apply read_line_progress in E.
Qed.

(** More rounds than it takes change nothing. *)
Lemma rounds_more {S} (body : S -> M S) fuel s io r io' :
  rounds fuel body s io = (r, io') -> (forall s', r <> Val s') ->
  forall fuel', (fuel <= fuel')%nat -> rounds fuel' body s io = (r, io').
Proof.
  revert s io. induction fuel as [|fuel IH]; intros s io E Hr fuel' Hf.
  { injection E as <- <-. by destruct (Hr s). }
  destruct fuel' as [|fuel']; [lia|]. cbn [rounds] in *. unfold mbind, M_bind in *.
  destruct (body s io) as [[s1| | | |] io1]; [|by rewrite <- E..]. apply IH; [done..|lia].
Qed.

Create HintDb wire.
#[export] Hint Resolve shrinks_ret shrinks_exit shrinks_panic shrinks_out_of_fuel shrinks_make
  shrinks_read_line shrinks_read_full shrinks_read_fill shrinks_read_bytes
  shrinks_write shrinks_close shrinks_write_or_exit
  shrinks_Float64 shrinks_Sleep shrinks_Since shrinks_ctx_done : wire.
#[export] Hint Resolve fueled_ret fueled_exit fueled_panic fueled_make fueled_read_line fueled_read_full
  fueled_read_bytes fueled_read_fill
  fueled_write fueled_write_or_exit : wire.

(** Walks through a handler, whose leaves are operations of the hint database. *)
Ltac shrink :=
  repeat first
    [ assumption
    | progress intros
    | solve [auto with wire]
    | apply shrinks_or_exit | apply shrinks_and_then | apply shrinks_rule_loop | apply shrinks_bind
    | match goal with
      | |- shrinks _ (match ?x with _ => _ end) => destruct x
      | |- shrinks _ (let _ := _ in _) => cbv zeta
      end ].

Ltac fuel_ok :=
  repeat first
    [ assumption
    | progress intros
    | solve [auto with wire]
    | apply fueled_or_exit | apply fueled_and_then | apply fueled_rule_loop | apply fueled_bind
    | done
    | match goal with
      | |- fueled (match ?x with _ => _ end) => destruct x
      | |- fueled (let _ := _ in _) => cbv zeta
      end ].

End Net.

(** ** Connection tracking ([internal/proxy/observability.go]) *)

Module Observe.
Import Rules Net.

Definition EventTypeConnOpen : string := "proxy_conn_open".
Definition EventTypeConnClose : string := "proxy_conn_close".
Definition EventTypeHandshakeComplete : string := "proxy_handshake_complete".
Definition EventTypeStall : string := "proxy_stall".

(** The constant part of a [connTracker]; the counters are in the handler's state. *)
Record connTracker := mkTracker {
  id : string; onEvent : bool; service : string; iface : string; protocol : string;
  peer : string; target : string }.

(** [if p.onEvent != nil { p.onEvent(e) }]. *)
Definition emit (on : bool) (e : ProxyEvent) : M unit := fun io =>
  (Val tt, if on then logged e io else io).

Definition ms (d : Z) : string := show_Z (Z.quot d 1000000).

Definition EmitOpen (t : connTracker) : M unit :=
  emit (onEvent t)
    (mkEvent EventTypeConnOpen (protocol t) "" (service t)
       (list_to_map [("interface", iface t); ("protocol", protocol t); ("client", peer t);
                     ("target", target t); ("conn_id", id t)])).

(** [handshakeDone.CompareAndSwap(false, true)]. *)
Definition cas_handshake : M bool := fun io =>
  (Val (negb (handshakeDone io)),
   mkIO (client io) (server io) (floats io) (drawn io) (sinces io) (asked io) (cancels io)
     (polled io) (slept io) (emitted io) true (bytesC2S io) (bytesS2C io)).

Definition EmitHandshakeComplete (t : connTracker) (authMethod : string) (n : Z) : M unit :=
  if negb (onEvent t) then mret tt
  else
    first ← cas_handshake;
    if negb first then mret tt
    else
      d ← Since;
      let fields : gmap string string :=
        list_to_map [("interface", iface t); ("protocol", protocol t); ("conn_id", id t);
                     ("duration_ms", ms d)] in
      let fields := if String.eqb authMethod "" then fields else <["auth_method" := authMethod]> fields in
      let fields := if 0 <? n then <["rounds" := show_Z n]> fields else fields in
      emit true (mkEvent EventTypeHandshakeComplete (protocol t) "" (service t) fields).

Definition close_event (t : connTracker) (d c2s s2c : Z) (reason : string) : ProxyEvent :=
  mkEvent EventTypeConnClose (protocol t) "" (service t)
    (list_to_map [("interface", iface t); ("conn_id", id t); ("duration_ms", ms d);
                  ("bytes_c2s", show_Z c2s); ("bytes_s2c", show_Z s2c); ("reason", reason)]).

Definition counters : M (Z * Z) := fun io => (Val (bytesC2S io, bytesS2C io), io).

Definition EmitClose (t : connTracker) (reason : string) : M unit :=
  if negb (onEvent t) then mret tt
  else
    d ← Since;
    n ← counters;
    emit true (close_event t d n.1 n.2 reason).

Definition EmitStall (t : connTracker) (direction phase : string) (pendingBytes stalledFor : Z) : M unit :=
  emit (onEvent t)
    (mkEvent EventTypeStall (protocol t) "" (service t)
       (list_to_map [("interface", iface t); ("conn_id", id t); ("direction", direction);
                     ("phase", phase); ("pending_bytes", show_Z pendingBytes);
                     ("stalled_ms", ms stalledFor)])).

(** The counters are 64-bit atomics. *)
Definition AddBytesC2S (n : nat) : M unit := fun io =>
  (Val tt,
   mkIO (client io) (server io) (floats io) (drawn io) (sinces io) (asked io) (cancels io) (polled io)
     (slept io) (emitted io) (handshakeDone io) (i64 (bytesC2S io + Z.of_nat n)) (bytesS2C io)).
Definition AddBytesS2C (n : nat) : M unit := fun io =>
  (Val tt,
   mkIO (client io) (server io) (floats io) (drawn io) (sinces io) (asked io) (cancels io) (polled io)
     (slept io) (emitted io) (handshakeDone io) (bytesC2S io) (i64 (bytesS2C io + Z.of_nat n))).

(** The [io.Copy] of a response goroutine, from the counting reader around the server to the client:
    the next [n] bytes the server sent. *)
Definition copied (n : nat) : M (option IOErr) :=
  b ← read_full Server n;
  match b with
  | Ok data => AddBytesS2C (slen data) ;; write Client data
  | Err e => mret (Some e)
  end.

Definition classifyCloseReason (err : option IOErr) (side : Side) : string :=
  match err with
  | None | Some EOF => match side with Client => "client_eof" | Server => "server_eof" end
  | Some ErrClosed => "context_cancel"
  | Some _ => "io_error"
  end.

(** The reason of a failed read or write on a side. *)
Definition because (side : Side) (e : IOErr) : string := classifyCloseReason (Some e) side.

(** What the deferred calls of a handler do with its close reason: the close event, then both
    connections. *)
Definition deferred (t : connTracker) (m : M unit) : M unit := fun io =>
  match m io with
  | (Exit reason, io) => (EmitClose t reason ;; close Server ;; close Client ;; exit reason) io
  | other => other
  end.

Lemma shrinks_emit s on e : shrinks s (emit on e).
Proof. intros io r io' [= <- <-]. by destruct on, s. Qed.
Lemma shrinks_AddBytesC2S s n : shrinks s (AddBytesC2S n).
Proof. intros io r io' [= <- <-]. by destruct s. Qed.
Lemma copied_moves n io : live io -> (n <= slen (unread (server io)))%nat ->
  exists io', copied n io = (Val None, io') /\
    moved io io' (unread (client io)) (sdrop n (unread (server io))) (stake n (unread (server io))) "".
Proof.
  intros Hl Hn. unfold copied.
  erewrite bind_val by (apply (read_full_app Server n (stake n (unread (server io))) (sdrop n (unread (server io))));
    [by rewrite stake_sdrop|rewrite slen_stake; lia]).
  cbv iota. erewrite bind_val by (unfold AddBytesS2C; done). pose proof Hl as [[] [] ?].
  rewrite write_live by (by split). eexists. split; [done|]. destruct io. split; cbn; try done. by rewrite string_app_nil.
Qed.

Lemma shrinks_AddBytesS2C s n : shrinks s (AddBytesS2C n).
Proof. intros io r io' [= <- <-]. by destruct s. Qed.
Lemma shrinks_cas_handshake s : shrinks s cas_handshake.
Proof. intros io r io' [= <- <-]. by destruct s. Qed.
#[export] Hint Resolve shrinks_emit shrinks_AddBytesC2S shrinks_AddBytesS2C shrinks_cas_handshake : wire.

Lemma shrinks_EmitHandshakeComplete s t a n : shrinks s (EmitHandshakeComplete t a n).
Proof. unfold EmitHandshakeComplete. shrink. Qed.
#[export] Hint Resolve shrinks_EmitHandshakeComplete : wire.

Lemma fueled_EmitHandshakeComplete t a n : fueled (EmitHandshakeComplete t a n).
Proof. unfold EmitHandshakeComplete. fuel_ok. Qed.
#[export] Hint Resolve fueled_EmitHandshakeComplete : wire.

Lemma silent_emit on e : silent tt (emit on e).
Proof. intros io. eexists. split; [done|]. by destruct on. Qed.

Lemma silent_EmitHandshakeComplete t a n : silent tt (EmitHandshakeComplete t a n).
Proof.
  unfold EmitHandshakeComplete. destruct (onEvent t); [|apply silent_ret]. cbn [negb].
  intros io. unfold cas_handshake, Since, emit, mbind, M_bind. cbn.
  destruct (handshakeDone io); cbn; by eexists.
Qed.

(** The deferred calls end the handler when its loop ends. *)
Lemma deferred_ended t m io : ended (m io).1 -> ended (deferred t m io).1.
Proof.
  unfold deferred. destruct (m io) as [[| | | |] io']; try done. intros _.
  unfold EmitClose. destruct (onEvent t); done.
Qed.

(** A handler that opens, runs its handshake, loops and defers its close ends when its rounds read. *)
Lemma session_ended {S} s0 t (pre : M unit) (body : S -> M S) s fuel io :
  shrinks s0 pre -> fueled pre -> productive s0 body -> (forall s, fueled (body s)) ->
  (slen (unread (conn s0 io)) < fuel)%nat ->
  ended ((EmitOpen t ;; deferred t (pre ;; rounds fuel body s ;; mret tt)) io).1.
Proof.
  intros Hs Hfp Hp Hfu Hf.
  assert (E : exists io', EmitOpen t io = (Val tt, io') /\ conn s0 io' = conn s0 io)
    by (unfold EmitOpen, emit; destruct (onEvent t), s0; by eexists).
  destruct E as (io' & E & Hu). erewrite bind_val by exact E. apply deferred_ended.
  unfold mbind at 1, M_bind at 1. specialize (Hfp io').
  destruct (pre io') as [[u| | | |] io1] eqn:E1; try done. apply Hs in E1. rewrite Hu in E1.
  pose proof (rounds_ended s0 body Hp Hfu fuel s io1 ltac:(lia)) as H.
  unfold mbind, M_bind. by destruct (rounds fuel body s io1) as [[| | | |] ?].
Qed.

(** One without a handshake. *)
Lemma handler_ended {S} s0 t (body : S -> M S) s fuel io :
  productive s0 body -> (forall s, fueled (body s)) -> (slen (unread (conn s0 io)) < fuel)%nat ->
  ended ((EmitOpen t ;; deferred t (rounds fuel body s ;; mret tt)) io).1.
Proof.
  intros Hp Hfu Hf.
  exact (session_ended s0 t (mret tt) body s fuel io (shrinks_ret s0 tt) (fueled_ret tt) Hp Hfu Hf).
Qed.

(** *** The tracker of the HTTP-based proxies *)

Inductive ConnState := StateNew | StateActive | StateIdle | StateHijacked | StateClosed.

(** The connections with a tracker, each with its handshake flag, and the events. *)
Record HTTPTracker := mkHTTP {
  h_onEvent : bool; h_service : string; h_iface : string; h_protocol : string; h_target : string;
  trackers : gmap nat (connTracker * bool); h_emitted : list (nat * ProxyEvent) }.

Definition h_with (h : HTTPTracker) (m : gmap nat (connTracker * bool)) (es : list (nat * ProxyEvent)) :=
  mkHTTP (h_onEvent h) (h_service h) (h_iface h) (h_protocol h) (h_target h) m (h_emitted h ++ es).

(** The tracker's emissions, with the connection they are about.  [since] is the time since the
    connection was opened. *)
Definition http_open (t : connTracker) : ProxyEvent :=
  mkEvent EventTypeConnOpen (protocol t) "" (service t)
    (list_to_map [("interface", iface t); ("protocol", protocol t); ("client", peer t);
                  ("target", target t); ("conn_id", id t)]).
Definition http_handshake (t : connTracker) (since : Z) : ProxyEvent :=
  mkEvent EventTypeHandshakeComplete (protocol t) "" (service t)
    (<["rounds" := show_Z 1]>
       (list_to_map [("interface", iface t); ("protocol", protocol t); ("conn_id", id t);
                     ("duration_ms", ms since)])).

(** [c] is the connection, [addr] its remote address, [cid] the identifier drawn for a new one. *)
Definition http_ConnState (h : HTTPTracker) (c : nat) (addr cid : string) (since : Z) (state : ConnState)
    : HTTPTracker :=
  if negb (h_onEvent h) then h
  else
    match state with
    | StateNew =>
        let t := mkTracker cid true (h_service h) (h_iface h) (h_protocol h) addr (h_target h) in
        h_with h (<[c := (t, false)]> (trackers h)) [(c, http_open t)]
    | StateActive =>
        match trackers h !! c with
        | Some (t, false) => h_with h (<[c := (t, true)]> (trackers h)) [(c, http_handshake t since)]
        | _ => h
        end
    | StateClosed | StateHijacked =>
        match trackers h !! c with
        | Some (t, _) =>
            let reason := match state with StateHijacked => "context_cancel" | _ => "client_eof" end in
            h_with h (delete c (trackers h)) [(c, close_event t since 0 0 reason)]
        | None => h
        end
    | StateIdle => h
    end.

(** A run of callbacks: connection, remote address, fresh identifier, time since opening, state. *)
Definition http_run (h : HTTPTracker) (calls : list (nat * string * string * Z * ConnState)) : HTTPTracker :=
  fold_left (fun h '(c, addr, cid, since, st) => http_ConnState h c addr cid since st) calls h.

(** The life of one connection as its events tell it: [None] before it opens and after it closes,
    otherwise whether the handshake was reported.  The outer [None] is a sequence out of order. *)
Definition life_step (st : option bool) (ty : string) : option (option bool) :=
  match st with
  | None => if String.eqb ty EventTypeConnOpen then Some (Some false) else None
  | Some done =>
      if String.eqb ty EventTypeConnClose then Some None
      else if String.eqb ty EventTypeHandshakeComplete && negb done then Some (Some true) else None
  end.

Fixpoint life (st : option bool) (tys : list string) : option (option bool) :=
  match tys with [] => Some st | ty :: tys => st ← life_step st ty; life st tys end.

Definition events_of (c : nat) (h : HTTPTracker) : list string :=
  map (EvType ∘ snd) (filter (fun p => p.1 = c) (h_emitted h)).

(** [net/http] announces a connection once: [StateNew] is not called on a connection that is
    being tracked. *)
Fixpoint announced_once (live : gset nat) (calls : list (nat * string * string * Z * ConnState)) : Prop :=
  match calls with
  | [] => True
  | (c, _, _, _, StateNew) :: calls => (c ∉ live) /\ announced_once ({[c]} ∪ live) calls
  | (c, _, _, _, (StateClosed | StateHijacked)) :: calls => announced_once (live ∖ {[c]}) calls
  | _ :: calls => announced_once live calls
  end.

Lemma life_app st a b : life st (a ++ b) = (st ← life st a; life st b).
Proof. revert st; induction a as [|x a IH]; intros st; [done|]. cbn. destruct (life_step st x); [apply IH|done]. Qed.

Lemma events_of_h_with c h m es :
  events_of c (h_with h m es) = events_of c h ++ map (EvType ∘ snd) (filter (fun p => p.1 = c) es).
Proof. unfold events_of. cbn. by rewrite filter_app, map_app. Qed.

Definition life_ok (h : HTTPTracker) : Prop :=
  h_onEvent h = true /\ forall c, life None (events_of c h) = Some (snd <$> trackers h !! c).

(** One event about one connection keeps every connection's life in order. *)
Lemma life_ok_step h c e m :
  life_ok h -> life_step (snd <$> trackers h !! c) (EvType e) = Some (snd <$> m !! c) ->
  (forall c', c' <> c -> m !! c' = trackers h !! c') -> life_ok (h_with h m [(c, e)]).
Proof.
  intros [Hon H] Hs Hm. split; [done|]. intros c'. rewrite events_of_h_with, life_app, H. cbn [mbind option_bind].
  destruct (decide (c = c')) as [<-|Hne].
  - rewrite filter_cons_True by done. cbn. by rewrite Hs.
  - rewrite filter_cons_False by done. cbn. by rewrite Hm by done.
Qed.

Lemma http_ConnState_ok h c addr cid since st :
  life_ok h -> (st = StateNew -> c ∉ dom (trackers h)) -> life_ok (http_ConnState h c addr cid since st).
Proof.
  intros Hok Hnew. pose proof Hok as [Hon _]. unfold http_ConnState. rewrite Hon. cbn [negb].
  destruct st; [|destruct (trackers h !! c) as [[t []]|] eqn:E..]; try done;
    (apply life_ok_step; [done| |intros c' Hc'; by rewrite ?lookup_insert_ne, ?lookup_delete_ne by done]).
  - rewrite lookup_insert_eq. by rewrite (proj1 (not_elem_of_dom (trackers h) c) (Hnew eq_refl)).
  - by rewrite lookup_insert_eq, E.
  - by rewrite lookup_delete_eq, E.
  - by rewrite lookup_delete_eq, E.
  - by rewrite lookup_delete_eq, E.
  - by rewrite lookup_delete_eq, E.
Qed.

Lemma dom_http_ConnState h c addr cid since st : h_onEvent h = true ->
  dom (trackers (http_ConnState h c addr cid since st)) =
  match st with
  | StateNew => {[c]} ∪ dom (trackers h)
  | StateClosed | StateHijacked => dom (trackers h) ∖ {[c]}
  | _ => dom (trackers h)
  end.
Proof.
  intros Hon. unfold http_ConnState. rewrite Hon. cbn [negb].
  destruct st; [cbn; set_solver| |done|..];
    destruct (trackers h !! c) as [[t b]|] eqn:E; cbn; try set_solver.
  - destruct b; [done|]. cbn. apply elem_of_dom_2 in E. set_solver.
  - apply not_elem_of_dom in E. set_solver.
  - apply not_elem_of_dom in E. set_solver.
Qed.

(** C39: Whatever the order in which the server reports its connections, each connection's events are
    its opening, at most one completed handshake, and its close, in that order, and then nothing
    until it opens again. *)
Lemma http_lifecycle (h : HTTPTracker) calls (c : nat) :
  h_onEvent h = true -> trackers h = ∅ -> h_emitted h = [] -> announced_once ∅ calls ->
  life None (events_of c (http_run h calls)) = Some (snd <$> trackers (http_run h calls) !! c).
Proof.
  intros Hon Ht He Ha.
  assert (Hok : life_ok h).
  { split; [done|]. intros c'. unfold events_of. by rewrite He, Ht, lookup_empty. }
  replace (∅ : gset nat) with (dom (trackers h)) in Ha by (rewrite Ht; set_solver).
  clear Ht He Hon. revert h Hok Ha. induction calls as [|[[[[c' addr] cid] since] st] calls IH]; intros h Hok Ha.
  { apply Hok. }
  cbn [http_run fold_left]. apply IH.
  - apply http_ConnState_ok; [done|]. intros ->. by destruct Ha.
  - rewrite dom_http_ConnState by apply Hok. destruct st; cbn in Ha; naive_solver.
Qed.

Lemma http_lifecycle_witness :
  let h := mkHTTP true "api" "main" "http" "" ∅ [] in
  let calls := [(1%nat, "a", "c1", 0, StateNew); (2%nat, "b", "c2", 0, StateNew); (1%nat, "a", "c1", 5, StateActive);
                (1%nat, "a", "c1", 6, StateActive); (1%nat, "a", "c1", 7, StateClosed)] in
  life None (events_of 1 (http_run h calls)) = Some (snd <$> trackers (http_run h calls) !! 1%nat).
Proof. intros h calls. apply (http_lifecycle h calls 1); [done|done|done|]. cbn. set_solver. Defined.

End Observe.
