(* ===== verification/Registry.v ===== *)
(** * What a specification registers ([internal/star])

    The Starlark values the registration builtins exchange ([types.go]) and the builtins
    themselves: [scenario], [fault_assumption], [fault_scenario], [fault_matrix]
    ([builtins.go]) and [test] ([temporal.go]), with the copy of a mock's state
    ([mock_state.go]).  Each builtin checks its arguments and changes the runtime's
    tables; a check that fails leaves the changes made before it. *)

From Stdlib Require Import ZArith Lia Ascii.
From S2P Require Import Prelude GoStd GoText FaultRule.
From stdpp Require Import base gmap sets strings sorting numbers list.
Local Open Scope Z_scope.
Import GoStd GoText FaultRule Effect.
Local Open Scope effect_scope.

Module Spec.

(** ** Data *)

(** A Starlark callable: its name, its type's name, and which one it is. *)
Record Callable := mkCallable { fn_name : string; fn_type : string; fn_id : nat }.

Record FaultDef := mkFault {
  fd_action : string; fd_delay : Z; fd_errno : string; fd_prob : float64; fd_label : string;
  fd_op : string; fd_path : string; fd_max : Z; fd_mode : string }.

Record ProxyFaultDef := mkProxyFault {
  pf_method : string; pf_path : string; pf_query : string; pf_key : string; pf_topic : string;
  pf_command : string; pf_action : string; pf_status : Z; pf_body : string; pf_error : string;
  pf_delay : Z; pf_prob : float64 }.

Record OpDef := mkOp { op_syscalls : list string; op_path : string }.

Record InterfaceDef := mkInterface {
  if_name : string; if_protocol : string; if_port : Z; if_host_port : Z; if_proxy_disabled : bool }.

Record ServiceDef := mkService {
  sv_name : string; sv_interfaces : gmap string InterfaceDef; sv_depends : list string;
  sv_env : gmap string string; sv_ops : gmap string OpDef;
  sv_remote : string; sv_remotes : gmap string string;
  sv_image : string; sv_build : string; sv_mock : bool; sv_reuse : bool;
  sv_seed : option Callable; sv_reset : option Callable; sv_nondet_ok : gset string }.

Definition IsContainer (s : ServiceDef) : bool := negb (String.eqb (sv_image s) "") || negb (String.eqb (sv_build s) "").
Definition IsMock (s : ServiceDef) : bool := sv_mock s.

Record InterfaceRef := mkRef { ir_service : ServiceDef; ir_interface : InterfaceDef }.

Record FaultAssumptionRule := mkAssumed { ar_target : ServiceDef; ar_syscall : string; ar_fault : FaultDef }.
Record FaultAssumptionProxyRule := mkAssumedProxy { ap_target : InterfaceRef; ap_fault : ProxyFaultDef }.

(** Monitors are named by a number. *)
Record FaultAssumptionDef := mkAssumption {
  fa_name : string; fa_description : string; fa_rules : list FaultAssumptionRule;
  fa_proxy_rules : list FaultAssumptionProxyRule; fa_monitors : list nat }.

(** What a packet must look like; a length is [None] when not asked for. *)
Record PacketMatcher := mkMatcher {
  pm_dir : string; pm_proto : string; pm_flags : string; pm_port : Z; pm_len : option Z; pm_len_gt : option Z;
  pm_len_lt : option Z; pm_prefix : string; pm_contains : string; pm_where : option Callable }.

(** Which occurrences, and with which probability. *)
Record PacketChance := mkChance {
  pc_nth : Z; pc_after : Z; pc_every : Z; pc_prob : float64; pc_max : Z; pc_mode : string; pc_label : string }.

(** What is done to it. *)
Record PacketParams := mkParams {
  pp_delay : Z; pp_reorder : Z; pp_duplicate : Z; pp_offset : Z; pp_length : Z; pp_mode : string; pp_checksum : string;
  pp_window : Z }.

Record PacketFaultDef := mkPacketFault {
  pk_action : string; pk_match : PacketMatcher; pk_chance : PacketChance; pk_params : PacketParams }.

Record MatrixInfo := mkMatrix { ScenarioName : string; FaultName : string }.

Record FaultScenarioDef := mkFaultScenario {
  fs_name : string; fs_scenario : Callable; fs_faults : list FaultAssumptionDef; fs_expect : option Callable;
  fs_monitors : list nat; fs_timeout : Z; fs_matrix : option MatrixInfo; fs_require_fire : bool }.

Inductive value :=
  | VNone | VBool (b : bool) | VInt (z : Z) | VFloat (f : float64) | VString (s : string) | VBytes (s : string)
  | VList (l : list value) | VTuple (l : list value) | VDict (items : list (value * value))
  | VCallable (f : Callable) | VService (s : ServiceDef) | VInterface (r : InterfaceRef)
  | VFault (f : FaultDef) | VProxyFault (f : ProxyFaultDef) | VPacketFault (f : PacketFaultDef) | VAssumption (a : FaultAssumptionDef)
  | VMonitor (m : nat) | VExpectation (type : string) (id : nat) | VClient (name : string) (target : InterfaceRef)
  | VOther (type : string).

Definition type_name (v : value) : string :=
  match v with
  | VNone => "NoneType" | VBool _ => "bool" | VInt _ => "int" | VFloat _ => "float" | VString _ => "string" | VBytes _ => "bytes"
  | VList _ => "list" | VTuple _ => "tuple" | VDict _ => "dict"
  | VCallable f => fn_type f | VService _ => "service" | VInterface _ => "interface_ref"
  | VFault _ => "fault" | VProxyFault _ => "proxy_fault" | VPacketFault _ => "packet_fault" | VAssumption _ => "fault_assumption"
  | VMonitor _ => "monitor" | VExpectation t _ => t | VClient _ _ => "client" | VOther t => t
  end.

Definition as_string (v : value) : option string := match v with VString s => Some s | _ => None end.

(** A predicate of [assume=]: a function, or a constant. *)
Inductive AssumePredicate := PredCall (f : Callable) | PredConst (b : bool).

Record TestConfig := mkTestConfig {
  tc_params : option (list (value * value)); tc_mock_state : gmap string (list (value * value));
  tc_body : Callable; tc_setup : option Callable; tc_expect : option (string * nat); tc_timeout : Z;
  tc_terminate : option (string * nat); tc_assumes : list AssumePredicate }.

(** What a name of the module is bound to. *)
Inductive Runner := RFunction (f : Callable) | RFault (fs : FaultScenarioDef) | RValue.

Record ChooseAxis := mkAxis { ax_name : string; ax_values : list string; ax_known : bool }.

(** The tables of a runtime that loading a specification fills; [services] in dependency order, [axes]
    what the scan of the source found by function name. *)
Record Runtime := mkRuntime {
  globals : gmap string Runner;
  scenarios : list (string * Callable);
  faultAssumptions : gmap string FaultAssumptionDef;
  faultScenarios : gmap string FaultScenarioDef;
  testConfigs : gmap string TestConfig;
  specMonitors : list nat;
  services : list ServiceDef;
  axes : gmap string (list ChooseAxis) }.

Definition set_scenarios v rt := mkRuntime (globals rt) v (faultAssumptions rt) (faultScenarios rt)
  (testConfigs rt) (specMonitors rt) (services rt) (axes rt).
Definition set_faultAssumptions v rt := mkRuntime (globals rt) (scenarios rt) v (faultScenarios rt)
  (testConfigs rt) (specMonitors rt) (services rt) (axes rt).
Definition set_faultScenarios v rt := mkRuntime (globals rt) (scenarios rt) (faultAssumptions rt) v
  (testConfigs rt) (specMonitors rt) (services rt) (axes rt).
Definition set_testConfigs v rt := mkRuntime (globals rt) (scenarios rt) (faultAssumptions rt)
  (faultScenarios rt) v (specMonitors rt) (services rt) (axes rt).
Definition set_specMonitors v rt := mkRuntime (globals rt) (scenarios rt) (faultAssumptions rt)
  (faultScenarios rt) (testConfigs rt) v (services rt) (axes rt).

(** ** Builtins: the state they change and the error they may return *)

(** A text; a keyword the builtin does not take; a duration that does not parse; a syscall fault on a
    remote service, with the keywords; an error under a test, a parameter or an index. *)
Inductive error :=
  | Msg (s : string) | Unexpected (who key : string) | BadDuration (who s : string)
  | RemoteTarget (who svc : string) (keys : list string) | Within (where_ : list string) (e : error).

Definition M : Type -> Type := SE Runtime error.

Definition got (text : string) (v : value) : error := Msg (text +:+ ", got " +:+ type_name v).
Definition got_at (who field : string) (i : nat) (text : string) (v : value) : error :=
  got (who +:+ "() " +:+ field +:+ "[" +:+ show_Z (Z.of_nat i) +:+ "] must be " +:+ text) v.

(** Deleting the first occurrence. *)
Fixpoint without (m : nat) (l : list nat) : list nat :=
  match l with [] => [] | x :: l => if (x =? m)%nat then l else x :: without m l end.
Definition claimMonitor (m : nat) : M unit := modify (fun rt => set_specMonitors (without m (specMonitors rt)) rt).

(** The monitors= argument, as the three builtins that take it read it. *)
Definition monitors_arg (who : string) (v : value) : M (list nat) :=
  match v with
  | VList l => each (fun i v => match v with
      | VMonitor m => claimMonitor m ;; ret m
      | _ => fail (got_at who "monitors" i "a monitor" v)
      end) 0 l
  | _ => fail (got (who +:+ "() monitors= must be a list") v)
  end.

Definition assumption_at (who : string) (i : nat) (v : value) : M FaultAssumptionDef :=
  match v with VAssumption fa => ret fa | _ => fail (got_at who "faults" i "a fault_assumption" v) end.

Definition builtinScenario (args : list value) : M value :=
  match args with
  | [VCallable f] => modify (fun rt => set_scenarios (scenarios rt ++ [(fn_name f, f)]) rt) ;; ret VNone
  | [v] => fail (got "scenario() argument must be a callable" v)
  | _ => fail (Msg "scenario() requires exactly one callable")
  end.

(** ** fault_assumption *)

Definition IsRemote (s : ServiceDef) : bool := negb (String.eqb (sv_remote s) "") || negb (bool_decide (sv_remotes s = ∅)).

Definition expandSyscallFamily (name : string) : list string :=
  if String.eqb name "write" then ["write"; "writev"; "pwrite64"]
  else if String.eqb name "read" then ["read"; "readv"; "pread64"]
  else if String.eqb name "open" then ["open"; "openat"]
  else if String.eqb name "fsync" then ["fsync"; "fdatasync"]
  else if String.eqb name "sendto" then ["sendto"; "sendmsg"]
  else if String.eqb name "recvfrom" then ["recvfrom"; "recvmsg"]
  else [name].

(** The copy of a fault that an operation's syscalls carry. *)
Definition op_fault (key : string) (op : OpDef) (fd : FaultDef) : FaultDef :=
  mkFault (fd_action fd) (fd_delay fd) (fd_errno fd) (fd_prob fd) (fd_label fd) key
    (if String.eqb (op_path op) "" then fd_path fd else op_path op) (fd_max fd) (fd_mode fd).

(** The rules that one keyword stands for: a named operation, a family or a syscall. *)
Definition keyword_rules (svc : ServiceDef) (key : string) (fd : FaultDef) : list FaultAssumptionRule :=
  match sv_ops svc !! key with
  | Some op => sc ← op_syscalls op; (fun sc => mkAssumed svc sc (op_fault key op fd)) <$> expandSyscallFamily sc
  | None => (fun sc => mkAssumed svc sc fd) <$> expandSyscallFamily key
  end.

Record AssumptionArgs := mkArgs {
  aa_target : option value; aa_description : string; aa_monitors : list nat;
  aa_children : list FaultAssumptionDef; aa_proxy : list ProxyFaultDef; aa_syscalls : gmap string FaultDef }.

Definition assumption_kwarg (a : AssumptionArgs) (kv : string * value) : M AssumptionArgs :=
  let '(key, v) := kv in
  if String.eqb key "target" then
    ret (mkArgs (Some v) (aa_description a) (aa_monitors a) (aa_children a) (aa_proxy a) (aa_syscalls a))
  else if String.eqb key "description" then
    ret (mkArgs (aa_target a) (default "" (as_string v)) (aa_monitors a) (aa_children a) (aa_proxy a) (aa_syscalls a))
  else if String.eqb key "monitors" then
    ms ⇐ monitors_arg "fault_assumption" v;
    ret (mkArgs (aa_target a) (aa_description a) (aa_monitors a ++ ms) (aa_children a) (aa_proxy a) (aa_syscalls a))
  else if String.eqb key "faults" then
    match v with
    | VList l =>
        cs ⇐ each (assumption_at "fault_assumption") 0 l;
        ret (mkArgs (aa_target a) (aa_description a) (aa_monitors a) (aa_children a ++ cs) (aa_proxy a) (aa_syscalls a))
    | _ => fail (got "fault_assumption() faults= must be a list" v)
    end
  else if String.eqb key "rules" then
    match v with
    | VList l =>
        ps ⇐ each (fun i v => match v with
          | VProxyFault pf => ret pf
          | _ => fail (got_at "fault_assumption" "rules" i "a proxy fault (response/error/drop/...)" v)
          end) 0 l;
        ret (mkArgs (aa_target a) (aa_description a) (aa_monitors a) (aa_children a) (aa_proxy a ++ ps) (aa_syscalls a))
    | _ => fail (got "fault_assumption() rules= must be a list" v)
    end
  else
    match v with
    | VFault fd =>
        ret (mkArgs (aa_target a) (aa_description a) (aa_monitors a) (aa_children a) (aa_proxy a) (<[key := fd]> (aa_syscalls a)))
    | _ => fail (got ("fault_assumption() " +:+ key +:+ "= must be a fault (delay/deny/allow)") v)
    end.

Section Iteration.
(** Go visits a map's keys in any order; [iter] is the one it took. *)
Context (iter : gmap string FaultDef -> list (string * FaultDef)).

Definition syscall_rules (name : string) (a : AssumptionArgs) : M (list FaultAssumptionRule) :=
  if bool_decide (aa_syscalls a = ∅) then ret []
  else
    match aa_target a with
    | None => fail (Msg "fault_assumption() requires target= when syscall faults are specified")
    | Some (VService svc) | Some (VInterface (mkRef svc _)) =>
        if IsRemote svc then fail (RemoteTarget name (sv_name svc) (sort_strings (map_to_list (aa_syscalls a)).*1))
        else ret ('(key, fd) ← iter (aa_syscalls a); keyword_rules svc key fd)
    | Some v => fail (got "fault_assumption() target= must be a service or interface_ref" v)
    end.

Definition proxy_rules (a : AssumptionArgs) : M (list FaultAssumptionProxyRule) :=
  match aa_proxy a, aa_target a with
  | [], _ => ret []
  | _, None => fail (Msg "fault_assumption() requires target= when rules= is specified")
  | ps, Some (VInterface r) => ret (mkAssumedProxy r <$> ps)
  | _, Some v => fail (got "fault_assumption() rules= requires target to be an interface_ref (e.g., service.interface)" v)
  end.

Definition builtinFaultAssumption (args : list value) (kwargs : list (string * value)) : M value :=
  match args with
  | [] => fail (Msg "fault_assumption() requires a name")
  | VString name :: _ =>
      a ⇐ over assumption_kwarg (mkArgs None "" [] [] [] ∅) kwargs;
      rules ⇐ syscall_rules name a;
      prules ⇐ proxy_rules a;
      let fa := mkAssumption name (aa_description a) (rules ++ List.concat (fa_rules <$> aa_children a))
                  (prules ++ List.concat (fa_proxy_rules <$> aa_children a))
                  (aa_monitors a ++ List.concat (fa_monitors <$> aa_children a)) in
      modify (fun rt => set_faultAssumptions (<[name := fa]> (faultAssumptions rt)) rt) ;;
      ret (VAssumption fa)
  | v :: _ => fail (got "fault_assumption() name must be a string" v)
  end.

End Iteration.

(** ** fault_scenario *)

Definition thirty_seconds : Z := 30 * 1000000000.

(** The definition under construction; its scenario may be missing. *)
Record ScenarioArgs := mkScenarioArgs {
  sa_scenario : option Callable; sa_faults : list FaultAssumptionDef; sa_expect : option Callable;
  sa_monitors : list nat; sa_timeout : Z }.

Definition scenario_kwarg (a : ScenarioArgs) (kv : string * value) : M ScenarioArgs :=
  let '(key, v) := kv in
  if String.eqb key "scenario" then
    match v with
    | VCallable f => ret (mkScenarioArgs (Some f) (sa_faults a) (sa_expect a) (sa_monitors a) (sa_timeout a))
    | _ => fail (got "fault_scenario() scenario= must be a callable" v)
    end
  else if String.eqb key "faults" then
    match v with
    | VAssumption fa => ret (mkScenarioArgs (sa_scenario a) [fa] (sa_expect a) (sa_monitors a) (sa_timeout a))
    | VList l =>
        fas ⇐ each (assumption_at "fault_scenario") 0 l;
        ret (mkScenarioArgs (sa_scenario a) (sa_faults a ++ fas) (sa_expect a) (sa_monitors a) (sa_timeout a))
    | _ => fail (got "fault_scenario() faults= must be a fault_assumption or list" v)
    end
  else if String.eqb key "expect" then
    match v with
    | VCallable f => ret (mkScenarioArgs (sa_scenario a) (sa_faults a) (Some f) (sa_monitors a) (sa_timeout a))
    | _ => fail (got "fault_scenario() expect= must be a callable" v)
    end
  else if String.eqb key "monitors" then
    ms ⇐ monitors_arg "fault_scenario" v;
    ret (mkScenarioArgs (sa_scenario a) (sa_faults a) (sa_expect a) (sa_monitors a ++ ms) (sa_timeout a))
  else if String.eqb key "timeout" then
    let s := default "" (as_string v) in
    match ParseDuration s with
    | Some d => ret (mkScenarioArgs (sa_scenario a) (sa_faults a) (sa_expect a) (sa_monitors a) d)
    | None => fail (BadDuration "fault_scenario" s)
    end
  else fail (Unexpected "fault_scenario" key).

Definition register (fs : FaultScenarioDef) : M unit :=
  modify (fun rt => set_faultScenarios (<[fs_name fs := fs]> (faultScenarios rt)) rt).

Definition builtinFaultScenario (args : list value) (kwargs : list (string * value)) : M value :=
  match args with
  | [] => fail (Msg "fault_scenario() requires a name")
  | VString name :: _ =>
      a ⇐ over scenario_kwarg (mkScenarioArgs None [] None [] thirty_seconds) kwargs;
      match sa_scenario a with
      | None => fail (Msg "fault_scenario() requires scenario= keyword")
      | Some f =>
          register (mkFaultScenario name f (sa_faults a) (sa_expect a) (sa_monitors a) (sa_timeout a) None false) ;;
          ret VNone
      end
  | v :: _ => fail (got "fault_scenario() name must be a string" v)
  end.

(** ** fault_matrix *)

Record MatrixArgs := mkMatrixArgs {
  ma_scenarios : list Callable; ma_faults : list FaultAssumptionDef; ma_default : option Callable;
  ma_monitors : list nat; ma_overrides : option (list (value * value)); ma_exclude : option (list value);
  ma_require_fire : bool }.

Definition matrix_kwarg (a : MatrixArgs) (kv : string * value) : M MatrixArgs :=
  let '(key, v) := kv in
  if String.eqb key "scenarios" then
    match v with
    | VList l =>
        fs ⇐ each (fun i v => match v with
          | VCallable f => ret f
          | _ => fail (got_at "fault_matrix" "scenarios" i "callable" v)
          end) 0 l;
        ret (mkMatrixArgs (ma_scenarios a ++ fs) (ma_faults a) (ma_default a) (ma_monitors a) (ma_overrides a) (ma_exclude a) (ma_require_fire a))
    | _ => fail (got "fault_matrix() scenarios= must be a list" v)
    end
  else if String.eqb key "faults" then
    match v with
    | VList l =>
        fas ⇐ each (assumption_at "fault_matrix") 0 l;
        ret (mkMatrixArgs (ma_scenarios a) (ma_faults a ++ fas) (ma_default a) (ma_monitors a) (ma_overrides a) (ma_exclude a) (ma_require_fire a))
    | _ => fail (got "fault_matrix() faults= must be a list" v)
    end
  else if String.eqb key "default_expect" then
    match v with
    | VNone => ret a
    | VCallable f =>
        ret (mkMatrixArgs (ma_scenarios a) (ma_faults a) (Some f) (ma_monitors a) (ma_overrides a) (ma_exclude a) (ma_require_fire a))
    | _ => fail (got "fault_matrix() default_expect= must be callable or None" v)
    end
  else if String.eqb key "overrides" then
    match v with
    | VDict d => ret (mkMatrixArgs (ma_scenarios a) (ma_faults a) (ma_default a) (ma_monitors a) (Some d) (ma_exclude a) (ma_require_fire a))
    | _ => fail (got "fault_matrix() overrides= must be a dict" v)
    end
  else if String.eqb key "monitors" then
    ms ⇐ monitors_arg "fault_matrix" v;
    ret (mkMatrixArgs (ma_scenarios a) (ma_faults a) (ma_default a) (ma_monitors a ++ ms) (ma_overrides a) (ma_exclude a) (ma_require_fire a))
  else if String.eqb key "exclude" then
    match v with
    | VList l => ret (mkMatrixArgs (ma_scenarios a) (ma_faults a) (ma_default a) (ma_monitors a) (ma_overrides a) (Some l) (ma_require_fire a))
    | _ => fail (got "fault_matrix() exclude= must be a list" v)
    end
  else if String.eqb key "require_faults_fire" then
    match v with
    | VBool b => ret (mkMatrixArgs (ma_scenarios a) (ma_faults a) (ma_default a) (ma_monitors a) (ma_overrides a) (ma_exclude a) b)
    | _ => fail (got "fault_matrix() require_faults_fire= must be bool" v)
    end
  else fail (Unexpected "fault_matrix" key).

(** A cell's key: the names of a scenario and of a fault. *)
Definition exclude_key (i : nat) (v : value) : M (string * string) :=
  let at_ (t : string) := Msg ("fault_matrix() exclude[" +:+ show_Z (Z.of_nat i) +:+ "]" +:+ t) in
  match v with
  | VTuple [VCallable sc; VAssumption fa] => ret (fn_name sc, fa_name fa)
  | VTuple [VCallable _; _] => fail (at_ "[1] must be a fault_assumption")
  | VTuple [_; _] => fail (at_ "[0] must be callable")
  | _ => fail (at_ " must be a (scenario, fault) tuple")
  end.

Definition override (m : gmap (string * string) Callable) (item : value * value) : M (gmap (string * string) Callable) :=
  match item.1, item.2 with
  | VTuple [VCallable sc; VAssumption fa], VCallable f => ret (<[(fn_name sc, fa_name fa) := f]> m)
  | VTuple [VCallable _; VAssumption _], _ => fail (Msg "fault_matrix() overrides value must be callable")
  | VTuple [VCallable _; _], _ => fail (Msg "fault_matrix() overrides key[1] must be a fault_assumption")
  | VTuple [_; _], _ => fail (Msg "fault_matrix() overrides key[0] must be callable")
  | _, _ => fail (Msg "fault_matrix() overrides key must be a (scenario, fault) tuple")
  end.

Definition cell_name (sc : Callable) (fa : FaultAssumptionDef) : string := "matrix_" +:+ fn_name sc +:+ "_" +:+ fa_name fa.

Definition cell (a : MatrixArgs) (overrides : gmap (string * string) Callable) (sc : Callable) (fa : FaultAssumptionDef)
    : FaultScenarioDef :=
  mkFaultScenario (cell_name sc fa) sc [fa]
    (match overrides !! (fn_name sc, fa_name fa) with Some f => Some f | None => ma_default a end)
    (ma_monitors a) thirty_seconds (Some (mkMatrix (fn_name sc) (fa_name fa))) (ma_require_fire a).

(** The cross product, in the order of the loops. *)
Definition matrix_cells (a : MatrixArgs) (excluded : list (string * string)) (overrides : gmap (string * string) Callable)
    : list FaultScenarioDef :=
  sc ← ma_scenarios a; fa ← ma_faults a;
  if bool_decide ((fn_name sc, fa_name fa) ∈ excluded) then [] else [cell a overrides sc fa].

Definition builtinFaultMatrix (kwargs : list (string * value)) : M value :=
  a ⇐ over matrix_kwarg (mkMatrixArgs [] [] None [] None None false) kwargs;
  if (length (ma_scenarios a) =? 0)%nat then fail (Msg "fault_matrix() requires scenarios= with at least one scenario")
  else if (length (ma_faults a) =? 0)%nat then fail (Msg "fault_matrix() requires faults= with at least one fault_assumption")
  else
    excluded ⇐ each exclude_key 0 (default [] (ma_exclude a));
    overrides ⇐ over override ∅ (default [] (ma_overrides a));
    each (fun _ => register) 0 (matrix_cells a excluded overrides) ;; ret VNone.

(** ** test *)

(** A loop that stops at the first error. *)
Definition collect {A B} (f : A -> result error B) : list A -> result error (list B) :=
  fix go l := match l with [] => Ok [] | x :: l => let? y := f x in let? ys := go l in Ok (y :: ys) end.

(** The copy of a mock's state; [depth] counts the levels above. *)
Fixpoint copyMockState (v : value) (depth : Z) : result error value :=
  if 100 <? depth then Err (Msg "state is cyclic or exceeds 100 nesting levels")
  else
    match v with
    | VNone | VBool _ | VInt _ | VString _ => Ok v
    | VFloat f => if is_finite f then Ok v else Err (Msg "state floats must be finite")
    | VDict items =>
        let? out := collect (fun kv => match kv with
          | (VString k, v) => let? item := copyMockState v (depth + 1) in Ok (VString k, item)
          | _ => Err (Msg "state dict keys must be strings")
          end) items in
        Ok (VDict out)
    | VList l => let? out := collect (fun v => copyMockState v (depth + 1)) l in Ok (VList out)
    | _ => Err (Msg ("state must contain only dicts, lists and JSON scalar values (got " +:+ type_name v +:+ ")"))
    end.

(** A dictionary's copy is a dictionary. *)
Definition freezeMockState (items : list (value * value)) : result error (list (value * value)) :=
  let? v := copyMockState (VDict items) 0 in
  match v with VDict out => Ok out | _ => Err (Msg "") end.

Definition checkReservedClockKwarg (v : string) : result error unit :=
  if String.eqb v "" || String.eqb v "wall" then Ok tt
  else if String.eqb v "virtual" then Err (Msg "clock=virtual requires gVisor (Path C); not available in this release")
  else Err (Msg "clock: must be wall (virtual reserved for a future release)").

Definition assumeFromArg (v : value) : result error AssumePredicate :=
  match v with
  | VCallable f => Ok (PredCall f)
  | VBool b => Ok (PredConst b)
  | _ => Err (got "predicate must be callable or bool" v)
  end.

(** The arguments of [test], unpacked. *)
Record TestArgs := mkTestArgs {
  ta_name : string; ta_body : Callable; ta_setup : value; ta_expect : value; ta_timeout : string;
  ta_terminate : value; ta_assume : value; ta_mock_state : value; ta_params : value; ta_clock : string }.

Definition expectation (text : string) (v : value) : result error (option (string * nat)) :=
  match v with VNone => Ok None | VExpectation t n => Ok (Some (t, n)) | _ => Err (got text v) end.

(** Errors under a place. *)
Definition within {A} (where_ : list string) (r : result error A) : result error A :=
  match r with Ok a => Ok a | Err e => Err (Within where_ e) end.

Definition test_params (v : value) : result error (option (list (value * value))) :=
  match v with
  | VNone => Ok None
  | VDict items => let? d := within ["params"] (freezeMockState items) in Ok (Some d)
  | _ => Err (Msg "params must be a dict")
  end.

Fixpoint mock_states (items : list (value * value)) (out : gmap string (list (value * value)))
    : result error (gmap string (list (value * value))) :=
  match items with
  | [] => Ok out
  | (VString service, state) :: items =>
      if String.eqb service "" then Err (Msg "mock_state keys must be non-empty service names")
      else match state with
           | VDict d => let? frozen := within ["mock_state"; service] (freezeMockState d) in mock_states items (<[service := frozen]> out)
           | _ => Err (Within ["mock_state"; service] (Msg "must be a dict"))
           end
  | _ :: _ => Err (Msg "mock_state keys must be non-empty service names")
  end.

Fixpoint assumes (i : Z) (l : list value) : result error (list AssumePredicate) :=
  match l with
  | [] => Ok []
  | v :: l => let? p := within ["assume"; show_Z i] (assumeFromArg v) in let? ps := assumes (i + 1) l in Ok (p :: ps)
  end.

(** The configuration, the checks in the source's order. *)
Definition test_config (a : TestArgs) : result error TestConfig :=
  let? params := test_params (ta_params a) in
  let? states := match ta_mock_state a with
                 | VNone => Ok ∅
                 | VDict items => mock_states items ∅
                 | _ => Err (Msg "mock_state must be a dict keyed by mock service names")
                 end in
  let? setup := match ta_setup a with
                | VNone => Ok None
                | VCallable f => Ok (Some f)
                | v => Err (got "setup= must be callable" v)
                end in
  let? expect := expectation "expect= must be eventually(...) or always(...)" (ta_expect a) in
  let? tw := expectation "terminate_when= must be eventually(...) or always(...)" (ta_terminate a) in
  let? timeout := if String.eqb (ta_timeout a) "" then Ok 0
                  else match ParseDuration (trim_space (ta_timeout a)) with
                       | Some d => Ok d
                       | None => Err (BadDuration "test" (ta_timeout a))
                       end in
  let? preds := match ta_assume a with
                | VNone => Ok []
                | VList l => assumes 0 l
                | v => Err (got "assume= must be a list of predicates" v)
                end in
  Ok (mkTestConfig params states (ta_body a) setup expect timeout tw preds).

Definition builtinTest (a : TestArgs) : M value := fun rt =>
  let here := ["test"; ta_name a] in
  match (let? _ := within here (checkReservedClockKwarg (ta_clock a)) in
         if String.eqb (ta_name a) "" then Err (Msg "test() name must be non-empty") else within here (test_config a)) with
  | Err e => (Err e, rt)
  | Ok cfg =>
      let fullName := "test_" +:+ ta_name a in
      match testConfigs rt !! fullName with
      | Some _ => (Err (Within here (Msg "a test with this name is already registered")), rt)
      | None => (Ok VNone, set_testConfigs (<[fullName := cfg]> (testConfigs rt)) rt)
      end
  end.

End Spec.

(** ** What the registrations keep *)
Module Registered.
Import Spec.

(** A table's keys are its entries' names; a matrix's cells are named after their scenario and fault. *)
Record registry_ok (rt : Runtime) : Prop := {
  scenarios_named : forall k fs, faultScenarios rt !! k = Some fs -> fs_name fs = k /\
    forall mi, fs_matrix fs = Some mi -> k = "matrix_" +:+ ScenarioName mi +:+ "_" +:+ FaultName mi;
  assumptions_named : forall k fa, faultAssumptions rt !! k = Some fa -> fa_name fa = k;
  tests_named : forall k cfg, testConfigs rt !! k = Some cfg -> exists n, n <> "" /\ k = "test_" +:+ n }.

Lemma claim_ok m : keeps registry_ok (claimMonitor m).
Proof. apply keeps_modify. intros rt []. by split. Qed.

Lemma monitors_arg_ok who v : keeps registry_ok (monitors_arg who v).
Proof. unfold monitors_arg. keeps_cases. apply claim_ok. Qed.

Lemma assumption_at_ok who i v : keeps registry_ok (assumption_at who i v).
Proof. unfold assumption_at. keeps_cases. Qed.
#[export] Hint Resolve claim_ok monitors_arg_ok assumption_at_ok : keeps.

Lemma assumption_kwarg_ok a kv : keeps registry_ok (assumption_kwarg a kv).
Proof. unfold assumption_kwarg. keeps_cases; auto with keeps. Qed.
Lemma scenario_kwarg_ok a kv : keeps registry_ok (scenario_kwarg a kv).
Proof. unfold scenario_kwarg. keeps_cases; auto with keeps. Qed.
Lemma matrix_kwarg_ok a kv : keeps registry_ok (matrix_kwarg a kv).
Proof. unfold matrix_kwarg. keeps_cases; auto with keeps. Qed.

(** A definition that may be registered. *)
Definition named_ok (fs : FaultScenarioDef) : Prop :=
  forall mi, fs_matrix fs = Some mi -> fs_name fs = "matrix_" +:+ ScenarioName mi +:+ "_" +:+ FaultName mi.

Lemma register_ok fs : named_ok fs -> keeps registry_ok (register fs).
Proof.
  intros Hfs. apply keeps_modify. intros rt [H1 H2 H3]. split; [|done..].
  intros k fs'. cbn. rewrite lookup_insert_Some. intros [[<- <-]|[_ H]]; [|by apply H1]. split; [done|]. apply Hfs.
Qed.

Lemma cell_ok a overrides sc fa : named_ok (cell a overrides sc fa).
Proof. intros mi [= <-]. done. Qed.

Lemma matrix_cells_in a excluded overrides fs : fs ∈ matrix_cells a excluded overrides <->
  exists sc fa, sc ∈ ma_scenarios a /\ fa ∈ ma_faults a /\ ((fn_name sc, fa_name fa) ∉ excluded) /\ fs = cell a overrides sc fa.
Proof.
  unfold matrix_cells. rewrite list_elem_of_bind. split.
  - intros (sc & (fa & H & Hfa)%list_elem_of_bind & Hsc). case_bool_decide; [by apply elem_of_nil in H|].
    apply list_elem_of_singleton in H. eauto 10.
  - intros (sc & fa & Hsc & Hfa & Hex & ->). exists sc. split; [|done]. apply list_elem_of_bind. exists fa. split; [|done].
    rewrite bool_decide_eq_false_2 by done. by apply list_elem_of_singleton.
Qed.

Inductive call :=
  | CScenario (args : list value)
  | CFaultAssumption (iter : gmap string FaultDef -> list (string * FaultDef)) (args : list value) (kwargs : list (string * value))
  | CFaultScenario (args : list value) (kwargs : list (string * value))
  | CFaultMatrix (kwargs : list (string * value))
  | CTest (a : TestArgs).

Definition run_call (c : call) : M value :=
  match c with
  | CScenario args => builtinScenario args
  | CFaultAssumption iter args kwargs => builtinFaultAssumption iter args kwargs
  | CFaultScenario args kwargs => builtinFaultScenario args kwargs
  | CFaultMatrix kwargs => builtinFaultMatrix kwargs
  | CTest a => builtinTest a
  end.

Lemma run_call_ok c : keeps registry_ok (run_call c).
Proof.
  destruct c as [args|iter args kwargs|args kwargs|kwargs|a]; cbn [run_call].
  - unfold builtinScenario. keeps_cases. apply keeps_modify. intros rt []. by split.
  - unfold builtinFaultAssumption, syscall_rules, proxy_rules. keeps_cases; auto using assumption_kwarg_ok.
    apply keeps_modify. intros rt [H1 H2 H3]. split; [done| |done]. intros k fa. cbn. rewrite lookup_insert_Some.
    intros [[<- <-]|[_ H]]; [done|]. by apply H2.
  - unfold builtinFaultScenario. keeps_cases; auto using scenario_kwarg_ok. apply register_ok. by intros mi.
  - unfold builtinFaultMatrix, exclude_key, override. apply keeps_bind; [auto using keeps_over, matrix_kwarg_ok|]. intros a.
    destruct (_ =? _)%nat; [apply keeps_fail|]. destruct (_ =? _)%nat; [apply keeps_fail|].
    apply keeps_bind; [keeps_cases|intros ex]. apply keeps_bind; [keeps_cases|intros ov].
    apply keeps_bind; [|intros; apply keeps_ret]. apply keeps_each_in. intros i fs (sc & fa & _ & _ & _ & ->)%matrix_cells_in.
    apply register_ok, cell_ok.
  - intros rt [H1 H2 H3]. unfold builtinTest. set (r := let? _ := _ in _). destruct r as [cfg|e] eqn:E; [|by split].
    assert (Hn : ta_name a <> "").
    { intros Hn. unfold r in E. rewrite Hn in E. clear r. destruct (within _ (checkReservedClockKwarg _)); discriminate E. }
    destruct (testConfigs rt !! _); [by split|]. split; [done..|]. intros k cfg'. cbn. rewrite lookup_insert_Some.
    intros [[<- _]|[_ H]]; [eauto|]. by eapply H3.
Qed.

(** The state after a sequence of calls; a failing call ends the loading of a file. *)
Fixpoint load (cs : list call) : M unit :=
  match cs with [] => ret tt | c :: cs => (run_call c ;; load cs) end.

Lemma load_ok cs : keeps registry_ok (load cs).
Proof. induction cs as [|c cs IH]; [apply keeps_ret|]. apply keeps_bind; [apply run_call_ok|done]. Qed.

(** ** The cells of a matrix *)

Definition insert_all (cells : list FaultScenarioDef) (m : gmap string FaultScenarioDef) : gmap string FaultScenarioDef :=
  foldl (fun m fs => <[fs_name fs := fs]> m) m cells.

Lemma register_all cells i rt :
  (each (fun _ => register) i cells rt).2 = set_faultScenarios (insert_all cells (faultScenarios rt)) rt /\
  is_ok (each (fun _ => register) i cells rt).1 = true.
Proof.
  revert i rt. induction cells as [|fs cells IH]; intros i rt; cbn; [by destruct rt|].
  unfold bind at 1 2. cbn. unfold bind. destruct (each _ (S i) cells _) as [[ys|e] rt'] eqn:E;
    specialize (IH (S i) (set_faultScenarios (<[fs_name fs:=fs]> (faultScenarios rt)) rt)); rewrite E in IH; cbn in *; naive_solver.
Qed.

Lemma insert_all_other cells m k : k ∉ fs_name <$> cells -> insert_all cells m !! k = m !! k.
Proof.
  revert m. induction cells as [|fs cells IH]; intros m Hk; [done|]. cbn in *. rewrite not_elem_of_cons in Hk.
  unfold insert_all in IH. rewrite IH by tauto. apply lookup_insert_ne. naive_solver.
Qed.

Lemma insert_all_in cells m fs : NoDup (fs_name <$> cells) -> fs ∈ cells -> insert_all cells m !! fs_name fs = Some fs.
Proof.
  revert m. induction cells as [|fs' cells IH]; intros m; cbn; [by intros _ ?%elem_of_nil|].
  intros [Hn Hd]%NoDup_cons [->|Hin]%elem_of_cons; [|by apply IH].
  pose proof (insert_all_other cells (<[fs_name fs' := fs']> m) _ Hn) as E. unfold insert_all in E. rewrite E. apply lookup_insert_eq.
Qed.

Definition pairs (scs : list Callable) (fas : list FaultAssumptionDef) : list (Callable * FaultAssumptionDef) :=
  sc ← scs; fa ← fas; [(sc, fa)].

Lemma pair_cells a excluded overrides :
  matrix_cells a excluded overrides =
  (fun p => cell a overrides p.1 p.2) <$> List.filter (fun p => negb (bool_decide ((fn_name p.1, fa_name p.2) ∈ excluded)))
    (pairs (ma_scenarios a) (ma_faults a)).
Proof.
  unfold matrix_cells, pairs. induction (ma_scenarios a) as [|sc scs IH]; [done|]. cbn. rewrite List.filter_app, fmap_app, <- IH.
  f_equal. clear IH. induction (ma_faults a) as [|fa fas IH]; [done|]. cbn. rewrite IH.
  by case_bool_decide; cbn.
Qed.

Lemma cells_nodup a excluded overrides :
  NoDup ((fun p => cell_name p.1 p.2) <$> pairs (ma_scenarios a) (ma_faults a)) ->
  NoDup (fs_name <$> matrix_cells a excluded overrides).
Proof.
  rewrite pair_cells. intros H. rewrite <- list_fmap_compose. by apply NoDup_fmap_filter.
Qed.

(** The keyword arguments of a matrix, with lists of excluded pairs and of overrides. *)
Definition matrix_kwargs (scs : list Callable) (fas : list FaultAssumptionDef) (expect : Callable)
    (ex : list (Callable * FaultAssumptionDef)) (ov : list (Callable * FaultAssumptionDef * Callable)) : list (string * value) :=
  [("scenarios", VList (VCallable <$> scs)); ("faults", VList (VAssumption <$> fas)); ("default_expect", VCallable expect);
   ("exclude", VList ((fun p => VTuple [VCallable p.1; VAssumption p.2]) <$> ex));
   ("overrides", VDict ((fun o => (VTuple [VCallable o.1.1; VAssumption o.1.2], VCallable o.2)) <$> ov))].

Definition matrix_args scs fas expect ex ov : MatrixArgs :=
  mkMatrixArgs scs fas (Some expect) []
    (Some ((fun o : Callable * FaultAssumptionDef * Callable => (VTuple [VCallable o.1.1; VAssumption o.1.2], VCallable o.2)) <$> ov))
    (Some ((fun p : Callable * FaultAssumptionDef => VTuple [VCallable p.1; VAssumption p.2]) <$> ex)) false.

Definition overriding (ov : list (Callable * FaultAssumptionDef * Callable)) : gmap (string * string) Callable :=
  foldl (fun m o => <[(fn_name o.1.1, fa_name o.1.2) := o.2]> m) ∅ ov.

Lemma over_override ov m rt :
  over override m ((fun o => (VTuple [VCallable o.1.1; VAssumption o.1.2], VCallable o.2)) <$> ov) rt =
  (Ok (foldl (fun m o => <[(fn_name o.1.1, fa_name o.1.2) := o.2]> m) m ov), rt).
Proof. revert m. induction ov as [|o ov IH]; intros m; [done|]. cbn. unfold bind. cbn. apply IH. Qed.

Lemma matrix_kwargs_read scs fas expect ex ov rt :
  over matrix_kwarg (mkMatrixArgs [] [] None [] None None false) (matrix_kwargs scs fas expect ex ov) rt =
  (Ok (matrix_args scs fas expect ex ov), rt).
Proof.
  unfold matrix_kwargs. cbn [over]. unfold matrix_kwarg at 1. cbn [String.eqb Ascii.eqb Bool.eqb].
  erewrite bind_ok; [|erewrite bind_ok; [|by apply (each_ok _ VCallable id)]; by rewrite list_fmap_id].
  erewrite bind_ok; [|cbn -[each]; erewrite bind_ok; [|by apply (each_ok _ VAssumption id)]; by rewrite list_fmap_id].
  done.
Qed.

Lemma matrix_runs scs fas expect ex ov rt : scs <> [] -> fas <> [] ->
  builtinFaultMatrix (matrix_kwargs scs fas expect ex ov) rt =
  (Ok VNone, set_faultScenarios (insert_all (matrix_cells (matrix_args scs fas expect ex ov)
     ((fun p => (fn_name p.1, fa_name p.2)) <$> ex) (overriding ov)) (faultScenarios rt)) rt).
Proof.
  intros Hs Hf. unfold builtinFaultMatrix. erewrite bind_ok; [|apply matrix_kwargs_read]. cbn [matrix_args ma_scenarios ma_faults ma_exclude ma_overrides].
  destruct scs as [|sc scs]; [done|]. destruct fas as [|fa fas]; [done|]. cbn [length Nat.eqb default].
  erewrite bind_ok; [|by apply (each_ok exclude_key _ (fun p => (fn_name p.1, fa_name p.2)))].
  erewrite bind_ok; [|apply over_override]. fold (overriding ov). set (cells := matrix_cells _ _ _).
  destruct (register_all cells 0 rt) as [E1 E2]. unfold bind. destruct (each _ 0 cells rt) as [[ys|e] rt']; cbn in E1, E2; [|done].
  by rewrite E1.
Qed.

(** [fault_matrix] registers the cross product.  When no two pairs give the same name, the call succeeds,
    every pair of a scenario and a fault that is not excluded is registered under its cell's name with the
    expectation its override or the default gives, and every other name keeps its entry. *)
Theorem fault_matrix_registers_cells scs fas expect ex ov rt :
  scs <> [] -> fas <> [] -> NoDup ((fun p => cell_name p.1 p.2) <$> pairs scs fas) ->
  let excluded := (fun p : Callable * FaultAssumptionDef => (fn_name p.1, fa_name p.2)) <$> ex in
  let a := matrix_args scs fas expect ex ov in
  exists rt', builtinFaultMatrix (matrix_kwargs scs fas expect ex ov) rt = (Ok VNone, rt') /\
    (forall sc fa, sc ∈ scs -> fa ∈ fas -> (fn_name sc, fa_name fa) ∉ excluded ->
       faultScenarios rt' !! cell_name sc fa =
         Some (mkFaultScenario (cell_name sc fa) sc [fa] (Some (default expect (overriding ov !! (fn_name sc, fa_name fa))))
                 [] thirty_seconds (Some (mkMatrix (fn_name sc) (fa_name fa))) false)) /\
    (forall k, (forall sc fa, sc ∈ scs -> fa ∈ fas -> k = cell_name sc fa -> (fn_name sc, fa_name fa) ∈ excluded) ->
       faultScenarios rt' !! k = faultScenarios rt !! k).
Proof.
  intros Hs Hf Hd excluded a. eexists. split; [by apply matrix_runs|]. cbn. fold excluded a.
  pose proof (cells_nodup a excluded (overriding ov) Hd) as Hnd. split.
  - intros sc fa Hsc Hfa Hex. assert (Hin : cell a (overriding ov) sc fa ∈ matrix_cells a excluded (overriding ov)).
    { apply matrix_cells_in. by exists sc, fa. }
    pose proof (insert_all_in _ (faultScenarios rt) _ Hnd Hin) as E. cbn in E. rewrite E. unfold cell. cbn.
    by destruct (overriding ov !! _).
  - intros k Hk. apply insert_all_other. intros (fs & -> & (sc & fa & Hsc & Hfa & Hex & ->)%matrix_cells_in)%list_elem_of_fmap.
    by apply Hex, Hk.
Qed.

Definition order_flow : Callable := mkCallable "order_flow" "function" 0.
Definition db_down : FaultAssumptionDef := mkAssumption "db_down" "" [] [] [].
Definition expects : Callable := mkCallable "expects" "function" 1.
Definition empty_runtime : Runtime := mkRuntime ∅ [] ∅ ∅ ∅ [] [] ∅.

Lemma fault_matrix_registers_cells_witness :
  exists rt', builtinFaultMatrix (matrix_kwargs [order_flow] [db_down] expects [] []) empty_runtime = (Ok VNone, rt') /\
    faultScenarios rt' !! "matrix_order_flow_db_down" =
      Some (mkFaultScenario "matrix_order_flow_db_down" order_flow [db_down] (Some expects) [] thirty_seconds
              (Some (mkMatrix "order_flow" "db_down")) false).
Proof.
  destruct (fault_matrix_registers_cells [order_flow] [db_down] expects [] [] empty_runtime) as (rt' & H1 & H2 & _);
    [done|done|apply NoDup_singleton|]. exists rt'. split; [done|].
  apply (H2 order_flow db_down); [by left|by left|by intros ?%elem_of_nil].
Defined.

(** Two pairs can share a name: one of the two cells is not registered. *)
Lemma cell_names_collide :
  let fn n := mkCallable n "function" 0 in let fa n := mkAssumption n "" [] [] [] in
  let rt' := (builtinFaultMatrix (matrix_kwargs [fn "pay"; fn "pay_db"] [fa "db_down"; fa "down"] expects [] []) empty_runtime).2 in
  length (pairs [fn "pay"; fn "pay_db"] [fa "db_down"; fa "down"]) = 4%nat /\ size (faultScenarios rt') = 3%nat.
Proof. vm_compute. done. Qed.

End Registered.

(** ** The state a mock starts from *)
Module MockState.
Import Spec.

(** A value that JSON can hold, and how deep it nests. *)
Fixpoint json (v : value) : bool :=
  match v with
  | VNone | VBool _ | VInt _ | VString _ => true
  | VFloat f => is_finite f
  | VDict items => forallb (fun kv => match kv with (VString _, v) => json v | _ => false end) items
  | VList l => forallb json l
  | _ => false
  end.

Fixpoint height (v : value) : Z :=
  match v with
  | VDict items => foldr (fun kv n => Z.max (1 + height kv.2) n) 0 items
  | VList l => foldr (fun v n => Z.max (1 + height v) n) 0 l
  | _ => 0
  end.

(** Induction through the lists of a value. *)
Lemma value_rect_nested (P : value -> Prop) :
  (forall l, Forall P l -> P (VList l)) -> (forall items, Forall (fun kv => P kv.2) items -> P (VDict items)) ->
  (forall v, (forall l, v <> VList l) -> (forall items, v <> VDict items) -> P v) -> forall v, P v.
Proof.
  intros Hl Hd Ho. fix IH 1. intros v. destruct v; try (apply Ho; congruence).
  - apply Hl. induction l as [|v l IHl]; constructor; [apply IH|exact IHl].
  - apply Hd. induction items as [|[k v] items IHi]; constructor; [apply IH|exact IHi].
Qed.

Lemma collect_copies {A} (f : A -> result error A) (Q : A -> Prop) l out :
  Forall (fun x => forall y, f x = Ok y <-> y = x /\ Q x) l -> collect f l = Ok out <-> out = l /\ Forall Q l.
Proof.
  intros H. revert out. induction H as [|x l Hx _ IH]; intros out; cbn.
  { split; [intros [= <-]; done|by intros [-> _]]. }
  rewrite Forall_cons. destruct (f x) as [y|e]; cbn.
  - destruct (proj1 (Hx y) eq_refl) as [-> HQ]. destruct (collect f l) as [ys|e]; cbn.
    + destruct (proj1 (IH ys) eq_refl) as [-> Hl]. split; [intros [= <-]; done|by intros [-> _]].
    + split; [done|]. intros (-> & _ & Hl). by discriminate (proj2 (IH l) (conj eq_refl Hl)).
  - split; [done|]. intros (-> & HQ & _). by discriminate (proj2 (Hx x) (conj eq_refl HQ)).
Qed.

Lemma levels_le {A} (h : A -> Z) l d : d + foldr (fun x n => Z.max (1 + h x) n) 0 l <= 100 <->
  d <= 100 /\ Forall (fun x => d + 1 + h x <= 100) l.
Proof.
  induction l as [|x l IH]; cbn; [split; [split; [lia|done]|lia]|]. rewrite Forall_cons.
  set (n := foldr _ 0 l) in *. assert (E : d + Z.max (1 + h x) n <= 100 <-> d + 1 + h x <= 100 /\ d + n <= 100) by lia.
  rewrite E. tauto.
Qed.

Lemma forallb_Forall {A} (p : A -> bool) l : forallb p l = true <-> Forall (fun x => p x = true) l.
Proof. induction l as [|x l IH]; cbn; [by split|]. by rewrite Forall_cons, andb_true_iff, IH. Qed.

(** Copying succeeds exactly on JSON values of at most 100 levels, and gives the value. *)
Lemma copyMockState_spec v d w :
  copyMockState v d = Ok w <-> w = v /\ json v = true /\ d + height v <= 100.
Proof.
  revert d w. induction v as [l IH|items IH|v Hl Hd] using value_rect_nested; intros d w.
  - cbn [copyMockState json height]. rewrite levels_le, forallb_Forall. destruct (Z.ltb_spec 100 d) as [Hlt|Hle].
    { split; [done|]. intros (_ & _ & H & _). lia. }
    pose proof (collect_copies (fun v => copyMockState v (d + 1)) (fun v => json v = true /\ d + 1 + height v <= 100) l) as E.
    destruct (collect _ l) as [out|e]; cbn.
    + destruct (proj1 (E out ltac:(eapply Forall_impl; [exact IH|]; intros v Hv y; apply Hv)) eq_refl) as [-> [H1 H2]%Forall_and].
      split; [intros [= <-]; done|by intros (-> & _)].
    + split; [done|]. intros (_ & H1 & _ & H2). by discriminate (proj2 (E l ltac:(eapply Forall_impl; [exact IH|]; intros v Hv y; apply Hv)) (conj eq_refl (proj2 (Forall_and _ _) (conj H1 H2)))).
  - cbn [copyMockState json height]. rewrite (levels_le (fun kv => height kv.2)), forallb_Forall. destruct (Z.ltb_spec 100 d) as [Hlt|Hle].
    { split; [done|]. intros (_ & _ & H & _). lia. }
    set (f := fun kv : value * value => _).
    assert (E : forall out, collect f items = Ok out <-> out = items /\ Forall (fun kv => (match kv with (VString _, v) => json v | _ => false end) = true /\ d + 1 + height kv.2 <= 100) items).
    { intros out. apply collect_copies. eapply Forall_impl; [exact IH|]. intros [k v] Hv [k' y]. unfold f. cbn [snd] in *.
      destruct k; try (split; [done|by intros (_ & ? & _)]).
      destruct (copyMockState v (d + 1)) as [item|e] eqn:Ei; cbn.
      - apply Hv in Ei as (-> & H1 & H2). split; [intros [= <- <-]; done|by intros (-> & _)].
      - split; [done|]. intros (_ & H). by rewrite (proj2 (Hv (d + 1) v) (conj eq_refl H)) in Ei. }
    destruct (collect f items) as [out|e]; cbn.
    + destruct (proj1 (E out) eq_refl) as [-> [H1 H2]%Forall_and]. split; [intros [= <-]; done|by intros (-> & _)].
    + split; [done|]. intros (_ & H1 & _ & H2). by discriminate (proj2 (E items) (conj eq_refl (proj2 (Forall_and _ _) (conj H1 H2)))).
  - assert (Hh : height v = 0) by (destruct v; try done; [by destruct (Hl l)|by destruct (Hd items)]). rewrite Hh.
    destruct v; cbn [copyMockState json]; try (by destruct (Hl l)); try (by destruct (Hd items));
      destruct (Z.ltb_spec 100 d); try (split; [done|by intros (_ & ? & ?); lia]);
      try (destruct (is_finite f)); (split; [intros [= <-]; repeat split; lia|by intros (-> & ?)]) || (split; [done|by intros (_ & ? & _)]).
Qed.

Lemma freezeMockState_copies items out :
  freezeMockState items = Ok out <-> out = items /\ json (VDict items) = true /\ height (VDict items) <= 100.
Proof.
  unfold freezeMockState. destruct (copyMockState (VDict items) 0) as [w|e] eqn:E; cbn [result_bind].
  - apply copyMockState_spec in E as (-> & Hj & Hh). split; [intros [= <-]; repeat split; [done|lia]|by intros (-> & _)].
  - split; [done|]. intros (-> & Hj & Hh). assert (H : Err e = Ok (VDict items)); [|discriminate H].
    rewrite <- E. apply copyMockState_spec. repeat split; [done|lia].
Qed.

End MockState.
