(* ===== verification/Order.v ===== *)
(** * The order in which services start ([internal/config/config.go], [internal/star/runtime.go])

    [DependencyOrder] walks the dependencies of the services depth first; [registerService] keeps
    the order up to date, and falls back to the sorted names when the dependencies are circular.
    The theorems say that the walk ends, that the order puts every dependency first, and that it is
    refused exactly for a circular dependency. *)

From Stdlib Require Import ZArith Lia.
From S2P Require Import Prelude FaultRule Registry.
From stdpp Require Import base gmap sets strings relations sorting numbers list.
Import FaultRule Registry.Spec.

Module Order.

(** The names each service depends on; a name without an entry depends on nothing. *)
Abbreviation graph := (gmap string (list string)).
Definition deps (g : graph) (name : string) : list string := default [] (g !! name).

(** [for _, dep := range] with its early return. *)
Fixpoint visit_deps (visit : string -> list string -> option (result string (list string))) (names order : list string)
    : option (result string (list string)) :=
  match names with
  | [] => Some (Ok order)
  | name :: names =>
      match visit name order with
      | Some (Ok order) => visit_deps visit names order
      | r => r
      end
  end.

(** [visit]: the names visited are those of [order]; the mark [visiting] is removed when the call returns, so
    it is an argument.  [None] is out of fuel, and an error names the service met twice. *)
Fixpoint visit (g : graph) (fuel : nat) (visiting : gset string) (name : string) (order : list string)
    : option (result string (list string)) :=
  match fuel with
  | O => None
  | S fuel =>
      if bool_decide (name ∈ order) then Some (Ok order)
      else if bool_decide (name ∈ visiting) then Some (Err name)
      else match visit_deps (visit g fuel ({[name]} ∪ visiting)) (deps g name) order with
           | Some (Ok order) => Some (Ok (order ++ [name]))
           | r => r
           end
  end.

(** Chains of distinct services, one name without a service, and one met again. *)
Definition visit_fuel (g : graph) : nat := size g + 2.

(** [names] is the order in which Go visits the map. *)
Definition DependencyOrder (names : list string) (g : graph) : option (result string (list string)) :=
  visit_deps (visit g (visit_fuel g) ∅) names [].

Definition graph_of (services : gmap string ServiceDef) : graph := sv_depends <$> services.

Definition dependencyOrder (names : list string) (services : gmap string ServiceDef) : option (list string) :=
  match DependencyOrder names (graph_of services) with
  | None => None
  | Some (Ok order) => Some order
  | Some (Err _) => Some (sort_strings (map_to_list services).*1)
  end.

(** What a spec declared: services with their order, and clients with the service and interface they call. *)
Record Declared := mkDeclared { d_services : gmap string ServiceDef; d_clients : gmap string (string * string); d_order : list string }.

(** A client of the same name is an error: its service and interface. *)
Definition registerService (visits : gmap string ServiceDef -> list string) (svc : ServiceDef) (d : Declared)
    : option (result (string * string) Declared) :=
  match d_clients d !! sv_name svc with
  | Some target => Some (Err target)
  | None =>
      let services := <[sv_name svc := svc]> (d_services d) in
      (fun order => Ok (mkDeclared services (d_clients d) order)) <$> dependencyOrder (visits services) services
  end.

(** ** The walk *)

Section Walk.
Context (g : graph).

Definition needs (a b : string) : Prop := b ∈ deps g a.

(** Every dependency comes first, and no name twice. *)
Record ordered (order : list string) : Prop := {
  once : NoDup order;
  first : forall i n d, order !! i = Some n -> d ∈ deps g n -> exists j, (j < i)%nat /\ order !! j = Some d }.

Lemma ordered_snoc order n : ordered order -> n ∉ order -> (forall d, d ∈ deps g n -> d ∈ order) -> ordered (order ++ [n]).
Proof.
  intros [H1 H2] Hn Hd. split.
  - apply NoDup_app. split_and!; [done| |apply NoDup_singleton]. intros x Hx ->%list_elem_of_singleton. done.
  - intros i m d. rewrite lookup_app_Some. intros [Hi|[Hl Hi]] Hin.
    + destruct (H2 i m d Hi Hin) as (j & Hj & E). exists j. split; [done|]. by apply lookup_app_l_Some.
    + apply list_lookup_singleton_Some in Hi as [Hi <-]. destruct (list_elem_of_lookup_1 _ _ (Hd d Hin)) as [j Hj].
      pose proof (lookup_lt_Some _ _ _ Hj). exists j. split; [lia|]. by apply lookup_app_l_Some.
Qed.

(** What a visit of [names] makes of an order. *)
Record extends (visiting : gset string) (names order order' : list string) : Prop := {
  ex_ordered : ordered order';
  ex_keeps : forall n, n ∈ order -> n ∈ order';
  ex_has : forall n, n ∈ names -> n ∈ order';
  ex_from : forall n, n ∈ order' -> n ∈ order \/ exists s, s ∈ names /\ rtc needs s n;
  ex_free : forall n, n ∈ order' -> n ∈ visiting -> n ∈ order }.

Definition outcome (visiting : gset string) (names order : list string) (r : option (result string (list string))) : Prop :=
  match r with
  | Some (Ok order') => extends visiting names order order'
  | Some (Err e) => tc needs e e
  | None => False
  end.

Lemma deps_outcome f visiting names : forall order, ordered order ->
  (forall n order, n ∈ names -> ordered order -> outcome visiting [n] order (f n order)) -> outcome visiting names order (visit_deps f names order).
Proof.
  induction names as [|n names IH]; intros order Ho Hf.
  { split; try done; [by intros n ?%elem_of_nil|auto]. }
  cbn [visit_deps]. pose proof (Hf n order (list_elem_of_here _ _) Ho) as H. destruct (f n order) as [[o1|e]|]; [|exact H|exact H].
  destruct H as [A1 A2 A3 A4 A5]. pose proof (IH o1 A1 (fun m o Hm => Hf m o (list_elem_of_further _ _ _ Hm))) as H2.
  destruct (visit_deps f names o1) as [[o2|e]|]; [|exact H2|exact H2]. destruct H2 as [B1 B2 B3 B4 B5]. split; [done|auto| | |auto].
  - intros m [->|Hm]%elem_of_cons; [apply B2, A3; by left|auto].
  - intros m [H|(s & Hs & Hr)]%B4; [apply A4 in H as [H|(s & ->%list_elem_of_singleton & Hr)]; [by left|right; exists n; split; [by left|done]]
    |right; exists s; split; [by right|done]].
Qed.

Lemma visit_outcome fuel : forall visiting n order, visiting ⊆ dom g -> (size g + 2 <= fuel + size visiting)%nat ->
  (forall v, v ∈ visiting -> tc needs v n) -> ordered order -> outcome visiting [n] order (visit g fuel visiting n order).
Proof.
  induction fuel as [|fuel IH]; intros visiting n order Hsub Hfuel Hpath Ho.
  { apply subseteq_size in Hsub. rewrite size_dom in Hsub. lia. }
  cbn [visit]. case_bool_decide as Hn.
  { split; try done; [by intros m ->%list_elem_of_singleton|auto]. }
  case_bool_decide as Hv; [by apply Hpath|].
  assert (H : outcome ({[n]} ∪ visiting) (deps g n) order (visit_deps (visit g fuel ({[n]} ∪ visiting)) (deps g n) order)).
  { destruct (g !! n) as [ds|] eqn:E; [|unfold deps; rewrite E; by apply deps_outcome; [|intros ? ? ?%elem_of_nil]].
    apply deps_outcome; [done|]. intros d o Hd Hod. apply IH; [| | |done].
    - apply elem_of_dom_2 in E. set_solver.
    - rewrite size_union by set_solver. rewrite size_singleton. lia.
    - intros v [->%elem_of_singleton|Hin]%elem_of_union; [by apply tc_once|]. eapply tc_r; [by apply Hpath|done]. }
  destruct (visit_deps _ _ order) as [[o1|e]|]; [|exact H|exact H]. destruct H as [A1 A2 A3 A4 A5].
  assert (Hfresh : n ∉ o1) by (intros Hin; apply Hn, A5; [done|set_solver]). split.
  - by apply ordered_snoc.
  - intros m Hm. apply elem_of_app. left. by apply A2.
  - intros m ->%list_elem_of_singleton. apply elem_of_app. right. by left.
  - intros m [[H|(s & Hs & Hr)]%A4| ->%list_elem_of_singleton]%elem_of_app; [by left| |]; right; exists n; (split; [by left|]); [|done].
    by eapply rtc_l.
  - intros m [H| ->%list_elem_of_singleton]%elem_of_app Hm; [apply A5; [done|set_solver]|done].
Qed.

End Walk.

Lemma order_outcome names (g : graph) : outcome g ∅ names [] (DependencyOrder names g).
Proof.
  apply deps_outcome; [split; [apply NoDup_nil_2|done]|]. intros m o _ Ho. apply visit_outcome; [set_solver|unfold visit_fuel; lia|set_solver|done].
Qed.

(** C14: The services start in the order of their dependencies.  Whatever order Go visits the table
    in, the walk ends; when it gives an order, that has every service and everything a service reaches
    through dependencies, each name once, and each after everything it depends on; when it refuses, it names a
    service that depends on itself through others. *)
Theorem dependency_order_correct names (g : graph) :
  (forall n, n ∈ names <-> n ∈ dom g) ->
  match DependencyOrder names g with
  | Some (Ok order) => ordered g order /\ forall n, n ∈ order <-> exists s, s ∈ dom g /\ rtc (needs g) s n
  | Some (Err e) => tc (needs g) e e
  | None => False
  end.
Proof.
  intros Hn. pose proof (order_outcome names g) as H. destruct (DependencyOrder names g) as [[order|e]|]; [|exact H|exact H]. destruct H as [A1 _ A3 A4 _]. split; [done|]. intros n. split.
  - intros [?%elem_of_nil|(s & Hs & Hr)]%A4; [done|]. exists s. by rewrite <- Hn.
  - intros (s & Hs%Hn & Hr). apply A3 in Hs. clear A3 A4. induction Hr as [|x y z Hxy _ IH]; [done|]. apply IH.
    destruct (list_elem_of_lookup_1 _ _ Hs) as [i Hi]. destruct (first g order A1 i x y Hi Hxy) as (j & _ & Hj). by eapply list_elem_of_lookup_2.
Qed.

Definition three_services : graph := {["api" := ["cache"; "db"]; "db" := []; "cache" := ["db"]]}.

Lemma dependency_order_correct_witness :
  DependencyOrder ["api"; "db"; "cache"] three_services = Some (Ok ["db"; "cache"; "api"]) /\ ordered three_services ["db"; "cache"; "api"].
Proof.
  assert (E : DependencyOrder ["api"; "db"; "cache"] three_services = Some (Ok ["db"; "cache"; "api"])) by (vm_compute; reflexivity).
  split; [exact E|]. assert (Hn : forall n, n ∈ ["api"; "db"; "cache"] <-> n ∈ dom three_services).
  { intros n. unfold three_services. rewrite !dom_insert_L, dom_singleton_L, !elem_of_cons, elem_of_nil, !elem_of_union, !elem_of_singleton. tauto. }
  pose proof (dependency_order_correct ["api"; "db"; "cache"] three_services Hn) as H. rewrite E in H. exact (proj1 H).
Defined.

(** Services without an order between them start in the order in which Go visits the table. *)
Example order_follows_iteration :
  DependencyOrder ["a"; "b"] {["a" := []; "b" := []]} = Some (Ok ["a"; "b"]) /\
  DependencyOrder ["b"; "a"] {["a" := []; "b" := []]} = Some (Ok ["b"; "a"]).
Proof. split; vm_compute; reflexivity. Qed.

(** A dependency that no service has the name of is in the order. *)
Lemma unknown_dependency_ordered names (g : graph) order s n :
  (forall n, n ∈ names <-> n ∈ dom g) -> DependencyOrder names g = Some (Ok order) -> s ∈ dom g -> n ∈ deps g s -> n ∈ order.
Proof.
  intros Hn E Hs Hd. pose proof (order_outcome names g) as Hv. rewrite E in Hv. destruct Hv as [A1 _ A3 _ _]. apply Hn, A3 in Hs. destruct (list_elem_of_lookup_1 _ _ Hs) as [i Hi].
  destruct (first g order A1 i s n Hi Hd) as (j & _ & Hj). by eapply list_elem_of_lookup_2.
Qed.

End Order.
