(* ===== verification/FaultBuiltins.v ===== *)
(** * The builtins that make faults ([internal/star/builtins.go], [types.go])

    [delay], [deny], [allow], [op] and the protocol faults [response], [error], [drop] and
    [duplicate], with the reading of probabilities ([parseProbability] and the [%f] verb of
    [fmt.Sscanf]) and the translation of a protocol fault into a proxy rule. *)

From Stdlib Require Import ZArith Lia Ascii SpecFloat.
From S2P Require Import Prelude GoStd GoText FaultRule ProxyCore Registry.
From stdpp Require Import base gmap sets strings sorting numbers list.
Local Open Scope Z_scope.
Import GoStd GoText FaultRule Registry.Spec.

(** ** [fmt.Sscanf] with the verb [%f] *)
Module Scan.

Definition in_chars (cs : string) (c : ascii) : bool := has_char c cs.

(** Accepting one character of a set: the token so far and what is left. *)
Definition accept (cs : string) (st : string * string) : option (string * string) :=
  match st.2 with
  | String c r => if in_chars cs c then Some (st.1 +:+ String c "", r) else None
  | EmptyString => None
  end.

Definition accept_opt (cs : string) (st : string * string) : string * string := default st (accept cs st).

Fixpoint accept_run (cs tok rest : string) : string * string :=
  match rest with
  | String c r => if in_chars cs c then accept_run cs (tok +:+ String c "") r else (tok, rest)
  | EmptyString => (tok, rest)
  end.

Definition decimal : string := "0123456789_".
Definition hexadecimal : string := "0123456789aAbBcCdDeEfF_".

(** Accepting the characters of a word one after the other: how far it got, and whether to the end. *)
Fixpoint accept_word (cs : list string) (st : string * string) : bool * (string * string) :=
  match cs with
  | [] => (true, st)
  | c :: cs => match accept c st with Some st => accept_word cs st | None => (false, st) end
  end.

Definition floatToken (s : string) : string :=
  let '(nan, st) := accept_word ["nN"; "aA"; "nN"] ("", s) in
  if nan then st.1
  else
    let st := accept_opt "+-" st in
    let '(inf, st) := accept_word ["iI"; "nN"; "fF"] st in
    if inf then st.1
    else
      let '(hex, st) := accept_word ["0"; "xX"] st in
      let digits := if hex then hexadecimal else decimal in
      let st := accept_run digits st.1 st.2 in
      let st := match accept "." st with Some st => accept_run digits st.1 st.2 | None => st end in
      match accept (if hex then "pP" else "eEpP") st with
      | Some st => let st := accept_opt "+-" st in (accept_run decimal st.1 st.2).1
      | None => st.1
      end.

Definition has_x (s : string) : bool := has_char "x" s || has_char "X" s.

(** A decimal mantissa may carry a power of two. *)
Definition convertFloat (s : string) : option float64 :=
  match scut "p" s with
  | Some (m, e) =>
      if has_x s then ParseFloat s
      else match ParseFloat m, atoi e with
           | Some f, Some e => Some (SFldexp f64_prec f64_emax f e)
           | _, _ => None
           end
  | None => ParseFloat s
  end.

(** What scanning one float from the text stores; nothing on an error. *)
Definition scan_float (s : string) : option float64 :=
  let s := trim_left s in if String.eqb s "" then None else convertFloat (floatToken s).

End Scan.

Module Faults.

Definition hundred : float64 := f64_of_Z 100.

(** [Int64] of a Starlark integer: zero when it does not fit. *)
Definition int64_of (z : Z) : Z := if in_int64 z then z else 0.

Definition parseProbability (v : value) : float64 :=
  let p := match v with
           | VFloat f => f
           | VInt z => f64_of_Z (int64_of z)
           | _ => default f64_0 (Scan.scan_float (trim_suffix (default "" (as_string v)) "%"))
           end in
  if f64_gt p f64_1 then f64_div p hundred else p.

Fixpoint starKwarg (kwargs : list (string * value)) (name : string) : option value :=
  match kwargs with
  | [] => None
  | (k, v) :: kwargs => if String.eqb k name then Some v else starKwarg kwargs name
  end.

Definition parseStarDuration (s : string) : option Z := ParseDuration (trim_space s).

Definition refuse {A} (who text : string) : result error A := Err (Msg (who +:+ "(): " +:+ text)).

Definition max_fires_arg (who : string) (kwargs : list (string * value)) (prob : float64) : result error Z :=
  match starKwarg kwargs "max_fires" with
  | None => Ok 0
  | Some (VInt n) =>
      if negb ((- 2 ^ 31 <=? n) && (n <? 2 ^ 31)) then refuse who "max_fires must be an integer, got int"
      else if n <=? 0 then refuse who ("max_fires must be > 0, got " +:+ show_Z n)
      else if f64_ge prob f64_1 then refuse who "max_fires= is only meaningful with probability < 1"
      else Ok n
  | Some v => refuse who ("max_fires must be an integer, got " +:+ type_name v)
  end.

Definition mode_arg (who : string) (kwargs : list (string * value)) : result error string :=
  match starKwarg kwargs "mode" with
  | None => Ok ""
  | Some v =>
      let s := default "" (as_string v) in
      if String.eqb s "exhaustive" || String.eqb s "stochastic" then Ok s
      else refuse who "mode= must be exhaustive or stochastic"
  end.

(** The two keywords of an enumerated fault, and the checks in the source's order. *)
Definition parseProbabilityFanoutKwargs (who : string) (kwargs : list (string * value)) (prob : float64)
    : result error (Z * string) :=
  let? maxFires := max_fires_arg who kwargs prob in
  let? mode := mode_arg who kwargs in
  if (0 <? maxFires) && String.eqb mode "stochastic" then refuse who "max_fires= is incompatible with mode=stochastic"
  else if String.eqb mode "exhaustive" && (maxFires =? 0) then refuse who "mode=exhaustive requires max_fires= > 0"
  else Ok (maxFires, if String.eqb mode "" && (0 <? maxFires) then "exhaustive" else mode).

(** The one positional string of [delay] and [deny]. *)
Definition one_string (who : string) (args : list value) : result error string :=
  match args with
  | [VString s] => Ok s
  | [v] => Err (got (who +:+ ": for parameter 1: want string") v)
  | _ => Err (Msg (who +:+ ": got " +:+ show_Z (Z.of_nat (length args)) +:+ " arguments, want 1"))
  end.

(** What [delay] and [deny] read alike. *)
Definition probability_of (kwargs : list (string * value)) : float64 :=
  match starKwarg kwargs "probability" with Some v => parseProbability v | None => f64_1 end.
Definition label_of (kwargs : list (string * value)) : string :=
  match starKwarg kwargs "label" with Some v => default "" (as_string v) | None => "" end.

(** ** Protocol faults *)

Definition proxy_fault (action : string) : ProxyFaultDef := mkProxyFault "" "" "" "" "" "" action 0 "" "" 0 f64_0.

(** The shared matchers; [None] for a keyword that is not one. *)
Definition parseProxyMatcherKwarg (p : ProxyFaultDef) (key : string) (v : value) : option ProxyFaultDef :=
  let s := default "" (as_string v) in
  let '(mkProxyFault me pa qu ke to co ac st bo er de pr) := p in
  if String.eqb key "method" || String.eqb key "op" then Some (mkProxyFault s pa qu ke to co ac st bo er de pr)
  else if String.eqb key "path" then Some (mkProxyFault me s qu ke to co ac st bo er de pr)
  else if String.eqb key "query" then Some (mkProxyFault me pa s ke to co ac st bo er de pr)
  else if String.eqb key "command" then Some (mkProxyFault me pa qu ke to s ac st bo er de pr)
  else if String.eqb key "key" || String.eqb key "collection" then Some (mkProxyFault me pa qu s to co ac st bo er de pr)
  else if String.eqb key "topic" || String.eqb key "subject" then Some (mkProxyFault me pa qu ke s co ac st bo er de pr)
  else if String.eqb key "probability" then Some (mkProxyFault me pa qu ke to co ac st bo er de (parseProbability v))
  else None.

Definition with_status (v : value) (p : ProxyFaultDef) : ProxyFaultDef :=
  match v with
  | VInt z => mkProxyFault (pf_method p) (pf_path p) (pf_query p) (pf_key p) (pf_topic p) (pf_command p) (pf_action p)
                (int64_of z) (pf_body p) (pf_error p) (pf_delay p) (pf_prob p)
  | _ => p
  end.
Definition with_body (s : string) (p : ProxyFaultDef) : ProxyFaultDef :=
  mkProxyFault (pf_method p) (pf_path p) (pf_query p) (pf_key p) (pf_topic p) (pf_command p) (pf_action p)
    (pf_status p) s (pf_error p) (pf_delay p) (pf_prob p).
Definition with_message (s : string) (p : ProxyFaultDef) : ProxyFaultDef :=
  mkProxyFault (pf_method p) (pf_path p) (pf_query p) (pf_key p) (pf_topic p) (pf_command p) (pf_action p)
    (pf_status p) (pf_body p) s (pf_delay p) (pf_prob p).
Definition with_delay (d : Z) (p : ProxyFaultDef) : ProxyFaultDef :=
  mkProxyFault (pf_method p) (pf_path p) (pf_query p) (pf_key p) (pf_topic p) (pf_command p) (pf_action p)
    (pf_status p) (pf_body p) (pf_error p) d (pf_prob p).

(** The loop over the keywords: a shared matcher, one of the builtin's own, or an error. *)
Fixpoint proxy_kwargs (own : string -> value -> ProxyFaultDef -> result error ProxyFaultDef)
    (kwargs : list (string * value)) (p : ProxyFaultDef) : result error ProxyFaultDef :=
  match kwargs with
  | [] => Ok p
  | (key, v) :: kwargs =>
      match parseProxyMatcherKwarg p key v with
      | Some p => proxy_kwargs own kwargs p
      | None => let? p := own key v p in proxy_kwargs own kwargs p
      end
  end.

Definition builtinProxyResponse (kwargs : list (string * value)) : result error value :=
  let? p := proxy_kwargs (fun key v p =>
    if String.eqb key "status" then Ok (with_status v p)
    else if String.eqb key "body" || String.eqb key "value" then Ok (with_body (default "" (as_string v)) p)
    else Err (Unexpected "response" key)) kwargs (proxy_fault "respond") in
  Ok (VProxyFault p).

Definition builtinProxyError (kwargs : list (string * value)) : result error value :=
  let? p := proxy_kwargs (fun key v p =>
    if String.eqb key "message" then Ok (with_message (default "" (as_string v)) p)
    else if String.eqb key "status" then Ok (with_status v p)
    else Err (Unexpected "error" key)) kwargs (proxy_fault "error") in
  Ok (VProxyFault p).

Definition builtinProxyDrop (kwargs : list (string * value)) : result error value :=
  let? p := proxy_kwargs (fun key _ _ => Err (Unexpected "drop" key)) kwargs (proxy_fault "drop") in Ok (VProxyFault p).

Fixpoint duplicate_kwargs (kwargs : list (string * value)) (p : ProxyFaultDef) : result error ProxyFaultDef :=
  match kwargs with
  | [] => Ok p
  | (key, v) :: kwargs =>
      if String.eqb key "topic" || String.eqb key "subject" || String.eqb key "probability" then
        duplicate_kwargs kwargs (default p (parseProxyMatcherKwarg p key v))
      else Err (Unexpected "duplicate" key)
  end.
Definition builtinProxyDuplicate (kwargs : list (string * value)) : result error value :=
  let? p := duplicate_kwargs kwargs (proxy_fault "duplicate") in Ok (VProxyFault p).

Definition proxy_action (action : string) : Rules.Action :=
  if String.eqb action "respond" then Rules.ActionRespond
  else if String.eqb action "error" then Rules.ActionError
  else if String.eqb action "delay" then Rules.ActionDelay
  else if String.eqb action "drop" then Rules.ActionDrop
  else if String.eqb action "duplicate" then Rules.ActionDuplicate
  else Rules.ActionRespond.

Definition proxyFaultToRule (p : ProxyFaultDef) : Rules.Rule :=
  Rules.mkRule (pf_method p) (pf_path p) (pf_query p) (pf_key p) (pf_topic p) (pf_command p) (proxy_action (pf_action p))
    (pf_status p) (pf_body p) (pf_error p) (pf_delay p) (pf_prob p).

(** ** Syscall faults *)

Definition builtinDelay (args : list value) (kwargs : list (string * value)) : result error value :=
  match args with
  | [] =>
      let? p := proxy_kwargs (fun key v p =>
        if String.eqb key "delay" then
          let s := default "" (as_string v) in
          match parseStarDuration s with Some d => Ok (with_delay d p) | None => Err (BadDuration "delay" s) end
        else Err (Unexpected "delay" key)) kwargs (proxy_fault "delay") in
      if pf_delay p =? 0 then Err (Msg "delay() requires delay= or a positional duration argument") else Ok (VProxyFault p)
  | _ =>
      let? s := one_string "delay" args in
      match parseStarDuration s with
      | None => Err (BadDuration "delay" s)
      | Some dur =>
          let prob := probability_of kwargs in
          let? mm := parseProbabilityFanoutKwargs "delay" kwargs prob in
          Ok (VFault (mkFault "delay" dur "" prob (label_of kwargs) "" "" mm.1 mm.2))
      end
  end.

Definition builtinDeny (args : list value) (kwargs : list (string * value)) : result error value :=
  let? errno := one_string "deny" args in
  let prob := probability_of kwargs in
  let? mm := parseProbabilityFanoutKwargs "deny" kwargs prob in
  let errnoUpper := to_upper errno in
  if negb (ValidErrno errnoUpper) then Err (Msg ("deny(): unknown errno " +:+ errnoUpper))
  else Ok (VFault (mkFault "deny" 0 errnoUpper prob (label_of kwargs) "" "" mm.1 mm.2)).

Definition builtinAllow : value := VFault (mkFault "allow" 0 "" f64_0 "" "" "" 0 "").

Definition op_syscall (v : value) : result error string :=
  match v with VString s => Ok s | _ => Err (Msg "op() syscalls items must be strings") end.

Fixpoint op_kwargs (kwargs : list (string * value)) (op : OpDef) : result error OpDef :=
  match kwargs with
  | [] => Ok op
  | (key, v) :: kwargs =>
      let? op := if String.eqb key "syscalls" then
                   match v with
                   | VList l => let? ss := collect op_syscall l in Ok (mkOp (op_syscalls op ++ ss) (op_path op))
                   | _ => Err (Msg "op() syscalls must be a list")
                   end
                 else if String.eqb key "path" then Ok (mkOp (op_syscalls op) (default "" (as_string v)))
                 else Ok op in
      op_kwargs kwargs op
  end.
Definition builtinOp (kwargs : list (string * value)) : result error OpDef :=
  let? op := op_kwargs kwargs (mkOp [] "") in
  if (length (op_syscalls op) =? 0)%nat then Err (Msg "op() requires syscalls= argument") else Ok op.

End Faults.

(** ** Correctness *)
Module FaultsCorrect.
Import Faults.

(** What the options of [deny] and [delay] make of a fault: the probability and the label that were read, no path
    and no operation, a known mode, and an enumeration only of a fault that may not fire, under the mode
    that enumerates. *)
Record options_ok (kwargs : list (string * value)) (f : FaultDef) : Prop := {
  given_prob : fd_prob f = probability_of kwargs;
  given_label : fd_label f = label_of kwargs;
  not_scoped : fd_path f = "" /\ fd_op f = "";
  fires_bounded : 0 <= fd_max f < 2 ^ 31;
  fires_uncertain : 0 < fd_max f -> f64_ge (fd_prob f) f64_1 = false;
  fires_mode : fd_mode f = "exhaustive" <-> 0 < fd_max f;
  known_mode : fd_mode f ∈ [""; "exhaustive"; "stochastic"] }.

Lemma one_string_ok who args s : one_string who args = Ok s -> args = [VString s].
Proof. unfold one_string. destruct args as [|[] [|]]; try done. by intros [= ->]. Qed.

Lemma max_fires_arg_ok who kwargs prob n : max_fires_arg who kwargs prob = Ok n ->
  0 <= n < 2 ^ 31 /\ (0 < n -> f64_ge prob f64_1 = false).
Proof.
  unfold max_fires_arg. destruct (starKwarg kwargs "max_fires") as [v|]; [|intros [= <-]; lia].
  destruct v; try done. destruct (negb _) eqn:E1; [done|]. destruct (Z.leb_spec z 0); [done|].
  destruct (f64_ge prob f64_1); [done|]. intros [= <-]. split; [lia|done].
Qed.

Lemma mode_arg_ok who kwargs m : mode_arg who kwargs = Ok m -> m ∈ [""; "exhaustive"; "stochastic"].
Proof.
  unfold mode_arg. destruct (starKwarg kwargs "mode") as [v|]; [|intros [= <-]; by left]. cbn.
  destruct (String.eqb_spec (default "" (as_string v)) "exhaustive") as [E|_]; [intros [= <-]; rewrite E; set_solver|].
  destruct (String.eqb_spec (default "" (as_string v)) "stochastic") as [E|_]; [intros [= <-]; rewrite E; set_solver|done].
Qed.

Lemma fanout_ok who kwargs prob n mode : parseProbabilityFanoutKwargs who kwargs prob = Ok (n, mode) ->
  0 <= n < 2 ^ 31 /\ (0 < n -> f64_ge prob f64_1 = false) /\ (mode = "exhaustive" <-> 0 < n) /\ mode ∈ [""; "exhaustive"; "stochastic"].
Proof.
  unfold parseProbabilityFanoutKwargs. destruct (max_fires_arg who kwargs prob) as [k|e] eqn:E1; [|done].
  apply max_fires_arg_ok in E1 as [Hb Hp]. cbn. destruct (mode_arg who kwargs) as [m|e] eqn:E2; [|done].
  apply mode_arg_ok in E2. cbn. destruct (Z.ltb_spec 0 k), (Z.eqb_spec k 0); try lia;
    rewrite !elem_of_cons in E2; destruct E2 as [->|[->|[->|[]%elem_of_nil]]]; cbn; try done; intros [= <- <-]; split_and!; first [lia|done|split; first [discriminate|lia|done]|rewrite !elem_of_cons; tauto].
Qed.

(** C37: What [deny] and [delay] return is a fault that the engine can inject.  A fault of [deny] is a denial, without
    a delay, with the errno of its argument in capitals, which the engine knows; one of [delay] is a delay, without
    an errno, of the duration its argument reads as; a text that is no errno or no duration is refused.  Its
    firings are enumerated only when its probability is not one or more and its mode enumerates.  The
    probability is the one that was given, whatever it is: a negative number and NaN are not refused. *)
Theorem fault_builtins_valid args kwargs f :
  (builtinDeny args kwargs = Ok (VFault f) ->
     exists s, args = [VString s] /\ fd_action f = "deny" /\ fd_delay f = 0 /\ fd_errno f = to_upper s /\ ValidErrno (fd_errno f) = true /\
       options_ok kwargs f) /\
  (builtinDelay args kwargs = Ok (VFault f) ->
     exists s, args = [VString s] /\ fd_action f = "delay" /\ parseStarDuration s = Some (fd_delay f) /\ fd_errno f = "" /\ options_ok kwargs f).
Proof.
  split; intros H.
  - unfold builtinDeny in H. destruct (one_string "deny" args) as [errno|e] eqn:Eo; [|done]. apply one_string_ok in Eo as ->. cbn in H.
    destruct (parseProbabilityFanoutKwargs _ _ _) as [[n m]|e] eqn:E; [|done]. apply fanout_ok in E as (H1 & H2 & H3 & H4). cbn in H.
    destruct (ValidErrno (to_upper errno)) eqn:Ev; [|done]. injection H as <-. exists errno. split_and!; [done..|by split].
  - unfold builtinDelay in H. destruct args as [|a args].
    { destruct (proxy_kwargs _ _ _) as [p|e]; [|done]. cbn in H. by destruct (pf_delay p =? 0). }
    destruct (one_string "delay" (a :: args)) as [s|e] eqn:Eo; [|done]. apply one_string_ok in Eo as [= -> ->]. cbn in H. destruct (parseStarDuration s) as [d|] eqn:Ed; [|done].
    destruct (parseProbabilityFanoutKwargs _ _ _) as [[n m]|e] eqn:E; [|done]. apply fanout_ok in E as (H1 & H2 & H3 & H4). cbn in H.
    injection H as <-. exists s. split_and!; [done..|by split].
Qed.

Lemma fault_builtins_valid_witness :
  let f := mkFault "deny" 0 "EIO" (f64_div f64_1 (f64_of_Z 2)) "" "" "" 3 "exhaustive" in
  let kwargs := [("probability", VString "50%"); ("max_fires", VInt 3)] in
  fd_errno f = to_upper "eio" /\ options_ok kwargs f.
Proof.
  intros f kwargs. destruct (fault_builtins_valid [VString "eio"] kwargs f) as [H _].
  destruct H as (s & E & _ & _ & He & _ & Ho); [vm_compute; reflexivity|]. injection E as <-. split; [exact He|exact Ho].
Defined.

(** A percentage of one or less is read as a fraction: one percent always fires. *)
Lemma one_percent_always_fires :
  parseProbability (VString "1%") = f64_1 /\ parseProbability (VString "0.5%") = f64_div f64_1 (f64_of_Z 2) /\
  parseProbability (VString "2%") = f64_div (f64_of_Z 2) hundred.
Proof. vm_compute. done. Qed.

Definition percent_ok (n : Z) : bool :=
  bool_decide (parseProbability (VString (show_Z n +:+ "%")) = f64_div (f64_of_Z n) hundred).

(** Every whole percentage from two on is read as its hundredth. *)
Lemma percentages_read : forallb (fun n => percent_ok (Z.of_nat n)) (seq 2 99) = true.
Proof. vm_compute. reflexivity. Qed.

End FaultsCorrect.
