(* ===== verification/Generate.v ===== *)
(** * The failure generator ([internal/generate])

    [analyzer.go] reads services, dependency edges and scenarios off a loaded
    specification; [matrix.go] turns each edge into mutations; [codegen.go] selects the fault
    assumptions and partitions and renders them as Starlark text. *)

From Stdlib Require Import ZArith Lia Ascii.
From S2P Require Import Prelude GoStd GoText FaultRule Registry.
From stdpp Require Import base gmap sets strings sorting numbers list.
Local Open Scope Z_scope.
Import GoStd GoText FaultRule Registry.Spec.

Module Analyzer.

Record InterfaceInfo := mkInterfaceInfo { ii_name : string; ii_protocol : string; ii_port : Z }.
Record ServiceInfo := mkServiceInfo { si_name : string; si_var : string; si_protocol : string; si_interfaces : list InterfaceInfo }.
Record DependencyEdge := mkEdge { From : string; To : string; Via : string; Protocol : string }.
Record ScenarioInfo := mkScenarioInfo { sc_name : string; sc_var : string }.
Record Analysis := mkAnalysis { Services : list ServiceInfo; Edges : list DependencyEdge; Scenarios : list ScenarioInfo }.

Section Analyze.
(** The order in which Go visits the interfaces of a service. *)
Context (iter : gmap string InterfaceDef -> list (string * InterfaceDef)).

(** The first interface visited that has a protocol gives the primary one. *)
Definition primary (ifs : list InterfaceDef) : string :=
  foldl (fun p i => if String.eqb p "" then if_protocol i else p) "" ifs.

Definition service_info (s : ServiceDef) : ServiceInfo :=
  let ifs := (iter (sv_interfaces s)).*2 in
  mkServiceInfo (sv_name s) (sv_name s) (primary ifs) ((fun i => mkInterfaceInfo (if_name i) (if_protocol i) (if_port i)) <$> ifs).

(** [servicesByName]: the last of a name. *)
Definition protocol_of (infos : list ServiceInfo) (name : string) : string :=
  default "" (si_protocol <$> last (filter (fun i => si_name i = name) infos)).

Definition hasEdge (edges : list DependencyEdge) (from to : string) : bool :=
  existsb (fun e => String.eqb (From e) from && String.eqb (To e) to) edges.

Definition sorted_interfaces (s : ServiceDef) : list InterfaceDef :=
  omap (fun n => sv_interfaces s !! n) (sort_strings (map_to_list (sv_interfaces s)).*1).

(** Whether a value of the environment mentions another service, and with which protocol. *)
Definition env_match (infos : list ServiceInfo) (val : string) (other : ServiceDef) : option string :=
  let lowerVal := to_lower val in
  let lowerName := to_lower (sv_name other) in
  match List.find (fun i => contains (to_lower (sv_name other +:+ ":" +:+ show_Z (if_port i))) lowerVal || contains (lowerName +:+ ".") lowerVal)
          (sorted_interfaces other) with
  | Some i => Some (if_protocol i)
  | None =>
      if contains lowerName lowerVal then Some (protocol_of infos (sv_name other))
      else if_protocol <$> List.find (fun i => contains (to_lower (sv_name other +:+ "." +:+ if_name i +:+ ".")) lowerVal) (sorted_interfaces other)
  end.

Definition env_edge (infos : list ServiceInfo) (svc : ServiceDef) (val : string) (edges : list DependencyEdge) (other : ServiceDef)
    : list DependencyEdge :=
  if String.eqb (sv_name other) (sv_name svc) then edges
  else match env_match infos val other with
       | Some p => if hasEdge edges (sv_name svc) (sv_name other) then edges
                   else edges ++ [mkEdge (sv_name svc) (sv_name other) "env" p]
       | None => edges
       end.

Definition service_edges (all : list ServiceDef) (infos : list ServiceInfo) (edges : list DependencyEdge) (svc : ServiceDef)
    : list DependencyEdge :=
  let edges := edges ++ ((fun dep => mkEdge (sv_name svc) dep "depends_on" (protocol_of infos dep)) <$> sv_depends svc) in
  foldl (fun edges k => foldl (env_edge infos svc (default "" (sv_env svc !! k))) edges all) edges (sort_strings (map_to_list (sv_env svc)).*1).

Definition Analyze (rt : Runtime) : Analysis :=
  let infos := service_info <$> services rt in
  mkAnalysis infos (foldl (service_edges (services rt) infos) [] (services rt))
    ((fun s => mkScenarioInfo s.1 s.1) <$> scenarios rt).

End Analyze.
End Analyzer.

Module Matrix.
Import Analyzer.

Record Mutation := mkMutation {
  Name : string; Scenario : string; Category : string; Description : string; FaultTarget : string; Syscall_ : string;
  Action_ : string; Errno_ : string; Delay_ : string; Label_ : string; Partition : bool; PartitionA : string; PartitionB : string;
  Severity : string }.

Definition gen_name (scenario to suffix : string) : string := "test_gen_" +:+ scenario +:+ "_" +:+ to +:+ suffix.

Definition networkMutations (scenario : ScenarioInfo) (edge : DependencyEdge) : list Mutation :=
  let s := sc_name scenario in let from := From edge in let to := To edge in
  [ mkMutation (gen_name s to "_down") s "network" (s +:+ " with " +:+ to +:+ " connection refused.") from "connect" "deny" "ECONNREFUSED" ""
      (to +:+ " down") false "" "" "critical";
    mkMutation (gen_name s to "_slow") s "network" (s +:+ " with " +:+ to +:+ " delayed 5s.") from "connect" "delay" "" "5s"
      (to +:+ " slow") false "" "" "high";
    mkMutation (gen_name s to "_reset") s "network" (s +:+ " with " +:+ to +:+ " dropping mid-request.") from "read" "deny" "ECONNRESET" ""
      (to +:+ " connection reset") false "" "" "high";
    mkMutation (gen_name s to "_partition") s "network" (s +:+ " with network partition between " +:+ from +:+ " and " +:+ to +:+ ".") "" "" "" "" ""
      "" true from to "critical" ].

Definition diskMutations (scenario : ScenarioInfo) (edge : DependencyEdge) : list Mutation :=
  let s := sc_name scenario in let to := To edge in
  [ mkMutation (gen_name s to "_io_error") s "disk" (s +:+ " with " +:+ to +:+ " disk I/O error.") to "write" "deny" "EIO" ""
      "disk I/O error" false "" "" "critical";
    mkMutation (gen_name s to "_disk_full") s "disk" (s +:+ " with " +:+ to +:+ " disk full.") to "write" "deny" "ENOSPC" ""
      "disk full" false "" "" "high";
    mkMutation (gen_name s to "_fsync_fail") s "disk" (s +:+ " with " +:+ to +:+ " fsync failure.") to "fsync" "deny" "EIO" ""
      "fsync failure" false "" "" "critical" ].

Definition BuildMatrix (a : Analysis) : list Mutation :=
  scenario ← Scenarios a; edge ← Edges a; networkMutations scenario edge ++ diskMutations scenario edge.

End Matrix.

Module Codegen.
Import Analyzer Matrix.

Record assumptionDef := mkDef {
  varName : string; target : string; syscall : string; action : string; errno : string; delay : string; label : string; category : string }.

Record GenerateOpts := mkOpts { o_scenario : string; o_service : string; o_category : string; o_source : string }.

Definition wanted (opts : GenerateOpts) (m : Mutation) : bool :=
  negb (negb (String.eqb (o_scenario opts) "") && negb (String.eqb (Scenario m) (o_scenario opts))) &&
  negb (negb (String.eqb (o_service opts) "") && negb (String.eqb (FaultTarget m) (o_service opts)) &&
        negb (String.eqb (PartitionA m) (o_service opts)) && negb (String.eqb (PartitionB m) (o_service opts))) &&
  negb (negb (String.eqb (o_category opts) "") && negb (String.eqb (o_category opts) "all") && negb (String.eqb (Category m) (o_category opts))).

Definition underscore (c : ascii) : ascii := if Ascii.eqb c " " || Ascii.eqb c "-" then "_"%char else c.
Definition var_char (c : ascii) : bool :=
  let n := N_of_ascii c in ((97 <=? n) && (n <=? 122))%N || ((48 <=? n) && (n <=? 57))%N || Ascii.eqb c "_".
Fixpoint sfilter (f : ascii -> bool) (s : string) : string :=
  match s with "" => "" | String c s => if f c then String c (sfilter f s) else sfilter f s end.

(** Lower case, underscores for spaces and dashes, other characters dropped. *)
Definition sanitizeVarName (label : string) : string := sfilter var_char (smap underscore (to_lower label)).

(** The loop's state: names seen, assumptions, partitions, scenarios in order. *)
Record selection := mkSelection {
  seen : gset string; assumptions : list assumptionDef; partitions : list Mutation; scenarioOrder : list string }.

Definition select (st : selection) (m : Mutation) : selection :=
  let order := if bool_decide (Scenario m ∈ scenarioOrder st) then scenarioOrder st else scenarioOrder st ++ [Scenario m] in
  if Partition m then
    if bool_decide (Name m ∈ seen st) then mkSelection (seen st) (assumptions st) (partitions st) order
    else mkSelection ({[Name m]} ∪ seen st) (assumptions st) (partitions st ++ [m]) order
  else
    let v := sanitizeVarName (Label_ m) in
    if bool_decide (v ∈ seen st) then mkSelection (seen st) (assumptions st) (partitions st) order
    else mkSelection ({[v]} ∪ seen st)
           (assumptions st ++ [mkDef v (FaultTarget m) (Syscall_ m) (Action_ m) (Errno_ m) (Delay_ m) (Label_ m) (Category m)])
           (partitions st) order.

Definition selected (ms : list Mutation) : selection := foldl select (mkSelection ∅ [] [] []) ms.

(** ** Text *)

Definition nl : string := String "010" "".
Definition dq : string := String "034" "".
(** The verb [%q] on a text without characters to escape. *)
Definition quoted (s : string) : string := dq +:+ s +:+ dq.
Definition comma (l : list string) : string := match l with [] => "" | s :: l => s +:+ foldr (fun x r => ", " +:+ x +:+ r) "" l end.
Definition joinQuoted (ss : list string) : string := comma (quoted <$> ss).

Definition collectSymbols (ms : list Mutation) : list string :=
  sort_strings (elements (foldl (fun (seen : gset string) m =>
    let add (s : string) (seen : gset string) := if String.eqb s "" then seen else {[s]} ∪ seen in
    add (PartitionB m) (add (PartitionA m) (add (FaultTarget m) ({[Scenario m]} ∪ seen)))) ∅ ms)).

Definition render_assumption (a : assumptionDef) : string :=
  let head := varName a +:+ " = fault_assumption(" +:+ quoted (varName a) +:+ "," +:+ nl +:+ "    target = " +:+ target a +:+ "," +:+ nl +:+
              "    " +:+ syscall a +:+ " = " in
  let tail := ")," +:+ nl +:+ ")" +:+ nl +:+ nl in
  if String.eqb (action a) "deny" then head +:+ "deny(" +:+ quoted (errno a) +:+ tail
  else if String.eqb (action a) "delay" then head +:+ "delay(" +:+ quoted (delay a) +:+ tail
  else "".

Definition category_of (a : assumptionDef) : string := if String.eqb (category a) "" then "other" else category a.

Definition render_category (l : list assumptionDef) (cat : string) : string :=
  "# " +:+ cat +:+ " faults" +:+ nl +:+ foldr (fun a r => render_assumption a +:+ r) "" (filter (fun a => category_of a = cat) l).

Definition renderPartition (m : Mutation) : string :=
  "def " +:+ (if has_prefix "test_gen_" (Name m) then "test_" +:+ trim_prefix (Name m) "test_gen_" else Name m) +:+ "():" +:+ nl +:+
  "    " +:+ dq +:+ dq +:+ dq +:+ Description m +:+ dq +:+ dq +:+ dq +:+ nl +:+
  "    partition(" +:+ PartitionA m +:+ ", " +:+ PartitionB m +:+ ", run=" +:+ Scenario m +:+ ")" +:+ nl +:+ nl.

Definition header (date : string) (opts : GenerateOpts) : string :=
  let rule := "# ============================================================" +:+ nl in
  rule +:+ "# Auto-generated failure scenarios by: faultbox generate" +:+ nl +:+
  (if String.eqb (o_source opts) "" then "" else "# Source: " +:+ o_source opts +:+ nl) +:+
  "# Generated: " +:+ date +:+ nl +:+ "#" +:+ nl +:+
  "# Uses fault_assumption() + fault_matrix() for composable testing." +:+ nl +:+
  "# Add overrides= to fault_matrix() for per-cell expectations." +:+ nl +:+ rule +:+ nl.

(** [date]: the day the clock shows. *)
Definition Generate (date : string) (ms : list Mutation) (opts : GenerateOpts) : string :=
  let filtered := List.filter (wanted opts) ms in
  if (length filtered =? 0)%nat then "# No mutations generated." +:+ nl
  else
    let st := selected filtered in
    header date opts +:+
    (if String.eqb (o_source opts) "" then ""
     else "load(" +:+ quoted (o_source opts) +:+ ", " +:+ joinQuoted (collectSymbols filtered) +:+ ")" +:+ nl +:+ nl) +:+
    "# --- Fault Assumptions ---" +:+ nl +:+ nl +:+
    foldr (fun cat r => render_category (assumptions st) cat +:+ r) ""
      (sort_strings (elements (list_to_set (C := gset string) (category_of <$> assumptions st)))) +:+
    (if (length (assumptions st) =? 0)%nat then ""
     else "# --- Fault Matrix ---" +:+ nl +:+ nl +:+ "fault_matrix(" +:+ nl +:+
          "    scenarios = [" +:+ comma (scenarioOrder st) +:+ "]," +:+ nl +:+
          "    faults = [" +:+ comma (varName <$> assumptions st) +:+ "]," +:+ nl +:+ ")" +:+ nl +:+ nl) +:+
    (if (length (partitions st) =? 0)%nat then ""
     else "# --- Network Partitions ---" +:+ nl +:+ nl +:+ foldr (fun m r => renderPartition m +:+ r) "" (partitions st)).

Definition GeneratePerScenario (date : string) (ms : list Mutation) (opts : GenerateOpts) : gmap string string :=
  list_to_map ((fun s => (s, Generate date (filter (fun m => Scenario m = s) ms)
                               (mkOpts s (o_service opts) (o_category opts) (o_source opts)))) <$> elements (list_to_set (C := gset string) (Scenario <$> ms))).

End Codegen.

(** ** What is generated *)
Module Generated.
Import Analyzer Matrix Codegen.

Definition disk_names : list string := ["disk_io_error"; "disk_full"; "fsync_failure"].

(** The disk assumptions selected so far are on one service; [full]: all three names are taken. *)
Definition disk_on (t : string) (full : bool) (st : selection) : Prop :=
  (full = true -> forall n, n ∈ disk_names -> n ∈ seen st) /\
  forall a, a ∈ assumptions st -> category a = "disk" -> target a = t.

Lemma select_seen st m n : n ∈ seen st -> n ∈ seen (select st m).
Proof. intros H. unfold select. destruct (Partition m); case_bool_decide; cbn; set_solver. Qed.

Lemma select_takes st m : Partition m = false -> sanitizeVarName (Label_ m) ∈ seen (select st m).
Proof. intros E. unfold select. rewrite E. case_bool_decide; cbn; set_solver. Qed.

(** A mutation that is not a disk fault, or one whose name is taken, or one on the service. *)
Definition harmless (t : string) (full : bool) (m : Mutation) : Prop :=
  Partition m = true \/ Category m <> "disk" \/ FaultTarget m = t \/ (full = true /\ sanitizeVarName (Label_ m) ∈ disk_names).

Lemma select_disk_on t full st m : harmless t full m -> disk_on t full st -> disk_on t full (select st m).
Proof.
  intros Hm [H1 H2]. split; [intros Hf n Hn; by apply select_seen, H1|].
  unfold select. destruct (Partition m) eqn:Ep; [case_bool_decide; cbn; apply H2|].
  case_bool_decide as Hs; cbn; [apply H2|]. intros a [Ha| ->%list_elem_of_singleton]%elem_of_app; [by apply H2|]. cbn. intros Hc.
  destruct Hm as [Hm|[Hm|[Hm|[Hf Hm]]]]; [congruence|congruence|done|]. by destruct Hs; apply H1.
Qed.

Lemma selects_disk_on t full ms st : Forall (harmless t full) ms -> disk_on t full st -> disk_on t full (foldl select st ms).
Proof. intros H. revert st. induction H as [|m ms Hm _ IH]; intros st Hst; [done|]. cbn. by apply IH, select_disk_on. Qed.

(** The mutations of an edge: nothing, once the disk names are taken. *)
Lemma edge_harmless t s e : Forall (harmless t true) (networkMutations s e ++ diskMutations s e).
Proof.
  cbn [app networkMutations diskMutations]. repeat apply Forall_cons_2; [..|apply Forall_nil_2];
    first [by left|right; left; discriminate|right; right; right; split; [done|vm_compute; set_solver]].
Qed.

Lemma first_edge s e st : disk_on (To e) false st -> disk_on (To e) true (foldl select st (networkMutations s e ++ diskMutations s e)).
Proof.
  intros H. assert (Hf : disk_on (To e) false (foldl select st (networkMutations s e ++ diskMutations s e))).
  { apply selects_disk_on; [|done]. cbn [app networkMutations diskMutations]. repeat apply Forall_cons_2; [..|apply Forall_nil_2]; first [by left|right; left; discriminate|right; right; left; done]. }
  split; [|apply Hf]. intros _ n Hn. rewrite foldl_app. set (st' := foldl select st (networkMutations s e)). cbn [diskMutations foldl].
  unfold disk_names in Hn. rewrite !elem_of_cons in Hn. destruct Hn as [->|[->|[->|[]%elem_of_nil]]].
  - apply select_seen, select_seen. set (m := mkMutation _ _ _ _ _ _ _ _ _ "disk I/O error" _ _ _ _). exact (select_takes st' m eq_refl).
  - apply select_seen. set (m := mkMutation _ _ _ _ _ _ _ _ _ "disk full" _ _ _ _). exact (select_takes _ m eq_refl).
  - set (m := mkMutation _ _ _ _ _ _ _ _ _ "fsync failure" _ _ _ _). exact (select_takes _ m eq_refl).
Qed.

Lemma edges_harmless t scs es : Forall (harmless t true) (scenario ← scs; edge ← es; networkMutations scenario edge ++ diskMutations scenario edge).
Proof.
  apply Forall_forall. intros m (s & (e & Hm & _)%list_elem_of_bind & _)%list_elem_of_bind.
  pose proof (edge_harmless t s e) as H. rewrite Forall_forall in H. by apply H.
Qed.

(** The generator injects disk faults into one service only.  Assumptions are named after their label,
    a name is used once, and a disk fault's label does not name its service: of the disk mutations that
    every dependency has, only those of the first dependency become assumptions. *)
Theorem generate_drops_disk_faults an s0 ss e0 es e :
  Scenarios an = s0 :: ss -> Edges an = e0 :: es -> e ∈ Edges an -> To e <> To e0 ->
  (exists m, m ∈ BuildMatrix an /\ Category m = "disk" /\ FaultTarget m = To e) /\
  forall a, a ∈ assumptions (selected (BuildMatrix an)) -> category a = "disk" -> target a <> To e.
Proof.
  intros Hs He Hin Hne. split.
  - exists (mkMutation (gen_name (sc_name s0) (To e) "_disk_full") (sc_name s0) "disk" (sc_name s0 +:+ " with " +:+ To e +:+ " disk full.")
      (To e) "write" "deny" "ENOSPC" "" "disk full" false "" "" "high"). split; [|done].
    unfold BuildMatrix. rewrite Hs. apply list_elem_of_bind. exists s0. split; [|by left]. apply list_elem_of_bind. exists e. split; [|done].
    apply elem_of_app. right. right. by left.
  - assert (H : disk_on (To e0) true (selected (BuildMatrix an))).
    { unfold selected, BuildMatrix. rewrite Hs, He. cbn [mbind list_bind]. rewrite <- app_assoc, (foldl_app _ (_ ++ _)).
      apply selects_disk_on; [|apply first_edge; split; [done|by intros a ?%elem_of_nil]].
      apply Forall_app. split; [|apply (edges_harmless (To e0) ss (e0 :: es))].
      pose proof (edges_harmless (To e0) [s0] es) as Hh. cbn [mbind list_bind] in Hh. by rewrite app_nil_r in Hh. }
    intros a Ha Hc E. apply Hne. rewrite <- E. by apply H.
Qed.

Definition two_dependencies : Analysis :=
  mkAnalysis [] [mkEdge "api" "db" "depends_on" "postgres"; mkEdge "api" "cache" "depends_on" "redis"] [mkScenarioInfo "order" "order"].

Lemma generate_drops_disk_faults_witness :
  Forall (fun a => category a = "disk" -> target a <> "cache") (assumptions (selected (BuildMatrix two_dependencies))).
Proof.
  apply Forall_forall. apply (generate_drops_disk_faults two_dependencies (mkScenarioInfo "order" "order") []
    (mkEdge "api" "db" "depends_on" "postgres") [mkEdge "api" "cache" "depends_on" "redis"] (mkEdge "api" "cache" "depends_on" "redis"));
    [reflexivity|reflexivity|right; by left|discriminate].
Defined.

(** The same holds of a second client's network faults. *)
Lemma second_client_dropped :
  let an := mkAnalysis [] [mkEdge "api" "db" "depends_on" "postgres"; mkEdge "worker" "db" "depends_on" "postgres"] [mkScenarioInfo "order" "order"] in
  target <$> assumptions (selected (BuildMatrix an)) = ["api"; "api"; "api"; "db"; "db"; "db"].
Proof. vm_compute. reflexivity. Qed.

End Generated.
