(* ===== verification/Plan.v ===== *)
(** * The plan of a specification ([internal/plan], [internal/star])

    The tests a run discovers ([DiscoverTests]), the fan-out of [choose] read off the source
    ([chooseaxes.go]), and the plan tree that is enumerated without running anything
    ([enumerate.go]), with the coverage of the dependency edges ([coverage.go]) and the
    suggestions for uncovered ones ([suggest.go]). *)

From Stdlib Require Import ZArith Lia Ascii.
From S2P Require Import Prelude GoStd GoText FaultRule Leaf Registry Generate.
From stdpp Require Import base gmap sets strings sorting numbers list.
Local Open Scope Z_scope.
Import GoStd GoText FaultRule Registry.Spec.

Module Discovery.

(** ** Discovery *)

Definition callable (v : Runner) : bool := match v with RValue => false | _ => true end.

Definition is_test (name : string) : bool := has_prefix "test_" name.

(** The names found so far and the bindings made. *)
Definition discover (names : list string) (g : gmap string Runner) (name : string) (v : Runner)
    : list string * gmap string Runner :=
  if bool_decide (name ∈ names) then (names, g) else (names ++ [name], <[name := v]> g).

Definition discover_all (ts : list (string * Runner)) (names : list string) (g : gmap string Runner)
    : list string * gmap string Runner :=
  foldl (fun '(names, g) '(name, v) => discover names g name v) (names, g) ts.

(** Names in sorted order, and the globals with the wrappers. *)
Definition DiscoverTests (rt : Runtime) : list string * gmap string Runner :=
  let defs := (List.filter (fun p => is_test p.1 && callable p.2) (map_to_list (globals rt))).*1 in
  let '(names, g) := discover_all ((fun s => ("test_" +:+ s.1, RFunction s.2)) <$> scenarios rt) defs (globals rt) in
  let '(names, g) := discover_all ((fun p => ("test_" +:+ fs_name p.2, RFault p.2)) <$> map_to_list (faultScenarios rt)) names g in
  let '(names, g) := discover_all ((fun p => (p.1, RFunction (tc_body p.2))) <$> map_to_list (testConfigs rt)) names g in
  (sort_strings names, g).

Definition GlobalCallableNames (rt : Runtime) : list string :=
  (List.filter (fun p => callable p.2) (map_to_list (globals rt))).*1.

(** ** The fan-out of [choose], read off the source

    The nodes of a syntax tree that the scan looks at, and the others with their children in order.  A
    literal carries what printing its value shows. *)

Inductive node :=
  | NCall (fn : node) (args : list node)
  | NIdent (name : string)
  | NLiteral (is_string : bool) (text : string)
  | NList (elems : list node)
  | NOther (kids : list node).

Definition stringLiteral (n : node) : option string :=
  match n with NLiteral true s => Some s | _ => None end.

Definition literalString (n : node) : string :=
  match n with NLiteral _ s => s | NIdent s => s | _ => "<expr>" end.

Definition literalOptions (n : node) : list string * bool :=
  match n with NList l => (literalString <$> l, true) | _ => ([], false) end.

(** What one visited node adds: the axes so far and the number of anonymous calls. *)
Definition visit_call (n : node) (st : list ChooseAxis * Z) : list ChooseAxis * Z :=
  let '(found, anon) := st in
  match n with
  | NCall (NIdent "choose") [opts] =>
      let anon := anon + 1 in
      let '(vs, known) := literalOptions opts in
      (found ++ [mkAxis ("choose#" +:+ show_Z anon) vs known], anon)
  | NCall (NIdent "choose") [name; opts] =>
      let '(name, anon) := match stringLiteral name with
                           | Some s => (s, anon)
                           | None => ("choose#" +:+ show_Z (anon + 1), anon + 1)
                           end in
      let '(vs, known) := literalOptions opts in
      (found ++ [mkAxis name vs known], anon)
  | _ => (found, anon)
  end.

(** [syntax.Walk]: a node before its children. *)
Fixpoint walk (n : node) (st : list ChooseAxis * Z) : list ChooseAxis * Z :=
  let st := visit_call n st in
  match n with
  | NCall fn args => foldl (fun st n => walk n st) (walk fn st) args
  | NList kids | NOther kids => foldl (fun st n => walk n st) st kids
  | NIdent _ | NLiteral _ _ => st
  end.

Definition chooseAxesInNode (root : node) : list ChooseAxis := (walk root ([], 0)).1.

(** The top-level statements of a file: a function with its name, or another statement. *)
Definition chooseAxesInSource (stmts : list (option string * node)) : gmap string (list ChooseAxis) :=
  foldl (fun out '(def, n) =>
    match def with
    | Some name => let found := chooseAxesInNode n in if (length found =? 0)%nat then out else <[name := found]> out
    | None => out
    end) ∅ stmts.

Definition Cardinality (a : ChooseAxis) : Z :=
  if negb (ax_known a) || (length (ax_values a) =? 0)%nat then 1 else Z.of_nat (length (ax_values a)).

Definition ChooseLeafCount (l : list ChooseAxis) : Z :=
  let n := foldl (fun n a => i64 (n * Cardinality a)) 1 l in if n <? 1 then 1 else n.

Definition ChooseAxesComplete (l : list ChooseAxis) : bool := forallb ax_known l.

End Discovery.

Module Enumerate.
Import Discovery.

Inductive PlanTestKind := KindDef | KindScenario | KindFaultScenario | KindFaultMatrix | KindTestBuiltin.

Record PlanAxis := mkPlanAxis { pa_name : string; pa_values : list string; pa_estimated : bool }.

Inductive PlanComposition := CompositionFaultMatrix (l : list PlanAxis) | CompositionChoose (l : list PlanAxis).

Record PlanTest := mkPlanTest {
  Name : string; Kind : PlanTestKind; Instances : Z; Compositions : list PlanComposition;
  MatrixCells : list string; Faults : list string; Expect : string; Timeout : string; Estimated : bool }.

Definition sortedKeys {A} (m : gmap string A) : list string := sort_strings (map_to_list m).*1.
Definition sortedSetValues (s : gset string) : list string := sort_strings (elements s).

Definition indexScenarios (rt : Runtime) : gmap string Callable :=
  foldl (fun out '(n, f) => <[n := f]> out) ∅ (scenarios rt).

Definition is_cell (fs : FaultScenarioDef) : bool := match fs_matrix fs with Some _ => true | None => false end.

Definition fs_le (a b : FaultScenarioDef) : Prop := string_le (fs_name a) (fs_name b).
#[export] Instance fs_le_dec a b : Decision (fs_le a b).
Proof. unfold fs_le. apply _. Defined.

(** The loop of [groupFaultScenarios]. *)
Definition group_one (st : gmap string (list FaultScenarioDef) * gmap string FaultScenarioDef) (fs : FaultScenarioDef)
    : gmap string (list FaultScenarioDef) * gmap string FaultScenarioDef :=
  match fs_matrix fs with
  | Some mi => (<[ScenarioName mi := default [] (st.1 !! ScenarioName mi) ++ [fs]]> st.1, st.2)
  | None => (st.1, <[fs_name fs := fs]> st.2)
  end.

Definition groupFaultScenarios (m : gmap string FaultScenarioDef)
    : gmap string (list FaultScenarioDef) * gmap string FaultScenarioDef :=
  let '(cells, free) := foldl group_one (∅, ∅) (map_to_list m).*2 in
  (merge_sort fs_le <$> cells, free).

Definition defTestNames (rt : Runtime) : list string :=
  let scs := indexScenarios rt in
  let '(_, free) := groupFaultScenarios (faultScenarios rt) in
  List.filter (fun name =>
    is_test name && negb (has_prefix "test_matrix_" name) &&
    bool_decide (testConfigs rt !! name = None) &&
    bool_decide (scs !! trim_prefix name "test_" = None) &&
    bool_decide (free !! trim_prefix name "test_" = None)) (GlobalCallableNames rt).

Definition matrixComposition (scenarioName : string) (cells : list FaultScenarioDef) : PlanComposition :=
  let '(ss, fs) := foldl (fun '(ss, fs) c =>
    match fs_matrix c with
    | Some mi => ({[ScenarioName mi]} ∪ ({[scenarioName]} ∪ ss), {[FaultName mi]} ∪ fs)
    | None => (ss, fs)
    end) (∅ : gset string, ∅ : gset string) cells in
  CompositionFaultMatrix [mkPlanAxis "scenarios" (sortedSetValues ss) false; mkPlanAxis "faults" (sortedSetValues fs) false].

Fixpoint matrixExpectName (name : string) (cells : list FaultScenarioDef) : string :=
  match cells with
  | [] => name
  | c :: cells =>
      match fs_expect c with
      | None => matrixExpectName name cells
      | Some f =>
          if String.eqb name "" then matrixExpectName (fn_name f) cells
          else if String.eqb name (fn_name f) then matrixExpectName name cells
          else "(mixed)"
      end
  end.

Definition cellNames (cells : list FaultScenarioDef) : list string := sort_strings ((fun c => "test_" +:+ fs_name c) <$> cells).

Definition faultNames (faults : list FaultAssumptionDef) : list string := sort_strings (fa_name <$> faults).

(** An entry with the fields that every kind sets. *)
Definition plain (name : string) (kind : PlanTestKind) (instances : Z) : PlanTest :=
  mkPlanTest name kind instances [] [] [] "" "" false.

Definition applyChooseAxes (l : list ChooseAxis) (e : PlanTest) : PlanTest :=
  if (length l =? 0)%nat then e
  else
    mkPlanTest (Name e) (Kind e) (i64 (Instances e * ChooseLeafCount l))
      (Compositions e ++ [CompositionChoose ((fun a => mkPlanAxis (ax_name a) (ax_values a) (negb (ax_known a))) <$> l)])
      (MatrixCells e) (Faults e) (Expect e) (Timeout e) (if ChooseAxesComplete l then Estimated e else true).

Definition def_entry (rt : Runtime) (name : string) : PlanTest :=
  applyChooseAxes (default [] (axes rt !! name)) (plain name KindDef 1).

Definition builtin_entry (name : string) (cfg : TestConfig) : PlanTest :=
  mkPlanTest name KindTestBuiltin 1 [] [] [] (default "" (fst <$> tc_expect cfg))
    (if 0 <? tc_timeout cfg then show_duration (tc_timeout cfg) else "") false.

Definition matrix_entry (scenarioName : string) (cells : list FaultScenarioDef) : PlanTest :=
  mkPlanTest ("test_matrix_" +:+ scenarioName) KindFaultMatrix (Z.of_nat (length cells))
    [matrixComposition scenarioName cells] (cellNames cells) [] (matrixExpectName "" cells) "" false.

Definition fault_entry (fs : FaultScenarioDef) : PlanTest :=
  mkPlanTest ("test_" +:+ fs_name fs) KindFaultScenario 1 [] [] (faultNames (fs_faults fs))
    (match fs_expect fs with Some f => fn_name f | None => "" end) "" false.

Definition scenario_entry (name : string) : PlanTest := plain ("test_" +:+ name) KindScenario 1.

(** One pass: the entries whose name was not seen. *)
Definition add_entries (es : list PlanTest) (tests : list PlanTest) : list PlanTest :=
  foldl (fun tests e => if bool_decide (Name e ∈ Name <$> tests) then tests else tests ++ [e]) tests es.

Definition name_le (a b : PlanTest) : Prop := string_le (Name a) (Name b).
#[export] Instance name_le_dec a b : Decision (name_le a b).
Proof. unfold name_le. apply _. Defined.

(** The entries of each pass, in the order of the passes. *)
Definition def_pass (rt : Runtime) : list PlanTest := def_entry rt <$> sort_strings (defTestNames rt).
Definition builtin_pass (rt : Runtime) : list PlanTest :=
  omap (fun n => builtin_entry n <$> testConfigs rt !! n) (sortedKeys (testConfigs rt)).
Definition matrix_pass (rt : Runtime) : list PlanTest :=
  let cells := (groupFaultScenarios (faultScenarios rt)).1 in omap (fun n => matrix_entry n <$> cells !! n) (sortedKeys cells).
Definition fault_pass (rt : Runtime) : list PlanTest :=
  let free := (groupFaultScenarios (faultScenarios rt)).2 in omap (fun n => fault_entry <$> free !! n) (sortedKeys free).
Definition scenario_pass (rt : Runtime) : list PlanTest := scenario_entry <$> sort_strings (sortedKeys (indexScenarios rt)).

Definition buildTests (rt : Runtime) : list PlanTest :=
  merge_sort name_le
    (add_entries (scenario_pass rt) (add_entries (fault_pass rt) (add_entries (matrix_pass rt)
       (add_entries (builtin_pass rt) (def_pass rt))))).

Record PlanTotals := mkTotals { t_instances : Z; t_estimated : bool }.

Definition computeTotals (tests : list PlanTest) : PlanTotals :=
  mkTotals (foldl (fun n t => i64 (n + Instances t)) 0 tests) (existsb Estimated tests).

Record PlanService := mkPlanService { ps_name : string; ps_interfaces : list string }.

Definition ps_le (a b : PlanService) : Prop := string_le (ps_name a) (ps_name b).
#[export] Instance ps_le_dec a b : Decision (ps_le a b).
Proof. unfold ps_le. apply _. Defined.

Definition buildTopology (rt : Runtime) : list PlanService :=
  merge_sort ps_le ((fun s => mkPlanService (sv_name s) (sortedKeys (sv_interfaces s))) <$> services rt).

Record PlanTree := mkTree { Tests : list PlanTest; Totals : PlanTotals; Topology : list PlanService }.

(** The tree of a loaded runtime; path, seed and determinism level are copied into it as they are. *)
Definition Enumerate (rt : Runtime) : PlanTree :=
  mkTree (buildTests rt) (computeTotals (buildTests rt)) (buildTopology rt).

End Enumerate.

(** ** The plan lists what a run discovers *)
Module PlanCorrect.
Import Discovery Enumerate.
Import Registered.

(** *** Discovery *)

Lemma discover_all_names ts names g x : x ∈ (discover_all ts names g).1 <-> x ∈ names \/ x ∈ ts.*1.
Proof.
  unfold discover_all. revert names g. induction ts as [|[n v] ts IH]; intros names g; cbn [foldl fmap list_fmap fst].
  { split; [auto|]. intros [?|?%elem_of_nil]; done. }
  unfold discover at 2. case_bool_decide as Hn; rewrite IH; rewrite ?elem_of_app, ?elem_of_cons, ?elem_of_nil; [|naive_solver].
  split; [tauto|]. intros [?|[->|?]]; auto.
Qed.

Lemma discover_all_nodup ts names g : NoDup names -> NoDup (discover_all ts names g).1.
Proof.
  unfold discover_all. revert names g. induction ts as [|[n v] ts IH]; intros names g Hd; [done|]. cbn [foldl].
  unfold discover at 2. case_bool_decide as Hn; apply IH; [done|]. apply NoDup_app. split_and!; [done| |apply NoDup_singleton].
  by intros x Hx ->%list_elem_of_singleton.
Qed.

(** The names of the tests: functions of the module, scenarios, fault scenarios and tests declared. *)
Definition discoverable (rt : Runtime) (x : string) : Prop :=
  (exists v, globals rt !! x = Some v /\ is_test x = true /\ callable v = true) \/
  (exists n, n ∈ (scenarios rt).*1 /\ x = "test_" +:+ n) \/
  (exists k fs, faultScenarios rt !! k = Some fs /\ x = "test_" +:+ fs_name fs) \/
  is_Some (testConfigs rt !! x).

Lemma global_tests rt x : x ∈ (List.filter (fun p => is_test p.1 && callable p.2) (map_to_list (globals rt))).*1 <->
  exists v, globals rt !! x = Some v /\ is_test x = true /\ callable v = true.
Proof.
  rewrite list_elem_of_fmap. split.
  - intros ([k v] & -> & [H1 [H2 H3]%andb_true_iff]%list_elem_of_In%List.filter_In). apply list_elem_of_In, elem_of_map_to_list in H1. by exists v.
  - intros (v & H1 & H2 & H3). exists (x, v). split; [done|]. apply list_elem_of_In, List.filter_In. cbn [fst snd]. rewrite H2, H3. split; [|done].
    by apply list_elem_of_In, elem_of_map_to_list.
Qed.

Lemma DiscoverTests_spec rt : NoDup (DiscoverTests rt).1 /\ forall x, x ∈ (DiscoverTests rt).1 <-> discoverable rt x.
Proof.
  unfold DiscoverTests. set (defs := (List.filter _ _).*1).
  set (t1 := (fun s => _) <$> scenarios rt). set (t2 := (fun p => _) <$> map_to_list (faultScenarios rt)). set (t3 := (fun p => _) <$> map_to_list (testConfigs rt)).
  destruct (discover_all t1 defs (globals rt)) as [n1 g1] eqn:E1. destruct (discover_all t2 n1 g1) as [n2 g2] eqn:E2.
  destruct (discover_all t3 n2 g2) as [n3 g3] eqn:E3. cbn [fst].
  pose proof (discover_all_nodup t1 defs (globals rt)) as D1. pose proof (discover_all_nodup t2 n1 g1) as D2. pose proof (discover_all_nodup t3 n2 g2) as D3.
  rewrite E1 in D1. rewrite E2 in D2. rewrite E3 in D3. unfold sort_strings. split.
  - rewrite merge_sort_Permutation. apply D3, D2, D1. apply NoDup_fmap_filter, NoDup_fst_map_to_list.
  - intros x. rewrite merge_sort_Permutation.
    pose proof (discover_all_names t1 defs (globals rt) x) as N1. pose proof (discover_all_names t2 n1 g1 x) as N2. pose proof (discover_all_names t3 n2 g2 x) as N3.
    rewrite E1 in N1. rewrite E2 in N2. rewrite E3 in N3. cbn [fst] in *. rewrite N3, N2, N1. unfold defs. rewrite global_tests. unfold discoverable.
    assert (M1 : x ∈ t1.*1 <-> exists n, n ∈ (scenarios rt).*1 /\ x = "test_" +:+ n).
    { unfold t1. rewrite <- list_fmap_compose. rewrite !list_elem_of_fmap. split.
      - intros (s & -> & Hs). exists s.1. split; [by apply list_elem_of_fmap_2|done].
      - intros (n & (s & -> & Hs)%list_elem_of_fmap & ->). by exists s. }
    assert (M2 : x ∈ t2.*1 <-> exists k fs, faultScenarios rt !! k = Some fs /\ x = "test_" +:+ fs_name fs).
    { unfold t2. rewrite <- list_fmap_compose. rewrite !list_elem_of_fmap. split.
      - intros ([k fs] & -> & Hs%elem_of_map_to_list). by exists k, fs.
      - intros (k & fs & Hs & ->). exists (k, fs). split; [done|]. by apply elem_of_map_to_list. }
    assert (M3 : x ∈ t3.*1 <-> is_Some (testConfigs rt !! x)).
    { unfold t3. rewrite <- list_fmap_compose. rewrite !list_elem_of_fmap. split.
      - intros ([k c] & -> & Hs%elem_of_map_to_list). by exists c.
      - intros [c Hc]. exists (x, c). split; [done|]. by apply elem_of_map_to_list. }
    rewrite M1, M2, M3. tauto.
Qed.

(** *** Grouping *)

Definition in_group (S : string) (fs : FaultScenarioDef) : bool :=
  match fs_matrix fs with Some mi => String.eqb (ScenarioName mi) S | None => false end.

Lemma group_spec vs : let st := foldl group_one (∅, ∅) vs in
  (forall S, default [] (st.1 !! S) = List.filter (in_group S) vs) /\
  (forall S, is_Some (st.1 !! S) <-> exists fs, fs ∈ vs /\ in_group S fs = true) /\
  (forall n fs, st.2 !! n = Some fs -> fs ∈ vs /\ fs_matrix fs = None /\ fs_name fs = n) /\
  (forall fs, fs ∈ vs -> fs_matrix fs = None -> is_Some (st.2 !! fs_name fs)).
Proof.
  cbv zeta. induction vs as [|fs vs IH] using rev_ind; cbn.
  { split_and!; [done| |done|by intros fs ?%elem_of_nil]. intros S. split; [by intros [? ?]|]. by intros (fs & ?%elem_of_nil & _). }
  rewrite foldl_app. cbn [foldl]. destruct (foldl group_one (∅, ∅) vs) as [c f]. cbn [fst snd] in *. destruct IH as (I1 & I2 & I3 & I4).
  assert (Hin : forall S, List.filter (in_group S) (vs ++ [fs]) = List.filter (in_group S) vs ++ (if in_group S fs then [fs] else [])).
  { intros S. rewrite List.filter_app. cbn. by destruct (in_group S fs). }
  unfold group_one, in_group in *. cbn [fst snd]. destruct (fs_matrix fs) as [mi|] eqn:Em; cbn [fst snd].
  - split_and!.
    + intros S. rewrite Hin. destruct (String.eqb_spec (ScenarioName mi) S) as [<-|Hne]; [by rewrite lookup_insert_eq; cbn; rewrite I1|].
      rewrite lookup_insert_ne by done. by rewrite app_nil_r.
    + intros S. destruct (String.eqb_spec (ScenarioName mi) S) as [<-|Hne].
      * rewrite lookup_insert_eq. split; [|by eexists]. intros _. exists fs. rewrite Em. split; [set_solver|by apply String.eqb_refl].
      * rewrite lookup_insert_ne, I2 by done. split; intros (x & Hx & Hg); exists x; split; [set_solver|done| |done].
        apply elem_of_app in Hx as [?| ->%list_elem_of_singleton]; [done|]. rewrite Em in Hg. apply String.eqb_eq in Hg. done.
    + intros n x Hx. destruct (I3 n x Hx) as (? & ? & ?). split_and!; [set_solver|done..].
    + intros x [?| ->%list_elem_of_singleton]%elem_of_app; [by apply I4|congruence].
  - split_and!.
    + intros S. rewrite Hin, app_nil_r. apply I1.
    + intros S. rewrite I2. split; intros (x & Hx & Hg); exists x; split; [set_solver|done| |done].
      apply elem_of_app in Hx as [?| ->%list_elem_of_singleton]; [done|]. by rewrite Em in Hg.
    + intros n x. rewrite lookup_insert_Some. intros [[<- <-]|[_ Hx]]; [split_and!; [set_solver|done..]|].
      destruct (I3 n x Hx) as (? & ? & ?). split_and!; [set_solver|done..].
    + intros x [Hx| ->%list_elem_of_singleton]%elem_of_app Hm; [|by rewrite lookup_insert_eq].
      destruct (decide (fs_name fs = fs_name x)) as [->|]; [by rewrite lookup_insert_eq|]. rewrite lookup_insert_ne by done. by apply I4.
Qed.

Section Runtime.
Context (rt : Runtime) (rt_ok : registry_ok rt).

Local Abbreviation groups := (groupFaultScenarios (faultScenarios rt)).

Lemma values_in fs : fs ∈ (map_to_list (faultScenarios rt)).*2 <-> faultScenarios rt !! fs_name fs = Some fs.
Proof using rt_ok.
  rewrite list_elem_of_fmap. split.
  - intros ([k x] & -> & H%elem_of_map_to_list). cbn. destruct (scenarios_named rt rt_ok k x H) as [<- _]. done.
  - intros H. exists (fs_name fs, fs). split; [done|]. by apply elem_of_map_to_list.
Qed.

Lemma values_nodup : NoDup (fs_name <$> (map_to_list (faultScenarios rt)).*2).
Proof using rt_ok.
  rewrite <- list_fmap_compose. assert (E : (fs_name ∘ snd) <$> map_to_list (faultScenarios rt) = (map_to_list (faultScenarios rt)).*1);
    [|rewrite E; apply NoDup_fst_map_to_list].
  apply list_fmap_ext. intros i [k fs] Hi. cbn. apply list_elem_of_lookup_2, elem_of_map_to_list in Hi.
  by destruct (scenarios_named rt rt_ok k fs Hi).
Qed.

(** A group is the registered cells of its scenario, each once. *)
Lemma group_cells S l : groups.1 !! S = Some l ->
  NoDup (fs_name <$> l) /\ (forall fs, fs ∈ l <-> faultScenarios rt !! fs_name fs = Some fs /\ in_group S fs = true).
Proof using rt_ok.
  unfold groupFaultScenarios. destruct (group_spec (map_to_list (faultScenarios rt)).*2) as (G1 & _ & _ & _).
  destruct (foldl group_one (∅, ∅) _) as [c f]. cbn [fst snd] in *. rewrite lookup_fmap. specialize (G1 S).
  destruct (c !! S) as [l'|]; [|done]. cbn in G1. intros [= <-]. subst l'. split.
  - rewrite merge_sort_Permutation. apply NoDup_fmap_filter, values_nodup.
  - intros fs. rewrite merge_sort_Permutation. rewrite list_elem_of_In, List.filter_In, <- list_elem_of_In, values_in. done.
Qed.

Lemma group_exists S : is_Some (groups.1 !! S) <-> exists fs, faultScenarios rt !! fs_name fs = Some fs /\ in_group S fs = true.
Proof using rt_ok.
  unfold groupFaultScenarios. destruct (group_spec (map_to_list (faultScenarios rt)).*2) as (_ & G2 & _ & _).
  destruct (foldl group_one (∅, ∅) _) as [c f]. cbn [fst snd] in *. rewrite lookup_fmap, fmap_is_Some, G2.
  split; intros (fs & H & ?); exists fs; split; [by apply values_in|done|by apply values_in|done].
Qed.

Lemma free_spec n fs : groups.2 !! n = Some fs <-> faultScenarios rt !! n = Some fs /\ fs_matrix fs = None /\ fs_name fs = n.
Proof using rt_ok.
  unfold groupFaultScenarios. destruct (group_spec (map_to_list (faultScenarios rt)).*2) as (_ & _ & G3 & G4).
  destruct (foldl group_one (∅, ∅) _) as [c f]. cbn [fst snd] in *. split.
  - intros H. destruct (G3 n fs H) as (H1 & H2 & <-). apply values_in in H1. done.
  - intros (H1 & H2 & <-). apply values_in in H1. destruct (G4 fs H1 H2) as [fs' E]. destruct (G3 _ _ E) as (H3 & _ & H4).
    apply values_in in H3, H1. rewrite H4 in H3. congruence.
Qed.

Lemma scenario_index n : is_Some (indexScenarios rt !! n) <-> n ∈ (scenarios rt).*1.
Proof.
  unfold indexScenarios. set (f := fun out '(n, f) => _).
  enough (H : forall l m, is_Some (foldl f m l !! n) <-> is_Some (m !! n) \/ n ∈ l.*1).
  { rewrite H, lookup_empty. split; [by intros [[? ?]|?]|auto]. }
  induction l as [|[k c] l IH]; intros m; cbn [foldl fmap list_fmap fst]; [split; [auto|by intros [?|?%elem_of_nil]]|].
  rewrite IH, elem_of_cons. unfold f. destruct (decide (k = n)) as [->|Hne]; [rewrite lookup_insert_eq; split; [auto|]; intros _; by left|].
  rewrite lookup_insert_ne by done. split; [tauto|]. intros [?|[?|?]]; auto. congruence.
Qed.

(** *** Passes *)

Lemma add_entries_names es ts x : x ∈ Name <$> add_entries es ts <-> x ∈ Name <$> ts \/ x ∈ Name <$> es.
Proof.
  unfold add_entries. revert ts. induction es as [|e es IH]; intros ts; cbn [foldl fmap list_fmap].
  { split; [auto|]. by intros [?|?%elem_of_nil]. }
  rewrite IH, elem_of_cons. case_bool_decide as H; [split; [tauto|]; intros [?|[->|?]]; auto|].
  rewrite fmap_app, elem_of_app. cbn. rewrite list_elem_of_singleton. tauto.
Qed.

Lemma add_entries_nodup es ts : NoDup (Name <$> ts) -> NoDup (Name <$> add_entries es ts).
Proof.
  unfold add_entries. revert ts. induction es as [|e es IH]; intros ts Hd; [done|]. cbn [foldl]. apply IH. case_bool_decide as H; [done|].
  rewrite fmap_app. apply NoDup_app. split_and!; [done| |apply NoDup_singleton]. by intros x Hx ->%list_elem_of_singleton.
Qed.

Lemma add_entries_in es ts e : e ∈ add_entries es ts -> e ∈ ts \/ e ∈ es.
Proof.
  unfold add_entries. revert ts. induction es as [|e' es IH]; intros ts; cbn [foldl]; [auto|].
  intros [H|H]%IH; [|right; by right]. case_bool_decide; [auto|]. apply elem_of_app in H as [?| ->%list_elem_of_singleton]; [auto|]. right. by left.
Qed.

Lemma add_entries_keeps es ts e : e ∈ ts -> e ∈ add_entries es ts.
Proof.
  unfold add_entries. revert ts. induction es as [|e' es IH]; intros ts H; [done|]. cbn [foldl]. apply IH. case_bool_decide; [done|].
  apply elem_of_app. by left.
Qed.

Lemma keys_pass {A B} (g : string -> A -> B) (m : gmap string A) e :
  e ∈ omap (fun n => g n <$> m !! n) (sortedKeys m) <-> exists n x, m !! n = Some x /\ e = g n x.
Proof.
  rewrite list_elem_of_omap. unfold sortedKeys, sort_strings. split.
  - intros (n & _ & H). destruct (m !! n) as [x|] eqn:E; [|done]. injection H as <-. by exists n, x.
  - intros (n & x & Hn & ->). exists n. rewrite merge_sort_Permutation, Hn. split; [|done].
    apply list_elem_of_fmap. exists (n, x). split; [done|]. by apply elem_of_map_to_list.
Qed.

Definition planned : list PlanTest :=
  add_entries (scenario_pass rt) (add_entries (fault_pass rt) (add_entries (matrix_pass rt)
    (add_entries (builtin_pass rt) (def_pass rt)))).

Lemma matrix_pass_in e : e ∈ matrix_pass rt <-> exists S l, groups.1 !! S = Some l /\ e = matrix_entry S l.
Proof. unfold matrix_pass. rewrite keys_pass. done. Qed.
Lemma fault_pass_in e : e ∈ fault_pass rt <-> exists n fs, groups.2 !! n = Some fs /\ e = fault_entry fs.
Proof. unfold fault_pass. rewrite (keys_pass (fun _ => fault_entry)). done. Qed.
Lemma builtin_pass_in e : e ∈ builtin_pass rt <-> exists n cfg, testConfigs rt !! n = Some cfg /\ e = builtin_entry n cfg.
Proof. unfold builtin_pass. rewrite keys_pass. done. Qed.
Lemma scenario_pass_in e : e ∈ scenario_pass rt <-> exists n, n ∈ (scenarios rt).*1 /\ e = scenario_entry n.
Proof.
  unfold scenario_pass, sort_strings, sortedKeys, sort_strings. rewrite list_elem_of_fmap. split.
  - intros (n & -> & H). exists n. split; [|done]. rewrite !merge_sort_Permutation in H.
    apply list_elem_of_fmap in H as ([k c] & -> & H%elem_of_map_to_list). apply scenario_index. by exists c.
  - intros (n & [c H]%scenario_index & ->). exists n. split; [done|]. rewrite !merge_sort_Permutation. apply list_elem_of_fmap.
    exists (n, c). split; [done|]. by apply elem_of_map_to_list.
Qed.
Lemma def_pass_in e : e ∈ def_pass rt <-> exists n, n ∈ defTestNames rt /\ e = def_entry rt n.
Proof.
  unfold def_pass, sort_strings. rewrite list_elem_of_fmap. split; intros (n & H1 & H2); exists n.
  - by rewrite merge_sort_Permutation in H2.
  - by rewrite merge_sort_Permutation.
Qed.

Lemma def_entry_name n : Name (def_entry rt n) = n /\ Kind (def_entry rt n) = KindDef.
Proof. unfold def_entry, applyChooseAxes. by destruct (length _ =? 0)%nat. Qed.

Definition resv (x : string) : bool := has_prefix "test_matrix_" x.

Lemma defTestNames_in x : x ∈ defTestNames rt <->
  (exists v, globals rt !! x = Some v /\ is_test x = true /\ callable v = true) /\ resv x = false /\ testConfigs rt !! x = None /\
  indexScenarios rt !! trim_prefix x "test_" = None /\ groups.2 !! trim_prefix x "test_" = None.
Proof.
  unfold defTestNames, GlobalCallableNames. destruct groups as [c f] eqn:Eg. cbn [snd].
  rewrite list_elem_of_In, List.filter_In, <- list_elem_of_In, !andb_true_iff, !bool_decide_eq_true, negb_true_iff.
  assert (E : x ∈ (List.filter (fun p => callable p.2) (map_to_list (globals rt))).*1 <-> exists v, globals rt !! x = Some v /\ callable v = true).
  { rewrite list_elem_of_fmap. split.
    - intros ([k v] & -> & [H1 H2]%list_elem_of_In%List.filter_In). apply list_elem_of_In, elem_of_map_to_list in H1. by exists v.
    - intros (v & H1 & H2). exists (x, v). split; [done|]. apply list_elem_of_In, List.filter_In. split; [|done].
      by apply list_elem_of_In, elem_of_map_to_list. }
  rewrite E. unfold resv. naive_solver.
Qed.

Lemma defTestNames_nodup : NoDup (defTestNames rt).
Proof.
  unfold defTestNames, GlobalCallableNames. destruct groups. set (p := fun name => _). rewrite <- (list_fmap_id (List.filter p _)).
  apply NoDup_fmap_filter. rewrite list_fmap_id. apply NoDup_fmap_filter, NoDup_fst_map_to_list.
Qed.

Lemma planned_nodup : NoDup (Name <$> planned).
Proof.
  unfold planned. do 4 apply add_entries_nodup. unfold def_pass. rewrite <- list_fmap_compose.
  assert (E : (Name ∘ def_entry rt) <$> sort_strings (defTestNames rt) = sort_strings (defTestNames rt)).
  { rewrite <- (list_fmap_id (sort_strings _)) at 2. apply list_fmap_ext. intros i n _. apply def_entry_name. }
  rewrite E. unfold sort_strings. rewrite merge_sort_Permutation. apply defTestNames_nodup.
Qed.

(** *** Expansion *)

(** The tests that an entry stands for: the cells of a matrix, else the test itself. *)
Definition expand_one (t : PlanTest) : list string := match Kind t with KindFaultMatrix => MatrixCells t | _ => [Name t] end.
Definition expand (ts : list PlanTest) : list string := t ← ts; expand_one t.

(** The names under [test_matrix_] are left to the cells of matrices. *)
Record matrix_names_reserved : Prop := {
  res_globals : forall x v, globals rt !! x = Some v -> callable v = true -> resv x = false;
  res_scenarios : forall n, n ∈ (scenarios rt).*1 -> resv ("test_" +:+ n) = false;
  res_faults : forall k fs, faultScenarios rt !! k = Some fs -> fs_matrix fs = None -> resv ("test_" +:+ fs_name fs) = false;
  res_tests : forall x, is_Some (testConfigs rt !! x) -> resv x = false }.

Context (reserved : matrix_names_reserved).

Definition is_plain (t : PlanTest) : Prop := Kind t <> KindFaultMatrix /\ resv (Name t) = false.

Lemma planned_cases t : t ∈ planned -> is_plain t \/ exists S l, groups.1 !! S = Some l /\ t = matrix_entry S l.
Proof using rt_ok reserved.
  unfold planned. intros [[[[H|H]%add_entries_in|H]%add_entries_in|H]%add_entries_in|H]%add_entries_in.
  - apply def_pass_in in H as (n & (_ & Hr & _)%defTestNames_in & ->). left. unfold is_plain. destruct (def_entry_name n) as [-> ->]. done.
  - apply builtin_pass_in in H as (n & cfg & H & ->). left. split; [done|]. apply (res_tests reserved). by exists cfg.
  - apply matrix_pass_in in H. by right.
  - apply fault_pass_in in H as (n & fs & H & ->). left. split; [done|]. destruct (proj1 (free_spec n fs) H) as (H1 & Hm & <-). by eapply res_faults.
  - apply scenario_pass_in in H as (n & H & ->). left. split; [done|]. by apply (res_scenarios reserved).
Qed.

Lemma expand_plain t : is_plain t -> expand_one t = [Name t].
Proof. intros [H _]. unfold expand_one. by destruct (Kind t). Qed.

Lemma matrix_cell_names S l x : groups.1 !! S = Some l -> x ∈ expand_one (matrix_entry S l) <->
  exists fs, faultScenarios rt !! fs_name fs = Some fs /\ in_group S fs = true /\ x = "test_" +:+ fs_name fs.
Proof using rt_ok.
  intros H. destruct (group_cells S l H) as [_ Hl]. cbn. unfold cellNames, sort_strings. rewrite merge_sort_Permutation, list_elem_of_fmap. split.
  - intros (fs & -> & [? ?]%Hl). by exists fs.
  - intros (fs & H1 & H2 & ->). exists fs. split; [done|]. by apply Hl.
Qed.

Lemma in_group_name S fs : faultScenarios rt !! fs_name fs = Some fs -> in_group S fs = true ->
  exists F, "test_" +:+ fs_name fs = "test_matrix_" +:+ S +:+ "_" +:+ F.
Proof using rt_ok.
  intros H Hg. destruct (scenarios_named rt rt_ok _ _ H) as [_ Hm]. unfold in_group in Hg. destruct (fs_matrix fs) as [mi|]; [|done].
  apply String.eqb_eq in Hg as <-. exists (FaultName mi). rewrite (Hm mi eq_refl). done.
Qed.

Lemma same_name_same ts (t1 t2 : PlanTest) : NoDup (Name <$> ts) -> t1 ∈ ts -> t2 ∈ ts -> Name t1 = Name t2 -> t1 = t2.
Proof.
  induction ts as [|t ts IH]; [by intros _ ?%elem_of_nil|]. cbn. intros [Ht Hd]%NoDup_cons [->|H1]%elem_of_cons [->|H2]%elem_of_cons E; [done|..].
  - destruct Ht. rewrite E. by apply list_elem_of_fmap_2.
  - destruct Ht. rewrite <- E. by apply list_elem_of_fmap_2.
  - by apply IH.
Qed.

Lemma expand_nodup : NoDup (expand planned).
Proof using rt_ok reserved.
  unfold expand. apply NoDup_bind.
  - intros t1 t2 y H1 H2 Y1 Y2. pose proof (planned_cases _ H1) as C1. pose proof (planned_cases _ H2) as C2.
    assert (Hcell : forall S l, groups.1 !! S = Some l -> y ∈ expand_one (matrix_entry S l) -> resv y = true).
    { intros S l HS (fs & Hf & Hg & ->)%(matrix_cell_names S l y HS). destruct (in_group_name S fs Hf Hg) as [F ->]. apply has_prefix_app. }
    destruct C1 as [C1|(S1 & l1 & E1 & ->)], C2 as [C2|(S2 & l2 & E2 & ->)].
    + rewrite expand_plain in Y1, Y2 by done. apply list_elem_of_singleton in Y1, Y2.
      apply (same_name_same planned); [apply planned_nodup|done..|congruence].
    + rewrite expand_plain in Y1 by done. apply list_elem_of_singleton in Y1. destruct C1 as [_ C1]. apply (Hcell _ _ E2) in Y2. congruence.
    + rewrite expand_plain in Y2 by done. apply list_elem_of_singleton in Y2. destruct C2 as [_ C2]. apply (Hcell _ _ E1) in Y1. congruence.
    + apply (matrix_cell_names _ _ y E1) in Y1 as (f1 & F1 & G1 & Ey1). apply (matrix_cell_names _ _ y E2) in Y2 as (f2 & F2 & G2 & Ey2).
      assert (En : fs_name f1 = fs_name f2) by (rewrite Ey1 in Ey2; by injection Ey2). rewrite En in F1. assert (f1 = f2) as <- by congruence.
      unfold in_group in G1, G2. destruct (fs_matrix f1); [|done]. apply String.eqb_eq in G1, G2. subst. congruence.
  - intros t Ht. destruct (planned_cases _ Ht) as [C|(S & l & E & ->)]; [rewrite expand_plain by done; apply NoDup_singleton|].
    destruct (group_cells S l E) as [Hd _]. cbn. unfold cellNames, sort_strings. rewrite merge_sort_Permutation.
    change (fun c => "test_" +:+ fs_name c) with ((fun n => "test_" +:+ n) ∘ fs_name). rewrite list_fmap_compose. apply NoDup_fmap_2; [|done].
    intros a b Hab. by injection Hab.
  - apply (NoDup_fmap_1 Name), planned_nodup.
Qed.

Lemma has_prefix_trim pre x : has_prefix pre x = true -> x = pre +:+ trim_prefix x pre.
Proof.
  intros H. unfold trim_prefix. rewrite H. unfold has_prefix in H. revert x H. induction pre as [|c pre IH]; intros x H; [done|].
  destruct x as [|d x]; [done|]. cbn in H. destruct (ascii_dec c d) as [<-|]; [|done]. cbn. change (String c ?a +:+ ?b) with (String c (a +:+ b)).
  by rewrite <- IH.
Qed.

(** The names that the passes without matrices list. *)
Definition plainly (x : string) : Prop :=
  x ∈ Name <$> def_pass rt \/ x ∈ Name <$> builtin_pass rt \/ x ∈ Name <$> fault_pass rt \/ x ∈ Name <$> scenario_pass rt.

Lemma plainly_builtin x : is_Some (testConfigs rt !! x) -> plainly x.
Proof. intros [cfg H]. right. left. apply list_elem_of_fmap. exists (builtin_entry x cfg). split; [done|]. apply builtin_pass_in. by exists x, cfg. Qed.
Lemma plainly_scenario n : n ∈ (scenarios rt).*1 -> plainly ("test_" +:+ n).
Proof. intros H. right. right. right. apply list_elem_of_fmap. exists (scenario_entry n). split; [done|]. apply scenario_pass_in. by exists n. Qed.
Lemma plainly_fault n fs : groups.2 !! n = Some fs -> plainly ("test_" +:+ fs_name fs).
Proof. intros H. right. right. left. apply list_elem_of_fmap. exists (fault_entry fs). split; [done|]. apply fault_pass_in. by exists n, fs. Qed.

Lemma plain_names x : plainly x <-> discoverable rt x /\ resv x = false.
Proof using rt_ok reserved.
  split.
  - intros [(t & -> & H)%list_elem_of_fmap|[(t & -> & H)%list_elem_of_fmap|[(t & -> & H)%list_elem_of_fmap|(t & -> & H)%list_elem_of_fmap]]].
    + apply def_pass_in in H as (n & (Hg & Hr & _)%defTestNames_in & ->). destruct (def_entry_name n) as [-> _]. split; [by left|done].
    + apply builtin_pass_in in H as (n & cfg & H & ->). cbn. split; [right; right; right|apply (res_tests reserved)]; by exists cfg.
    + apply fault_pass_in in H as (n & fs & H & ->). destruct (proj1 (free_spec n fs) H) as (H1 & Hm & <-). cbn.
      split; [right; right; left; by exists (fs_name fs), fs|by eapply res_faults].
    + apply scenario_pass_in in H as (n & H & ->). cbn. split; [right; left; by exists n|by apply (res_scenarios reserved)].
  - intros [[(v & H1 & H2 & H3)|[(n & Hn & ->)|[(k & fs & Hk & ->)|Hc]]] Hr]; [|by apply plainly_scenario| |by apply plainly_builtin].
    + destruct (testConfigs rt !! x) as [cfg|] eqn:Ec; [apply plainly_builtin; by exists cfg|].
      pose proof (has_prefix_trim "test_" x H2) as Ex. set (n := trim_prefix x "test_") in *.
      destruct (indexScenarios rt !! n) as [c|] eqn:Es; [rewrite Ex; apply plainly_scenario, scenario_index; by exists c|].
      destruct (groups.2 !! n) as [fs|] eqn:Ef.
      { destruct (proj1 (free_spec n fs) Ef) as (_ & _ & E). rewrite Ex, <- E. by eapply plainly_fault. }
      left. apply list_elem_of_fmap. exists (def_entry rt x). split; [symmetry; apply def_entry_name|]. apply def_pass_in. exists x. split; [|done].
      apply defTestNames_in. split; [by exists v|]. split_and!; [done..|].
      rewrite <- Ef. done.
    + destruct (scenarios_named rt rt_ok k fs Hk) as [<- Hm]. destruct (fs_matrix fs) as [mi|] eqn:Em.
      { specialize (Hm mi eq_refl). rewrite Hm in Hr. unfold resv in Hr.
        change ("test_" +:+ "matrix_" +:+ ScenarioName mi +:+ "_" +:+ FaultName mi) with ("test_matrix_" +:+ (ScenarioName mi +:+ "_" +:+ FaultName mi)) in Hr.
        by rewrite has_prefix_app in Hr. }
      eapply plainly_fault. apply free_spec. by split_and!.
Qed.

Lemma planned_names x : x ∈ Name <$> planned <-> plainly x \/ exists S, is_Some (groups.1 !! S) /\ x = "test_matrix_" +:+ S.
Proof.
  unfold planned. rewrite !add_entries_names. assert (E : x ∈ Name <$> matrix_pass rt <-> exists S, is_Some (groups.1 !! S) /\ x = "test_matrix_" +:+ S).
  { rewrite list_elem_of_fmap. split.
    - intros (t & -> & (S & l & H & ->)%matrix_pass_in). exists S. split; [by exists l|done].
    - intros (S & [l H] & ->). exists (matrix_entry S l). split; [done|]. apply matrix_pass_in. by exists S, l. }
  rewrite E. unfold plainly. tauto.
Qed.

Lemma expand_in x : x ∈ expand planned <-> discoverable rt x.
Proof using rt_ok reserved.
  unfold expand. rewrite list_elem_of_bind. split.
  - intros (t & Hx & Ht). destruct (planned_cases _ Ht) as [C|(S & l & E & ->)].
    + rewrite expand_plain in Hx by done. apply list_elem_of_singleton in Hx as ->. apply (proj1 (plain_names (Name t))).
      destruct (proj1 (planned_names (Name t)) (list_elem_of_fmap_2 Name _ _ Ht)) as [?|(S & _ & E)]; [done|].
      destruct C as [_ C]. rewrite E in C. unfold resv in C. by rewrite has_prefix_app in C.
    + apply (matrix_cell_names S l x E) in Hx as (fs & H1 & H2 & ->). right. right. left. by exists (fs_name fs), fs.
  - intros Hd. destruct (resv x) eqn:Hr.
    + assert (Hf : exists fs S, faultScenarios rt !! fs_name fs = Some fs /\ in_group S fs = true /\ x = "test_" +:+ fs_name fs).
      { destruct Hd as [(v & H1 & H2 & H3)|[(n & Hn & ->)|[(k & fs & Hk & ->)|Hc]]].
        - by rewrite (res_globals reserved x v) in Hr.
        - by rewrite (res_scenarios reserved n Hn) in Hr.
        - destruct (scenarios_named rt rt_ok k fs Hk) as [<- _]. destruct (fs_matrix fs) as [mi|] eqn:Em; [|by rewrite (res_faults reserved _ _ Hk Em) in Hr].
          exists fs, (ScenarioName mi). split_and!; [done| |done]. unfold in_group. rewrite Em. apply String.eqb_refl.
        - by rewrite (res_tests reserved x Hc) in Hr. }
      destruct Hf as (fs & S & H1 & H2 & ->). assert (HS : is_Some (groups.1 !! S)) by (apply group_exists; by exists fs).
      assert (Hn : "test_matrix_" +:+ S ∈ Name <$> planned) by (apply planned_names; right; by exists S).
      apply list_elem_of_fmap in Hn as (t & En & Ht). exists t. split; [|done]. destruct (planned_cases _ Ht) as [[_ C]|(S' & l & E & ->)].
      { rewrite <- En in C. unfold resv in C. by rewrite has_prefix_app in C. }
      change ("test_matrix_" +:+ S = "test_matrix_" +:+ S') in En. apply (inj (String.append _)) in En as <-. apply (matrix_cell_names S l _ E). by exists fs.
    + assert (Hn : x ∈ Name <$> planned) by (apply planned_names; left; by apply plain_names).
      apply list_elem_of_fmap in Hn as (t & -> & Ht). exists t. split; [|done]. destruct (planned_cases _ Ht) as [C|(S & l & E & ->)].
      { rewrite expand_plain by done. by apply list_elem_of_singleton. }
      cbn in Hr. unfold resv in Hr. by rewrite has_prefix_app in Hr.
Qed.

(** *** Totals *)

Lemma instances_expand t : axes rt = ∅ -> t ∈ planned -> Instances t = Z.of_nat (length (expand_one t)).
Proof.
  intros Ha. unfold planned. intros [[[[H|H]%add_entries_in|H]%add_entries_in|H]%add_entries_in|H]%add_entries_in.
  - apply def_pass_in in H as (n & _ & ->). unfold def_entry. rewrite Ha, lookup_empty. done.
  - by apply builtin_pass_in in H as (n & cfg & _ & ->).
  - apply matrix_pass_in in H as (S & l & _ & ->). cbn. unfold cellNames, sort_strings. by rewrite merge_sort_Permutation, length_fmap.
  - by apply fault_pass_in in H as (n & fs & _ & ->).
  - by apply scenario_pass_in in H as (n & _ & ->).
Qed.

Lemma totals_sum ts n : 0 <= n -> (forall t, t ∈ ts -> Instances t = Z.of_nat (length (expand_one t))) ->
  n + Z.of_nat (length (expand ts)) < 2 ^ 63 ->
  foldl (fun n t => i64 (n + Instances t)) n ts = n + Z.of_nat (length (expand ts)).
Proof.
  revert n. induction ts as [|t ts IH]; intros n Hn Hi Hb; [cbn; lia|]. unfold expand in *. cbn [foldl mbind list_bind] in *.
  rewrite length_app in Hb |- *. rewrite (Hi t) by (by left). rewrite wrap_s_small by lia.
  rewrite IH; [lia|lia|intros t' Ht'; apply Hi; by right|lia].
Qed.

End Runtime.

(** C23: The plan lists what a run would discover.  With the names under [test_matrix_] left to matrices,
    the tests that the entries of the plan stand for - the cells of a matrix, else the entry itself -
    are the tests that discovery finds, each once; and when no test fans out, the total is their number. *)
Theorem plan_lists_discovered_tests rt : registry_ok rt -> matrix_names_reserved rt ->
  expand (Tests (Enumerate rt)) ≡ₚ (DiscoverTests rt).1 /\
  (axes rt = ∅ -> Z.of_nat (length (DiscoverTests rt).1) < 2 ^ 63 ->
   t_instances (Totals (Enumerate rt)) = Z.of_nat (length (DiscoverTests rt).1)).
Proof.
  intros Hok Hres. assert (Hp : expand (buildTests rt) ≡ₚ (DiscoverTests rt).1).
  { assert (E : buildTests rt ≡ₚ planned rt) by (unfold buildTests; apply merge_sort_Permutation).
    unfold expand. rewrite E. destruct (DiscoverTests_spec rt) as [Hd Hx]. apply NoDup_Permutation; [by apply expand_nodup|done|].
    intros x. rewrite Hx. by apply expand_in. }
  split; [done|]. intros Ha Hb. cbn. rewrite <- (Permutation_length Hp) in Hb |- *. rewrite totals_sum; [lia|lia| |lia].
  intros t Ht. apply (instances_expand rt); [done|]. unfold buildTests in Ht. by rewrite merge_sort_Permutation in Ht.
Qed.

(** The check that names are reserved. *)
Definition reserved_b (rt : Runtime) : bool :=
  forallb (fun p => negb (callable p.2) || negb (resv p.1)) (map_to_list (globals rt)) &&
  forallb (fun p => negb (resv ("test_" +:+ p.1))) (scenarios rt) &&
  forallb (fun p => is_cell p.2 || negb (resv ("test_" +:+ fs_name p.2))) (map_to_list (faultScenarios rt)) &&
  forallb (fun p => negb (resv p.1)) (map_to_list (testConfigs rt)).

Lemma forallb_in {A} (p : A -> bool) l x : forallb p l = true -> x ∈ l -> p x = true.
Proof. intros H Hx. rewrite forallb_forall in H. by apply H, list_elem_of_In. Qed.

Lemma reserved_b_ok rt : reserved_b rt = true -> matrix_names_reserved rt.
Proof.
  unfold reserved_b. rewrite !andb_true_iff. intros [[[H1 H2] H3] H4]. split.
  - intros x v Hx Hc. apply elem_of_map_to_list in Hx. pose proof (forallb_in _ _ _ H1 Hx) as H. cbn in H. rewrite Hc in H. by apply negb_true_iff in H.
  - intros n ([n' c] & -> & Hn)%list_elem_of_fmap. pose proof (forallb_in _ _ _ H2 Hn) as H. by apply negb_true_iff in H.
  - intros k fs Hk Hm. apply elem_of_map_to_list in Hk. pose proof (forallb_in _ _ _ H3 Hk) as H. unfold is_cell in H. cbn in H. rewrite Hm in H. by apply negb_true_iff in H.
  - intros x [c Hx]. apply elem_of_map_to_list in Hx. pose proof (forallb_in _ _ _ H4 Hx) as H. by apply negb_true_iff in H.
Qed.

Definition sample_runtime : Runtime :=
  (load [CScenario [VCallable order_flow]; CFaultAssumption (fun m => map_to_list m) [VString "db_down"] [];
         CFaultMatrix (matrix_kwargs [order_flow] [db_down] expects [] [])]
     (mkRuntime {["test_smoke" := RFunction (mkCallable "test_smoke" "function" 2)]} [] ∅ ∅ ∅ [] [] ∅)).2.

Lemma plan_lists_discovered_tests_witness :
  expand (Tests (Enumerate sample_runtime)) ≡ₚ ["test_matrix_order_flow_db_down"; "test_order_flow"; "test_smoke"].
Proof.
  assert (E : (DiscoverTests sample_runtime).1 = ["test_matrix_order_flow_db_down"; "test_order_flow"; "test_smoke"]) by (vm_compute; reflexivity).
  rewrite <- E. apply (plan_lists_discovered_tests sample_runtime).
  - apply load_ok. split; cbn; intros k x; by rewrite lookup_empty.
  - apply reserved_b_ok. vm_compute. reflexivity.
Defined.

(** A function whose name begins like a cell's runs, but is not planned. *)
Lemma matrix_named_function_unplanned :
  let rt := mkRuntime {["test_matrix_smoke" := RFunction (mkCallable "test_matrix_smoke" "function" 2)]} [] ∅ ∅ ∅ [] [] ∅ in
  (DiscoverTests rt).1 = ["test_matrix_smoke"] /\ Tests (Enumerate rt) = [] /\ t_instances (Totals (Enumerate rt)) = 0.
Proof. vm_compute. done. Qed.

End PlanCorrect.

(** ** Fan-out *)
Module FanOut.
Import Discovery.

Section Leaves.
Context {V : Type}.

(** The axis that the scan read is the call that the body made. *)
Definition reads (a : ChooseAxis) (c : Leaf.ChoiceVal V) : Prop :=
  ax_known a = true /\ ax_name a = Leaf.ChoiceName c /\ length (ax_values a) = length (Leaf.Options c).

Definition options (c : Leaf.ChoiceVal V) : Z := Z.max 1 (Z.of_nat (length (Leaf.Options c))).

Lemma reads_cardinality a c : reads a c -> Cardinality a = options c.
Proof.
  intros (Hk & _ & Hl). unfold Cardinality, options. rewrite Hk, Hl. cbn [negb orb]. destruct (length (Leaf.Options c)); cbn [Nat.eqb]; lia.
Qed.

Lemma leaf_count l cs : Forall2 reads l cs -> Leaf.product (options <$> cs) < 2 ^ 63 -> ChooseLeafCount l = Leaf.product (options <$> cs).
Proof.
  intros H Hb. assert (Hp : Forall (fun c => 1 <= c) (options <$> cs)) by (apply Forall_fmap, Forall_true; intros c; unfold options; cbn; lia).
  enough (E : forall n, 1 <= n -> n * Leaf.product (options <$> cs) < 2 ^ 63 ->
    foldl (fun n a => i64 (n * Cardinality a)) n l = n * Leaf.product (options <$> cs)).
  { unfold ChooseLeafCount. rewrite E by lia. pose proof (Leaf.product_pos _ Hp). destruct (Z.ltb_spec (1 * Leaf.product (options <$> cs)) 1); lia. }
  clear Hb. induction H as [|a c l cs Hr _ IH]; intros n Hn Hb; cbn [foldl fmap list_fmap Leaf.product] in *; [lia|].
  apply Forall_cons in Hp as [Hc Hp]. pose proof (Leaf.product_pos _ Hp). rewrite (reads_cardinality _ _ Hr).
  rewrite wrap_s_small by nia. rewrite IH; [lia|done|nia|nia].
Qed.

Definition fans (c : Leaf.ChoiceVal V) : bool := negb (length (Leaf.Options c) <? 2)%nat.

Lemma collect_distinct cs seen : NoDup (Leaf.ChoiceName <$> cs) -> Forall (fun c => Leaf.ChoiceName c <> "" /\ Leaf.ChoiceName c ∉ seen) cs ->
  Leaf.collect_axes seen cs = List.filter fans cs.
Proof.
  revert seen. induction cs as [|c cs IH]; intros seen Hd Hf; [done|].
  rewrite fmap_cons in Hd. cbn [Leaf.collect_axes List.filter]. apply NoDup_cons in Hd as [Hc Hd].
  apply Forall_cons in Hf as [[Hn Hs] Hf]. rewrite (proj2 (String.eqb_neq _ _) Hn). cbn [orb]. unfold fans at 1.
  destruct (length (Leaf.Options c) <? 2)%nat; cbn [negb]; [by apply IH|]. rewrite bool_decide_eq_false_2 by done. f_equal. apply IH; [done|].
  apply Forall_forall. intros x Hx. rewrite Forall_forall in Hf. destruct (Hf x Hx) as [? ?]. split; [done|]. apply not_elem_of_cons. split; [|done].
  intros E. destruct Hc. rewrite <- E. by apply list_elem_of_fmap_2.
Qed.

Lemma fans_product cs : Leaf.product ((fun c => Z.of_nat (length (Leaf.Options c))) <$> List.filter fans cs) = Leaf.product (options <$> cs).
Proof.
  induction cs as [|c cs IH]; [done|]. cbn [List.filter fmap list_fmap Leaf.product]. unfold fans at 1, options at 1.
  destruct (Nat.ltb_spec (length (Leaf.Options c)) 2); cbn [negb fmap list_fmap Leaf.product]; rewrite IH; [|lia].
  destruct (length (Leaf.Options c)) as [|[|n]]; [lia|lia|lia].
Qed.

Lemma named_choices cs : Forall (fun c => Leaf.ChoiceName c <> "") cs ->
  Leaf.collectChoices (List.filter fans cs) [] [] = Leaf.choice_axis <$> List.filter fans cs /\
  Leaf.Cardinality <$> (Leaf.choice_axis <$> List.filter fans cs) = (fun c => Z.of_nat (length (Leaf.Options c))) <$> List.filter fans cs.
Proof.
  unfold Leaf.collectChoices. rewrite !app_nil_r. induction 1 as [|c cs Hn _ IH]; [done|]. cbn [List.filter].
  destruct (fans c) eqn:Hf; [|exact IH]. unfold fans in Hf. destruct (Nat.ltb_spec (length (Leaf.Options c)) 2) as [|Hl]; [done|]. destruct IH as [I1 I2]. cbn [fmap list_fmap].
  assert (Ec : Leaf.Cardinality (Leaf.choice_axis c) = Z.of_nat (length (Leaf.Options c))).
  { unfold Leaf.choice_axis. cbn [Leaf.Cardinality]. by rewrite (proj2 (String.eqb_neq _ _) Hn), (proj2 (Nat.ltb_ge _ _) Hl). }
  split; [|by rewrite Ec; f_equal]. rewrite filter_cons_True by (rewrite Ec; lia). f_equal. exact I1.
Qed.

(** *** The scan *)

(** The nodes of a tree, a node before its children. *)
Fixpoint nodes (n : node) : list node :=
  n :: match n with
       | NCall fn args => nodes fn ++ flat_map nodes args
       | NList kids | NOther kids => flat_map nodes kids
       | NIdent _ | NLiteral _ _ => []
       end.

Lemma node_trees (P : node -> Prop) :
  (forall fn args, P fn -> Forall P args -> P (NCall fn args)) -> (forall s, P (NIdent s)) -> (forall b s, P (NLiteral b s)) ->
  (forall l, Forall P l -> P (NList l)) -> (forall l, Forall P l -> P (NOther l)) -> forall n, P n.
Proof.
  intros H1 H2 H3 H4 H5. fix IH 1. intros [fn args|s|b s|l|l]; [apply H1; [apply IH|]|apply H2|apply H3|apply H4|apply H5];
    (induction args as [|x l IHl] || induction l as [|x l IHl]); constructor; (apply IH || exact IHl).
Qed.

Lemma walk_list l st : Forall (fun n => forall st, walk n st = foldl (fun st n => visit_call n st) st (nodes n)) l ->
  foldl (fun st n => walk n st) st l = foldl (fun st n => visit_call n st) st (flat_map nodes l).
Proof. intros H. revert st. induction H as [|x l Hx _ IH]; intros st; [done|]. cbn [foldl flat_map]. by rewrite foldl_app, <- Hx, IH. Qed.

Lemma walk_nodes n st : walk n st = foldl (fun st n => visit_call n st) st (nodes n).
Proof.
  revert st. induction n as [fn args IHf IHa|s|b s|l IH|l IH] using node_trees; intros st; [|done|done|..]; cbn [walk nodes foldl].
  - rewrite foldl_app, <- IHf. by apply walk_list.
  - by apply walk_list.
  - by apply walk_list.
Qed.

(** The calls of [choose] in a body. *)
Definition is_choose (n : node) : bool := match n with NCall (NIdent f) _ => String.eqb f "choose" | _ => false end.
Definition choose_calls (n : node) : list node := List.filter is_choose (nodes n).

(** Such a call, with a name and a list written out, makes a choice of that name among as many options. *)
Definition made (call : node) (c : Leaf.ChoiceVal V) : Prop :=
  exists opts, call = NCall (NIdent "choose") [NLiteral true (Leaf.ChoiceName c); NList opts] /\ length (Leaf.Options c) = length opts.

Lemma visit_other n st : is_choose n = false -> visit_call n st = st.
Proof.
  unfold is_choose, visit_call. destruct st as [found anon]. destruct n as [[|f| | |] args| | | |]; try done. intros H%String.eqb_neq.
  repeat (destruct f as [|[[] [] [] [] [] [] [] []] f]; try done).
Qed.

Lemma visit_made n c found anon : made n c -> exists a, visit_call n (found, anon) = (found ++ [a], anon) /\ reads a c.
Proof.
  intros (opts & -> & Hl). cbn. eexists. split; [done|]. split_and!; [done..|]. cbn. by rewrite length_fmap.
Qed.

Lemma scan_list l cs found anon : Forall2 made (List.filter is_choose l) cs ->
  exists axes, foldl (fun st n => visit_call n st) (found, anon) l = (found ++ axes, anon) /\ Forall2 reads axes cs.
Proof.
  revert cs found anon. induction l as [|n l IH]; intros cs found anon H; cbn [foldl List.filter] in *.
  { inversion H; subst. exists []. by rewrite app_nil_r. }
  destruct (is_choose n) eqn:En.
  - inversion H as [|? c ? cs' Hm Hr]; subst. destruct (visit_made n c found anon Hm) as (a & -> & Ha).
    destruct (IH cs' (found ++ [a]) anon Hr) as (axes & -> & Hax). exists (a :: axes). rewrite <- app_assoc. split; [done|by constructor].
  - rewrite visit_other by done. by apply IH.
Qed.

Lemma scan_reads n cs : Forall2 made (choose_calls n) cs -> Forall2 reads (chooseAxesInNode n) cs.
Proof.
  intros H. unfold chooseAxesInNode. rewrite walk_nodes. destruct (scan_list (nodes n) cs [] 0 H) as (axes & -> & Hr). exact Hr.
Qed.

(** The axes of a function are those of its body. *)
Lemma source_axes stmts name body : NoDup (omap fst stmts) -> (Some name, body) ∈ stmts ->
  default [] (chooseAxesInSource stmts !! name) = chooseAxesInNode body.
Proof.
  unfold chooseAxesInSource. set (f := fun out _ => _).
  assert (Hkeep : forall l out, name ∉ omap fst l -> foldl f out l !! name = out !! name).
  { induction l as [|[[def|] n] l IH]; intros out Hn; [done| |by apply IH]. cbn [omap list_omap fst] in Hn. apply not_elem_of_cons in Hn as [Hne Hn]. cbn [foldl].
    rewrite IH by done. unfold f. cbv zeta. destruct (length _ =? 0)%nat; [done|]. by rewrite lookup_insert_ne. }
  enough (H : forall l out, NoDup (omap fst l) -> (Some name, body) ∈ l -> out !! name = None -> default [] (foldl f out l !! name) = chooseAxesInNode body)
    by (intros; by apply H).
  induction l as [|[def n] l IH]; intros out Hnd Hin Ho; [by apply elem_of_nil in Hin|]. cbn [foldl]. apply elem_of_cons in Hin as [[= <- <-]|Hin].
  - cbn [omap list_omap fst] in Hnd. apply NoDup_cons in Hnd as [Hn _]. rewrite Hkeep by done. unfold f. cbv zeta.
    destruct (Nat.eqb_spec (length (chooseAxesInNode body)) 0) as [E|E]; [|by rewrite lookup_insert_eq]. apply nil_length_inv in E. by rewrite Ho, E.
  - apply IH; [|done|].
    + destruct def; [by apply NoDup_cons in Hnd as [_ ?]|done].
    + destruct def as [d|]; [|done]. unfold f. cbv zeta. destruct (length _ =? 0)%nat; [done|]. rewrite lookup_insert_ne; [done|]. intros ->.
      cbn [omap list_omap fst] in Hnd. apply NoDup_cons in Hnd as [Hd _]. apply Hd, list_elem_of_omap. by exists (Some name, body).
Qed.

(** *** The leaves *)

(** The other sources of leaves that a run recorded: probabilistic faults and parallel calls. *)
Definition other_axes (probs : list Leaf.ProbFaultSite) (pars : list Leaf.ParallelSite) : list Leaf.NonDeterministicChoice :=
  filter (fun c => 0 < Leaf.Cardinality c) ((Leaf.prob_axis <$> probs) ++ (Leaf.par_axis <$> pars)).

Lemma expand_count chs : Forall (fun c => 1 <= Leaf.Cardinality c) chs -> Leaf.product (Leaf.Cardinality <$> chs) < 2 ^ 63 ->
  exists leaves, Leaf.expandLeaves chs = Some leaves /\ Z.of_nat (length leaves) = Leaf.product (Leaf.Cardinality <$> chs).
Proof.
  intros H1 Hb. destruct chs as [|c chs]; [by eexists|]. unfold Leaf.expandLeaves. rewrite Leaf.total_product by done.
  pose proof (Leaf.product_pos _ (proj2 (Forall_fmap _ _ _) H1)). rewrite (proj2 (Z.ltb_ge _ _)) by lia. eexists. split; [done|]. rewrite length_fmap, length_seqZ. lia.
Qed.

Lemma enumerate_count cs probs pars : NoDup (Leaf.ChoiceName <$> cs) -> Forall (fun c => Leaf.ChoiceName c <> "") cs ->
  Leaf.product (options <$> cs) * Leaf.product (Leaf.Cardinality <$> other_axes probs pars) < 2 ^ 63 ->
  exists leaves, Leaf.enumerateLeaves (Leaf.collectNamedAxes cs) probs pars = Some leaves /\
    Z.of_nat (length leaves) = Leaf.product (options <$> cs) * Leaf.product (Leaf.Cardinality <$> other_axes probs pars).
Proof.
  intros Hd Hn Hb. unfold Leaf.enumerateLeaves, Leaf.collectNamedAxes.
  rewrite collect_distinct; [|done|eapply Forall_impl; [exact Hn|]; intros c ?; split; [done|apply not_elem_of_nil]].
  destruct (named_choices cs Hn) as [E Hc]. unfold Leaf.collectChoices in *. rewrite !app_nil_r in E. rewrite filter_app, E. fold (other_axes probs pars).
  assert (Hp : Leaf.product (Leaf.Cardinality <$> (Leaf.choice_axis <$> List.filter fans cs) ++ other_axes probs pars) =
    Leaf.product (options <$> cs) * Leaf.product (Leaf.Cardinality <$> other_axes probs pars)) by (rewrite fmap_app, Leaf.product_app, Hc; by rewrite fans_product).
  rewrite <- Hp in *. apply expand_count; [|done]. apply Forall_app. split.
  - rewrite <- E. apply Forall_forall. intros c [Hc' _]%list_elem_of_filter. cbn in *. lia.
  - apply Forall_forall. intros c [Hc' _]%list_elem_of_filter. cbn in *. lia.
Qed.

Lemma product_perm l l' : l ≡ₚ l' -> Leaf.product l = Leaf.product l'.
Proof. induction 1; cbn [Leaf.product]; lia. Qed.

Lemma leaf_count_complete l cs : Forall2 reads l cs -> ChooseAxesComplete l = true.
Proof. unfold ChooseAxesComplete. induction 1 as [|a c l cs [Hk _] _ IH]; [done|]. cbn [forallb]. by rewrite Hk. Qed.

(** C32: The plan predicts the fan-out.  A test function whose body makes each [choose] call written in it once, in
    any order, every one with its name and its list of options written out and the names distinct, is run
    in as many leaves as the plan announces instances, times the outcomes of the probabilistic faults and
    the orders of the parallel calls that the run records, which the plan does not count; and the plan does
    not mark the number as an estimate. *)
Theorem plan_predicts_leaves rt stmts name body (cs calls : list (Leaf.ChoiceVal V)) probs pars :
  axes rt = chooseAxesInSource stmts -> NoDup (omap fst stmts) -> (Some name, body) ∈ stmts ->
  Forall2 made (choose_calls body) calls -> cs ≡ₚ calls ->
  NoDup (Leaf.ChoiceName <$> cs) -> Forall (fun c => Leaf.ChoiceName c <> "") cs ->
  let rest := Leaf.product (Leaf.Cardinality <$> other_axes probs pars) in
  Leaf.product (options <$> cs) * rest < 2 ^ 63 ->
  exists leaves, Leaf.enumerateLeaves (Leaf.collectNamedAxes cs) probs pars = Some leaves /\
    Z.of_nat (length leaves) = Enumerate.Instances (Enumerate.def_entry rt name) * rest /\
    Enumerate.Estimated (Enumerate.def_entry rt name) = false.
Proof.
  intros Hax Hnd Hin Hm Hperm Hd Hn rest Hb. destruct (enumerate_count cs probs pars Hd Hn Hb) as (leaves & E & L). exists leaves. split; [done|].
  pose proof (scan_reads body calls Hm) as Hr. assert (Ep : Leaf.product (options <$> cs) = Leaf.product (options <$> calls)) by (apply product_perm; by rewrite Hperm).
  assert (H1 : forall l, Forall (fun c => 1 <= c) (options <$> l)) by (intros l; apply Forall_fmap, Forall_true; intros c; unfold options; cbn; lia).
  assert (Hrest : 1 <= rest) by (apply Leaf.product_pos, Forall_fmap, Forall_forall; intros c [Hc _]%list_elem_of_filter; cbn in *; lia).
  pose proof (Leaf.product_pos _ (H1 calls)) as Hpos. rewrite Ep in *. assert (Hb' : Leaf.product (options <$> calls) < 2 ^ 63) by nia.
  unfold Enumerate.def_entry. rewrite Hax, (source_axes _ _ _ Hnd Hin). unfold Enumerate.applyChooseAxes. rewrite (leaf_count_complete _ _ Hr), (leaf_count _ _ Hr Hb').
  destruct (length (chooseAxesInNode body) =? 0)%nat eqn:E0; cbn [Enumerate.Instances Enumerate.Estimated Enumerate.plain]; (split; [|done]); rewrite L; fold rest.
  - apply Nat.eqb_eq, nil_length_inv in E0. rewrite E0 in Hr. inversion Hr; subst. cbn [fmap list_fmap Leaf.product]. lia.
  - rewrite Z.mul_1_l, wrap_s_small by lia. done.
Qed.

End Leaves.

(** A body with two named choices. *)
Lemma plan_predicts_leaves_witness :
  let call name opts := NCall (NIdent "choose") [NLiteral true name; NList (NLiteral false <$> opts)] in
  let body := NOther [call "mode" ["1"; "2"]; NOther [call "size" ["1"; "2"; "3"]]] in
  let cs := [Leaf.mkChoice (V := Z) "mode" [1; 2]; Leaf.mkChoice "size" [1; 2; 3]] in
  let rt := mkRuntime {["test_sizes" := RFunction (mkCallable "test_sizes" "function" 0)]} [] ∅ ∅ ∅ [] [] (chooseAxesInSource [(Some "test_sizes", body)]) in
  exists leaves, Leaf.enumerateLeaves (Leaf.collectNamedAxes cs) [] [] = Some leaves /\ Z.of_nat (length leaves) = 6.
Proof.
  intros call body cs rt.
  destruct (plan_predicts_leaves rt [(Some "test_sizes", body)] "test_sizes" body cs cs [] []) as (leaves & H1 & H2 & _);
    [reflexivity|repeat constructor; set_solver|by left| |reflexivity|repeat constructor; set_solver|repeat constructor; discriminate|vm_compute; reflexivity|].
  - constructor; [by eexists|constructor; [by eexists|constructor]].
  - exists leaves. split; [exact H1|]. rewrite H2. vm_compute. reflexivity.
Defined.
End FanOut.

(** ** Coverage of the dependency edges *)
Module Coverage.
Import Analyzer Enumerate.

Record PlanEdge := mkPlanEdge { e_from : string; e_to : string; e_protocol : string; e_via : string; FaultTests : list string }.
Record PlanCoverage := mkCoverage {
  cov_edges : list PlanEdge; UncoveredEdges : Z; CoveredProtocols : list string; UncoveredProtocols : list string }.

Definition appendUnique (s : list string) (v : string) : list string := if bool_decide (v ∈ s) then s else s ++ [v].

(** The entry of the plan that a fault scenario belongs to. *)
Definition plan_name (fs : FaultScenarioDef) : string :=
  match fs_matrix fs with Some mi => "test_matrix_" +:+ ScenarioName mi | None => "test_" +:+ fs_name fs end.

(** The services that an assumption mentions, its rules first. *)
Definition mentioned (fa : FaultAssumptionDef) : list string :=
  ((fun r => sv_name (ar_target r)) <$> fa_rules fa) ++ ((fun r => sv_name (ir_service (ap_target r))) <$> fa_proxy_rules fa).

(** One rule: the names seen in this assumption and the table. *)
Definition join_target (testName : string) (st : gset string * gmap string (list string)) (name : string)
    : gset string * gmap string (list string) :=
  let '(seen, out) := st in
  if bool_decide (name ∈ seen) then (seen, out)
  else ({[name]} ∪ seen, <[name := appendUnique (default [] (out !! name)) testName]> out).

Definition join_assumption (testName : string) (out : gmap string (list string)) (fa : FaultAssumptionDef) : gmap string (list string) :=
  (foldl (join_target testName) (∅, out) (mentioned fa)).2.

(** Over the fault scenarios in the order visited. *)
Definition joinTestsToTarget (visited : list FaultScenarioDef) : gmap string (list string) :=
  foldl (fun out fs => foldl (join_assumption (plan_name fs)) out (fs_faults fs)) ∅ visited.

Definition plan_edge (tests : gmap string (list string)) (e : DependencyEdge) : PlanEdge :=
  mkPlanEdge (From e) (To e) (Protocol e) (Via e) (sort_strings (default [] (tests !! To e))).

Definition uncovered (e : PlanEdge) : bool := (length (FaultTests e) =? 0)%nat.

Definition protocols (edges : list PlanEdge) : gset string :=
  foldl (fun s e => if String.eqb (e_protocol e) "" then s else {[e_protocol e]} ∪ s) ∅ edges.

Definition WithCoverage (iter : gmap string InterfaceDef -> list (string * InterfaceDef)) (visited : list FaultScenarioDef) (rt : Runtime)
    : PlanCoverage :=
  let edges := plan_edge (joinTestsToTarget visited) <$> Edges (Analyze iter rt) in
  let all := protocols edges in
  let covered := protocols (List.filter (fun e => negb (uncovered e)) edges) in
  mkCoverage edges (foldl (fun n e => if uncovered e then i64 (n + 1) else n) 0 edges)
    (sort_strings (List.filter (fun p => bool_decide (p ∈ covered)) (elements all)))
    (sort_strings (List.filter (fun p => negb (bool_decide (p ∈ covered))) (elements all))).

(** *** Suggestions *)
Import Codegen.

Definition pickSyscallForProtocol (protocol : string) : string :=
  let p := to_lower protocol in
  if bool_decide (p ∈ ["tcp"; "http"; "http2"; "grpc"; "redis"; "postgres"; "mysql"; "kafka"; "nats"; "mongodb"; "cassandra"; "clickhouse"])
  then "connect" else if String.eqb p "udp" then "sendto" else "connect".

Definition writeEdgeSuggestion (e : PlanEdge) : string :=
  let faultName := e_to e +:+ "_unavailable" in
  let scenarioName := "scenario_" +:+ e_from e +:+ "_calls_" +:+ e_to e in
  let testName := e_from e +:+ "_when_" +:+ e_to e +:+ "_down" in
  "# Uncovered edge: " +:+ e_from e +:+ " → " +:+ e_to e +:+
  (if String.eqb (e_protocol e) "" then "" else " (" +:+ e_protocol e +:+ ")") +:+ nl +:+
  faultName +:+ " = fault_assumption(" +:+ quoted faultName +:+ "," +:+ nl +:+
  "    target = " +:+ e_to e +:+ ",  # TODO: replace with the variable that holds service(" +:+ quoted (e_to e) +:+ ", ...)" +:+ nl +:+
  "    " +:+ pickSyscallForProtocol (e_protocol e) +:+ " = deny(" +:+ quoted "ECONNREFUSED" +:+ ")," +:+ nl +:+ ")" +:+ nl +:+
  "def " +:+ scenarioName +:+ "():" +:+ nl +:+ "    # TODO: call " +:+ e_from e +:+ " functionality that exercises " +:+ e_to e +:+ "." +:+ nl +:+
  "    pass" +:+ nl +:+
  "fault_scenario(" +:+ quoted testName +:+ "," +:+ nl +:+ "    scenario = " +:+ scenarioName +:+ "," +:+ nl +:+
  "    faults   = " +:+ faultName +:+ "," +:+ nl +:+ ")" +:+ nl +:+ nl.

Definition edge_le (a b : PlanEdge) : Prop :=
  if String.eqb (e_from a) (e_from b) then string_le (e_to a) (e_to b) else string_le (e_from a) (e_from b).
#[export] Instance edge_le_dec a b : Decision (edge_le a b).
Proof. unfold edge_le. destruct (String.eqb _ _); apply _. Defined.

(** The text and the number of stubs. *)
Definition WriteSuggestions (cov : option PlanCoverage) : string * Z :=
  match cov with
  | None => ("# No coverage data — run with --coverage to enable suggestions." +:+ nl, 0)
  | Some cov =>
      match List.filter uncovered (cov_edges cov) with
      | [] => ("# All dependency edges have at least one fault test. Nothing to suggest." +:+ nl, 0)
      | es =>
          ("# Rule-based suggestions for uncovered dependency edges." +:+ nl +:+
           "# Paste the snippets you want into your .star file and adjust to taste." +:+ nl +:+
           "# LLM-driven suggestions ship in v0.14.0 (RFC-043, --strategy=llm)." +:+ nl +:+ nl +:+
           foldr (fun e r => writeEdgeSuggestion e +:+ r) "" (merge_sort edge_le es), Z.of_nat (length es))
      end
  end.

Definition planPluralS (n : Z) : string := if n =? 1 then "" else "s".

Definition coverage_line (e : PlanEdge) : string :=
  let '(mark, desc) := if uncovered e then ("⚠", "no fault test") else ("✓", "faulted in: " +:+ comma (FaultTests e)) in
  "  " +:+ mark +:+ " " +:+ e_from e +:+ " → " +:+ e_to e +:+ "  (" +:+ desc +:+ ")" +:+ nl.

(** The text and the number of uncovered edges. *)
Definition WriteCoverageText (topology : list PlanService) (cov : option PlanCoverage) : string * Z :=
  match cov with
  | None => ("Coverage: no topology data available" +:+ nl, 0)
  | Some cov =>
      let count (n : Z) (what : string) := "- " +:+ show_Z n +:+ what +:+ planPluralS n in
      (nl +:+ "Coverage:" +:+ nl +:+
       count (Z.of_nat (length topology)) " service" +:+ " declared" +:+ nl +:+
       count (Z.of_nat (length (cov_edges cov))) " dependency edge" +:+ nl +:+
       foldr (fun e r => coverage_line e +:+ r) "" (cov_edges cov) +:+
       (if 0 <? UncoveredEdges cov
        then nl +:+ show_Z (UncoveredEdges cov) +:+ " edge" +:+ planPluralS (UncoveredEdges cov) +:+
             " without fault coverage — see `faultbox plan --suggest` for proposed tests." +:+ nl
        else ""), UncoveredEdges cov)
  end.

End Coverage.

Module CoverageCorrect.
Import Analyzer Enumerate Coverage PlanCorrect Registered.

Local Abbreviation row m n := (default [] (m !! n)).

Lemma appendUnique_in l v x : x ∈ appendUnique l v <-> x ∈ l \/ x = v.
Proof. unfold appendUnique. case_bool_decide; [split; [auto|]; by intros [?| ->]|]. rewrite elem_of_app, list_elem_of_singleton. done. Qed.

Lemma appendUnique_nodup l v : NoDup l -> NoDup (appendUnique l v).
Proof.
  unfold appendUnique. case_bool_decide; [done|]. intros. apply NoDup_app. split_and!; [done| |apply NoDup_singleton].
  by intros x Hx ->%list_elem_of_singleton.
Qed.

(** A table lists a test under a service when [P] says so, each once. *)
Definition lists (out : gmap string (list string)) (P : string -> string -> Prop) : Prop :=
  forall n, NoDup (row out n) /\ forall x, x ∈ row out n <-> P n x.

Lemma lists_iff out P Q : (forall n x, P n x <-> Q n x) -> lists out P -> lists out Q.
Proof. intros H L n. destruct (L n) as [? L']. split; [done|]. intros x. by rewrite L', H. Qed.

Lemma join_targets t names : forall seen out P, (forall n, n ∈ seen -> P n t) -> lists out P ->
  lists (foldl (join_target t) (seen, out) names).2 (fun n x => P n x \/ (x = t /\ n ∈ names)).
Proof.
  induction names as [|m names IH]; intros seen out P Hs L; cbn [foldl].
  { eapply lists_iff; [|exact L]. intros n x. split; [auto|]. by intros [?|[_ ?%elem_of_nil]]. }
  unfold join_target at 2. case_bool_decide as Hm.
  - eapply lists_iff; [|by apply IH]. intros n x. cbn. rewrite elem_of_cons. split; [tauto|]. intros [?|[-> [->|?]]]; auto.
  - eapply lists_iff; [|apply (IH _ _ (fun n x => P n x \/ (x = t /\ n = m)))].
    + intros n x. cbn. rewrite elem_of_cons. tauto.
    + intros n [->%elem_of_singleton|?]%elem_of_union; [by right|left; by apply Hs].
    + intros n. destruct (L n) as [Hd Hx]. destruct (decide (m = n)) as [->|Hne].
      * rewrite lookup_insert_eq. cbn. split; [by apply appendUnique_nodup|]. intros x. rewrite appendUnique_in, Hx. tauto.
      * rewrite lookup_insert_ne by done. split; [done|]. intros x. rewrite Hx. split; [auto|]. by intros [?|[_ ->]].
Qed.

Definition faulted (fs : FaultScenarioDef) (n : string) : Prop := exists fa, fa ∈ fs_faults fs /\ n ∈ mentioned fa.

Lemma join_assumptions t fas : forall out P, lists out P ->
  lists (foldl (join_assumption t) out fas) (fun n x => P n x \/ (x = t /\ exists fa, fa ∈ fas /\ n ∈ mentioned fa)).
Proof.
  induction fas as [|fa fas IH]; intros out P L; cbn [foldl].
  { eapply lists_iff; [|exact L]. intros n x. split; [auto|]. by intros [?|(_ & fa & ?%elem_of_nil & _)]. }
  eapply lists_iff; [|apply IH, (join_targets t (mentioned fa) ∅ out P); [by intros n ?%elem_of_empty|exact L]].
  intros n x. cbn. setoid_rewrite elem_of_cons. naive_solver.
Qed.

Lemma joined visited : lists (joinTestsToTarget visited) (fun n x => exists fs, fs ∈ visited /\ x = plan_name fs /\ faulted fs n).
Proof.
  unfold joinTestsToTarget. set (f := fun out fs => _).
  enough (H : forall out P, lists out P -> lists (foldl f out visited) (fun n x => P n x \/ exists fs, fs ∈ visited /\ x = plan_name fs /\ faulted fs n)).
  { eapply lists_iff; [|apply (H ∅ (fun _ _ => False))].
    - intros n x. cbn. tauto.
    - intros n. rewrite lookup_empty. split; [constructor|]. intros x. split; [by intros ?%elem_of_nil|done]. }
  induction visited as [|fs l IH]; intros out P L; cbn [foldl].
  { eapply lists_iff; [|exact L]. intros n x. split; [auto|]. by intros [?|(fs & ?%elem_of_nil & _)]. }
  eapply lists_iff; [|apply IH, join_assumptions, L]. intros n x. cbn. unfold faulted. setoid_rewrite elem_of_cons. naive_solver.
Qed.

(** The table names entries of the plan. *)
Lemma plan_name_planned rt fs : registry_ok rt -> faultScenarios rt !! fs_name fs = Some fs -> plan_name fs ∈ Name <$> Tests (Enumerate rt).
Proof.
  intros Hok Hf. cbn. unfold buildTests. rewrite merge_sort_Permutation. apply planned_names. unfold plan_name.
  destruct (fs_matrix fs) as [mi|] eqn:Em.
  - right. exists (ScenarioName mi). split; [|done]. apply group_exists; [done|]. exists fs. split; [done|]. unfold in_group. rewrite Em. apply String.eqb_refl.
  - left. eapply plainly_fault. by apply free_spec.
Qed.

Lemma protocols_in edges p : p ∈ protocols edges <-> p <> "" /\ exists e, e ∈ edges /\ e_protocol e = p.
Proof.
  unfold protocols. set (f := fun s e => _). enough (H : forall s, p ∈ foldl f s edges <-> p ∈ s \/ (p <> "" /\ exists e, e ∈ edges /\ e_protocol e = p)).
  { rewrite H, elem_of_empty. tauto. }
  induction edges as [|e edges IH]; intros s; cbn [foldl].
  { split; [auto|]. by intros [?|(_ & e & ?%elem_of_nil & _)]. }
  rewrite IH. unfold f. setoid_rewrite elem_of_cons. destruct (String.eqb_spec (e_protocol e) "") as [E|E]; [|rewrite elem_of_union, elem_of_singleton];
    naive_solver.
Qed.

Lemma uncovered_count edges : Z.of_nat (length edges) < 2 ^ 63 ->
  foldl (fun n e => if uncovered e then i64 (n + 1) else n) 0 edges = Z.of_nat (length (List.filter uncovered edges)).
Proof.
  enough (H : forall n, 0 <= n -> n + Z.of_nat (length edges) < 2 ^ 63 ->
    foldl (fun n e => if uncovered e then i64 (n + 1) else n) n edges = n + Z.of_nat (length (List.filter uncovered edges))).
  { intros. rewrite H; lia. }
  induction edges as [|e edges IH]; intros n Hn Hb; cbn [foldl List.filter length] in *; [lia|]. destruct (uncovered e).
  - rewrite wrap_s_small by lia. rewrite IH by lia. cbn [length]. lia.
  - apply IH; lia.
Qed.

Lemma suggestions_count cov : (WriteSuggestions (Some cov)).2 = Z.of_nat (length (List.filter uncovered (cov_edges cov))).
Proof. unfold WriteSuggestions. by destruct (List.filter uncovered (cov_edges cov)). Qed.

Lemma uncovered_spec e : uncovered e = true <-> FaultTests e = [].
Proof. unfold uncovered. rewrite Nat.eqb_eq, length_zero_iff_nil. done. Qed.

(** What the report says of one edge. *)
Definition edge_exact (rt : Runtime) (e : PlanEdge) : Prop :=
  NoDup (FaultTests e) /\
  forall t, t ∈ FaultTests e <-> exists fs, faultScenarios rt !! fs_name fs = Some fs /\ t = plan_name fs /\ faulted fs (e_to e).

(** The coverage report is exact.  Whatever the order in which the fault scenarios are visited, an
    edge lists, each once, the tests of those that fault its target, and every one of them is an entry of
    the plan; the number of uncovered edges is the number of edges that no registered fault scenario
    faults, and as many suggestions are written; a protocol is reported uncovered when it is on some edge
    and every edge with it is uncovered. *)
Theorem coverage_exact iter visited rt :
  let cov := WithCoverage iter visited rt in
  registry_ok rt -> visited ≡ₚ (map_to_list (faultScenarios rt)).*2 -> Z.of_nat (length (Edges (Analyze iter rt))) < 2 ^ 63 ->
  (forall e, e ∈ cov_edges cov -> edge_exact rt e /\ FaultTests e ⊆ Name <$> Tests (Enumerate rt)) /\
  UncoveredEdges cov = Z.of_nat (length (List.filter uncovered (cov_edges cov))) /\
  (WriteSuggestions (Some cov)).2 = UncoveredEdges cov /\
  (forall p, p ∈ UncoveredProtocols cov <->
     p <> "" /\ (exists e, e ∈ cov_edges cov /\ e_protocol e = p) /\ forall e, e ∈ cov_edges cov -> e_protocol e = p -> FaultTests e = []).
Proof.
  cbv zeta. intros Hok Hv Hb. split_and!.
  - intros e (d & -> & _)%list_elem_of_fmap. assert (HX : edge_exact rt (plan_edge (joinTestsToTarget visited) d)).
    { destruct (joined visited (To d)) as [Hd Hx]. unfold edge_exact, plan_edge, sort_strings. cbn [FaultTests e_to].
      split; [by rewrite merge_sort_Permutation|]. intros t. rewrite merge_sort_Permutation, Hx.
      split; intros (fs & H1 & H2); exists fs; split; try done; [rewrite Hv in H1|rewrite Hv]; by apply values_in. }
    split; [done|]. intros t (fs & Hf & -> & _)%HX. by apply plan_name_planned.
  - apply uncovered_count. cbn. by rewrite length_fmap.
  - rewrite suggestions_count. symmetry. apply uncovered_count. cbn. by rewrite length_fmap.
  - intros p. unfold WithCoverage. cbn [UncoveredProtocols cov_edges]. set (edges := plan_edge _ <$> _). unfold sort_strings.
    rewrite merge_sort_Permutation, list_elem_of_In, filter_In, <- list_elem_of_In, elem_of_elements, negb_true_iff, bool_decide_eq_false, !protocols_in.
    split.
    + intros [[Hp He] Hn]. split_and!; [done..|]. intros e Hin Ee. apply uncovered_spec. destruct (uncovered e) eqn:Eu; [done|]. destruct Hn. split; [done|].
      exists e. split; [|done]. apply list_elem_of_In, filter_In. rewrite Eu. by rewrite <- list_elem_of_In.
    + intros (Hp & He & Ha). split; [done|]. intros (_ & e & Hin & Ee). apply list_elem_of_In, filter_In in Hin as [Hin Hu].
      apply list_elem_of_In in Hin. rewrite (proj2 (uncovered_spec e) (Ha e Hin Ee)) in Hu. done.
Qed.

(** An api that depends on a database, which a fault scenario denies, and on a cache. *)
Definition covered_db : ServiceDef := mkService "db" {["main" := mkInterface "main" "postgres" 5432 0 false]} [] ∅ ∅ "" ∅ "" "" false false None None ∅.
Definition covered_cache : ServiceDef := mkService "cache" {["main" := mkInterface "main" "redis" 6379 0 false]} [] ∅ ∅ "" ∅ "" "" false false None None ∅.
Definition covered_api : ServiceDef := mkService "api" ∅ ["db"; "cache"] ∅ ∅ "" ∅ "" "" false false None None ∅.
Definition db_refuses : FaultAssumptionDef :=
  mkAssumption "db_refuses" "" [mkAssumed covered_db "connect" (mkFault "deny" 0 "ECONNREFUSED" f64_1 "" "" "" 0 "")] [] [].
Definition api_without_db : FaultScenarioDef := mkFaultScenario "api_without_db" order_flow [db_refuses] None [] 0 None false.
Definition covered_runtime : Runtime :=
  mkRuntime ∅ [] ∅ {["api_without_db" := api_without_db]} ∅ [] [covered_db; covered_cache; covered_api] ∅.

Lemma coverage_exact_witness :
  let cov := WithCoverage map_to_list [api_without_db] covered_runtime in
  cov_edges cov = [mkPlanEdge "api" "db" "postgres" "depends_on" ["test_api_without_db"]; mkPlanEdge "api" "cache" "redis" "depends_on" []] /\
  (WriteSuggestions (Some cov)).2 = UncoveredEdges cov /\ UncoveredEdges cov = 1.
Proof.
  split; [vm_compute; reflexivity|]. split; [|vm_compute; reflexivity]. refine (proj1 (proj2 (proj2 (coverage_exact map_to_list _ covered_runtime _ _ _)))).
  - split; cbn; intros k x; [|by rewrite lookup_empty..]. intros [<- <-]%lookup_singleton_Some. by split.
  - vm_compute. reflexivity.
  - vm_compute. reflexivity.
Defined.

End CoverageCorrect.
