(* ===== verification/ProxyManager.v ===== *)
(** * The proxy manager ([internal/proxy/proxy.go])

    The table of running proxies, keyed by service and interface.  A method holds the
    manager's mutex for its whole body and is one transition; stopping runs after the
    entries are taken out.  Proxy objects are shared by pointer and live in a store.
    Binding a listener belongs to the operating system: its outcome is an argument. *)

From Stdlib Require Import ZArith Lia Ascii.
From S2P Require Import Prelude GoStd GoText ProxyCore.
From stdpp Require Import base gmap sets strings numbers list.
Local Open Scope Z_scope.
Import GoStd GoText.

Module Manager.
Import Rules.

Definition protocols : list string :=
  ["tcp"; "http"; "http2"; "redis"; "postgres"; "mysql"; "grpc"; "kafka"; "mongodb"; "amqp"; "nats"; "memcached";
   "udp"; "cassandra"; "clickhouse"].

Definition SupportsProxy (protocol : string) : bool := existsb (String.eqb protocol) protocols.

(** The errors the manager builds; the payload of a failed start is the listener's. *)
Inductive error :=
  | Unsupported (protocol : string)
  | CreateFailed (protocol key : string) (e : error)
  | StartFailed (protocol key : string) (e : string)
  | NotRunning (key : string).

(** A proxy object: what it speaks, whom it reports for, its rules, whether TLS was set, whether it
    attributes connections to processes, and whether it was stopped. *)
Record ProxyObj := mkProxy {
  p_protocol : string; p_svc : string; p_iface : string; p_emits : bool;
  p_rules : list Rule; p_tls : bool; p_connections : bool; p_stopped : bool }.

Definition newProxy (protocol : string) (emits : bool) (iface svcName : string) : result error ProxyObj :=
  let made := Ok (mkProxy protocol svcName iface emits [] false false false) in
  if String.eqb protocol "tcp" then made
  else if String.eqb protocol "http" then made
  else if String.eqb protocol "http2" then made
  else if String.eqb protocol "redis" then made
  else if String.eqb protocol "postgres" then made
  else if String.eqb protocol "mysql" then made
  else if String.eqb protocol "grpc" then made
  else if String.eqb protocol "kafka" then made
  else if String.eqb protocol "mongodb" then made
  else if String.eqb protocol "amqp" then made
  else if String.eqb protocol "nats" then made
  else if String.eqb protocol "memcached" then made
  else if String.eqb protocol "udp" then made
  else if String.eqb protocol "cassandra" then made
  else if String.eqb protocol "clickhouse" then made
  else Err (Unsupported protocol).

(** The proxies that implement [TLSAware]. *)
Definition TLSAware (protocol : string) : bool :=
  existsb (String.eqb protocol) ["grpc"; "http"; "http2"; "kafka"; "redis"; "tcp"].

(** [proxy] is an address of the store; a test helper registers an entry without one. *)
Record runningProxy := mkRunning { proxy : option nat; listenAddr : string; target : string }.

(** [connections] and [onEvent]: whether the manager was given a tracker and an observer. *)
Record Manager := mkManager {
  store : list ProxyObj; proxies : gmap string runningProxy; connections : bool; onEvent : bool }.

Definition NewManagerWithConnections (onEvent connections : bool) : Manager := mkManager [] ∅ connections onEvent.
Definition NewManager (onEvent : bool) : Manager := NewManagerWithConnections onEvent false.

Definition key (svcName ifaceName : string) : string := svcName +:+ ":" +:+ ifaceName.

Definition with_connections (c : bool) (p : ProxyObj) : ProxyObj :=
  if String.eqb (p_protocol p) "kafka"
  then mkProxy (p_protocol p) (p_svc p) (p_iface p) (p_emits p) (p_rules p) (p_tls p) c (p_stopped p)
  else p.

(** [start] is what [Start] returns. *)
Definition launch (p : ProxyObj) (key protocol targetAddr : string) (start : result string string) (m : Manager)
    : result error string * Manager :=
  match start with
  | Err e => (Err (StartFailed protocol key e), m)
  | Ok addr =>
      (Ok addr,
       mkManager (store m ++ [with_connections (connections m) p])
         (<[key := mkRunning (Some (length (store m))) addr targetAddr]> (proxies m)) (connections m) (onEvent m))
  end.

Definition EnsureProxy (svcName ifaceName protocol targetAddr : string) (start : result string string) (m : Manager)
    : result error string * Manager :=
  let key := key svcName ifaceName in
  match proxies m !! key with
  | Some rp => (Ok (listenAddr rp), m)
  | None =>
      match newProxy protocol (onEvent m) ifaceName svcName with
      | Err e => (Err (CreateFailed protocol key e), m)
      | Ok p => launch p key protocol targetAddr start m
      end
  end.

Definition SetTLS (p : ProxyObj) : ProxyObj :=
  mkProxy (p_protocol p) (p_svc p) (p_iface p) (p_emits p) (p_rules p) true (p_connections p) (p_stopped p).

Definition EnsureProxyTLS (svcName ifaceName protocol targetAddr : string) (start : result string string) (m : Manager)
    : result error (string * bool) * Manager :=
  let key := key svcName ifaceName in
  match proxies m !! key with
  | Some rp => (Ok (listenAddr rp, false), m)
  | None =>
      match newProxy protocol (onEvent m) ifaceName svcName with
      | Err e => (Err (CreateFailed protocol key e), m)
      | Ok p =>
          let tlsApplied := TLSAware protocol in
          let '(r, m) := launch (if tlsApplied then SetTLS p else p) key protocol targetAddr start m in
          (let? addr := r in Ok (addr, tlsApplied), m)
      end
  end.

Definition set_rules (rs : list Rule -> list Rule) (p : ProxyObj) : ProxyObj :=
  mkProxy (p_protocol p) (p_svc p) (p_iface p) (p_emits p) (rs (p_rules p)) (p_tls p) (p_connections p) (p_stopped p).

Definition on_proxy (f : ProxyObj -> ProxyObj) (a : nat) (m : Manager) : Manager :=
  mkManager (alter f a (store m)) (proxies m) (connections m) (onEvent m).

(** [None] is the nil dereference on an entry without a proxy. *)
Definition AddRule (svcName ifaceName : string) (rule : Rule) (m : Manager) : option (result error unit * Manager) :=
  match proxies m !! key svcName ifaceName with
  | None => Some (Err (NotRunning (key svcName ifaceName)), m)
  | Some rp =>
      match proxy rp with
      | None => None
      | Some a => Some (Ok tt, on_proxy (set_rules (fun rs => rs ++ [rule])) a m)
      end
  end.

Definition ClearRules (svcName ifaceName : string) (m : Manager) : option Manager :=
  match proxies m !! key svcName ifaceName with
  | None => Some m
  | Some rp =>
      match proxy rp with
      | None => None
      | Some a => Some (on_proxy (set_rules (fun _ => [])) a m)
      end
  end.

Definition RegisterListenAddr (svcName ifaceName addr : string) (m : Manager) : Manager :=
  mkManager (store m) (<[key svcName ifaceName := mkRunning None addr ""]> (proxies m)) (connections m) (onEvent m).

Definition GetProxyAddr (svcName ifaceName : string) (m : Manager) : string :=
  match proxies m !! key svcName ifaceName with Some rp => listenAddr rp | None => "" end.

(** *** Ports *)

(** [net.SplitHostPort]; [None] is its error. *)
Definition SplitHostPort (hostport : string) : option (string * string) :=
  match scut_last ":" hostport with
  | None => None
  | Some (host, port) =>
      match hostport with
      | String "[" r =>
          match scut "]" r with
          | None => None
          | Some (inner, rest) =>
              match rest with
              | String ":" port' =>
                  if has_char ":" port' || has_char "[" r || has_char "]" rest then None else Some (inner, port')
              | _ => None
              end
          end
      | _ =>
          if has_char ":" host || has_char "[" hostport || has_char "]" hostport then None else Some (host, port)
      end
  end.

Definition extractPort (addr : string) : Z :=
  if String.eqb addr "" then 0
  else
    match SplitHostPort addr with
    | None => 0
    | Some (_, portStr) => default 0 (atoi portStr)
    end.

Definition IsListenPort (port : Z) (m : Manager) : bool :=
  if port <=? 0 then false
  else existsb (fun p => extractPort (listenAddr p.2) =? port) (map_to_list (proxies m)).

(** *** Stopping *)

Definition stop (p : ProxyObj) : ProxyObj :=
  mkProxy (p_protocol p) (p_svc p) (p_iface p) (p_emits p) (p_rules p) (p_tls p) (p_connections p) true.

Definition stop_at (st : list ProxyObj) (rp : runningProxy) : list ProxyObj :=
  match proxy rp with Some a => alter stop a st | None => st end.

(** The entries taken out, in some order, are stopped one after the other. *)
Definition stopMatching (prefix : string) (m : Manager) : Manager :=
  let pending := filter (fun p => has_prefix prefix p.1 = true) (proxies m) in
  mkManager (foldl stop_at (store m) (map_to_list pending).*2)
    (filter (fun p => has_prefix prefix p.1 = false) (proxies m)) (connections m) (onEvent m).

Definition StopAll (m : Manager) : Manager := stopMatching "" m.
Definition StopService (svcName : string) (m : Manager) : Manager := stopMatching (svcName +:+ ":") m.

(** The emitter handed to a proxy stamps its interface on every event. *)
Definition interfaceEmitter (iface : string) (ev : ProxyEvent) : ProxyEvent :=
  mkEvent (EvType ev) (Protocol ev) (EvAction ev) (To ev) (<["interface" := iface]> (EvFields ev)).

(** ** Keys

    A key joins the two names with a colon; it says which service it belongs to when service names have
    no colon of their own. *)

Definition no_colon (s : string) : bool := sall (is_not ":") s.

Lemma prefix_cons c d p s : has_prefix (String c p) (String d s) = true <-> c = d /\ has_prefix p s = true.
Proof. unfold has_prefix. cbn [String.prefix]. destruct (Ascii.ascii_dec c d); naive_solver. Qed.

Lemma not_colon d s : no_colon (String d s) = true -> d <> ":"%char /\ no_colon s = true.
Proof. unfold no_colon. cbn. intros [H ?]%andb_prop. split; [|done]. by intros ->. Qed.

Lemma prefix_of_key s s' i :
  no_colon s = true -> no_colon s' = true -> has_prefix (s +:+ ":") (key s' i) = true <-> s = s'.
Proof.
  unfold key. revert s'.
  induction s as [|c s IH]; intros [|d s'] Hs Hs'; rewrite ?string_app_cons;
    repeat change ("" +:+ ?x) with x.
  - split; [done|]. intros _. destruct i; reflexivity.
  - apply not_colon in Hs' as [Hd _]. rewrite prefix_cons. naive_solver.
  - apply not_colon in Hs as [Hc _]. rewrite prefix_cons. naive_solver.
  - apply not_colon in Hs as [_ Hs], Hs' as [_ Hs']. rewrite prefix_cons, (IH s' Hs Hs'). naive_solver.
Qed.

Lemma key_inj s i s' i' : no_colon s = true -> no_colon s' = true -> key s i = key s' i' -> s = s' /\ i = i'.
Proof.
  intros Hs Hs' E. assert (s = s') as <-.
  { apply (prefix_of_key s s' i' Hs Hs'). rewrite <- E. by apply prefix_of_key. }
  split; [done|]. unfold key in E. rewrite !string_app_assoc in E || rewrite <- !string_app_assoc in E.
  by simplify_eq.
Qed.

(** ** What the manager promises

    A table from service and interface to a live proxy: its address, its target, its protocol, its rules in
    the order they were added, and whether it terminates TLS. *)

Record entry := mkEntry {
  e_addr : string; e_target : string; e_protocol : string; e_rules : list Rule; e_tls : bool }.

(** The production operations; the boolean of [OEnsure] says whether the TLS variant is called. *)
Inductive op :=
  | OEnsure (tls : bool) (svc iface protocol target : string) (start : result string string)
  | OAddRule (svc iface : string) (r : Rule)
  | OClearRules (svc iface : string)
  | OGetAddr (svc iface : string)
  | OIsListenPort (port : Z)
  | OStopService (svc : string)
  | OStopAll.

Inductive reply :=
  | RAddr (r : result error (string * bool))
  | RDone (r : result error unit)
  | RStr (s : string)
  | RBool (b : bool).

Definition op_service (o : op) : option string :=
  match o with
  | OEnsure _ svc _ _ _ _ | OAddRule svc _ _ | OClearRules svc _ | OGetAddr svc _ | OStopService svc => Some svc
  | OIsListenPort _ | OStopAll => None
  end.

Definition names_ok (o : op) : bool := match op_service o with Some s => no_colon s | None => true end.

(** [None] when the call panics. *)
Definition do_op (o : op) (m : Manager) : option (reply * Manager) :=
  match o with
  | OEnsure false svc iface protocol target start =>
      let '(r, m) := EnsureProxy svc iface protocol target start m in
      Some (RAddr (let? a := r in Ok (a, false)), m)
  | OEnsure true svc iface protocol target start =>
      let '(r, m) := EnsureProxyTLS svc iface protocol target start m in Some (RAddr r, m)
  | OAddRule svc iface r => '(x, m) ← AddRule svc iface r m; Some (RDone x, m)
  | OClearRules svc iface => m ← ClearRules svc iface m; Some (RDone (Ok tt), m)
  | OGetAddr svc iface => Some (RStr (GetProxyAddr svc iface m), m)
  | OIsListenPort port => Some (RBool (IsListenPort port m), m)
  | OStopService svc => Some (RDone (Ok tt), StopService svc m)
  | OStopAll => Some (RDone (Ok tt), StopAll m)
  end.

Definition spec_ensure (tls : bool) (svc iface protocol target : string) (start : result string string) (t : gmap (string * string) entry)
    : result error (string * bool) * gmap (string * string) entry :=
  match t !! (svc, iface) with
  | Some e => (Ok (e_addr e, false), t)
  | None =>
      if SupportsProxy protocol then
        match start with
        | Ok addr =>
            let tls := tls && TLSAware protocol in
            (Ok (addr, tls), <[(svc, iface) := mkEntry addr target protocol [] tls]> t)
        | Err e => (Err (StartFailed protocol (key svc iface) e), t)
        end
      else (Err (CreateFailed protocol (key svc iface) (Unsupported protocol)), t)
  end.

Definition entry_rules (f : list Rule -> list Rule) (e : entry) : entry :=
  mkEntry (e_addr e) (e_target e) (e_protocol e) (f (e_rules e)) (e_tls e).

Definition spec_op (o : op) (t : gmap (string * string) entry) : reply * gmap (string * string) entry :=
  match o with
  | OEnsure tls svc iface protocol target start =>
      let '(r, t) := spec_ensure tls svc iface protocol target start t in (RAddr r, t)
  | OAddRule svc iface r =>
      match t !! (svc, iface) with
      | Some e => (RDone (Ok tt), <[(svc, iface) := entry_rules (fun rs => rs ++ [r]) e]> t)
      | None => (RDone (Err (NotRunning (key svc iface))), t)
      end
  | OClearRules svc iface => (RDone (Ok tt), match t !! (svc, iface) with
                      | Some e => <[(svc, iface) := entry_rules (fun _ => []) e]> t
                      | None => t
                      end)
  | OGetAddr svc iface => (RStr (match t !! (svc, iface) with Some e => e_addr e | None => "" end), t)
  | OIsListenPort port =>
      (RBool ((0 <? port) && bool_decide (map_Exists (fun _ e => extractPort (e_addr e) = port) t)), t)
  | OStopService svc => (RDone (Ok tt), filter (fun p => p.1.1 <> svc) t)
  | OStopAll => (RDone (Ok tt), ∅)
  end.
(** ** The invariant

    Every entry points to an object of its own that runs, under the key made of the object's names; and
    every object that runs is in the table, so none is ever lost while its listener is open. *)

Definition entry_ok (m : Manager) (k : string) (rp : runningProxy) : Prop :=
  exists a p, proxy rp = Some a /\ store m !! a = Some p /\ k = key (p_svc p) (p_iface p) /\ p_stopped p = false.

Definition object_ok (m : Manager) (a : nat) (p : ProxyObj) : Prop :=
  no_colon (p_svc p) = true /\ SupportsProxy (p_protocol p) = true /\
  (p_stopped p = false -> exists rp, proxies m !! key (p_svc p) (p_iface p) = Some rp /\ proxy rp = Some a).

Definition wf (m : Manager) : Prop :=
  map_Forall (entry_ok m) (proxies m) /\ forall a p, store m !! a = Some p -> object_ok m a p.

(** What the table promised under a key. *)
Definition live (m : Manager) (k : string) : option entry :=
  rp ← proxies m !! k; a ← proxy rp; p ← store m !! a;
  Some (mkEntry (listenAddr rp) (target rp) (p_protocol p) (p_rules p) (p_tls p)).

Definition rep (m : Manager) (t : gmap (string * string) entry) : Prop :=
  forall svc iface, t !! (svc, iface) = if no_colon svc then live m (key svc iface) else None.

Lemma live_running m k rp : wf m -> proxies m !! k = Some rp ->
  exists a p, proxy rp = Some a /\ store m !! a = Some p /\ k = key (p_svc p) (p_iface p) /\ p_stopped p = false /\
    no_colon (p_svc p) = true /\
    live m k = Some (mkEntry (listenAddr rp) (target rp) (p_protocol p) (p_rules p) (p_tls p)).
Proof.
  intros [He Ho] Hk. destruct (He k rp Hk) as (a & p & Ha & Hp & Hkey & Hs).
  exists a, p. destruct (Ho a p Hp) as [Hn _]. repeat split; [done..|].
  unfold live. rewrite Hk. cbn. rewrite Ha. cbn. by rewrite Hp.
Qed.

Lemma live_none m k : wf m -> live m k = None <-> proxies m !! k = None.
Proof.
  intros Hwf. split.
  - intros Hl. destruct (proxies m !! k) eqn:Hk; [|done].
    destruct (live_running m k _ Hwf Hk) as (? & ? & _ & _ & _ & _ & _ & ?). congruence.
  - unfold live. by intros ->.
Qed.

(** Two entries never share an object. *)
Lemma entries_distinct m k rp k' rp' a : wf m ->
  proxies m !! k = Some rp -> proxies m !! k' = Some rp' -> proxy rp = Some a -> proxy rp' = Some a -> k = k'.
Proof.
  intros [He _] Hk Hk' Ha Ha'. destruct (He _ _ Hk) as (? & ? & ? & ? & -> & _).
  destruct (He _ _ Hk') as (? & ? & ? & ? & -> & _). by simplify_eq.
Qed.

Lemma wf_new c o : wf (NewManagerWithConnections o c) /\ rep (NewManagerWithConnections o c) ∅.
Proof.
  split; [split; [apply map_Forall_empty|done]|].
  intros svc iface. rewrite lookup_empty. by destruct (no_colon svc).
Qed.

(** *** Starting *)

(** The list of [SupportsProxy] and the cases of [newProxy] agree. *)
Lemma new_proxy protocol emits iface svc :
  newProxy protocol emits iface svc =
  if SupportsProxy protocol then Ok (mkProxy protocol svc iface emits [] false false false) else Err (Unsupported protocol).
Proof.
  unfold SupportsProxy, newProxy, protocols. cbn [existsb].
  repeat (destruct (String.eqb protocol _); [done|]). done.
Qed.

Lemma live_insert m k rp p : proxy rp = Some (length (store m)) -> wf m ->
  forall k', live (mkManager (store m ++ [p]) (<[k := rp]> (proxies m)) (connections m) (onEvent m)) k' =
    if decide (k = k') then Some (mkEntry (listenAddr rp) (target rp) (p_protocol p) (p_rules p) (p_tls p)) else live m k'.
Proof.
  intros Hp Hwf k'. unfold live at 1. cbn. rewrite lookup_insert. destruct (decide (k = k')) as [->|Hne]; cbn.
  { rewrite Hp. cbn. rewrite lookup_app_r, Nat.sub_diag by lia. done. }
  unfold live. destruct (proxies m !! k') as [rp'|] eqn:Hk'; [|done]. cbn.
  destruct (live_running m k' rp' Hwf Hk') as (a & q & -> & Hq & _). cbn. by rewrite (lookup_app_l_Some _ _ _ _ Hq), Hq.
Qed.

Lemma wf_insert m k rp p : wf m -> proxies m !! k = None ->
  proxy rp = Some (length (store m)) -> k = key (p_svc p) (p_iface p) -> p_stopped p = false ->
  no_colon (p_svc p) = true -> SupportsProxy (p_protocol p) = true ->
  wf (mkManager (store m ++ [p]) (<[k := rp]> (proxies m)) (connections m) (onEvent m)).
Proof.
  intros Hwf Hnone Hrp Hk Hs Hn Hsup. pose proof Hwf as [He Ho]. split; cbn.
  - apply map_Forall_insert_2.
    + exists (length (store m)), p. cbn. rewrite lookup_app_r, Nat.sub_diag by lia. done.
    + intros k' rp' Hk'. destruct (He k' rp' Hk') as (a & q & Ha & Hq & ?).
      exists a, q. cbn. by rewrite (lookup_app_l_Some _ _ _ _ Hq).
  - intros a q [Hq|[Hle Hq]]%lookup_app_Some.
    + destruct (Ho a q Hq) as (? & ? & Hrun). repeat split; [done..|]. intros Hrunning.
      destruct (Hrun Hrunning) as (rp' & Hk' & Ha). exists rp'. cbn. split; [|done].
      rewrite lookup_insert_ne; [done|congruence].
    + apply list_lookup_singleton_Some in Hq as [Hz <-]. assert (a = length (store m)) as -> by lia.
      repeat split; [done..|]. intros _. exists rp. cbn. rewrite <- Hk. by rewrite lookup_insert_eq.
Qed.

Lemma rep_update m m' t svc iface e : rep m t -> no_colon svc = true ->
  (forall k, live m' k = if decide (key svc iface = k) then Some e else live m k) -> rep m' (<[(svc, iface) := e]> t).
Proof.
  intros Hrep Hn Hl s i. rewrite lookup_insert. case_decide as E.
  - simplify_eq. rewrite Hn, Hl. by rewrite decide_True.
  - rewrite Hrep. destruct (no_colon s) eqn:Hs; [|done]. rewrite Hl, decide_False; [done|].
    intros [-> ->]%key_inj; done.
Qed.

Lemma rep_lookup m t svc iface : rep m t -> no_colon svc = true -> t !! (svc, iface) = live m (key svc iface).
Proof. intros Hrep Hn. by rewrite Hrep, Hn. Qed.

(** *** Rules *)

Definition unchanged (f : ProxyObj -> ProxyObj) : Prop :=
  forall p, p_svc (f p) = p_svc p /\ p_iface (f p) = p_iface p /\ p_protocol (f p) = p_protocol p /\
    p_tls (f p) = p_tls p /\ p_stopped (f p) = p_stopped p.

Lemma wf_on_proxy f a m : unchanged f -> wf m -> wf (on_proxy f a m).
Proof.
  intros Hf [He Ho]. split; cbn.
  - intros k rp Hk. destruct (He k rp Hk) as (b & p & Hb & Hp & -> & Hs).
    destruct (decide (a = b)) as [->|Hne]; [|exists b, p; cbn; by rewrite list_lookup_alter_ne].
    destruct (Hf p) as (E1 & E2 & _ & _ & E3). exists b, (f p). cbn. rewrite list_lookup_alter_eq, Hp, E1, E2, E3. done.
  - intros b q. rewrite list_lookup_alter. case_decide as E; [subst b|by apply Ho].
    intros (p & Hp & ->)%fmap_Some. destruct (Hf p) as (E1 & E2 & E3 & _ & E4).
    unfold object_ok. rewrite E1, E2, E3, E4. exact (Ho a p Hp).
Qed.

Lemma live_set_rules f m k rp a p : wf m -> proxies m !! k = Some rp -> proxy rp = Some a -> store m !! a = Some p ->
  forall k', live (on_proxy (set_rules f) a m) k' =
    if decide (k = k')
    then Some (entry_rules f (mkEntry (listenAddr rp) (target rp) (p_protocol p) (p_rules p) (p_tls p)))
    else live m k'.
Proof.
  intros Hwf Hk Ha Hp k'. unfold live. cbn. case_decide as E; subst.
  { rewrite Hk. cbn. rewrite Ha. cbn. by rewrite list_lookup_alter_eq, Hp. }
  destruct (proxies m !! k') as [rp'|] eqn:Hk'; [|done]. cbn. destruct (proxy rp') as [b|] eqn:Hb; [|done]. cbn.
  rewrite list_lookup_alter_ne; [done|]. intros <-. by eapply E, entries_distinct.
Qed.

(** *** Stopping *)

Lemma stop_at_lookup rps st a :
  foldl stop_at st rps !! a = (if decide (Some a ∈ proxy <$> rps) then stop else id) <$> st !! a.
Proof.
  revert st. induction rps as [|rp rps IH]; intros st; cbn [foldl fmap list_fmap].
  { rewrite decide_False by (by intros ?%elem_of_nil). by destruct (st !! a). }
  rewrite IH. unfold stop_at. destruct (st !! a) as [p|] eqn:Hp.
  - destruct (proxy rp) as [b|] eqn:Hb; [rewrite list_lookup_alter; destruct (decide (b = a)) as [->|]|];
      rewrite Hp; repeat case_decide; cbn; first [done|exfalso; set_solver].
  - destruct (proxy rp) as [b|]; rewrite ?list_lookup_alter; repeat case_decide; by rewrite ?Hp; subst; rewrite ?Hp.
Qed.

Lemma pending_objects prefix (m : gmap string runningProxy) a :
  Some a ∈ proxy <$> (map_to_list (filter (fun p => has_prefix prefix p.1 = true) m)).*2 <->
  exists k rp, m !! k = Some rp /\ has_prefix prefix k = true /\ proxy rp = Some a.
Proof.
  rewrite list_elem_of_fmap. setoid_rewrite list_elem_of_fmap. split.
  - intros (rp & Ha & [k rp'] & -> & Hk%elem_of_map_to_list). apply map_lookup_filter_Some in Hk as [Hk Hp].
    by exists k, rp'.
  - intros (k & rp & Hk & Hp & Ha). exists rp. split; [done|]. exists (k, rp). split; [done|].
    apply elem_of_map_to_list, map_lookup_filter_Some. done.
Qed.

(** An entry that stays keeps its object as it was. *)
Lemma survivor_store prefix m k rp a : wf m -> proxies m !! k = Some rp -> proxy rp = Some a ->
  has_prefix prefix k = false -> store (stopMatching prefix m) !! a = store m !! a.
Proof.
  intros Hwf Hk Ha Hp. cbn. rewrite stop_at_lookup, decide_False; [by destruct (store m !! a)|].
  intros (k' & rp' & Hk' & Hp' & Ha')%pending_objects.
  pose proof (entries_distinct m k rp k' rp' a Hwf Hk Hk' Ha Ha'). congruence.
Qed.

Lemma live_stop prefix m : wf m ->
  forall k, live (stopMatching prefix m) k = if has_prefix prefix k then None else live m k.
Proof.
  intros Hwf k. unfold live at 1. cbn [proxies stopMatching].
  destruct (has_prefix prefix k) eqn:Hp.
  { rewrite map_lookup_filter_None_2; [done|]. right. intros x _ E. unfold has_prefix in *. cbn in E. congruence. }
  unfold live. destruct (proxies m !! k) as [rp|] eqn:Hk.
  - rewrite (map_lookup_filter_Some_2 _ _ _ rp) by done. cbn -[stopMatching]. destruct (proxy rp) as [a|] eqn:Ha; [|done].
    cbn -[stopMatching]. by rewrite (survivor_store prefix m k rp a).
  - rewrite map_lookup_filter_None_2; [done|by left].
Qed.

Lemma wf_stop prefix m : wf m -> wf (stopMatching prefix m).
Proof.
  intros Hwf. pose proof Hwf as [He Ho]. split.
  - intros k rp [Hk Hp]%map_lookup_filter_Some. destruct (He k rp Hk) as (a & p & Ha & Hst & Hrest).
    exists a, p. by rewrite (survivor_store prefix m k rp a).
  - intros a q. cbn. rewrite stop_at_lookup. intros (p & Hp & ->)%fmap_Some. destruct (Ho a p Hp) as (Hn & Hsup & Hrun).
    case_decide as Hd; [done|]. repeat split; [done..|]. intros Hs. destruct (Hrun Hs) as (rp & Hk & Ha).
    exists rp. split; [|done]. apply map_lookup_filter_Some_2; [done|]. change (has_prefix prefix (key (p_svc p) (p_iface p)) = false).
    destruct (has_prefix prefix (key (p_svc p) (p_iface p))) eqn:Hpre; [|done]. exfalso. apply Hd, pending_objects. eauto.
Qed.

(** ** Refinement *)

Lemma ensure_refines tls svc iface protocol target start m t : wf m -> rep m t -> no_colon svc = true ->
  exists m', do_op (OEnsure tls svc iface protocol target start) m =
      Some (RAddr (spec_ensure tls svc iface protocol target start t).1, m') /\
    wf m' /\ rep m' (spec_ensure tls svc iface protocol target start t).2.
Proof.
  intros Hwf Hrep Hn. unfold do_op, spec_ensure, EnsureProxy, EnsureProxyTLS.
  rewrite (rep_lookup m t svc iface Hrep Hn), new_proxy.
  destruct (proxies m !! key svc iface) as [rp|] eqn:Hk.
  { destruct (live_running m _ rp Hwf Hk) as (a & p & _ & _ & _ & _ & _ & ->). destruct tls; by exists m. }
  rewrite (proj2 (live_none m _ Hwf) Hk).
  destruct (SupportsProxy protocol) eqn:Hsup; [|destruct tls; by exists m].
  destruct start as [addr|e]; [|destruct tls; by exists m].
  set (p := with_connections (connections m)
    (mkProxy protocol svc iface (onEvent m) [] (tls && TLSAware protocol) false false)).
  assert (p_svc p = svc /\ p_iface p = iface /\ p_protocol p = protocol /\ p_rules p = [] /\
    p_tls p = tls && TLSAware protocol /\ p_stopped p = false) as (E1 & E2 & E3 & E4 & E5 & E6).
  { unfold p, with_connections. cbn. by destruct (String.eqb _ _). }
  exists (mkManager (store m ++ [p]) (<[key svc iface := mkRunning (Some (length (store m))) addr target]> (proxies m))
    (connections m) (onEvent m)).
  split; [|split].
  - unfold launch, p. destruct tls; cbn -[TLSAware]; [by destruct (TLSAware protocol)|done].
  - apply wf_insert; rewrite ?E1, ?E2, ?E3; done.
  - eapply rep_update; [done..|]. intros k. rewrite live_insert by done. cbn. by rewrite E3, E4, E5.
Qed.

Lemma listen_port_refines port m t : wf m -> rep m t ->
  IsListenPort port m = (0 <? port) && bool_decide (map_Exists (fun _ e => extractPort (e_addr e) = port) t).
Proof.
  intros Hwf Hrep. unfold IsListenPort. destruct (Z.leb_spec port 0); [by rewrite (proj2 (Z.ltb_ge 0 port))|].
  rewrite (proj2 (Z.ltb_lt 0 port)) by done. cbn [andb]. apply eq_true_iff_eq. rewrite bool_decide_eq_true, existsb_exists.
  split.
  - intros ([k rp] & Hk%list_elem_of_In%elem_of_map_to_list & Hport%Z.eqb_eq).
    destruct (live_running m k rp Hwf Hk) as (a & p & _ & _ & -> & _ & Hn & Hl).
    eexists (p_svc p, p_iface p), _. by rewrite (rep_lookup m t _ _ Hrep Hn).
  - intros ([svc iface] & e & He & Hport). rewrite Hrep in He. destruct (no_colon svc) eqn:Hn; [|done].
    destruct (proxies m !! key svc iface) as [rp|] eqn:Hk; [|by rewrite (proj2 (live_none m _ Hwf) Hk) in He].
    destruct (live_running m _ rp Hwf Hk) as (a & p & _ & _ & _ & _ & _ & Hl).
    exists (key svc iface, rp). split; [by apply list_elem_of_In, elem_of_map_to_list|].
    apply Z.eqb_eq. rewrite Hl in He. by simplify_eq.
Qed.

Lemma rule_refines f svc iface m t rp : wf m -> rep m t -> no_colon svc = true ->
  proxies m !! key svc iface = Some rp ->
  exists a e, proxy rp = Some a /\ t !! (svc, iface) = Some e /\
    wf (on_proxy (set_rules f) a m) /\ rep (on_proxy (set_rules f) a m) (<[(svc, iface) := entry_rules f e]> t).
Proof.
  intros Hwf Hrep Hn Hk. destruct (live_running m _ rp Hwf Hk) as (a & p & Ha & Hp & _ & _ & _ & Hl).
  eexists a, _. split; [done|]. split; [by rewrite (rep_lookup m t _ _ Hrep Hn), Hl|].
  split; [by apply wf_on_proxy|]. eapply rep_update; [done..|]. by apply live_set_rules.
Qed.

Lemma op_refines o m t : wf m -> rep m t -> names_ok o = true ->
  exists m', do_op o m = Some ((spec_op o t).1, m') /\ wf m' /\ rep m' (spec_op o t).2.
Proof.
  intros Hwf Hrep Hn. destruct o as [tls svc iface protocol target start|svc iface r|svc iface|svc iface|port|svc|];
    cbn in Hn.
  - destruct (ensure_refines tls svc iface protocol target start m t Hwf Hrep Hn) as (m' & E & Hw & Hr).
    exists m'. rewrite E. unfold spec_op. by destruct (spec_ensure _ _ _ _ _ _ _).
  - cbn [do_op spec_op]. unfold AddRule. destruct (proxies m !! key svc iface) as [rp|] eqn:Hk.
    + destruct (rule_refines (fun rs => rs ++ [r]) svc iface m t rp Hwf Hrep Hn Hk) as (a & e & -> & -> & ?). cbn. eauto.
    + rewrite (rep_lookup m t _ _ Hrep Hn), (proj2 (live_none m _ Hwf) Hk). cbn. eauto.
  - cbn [do_op spec_op]. unfold ClearRules. destruct (proxies m !! key svc iface) as [rp|] eqn:Hk.
    + destruct (rule_refines (fun _ => []) svc iface m t rp Hwf Hrep Hn Hk) as (a & e & -> & -> & ?). cbn. eauto.
    + rewrite (rep_lookup m t _ _ Hrep Hn), (proj2 (live_none m _ Hwf) Hk). cbn. eauto.
  - exists m. split; [|done]. cbn. unfold GetProxyAddr. rewrite (rep_lookup m t _ _ Hrep Hn).
    destruct (proxies m !! key svc iface) as [rp|] eqn:Hk; [|by rewrite (proj2 (live_none m _ Hwf) Hk)].
    by destruct (live_running m _ rp Hwf Hk) as (a & p & _ & _ & _ & _ & _ & ->).
  - exists m. split; [|done]. cbn -[IsListenPort]. by rewrite (listen_port_refines port m t).
  - eexists. split; [done|]. split; [by apply wf_stop|]. intros s i. cbn [spec_op snd].
    rewrite map_lookup_filter, Hrep. destruct (no_colon s) eqn:Hs; [|done]. unfold StopService. rewrite live_stop by done.
    pose proof (prefix_of_key svc s i Hn Hs) as Hiff.
    destruct (live m (key s i)); cbn; [case_guard|]; destruct (has_prefix _ _); naive_solver.
  - eexists. split; [done|]. split; [by apply wf_stop|]. intros s i. cbn [spec_op snd]. rewrite lookup_empty.
    destruct (no_colon s); [|done]. unfold StopAll. rewrite live_stop by done. by destruct (key s i).
Qed.

(** *** Sequences of calls *)

Fixpoint run_ops (os : list op) (m : Manager) : option (list reply * Manager) :=
  match os with
  | [] => Some ([], m)
  | o :: os => '(r, m) ← do_op o m; '(rs, m) ← run_ops os m; Some (r :: rs, m)
  end.

Fixpoint spec_ops (os : list op) (t : gmap (string * string) entry) : list reply * gmap (string * string) entry :=
  match os with
  | [] => ([], t)
  | o :: os => let '(r, t) := spec_op o t in let '(rs, t) := spec_ops os t in (r :: rs, t)
  end.

Lemma ops_refine os m t : wf m -> rep m t -> Forall (fun o => names_ok o = true) os ->
  exists m', run_ops os m = Some ((spec_ops os t).1, m') /\ wf m' /\ rep m' (spec_ops os t).2.
Proof.
  intros Hwf Hrep Hos. revert m t Hwf Hrep. induction Hos as [|o os Ho _ IH]; intros m t Hwf Hrep; [by exists m|].
  destruct (op_refines o m t Hwf Hrep Ho) as (m1 & E1 & Hw1 & Hr1). cbn [run_ops spec_ops]. rewrite E1. cbn.
  destruct (spec_op o t) as [r t1]. destruct (IH m1 t1 Hw1 Hr1) as (m2 & -> & ?). cbn.
  destruct (spec_ops os t1). eauto.
Qed.

(** C19: a manager answers every sequence of calls as a table from service and interface to a live proxy
    does, provided that service names have no colon: a second [EnsureProxy] returns the running proxy and
    changes nothing, rules pile up in order on the one proxy they are for, [StopService] stops the proxies of
    that service and of no other, [IsListenPort] recognises the ports of live proxies only; no call panics,
    and at the end every object in use is in the table under its own names. *)
Theorem manager_refines_table onEvent connections os :
  Forall (fun o => names_ok o = true) os ->
  exists m, run_ops os (NewManagerWithConnections onEvent connections) = Some ((spec_ops os ∅).1, m) /\
    rep m (spec_ops os ∅).2 /\ wf m.
Proof.
  intros Hos. destruct (wf_new connections onEvent) as [Hw Hr].
  destruct (ops_refine os _ _ Hw Hr Hos) as (m & ? & ? & ?). by exists m.
Qed.

Definition some_ops : list op :=
  [OEnsure false "db" "main" "postgres" "127.0.0.1:5432" (Ok "127.0.0.1:40001");
   OEnsure true "db2" "main" "redis" "127.0.0.1:6379" (Ok "127.0.0.1:40002");
   OEnsure false "db" "main" "postgres" "127.0.0.1:5432" (Err "in use");
   OStopService "db"; OIsListenPort 40001; OIsListenPort 40002; OGetAddr "db2" "main"].

Lemma manager_refines_table_witness :
  (exists m, run_ops some_ops (NewManagerWithConnections true false) = Some ((spec_ops some_ops ∅).1, m) /\
    rep m (spec_ops some_ops ∅).2 /\ wf m) /\
  (spec_ops some_ops ∅).1 =
    [RAddr (Ok ("127.0.0.1:40001", false)); RAddr (Ok ("127.0.0.1:40002", true)); RAddr (Ok ("127.0.0.1:40001", false));
     RDone (Ok tt); RBool false; RBool true; RStr "127.0.0.1:40002"].
Proof. split; [apply (manager_refines_table true false some_ops); by repeat constructor|vm_compute; done]. Defined.

(** Without that proviso keys collide, and stopping a service stops the proxies of another. *)
Lemma colon_names_collide :
  key "a" "b:c" = key "a:b" "c" /\
  (exists m, run_ops [OEnsure false "a:b" "c" "tcp" "t" (Ok "l:1"); OStopService "a"] (NewManager true) =
      Some ([RAddr (Ok ("l:1", false)); RDone (Ok tt)], m) /\ GetProxyAddr "a:b" "c" m = "").
Proof. split; [done|]. eexists. split; [vm_compute; reflexivity|done]. Qed.

(** A running proxy is kept whatever the new call asks for: other protocol, other target, or TLS. *)
Lemma ensure_keeps_running svc iface protocol target start rp m :
  proxies m !! key svc iface = Some rp ->
  EnsureProxy svc iface protocol target start m = (Ok (listenAddr rp), m) /\
  EnsureProxyTLS svc iface protocol target start m = (Ok (listenAddr rp, false), m).
Proof. intros Hk. unfold EnsureProxy, EnsureProxyTLS. by rewrite Hk. Qed.

(** ** Listen addresses *)

(** No colon and no bracket. *)
Definition host_char (c : ascii) : bool := is_not ":" c && is_not "[" c && is_not "]" c.

Lemma host_chars s : sall host_char s = true -> has_char ":" s = false /\ has_char "[" s = false /\ has_char "]" s = false.
Proof.
  intros H. unfold has_char. rewrite !negb_false_iff.
  repeat split; (eapply sall_impl; [|exact H]); unfold host_char; intros c; by destruct (is_not _ c), (is_not _ c), (is_not _ c).
Qed.

Lemma has_char_app c a b : has_char c (a +:+ b) = has_char c a || has_char c b.
Proof. unfold has_char. by rewrite sall_app, negb_andb. Qed.

Lemma port_chars port : 0 <= port -> sall host_char (show_Z port) = true.
Proof. intros H. eapply sall_impl; [|by apply show_Z_digits]. by intros [[] [] [] [] [] [] [] []]. Qed.

Lemma no_colon_char s : has_char ":" s = false -> no_colon s = true.
Proof. unfold has_char, no_colon. by rewrite negb_false_iff. Qed.

Lemma split_plain host port : sall host_char host = true -> sall host_char port = true ->
  SplitHostPort (host +:+ String ":" port) = Some (host, port).
Proof.
  intros Hh Hp. destruct (host_chars host Hh) as (H1 & H2 & H3), (host_chars port Hp) as (P1 & P2 & P3).
  unfold SplitHostPort. rewrite scut_last_app by by apply no_colon_char.
  rewrite H1, !has_char_app, H2, H3. cbn [orb].
  change (has_char "[" (String ":" port)) with (has_char "[" port).
  change (has_char "]" (String ":" port)) with (has_char "]" port). rewrite P2, P3. cbn [orb].
  destruct host as [|[[] [] [] [] [] [] [] []] host]; try reflexivity. done.
Qed.

Lemma split_bracketed host port :
  has_char "[" host = false -> has_char "]" host = false -> sall host_char port = true ->
  SplitHostPort (String "[" (host +:+ String "]" (String ":" port))) = Some (host, port).
Proof.
  intros H1 H2 Hp. destruct (host_chars port Hp) as (P1 & P2 & P3). unfold SplitHostPort.
  replace (String "[" (host +:+ String "]" (String ":" port)))
    with ((String "[" (host +:+ "]")) +:+ String ":" port) at 1 by by rewrite string_app_cons, string_app_assoc.
  rewrite scut_last_app by by apply no_colon_char.
  rewrite scut_app by (unfold has_char in H2; by apply negb_false_iff in H2).
  rewrite P1, has_char_app, H1. cbn [orb].
  change (has_char "[" (String "]" (String ":" port))) with (has_char "[" port). rewrite P2.
  change (has_char "]" (String ":" port)) with (has_char "]" port). by rewrite P3.
Qed.

(** The port of an address that [net.JoinHostPort] makes is read back, for a host with or without brackets,
    so every port a proxy reports as its listener is recognised. *)
Lemma extractPort_of_address host port :
  0 <= port < 2 ^ 63 ->
  (sall host_char host = true -> extractPort (host +:+ ":" +:+ show_Z port) = port) /\
  (has_char "[" host = false -> has_char "]" host = false ->
   extractPort ("[" +:+ host +:+ "]:" +:+ show_Z port) = port).
Proof.
  intros Hp. unfold extractPort. pose proof (port_chars port ltac:(lia)) as Hc. split.
  - intros Hh. change (":" +:+ show_Z port) with (String ":" (show_Z port)).
    rewrite (split_plain host (show_Z port) Hh Hc), atoi_show by done.
    by destruct host.
  - intros H1 H2. change ("[" +:+ host +:+ "]:" +:+ show_Z port) with
      (String "[" (host +:+ String "]" (String ":" (show_Z port)))).
    by rewrite (split_bracketed host (show_Z port) H1 H2 Hc), atoi_show.
Qed.

End Manager.
