(* ===== verification/RawProxies.v ===== *)
(** * The TCP and UDP proxies ([internal/proxy/tcp.go], [internal/proxy/udp.go])

    The relays that parse nothing.  The TCP proxy decides on the first chunk of a connection and
    then splices; a watchdog reports directions that stand still.  The UDP proxy decides on
    every datagram and keeps one upstream socket for each client.  The theorems give the rule that
    decides, when the watchdog speaks, and to whom answers go. *)

From Stdlib Require Import ZArith Lia Ascii.
From S2P Require Import Prelude GoStd GoText ProxyCore.
From stdpp Require Import base gmap strings numbers list.
Local Open Scope Z_scope.
Import GoStd.

Module Raw.
Import Rules.

(** What the rules did: the events, the time slept, and how many random numbers were drawn. *)
Record Trace := mkTrace { t_events : list ProxyEvent; t_slept : Z; t_drawn : nat }.
Definition emits (ev : ProxyEvent) (t : Trace) : Trace := mkTrace (t_events t ++ [ev]) (t_slept t) (t_drawn t).
Definition sleeps (d : Z) (t : Trace) : Trace := if 0 <? d then mkTrace (t_events t) (t_slept t + d) (t_drawn t) else t.

Section Proxies.
(** The random numbers, the service, and whether someone listens to events. *)
Context (float : nat -> float64) (svcName : string) (onEvent : bool).

Definition say (ev : ProxyEvent) (t : Trace) : Trace := if onEvent then emits ev t else t.

(** [rule.Prob > 0 && rand.Float64() > rule.Prob]. *)
Definition passes_over (r : Rule) (t : Trace) : bool * Trace :=
  if f64_gt (Prob r) f64_0 then (f64_gt (float (t_drawn t)) (Prob r), mkTrace (t_events t) (t_slept t) (S (t_drawn t))) else (false, t).

(** ** TCP *)

Definition tcpPrefixMatches (first prefix : string) : bool := String.eqb prefix "" || has_prefix prefix first.

Definition tcp_event (action first : string) (extra : list (string * string)) : ProxyEvent :=
  mkEvent "" "tcp" action svcName (list_to_map (extra ++ [("first_bytes", String.substring 0 16 first)])).

(** What becomes of a connection: passed on, cut, or answered. *)
Inductive Verdict := Passed | Dropped | Answered (body : string).

Fixpoint tcp_rules (rules : list Rule) (first : string) (t : Trace) : Verdict * Trace :=
  match rules with
  | [] => (Passed, t)
  | r :: rules =>
      if negb (tcpPrefixMatches first (Method r)) then tcp_rules rules first t
      else let '(skip, t) := passes_over r t in
        if skip then tcp_rules rules first t
        else
          let t := sleeps (Delay r) t in
          match RuleAction r with
          | ActionDrop => (Dropped, say (tcp_event "drop" first [("size", show_Z (Z.of_nat (slen first)))]) t)
          | ActionRespond => (Answered (Body r), say (tcp_event "respond" first [("body_size", show_Z (Z.of_nat (slen (Body r))))]) t)
          | ActionDelay => tcp_rules rules first (say (tcp_event "delay" first [("delay_ms", Observe.ms (Delay r))]) t)
          | _ => tcp_rules rules first t
          end
  end.

(** The first read: its bytes, and its error; a deadline of two seconds is one. *)
Inductive ReadErr := ReadEOF | ReadTimeout | ReadOther.

(** [Spliced sent]: both directions are copied from here on, after [sent] went to the server. *)
Inductive Fate := NotDialed | Handled (v : Verdict) | WriteFailed | ClosedSilent | Spliced (sent : string).

Definition handle (dialed written : bool) (rules : list Rule) (first : string) (err : option ReadErr) (t : Trace) : Fate * Trace :=
  if negb dialed then (NotDialed, t)
  else
    let silent := match err with Some ReadEOF | None => false | Some _ => true end in
    if String.eqb first "" then (if silent then ClosedSilent else Spliced "", t)
    else match tcp_rules rules first t with
         | (Passed, t) => (if written then Spliced first else WriteFailed, t)
         | (v, t) => (Handled v, t)
         end.

(** What the client gets before both directions are copied. *)
Definition client_gets (f : Fate) : string := match f with Handled (Answered body) => body | _ => "" end.

(** *** The watchdog *)

Record Watch := mkWatch { w_last : Z; w_since : option Z; w_warned : bool; w_extended : bool }.
Definition watch0 : Watch := mkWatch 0 None false false.

(** One tick for one direction: at [now] the counter is [cur]; the durations reported. *)
Definition watch_tick (warn extend now cur : Z) (w : Watch) : list Z * Watch :=
  if negb (cur =? w_last w) then ([], mkWatch cur None false false)
  else if 0 <? cur then
    let since := default now (w_since w) in
    let stalled := now - since in
    let say_warn := negb (w_warned w) && (warn <=? stalled) in
    let say_ext := negb (w_extended w) && (extend <=? stalled) in
    ((if say_warn then [stalled] else []) ++ (if say_ext then [stalled] else []),
     mkWatch (w_last w) (Some since) (w_warned w || say_warn) (w_extended w || say_ext))
  else ([], w).

(** A watch that has seen each direction's counters at the given times. *)
Definition watchStalls (warn extend : Z) (ticks : list (Z * Z)) (w : Watch) : list (Z * Z) * Watch :=
  foldl (fun '(out, w) '(now, cur) => let '(l, w) := watch_tick warn extend now cur w in (out ++ ((fun d => (now, d)) <$> l), w)) ([], w) ticks.

(** ** UDP *)

Definition udp_event (action : string) (fs : list (string * string)) : ProxyEvent := mkEvent "" "udp" action svcName (list_to_map fs).

(** Whether the datagram was dropped. *)
Fixpoint udp_rules (rules : list Rule) (client datagram : string) (t : Trace) : bool * Trace :=
  match rules with
  | [] => (false, t)
  | r :: rules =>
      let '(skip, t) := passes_over r t in
      if skip then udp_rules rules client datagram t
      else
        let t := sleeps (Delay r) t in
        match RuleAction r with
        | ActionDrop => (true, say (udp_event "drop" [("size", show_Z (Z.of_nat (slen datagram))); ("from", client)]) t)
        | ActionDelay => (false, say (udp_event "delay" [("delay_ms", Observe.ms (Delay r))]) t)
        | _ => udp_rules rules client datagram t
        end
  end.

(** The sockets by number, with the client each was opened for; a socket whose reader ended is
    closed.  [to_server] and [to_client]: what was sent, through which socket and to whom. *)
Record Relay := mkRelay {
  upstreams : gmap string nat; sockets : list (string * bool); to_server : list (nat * string); to_client : list (string * string); trace : Trace }.

Definition relay0 : Relay := mkRelay ∅ [] [] [] (mkTrace [] 0 0).

(** A datagram of a client, an answer on a socket, and an error of its reader, such as a refused port. *)
Inductive UdpStep := Datagram (client data : string) (dials : bool) | Answer (socket : nat) (data : string) | ReadError (socket : nat).

(** Writing to a closed socket does nothing. *)
Definition send (socket : nat) (data : string) (r : Relay) : Relay :=
  match sockets r !! socket with
  | Some (_, true) => mkRelay (upstreams r) (sockets r) (to_server r ++ [(socket, data)]) (to_client r) (trace r)
  | _ => r
  end.

Definition udp_step (rules : list Rule) (r : Relay) (s : UdpStep) : Relay :=
  match s with
  | Datagram client data dials =>
      let '(handled, t) := udp_rules rules client data (trace r) in
      let r := mkRelay (upstreams r) (sockets r) (to_server r) (to_client r) t in
      if handled then r
      else match upstreams r !! client with
           | Some socket => send socket data r
           | None =>
               if dials then
                 let socket := length (sockets r) in
                 send socket data (mkRelay (<[client := socket]> (upstreams r)) (sockets r ++ [(client, true)]) (to_server r) (to_client r) (trace r))
               else r
           end
  | Answer socket data =>
      match sockets r !! socket with
      | Some (client, true) => mkRelay (upstreams r) (sockets r) (to_server r) (to_client r ++ [(client, data)]) (trace r)
      | _ => r
      end
  | ReadError socket =>
      match sockets r !! socket with
      | Some (client, _) => mkRelay (upstreams r) (<[socket := (client, false)]> (sockets r)) (to_server r) (to_client r) (trace r)
      | None => r
      end
  end.

Definition udp_run (rules : list Rule) (steps : list UdpStep) : Relay := foldl (udp_step rules) relay0 steps.

(** *** Rules *)

Definition sure (r : Rule) : Prop := f64_gt (Prob r) f64_0 = false.
Definition terminal (first : string) (r : Rule) : bool :=
  tcpPrefixMatches first (Method r) && match RuleAction r with ActionDrop | ActionRespond => true | _ => false end.

Definition verdict_of (r : Rule) : Verdict := match RuleAction r with ActionDrop => Dropped | _ => Answered (Body r) end.
Definition wait_of (first : string) (r : Rule) : Z := if tcpPrefixMatches first (Method r) && (0 <? Delay r) then Delay r else 0.
Definition waits (first : string) (rs : list Rule) : Z := foldr (fun r n => wait_of first r + n) 0 rs.

Lemma say_slept ev t : t_slept (say ev t) = t_slept t.
Proof. unfold say. by destruct onEvent. Qed.

Lemma sleeps_slept d t : t_slept (sleeps d t) = t_slept t + (if 0 <? d then d else 0).
Proof. unfold sleeps. destruct (0 <? d); cbn; lia. Qed.

Lemma tcp_matching r rules first t : sure r -> tcpPrefixMatches first (Method r) = true ->
  tcp_rules (r :: rules) first t = (let t := sleeps (Delay r) t in match RuleAction r with
    | ActionDrop => (Dropped, say (tcp_event "drop" first [("size", show_Z (Z.of_nat (slen first)))]) t)
    | ActionRespond => (Answered (Body r), say (tcp_event "respond" first [("body_size", show_Z (Z.of_nat (slen (Body r))))]) t)
    | ActionDelay => tcp_rules rules first (say (tcp_event "delay" first [("delay_ms", Observe.ms (Delay r))]) t)
    | _ => tcp_rules rules first t
    end).
Proof. intros Hs Em. cbn [tcp_rules]. rewrite Em. unfold passes_over. by rewrite Hs. Qed.

(** Rules that are not terminal only wait. *)
Lemma tcp_skips pre rest first : Forall (fun r => sure r /\ terminal first r = false) pre -> forall t,
  exists t', tcp_rules (pre ++ rest) first t = tcp_rules rest first t' /\ t_slept t' = t_slept t + waits first pre.
Proof.
  induction 1 as [|r pre [Hs Ht] _ IH]; intros t; [exists t; split; [done|cbn; lia]|]. rewrite <- app_comm_cons. change (waits first (r :: pre)) with (wait_of first r + waits first pre).
  unfold terminal in Ht. unfold wait_of. destruct (tcpPrefixMatches first (Method r)) eqn:Em; cbn [andb] in *.
  - rewrite tcp_matching by done. cbv zeta. pose proof (sleeps_slept (Delay r) t) as Hw.
    destruct (RuleAction r); try done.
    + destruct (IH (sleeps (Delay r) t)) as (t' & E & H'). exists t'. split; [done|]. lia.
    + destruct (IH (say (tcp_event "delay" first [("delay_ms", Observe.ms (Delay r))]) (sleeps (Delay r) t))) as (t' & E & H').
      exists t'. split; [done|]. rewrite say_slept in H'. lia.
    + destruct (IH (sleeps (Delay r) t)) as (t' & E & H'). exists t'. split; [done|]. lia.
  - destruct (IH t) as (t' & E & H'). exists t'. split; [|lia]. cbn [tcp_rules]. by rewrite Em.
Qed.

(** With rules that always fire, the first drop or answer whose prefix matches decides, after the
    delays of the matching rules up to it; without one the connection is passed on. *)
Lemma tcp_first_decides pre r post first t : Forall (fun r => sure r /\ terminal first r = false) pre -> sure r -> terminal first r = true ->
  (tcp_rules (pre ++ r :: post) first t).1 = verdict_of r /\ t_slept (tcp_rules (pre ++ r :: post) first t).2 = t_slept t + waits first pre + wait_of first r.
Proof.
  intros Hp Hs Ht. destruct (tcp_skips pre (r :: post) first Hp t) as (t' & -> & Hw). unfold terminal in Ht. apply andb_prop in Ht as [Em Ha].
  rewrite tcp_matching by done. unfold verdict_of, wait_of. rewrite Em. cbv zeta. cbn [andb].
  destruct (RuleAction r); try done; cbn [fst snd]; (split; [done|]); rewrite say_slept, sleeps_slept; lia.
Qed.

Lemma tcp_passes rules first t : Forall (fun r => sure r /\ terminal first r = false) rules -> (tcp_rules rules first t).1 = Passed.
Proof. intros H. destruct (tcp_skips rules [] first H t) as (t' & E & _). rewrite app_nil_r in E. by rewrite E. Qed.

(** A server that speaks first is never heard: without a byte from the client in two seconds the
    connection is closed. *)
Lemma silent_client_closed written rules t : handle true written rules "" (Some ReadTimeout) t = (ClosedSilent, t).
Proof. done. Qed.

(** *** The watchdog *)

(** While the counter stands at [cur], what is reported is a time without movement, and each tier speaks once. *)
Lemma standing_still warn extend cur t0 ticks : 0 < cur -> warn <= extend -> forall w, w_last w = cur -> w_since w = Some t0 ->
  let '(out, w') := watchStalls warn extend ((fun now => (now, cur)) <$> ticks) w in
  w_last w' = cur /\ w_since w' = Some t0 /\ Forall (fun p => p.2 = p.1 - t0 /\ warn <= p.2) out /\
  (length out + (if w_warned w then 1 else 0) + (if w_extended w then 1 else 0) = (if w_warned w' then 1 else 0) + (if w_extended w' then 1 else 0))%nat /\
  (forall now, now ∈ ticks -> warn <= now - t0 -> w_warned w' = true) /\ (forall now, now ∈ ticks -> extend <= now - t0 -> w_extended w' = true).
Proof.
  intros Hc Hwe w Hl Hs. unfold watchStalls. induction ticks as [|now ticks IH] using rev_ind.
  { cbn. split_and!; [done|done|constructor|lia|by intros ? ?%elem_of_nil..]. }
  rewrite fmap_app, foldl_app. destruct (foldl _ ([], w) _) as [out w1]. destruct IH as (I1 & I2 & I3 & I4 & I5 & I6). cbn [foldl fmap list_fmap].
  unfold watch_tick. rewrite I1, Z.eqb_refl, I2. cbn [negb]. rewrite (proj2 (Z.ltb_lt 0 cur) Hc). change (default now (Some t0)) with t0.
  set (sw := negb (w_warned w1) && (warn <=? now - t0)). set (se := negb (w_extended w1) && (extend <=? now - t0)). cbn [w_last w_since w_warned w_extended].
  assert (Hsw : sw = true -> warn <= now - t0) by (unfold sw; rewrite andb_true_iff, Z.leb_le; tauto).
  assert (Hse : se = true -> extend <= now - t0) by (unfold se; rewrite andb_true_iff, Z.leb_le; tauto).
  split_and!; [done|done| | | |].
  - apply Forall_app. split; [done|]. rewrite fmap_app. apply Forall_app. split.
    + destruct sw; [|constructor]. apply Forall_singleton. split; [done|]. by apply Hsw.
    + destruct se; [|constructor]. apply Forall_singleton. split; [done|]. specialize (Hse eq_refl). cbn. lia.
  - rewrite length_app, fmap_app, length_app, !length_fmap. unfold sw, se in *. destruct (w_warned w1), (w_extended w1), (warn <=? _), (extend <=? _); cbn in *; lia.
  - intros n [Hn| ->%list_elem_of_singleton]%elem_of_app H1; [by rewrite (I5 n Hn H1)|]. unfold sw. apply Z.leb_le in H1. rewrite H1. by destruct (w_warned w1).
  - intros n [Hn| ->%list_elem_of_singleton]%elem_of_app H1; [by rewrite (I6 n Hn H1)|]. unfold se. apply Z.leb_le in H1. rewrite H1. by destruct (w_extended w1).
Qed.

(** *** Clients and sockets *)

(** Every socket belongs to the client it was opened for. *)
Definition relay_ok (r : Relay) : Prop := forall c s, upstreams r !! c = Some s -> exists open, sockets r !! s = Some (c, open).

Lemma relay0_ok : relay_ok relay0.
Proof. intros c s. cbn. by rewrite lookup_empty. Qed.

Lemma send_keeps s d r : upstreams (send s d r) = upstreams r /\ sockets (send s d r) = sockets r /\ to_client (send s d r) = to_client r.
Proof. unfold send. by destruct (sockets r !! s) as [[c []]|]. Qed.

Lemma udp_step_ok rules r st : relay_ok r -> relay_ok (udp_step rules r st).
Proof.
  intros Hok. destruct st as [c d dials|s d|s]; cbn [udp_step].
  - destruct (udp_rules rules c d (trace r)) as [handled t]. destruct handled; [done|]. cbn [upstreams sockets to_server to_client trace].
    destruct (upstreams r !! c) as [s|] eqn:Eu; [unfold relay_ok; destruct (send_keeps s d (mkRelay (upstreams r) (sockets r) (to_server r) (to_client r) t)) as (-> & -> & _); exact Hok|].
    destruct dials; [|done]. unfold relay_ok.
    match goal with |- context [send ?s ?d ?r] => destruct (send_keeps s d r) as (-> & -> & _) end. cbn [upstreams sockets].
    intros c' s'. rewrite lookup_insert_Some. intros [[<- <-]|[_ H]].
    + exists true. by rewrite lookup_app_r, Nat.sub_diag by lia.
    + destruct (Hok c' s' H) as [o Ho]. exists o. by apply lookup_app_l_Some.
  - destruct (sockets r !! s) as [[c []]|]; done.
  - destruct (sockets r !! s) as [[c o]|] eqn:Es; [|done]. intros c' s' H. cbn in *. destruct (Hok c' s' H) as [o' Ho].
    destruct (decide (s = s')) as [->|Hne]; [exists false; rewrite list_lookup_insert_eq; [congruence|by eapply lookup_lt_Some]|exists o'; by rewrite list_lookup_insert_ne].
Qed.

(** A socket keeps its client. *)
Lemma udp_step_sockets rules r st s c o : sockets r !! s = Some (c, o) -> exists o', sockets (udp_step rules r st) !! s = Some (c, o') /\ (o = false -> o' = false).
Proof.
  intros Hs. destruct st as [c' d dials|s' d|s']; cbn [udp_step].
  - destruct (udp_rules rules c' d (trace r)) as [handled t]. exists o. split; [|done]. destruct handled; [done|]. cbn [upstreams sockets to_server to_client trace].
    destruct (upstreams r !! c'); [by match goal with |- context [send ?s ?d ?r] => destruct (send_keeps s d r) as (_ & -> & _) end|]. destruct dials; [|done].
    match goal with |- context [send ?s ?d ?r] => destruct (send_keeps s d r) as (_ & -> & _) end. by apply lookup_app_l_Some.
  - exists o. split; [|done]. by destruct (sockets r !! s') as [[? []]|].
  - destruct (sockets r !! s') as [[c' o']|] eqn:Es; [|by exists o]. cbn. destruct (decide (s' = s)) as [->|Hne].
    + rewrite list_lookup_insert_eq by by eapply lookup_lt_Some. exists false. split; [congruence|done].
    + rewrite list_lookup_insert_ne by done. by exists o.
Qed.

(** What a step sends to the server: a datagram of its client, through a socket of that client that is open. *)
Lemma udp_step_sends rules r st : relay_ok r -> exists new, to_server (udp_step rules r st) = to_server r ++ new /\
  Forall (fun p => exists c dials, st = Datagram c p.2 dials /\ upstreams (udp_step rules r st) !! c = Some p.1 /\ sockets (udp_step rules r st) !! p.1 = Some (c, true)) new.
Proof.
  intros Hok. destruct st as [c d dials|s d|s]; cbn [udp_step].
  2,3: exists []; rewrite app_nil_r; split; [destruct (sockets r !! s) as [[? []]|]; done|constructor].
  destruct (udp_rules rules c d (trace r)) as [handled t]. destruct handled; [exists []; by rewrite app_nil_r|]. cbn [upstreams sockets to_server to_client trace].
  destruct (upstreams r !! c) as [s|] eqn:Eu.
  - destruct (Hok c s Eu) as [o Ho]. unfold send. cbn [sockets]. rewrite Ho. destruct o; [|exists []; by rewrite app_nil_r].
    exists [(s, d)]. split; [done|]. apply Forall_singleton. exists c, dials. cbn [fst snd upstreams sockets]. by rewrite Ho.
  - destruct dials; [|exists []; by rewrite app_nil_r]. unfold send. cbn [sockets]. rewrite lookup_app_r, Nat.sub_diag by lia. cbn [lookup list_lookup].
    exists [(length (sockets r), d)]. split; [done|]. apply Forall_singleton. exists c, true. cbn [fst snd upstreams sockets]. rewrite lookup_insert_eq, lookup_app_r, Nat.sub_diag by lia. done.
Qed.

(** What a step sends to clients: an answer, to the client of its socket. *)
Lemma udp_step_answers rules r st : exists new, to_client (udp_step rules r st) = to_client r ++ new /\
  Forall (fun p => exists s, st = Answer s p.2 /\ sockets r !! s = Some (p.1, true)) new.
Proof.
  destruct st as [c d dials|s d|s]; cbn [udp_step].
  - exists []. rewrite app_nil_r. split; [|constructor]. destruct (udp_rules rules c d (trace r)) as [handled t]. destruct handled; [done|]. cbn [upstreams sockets to_server to_client trace].
    destruct (upstreams r !! c); [by match goal with |- context [send ?s ?d ?r] => destruct (send_keeps s d r) as (_ & _ & ->) end|]. destruct dials; [|done].
    by match goal with |- context [send ?s ?d ?r] => destruct (send_keeps s d r) as (_ & _ & ->) end.
  - destruct (sockets r !! s) as [[c []]|] eqn:Es; [|exists []; by rewrite app_nil_r..]. exists [(c, d)]. split; [done|]. apply Forall_singleton. by exists s.
  - exists []. rewrite app_nil_r. split; [|constructor]. by destruct (sockets r !! s) as [[? ?]|].
Qed.

(** An answer reaches the client whose datagrams its socket carried.  Through any run of the UDP
    relay, what was sent to the server through a socket are datagrams of one client, the one it was opened
    for, and what was sent to a client are answers on such a socket. *)
Theorem udp_answers_reach_sender rules steps : let r := udp_run rules steps in
  Forall (fun p => exists c dials o, Datagram c p.2 dials ∈ steps /\ sockets r !! p.1 = Some (c, o)) (to_server r) /\
  Forall (fun p => exists s o, Answer s p.2 ∈ steps /\ sockets r !! s = Some (p.1, o)) (to_client r).
Proof.
  assert (H : relay_ok (udp_run rules steps) /\
    Forall (fun p => exists c dials o, Datagram c p.2 dials ∈ steps /\ sockets (udp_run rules steps) !! p.1 = Some (c, o)) (to_server (udp_run rules steps)) /\
    Forall (fun p => exists s o, Answer s p.2 ∈ steps /\ sockets (udp_run rules steps) !! s = Some (p.1, o)) (to_client (udp_run rules steps))); [|apply H].
  induction steps as [|st steps (Hok & HS & HC)] using rev_ind; [split_and!; [apply relay0_ok|constructor..]|].
  unfold udp_run in *. rewrite foldl_app. cbn [foldl]. set (r := foldl (udp_step rules) relay0 steps) in *. split; [by apply udp_step_ok|].
  destruct (udp_step_sends rules r st Hok) as (ns & -> & Fs), (udp_step_answers rules r st) as (nc & -> & Fc). split; apply Forall_app; split.
  - eapply Forall_impl; [exact HS|]. intros p (c & dials & o & Hin & Hs). destruct (udp_step_sockets rules r st _ _ _ Hs) as (o' & Ho & _).
    exists c, dials, o'. split; [apply elem_of_app; by left|done].
  - eapply Forall_impl; [exact Fs|]. intros p (c & dials & -> & _ & Hs). exists c, dials, true. split; [apply elem_of_app; right; by left|done].
  - eapply Forall_impl; [exact HC|]. intros p (s & o & Hin & Hs). destruct (udp_step_sockets rules r st _ _ _ Hs) as (o' & Ho & _).
    exists s, o'. split; [apply elem_of_app; by left|done].
  - eapply Forall_impl; [exact Fc|]. intros p (s & -> & Hs). destruct (udp_step_sockets rules r (Answer s p.2) _ _ _ Hs) as (o' & Ho & _).
    exists s, o'. split; [apply elem_of_app; right; by left|done].
Qed.

(** A client whose socket is closed. *)
Definition stranded (c : string) (s : nat) (r : Relay) : Prop := upstreams r !! c = Some s /\ sockets r !! s = Some (c, false).

Lemma stranded_step rules c s r st : stranded c s r -> stranded c s (udp_step rules r st).
Proof.
  intros [Hu Hs]. split; [|destruct (udp_step_sockets rules r st _ _ _ Hs) as (o & E & Ho); by rewrite E, (Ho eq_refl)].
  destruct st as [c' d dials|s' d|s']; cbn [udp_step]; [|by destruct (sockets r !! s') as [[? []]|]..].
  destruct (udp_rules rules c' d (trace r)) as [handled t]. destruct handled; [done|]. cbn [upstreams sockets to_server to_client trace].
  destruct (upstreams r !! c') eqn:Eu; [by match goal with |- context [send ?s ?d ?r] => destruct (send_keeps s d r) as (-> & _ & _) end|]. destruct dials; [|done].
  match goal with |- context [send ?s ?d ?r] => destruct (send_keeps s d r) as (-> & _ & _) end. cbn. rewrite lookup_insert_ne; [done|congruence].
Qed.

(** One error of an upstream socket cuts a client off for good.  When the reader of a client's socket ends
    with an error - the server's port refused a datagram before it listened, say - the socket is closed but
    stays in the table: whatever happens later, nothing that client sends reaches the server any more. *)
Theorem udp_read_error_strands_client rules steps later c s :
  upstreams (udp_run rules steps) !! c = Some s ->
  let r := udp_run rules (steps ++ [ReadError s]) in let r' := udp_run rules (steps ++ [ReadError s] ++ later) in
  exists new, to_server r' = to_server r ++ new /\ Forall (fun p => exists c' dials o, c' <> c /\ Datagram c' p.2 dials ∈ later /\ sockets r' !! p.1 = Some (c', o)) new.
Proof.
  intros Hu. cbv zeta. unfold udp_run in *. rewrite app_assoc, (foldl_app _ (steps ++ [ReadError s]) later). set (r := foldl (udp_step rules) relay0 (steps ++ [ReadError s])).
  assert (Hall : forall l, relay_ok (foldl (udp_step rules) relay0 l)).
  { induction l as [|st l IH] using rev_ind; [apply relay0_ok|]. rewrite foldl_app. by apply udp_step_ok. }
  assert (Hst : stranded c s r).
  { unfold r. rewrite foldl_app. cbn [foldl udp_step]. destruct (Hall steps c s Hu) as [o Ho]. rewrite Ho. split; [done|]. cbn. rewrite list_lookup_insert_eq; [done|by eapply lookup_lt_Some]. }
  pose proof (Hall (steps ++ [ReadError s])) as Hok. fold r in Hok. clearbody r. clear Hall Hu.
  enough (H : stranded c s (foldl (udp_step rules) r later) /\ relay_ok (foldl (udp_step rules) r later) /\ exists new, to_server (foldl (udp_step rules) r later) = to_server r ++ new /\
    Forall (fun p => exists c' dials o, c' <> c /\ Datagram c' p.2 dials ∈ later /\ sockets (foldl (udp_step rules) r later) !! p.1 = Some (c', o)) new) by apply H.
  induction later as [|st later (I1 & I2 & new & I3 & I4)] using rev_ind; [split_and!; [done|done|exists []; by rewrite app_nil_r]|].
  rewrite foldl_app. cbn [foldl]. set (r1 := foldl (udp_step rules) r later) in *. pose proof (stranded_step rules c s r1 st I1) as J1. split_and!; [done|by apply udp_step_ok|].
  destruct (udp_step_sends rules r1 st I2) as (ns & En & Fs). exists (new ++ ns). rewrite En, I3, app_assoc. split; [done|]. apply Forall_app. split.
  - eapply Forall_impl; [exact I4|]. intros p (c' & dials & o & Hne & Hin & Hs). destruct (udp_step_sockets rules r1 st _ _ _ Hs) as (o' & Ho & _).
    exists c', dials, o'. split_and!; [done|apply elem_of_app; by left|done].
  - eapply Forall_impl; [exact Fs|]. intros p (c' & dials & -> & Hup & Hs). exists c', dials, true. split_and!; [|apply elem_of_app; right; by left|done].
    intros ->. destruct J1 as [Ju Js]. rewrite Ju in Hup. injection Hup as E. rewrite E in Js. congruence.
Qed.

End Proxies.

(** The server was not up yet: the client's datagrams are lost also when it is. *)
Lemma udp_read_error_strands_client_witness :
  exists new, to_server (udp_run (fun _ => f64_0) "dns" false [] ([Datagram "10.0.0.1:9" "q" true] ++ [ReadError 0%nat] ++ [Datagram "10.0.0.1:9" "q2" true])) =
    to_server (udp_run (fun _ => f64_0) "dns" false [] ([Datagram "10.0.0.1:9" "q" true] ++ [ReadError 0%nat])) ++ new /\
    Forall (fun p => exists c' dials o, c' <> "10.0.0.1:9" /\ Datagram c' p.2 dials ∈ [Datagram "10.0.0.1:9" "q2" true] /\
      sockets (udp_run (fun _ => f64_0) "dns" false [] ([Datagram "10.0.0.1:9" "q" true] ++ [ReadError 0%nat] ++ [Datagram "10.0.0.1:9" "q2" true])) !! p.1 = Some (c', o)) new.
Proof.
  apply (udp_read_error_strands_client (fun _ => f64_0) "dns" false [] [Datagram "10.0.0.1:9" "q" true] [Datagram "10.0.0.1:9" "q2" true] "10.0.0.1:9" 0%nat).
  vm_compute. reflexivity.
Defined.

End Raw.
