(* ===== verification/PacketFault.v ===== *)
(** * Packet faults of a specification ([internal/star/packetfault.go])

    The [packet_*] builtins, which read keywords into a packet fault, and its compilation to a
    rule of [internal/netfault].  The theorem says what the keywords mean: the compiled rule
    matches a packet exactly when every keyword holds of it. *)

From Stdlib Require Import ZArith Lia Ascii String Btauto.
From S2P Require Import Prelude GoStd GoText FaultRule NetRule Registry FaultBuiltins Generate.
From stdpp Require Import base gmap sets strings sorting numbers list.
Local Open Scope Z_scope.
Import GoStd GoText FaultRule Registry.Spec Faults.

Module PacketFaults.
Import PacketView Match.

(** ** Keywords *)

(** [AsInt32]. *)
Definition int32_of (v : value) : option Z :=
  match v with VInt n => if (- 2 ^ 31 <=? n) && (n <? 2 ^ 31) then Some n else None | _ => None end.

Definition text_of (v : value) : string := default "" (as_string v).

Definition dir_arg (who : string) (v : value) : result error string :=
  let s := text_of v in
  match ParseDirection s with
  | Some _ => Ok s
  | None => if String.eqb s "both" then Ok s else refuse who ("dir must be c2s, s2c or both, got " +:+ s)
  end.

Definition proto_arg (who : string) (v : value) : result error string :=
  let s := text_of v in
  if bool_decide (s ∈ ["tcp"; "udp"; "icmp"]) then Ok s else refuse who ("proto must be tcp, udp or icmp, got " +:+ s).

Definition flags_arg (who : string) (v : value) : result error string :=
  let s := text_of v in
  match ParseFlagSpec s with Ok _ => Ok s | Err _ => refuse who "flags=" end.

(** An integer that satisfies a bound. *)
Definition int_arg (who key : string) (ok : Z -> bool) (bound : string) (v : value) : result error Z :=
  match int32_of v with
  | None => Err (got (who +:+ "(): " +:+ key +:+ " must be an integer") v)
  | Some n => if ok n then Ok n else refuse who (key +:+ " must be " +:+ bound +:+ ", got " +:+ show_Z n)
  end.

Definition port_arg who := int_arg who "port" (fun n => (0 <? n) && (n <=? 65535)) "within 1..65535".
Definition len_arg who key := int_arg who key (fun n => 0 <=? n) ">= 0".
Definition count_arg who key := int_arg who key (fun n => 0 <? n) "> 0".

Definition where_arg (who : string) (v : value) : result error Callable :=
  match v with VCallable f => Ok f | _ => Err (got (who +:+ "(): where must be a function") v) end.

(** The keywords of the matcher; [None] for another key. *)
Definition matcher_kwarg (who key : string) (v : value) (m : PacketMatcher) : result error (option PacketMatcher) :=
  let '(mkMatcher di pr fl po le gt lt px pc wh) := m in
  if String.eqb key "dir" then let? s := dir_arg who v in Ok (Some (mkMatcher s pr fl po le gt lt px pc wh))
  else if String.eqb key "proto" then let? s := proto_arg who v in Ok (Some (mkMatcher di s fl po le gt lt px pc wh))
  else if String.eqb key "flags" then let? s := flags_arg who v in Ok (Some (mkMatcher di pr s po le gt lt px pc wh))
  else if String.eqb key "port" then let? n := port_arg who v in Ok (Some (mkMatcher di pr fl n le gt lt px pc wh))
  else if String.eqb key "len" then let? n := len_arg who key v in Ok (Some (mkMatcher di pr fl po (Some n) gt lt px pc wh))
  else if String.eqb key "len_gt" then let? n := len_arg who key v in Ok (Some (mkMatcher di pr fl po le (Some n) lt px pc wh))
  else if String.eqb key "len_lt" then let? n := len_arg who key v in Ok (Some (mkMatcher di pr fl po le gt (Some n) px pc wh))
  else if String.eqb key "payload_prefix" then Ok (Some (mkMatcher di pr fl po le gt lt (text_of v) pc wh))
  else if String.eqb key "payload_contains" then Ok (Some (mkMatcher di pr fl po le gt lt px (text_of v) wh))
  else if String.eqb key "where" then let? f := where_arg who v in Ok (Some (mkMatcher di pr fl po le gt lt px pc (Some f)))
  else Ok None.

(** The keywords of the occurrence; [max_fires] and [mode] are read after the loop. *)
Definition chance_kwarg (who key : string) (v : value) (c : PacketChance) : result error (option PacketChance) :=
  let '(mkChance nt af ev pr mx mo la) := c in
  if String.eqb key "nth" then let? n := count_arg who key v in Ok (Some (mkChance n af ev pr mx mo la))
  else if String.eqb key "after" then let? n := count_arg who key v in Ok (Some (mkChance nt n ev pr mx mo la))
  else if String.eqb key "every" then let? n := count_arg who key v in Ok (Some (mkChance nt af n pr mx mo la))
  else if String.eqb key "probability" then Ok (Some (mkChance nt af ev (parseProbability v) mx mo la))
  else if String.eqb key "max_fires" || String.eqb key "mode" then Ok (Some c)
  else if String.eqb key "label" then Ok (Some (mkChance nt af ev pr mx mo (text_of v)))
  else Ok None.

Definition parsePacketMatcherKwarg (pf : PacketFaultDef) (who key : string) (v : value) : result error (option PacketFaultDef) :=
  let? m := matcher_kwarg who key v (pk_match pf) in
  match m with
  | Some m => Ok (Some (mkPacketFault (pk_action pf) m (pk_chance pf) (pk_params pf)))
  | None =>
      let? c := chance_kwarg who key v (pk_chance pf) in
      Ok ((fun c => mkPacketFault (pk_action pf) (pk_match pf) c (pk_params pf)) <$> c)
  end.

Definition finishPacketFault (pf : PacketFaultDef) (who : string) (kwargs : list (string * value)) : result error PacketFaultDef :=
  let c := pk_chance pf in
  let? mm := parseProbabilityFanoutKwargs who kwargs (pc_prob c) in
  let c := mkChance (pc_nth c) (pc_after c) (pc_every c) (pc_prob c) mm.1 mm.2 (pc_label c) in
  if (1 <? length (List.filter (fun n => 0 <? n)%Z [pc_nth c; pc_after c; pc_every c]))%nat
  then refuse who "nth=, after= and every= are mutually exclusive; pick one"
  else Ok (mkPacketFault (pk_action pf) (pk_match pf) c (pk_params pf)).

(** ** Compilation *)

(** What calling a function on a packet gives. *)
Definition Caller : Type := Callable -> PacketView -> result string value.

(** The verdict of a predicate, and the error it reports. *)
Definition makeWherePredicate (call : Caller) (f : Callable) (p : PacketView) : bool * option string :=
  match call f p with
  | Err e => (false, Some ("where= predicate failed on " +:+ View_String p +:+ ": " +:+ e))
  | Ok (VBool b) => (b, None)
  | Ok v => (false, Some ("where= predicate returned " +:+ type_name v +:+ ", want a bool (packet " +:+ View_String p +:+ ")"))
  end.

Definition bytes (s : string) : list Z := (fun c => Z.of_N (N_of_ascii c)) <$> list_ascii_of_string s.

Inductive CompileErr := UnknownAction (a : string) | BadFlags (e : FlagErr) | Invalid (e : Rule.ValidateErr).

(** The action with its parameters and their defaults. *)
Definition rule_action (a : string) (q : PacketParams) : result CompileErr (Rule.Action * PacketParams) :=
  let none := mkParams 0 0 0 0 0 "" "" 0 in
  if String.eqb a "drop" then Ok (Rule.ActionDrop, none)
  else if String.eqb a "pass" then Ok (Rule.ActionPass, none)
  else if String.eqb a "reset" then Ok (Rule.ActionReset, none)
  else if String.eqb a "delay" then Ok (Rule.ActionDelay, mkParams (pp_delay q) 0 0 0 0 "" "" 0)
  else if String.eqb a "reorder" then Ok (Rule.ActionReorder, mkParams 0 (pp_reorder q) 0 0 0 "" "" 0)
  else if String.eqb a "duplicate" then
    Ok (Rule.ActionDuplicate, mkParams 0 0 (if pp_duplicate q =? 0 then 2 else pp_duplicate q) 0 0 "" "" 0)
  else if String.eqb a "corrupt" then
    Ok (Rule.ActionCorrupt, mkParams 0 0 0 (pp_offset q) (if pp_length q =? 0 then 1 else pp_length q)
      (if String.eqb (pp_mode q) "" then "flip" else pp_mode q) (if String.eqb (pp_checksum q) "" then "fix" else pp_checksum q) 0)
  else if String.eqb a "window" then Ok (Rule.ActionWindow, mkParams 0 0 0 0 0 "" "" (u16 (pp_window q)))
  else Err (UnknownAction a).

Definition rule_trigger (c : PacketChance) : Rule.Trigger * Z :=
  if 0 <? pc_nth c then (Rule.TriggerNth, pc_nth c)
  else if 0 <? pc_after c then (Rule.TriggerAfter, pc_after c)
  else if 0 <? pc_every c then (Rule.TriggerEvery, pc_every c)
  else (Rule.TriggerAlways, 0).

Definition flag_bits (flags : string) : result CompileErr (Z * Z) :=
  if String.eqb flags "" then Ok (0, 0)
  else match ParseFlagSpec flags with Ok sc => Ok sc | Err e => Err (BadFlags e) end.

(** [thread]: how predicates are called, or [None] to validate only. *)
Definition rule_match (thread : option Caller) (m : PacketMatcher) : result CompileErr Match :=
  let? sc := flag_bits (pm_flags m) in
  Ok (mkMatch (if String.eqb (pm_dir m) "" || String.eqb (pm_dir m) "both" then None
         else Some (default DirC2S (ParseDirection (pm_dir m)))) (pm_proto m) sc.1 sc.2
        (u16 (pm_port m)) "" (pm_len m) (pm_len_gt m) (pm_len_lt m) (bytes (pm_prefix m)) (bytes (pm_contains m))
        (match thread, pm_where m with Some call, Some f => Some (fun p => (makeWherePredicate call f p).1) | _, _ => None end)).

Definition build_rule (c : PacketChance) (a : Rule.Action) (q : PacketParams) (m : Match) : Rule.Rule :=
  let '(trigger, n) := rule_trigger c in
  Rule.mkRule a m (pc_label c) (pp_delay q) (pp_reorder q) (pp_duplicate q) (pp_offset q) (pp_length q) (pp_mode q)
    (pp_checksum q) (pp_window q) trigger n (pc_prob c) (pc_max c) (pc_mode c) 0 0 0.

Definition Compile (thread : option Caller) (pf : PacketFaultDef) : result CompileErr Rule.Rule :=
  let? aq := rule_action (pk_action pf) (pk_params pf) in
  let? m := rule_match thread (pk_match pf) in
  let r := build_rule (pk_chance pf) aq.1 aq.2 m in
  match Rule.Validate r with Some e => Err (Invalid e) | None => Ok r end.

(** ** The builtins *)

Definition starDuration (who : string) (v : value) : result error Z :=
  match v with
  | VString s =>
      match ParseDuration s with
      | None => Err (BadDuration who s)
      | Some d => if d <=? 0 then refuse who ("duration must be positive, got " +:+ s) else Ok d
      end
  | _ => Err (got (who +:+ "(): duration must be a string like 250ms") v)
  end.

Definition starPositiveInt (who key : string) (v : value) (min : Z) : result error Z :=
  int_arg who key (fun n => min <=? n) (">= " +:+ show_Z min) v.

(** What a builtin takes besides the shared keywords: its positional argument under the name
    [__positional__], and its own keywords. *)
Definition Extra : Type := list (string * (PacketParams -> value -> result error PacketParams)).

Definition choice (who key : string) (options : list string) (v : value) : result error string :=
  if bool_decide (text_of v ∈ options) then Ok (text_of v) else refuse who (key +:+ " must be one of its options, got " +:+ text_of v).

Definition set_delay d q := mkParams d (pp_reorder q) (pp_duplicate q) (pp_offset q) (pp_length q) (pp_mode q) (pp_checksum q) (pp_window q).
Definition set_reorder n q := mkParams (pp_delay q) n (pp_duplicate q) (pp_offset q) (pp_length q) (pp_mode q) (pp_checksum q) (pp_window q).
Definition set_duplicate n q := mkParams (pp_delay q) (pp_reorder q) n (pp_offset q) (pp_length q) (pp_mode q) (pp_checksum q) (pp_window q).
Definition set_offset n q := mkParams (pp_delay q) (pp_reorder q) (pp_duplicate q) n (pp_length q) (pp_mode q) (pp_checksum q) (pp_window q).
Definition set_length n q := mkParams (pp_delay q) (pp_reorder q) (pp_duplicate q) (pp_offset q) n (pp_mode q) (pp_checksum q) (pp_window q).
Definition set_cmode m q := mkParams (pp_delay q) (pp_reorder q) (pp_duplicate q) (pp_offset q) (pp_length q) m (pp_checksum q) (pp_window q).
Definition set_checksum c q := mkParams (pp_delay q) (pp_reorder q) (pp_duplicate q) (pp_offset q) (pp_length q) (pp_mode q) c (pp_window q).
Definition set_window n q := mkParams (pp_delay q) (pp_reorder q) (pp_duplicate q) (pp_offset q) (pp_length q) (pp_mode q) (pp_checksum q) n.

Definition delay_arg (q : PacketParams) (v : value) : result error PacketParams :=
  let? d := starDuration "packet_delay" v in Ok (set_delay d q).
Definition delayExtra : Extra := [("__positional__", delay_arg); ("duration", delay_arg)].
Definition reorderExtra : Extra := [("by", fun q v => let? n := starPositiveInt "packet_reorder" "by" v 1 in Ok (set_reorder n q))].
Definition dupExtra : Extra := [("count", fun q v => let? n := starPositiveInt "packet_duplicate" "count" v 2 in Ok (set_duplicate n q))].
Definition corruptExtra : Extra :=
  [("offset", fun q v => let? n := starPositiveInt "packet_corrupt" "offset" v 0 in Ok (set_offset n q));
   ("length", fun q v => let? n := starPositiveInt "packet_corrupt" "length" v 1 in Ok (set_length n q));
   ("corrupt_mode", fun q v => let? s := choice "packet_corrupt" "corrupt_mode" ["flip"; "zero"; "random"] v in Ok (set_cmode s q));
   ("checksum", fun q v => let? s := choice "packet_corrupt" "checksum" ["fix"; "break"] v in Ok (set_checksum s q))].
Definition windowExtra : Extra :=
  [("size", fun q v => let? n := starPositiveInt "packet_window" "size" v 0 in
      if 65535 <? n then refuse "packet_window" ("size must be within 0..65535, got " +:+ show_Z n) else Ok (set_window n q))].

Fixpoint extra_at (extra : Extra) (key : string) : option (PacketParams -> value -> result error PacketParams) :=
  match extra with [] => None | (k, h) :: extra => if String.eqb k key then Some h else extra_at extra key end.

Definition with_params (pf : PacketFaultDef) (r : result error PacketParams) : result error PacketFaultDef :=
  let? q := r in Ok (mkPacketFault (pk_action pf) (pk_match pf) (pk_chance pf) q).

Definition positional (who : string) (extra : Extra) (args : list value) (pf : PacketFaultDef) : result error PacketFaultDef :=
  match args with
  | [] => Ok pf
  | v :: rest =>
      match extra_at extra "__positional__" with
      | None => refuse who "takes only keyword arguments"
      | Some h => if negb (length rest =? 0)%nat then refuse who "takes at most 1 positional argument"
                  else with_params pf (h (pk_params pf) v)
      end
  end.

Definition packet_kwarg (who : string) (extra : Extra) (pf : PacketFaultDef) (kv : string * value) : result error PacketFaultDef :=
  let? handled := parsePacketMatcherKwarg pf who kv.1 kv.2 in
  match handled with
  | Some pf => Ok pf
  | None => match extra_at extra kv.1 with
            | None => Err (Unexpected who kv.1)
            | Some h => with_params pf (h (pk_params pf) kv.2)
            end
  end.

Fixpoint packet_kwargs (who : string) (extra : Extra) (kwargs : list (string * value)) (pf : PacketFaultDef) : result error PacketFaultDef :=
  match kwargs with [] => Ok pf | kv :: kwargs => let? pf := packet_kwarg who extra pf kv in packet_kwargs who extra kwargs pf end.

Definition blank (action : string) : PacketFaultDef :=
  mkPacketFault action (mkMatcher "" "" "" 0 None None None "" "" None) (mkChance 0 0 0 f64_0 0 "" "") (mkParams 0 0 0 0 0 "" "" 0).

Definition packetBuiltin (name action : string) (extra : Extra) (args : list value) (kwargs : list (string * value))
    : result error PacketFaultDef :=
  let? pf := positional name extra args (blank action) in
  let? pf := packet_kwargs name extra kwargs pf in
  let? pf := finishPacketFault pf name kwargs in
  match Compile None pf with Err _ => refuse name "invalid rule" | Ok _ => Ok pf end.

(** Name, action and own arguments of each. *)
Definition packetFaultBuiltins : list (string * (string * Extra)) :=
  [("packet_drop", ("drop", [])); ("packet_pass", ("pass", [])); ("packet_reset", ("reset", []));
   ("packet_delay", ("delay", delayExtra)); ("packet_reorder", ("reorder", reorderExtra));
   ("packet_duplicate", ("duplicate", dupExtra)); ("packet_corrupt", ("corrupt", corruptExtra));
   ("packet_window", ("window", windowExtra))].

(** ** What a predicate sees *)

Definition text_of_bytes (l : list Z) : string := string_of_list_ascii ((fun z => ascii_of_N (Z.to_N z)) <$> l).

(** The attributes of a packet; [None] for a name that is none. *)
Definition Attr (p : PacketView) (name : string) : option value :=
  if String.eqb name "proto" then Some (VString (Proto p))
  else if String.eqb name "dir" then Some (VString (Direction_String (Dir p)))
  else if String.eqb name "src_ip" then Some (VString (SrcIP p))
  else if String.eqb name "dst_ip" then Some (VString (DstIP p))
  else if String.eqb name "src_port" then Some (VInt (SrcPort p))
  else if String.eqb name "dst_port" then Some (VInt (DstPort p))
  else if String.eqb name "len" then Some (VInt (PayloadLen p))
  else if String.eqb name "payload" then Some (VString (text_of_bytes (Payload p)))
  else if String.eqb name "payload_bytes" then Some (VBytes (text_of_bytes (Payload p)))
  else if String.eqb name "flags" then Some (VList (VString <$> FlagNames (Flags p)))
  else if String.eqb name "seq" then Some (VInt (Seq p))
  else if String.eqb name "ack" then Some (VInt (Ack p))
  else if String.eqb name "window" then Some (VInt (Window p))
  else if String.eqb name "index" then Some (VInt (Index p))
  else if String.eqb name "flow" then Some (VString (Flow p))
  else None.

Definition describe_one (d : PacketFaultDef) : string :=
  "packet_" +:+ pk_action d +:+ (if String.eqb (pc_label (pk_chance d)) "" then "" else "[" +:+ pc_label (pk_chance d) +:+ "]").
Definition describePacketFaults (defs : list PacketFaultDef) : string := Codegen.comma (describe_one <$> defs).

End PacketFaults.

(** ** What the keywords mean *)
Module PacketMeaning.
Import PacketView Match PacketFaults.

Section Meaning.
Context (call : Caller).

(** Whether one keyword holds of a packet; a keyword that is no matcher always does.  A value that is no
    string reads as the empty text, as in the code: [flags], [payload_prefix] and [payload_contains] then
    hold of every packet. *)
Definition holds (p : PacketView) (kv : string * value) : bool :=
  let '(key, v) := kv in
  let number f := match int32_of v with Some n => f n | None => false end in
  if String.eqb key "dir" then String.eqb (text_of v) "both" || bool_decide (ParseDirection (text_of v) = Some (Dir p))
  else if String.eqb key "proto" then String.eqb (text_of v) (Proto p)
  else if String.eqb key "flags" then
    match ParseFlagSpec (text_of v) with
    | Ok (set, clear) => (Z.land (Flags p) set =? set) && (Z.land (Flags p) clear =? 0)
    | Err _ => false
    end
  else if String.eqb key "port" then number (fun n => DstPort p =? n)
  else if String.eqb key "len" then number (fun n => PayloadLen p =? n)
  else if String.eqb key "len_gt" then number (fun n => n <? PayloadLen p)
  else if String.eqb key "len_lt" then number (fun n => PayloadLen p <? n)
  else if String.eqb key "payload_prefix" then bytes_prefix (bytes (text_of v)) (Payload p)
  else if String.eqb key "payload_contains" then bytes_contain (bytes (text_of v)) (Payload p)
  else if String.eqb key "where" then
    match v with VCallable f => match call f p with Ok (VBool b) => b | _ => false end | _ => false end
  else true.

Example no_string_holds p n :
  forallb (holds p) [("flags", VInt n); ("payload_prefix", VInt n); ("payload_contains", VInt n)] = true.
Proof. cbn. rewrite !Z.land_0_r. destruct (Payload p); reflexivity. Qed.

(** The field of a keyword is not set yet. *)
Definition unset (m : PacketMatcher) (key : string) : Prop :=
  (key = "dir" -> pm_dir m = "") /\ (key = "proto" -> pm_proto m = "") /\ (key = "flags" -> pm_flags m = "") /\
  (key = "port" -> pm_port m = 0) /\ (key = "len" -> pm_len m = None) /\ (key = "len_gt" -> pm_len_gt m = None) /\
  (key = "len_lt" -> pm_len_lt m = None) /\ (key = "payload_prefix" -> pm_prefix m = "") /\
  (key = "payload_contains" -> pm_contains m = "") /\ (key = "where" -> pm_where m = None).

(** What the fields of a matcher ask of a packet, [sc] being its flags. *)
Definition asks_dir (s : string) (p : PacketView) : bool :=
  String.eqb s "" || String.eqb s "both" || bool_decide (default DirC2S (ParseDirection s) = Dir p).
Definition asks_where (wh : option Callable) (p : PacketView) : bool :=
  match wh with Some f => (makeWherePredicate call f p).1 | None => true end.

Definition asks (m : PacketMatcher) (sc : Z * Z) (p : PacketView) : bool :=
  asks_dir (pm_dir m) p && (String.eqb (pm_proto m) "" || String.eqb (pm_proto m) (Proto p)) &&
  ((Z.land (Flags p) sc.1 =? sc.1) && (Z.land (Flags p) sc.2 =? 0)) && ((u16 (pm_port m) =? 0) || (DstPort p =? u16 (pm_port m))) &&
  match pm_len m with Some n => PayloadLen p =? n | None => true end &&
  match pm_len_gt m with Some n => n <? PayloadLen p | None => true end &&
  match pm_len_lt m with Some n => PayloadLen p <? n | None => true end &&
  bytes_prefix (bytes (pm_prefix m)) (Payload p) && bytes_contain (bytes (pm_contains m)) (Payload p) && asks_where (pm_where m) p.

Definition means (m : PacketMatcher) (f : PacketView -> bool) : Prop :=
  exists sc, flag_bits (pm_flags m) = Ok sc /\ forall p, asks m sc p = f p.

Lemma empty_prefix l pay : (length l =? 0)%nat || bytes_prefix l pay = bytes_prefix l pay.
Proof. by destruct l. Qed.
Lemma empty_contain l pay : (length l =? 0)%nat || bytes_contain l pay = bytes_contain l pay.
Proof. by destruct l, pay. Qed.
Lemma zero_set x f : (x =? 0) || (Z.land f x =? x) = (Z.land f x =? x).
Proof. destruct (Z.eqb_spec x 0) as [->|]; [|done]. by rewrite Z.land_0_r. Qed.
Lemma zero_clear x f : (x =? 0) || (Z.land f x =? 0) = (Z.land f x =? 0).
Proof. destruct (Z.eqb_spec x 0) as [->|]; [|done]. by rewrite Z.land_0_r. Qed.

(** The rule of a matcher matches what the matcher asks for. *)
Lemma rule_match_asks m f : means m f -> exists mt, rule_match (Some call) m = Ok mt /\ forall p, Rule.matches mt p = f p.
Proof.
  intros (sc & E & H). unfold rule_match. rewrite E. eexists. split; [reflexivity|]. intros p. rewrite <- H.
  unfold Rule.matches, matchesDeclarative, asks, asks_dir, asks_where.
  cbn [MDir MProto FlagsSet FlagsClear MPort MDstIP MLen MLenGT MLenLT PayloadPrefix PayloadContains Where].
  rewrite empty_prefix, empty_contain, zero_set, zero_clear. cbn [String.eqb orb].
  destruct (String.eqb (pm_dir m) "" || String.eqb (pm_dir m) "both"), (pm_where m); cbn [orb]; btauto.
Qed.

Lemma int_arg_ok who key ok bound v n : int_arg who key ok bound v = Ok n -> int32_of v = Some n /\ ok n = true.
Proof. unfold int_arg. destruct (int32_of v) as [k|]; [|done]. destruct (ok k) eqn:E; [|done]. by intros [= <-]. Qed.

Lemma flag_bits_ok who v s : flags_arg who v = Ok s -> s = text_of v /\ exists sc, flag_bits (text_of v) = Ok sc /\ ParseFlagSpec (text_of v) = Ok sc.
Proof.
  unfold flags_arg, flag_bits. destruct (ParseFlagSpec (text_of v)) as [sc|] eqn:E; [|done]. intros [= <-]. split; [done|].
  destruct (String.eqb_spec (text_of v) "") as [E0|]; [|by eexists]. rewrite E0 in E. injection E as <-. by eexists.
Qed.

Lemma dir_arg_ok who v s p : dir_arg who v = Ok s ->
  asks_dir s p = String.eqb (text_of v) "both" || bool_decide (ParseDirection (text_of v) = Some (Dir p)).
Proof.
  unfold dir_arg, asks_dir. intros H. assert (s = text_of v) as ->.
  { destruct (ParseDirection (text_of v)); [by injection H|]. destruct (String.eqb (text_of v) "both"); [by injection H|done]. }
  destruct (ParseDirection (text_of v)) as [d|] eqn:Ed.
  - destruct (String.eqb_spec (text_of v) "") as [E|_]; [by rewrite E in Ed|]. destruct (String.eqb_spec (text_of v) "both") as [E|_]; [by rewrite E in Ed|].
    cbn. apply bool_decide_ext. naive_solver.
  - destruct (String.eqb (text_of v) "both"); [|done]. by rewrite orb_true_r.
Qed.

Lemma where_ok f p : asks_where (Some f) p = match call f p with Ok (VBool b) => b | _ => false end.
Proof. cbn. unfold makeWherePredicate. destruct (call f p) as [[]|]; done. Qed.

Ltac finish sc Hf := exists sc; split; [assumption|]; intros p; rewrite <- Hf;
  cbn [pm_dir pm_proto pm_flags pm_port pm_len pm_len_gt pm_len_lt pm_prefix pm_contains pm_where].
(** A keyword whose field was [None]. *)
Ltac finish_number H sc Hf U :=
  match type of H with context [len_arg ?who ?key ?v] =>
    let n := fresh "n" in let En := fresh "En" in destruct (len_arg who key v) as [n|] eqn:En; [|done]; injection H as <-;
    apply int_arg_ok in En as [-> _]; finish sc Hf; rewrite U by done; clear; btauto
  end.

Lemma matcher_step who key v m m' f : matcher_kwarg who key v m = Ok (Some m') -> unset m key -> means m f ->
  means m' (fun p => f p && holds p (key, v)).
Proof.
  destruct m as [di pr fl po le gt lt px pc wh]. unfold matcher_kwarg, unset, holds, means, asks.
  cbn [pm_dir pm_proto pm_flags pm_port pm_len pm_len_gt pm_len_lt pm_prefix pm_contains pm_where].
  intros H (U1 & U2 & U3 & U4 & U5 & U6 & U7 & U8 & U9 & U10) (sc & Esc & Hf).
  destruct (String.eqb_spec key "dir") as [->|_].
  { destruct (dir_arg who v) as [s|] eqn:Ed; [|done]. injection H as <-. finish sc Hf. rewrite (dir_arg_ok _ _ _ p Ed), U1 by done. cbn [asks_dir String.eqb orb].
    unfold asks_dir. cbn [String.eqb orb]. btauto. }
  destruct (String.eqb_spec key "proto") as [->|_].
  { unfold proto_arg in H. case_bool_decide as Hp; [|done]. injection H as <-. finish sc Hf. rewrite U2 by done.
    destruct (String.eqb_spec (text_of v) "") as [E|_]; [rewrite E in Hp; set_solver|]. cbn [String.eqb orb]. btauto. }
  destruct (String.eqb_spec key "flags") as [->|_].
  { destruct (flags_arg who v) as [s|] eqn:Ed; [|done]. injection H as <-. destruct (flag_bits_ok _ _ _ Ed) as (-> & [s1 c1] & Es & ->). finish (s1, c1) Hf.
    rewrite U3 in Esc by done. injection Esc as <-. cbn [fst snd]. rewrite Z.land_0_r. cbn [Z.eqb]. btauto. }
  destruct (String.eqb_spec key "port") as [->|_].
  { destruct (port_arg who v) as [n|] eqn:En; [|done]. injection H as <-. apply int_arg_ok in En as [-> [Hn1 Hn2]%andb_true_iff].
    apply Z.ltb_lt in Hn1. apply Z.leb_le in Hn2. finish sc Hf. rewrite U4 by done.
    assert (En : u16 n = n) by (apply Z.mod_small; lia). assert (E0 : u16 0 = 0) by reflexivity. rewrite En, E0, (proj2 (Z.eqb_neq n 0)) by lia.
    change (0 =? 0) with true. cbn [orb]. clear. btauto. }
  destruct (String.eqb_spec key "len") as [->|_]; [finish_number H sc Hf U5|].
  destruct (String.eqb_spec key "len_gt") as [->|_]; [finish_number H sc Hf U6|].
  destruct (String.eqb_spec key "len_lt") as [->|_]; [finish_number H sc Hf U7|].
  destruct (String.eqb_spec key "payload_prefix") as [->|_]; [injection H as <-; finish sc Hf; rewrite U8 by done; change (bytes "") with (@nil Z); cbn [bytes_prefix]; clear; btauto|].
  destruct (String.eqb_spec key "payload_contains") as [->|_].
  { injection H as <-. finish sc Hf. rewrite U9 by done. assert (bytes_contain (bytes "") (Payload p) = true) as -> by (by destruct (Payload p)). clear. btauto. }
  destruct (String.eqb_spec key "where") as [->|_]; [|done].
  destruct v; try done. injection H as <-. finish sc Hf. rewrite U10, where_ok by done. cbn [asks_where]. clear.
  match goal with |- _ && ?b = _ => generalize b end. intros b. btauto.
Qed.

Lemma matcher_none who key v m p : matcher_kwarg who key v m = Ok None -> holds p (key, v) = true.
Proof.
  destruct m. unfold matcher_kwarg, holds.
  repeat match goal with |- context [String.eqb key ?k] => destruct (String.eqb key k) end; try done.
  all: intros H; repeat match type of H with context [result_bind ?r _] => destruct r; cbn [result_bind] in H end; done.
Qed.

Lemma unset_step who key v m m' key' : matcher_kwarg who key v m = Ok (Some m') -> key' <> key -> unset m key' -> unset m' key'.
Proof.
  destruct m as [di pr fl po le gt lt px pc wh]. unfold matcher_kwarg, unset.
  cbn [pm_dir pm_proto pm_flags pm_port pm_len pm_len_gt pm_len_lt pm_prefix pm_contains pm_where]. intros H Hne U.
  repeat match type of H with context [String.eqb key ?k] => destruct (String.eqb_spec key k) as [->|_] end;
    repeat match type of H with context [result_bind ?r _] => destruct r as [?|?]; cbn [result_bind] in H; [|done] end;
    try done; injection H as <-; cbn [pm_dir pm_proto pm_flags pm_port pm_len pm_len_gt pm_len_lt pm_prefix pm_contains pm_where];
    split_and!; try (by apply U); intros ->; done.
Qed.

Lemma packet_kwarg_step who extra pf kv pf' f : packet_kwarg who extra pf kv = Ok pf' -> unset (pk_match pf) kv.1 -> means (pk_match pf) f ->
  means (pk_match pf') (fun p => f p && holds p kv) /\ forall k, k <> kv.1 -> unset (pk_match pf) k -> unset (pk_match pf') k.
Proof.
  destruct kv as [key v]. unfold packet_kwarg, parsePacketMatcherKwarg. cbn [fst snd]. intros H Hu Hm.
  destruct (matcher_kwarg who key v (pk_match pf)) as [[m'|]|] eqn:Em; [| |done].
  - injection H as <-. cbn [pk_match]. split; [by eapply matcher_step|]. intros k. by eapply unset_step.
  - assert (E : pk_match pf' = pk_match pf).
    { destruct (chance_kwarg who key v (pk_chance pf)) as [[c|]|]; cbn in H; [by injection H as <-| |done].
      destruct (extra_at extra key) as [h|]; [|done]. unfold with_params in H. destruct (h _ v); [by injection H as <-|done]. }
    rewrite E. split; [|done]. destruct Hm as (sc & Es & Hs). exists sc. split; [done|]. intros p. rewrite Hs, (matcher_none _ _ _ _ p Em). by rewrite andb_true_r.
Qed.

Lemma packet_kwargs_mean who extra kwargs : forall pf pf' f, packet_kwargs who extra kwargs pf = Ok pf' -> NoDup kwargs.*1 ->
  Forall (unset (pk_match pf)) kwargs.*1 -> means (pk_match pf) f -> means (pk_match pf') (fun p => f p && forallb (holds p) kwargs).
Proof.
  induction kwargs as [|kv kwargs IH]; intros pf pf' f H Hd Hu Hm; cbn [packet_kwargs forallb] in *.
  { injection H as <-. destruct Hm as (sc & Es & Hs). exists sc. split; [done|]. intros p. by rewrite andb_true_r. }
  destruct (packet_kwarg who extra pf kv) as [pf1|] eqn:E; [|done]. rewrite fmap_cons in Hd, Hu. apply NoDup_cons in Hd as [Hn Hd].
  apply Forall_cons in Hu as [Hu1 Hu]. destruct (packet_kwarg_step _ _ _ _ _ _ E Hu1 Hm) as [Hm1 Hk].
  destruct (IH pf1 pf' (fun p => f p && holds p kv) H Hd) as (sc & Es & Hs); [|done|].
  - apply Forall_forall. intros k Hin. rewrite Forall_forall in Hu. apply Hk; [|by apply Hu]. by intros ->.
  - exists sc. split; [done|]. intros p. rewrite Hs. btauto.
Qed.

Lemma blank_unset action keys : Forall (unset (pk_match (blank action))) keys.
Proof. apply Forall_true. intros k. unfold unset. cbn. by split_and!. Qed.

Lemma blank_means action : means (pk_match (blank action)) (fun _ => true).
Proof.
  exists (0, 0). split; [reflexivity|]. intros p. unfold asks. cbn [pk_match blank pm_dir pm_proto pm_flags pm_port pm_len pm_len_gt pm_len_lt pm_prefix pm_contains pm_where fst snd].
  rewrite Z.land_0_r. change (bytes "") with (@nil Z). by destruct (Payload p).
Qed.

(** Calling the predicate or not does not matter to validation. *)
Lemma validate_match c a q m m' : MProto m = MProto m' -> Rule.Validate (build_rule c a q m) = Rule.Validate (build_rule c a q m').
Proof.
  intros E. unfold build_rule. destruct (rule_trigger c) as [t n]. unfold Rule.Validate, Rule.validate_action.
  cbn [Rule.RAction Rule.RMatch Rule.RDelay Rule.ReorderBy Rule.DuplicateCount Rule.CorruptLength Rule.CorruptOffset Rule.CorruptMode Rule.Checksum
       Rule.RProbability Rule.RMaxFires Rule.RMode Rule.RTrigger Rule.RTriggerN]. by rewrite E.
Qed.

Lemma rule_match_proto thread m mt : rule_match thread m = Ok mt -> MProto mt = pm_proto m.
Proof. unfold rule_match. destruct (flag_bits _); [|done]. by intros [= <-]. Qed.

Lemma compile_thread pf r mt : Compile None pf = Ok r -> rule_match (Some call) (pk_match pf) = Ok mt ->
  exists r', Compile (Some call) pf = Ok r' /\ Rule.RMatch r' = mt /\ Rule.Validate r' = None.
Proof.
  unfold Compile. destruct (rule_action _ _) as [[a q]|]; cbn [result_bind fst snd]; [|done]. intros H Em. rewrite Em.
  destruct (rule_match None (pk_match pf)) as [m0|] eqn:E0; cbn [result_bind] in *; [|done].
  rewrite (validate_match _ a q mt m0) by (by rewrite (rule_match_proto _ _ _ Em), (rule_match_proto _ _ _ E0)).
  destruct (Rule.Validate (build_rule (pk_chance pf) a q m0)) eqn:V; [done|]. eexists. split_and!; [reflexivity| |].
  - unfold build_rule. by destruct (rule_trigger _).
  - rewrite <- V. apply validate_match. by rewrite (rule_match_proto _ _ _ Em), (rule_match_proto _ _ _ E0).
Qed.

End Meaning.

(** C25: Packet keywords mean what they say.  A fault that a [packet_*] builtin returns compiles, also
    when predicates are called, to a rule that validates, and the rule matches a packet exactly when every
    keyword given holds of it: direction, protocol, flags, destination port, lengths, payload and
    predicate; a predicate that fails or returns no boolean holds of nothing, and flags or a payload given
    as a value that is no string hold of every packet. *)
Theorem packet_keywords_mean call name action extra args kwargs pf :
  packetBuiltin name action extra args kwargs = Ok pf -> NoDup kwargs.*1 ->
  exists r, Compile (Some call) pf = Ok r /\ Rule.Validate r = None /\
    forall p, Rule.matches (Rule.RMatch r) p = forallb (holds call p) kwargs.
Proof.
  unfold packetBuiltin. destruct (positional name extra args (blank action)) as [p0|] eqn:E0; cbn [result_bind]; [|done].
  destruct (packet_kwargs name extra kwargs p0) as [p1|] eqn:E1; cbn [result_bind]; [|done].
  destruct (finishPacketFault p1 name kwargs) as [p2|] eqn:E2; cbn [result_bind]; [|done]. destruct (Compile None p2) as [r|] eqn:E3; [|done]. intros [= <-] Hd.
  assert (Em0 : pk_match p0 = pk_match (blank action)).
  { unfold positional in E0. destruct args as [|v rest]; [by injection E0 as <-|]. destruct (extra_at _ _) as [h|]; [|done].
    destruct (negb _); [done|]. unfold with_params in E0. destruct (h _ v); cbn [result_bind] in E0; [by injection E0 as <-|done]. }
  assert (Em2 : pk_match p2 = pk_match p1).
  { unfold finishPacketFault in E2. destruct (parseProbabilityFanoutKwargs _ _ _); cbn [result_bind] in E2; [|done]. destruct (_ <? _)%nat; [done|]. by injection E2 as <-. }
  assert (Hm : means call (pk_match p2) (fun p => forallb (holds call p) kwargs)).
  { rewrite Em2. eapply (packet_kwargs_mean call) in E1 as (sc & Es & Hs); [|exact Hd|rewrite Em0; apply blank_unset|rewrite Em0; apply blank_means].
    exists sc. split; [done|]. intros p. by rewrite Hs. }
  destruct (rule_match_asks call _ _ Hm) as (mt & Emt & Hmt). destruct (compile_thread call _ _ _ E3 Emt) as (r' & Hr & <- & Hv).
  exists r'. by split_and!.
Qed.

Lemma packet_keywords_mean_witness :
  exists pf r, packetBuiltin "packet_drop" "drop" [] [] [("dir", VString "c2s"); ("flags", VString "SYN,!ACK"); ("port", VInt 5432)] = Ok pf /\
    Compile (Some (fun _ _ => Err "")) pf = Ok r /\ Rule.matches (Rule.RMatch r) Rule.sample_view = true.
Proof.
  eexists. destruct (packet_keywords_mean (fun _ _ => Err "") "packet_drop" "drop" [] [] [("dir", VString "c2s"); ("flags", VString "SYN,!ACK"); ("port", VInt 5432)]
    (mkPacketFault "drop" (mkMatcher "c2s" "" "SYN,!ACK" 5432 None None None "" "" None) (mkChance 0 0 0 f64_0 0 "" "") (mkParams 0 0 0 0 0 "" "" 0)))
    as (r & H1 & _ & H2); [vm_compute; reflexivity|repeat constructor; set_solver|].
  exists r. split_and!; [vm_compute; reflexivity|exact H1|rewrite H2; vm_compute; reflexivity].
Defined.

End PacketMeaning.
