(* ===== verification/Gateway.v ===== *)
(** * The packet gateway ([internal/netfault/alloc.go], [internal/netfault/gateway.go])

    The addresses handed to the routes between services, and the rules installed per route and
    published together on the one fault endpoint.  The theorems show that an address identifies
    its route, and what the scope of an installed rule is.  The device, the network stack and
    the relays are not modelled. *)

From Stdlib Require Import ZArith Lia Ascii OrdersEx.
From S2P Require Import Prelude GoStd GoText FaultRule NetRule.
From stdpp Require Import base gmap sets strings sorting numbers list.
Local Open Scope Z_scope.
Import GoStd GoText FaultRule PacketView Match Rule.

(** A triple as a key, its parts separated by a zero byte. *)
Definition triple (consumer service iface : string) : string :=
  consumer +:+ String "000" (service +:+ String "000" iface).

Definition plain (s : string) : bool := sall (is_not "000") s.

Lemma cut_inj sep a b a' b' : sall (is_not sep) a = true -> sall (is_not sep) a' = true ->
  a +:+ String sep b = a' +:+ String sep b' -> a = a' /\ b = b'.
Proof. intros Ha Ha' E. apply (scut_app sep a b) in Ha. apply (scut_app sep a' b') in Ha'. rewrite E in Ha. by simplify_eq. Qed.

Lemma triple_inj c s i c' s' i' : plain c = true -> plain s = true -> plain c' = true -> plain s' = true ->
  triple c s i = triple c' s' i' -> c = c' /\ s = s' /\ i = i'.
Proof. intros Hc Hs Hc' Hs' E. apply cut_inj in E as [-> E]; [|done..]. by apply cut_inj in E as [-> ->]. Qed.

Module Alloc.

Definition DefaultSubnet : string := "10.99.0.0/16".

Record GatewayAddr := mkAddr {
  Consumer : string; Service : string; Interface : string; IP : string; Port : Z; Upstream : string }.

Definition Addr (a : GatewayAddr) : string := IP a +:+ ":" +:+ show_Z (Port a).

Definition key (a : GatewayAddr) : string := triple (Consumer a) (Service a) (Interface a).

(** [base]: the network's address as one number. *)
Record addrAllocator := mkAlloc { base : Z; ones : Z; bits : Z; byKey : gmap string GatewayAddr; nextID : Z }.

(** [net.ParseCIDR] on the dotted notation: address and length of the prefix. *)
Definition octet (s : string) : option Z :=
  match unsigned_value s with
  | Some n => if (slen s <=? 3)%nat && (n <=? 255) && negb ((1 <? slen s)%nat && has_prefix "0" s) then Some n else None
  | None => None
  end.

Definition ParseIPv4 (s : string) : option Z :=
  match octet <$> split_all "." s with
  | [Some a; Some b; Some c; Some d] => Some (a * 2 ^ 24 + b * 2 ^ 16 + c * 2 ^ 8 + d)
  | _ => None
  end.

Definition ParseCIDR (s : string) : option (Z * Z) :=
  match scut "/" s with
  | Some (addr, mask) =>
      match ParseIPv4 addr, unsigned_value mask with
      | Some ip, Some n => if n <=? 32 then Some (ip, n) else None
      | _, _ => None
      end
  | None => None
  end.

Inductive error := BadSubnet (s : string) | TooSmall (s : string) | Exhausted (n : Z) | NoAddress (consumer service iface : string)
  | BadRule (i : Z) (e : ValidateErr) | NotStarted.

Definition newAddrAllocator (cidr : string) : result error addrAllocator :=
  match ParseCIDR cidr with
  | None => Err (BadSubnet cidr)
  | Some (ip, n) =>
      if 32 - n <? 8 then Err (TooSmall cidr)
      else Ok (mkAlloc (Z.land ip (2 ^ 32 - 2 ^ (32 - n))) n 32 ∅ 2)
  end.

Definition dotted (a b c d : Z) : string :=
  show_Z a +:+ String "." (show_Z b +:+ String "." (show_Z c +:+ String "." (show_Z d))).

(** The two low bytes are replaced, whatever the prefix. *)
Definition ipForOffset (a : addrAllocator) (n : Z) : string :=
  dotted (Z.land (Z.shiftr (base a) 24) 255) (Z.land (Z.shiftr (base a) 16) 255) (Z.land (Z.shiftr n 8) 255) (Z.land n 255).

Definition hostIP (a : addrAllocator) : string := ipForOffset a 1.

Definition maxHosts (a : addrAllocator) : Z := Z.shiftl 1 (bits a - ones a) - 2.

Definition allocate (consumer service iface : string) (port : Z) (upstream : string) (a : addrAllocator) : result error GatewayAddr * addrAllocator :=
  let k := triple consumer service iface in
  match byKey a !! k with
  | Some ga => (Ok ga, a)
  | None =>
      if maxHosts a <? nextID a then (Err (Exhausted (maxHosts a)), a)
      else
        let ga := mkAddr consumer service iface (ipForOffset a (nextID a)) port upstream in
        (Ok ga, mkAlloc (base a) (ones a) (bits a) (<[k := ga]> (byKey a)) (nextID a + 1))
  end.

Definition lookup (consumer service iface : string) (a : addrAllocator) : option GatewayAddr := byKey a !! triple consumer service iface.

(** [visit]: the order in which Go visits the table. *)
Definition forIP (visit : gmap string GatewayAddr -> list GatewayAddr) (ip : string) (a : addrAllocator) : option GatewayAddr :=
  List.find (fun ga => String.eqb (IP ga) ip) (visit (byKey a)).

Definition ip_le (x y : GatewayAddr) : Prop := string_le (IP x) (IP y).
#[export] Instance ip_le_dec x y : Decision (ip_le x y).
Proof. unfold ip_le. apply _. Defined.

Definition all (a : addrAllocator) : list GatewayAddr := merge_sort ip_le (map_to_list (byKey a)).*2.

End Alloc.

(** ** An address identifies its route *)
Module Routes.
Import Alloc.

Lemma show_no_dot z : 0 <= z -> sall (is_not ".") (show_Z z) = true.
Proof.
  intros H. eapply sall_impl; [|by apply show_Z_digits]. intros c Hc. unfold is_not. destruct (Ascii.eqb_spec c ".") as [->|]; [by vm_compute in Hc|done].
Qed.

Lemma dotted_inj a b c d a' b' c' d' : 0 <= a -> 0 <= b -> 0 <= c -> 0 <= d -> 0 <= a' -> 0 <= b' -> 0 <= c' -> 0 <= d' ->
  dotted a b c d = dotted a' b' c' d' -> c = c' /\ d = d'.
Proof.
  intros. unfold dotted in *.
  repeat match goal with E : _ +:+ String "." _ = _ |- _ => apply cut_inj in E as [? E]; [|by apply show_no_dot..] end.
  by split; apply show_Z_inj.
Qed.

Lemma low_bytes n : 0 <= n < 65536 -> n = Z.land (Z.shiftr n 8) 255 * 256 + Z.land n 255.
Proof.
  intros H. change 255 with (Z.ones 8). rewrite !Z.land_ones, Z.shiftr_div_pow2 by lia. change (2 ^ 8) with 256.
  rewrite (Z.mod_small (n / 256)) by (split; [apply Z.div_pos; lia|apply Z.div_lt_upper_bound; lia]). pose proof (Z.div_mod n 256). lia.
Qed.

Lemma land_255 z : 0 <= Z.land z 255.
Proof. apply Z.land_nonneg. right. lia. Qed.

Lemma ip_inj a a' n n' : base a = base a' -> 0 <= n < 65536 -> 0 <= n' < 65536 -> ipForOffset a n = ipForOffset a' n' -> n = n'.
Proof.
  intros Eb Hn Hn' E. unfold ipForOffset in E. apply dotted_inj in E as [E1 E2]; try apply land_255.
  rewrite (low_bytes n Hn), (low_bytes n' Hn'). lia.
Qed.

(** The table of an allocator whose prefix leaves at most two bytes to the hosts. *)
Record routes_ok (a : addrAllocator) : Prop := {
  prefix_ok : 16 <= ones a <= 24 /\ bits a = 32;
  next_ok : 2 <= nextID a <= maxHosts a + 1;
  entry_ok : forall k ga, byKey a !! k = Some ga -> key ga = k /\ exists n, 2 <= n < nextID a /\ IP ga = ipForOffset a n;
  ips_distinct : forall k k' ga ga', byKey a !! k = Some ga -> byKey a !! k' = Some ga' -> IP ga = IP ga' -> k = k' }.

Lemma maxHosts_bound a : 16 <= ones a <= 24 /\ bits a = 32 -> 254 <= maxHosts a < 65535.
Proof.
  intros [H1 H2]. unfold maxHosts. rewrite H2, Z.shiftl_1_l. assert (H : 2 ^ 8 <= 2 ^ (32 - ones a) <= 2 ^ 16) by (split; apply Z.pow_le_mono_r; lia).
  change (2 ^ 8) with 256 in H. change (2 ^ 16) with 65536 in H. lia.
Qed.

Lemma new_routes_ok cidr a : newAddrAllocator cidr = Ok a -> 16 <= ones a -> routes_ok a.
Proof.
  unfold newAddrAllocator. destruct (ParseCIDR cidr) as [[ip n]|]; [|done]. destruct (Z.ltb_spec (32 - n) 8); [done|]. intros [= <-] Ho. cbn in Ho.
  assert (P : 16 <= n <= 24 /\ (32 : Z) = 32) by lia. split; cbn; [done| |by intros k ga; rewrite lookup_empty..].
  pose proof (maxHosts_bound (mkAlloc (Z.land ip (2 ^ 32 - 2 ^ (32 - n))) n 32 ∅ 2) P). lia.
Qed.

Lemma allocate_ok c s i port up a : routes_ok a -> routes_ok (allocate c s i port up a).2.
Proof.
  intros [P N E D]. unfold allocate. destruct (byKey a !! triple c s i) as [ga|] eqn:Ek; [by split|].
  destruct (Z.ltb_spec (maxHosts a) (nextID a)); [by split|]. cbn [snd]. pose proof (maxHosts_bound a P).
  assert (F : forall k ga, byKey a !! k = Some ga -> IP ga <> ipForOffset a (nextID a)).
  { intros k ga Hk E1. destruct (E k ga Hk) as (_ & n & Hn & E2). rewrite E2 in E1. apply ip_inj in E1; [lia|done|lia|lia]. }
  split; cbn [byKey nextID ones bits base]; [done|unfold maxHosts in *; cbn; lia| |].
  - intros k ga. rewrite lookup_insert_Some. intros [[<- <-]|[_ Hk]]; [split; [done|]; exists (nextID a); split; [lia|done]|].
    destruct (E k ga Hk) as (E1 & n & Hn & E2). split; [done|]. exists n. split; [lia|done].
  - intros k k' ga ga'. rewrite !lookup_insert_Some. intros [[<- <-]|[_ Hk]] [[<- <-]|[_ Hk']] Ei; [done|..]; cbn [IP] in Ei.
    + by destruct (F _ _ Hk').
    + by destruct (F _ _ Hk).
    + by eapply D.
Qed.

(** A request of an address. *)
Definition request : Type := string * string * string * Z * string.
Definition serve (a : addrAllocator) (r : request) : addrAllocator :=
  let '(c, s, i, port, up) := r in (allocate c s i port up a).2.
Definition serve_all (rs : list request) (a : addrAllocator) : addrAllocator := foldl serve a rs.

Lemma serve_all_ok rs a : routes_ok a -> routes_ok (serve_all rs a).
Proof. revert a. induction rs as [|[[[[c s] i] port] up] rs IH]; intros a H; [done|]. by apply IH, allocate_ok. Qed.

Lemma serve_keeps r a k ga : byKey a !! k = Some ga -> byKey (serve a r) !! k = Some ga.
Proof.
  destruct r as [[[[c s] i] port] up]. intros H. cbn. unfold allocate. destruct (byKey a !! triple c s i) eqn:E; [done|]. destruct (_ <? _); [done|].
  cbn. rewrite lookup_insert_ne; [done|]. congruence.
Qed.

Lemma forIP_finds visit a k ga : routes_ok a -> (forall m, visit m ≡ₚ (map_to_list m).*2) -> byKey a !! k = Some ga -> forIP visit (IP ga) a = Some ga.
Proof.
  intros [_ _ _ D] Hv Hk. unfold forIP. assert (Hin : ga ∈ visit (byKey a)).
  { rewrite Hv. apply list_elem_of_fmap. exists (k, ga). split; [done|]. by apply elem_of_map_to_list. }
  destruct (List.find _ (visit (byKey a))) as [ga'|] eqn:Ef.
  - apply find_some in Ef as [Hin' E%String.eqb_eq]. apply list_elem_of_In in Hin'. rewrite Hv in Hin'.
    apply list_elem_of_fmap in Hin' as ([k' x] & -> & Hk'%elem_of_map_to_list). cbn in E. pose proof (D _ _ _ _ Hk' Hk E) as ->. cbn. congruence.
  - apply list_elem_of_In in Hin. apply (find_none _ _ Ef) in Hin. by rewrite String.eqb_refl in Hin.
Qed.

(** C24: A gateway address identifies its route.  On a subnet whose prefix has 16 to 24 bits, through
    any sequence of requests, routes - consumer, service and interface, without zero bytes - that have the
    same address are the same route, none has the host's address, the route is found again from the
    address, and an address once given stays. *)
Theorem addresses_identify_routes cidr a0 rs visit :
  newAddrAllocator cidr = Ok a0 -> 16 <= ones a0 -> (forall m, visit m ≡ₚ (map_to_list m).*2) ->
  let a := serve_all rs a0 in
  (forall c s i c' s' i' ga ga', plain c = true -> plain s = true -> plain c' = true -> plain s' = true ->
     lookup c s i a = Some ga -> lookup c' s' i' a = Some ga' -> IP ga = IP ga' -> (c, s, i) = (c', s', i')) /\
  (forall c s i ga, lookup c s i a = Some ga ->
     IP ga <> hostIP a /\ forIP visit (IP ga) a = Some ga /\ forall more, lookup c s i (serve_all more a) = Some ga).
Proof.
  intros H0 Ho Hv. cbv zeta. pose proof (serve_all_ok rs a0 (new_routes_ok _ _ H0 Ho)) as Hok. set (a := serve_all rs a0) in *. unfold lookup. split.
  - intros c s i c' s' i' ga ga' P1 P2 P3 P4 H1 H2 E. pose proof (ips_distinct a Hok _ _ _ _ H1 H2 E) as Ek.
    apply triple_inj in Ek as (-> & -> & ->); done.
  - intros c s i ga H. split_and!.
    + destruct (entry_ok a Hok _ _ H) as (_ & n & Hn & ->). pose proof (maxHosts_bound a (prefix_ok a Hok)). pose proof (next_ok a Hok).
      unfold hostIP. intros E%ip_inj; lia || done.
    + by eapply forIP_finds.
    + induction more as [|r more IH] using rev_ind; [done|]. unfold serve_all in *. rewrite foldl_app. cbn [foldl]. by apply serve_keeps.
Qed.

Definition table_order (m : gmap string GatewayAddr) : list GatewayAddr := (map_to_list m).*2.

Lemma addresses_identify_routes_witness :
  exists a0 ga, newAddrAllocator DefaultSubnet = Ok a0 /\
    lookup "api" "db" "main" (serve_all [("worker", "db", "main", 5432, "127.0.0.1:5432"); ("api", "db", "main", 5432, "127.0.0.1:5432")] a0) = Some ga /\
    IP ga = "10.99.0.3" /\ IP ga <> hostIP (serve_all [("worker", "db", "main", 5432, "127.0.0.1:5432"); ("api", "db", "main", 5432, "127.0.0.1:5432")] a0).
Proof.
  exists (mkAlloc 174260224 16 32 ∅ 2), (mkAddr "api" "db" "main" "10.99.0.3" 5432 "127.0.0.1:5432").
  assert (E : newAddrAllocator DefaultSubnet = Ok (mkAlloc 174260224 16 32 ∅ 2)) by (vm_compute; reflexivity).
  split_and!; [exact E|vm_compute; reflexivity|reflexivity|].
  refine (proj1 (proj2 (addresses_identify_routes DefaultSubnet _ [("worker", "db", "main", 5432, "127.0.0.1:5432"); ("api", "db", "main", 5432, "127.0.0.1:5432")]
    table_order E ltac:(cbn; lia) (fun m => reflexivity _)) "api" "db" "main" _ _)). vm_compute. reflexivity.
Defined.

(** The assignment follows the order of the requests. *)
Example addresses_follow_requests :
  let a := mkAlloc 174260224 16 32 ∅ 2 in
  IP <$> lookup "api" "db" "main" (serve_all [("api", "db", "main", 1, ""); ("api", "mq", "main", 1, "")] a) = Some "10.99.0.2" /\
  IP <$> lookup "api" "db" "main" (serve_all [("api", "mq", "main", 1, ""); ("api", "db", "main", 1, "")] a) = Some "10.99.0.3".
Proof. vm_compute. done. Qed.

(** The third byte of a smaller network is overwritten, and the address is outside of it. *)
Example small_subnet_escapes :
  match newAddrAllocator "10.99.7.0/24" with
  | Ok a => IP <$> lookup "api" "db" "main" (serve_all [("api", "db", "main", 1, "")] a) = Some "10.99.0.2"
  | Err _ => False
  end.
Proof. vm_compute. done. Qed.

(** A larger network gives one address twice: number 65538 has the bytes of number 2. *)
Example large_subnet_repeats :
  match newAddrAllocator "10.0.0.0/8" with
  | Ok a => 65538 <= maxHosts a /\ ipForOffset a 65538 = ipForOffset a 2
  | Err _ => False
  end.
Proof. vm_compute. split; [discriminate|reflexivity]. Qed.

End Routes.

(** ** Rules *)
Module Gateway.
Import Alloc.

(** Rules are shared objects: [heap] holds them by number.  [endpoint]: [None] before the start, else the
    rule set in force, [None] when it has none. *)
Record Gateway := mkGateway {
  alloc : addrAllocator; rules : gmap string (list nat); endpoint : option (option (list nat)) }.

Definition Net : Type := list Rule * Gateway.

Definition at_ids (heap : list Rule) (ids : list nat) : list Rule := omap (fun i => heap !! i) ids.

(** The insertion sort of [sortStrings]: the sorted part, last element first. *)
Fixpoint sink (x : string) (sorted : list string) : list string :=
  match sorted with
  | [] => [x]
  | y :: sorted => if bool_decide (string_le y x) then x :: y :: sorted else y :: sink x sorted
  end.
Definition sortStrings (l : list string) : list string := reverse (foldl (fun acc x => sink x acc) [] l).

Definition published (gw : Gateway) : list nat :=
  k ← sortStrings (map_to_list (rules gw)).*1; default [] (rules gw !! k).

Definition republish (st : Net) : Net :=
  let '(heap, gw) := st in
  let all := published gw in
  match endpoint gw with
  | None => st
  | Some _ =>
      if (length all =? 0)%nat then (heap, mkGateway (alloc gw) (rules gw) (Some None))
      else match validate_all 0 (at_ids heap all) with
           | Ok _ => (heap, mkGateway (alloc gw) (rules gw) (Some (Some all)))
           | Err _ => st
           end
  end.

(** The rule of a route: its destination port, unless one is asked for, and its address. *)
Definition scope (ga : GatewayAddr) (r : Rule) : Rule :=
  let m := RMatch r in
  mkRule (RAction r)
    (mkMatch (MDir m) (MProto m) (FlagsSet m) (FlagsClear m) (if MPort m =? 0 then u16 (Port ga) else MPort m) (IP ga) (MLen m) (MLenGT m) (MLenLT m)
       (PayloadPrefix m) (PayloadContains m) (Where m))
    (RLabel r) (RDelay r) (ReorderBy r) (DuplicateCount r) (CorruptOffset r) (CorruptLength r) (CorruptMode r) (Checksum r)
    (WindowSize r) (RTrigger r) (RTriggerN r) (RProbability r) (RMaxFires r) (RMode r) (rcounter r) (rprobCounter r) (rfired r).

Definition scope_all (ga : GatewayAddr) (ids : list nat) (heap : list Rule) : list Rule := foldl (fun h i => alter (scope ga) i h) heap ids.

Definition InstallRules (consumer service iface : string) (ids : list nat) (st : Net) : result error unit * Net :=
  let '(heap, gw) := st in
  match validate_all 0 (at_ids heap ids) with
  | Err (i, e) => (Err (BadRule i e), st)
  | Ok _ =>
      let install heap := (Ok tt, republish (heap, mkGateway (alloc gw) (<[triple consumer service iface := ids]> (rules gw)) (endpoint gw))) in
      if String.eqb consumer "" then install heap
      else match lookup consumer service iface (alloc gw) with
           | None => (Err (NoAddress consumer service iface), st)
           | Some ga => install (scope_all ga ids heap)
           end
  end.

Definition ClearRules (consumer service iface : string) (st : Net) : Net :=
  let '(heap, gw) := st in republish (heap, mkGateway (alloc gw) (delete (triple consumer service iface) (rules gw)) (endpoint gw)).

Definition NewGateway (subnet : string) : result error Gateway :=
  let? a := newAddrAllocator (if String.eqb subnet "" then DefaultSubnet else subnet) in Ok (mkGateway a ∅ None).

Definition Start (gw : Gateway) : Gateway := mkGateway (alloc gw) (rules gw) (Some None).

Definition Allocate (c s i : string) (port : Z) (up : string) (gw : Gateway) : result error GatewayAddr * Gateway :=
  let '(r, a) := allocate c s i port up (alloc gw) in (r, mkGateway a (rules gw) (endpoint gw)).

Definition Lookup (c s i : string) (gw : Gateway) : option GatewayAddr := lookup c s i (alloc gw).

(** The rule that acts on a packet, and the random source after the walk: the endpoint walks the rules
    it was given in order, drawing for those with a probability; [decider] and [has_rnd] are as in
    [decide_from]. *)
Definition acting {G} `{!RandSource G} (decider : option (Rule -> Z -> bool * bool)) (has_rnd : bool) (st : Net) (p : PacketView) (g : G) : option nat * G :=
  match endpoint st.2 with
  | Some (Some ids) =>
      let '(w, _, g, _) := decide_from decider has_rnd (at_ids st.1 ids) p g 0 in (w ≫= fun j => ids !! j, g)
  | _ => (None, g)
  end.

End Gateway.

(** ** The scope of a rule *)
Module Scopes.
Import Alloc Gateway.

(** *** Sorting *)

Lemma sink_perm x l : sink x l ≡ₚ x :: l.
Proof. induction l as [|y l IH]; [done|]. cbn. case_bool_decide; [done|]. rewrite IH. constructor. Qed.

#[export] Instance string_le_total : Total string_le.
Proof. intros a b. apply String.leb_total. Qed.
#[export] Instance string_le_antisymm : AntiSymm (=) string_le.
Proof. intros a b. apply String.leb_antisym. Qed.
#[export] Instance string_le_trans : Transitive string_le.
Proof.
  intros a b c. unfold string_le, String.leb. change String.compare with String_as_OT.compare.
  destruct (String_as_OT.compare_spec a b) as [->|H1|]; [done| |done].
  destruct (String_as_OT.compare_spec b c) as [->|H2|]; [|intros _ _|done].
  - intros _ _. by rewrite H1.
  - pose proof (transitivity H1 H2 : String_as_OT.lt a c) as H. by rewrite H.
Qed.

Lemma sink_sorted x l : StronglySorted (flip string_le) l -> StronglySorted (flip string_le) (sink x l).
Proof.
  induction 1 as [|y l Hl IH Hy]; cbn; [repeat constructor|]. case_bool_decide as E.
  - constructor; [by constructor|]. constructor; [done|]. eapply Forall_impl; [exact Hy|]. cbn. intros z Hz. by transitivity y.
  - constructor; [done|]. rewrite sink_perm. constructor; [|done]. cbn. destruct (string_le_total x y); done.
Qed.

Lemma reverse_sorted {A} (R : A -> A -> Prop) l : StronglySorted (flip R) l -> StronglySorted R (reverse l).
Proof.
  induction 1 as [|x l Hl IH Hx]; [constructor|]. rewrite reverse_cons. apply StronglySorted_app. split_and!; [|done|repeat constructor].
  intros a b Ha Hb. apply list_elem_of_singleton in Hb as ->. rewrite elem_of_reverse in Ha. rewrite Forall_forall in Hx. exact (Hx a Ha).
Qed.

(** It sorts. *)
Lemma sortStrings_sort l : sortStrings l = sort_strings l.
Proof.
  assert (H : forall acc, StronglySorted (flip string_le) acc ->
    StronglySorted (flip string_le) (foldl (fun acc x => sink x acc) acc l) /\ foldl (fun acc x => sink x acc) acc l ≡ₚ l ++ acc).
  { induction l as [|x l IH]; intros acc Ha; cbn; [done|]. destruct (IH (sink x acc)) as [I1 I2]; [by apply sink_sorted|].
    split; [done|]. rewrite I2, sink_perm. by rewrite Permutation_middle. }
  destruct (H [] ltac:(constructor)) as [H1 H2]. unfold sortStrings, sort_strings. apply (StronglySorted_unique string_le).
  - by apply reverse_sorted.
  - apply StronglySorted_merge_sort; apply _.
  - rewrite reverse_Permutation, H2, merge_sort_Permutation. by rewrite app_nil_r.
Qed.

(** *** Publication *)

Lemma filter_sorted {A} (R : A -> A -> Prop) (P : A -> Prop) `{!forall x, Decision (P x)} l : StronglySorted R l -> StronglySorted R (filter P l).
Proof.
  induction 1 as [|x l Hl IH Hx]; [constructor|]. destruct (decide (P x)); [rewrite filter_cons_True by done|by rewrite filter_cons_False by done].
  constructor; [done|]. apply Forall_forall. intros y [_ Hy]%list_elem_of_filter. rewrite Forall_forall in Hx. by apply Hx.
Qed.

Lemma filter_whole {A} (P : A -> Prop) `{!forall x, Decision (P x)} l : Forall P l -> filter P l = l.
Proof. induction 1 as [|x l Hx _ IH]; [done|]. rewrite filter_cons_True by done. by rewrite IH. Qed.

(** The keys but one, in order. *)
Lemma keys_but (m : gmap string (list nat)) k v : m !! k = None ->
  filter (fun x => x <> k) (sortStrings (map_to_list (<[k := v]> m)).*1) = sortStrings (map_to_list m).*1.
Proof.
  intros Hk. rewrite !sortStrings_sort. unfold sort_strings. apply (StronglySorted_unique string_le).
  - apply filter_sorted, StronglySorted_merge_sort; apply _.
  - apply StronglySorted_merge_sort; apply _.
  - rewrite !merge_sort_Permutation, map_to_list_insert by done. cbn [fmap list_fmap fst]. rewrite filter_cons_False by (intros ?; done).
    rewrite filter_whole; [done|]. apply Forall_forall. intros x ([k' w] & E & H%elem_of_map_to_list)%list_elem_of_fmap E'. cbn in E. congruence.
Qed.

Definition acts_at (heap : list Rule) (p : PacketView) (i : nat) : bool := match heap !! i with Some r => acts r p | None => false end.

Definition installed (heap : list Rule) (i : nat) : Prop := exists r, heap !! i = Some r /\ Validate r = None.

(** A started gateway publishes what it holds, and what it holds is valid. *)
Record net_ok (st : Net) : Prop := {
  publishes : endpoint st.2 = Some (if (length (published st.2) =? 0)%nat then None else Some (published st.2));
  holds : forall k ids, rules st.2 !! k = Some ids -> Forall (installed st.1) ids }.

(** *** The walk over the rules in force *)
Section Walk.
Context {G : Type} `{!RandSource G} (decider : option (Rule -> Z -> bool * bool)) (has_rnd : bool).
Local Abbreviation acting := (acting decider has_rnd).

(** The same walk by the numbers of the rules. *)
Fixpoint walk (heap : list Rule) (p : PacketView) (ids : list nat) (g : G) : option nat * G :=
  match ids with
  | [] => (None, g)
  | i :: ids =>
      match heap !! i with
      | Some r => let '(fires, _, g) := turn decider has_rnd r p g in if fires then (Some i, g) else walk heap p ids g
      | None => walk heap p ids g
      end
  end.

Lemma walk_decide heap p ids : Forall (installed heap) ids -> forall g evals,
  let '(w, _, g', _) := decide_from decider has_rnd (at_ids heap ids) p g evals in (w ≫= fun j => ids !! j, g') = walk heap p ids g.
Proof.
  induction 1 as [|i ids (r & Hr & _) _ IH]; intros g evals; [done|]. cbn [walk at_ids omap list_omap]. rewrite Hr. rewrite decide_from_cons. cbv zeta.
  destruct (turn decider has_rnd r p g) as [[[] r'] g']; [done|]. specialize (IH g' (Matches (RMatch r) p evals).2). unfold at_ids in IH. cbn [omap] in IH.
  destruct (decide_from _ _ _ _ _ _) as [[[w rs] g2] ev]. rewrite <- IH. by destruct w.
Qed.

Lemma walk_app heap p l1 l2 g : walk heap p (l1 ++ l2) g =
  match walk heap p l1 g with (Some i, g) => (Some i, g) | (None, g) => walk heap p l2 g end.
Proof.
  revert g. induction l1 as [|i l1 IH]; intros g; [done|]. cbn. destruct (heap !! i) as [r|]; [|done].
  by destruct (turn decider has_rnd r p g) as [[[] r'] g'].
Qed.

Lemma walk_ext heap heap' p ids g : (forall i, i ∈ ids -> heap' !! i = heap !! i) -> walk heap' p ids g = walk heap p ids g.
Proof.
  revert g. induction ids as [|i ids IH]; intros g H; [done|]. cbn. rewrite H by (by left). destruct (heap !! i) as [r|].
  - destruct (turn decider has_rnd r p g) as [[[] r'] g']; [done|]. apply IH. intros j Hj. apply H. by right.
  - apply IH. intros j Hj. apply H. by right.
Qed.

(** Rules without a probability draw nothing: the first that acts. *)
Definition certain_at (heap : list Rule) (i : nat) : Prop := exists r, heap !! i = Some r /\ certain r = true.

Lemma walk_certain heap p ids g : Forall (certain_at heap) ids -> walk heap p ids g = (List.find (acts_at heap p) ids, g).
Proof.
  induction 1 as [|i ids (r & Hr & Hc) _ IH]; [done|]. cbn. unfold acts_at at 1. rewrite Hr.
  destruct (turn_certain decider has_rnd r p g Hc) as [r' ->]. by destruct (acts r p).
Qed.

Lemma walk_bind_skip {K} `{EqDecision K} heap p (f : K -> list nat) k0 l : (forall g, walk heap p (f k0) g = (None, g)) ->
  forall g, walk heap p (l ≫= f) g = walk heap p (filter (fun k => k <> k0) l ≫= f) g.
Proof.
  intros H. induction l as [|k l IH]; intros g; [done|]. cbn [mbind list_bind]. rewrite walk_app. destruct (decide (k = k0)) as [->|Hne].
  - rewrite H. rewrite filter_cons_False by (intros ?; done). apply IH.
  - rewrite filter_cons_True by done. cbn [mbind list_bind]. rewrite walk_app. destruct (walk heap p (f k) g) as [[]]; [done|apply IH].
Qed.

Lemma walk_bind_only {K} `{EqDecision K} heap p (f : K -> list nat) k0 l w : (forall g, walk heap p (f k0) g = (w, g)) -> k0 ∈ l ->
  forall g, (walk heap p (filter (fun k => k <> k0) l ≫= f) g).1 = None -> (walk heap p (l ≫= f) g).1 = w.
Proof.
  intros H Hin g Hn. destruct w as [x|]; [|by rewrite (walk_bind_skip heap p f k0 l H g)].
  revert g Hn. induction l as [|k l IH]; intros g Hn; [by apply elem_of_nil in Hin|]. cbn [mbind list_bind]. rewrite walk_app.
  destruct (decide (k = k0)) as [->|Hne]; [by rewrite H|]. rewrite filter_cons_True in Hn by done. cbn [mbind list_bind] in Hn. rewrite walk_app in Hn.
  destruct (walk heap p (f k) g) as [[]]; [done|]. apply IH; [|done]. apply elem_of_cons in Hin as [?|?]; [congruence|done].
Qed.

Lemma published_installed st : net_ok st -> Forall (installed st.1) (published st.2).
Proof.
  intros Hok. apply Forall_forall. unfold published. intros i (k & Hi & _)%list_elem_of_bind.
  destruct (rules st.2 !! k) as [ids|] eqn:E; [|by apply elem_of_nil in Hi]. pose proof (holds _ Hok k ids E) as F. rewrite Forall_forall in F. by apply F.
Qed.

Lemma acting_published st p g : net_ok st -> acting st p g = walk st.1 p (published st.2) g.
Proof.
  intros Hok. pose proof (published_installed _ Hok) as Hi. unfold Gateway.acting. rewrite (publishes _ Hok).
  destruct (published st.2) as [|i ids] eqn:E; [done|]. cbn [length Nat.eqb].
  pose proof (walk_decide st.1 p (i :: ids) Hi g 0) as H. by destruct (decide_from _ _ _ _ _ _) as [[[w rs] g2] ev].
Qed.

End Walk.

Lemma validate_installed heap ids : Forall (installed heap) ids -> validate_all 0 (at_ids heap ids) = Ok tt.
Proof. intros H. generalize 0. induction H as [|i ids (r & Hr & Hv) _ IH]; intros n; [done|]. cbn. rewrite Hr. cbn. by rewrite Hv. Qed.

Lemma published_in gw i : i ∈ published gw <-> exists k ids, rules gw !! k = Some ids /\ i ∈ ids.
Proof.
  unfold published. rewrite list_elem_of_bind, sortStrings_sort. unfold sort_strings. split.
  - intros (k & Hi & _). destruct (rules gw !! k) as [ids|] eqn:E; [by exists k, ids|by apply elem_of_nil in Hi].
  - intros (k & ids & Hk & Hi). exists k. rewrite Hk. split; [done|]. rewrite merge_sort_Permutation. apply list_elem_of_fmap. exists (k, ids).
    split; [done|]. by apply elem_of_map_to_list.
Qed.

Lemma republish_ok heap gw : endpoint gw <> None -> (forall k ids, rules gw !! k = Some ids -> Forall (installed heap) ids) ->
  net_ok (republish (heap, gw)) /\ (republish (heap, gw)).1 = heap /\ rules (republish (heap, gw)).2 = rules gw /\ alloc (republish (heap, gw)).2 = alloc gw.
Proof.
  intros He Hh. unfold republish. destruct (endpoint gw) as [e|]; [|done]. assert (Hv : validate_all 0 (at_ids heap (published gw)) = Ok tt).
  { apply validate_installed, Forall_forall. intros i (k & ids & Hk & Hi)%published_in. specialize (Hh k ids Hk). rewrite Forall_forall in Hh. by apply Hh. }
  rewrite Hv. destruct (length (published gw) =? 0)%nat eqn:E; (split; [split; cbn|by split_and!]); try exact Hh.
  - unfold published in *. cbn [rules]. by rewrite E.
  - unfold published in *. cbn [rules]. by rewrite E.
Qed.

(** *** Scoping *)

Lemma scope_all_other ga ids heap i : i ∉ ids -> scope_all ga ids heap !! i = heap !! i.
Proof.
  unfold scope_all. revert heap. induction ids as [|j ids IH]; intros heap Hi; [done|]. cbn. apply not_elem_of_cons in Hi as [Hij Hi].
  rewrite IH by done. by rewrite list_lookup_alter_ne by done.
Qed.

Lemma scope_all_at ga ids heap i r : NoDup ids -> i ∈ ids -> heap !! i = Some r -> scope_all ga ids heap !! i = Some (scope ga r).
Proof.
  revert heap. induction ids as [|j ids IH]; intros heap Hd Hi Hr; [by apply elem_of_nil in Hi|].
  change (scope_all ga (j :: ids) heap) with (scope_all ga ids (alter (scope ga) j heap)).
  apply NoDup_cons in Hd as [Hj Hd]. destruct (decide (i = j)) as [->|Hne].
  - rewrite (scope_all_other ga ids) by done. by rewrite list_lookup_alter_eq, Hr.
  - apply IH; [done|by apply elem_of_cons in Hi as [?|?]|]. by rewrite list_lookup_alter_ne.
Qed.

Lemma scope_valid ga r : Validate (scope ga r) = Validate r.
Proof. done. Qed.

Lemma scope_private ga r p : DstIP p <> IP ga -> IP ga <> "" -> acts (scope ga r) p = false.
Proof.
  intros H Hne. unfold acts, matches, matchesDeclarative. cbn [RMatch scope MDir MProto FlagsSet FlagsClear MPort MDstIP MLen MLenGT MLenLT PayloadPrefix PayloadContains Where].
  rewrite (proj2 (String.eqb_neq _ _) Hne), (proj2 (String.eqb_neq _ _) H). cbn [orb]. rewrite !andb_false_r. done.
Qed.

Lemma bind_ext_in {A B} (f g : A -> list B) l : (forall x, x ∈ l -> f x = g x) -> l ≫= f = l ≫= g.
Proof.
  induction l as [|x l IH]; intros H; [done|]. cbn [mbind list_bind]. rewrite H by (by left). f_equal. apply IH. intros y Hy. apply H. by right.
Qed.

Section Install.
Context {G : Type} `{!RandSource G} (decider : option (Rule -> Z -> bool * bool)) (has_rnd : bool).
Local Abbreviation acting := (acting (G := G) decider has_rnd).

(** Rules without a probability added under a new key change the decision on what they act on only,
    and act on it where no rule did. *)
Lemma publish_new heap heap' gw k ids : net_ok (heap, gw) -> rules gw !! k = None ->
  (forall i, i ∈ published gw -> heap' !! i = heap !! i) -> Forall (installed heap') ids -> Forall (certain_at heap') ids ->
  let st' := republish (heap', mkGateway (alloc gw) (<[k := ids]> (rules gw)) (endpoint gw)) in
  net_ok st' /\ st'.1 = heap' /\ rules st'.2 = <[k := ids]> (rules gw) /\ alloc st'.2 = alloc gw /\
  forall p g, (List.find (acts_at heap' p) ids = None -> acting st' p g = acting (heap, gw) p g) /\
              ((acting (heap, gw) p g).1 = None -> (acting st' p g).1 = List.find (acts_at heap' p) ids).
Proof.
  intros Hok Hk Hh Hi Hce. cbv zeta. destruct (republish_ok heap' (mkGateway (alloc gw) (<[k := ids]> (rules gw)) (endpoint gw))) as (N & E1 & E2 & E3).
  { pose proof (publishes _ Hok) as P. cbn in P |- *. by rewrite P. }
  { cbn [rules]. intros k' ids'. rewrite lookup_insert_Some. intros [[<- <-]|[_ Hk']]; [done|]. apply Forall_forall. intros i Hin.
    assert (P : i ∈ published gw) by (apply published_in; by exists k', ids'). pose proof (holds _ Hok k' ids' Hk') as F. rewrite Forall_forall in F.
    destruct (F i Hin) as (r & Hr & Hv). exists r. by rewrite Hh. }
  set (st' := republish _) in *. clearbody st'. split_and!; [done..|]. intros p g0. rewrite !acting_published by done. cbn [fst snd].
  rewrite <- (walk_ext decider has_rnd heap heap' p (published gw) g0 Hh).
  rewrite E1. cbn [rules] in E2. set (g := fun x => default [] (<[k := ids]> (rules gw) !! x)).
  assert (published st'.2 = sortStrings (map_to_list (<[k := ids]> (rules gw))).*1 ≫= g) as -> by (unfold published, g; by rewrite E2).
  assert (Ek : forall g1, walk decider has_rnd heap' p (g k) g1 = (List.find (acts_at heap' p) ids, g1))
    by (intros g1; unfold g; rewrite lookup_insert_eq; by apply walk_certain).
  assert (Es : filter (fun x => x <> k) (sortStrings (map_to_list (<[k := ids]> (rules gw))).*1) ≫= g = published gw).
  { rewrite keys_but by done. unfold published. apply bind_ext_in. intros x Hx. unfold g. rewrite lookup_insert_ne; [done|]. intros <-.
    rewrite sortStrings_sort in Hx. unfold sort_strings in Hx. rewrite merge_sort_Permutation in Hx.
    apply list_elem_of_fmap in Hx as ([k' w] & -> & Hx%elem_of_map_to_list). cbn in Hk. congruence. }
  split.
  - intros Hn. rewrite (walk_bind_skip decider has_rnd heap' p g k) by (intros g1; by rewrite Ek, Hn). by rewrite Es.
  - intros Hn. apply (walk_bind_only decider has_rnd heap' p g k); [done| |by rewrite Es]. rewrite sortStrings_sort. unfold sort_strings.
    rewrite merge_sort_Permutation. apply list_elem_of_fmap. exists (k, ids). split; [done|]. apply elem_of_map_to_list. by rewrite lookup_insert_eq.
Qed.

Lemma dotted_nonempty a b c d : dotted a b c d <> "".
Proof. unfold dotted. destruct (show_Z a); discriminate. Qed.

(** The rules to install: new objects, valid. *)
Record fresh_rules (heap : list Rule) (gw : Gateway) (ids : list nat) : Prop := {
  fresh_distinct : NoDup ids;
  fresh_valid : Forall (installed heap) ids;
  fresh_certain : Forall (certain_at heap) ids;
  fresh_new : forall i, i ∈ ids -> i ∉ published gw }.

Lemma scoped_installed ga ids heap : NoDup ids -> Forall (installed heap) ids -> Forall (installed (scope_all ga ids heap)) ids.
Proof.
  intros Hd H. apply Forall_forall. intros i Hi. rewrite Forall_forall in H. destruct (H i Hi) as (r & Hr & Hv). exists (scope ga r).
  split; [by apply scope_all_at|done].
Qed.

Lemma scoped_none ga ids heap p : NoDup ids -> Forall (installed heap) ids -> IP ga <> "" -> DstIP p <> IP ga ->
  List.find (acts_at (scope_all ga ids heap) p) ids = None.
Proof.
  intros Hd H Hne Hp. destruct (List.find _ ids) as [i|] eqn:E; [|done]. apply find_some in E as [Hi%list_elem_of_In Ha].
  rewrite Forall_forall in H. destruct (H i Hi) as (r & Hr & _). unfold acts_at in Ha. rewrite (scope_all_at ga ids heap i r) in Ha by done.
  by rewrite scope_private in Ha.
Qed.

(** The state after an installation on a route. *)
Record scoped_install (ga : GatewayAddr) (c s i : string) (ids : list nat) (st st' : Net) : Prop := {
  si_ok : net_ok st';
  si_heap : st'.1 = scope_all ga ids st.1;
  si_rules : rules st'.2 = <[triple c s i := ids]> (rules st.2);
  si_alloc : alloc st'.2 = alloc st.2;
  si_others : forall p g, DstIP p <> IP ga -> acting st' p g = acting st p g;
  si_acts : forall p g, (acting st p g).1 = None -> (acting st' p g).1 = List.find (acts_at (scope_all ga ids st.1) p) ids }.

Lemma install_scopes c s i ids st ga : net_ok st -> Routes.routes_ok (alloc st.2) -> fresh_rules st.1 st.2 ids ->
  rules st.2 !! triple c s i = None -> c <> "" -> Lookup c s i st.2 = Some ga ->
  exists st', InstallRules c s i ids st = (Ok tt, st') /\ scoped_install ga c s i ids st st'.
Proof.
  destruct st as [heap gw]. cbn [fst snd]. intros Hok Hr [Hd Hv Hce Hn] Hk Hc Hl. unfold InstallRules. rewrite validate_installed by done.
  rewrite (proj2 (String.eqb_neq _ _) Hc). unfold Lookup in Hl. rewrite Hl.
  destruct (publish_new heap (scope_all ga ids heap) gw (triple c s i) ids Hok Hk) as (N & E1 & E2 & E3 & Ha).
  { intros j Hj. apply scope_all_other. intros Hi. by apply (Hn j Hi). }
  { by apply scoped_installed. }
  { apply Forall_forall. intros j Hj. rewrite Forall_forall in Hce. destruct (Hce j Hj) as (r & Hr' & Hcr). exists (scope ga r). split; [by apply scope_all_at|done]. }
  eexists. split; [reflexivity|]. split; [done..| |]; cbn [fst]; intros p g Hp; [|by apply Ha].
  apply Ha. apply scoped_none; [done..| |done]. destruct (Routes.entry_ok _ Hr _ _ Hl) as (_ & n & _ & ->). apply dotted_nonempty.
Qed.

Lemma clear_ok c s i st : net_ok st ->
  net_ok (ClearRules c s i st) /\ (ClearRules c s i st).1 = st.1 /\
  rules (ClearRules c s i st).2 = delete (triple c s i) (rules st.2) /\ alloc (ClearRules c s i st).2 = alloc st.2.
Proof.
  destruct st as [heap gw]. intros Hok. unfold ClearRules.
  destruct (republish_ok heap (mkGateway (alloc gw) (delete (triple c s i) (rules gw)) (endpoint gw))) as (N & E1 & E2 & E3); [| |done].
  - pose proof (publishes _ Hok) as P. cbn in P |- *. by rewrite P.
  - cbn. intros k ids [_ Hk]%lookup_delete_Some. by apply (holds _ Hok k).
Qed.

(** A new object does not change what is in force. *)
Lemma grow_ok heap gw r : net_ok (heap, gw) -> net_ok (heap ++ [r], gw) /\ forall p g, acting (heap ++ [r], gw) p g = acting (heap, gw) p g.
Proof.
  intros Hok. assert (Hin : forall i, installed heap i -> (heap ++ [r]) !! i = heap !! i).
  { intros i (x & Hx & _). by rewrite lookup_app_l by (eapply lookup_lt_Some; exact Hx). }
  assert (N : net_ok (heap ++ [r], gw)).
  { split; [apply (publishes _ Hok)|]. cbn. intros k ids Hk. eapply Forall_impl; [exact (holds _ Hok k ids Hk)|]. cbn. intros i Hi.
    pose proof (Hin i Hi) as E. destruct Hi as (x & Hx & Hv). exists x. by rewrite E. }
  split; [done|]. intros p g. rewrite !acting_published by done. cbn. apply walk_ext. intros i Hi. apply Hin.
  pose proof (published_installed _ Hok) as F. rewrite Forall_forall in F. by apply F.
Qed.

End Install.

End Scopes.
