(* ===== verification/Inject.v ===== *)
(** * Injecting faults into running services ([internal/star/runtime.go], [builtins.go])

    The part of the runtime that a test body acts on: the sessions of the running services,
    the proxies, the event log with its monitors, and the faults in force.  [applyFaults] and
    [removeFaults], the builtins [fault], [fault_all], [fault_start] and [fault_stop], and the
    runner of a fault scenario are modelled over the sessions of [Session], the proxies of
    [ProxyManager], the packet gateway of [Gateway], the log of [EventLog] and the subscriptions of
    [Trace].  A Starlark function is a parameter: any change of this state with a result. *)

From Stdlib Require Import ZArith Lia Ascii SpecFloat.
From S2P Require Import Prelude GoStd GoText Seccomp FaultRule Session Leaf EventLog Trace ProxyCore ProxyManager Registry FaultBuiltins NetRule PacketFault Gateway.
From stdpp Require Import base gmap sets strings sorting numbers list.
Local Open Scope Z_scope.
Import GoStd GoText FaultRule Effect Registry.Spec.
Local Open Scope effect_scope.

Module Runtime.

Abbreviation Event := EventLog.Event.
Abbreviation Session := Session.Session.
Abbreviation Manager := Manager.Manager.

Inductive failure :=
  | Args (e : Spec.error)
  | Remote (svc : string) (keys : list string)
  | NotRunning (svc : string)
  | NotFilterable (svc : string) (missing covered : list string)
  | ProxyStart (svc iface : string) (e : Manager.error)
  | ProxyDisabled (svc iface : string)
  | InScenario (name : string) (e : failure)
  | Raised (text : string)
  | Violation (text : string)
  | NeedsGateway (what runtime : string)
  | BadSource (source svc iface : string)
  | CompileFailed (action : string) (e : PacketFaults.CompileErr)
  | InstallFailed (svc iface : string) (e : Alloc.error)
  | AttachFailed (e : string)
  | Panic.

(** ** The packet gateway's side of the runtime *)

(** What undoes an installation: the route, the rules and the definitions they came from. *)
Record PacketWindow := mkWindow {
  pw_consumer : string; pw_service : string; pw_iface : string; pw_ids : list nat; pw_defs : list PacketFaultDef }.

Inductive partitionDirection := partitionBoth | partitionAtoB | partitionBtoA.

Record activePartition := mkPartition { ap_a : string; ap_b : string; ap_dir : partitionDirection; ap_cleanups : list PacketWindow }.

(** The rules are shared objects by number; the gateway is the one attached, if any. *)
Record Packets := mkPackets {
  detRuntime : string; heap : list Rule.Rule; gateway : option Gateway.Gateway; installs : gmap string (list nat);
  unwired : Z; whereErr : option string; whereErrCount : Z; partitions : gmap string activePartition; served : gset string }.

Definition set_heap h (ps : Packets) := mkPackets (detRuntime ps) h (gateway ps) (installs ps) (unwired ps) (whereErr ps) (whereErrCount ps) (partitions ps) (served ps).
Definition set_net (st : list Rule.Rule * option Gateway.Gateway) (ps : Packets) :=
  mkPackets (detRuntime ps) st.1 st.2 (installs ps) (unwired ps) (whereErr ps) (whereErrCount ps) (partitions ps) (served ps).
Definition set_installs m u (ps : Packets) := mkPackets (detRuntime ps) (heap ps) (gateway ps) m u (whereErr ps) (whereErrCount ps) (partitions ps) (served ps).
Definition set_partitions m (ps : Packets) := mkPackets (detRuntime ps) (heap ps) (gateway ps) (installs ps) (unwired ps) (whereErr ps) (whereErrCount ps) m (served ps).
Definition set_served m (ps : Packets) := mkPackets (detRuntime ps) (heap ps) (gateway ps) (installs ps) (unwired ps) (whereErr ps) (whereErrCount ps)
  (partitions ps) m.

(** The first failure of a predicate is kept, and all are counted. *)
Definition recordWhereError (e : string) (ps : Packets) :=
  mkPackets (detRuntime ps) (heap ps) (gateway ps) (installs ps) (unwired ps)
    (match whereErr ps with Some e' => Some e' | None => Some e end) (i64 (whereErrCount ps + 1)) (partitions ps) (served ps).

(** The verb [%q] on a text without characters to escape. *)
Definition quoted (s : string) : string := String "034" s +:+ String "034" "".

Section Monitors.
(** The Starlark values a monitor threads through its calls. *)
Context {V : Type}.

Record MonitorDef := mkMonitor {
  m_name : string; m_on : option (Event -> bool); m_init : V;
  m_update : option (Event -> V -> result string V); m_check : option (Event -> V -> result string bool) }.

(** The update, the check, and the error of the first that fails. *)
Definition monitor_step (m : MonitorDef) (ev : Event) (st : V) : result string V :=
  if match m_on m with Some on => negb (on ev) | None => false end then Ok st
  else
    let? st' := match m_update m with
                | None => Ok st
                | Some f => match f ev st with Ok s => Ok s | Err e => Err ("monitor " +:+ quoted (m_name m) +:+ " update raised: " +:+ e) end
                end in
    let? ok := match m_check m with
               | None => Ok true
               | Some f => match f ev st' with Ok b => Ok b | Err e => Err ("monitor " +:+ quoted (m_name m) +:+ " check raised: " +:+ e) end
               end in
    if ok : bool then Ok st'
    else Err ("monitor " +:+ quoted (m_name m) +:+ " violated at event seq=" +:+ show_Z (EventLog.Seq ev) +:+
              " type=" +:+ quoted (EventLog.Type_ ev) +:+ " service=" +:+ quoted (EventLog.Service ev)).

(** A [None] session: a mock, or a service started without interception. [cells] holds the state of the
    monitors by subscription. *)
Record RT := mkRT {
  services : gmap string ServiceDef;
  faults : gmap string (gmap string FaultDef);
  sessions : gmap string (option Session);
  probFaults : list Leaf.ProbFaultSite;
  proxyMgr : Manager;
  log : EventLog.EventLog;
  subs : Subscribers.State;
  cells : gmap Z V;
  monitorErrors : list string;
  currentFaultScenario : option string;
  requireFaultsFire : bool;
  expectationName : string;
  expectationViolated : bool;
  packets : Packets }.

Definition set_faults v rt := mkRT (services rt) v (sessions rt) (probFaults rt) (proxyMgr rt) (log rt) (subs rt) (cells rt)
  (monitorErrors rt) (currentFaultScenario rt) (requireFaultsFire rt) (expectationName rt) (expectationViolated rt) (packets rt).
Definition set_sessions v rt := mkRT (services rt) (faults rt) v (probFaults rt) (proxyMgr rt) (log rt) (subs rt) (cells rt)
  (monitorErrors rt) (currentFaultScenario rt) (requireFaultsFire rt) (expectationName rt) (expectationViolated rt) (packets rt).
Definition set_probFaults v rt := mkRT (services rt) (faults rt) (sessions rt) v (proxyMgr rt) (log rt) (subs rt) (cells rt)
  (monitorErrors rt) (currentFaultScenario rt) (requireFaultsFire rt) (expectationName rt) (expectationViolated rt) (packets rt).
Definition set_proxyMgr v rt := mkRT (services rt) (faults rt) (sessions rt) (probFaults rt) v (log rt) (subs rt) (cells rt)
  (monitorErrors rt) (currentFaultScenario rt) (requireFaultsFire rt) (expectationName rt) (expectationViolated rt) (packets rt).
Definition set_log v rt := mkRT (services rt) (faults rt) (sessions rt) (probFaults rt) (proxyMgr rt) v (subs rt) (cells rt)
  (monitorErrors rt) (currentFaultScenario rt) (requireFaultsFire rt) (expectationName rt) (expectationViolated rt) (packets rt).
Definition set_subs v rt := mkRT (services rt) (faults rt) (sessions rt) (probFaults rt) (proxyMgr rt) (log rt) v (cells rt)
  (monitorErrors rt) (currentFaultScenario rt) (requireFaultsFire rt) (expectationName rt) (expectationViolated rt) (packets rt).
Definition set_cells v rt := mkRT (services rt) (faults rt) (sessions rt) (probFaults rt) (proxyMgr rt) (log rt) (subs rt) v
  (monitorErrors rt) (currentFaultScenario rt) (requireFaultsFire rt) (expectationName rt) (expectationViolated rt) (packets rt).
Definition recordMonitorError e rt := mkRT (services rt) (faults rt) (sessions rt) (probFaults rt) (proxyMgr rt) (log rt) (subs rt) (cells rt)
  (monitorErrors rt ++ [e]) (currentFaultScenario rt) (requireFaultsFire rt) (expectationName rt) (expectationViolated rt) (packets rt).
Definition set_current v rt := mkRT (services rt) (faults rt) (sessions rt) (probFaults rt) (proxyMgr rt) (log rt) (subs rt) (cells rt)
  (monitorErrors rt) v (requireFaultsFire rt) (expectationName rt) (expectationViolated rt) (packets rt).
Definition set_require v rt := mkRT (services rt) (faults rt) (sessions rt) (probFaults rt) (proxyMgr rt) (log rt) (subs rt) (cells rt)
  (monitorErrors rt) (currentFaultScenario rt) v (expectationName rt) (expectationViolated rt) (packets rt).
Definition set_expectation name violated rt := mkRT (services rt) (faults rt) (sessions rt) (probFaults rt) (proxyMgr rt) (log rt) (subs rt)
  (cells rt) (monitorErrors rt) (currentFaultScenario rt) (requireFaultsFire rt) name violated (packets rt).

Definition set_packets v rt := mkRT (services rt) (faults rt) (sessions rt) (probFaults rt) (proxyMgr rt) (log rt) (subs rt) (cells rt)
  (monitorErrors rt) (currentFaultScenario rt) (requireFaultsFire rt) (expectationName rt) (expectationViolated rt) v.

End Monitors.
Arguments MonitorDef : clear implicits.
Arguments RT : clear implicits.

Section Operations.
Context {V : Type}.
(** The monitors by number, the time at each event, the answer of a proxy's listener, what calling a
    Starlark function does, and the order in which Go visits a map. *)
Context (monitor : nat -> MonitorDef V) (now : nat -> Z) (start : Manager -> string -> string -> result string string).
Context (call : Callable -> list value -> RT V -> result string value * RT V).
Context (iter : forall A, gmap string A -> list (string * A)).
(** Whether the gateway can be attached, with the name of its device, and what calling a predicate on
    a packet gives. *)
Context (attach : RT V -> result string string) (ask : PacketFaults.Caller).

Definition M : Type -> Type := SE (RT V) failure.

(** ** Events and monitors *)

Definition notify (ev : Event) (rt : RT V) (sub : Z * nat) : RT V :=
  match cells rt !! sub.1 with
  | None => rt
  | Some st =>
      match monitor_step (monitor sub.2) ev st with
      | Ok st => set_cells (<[sub.1 := st]> (cells rt)) rt
      | Err e => recordMonitorError e rt
      end
  end.

Definition Emit (typ service : string) (fields : list (string * string)) (rt : RT V) : RT V :=
  let l := EventLog.emit typ service (list_to_map fields) (now (length (EventLog.events (log rt)))) (log rt) in
  let rt := set_log l rt in
  match last (EventLog.events l) with
  | Some ev => foldl (notify ev) rt (Subscribers.dispatch ev (subs rt))
  | None => rt
  end.

Definition RegisterMonitor (m : nat) (rt : RT V) : Z * RT V :=
  let '(id, s) := Subscribers.Subscribe [] m (subs rt) in
  (id, set_cells (<[id := m_init (monitor m)]> (cells rt)) (set_subs s rt)).

Definition UnregisterMonitor (id : Z) (rt : RT V) : RT V := set_subs (Subscribers.Unsubscribe id (subs rt)) rt.

(** ** Faults on a service *)

(** A fault that the exploration enumerates. *)
Definition enumerated (fd : FaultDef) : bool :=
  f64_lt (fd_prob fd) f64_1 && (0 <? fd_max fd) && negb (String.eqb (fd_mode fd) "stochastic").

Definition sites (svcName : string) (fs : gmap string FaultDef) : list Leaf.ProbFaultSite :=
  omap (fun sc => match fs !! sc with
    | Some fd => if enumerated fd then
        Some (Leaf.mkProb (if String.eqb (fd_label fd) "" then svcName +:+ ":" +:+ sc else fd_label fd) (fd_max fd) (fd_prob fd)) else None
    | None => None
    end) (sort_strings (map_to_list fs).*1).

(** The rule of one syscall; a fault that neither delays nor denies keeps the zero action. *)
Definition engine_rule (svcName keyword : string) (fd : FaultDef) (sc : string) : FaultRule :=
  let label := if enumerated fd && String.eqb (fd_label fd) "" then svcName +:+ ":" +:+ keyword else fd_label fd in
  let delays := String.eqb (fd_action fd) "delay" in
  let errno := if String.eqb (fd_action fd) "deny" then
                 match ParseFaultRule (sc +:+ "=" +:+ fd_errno fd +:+ ":100%") with Ok r => Errno r | Err _ => 0 end
               else 0 in
  FaultRule.mkRule sc (if delays then ActionDelay else ActionDeny) errno (if delays then fd_delay fd else 0) (fd_prob fd)
    (fd_path fd) TriggerAlways 0 "" label (fd_op fd) "" (fd_max fd) (fd_mode fd) None None.

Definition engine_rules (svcName : string) (fs : gmap string FaultDef) : list FaultRule :=
  '(keyword, fd) ← iter _ fs; engine_rule svcName keyword fd <$> expandSyscallFamily keyword.

Definition uncoveredSyscalls (s : Session) (rs : list FaultRule) : list string :=
  sort_strings (elements (list_to_set (C := gset string)
    (Syscall <$> List.filter (fun r => negb (String.eqb (Syscall r) "" || Session.FiltersSyscall (Session.FaultRules (Session.cfg s)) (Syscall r))) rs))).

(** The caller's slice is allocated in the session's store. *)
Definition install (rs : list FaultRule) (s : Session) : option Session :=
  Session.SetDynamicFaultRules (seq (length (Session.rules s)) (length rs)) (Some (Session.set_rules (Session.rules s ++ rs) s)).

Definition fault_summary (keyword : string) (fd : FaultDef) : string :=
  fd_action fd +:+ "(" +:+ fd_errno fd +:+ ") → filter:[" +:+ sjoin "," (expandSyscallFamily keyword) +:+ "]" +:+
  (if String.eqb (fd_label fd) "" then "" else " label=" +:+ quoted (fd_label fd)).

Definition applyFaults (svcName : string) (fs : gmap string FaultDef) : M unit := fun rt =>
  if (match services rt !! svcName with Some svc => IsRemote svc | None => false end) && negb (bool_decide (fs = ∅)) then
    (Err (Remote svcName (sort_strings (map_to_list fs).*1)), rt)
  else
    let rt := set_faults (<[svcName := fs]> (faults rt)) rt in
    let rt := set_probFaults (foldl (fun ps s => Leaf.recordProbFault s ps) (probFaults rt) (sites svcName fs)) rt in
    match sessions rt !! svcName with
    | None => (Err (NotRunning svcName), rt)
    | Some None =>
        (Ok tt, Emit "fault_applied" svcName [("note", "skipped (no seccomp session)")]
                  (Emit "fault_skipped_no_seccomp" svcName
                     [("reason", "mock-or-seccomp-disabled"); ("requested_rules", show_Z (Z.of_nat (size fs)))] rt))
    | Some (Some s) =>
        let rs := engine_rules svcName fs in
        let missing := uncoveredSyscalls s rs in
        if negb (length missing =? 0)%nat then
          (Err (NotFilterable svcName missing (Session.FilteredSyscalls (Session.FaultRules (Session.cfg s)))), rt)
        else
          let rt := set_sessions (<[svcName := install rs s]> (sessions rt)) rt in
          (Ok tt, Emit "fault_applied" svcName ((fun '(keyword, fd) => (keyword, fault_summary keyword fd)) <$> map_to_list fs) rt)
    end.

Definition zero_traffic (r : Session.DynamicRuleReport) : list (string * string) :=
  [("syscall", Session.RepSyscall r); ("action", Session.RepAction r)] ++
  (if String.eqb (Session.RepOp r) "" then [] else [("op", Session.RepOp r)]) ++
  (if String.eqb (Session.RepLabel r) "" then [] else [("label", Session.RepLabel r)]) ++
  (if String.eqb (Session.RepPathGlob r) "" then []
   else [("path", Session.RepPathGlob r)] ++
        (if 0 <? Session.RepUnresolvedPaths r then
           [("unresolved_paths", show_Z (Session.RepUnresolvedPaths r));
            ("hint", "path filter never matched, and " +:+ show_Z (Session.RepUnresolvedPaths r) +:+
              " syscall path(s) could not be resolved from /proc — the filter may be correct but unmatched")]
         else [("hint", "path filter never matched any resolved path; check the glob (use ** to cross directories, e.g. /data/**/*.wal)")])).

Definition removeFaults (svcName : string) (rt : RT V) : RT V :=
  let rt := set_faults (delete svcName (faults rt)) rt in
  let rt := match sessions rt !! svcName with
            | Some (Some s) =>
                let rt := foldl (fun rt r => if 0 <? Session.RepMatchCount r then rt else Emit "fault_zero_traffic" svcName (zero_traffic r) rt)
                            rt (Session.DynamicRuleActivity (Some s)) in
                set_sessions (<[svcName := Session.ClearDynamicFaultRules (Some s)]> (sessions rt)) rt
            | _ => rt
            end in
  Emit "fault_removed" svcName [] rt.

(** ** Faults on an interface *)

Definition RemoteHostFor (svc : ServiceDef) (iface : string) : string := default (sv_remote svc) (sv_remotes svc !! iface).

Definition remoteUpstreamAddr (svc : ServiceDef) (iface : InterfaceDef) : string :=
  let host := RemoteHostFor svc (if_name iface) in
  if String.eqb host "" then "127.0.0.1:0"
  else if contains ":" host then host else host +:+ ":" +:+ show_Z (if_port iface).

Definition proxyTargetAddr (svc : ServiceDef) (iface : InterfaceDef) : string :=
  let port := if 0 <? if_host_port iface then if_host_port iface else if_port iface in
  if IsRemote svc then remoteUpstreamAddr svc iface else "127.0.0.1:" +:+ show_Z port.

Definition ensure (svcName ifaceName proto addr : string) : M string := fun rt =>
  let '(r, m) := Manager.EnsureProxy svcName ifaceName proto addr (start (proxyMgr rt) svcName ifaceName) (proxyMgr rt) in
  (match r with Ok a => Ok a | Err e => Err (ProxyStart svcName ifaceName e) end, set_proxyMgr m rt).

(** The error of [AddRule] is dropped; an entry without a proxy makes it panic. *)
Definition add_rule (svcName ifaceName : string) (rule : Rules.Rule) : M unit := fun rt =>
  match Manager.AddRule svcName ifaceName rule (proxyMgr rt) with
  | Some (_, m) => (Ok tt, set_proxyMgr m rt)
  | None => (Err Panic, rt)
  end.

(** [disabled]: whether an interface without a proxy is refused. *)
Definition apply_proxy_rule (disabled : bool) (assumption : string) (applied : gset (string * string)) (pr : FaultAssumptionProxyRule)
    : M (gset (string * string)) :=
  let svc := ir_service (ap_target pr) in
  let iface := ir_interface (ap_target pr) in
  if disabled && if_proxy_disabled iface then fail (ProxyDisabled (sv_name svc) (if_name iface))
  else
    ensure (sv_name svc) (if_name iface) (if_protocol iface) (proxyTargetAddr svc iface) ;;
    add_rule (sv_name svc) (if_name iface) (Faults.proxyFaultToRule (ap_fault pr)) ;;
    modify (Emit "proxy_fault_applied" (sv_name svc)
      [("interface", if_name iface); ("protocol", if_protocol iface); ("assumption", assumption)]) ;;
    ret ({[(sv_name svc, if_name iface)]} ∪ applied).

Definition clear_rules (svcName ifaceName : string) (rt : RT V) : RT V :=
  match Manager.ClearRules svcName ifaceName (proxyMgr rt) with Some m => set_proxyMgr m rt | None => rt end.

Definition clear_proxies (fields : list (string * string)) (applied : gset (string * string)) (rt : RT V) : RT V :=
  foldl (fun rt k => Emit "proxy_fault_removed" k.1 (("interface", k.2) :: fields) (clear_rules k.1 k.2 rt)) rt (elements applied).

(** ** The builtins that run a body under faults *)

Definition body (f : Callable) (args : list value) : M value := fun rt =>
  let '(r, rt) := call f args rt in (match r with Ok v => Ok v | Err e => Err (Raised e) end, rt).

Definition faultableSyscalls : list string :=
  ["write"; "read"; "connect"; "openat"; "fsync"; "sendto"; "recvfrom"; "writev"; "readv"; "close";
   "pwrite64"; "pread64"; "fdatasync"; "sendmsg"; "recvmsg"].
Definition isFaultableSyscall (name : string) : bool := existsb (String.eqb name) faultableSyscalls.

Definition run_arg (who : string) (v : value) : result Spec.error Callable :=
  match v with VCallable f => Ok f | _ => Err (Msg (who +:+ "() run= must be a callable")) end.

Definition op_faults (key : string) (op : OpDef) (fd : FaultDef) (fs : gmap string FaultDef) : gmap string FaultDef :=
  foldl (fun fs sc => <[sc := op_fault key op fd]> fs) fs (op_syscalls op).

Definition fault_kwarg (svc : ServiceDef) (st : option Callable * gmap string FaultDef) (kv : string * value)
    : M (option Callable * gmap string FaultDef) :=
  let '(key, v) := kv in
  if String.eqb key "run" then match run_arg "fault" v with Ok f => ret (Some f, st.2) | Err e => fail (Args e) end
  else
    match sv_ops svc !! key, v with
    | Some op, VFault fd => ret (st.1, op_faults key op fd st.2)
    | None, VFault fd => if isFaultableSyscall key then ret (st.1, <[key := fd]> st.2) else fail (Args (Unexpected "fault" key))
    | None, _ =>
        if isFaultableSyscall key then fail (Args (got ("fault() " +:+ key +:+ "= must be a fault (delay/deny/allow)") v))
        else fail (Args (Unexpected "fault" key))
    | Some _, _ => fail (Args (got ("fault() " +:+ key +:+ "= must be a fault (delay/deny/allow)") v))
    end.

Definition no_run (who : string) : failure := Args (Msg (who +:+ "() requires run= keyword with a callback function")).

Definition fault_service (svc : ServiceDef) (kwargs : list (string * value)) : M value :=
  st ⇐ over (fault_kwarg svc) (None, ∅) kwargs;
  match st.1 with
  | None => fail (no_run "fault")
  | Some f => applyFaults (sv_name svc) st.2 ;; deferring (removeFaults (sv_name svc)) (body f [])
  end.

(** The rules of an assumption by service, a later rule for a syscall replacing an earlier one. *)
Definition group_rules (rules : list FaultAssumptionRule) : gmap string (gmap string FaultDef) :=
  foldl (fun m r => <[sv_name (ar_target r) := <[ar_syscall r := ar_fault r]> (default ∅ (m !! sv_name (ar_target r)))]> m) ∅ rules.

(** Faults applied one after the other, each removed when the function returns. *)
Fixpoint under_faults (l : list (string * gmap string FaultDef)) (k : M value) : M value :=
  match l with
  | [] => k
  | (svc, fs) :: l => applyFaults svc fs ;; deferring (removeFaults svc) (under_faults l k)
  end.

Definition register_monitors (ms : list nat) : M (list Z) :=
  each (fun _ m rt => let '(id, rt) := RegisterMonitor m rt in (Ok id, rt)) 0 ms.
Definition unregister_monitors (ids : list Z) (rt : RT V) : RT V := foldl (fun rt id => UnregisterMonitor id rt) rt ids.

Definition find_run (st : option Callable) (kv : string * value) : M (option Callable) :=
  if String.eqb kv.1 "run" then match run_arg "fault" kv.2 with Ok f => ret (Some f) | Err e => fail (Args e) end else ret st.

Definition builtinFaultFromAssumption (fa : FaultAssumptionDef) (kwargs : list (string * value)) : M value :=
  run ⇐ over find_run None kwargs;
  match run with
  | None => fail (no_run "fault")
  | Some f =>
      under_faults (iter _ (group_rules (fa_rules fa)))
        (applied ⇐ over (apply_proxy_rule true (fa_name fa)) ∅ (fa_proxy_rules fa);
         deferring (clear_proxies [("assumption", fa_name fa)] applied)
           (ids ⇐ register_monitors (fa_monitors fa); deferring (unregister_monitors ids) (body f [])))
  end.

Definition protocol_kwarg (st : option Callable * string) (kv : string * value) : M (option Callable * string) :=
  if String.eqb kv.1 "run" then match run_arg "fault" kv.2 with Ok f => ret (Some f, st.2) | Err e => fail (Args e) end
  else if String.eqb kv.1 "source" then
    match kv.2 with
    | VService s => ret (st.1, sv_name s)
    | v => fail (Args (got "fault() source= must be a service" v))
    end
  else ret st.

(** *** Packet faults *)

Definition gvisor : string := "gvisor".

Definition requirePacketRuntime (what : string) : M unit := fun rt =>
  if String.eqb (detRuntime (packets rt)) gvisor then (Ok tt, rt)
  else (Err (NeedsGateway (if String.eqb what "" then "packet faults" else what) (detRuntime (packets rt))), rt).

(** The gateway, attached at the first use; [None] on a runtime without one. *)
Definition ensurePacketGateway : M (option Gateway.Gateway) := fun rt =>
  if negb (String.eqb (detRuntime (packets rt)) gvisor) then (Ok None, rt)
  else match gateway (packets rt) with
       | Some gw => (Ok (Some gw), rt)
       | None =>
           match Gateway.NewGateway "" with
           | Err _ => (Err (AttachFailed "packet gateway"), rt)
           | Ok gw =>
               match attach rt with
               | Err e => (Err (AttachFailed e), rt)
               | Ok device =>
                   let gw := Gateway.Start gw in
                   (Ok (Some gw), Emit "packet_gateway_started" "" [("device", device); ("subnet", Alloc.DefaultSubnet); ("host", Alloc.hostIP (Gateway.alloc gw))]
                                    (set_packets (set_net (heap (packets rt), Some gw) (packets rt)) rt))
               end
           end
       end.

(** The consumer must be another service with a route to the interface; without a gateway that is
    left to the installation. *)
Definition validateFaultSource (consumer service iface : string) : M unit := fun rt =>
  match services rt !! consumer with
  | None => (Err (BadSource consumer service iface), rt)
  | Some _ =>
      if String.eqb consumer service then (Err (BadSource consumer service iface), rt)
      else match ensurePacketGateway rt with
           | (Ok (Some gw), rt) =>
               match Gateway.Lookup consumer service iface gw with
               | Some _ => (Ok tt, rt)
               | None => (Err (BadSource consumer service iface), rt)
               end
           | (_, rt) => (Ok tt, rt)
           end
  end.

(** [packetRuleRegistry.install]: without a gateway the attempt is counted. *)
Definition install_rules (consumer service iface : string) (ids : list nat) : M unit := fun rt =>
  let ps := packets rt in
  let m := <[triple consumer service iface := ids]> (installs ps) in
  match gateway ps with
  | None => (Ok tt, set_packets (set_installs m (i64 (unwired ps + 1)) ps) rt)
  | Some gw =>
      let ps := set_installs m (unwired ps) ps in
      let '(r, (h, gw)) := Gateway.InstallRules consumer service iface ids (heap ps, gw) in
      (match r with Ok _ => Ok tt | Err e => Err (InstallFailed service iface e) end, set_packets (set_net (h, Some gw) ps) rt)
  end.

(** [packetRuleRegistry.clear]. *)
Definition clear_packet_rules (consumer service iface : string) (rt : RT V) : RT V :=
  let ps := packets rt in
  let ps := set_installs (delete (triple consumer service iface) (installs ps)) (unwired ps) ps in
  match gateway ps with
  | None => set_packets ps rt
  | Some gw => let '(h, gw) := Gateway.ClearRules consumer service iface (heap ps, gw) in set_packets (set_net (h, Some gw) ps) rt
  end.

Fixpoint compile_all (defs : list PacketFaultDef) : result failure (list Rule.Rule) :=
  match defs with
  | [] => Ok []
  | d :: defs =>
      match PacketFaults.Compile (Some ask) d with
      | Err e => Err (CompileFailed (pk_action d) e)
      | Ok r => let? rs := compile_all defs in Ok (r :: rs)
      end
  end.

Definition applyPacketFaults (consumer svcName ifaceName : string) (defs : list PacketFaultDef) : M PacketWindow := fun rt =>
  match compile_all defs with
  | Err e => (Err e, rt)
  | Ok rs =>
      let ps := packets rt in
      let ids := seq (length (heap ps)) (length rs) in
      match install_rules consumer svcName ifaceName ids (set_packets (set_heap (heap ps ++ rs) ps) rt) with
      | (Err e, rt) => (Err e, rt)
      | (Ok _, rt) =>
          (Ok (mkWindow consumer svcName ifaceName ids defs),
           Emit "packet_fault_applied" svcName
             ([("interface", ifaceName); ("rules", PacketFaults.describePacketFaults defs); ("count", show_Z (Z.of_nat (length rs)))] ++
              (if String.eqb consumer "" then [] else [("source", consumer)])) rt)
      end
  end.

(** The end of a window: the rules go, and each that matched nothing is reported. *)
Definition close_window (w : PacketWindow) (rt : RT V) : RT V :=
  let rt := clear_packet_rules (pw_consumer w) (pw_service w) (pw_iface w) rt in
  foldl (fun rt '(i, d) =>
    match heap (packets rt) !! i with
    | Some r => if Rule.MatchCount r =? 0 then
                  Emit "packet_fault_no_match" (pw_service w)
                    [("interface", pw_iface w); ("rule", "packet_" +:+ pk_action d); ("label", pc_label (pk_chance d))] rt
                else rt
    | None => rt
    end) rt (zip (pw_ids w) (pw_defs w)).

(** The faults of the arguments: protocol faults and packet faults. *)
Definition fault_arg (st : list ProxyFaultDef * list PacketFaultDef) (v : value) : M (list ProxyFaultDef * list PacketFaultDef) :=
  match v with
  | VProxyFault pf => ret (st.1 ++ [pf], st.2)
  | VPacketFault pf => ret (st.1, st.2 ++ [pf])
  | _ => fail (Args (got "fault(interface_ref, ...) arguments must be response()/error()/drop() or packet_*()" v))
  end.

Definition check_packets (source svcName ifaceName : string) (defs : list PacketFaultDef) : M unit :=
  if (length defs =? 0)%nat then ret tt
  else
    requirePacketRuntime (PacketFaults.describePacketFaults defs) ;;
    if String.eqb source "" then ret tt else validateFaultSource source svcName ifaceName.

(** A body under packet faults, if there are any. *)
Definition under_packets (source svcName ifaceName : string) (defs : list PacketFaultDef) (k : M value) : M value :=
  if (length defs =? 0)%nat then k
  else w ⇐ applyPacketFaults source svcName ifaceName defs; deferring (close_window w) k.

(** A fault on an interface. *)
Definition builtinFaultProtocol (r : InterfaceRef) (args : list value) (kwargs : list (string * value)) : M value :=
  let svcName := sv_name (ir_service r) in
  let iface := ir_interface r in
  if if_proxy_disabled iface then fail (ProxyDisabled svcName (if_name iface))
  else
    st ⇐ over protocol_kwarg (None, "") kwargs;
    match st.1 with
    | None => fail (no_run "fault")
    | Some f =>
        pfs ⇐ over fault_arg ([], []) args;
        if (length pfs.1 =? 0)%nat && (length pfs.2 =? 0)%nat
        then fail (Args (Msg "fault(interface_ref, ...) requires at least one protocol fault"))
        else
          check_packets st.2 svcName (if_name iface) pfs.2 ;;
          addr ⇐ ensure svcName (if_name iface) (if_protocol iface) (proxyTargetAddr (ir_service r) iface);
          each (fun _ pf => add_rule svcName (if_name iface) (Faults.proxyFaultToRule pf)) 0 pfs.1 ;;
          (if (length pfs.1 =? 0)%nat then ret tt
           else modify (Emit "proxy_fault_applied" svcName
             [("interface", if_name iface); ("protocol", if_protocol iface); ("proxy", addr); ("source", st.2)])) ;;
          under_packets st.2 svcName (if_name iface) pfs.2
            (deferring (clear_proxies [] {[(svcName, if_name iface)]}) (body f []))
    end.

(** A client runs no process; the error names the service it calls. *)
Definition client_refused (who name : string) (r : InterfaceRef) : Spec.error :=
  Within [who; name; sv_name (ir_service r); if_name (ir_interface r)] (Msg "a client is a caller, not a process").

Definition builtinFault (args : list value) (kwargs : list (string * value)) : M value :=
  match args with
  | [] => fail (Args (Msg "fault() requires a service or interface argument"))
  | VAssumption fa :: _ => builtinFaultFromAssumption fa kwargs
  | VInterface r :: args => builtinFaultProtocol r args kwargs
  | VClient name r :: _ => fail (Args (client_refused "fault" name r))
  | VService svc :: _ => fault_service svc kwargs
  | v :: _ => fail (Args (got "fault() first arg must be a service, interface_ref, or fault_assumption" v))
  end.

Definition all_kwarg (st : option Callable * gmap string FaultDef) (kv : string * value) : M (option Callable * gmap string FaultDef) :=
  if String.eqb kv.1 "run" then match run_arg "fault_all" kv.2 with Ok f => ret (Some f, st.2) | Err e => fail (Args e) end
  else match kv.2 with
       | VFault fd => ret (st.1, <[kv.1 := fd]> st.2)
       | v => fail (Args (got ("fault_all() " +:+ kv.1 +:+ "= must be a fault (delay/deny)") v))
       end.

Definition service_arg (i : nat) (v : value) : M ServiceDef :=
  match v with VService s => ret s | _ => fail (Args (got_at "fault_all" "services" i "a service" v)) end.

Definition builtinFaultAll (args : list value) (kwargs : list (string * value)) : M value :=
  match args with
  | [] => fail (Args (Msg "fault_all() requires a list of services as the first argument"))
  | VList [] :: _ => fail (Args (Msg "fault_all() requires at least one service in the list"))
  | VList l :: _ =>
      svcs ⇐ each service_arg 0 l;
      st ⇐ over all_kwarg (None, ∅) kwargs;
      match st.1 with
      | None => fail (no_run "fault_all")
      | Some f => under_faults ((fun s => (sv_name s, st.2)) <$> svcs) (body f [])
      end
  | v :: _ => fail (Args (got "fault_all() first arg must be a list of services" v))
  end.

Definition start_kwarg (fs : gmap string FaultDef) (kv : string * value) : M (gmap string FaultDef) :=
  match kv.2 with
  | VFault fd => ret (<[kv.1 := fd]> fs)
  | v => fail (Args (got ("fault_start() " +:+ kv.1 +:+ "= must be a fault") v))
  end.

Definition builtinFaultStart (args : list value) (kwargs : list (string * value)) : M value :=
  match args with
  | [] => fail (Args (Msg "fault_start() requires a service argument"))
  | VClient name r :: _ => fail (Args (client_refused "fault_start" name r))
  | VService svc :: _ => fs ⇐ over start_kwarg ∅ kwargs; applyFaults (sv_name svc) fs ;; ret VNone
  | v :: _ => fail (Args (got "fault_start() first arg must be a service" v))
  end.

Definition builtinFaultStop (args : list value) : M value :=
  match args with
  | [] => fail (Args (Msg "fault_stop() requires a service argument"))
  | VService svc :: _ => modify (removeFaults (sv_name svc)) ;; ret VNone
  | v :: _ => fail (Args (got "fault_stop() first arg must be a service" v))
  end.

(** ** The runner of a fault scenario *)

(** The faults of one assumption; [applied] gathers the services. *)
Fixpoint apply_services (l : list (string * gmap string FaultDef)) (applied : gset string) : M (gset string) :=
  match l with
  | [] => ret applied
  | (svc, fs) :: l => applyFaults svc fs ;; apply_services l ({[svc]} ∪ applied)
  end.

Definition apply_assumptions (fas : list FaultAssumptionDef) : M (gset string) :=
  over (fun applied fa => apply_services (iter _ (group_rules (fa_rules fa))) applied) ∅ fas.

Definition apply_proxies (fas : list FaultAssumptionDef) : M (gset (string * string)) :=
  over (fun applied fa => over (apply_proxy_rule false (fa_name fa)) applied (fa_proxy_rules fa)) ∅ fas.

Definition remove_all (applied : gset string) (rt : RT V) : RT V := foldl (fun rt svc => removeFaults svc rt) rt (elements applied).

Definition in_scenario {A} (name : string) (m : M A) : M A := fun rt =>
  match m rt with
  | (Ok a, rt) => (Ok a, rt)
  | (Err Panic, rt) => (Err Panic, rt)
  | (Err e, rt) => (Err (InScenario name e), rt)
  end.

Definition check_monitors : M unit := fun rt =>
  match monitorErrors rt with [] => (Ok tt, rt) | e :: _ => (Err (Violation e), rt) end.

(** The expectation: its name is recorded, and that it was violated. *)
Definition check_expect (expect : option Callable) (v : value) : M value :=
  match expect with
  | None => ret v
  | Some f =>
      modify (fun rt => set_expectation (fn_name f) (expectationViolated rt) rt) ;;
      fun rt => match body f [v] rt with
                | (Ok _, rt) => (Ok v, rt)
                | (Err e, rt) => (Err e, set_expectation (expectationName rt) true rt)
                end
  end.

Definition run_probe (fs : FaultScenarioDef) : M value :=
  v ⇐ body (fs_scenario fs) []; check_monitors ;; check_expect (fs_expect fs) v.

Definition makeFaultScenarioRunner (fs : FaultScenarioDef) : M value :=
  modify (set_current (Some (fs_name fs))) ;;
  deferring (set_current None)
    (modify (set_require (fs_require_fire fs)) ;;
     ids ⇐ register_monitors (List.concat (fa_monitors <$> fs_faults fs) ++ fs_monitors fs);
     deferring (unregister_monitors ids)
       (applied ⇐ in_scenario (fs_name fs) (apply_assumptions (fs_faults fs));
        deferring (remove_all applied)
          (proxies ⇐ in_scenario (fs_name fs) (apply_proxies (fs_faults fs));
           deferring (clear_proxies [] proxies) (run_probe fs)))).

End Operations.

End Runtime.

(** ** What the operations change and what they leave *)
Module Cleanup.
Import Runtime.

Section Proofs.
Context {V : Type} (monitor : nat -> MonitorDef V) (now : nat -> Z) (start : Manager -> string -> string -> result string string).
Context (call : Callable -> list value -> RT V -> result string value * RT V).
Context (iter : forall A, gmap string A -> list (string * A)).
Context (iter_perm : forall A (m : gmap string A), iter A m ≡ₚ map_to_list m).

Local Abbreviation Emit := (Emit monitor now).
Local Abbreviation applyFaults := (applyFaults monitor now iter).
Local Abbreviation removeFaults := (removeFaults monitor now).
Local Abbreviation apply_services := (apply_services monitor now iter).
Local Abbreviation apply_assumptions := (apply_assumptions monitor now iter).
Local Abbreviation remove_all := (remove_all monitor now).
Local Abbreviation clear_proxies := (clear_proxies monitor now).
Local Abbreviation makeFaultScenarioRunner := (makeFaultScenarioRunner monitor now start call iter).

(** Everything but the log and the monitors' states is the same. *)
Record frame (rt rt' : RT V) : Prop := {
  fr_services : services rt' = services rt; fr_faults : faults rt' = faults rt; fr_sessions : sessions rt' = sessions rt;
  fr_probs : probFaults rt' = probFaults rt; fr_proxies : proxyMgr rt' = proxyMgr rt; fr_subs : subs rt' = subs rt;
  fr_current : currentFaultScenario rt' = currentFaultScenario rt }.

#[local] Instance frame_preorder : PreOrder frame.
Proof. split; [by intros rt|]. intros ? ? ? [] []. split; congruence. Qed.

Lemma notify_frame ev rt sub : frame rt (notify monitor ev rt sub).
Proof. unfold notify. destruct (cells rt !! sub.1); [|done]. by destruct (monitor_step _ _ _). Qed.

Lemma Emit_frame typ svc fields rt : frame rt (Emit typ svc fields rt).
Proof.
  unfold Runtime.Emit. set (l := EventLog.emit _ _ _ _ _). destruct (last (EventLog.events l)) as [ev|]; [|done].
  enough (H : forall l rt, frame rt (foldl (notify monitor ev) rt l)) by (etrans; [|apply H]; done).
  clear. induction l as [|sub l IH]; intros rt; [done|]. cbn. etrans; [apply notify_frame|apply IH].
Qed.

(** A service without faults: none recorded, none in its session. *)
Definition clean_service (svc : string) (rt : RT V) : Prop :=
  faults rt !! svc = None /\ forall s, sessions rt !! svc = Some (Some s) -> Session.dynamicRules s = None.

(** An interface whose proxy, if it has one, has no rules. *)
Definition clean_interface (k : string * string) (rt : RT V) : Prop :=
  forall rp a p, Manager.proxies (proxyMgr rt) !! Manager.key k.1 k.2 = Some rp -> Manager.proxy rp = Some a ->
    Manager.store (proxyMgr rt) !! a = Some p -> Manager.p_rules p = [].

Lemma removeFaults_spec svc rt :
  faults (removeFaults svc rt) = delete svc (faults rt) /\
  sessions (removeFaults svc rt) =
    (match sessions rt !! svc with
     | Some (Some s) => <[svc := Some (Session.set_dynamicRules None s)]> (sessions rt)
     | _ => sessions rt
     end) /\
  proxyMgr (removeFaults svc rt) = proxyMgr rt /\ currentFaultScenario (removeFaults svc rt) = currentFaultScenario rt.
Proof.
  unfold Runtime.removeFaults. set (rt1 := set_faults _ rt). match goal with |- context [Runtime.Emit _ _ "fault_removed" svc [] ?x] => set (rt2 := x) end.
  destruct (Emit_frame "fault_removed" svc [] rt2) as [_ -> -> _ -> _ ->].
  unfold rt2. change (sessions rt1) with (sessions rt). destruct (sessions rt !! svc) as [[s|]|]; [|done|done].
  set (rt3 := foldl _ rt1 _).
  assert (H : frame rt1 rt3).
  { unfold rt3. generalize rt1. induction (Session.DynamicRuleActivity (Some s)) as [|r l IH]; intros rt'; [done|]. cbn.
    etrans; [|apply IH]. destruct (0 <? _); [done|apply Emit_frame]. }
  clearbody rt3. cbn. destruct H as [_ -> -> _ -> _ ->]. done.
Qed.

Lemma removeFaults_clean svc rt : clean_service svc (removeFaults svc rt).
Proof.
  destruct (removeFaults_spec svc rt) as (E1 & E2 & _ & _). split; rewrite ?E1, ?E2; [apply lookup_delete_eq|].
  intros s. destruct (sessions rt !! svc) as [[s'|]|] eqn:E; [|congruence|congruence]. rewrite lookup_insert_eq. by intros [= <-].
Qed.

Lemma removeFaults_keeps_clean svc svc' rt : clean_service svc rt -> clean_service svc (removeFaults svc' rt).
Proof.
  destruct (decide (svc' = svc)) as [->|Hne]; [intros _; apply removeFaults_clean|]. intros [H1 H2].
  destruct (removeFaults_spec svc' rt) as (E1 & E2 & _ & _). split; rewrite ?E1, ?E2; [by rewrite lookup_delete_ne|].
  intros s. destruct (sessions rt !! svc') as [[s'|]|]; [|apply H2..]. rewrite lookup_insert_ne by done. apply H2.
Qed.

Lemma remove_all_clean applied rt :
  (forall svc, svc ∈ applied -> clean_service svc (remove_all applied rt)) /\
  proxyMgr (remove_all applied rt) = proxyMgr rt.
Proof.
  unfold Runtime.remove_all.
  assert (H : forall l rt, proxyMgr (foldl (fun rt svc => removeFaults svc rt) rt l) = proxyMgr rt /\
    forall svc, svc ∈ l \/ clean_service svc rt -> clean_service svc (foldl (fun rt svc => removeFaults svc rt) rt l)).
  { clear. induction l as [|x l IH]; intros rt; cbn; [split; [done|]; by intros svc [?%elem_of_nil|?]|].
    destruct (IH (removeFaults x rt)) as [E Hc]. split; [rewrite E; apply removeFaults_spec|].
    intros svc [[->|Hin]%elem_of_cons|Hcl]; apply Hc; [right; apply removeFaults_clean|by left|right; by apply removeFaults_keeps_clean]. }
  destruct (H (elements applied) rt) as [E Hc]. split; [|done]. intros svc Hin. apply Hc. left. by apply elem_of_elements.
Qed.

(** ** Proxies *)

Lemma clear_rules_spec svc iface rt :
  faults (clear_rules svc iface rt) = faults rt /\ sessions (clear_rules svc iface rt) = sessions rt /\
  Manager.proxies (proxyMgr (clear_rules svc iface rt)) = Manager.proxies (proxyMgr rt) /\
  (forall b p', Manager.store (proxyMgr (clear_rules svc iface rt)) !! b = Some p' ->
     Manager.p_rules p' = [] \/ Manager.store (proxyMgr rt) !! b = Some p') /\
  clean_interface (svc, iface) (clear_rules svc iface rt).
Proof.
  unfold clear_rules, Manager.ClearRules, clean_interface. cbn [fst snd].
  destruct (Manager.proxies (proxyMgr rt) !! Manager.key svc iface) as [rp|] eqn:E; cbn; [|split_and!; auto; congruence].
  destruct (Manager.proxy rp) as [a|] eqn:Ea; cbn; [|split_and!; auto; congruence].
  split_and!; [done..| |].
  - intros b p'. destruct (decide (b = a)) as [->|Hne]; [|rewrite list_lookup_alter_ne by done; auto].
    rewrite list_lookup_alter_eq. destruct (Manager.store (proxyMgr rt) !! a); [|done]. cbn. intros [= <-]. by left.
  - intros rp' a' p' H1 H2. assert (rp' = rp) as -> by congruence. assert (a' = a) as -> by congruence.
    rewrite list_lookup_alter_eq. destruct (Manager.store (proxyMgr rt) !! a); [|done]. cbn. by intros [= <-].
Qed.

Lemma clear_proxies_clean fields applied rt :
  faults (clear_proxies fields applied rt) = faults rt /\ sessions (clear_proxies fields applied rt) = sessions rt /\
  forall k, k ∈ applied -> clean_interface k (clear_proxies fields applied rt).
Proof.
  unfold Runtime.clear_proxies. set (f := fun rt k => _).
  assert (H : forall l rt, faults (foldl f rt l) = faults rt /\ sessions (foldl f rt l) = sessions rt /\
    forall k, k ∈ l \/ clean_interface k rt -> clean_interface k (foldl f rt l)).
  { clear. induction l as [|x l IH]; intros rt; cbn; [split_and!; [done..|]; by intros svc [?%elem_of_nil|?]|].
    destruct (IH (f rt x)) as (E1 & E2 & Hc). rewrite E1, E2. unfold f at 1 2.
    destruct (clear_rules_spec x.1 x.2 rt) as (C1 & C2 & C3 & C4 & C5).
    destruct (Emit_frame "proxy_fault_removed" x.1 (("interface", x.2) :: fields) (clear_rules x.1 x.2 rt)) as [_ -> -> _ Hp _ _].
    split_and!; [done..|]. intros k Hk. apply Hc. destruct (decide (k ∈ l)) as [|Hnl]; [by left|]. right.
    assert (Hk' : clean_interface k (clear_rules x.1 x.2 rt)).
    { destruct Hk as [[->|?]%elem_of_cons|Hk]; [by destruct x|done|]. intros rp a p' H1 H2 H3. rewrite C3 in H1.
      destruct (C4 a p' H3) as [?|?]; [done|]. by eapply Hk. }
    unfold clean_interface, f. rewrite Hp. apply Hk'. }
  destruct (H (elements applied) rt) as (E1 & E2 & Hc). split_and!; [done..|]. intros k Hk. apply Hc. left. by apply elem_of_elements.
Qed.

(** ** Which services a scenario's faults reach *)

Lemma group_rules_dom rules svc : is_Some (group_rules rules !! svc) <-> exists r, r ∈ rules /\ sv_name (ar_target r) = svc.
Proof.
  unfold group_rules. set (f := fun m r => _).
  enough (H : forall rules m, is_Some (foldl f m rules !! svc) <-> is_Some (m !! svc) \/ exists r, r ∈ rules /\ sv_name (ar_target r) = svc).
  { rewrite H, lookup_empty. split; [by intros [[? ?]|?]|auto]. }
  clear rules. induction rules as [|r rules IH]; intros m; cbn; [split; [auto|]; intros [?|(r & ?%elem_of_nil & _)]; done|].
  rewrite IH. unfold f. destruct (decide (sv_name (ar_target r) = svc)) as [E|E].
  - rewrite E, lookup_insert_eq. split; [|by left]. intros _. right. exists r. split; [by left|done].
  - rewrite lookup_insert_ne by done. split.
    + intros [?|(r' & ? & ?)]; [by left|]. right. exists r'. split; [by right|done].
    + intros [?|(r' & [->|?]%elem_of_cons & ?)]; [by left|done|]. right. by exists r'.
Qed.

Lemma apply_services_applied l applied rt applied' rt' : apply_services l applied rt = (Ok applied', rt') ->
  forall svc, svc ∈ applied' <-> svc ∈ l.*1 \/ svc ∈ applied.
Proof.
  revert applied rt. induction l as [|[x fs] l IH]; intros applied rt; cbn.
  - intros [= <- <-] svc. split; [by right|by intros [?%elem_of_nil|?]].
  - unfold bind. destruct (applyFaults x fs rt) as [[[]|e] rt1]; [|done]. intros H svc. rewrite (IH _ _ H svc).
    rewrite elem_of_union, elem_of_singleton, elem_of_cons. tauto.
Qed.

(** The services that the rules of the assumptions name. *)
Definition targeted (fas : list FaultAssumptionDef) (svc : string) : Prop :=
  exists fa r, fa ∈ fas /\ r ∈ fa_rules fa /\ sv_name (ar_target r) = svc.

Lemma iter_dom {A} (m : gmap string A) svc : svc ∈ (iter A m).*1 <-> is_Some (m !! svc).
Proof using iter_perm.
  rewrite iter_perm. rewrite list_elem_of_fmap. split.
  - intros ([k v] & -> & H%elem_of_map_to_list). by exists v.
  - intros [v H]. exists (svc, v). split; [done|]. by apply elem_of_map_to_list.
Qed.

Lemma apply_assumptions_applied fas rt applied rt' : apply_assumptions fas rt = (Ok applied, rt') ->
  forall svc, svc ∈ applied <-> targeted fas svc.
Proof using iter_perm.
  unfold Runtime.apply_assumptions.
  enough (H : forall fas acc rt, over (fun applied fa => apply_services (iter _ (group_rules (fa_rules fa))) applied) acc fas rt = (Ok applied, rt') ->
    forall svc, svc ∈ applied <-> svc ∈ acc \/ targeted fas svc).
  { intros E svc. rewrite (H _ _ _ E). split; [intros [?%elem_of_empty|?]; done|auto]. }
  clear fas rt. induction fas as [|fa fas IH]; intros acc rt; cbn.
  - intros [= <- <-] svc. split; [auto|]. intros [?|(fa & r & ?%elem_of_nil & _)]; done.
  - unfold bind. destruct (apply_services _ acc rt) as [[acc'|e] rt1] eqn:E; [|done]. intros H svc. rewrite (IH _ _ H).
    rewrite (apply_services_applied _ _ _ _ _ E), iter_dom, group_rules_dom. unfold targeted. split.
    + intros [[(r & ? & ?)|?]|(fa' & r & ? & ? & ?)]; [right; exists fa, r; split_and!; [by left|done..]|by left|].
      right. exists fa', r. split_and!; [by right|done..].
    + intros [?|(fa' & r & [->|?]%elem_of_cons & ? & ?)]; [by left; right|left; left; by exists r|]. right. by exists fa', r.
Qed.

(** The interfaces that the protocol rules of the assumptions name. *)
Definition rule_interface (pr : FaultAssumptionProxyRule) : string * string :=
  (sv_name (ir_service (ap_target pr)), if_name (ir_interface (ap_target pr))).
Definition proxied (fas : list FaultAssumptionDef) (k : string * string) : Prop :=
  exists fa pr, fa ∈ fas /\ pr ∈ fa_proxy_rules fa /\ rule_interface pr = k.

Lemma apply_proxy_rule_applied disabled name acc pr rt acc' rt' :
  apply_proxy_rule monitor now start disabled name acc pr rt = (Ok acc', rt') -> acc' = {[rule_interface pr]} ∪ acc.
Proof.
  unfold apply_proxy_rule. destruct (disabled && _); [done|]. unfold bind.
  destruct (ensure _ _ _ _ _ rt) as [[addr|e] rt1]; [|done]. destruct (add_rule _ _ _ rt1) as [[[]|e] rt2]; [|done].
  cbn. by intros [= <- _].
Qed.

Lemma over_applied {A} (f : gset (string * string) -> A -> @M V (gset (string * string))) (g : A -> string * string -> Prop) l acc rt acc' rt' :
  (forall acc x rt acc' rt', f acc x rt = (Ok acc', rt') -> forall k, k ∈ acc' <-> g x k \/ k ∈ acc) ->
  over f acc l rt = (Ok acc', rt') -> forall k, k ∈ acc' <-> (exists x, x ∈ l /\ g x k) \/ k ∈ acc.
Proof.
  intros Hf. revert acc rt. induction l as [|x l IH]; intros acc rt; cbn.
  - intros [= <- <-] k. split; [auto|]. intros [(x & ?%elem_of_nil & _)|?]; done.
  - unfold bind. destruct (f acc x rt) as [[acc1|e] rt1] eqn:E; [|done]. intros H k. rewrite (IH _ _ H), (Hf _ _ _ _ _ E). split.
    + intros [(y & ? & ?)|[?|?]]; [left; exists y; split; [by right|done]|left; exists x; split; [by left|done]|by right].
    + intros [(y & [->|?]%elem_of_cons & ?)|?]; [by right; left|left; by exists y|by right; right].
Qed.

Lemma rule_step {disabled name} acc pr rt acc' rt' :
  apply_proxy_rule monitor now start disabled name acc pr rt = (Ok acc', rt') -> forall k, k ∈ acc' <-> rule_interface pr = k \/ k ∈ acc.
Proof. intros ->%apply_proxy_rule_applied k. rewrite elem_of_union, elem_of_singleton. split; intros [?|?]; auto. Qed.

Lemma apply_proxies_applied fas rt applied rt' : apply_proxies monitor now start fas rt = (Ok applied, rt') ->
  forall k, k ∈ applied <-> proxied fas k.
Proof.
  unfold apply_proxies. intros H k.
  rewrite (over_applied _ (fun fa k => exists pr, pr ∈ fa_proxy_rules fa /\ rule_interface pr = k) _ _ _ _ _ (fun acc fa rt1 acc' rt2 H' =>
    over_applied _ (fun pr k => rule_interface pr = k) _ _ _ _ _ rule_step H') H k).
  unfold proxied. split; [|intros (fa & pr & ? & ? & ?); left; eauto]. intros [(fa & ? & pr & ? & ?)|?%elem_of_empty]; [|done]. by exists fa, pr.
Qed.

Lemma unregister_spec ids (rt : RT V) : faults (unregister_monitors ids rt) = faults rt /\ sessions (unregister_monitors ids rt) = sessions rt /\
  proxyMgr (unregister_monitors ids rt) = proxyMgr rt.
Proof. unfold unregister_monitors. revert rt. induction ids as [|id ids IH]; intros rt; [done|]. exact (IH (UnregisterMonitor id rt)). Qed.

Lemma register_monitors_ok ms rt : exists ids rt', register_monitors monitor ms rt = (Ok ids, rt') /\
  faults rt' = faults rt /\ sessions rt' = sessions rt /\ proxyMgr rt' = proxyMgr rt /\ services rt' = services rt.
Proof.
  unfold register_monitors. generalize 0%nat. revert rt. induction ms as [|m ms IH]; intros rt n; [by exists [], rt|].
  destruct (IH (RegisterMonitor monitor m rt).2 (S n)) as (ids & rt' & E & H). exists ((RegisterMonitor monitor m rt).1 :: ids), rt'.
  cbn [each]. erewrite bind_ok by reflexivity. erewrite bind_ok by exact E. done.
Qed.

Lemma in_scenario_err {A} name (m : @M V A) rt e rt' : in_scenario name m rt = (Err e, rt') -> e = Panic \/ exists e', e = InScenario name e'.
Proof. unfold in_scenario. destruct (m rt) as [[a|[]] rt1]; intros [= <- <-]; eauto. Qed.

Lemma in_scenario_ok {A} name (m : @M V A) rt a rt' : in_scenario name m rt = (Ok a, rt') -> m rt = (Ok a, rt').
Proof. unfold in_scenario. by destruct (m rt) as [[a1|[]] rt1]; intros [= <- <-]. Qed.

(** ** The scenario's monitors *)

(** No two subscriptions have the same identifier. *)
Definition distinct_subs (rt : RT V) : Prop := NoDup (Subscribers.ID <$> Subscribers.subscribers (subs rt)).

Definition scenario_monitors (fs : FaultScenarioDef) : list nat := List.concat (fa_monitors <$> fs_faults fs) ++ fs_monitors fs.

(** Registered one after the other, the monitors get the next identifiers. *)
Lemma register_monitors_ids ms rt : Subscribers.well_formed (subs rt) ->
  Subscribers.nextSubID (subs rt) + Z.of_nat (length ms) < 2 ^ 63 ->
  exists rt', register_monitors monitor ms rt =
    (Ok ((fun i => Subscribers.nextSubID (subs rt) + 1 + Z.of_nat i) <$> seq 0 (length ms)), rt') /\ distinct_subs rt'.
Proof.
  unfold register_monitors. generalize 0%nat at 1. revert rt. induction ms as [|m ms IH]; intros rt n W Hroom.
  { exists rt. split; [done|]. apply W. }
  cbn [length] in Hroom. destruct W as (Hnd & Hf & H0).
  assert (Hi : i64 (Subscribers.nextSubID (subs rt) + 1) = Subscribers.nextSubID (subs rt) + 1) by (apply wrap_s_small; lia).
  set (rt1 := (RegisterMonitor monitor m rt).2).
  assert (E1 : subs rt1 = (Subscribers.Subscribe [] m (subs rt)).2) by done.
  destruct (IH rt1 (S n)) as (rt' & E & H).
  - rewrite E1. unfold Subscribers.Subscribe, Subscribers.well_formed. cbn. rewrite Hi, fmap_app. cbn. split_and!; [|apply Forall_app; split|lia].
    + apply NoDup_app. split_and!; [done| |apply NoDup_singleton].
      intros x (b & Ex & Hb)%list_elem_of_fmap Hx%list_elem_of_singleton. rewrite Forall_forall in Hf. apply Hf in Hb. lia.
    + eapply Forall_impl; [exact Hf|]. cbn. intros; lia.
    + repeat constructor; cbn; lia.
  - rewrite E1. cbn. rewrite Hi. lia.
  - exists rt'. split; [|done]. cbn [each length seq fmap list_fmap].
    rewrite (bind_ok _ _ (Subscribers.nextSubID (subs rt) + 1) rt rt1) by (unfold rt1, RegisterMonitor; cbn; by rewrite Hi).
    rewrite (bind_ok _ _ _ _ _ E). unfold ret. do 2 f_equal. apply (f_equal2 cons); [lia|]. rewrite E1. cbn [snd Subscribers.nextSubID Subscribers.Subscribe].
    rewrite Hi, <- fmap_S_seq, <- list_fmap_compose. apply list_fmap_ext. intros i x _. cbn. lia.
Qed.

Lemma unregister_gone ids rt : distinct_subs rt -> forall id, id ∈ ids -> id ∉ Subscribers.ID <$> Subscribers.subscribers (subs (unregister_monitors ids rt)).
Proof.
  unfold unregister_monitors, distinct_subs. set (f := fun rt id => _).
  assert (H : forall ids rt id, NoDup (Subscribers.ID <$> Subscribers.subscribers (subs rt)) ->
    id ∈ ids \/ (id ∉ Subscribers.ID <$> Subscribers.subscribers (subs rt)) -> id ∉ Subscribers.ID <$> Subscribers.subscribers (subs (foldl f rt ids)));
    [|intros Hnd id Hin; apply H; auto].
  clear. induction ids as [|x ids IH]; intros rt id Hnd Hid; cbn; [destruct Hid as [[]%elem_of_nil|?]; done|].
  pose proof (Subscribers.map_sublist Subscribers.ID _ _ (Subscribers.remove_first_sublist x (Subscribers.subscribers (subs rt)))) as Hsub.
  apply IH; [cbn; by eapply sublist_NoDup|]. cbn. destruct (decide (id ∈ ids)) as [?|Hn]; [by left|]. right.
  intros (b & -> & Hb)%list_elem_of_fmap. apply Subscribers.elem_remove_first in Hb as [Hb Hx]; [|done].
  destruct Hid as [[?|?]%elem_of_cons|Hni]; [done|done|]. apply Hni. by apply list_elem_of_fmap_2.
Qed.

Lemma frame_distinct rt rt' : frame rt rt' -> distinct_subs rt -> distinct_subs rt'.
Proof. unfold distinct_subs. by intros [_ _ _ _ _ -> _]. Qed.

Lemma removeFaults_distinct svc rt : distinct_subs rt -> distinct_subs (removeFaults svc rt).
Proof.
  intros H. unfold Runtime.removeFaults. eapply frame_distinct; [apply Emit_frame|].
  destruct (sessions (set_faults _ rt) !! svc) as [[s|]|]; [|exact H|exact H].
  match goal with |- distinct_subs (set_sessions _ ?x) => change (distinct_subs x) end.
  assert (H1 : distinct_subs (set_faults (delete svc (faults rt)) rt)) by exact H. revert H1.
  generalize (set_faults (delete svc (faults rt)) rt). induction (Session.DynamicRuleActivity (Some s)) as [|r l IH]; intros rt1 H1; [done|]. cbn.
  apply IH. destruct (0 <? _); [done|]. eapply frame_distinct; [apply Emit_frame|done].
Qed.

Lemma applyFaults_distinct svc fs : keeps distinct_subs (applyFaults svc fs).
Proof.
  intros rt H. unfold Runtime.applyFaults. destruct (_ && _); [done|]. cbv zeta.
  destruct (sessions _ !! svc) as [[s|]|]; [destruct (negb _); [done|]| |done];
    repeat (eapply frame_distinct; [apply Emit_frame|]); exact H.
Qed.

Lemma apply_proxy_rule_distinct disabled name acc pr : keeps distinct_subs (apply_proxy_rule monitor now start disabled name acc pr).
Proof.
  unfold apply_proxy_rule. destruct (disabled && _); [apply keeps_fail|]. apply keeps_bind; [|intros _; apply keeps_bind; [|intros _; apply keeps_bind]].
  - intros rt H. unfold ensure. by destruct (Manager.EnsureProxy _ _ _ _ _ _) as [[]].
  - intros rt H. unfold add_rule. by destruct (Manager.AddRule _ _ _ _) as [[]|].
  - apply keeps_modify. intros rt. apply frame_distinct, Emit_frame.
  - intros _. apply keeps_ret.
Qed.

Lemma in_scenario_keeps {A} P name (m : @M V A) : keeps P m -> keeps P (in_scenario name m).
Proof. intros Hm rt H. unfold in_scenario. specialize (Hm rt H). by destruct (m rt) as [[a|[]] rt1]. Qed.

Lemma clear_proxies_distinct fields applied rt : distinct_subs rt -> distinct_subs (clear_proxies fields applied rt).
Proof.
  unfold Runtime.clear_proxies. revert rt. induction (elements applied) as [|k l IH]; intros rt H; [done|]. cbn. apply IH.
  eapply frame_distinct; [apply Emit_frame|]. unfold clear_rules. by destruct (Manager.ClearRules _ _ _).
Qed.

Lemma remove_all_distinct applied rt : distinct_subs rt -> distinct_subs (remove_all applied rt).
Proof.
  unfold Runtime.remove_all. revert rt. induction (elements applied) as [|k l IH]; intros rt H; [done|]. cbn. apply IH, removeFaults_distinct, H.
Qed.

(** The functions of the spec add and remove subscriptions through the log's operations, which keep
    the identifiers apart. *)
Definition call_distinct : Prop := forall f args rt, distinct_subs rt -> distinct_subs (call f args rt).2.

Lemma run_probe_distinct fs : call_distinct -> keeps distinct_subs (run_probe call fs).
Proof.
  intros Hc. assert (Hb : forall f args, keeps distinct_subs (body call f args)).
  { intros f args rt H. unfold body. specialize (Hc f args rt H). by destruct (call f args rt) as [[] rt1]. }
  unfold run_probe. apply keeps_bind; [done|]. intros v. apply keeps_bind.
  - intros rt H. unfold check_monitors. by destruct (monitorErrors rt).
  - intros _. unfold check_expect. destruct (fs_expect fs) as [f|]; [|apply keeps_ret]. apply keeps_bind; [by apply keeps_modify|].
    intros _ rt H. specialize (Hb f [v] rt H). by destruct (body call f [v] rt) as [[] rt1].
Qed.

(** The scenario once its monitors are registered. *)
Definition under_monitors (fs : FaultScenarioDef) : @M V value :=
  bind (in_scenario (fs_name fs) (apply_assumptions (fs_faults fs))) (fun applied =>
    deferring (remove_all applied)
      (bind (in_scenario (fs_name fs) (apply_proxies monitor now start (fs_faults fs))) (fun proxies =>
         deferring (clear_proxies [] proxies) (run_probe call fs)))).

Lemma under_monitors_distinct fs : call_distinct -> keeps distinct_subs (under_monitors fs).
Proof.
  intros Hc. apply keeps_bind; [apply in_scenario_keeps, keeps_over|]; [intros applied fa|intros applied].
  - generalize (iter _ (group_rules (fa_rules fa))) as l. intros l. revert applied. induction l as [|[svc fl] l IH]; intros applied; [apply keeps_ret|].
    cbn. apply keeps_bind; [apply applyFaults_distinct|]. intros _. apply IH.
  - apply keeps_deferring; [apply remove_all_distinct|]. apply keeps_bind; [apply in_scenario_keeps, keeps_over; intros; apply keeps_over; intros; apply apply_proxy_rule_distinct|].
    intros ps. apply keeps_deferring; [apply clear_proxies_distinct|by apply run_probe_distinct].
Qed.

Lemma under_monitors_clean fs rt r rt' : under_monitors fs rt = (r, rt') -> (forall name e, r <> Err (InScenario name e)) -> r <> Err Panic ->
  (forall svc, targeted (fs_faults fs) svc -> clean_service svc rt') /\ (forall k, proxied (fs_faults fs) k -> clean_interface k rt').
Proof using iter_perm.
  unfold under_monitors, bind, deferring. intros H Hr Hp. revert H.
  destruct (in_scenario _ (apply_assumptions _) rt) as [[applied|e] rt2] eqn:E1;
    [|intros [= <- <-]; destruct (in_scenario_err _ _ _ _ _ E1) as [->|[e' ->]]; [by destruct Hp|by destruct (Hr (fs_name fs) e')]].
  apply in_scenario_ok in E1. pose proof (apply_assumptions_applied _ _ _ _ E1) as Happ.
  destruct (in_scenario _ (apply_proxies _ _ _ _) rt2) as [[ps|e] rt3] eqn:E2;
    [|intros [= <- <-]; destruct (in_scenario_err _ _ _ _ _ E2) as [->|[e' ->]]; [by destruct Hp|by destruct (Hr (fs_name fs) e')]].
  apply in_scenario_ok in E2. pose proof (apply_proxies_applied _ _ _ _ E2) as Hps.
  destruct (run_probe call fs rt3) as [v rt4]. intros [= _ <-]. set (rt5 := clear_proxies [] ps rt4).
  destruct (clear_proxies_clean [] ps rt4) as (_ & _ & Hcl). fold rt5 in Hcl. destruct (remove_all_clean applied rt5) as [Hrm Hpm]. split.
  - intros svc Hs. by apply Hrm, Happ.
  - intros k Hk. apply Hps, Hcl in Hk. intros rp a p. rewrite Hpm. apply Hk.
Qed.

(** C10: A fault scenario leaves nothing behind.  Whatever its probe, its monitors and its expectation do to
    the runtime, when the runner returns - with a value or with an error - no scenario is current and
    none of the monitors it registered is subscribed any more.  If its faults could be applied, then
    no service that its assumptions target has a fault recorded or a rule in its session, and no
    interface they target has a rule in its proxy.  The functions it calls may subscribe and
    unsubscribe as long as identifiers stay apart, and the counter of identifiers does not wrap
    around. *)
Theorem scenario_cleans_up fs rt r rt' :
  Subscribers.well_formed (subs rt) ->
  Subscribers.nextSubID (subs rt) + Z.of_nat (length (scenario_monitors fs)) < 2 ^ 63 ->
  call_distinct ->
  makeFaultScenarioRunner fs rt = (r, rt') ->
  currentFaultScenario rt' = None /\
  (forall i, (i < length (scenario_monitors fs))%nat ->
     Subscribers.nextSubID (subs rt) + 1 + Z.of_nat i ∉ Subscribers.ID <$> Subscribers.subscribers (subs rt')) /\
  ((forall name e, r <> Err (InScenario name e)) -> r <> Err Panic ->
   (forall svc, targeted (fs_faults fs) svc -> clean_service svc rt') /\
   (forall k, proxied (fs_faults fs) k -> clean_interface k rt')).
Proof using iter_perm.
  intros W Hroom Hc H. unfold Runtime.makeFaultScenarioRunner, modify in H. unfold bind at 1 2 in H. unfold deferring at 1 in H.
  destruct (register_monitors_ids (scenario_monitors fs) (set_require (fs_require_fire fs) (set_current (Some (fs_name fs)) rt)) W Hroom) as (rt1 & E & Hd).
  rewrite (bind_ok _ _ _ _ _ E) in H. fold (under_monitors fs) in H. unfold deferring at 1 in H.
  pose proof (under_monitors_distinct fs Hc rt1 Hd) as Hd2. destruct (under_monitors fs rt1) as [r1 rt2] eqn:Eu. injection H as <- <-.
  match goal with |- context [unregister_monitors ?l rt2] => set (ids := l) end. split_and!; [done| |].
  - intros i Hi. apply (unregister_gone ids rt2 Hd2). apply list_elem_of_fmap. exists i. split; [done|]. apply elem_of_seq. lia.
  - intros Hr Hp. destruct (under_monitors_clean fs rt1 r1 rt2 Eu Hr Hp) as [Hs Hk]. destruct (unregister_spec ids rt2) as (U1 & U2 & U3). split.
    + intros svc Ht. destruct (Hs svc Ht) as [H1 H2]. split; cbn; rewrite ?U1, ?U2; auto.
    + intros k Hp' rp a p. cbn. rewrite U3. by apply Hk.
Qed.

(** ** [fault] and [fault_all] *)

Definition ran (r : result failure value) : Prop := match r with Ok _ | Err (Raised _) => True | Err _ => False end.

Lemma applyFaults_error svc fs rt e rt' : applyFaults svc fs rt = (Err e, rt') -> ~ ran (Err e).
Proof.
  unfold Runtime.applyFaults. destruct (_ && _); [by intros [= <- _] []|]. cbv zeta.
  destruct (sessions _ !! svc) as [[s|]|]; [destruct (negb _); [|done]|done|]; by intros [= <- _] [].
Qed.

(** Faults that were applied are removed when the body has run, with those of the services before it. *)
Lemma under_faults_clean l k rt r rt' : under_faults monitor now iter l k rt = (r, rt') -> ran r ->
  forall svc, svc ∈ l.*1 -> clean_service svc rt'.
Proof.
  revert rt r rt'. induction l as [|[x fx] l IH]; intros rt r rt'; cbn; [by intros _ _ svc ?%elem_of_nil|].
  unfold bind. destruct (applyFaults x fx rt) as [[[]|e] rt1] eqn:E; [|intros [= <- <-] Hr; by destruct (applyFaults_error _ _ _ _ _ E)].
  unfold deferring. destruct (under_faults monitor now iter l k rt1) as [r1 rt2] eqn:E1. intros [= <- <-] Hr svc [->|Hin]%elem_of_cons.
  - apply removeFaults_clean.
  - apply removeFaults_keeps_clean. by eapply IH.
Qed.

Lemma fault_kwargs_error svc kwargs st (rt : RT V) e rt' : over (fault_kwarg svc) st kwargs rt = (Err e, rt') -> ~ ran (Err e).
Proof.
  revert st rt. induction kwargs as [|kv kwargs IH]; intros st rt; cbn; [done|]. unfold bind.
  destruct (fault_kwarg svc st kv rt) as [[st'|e'] rt1] eqn:E; [apply IH|]. intros [= <- _]. revert E. unfold fault_kwarg. destruct kv as [key v].
  destruct (String.eqb key "run"); [destruct (run_arg "fault" v); [done|by intros [= <- _] []]|].
  destruct (sv_ops svc !! key), v; try destruct (isFaultableSyscall key); by intros [= <- _] [] || done.
Qed.

(** After the body of a [fault] has run the service has no fault at all: a [fault] inside another one on
    the same service ends both. *)
Lemma fault_leaves_none svc kwargs rt r rt' : fault_service monitor now call iter svc kwargs rt = (r, rt') -> ran r ->
  clean_service (sv_name svc) rt'.
Proof.
  unfold fault_service, bind at 1. destruct (over _ _ kwargs rt) as [[[[f|] fs]|e] rt1] eqn:Eo; cbn.
  - intros H Hr. eapply (under_faults_clean [(sv_name svc, fs)]); [exact H|done|by left].
  - by intros [= <- _] [].
  - intros [= <- _] Hr. by destruct (fault_kwargs_error _ _ _ _ _ _ Eo).
Qed.

End Proofs.
End Cleanup.

(** ** The rules that are in force *)
Module InForce.
Import Runtime.

(** The rules a session consults for a syscall. *)
Definition in_force (nr : Z) (s : Session) : list FaultRule := omap (fun p => Session.rules s !! p) (Session.getDynamicRules nr s).

(** What a session keeps of the rules it is given. *)
Definition rules_of (s : Session) (nr : Z) (rs : list FaultRule) : list FaultRule :=
  Session.init_counters <$> List.filter (fun r => Seccomp.SyscallNumber (Session.native (Session.cfg s)) (Syscall r) =? nr) rs.

Section Index.
Context (a : Seccomp.Arch).
Local Abbreviation num r := (Seccomp.SyscallNumber a (Syscall r)).

Definition prepared (r : FaultRule) : FaultRule := if num r <? 0 then r else Session.init_counters r.

Fixpoint positions (nr : Z) (n : nat) (rs : list FaultRule) : list nat :=
  match rs with
  | [] => []
  | r :: rs => (if negb (num r <? 0) && (num r =? nr) then [n] else []) ++ positions nr (S n) rs
  end.

Lemma index_dynamic_spec rs old m :
  (Session.index_dynamic a (seq (length old) (length rs)) (old ++ rs) m).1 = old ++ (prepared <$> rs) /\
  forall nr, default [] ((Session.index_dynamic a (seq (length old) (length rs)) (old ++ rs) m).2 !! nr) =
    default [] (m !! nr) ++ positions nr (length old) rs.
Proof.
  revert old m. induction rs as [|r rs IH]; intros old m; cbn [length seq Session.index_dynamic positions fmap list_fmap].
  { split; [done|]. intros nr. by rewrite !app_nil_r. }
  rewrite list_lookup_middle by done. unfold prepared at 1.
  assert (E : length (old ++ [r]) = S (length old)) by (rewrite length_app; cbn; lia).
  destruct (num r <? 0) eqn:Hn; cbn [negb andb].
  - specialize (IH (old ++ [r]) m). rewrite E, <- !app_assoc in IH. exact IH.
  - rewrite insert_app_r_alt, Nat.sub_diag by lia. cbn [insert list_insert].
    specialize (IH (old ++ [Session.init_counters r]) (Session.map_append (num r) (length old) m)).
    assert (E' : length (old ++ [Session.init_counters r]) = S (length old)) by (rewrite length_app; cbn; lia).
    rewrite E', <- !app_assoc in IH. destruct IH as [IH1 IH2]. split; [exact IH1|]. intros nr. cbn in IH2 |- *. rewrite IH2. unfold Session.map_append.
    destruct (Z.eqb_spec (num r) nr) as [<-|Hne]; [rewrite lookup_insert_eq; by cbn; rewrite <- app_assoc|]. by rewrite lookup_insert_ne.
Qed.

Lemma positions_rules nr rs old : 0 <= nr ->
  omap (fun p => (old ++ (prepared <$> rs)) !! p) (positions nr (length old) rs) =
  Session.init_counters <$> List.filter (fun r => num r =? nr) rs.
Proof.
  intros Hnr. revert old. induction rs as [|r rs IH]; intros old; [done|]. cbn [positions fmap list_fmap List.filter].
  rewrite omap_app. specialize (IH (old ++ [prepared r])). rewrite length_app, Nat.add_1_r, <- app_assoc in IH. cbn [app] in IH.
  rewrite IH. destruct (Z.eqb_spec (num r) nr) as [E|E]; [|by rewrite andb_false_r].
  unfold prepared at 1 2. rewrite E. destruct (Z.ltb_spec nr 0); [lia|]. cbn [negb andb omap list_omap].
  by rewrite list_lookup_middle by done.
Qed.

End Index.

(** Installing rules puts exactly them in force. *)
Lemma install_in_force rs s : exists s', install rs s = Some s' /\ Session.cfg s' = Session.cfg s /\
  forall nr, 0 <= nr -> in_force nr s' = rules_of s nr rs.
Proof.
  unfold install, Session.SetDynamicFaultRules. cbn.
  destruct (index_dynamic_spec (Session.native (Session.cfg s)) rs (Session.rules s) ∅) as [E1 E2].
  destruct (Session.index_dynamic _ _ _ ∅) as [store m]. cbn in E1, E2. subst store. eexists. split; [done|]. split; [done|].
  intros nr Hnr. unfold in_force, Session.getDynamicRules. cbn. rewrite E2, lookup_empty. by apply positions_rules.
Qed.

End InForce.

(** ** Which faults a scenario installs *)
Module Installed.
Import Runtime InForce.

Section Proofs.
Context {V : Type} (monitor : nat -> MonitorDef V) (now : nat -> Z) (start : Manager -> string -> string -> result string string).
Context (call : Callable -> list value -> RT V -> result string value * RT V).
Context (iter : forall A, gmap string A -> list (string * A)).
Context (iter_perm : forall A (m : gmap string A), iter A m ≡ₚ map_to_list m).

Local Abbreviation applyFaults := (applyFaults monitor now iter).
Local Abbreviation apply_services := (apply_services monitor now iter).
Local Abbreviation apply_assumptions := (apply_assumptions monitor now iter).

(** The service's faults are [fs]: they are recorded, and its session, if it has one, has their rules in
    force and no other. *)
Definition installed (svc : string) (fs : gmap string FaultDef) (rt rt' : RT V) : Prop :=
  faults rt' !! svc = Some fs /\
  match sessions rt !! svc with
  | Some None => sessions rt' !! svc = Some None
  | Some (Some s) => exists s', sessions rt' !! svc = Some (Some s') /\ Session.cfg s' = Session.cfg s /\
      forall nr, 0 <= nr -> in_force nr s' = rules_of s nr (engine_rules iter svc fs)
  | None => False
  end.

Definition untouched (svc : string) (rt rt' : RT V) : Prop :=
  faults rt' !! svc = faults rt !! svc /\ sessions rt' !! svc = sessions rt !! svc.

Lemma installed_after svc fs rt rt1 rt2 : untouched svc rt rt1 -> installed svc fs rt1 rt2 -> installed svc fs rt rt2.
Proof. intros [_ E] [H1 H2]. split; [done|]. by rewrite E in H2. Qed.
Lemma installed_before svc fs rt rt1 rt2 : installed svc fs rt rt1 -> untouched svc rt1 rt2 -> installed svc fs rt rt2.
Proof.
  intros [H1 H2] [E1 E2]. split; [congruence|]. destruct (sessions rt !! svc) as [[s|]|]; [|congruence|done].
  destruct H2 as (s' & H & Hs). exists s'. by rewrite E2.
Qed.
Lemma installed_again svc fs fs' rt rt1 rt2 : installed svc fs rt rt1 -> installed svc fs' rt1 rt2 -> installed svc fs' rt rt2.
Proof.
  intros [_ H] [H1 H2]. split; [done|]. destruct (sessions rt !! svc) as [[s|]|]; [|by rewrite H in H2|done].
  destruct H as (s' & E & Hc & _). rewrite E in H2. destruct H2 as (s2 & E2 & Hc2 & Hf). exists s2. split; [done|]. split; [congruence|].
  intros nr Hnr. rewrite Hf by done. unfold rules_of. by rewrite Hc.
Qed.
Lemma untouched_trans svc rt rt1 rt2 : untouched svc rt rt1 -> untouched svc rt1 rt2 -> untouched svc rt rt2.
Proof. intros [] []. split; congruence. Qed.

Lemma applyFaults_ok svc fs rt rt' : applyFaults svc fs rt = (Ok tt, rt') ->
  installed svc fs rt rt' /\ forall svc', svc' <> svc -> untouched svc' rt rt'.
Proof.
  unfold Runtime.applyFaults. destruct (_ && _); [done|]. set (rt1 := set_probFaults _ _).
  change (sessions rt1) with (sessions rt). unfold installed, untouched. destruct (sessions rt !! svc) as [[s|]|] eqn:E; [|..|done].
  - destruct (negb _); [done|]. destruct (install_in_force (engine_rules iter svc fs) s) as (s' & -> & Hc & Hf). intros [= <-].
    match goal with |- context [Emit monitor now ?t ?v ?f ?r] => destruct (Cleanup.Emit_frame monitor now t v f r) as [_ -> -> _ _ _ _] end.
    cbn. rewrite lookup_insert_eq. split; [split; [done|]; exists s'; by rewrite lookup_insert_eq|].
    intros svc' Hne. by rewrite !lookup_insert_ne by done.
  - intros [= <-].
    match goal with |- context [Emit monitor now ?t ?v ?f (Emit monitor now ?t' ?v' ?f' ?r)] =>
      destruct (Cleanup.Emit_frame monitor now t v f (Emit monitor now t' v' f' r)) as [_ -> -> _ _ _ _];
      destruct (Cleanup.Emit_frame monitor now t' v' f' r) as [_ -> -> _ _ _ _] end.
    cbn. rewrite lookup_insert_eq. split; [done|]. intros svc' Hne. by rewrite !lookup_insert_ne by done.
Qed.

Lemma apply_services_installs l acc rt acc' rt' svc : NoDup l.*1 -> apply_services l acc rt = (Ok acc', rt') ->
  (forall fs, (svc, fs) ∈ l -> installed svc fs rt rt') /\ (svc ∉ l.*1 -> untouched svc rt rt').
Proof.
  revert acc rt. induction l as [|[x fx] l IH]; intros acc rt; cbn.
  - intros _ [= _ <-]. split; [by intros fs ?%elem_of_nil|done].
  - intros [Hx Hd]%NoDup_cons. unfold bind. destruct (applyFaults x fx rt) as [[[]|e] rt1] eqn:E; [|done]. intros H.
    apply applyFaults_ok in E as [Hi Hu]. destruct (IH _ _ Hd H) as [IH1 IH2]. split.
    + intros fs [[= -> ->]|Hin]%elem_of_cons; [eapply installed_before; [done|by apply IH2]|].
      eapply installed_after; [|by apply IH1]. apply Hu. intros ->. destruct Hx. by apply (list_elem_of_fmap_2 fst) in Hin.
    + intros [Hne Hn]%not_elem_of_cons. eapply untouched_trans; [by apply Hu|by apply IH2].
Qed.

Lemma apply_group_installs m acc rt acc' rt' svc : apply_services (iter _ m) acc rt = (Ok acc', rt') ->
  match m !! svc with Some fs => installed svc fs rt rt' | None => untouched svc rt rt' end.
Proof using iter_perm.
  intros H. assert (Hd : NoDup (iter _ m).*1) by (rewrite iter_perm; apply NoDup_fst_map_to_list).
  destruct (apply_services_installs _ _ _ _ _ svc Hd H) as [H1 H2].
  destruct (m !! svc) as [fs|] eqn:E.
  - apply H1. rewrite iter_perm. by apply elem_of_map_to_list.
  - apply H2. rewrite (Cleanup.iter_dom iter iter_perm). rewrite E. by intros [? ?].
Qed.

(** The faults of the last assumption that names the service. *)
Definition winner (fas : list FaultAssumptionDef) (svc : string) : option (gmap string FaultDef) :=
  last (omap (fun fa => group_rules (fa_rules fa) !! svc) fas).

(** When the faults of a scenario have been applied, each service has in force exactly the rules of
    the last assumption that targets it, expanded per syscall with their errno, delay and path; the rules
    an earlier assumption put on the same service are gone, and no other service changed. *)
Theorem last_assumption_in_force fas rt applied rt' : apply_assumptions fas rt = (Ok applied, rt') ->
  forall svc, match winner fas svc with Some fs => installed svc fs rt rt' | None => untouched svc rt rt' end.
Proof using iter_perm.
  unfold Runtime.apply_assumptions, winner. generalize (∅ : gset string). revert rt.
  induction fas as [|fa fas IH]; intros rt acc; cbn; [by intros [= _ <-] svc|].
  unfold bind. destruct (apply_services _ acc rt) as [[acc1|e] rt1] eqn:E; [|done]. intros H svc.
  specialize (IH _ _ H svc). pose proof (apply_group_installs _ _ _ _ _ svc E) as Hg.
  destruct (group_rules (fa_rules fa) !! svc) as [fs|] eqn:Eg.
  - rewrite last_cons. destruct (last (omap _ fas)) as [fs'|] eqn:El; [by eapply installed_again|by eapply installed_before].
  - destruct (last (omap _ fas)) as [fs'|] eqn:El; [by eapply installed_after|by eapply untouched_trans].
Qed.

(** ** A fault that cannot be applied *)

Definition local (rt : RT V) (svc : string) : Prop := forall d, services rt !! svc = Some d -> IsRemote d = false.

Lemma local_not_remote rt svc (fs : gmap string FaultDef) : local rt svc ->
  (match services rt !! svc with Some d => IsRemote d | None => false end) && negb (bool_decide (fs = ∅)) = false.
Proof. intros H. destruct (services rt !! svc) as [d|] eqn:E; [by rewrite (H d E)|done]. Qed.

Lemma applyFaults_succeeds svc fs s rt : local rt svc -> sessions rt !! svc = Some (Some s) ->
  uncoveredSyscalls s (engine_rules iter svc fs) = [] ->
  exists rt', applyFaults svc fs rt = (Ok tt, rt') /\ services rt' = services rt.
Proof.
  intros Hl Hs Hc. unfold Runtime.applyFaults. rewrite local_not_remote by done. cbn. rewrite Hs, Hc. eexists. split; [done|].
  match goal with |- context [Emit monitor now ?t ?v ?f ?r] => destruct (Cleanup.Emit_frame monitor now t v f r) as [-> _ _ _ _ _ _] end. done.
Qed.

Lemma applyFaults_stopped svc fs rt : local rt svc -> sessions rt !! svc = None ->
  exists rt', applyFaults svc fs rt = (Err (NotRunning svc), rt') /\ forall svc', svc' <> svc -> untouched svc' rt rt'.
Proof.
  intros Hl Hs. unfold Runtime.applyFaults. rewrite local_not_remote by done. cbn. rewrite Hs. eexists. split; [done|].
  intros svc' Hne. split; [|done]. cbn. by rewrite lookup_insert_ne.
Qed.

Lemma iter_singleton {A} k (x : A) : iter A {[k := x]} = [(k, x)].
Proof using iter_perm. pose proof (iter_perm A {[k := x]}) as H. rewrite map_to_list_singleton in H. by apply Permutation_singleton_r in H. Qed.

(** C33: A scenario whose second fault cannot be applied leaves its first one in force.  When the first
    assumption targets a running service whose filter covers it and the second one a service that is not
    running, the runner returns an error, and the rules of the first assumption are still recorded and
    still in force in the running service's session. *)
Theorem failed_scenario_leaks_faults fs fa fb a b fsa fsb s rt :
  fs_faults fs = [fa; fb] -> group_rules (fa_rules fa) = {[a := fsa]} -> group_rules (fa_rules fb) = {[b := fsb]} ->
  local rt a -> local rt b -> a <> b -> sessions rt !! a = Some (Some s) -> sessions rt !! b = None ->
  uncoveredSyscalls s (engine_rules iter a fsa) = [] ->
  exists rt', makeFaultScenarioRunner monitor now start call iter fs rt = (Err (InScenario (fs_name fs) (NotRunning b)), rt') /\
    installed a fsa rt rt'.
Proof using iter_perm.
  intros Hfs Hga Hgb Hla Hlb Hab Hsa Hsb Hc. unfold makeFaultScenarioRunner. rewrite Hfs.
  unfold modify, bind at 1, deferring, bind at 1. set (rt0 := set_require _ _). unfold bind at 1.
  destruct (Cleanup.register_monitors_ok monitor (List.concat (fa_monitors <$> [fa; fb]) ++ fs_monitors fs) rt0) as (ids & rt1 & -> & E1 & E2 & _ & E3).
  unfold in_scenario, Runtime.apply_assumptions. cbn [over]. unfold bind. rewrite Hga, Hgb, !iter_singleton. cbn [Runtime.apply_services]. unfold bind.
  destruct (applyFaults_succeeds a fsa s rt1) as (rt2 & H2 & S2); [unfold local; by rewrite E3|by rewrite E2|done|].
  destruct (applyFaults_ok _ _ _ _ H2) as [Hi Hu]. rewrite H2. cbn [ret].
  destruct (applyFaults_stopped b fsb rt2) as (rt3 & H3 & U3); [unfold local; by rewrite S2, E3|rewrite (proj2 (Hu b (not_eq_sym Hab))); by rewrite E2|].
  rewrite H3. eexists. split; [done|]. destruct (Cleanup.unregister_spec ids rt3) as (F1 & F2 & _).
  assert (Hi3 : installed a fsa rt1 rt3) by (eapply installed_before; [done|by apply U3]).
  unfold installed in *. cbn. rewrite F1, F2. by rewrite E2 in Hi3.
Qed.

(** ** From a keyword to the rules *)

Lemma engine_rules_syscalls svc fs : Syscall <$> engine_rules iter svc fs = (iter _ fs).*1 ≫= expandSyscallFamily.
Proof.
  unfold engine_rules. induction (iter _ fs) as [|[k fd] l IH]; [done|]. cbn. rewrite fmap_app, IH. f_equal.
  clear. induction (expandSyscallFamily k) as [|sc l IH]; [done|]. cbn. by rewrite IH.
Qed.

Lemma engine_rules_in svc fs r : r ∈ engine_rules iter svc fs <->
  exists k fd sc, fs !! k = Some fd /\ sc ∈ expandSyscallFamily k /\ r = engine_rule svc k fd sc.
Proof using iter_perm.
  unfold engine_rules. rewrite list_elem_of_bind. split.
  - intros ([k fd] & (sc & -> & Hsc)%list_elem_of_fmap & Hin). rewrite iter_perm in Hin. apply elem_of_map_to_list in Hin. by exists k, fd, sc.
  - intros (k & fd & sc & Hk & Hsc & ->). exists (k, fd). split; [by apply list_elem_of_fmap_2|]. rewrite iter_perm. by apply elem_of_map_to_list.
Qed.

(** What [fault_assumption(target=svc, write=...)] asks of the service. *)
Lemma write_group svc fd : sv_ops svc !! "write" = None ->
  group_rules (keyword_rules svc "write" fd) !! sv_name svc = Some (<["pwrite64" := fd]> (<["writev" := fd]> {["write" := fd]})).
Proof. intros E. unfold keyword_rules. rewrite E. cbn. by rewrite !lookup_insert_eq. Qed.

Lemma write_keys (fd : FaultDef) : (iter _ (<["pwrite64" := fd]> (<["writev" := fd]> {["write" := fd]}))).*1 ≡ₚ ["pwrite64"; "writev"; "write"].
Proof using iter_perm.
  rewrite iter_perm. rewrite !map_to_list_insert by (by rewrite ?lookup_insert_ne, ?lookup_singleton_ne by done).
  by rewrite map_to_list_singleton.
Qed.

(** A map of enumerated faults without labels gives a site per syscall. *)
Definition all_enumerated (fs : gmap string FaultDef) : Prop :=
  forall k fd, fs !! k = Some fd -> enumerated fd = true /\ fd_label fd = "".

Lemma sites_unlabelled svc fs : all_enumerated fs ->
  exists f, sites svc fs = f <$> sort_strings (map_to_list fs).*1 /\
    forall k fd, fs !! k = Some fd -> f k = Leaf.mkProb (svc +:+ ":" +:+ k) (fd_max fd) (fd_prob fd).
Proof.
  intros H. exists (fun k => match fs !! k with Some fd => Leaf.mkProb (svc +:+ ":" +:+ k) (fd_max fd) (fd_prob fd) | None => Leaf.mkProb "" 0 f64_0 end).
  split; [|intros k fd ->; done]. unfold sites.
  assert (Hk : Forall (fun k => is_Some (fs !! k)) (sort_strings (map_to_list fs).*1)).
  { unfold sort_strings. rewrite merge_sort_Permutation. apply Forall_forall.
    intros k ([k' fd] & -> & E%elem_of_map_to_list)%list_elem_of_fmap. by exists fd. }
  induction Hk as [|k l [fd E] _ IH]; [done|]. cbn. rewrite E. destruct (H k fd E) as [-> ->]. cbn. by rewrite IH.
Qed.

Lemma record_distinct l acc : NoDup (Leaf.ProbKey <$> acc ++ l) -> Forall (fun p => Leaf.ProbKey p <> "" /\ 0 < Leaf.MaxFires p) l ->
  foldl (fun ps s => Leaf.recordProbFault s ps) acc l = acc ++ l.
Proof.
  intros Hd Hf. revert acc Hd. induction Hf as [|p l [Hk Hm] _ IH]; intros acc Hd; cbn; [by rewrite app_nil_r|].
  assert (E : Leaf.recordProbFault p acc = acc ++ [p]); [|rewrite E, IH; by rewrite <- app_assoc].
  unfold Leaf.recordProbFault. rewrite (proj2 (String.eqb_neq _ _) Hk), (proj2 (Z.leb_gt _ _) Hm). cbn [orb].
  destruct (existsb _ acc) eqn:Ex; [|done]. apply existsb_exists in Ex as (q & Hq%list_elem_of_In & Eq%String.eqb_eq).
  rewrite fmap_app in Hd. apply NoDup_app in Hd as (_ & Hn & _). destruct (Hn (Leaf.ProbKey p)); [rewrite <- Eq; by apply list_elem_of_fmap_2|by left].
Qed.

Lemma sites_recorded svc fs : all_enumerated fs -> length (Leaf.recorded_probs (sites svc fs)) = size fs.
Proof.
  intros H. destruct (sites_unlabelled svc fs H) as (f & E & Hf). unfold Leaf.recorded_probs.
  assert (Hk : forall k, k ∈ sort_strings (map_to_list fs).*1 -> exists fd, fs !! k = Some fd).
  { unfold sort_strings. intros k. rewrite merge_sort_Permutation. intros ([k' fd] & -> & Hin%elem_of_map_to_list)%list_elem_of_fmap. by exists fd. }
  rewrite record_distinct; cbn [app]; rewrite E.
  - unfold sort_strings. by rewrite length_fmap, merge_sort_Permutation, length_fmap, length_map_to_list.
  - rewrite <- list_fmap_compose. apply NoDup_fmap_2_strong.
    + intros x y [fx Ex]%Hk [fy Ey]%Hk Exy. cbn in Exy. rewrite (Hf _ _ Ex), (Hf _ _ Ey) in Exy. cbn in Exy.
      apply (inj (String.append _)) in Exy. by injection Exy.
    + unfold sort_strings. rewrite merge_sort_Permutation. apply NoDup_fst_map_to_list.
  - apply Forall_fmap, Forall_forall. intros k [fd Ek]%Hk. cbn. rewrite (Hf _ _ Ek). cbn. destruct (H _ _ Ek) as [He _].
    unfold enumerated in He. apply andb_true_iff in He as [[_ Hm%Z.ltb_lt]%andb_true_iff _]. split; [|done].
    destruct svc; done.
Qed.

(** A family's members are doubled.  An assumption that faults [write] names its three syscalls, and
    each name is expanded again when the faults are applied: [writev] gets two rules, each with the
    fault's own probability, and an enumerated fault three exploration sites, where [fault] on the same
    keyword gives one of each. *)
Theorem assumption_doubles_family svc fd : sv_ops svc !! "write" = None ->
  enumerated fd = true -> fd_label fd = "" ->
  let fs := default ∅ (group_rules (keyword_rules svc "write" fd) !! sv_name svc) in
  occ "writev" (Syscall <$> engine_rules iter (sv_name svc) fs) = 2%nat /\
  occ "writev" (Syscall <$> engine_rules iter (sv_name svc) {["write" := fd]}) = 1%nat /\
  length (Leaf.recorded_probs (sites (sv_name svc) fs)) = 3%nat /\
  length (Leaf.recorded_probs (sites (sv_name svc) {["write" := fd]})) = 1%nat.
Proof using iter_perm.
  intros Hops Hen Hl fs. unfold fs. rewrite write_group by done. cbn [default]. unfold id. rewrite !engine_rules_syscalls. split_and!.
  - rewrite (Permutation_occ "writev" _ _ (bind_Permutation _ _ _ (write_keys fd))). by vm_compute.
  - rewrite iter_singleton. by vm_compute.
  - rewrite sites_recorded; [rewrite !map_size_insert_None by (by rewrite ?lookup_insert_ne, ?lookup_singleton_ne by done); by rewrite map_size_singleton|].
    intros k fd'. rewrite !lookup_insert_Some, lookup_singleton_Some. naive_solver.
  - rewrite sites_recorded; [by rewrite map_size_singleton|]. intros k fd' [_ <-]%lookup_singleton_Some. done.
Qed.

(** ** From [deny] to the kernel's answer *)

Lemma assoc_in {A} name (t : list (string * A)) v : assoc name t = Some v -> (name, v) ∈ t.
Proof.
  induction t as [|[n x] t IH]; [done|]. cbn. destruct (String.eqb_spec n name) as [->|_]; [intros [= <-]; by left|]. intros H. right. by apply IH.
Qed.

Lemma to_upper_twice s : to_upper (to_upper s) = to_upper s.
Proof.
  unfold to_upper. induction s as [|c s IH]; [done|]. cbn. rewrite IH. f_equal. destruct c as [[] [] [] [] [] [] [] []]; reflexivity.
Qed.

Lemma deny_text sc en e : name_ok sc -> (en, e) ∈ errnoMap ->
  ParseFaultRule (sc +:+ "=" +:+ en +:+ ":100%") = Ok (deny_rule sc e 100 "" TriggerAlways 0).
Proof.
  intros Hsc Hen. rewrite <- (deny_rule_roundtrip sc en e 100 "" TriggerAlways 0); [|done..].
  f_equal. by rewrite (deny_rule_text sc en) by done.
Qed.

Lemma deny_fault args kwargs fd : Faults.builtinDeny args kwargs = Ok (VFault fd) ->
  fd_action fd = "deny" /\ exists e, (fd_errno fd, e) ∈ errnoMap /\ errnoByName (fd_errno fd) = Some e.
Proof.
  unfold Faults.builtinDeny. destruct (Faults.one_string "deny" args) as [errno|]; [|done]. cbn.
  destruct (Faults.parseProbabilityFanoutKwargs _ _ _) as [mm|]; [|done]. cbn.
  destruct (ValidErrno (to_upper errno)) eqn:E; [|done]. cbn. intros [= <-]. split; [done|]. cbn.
  unfold ValidErrno in E. apply bool_decide_eq_true in E as [e E]. exists e. split; [|done].
  unfold errnoByName in E. rewrite to_upper_twice in E. by apply assoc_in.
Qed.

Lemma family_names kw : name_ok kw -> forall sc, sc ∈ expandSyscallFamily kw -> name_ok sc.
Proof.
  intros H sc. unfold expandSyscallFamily.
  repeat (destruct (String.eqb _ _); [rewrite !elem_of_cons; intros Hs; repeat (destruct Hs as [->|Hs]; [by split_and!|]); by apply elem_of_nil in Hs|]).
  rewrite list_elem_of_singleton. by intros ->.
Qed.

(** The faults that the keywords of [fault_start] give. *)
Lemma start_kwargs_ok kwargs m (rt : RT V) fs rt' : over start_kwarg m kwargs rt = (Ok fs, rt') ->
  rt' = rt /\ (forall k, k ∉ kwargs.*1 -> fs !! k = m !! k) /\
  (NoDup kwargs.*1 -> forall k fd, (k, VFault fd) ∈ kwargs -> fs !! k = Some fd).
Proof.
  revert m. induction kwargs as [|[k v] kwargs IH]; intros m; cbn [over].
  - intros [= <- <-]. split_and!; [done|done|]. by intros _ k fd []%elem_of_nil.
  - unfold bind. destruct v; try done. cbn. intros H. destruct (IH _ H) as (-> & Ho & Hi). split_and!; [done| |].
    + intros k'. rewrite not_elem_of_cons. intros [Hne Hn]. rewrite Ho by done. by rewrite lookup_insert_ne.
    + intros [Hn Hnd]%NoDup_cons k' fd' [[= -> ->]|Hin]%elem_of_cons; [|by apply Hi]. rewrite Ho by done. apply lookup_insert_eq.
Qed.

(** C11: A denial reaches the kernel.  When [fault_start] on a running service succeeds and one of its keywords
    is given a fault that [deny] made, every syscall the keyword stands for has a rule in force in the
    session, and, unless another keyword of the call stands for that syscall too, every rule in force
    for it denies with the number of the errno named and the probability given. *)
Theorem deny_reaches_session dargs dkwargs fd kw svc more kwargs s rt v rt' :
  Faults.builtinDeny dargs dkwargs = Ok (VFault fd) -> name_ok kw -> NoDup kwargs.*1 -> (kw, VFault fd) ∈ kwargs ->
  sessions rt !! sv_name svc = Some (Some s) ->
  builtinFaultStart monitor now iter (VService svc :: more) kwargs rt = (Ok v, rt') ->
  exists s', sessions rt' !! sv_name svc = Some (Some s') /\
    forall sc, sc ∈ expandSyscallFamily kw -> let nr := Seccomp.SyscallNumber (Session.native (Session.cfg s)) sc in 0 <= nr ->
      in_force nr s' <> [] /\
      ((forall k sc', k ∈ kwargs.*1 -> sc' ∈ expandSyscallFamily k -> Seccomp.SyscallNumber (Session.native (Session.cfg s)) sc' = nr -> k = kw) ->
       Forall (fun r => Action r = ActionDeny /\ Some (Errno r) = errnoByName (fd_errno fd) /\ Probability r = fd_prob fd) (in_force nr s')).
Proof using iter_perm.
  intros Hd Hkw Hnd Hin Hs. unfold builtinFaultStart, bind. destruct (over start_kwarg ∅ kwargs rt) as [[fs|e] rt1] eqn:Ek; [|done].
  apply start_kwargs_ok in Ek as (-> & Ho & Hi). specialize (Hi Hnd kw fd Hin).
  destruct (Runtime.applyFaults _ _ _ _ fs rt) as [[[]|e] rt2] eqn:Ha; [|done]. intros [= _ <-].
  apply applyFaults_ok in Ha as [[_ Hi'] _]. rewrite Hs in Hi'. destruct Hi' as (s' & E & _ & Hf). exists s'. split; [done|].
  cbv zeta. intros sc Hsc Hnr. rewrite Hf by done. unfold rules_of. destruct (deny_fault _ _ _ Hd) as (Hact & e & Hein & He). split.
  - intros Hnil. apply fmap_nil_inv in Hnil. assert (Hr : engine_rule (sv_name svc) kw fd sc ∈ []); [|by apply elem_of_nil in Hr].
    rewrite <- Hnil. apply list_elem_of_In, List.filter_In. split; [|by apply Z.eqb_refl].
    apply list_elem_of_In, engine_rules_in. by exists kw, fd, sc.
  - intros Honly. apply Forall_fmap, Forall_forall. intros r [Hr Hn]%list_elem_of_In%List.filter_In.
    apply list_elem_of_In, engine_rules_in in Hr as (k & fd' & sc' & Hk & Hsc' & ->). apply Z.eqb_eq in Hn.
    assert (Hkk : k ∈ kwargs.*1) by (destruct (decide (k ∈ kwargs.*1)) as [?|Hni]; [done|by rewrite Ho in Hk]).
    assert (k = kw) as -> by by apply (Honly k sc'). assert (fd' = fd) as -> by congruence.
    rewrite He. unfold engine_rule. cbn. rewrite Hact. cbn. rewrite (deny_text _ _ _ (family_names _ Hkw _ Hsc') Hein). done.
Qed.

End Proofs.
End Installed.

(** ** A runtime to instantiate the theorems *)
Module InjectExample.
Import Runtime InForce Installed Cleanup.

Definition no_monitor (_ : nat) : MonitorDef unit := mkMonitor "m" None tt None None.
Definition clock (_ : nat) : Z := 0.
Definition listens (_ : Manager) (_ _ : string) : result string string := Ok "127.0.0.1:4000".
Definition answers (_ : Callable) (_ : list value) (rt : RT unit) : result string value * RT unit := (Ok VNone, rt).
Definition in_order (A : Type) (m : gmap string A) : list (string * A) := map_to_list m.

Lemma in_order_perm A (m : gmap string A) : in_order A m ≡ₚ map_to_list m.
Proof. done. Qed.

Definition db : ServiceDef := mkService "db" ∅ [] ∅ ∅ "" ∅ "" "" false false None None ∅.
Definition api : ServiceDef := mkService "api" {["main" := mkInterface "main" "http" 8080 0 false]} ["db"] ∅ ∅ "" ∅ "" "" false false None None ∅.
Definition eio : FaultDef := mkFault "deny" 0 "EIO" f64_1 "" "" "" 0 "".
Definition flaky : FaultDef := mkFault "deny" 0 "EIO" (f64_div f64_1 (f64_of_Z 2)) "" "" "" 3 "exhaustive".

(** The filter covers the write family. *)
Definition db_session : Session :=
  Session.NewSession "db" (Session.mkConfig Seccomp.amd64 ((fun sc => Launch.sample sc 5) <$> ["write"; "writev"; "pwrite64"]) true (Some 7) false None) (0, 0).

Definition ready : RT unit :=
  mkRT {["db" := db; "api" := api]} ∅ {["db" := Some db_session]} [] (Manager.NewManager true) EventLog.NewEventLog
    (Subscribers.mkState [] 0) ∅ [] None false "" false (mkPackets "default" [] None ∅ 0 None 0 ∅ ∅).

Lemma ready_local svc : local ready svc.
Proof.
  intros d. unfold ready, services. rewrite lookup_insert_Some, lookup_singleton_Some.
  intros [[_ <-]|[_ [_ <-]]]; vm_compute; reflexivity.
Qed.

Definition disk_errors : FaultAssumptionDef := mkAssumption "disk_errors" "" [mkAssumed db "write" eio] [] [].
Definition api_errors : FaultAssumptionDef := mkAssumption "api_errors" "" [mkAssumed api "write" eio] [] [].
Definition probe : Callable := mkCallable "probe" "function" 0.
Definition one_fault : FaultScenarioDef := mkFaultScenario "one" probe [disk_errors] None [] thirty_seconds None false.
Definition two_faults : FaultScenarioDef := mkFaultScenario "two" probe [disk_errors; api_errors] None [] thirty_seconds None false.

Definition watched : FaultScenarioDef := mkFaultScenario "watched" probe [disk_errors] None [0%nat] thirty_seconds None false.

Lemma scenario_cleans_up_witness :
  clean_service "db" (makeFaultScenarioRunner no_monitor clock listens answers in_order watched ready).2 /\
  1 ∉ Subscribers.ID <$> Subscribers.subscribers (subs (makeFaultScenarioRunner no_monitor clock listens answers in_order watched ready).2).
Proof.
  assert (E : (makeFaultScenarioRunner no_monitor clock listens answers in_order watched ready).1 = Ok VNone) by (vm_compute; reflexivity).
  destruct (makeFaultScenarioRunner no_monitor clock listens answers in_order watched ready) as [r rt'] eqn:Er. cbn in E. subst r.
  destruct (scenario_cleans_up no_monitor clock listens answers in_order in_order_perm watched ready (Ok VNone) rt') as (_ & Hm & H);
    [split; [constructor|by split; [constructor|]]|vm_compute; reflexivity|by intros f args rt|exact Er|].
  split; [|apply (Hm 0%nat); cbn; lia].
  apply H; [done|done|]. exists disk_errors, (mkAssumed db "write" eio). split_and!; [by left|by left|done].
Defined.

Lemma failed_scenario_leaks_faults_witness :
  exists rt', makeFaultScenarioRunner no_monitor clock listens answers in_order two_faults ready =
    (Err (InScenario "two" (NotRunning "api")), rt') /\ installed in_order "db" {["write" := eio]} ready rt'.
Proof.
  apply (failed_scenario_leaks_faults no_monitor clock listens answers in_order in_order_perm two_faults disk_errors api_errors "db" "api"
    {["write" := eio]} {["write" := eio]} db_session ready); [reflexivity|vm_compute; reflexivity|vm_compute; reflexivity| | |discriminate|reflexivity|reflexivity|vm_compute; reflexivity].
  - apply ready_local.
  - apply ready_local.
Defined.

Lemma last_assumption_in_force_witness :
  let slow := mkFault "delay" 5000000 "" f64_1 "" "" "" 0 "" in
  let later := mkAssumption "slow_disk" "" [mkAssumed db "writev" slow] [] [] in
  exists applied rt', apply_assumptions no_monitor clock in_order [disk_errors; later] ready = (Ok applied, rt') /\
    installed in_order "db" {["writev" := slow]} ready rt'.
Proof.
  intros slow later. set (m := apply_assumptions no_monitor clock in_order [disk_errors; later] ready).
  assert (E : is_ok m.1 = true) by (vm_compute; reflexivity).
  destruct m as [[applied|e] rt'] eqn:Em; [|discriminate E]. exists applied, rt'. split; [reflexivity|].
  pose proof (last_assumption_in_force no_monitor clock in_order in_order_perm [disk_errors; later] ready applied rt' Em "db") as H.
  assert (W : winner [disk_errors; later] "db" = Some {["writev" := slow]}) by (vm_compute; reflexivity).
  rewrite W in H. exact H.
Defined.

Lemma assumption_doubles_family_witness :
  occ "writev" (Syscall <$> engine_rules in_order "db" (default ∅ (group_rules (keyword_rules db "write" flaky) !! "db"))) = 2%nat.
Proof. apply (assumption_doubles_family in_order in_order_perm db flaky); vm_compute; reflexivity. Defined.

Lemma deny_reaches_session_witness :
  let kwargs := [("write", VFault eio); ("pwrite64", VFault flaky)] in
  exists s' rt', builtinFaultStart no_monitor clock in_order [VService db] kwargs ready = (Ok VNone, rt') /\
    sessions rt' !! "db" = Some (Some s') /\ in_force 20 s' <> [] /\
    Forall (fun r => Action r = ActionDeny /\ Some (Errno r) = Some 5 /\ Probability r = f64_1) (in_force 20 s').
Proof.
  intros kwargs. set (m := builtinFaultStart no_monitor clock in_order [VService db] kwargs ready).
  assert (E : m.1 = Ok VNone) by (vm_compute; reflexivity).
  destruct m as [r rt'] eqn:Em. cbn in E. subst r.
  destruct (deny_reaches_session no_monitor clock in_order in_order_perm [VString "eio"] [] eio "write" db [] kwargs db_session ready VNone rt')
    as (s' & H1 & H2); [vm_compute; reflexivity|by split_and!| |by left|reflexivity|exact Em|].
  - apply (bool_decide_unpack _). vm_compute. exact I.
  - exists s', rt'. split; [reflexivity|]. split; [exact H1|]. destruct (H2 "writev") as [Hne Hall]; [right; by left|done|].
    split; [exact Hne|]. apply Hall. intros k sc' Hk Hsc.
    apply elem_of_cons in Hk as [Hk|Hk]; [intros _; exact Hk|]. apply list_elem_of_singleton in Hk as ->.
    vm_compute in Hsc. apply list_elem_of_singleton in Hsc as ->. discriminate.
Defined.

End InjectExample.
