(* ===== verification/Partition.v ===== *)
(** * Partitions ([internal/star/partition.go], [internal/star/packetgateway_wire.go])

    The address a consumer dials to reach an interface through the packet gateway, and the
    builtins [partition], [partition_start] and [partition_stop], which drop the packets on the
    routes between two services, with the cleanup at the end of a test.  The theorems compose the
    runtime of [Inject] with the gateway: which packets a partition drops, and that removing it
    restores what acts on every packet. *)

From Stdlib Require Import ZArith Lia Ascii.
From S2P Require Import Prelude GoStd GoText FaultRule EventLog Trace ProxyManager NetRule Registry FaultBuiltins PacketFault Gateway Inject.
From stdpp Require Import base gmap sets strings sorting numbers list.
Local Open Scope Z_scope.
Import GoStd GoText FaultRule Effect Registry.Spec Runtime.
Local Open Scope effect_scope.

Module Partition.

Definition direction_text (d : partitionDirection) : string :=
  match d with partitionBoth => "both" | partitionAtoB => "a_to_b" | partitionBtoA => "b_to_a" end.

Definition parsePartitionDirection (s : string) : option partitionDirection :=
  if String.eqb s "both" then Some partitionBoth
  else if String.eqb s "a_to_b" then Some partitionAtoB
  else if String.eqb s "b_to_a" then Some partitionBtoA else None.

Definition pairKey (a b : string) : string :=
  let '(a, b) := if String.ltb b a then (b, a) else (a, b) in a +:+ String "000" b.

(** Consumer and target of each leg. *)
Definition legs (d : partitionDirection) (a b : string) : list (string * string) :=
  match d with
  | partitionAtoB => [(a, b)]
  | partitionBtoA => [(b, a)]
  | partitionBoth => [(a, b); (b, a)]
  end.

Definition sortedInterfaceNames (svc : ServiceDef) : list string := sort_strings (map_to_list (sv_interfaces svc)).*1.

(** The routes to cut: consumer, target and interface. *)
Definition routes (d : partitionDirection) (a b : string) (svcA svcB : ServiceDef) : list (string * string * string) :=
  '(c, t) ← legs d a b; (fun i => (c, t, i)) <$> sortedInterfaceNames (if String.eqb t b then svcB else svcA).

Record PartitionArgs := mkPartitionArgs { pa_a : string; pa_b : string; pa_dir : partitionDirection; pa_run : option Callable }.

Fixpoint partition_kwargs (who : string) (kwargs : list (string * value)) (st : partitionDirection * option Callable)
    : result Spec.error (partitionDirection * option Callable) :=
  match kwargs with
  | [] => Ok st
  | (key, v) :: kwargs =>
      if String.eqb key "direction" then
        match parsePartitionDirection (default "" (as_string v)) with
        | Some d => partition_kwargs who kwargs (d, st.2)
        | None => Err (Msg (who +:+ "(): direction must be both, a_to_b or b_to_a"))
        end
      else if String.eqb key "run" then
        match v with
        | VCallable f => partition_kwargs who kwargs (st.1, Some f)
        | _ => Err (got (who +:+ "() run= must be a callable") v)
        end
      else Err (Unexpected who key)
  end.

Definition two_services (who : string) (args : list value) : result Spec.error (string * string) :=
  match args with
  | [VService a; VService b] => Ok (sv_name a, sv_name b)
  | [VService a; v] => Err (got (who +:+ "() second argument must be a service") v)
  | [v; _] => Err (got (who +:+ "() first argument must be a service") v)
  | _ => Err (Msg (who +:+ "() takes exactly two service arguments"))
  end.

Definition parsePartitionArgs (who : string) (args : list value) (kwargs : list (string * value)) : result Spec.error PartitionArgs :=
  let? ab := two_services who args in
  let? dr := partition_kwargs who kwargs (partitionBoth, None) in
  Ok (mkPartitionArgs ab.1 ab.2 dr.1 dr.2).

Section Operations.
Context {V : Type} (monitor : nat -> MonitorDef V) (now : nat -> Z).
Context (call : Callable -> list value -> RT V -> result string value * RT V).
Context (attach : RT V -> result string string) (ask : PacketFaults.Caller).
(** Whether the gateway can listen on an address, and the order in which Go visits the partitions. *)
Context (listen : Alloc.GatewayAddr -> bool) (visit : gmap string activePartition -> list activePartition).

Local Abbreviation M := (@Runtime.M V).
Local Abbreviation Emit := (Emit monitor now).
Local Abbreviation ensurePacketGateway := (ensurePacketGateway monitor now attach).
Local Abbreviation applyPacketFaults := (applyPacketFaults monitor now ask).
Local Abbreviation close_window := (close_window monitor now).
Local Abbreviation body := (body call).

(** ** Addresses *)

(** The address to dial, "" when the gateway does not serve it: then the caller dials the proxy. *)
Definition gatewayAddrFor (consumer service iface : string) (port : Z) (upstream : string) (rt : RT V) : string * RT V :=
  if negb (String.eqb (detRuntime (packets rt)) gvisor) then ("", rt)
  else if String.eqb upstream "" then ("", rt)
  else match ensurePacketGateway rt with
       | (Ok (Some gw), rt) =>
           match Gateway.Allocate consumer service iface port upstream gw with
           | (Err _, gw) => ("", set_packets (set_net (heap (packets rt), Some gw) (packets rt)) rt)
           | (Ok ga, gw) =>
               let rt := set_packets (set_net (heap (packets rt), Some gw) (packets rt)) rt in
               let addr := Alloc.Addr ga in
               if bool_decide (addr ∈ served (packets rt)) then (addr, rt)
               else if listen ga then
                 (addr, Emit "packet_gateway_route" service
                          [("interface", iface); ("consumer", consumer); ("addr", addr); ("upstream", upstream)]
                          (set_packets (set_served ({[addr]} ∪ served (packets rt)) (packets rt)) rt))
               else ("", rt)
           end
       | (_, rt) => ("", rt)
       end.

(** ** Installing and removing *)

Definition drop_fault (label : string) : PacketFaultDef :=
  let b := PacketFaults.blank "drop" in
  mkPacketFault "drop" (pk_match b) (mkChance 0 0 0 f64_0 0 "" label) (pk_params b).

(** The routes one after the other; when one fails what was installed is undone. *)
Fixpoint cut (label : string) (rs : list (string * string * string)) (ws : list PacketWindow) : M (list PacketWindow) :=
  match rs with
  | [] => ret ws
  | (c, t, i) :: rs => fun rt =>
      match applyPacketFaults c t i [drop_fault label] rt with
      | (Ok w, rt) => cut label rs (ws ++ [w]) rt
      | (Err e, rt) => (Err (InScenario "partition" e), foldl (fun rt w => close_window w rt) rt ws)
      end
  end.

Definition refuse_partition {A} (text : string) : M A := fail (Args (Msg ("partition(): " +:+ text))).

Definition installPartition (a b : string) (dir : partitionDirection) (label : string) : M activePartition := fun rt =>
  if negb (String.eqb (detRuntime (packets rt)) gvisor) then (Err (NeedsGateway "partition()" (detRuntime (packets rt))), rt)
  else match services rt !! a, services rt !! b with
       | None, _ => refuse_partition ("no such service " +:+ a) rt
       | _, None => refuse_partition ("no such service " +:+ b) rt
       | Some svcA, Some svcB =>
           if String.eqb a b then refuse_partition ("cannot partition " +:+ a +:+ " from itself") rt
           else
             (ws ⇐ cut label (routes dir a b svcA svcB) [];
              if (length ws =? 0)%nat then refuse_partition "neither service declares an interface to cut"
              else
                modify (Emit "partition_applied" a
                  [("peer", b); ("direction", direction_text dir); ("legs", show_Z (Z.of_nat (length ws)))]) ;;
                ret (mkPartition a b dir ws)) rt
       end.

Definition remove (ap : activePartition) (rt : RT V) : RT V :=
  Emit "partition_removed" (ap_a ap) [("peer", ap_b ap); ("direction", direction_text (ap_dir ap))]
    (foldl (fun rt w => close_window w rt) rt (ap_cleanups ap)).

(** ** The builtins *)

Definition lift_args {A} (r : result Spec.error A) : M A := match r with Ok a => ret a | Err e => fail (Args e) end.

Definition label_for (a b : string) : string := "partition " +:+ a +:+ "|" +:+ b.

Definition builtinPartition (args : list value) (kwargs : list (string * value)) : M value :=
  pa ⇐ lift_args (parsePartitionArgs "partition" args kwargs);
  match pa_run pa with
  | None => fail (Args (Msg "partition() requires run= with a callback"))
  | Some f =>
      ap ⇐ installPartition (pa_a pa) (pa_b pa) (pa_dir pa) (label_for (pa_a pa) (pa_b pa));
      deferring (remove ap) (body f [])
  end.

Definition builtinPartitionStart (args : list value) (kwargs : list (string * value)) : M value :=
  pa ⇐ lift_args (parsePartitionArgs "partition_start" args kwargs);
  match pa_run pa with
  | Some _ => fail (Args (Msg "partition_start() does not take run="))
  | None => fun rt =>
      let key := pairKey (pa_a pa) (pa_b pa) in
      match partitions (packets rt) !! key with
      | Some _ => (Err (Args (Msg "partition_start(): a partition between these services is already active")), rt)
      | None =>
          (ap ⇐ installPartition (pa_a pa) (pa_b pa) (pa_dir pa) (label_for (pa_a pa) (pa_b pa));
           modify (fun rt => set_packets (set_partitions (<[key := ap]> (partitions (packets rt))) (packets rt)) rt) ;; ret VNone) rt
      end
  end.

Definition builtinPartitionStop (args : list value) (kwargs : list (string * value)) : M value :=
  ab ⇐ lift_args (two_services "partition_stop" args);
  match kwargs with
  | (key, _) :: _ => fail (Args (Unexpected "partition_stop" key))
  | [] => fun rt =>
      let key := pairKey ab.1 ab.2 in
      let rt' := set_packets (set_partitions (delete key (partitions (packets rt))) (packets rt)) rt in
      match partitions (packets rt) !! key with
      | None => (Err (Args (Msg "partition_stop(): no partition is active between these services")), rt')
      | Some ap => (Ok VNone, remove ap rt')
      end
  end.

(** At the end of a test. *)
Definition clearPartitions (rt : RT V) : RT V :=
  let active := visit (partitions (packets rt)) in
  let rt := set_packets (set_partitions ∅ (packets rt)) rt in
  let rt := foldl (fun rt ap => remove ap rt) rt active in
  if (length active =? 0)%nat then rt
  else Emit "partition_leaked" "" [("pairs", sjoin "," (sort_strings ((fun ap => ap_a ap +:+ "|" +:+ ap_b ap) <$> active)));
         ("detail", "partition_start() without a matching partition_stop(); removed at test end")] rt.

(** The end of the session; [skipped] counts the mutations the endpoint could not apply. *)
Definition closePacketGateway (skipped : Z) (rt : RT V) : RT V :=
  let ps := packets rt in
  match gateway ps with
  | None => set_packets (set_served ∅ ps) rt
  | Some _ =>
      let rt := set_packets (set_net (heap ps, None) (set_served ∅ ps)) rt in
      let rt := if 0 <? skipped then Emit "packet_mutation_skipped" ""
                  [("count", show_Z skipped); ("detail", "packet spanned multiple buffer views; corrupt/window could not be applied")] rt else rt in
      Emit "packet_gateway_stopped" "" [] rt
  end.

End Operations.
End Partition.

(** ** What a partition drops *)
Module PartitionCorrect.
Import Partition Alloc.
Import PacketView Match.

Section Proofs.
Context {V : Type} (monitor : nat -> MonitorDef V) (now : nat -> Z) (ask : PacketFaults.Caller).
(** The random source of the endpoint, the plan's decisions and whether there is a source. *)
Context {G : Type} `{!RandSource G} (decider : option (Rule.Rule -> Z -> bool * bool)) (has_rnd : bool).

Local Abbreviation acting := (Gateway.acting (G := G) decider has_rnd).
Local Abbreviation Emit := (Emit monitor now).
Local Abbreviation applyPacketFaults := (applyPacketFaults monitor now ask).
Local Abbreviation close_window := (close_window monitor now).
Local Abbreviation cut := (cut monitor now ask).
Local Abbreviation installPartition := (installPartition monitor now ask).
Local Abbreviation remove := (remove monitor now).

Lemma notify_packets ev rt sub : packets (notify monitor ev rt sub) = packets rt.
Proof. unfold notify. destruct (cells rt !! sub.1); [|done]. by destruct (monitor_step _ _ _). Qed.

(** Emitting an event does not touch the gateway. *)
Lemma Emit_packets typ svc fields rt : packets (Emit typ svc fields rt) = packets rt.
Proof.
  unfold Runtime.Emit. set (l := EventLog.emit _ _ _ _ _). destruct (last (EventLog.events l)) as [ev|]; [|done].
  enough (H : forall l rt, packets (foldl (notify monitor ev) rt l) = packets rt) by (rewrite H; done).
  clear. induction l as [|sub l IH]; intros rt; [done|]. cbn. by rewrite IH, notify_packets.
Qed.

(** The rule of a partition: every packet, always. *)
Definition drop_rule (label : string) : Rule.Rule :=
  Rule.mkRule Rule.ActionDrop (mkMatch None "" 0 0 0 "" None None None [] [] None) label 0 0 0 0 0 "" "" 0 Rule.TriggerAlways 0 f64_0 0 "" 0 0 0.

Lemma drop_compiles label : PacketFaults.Compile (Some ask) (drop_fault label) = Ok (drop_rule label).
Proof. reflexivity. Qed.

(** A packet to the address of a route, and to its port. *)
Definition addressed (ga : GatewayAddr) (p : PacketView) : Prop := DstIP p = IP ga /\ (u16 (Port ga) = 0 \/ DstPort p = u16 (Port ga)).

Lemma drop_acts label ga p : addressed ga p -> Rule.acts (Gateway.scope ga (drop_rule label)) p = true.
Proof.
  intros [Hi Hp]. unfold Rule.acts, Rule.matches, matchesDeclarative, Rule.trigger_at. cbn.
  rewrite (proj2 (String.eqb_eq _ _) Hi), (orb_true_r (String.eqb _ _)), !andb_true_r. destruct Hp as [->| ->]; [done|]. rewrite Z.eqb_refl. apply orb_true_r.
Qed.

(** *** One route *)

Definition net (rt : RT V) (gw : Gateway.Gateway) : Gateway.Net := (heap (packets rt), gw).
Definition route_key (r : string * string * string) : string := triple r.1.1 r.1.2 r.2.
Definition route_addr (gw : Gateway.Gateway) (r : string * string * string) : option GatewayAddr := Gateway.Lookup r.1.1 r.1.2 r.2 gw.

Lemma apply_route label c t i rt gw ga : gateway (packets rt) = Some gw -> Scopes.net_ok (net rt gw) -> Routes.routes_ok (Gateway.alloc gw) ->
  route_addr gw (c, t, i) = Some ga -> Gateway.rules gw !! triple c t i = None -> c <> "" ->
  exists rt' gw', applyPacketFaults c t i [drop_fault label] rt =
      (Ok (mkWindow c t i [length (heap (packets rt))] [drop_fault label]), rt') /\
    gateway (packets rt') = Some gw' /\
    Scopes.scoped_install (G := G) decider has_rnd ga c t i [length (heap (packets rt))] (heap (packets rt) ++ [drop_rule label], gw) (net rt' gw').
Proof.
  intros Hg Hok Hr Hl Hk Hc. unfold Runtime.applyPacketFaults, compile_all. rewrite drop_compiles. cbn [result_bind length seq].
  unfold install_rules. cbn [packets set_packets set_heap gateway heap installs unwired]. rewrite Hg.
  set (n := length (heap (packets rt))). destruct (Scopes.grow_ok (G := G) decider has_rnd _ _ (drop_rule label) Hok) as [N _].
  destruct (Scopes.install_scopes (G := G) decider has_rnd c t i [n] (heap (packets rt) ++ [drop_rule label], gw) ga) as ([h gw'] & E & S); [done|done| |done..|].
  { split; [apply NoDup_singleton| | |].
    - repeat constructor. exists (drop_rule label). split; [|reflexivity]. cbn. unfold n. by rewrite lookup_app_r, Nat.sub_diag by lia.
    - repeat constructor. exists (drop_rule label). split; [|reflexivity]. cbn. unfold n. by rewrite lookup_app_r, Nat.sub_diag by lia.
    - intros j ->%list_elem_of_singleton (k & ids & Hk' & Hi)%Scopes.published_in. pose proof (Scopes.holds _ Hok k ids Hk') as F. rewrite Forall_forall in F.
      destruct (F n Hi) as (x & Hx%lookup_lt_Some & _). cbn in Hx. lia. }
  cbn [heap set_installs set_heap packets set_packets]. rewrite E. eexists _, gw'. split; [reflexivity|]. unfold net. rewrite Emit_packets. split; [done|exact S].
Qed.

(** *** All of them *)

(** What cutting the routes [rs] made of a gateway. *)
Record cut_off (rs : list (string * string * string)) (st0 st : Gateway.Net) : Prop := {
  co_ok : Scopes.net_ok st;
  co_alloc : Gateway.alloc st.2 = Gateway.alloc st0.2;
  co_rules : forall k, k ∉ route_key <$> rs -> Gateway.rules st.2 !! k = Gateway.rules st0.2 !! k;
  co_heap : forall j, (j < length st0.1)%nat -> st.1 !! j = st0.1 !! j;
  co_size : (length st0.1 <= length st.1)%nat;
  co_others : forall p g, (forall r ga, r ∈ rs -> route_addr st0.2 r = Some ga -> DstIP p <> IP ga) -> acting st p g = acting st0 p g;
  co_cut : forall p g r ga, r ∈ rs -> route_addr st0.2 r = Some ga -> addressed ga p -> (acting st0 p g).1 = None ->
    exists id rule, (acting st p g).1 = Some id /\ st.1 !! id = Some rule /\ Rule.RAction rule = Rule.ActionDrop }.

Lemma scope_all_length ga ids h : length (Gateway.scope_all ga ids h) = length h.
Proof. unfold Gateway.scope_all. revert h. induction ids as [|i ids IH]; intros h; [done|]. cbn. by rewrite IH, length_alter. Qed.

Lemma cut_step label rs st0 st st' c t i ga : cut_off rs st0 st -> Routes.routes_ok (Gateway.alloc st0.2) -> route_addr st0.2 (c, t, i) = Some ga ->
  route_key (c, t, i) ∉ route_key <$> rs ->
  Scopes.scoped_install (G := G) decider has_rnd ga c t i [length st.1] (st.1 ++ [drop_rule label], st.2) st' -> cut_off (rs ++ [(c, t, i)]) st0 st'.
Proof.
  intros [O A R H L Ot C] Hr Hga Hnew [S1 S2 S3 S4 S5 S6]. cbn [fst snd] in *. destruct st as [h gw]. cbn [fst snd] in *.
  destruct (Scopes.grow_ok (G := G) decider has_rnd _ _ (drop_rule label) O) as [_ Gr].
  assert (Hh : forall j, (j < length h)%nat -> st'.1 !! j = h !! j).
  { intros j Hj. rewrite S2, Scopes.scope_all_other by (rewrite list_elem_of_singleton; lia). by rewrite lookup_app_l. }
  assert (Hne : forall r g, r ∈ rs -> route_addr st0.2 r = Some g -> IP g <> IP ga).
  { intros r g Hin Hg E. apply Hnew. pose proof (Routes.ips_distinct _ Hr _ _ _ _ Hg Hga E) as E'. unfold route_key at 1. cbn. cbn in E'. rewrite <- E'.
    by apply (list_elem_of_fmap_2 route_key). }
  split; [done|congruence| | | | |].
  - intros k Hk. rewrite fmap_app, elem_of_app in Hk. cbn in Hk. rewrite S3, lookup_insert_ne; [apply R; tauto|]. intros <-. apply Hk. right. by left.
  - intros j Hj. rewrite Hh by lia. by apply H.
  - rewrite S2, scope_all_length, length_app. cbn. lia.
  - intros p x Hp. rewrite S5 by (apply (Hp (c, t, i)); [apply elem_of_app; right; by left|done]). rewrite Gr. apply Ot. intros r g Hin. apply Hp. apply elem_of_app. by left.
  - intros p x r g [Hin| ->%list_elem_of_singleton]%elem_of_app Hg Ha Hn.
    + destruct (C p x r g Hin Hg Ha Hn) as (id & rule & E1 & E2 & E3). exists id, rule. split_and!; [|rewrite Hh; [done|by eapply lookup_lt_Some]|done].
      rewrite S5, Gr; [done|]. destruct Ha as [-> _]. by apply (Hne r).
    + rewrite Hga in Hg. injection Hg as <-. exists (length h), (Gateway.scope ga (drop_rule label)).
      assert (Ea : Gateway.scope_all ga [length h] (h ++ [drop_rule label]) !! length h = Some (Gateway.scope ga (drop_rule label))).
      { apply Scopes.scope_all_at; [apply NoDup_singleton|by left|]. by rewrite lookup_app_r, Nat.sub_diag by lia. }
      split_and!; [|by rewrite S2|done]. rewrite S6.
      * cbn [List.find]. unfold Scopes.acts_at. rewrite Ea. by rewrite drop_acts.
      * rewrite Gr, Ot; [done|]. intros r g Hin Hg. destruct Ha as [-> _]. intros E. by apply (Hne r g Hin Hg).
Qed.

Lemma cut_refl st : Scopes.net_ok st -> cut_off [] st st.
Proof. intros H. split; try done. by intros p g r ga ?%elem_of_nil. Qed.

(** A window on a route. *)
Definition window_on (r : string * string * string) (w : PacketWindow) : Prop := (pw_consumer w, pw_service w, pw_iface w) = r.

Section Routes.
Context (st0 : Gateway.Net) (Hr : Routes.routes_ok (Gateway.alloc st0.2)).

(** A route that can be cut: allocated, with a consumer, without rules. *)
Record cuttable (r : string * string * string) : Prop := {
  cut_consumer : r.1.1 <> "";
  cut_addr : is_Some (route_addr st0.2 r);
  cut_free : Gateway.rules st0.2 !! route_key r = None }.

Lemma cut_all label rs : forall done ws rt gw, gateway (packets rt) = Some gw -> cut_off done st0 (net rt gw) ->
  NoDup (route_key <$> done ++ rs) -> Forall cuttable rs ->
  exists ws' rt' gw', cut label rs ws rt = (Ok (ws ++ ws'), rt') /\ gateway (packets rt') = Some gw' /\
    cut_off (done ++ rs) st0 (net rt' gw') /\ Forall2 window_on rs ws'.
Proof using Hr.
  induction rs as [|[[c t] i] rs IH]; intros done ws rt gw Hg Hc Hd Hf.
  { exists [], rt, gw. cbn. rewrite !app_nil_r. by split_and!. }
  apply Forall_cons in Hf as [[Hc1 [ga Hga] Hk] Hf]. cbn in Hc1.
  assert (Hnew : route_key (c, t, i) ∉ route_key <$> done).
  { rewrite fmap_app, NoDup_app in Hd. destruct Hd as (_ & Hd & _). intros Hin. apply (Hd _ Hin). by left. }
  assert (Hl : route_addr gw (c, t, i) = Some ga) by (rewrite <- Hga; unfold route_addr, Gateway.Lookup; pose proof (co_alloc _ _ _ Hc) as A; cbn in A; by rewrite A).
  destruct (apply_route label c t i rt gw ga Hg (co_ok _ _ _ Hc)) as (rt1 & gw1 & E & Hg1 & S); [|done| |done|].
  { pose proof (co_alloc _ _ _ Hc) as A. cbn in A. by rewrite A. }
  { pose proof (co_rules _ _ _ Hc _ Hnew) as A. cbn in A. by rewrite <- Hk. }
  cbn [Partition.cut]. rewrite E. set (w := mkWindow _ _ _ _ _).
  destruct (IH (done ++ [(c, t, i)]) (ws ++ [w]) rt1 gw1 Hg1) as (ws' & rt' & gw' & E' & Hg' & Hc' & HW).
  - by eapply cut_step.
  - by rewrite <- app_assoc.
  - done.
  - exists (w :: ws'), rt', gw'. rewrite <- app_assoc in E', Hc'. split_and!; [done..|]. by constructor.
Qed.

End Routes.

(** *** The end *)

Lemma close_window_net w rt gw : gateway (packets rt) = Some gw ->
  exists gw', gateway (packets (close_window w rt)) = Some gw' /\
    net (close_window w rt) gw' = Gateway.ClearRules (pw_consumer w) (pw_service w) (pw_iface w) (net rt gw).
Proof.
  intros Hg. unfold Runtime.close_window. set (rt1 := clear_packet_rules _ _ _ rt). match goal with |- context [foldl ?g rt1 ?l] => set (f := g); set (l' := l) end.
  assert (H : forall l rt, packets (foldl f rt l) = packets rt).
  { clear. induction l as [|[j d] l IH]; intros rt; [done|]. cbn. rewrite IH. unfold f. destruct (heap (packets rt) !! j); [|done].
    destruct (_ =? 0); [by rewrite Emit_packets|done]. }
  unfold net. rewrite H. unfold rt1, clear_packet_rules. cbn [gateway set_installs]. rewrite Hg. cbn [heap set_installs].
  destruct (Gateway.ClearRules _ _ _ (heap (packets rt), gw)) as [h gw'] eqn:E. by exists gw'.
Qed.

Lemma close_all ws : forall rs rt gw, gateway (packets rt) = Some gw -> Scopes.net_ok (net rt gw) -> Forall2 window_on rs ws ->
  exists gw', gateway (packets (foldl (fun rt w => close_window w rt) rt ws)) = Some gw' /\
    Scopes.net_ok (net (foldl (fun rt w => close_window w rt) rt ws) gw') /\ heap (packets (foldl (fun rt w => close_window w rt) rt ws)) = heap (packets rt) /\
    forall k, Gateway.rules gw' !! k = if decide (k ∈ route_key <$> rs) then None else Gateway.rules gw !! k.
Proof.
  induction ws as [|w ws IH]; intros rs rt gw Hg Hok Hf; [inversion Hf; subst; exists gw; by split_and!|].
  destruct rs as [|r rs]; [inversion Hf|]. apply Forall2_cons_1 in Hf as [Hw Hf]. cbn [foldl].
  destruct (close_window_net w rt gw Hg) as (gw1 & Hg1 & E1).
  destruct (Scopes.clear_ok (pw_consumer w) (pw_service w) (pw_iface w) _ Hok) as (N & H1 & R1 & _). rewrite <- E1 in N, H1, R1.
  destruct (IH rs _ gw1 Hg1 N Hf) as (gw' & Hg' & N' & H' & R'). exists gw'. split_and!; [done..|by rewrite H'|].
  assert (Ek : route_key r = triple (pw_consumer w) (pw_service w) (pw_iface w)) by (unfold window_on in Hw; by subst r).
  intros k. rewrite R'. cbn in R1. rewrite R1. cbn [fmap list_fmap]. rewrite Ek. destruct (decide (k ∈ route_key <$> rs)) as [Hin|Hin].
  - by rewrite decide_True by (by right).
  - destruct (decide (triple (pw_consumer w) (pw_service w) (pw_iface w) = k)) as [<-|Hne].
    + rewrite lookup_delete_eq, decide_True by (by left). done.
    + rewrite lookup_delete_ne by done. rewrite decide_False; [done|]. intros [?|?]%elem_of_cons; congruence.
Qed.

(** The routes of a partition are distinct. *)
Lemma routes_nodup dir a b svcA svcB : a <> b -> plain a = true -> plain b = true -> NoDup (route_key <$> routes dir a b svcA svcB).
Proof.
  intros Hne Pa Pb.
  assert (L : forall c t svc, plain c = true -> plain t = true -> NoDup (route_key <$> ((fun i => (c, t, i)) <$> sortedInterfaceNames svc))).
  { intros c t svc Pc Pt. rewrite <- list_fmap_compose. apply NoDup_fmap_2_strong.
    - intros x y _ _ E. change (triple c t x = triple c t y) in E. by apply triple_inj in E as (_ & _ & ->).
    - unfold sortedInterfaceNames, sort_strings. rewrite (merge_sort_Permutation _ _). apply NoDup_fst_map_to_list. }
  destruct dir; unfold routes, legs; cbn; rewrite ?app_nil_r; [|by apply L..].
  rewrite fmap_app. apply NoDup_app. split_and!; [by apply L| |by apply L].
  intros k (r & -> & (i & -> & _)%list_elem_of_fmap)%list_elem_of_fmap (r2 & E & (j & -> & _)%list_elem_of_fmap)%list_elem_of_fmap.
  change (triple a b i = triple b a j) in E. by apply triple_inj in E as (-> & _).
Qed.

(** With the rules a gateway had, the same rules act, whatever the counters are by now. *)
Lemma same_rules_act h h' gw gw' p g : Scopes.net_ok (h, gw) -> Scopes.net_ok (h', gw') -> (forall k, Gateway.rules gw' !! k = Gateway.rules gw !! k) ->
  acting (h', gw') p g = acting (h', gw) p g.
Proof.
  intros O O' R. apply map_eq in R. assert (P : Gateway.published gw' = Gateway.published gw) by (unfold Gateway.published; by rewrite R).
  unfold Gateway.acting. pose proof (Scopes.publishes _ O) as E. pose proof (Scopes.publishes _ O') as E'. cbn in E, E'. cbn [fst snd]. by rewrite E, E', P.
Qed.

(** Installing a partition cuts its routes. *)
Lemma install_cuts a b dir label svcA svcB rt gw :
  detRuntime (packets rt) = gvisor -> services rt !! a = Some svcA -> services rt !! b = Some svcB -> a <> b -> plain a = true -> plain b = true ->
  gateway (packets rt) = Some gw -> Scopes.net_ok (net rt gw) -> Routes.routes_ok (Gateway.alloc gw) ->
  routes dir a b svcA svcB <> [] -> Forall (cuttable (net rt gw)) (routes dir a b svcA svcB) ->
  exists ws rt' gw', installPartition a b dir label rt = (Ok (mkPartition a b dir ws), rt') /\ gateway (packets rt') = Some gw' /\
    cut_off (routes dir a b svcA svcB) (net rt gw) (net rt' gw') /\ Forall2 window_on (routes dir a b svcA svcB) ws.
Proof.
  intros Hd Ha Hb Hne Pa Pb Hg Hok Hr Hnil Hcut. set (rs := routes dir a b svcA svcB) in *.
  destruct (cut_all (net rt gw) Hr label rs [] [] rt gw Hg (cut_refl _ Hok)) as (ws & rt1 & gw1 & E & Hg1 & Hc & HW); [by apply routes_nodup|done|].
  cbn [app] in E, Hc. exists ws.
  assert (Hl : (length ws =? 0)%nat = false).
  { apply Nat.eqb_neq. rewrite <- (Forall2_length _ _ _ HW). by destruct rs. }
  unfold Partition.installPartition. rewrite Hd, Ha, Hb, (proj2 (String.eqb_neq a b) Hne). cbn [negb String.eqb].
  unfold bind. fold rs. rewrite E. cbn [String.eqb]. rewrite Hl. eexists _, gw1. split; [reflexivity|]. unfold net. by rewrite Emit_packets.
Qed.

(** C12: A partition drops exactly the packets towards the other service, and ends.  On a sandboxed
    runtime with a started gateway, between two services whose routes have addresses and no rules,
    [partition] succeeds.  Whatever the probabilities of the rules in force, the random source and the
    plan decide: a packet to the address of one of its routes, on which no rule acted, meets a rule that
    drops it; a packet to any other address meets the rule it met before, after the same draws; and when
    the partition is removed, from any later state in which the rules in force are these, every packet
    meets the rule it would have met without it. *)
Theorem partition_cuts_exactly a b dir label svcA svcB rt gw :
  detRuntime (packets rt) = gvisor -> services rt !! a = Some svcA -> services rt !! b = Some svcB -> a <> b -> plain a = true -> plain b = true ->
  gateway (packets rt) = Some gw -> Scopes.net_ok (net rt gw) -> Routes.routes_ok (Gateway.alloc gw) ->
  routes dir a b svcA svcB <> [] -> Forall (cuttable (net rt gw)) (routes dir a b svcA svcB) ->
  exists ap rt' gw', installPartition a b dir label rt = (Ok ap, rt') /\ gateway (packets rt') = Some gw' /\
    (forall p g r ga, r ∈ routes dir a b svcA svcB -> route_addr gw r = Some ga -> addressed ga p -> (acting (net rt gw) p g).1 = None ->
      exists id rule, (acting (net rt' gw') p g).1 = Some id /\ heap (packets rt') !! id = Some rule /\ Rule.RAction rule = Rule.ActionDrop) /\
    (forall p g, (forall r ga, r ∈ routes dir a b svcA svcB -> route_addr gw r = Some ga -> DstIP p <> IP ga) ->
      acting (net rt' gw') p g = acting (net rt gw) p g) /\
    forall rt2 gw2, gateway (packets rt2) = Some gw2 -> Scopes.net_ok (net rt2 gw2) -> Gateway.rules gw2 = Gateway.rules gw' ->
      exists gw3, gateway (packets (remove ap rt2)) = Some gw3 /\ heap (packets (remove ap rt2)) = heap (packets rt2) /\
        forall p g, acting (net (remove ap rt2) gw3) p g = acting (net rt2 gw) p g.
Proof.
  intros Hd Ha Hb Hne Pa Pb Hg Hok Hr Hnil Hcut.
  destruct (install_cuts a b dir label svcA svcB rt gw) as (ws & rt' & gw' & E & Hg1 & Hc & HW); [done..|]. set (rs := routes dir a b svcA svcB) in *.
  exists (mkPartition a b dir ws), rt', gw'.
  split_and!; [done|done|exact (co_cut _ _ _ Hc)|exact (co_others _ _ _ Hc)|]. intros rt2 gw2 Hg2 Hok2 Hr2.
  destruct (close_all ws rs rt2 gw2 Hg2 Hok2 HW) as (gw3 & Hg3 & Hok3 & Hh & R). exists gw3.
  unfold Partition.remove, net. rewrite Emit_packets. cbn [ap_cleanups]. unfold net in Hok3. split_and!; [done..|]. intros p g. rewrite Hh in Hok3 |- *.
  apply (same_rules_act (heap (packets rt))); [done..|]. intros k. rewrite R, Hr2. destruct (decide _) as [Hin|Hin]; [|exact (co_rules _ _ _ Hc k Hin)].
  apply list_elem_of_fmap in Hin as (r & -> & Hin). rewrite Forall_forall in Hcut. symmetry. by apply (cut_free _ _ (Hcut r Hin)).
Qed.

(** The packet, towards another address. *)
Definition towards (ip : string) (p : PacketView) : PacketView :=
  mkView (Proto p) (Dir p) (SrcIP p) ip (SrcPort p) (DstPort p) (PayloadLen p) (Payload p) (Flags p) (Seq p) (Ack p) (Window p) (Index p) (Flow p).

Lemma compiled_anywhere d r ip p : PacketFaults.Compile (Some ask) d = Ok r -> pm_where (pk_match d) = None ->
  Rule.Validate r = None /\ Rule.acts r (towards ip p) = Rule.acts r p.
Proof.
  unfold PacketFaults.Compile, result_bind. intros H W. destruct (PacketFaults.rule_action _ _) as [aq|]; [|done].
  unfold PacketFaults.rule_match, result_bind in H. rewrite W in H. repeat (destruct (PacketFaults.flag_bits _); [|done]).
  destruct (Rule.Validate _) eqn:E in H; [done|]. injection H as <-. split; [done|].
  unfold PacketFaults.build_rule. by destruct (PacketFaults.rule_trigger _).
Qed.

(** A packet fault without a source acts on every route.  [fault(db.main, packet_...)] without
    [source=] installs its rule as it was compiled, without an address: a packet it acts on meets it
    whatever the address it goes to - another interface, another service or the reply to the host - when it
    has no probability and no rule acted on that packet before. *)
Theorem unscoped_fault_hits_every_route service iface d r rt gw :
  PacketFaults.Compile (Some ask) d = Ok r -> pm_where (pk_match d) = None -> Rule.certain r = true ->
  gateway (packets rt) = Some gw -> Scopes.net_ok (net rt gw) -> Gateway.rules gw !! triple "" service iface = None ->
  exists w rt' gw', applyPacketFaults "" service iface [d] rt = (Ok w, rt') /\ gateway (packets rt') = Some gw' /\
    forall p g ip, Rule.acts r p = true -> (acting (net rt gw) (towards ip p) g).1 = None ->
      (acting (net rt' gw') (towards ip p) g).1 = Some (length (heap (packets rt))).
Proof.
  intros HC HW Hce Hg Hok Hk. set (n := length (heap (packets rt))). destruct (Scopes.grow_ok (G := G) decider has_rnd _ _ r Hok) as [N Gr].
  assert (En : (heap (packets rt) ++ [r]) !! n = Some r) by (unfold n; by rewrite lookup_app_r, Nat.sub_diag by lia).
  assert (HI : Forall (Scopes.installed (heap (packets rt) ++ [r])) [n]).
  { repeat constructor. exists r. split; [done|]. by apply (compiled_anywhere d r "" (mkView "" DirC2S "" "" 0 0 0 [] 0 0 0 0 0 "") HC HW). }
  assert (HCe : Forall (Scopes.certain_at (heap (packets rt) ++ [r])) [n]) by (repeat constructor; by exists r).
  destruct (Scopes.publish_new (G := G) decider has_rnd _ _ gw (triple "" service iface) [n] N Hk (fun _ _ => eq_refl) HI HCe) as (N' & E1 & E2 & E3 & Ha).
  unfold Runtime.applyPacketFaults, compile_all. rewrite HC. cbn [result_bind length seq]. fold n.
  unfold install_rules. cbn [packets set_packets set_heap gateway heap installs unwired set_installs]. rewrite Hg.
  unfold Gateway.InstallRules. rewrite Scopes.validate_installed by done. cbn [String.eqb].
  destruct (Gateway.republish _) as [h gw'] eqn:E. exists (mkWindow "" service iface [n] [d]). eexists _, gw'. split; [reflexivity|]. unfold net. rewrite Emit_packets.
  split; [done|]. cbn in E1. subst h. intros p g ip Hp Hn. destruct (Ha (towards ip p) g) as [_ H]. cbn [packets set_packets set_net heap fst]. rewrite H by (by rewrite Gr).
  cbn [List.find]. unfold Scopes.acts_at. rewrite En. destruct (compiled_anywhere d r ip p HC HW) as [_ ->]. by rewrite Hp.
Qed.

End Proofs.
End PartitionCorrect.

Module PartitionExample.
Import Partition PartitionCorrect InjectExample Alloc.

Definition store : ServiceDef := mkService "store" {["main" := mkInterface "main" "postgres" 5432 0 false]} [] ∅ ∅ "" ∅ "" "" false false None None ∅.

Definition subnet : addrAllocator := mkAlloc 174260224 16 32 ∅ 2.

(** A gateway with a route in each direction. *)
Definition started : Gateway.Gateway :=
  Gateway.mkGateway (Routes.serve_all [("api", "store", "main", 5432, "127.0.0.1:5432"); ("store", "api", "main", 8080, "127.0.0.1:8080")] subnet) ∅ (Some None).

Definition sandboxed : RT unit :=
  mkRT {["store" := store; "api" := api]} ∅ ∅ [] (Manager.NewManager true) EventLog.NewEventLog
    (Subscribers.mkState [] 0) ∅ [] None false "" false (mkPackets gvisor [] (Some started) ∅ 0 None 0 ∅ ∅).

Definition no_answer (_ : Callable) (_ : PacketView.PacketView) : result string value := Err "not called".

(** From the host to the store, as the API reaches it. *)
Definition request : PacketView.PacketView := PacketView.mkView "tcp" PacketView.DirC2S "10.99.0.1" "10.99.0.2" 40000 5432 0 [] 2 0 0 0 0 "".

Lemma started_ok : Scopes.net_ok (net sandboxed started).
Proof. split; [reflexivity|]. intros k ids. change (Gateway.rules (net sandboxed started).2) with (∅ : gmap string (list nat)). by rewrite lookup_empty. Qed.

Lemma started_routes : Routes.routes_ok (Gateway.alloc started).
Proof. apply Routes.serve_all_ok. apply (Routes.new_routes_ok DefaultSubnet); [vm_compute; reflexivity|cbn; lia]. Qed.

Lemma legs_cuttable : Forall (cuttable (net sandboxed started)) [("api", "store", "main"); ("store", "api", "main")].
Proof.
  assert (H : forall r, r.1.1 <> "" -> is_Some (route_addr started r) -> cuttable (net sandboxed started) r).
  { intros r Hc Ha. split; [exact Hc|exact Ha|]. change (Gateway.rules (net sandboxed started).2) with (∅ : gmap string (list nat)). apply lookup_empty. }
  apply Forall_cons_2; [|apply Forall_cons_2; [|apply Forall_nil_2]]; (apply H; [discriminate|vm_compute; eexists; reflexivity]).
Qed.

Lemma partition_cuts_exactly_witness :
  exists ap rt' gw' id rule, installPartition no_monitor clock no_answer "api" "store" partitionBoth "cut" sandboxed = (Ok ap, rt') /\
    gateway (packets rt') = Some gw' /\ (Gateway.acting None true (net rt' gw') request tt).1 = Some id /\ heap (packets rt') !! id = Some rule /\ Rule.RAction rule = Rule.ActionDrop.
Proof.
  assert (E : routes partitionBoth "api" "store" api store = [("api", "store", "main"); ("store", "api", "main")]) by (vm_compute; reflexivity).
  destruct (partition_cuts_exactly no_monitor clock no_answer None true "api" "store" partitionBoth "cut" api store sandboxed started) as (ap & rt' & gw' & H & Hg & Hd & _);
    [reflexivity|vm_compute; reflexivity|vm_compute; reflexivity|discriminate|reflexivity|reflexivity|reflexivity|exact started_ok|exact started_routes
    |rewrite E; discriminate|rewrite E; exact legs_cuttable|].
  destruct (Hd request tt ("api", "store", "main") (mkAddr "api" "store" "main" "10.99.0.2" 5432 "127.0.0.1:5432")) as (id & rule & H1 & H2 & H3).
  - rewrite E. by left.
  - vm_compute. reflexivity.
  - split; [reflexivity|right; reflexivity].
  - vm_compute. reflexivity.
  - exists ap, rt', gw', id, rule. split_and!; [exact H|exact Hg|exact H1|exact H2|exact H3].
Defined.

(** A fault on the API's interface drops what is sent to the store. *)
Lemma unscoped_fault_hits_every_route_witness :
  exists w rt' gw', applyPacketFaults no_monitor clock no_answer "" "api" "main" [drop_fault "cut"] sandboxed = (Ok w, rt') /\
    gateway (packets rt') = Some gw' /\ (Gateway.acting None true (net rt' gw') request tt).1 = Some 0%nat.
Proof.
  destruct (unscoped_fault_hits_every_route no_monitor clock no_answer None true "api" "main" (drop_fault "cut") (drop_rule "cut") sandboxed started)
    as (w & rt' & gw' & H & Hg & Ha); [vm_compute; reflexivity|reflexivity|reflexivity|reflexivity|exact started_ok|vm_compute; reflexivity|].
  exists w, rt', gw'. split_and!; [exact H|exact Hg|]. apply (Ha request tt "10.99.0.2"); vm_compute; reflexivity.
Defined.

End PartitionExample.
