(* ===== verification/Env.v ===== *)
(** * The environment of a service ([internal/star/runtime.go])

    The addresses a service is started with: [FAULTBOX_<SERVICE>_<INTERFACE>_ADDR] and its
    parts for every interface of every service, and the user's own variables, in which upstream
    addresses and proxy placeholders are replaced by the address of the packet gateway or of the
    proxy.  Also the credentials a protocol step takes from a service's environment.  The theorems
    compose the environment with the gateway: the address a service is given is that of its
    own route, which is what [source=] and [partition] act on. *)

From Stdlib Require Import ZArith Lia Ascii.
From S2P Require Import Prelude GoStd GoText FaultRule EventLog Trace ProxyManager NetRule Registry PacketFault Gateway Inject Partition.
From stdpp Require Import base gmap sets strings sorting numbers list.
Local Open Scope Z_scope.
Import GoStd GoText FaultRule Registry.Spec Runtime.

Module Env.

(** ** Text *)

(** [strings.ReplaceAll] for an [old] that is not empty: [skip] bytes of a match are left out. *)
Fixpoint replace_from (old new : string) (skip : nat) (s : string) : string :=
  match s with
  | EmptyString => EmptyString
  | String c r =>
      match skip with
      | S skip => replace_from old new skip r
      | O => if has_prefix old s then new +:+ replace_from old new (slen old - 1) r else String c (replace_from old new 0 r)
      end
  end.

Definition ReplaceAll (s old new : string) : string := replace_from old new 0 s.

Definition at_port (host : string) (port : Z) : string := host +:+ String ":" (show_Z port).

Definition splitHostPort (addr : string) : option (string * Z) :=
  match Manager.SplitHostPort addr with
  | None => None
  | Some (h, p) => (h,.) <$> atoi p
  end.

Definition docker_host : string := "host.docker.internal".

(** ** Placeholders *)

Inductive consumerMode := binaryConsumer | containerConsumer.

Record proxyPlaceholderRef := mkPlaceholder { ph_service : string; ph_iface : string; ph_kind : string }.

Definition placeholder (svcName ifaceName kind : string) : string :=
  "__FB_PROXY_" +:+ to_upper kind +:+ "_" +:+ svcName +:+ "__" +:+ ifaceName +:+ "__".

Definition registerProxyPlaceholder (svcName ifaceName kind : string) (m : gmap string proxyPlaceholderRef)
    : string * gmap string proxyPlaceholderRef :=
  let p := placeholder svcName ifaceName kind in (p, <[p := mkPlaceholder svcName ifaceName kind]> m).

Definition resolved (mode : consumerMode) (ref : proxyPlaceholderRef) (m : Manager.Manager) : option string :=
  let proxyAddr := Manager.GetProxyAddr (ph_service ref) (ph_iface ref) m in
  if String.eqb proxyAddr "" then None
  else match splitHostPort proxyAddr with
       | None => None
       | Some (host, port) =>
           let host := match mode with containerConsumer => docker_host | binaryConsumer => host end in
           if String.eqb (ph_kind ref) "addr" then Some (at_port host port)
           else if String.eqb (ph_kind ref) "host" then Some host
           else if String.eqb (ph_kind ref) "port" then Some (show_Z port) else None
       end.

(** [refs]: the registered placeholders in the order in which Go visits them. *)
Definition resolveProxyPlaceholders (refs : list (string * proxyPlaceholderRef)) (mode : consumerMode) (m : Manager.Manager) (v : string) : string :=
  foldl (fun v '(p, ref) =>
    if contains p v then match resolved mode ref m with Some r => ReplaceAll v p r | None => v end else v) v refs.

Definition hasUnresolvedProxyPlaceholder (refs : list (string * proxyPlaceholderRef)) (v : string) : option string :=
  fst <$> List.find (fun pr => contains pr.1 v) refs.

(** The first entry with a placeholder left, if any. *)
Definition validateProxyEnv (refs : list (string * proxyPlaceholderRef)) (env : list string) : option string :=
  head (omap (hasUnresolvedProxyPlaceholder refs) env).

(** ** Credentials *)

(** The arguments of a step; [None] is a value that is not a string. *)
Abbreviation arguments := (gmap string (option string)).

Definition said (args : arguments) (key : string) : bool :=
  match args !! key with Some (Some v) => negb (String.eqb v "") | _ => false end.

(** [set]: an explicit argument, else the variable, else the fallback. *)
Definition fill (env : gmap string string) (key envKey fallback : string) (args : arguments) : arguments :=
  if said args key then args
  else
    let v := default "" (env !! envKey) in
    if negb (String.eqb v "") then <[key := Some v]> args
    else if negb (String.eqb fallback "") then <[key := Some fallback]> args else args.

Definition applyServiceCredentials (args : arguments) (svc : ServiceDef) (protocol : string) : arguments :=
  let env := sv_env svc in let has k := negb (String.eqb (default "" (env !! k)) "") in
  if said args "connstr" then args
  else if String.eqb protocol "postgres" then
    fill env "database" "POSTGRES_DB" "" (fill env "password" "POSTGRES_PASSWORD" "" (fill env "user" "POSTGRES_USER" "postgres" args))
  else if String.eqb protocol "mysql" then
    fill env "database" "MYSQL_DATABASE" ""
      (if has "MYSQL_USER" then fill env "password" "MYSQL_PASSWORD" "" (fill env "user" "MYSQL_USER" "" args)
       else fill env "password" "MYSQL_ROOT_PASSWORD" "" (fill env "user" "" "root" args))
  else if String.eqb protocol "mongodb" then
    fill env "database" "MONGO_INITDB_DATABASE" ""
      (if has "MONGO_INITDB_ROOT_USERNAME" then
         fill env "password" "MONGO_INITDB_ROOT_PASSWORD" "" (fill env "user" "MONGO_INITDB_ROOT_USERNAME" "" args)
       else args)
  else if String.eqb protocol "redis" then fill env "user" "REDIS_USER" "" (fill env "password" "REDIS_PASSWORD" "" args)
  else if String.eqb protocol "clickhouse" then
    fill env "database" "CLICKHOUSE_DB" "" (fill env "password" "CLICKHOUSE_PASSWORD" "" (fill env "user" "CLICKHOUSE_USER" "" args))
  else if String.eqb protocol "cassandra" then
    fill env "database" "CASSANDRA_KEYSPACE" "" (fill env "password" "CASSANDRA_PASSWORD" "" (fill env "user" "CASSANDRA_USER" "" args))
  else args.

Lemma fill_keeps env k e d args k' v : v <> "" -> args !! k' = Some (Some v) -> fill env k e d args !! k' = Some (Some v).
Proof.
  intros Hv Hk. unfold fill. destruct (decide (k = k')) as [->|Hne]; [unfold said; rewrite Hk, (proj2 (String.eqb_neq _ _) Hv); done|].
  destruct (said args k); [done|]. destruct (negb _); [by rewrite lookup_insert_ne|]. destruct (negb _); [by rewrite lookup_insert_ne|done].
Qed.

(** What a step says is never overridden. *)
Lemma credentials_keep_explicit args svc protocol k v : v <> "" -> args !! k = Some (Some v) -> applyServiceCredentials args svc protocol !! k = Some (Some v).
Proof.
  intros Hv Hk. unfold applyServiceCredentials. destruct (said args "connstr"); [done|].
  repeat match goal with
  | |- (if ?b then _ else _) !! _ = _ => destruct b
  | |- fill _ _ _ _ _ !! _ = _ => apply fill_keeps; [done|]
  end; done.
Qed.

(** ** Addresses in the user's variables *)

Definition applyAddrSubstitutions (subs : list (string * string)) (v : string) : string :=
  foldl (fun v '(real, proxy) => ReplaceAll v real proxy) v subs.

(** The interfaces that some scenario puts a protocol fault on. *)
Definition faultedInterfaces (scenarios : gmap string FaultScenarioDef) : gset (string * string) :=
  list_to_set ('(_, fs) ← map_to_list scenarios; fa ← fs_faults fs;
               (fun pr => (sv_name (ir_service (ap_target pr)), if_name (ir_interface (ap_target pr)))) <$> fa_proxy_rules fa).

(** The names under which a spec may have written an interface's address. *)
Definition aliases (name : string) (iface : InterfaceDef) (target : string) (out : gmap string string) : gmap string string :=
  <[at_port name (if_port iface) := target]> (<[at_port "127.0.0.1" (if_port iface) := target]> (<[at_port "localhost" (if_port iface) := target]> out)).

Definition remote_aliases (s : ServiceDef) (ifName : string) (iface : InterfaceDef) (target : string) (out : gmap string string) : gmap string string :=
  let host := RemoteHostFor s ifName in
  if negb (IsRemote s) || String.eqb host "" then out
  else if contains ":" host then
    match splitHostPort host with
    | Some (h, _) => <[at_port h (if_port iface) := target]> (<[host := target]> out)
    | None => <[host := target]> out
    end
  else <[at_port host (if_port iface) := target]> out.

Section Building.
Context {V : Type} (monitor : nat -> MonitorDef V) (now : nat -> Z).
Context (attach : RT V -> result string string) (listen : Alloc.GatewayAddr -> bool).
(** The order in which Go visits a map. *)
Context (iter : forall A, gmap string A -> list (string * A)).

Local Abbreviation Emit := (Emit monitor now).
Local Abbreviation gatewayAddrFor := (Partition.gatewayAddrFor monitor now attach listen).

(** The part of the runtime that only the environment reads. *)
Record Wiring := mkWiring { w_order : list string; w_placeholders : gmap string proxyPlaceholderRef; w_scenarios : gmap string FaultScenarioDef }.

Definition packetGatewayEnabled (rt : RT V) : bool := String.eqb (detRuntime (packets rt)) gvisor.

(** What one interface adds to the table of substitutions. *)
Definition substitute (mode : consumerMode) (consumer : string) (faulted : gset (string * string)) (name : string) (s : ServiceDef)
    (st : gmap string string * RT V) (i : string * InterfaceDef) : gmap string string * RT V :=
  let '(out, rt) := st in let '(ifName, iface) := i in
  if if_proxy_disabled iface && negb (IsMock s) then
    (match mode with
     | binaryConsumer => if IsContainer s then <[at_port name (if_port iface) := proxyTargetAddr s iface]> out else out
     | containerConsumer => out
     end, rt)
  else
    let proxyAddr := Manager.GetProxyAddr name ifName (proxyMgr rt) in
    let docker addr := match mode with containerConsumer => at_port docker_host (default 0 (snd <$> splitHostPort addr)) | binaryConsumer => addr end in
    if IsMock s then
      (aliases name iface (docker (if String.eqb proxyAddr "" then at_port "127.0.0.1" (if_port iface) else proxyAddr)) out, rt)
    else if match mode with
            | containerConsumer => negb (bool_decide ((name, ifName) ∈ faulted)) && negb (packetGatewayEnabled rt)
            | binaryConsumer => false
            end then (out, rt)
    else
      let upstream := if String.eqb proxyAddr "" then proxyTargetAddr s iface else proxyAddr in
      let '(gwAddr, rt) := gatewayAddrFor consumer name ifName (if_port iface) upstream rt in
      if negb (String.eqb gwAddr "") then (aliases name iface gwAddr out, rt)
      else if String.eqb proxyAddr "" then (out, rt)
      else
        let target := match splitHostPort proxyAddr with Some _ => docker proxyAddr | None => proxyAddr end in
        (remote_aliases s ifName iface target (aliases name iface target out), rt).

Definition proxyAddrSubstitutionsConsumer (w : Wiring) (mode : consumerMode) (consumer : string) (rt : RT V) : gmap string string * RT V :=
  let faulted := faultedInterfaces (w_scenarios w) in
  foldl (fun st '(name, s) => if String.eqb name consumer then st else foldl (substitute mode consumer faulted name s) st (iter _ (sv_interfaces s)))
    (∅, rt) (iter _ (services rt)).

Definition rewriteEnvAddresses (service key value : string) (subs : gmap string string) (rt : RT V) : string * RT V :=
  let rewritten := applyAddrSubstitutions (iter _ subs) value in
  (rewritten,
   if String.eqb rewritten value then rt
   else foldl (fun rt source =>
          let target := default "" (subs !! source) in
          if negb (String.eqb source target) && contains source value
          then Emit "env_address_rewrite" service [("variable", key); ("from", source); ("to", target)] rt else rt)
        rt (sort_strings (map_to_list subs).*1)).

(** A user's variable, as the service gets it. *)
Definition user_value (w : Wiring) (mode : consumerMode) (svc k v : string) (subs : gmap string string) (rt : RT V) : string * RT V :=
  let '(v, rt) := rewriteEnvAddresses svc k v subs rt in
  (resolveProxyPlaceholders (iter _ (w_placeholders w)) mode (proxyMgr rt) v, rt).

(** ** The variables of the interfaces *)

Definition prefix_for (name ifName : string) : string := "FAULTBOX_" +:+ to_upper name +:+ String "_" (to_upper ifName).

Definition injected (name ifName host : string) (port : Z) : list (string * string) :=
  let prefix := prefix_for name ifName in
  [(prefix +:+ "_HOST", host); (prefix +:+ "_PORT", show_Z port); (prefix +:+ "_ADDR", at_port host port)].

(** What a process dials for an interface: the gateway, else the proxy, else the port on this host. *)
Definition mediate (consumer name : string) (s : ServiceDef) (ifName : string) (iface : InterfaceDef) (rt : RT V) : (string * Z) * RT V :=
  let proxyAddr := Manager.GetProxyAddr name ifName (proxyMgr rt) in
  let upstream := if String.eqb proxyAddr "" then proxyTargetAddr s iface else proxyAddr in
  let '(gwAddr, rt) := gatewayAddrFor consumer name ifName (if_port iface) upstream rt in
  let mediated := if String.eqb gwAddr "" then proxyAddr else gwAddr in
  (if String.eqb mediated "" then ("localhost", if_port iface) else default ("localhost", if_port iface) (splitHostPort mediated), rt).

Definition insert_all (l : list (string * string)) (env : gmap string string) : gmap string string := foldl (fun env '(k, v) => <[k := v]> env) env l.

Definition inject (consumer name : string) (s : ServiceDef) (st : gmap string string * RT V) (i : string * InterfaceDef) : gmap string string * RT V :=
  let '(env, rt) := st in
  let '(hp, rt) := mediate consumer name s i.1 i.2 rt in
  (insert_all (injected name i.1 hp.1 hp.2) env, rt).

Definition add_user (w : Wiring) (svc : ServiceDef) (subs : gmap string string) (st : gmap string string * RT V) (kv : string * string) : gmap string string * RT V :=
  let '(env, rt) := st in
  let '(v, rt) := user_value w binaryConsumer (sv_name svc) kv.1 kv.2 subs rt in
  (<[kv.1 := v]> env, rt).

(** The variables as a table; [buildEnv] writes them as [k=v] in some order. *)
Definition env_table (w : Wiring) (svc : ServiceDef) (rt : RT V) : gmap string string * RT V :=
  let '(env, rt) := foldl (fun st '(name, s) => foldl (inject (sv_name svc) name s) st (iter _ (sv_interfaces s))) (∅, rt) (iter _ (services rt)) in
  let '(subs, rt) := proxyAddrSubstitutionsConsumer w binaryConsumer (sv_name svc) rt in
  foldl (add_user w svc subs) (env, rt) (iter _ (sv_env svc)).

Definition assignment (kv : string * string) : string := kv.1 +:+ String "=" kv.2.

Definition buildEnv (w : Wiring) (svc : ServiceDef) (rt : RT V) : list string * RT V :=
  let '(env, rt) := env_table w svc rt in (assignment <$> iter _ env, rt).

(** What a container dials for an interface. *)
Definition container_host (name : string) (s : ServiceDef) (ifName : string) (iface : InterfaceDef) (m : Manager.Manager) : string * Z :=
  let proxyAddr := Manager.GetProxyAddr name ifName m in
  let direct := (if IsContainer s then name else if IsMock s then docker_host else "localhost", if_port iface) in
  if String.eqb proxyAddr "" then direct
  else match splitHostPort proxyAddr with Some (_, pp) => (docker_host, pp) | None => direct end.

(** [None] is the panic of a name in the order that no service has. *)
Definition buildContainerEnv (w : Wiring) (svc : ServiceDef) (rt : RT V) : option (list string * RT V) :=
  match mapM (fun name => (name,.) <$> services rt !! name) (w_order w) with
  | None => None
  | Some others =>
      let own := '(name, s) ← others; ifName ← Partition.sortedInterfaceNames s;
        match sv_interfaces s !! ifName with
        | Some iface => let hp := container_host name s ifName iface (proxyMgr rt) in assignment <$> injected name ifName hp.1 hp.2
        | None => []
        end in
      let '(subs, rt) := proxyAddrSubstitutionsConsumer w containerConsumer "" rt in
      Some (foldl (fun '(env, rt) '(k, v) =>
              let '(v, rt) := user_value w containerConsumer (sv_name svc) k v subs rt in (env ++ [assignment (k, v)], rt))
            (own, rt) (iter _ (sv_env svc)))
  end.

End Building.
End Env.

(** ** Rewriting addresses in place *)
Module Rewriting.
Import Env.

Lemma replace_skip old new a b : replace_from old new (slen a) (a +:+ b) = replace_from old new 0 b.
Proof. induction a as [|c a IH]; [done|]. by rewrite string_app_cons. Qed.

(** A match at the front. *)
Lemma replace_front old new rest : old <> "" -> ReplaceAll (old +:+ rest) old new = new +:+ ReplaceAll rest old new.
Proof.
  intros Ho. destruct old as [|c old]; [done|]. unfold ReplaceAll. rewrite string_app_cons. cbn [replace_from].
  change (String c (old +:+ rest)) with (String c old +:+ rest). rewrite has_prefix_app. f_equal. cbn [slen Nat.sub]. rewrite Nat.sub_0_r. apply replace_skip.
Qed.

Lemma replace_step old new c s : has_prefix old (String c s) = false -> ReplaceAll (String c s) old new = String c (ReplaceAll s old new).
Proof. intros H. unfold ReplaceAll. cbn [replace_from]. by rewrite H. Qed.

Lemma prefix_colon old s : has_char ":" old = true -> has_char ":" s = false -> has_prefix old s = false.
Proof.
  unfold has_char. rewrite negb_true_iff, negb_false_iff. revert s. induction old as [|c old IH]; intros s Ho Hs; [done|]. destruct s as [|d s]; [done|]. cbn in *.
  apply andb_prop in Hs as [Hd Hs]. destruct (ascii_dec c d) as [->|]; [|done]. rewrite Hd in Ho. by apply IH.
Qed.

(** No colon, no address. *)
Lemma replace_none old new s : has_char ":" old = true -> has_char ":" s = false -> ReplaceAll s old new = s.
Proof.
  intros Ho. unfold ReplaceAll. induction s as [|c s IH]; intros Hs; [done|]. cbn [replace_from]. rewrite (prefix_colon old (String c s) Ho Hs). f_equal. apply IH.
  unfold has_char in *. rewrite negb_false_iff in *. cbn in Hs. by apply andb_prop in Hs as [_ Hs].
Qed.

(** C35: The address in a user's variable depends on the order in which Go visits the table.  For an
    interface on port [port] whose proxy listens on a port that begins with the same digits, a variable
    [localhost:port] is rewritten to the proxy when [127.0.0.1:port] is visited first, and to
    an address with the remaining digits twice when it is visited last. *)
Theorem rewrite_depends_on_order port more :
  has_char ":" port = false -> has_char ":" more = false -> more <> "" ->
  let local := "localhost:" +:+ port in let loopback := "127.0.0.1:" +:+ port in let proxy := "127.0.0.1:" +:+ port +:+ more in
  applyAddrSubstitutions [(loopback, proxy); (local, proxy)] local = proxy /\
  applyAddrSubstitutions [(local, proxy); (loopback, proxy)] local = proxy +:+ more /\ proxy +:+ more <> proxy.
Proof.
  intros Hp Hm Hne. cbv zeta. set (lb := "127.0.0.1:" +:+ port). set (lc := "localhost:" +:+ port). set (px := "127.0.0.1:" +:+ port +:+ more).
  assert (Epx : px = lb +:+ more) by (unfold px, lb; by rewrite string_app_assoc).
  assert (Hlb : has_char ":" lb = true) by (unfold lb; by rewrite Manager.has_char_app). assert (Hlc : has_char ":" lc = true) by (unfold lc; by rewrite Manager.has_char_app).
  assert (Ene : lb <> "" /\ lc <> "") by done. destruct Ene as [Elb Elc].
  assert (Hself : forall old new, old <> "" -> ReplaceAll old old new = new).
  { intros old new Ho. rewrite <- (string_app_nil old) at 1. rewrite replace_front by done. apply string_app_nil. }
  assert (Hlocal : ReplaceAll lc lb px = lc).
  { unfold lc at 1. change ("localhost:" +:+ port) with (String "l" (String "o" (String "c" (String "a" (String "l" (String "h" (String "o" (String "s" (String "t" (String ":" port)))))))))).
    repeat (rewrite replace_step by reflexivity). by rewrite (replace_none lb px port Hlb Hp). }
  unfold applyAddrSubstitutions. cbn [foldl]. rewrite Hlocal, !Hself by done. split_and!; [done| |].
  - rewrite Epx at 1. rewrite replace_front by done. by rewrite (replace_none lb px more).
  - intros E. apply (f_equal slen) in E. rewrite slen_app in E. destruct more; [done|]. cbn in E. lia.
Qed.

Lemma rewrite_depends_on_order_witness :
  applyAddrSubstitutions [("localhost:5432", "127.0.0.1:54329"); ("127.0.0.1:5432", "127.0.0.1:54329")] "localhost:5432" = "127.0.0.1:543299".
Proof. exact (proj1 (proj2 (rewrite_depends_on_order "5432" "9" eq_refl eq_refl ltac:(discriminate)))). Defined.

(** A port that is the beginning of another: what is not to be rewritten is. *)
Example shorter_port_rewritten : applyAddrSubstitutions [("localhost:80", "127.0.0.1:40000")] "http://localhost:8080/" = "http://127.0.0.1:4000080/".
Proof. vm_compute. reflexivity. Qed.

(** Two interfaces with the same variables. *)
Example variables_collide : prefix_for "order_db" "main" = prefix_for "order" "db_main".
Proof. vm_compute. reflexivity. Qed.

End Rewriting.

(** ** Which address a service is given *)
Module EnvRoutes.
Import Env Alloc.

Lemma split_at_port host port : sall Manager.host_char host = true -> 0 <= port < 2 ^ 63 -> splitHostPort (at_port host port) = Some (host, port).
Proof.
  intros Hh Hp. unfold splitHostPort, at_port. rewrite Manager.split_plain by (done || apply Manager.port_chars; lia). by rewrite atoi_show.
Qed.

Lemma dotted_host a b c d : 0 <= a -> 0 <= b -> 0 <= c -> 0 <= d -> sall Manager.host_char (dotted a b c d) = true.
Proof.
  intros. unfold dotted. repeat (rewrite sall_app, Manager.port_chars by done; cbn). by apply Manager.port_chars.
Qed.

(** The address of an entry is read back. *)
Lemma split_Addr a k ga : Routes.routes_ok a -> byKey a !! k = Some ga -> 0 <= Port ga < 2 ^ 63 ->
  splitHostPort (Addr ga) = Some (IP ga, Port ga) /\ at_port (IP ga) (Port ga) = Addr ga.
Proof.
  intros Hr Hk Hp. split; [|done]. destruct (Routes.entry_ok a Hr k ga Hk) as (_ & n & _ & E). apply (split_at_port (IP ga) (Port ga)); [|done].
  rewrite E. unfold ipForOffset. apply dotted_host; apply Routes.land_255.
Qed.

Lemma same_rules_ok gw h gw' : Gateway.rules gw' = Gateway.rules gw -> Gateway.endpoint gw' = Gateway.endpoint gw -> Scopes.net_ok (h, gw) -> Scopes.net_ok (h, gw').
Proof. intros R E [P H]. split; cbn in *; unfold Gateway.published in *; rewrite ?E, R; done. Qed.

Lemma same_rules_acting {G} `{!RandSource G} decider has_rnd gw h gw' p (g : G) : Gateway.endpoint gw' = Gateway.endpoint gw ->
  Gateway.acting decider has_rnd (h, gw') p g = Gateway.acting decider has_rnd (h, gw) p g.
Proof. intros E. unfold Gateway.acting. cbn. by rewrite E. Qed.

Lemma routes_a_to_b a b svcA svcB r :
  r ∈ Partition.routes partitionAtoB a b svcA svcB <-> exists i iface, r = (a, b, i) /\ sv_interfaces svcB !! i = Some iface.
Proof.
  unfold Partition.routes, Partition.legs. cbn. rewrite app_nil_r, String.eqb_refl, list_elem_of_fmap. unfold Partition.sortedInterfaceNames, sort_strings.
  split.
  - intros (i & -> & Hi). rewrite (merge_sort_Permutation _ _) in Hi. apply list_elem_of_fmap in Hi as ([j iface] & -> & Hi). apply elem_of_map_to_list in Hi. by exists j, iface.
  - intros (i & iface & -> & Hi). exists i. split; [done|]. rewrite (merge_sort_Permutation _ _). apply list_elem_of_fmap. exists (i, iface). by rewrite elem_of_map_to_list.
Qed.

Section Proofs.
Context {V : Type} (monitor : nat -> MonitorDef V) (now : nat -> Z).
Context (attach : RT V -> result string string) (listen : GatewayAddr -> bool) (listens : forall ga, listen ga = true).
Context (iter : forall A, gmap string A -> list (string * A)) (iter_perm : forall A (m : gmap string A), iter A m ≡ₚ map_to_list m).

Local Abbreviation Emit := (Emit monitor now).
Local Abbreviation gatewayAddrFor := (Partition.gatewayAddrFor monitor now attach listen).
Local Abbreviation mediate := (mediate monitor now attach listen).
Local Abbreviation inject := (inject monitor now attach listen).
Local Abbreviation substitute := (substitute monitor now attach listen).
Local Abbreviation env_table := (env_table monitor now attach listen iter).

(** A sandboxed runtime with its gateway. *)
Record gated (rt : RT V) (gw : Gateway.Gateway) : Prop := {
  gt_det : detRuntime (packets rt) = gvisor;
  gt_gateway : gateway (packets rt) = Some gw;
  gt_routes : Routes.routes_ok (Gateway.alloc gw);
  gt_ports : forall k ga, byKey (Gateway.alloc gw) !! k = Some ga -> 0 <= Port ga < 2 ^ 63 }.

(** Routes are added, nothing else that matters here changes. *)
Record grows (rt : RT V) (gw : Gateway.Gateway) (rt' : RT V) (gw' : Gateway.Gateway) : Prop := {
  gr_services : services rt' = services rt;
  gr_proxies : proxyMgr rt' = proxyMgr rt;
  gr_heap : heap (packets rt') = heap (packets rt);
  gr_rules : Gateway.rules gw' = Gateway.rules gw;
  gr_endpoint : Gateway.endpoint gw' = Gateway.endpoint gw;
  gr_max : maxHosts (Gateway.alloc gw') = maxHosts (Gateway.alloc gw);
  gr_keeps : forall k ga, byKey (Gateway.alloc gw) !! k = Some ga -> byKey (Gateway.alloc gw') !! k = Some ga }.

Lemma grows_refl rt gw : grows rt gw rt gw.
Proof. by split. Qed.

Lemma grows_trans rt gw rt1 gw1 rt2 gw2 : grows rt gw rt1 gw1 -> grows rt1 gw1 rt2 gw2 -> grows rt gw rt2 gw2.
Proof. intros [] []. split; try congruence. auto. Qed.

(** An event changes none of it. *)
Lemma Emit_gated typ svc fields rt rt0 gw0 gw : gated rt gw -> grows rt0 gw0 rt gw -> gated (Emit typ svc fields rt) gw /\ grows rt0 gw0 (Emit typ svc fields rt) gw.
Proof.
  intros [] []. destruct (Cleanup.Emit_frame monitor now typ svc fields rt).
  split; split; rewrite ?PartitionCorrect.Emit_packets; auto; congruence.
Qed.

Lemma allocate_step c n i port up a : (forall k ga, byKey a !! k = Some ga -> 0 <= Port ga < 2 ^ 63) -> 0 <= port < 2 ^ 63 ->
  let '(r, a') := allocate c n i port up a in
  (forall k ga, byKey a' !! k = Some ga -> 0 <= Port ga < 2 ^ 63) /\ maxHosts a' = maxHosts a /\ nextID a <= nextID a' <= nextID a + 1 /\
  (forall k ga, byKey a !! k = Some ga -> byKey a' !! k = Some ga) /\
  match r with Ok ga => byKey a' !! triple c n i = Some ga | Err _ => maxHosts a < nextID a end.
Proof.
  intros Hp Hport. unfold allocate. destruct (byKey a !! triple c n i) as [ga|] eqn:E; [split_and!; (done || lia)|].
  destruct (Z.ltb_spec (maxHosts a) (nextID a)); [split_and!; (done || lia)|]. cbn. split_and!; [|done|lia|lia| |by rewrite lookup_insert_eq].
  - intros k ga. rewrite lookup_insert_Some. intros [[_ <-]|[_ Hk]]; [done|by eapply Hp].
  - intros k ga Hk. rewrite lookup_insert_ne; [done|congruence].
Qed.

(** The gateway's answer for an interface: its route has an address, as long as there are any left. *)
Lemma gateway_addr_for c n i port up rt gw addr rt' : gated rt gw -> 0 <= port < 2 ^ 63 -> up <> "" ->
  gatewayAddrFor c n i port up rt = (addr, rt') ->
  exists gw', gated rt' gw' /\ grows rt gw rt' gw' /\ nextID (Gateway.alloc gw') <= nextID (Gateway.alloc gw) + 1 /\
    (nextID (Gateway.alloc gw) <= maxHosts (Gateway.alloc gw) -> exists ga, Gateway.Lookup c n i gw' = Some ga /\ addr = Addr ga).
Proof using listens.
  intros [Gd Gg Gr Gp] Hport Hup. unfold Partition.gatewayAddrFor. rewrite Gd, (proj2 (String.eqb_neq _ _) Hup). cbn [negb String.eqb].
  change (String.eqb gvisor gvisor) with true. cbn [negb]. unfold Runtime.ensurePacketGateway. rewrite Gd, Gg. change (String.eqb gvisor gvisor) with true. cbn [negb].
  unfold Gateway.Allocate. pose proof (allocate_step c n i port up (Gateway.alloc gw) Gp Hport) as S.
  pose proof (Routes.allocate_ok c n i port up (Gateway.alloc gw) Gr) as R.
  destruct (allocate c n i port up (Gateway.alloc gw)) as [r a']. destruct S as (Sp & Sm & Sn & Sk & Sr). cbn [snd] in R.
  set (gw' := Gateway.mkGateway a' (Gateway.rules gw) (Gateway.endpoint gw)). set (rt1 := set_packets (set_net (heap (packets rt), Some gw') (packets rt)) rt).
  assert (G1 : gated rt1 gw') by (split; done). assert (W1 : grows rt gw rt1 gw') by (split; done).
  destruct r as [ga|e]; [|intros [= <- <-]; exists gw'; split_and!; [done|done|cbn; lia|intros; lia]].
  rewrite listens. case_bool_decide.
  { intros [= <- <-]. exists gw'. split_and!; [done|done|cbn; lia|]. intros _. by exists ga. }
  intros [= <- <-]. set (rt2 := set_packets (set_served _ _) rt1).
  assert (G2 : gated rt2 gw') by (split; done). assert (W2 : grows rt gw rt2 gw') by (split; done).
  destruct (Emit_gated "packet_gateway_route" n [("interface", i); ("consumer", c); ("addr", Addr ga); ("upstream", up)] rt2 rt gw gw' G2 W2) as [G3 W3].
  exists gw'. split_and!; [done|done|cbn; lia|]. intros _. by exists ga.
Qed.

Lemma target_nonempty s iface : proxyTargetAddr s iface <> "".
Proof.
  unfold proxyTargetAddr, remoteUpstreamAddr. destruct (IsRemote s); [|done]. destruct (String.eqb_spec (RemoteHostFor s (if_name iface)) ""); [done|].
  destruct (contains _ _); [done|]. by destruct (RemoteHostFor s (if_name iface)).
Qed.

Lemma upstream_nonempty addr s iface : (if String.eqb addr "" then proxyTargetAddr s iface else addr) <> "".
Proof. destruct (String.eqb_spec addr ""); [apply target_nonempty|done]. Qed.

(** What is dialled is the route's own address. *)
Lemma mediate_route c n s i iface rt gw hp rt' : gated rt gw -> 0 <= if_port iface < 2 ^ 63 -> mediate c n s i iface rt = (hp, rt') ->
  exists gw', gated rt' gw' /\ grows rt gw rt' gw' /\ nextID (Gateway.alloc gw') <= nextID (Gateway.alloc gw) + 1 /\
    (nextID (Gateway.alloc gw) <= maxHosts (Gateway.alloc gw) -> exists ga, Gateway.Lookup c n i gw' = Some ga /\ at_port hp.1 hp.2 = Addr ga).
Proof using listens.
  intros G Hp. unfold Env.mediate. destruct (gatewayAddrFor c n i (if_port iface) _ rt) as [addr rt1] eqn:E. intros [= <- <-].
  destruct (gateway_addr_for c n i (if_port iface) _ rt gw addr rt1 G Hp (upstream_nonempty _ s iface) E) as (gw' & G' & W & N & L).
  exists gw'. split_and!; [done..|]. intros H. destruct (L H) as (ga & Hl & ->). exists ga. split; [done|].
  destruct (split_Addr _ _ ga (gt_routes _ _ G') Hl (gt_ports _ _ G' _ _ Hl)) as [Es Ea].
  assert (Hne : String.eqb (Addr ga) "" = false) by (apply String.eqb_neq; intros E0; by rewrite E0 in Es). by rewrite Hne, Hne, Es.
Qed.

(** *** The interfaces *)

Local Abbreviation pair_of := (string * ServiceDef * (string * InterfaceDef))%type.

Definition all_interfaces (rt : RT V) : list pair_of := x ← iter _ (services rt); (x,.) <$> iter _ (sv_interfaces x.2).

Lemma foldl_bind {S A B} (f : A -> S -> B -> S) (g : A -> list B) l : forall st,
  foldl (fun st x => foldl (f x) st (g x)) st l = foldl (fun st xy => f xy.1 st xy.2) st (x ← l; (x,.) <$> g x).
Proof.
  induction l as [|x l IH]; intros st; [done|]. cbn. rewrite IH, foldl_app. f_equal. generalize (g x). intros l'. revert st.
  induction l' as [|y l' IH']; intros st; [done|]. cbn. apply IH'.
Qed.

Lemma all_interfaces_in rt n s i iface :
  (n, s, (i, iface)) ∈ all_interfaces rt <-> services rt !! n = Some s /\ sv_interfaces s !! i = Some iface.
Proof using iter_perm.
  unfold all_interfaces. rewrite list_elem_of_bind. split.
  - intros ([n' s'] & Hin & Hs). rewrite iter_perm, elem_of_map_to_list in Hs. apply list_elem_of_fmap in Hin as (y & [= -> -> <-] & Hy).
    by rewrite iter_perm, elem_of_map_to_list in Hy.
  - intros [Hs Hi]. exists (n, s). split; [|by rewrite iter_perm, elem_of_map_to_list]. apply list_elem_of_fmap_2. by rewrite iter_perm, elem_of_map_to_list.
Qed.

Lemma tail_inj a b c d : slen c = slen d -> a +:+ c = b +:+ d -> a = b /\ c = d.
Proof.
  revert b. induction a as [|x a IH]; intros [|y b] Hl E.
  - done.
  - change ("" +:+ c) with c in E. subst c. rewrite string_app_cons in Hl. cbn in Hl. rewrite slen_app in Hl. lia.
  - change ("" +:+ d) with d in E. subst d. rewrite string_app_cons in Hl. cbn in Hl. rewrite slen_app in Hl. lia.
  - rewrite !string_app_cons in E. injection E as -> E. by destruct (IH b Hl E) as [-> ->].
Qed.

Lemma insert_injected n i host port env n' i' : 
  insert_all (injected n i host port) env !! (prefix_for n' i' +:+ "_ADDR") =
  if decide (prefix_for n i = prefix_for n' i') then Some (at_port host port) else env !! (prefix_for n' i' +:+ "_ADDR").
Proof.
  cbn [insert_all injected foldl]. destruct (decide (prefix_for n i = prefix_for n' i')) as [->|Hne]; [by rewrite lookup_insert_eq|].
  rewrite !lookup_insert_ne; [done|..]; (intros [? ?]%tail_inj; [congruence|done]).
Qed.

Definition var (p : pair_of) : string := prefix_for p.1.1 p.2.1 +:+ "_ADDR".

(** No two interfaces have the same variables. *)
Definition distinct_names (rt : RT V) : Prop :=
  forall p q, p ∈ all_interfaces rt -> q ∈ all_interfaces rt -> prefix_for p.1.1 p.2.1 = prefix_for q.1.1 q.2.1 -> p.1.1 = q.1.1 /\ p.2.1 = q.2.1.

Definition given (c : string) (gw : Gateway.Gateway) (env : gmap string string) (p : pair_of) : Prop :=
  exists ga, Gateway.Lookup c p.1.1 p.2.1 gw = Some ga /\ env !! var p = Some (Addr ga).

Lemma inject_all c rt gw : gated rt gw -> (forall p, p ∈ all_interfaces rt -> 0 <= if_port p.2.2 < 2 ^ 63) -> distinct_names rt ->
  forall todo done st gw1, (forall p, p ∈ done ++ todo -> p ∈ all_interfaces rt) ->
  gated st.2 gw1 -> grows rt gw st.2 gw1 -> nextID (Gateway.alloc gw1) + Z.of_nat (length todo) <= maxHosts (Gateway.alloc gw) + 1 ->
  Forall (given c gw1 st.1) done ->
  exists gw2, let st' := foldl (fun st xy => inject c xy.1.1 xy.1.2 st xy.2) st todo in
    gated st'.2 gw2 /\ grows rt gw st'.2 gw2 /\ Forall (given c gw2 st'.1) (done ++ todo).
Proof using listens.
  intros G Hp Hd. induction todo as [|p todo IH]; intros done [env rt1] gw1 Hin G1 W1 N1 F; [exists gw1; by rewrite app_nil_r|].
  cbn [foldl]. cbn [fst snd] in *. destruct (inject c p.1.1 p.1.2 (env, rt1) p.2) as [env2 rt2] eqn:E. unfold Env.inject in E.
  destruct (mediate c p.1.1 p.1.2 p.2.1 p.2.2 rt1) as [hp rt2'] eqn:Em. set (e := insert_all _ _) in E. injection E as <- <-.
  assert (Hpin : p ∈ all_interfaces rt) by (apply Hin, elem_of_app; right; by left).
  destruct (mediate_route _ _ _ _ _ _ _ _ _ G1 (Hp p Hpin) Em) as (gw2 & G2 & W2 & N2 & L). cbn [length] in N1. pose proof (gr_max _ _ _ _ W1) as Mx.
  destruct L as (ga & Hl & Ha); [lia|]. replace (done ++ p :: todo) with ((done ++ [p]) ++ todo) by by rewrite <- app_assoc.
  apply (IH (done ++ [p]) (e, rt2') gw2); cbn [fst snd].
  - intros q. rewrite <- app_assoc. apply Hin.
  - done.
  - by eapply grows_trans.
  - lia.
  - apply Forall_app. split; [|apply Forall_singleton; exists ga; split; [done|]; unfold var, e; rewrite insert_injected, decide_True by done; by rewrite Ha].
    apply Forall_forall. intros q Hq. rewrite Forall_forall in F. destruct (F q Hq) as (gq & Hlq & Heq). unfold given, var, e. rewrite insert_injected.
    destruct (decide _) as [Ep|Hne]; [|exists gq; split; [by apply (gr_keeps _ _ _ _ W2)|done]].
    destruct (Hd p q Hpin) as [E1 E2]; [apply Hin, elem_of_app; by left|done|]. exists ga. split; [by rewrite <- E1, <- E2|]. by rewrite Ha.
Qed.

(** *** The user's variables *)

Lemma substitute_grows mode c faulted n s rt gw st i gw1 : 0 <= if_port i.2 < 2 ^ 63 -> gated st.2 gw1 -> grows rt gw st.2 gw1 ->
  exists gw2, gated (substitute mode c faulted n s st i).2 gw2 /\ grows rt gw (substitute mode c faulted n s st i).2 gw2.
Proof using listens.
  intros Hp G W. destruct st as [out rt1], i as [ifName iface]. unfold Env.substitute. cbn [snd fst] in *.
  destruct (_ && _); [by exists gw1|]. destruct (IsMock s); [by exists gw1|]. destruct (match mode with binaryConsumer => _ | _ => _ end); [by exists gw1|].
  destruct (gatewayAddrFor c n ifName (if_port iface) _ rt1) as [addr rt2] eqn:E.
  destruct (gateway_addr_for c n ifName (if_port iface) _ rt1 gw1 addr rt2 G Hp (upstream_nonempty _ s iface) E) as (gw2 & G2 & W2 & _).
  exists gw2. assert (W3 : grows rt gw rt2 gw2) by by eapply grows_trans. destruct (negb _); [by split|]. by destruct (String.eqb _ _).
Qed.

Lemma substitutions_grow w mode c rt0 rt gw : services rt = services rt0 -> (forall p, p ∈ all_interfaces rt0 -> 0 <= if_port p.2.2 < 2 ^ 63) -> gated rt gw ->
  exists gw2, gated (proxyAddrSubstitutionsConsumer monitor now attach listen iter w mode c rt).2 gw2 /\
    grows rt gw (proxyAddrSubstitutionsConsumer monitor now attach listen iter w mode c rt).2 gw2.
Proof using listens iter_perm.
  intros Es Hp G. unfold proxyAddrSubstitutionsConsumer. rewrite Es. set (P := fun st : gmap string string * RT V => exists gw2, gated st.2 gw2 /\ grows rt gw st.2 gw2).
  assert (K1 : forall n s l st, (forall y, y ∈ l -> 0 <= if_port y.2 < 2 ^ 63) -> P st -> P (foldl (substitute mode c (faultedInterfaces (w_scenarios w)) n s) st l)).
  { induction l as [|y l IH]; intros st Hl HP; [done|]. cbn [foldl]. apply IH; [intros z Hz; apply Hl; by right|].
    destruct HP as (gw1 & G1 & W1). eapply substitute_grows; [apply Hl; by left|done|done]. }
  assert (Hl : forall x, x ∈ iter _ (services rt0) -> services rt0 !! x.1 = Some x.2) by (intros [n s] H; by rewrite iter_perm, elem_of_map_to_list in H).
  revert Hl. generalize (iter _ (services rt0)). intros l Hl. change (P (foldl (fun st '(name, s) => if String.eqb name c then st
    else foldl (substitute mode c (faultedInterfaces (w_scenarios w)) name s) st (iter _ (sv_interfaces s))) (∅, rt) l)).
  assert (HP : P (∅, rt)) by (exists gw; split; [done|apply grows_refl]). revert HP. generalize (∅ : gmap string string, rt). clear G Es.
  induction l as [|[n s] l IH]; intros st HP; [done|]. cbn [foldl]. apply IH; [intros x Hx; apply Hl; by right|]. destruct (String.eqb n c); [done|].
  apply K1; [|done]. intros [i iface] Hy. rewrite iter_perm, elem_of_map_to_list in Hy. apply (Hp (n, s, (i, iface))). apply all_interfaces_in.
  by pose proof (Hl (n, s) (list_elem_of_here _ _)).
Qed.

Lemma add_user_keeps w svc subs rt gw st kv gw1 : gated st.2 gw1 -> grows rt gw st.2 gw1 ->
  gated (add_user monitor now iter w svc subs st kv).2 gw1 /\ grows rt gw (add_user monitor now iter w svc subs st kv).2 gw1 /\
  forall k, k <> kv.1 -> (add_user monitor now iter w svc subs st kv).1 !! k = st.1 !! k.
Proof.
  intros G W. destruct st as [env rt1]. unfold add_user, user_value, rewriteEnvAddresses. cbn [fst snd] in *.
  set (r := if String.eqb _ _ then rt1 else _). enough (H : gated r gw1 /\ grows rt gw r gw1).
  { cbn. split_and!; [apply H..|]. intros k Hk. by rewrite lookup_insert_ne. }
  unfold r. destruct (String.eqb _ _); [done|]. generalize (sort_strings (map_to_list subs).*1). intros l. clear r. revert rt1 G W.
  induction l as [|src l IH]; intros rt1 G W; [done|]. cbn [foldl]. destruct (_ && _); [|by apply IH].
  destruct (Emit_gated "env_address_rewrite" (sv_name svc) [("variable", kv.1); ("from", src); ("to", default "" (subs !! src))] rt1 rt gw gw1 G W) as [G' W'].
  by apply IH.
Qed.

Lemma add_users_keep w svc subs rt gw gw1 l : forall st, gated st.2 gw1 -> grows rt gw st.2 gw1 ->
  gated (foldl (add_user monitor now iter w svc subs) st l).2 gw1 /\ grows rt gw (foldl (add_user monitor now iter w svc subs) st l).2 gw1 /\
  forall k, k ∉ l.*1 -> (foldl (add_user monitor now iter w svc subs) st l).1 !! k = st.1 !! k.
Proof.
  induction l as [|kv l IH]; intros st G W; [done|]. cbn [foldl]. destruct (add_user_keeps w svc subs rt gw st kv gw1 G W) as (G1 & W1 & K1).
  destruct (IH _ G1 W1) as (G2 & W2 & K2). split_and!; [done..|]. intros k Hk. cbn in Hk. rewrite not_elem_of_cons in Hk. destruct Hk. rewrite K2 by done. by apply K1.
Qed.

(** On a sandboxed runtime a service gets, for every interface, the address of its own route. *)
Lemma env_gives_own_route w svc rt gw : gated rt gw ->
  (forall p, p ∈ all_interfaces rt -> 0 <= if_port p.2.2 < 2 ^ 63) -> distinct_names rt ->
  nextID (Gateway.alloc gw) + Z.of_nat (length (all_interfaces rt)) <= maxHosts (Gateway.alloc gw) + 1 ->
  (forall p, p ∈ all_interfaces rt -> sv_env svc !! var p = None) ->
  exists gw', gated (env_table w svc rt).2 gw' /\ grows rt gw (env_table w svc rt).2 gw' /\
    Forall (given (sv_name svc) gw' (env_table w svc rt).1) (all_interfaces rt).
Proof using listens iter_perm.
  intros G Hp Hd Hroom Henv. unfold Env.env_table.
  assert (Eq : foldl (fun st '(name, s) => foldl (inject (sv_name svc) name s) st (iter _ (sv_interfaces s))) (∅, rt) (iter _ (services rt)) =
    foldl (fun st xy => inject (sv_name svc) xy.1.1 xy.1.2 st xy.2) (∅, rt) (all_interfaces rt)).
  { unfold all_interfaces. rewrite <- (foldl_bind (fun x => inject (sv_name svc) x.1 x.2) (fun x => iter _ (sv_interfaces x.2))).
    generalize (iter _ (services rt)) (∅ : gmap string string, rt). induction l as [|[n s] l IH]; intros st; [done|]. cbn. apply IH. }
  rewrite Eq. destruct (inject_all (sv_name svc) rt gw G Hp Hd (all_interfaces rt) [] (∅, rt) gw) as (gw1 & G1 & W1 & F1); [done|done|apply grows_refl|lia|constructor|].
  cbn [app] in F1. destruct (foldl _ (∅ : gmap string string, rt) (all_interfaces rt)) as [env rt1]. cbn [fst snd] in *.
  destruct (substitutions_grow w binaryConsumer (sv_name svc) rt rt1 gw1 (gr_services _ _ _ _ W1) Hp G1) as (gw2 & G2 & W2).
  destruct (proxyAddrSubstitutionsConsumer _ _ _ _ _ _ _ _ rt1) as [subs rt2]. cbn [snd] in *.
  destruct (add_users_keep w svc subs rt gw gw2 (iter _ (sv_env svc)) (env, rt2)) as (G3 & W3 & K); [done|by eapply grows_trans|].
  exists gw2. split_and!; [done..|]. apply Forall_forall. intros p Hpin. rewrite Forall_forall in F1. destruct (F1 p Hpin) as (ga & Hl & He).
  exists ga. split; [by apply (gr_keeps _ _ _ _ W2)|]. rewrite K; [done|]. rewrite iter_perm. intros ([k v] & Ek & Hin)%list_elem_of_fmap.
  apply elem_of_map_to_list in Hin. cbn in Ek. subst k. by rewrite Henv in Hin.
Qed.

(** C22: What a service run as a process dials for another is what a partition of that direction
    cuts.  On a sandboxed runtime whose gateway has addresses left and whose relays can listen, with
    interfaces whose variables have distinct names that the service does not set itself, building the
    process environment of [a] and then partitioning it from [b] in the direction from [a] to [b]
    succeeds, and every packet to the address that the environment gives for an interface of
    [b], on which no rule acted before, is dropped, whatever the other rules draw.  The environment of a
    container names the service or the host's proxy instead of the gateway, and is not covered. *)
Theorem partition_cuts_environment {G} `{!RandSource G} decider has_rnd ask w a b label svcA svcB rt gw :
  gated rt gw -> Scopes.net_ok (PartitionCorrect.net rt gw) ->
  services rt !! a = Some svcA -> sv_name svcA = a -> services rt !! b = Some svcB -> sv_interfaces svcB <> ∅ ->
  a <> b -> a <> "" -> plain a = true -> plain b = true ->
  (forall p, p ∈ all_interfaces rt -> 0 <= if_port p.2.2 < 2 ^ 63) -> distinct_names rt ->
  nextID (Gateway.alloc gw) + Z.of_nat (length (all_interfaces rt)) <= maxHosts (Gateway.alloc gw) + 1 ->
  (forall p, p ∈ all_interfaces rt -> sv_env svcA !! var p = None) ->
  (forall i, Gateway.rules gw !! triple a b i = None) ->
  let '(env, rt1) := env_table w svcA rt in
  exists ap rt2 gw2, Partition.installPartition monitor now ask a b partitionAtoB label rt1 = (Ok ap, rt2) /\ gateway (packets rt2) = Some gw2 /\
    forall i iface addr p (g : G), sv_interfaces svcB !! i = Some iface -> env !! (prefix_for b i +:+ "_ADDR") = Some addr ->
      splitHostPort addr = Some (PacketView.DstIP p, PacketView.DstPort p) -> 0 <= PacketView.DstPort p < 65536 ->
      (Gateway.acting decider has_rnd (PartitionCorrect.net rt gw) p g).1 = None ->
      exists id rule, (Gateway.acting decider has_rnd (PartitionCorrect.net rt2 gw2) p g).1 = Some id /\ heap (packets rt2) !! id = Some rule /\ Rule.RAction rule = Rule.ActionDrop.
Proof using listens iter_perm.
  intros Gt Hok Ha Hn Hb Hi Hne Ha0 Pa Pb Hp Hd Hroom Henv Hrules.
  destruct (env_gives_own_route w svcA rt gw Gt Hp Hd Hroom Henv) as (gw1 & G1 & W1 & F1). rewrite Hn in F1. rewrite Forall_forall in F1.
  destruct (env_table w svcA rt) as [env rt1]. cbn [fst snd] in *.
  assert (N1 : PartitionCorrect.net rt1 gw1 = (heap (packets rt), gw1)) by (unfold PartitionCorrect.net; by rewrite (gr_heap _ _ _ _ W1)).
  assert (Ho1 : Scopes.net_ok (PartitionCorrect.net rt1 gw1)) by (rewrite N1; apply (same_rules_ok gw); [apply (gr_rules _ _ _ _ W1)|apply (gr_endpoint _ _ _ _ W1)|exact Hok]).
  assert (Hin : forall i iface, sv_interfaces svcB !! i = Some iface -> (b, svcB, (i, iface)) ∈ all_interfaces rt) by (intros i iface H; by apply all_interfaces_in).
  assert (Hrt : forall r, r ∈ Partition.routes partitionAtoB a b svcA svcB <-> exists i iface, r = (a, b, i) /\ sv_interfaces svcB !! i = Some iface) by apply routes_a_to_b.
  destruct (PartitionCorrect.install_cuts monitor now ask (G := G) decider has_rnd a b partitionAtoB label svcA svcB rt1 gw1) as (ws & rt2 & gw2 & E & Hg2 & Hc & _);
    [apply (gt_det _ _ G1)|by rewrite (gr_services _ _ _ _ W1)|by rewrite (gr_services _ _ _ _ W1)|done|done|done|apply (gt_gateway _ _ G1)|done|apply (gt_routes _ _ G1)| | |].
  - apply map_choose in Hi as (i & iface & Hi). intros E. assert (H : (a, b, i) ∈ Partition.routes partitionAtoB a b svcA svcB) by (apply Hrt; by exists i, iface).
    rewrite E in H. by apply elem_of_nil in H.
  - apply Forall_forall. intros r (i & iface & -> & Hif)%Hrt. destruct (F1 _ (Hin i iface Hif)) as (ga & Hl & _).
    split; [done|by exists ga|]. cbn. rewrite (gr_rules _ _ _ _ W1). apply Hrules.
  - exists (mkPartition a b partitionAtoB ws), rt2, gw2. split_and!; [done..|]. intros i iface addr p g Hif He Hs Hport Hact.
    destruct (F1 _ (Hin i iface Hif)) as (ga & Hl & He'). unfold var in He'. cbn [fst snd] in He', Hl. rewrite He in He'. injection He' as ->.
    destruct (split_Addr _ _ ga (gt_routes _ _ G1) Hl (gt_ports _ _ G1 _ _ Hl)) as [Es _]. rewrite Hs in Es. injection Es as E1 E2.
    apply (PartitionCorrect.co_cut decider has_rnd _ _ _ Hc p g (a, b, i) ga); [apply Hrt; by exists i, iface|done| |].
    + split; [done|]. right. rewrite <- E2. symmetry. by apply wrap_u_small.
    + rewrite N1, <- Hact. f_equal. apply same_rules_acting, (gr_endpoint _ _ _ _ W1).
Qed.

End Proofs.
End EnvRoutes.

Module EnvExample.
Import Env EnvRoutes InjectExample PartitionExample Alloc.

Definition attaches (_ : RT unit) : result string string := Ok "fbtun0".
Definition serves (_ : GatewayAddr) : bool := true.
Definition no_wiring : Wiring := mkWiring [] ∅ ∅.

Lemma sandboxed_gated : gated sandboxed started.
Proof.
  split; [reflexivity|reflexivity|exact started_routes|].
  assert (H : map_Forall (fun _ ga => 0 <= Port ga < 2 ^ 63) (byKey (Gateway.alloc started))); [|exact H].
  unfold started, Routes.serve_all. cbn [foldl Gateway.alloc]. apply (bool_decide_unpack _). vm_compute. exact I.
Qed.

Lemma sandboxed_interfaces : all_interfaces in_order sandboxed =
  [("store", store, ("main", mkInterface "main" "postgres" 5432 0 false)); ("api", api, ("main", mkInterface "main" "http" 8080 0 false))].
Proof. vm_compute. reflexivity. Qed.

Lemma sandboxed_distinct : distinct_names in_order sandboxed.
Proof.
  intros p q Hp Hq. rewrite sandboxed_interfaces in Hp, Hq. rewrite !elem_of_cons, elem_of_nil in Hp, Hq.
  destruct Hp as [->|[->|[]]], Hq as [->|[->|[]]]; (done || discriminate).
Qed.

Lemma partition_cuts_environment_witness :
  exists env rt1 ap rt2 gw2 id rule, env_table no_monitor clock attaches serves in_order no_wiring api sandboxed = (env, rt1) /\
    env !! "FAULTBOX_STORE_MAIN_ADDR" = Some "10.99.0.2:5432" /\
    Partition.installPartition no_monitor clock no_answer "api" "store" partitionAtoB "cut" rt1 = (Ok ap, rt2) /\ gateway (packets rt2) = Some gw2 /\
    (Gateway.acting None true (PartitionCorrect.net rt2 gw2) request tt).1 = Some id /\ heap (packets rt2) !! id = Some rule /\ Rule.RAction rule = Rule.ActionDrop.
Proof.
  assert (Hroom : nextID (Gateway.alloc started) + Z.of_nat (length (all_interfaces in_order sandboxed)) <= maxHosts (Gateway.alloc started) + 1) by (vm_compute; discriminate).
  pose proof (partition_cuts_environment no_monitor clock attaches serves (fun _ => eq_refl) in_order in_order_perm None true no_answer no_wiring "api" "store" "cut" api store
    sandboxed started sandboxed_gated started_ok ltac:(vm_compute; reflexivity) eq_refl ltac:(vm_compute; reflexivity) ltac:(discriminate) ltac:(discriminate) ltac:(discriminate)
    eq_refl eq_refl) as H.
  assert (Ee : (env_table no_monitor clock attaches serves in_order no_wiring api sandboxed).1 !! "FAULTBOX_STORE_MAIN_ADDR" = Some "10.99.0.2:5432") by (vm_compute; reflexivity).
  destruct (env_table no_monitor clock attaches serves in_order no_wiring api sandboxed) as [env rt1]. cbn [fst] in Ee. destruct H as (ap & rt2 & gw2 & E & Hg & Hd).
  - intros p Hp. rewrite sandboxed_interfaces in Hp. rewrite !elem_of_cons, elem_of_nil in Hp. destruct Hp as [->|[->|[]]]; cbn; lia.
  - exact sandboxed_distinct.
  - exact Hroom.
  - intros p _. apply lookup_empty.
  - intros i. apply lookup_empty.
  - destruct (Hd "main" (mkInterface "main" "postgres" 5432 0 false) "10.99.0.2:5432" request tt) as (id & rule & H1 & H2 & H3);
      [vm_compute; reflexivity|exact Ee|vm_compute; reflexivity|split; vm_compute; congruence|vm_compute; reflexivity|].
    exists env, rt1, ap, rt2, gw2, id, rule. split_and!; (reflexivity || assumption).
Defined.

End EnvExample.
