(* ===== verification/Services.v ===== *)
(** * The end of a test ([internal/star/shutdown.go], [internal/star/shaper.go], [internal/star/runtime.go])

    Services are stopped dependents first, each in phases that may fail or time out; those to be
    reused are kept without their fault rules.  What a test left behind - faults,
    partitions, link shapers, the gateway - is cleared.  [bandwidth] and [mtu] set the
    shapers of the gateway's endpoint.  What stopping a process or a container gives is a parameter. *)

From Stdlib Require Import ZArith Lia.
From S2P Require Import Prelude GoStd FaultRule Session EventLog Trace ProxyManager NetRule NetQueue Packet Endpoint Registry Order FaultBuiltins PacketFault Gateway Inject Partition.
From stdpp Require Import base gmap sets strings sorting numbers list.
Local Open Scope Z_scope.
Import GoStd FaultRule Effect Registry.Spec Runtime.

Module Services.

Section Operations.
Context {V : Type} (monitor : nat -> MonitorDef V) (now : nat -> Z).
Context (attach : RT V -> result string string).
Context `{Headers} {G : Type} `{!RandSource G} (seed : G).
(** How a phase of a service ended, [None] when its function returned without an error, otherwise the
    error - returned, a panic or the timeout - and whether the function's change had been made by then;
    and the order in which Go visits a map. *)
Context (outcome : string -> string -> option (bool * string)) (iter : forall A, gmap string A -> list (string * A)).
Context (shutdownTimeout : Z).

Local Abbreviation Emit := (Emit monitor now).
Local Abbreviation endpoint := (@Endpoint.FaultEndpoint G).

(** The part of the runtime that stopping changes.  [wire]: the endpoint of the gateway once a
    shaper was set, a new one before; [phases]: what was done, in order. *)
Record Host := mkHost {
  h_order : list string; containerIDs : gmap string string; docker : bool; cleanups : gset string;
  wire : option endpoint; shapersActive : bool; phases : list (string * string); shutdownFailed : bool }.

Definition set_containers m h := mkHost (h_order h) m (docker h) (cleanups h) (wire h) (shapersActive h) (phases h) (shutdownFailed h).
Definition set_cleanups c h := mkHost (h_order h) (containerIDs h) (docker h) c (wire h) (shapersActive h) (phases h) (shutdownFailed h).
Definition set_wire w active h := mkHost (h_order h) (containerIDs h) (docker h) (cleanups h) w active (phases h) (shutdownFailed h).
Definition did p failed h := mkHost (h_order h) (containerIDs h) (docker h) (cleanups h) (wire h) (shapersActive h) (phases h ++ [p]) (shutdownFailed h || failed).

Definition St : Type := RT V * Host.

(** ** Shapers *)

Definition wire_of (h : Host) : endpoint := default (Endpoint.New seed) (wire h).

Definition parseShaperDir (s : string) : option PacketView.Direction :=
  if String.eqb s "both" || String.eqb s "" then Some PacketView.DirBoth
  else if String.eqb s "c2s" then Some PacketView.DirC2S
  else if String.eqb s "s2c" then Some PacketView.DirS2C else None.

Inductive shaper_error := NeedsRuntime (builtin runtime : string) | BadDir (builtin dir : string) | BadRate (e : Shaper.RateErr) | BadQueue (s : string)
  | TooSmall (size : Z) | GatewayError (e : failure) | NoGateway (builtin : string).

Definition requireShaperRuntime (builtin : string) (rt : RT V) : result shaper_error unit :=
  if String.eqb (detRuntime (packets rt)) gvisor then Ok tt else Err (NeedsRuntime builtin (detRuntime (packets rt))).

(** The gateway must be there; then [k] acts on its endpoint. *)
Definition on_wire (builtin : string) (k : endpoint -> endpoint) (typ : string) (fields : list (string * string)) (st : St) : result shaper_error unit * St :=
  match ensurePacketGateway monitor now attach st.1 with
  | (Err e, rt) => (Err (GatewayError e), (rt, st.2))
  | (Ok None, rt) => (Err (NoGateway builtin), (rt, st.2))
  | (Ok (Some _), rt) => (Ok tt, (Emit typ "" fields rt, set_wire (Some (k (wire_of st.2))) true st.2))
  end.

(** [queue] is "" when not given. *)
Definition builtinBandwidth (rate dirStr queueStr : string) (st : St) : result shaper_error unit * St :=
  match requireShaperRuntime "bandwidth" st.1, parseShaperDir dirStr, Shaper.ParseRate rate with
  | Err e, _, _ => (Err e, st)
  | _, None, _ => (Err (BadDir "bandwidth" dirStr), st)
  | _, _, Err e => (Err (BadRate e), st)
  | Ok _, Some dir, Ok bps =>
      let backlog := if String.eqb queueStr "" then Some Shaper.DefaultShaperBacklog
                     else match Faults.parseStarDuration queueStr with Some d => if d <=? 0 then None else Some d | None => None end in
      match backlog with
      | None => (Err (BadQueue queueStr), st)
      | Some backlog =>
          on_wire "bandwidth" (Endpoint.SetBandwidth dir bps backlog) "bandwidth_applied"
            [("rate", rate); ("bytes_per_s", fmt_f0 bps); ("dir", dirStr); ("queue", show_duration backlog)] st
      end
  end.

Definition minIPv4MTU : Z := 68.

Definition builtinMTU (size : Z) (st : St) : result shaper_error unit * St :=
  match requireShaperRuntime "mtu" st.1 with
  | Err e => (Err e, st)
  | Ok _ => if size <? minIPv4MTU then (Err (TooSmall size), st)
            else on_wire "mtu" (Endpoint.SetMTU (u32 size)) "mtu_applied" [("size", show_Z size)] st
  end.

(** [Duration.Round] to a millisecond, for a duration that is not negative: halves go up. *)
Definition round_ms (d : Z) : Z :=
  let r := go_mod d 1000000 in if r + r <? 1000000 then d - r else d + 1000000 - r.

Definition report_shaper (e : endpoint) (dir : PacketView.Direction) (name : string) (rt : RT V) : RT V :=
  match Endpoint.ShaperStatsFor dir e with
  | ((adm, drop, peak), true) =>
      Emit "bandwidth_stats" "" [("dir", name); ("admitted", show_Z adm); ("dropped", show_Z drop); ("peak_backlog", show_duration (round_ms peak))] rt
  | _ => rt
  end.

Definition clearShapers (st : St) : St :=
  let '(rt, h) := st in
  if negb (shapersActive h) then st
  else match gateway (packets rt) with
       | None => (rt, set_wire (wire h) false h)
       | Some _ =>
           let e := wire_of h in
           (report_shaper e PacketView.DirS2C "s2c" (report_shaper e PacketView.DirC2S "c2s" rt), set_wire (Some (Endpoint.ClearShapers e)) false h)
       end.

(** ** Stopping *)

(** [recordOnly]: the monitors are not told. *)
Definition recordOnly (typ service : string) (fields : list (string * string)) (rt : RT V) : RT V :=
  set_log (EventLog.emit typ service (list_to_map fields) (now (length (EventLog.events (log rt)))) (log rt)) rt.

(** A phase; [f] is what its function changes in the runtime.  A function that runs past the timeout is
    abandoned, before its change or after; that it makes the change later still is not modelled. *)
Definition shutdownPhase (service phase : string) (f : St -> St) (st : St) : St :=
  let timeout := if shutdownTimeout <=? 0 then 10000000000 else shutdownTimeout in
  match outcome service phase with
  | None => let st := f st in (st.1, did (service, phase) false st.2)
  | Some (acted, e) =>
      let st := if acted then f st else st in
      (recordOnly "service_stop_error" service
         [("code", "TEARDOWN_FAILED"); ("phase", phase); ("error", e); ("timeout_ms", show_Z (go_div timeout 1000000))] st.1,
       did (service, phase) true st.2)
  end.

(** [running]: whether the service has a session. *)
Definition stopOneService (name : string) (running : bool) (st : St) : St :=
  let keep := fun st : St => st in
  let st := if running then shutdownPhase name "cancel" keep st else st in
  let st := if docker st.2 && bool_decide (is_Some (containerIDs st.2 !! name)) then
              let st := shutdownPhase name "docker_remove" keep (shutdownPhase name "docker_stop" keep st) in
              (st.1, set_containers (delete name (containerIDs st.2)) st.2)
            else st in
  let st := if running then shutdownPhase name "wait_exit" keep st else st in
  let st := (st.1, set_cleanups (cleanups st.2 ∖ {[name]}) st.2) in
  shutdownPhase name "proxy_stop" (fun st => (set_proxyMgr (Manager.StopService name (proxyMgr st.1)) st.1, st.2)) st.

(** One name of the list: the session is kept without its rules, or stopped. *)
Definition stop_listed (reused : gset string) (acc : St * gmap string (option Session)) (name : string) : St * gmap string (option Session) :=
  let '(st, kept) := acc in
  match sessions st.1 !! name with
  | None => acc
  | Some rs =>
      if bool_decide (name ∈ reused) then (st, <[name := Session.ClearDynamicFaultRules rs]> kept)
      else (stopOneService name true st, kept)
  end.

Definition reused_names (rt : RT V) : gset string :=
  dom (filter (fun p => default false (sv_reuse <$> services rt !! p.1) = true) (sessions rt)).

(** Dependents first: the order backwards, then names it does not have. *)
Definition stop_order (order names : list string) : list string := reverse (order ++ filter (fun n => n ∉ order) names).

Definition close_gateway (st : St) : St :=
  let skipped := match wire st.2 with Some e => Endpoint.MutationsSkipped e | None => 0 end in
  (Partition.closePacketGateway monitor now skipped st.1, set_wire None (shapersActive st.2) st.2).

Definition stopServices (visit : gmap string activePartition -> list activePartition) (st : St) : St :=
  let reused := reused_names st.1 in
  let names := stop_order (h_order st.2) (iter _ (sessions st.1)).*1 in
  let '(st, kept) := foldl (stop_listed reused) (st, ∅) names in
  let st := foldl (fun st c => match sessions st.1 !! c with Some _ => st | None => stopOneService c false st end) st (iter _ (containerIDs st.2)).*1 in
  let st := (set_sessions kept st.1, st.2) in
  let st := (Partition.clearPartitions monitor now visit st.1, st.2) in
  let st := clearShapers st in
  let st := (set_faults ∅ st.1, st.2) in
  if bool_decide (reused = ∅) then
    shutdownPhase "" "observation_close" (fun st => st) (shutdownPhase "" "packet_gateway_close" close_gateway st)
  else st.

Definition stopReusedServices (st : St) : St :=
  let extra := sort_strings (elements ((dom (sessions st.1) ∪ dom (containerIDs st.2)) ∖ list_to_set (h_order st.2))) in
  let st := foldl (fun st name => stopOneService name (bool_decide (is_Some (sessions st.1 !! name))) st) st (reverse (h_order st.2 ++ extra)) in
  (set_sessions ∅ st.1, st.2).

End Operations.
End Services.

(** ** What a teardown leaves *)
Module Teardown.
Import Services.

Section Proofs.
Context {V : Type} (monitor : nat -> MonitorDef V) (now : nat -> Z).
Context (attach : RT V -> result string string).
Context `{Headers} {G : Type} `{!RandSource G} (seed : G).
Context (outcome : string -> string -> option (bool * string)) (iter : forall A, gmap string A -> list (string * A)).
Context (iter_perm : forall A (m : gmap string A), iter A m ≡ₚ map_to_list m).
Context (shutdownTimeout : Z) (visit : gmap string activePartition -> list activePartition).
Context (visit_perm : forall m, visit m ≡ₚ (map_to_list m).*2).

Local Abbreviation Emit := (Emit monitor now).
Local Abbreviation St := (@St V G).
Local Abbreviation shutdownPhase := (shutdownPhase now outcome shutdownTimeout).
Local Abbreviation stopOneService := (stopOneService now outcome shutdownTimeout).
Local Abbreviation stop_listed := (stop_listed now outcome shutdownTimeout).
Local Abbreviation stopServices := (stopServices monitor now seed outcome iter shutdownTimeout visit).

(** *** Phases *)

(** Only the log, the proxies and the containers change, in phases of the services in [names]. *)
Record stops (names : string -> Prop) (st st' : St) : Prop := {
  sp_services : services st'.1 = services st.1; sp_faults : faults st'.1 = faults st.1; sp_sessions : sessions st'.1 = sessions st.1; sp_packets : packets st'.1 = packets st.1;
  sp_order : h_order st'.2 = h_order st.2; sp_wire : wire st'.2 = wire st.2; sp_active : shapersActive st'.2 = shapersActive st.2;
  sp_phases : exists l, phases st'.2 = phases st.2 ++ l /\ Forall (fun p => names p.1) l }.

Lemma stops_refl names st : stops names st st.
Proof. split; try done. exists []. by rewrite app_nil_r. Qed.

Lemma stops_trans (names : string -> Prop) st1 st2 st3 : stops names st1 st2 -> stops names st2 st3 -> stops names st1 st3.
Proof.
  intros [? ? ? ? ? ? ? (l & E & F)] [? ? ? ? ? ? ? (l' & E' & F')]. split; try congruence. exists (l ++ l'). rewrite E', E, app_assoc. split; [done|]. by apply Forall_app.
Qed.

Lemma stops_weaken (names names' : string -> Prop) st st' : (forall n, names n -> names' n) -> stops names st st' -> stops names' st st'.
Proof. intros Hn [? ? ? ? ? ? ? (l & E & F)]. split; try done. exists l. split; [done|]. eapply Forall_impl; [exact F|]. auto. Qed.

(** A phase whose function changed the state, or did not and failed. *)
Lemma phase_acted n ph f (st : St) : exists acted : bool, shutdownPhase n ph f st = shutdownPhase n ph (fun st => st) (if acted then f st else st) /\
  (acted = false -> exists e, outcome n ph = Some (false, e)).
Proof.
  unfold Services.shutdownPhase. destruct (outcome n ph) as [[[] e]|]; [by exists true|exists false; split; [done|by exists e]|by exists true].
Qed.

Lemma phase_keep n ph st : stops (eq n) st (shutdownPhase n ph (fun st => st) st).
Proof.
  unfold Services.shutdownPhase. destruct (outcome n ph) as [[[] e]|]; split; try done; exists [(n, ph)]; (split; [done|by apply Forall_singleton]).
Qed.

Lemma phase_stops n ph f st : stops (eq n) st (f st) -> stops (eq n) st (shutdownPhase n ph f st).
Proof.
  intros Hf. destruct (phase_acted n ph f st) as ([] & -> & _); [|apply phase_keep]. eapply stops_trans; [exact Hf|apply phase_keep].
Qed.

Lemma failure_marks n ph f (st : St) : shutdownFailed st.2 = true \/ (exists e, outcome n ph = Some (false, e)) -> (forall st, shutdownFailed st.2 = true -> shutdownFailed (f st).2 = true) ->
  shutdownFailed (shutdownPhase n ph f st).2 = true.
Proof.
  intros Hs Hf. unfold Services.shutdownPhase. destruct (outcome n ph) as [[[] e]|]; cbn; rewrite ?orb_true_r; try done.
  destruct Hs as [Hs|[e Hs]]; [|done]. by rewrite Hf.
Qed.

Lemma phase_after n ph f st0 st : (forall st, stops (eq n) st (f st)) -> stops (eq n) st0 st -> stops (eq n) st0 (shutdownPhase n ph f st).
Proof. intros Hf H0. eapply stops_trans; [exact H0|]. by apply phase_stops. Qed.

(** A change of nothing that counts. *)
Lemma quiet_after n st0 rt h' st : stops (eq n) st0 st -> rt = st.1 -> h_order h' = h_order st.2 -> wire h' = wire st.2 -> shapersActive h' = shapersActive st.2 ->
  phases h' = phases st.2 -> stops (eq n) st0 (rt, h').
Proof. intros H0 -> ? ? ? E. eapply stops_trans; [exact H0|]. split; try done. exists []. by rewrite app_nil_r. Qed.

Lemma stop_one_stops n running st : stops (eq n) st (stopOneService n running st).
Proof.
  unfold Services.stopOneService. cbv zeta. apply phase_after; [intros st'; split; try done; exists []; by rewrite app_nil_r|].
  eapply quiet_after; [|reflexivity..].
  assert (K : forall ph st', stops (eq n) st st' -> stops (eq n) st (shutdownPhase n ph (fun st => st) st')) by (intros; apply phase_after; [intros; apply stops_refl|done]).
  assert (C : forall st', stops (eq n) st st' -> stops (eq n) st
    (if docker st'.2 && bool_decide (is_Some (containerIDs st'.2 !! n)) then
       let st := shutdownPhase n "docker_remove" (fun st => st) (shutdownPhase n "docker_stop" (fun st => st) st') in (st.1, set_containers (delete n (containerIDs st.2)) st.2)
     else st')).
  { intros st' H'. destruct (_ && _); [|done]. cbv zeta. eapply quiet_after; [apply K, K, H'|reflexivity..]. }
  destruct running; [apply K, C, K, stops_refl|apply C, stops_refl].
Qed.

(** *** The list of names *)

Lemma stop_all_listed reused l : forall st kept st' kept', foldl (stop_listed reused) (st, kept) l = (st', kept') ->
  stops (fun n => n ∈ l /\ n ∉ reused) st st' /\
  forall k, kept' !! k = if decide (k ∈ l /\ k ∈ reused /\ is_Some (sessions st.1 !! k)) then Session.ClearDynamicFaultRules <$> sessions st.1 !! k else kept !! k.
Proof.
  induction l as [|n l IH]; intros st kept st' kept'.
  { intros [= <- <-]. split; [apply stops_refl|]. intros k. rewrite decide_False; [done|]. by intros [?%elem_of_nil _]. }
  cbn [foldl]. unfold Services.stop_listed at 2. destruct (sessions st.1 !! n) as [rs|] eqn:En.
  - case_bool_decide as Hr; intros E; destruct (IH _ _ _ _ E) as [S K].
    + split; [eapply stops_weaken; [|exact S]; intros m [? ?]; split; [by right|done]|]. intros k. rewrite K. destruct (decide (k = n)) as [->|Hne].
      * rewrite lookup_insert_eq, En. rewrite (decide_True (P := n ∈ n :: l /\ _)) by (split_and!; [by left|done|by eexists]). by destruct (decide _).
      * rewrite lookup_insert_ne by done. destruct (decide (k ∈ l /\ _)) as [Hd|Hd].
        -- rewrite decide_True; [done|]. destruct Hd as (? & ? & ?). split_and!; [by right|done..].
        -- rewrite decide_False; [done|]. intros ([->|?]%elem_of_cons & ? & ?); [done|by apply Hd].
    + pose proof (stop_one_stops n true st) as S1. split.
      * eapply stops_trans; [eapply stops_weaken; [|exact S1]; intros m <-; split; [by left|done]|eapply stops_weaken; [|exact S]; intros m [? ?]; split; [by right|done]].
      * intros k. rewrite K, (sp_sessions _ _ _ S1). destruct (decide (k ∈ l /\ _)) as [Hd|Hd].
        -- rewrite decide_True; [done|]. destruct Hd as (? & ? & ?). split_and!; [by right|done..].
        -- rewrite decide_False; [done|]. intros ([->|?]%elem_of_cons & ? & ?); [done|by apply Hd].
  - intros E. destruct (IH _ _ _ _ E) as [S K]. split; [eapply stops_weaken; [|exact S]; intros m [? ?]; split; [by right|done]|]. intros k. rewrite K.
    destruct (decide (k ∈ l /\ _)) as [Hd|Hd].
    + rewrite decide_True; [done|]. destruct Hd as (? & ? & ?). split_and!; [by right|done..].
    + rewrite decide_False; [done|]. intros ([->|?]%elem_of_cons & ? & [x Hx]); [by rewrite En in Hx|]. apply Hd. split_and!; [done..|by exists x].
Qed.

Lemma stop_containers_stops l : forall st, stops (fun n => sessions st.1 !! n = None) st
  (foldl (fun st c => match sessions st.1 !! c with Some _ => st | None => stopOneService c false st end) st l).
Proof.
  induction l as [|c l IH]; intros st; [apply stops_refl|]. cbn [foldl]. destruct (sessions st.1 !! c) eqn:E; [apply IH|].
  pose proof (stop_one_stops c false st) as S. eapply stops_trans; [eapply stops_weaken; [|exact S]; by intros n <-|].
  eapply stops_weaken; [|apply IH]. cbn. intros n. by rewrite (sp_sessions _ _ _ S).
Qed.

(** *** Partitions and shapers *)

Record calm (rt rt' : RT V) : Prop := {
  cm_services : services rt' = services rt; cm_sessions : sessions rt' = sessions rt;
  cm_parts : partitions (packets rt') = partitions (packets rt); cm_gateway : gateway (packets rt') = None <-> gateway (packets rt) = None }.

#[local] Instance calm_preorder : PreOrder calm.
Proof. split; [by intros rt|]. intros ? ? ? [? ? ? H1] [? ? ? H2]. split; [congruence..|]. by rewrite H2, H1. Qed.

Lemma Emit_calm typ svc fields rt : calm rt (Emit typ svc fields rt).
Proof. destruct (Cleanup.Emit_frame monitor now typ svc fields rt). split; [done..| |]; by rewrite PartitionCorrect.Emit_packets. Qed.

Lemma close_window_calm w rt : calm rt (close_window monitor now w rt).
Proof.
  unfold close_window. trans (clear_packet_rules (pw_consumer w) (pw_service w) (pw_iface w) rt).
  - unfold clear_packet_rules. cbn [gateway set_installs heap].
    destruct (gateway (packets rt)) eqn:E; [destruct (Gateway.ClearRules _ _ _ _) as [h gw]|]; split; try done; cbn; by rewrite E.
  - generalize (clear_packet_rules (pw_consumer w) (pw_service w) (pw_iface w) rt). generalize (zip (pw_ids w) (pw_defs w)).
    induction l as [|[j d] l IH]; intros rt1; [done|]. cbn [foldl]. etrans; [|apply IH]. destruct (heap (packets rt1) !! j); [|done]. destruct (_ =? 0); [apply Emit_calm|done].
Qed.

Lemma remove_calm ap rt : calm rt (Partition.remove monitor now ap rt).
Proof.
  unfold Partition.remove. etrans; [|apply Emit_calm]. generalize (ap_cleanups ap). intros l. revert rt. induction l as [|w l IH]; intros rt; [done|]. cbn [foldl].
  etrans; [apply close_window_calm|apply IH].
Qed.

Lemma clear_partitions_calm rt : calm (set_packets (set_partitions ∅ (packets rt)) rt) (Partition.clearPartitions monitor now visit rt).
Proof.
  unfold Partition.clearPartitions. cbv zeta. set (rt0 := set_packets _ rt).
  assert (K : forall l rt, calm rt (foldl (fun rt ap => Partition.remove monitor now ap rt) rt l)).
  { induction l as [|ap l IH]; intros rt1; [done|]. cbn [foldl]. etrans; [apply remove_calm|apply IH]. }
  destruct (length _ =? 0)%nat; [apply K|]. etrans; [apply K|apply Emit_calm].
Qed.

(** The routes that the active partitions cut, as keys of the gateway's rules. *)
Definition cut_keys (aps : list activePartition) : list string :=
  (fun w => triple (pw_consumer w) (pw_service w) (pw_iface w)) <$> (aps ≫= ap_cleanups).

(** A gateway that publishes what it holds, without the rules of some routes. *)
Definition uncut (keys : list string) (rt rt' : RT V) : Prop :=
  forall gw, gateway (packets rt) = Some gw -> Scopes.net_ok (PartitionCorrect.net rt gw) ->
    exists gw', gateway (packets rt') = Some gw' /\ Scopes.net_ok (PartitionCorrect.net rt' gw') /\
      forall k, Gateway.rules gw' !! k = if decide (k ∈ keys) then None else Gateway.rules gw !! k.

Lemma same_packets_uncut rt rt' : packets rt' = packets rt -> uncut [] rt rt'.
Proof. intros E gw Hg Hok. exists gw. unfold PartitionCorrect.net in *. by rewrite E. Qed.

Lemma uncut_trans ks ks' rt1 rt2 rt3 : uncut ks rt1 rt2 -> uncut ks' rt2 rt3 -> uncut (ks ++ ks') rt1 rt3.
Proof.
  intros H1 H2 gw Hg Hok. destruct (H1 gw Hg Hok) as (gw1 & Hg1 & Hok1 & R1). destruct (H2 gw1 Hg1 Hok1) as (gw2 & Hg2 & Hok2 & R2).
  exists gw2. split_and!; [done..|]. intros k. rewrite R2, R1.
  rewrite (decide_ext (k ∈ ks ++ ks') (k ∈ ks \/ k ∈ ks')) by apply elem_of_app.
  destruct (decide (k ∈ ks')), (decide (k ∈ ks)); rewrite ?decide_True by auto; [done..|]. rewrite decide_False; [done|]. by intros [?|?].
Qed.

Lemma windows_uncut ws rt : uncut ((fun w => triple (pw_consumer w) (pw_service w) (pw_iface w)) <$> ws) rt (foldl (fun rt w => close_window monitor now w rt) rt ws).
Proof.
  intros gw Hg Hok. destruct (PartitionCorrect.close_all monitor now ws ((fun w => (pw_consumer w, pw_service w, pw_iface w)) <$> ws) rt gw Hg Hok) as (gw' & Hg' & Hok' & _ & R).
  { induction ws; constructor; done. }
  exists gw'. split_and!; [done..|]. intros k. rewrite R. by rewrite <- list_fmap_compose.
Qed.

Lemma remove_uncut ap rt : uncut (cut_keys [ap]) rt (Partition.remove monitor now ap rt).
Proof.
  unfold Partition.remove, cut_keys. cbn [mbind list_bind]. rewrite app_nil_r. rewrite <- (app_nil_r (_ <$> _)). eapply uncut_trans; [apply windows_uncut|].
  apply same_packets_uncut, PartitionCorrect.Emit_packets.
Qed.

Lemma clear_partitions_uncut rt : uncut (cut_keys (visit (partitions (packets rt)))) rt (Partition.clearPartitions monitor now visit rt).
Proof.
  unfold Partition.clearPartitions. cbv zeta. generalize (visit (partitions (packets rt))) as aps. intros aps.
  assert (K : forall rt, uncut (cut_keys aps) rt (foldl (fun rt ap => Partition.remove monitor now ap rt) rt aps)).
  { induction aps as [|ap aps IH]; intros rt1; [by apply same_packets_uncut|]. cbn [foldl].
    assert (cut_keys (ap :: aps) = cut_keys [ap] ++ cut_keys aps) as -> by (unfold cut_keys; cbn [mbind list_bind]; by rewrite app_nil_r, fmap_app).
    eapply uncut_trans; [apply remove_uncut|apply IH]. }
  intros gw Hg Hok. destruct (K (set_packets (set_partitions ∅ (packets rt)) rt) gw Hg Hok) as (gw' & Hg' & Hok' & R). exists gw'.
  destruct (length aps =? 0)%nat; [done|]. unfold PartitionCorrect.net in *. by rewrite PartitionCorrect.Emit_packets.
Qed.

(** A link without shapers. *)
Definition unshaped (e : @Endpoint.FaultEndpoint G) : Prop :=
  Endpoint.shapeC2S (Endpoint.links e) = None /\ Endpoint.shapeS2C (Endpoint.links e) = None /\ Endpoint.mtuOverride (Endpoint.links e) = 0.

(** The flag tells whether there are shapers, and without a gateway there are none. *)
Definition wired (st : St) : Prop :=
  (gateway (packets st.1) = None -> wire st.2 = None) /\ (shapersActive st.2 = false -> unshaped (wire_of seed st.2)).

Lemma report_calm (e : @Endpoint.FaultEndpoint G) dir name rt : calm rt (report_shaper monitor now e dir name rt).
Proof. unfold report_shaper. destruct (Endpoint.ShaperStatsFor dir e) as [[[? ?] ?] []]; [apply Emit_calm|done]. Qed.

Lemma clear_shapers_unshaped st : wired st -> let st' := clearShapers monitor now seed st in
  calm st.1 st'.1 /\ phases st'.2 = phases st.2 /\ shapersActive st'.2 = false /\ unshaped (wire_of seed st'.2) /\ (gateway (packets st.1) = None -> wire st'.2 = None).
Proof.
  intros [W1 W2]. destruct st as [rt h]. cbv zeta. unfold clearShapers. destruct (shapersActive h) eqn:Ea; [|by split_and!; auto].
  cbn [negb]. destruct (gateway (packets rt)) as [gw|] eqn:Eg.
  - cbn [fst snd]. split_and!; [etrans; apply report_calm|done|done|by split_and!|intros E; by rewrite Eg in E].
  - cbn [fst snd] in *. split_and!; try done. unfold wire_of. cbn. rewrite W1 by done. by split_and!.
Qed.

Lemma clear_shapers_packets (st : St) : packets (clearShapers monitor now seed st).1 = packets st.1.
Proof.
  destruct st as [rt h]. unfold clearShapers. destruct (negb _); [done|]. destruct (gateway _); [|done]. cbn [fst]. unfold report_shaper.
  repeat destruct (Endpoint.ShaperStatsFor _ _) as [[[? ?] ?] []]; by rewrite ?PartitionCorrect.Emit_packets.
Qed.

(** [bandwidth] and [mtu] keep the flag. *)
Lemma on_wire_wired builtin k typ fields st : wired st -> wired (on_wire monitor now attach seed builtin k typ fields st).2.
Proof.
  intros [W1 W2]. unfold on_wire. unfold ensurePacketGateway. destruct (negb _); [done|]. destruct (gateway (packets st.1)) as [gw|] eqn:Eg.
  { split; [|done]. cbn. rewrite PartitionCorrect.Emit_packets, Eg. done. }
  destruct (Gateway.NewGateway ""); [|by split; [intros _; apply W1|]]. destruct (attach st.1); [|by split; [intros _; apply W1|]].
  split; [|done]. cbn [fst snd]. rewrite !PartitionCorrect.Emit_packets. done.
Qed.

Lemma bandwidth_wired rate dir queue st : wired st -> wired (builtinBandwidth monitor now attach seed rate dir queue st).2.
Proof.
  intros W. unfold builtinBandwidth. destruct (requireShaperRuntime _ _); [|done]. destruct (parseShaperDir _); [|done]. destruct (Shaper.ParseRate _); [|done].
  destruct (if String.eqb queue "" then _ else _); [|done]. by apply on_wire_wired.
Qed.

Lemma mtu_wired size st : wired st -> wired (builtinMTU monitor now attach seed size st).2.
Proof. intros W. unfold builtinMTU. destruct (requireShaperRuntime _ _); [|done]. destruct (size <? _); [done|]. by apply on_wire_wired. Qed.

(** *** All of it *)

Lemma close_gateway_shape (st : St) : let st' := close_gateway monitor now st in
  services st'.1 = services st.1 /\ sessions st'.1 = sessions st.1 /\ faults st'.1 = faults st.1 /\ partitions (packets st'.1) = partitions (packets st.1) /\
  gateway (packets st'.1) = None /\ wire st'.2 = None /\ shapersActive st'.2 = shapersActive st.2 /\ phases st'.2 = phases st.2.
Proof.
  unfold close_gateway. cbn [fst snd]. unfold Partition.closePacketGateway. set (sk := match wire st.2 with Some e => _ | None => 0 end).
  destruct (gateway (packets st.1)) eqn:E; [|by split_and!].
  set (rt1 := set_packets _ st.1). set (rt2 := if 0 <? sk then _ else rt1).
  assert (C : Cleanup.frame rt1 rt2 /\ packets rt2 = packets rt1) by (unfold rt2; destruct (0 <? sk); [split; [apply Cleanup.Emit_frame|apply PartitionCorrect.Emit_packets]|by split]).
  destruct C as [[] P]. destruct (Cleanup.Emit_frame monitor now "packet_gateway_stopped" "" [] rt2). rewrite PartitionCorrect.Emit_packets, P. split_and!; try done; (etrans; [eassumption|]; etrans; [eassumption|reflexivity]).
Qed.

(** The gateway's phases at the end of a teardown without services to keep. *)
Lemma gateway_phases (st : St) : let st' := shutdownPhase "" "observation_close" (fun st => st) (shutdownPhase "" "packet_gateway_close" (close_gateway monitor now) st) in
  services st'.1 = services st.1 /\ sessions st'.1 = sessions st.1 /\ faults st'.1 = faults st.1 /\ partitions (packets st'.1) = partitions (packets st.1) /\
  shapersActive st'.2 = shapersActive st.2 /\
  (gateway (packets st'.1) = None /\ wire st'.2 = None \/ shutdownFailed st'.2 = true /\ packets st'.1 = packets st.1 /\ wire st'.2 = wire st.2) /\
  exists l, phases st'.2 = phases st.2 ++ l /\ Forall (fun p => p.1 = "") l.
Proof.
  cbv zeta. destruct (phase_acted "" "packet_gateway_close" (close_gateway monitor now) st) as (acted & -> & Hf).
  set (st1 := if acted then _ else _). pose proof (stops_trans _ _ _ _ (phase_keep "" "packet_gateway_close" st1) (phase_keep "" "observation_close" _)) as S.
  set (st' := shutdownPhase "" "observation_close" _ _) in *. destruct (sp_phases _ _ _ S) as (l & El & Fl).
  assert (Fl' : Forall (fun p => p.1 = "") l) by (eapply Forall_impl; [exact Fl|]; cbn; by intros p <-).
  rewrite (sp_services _ _ _ S), (sp_sessions _ _ _ S), (sp_faults _ _ _ S), (sp_packets _ _ _ S), (sp_active _ _ _ S), (sp_wire _ _ _ S), El.
  destruct acted; subst st1.
  - destruct (close_gateway_shape st) as (P1 & P2 & P3 & P4 & P5 & P6 & P7 & ->). split_and!; [done..|by left|by exists l].
  - split_and!; [done..| |by exists l]. right. split_and!; [|done..]. apply failure_marks; [|done]. left. apply failure_marks; [|done]. right. by apply Hf.
Qed.

Lemma reused_in (rt : RT V) k : k ∈ reused_names rt <-> is_Some (sessions rt !! k) /\ default false (sv_reuse <$> services rt !! k) = true.
Proof.
  unfold reused_names. rewrite elem_of_dom. split.
  - intros [rs Hk]. apply map_lookup_filter_Some in Hk as [Hk Hr]. split; [by exists rs|done].
  - intros [[rs Hk] Hr]. exists rs. by apply map_lookup_filter_Some.
Qed.

Lemma stop_order_has order names k : k ∈ names -> k ∈ stop_order order names.
Proof.
  intros Hk. unfold stop_order. rewrite elem_of_reverse, elem_of_app. destruct (decide (k ∈ order)); [by left|]. right. by apply list_elem_of_filter.
Qed.

(** What is kept of the sessions: those to be reused, without their rules. *)
Lemma kept_sessions (st st1 : St) kept :
  foldl (stop_listed (reused_names st.1)) (st, ∅) (stop_order (h_order st.2) (iter _ (sessions st.1)).*1) = (st1, kept) ->
  forall k, kept !! k = if default false (sv_reuse <$> services st.1 !! k) then Session.ClearDynamicFaultRules <$> sessions st.1 !! k else None.
Proof using iter_perm.
  intros E k. destruct (stop_all_listed _ _ _ _ _ _ E) as [_ K]. rewrite K. destruct (decide _) as [(_ & [_ ->]%reused_in & _)|Hd]; [done|]. rewrite lookup_empty.
  destruct (default false _) eqn:Er; [|done]. destruct (sessions st.1 !! k) as [rs|] eqn:Ek; [|done]. exfalso. apply Hd. split_and!; [|apply reused_in; rewrite Ek; by split|by eexists].
  apply stop_order_has. rewrite iter_perm. apply list_elem_of_fmap. exists (k, rs). by rewrite elem_of_map_to_list.
Qed.

(** What the steps before the gateway's phases leave. *)
Lemma swept (st st1 : St) kept : foldl (stop_listed (reused_names st.1)) (st, ∅) (stop_order (h_order st.2) (iter _ (sessions st.1)).*1) = (st1, kept) -> wired st ->
  exists st4, stopServices st =
    (let st5 := (set_faults ∅ st4.1, st4.2) in
     if bool_decide (reused_names st.1 = ∅)
     then shutdownPhase "" "observation_close" (fun st => st) (shutdownPhase "" "packet_gateway_close" (close_gateway monitor now) st5) else st5) /\
  sessions st4.1 = kept /\ partitions (packets st4.1) = ∅ /\ shapersActive st4.2 = false /\ unshaped (wire_of seed st4.2) /\ (gateway (packets st4.1) = None -> wire st4.2 = None) /\
  uncut (cut_keys (visit (partitions (packets st.1)))) st.1 st4.1.
Proof.
  intros E1 W. destruct (stop_all_listed _ _ _ _ _ _ E1) as [S1 _]. unfold Services.stopServices. rewrite E1.
  match goal with |- context [foldl ?f st1 ?l] => set (st2 := foldl f st1 l) end. assert (S2 : stops (fun n => sessions st1.1 !! n = None) st1 st2) by apply stop_containers_stops.
  assert (Epk : packets st2.1 = packets st.1) by (rewrite (sp_packets _ _ _ S2); apply (sp_packets _ _ _ S1)).
  set (rt3 := Partition.clearPartitions monitor now visit (set_sessions kept st2.1)). pose proof (clear_partitions_calm (set_sessions kept st2.1)) as C3. fold rt3 in C3.
  assert (W3 : wired (rt3, st2.2)).
  { destruct W as [W1 W2]. split; cbn [fst snd]; unfold wire_of; rewrite (sp_wire _ _ _ S2), (sp_wire _ _ _ S1).
    - intros Eg. apply W1. rewrite (cm_gateway _ _ C3) in Eg. cbn in Eg. by rewrite Epk in Eg.
    - rewrite (sp_active _ _ _ S2), (sp_active _ _ _ S1). apply W2. }
  cbn [fst snd]. fold rt3. destruct (clear_shapers_unshaped (rt3, st2.2) W3) as (C4 & _ & A4 & U4 & N4). pose proof (clear_shapers_packets (rt3, st2.2)) as P4.
  set (st4 := clearShapers monitor now seed (rt3, st2.2)) in *. cbn [fst] in C4, P4. exists st4. split; [reflexivity|]. split_and!; [| |done|done| |].
  - by rewrite (cm_sessions _ _ C4), (cm_sessions _ _ C3).
  - by rewrite (cm_parts _ _ C4), (cm_parts _ _ C3).
  - intros Eg. apply N4. by apply (cm_gateway _ _ C4).
  - rewrite <- (app_nil_r (cut_keys _)). eapply uncut_trans; [|apply same_packets_uncut, P4].
    pose proof (clear_partitions_uncut (set_sessions kept st2.1)) as U. fold rt3 in U. cbn [packets set_sessions] in U. rewrite Epk in U.
    intros gw Hg Hok. apply U; [cbn; by rewrite Epk|]. unfold PartitionCorrect.net in *. cbn. by rewrite Epk.
Qed.

(** C15: Nothing of a test is left for the next.  After the services are stopped no fault and no partition
    is active, the link has no bandwidth limit and no changed packet size, and only the sessions of
    services to be reused remain, each without fault rules.  When there are some, a gateway that published the
    rules it held stays, publishes the rules it holds, and holds the rules it had but for those of the
    routes the partitions cut, which it no longer has; when there are none the gateway is gone, or a phase
    of its own failed and the runtime is marked as failed.  The shapers are gone because [bandwidth] and
    [mtu] raise the flag that the end of a test looks at. *)
Theorem teardown_leaves_nothing (st : St) : wired st -> let st' := stopServices st in
  faults st'.1 = ∅ /\ partitions (packets st'.1) = ∅ /\ unshaped (wire_of seed st'.2) /\ wired st' /\
  (forall k, sessions st'.1 !! k =
     if default false (sv_reuse <$> services st.1 !! k) then Session.ClearDynamicFaultRules <$> sessions st.1 !! k else None) /\
  (forall gw, (exists k, is_Some (sessions st.1 !! k) /\ default false (sv_reuse <$> services st.1 !! k) = true) ->
     gateway (packets st.1) = Some gw -> Scopes.net_ok (PartitionCorrect.net st.1 gw) ->
     exists gw', gateway (packets st'.1) = Some gw' /\ Scopes.net_ok (PartitionCorrect.net st'.1 gw') /\
       forall k, Gateway.rules gw' !! k = if decide (k ∈ cut_keys (map_to_list (partitions (packets st.1))).*2) then None else Gateway.rules gw !! k) /\
  ((forall k, is_Some (sessions st.1 !! k) -> default false (sv_reuse <$> services st.1 !! k) = false) ->
     gateway (packets st'.1) = None \/ shutdownFailed st'.2 = true).
Proof using iter_perm visit_perm.
  intros W. cbv zeta. destruct (foldl (stop_listed (reused_names st.1)) (st, ∅) (stop_order (h_order st.2) (iter _ (sessions st.1)).*1)) as [st1 kept] eqn:E1.
  pose proof (kept_sessions st st1 kept E1) as Hkept. destruct (swept st st1 kept E1 W) as (st4 & -> & Hs & Hp & Ha & Hu & Hw & Hc). cbv zeta. set (st5 := (set_faults ∅ st4.1, st4.2)).
  case_bool_decide as Hr.
  - destruct (gateway_phases st5) as (_ & P2 & P3 & P4 & P5 & P6 & _). set (st' := shutdownPhase "" "observation_close" _ _) in *. rewrite P2, P3, P4.
    assert (Hwire : unshaped (wire_of seed st'.2)) by (unfold wire_of; destruct P6 as [[_ ->]|(_ & _ & ->)]; [by split_and!|exact Hu]).
    split_and!; [done|exact Hp|done| |by intros k; rewrite <- Hkept, <- Hs| |].
    + split; [|done]. intros Hg. destruct P6 as [[_ ?]|(_ & Ep & ->)]; [done|]. apply Hw. by rewrite Ep in Hg.
    + intros gw (k & Hk) _ _. apply reused_in in Hk. rewrite Hr in Hk. by apply elem_of_empty in Hk.
    + intros _. destruct P6 as [[? _]|(? & _)]; [by left|by right].
  - split_and!; [done|done|exact Hu|split; [exact Hw|by intros _]|by intros k; rewrite <- Hkept, <- Hs| |].
    + intros gw _ Hg Hok. destruct (Hc gw Hg Hok) as (gw' & Hg' & Hok' & R). exists gw'. split_and!; [done..|]. intros k. rewrite R.
      apply decide_ext. unfold cut_keys. by rewrite visit_perm.
    + intros Hk. exfalso. apply Hr. apply set_eq. intros k. split; [|by intros ?%elem_of_empty]. intros [Hsk Ht]%reused_in. rewrite Hk in Ht by done. done.
Qed.

(** *** The order of the phases *)

(** In the phases [l], everything of [a] comes before everything of [b]. *)
Definition before (a b : string) (l : list (string * string)) : Prop :=
  exists l1 l2, l = l1 ++ l2 /\ Forall (fun p => p.1 <> b) l1 /\ Forall (fun p => p.1 <> a) l2.

Lemma phases_grow names (st st' : St) p : stops names st st' -> p ∈ phases st.2 -> p ∈ phases st'.2.
Proof. intros [? ? ? ? ? ? ? (l & E & _)] Hp. rewrite E. apply elem_of_app. by left. Qed.

Lemma stop_one_waits n (st : St) : (n, "wait_exit") ∈ phases (stopOneService n true st).2.
Proof.
  unfold Services.stopOneService. cbv zeta. eapply phases_grow; [apply phase_stops; split; try done; exists []; by rewrite app_nil_r|]. cbn [snd phases set_cleanups].
  unfold Services.shutdownPhase at 1. destruct (outcome n "wait_exit") as [[[] ?]|]; cbn; apply elem_of_app; right; by left.
Qed.

Lemma stop_listed_waits reused a l : forall (st : St) kept, a ∈ l -> a ∉ reused -> is_Some (sessions st.1 !! a) ->
  (a, "wait_exit") ∈ phases (foldl (stop_listed reused) (st, kept) l).1.2.
Proof.
  induction l as [|n l IH]; intros st kept Hin Hr Hs; [by apply elem_of_nil in Hin|]. cbn [foldl]. apply elem_of_cons in Hin as [<-|Hin].
  - unfold Services.stop_listed at 2. destruct Hs as [rs Hs]. rewrite Hs, bool_decide_false by done.
    destruct (foldl _ _ l) as [st' kept'] eqn:E. destruct (stop_all_listed _ _ _ _ _ _ E) as [S _]. eapply phases_grow; [exact S|]. apply stop_one_waits.
  - unfold Services.stop_listed at 2. destruct (sessions st.1 !! n); [|by apply IH]. case_bool_decide; [by apply IH|]. apply IH; [done..|].
    by rewrite (sp_sessions _ _ _ (stop_one_stops n true st)).
Qed.

(** The phases of a whole teardown: those of the listed names, of containers without a session, of the gateway. *)
Lemma teardown_phases (st st1 : St) kept :
  foldl (stop_listed (reused_names st.1)) (st, ∅) (stop_order (h_order st.2) (iter _ (sessions st.1)).*1) = (st1, kept) -> wired st ->
  exists l, phases (stopServices st).2 = phases st1.2 ++ l /\ Forall (fun p => sessions st.1 !! p.1 = None \/ p.1 = "") l.
Proof.
  intros E W. destruct (stop_all_listed _ _ _ _ _ _ E) as [S1 _]. unfold Services.stopServices. rewrite E.
  match goal with |- context [foldl ?f st1 ?l] => set (st2 := foldl f st1 l) end. assert (S2 : stops (fun n => sessions st1.1 !! n = None) st1 st2) by apply stop_containers_stops.
  cbn [fst snd]. set (rt3 := Partition.clearPartitions monitor now visit (set_sessions kept st2.1)).
  assert (E4 : phases (clearShapers monitor now seed (rt3, st2.2)).2 = phases st2.2).
  { unfold clearShapers. destruct (negb _); [done|]. by destruct (gateway _). }
  set (st4 := clearShapers monitor now seed (rt3, st2.2)) in *. destruct (sp_phases _ _ _ S2) as (l & El & Fl).
  assert (Fl' : Forall (fun p => sessions st.1 !! p.1 = None \/ p.1 = "") l) by (eapply Forall_impl; [exact Fl|]; cbn; intros p; rewrite (sp_sessions _ _ _ S1); auto).
  case_bool_decide; [|exists l; cbn [snd]; by rewrite E4, El].
  destruct (gateway_phases (set_faults ∅ st4.1, st4.2)) as (_ & _ & _ & _ & _ & _ & l' & El' & Fl''). exists (l ++ l'). split.
  - rewrite El'. cbn [snd]. by rewrite E4, El, app_assoc.
  - apply Forall_app. split; [done|]. eapply Forall_impl; [exact Fl''|]. cbn. intros p ->. by right.
Qed.

(** C20: Dependents stop first.  When the order in which services were started puts dependencies first, a
    running service [a] that depends on the running service [b] is stopped before it: in a teardown every
    phase of [a] comes before every phase of [b], whatever fails, and unless [a] is to be reused its
    process was waited for. *)
Theorem dependents_stop_first (st : St) g a b :
  wired st -> Order.ordered g (h_order st.2) -> a ∈ h_order st.2 -> b ∈ Order.deps g a ->
  is_Some (sessions st.1 !! a) -> a <> "" ->
  exists l, phases (stopServices st).2 = phases st.2 ++ l /\ before a b l /\
    (default false (sv_reuse <$> services st.1 !! a) = false -> (a, "wait_exit") ∈ phases st.2 ++ l).
Proof using iter_perm.
  intros W [Hnd Hfirst] Ha Hdep Hsa Ha0. set (names := (iter _ (sessions st.1)).*1).
  destruct (list_elem_of_lookup_1 _ _ Ha) as [i Hi]. destruct (Hfirst i a b Hi Hdep) as (j & Hj & Hbj).
  pose proof (take_drop_middle _ _ _ Hbj) as Eo. set (o1 := take j (h_order st.2)) in Eo. set (o2 := drop (S j) (h_order st.2)) in Eo.
  assert (Ha2 : a ∈ o2) by (apply list_elem_of_lookup; exists (i - S j)%nat; unfold o2; rewrite lookup_drop; replace (S j + (i - S j))%nat with i by lia; done).
  rewrite <- Eo in Hnd. apply NoDup_app in Hnd as (_ & Hn1 & [Hb2 Hn2]%NoDup_cons).
  set (extra := filter (fun n => n ∉ h_order st.2) names).
  assert (EL : stop_order (h_order st.2) names = reverse (o2 ++ extra) ++ (b :: reverse o1)).
  { unfold stop_order. fold extra. rewrite <- Eo at 1. by rewrite !reverse_app, reverse_cons, <- !app_assoc. }
  destruct (foldl (stop_listed (reused_names st.1)) (st, ∅) (stop_order (h_order st.2) names)) as [st1 kept] eqn:E.
  destruct (teardown_phases st st1 kept E W) as (l3 & E3 & F3). pose proof E as E'. rewrite EL, foldl_app in E'.
  destruct (foldl _ (st, ∅) (reverse (o2 ++ extra))) as [sta kepta] eqn:Ea.
  destruct (stop_all_listed _ _ _ _ _ _ Ea) as [Sa _]. destruct (stop_all_listed _ _ _ _ _ _ E') as [Sb _].
  destruct (sp_phases _ _ _ Sa) as (la & Ela & Fa), (sp_phases _ _ _ Sb) as (lb & Elb & Fb).
  assert (Hph : phases (stopServices st).2 = phases st.2 ++ la ++ lb ++ l3) by (rewrite E3, Elb, Ela; by rewrite !app_assoc).
  exists (la ++ lb ++ l3). split_and!; [done| |].
  - exists la, (lb ++ l3). split_and!; [done| |apply Forall_app; split].
    + eapply Forall_impl; [exact Fa|]. cbn. intros p [Hp _] Ep. rewrite Ep, elem_of_reverse, elem_of_app in Hp. destruct Hp as [Hp|Hp]; [done|].
      apply list_elem_of_filter in Hp as [Hp _]. apply Hp. by eapply list_elem_of_lookup_2.
    + eapply Forall_impl; [exact Fb|]. cbn. intros p [Hp _] Ep. rewrite Ep in Hp. apply elem_of_cons in Hp as [->|Hp]; [done|]. rewrite elem_of_reverse in Hp. apply (Hn1 a Hp). by right.
    + eapply Forall_impl; [exact F3|]. cbn. intros p [Hp|Hp] Ep; [|congruence]. rewrite Ep in Hp. rewrite Hp in Hsa. by destruct Hsa.
  - intros Hre. rewrite <- Hph, E3. apply elem_of_app. left. pose proof (stop_listed_waits (reused_names st.1) a (stop_order (h_order st.2) names) st ∅) as Hw. rewrite E in Hw.
    apply Hw; [|intros [_ ?]%reused_in; congruence|done]. unfold stop_order. rewrite elem_of_reverse, elem_of_app. by left.
Qed.

End Proofs.
End Teardown.

Module TeardownExample.
Import Services Teardown InjectExample Wire.

Definition no_error (_ _ : string) : option (bool * string) := None.
Definition active_list (m : gmap string activePartition) : list activePartition := (map_to_list m).*2.
Definition attached (_ : RT unit) : result string string := Ok "fbtun0".

(** Both services run; the database is kept for the next test. *)
Definition kept_db : ServiceDef := mkService "db" ∅ [] ∅ ∅ "" ∅ "" "" false true None None ∅.
Definition running : RT unit :=
  mkRT {["db" := kept_db; "api" := api]} {["db" := {["write" := eio]}]} {["db" := Some db_session; "api" := None]} [] (Manager.NewManager true)
    EventLog.NewEventLog (Subscribers.mkState [] 0) ∅ [] None false "" false (mkPackets "default" [] None ∅ 0 None 0 ∅ ∅).
Definition host : @Host unit := mkHost ["db"; "api"] ∅ false ∅ None false [] false.

Lemma running_wired : wired tt (running, host).
Proof. split; [done|]. intros _. by split_and!. Qed.

Lemma teardown_leaves_nothing_witness :
  faults (stopServices no_monitor clock tt no_error in_order 0 active_list (running, host)).1 = ∅ /\
  sessions (stopServices no_monitor clock tt no_error in_order 0 active_list (running, host)).1 !! "api" = None.
Proof.
  destruct (teardown_leaves_nothing no_monitor clock tt no_error in_order in_order_perm 0 active_list (fun m => Permutation_refl _) (running, host) running_wired) as (H & _ & _ & _ & Hs & _).
  split; [exact H|]. rewrite Hs. vm_compute. reflexivity.
Defined.

Lemma running_ordered : Order.ordered {["db" := []; "api" := ["db"]]} ["db"; "api"].
Proof.
  split; [apply (bool_decide_unpack _); vm_compute; exact I|]. intros i n d Hi Hd. destruct i as [|[|i]]; cbn in Hi; [..|done]; injection Hi as <-.
  - change (Order.deps {["db" := []; "api" := ["db"]]} "db") with (@nil string) in Hd. by apply elem_of_nil in Hd.
  - change (Order.deps {["db" := []; "api" := ["db"]]} "api") with ["db"] in Hd. apply list_elem_of_singleton in Hd as ->. exists 0%nat. split; [lia|done].
Qed.

Lemma dependents_stop_first_witness :
  exists l, phases (stopServices no_monitor clock tt no_error in_order 0 active_list (running, host)).2 = [] ++ l /\ before "api" "db" l /\ ("api", "wait_exit") ∈ l.
Proof.
  destruct (dependents_stop_first no_monitor clock tt no_error in_order in_order_perm 0 active_list (running, host) {["db" := []; "api" := ["db"]]} "api" "db") as (l & E & B & Hw);
    [exact running_wired|exact running_ordered|by right; left|vm_compute; by left|vm_compute; by eexists|discriminate|].
  exists l. split_and!; [exact E|exact B|]. apply Hw. vm_compute. reflexivity.
Defined.

End TeardownExample.
