(* ===== verification/Determinism.v ===== *)
(** * Evidence that a test means something ([internal/star/determinism.go], [internal/star/vacuity.go])

    The [determinism] builtin and the detection of input and output that the tool does not mediate, with the
    strict mode that fails a test for it; and the bookkeeping that finds interfaces on which no
    asserting test ever saw a step succeed.  The theorems compose detection, event log and
    verdict: strict mode names the first system call that is not tolerated, and is silent when there
    is none. *)

From Stdlib Require Import ZArith Lia Ascii.
From S2P Require Import Prelude FaultRule Session EventLog Trace ProxyManager Registry Inject.
From stdpp Require Import base gmap sets strings sorting numbers list.
Local Open Scope Z_scope.
Import FaultRule Registry.Spec Runtime.

Module Determinism.

Definition KnownCategories : list string := ["clock"; "rand"; "dns"; "network-unmediated"; "fs-unmediated"].
Definition isKnownCategory (s : string) : bool := bool_decide (s ∈ KnownCategories).

Record Det := mkDet {
  detLevel : string; detRuntimeName : string; detStrict : bool; detAllow : gset string; detExplicit : bool; detStrictOverride : option bool }.

Inductive det_error := CalledTwice | Positional | Reserved (level : string) | BadLevel (level : string) | BadRuntime (name : string)
  | StrictAtL0 | StrictType (v : value) | AllowItem (v : value) | UnknownCategory (s : string) | AllowType (v : value).

Fixpoint categories (l : list value) (acc : gset string) : result det_error (gset string) :=
  match l with
  | [] => Ok acc
  | VString s :: l => if isKnownCategory s then categories l ({[s]} ∪ acc) else Err (UnknownCategory s)
  | v :: _ => Err (AllowItem v)
  end.

Definition allow_arg (v : value) : result det_error (gset string) :=
  match v with VNone => Ok ∅ | VList l => categories l ∅ | _ => Err (AllowType v) end.

(** [parseNondeterministicOK]. *)
Definition parseNondeterministicOK (v : value) : result det_error (gset string) :=
  match v with VList l => categories l ∅ | _ => Err (AllowType v) end.

(** [positional]: the number of positional arguments; the others as they are unpacked. *)
Definition builtinDeterminism (positional : nat) (level rtName : string) (strictV allowV : value) (d : Det) : result det_error Det :=
  if detExplicit d then Err CalledTwice
  else if negb (positional =? 0)%nat then Err Positional
  else if bool_decide (level ∈ ["L2"; "L3"; "L4"; "L5"]) then Err (Reserved level)
  else if negb (bool_decide (level ∈ ["L0"; "L1"])) then Err (BadLevel level)
  else if negb (bool_decide (rtName ∈ ["default"; gvisor])) then Err (BadRuntime rtName)
  else if String.eqb level "L0" && match strictV with VNone => false | _ => true end then Err StrictAtL0
  else
    let? strict := match strictV with VBool b => Ok b | VNone => Ok true | v => Err (StrictType v) end in
    let? allow := allow_arg allowV in
    Ok (mkDet level rtName strict allow true (detStrictOverride d)).

Definition strictEffective (d : Det) : bool :=
  match detStrictOverride d with Some b => b | None => String.eqb (detLevel d) "L1" && detStrict d end.

Section Detection.
Context {V : Type} (monitor : nat -> MonitorDef V) (now : nat -> Z) (d : Det).

Local Abbreviation Emit := (Emit monitor now).
Local Abbreviation SyscallEvent := Session.SyscallEvent.

(** What strict mode tolerates of a service. *)
Definition effectiveAllow (svcName : string) (rt : RT V) : gset string :=
  detAllow d ∪ match services rt !! svcName with Some svc => sv_nondet_ok svc | None => ∅ end.

(** The address itself is not looked at. *)
Definition isMediatedAddress (port : Z) (rt : RT V) : bool :=
  if port <=? 0 then false
  else existsb (fun p => existsb (fun i => (if_port i.2 =? port) || (if_host_port i.2 =? port)) (map_to_list (sv_interfaces p.2))) (map_to_list (services rt)).

Definition emitUnmediated (svcName category : string) (evt : SyscallEvent) (detail : string) (rt : RT V) : RT V :=
  Emit "unmediated_io" svcName
    ([("category", category); ("syscall", Session.EvSyscall evt); ("pid", show_Z (Session.EvPID evt))] ++
     (if String.eqb detail "" then [] else [("detail", detail)])) rt.

Definition detectUnmediatedConnect (svcName : string) (evt : SyscallEvent) (rt : RT V) : RT V :=
  let dest := Session.EvDestIP evt +:+ String ":" (show_Z (Session.EvDestPort evt)) in
  if String.eqb (Session.EvDestIP evt) "" then rt
  else if isMediatedAddress (Session.EvDestPort evt) rt then rt
  else if Manager.IsListenPort (Session.EvDestPort evt) (proxyMgr rt) then rt
  else if Session.EvDestPort evt =? 53 then emitUnmediated svcName "dns" evt dest rt
  else emitUnmediated svcName "network-unmediated" evt dest rt.

Definition detectUnmediated (svcName : string) (evt : SyscallEvent) (rt : RT V) : RT V :=
  let sc := Session.EvSyscall evt in
  if negb (bool_decide (sc ∈ ["clock_gettime"; "getrandom"; "connect"])) then rt
  else if negb (String.eqb (detLevel d) "L1") then rt
  else if String.eqb sc "clock_gettime" then emitUnmediated svcName "clock" evt "" rt
  else if String.eqb sc "getrandom" then emitUnmediated svcName "rand" evt "" rt
  else detectUnmediatedConnect svcName evt rt.

Definition offends (rt : RT V) (ev : Event) : bool :=
  let cat := default "" (EventLog.Fields ev !! "category") in
  String.eqb (EventLog.Type_ ev) "unmediated_io" && negb (String.eqb cat "") && negb (bool_decide (cat ∈ effectiveAllow (EventLog.Service ev) rt)).

Definition firstStrictViolation (events : list Event) (rt : RT V) : option Event := List.find (offends rt) events.

(** ** Strict mode *)

(** The class of a system call, if it is not mediated. *)
Definition category (rt : RT V) (evt : SyscallEvent) : option string :=
  let sc := Session.EvSyscall evt in
  if String.eqb sc "clock_gettime" then Some "clock"
  else if String.eqb sc "getrandom" then Some "rand"
  else if String.eqb sc "connect" then
    if String.eqb (Session.EvDestIP evt) "" || isMediatedAddress (Session.EvDestPort evt) rt || Manager.IsListenPort (Session.EvDestPort evt) (proxyMgr rt) then None
    else if Session.EvDestPort evt =? 53 then Some "dns" else Some "network-unmediated"
  else None.

Definition tolerated (rt : RT V) (c : string * SyscallEvent) : bool :=
  match category rt c.2 with Some cat => bool_decide (cat ∈ effectiveAllow c.1 rt) | None => true end.

Lemma notify_log ev (rt : RT V) sub : log (notify monitor ev rt sub) = log rt.
Proof. unfold notify. destruct (cells rt !! sub.1); [|done]. by destruct (monitor_step _ _ _). Qed.

Lemma Emit_events typ svc fields (rt : RT V) : exists ev, EventLog.events (log (Emit typ svc fields rt)) = EventLog.events (log rt) ++ [ev] /\
  EventLog.Type_ ev = typ /\ EventLog.Service ev = svc /\ EventLog.Fields ev = list_to_map fields.
Proof.
  unfold Runtime.Emit. set (l := EventLog.emit _ _ _ _ _). assert (H : forall ev s rt, log (foldl (notify monitor ev) rt s) = log rt).
  { induction s as [|x s IH]; intros rt1; [done|]. cbn. by rewrite IH, notify_log. }
  assert (E : exists ev, EventLog.events l = EventLog.events (log rt) ++ [ev] /\ EventLog.Type_ ev = typ /\ EventLog.Service ev = svc /\ EventLog.Fields ev = list_to_map fields)
    by (eexists; split; [reflexivity|done]).
  destruct E as (ev & E & Hf). exists ev. split; [|done]. destruct (last (EventLog.events l)); [rewrite H|]; exact E.
Qed.

(** What a system call adds to the log. *)
Lemma detect_adds svc evt rt : detLevel d = "L1" -> Cleanup.frame rt (detectUnmediated svc evt rt) /\
  exists l, EventLog.events (log (detectUnmediated svc evt rt)) = EventLog.events (log rt) ++ l /\
    match category rt evt with
    | Some cat => exists ev, l = [ev] /\ EventLog.Type_ ev = "unmediated_io" /\ EventLog.Service ev = svc /\
        EventLog.Fields ev !! "category" = Some cat /\ EventLog.Fields ev !! "syscall" = Some (Session.EvSyscall evt)
    | None => l = []
    end.
Proof.
  intros HL. unfold detectUnmediated, category. rewrite HL.
  assert (Q : forall cat detail, Cleanup.frame rt (emitUnmediated svc cat evt detail rt) /\
    exists l, EventLog.events (log (emitUnmediated svc cat evt detail rt)) = EventLog.events (log rt) ++ l /\
      exists ev, l = [ev] /\ EventLog.Type_ ev = "unmediated_io" /\ EventLog.Service ev = svc /\
        EventLog.Fields ev !! "category" = Some cat /\ EventLog.Fields ev !! "syscall" = Some (Session.EvSyscall evt)).
  { intros cat detail. unfold emitUnmediated. split; [apply Cleanup.Emit_frame|]. match goal with |- context [Runtime.Emit _ _ _ _ ?fs _] => set (f := fs) end.
    destruct (Emit_events "unmediated_io" svc f rt) as (ev & E & H1 & H2 & H3). exists [ev]. split; [done|]. exists ev. rewrite H3. unfold f. cbn [app].
    rewrite !list_to_map_cons, lookup_insert_eq, lookup_insert_ne, lookup_insert_eq by done. by split_and!. }
  change (negb (String.eqb "L1" "L1")) with false. set (sc := Session.EvSyscall evt).
  assert (Hin : sc = "clock_gettime" \/ sc = "getrandom" \/ sc = "connect" -> negb (bool_decide (sc ∈ ["clock_gettime"; "getrandom"; "connect"])) = false).
  { intros Hs. rewrite bool_decide_true; [done|]. rewrite !elem_of_cons. tauto. }
  destruct (String.eqb_spec sc "clock_gettime") as [E1|N1]; [rewrite Hin by auto; apply Q|].
  destruct (String.eqb_spec sc "getrandom") as [E2|N2]; [rewrite Hin by auto; apply Q|].
  destruct (String.eqb_spec sc "connect") as [E3|N3].
  - rewrite Hin by auto. unfold detectUnmediatedConnect.
    destruct (String.eqb _ ""); [split; [done|exists []; by rewrite app_nil_r]|]. destruct (isMediatedAddress _ _); [split; [done|exists []; by rewrite app_nil_r]|].
    destruct (Manager.IsListenPort _ _); [split; [done|exists []; by rewrite app_nil_r]|]. cbn [orb]. destruct (_ =? 53); apply Q.
  - rewrite bool_decide_false; [split; [done|exists []; by rewrite app_nil_r]|]. rewrite !elem_of_cons, elem_of_nil. tauto.
Qed.

Definition detect_all (calls : list (string * SyscallEvent)) (rt : RT V) : RT V := foldl (fun rt c => detectUnmediated c.1 c.2 rt) rt calls.

Lemma frame_reads rt rt' : Cleanup.frame rt rt' -> (forall c, tolerated rt' c = tolerated rt c) /\ (forall ev, offends rt' ev = offends rt ev).
Proof.
  intros [Es _ _ _ Ep _ _]. unfold tolerated, offends, category, effectiveAllow, isMediatedAddress. by rewrite Es, Ep.
Qed.

Lemma category_nonempty rt evt cat : category rt evt = Some cat -> String.eqb cat "" = false.
Proof. unfold category. intros H. repeat case_match; simplify_eq; done. Qed.

Lemma frame_category rt rt' evt : Cleanup.frame rt rt' -> category rt' evt = category rt evt.
Proof. intros [Es _ _ _ Ep _ _]. unfold category, isMediatedAddress. by rewrite Es, Ep. Qed.

(** C21: Strict mode names the first system call that is not tolerated.  At level L1, when the log had no
    offending event, after any sequence of system calls of services the check reports nothing if every call is
    mediated or of a tolerated class, and otherwise the event of the first that is not: with its service,
    its class and its name. *)
Theorem strict_mode_exact calls : detLevel d = "L1" -> forall rt, firstStrictViolation (EventLog.events (log rt)) rt = None ->
  match List.find (fun c => negb (tolerated rt c)) calls with
  | None => firstStrictViolation (EventLog.events (log (detect_all calls rt))) (detect_all calls rt) = None
  | Some c => exists ev, firstStrictViolation (EventLog.events (log (detect_all calls rt))) (detect_all calls rt) = Some ev /\
      EventLog.Service ev = c.1 /\ EventLog.Fields ev !! "category" = category rt c.2 /\ EventLog.Fields ev !! "syscall" = Some (Session.EvSyscall c.2)
  end.
Proof.
  intros HL. unfold firstStrictViolation.
  assert (Keep : forall calls rt ev, List.find (offends rt) (EventLog.events (log rt)) = Some ev ->
    List.find (offends (detect_all calls rt)) (EventLog.events (log (detect_all calls rt))) = Some ev).
  { clear calls. induction calls as [|c calls IH]; intros rt ev H; [done|]. cbn. apply IH. destruct (detect_adds c.1 c.2 rt HL) as [F (l & E & _)].
    rewrite E, find_app. replace (List.find (offends (detectUnmediated c.1 c.2 rt)) (EventLog.events (log rt))) with (Some ev); [done|].
    rewrite <- H. apply find_ext. intros x. symmetry. by apply frame_reads. }
  induction calls as [|[svc evt] calls IH]; intros rt H0; [done|]. cbn [List.find detect_all foldl]. destruct (detect_adds svc evt rt HL) as [F (l & E & M)].
  destruct (frame_reads _ _ F) as [Ft Fo]. set (rt1 := detectUnmediated svc evt rt) in *.
  assert (H1 : List.find (offends rt1) (EventLog.events (log rt)) = None) by (rewrite <- H0; apply find_ext; intros x; by rewrite Fo).
  unfold tolerated at 1. cbn [fst snd]. destruct (category rt evt) as [cat|] eqn:Ec.
  - destruct M as (ev & -> & T1 & T2 & T3 & T4).
    assert (Hcat : String.eqb cat "" = false) by exact (category_nonempty rt evt cat Ec).
    assert (Hof : offends rt1 ev = negb (bool_decide (cat ∈ effectiveAllow svc rt))).
    { rewrite Fo. unfold offends. rewrite T1, T2, T3. change (default "" (Some cat)) with cat. rewrite Hcat. done. }
    destruct (bool_decide (cat ∈ effectiveAllow svc rt)) eqn:Ea; cbn [negb] in *.
    + assert (H2 : List.find (offends rt1) (EventLog.events (log rt1)) = None) by (rewrite E, find_app, H1; cbn; by rewrite Hof).
      specialize (IH rt1 H2). rewrite (find_ext _ (fun c => negb (tolerated rt c))) in IH by (intros x; by rewrite Ft).
      destruct (List.find _ calls) as [c|]; [|exact IH]. destruct IH as (ev' & A1 & A2 & A3 & A4). exists ev'. split_and!; [done..| |done].
      rewrite A3. by apply frame_category.
    + exists ev. split_and!; [|done|by rewrite T3, <- Ec|done]. apply (Keep calls rt1). rewrite E, find_app, H1. cbn. by rewrite Hof.
  - subst l. rewrite app_nil_r in E. assert (H2 : List.find (offends rt1) (EventLog.events (log rt1)) = None) by (by rewrite E). cbn [negb].
    specialize (IH rt1 H2). rewrite (find_ext _ (fun c => negb (tolerated rt c))) in IH by (intros x; by rewrite Ft).
    destruct (List.find _ calls) as [c|]; [|exact IH]. destruct IH as (ev' & A1 & A2 & A3 & A4). exists ev'. split_and!; [done..| |done].
    rewrite A3. by apply frame_category.
Qed.

End Detection.
End Determinism.

Module DeterminismExample.
Import Determinism InjectExample.

Definition level1 : Det := mkDet "L1" "default" true {["clock"]} true None.
Definition call_of (sc ip : string) (port : Z) : Session.SyscallEvent := Session.mkEvent 0 "api" sc 7 Session.DecAllow "" 0 "" "" ip port.

(** The clock is tolerated, the port of an interface is mediated, another address is not. *)
Lemma strict_mode_exact_witness :
  exists ev, firstStrictViolation level1 (EventLog.events (log (detect_all no_monitor clock level1
      [("api", call_of "clock_gettime" "" 0); ("api", call_of "connect" "10.0.0.9" 8080); ("api", call_of "connect" "8.8.8.8" 53)] ready)))
      (detect_all no_monitor clock level1 [("api", call_of "clock_gettime" "" 0); ("api", call_of "connect" "10.0.0.9" 8080); ("api", call_of "connect" "8.8.8.8" 53)] ready) = Some ev /\
    EventLog.Service ev = "api" /\ EventLog.Fields ev !! "category" = Some "dns".
Proof.
  pose proof (strict_mode_exact no_monitor clock level1
    [("api", call_of "clock_gettime" "" 0); ("api", call_of "connect" "10.0.0.9" 8080); ("api", call_of "connect" "8.8.8.8" 53)] eq_refl ready eq_refl) as H.
  assert (E : List.find (fun c => negb (tolerated level1 ready c))
    [("api", call_of "clock_gettime" "" 0); ("api", call_of "connect" "10.0.0.9" 8080); ("api", call_of "connect" "8.8.8.8" 53)] = Some ("api", call_of "connect" "8.8.8.8" 53)) by (vm_compute; reflexivity).
  rewrite E in H. destruct H as (ev & H1 & H2 & H3 & _). exists ev. split_and!; [exact H1|exact H2|]. rewrite H3. vm_compute. reflexivity.
Defined.

End DeterminismExample.

(** ** Positive controls *)
Module Vacuity.

Abbreviation ifaceRef := (string * string)%type.

Record vacuityState := mkVacuity {
  assertions : gmap string Z; stepped : gset ifaceRef; candidates : gset ifaceRef; positiveControl : gset ifaceRef }.

Definition newVacuityState : vacuityState := mkVacuity ∅ ∅ ∅ ∅.

Definition assertionCount (test : string) (v : vacuityState) : Z := default 0 (assertions v !! test).

Definition noteAssertion (test : string) (v : vacuityState) : vacuityState :=
  if String.eqb test "" then v
  else mkVacuity (<[test := i64 (assertionCount test v + 1)]> (assertions v)) (stepped v) (candidates v) (positiveControl v).

Definition noteStep (svc iface : string) (success : bool) (v : vacuityState) : vacuityState :=
  if String.eqb svc "" then v
  else mkVacuity (assertions v) ({[(svc, iface)]} ∪ stepped v) (if success then {[(svc, iface)]} ∪ candidates v else candidates v) (positiveControl v).

Definition endTest (test res : string) (v : vacuityState) : vacuityState :=
  let confirming := String.eqb res "pass" && (0 <? assertionCount test v) in
  mkVacuity (assertions v) (stepped v) ∅ (if confirming then candidates v ∪ positiveControl v else positiveControl v).

Definition ref_le (x y : ifaceRef) : Prop := if String.eqb x.1 y.1 then string_le x.2 y.2 else string_le x.1 y.1.
#[export] Instance ref_le_dec x y : Decision (ref_le x y).
Proof. unfold ref_le. destruct (String.eqb _ _); apply _. Defined.

Definition missingPositiveControl (v : vacuityState) : list ifaceRef := merge_sort ref_le (elements (stepped v ∖ positiveControl v)).

(** Service and message of each finding of the suite. *)
Definition suiteDiagnostics (v : vacuityState) : list (string * string) :=
  (fun ref => (ref.1, "no test asserts that a step on '" +:+ ref.1 +:+ "." +:+ ref.2 +:+ "' succeeds")) <$> missingPositiveControl v.

(** *** A run *)

(** What the body of a test does, and its result. *)
Inductive Act := Asserts | Steps (svc iface : string) (success : bool).
Record Run := mkRun { r_test : string; r_acts : list Act; r_result : string }.

Definition act (test : string) (v : vacuityState) (a : Act) : vacuityState :=
  match a with Asserts => noteAssertion test v | Steps svc iface ok => noteStep svc iface ok v end.

Definition run_test (v : vacuityState) (r : Run) : vacuityState := endTest (r_test r) (r_result r) (foldl (act (r_test r)) v (r_acts r)).
Definition run_all (rs : list Run) : vacuityState := foldl run_test newVacuityState rs.

#[export] Instance Act_eq_dec : EqDecision Act.
Proof. solve_decision. Defined.

Definition count_asserts (l : list Act) : Z := Z.of_nat (length (filter (fun a => a = Asserts) l)).

(** The assertions of the runs of one name. *)
Definition asserted (test : string) (rs : list Run) : Z := foldr (fun r n => (if String.eqb (r_test r) test then count_asserts (r_acts r) else 0) + n) 0 rs.

Lemma asserted_app test rs rs' : asserted test (rs ++ rs') = asserted test rs + asserted test rs'.
Proof. unfold asserted. induction rs as [|r rs IH]; [done|]. cbn. rewrite IH. lia. Qed.

Lemma count_nonneg l : 0 <= count_asserts l.
Proof. unfold count_asserts. lia. Qed.

Lemma asserted_nonneg test rs : 0 <= asserted test rs.
Proof.
  induction rs as [|r rs IH]; [done|]. cbn [asserted foldr]. fold (asserted test rs). pose proof (count_nonneg (r_acts r)). destruct (String.eqb _ _); lia.
Qed.

Lemma count_cons a l : count_asserts (a :: l) = (if bool_decide (a = Asserts) then 1 else 0) + count_asserts l.
Proof. unfold count_asserts. case_bool_decide; [rewrite filter_cons_True by done; cbn [length]; lia|by rewrite filter_cons_False by done]. Qed.

Lemma act_other test a v t : t <> test -> assertionCount t (act test v a) = assertionCount t v.
Proof.
  intros Ht. destruct a as [|svc iface ok]; cbn [act]; [unfold noteAssertion; destruct (String.eqb test ""); [done|]|unfold noteStep; by destruct (String.eqb svc "")].
  unfold assertionCount. cbn [assertions]. by rewrite lookup_insert_ne.
Qed.

Lemma act_own test a v : 0 <= assertionCount test v < 2 ^ 63 - 1 ->
  assertionCount test (act test v a) = assertionCount test v + (if bool_decide (a = Asserts) && negb (String.eqb test "") then 1 else 0).
Proof.
  intros Hb. destruct a as [|svc iface ok]; cbn [act].
  - unfold noteAssertion. destruct (String.eqb test ""); cbn [negb andb bool_decide]; [rewrite andb_false_r; lia|].
    unfold assertionCount at 1. cbn [assertions]. rewrite lookup_insert_eq. change (default 0 (Some ?z)) with z.
    change (bool_decide (Asserts = Asserts) && true) with true. apply wrap_s_small; cbn; lia.
  - unfold noteStep. destruct (String.eqb svc ""); [change (bool_decide (Steps svc iface ok = Asserts)) with false; cbn [andb]; lia|].
    unfold assertionCount at 1. cbn [assertions]. fold (assertionCount test v). change (bool_decide (Steps svc iface ok = Asserts)) with false. cbn [andb]. lia.
Qed.

Lemma act_stepped test a v ref : ref ∈ stepped (act test v a) <-> ref ∈ stepped v \/ ref.1 <> "" /\ exists ok, a = Steps ref.1 ref.2 ok.
Proof.
  destruct a as [|svc iface ok]; cbn [act]; [unfold noteAssertion; destruct (String.eqb test ""); cbn; naive_solver|].
  unfold noteStep. destruct (String.eqb_spec svc "") as [->|Hs]; cbn [stepped]; [naive_solver|]. rewrite elem_of_union, elem_of_singleton. destruct ref; naive_solver.
Qed.

Lemma act_candidates test a v ref : ref ∈ candidates (act test v a) <-> ref ∈ candidates v \/ ref.1 <> "" /\ a = Steps ref.1 ref.2 true.
Proof.
  destruct a as [|svc iface ok]; cbn [act]; [unfold noteAssertion; destruct (String.eqb test ""); cbn; naive_solver|].
  unfold noteStep. destruct (String.eqb_spec svc "") as [->|Hs]; cbn [candidates]; [naive_solver|].
  destruct ok; [|naive_solver]. rewrite elem_of_union, elem_of_singleton. destruct ref; naive_solver.
Qed.

Lemma act_control test a v : positiveControl (act test v a) = positiveControl v.
Proof. destruct a; cbn [act]; [unfold noteAssertion|unfold noteStep]; by destruct (String.eqb _ _). Qed.

(** What the body of a test adds. *)
Lemma acts_other test l t : forall v, t <> test -> assertionCount t (foldl (act test) v l) = assertionCount t v.
Proof. induction l as [|a l IH]; intros v Ht; [done|]. cbn [foldl]. by rewrite IH, act_other. Qed.

Lemma acts_own test l : forall v, 0 <= assertionCount test v -> assertionCount test v + count_asserts l < 2 ^ 63 ->
  assertionCount test (foldl (act test) v l) = assertionCount test v + (if String.eqb test "" then 0 else count_asserts l).
Proof.
  induction l as [|a l IH]; intros v H0 Hb; [cbn; destruct (String.eqb test ""); unfold count_asserts; cbn; lia|].
  rewrite count_cons in *. pose proof (count_nonneg l). cbn [foldl].
  assert (E : assertionCount test (act test v a) = assertionCount test v + (if String.eqb test "" then 0 else if bool_decide (a = Asserts) then 1 else 0)).
  { destruct (bool_decide (a = Asserts)) eqn:Ea.
    - rewrite act_own, Ea by lia. by destruct (String.eqb test "").
    - destruct a; [by rewrite bool_decide_eq_false in Ea|]. cbn [act]. unfold noteStep. destruct (String.eqb svc ""), (String.eqb test ""); unfold assertionCount; cbn; lia. }
  rewrite IH; rewrite E; destruct (String.eqb test ""), (bool_decide _); lia.
Qed.

Lemma acts_stepped test l ref : forall v, ref ∈ stepped (foldl (act test) v l) <-> ref ∈ stepped v \/ ref.1 <> "" /\ exists ok, Steps ref.1 ref.2 ok ∈ l.
Proof.
  induction l as [|a l IH]; intros v; [cbn; setoid_rewrite elem_of_nil; naive_solver|]. cbn [foldl]. rewrite IH, act_stepped. setoid_rewrite elem_of_cons. naive_solver.
Qed.

Lemma acts_candidates test l ref : forall v, ref ∈ candidates (foldl (act test) v l) <-> ref ∈ candidates v \/ ref.1 <> "" /\ Steps ref.1 ref.2 true ∈ l.
Proof.
  induction l as [|a l IH]; intros v; [cbn; rewrite elem_of_nil; naive_solver|]. cbn [foldl]. rewrite IH, act_candidates, elem_of_cons. naive_solver.
Qed.

Lemma acts_control test l : forall v, positiveControl (foldl (act test) v l) = positiveControl v.
Proof. induction l as [|a l IH]; intros v; [done|]. cbn [foldl]. by rewrite IH, act_control. Qed.

(** A run that shows that an interface works: it passed, saw a step succeed, and assertions were made under its name
    by then. *)
Definition control (rs : list Run) (ref : ifaceRef) : Prop :=
  exists pre r post, rs = pre ++ r :: post /\ r_result r = "pass" /\ r_test r <> "" /\ Steps ref.1 ref.2 true ∈ r_acts r /\ 0 < asserted (r_test r) (pre ++ [r]).

Lemma control_snoc rs r ref : control (rs ++ [r]) ref <->
  control rs ref \/ r_result r = "pass" /\ r_test r <> "" /\ Steps ref.1 ref.2 true ∈ r_acts r /\ 0 < asserted (r_test r) (rs ++ [r]).
Proof.
  split.
  - intros (pre & r0 & post & E & H). destruct post as [|x post] using rev_ind.
    + apply app_inj_tail in E as [<- <-]. by right.
    + left. exists pre, r0, post. split; [|done]. rewrite app_comm_cons, app_assoc in E. by apply app_inj_tail in E as [-> _].
  - intros [(pre & r0 & post & -> & H)|H]; [exists pre, r0, (post ++ [r]); split; [by rewrite <- app_assoc|done]|by exists rs, r, []].
Qed.

(** The bookkeeping after a sequence of runs. *)
Lemma run_all_state rs : (forall t, asserted t rs < 2 ^ 63) -> let v := run_all rs in
  (forall t, assertionCount t v = if String.eqb t "" then 0 else asserted t rs) /\ candidates v = ∅ /\
  (forall ref, ref ∈ stepped v <-> ref.1 <> "" /\ exists r ok, r ∈ rs /\ Steps ref.1 ref.2 ok ∈ r_acts r) /\
  (forall ref, ref ∈ positiveControl v <-> ref.1 <> "" /\ control rs ref).
Proof.
  induction rs as [|r rs IH] using rev_ind; intros Hb.
  { cbn. split_and!; [intros t; by destruct (String.eqb t "")|done| |]; intros ref; (split; [by intros ?%elem_of_empty|]).
    - by intros (_ & r & ok & ?%elem_of_nil & _).
    - intros (_ & pre & r & post & E & _). by destruct pre. }
  assert (Hb' : forall t, asserted t rs < 2 ^ 63) by (intros t; specialize (Hb t); rewrite asserted_app in Hb; pose proof (asserted_nonneg t [r]); lia).
  destruct (IH Hb') as (C & K & S & P). cbv zeta. unfold run_all. rewrite foldl_app. cbn [foldl]. fold (run_all rs). set (v := run_all rs) in *.
  unfold run_test, endTest. cbn [assertions stepped candidates positiveControl]. set (v1 := foldl (act (r_test r)) v (r_acts r)).
  assert (C1 : forall t, assertionCount t v1 = if String.eqb t "" then 0 else asserted t (rs ++ [r])).
  { intros t. unfold v1. destruct (decide (t = r_test r)) as [->|Hne].
    - specialize (Hb (r_test r)). rewrite asserted_app in *. cbn in Hb |- *. rewrite String.eqb_refl in *. pose proof (asserted_nonneg (r_test r) rs). pose proof (count_nonneg (r_acts r)).
      rewrite acts_own; rewrite C; destruct (String.eqb (r_test r) ""); lia.
    - rewrite acts_other, C by done. rewrite asserted_app. cbn. assert (E : String.eqb (r_test r) t = false) by (apply String.eqb_neq; congruence). rewrite E. by rewrite !Z.add_0_r. }
  split_and!; [exact C1|done| |].
  - intros ref. unfold v1. rewrite acts_stepped, S. setoid_rewrite elem_of_app. setoid_rewrite list_elem_of_singleton. naive_solver.
  - intros ref. rewrite control_snoc. assert (Pc : positiveControl v1 = positiveControl v) by apply acts_control. rewrite Pc. specialize (C1 (r_test r)).
    assert (Cc : ref ∈ candidates v1 <-> ref.1 <> "" /\ Steps ref.1 ref.2 true ∈ r_acts r) by (unfold v1; rewrite acts_candidates, K; set_solver).
    assert (Hc : String.eqb (r_result r) "pass" && (0 <? assertionCount (r_test r) v1) = true <-> r_result r = "pass" /\ r_test r <> "" /\ 0 < asserted (r_test r) (rs ++ [r])).
    { rewrite andb_true_iff, String.eqb_eq, Z.ltb_lt, C1. destruct (String.eqb_spec (r_test r) ""); [split; [intros []; lia|naive_solver]|naive_solver]. }
    destruct (String.eqb _ "pass" && _); [|rewrite P; split; [naive_solver|]; intros (H1 & [H2|(H2 & H3 & _ & H5)]); [done|]; discriminate (proj2 Hc (conj H2 (conj H3 H5)))].
    rewrite elem_of_union, Cc, P. destruct (proj1 Hc eq_refl) as (H1 & H2 & H3). naive_solver.
Qed.

(** The control that the comments describe: a run that passed, asserted and saw a step succeed. *)
Definition documented_control (rs : list Run) (ref : ifaceRef) : Prop :=
  exists r, r ∈ rs /\ r_result r = "pass" /\ r_test r <> "" /\ Steps ref.1 ref.2 true ∈ r_acts r /\ 0 < count_asserts (r_acts r).

Lemma asserted_other t rs : t ∉ r_test <$> rs -> asserted t rs = 0.
Proof.
  induction rs as [|r rs IH]; [done|]. cbn. rewrite not_elem_of_cons. intros [Hne Hn]. fold (asserted t rs). rewrite IH by done.
  by rewrite (proj2 (String.eqb_neq (r_test r) t)) by congruence.
Qed.

Lemma asserted_last r pre : asserted (r_test r) (pre ++ [r]) = asserted (r_test r) pre + count_asserts (r_acts r).
Proof. rewrite asserted_app. cbn. rewrite String.eqb_refl. lia. Qed.

Lemma documented_is_control rs ref : documented_control rs ref -> control rs ref.
Proof.
  intros (r & (pre & post & ->)%list_elem_of_split & H1 & H2 & H3 & H4). exists pre, r, post. split_and!; [done..|].
  rewrite asserted_last. pose proof (asserted_nonneg (r_test r) pre). lia.
Qed.

Lemma control_documented rs ref : NoDup (r_test <$> rs) -> control rs ref -> documented_control rs ref.
Proof.
  intros Hnd (pre & r & post & -> & H1 & H2 & H3 & H4). exists r. split_and!; [apply elem_of_app; right; by left|done..|].
  rewrite asserted_last, asserted_other in H4; [lia|]. rewrite fmap_app in Hnd. apply NoDup_app in Hnd as (_ & Hd & _). intros Hin. apply (Hd _ Hin). by left.
Qed.

(** C29: The diagnostic names exactly the interfaces without a positive control.  After any sequence of
    runs, [missingPositiveControl] has, each once, the interfaces that some run stepped on and that no
    passing run saw a step succeed on whose name had an assertion by then - in this run or, the counters not
    being reset, in an earlier run of the same name.  The diagnostic is therefore never raised against a
    run that passed, asserted and saw a step succeed, the control the comments describe, and when no name is
    run twice it is raised exactly when there is no such run. *)
Theorem missing_control_exact rs : (forall t, asserted t rs < 2 ^ 63) ->
  NoDup (missingPositiveControl (run_all rs)) /\
  (forall ref, ref ∈ missingPositiveControl (run_all rs) <->
    (ref.1 <> "" /\ exists r ok, r ∈ rs /\ Steps ref.1 ref.2 ok ∈ r_acts r) /\ ~ control rs ref) /\
  (forall ref, documented_control rs ref -> ref ∉ missingPositiveControl (run_all rs)) /\
  (NoDup (r_test <$> rs) -> forall ref, ref ∈ missingPositiveControl (run_all rs) <->
    (ref.1 <> "" /\ exists r ok, r ∈ rs /\ Steps ref.1 ref.2 ok ∈ r_acts r) /\ ~ documented_control rs ref).
Proof.
  intros Hb. destruct (run_all_state rs Hb) as (_ & _ & S & P).
  assert (E : forall ref, ref ∈ missingPositiveControl (run_all rs) <->
    (ref.1 <> "" /\ exists r ok, r ∈ rs /\ Steps ref.1 ref.2 ok ∈ r_acts r) /\ ~ control rs ref).
  { intros ref. unfold missingPositiveControl. rewrite (merge_sort_Permutation _ _), elem_of_elements, elem_of_difference, S, P. naive_solver. }
  split_and!; [|exact E| |].
  - unfold missingPositiveControl. rewrite (merge_sort_Permutation _ _). apply NoDup_elements.
  - intros ref Hd [_ Hn]%E. by apply Hn, documented_is_control.
  - intros Hnd ref. rewrite E. split; intros [H1 H2]; (split; [done|]); intros Hc; apply H2; [by apply documented_is_control|by apply control_documented].
Qed.

(** Only the failing step is asserted on in the first suite. *)
Definition fault_only : list Run := [mkRun "outage" [Steps "db" "main" false; Asserts] "pass"].
Definition with_control : list Run := fault_only ++ [mkRun "ready" [Steps "db" "main" true; Asserts] "pass"].

Lemma small_asserted rs n : (forall r, r ∈ rs -> count_asserts (r_acts r) <= n) -> 0 <= n -> forall t, asserted t rs <= n * Z.of_nat (length rs).
Proof.
  intros H Hn t. induction rs as [|r rs IH]; [cbn; lia|]. cbn [asserted foldr length]. fold (asserted t rs).
  assert (count_asserts (r_acts r) <= n) by (apply H; by left). assert (asserted t rs <= n * Z.of_nat (length rs)) by (apply IH; intros x Hx; apply H; by right).
  destruct (String.eqb _ _); nia.
Qed.

Lemma missing_control_exact_witness : ("db", "main") ∈ missingPositiveControl (run_all fault_only) /\ missingPositiveControl (run_all with_control) = [].
Proof.
  assert (Hb : forall t, asserted t fault_only < 2 ^ 63).
  { intros t. pose proof (small_asserted fault_only 1 ltac:(intros r ->%list_elem_of_singleton; vm_compute; discriminate) ltac:(lia) t) as H. cbn [length fault_only] in H. lia. }
  split; [|vm_compute; reflexivity]. destruct (missing_control_exact fault_only Hb) as (_ & E & _). apply E. split.
  - split; [discriminate|]. exists (mkRun "outage" [Steps "db" "main" false; Asserts] "pass"), false. by split; left.
  - intros (pre & r & post & E' & _ & _ & Hin & _). destruct pre as [|? [|]]; [|done..]. injection E' as <- _. change (r_acts _) with [Steps "db" "main" false; Asserts] in Hin.
    rewrite !elem_of_cons, elem_of_nil in Hin. by destruct Hin as [?|[?|?]].
Defined.

(** Assertions are counted by name and never reset: the second run of a test asserts nothing, and still counts as asserting. *)
Example assertions_accumulate :
  let rs := [mkRun "t" [Asserts] "fail"; mkRun "t" [Steps "db" "main" true] "pass"] in
  assertionCount "t" (run_all rs) = 1 /\ missingPositiveControl (run_all rs) = [].
Proof. vm_compute. done. Qed.

End Vacuity.
