(* ===== verification/Verdict.v ===== *)
(** * The verdict of a test and of a suite ([internal/star/runtime.go], [shutdown.go],
    [mock_diagnostics.go], [proxy_diagnostics.go], [mock_initial_state.go], [cmd/faultbox/main.go])

    [runTestImpl] runs one test: it resets the runtime, starts the services, runs setup, the
    [assume=] predicates and the body, stops the services, and derives a verdict from what it finds.
    [RunTestLeaf] adds what the events say about mocks, teardown and protocol faults; [RunAll] runs
    every test that the filter selects and counts the verdicts, and the command turns the counts
    into an exit code.  The temporal expectations are those of [Temporal], the faults those of
    [Inject], the teardown that of [Services] and strict mode that of [Determinism].

    Starlark functions, the start of services and the passing of time are parameters: any change of
    the state with a result.  Durations, return values and the record of a failed assertion are left
    out of results. *)

From Stdlib Require Import ZArith Lia Ascii.
From S2P Require Import Prelude GoStd GoText PathMatch FaultRule HoldQueue Session Leaf EventLog Temporal Trace ProxyCore ProxyManager NetRule NetQueue Packet Endpoint Registry Plan PacketFault Gateway Inject Partition Services Determinism.
From stdpp Require Import base gmap sets strings relations sorting numbers list.
Local Open Scope Z_scope.
Import GoStd FaultRule Registry.Spec Runtime Services Determinism.

Module Verdict.

Abbreviation Event := EventLog.Event.
Abbreviation field := (fun (ev : Event) (k : string) => default "" (EventLog.Fields ev !! k)).
Abbreviation typ := EventLog.Type_.
Abbreviation svc := EventLog.Service.

(** ** Results *)

Record BypassedRule := mkBypassed { br_service : string; br_syscall : string; br_action : string; br_label : string }.

Record TestResult := mkTest {
  Name : string; Result : string; Reason : string; Seed : Z; Events : list Event; Matrix : option MatrixInfo;
  Assertions : Z; ExpectationName : string; ExpectationViolated : bool; FaultBypassed : bool;
  StrictDeterminismViolation : bool; BypassedRules : list BypassedRule; LeafID : string;
  LeafChoices : gmap string Z; LeafProbabilityOutcomes : gmap string (list bool); LeafInterleavingIDs : gmap string Z }.

(** A result with the zero values of the fields that a literal leaves out. *)
Definition bare (name res reason : string) (evs : list Event) : TestResult :=
  mkTest name res reason 0 evs None 0 "" false false false [] "" ∅ ∅ ∅.

Definition attributed (m : option MatrixInfo) (expect : string) (t : TestResult) : TestResult :=
  mkTest (Name t) (Result t) (Reason t) (Seed t) (Events t) m (Assertions t) expect (ExpectationViolated t) (FaultBypassed t)
    (StrictDeterminismViolation t) (BypassedRules t) (LeafID t) (LeafChoices t) (LeafProbabilityOutcomes t) (LeafInterleavingIDs t).
Definition set_verdict (res reason : string) (bypassed : bool) (t : TestResult) : TestResult :=
  mkTest (Name t) res reason (Seed t) (Events t) (Matrix t) (Assertions t) (ExpectationName t) (ExpectationViolated t) bypassed
    (StrictDeterminismViolation t) (BypassedRules t) (LeafID t) (LeafChoices t) (LeafProbabilityOutcomes t) (LeafInterleavingIDs t).
Definition set_flags (violated strict : bool) (rules : list BypassedRule) (t : TestResult) : TestResult :=
  mkTest (Name t) (Result t) (Reason t) (Seed t) (Events t) (Matrix t) (Assertions t) (ExpectationName t) violated (FaultBypassed t)
    strict rules (LeafID t) (LeafChoices t) (LeafProbabilityOutcomes t) (LeafInterleavingIDs t).
Definition set_events (evs : list Event) (t : TestResult) : TestResult :=
  mkTest (Name t) (Result t) (Reason t) (Seed t) evs (Matrix t) (Assertions t) (ExpectationName t) (ExpectationViolated t) (FaultBypassed t)
    (StrictDeterminismViolation t) (BypassedRules t) (LeafID t) (LeafChoices t) (LeafProbabilityOutcomes t) (LeafInterleavingIDs t).
Definition set_seed (seed : Z) (t : TestResult) : TestResult :=
  mkTest (Name t) (Result t) (Reason t) seed (Events t) (Matrix t) (Assertions t) (ExpectationName t) (ExpectationViolated t) (FaultBypassed t)
    (StrictDeterminismViolation t) (BypassedRules t) (LeafID t) (LeafChoices t) (LeafProbabilityOutcomes t) (LeafInterleavingIDs t).
Definition set_assertions (n : Z) (t : TestResult) : TestResult :=
  mkTest (Name t) (Result t) (Reason t) (Seed t) (Events t) (Matrix t) n (ExpectationName t) (ExpectationViolated t) (FaultBypassed t)
    (StrictDeterminismViolation t) (BypassedRules t) (LeafID t) (LeafChoices t) (LeafProbabilityOutcomes t) (LeafInterleavingIDs t).
Definition set_leaf (id : string) (c : gmap string Z) (p : gmap string (list bool)) (i : gmap string Z) (t : TestResult) : TestResult :=
  mkTest (Name t) (Result t) (Reason t) (Seed t) (Events t) (Matrix t) (Assertions t) (ExpectationName t) (ExpectationViolated t) (FaultBypassed t)
    (StrictDeterminismViolation t) (BypassedRules t) id c p i.

(** ** What the events of a test say *)

Definition mock_errors : list string :=
  ["mock.encode_error"; "mock.decode_error"; "mock.resolve_error"; "mock.dynamic_error"; "mock.observation_error"].

(** The code and the message. *)
Definition mockErrorDiagnostic (ev : Event) : option (string * string) :=
  if bool_decide (typ ev ∈ mock_errors) then
    let method := if String.eqb (field ev "method") "" then field ev "path" else field ev "method" in
    Some (to_upper (smap (fun c => if Ascii.eqb c "." then "_"%char else c) (typ ev)),
          "mock " +:+ svc ev +:+ "." +:+ field ev "interface" +:+ " " +:+ method +:+ ": " +:+ field ev "error")
  else None.

Fixpoint first_diagnostic (evs : list Event) : option (string * string) :=
  match evs with
  | [] => None
  | ev :: evs => match mockErrorDiagnostic ev with Some d => Some d | None => first_diagnostic evs end
  end.

Definition enforceMockErrors (t : TestResult) : TestResult :=
  match first_diagnostic (Events t) with
  | Some (code, msg) =>
      if negb (String.eqb (Result t) "fail") && negb (String.eqb (Result t) "error") then set_verdict "fail" (code +:+ ": " +:+ msg) false t else t
  | None => t
  end.

Definition enforceShutdownErrors (t : TestResult) : TestResult :=
  match List.find (fun ev => String.eqb (typ ev) "service_stop_error") (Events t) with
  | Some ev => set_verdict "fail" ("TEARDOWN_FAILED: " +:+ svc ev +:+ " (" +:+ field ev "phase" +:+ "): " +:+ field ev "error") (FaultBypassed t) t
  | None => t
  end.

(** The loop over the events after the application of a rule, up to its removal. *)
Fixpoint hits (applied : Event) (evs : list Event) : Z :=
  match evs with
  | [] => 0
  | ev :: evs =>
      if negb (String.eqb (svc ev) (svc applied)) || negb (String.eqb (field ev "interface") (field applied "interface")) then hits applied evs
      else if String.eqb (typ ev) "proxy_fault_removed" then 0
      else (if String.eqb (typ ev) "proxy" && negb (String.eqb (field ev "action") "forward") && negb (String.eqb (field ev "action") "") then 1 else 0) + hits applied evs
  end.

(** The messages. *)
Fixpoint protocolFaultDiagnostics (evs : list Event) : list string :=
  match evs with
  | [] => []
  | ev :: evs =>
      (if String.eqb (typ ev) "proxy_fault_applied" && (hits ev evs =? 0) then
         [field ev "protocol" +:+ " protocol fault scope on " +:+ svc ev +:+ "." +:+ field ev "interface" +:+ " never fired"]
       else []) ++ protocolFaultDiagnostics evs
  end.

Definition strictViolationReason (ev : Event) : string :=
  "strict determinism: unmediated_io[" +:+ field ev "category" +:+ "] from service " +:+ quoted (svc ev) +:+
  " (syscall=" +:+ field ev "syscall" +:+ ", pid=" +:+ field ev "pid" +:+ ")" +:+
  (if String.eqb (field ev "detail") "" then "" else " dest=" +:+ field ev "detail") +:+
  " — add " +:+ quoted (field ev "category") +:+ " to determinism(allow=...) or service(" +:+ quoted (svc ev) +:+
  ", nondeterministic_ok=[...]) to tolerate, or fix the underlying I/O leak".

Definition zero_traffic (evs : list Event) : list BypassedRule :=
  (fun ev => mkBypassed (svc ev) (field ev "syscall") (field ev "action") (field ev "label")) <$>
    List.filter (fun ev => String.eqb (typ ev) "fault_zero_traffic") evs.

(** ** The mock states of a test *)

(** The loop over the dependencies of a service. *)
Fixpoint search_deps (search : string -> gset string -> option (bool * gset string)) (l : list string) (seen : gset string) : option (bool * gset string) :=
  match l with
  | [] => Some (false, seen)
  | dep :: l =>
      match search dep seen with
      | None => None
      | Some (true, seen) => Some (true, seen)
      | Some (false, seen) => search_deps search l seen
      end
  end.

(** [seen] is one table for a search; the fuel bounds the depth, which the table bounds. *)
Fixpoint dependsOnMock (services : gmap string ServiceDef) (target : string) (fuel : nat) (service : string) (seen : gset string) : option (bool * gset string) :=
  match fuel with
  | O => None
  | S fuel =>
      if String.eqb service target then Some (true, seen)
      else if bool_decide (service ∈ seen) then Some (false, seen)
      else
        let seen := {[service]} ∪ seen in
        match services !! service with
        | None => Some (false, seen)
        | Some s => search_deps (dependsOnMock services target fuel) (sv_depends s) seen
        end
  end.

Definition mock_fuel (services : gmap string ServiceDef) : nat := size services + 2.

Section MockSearch.
Context (services : gmap string ServiceDef) (target : string).

Definition depends (a b : string) : Prop := exists s, services !! a = Some s /\ b ∈ sv_depends s.
Definition unseen (seen : gset string) : nat := size (dom services ∖ seen).

(** What a search from [names] answers: a path to the target, or a larger closed table without it. *)
Definition answer (names : list string) (seen : gset string) (r : option (bool * gset string)) : Prop :=
  match r with
  | None => False
  | Some (true, _) => exists n, n ∈ names /\ rtc depends n target
  | Some (false, seen') => seen ⊆ seen' /\ (target ∉ seen') /\ (forall n, n ∈ names -> n ∈ seen') /\
      forall x y, x ∈ seen' -> x ∉ seen -> depends x y -> y ∈ seen'
  end.

Lemma unseen_mono seen seen' : seen ⊆ seen' -> (unseen seen' <= unseen seen)%nat.
Proof. intros Hs. unfold unseen. apply subseteq_size. set_solver. Qed.

Lemma search_deps_answer search k : (forall n seen, (unseen seen <= k)%nat -> target ∉ seen -> answer [n] seen (search n seen)) ->
  forall l seen, (unseen seen <= k)%nat -> target ∉ seen -> answer l seen (search_deps search l seen).
Proof.
  intros Hs. induction l as [|d l IH]; intros seen Hk Ht; cbn [search_deps].
  { split_and!; [done..| |]; [|done]. intros n Hn. by apply elem_of_nil in Hn. }
  specialize (Hs d seen Hk Ht). destruct (search d seen) as [[[] seen1]|]; [|destruct Hs as (S1 & T1 & N1 & C1)|done].
  - destruct Hs as (n & ->%list_elem_of_singleton & P). exists d. split; [by left|done].
  - assert (Hk1 : (unseen seen1 <= k)%nat) by (pose proof (unseen_mono _ _ S1); lia). specialize (IH seen1 Hk1 T1).
    destruct (search_deps search l seen1) as [[[] seen2]|]; [|destruct IH as (S2 & T2 & N2 & C2)|done].
    + destruct IH as (n & Hn & P). exists n. split; [by right|done].
    + split_and!; [set_solver|done| |].
      * intros n [->|Hn]%elem_of_cons; [apply S2, N1; by left|auto].
      * intros x y Hx Hn D. destruct (decide (x ∈ seen1)); [apply S2; by eapply C1|by eapply C2].
Qed.

Lemma mock_search_answer fuel : forall n seen, (unseen seen + 2 <= fuel)%nat -> target ∉ seen -> answer [n] seen (dependsOnMock services target fuel n seen).
Proof.
  induction fuel as [|fuel IH]; intros n seen Hf Ht; [lia|]. cbn [dependsOnMock]. destruct (String.eqb_spec n target) as [->|Hn].
  { exists target. split; [by left|done]. }
  case_bool_decide as Hin; [split_and!; [done..| |done]; by intros m ->%list_elem_of_singleton|]. cbv zeta. destruct (services !! n) as [s|] eqn:Es.
  - assert (Hk : (unseen ({[n]} ∪ seen) < unseen seen)%nat).
    { unfold unseen. apply subset_size. assert (n ∈ dom services) by (apply elem_of_dom; by exists s). set_solver. }
    assert (Ht' : target ∉ {[n]} ∪ seen) by set_solver.
    pose proof (search_deps_answer (dependsOnMock services target fuel) (unseen ({[n]} ∪ seen))) as L. specialize (L (fun m z Hz => IH m z ltac:(lia)) (sv_depends s) _ ltac:(done) Ht').
    destruct (search_deps _ _ _) as [[[] seen1]|]; [|destruct L as (S1 & T1 & N1 & C1)|done].
    + destruct L as (m & Hm & P). exists n. split; [by left|]. eapply rtc_l; [|exact P]. by exists s.
    + split_and!; [set_solver|done|intros m ->%list_elem_of_singleton; set_solver|]. intros x y Hx Hxs D. destruct (decide (x = n)) as [->|Hne].
      * destruct D as (s' & Es' & Hy). rewrite Es in Es'. injection Es' as <-. by apply N1.
      * apply (C1 x y); [done| |done]. set_solver.
  - split_and!; [set_solver|set_solver|intros m ->%list_elem_of_singleton; set_solver|]. intros x y Hx Hxs (s & Es' & _). assert (x = n) as -> by set_solver. congruence.
Qed.

(** The search ends, and finds the mock exactly when the service depends on it. *)
Lemma dependsOnMock_exact n : exists seen b, dependsOnMock services target (mock_fuel services) n ∅ = Some (b, seen) /\ (b = true <-> rtc depends n target).
Proof.
  pose proof (mock_search_answer (mock_fuel services) n ∅) as A. assert (Hu : unseen ∅ = size services) by (unfold unseen; by rewrite difference_empty_L, size_dom).
  specialize (A ltac:(unfold mock_fuel; lia) ltac:(set_solver)). destruct (dependsOnMock _ _ _ _ _) as [[[] seen]|]; [..|done].
  - destruct A as (m & ->%list_elem_of_singleton & P). by exists seen, true.
  - destruct A as (_ & T & N & C). exists seen, false. split; [done|]. split; [done|]. intros P. exfalso. apply T.
    assert (Hin : n ∈ seen) by (apply N; by left). revert Hin. induction P as [|x y z D _ IH]; [done|]. intros Hx. apply IH; [set_solver..|]. apply (C x y); [done|set_solver|done].
Qed.

End MockSearch.

(** ** The state of a run *)

(** What the body raised: [halt()], an error, or a Go panic. *)
Inductive BodyErr := Halt (reason : string) | Raises (text : string) | GoPanic (text : string).

Definition err_text (e : BodyErr) : string :=
  match e with
  | Halt r => if String.eqb r "" then "halt" else "halt: " +:+ r
  | Raises t => t
  | GoPanic t => t
  end.

(** How the wait for the body ended: the arm, the signal an inner [select] prefers, the error. *)
Record BodyEnd := mkEnd { e_arm : Temporal.Arm; e_first_always : bool; e_err : option BodyErr }.

Section Run.
Context {V : Type} (monitor : nat -> MonitorDef V) (now : nat -> Z) (start : Manager -> string -> string -> result string string).
Context (call : Callable -> list value -> RT V -> result string value * RT V).
Context (iter : forall A, gmap string A -> list (string * A)).
Context (attach : RT V -> result string string).
Context `{Headers} {G : Type} `{!RandSource G} (wireSeed : G).
Context (outcome : string -> string -> option (bool * string)) (shutdownTimeout : Z).
Context (visit : gmap string activePartition -> list activePartition).

(** [ticks] counts the leaves that were run; the recordings of a body are in [choices], [sites] and the
    fault sites of the runtime. *)
Record World := mkWorld {
  host : @St V G; objs : list Temporal.ExpectationVal; registered : list nat; alwaysFired : bool; twFired : bool;
  det : Det; vacuity : Vacuity.vacuityState; watchRan : bool; attachErr : option string; currentLeaf : option Leaf.PlanLeaf;
  choices : list (Leaf.ChoiceVal string); parallel : list Leaf.ParallelSite; runSeed : Z; explorePerm : Z; exploreHeldN : Z; ticks : nat }.

Definition set_host h w := mkWorld h (objs w) (registered w) (alwaysFired w) (twFired w) (det w) (vacuity w) (watchRan w) (attachErr w) (currentLeaf w)
  (choices w) (parallel w) (runSeed w) (explorePerm w) (exploreHeldN w) (ticks w).
Definition set_temporal (t : Temporal.Runtime) (w : World) := mkWorld (set_log (Temporal.rlog t) (host w).1, (host w).2) (Temporal.objs t) (Temporal.registered t)
  (Temporal.alwaysFired t) (Temporal.twFired t) (det w) (vacuity w) (watchRan w) (attachErr w) (currentLeaf w)
  (choices w) (parallel w) (runSeed w) (explorePerm w) (exploreHeldN w) (ticks w).
Definition set_det d w := mkWorld (host w) (objs w) (registered w) (alwaysFired w) (twFired w) d (vacuity w) (watchRan w) (attachErr w) (currentLeaf w)
  (choices w) (parallel w) (runSeed w) (explorePerm w) (exploreHeldN w) (ticks w).
Definition set_vacuity v w := mkWorld (host w) (objs w) (registered w) (alwaysFired w) (twFired w) (det w) v (watchRan w) (attachErr w) (currentLeaf w)
  (choices w) (parallel w) (runSeed w) (explorePerm w) (exploreHeldN w) (ticks w).
Definition set_attachErr e w := mkWorld (host w) (objs w) (registered w) (alwaysFired w) (twFired w) (det w) (vacuity w) (watchRan w) e (currentLeaf w)
  (choices w) (parallel w) (runSeed w) (explorePerm w) (exploreHeldN w) (ticks w).
Definition set_currentLeaf l w := mkWorld (host w) (objs w) (registered w) (alwaysFired w) (twFired w) (det w) (vacuity w) (watchRan w) (attachErr w) l
  (choices w) (parallel w) (runSeed w) (explorePerm w) (exploreHeldN w) (ticks w).
Definition set_recordings cs ps w := mkWorld (host w) (objs w) (registered w) (alwaysFired w) (twFired w) (det w) (vacuity w) (watchRan w) (attachErr w) (currentLeaf w)
  cs ps (runSeed w) (explorePerm w) (exploreHeldN w) (ticks w).
Definition set_run seed perm w := mkWorld (host w) (objs w) (registered w) (alwaysFired w) (twFired w) (det w) (vacuity w) (watchRan w) (attachErr w) (currentLeaf w)
  (choices w) (parallel w) seed perm 0 (ticks w).
Definition tick w := mkWorld (host w) (objs w) (registered w) (alwaysFired w) (twFired w) (det w) (vacuity w) (watchRan w) (attachErr w) (currentLeaf w)
  (choices w) (parallel w) (runSeed w) (explorePerm w) (exploreHeldN w) (S (ticks w)).

Definition rt (w : World) : RT V := (host w).1.
Definition set_rt (r : RT V) (w : World) : World := set_host (r, (host w).2) w.
Definition logged (w : World) : list Event := EventLog.events (log (rt w)).
Definition temporal (w : World) : Temporal.Runtime := Temporal.mkRt (objs w) (registered w) (log (rt w)) (alwaysFired w) (twFired w).

(** The specification that was loaded, and whether its source calls packet faults. *)
Context (spec : Spec.Runtime) (usesPackets : bool).
(** Starting the services; calling a function of the specification as a setup or as a body; what an
    [assume=] predicate gives; what a call of a scenario leaves of the expectations, and how the
    wait for it ends; what the subscribers for expectations make of the events of the teardown;
    what an error of a scenario is; what the observation of files says; the time since the start of the test, as it is printed. *)
Context (launch : World -> option (string * option string) * World).
Context (setup : Callable -> World -> option string * World) (perform : Callable -> World -> BodyEnd * World).
Context (holds : Callable -> World -> result string bool).
Context (expects : World -> list Temporal.ExpectationVal * list nat * bool * bool) (waits : World -> Temporal.Arm * bool).
Context (told : World -> list Temporal.ExpectationVal * bool * bool).
Context (classify : failure -> BodyErr) (fsObservationFailure : World -> string) (elapsed : World -> string).

(** The error of the first mock state that cannot be; [None] also when all can. *)
Definition mock_state_error (services : gmap string ServiceDef) (name : string) : option string :=
  if negb (match services !! name with Some s => IsMock s | None => false end) then
    Some ("mock_state: " +:+ quoted name +:+ " is not a registered mock service")
  else
    match List.find (fun p => sv_reuse p.2 && default false (fst <$> dependsOnMock services name (mock_fuel services) (sv_name p.2) ∅)) (iter _ services) with
    | Some p => Some ("mock_state[" +:+ quoted name +:+ "] cannot configure reused dependent " +:+ quoted (sv_name p.2) +:+
                      " at boot; disable reuse for that consumer")
    | None => None
    end.

Definition validateTestMockState (cfg : option TestConfig) (services : gmap string ServiceDef) : option string :=
  match cfg with
  | None => None
  | Some cfg => head (omap (fun p => mock_state_error services p.1) (iter _ (tc_mock_state cfg)))
  end.

(** ** The start of a test *)

Definition reset_rt (r : RT V) : RT V :=
  mkRT (services r) (faults r) (sessions r) (probFaults r) (proxyMgr r) (EventLog.Reset (log r)) (Subscribers.ClearSubscribers (subs r)) (cells r)
    [] (currentFaultScenario r) false "" false (packets r).

(** The log, the subscribers, the monitors' errors and what a scenario records are those of one test. *)
Definition reset_test (w : World) : World :=
  let w := set_rt (reset_rt (rt w)) w in
  set_temporal (Temporal.mkRt (objs w) [] (log (rt w)) false false) w.

Definition stop (w : World) : World :=
  let w := set_host (stopServices monitor now wireSeed outcome iter shutdownTimeout visit (host w)) w in
  let '(os, a, t) := told w in set_temporal (Temporal.mkRt os (registered w) (log (rt w)) a t) w.

Definition notePacketGatewayPreflight (w : World) : World :=
  if String.eqb (detRuntime (packets (rt w))) gvisor && usesPackets then
    match ensurePacketGateway monitor now attach (rt w) with
    | (Err (AttachFailed e), r) => set_attachErr (Some ("the netstack gateway could not attach: " +:+ e)) (set_rt r w)
    | (Err _, r) => set_attachErr (Some "the netstack gateway could not attach") (set_rt r w)
    | (Ok _, r) => set_attachErr None (set_rt r w)
    end
  else set_attachErr None w.

Definition register_spec (w : World) : list Z * World :=
  foldl (fun '(ids, w) m => let '(id, r) := RegisterMonitor monitor m (rt w) in (ids ++ [id], set_rt r w)) ([], w) (specMonitors spec).

Definition unregister_spec (ids : list Z) (w : World) : World := set_rt (unregister_monitors ids (rt w)) w.

(** ** The body *)

(** The expectation of [expect=] is registered, which counts as an assertion. *)
Definition register_expect (name : string) (cfg : option TestConfig) (w : World) : World :=
  match cfg ≫= tc_expect with
  | Some (_, i) => set_vacuity (Vacuity.noteAssertion name (vacuity w)) (set_temporal (Temporal.registerExpectation i (temporal w)) w)
  | None => w
  end.

Definition run_setup (cfg : option TestConfig) (w : World) : option string * World :=
  match cfg ≫= tc_setup with Some f => setup f w | None => (None, w) end.

Definition predicate_name (p : AssumePredicate) : string :=
  match p with PredCall f => fn_name f | PredConst b => if b then "const_True" else "const_False" end.

(** The verdict of the first predicate that raises or does not hold. *)
Fixpoint check_assumes (ps : list AssumePredicate) (w : World) : option (string * string) :=
  match ps with
  | [] => None
  | p :: ps =>
      match (match p with PredCall f => holds f w | PredConst b => Ok b end) with
      | Err e => Some ("error", "assume(" +:+ predicate_name p +:+ ") raised: " +:+ e)
      | Ok true => check_assumes ps w
      | Ok false => Some ("halted", "assume(" +:+ predicate_name p +:+ ") not satisfied")
      end
  end.

Definition assume_verdict (cfg : option TestConfig) (w : World) : option (string * string) :=
  if match currentLeaf w with Some l => Leaf.IsDiscovery l | None => false end then None
  else match cfg with Some cfg => check_assumes (tc_assumes cfg) w | None => None end.

(** The runner of a fault scenario acts on the runtime of [Inject], and returns: a runner that is still busy
    two seconds after the test timed out, which [waitBodyExit] abandons, is not modelled. *)
Definition run_body (fn : Runner) (w : World) : BodyEnd * World :=
  match fn with
  | RFunction f => perform f w
  | RFault fs =>
      let '(r, rt') := makeFaultScenarioRunner monitor now start call iter fs (rt w) in
      let w := set_rt rt' w in
      let '(os, reg, a, t) := expects w in
      let w := set_temporal (Temporal.mkRt os reg (log (rt w)) a t) w in
      let '(arm, first) := waits w in
      (mkEnd arm first (match r with Ok _ => None | Err e => Some (classify e) end), w)
  | RValue => (mkEnd Temporal.ArmBody false None, w)
  end.

(** ** The verdict *)

Definition is_halt (e : BodyErr) : bool := match e with Halt _ => true | _ => false end.

(** A body that raised ends the test at once, unless it called [halt()]. *)
Definition final_cause (e : BodyEnd) (w : World) : Temporal.TerminationCause :=
  let cause := Temporal.termination_cause (e_arm e) (e_first_always e) (temporal w) in
  match e_err e, cause with
  | Some err, Temporal.TerminationNatural => if is_halt err then cause else Temporal.TerminationImmediateFail
  | _, _ => cause
  end.

Definition timed_out (cause : Temporal.TerminationCause) : bool := match cause with Temporal.TerminationTimeout => true | _ => false end.

(** Whether an error of the body counts: not when the runtime cancelled the body. *)
Definition counts (cause : Temporal.TerminationCause) : bool :=
  match cause with Temporal.TerminationTimeout | Temporal.TerminationTerminateWhen => false | _ => true end.

Definition supervisorFailure (w : World) : option string :=
  head (omap (fun p => s ← p.2; e ← Session.SupervisorFailure s; Some ("service " +:+ quoted p.1 +:+ ": " +:+ e)) (iter _ (sessions (rt w)))).

Definition matrixInfo (w : World) : option MatrixInfo :=
  name ← currentFaultScenario (rt w); fs ← faultScenarios spec !! name; fs_matrix fs.

Definition body_verdict (name : string) (e : BodyErr) (cause : Temporal.TerminationCause) (violated : bool) (evs : list Event) : TestResult :=
  match e, cause with
  | Halt r, Temporal.TerminationNatural => bare name "halted" (if String.eqb r "" then "halt()" else "halt: " +:+ r) evs
  | GoPanic t, _ => set_flags violated false [] (bare name "error" t evs)
  | _, _ => set_flags violated false [] (bare name "fail" (err_text e) evs)
  end.

Definition unwired_reason (w : World) : string :=
  "packet faults were installed " +:+ show_Z (unwired (packets (rt w))) +:+ " time(s) but no netstack gateway was attached, so no packet was affected; the result below would be meaningless" +:+
  match attachErr w with Some e => " — " +:+ e | None => "" end.

(** What makes the run worthless as evidence, or breaks a rule: the reason, and whether it is strict
    determinism's. *)
Definition defect (w : World) (evs : list Event) : option (string * bool) :=
  match monitorErrors (rt w) with
  | e :: _ => Some ("monitor violation: " +:+ e, false)
  | [] =>
      if negb (String.eqb (fsObservationFailure w) "") && watchRan w then Some (fsObservationFailure w, false)
      else match whereErr (packets (rt w)) with
      | Some e => Some ("packet fault where= predicate failed " +:+ show_Z (whereErrCount (packets (rt w))) +:+
                        " time(s), so it matched nothing and the fault never fired; first failure: " +:+ e, false)
      | None =>
          if 0 <? unwired (packets (rt w)) then Some (unwired_reason w, false)
          else if strictEffective (det w) then
            match firstStrictViolation (det w) evs (rt w) with Some v => Some (strictViolationReason v, true) | None => None end
          else None
      end
  end.

(** The expectations, and the end by timeout. *)
Definition temporal_verdict (name : string) (tw : option nat) (cause : Temporal.TerminationCause) (requireFaults : bool) (evs : list Event) (w : World)
    : TestResult * World :=
  let '(t, r) := Temporal.finalize_loop tw (now (length evs)) cause (registered w) false (temporal w) in
  let w := set_temporal t w in
  match r with
  | inl reason => (bare name "fail" reason evs, w)
  | inr true => (bare name "inconclusive" ("test timeout: temporal expectation(s) still pending after " +:+ elapsed w) evs, w)
  | inr false =>
      if timed_out cause then
        (bare name "inconclusive" ("test timeout: body did not complete within " +:+ elapsed w) evs, w)
      else
        let rules := if requireFaults then zero_traffic evs else [] in
        (set_flags false false rules (set_verdict "pass" "" (match rules with [] => false | _ => true end) (bare name "pass" "" evs)), w)
  end.

(** From the end of the body to the result. *)
Definition judge (name : string) (tw : option nat) (e : BodyEnd) (w : World) : TestResult * World :=
  let cause := final_cause e w in
  let w := set_temporal (Temporal.signalLifecycleAnchor "body_end" (temporal w)) w in
  let about := attributed (matrixInfo w) (expectationName (rt w)) in
  let violated := expectationViolated (rt w) in
  let requireFaults := requireFaultsFire (rt w) in
  let failure := supervisorFailure w in
  let w := stop w in
  let evs := logged w in
  match failure with
  | Some e =>
      let w := set_rt (Emit monitor now "supervisor_exited" "" [("error", e)] (rt w)) w in
      (bare name "error" e (logged w), w)
  | None =>
      match e_err e, counts cause with
      | Some err, true => (about (body_verdict name err cause violated evs), w)
      | _, _ =>
          match defect w evs with
          | Some (reason, strict) => (about (set_flags false strict [] (bare name "fail" reason evs)), w)
          | None => let '(t, w) := temporal_verdict name tw cause requireFaults evs w in (about t, w)
          end
      end
  end.

Definition run_started (name : string) (fn : Runner) (w : World) : TestResult * World :=
  let cfg := testConfigs spec !! name in
  let w := register_expect name cfg w in
  match run_setup cfg w with
  | (Some e, w) => let w := stop w in (bare name "fail" ("setup: " +:+ e) (logged w), w)
  | (None, w) =>
      match assume_verdict cfg w with
      | Some (res, reason) =>
          let about := attributed (matrixInfo w) (expectationName (rt w)) in
          let w := stop w in (about (bare name res reason (logged w)), w)
      | None =>
          let '(e, w) := run_body fn (set_temporal (Temporal.signalLifecycleAnchor "body_start" (temporal w)) w) in
          judge name (snd <$> (cfg ≫= tc_terminate)) e w
      end
  end.

Definition bindings : gmap string Runner := (Discovery.DiscoverTests spec).2.

Definition runTestImpl (name : string) (w : World) : TestResult * World :=
  if shutdownFailed (host w).2 then (bare name "fail" "TEARDOWN_FAILED: previous cleanup failed; create a fresh runtime" [], w)
  else
    match bindings !! name with
    | None | Some RValue => (bare name "fail" ("test " +:+ quoted name +:+ " not found or not callable") [], w)
    | Some fn =>
        let w := reset_test w in
        match validateTestMockState (testConfigs spec !! name) (services (rt w)) with
        | Some e => (bare name "fail" e (logged w), w)
        | None =>
            match launch w with
            | (Some (e, code), w) =>
                let w := set_rt (Emit monitor now "service_start_error" "" (("error", e) :: match code with Some c => [("code", c)] | None => [] end) (rt w)) w in
                let w := stop w in (bare name "fail" ("failed to start services: " +:+ e) (logged w), w)
            | (None, w) =>
                let '(ids, w) := register_spec (notePacketGatewayPreflight w) in
                let '(t, w) := run_started name fn w in
                (t, unregister_spec ids w)
            end
        end
    end.

(** A protocol fault that did not act: a pass is marked, or fails when faults must act. *)
Definition enforceFaults (require : bool) (t : TestResult) : TestResult :=
  match protocolFaultDiagnostics (Events t) with
  | d :: _ =>
      if String.eqb (Result t) "pass" then
        if require then set_verdict "fail" ("FAULT_NOT_FIRED: " +:+ d) false t else set_verdict "pass" (Reason t) true t
      else t
  | [] => t
  end.

Definition RunTestLeaf (name : string) (leaf : option Leaf.PlanLeaf) (w : World) : TestResult * World :=
  let '(t, w) := runTestImpl name (set_currentLeaf leaf w) in
  let t := enforceFaults (requireFaultsFire (rt w)) (enforceShutdownErrors (enforceMockErrors t)) in
  let t := set_assertions (Vacuity.assertionCount name (vacuity w)) t in
  let w := set_currentLeaf None (set_vacuity (Vacuity.endTest name (Result t) (vacuity w)) (tick w)) in
  match leaf with
  | Some l => (set_leaf (show_Z (Leaf.Index l)) (Leaf.Choices l) (Leaf.ProbabilityOutcomes l) (Leaf.InterleavingIDs l) t, w)
  | None => (t, w)
  end.

(** ** What the events of a passing test show *)

Definition same_scope (a b : Event) : bool := String.eqb (svc a) (svc b) && String.eqb (field a "interface") (field b "interface").
Definition acted (ev : Event) : bool := String.eqb (typ ev) "proxy" && negb (String.eqb (field ev "action") "forward") && negb (String.eqb (field ev "action") "").

(** A rule of the scope of [applied] acted before the scope was left. *)
Definition fired (applied : Event) (evs : list Event) : Prop := exists pre ev post,
  evs = pre ++ ev :: post /\ same_scope ev applied = true /\ acted ev = true /\
  Forall (fun r => same_scope r applied = true -> typ r <> "proxy_fault_removed") pre.

Lemma hits_nonneg applied evs : 0 <= hits applied evs.
Proof. induction evs as [|ev evs IH]; cbn [hits]; [done|]. repeat case_match; lia. Qed.

Lemma fired_skip applied ev evs : acted ev && same_scope ev applied = false -> (same_scope ev applied = true -> typ ev <> "proxy_fault_removed") ->
  fired applied (ev :: evs) <-> fired applied evs.
Proof.
  intros Ha Hr. split.
  - intros (pre & x & post & E & S & A & F). destruct pre as [|y pre]; injection E as -> ->.
    + by rewrite A, S in Ha.
    + apply Forall_cons in F as [_ F]. by exists pre, x, post.
  - intros (pre & x & post & -> & S & A & F). exists (ev :: pre), x, post. split_and!; [done..|]. by constructor.
Qed.

Lemma hits_fired applied evs : 0 < hits applied evs <-> fired applied evs.
Proof.
  induction evs as [|ev evs IH].
  { cbn. split; [lia|]. intros (pre & ? & ? & E & _). by destruct pre. }
  cbn [hits]. assert (Es : negb (String.eqb (svc ev) (svc applied)) || negb (String.eqb (field ev "interface") (field applied "interface")) = negb (same_scope ev applied))
    by (unfold same_scope; by rewrite negb_andb).
  rewrite Es. destruct (same_scope ev applied) eqn:S; cbn [negb].
  2:{ rewrite IH. symmetry. apply fired_skip; [by rewrite S, andb_false_r|by rewrite S]. }
  destruct (String.eqb_spec (typ ev) "proxy_fault_removed") as [T|T].
  - split; [lia|]. intros (pre & x & post & E & S' & A & F). destruct pre as [|y pre]; injection E as -> ->.
    + unfold acted in A. by rewrite T in A.
    + apply Forall_cons in F as [F _]. by destruct (F S).
  - fold (acted ev). destruct (acted ev) eqn:A.
    + pose proof (hits_nonneg applied evs). split; [intros _|lia]. by exists [], ev, evs.
    + rewrite Z.add_0_l, IH. symmetry. apply fired_skip; [by rewrite A|by intros _].
Qed.

Lemma diagnostics_none evs : protocolFaultDiagnostics evs = [] <->
  forall pre ev post, evs = pre ++ ev :: post -> typ ev = "proxy_fault_applied" -> fired ev post.
Proof.
  induction evs as [|ev evs IH]; cbn [protocolFaultDiagnostics].
  { split; [|done]. intros _ pre ? ? E. by destruct pre. }
  pose proof (hits_nonneg ev evs) as Hn. pose proof (hits_fired ev evs) as Hf. split.
  - intros [H1 H2]%app_nil. rewrite IH in H2. intros [|y pre] x post E T; injection E as <- ->.
    + rewrite <- Hf. rewrite T in H1. cbn [andb] in H1. destruct (Z.eqb_spec (hits ev post) 0); [done|lia].
    + by apply (H2 pre x post).
  - intros Ha. replace (protocolFaultDiagnostics evs) with (@nil string); cycle 1.
    { symmetry. apply IH. intros pre x post -> T. by apply (Ha (ev :: pre) x post). }
    rewrite app_nil_r. destruct (String.eqb_spec (typ ev) "proxy_fault_applied") as [T|T]; [|done].
    assert (F : fired ev evs) by (by apply (Ha [] ev evs)). rewrite <- Hf in F. destruct (Z.eqb_spec (hits ev evs) 0); [lia|done].
Qed.

Lemma first_diagnostic_none evs : first_diagnostic evs = None <-> forall ev, ev ∈ evs -> typ ev ∉ mock_errors.
Proof.
  induction evs as [|ev evs IH]; cbn [first_diagnostic].
  { split; [|done]. intros _ ev Hin. by apply elem_of_nil in Hin. }
  unfold mockErrorDiagnostic. case_bool_decide as E.
  - split; [done|]. intros Ha. destruct (Ha ev); [by left|done].
  - rewrite IH. split; [intros Ha x [->|Hx]%elem_of_cons; auto|]. intros Ha x Hx. apply Ha. by right.
Qed.

Lemma no_stop_error evs : List.find (fun ev => String.eqb (typ ev) "service_stop_error") evs = None <-> forall ev, ev ∈ evs -> typ ev <> "service_stop_error".
Proof.
  induction evs as [|ev evs IH]; cbn [List.find].
  { split; [|done]. intros _ ev Hin. by apply elem_of_nil in Hin. }
  destruct (String.eqb_spec (typ ev) "service_stop_error") as [E|E].
  - split; [done|]. intros Ha. destruct (Ha ev); [by left|done].
  - rewrite IH. split; [intros Ha x [->|Hx]%elem_of_cons; auto|]. intros Ha x Hx. apply Ha. by right.
Qed.

(** The checks on the events turn a result into a failure or leave it. *)
Lemma enforced_pass require t : Result (enforceFaults require (enforceShutdownErrors (enforceMockErrors t))) = "pass" <->
  Result t = "pass" /\ (forall ev, ev ∈ Events t -> (typ ev ∉ mock_errors) /\ typ ev <> "service_stop_error") /\
  (require = true -> forall pre ev post, Events t = pre ++ ev :: post -> typ ev = "proxy_fault_applied" -> fired ev post).
Proof.
  rewrite <- (diagnostics_none (Events t)).
  assert (K : (forall ev, ev ∈ Events t -> (typ ev ∉ mock_errors) /\ typ ev <> "service_stop_error") <->
    first_diagnostic (Events t) = None /\ List.find (fun ev => String.eqb (typ ev) "service_stop_error") (Events t) = None).
  { rewrite first_diagnostic_none, no_stop_error. split; [intros Ha; split; intros; by apply Ha|]. intros [H1 H2] ev Hin. auto. }
  rewrite K. unfold enforceMockErrors. destruct (first_diagnostic (Events t)) as [[code msg]|] eqn:E1.
  - split; [|by intros (_ & [? _] & _)]. intros Hp. exfalso. revert Hp. set (t' := if _ && _ then _ else t).
    assert (Hr : Result t' = "fail" \/ Result t' = "error").
    { unfold t'. destruct (String.eqb_spec (Result t) "fail"); [by left|]. destruct (String.eqb_spec (Result t) "error"); [by right|by left]. }
    unfold enforceShutdownErrors. destruct (List.find _ (Events t')); unfold enforceFaults; cbn [Result Events set_verdict];
      repeat case_match; cbn [Result set_verdict]; destruct Hr; intros; simplify_eq; try congruence;
      match goal with Hq : String.eqb _ _ = true |- _ => apply String.eqb_eq in Hq; cbn in Hq; congruence end.
  - unfold enforceShutdownErrors. destruct (List.find _ (Events t)) eqn:E2.
    + split; [|by intros (_ & [_ ?] & _)]. unfold enforceFaults. cbn [Result Events set_verdict]. by repeat case_match.
    + unfold enforceFaults. destruct (protocolFaultDiagnostics (Events t)) as [|d ds]; [by intuition|].
      destruct (String.eqb_spec (Result t) "pass") as [Ep|Ep]; [|by intuition]. destruct require; cbn [Result set_verdict]; intuition congruence.
Qed.

(** ** What a pass means *)

(** The run got to the end of its body: nothing before it stopped the test. *)
Inductive reaches (name : string) (w : World) : BodyEnd -> World -> Prop :=
| reaches_end fn w1 ids w2 w3 e w4 :
    shutdownFailed (host w).2 = false -> bindings !! name = Some fn -> fn <> RValue ->
    validateTestMockState (testConfigs spec !! name) (services (rt w)) = None ->
    launch (reset_test w) = (None, w1) ->
    register_spec (notePacketGatewayPreflight w1) = (ids, w2) ->
    run_setup (testConfigs spec !! name) (register_expect name (testConfigs spec !! name) w2) = (None, w3) ->
    assume_verdict (testConfigs spec !! name) w3 = None ->
    run_body fn (set_temporal (Temporal.signalLifecycleAnchor "body_start" (temporal w3)) w3) = (e, w4) ->
    reaches name w e w4.

Definition ended (w : World) : World := set_temporal (Temporal.signalLifecycleAnchor "body_end" (temporal w)) w.

(** The evidence of the run, from the end [e] of the body in [w] on. *)
Record clean (tw : option nat) (e : BodyEnd) (w : World) : Prop := {
  cl_supervised : forall n s, sessions (rt w) !! n = Some (Some s) -> Session.supervisorFailed s = false;
  cl_body : e_err e = None \/ final_cause e w = Temporal.TerminationTerminateWhen;
  cl_monitors : monitorErrors (rt (stop (ended w))) = [];
  cl_watched : watchRan (stop (ended w)) = true -> fsObservationFailure (stop (ended w)) = "";
  cl_where : whereErr (packets (rt (stop (ended w)))) = None;
  cl_wired : unwired (packets (rt (stop (ended w)))) <= 0;
  cl_strict : strictEffective (det (stop (ended w))) = true -> forall ev, ev ∈ logged (stop (ended w)) -> typ ev = "unmediated_io" -> field ev "category" <> "" ->
    field ev "category" ∈ effectiveAllow (det (stop (ended w))) (svc ev) (rt (stop (ended w)));
  cl_expectations : (Temporal.conclude tw (now (length (logged (stop (ended w))))) (final_cause e w) (temporal (stop (ended w)))).2 = Temporal.Passed;
  cl_events : forall ev, ev ∈ logged (stop (ended w)) -> (typ ev ∉ mock_errors) /\ typ ev <> "service_stop_error";
  cl_faults : requireFaultsFire (rt (stop (ended w))) = true -> forall pre ev post,
    logged (stop (ended w)) = pre ++ ev :: post -> typ ev = "proxy_fault_applied" -> fired ev post }.

Hypothesis iter_perm : forall A (m : gmap string A), iter A m ≡ₚ map_to_list m.

Lemma supervised w : supervisorFailure w = None <-> forall n s, sessions (rt w) !! n = Some (Some s) -> Session.supervisorFailed s = false.
Proof.
  unfold supervisorFailure. set (f := fun p : string * option Session => _).
  assert (Hf : forall p, f p = None <-> forall s, p.2 = Some s -> Session.supervisorFailed s = false).
  { intros [n [s|]]; unfold f; cbn; [|by split]. unfold Session.SupervisorFailure. destruct (Session.supervisorFailed s) eqn:E.
    - split; [by destruct (Session.supervisorErr s) as [m|]; [destruct (String.eqb m "")|]|]. intros Ha. by rewrite (Ha s) in E.
    - split; [|done]. by intros _ s' [= <-]. }
  assert (Hh : forall l, head (omap f l) = None <-> forall p, p ∈ l -> f p = None).
  { induction l as [|p l IH]; cbn; [split; [|done]; intros _ p Hp; by apply elem_of_nil in Hp|].
    destruct (f p) eqn:E; [split; [done|]; intros Ha; rewrite (Ha p) in E by (by left); done|]. rewrite IH. split; [intros Ha q [->|Hq]%elem_of_cons; auto|].
    intros Ha q Hq. apply Ha. by right. }
  rewrite Hh. split.
  - intros Ha n s Hs. eapply Hf; [apply (Ha (n, Some s))|done]. rewrite iter_perm. by apply elem_of_map_to_list.
  - intros Ha [n o] Hin. rewrite iter_perm in Hin. apply elem_of_map_to_list in Hin. apply Hf. cbn. intros s ->. by eapply Ha.
Qed.

Lemma strict_none w evs : firstStrictViolation (det w) evs (rt w) = None <-> forall ev, ev ∈ evs -> typ ev = "unmediated_io" -> field ev "category" <> "" ->
  field ev "category" ∈ effectiveAllow (det w) (svc ev) (rt w).
Proof.
  unfold firstStrictViolation. induction evs as [|ev evs IH]; cbn [List.find].
  { split; [|done]. intros _ ev Hin. by apply elem_of_nil in Hin. }
  assert (Ho : offends (det w) (rt w) ev = false <-> (typ ev = "unmediated_io" -> field ev "category" <> "" -> field ev "category" ∈ effectiveAllow (det w) (svc ev) (rt w))).
  { unfold offends. cbv zeta. destruct (String.eqb_spec (typ ev) "unmediated_io"), (String.eqb_spec (field ev "category") ""); cbn [andb negb]; try by split.
    case_bool_decide; cbn [negb]; by intuition. }
  destruct (offends (det w) (rt w) ev).
  - split; [done|]. intros Ha. assert (true = false) by (apply Ho, Ha; by left). done.
  - rewrite IH. split; [intros Ha x [->|Hx]%elem_of_cons; [by apply Ho|by apply Ha]|]. intros Ha x Hx. apply Ha. by right.
Qed.

Lemma defect_none w : defect w (logged w) = None <->
  monitorErrors (rt w) = [] /\ (watchRan w = true -> fsObservationFailure w = "") /\ whereErr (packets (rt w)) = None /\ unwired (packets (rt w)) <= 0 /\
  (strictEffective (det w) = true -> firstStrictViolation (det w) (logged w) (rt w) = None).
Proof.
  unfold defect. destruct (monitorErrors (rt w)); [|by intuition].
  destruct (String.eqb_spec (fsObservationFailure w) "") as [Eo|Eo]; cbn [negb andb]; [|destruct (watchRan w); cbn; [by intuition|]];
    (destruct (whereErr _); [by intuition|]; destruct (Z.ltb_spec 0 (unwired (packets (rt w)))); [split; [done|]; intros (_ & _ & _ & ? & _); lia|];
     destruct (strictEffective _); [destruct (firstStrictViolation _ _ _)|]; (split; [intros He; try done; by split_and!|]); try done;
     intros (_ & _ & _ & _ & Hs); by specialize (Hs eq_refl)).
Qed.

Lemma concluded name tw cause require w : Result (temporal_verdict name tw cause require (logged w) w).1 = "pass" <->
  (Temporal.conclude tw (now (length (logged w))) cause (temporal w)).2 = Temporal.Passed.
Proof.
  unfold temporal_verdict, Temporal.conclude. change (registered w) with (Temporal.registered (temporal w)).
  destruct (Temporal.finalize_loop _ _ _ _ _ _) as [t [r|[]]]; cbn [fst snd Result]; [done..|]. destruct cause; cbn; by split.
Qed.

(** Results and events are kept by what is added to a result. *)
Lemma judged name tw e w : let t := (judge name tw e w).1 in
  (Result t = "pass" -> Events t = logged (stop (ended w))) /\
  (Result t = "pass" <->
   supervisorFailure w = None /\ (e_err e = None \/ counts (final_cause e w) = false) /\ defect (stop (ended w)) (logged (stop (ended w))) = None /\
   (Temporal.conclude tw (now (length (logged (stop (ended w))))) (final_cause e w) (temporal (stop (ended w)))).2 = Temporal.Passed).
Proof.
  cbv zeta. unfold judge. fold (ended w). change (supervisorFailure (ended w)) with (supervisorFailure w).
  destruct (supervisorFailure w); [by split; [|intuition]|]. set (w' := stop (ended w)).
  assert (Hb : forall err cause violated, Result (body_verdict name err cause violated (logged w')) <> "pass") by (intros [] [] ?; done).
  assert (Tail : let r := match defect w' (logged w') with
      | Some (reason, strict) => (attributed (matrixInfo (ended w)) (expectationName (rt (ended w))) (set_flags false strict [] (bare name "fail" reason (logged w'))), w')
      | None => let '(t, w0) := temporal_verdict name tw (final_cause e w) (requireFaultsFire (rt (ended w))) (logged w') w' in
          (attributed (matrixInfo (ended w)) (expectationName (rt (ended w))) t, w0) end in
    (Result r.1 = "pass" -> Events r.1 = logged w') /\ (Result r.1 = "pass" <-> defect w' (logged w') = None /\
      (Temporal.conclude tw (now (length (logged w'))) (final_cause e w) (temporal w')).2 = Temporal.Passed)).
  { cbv zeta. destruct (defect w' (logged w')) as [[reason strict]|]; [split; [done|]; by split; [|intros [? _]]|].
    rewrite <- (concluded name tw (final_cause e w) (requireFaultsFire (rt (ended w))) w'). destruct (temporal_verdict _ _ _ _ _ _) as [t w0] eqn:E. cbn [fst].
    split; [|by destruct t; intuition]. intros _. unfold temporal_verdict in E. destruct (Temporal.finalize_loop _ _ _ _ _ _) as [? [?|[]]]; [by injection E as <-..|].
    destruct (timed_out _); by injection E as <-. }
  destruct (e_err e) as [err|]; [destruct (counts (final_cause e w))|].
  - cbn [fst]. split; [intros Hp; by destruct (Hb err (final_cause e w) (expectationViolated (rt (ended w))))|]. split; [intros Hp; by destruct (Hb err (final_cause e w) (expectationViolated (rt (ended w))))|].
    by intros (_ & [?|?] & _).
  - destruct Tail as [T1 T2]. split; [exact T1|]. rewrite T2. by intuition.
  - destruct Tail as [T1 T2]. split; [exact T1|]. rewrite T2. by intuition.
Qed.

Lemma judge_require name tw e w : supervisorFailure w = None -> requireFaultsFire (rt (judge name tw e w).2) = requireFaultsFire (rt (stop (ended w))).
Proof.
  intros Hs. unfold judge. fold (ended w). change (supervisorFailure (ended w)) with (supervisorFailure w). rewrite Hs. set (w' := stop (ended w)).
  assert (K : forall name tw cause b evs, requireFaultsFire (rt (temporal_verdict name tw cause b evs w').2) = requireFaultsFire (rt w')).
  { intros. unfold temporal_verdict. destruct (Temporal.finalize_loop _ _ _ _ _ _) as [? [?|[]]]; [done..|]. by destruct (timed_out _). }
  destruct (e_err e); [destruct (counts _)|]; try done; (destruct (defect w' _) as [[? ?]|]; [done|]);
    match goal with |- context [temporal_verdict ?n ?t ?c ?b ?v w'] => specialize (K n t c b v); destruct (temporal_verdict n t c b v w') end; done.
Qed.

Lemma unregister_require ids w : requireFaultsFire (rt (unregister_spec ids w)) = requireFaultsFire (rt w).
Proof.
  unfold unregister_spec, unregister_monitors. cbn. generalize (rt w). induction ids as [|id ids IH]; intros r; [done|]. cbn [foldl]. by rewrite IH.
Qed.

Lemma clean_exact tw e w : clean tw e w <->
  (supervisorFailure w = None /\ (e_err e = None \/ counts (final_cause e w) = false) /\ defect (stop (ended w)) (logged (stop (ended w))) = None /\
   (Temporal.conclude tw (now (length (logged (stop (ended w))))) (final_cause e w) (temporal (stop (ended w)))).2 = Temporal.Passed) /\
  (forall ev, ev ∈ logged (stop (ended w)) -> (typ ev ∉ mock_errors) /\ typ ev <> "service_stop_error") /\
  (requireFaultsFire (rt (stop (ended w))) = true -> forall pre ev post,
    logged (stop (ended w)) = pre ++ ev :: post -> typ ev = "proxy_fault_applied" -> fired ev post).
Proof.
  rewrite supervised, defect_none, strict_none. split.
  - intros [H1 H2 H3 H4 H5 H6 H7 H8 H9 H10]. split_and!; try done. destruct H2 as [?|Ec]; [by left|right; by rewrite Ec].
  - intros ((H1 & H2 & (H3 & H4 & H5 & H6 & H7) & H8) & H9 & H10). split; try done. destruct H2 as [?|Hc]; [by left|right].
    unfold Temporal.conclude in H8. destruct (final_cause e w); try done. exfalso. destruct (Temporal.finalize_loop _ _ _ _ _ _) as [? [?|[]]]; by cbn in H8.
Qed.

Lemma implementation name w : let r := runTestImpl name w in
  (exists e w', reaches name w e w' /\ r.1 = (judge name (snd <$> (testConfigs spec !! name ≫= tc_terminate)) e w').1 /\
     requireFaultsFire (rt r.2) = requireFaultsFire (rt (judge name (snd <$> (testConfigs spec !! name ≫= tc_terminate)) e w').2)) \/
  (forall e w', ~ reaches name w e w') /\ Result r.1 <> "pass".
Proof.
  cbv zeta. unfold runTestImpl. change (services (rt (reset_test w))) with (services (rt w)).
  destruct (shutdownFailed (host w).2) eqn:E0; [right; split; [|done]; intros ? ?; inversion 1; congruence|].
  destruct (bindings !! name) as [fn|] eqn:E1; [|right; split; [|done]; intros ? ?; inversion 1; congruence].
  assert (Hv : fn = RValue \/ fn <> RValue) by (destruct fn; auto). destruct Hv as [->|Hv]; [right; split; [|done]; intros ? ?; inversion 1; congruence|].
  set (r := match validateTestMockState _ _ with Some _ => _ | None => _ end). replace (match fn with RValue => _ | _ => _ end) with r by (by destruct fn). unfold r. clear r.
  destruct (validateTestMockState _ _) eqn:E2; [right; split; [|done]; intros ? ?; inversion 1; congruence|].
  destruct (launch (reset_test w)) as [[[err code]|] w1] eqn:E3; [right; split; [|done]; intros ? ?; inversion 1; congruence|].
  destruct (register_spec (notePacketGatewayPreflight w1)) as [ids w2] eqn:E4. unfold run_started.
  destruct (run_setup _ _) as [[err|] w3] eqn:E5; [right; split; [|done]; intros ? ?; inversion 1; simplify_eq; congruence|].
  destruct (assume_verdict _ w3) as [[res reason]|] eqn:E6.
  { right. split; [intros ? ?; inversion 1; simplify_eq; congruence|]. cbn [fst Result attributed bare]. intros ->.
    clear -E6. unfold assume_verdict in E6. destruct (match currentLeaf w3 with Some _ => _ | None => _ end); [done|]. destruct (_ !! name) as [cfg|]; [|done].
    induction (tc_assumes cfg) as [|p ps IH]; cbn in E6; [done|]. destruct (match p with PredCall _ => _ | PredConst _ => _ end) as [[]|]; simplify_eq; auto. }
  destruct (run_body fn _) as [e w4] eqn:E7. left. exists e, w4. split; [by econstructor|]. destruct (judge _ _ e w4) as [t w5]. split; [done|]. apply unregister_require.
Qed.

Lemma reaches_fun name w e w' e' w'' : reaches name w e w' -> reaches name w e' w'' -> e' = e /\ w'' = w'.
Proof.
  inversion 1 as [fn w1 ids w2 w3 ? ? A0 A1 A2 A3 A4 A5 A6 A7 A8]. inversion 1 as [fn' w1' ids' w2' w3' ? ? B0 B1 B2 B3 B4 B5 B6 B7 B8]. subst.
  rewrite A1 in B1. rewrite A4 in B4. simplify_eq. rewrite A5 in B5. simplify_eq. rewrite A6 in B6. simplify_eq. rewrite A8 in B8. by simplify_eq.
Qed.

Lemma pass_reaches name leaf w : Result (RunTestLeaf name leaf w).1 = "pass" -> exists e w', reaches name (set_currentLeaf leaf w) e w'.
Proof.
  unfold RunTestLeaf. intros P. destruct (implementation name (set_currentLeaf leaf w)) as [(e & w' & R & _)|[_ Hp]]; [by exists e, w'|]. exfalso. apply Hp.
  destruct (runTestImpl name _) as [t w1]. assert (P' : Result (enforceFaults (requireFaultsFire (rt w1)) (enforceShutdownErrors (enforceMockErrors t))) = "pass") by (by destruct leaf).
  apply enforced_pass in P'. apply P'.
Qed.

(** C9: a leaf of a test passes exactly when nothing stopped the test before its body - no earlier
    teardown failed, the name is bound to a function, the mock states are valid, the services
    start, setup raises nothing and the [assume=] predicates hold - and the evidence after the body
    is clean: no notification loop had stopped, the body raised nothing or was ended by
    [terminate_when=], no monitor was violated, a watch that ran can be trusted, no [where=]
    predicate raised, no packet fault was installed without a gateway, every unmediated call is one
    that strict mode tolerates, every expectation holds and the time did not run out, no mock and no
    phase of the teardown failed, and, if faults must act, every protocol fault did before it was
    removed. *)
Theorem pass_exact name leaf w : Result (RunTestLeaf name leaf w).1 = "pass" <->
  exists e w', reaches name (set_currentLeaf leaf w) e w' /\ clean (snd <$> (testConfigs spec !! name ≫= tc_terminate)) e w'.
Proof.
  unfold RunTestLeaf. destruct (implementation name (set_currentLeaf leaf w)) as [(e & w' & R & Et & Er)|[N Hp]];
    destruct (runTestImpl name _) as [t w1]; cbn [fst snd] in *.
  - set (tw := snd <$> _) in *. destruct (judged name tw e w') as [J1 J2]. pose proof (judge_require name tw e w') as Jr.
    transitivity (Result (enforceFaults (requireFaultsFire (rt w1)) (enforceShutdownErrors (enforceMockErrors t))) = "pass"); [by destruct leaf; split|].
    rewrite enforced_pass, Et, Er. transitivity (clean tw e w').
    + rewrite clean_exact. split.
      * intros (P & Ev & Fi). pose proof (proj1 J2 P) as Q. rewrite (J1 P) in Ev, Fi. rewrite Jr in Fi by apply Q. exact (conj Q (conj Ev Fi)).
      * intros (Q & Ev & Fi). pose proof (proj2 J2 Q) as P. rewrite (J1 P), Jr by apply Q. exact (conj P (conj Ev Fi)).
    + split; [by exists e, w'|]. intros (e' & w'' & R' & C). by destruct (reaches_fun _ _ _ _ _ _ R R') as [-> ->].
  - split; [|intros (e & w' & R & _); by destruct (N e w')]. intros P. exfalso. apply Hp.
    assert (P' : Result (enforceFaults (requireFaultsFire (rt w1)) (enforceShutdownErrors (enforceMockErrors t))) = "pass") by (by destruct leaf).
    apply enforced_pass in P'. apply P'.
Qed.

(** ** The leaves of a test *)

(** Whether the context of the run is cancelled. *)
Context (dead : World -> bool).

Definition reset_body (w : World) : World := set_recordings [] [] (set_rt (set_probFaults [] (rt w)) w).

(** The leaves after the first, and the number left out. *)
Fixpoint fan_leaves (name : string) (leaves : list Leaf.PlanLeaf) (w : World) : list TestResult * Z * World :=
  match leaves with
  | [] => ([], 0, w)
  | l :: leaves =>
      if dead w then ([], Z.of_nat (S (length leaves)), w)
      else
        let '(t, w) := RunTestLeaf name (Some l) (reset_body w) in
        let '(ts, skipped, w) := fan_leaves name leaves w in (t :: ts, skipped, w)
  end.

(** [None] is a panic, as in [Leaf]. *)
Definition runTestFanout (name : string) (w : World) : option (list TestResult * Z * World) :=
  let '(t0, w) := RunTestLeaf name (Some (Leaf.mkLeaf 0 ∅ ∅ true ∅)) (reset_body w) in
  let axes := Leaf.collectNamedAxes (choices w) in
  if (length axes =? 0)%nat && (length (probFaults (rt w)) =? 0)%nat && negb (existsb (fun p => 0 <? Leaf.interleavingCardinality p) (parallel w)) then
    Some ([set_leaf "" (LeafChoices t0) (LeafProbabilityOutcomes t0) (LeafInterleavingIDs t0) t0], 0, w)
  else
    match Leaf.enumerateLeaves axes (probFaults (rt w)) (parallel w) with
    | None | Some [] => None
    | Some (l :: leaves) =>
        let '(t, w) := RunTestLeaf name (Some l) (reset_body w) in
        let '(ts, skipped, w) := fan_leaves name leaves w in Some (t :: ts, skipped, w)
    end.

(** ** The suite *)

Record RunConfig := mkRun { Filter : string; cfgSeed : option Z; Runs : Z; FailOnly : bool; ExploreMode : string; StrictDeterminism : option bool }.

(** The compiler of regular expressions. *)
Context (regexp : string -> option (string -> bool)).

Definition matchTestFilter (testName filter : string) (matrixBases : gset string) : bool :=
  if String.eqb testName filter || String.eqb testName ("test_" +:+ filter) then true
  else if existsb (fun base => bool_decide (base ∈ matrixBases) && has_prefix (base +:+ "_") testName) [filter; "test_" +:+ filter] then true
  else if has_prefix "~" filter then match regexp (sdrop 1 filter) with Some m => m testName | None => false end
  else if PathMatch.HasWildcard filter then
    default false (GoText.FilePath.Match filter testName) || default false (GoText.FilePath.Match ("test_" +:+ filter) testName)
  else false.

Definition matrixBases : gset string :=
  list_to_set (omap (fun p => (fun m => "test_matrix_" +:+ ScenarioName m) <$> fs_matrix p.2) (map_to_list (faultScenarios spec))).

Record SuiteResult := mkSuite {
  Tests : list TestResult; Pass : Z; Fail : Z; Inconclusive : Z; Halted : Z; Matched : Z; Crash : option (string * string);
  Aborted : Z; Diagnostics : list (string * string) }.

Definition no_suite : SuiteResult := mkSuite [] 0 0 0 0 0 None 0 [].

Definition add_aborted (n : Z) (s : SuiteResult) : SuiteResult :=
  mkSuite (Tests s) (Pass s) (Fail s) (Inconclusive s) (Halted s) (Matched s) (Crash s) (Aborted s + n) (Diagnostics s).
Definition add_matched (s : SuiteResult) : SuiteResult :=
  mkSuite (Tests s) (Pass s) (Fail s) (Inconclusive s) (Halted s) (Matched s + 1) (Crash s) (Aborted s) (Diagnostics s).
Definition add_diagnostics (ds : list (string * string)) (s : SuiteResult) : SuiteResult :=
  mkSuite (Tests s) (Pass s) (Fail s) (Inconclusive s) (Halted s) (Matched s) (Crash s) (Aborted s) (Diagnostics s ++ ds).

Definition note_crash (name : string) (s : SuiteResult) (t : TestResult) : SuiteResult :=
  match Crash s with
  | None =>
      if String.eqb (Result t) "error" && negb (String.eqb (Reason t) "") then
        mkSuite (Tests s) (Pass s) (Fail s) (Inconclusive s) (Halted s) (Matched s) (Some (Reason t, name)) (Aborted s) (Diagnostics s)
      else s
  | Some _ => s
  end.

Inductive Class := CPass | CInconclusive | CHalted | CFail.
#[export] Instance Class_eq_dec : EqDecision Class.
Proof. solve_decision. Defined.

Definition class (t : TestResult) : Class :=
  if String.eqb (Result t) "pass" then CPass
  else if String.eqb (Result t) "inconclusive" then CInconclusive
  else if String.eqb (Result t) "halted" then CHalted else CFail.

(** Passes and halts are not kept when only failures are wanted. *)
Definition kept (failOnly : bool) (t : TestResult) : bool :=
  match class t with CPass | CHalted => negb failOnly | _ => true end.

Definition tally (failOnly : bool) (s : SuiteResult) (t : TestResult) : SuiteResult :=
  let one (c : Class) : Z := if decide (class t = c) then 1 else 0 in
  mkSuite (Tests s ++ if kept failOnly t then [t] else []) (Pass s + one CPass) (Fail s + one CFail) (Inconclusive s + one CInconclusive)
    (Halted s + one CHalted) (Matched s) (Crash s) (Aborted s) (Diagnostics s).

Definition cancelled (w : World) : bool := dead w || shutdownFailed (host w).2.

(** One run of a test: the suite, the number of runs from now on, and whether they end. *)
Definition attempt (cfg : RunConfig) (name : string) (run testRuns : Z) (s : SuiteResult) (w : World) : option (SuiteResult * World * Z * bool) :=
  if cancelled w then Some (add_aborted 1 s, w, testRuns, true)
  else
    let seed := default run (cfgSeed cfg) in
    match runTestFanout name (set_run seed run w) with
    | None => None
    | Some (ts, skipped, w) =>
        let s := add_aborted skipped s in
        let ts := set_seed seed <$> ts in
        let s := foldl (note_crash name) s ts in
        let testRuns := if String.eqb (ExploreMode cfg) "all" && (Runs cfg <=? 0) && (run =? 0) && (0 <? exploreHeldN w)
                        then HoldQueue.Permutation.Factorial (exploreHeldN w) else testRuns in
        let s := foldl (tally (FailOnly cfg)) s ts in
        Some (s, w, testRuns, (1 <? testRuns) && existsb (fun t => bool_decide (class t = CFail)) ts)
    end.

Fixpoint more_runs (cfg : RunConfig) (name : string) (rest : nat) (run testRuns : Z) (s : SuiteResult) (w : World) : option (SuiteResult * World) :=
  match rest with
  | O => Some (s, w)
  | S rest =>
      match attempt cfg name run testRuns s w with
      | None => None
      | Some (s, w, _, true) => Some (s, w)
      | Some (s, w, _, false) => more_runs cfg name rest (run + 1) testRuns s w
      end
  end.

(** The loop over the runs, of which there is at least one. *)
Definition run_test (cfg : RunConfig) (name : string) (s : SuiteResult) (w : World) : option (SuiteResult * World) :=
  match attempt cfg name 0 (if Runs cfg <=? 0 then 1 else Runs cfg) s w with
  | None => None
  | Some (s, w, _, true) => Some (s, w)
  | Some (s, w, testRuns, false) => more_runs cfg name (Z.to_nat (testRuns - 1)) 1 testRuns s w
  end.

Fixpoint run_tests (cfg : RunConfig) (names : list string) (s : SuiteResult) (w : World) : option (SuiteResult * World) :=
  match names with
  | [] => Some (s, w)
  | name :: names =>
      if negb (String.eqb (Filter cfg) "") && negb (matchTestFilter name (Filter cfg) matrixBases) then run_tests cfg names s w
      else
        let s := add_matched s in
        if cancelled w then run_tests cfg names (add_aborted 1 s) w
        else match run_test cfg name s w with
             | None => None
             | Some (s, w) => run_tests cfg names s w
             end
  end.

(** Whether there is a network to remove. *)
Context (networked : bool).

Local Abbreviation phase := (shutdownPhase now outcome shutdownTimeout).

Definition undocked (h : @Host G) : Host :=
  mkHost (h_order h) (containerIDs h) false (cleanups h) (wire h) (shapersActive h) (phases h) (shutdownFailed h).

Definition cleanup (w : World) : World :=
  let h := stopReusedServices now outcome shutdownTimeout (host w) in
  set_host (if docker h.2 then
              let h := if networked then phase "" "docker_network_remove" (fun h => h) h else h in (h.1, undocked h.2)
            else h) w.

(** The last kept result takes the errors of the last cleanup. *)
Definition blame_cleanup (w : World) (s : SuiteResult) : SuiteResult :=
  match last (Tests s) with
  | Some t =>
      if shutdownFailed (host w).2 then
        let t' := enforceShutdownErrors (set_events (logged w) t) in
        let tests := take (length (Tests s) - 1) (Tests s) ++ [t'] in
        if negb (String.eqb (Result t) "fail") && String.eqb (Result t') "fail" then
          mkSuite tests (if String.eqb (Result t) "pass" then Pass s - 1 else Pass s) (Fail s + 1)
            (if String.eqb (Result t) "inconclusive" then Inconclusive s - 1 else Inconclusive s) (Halted s) (Matched s) (Crash s) (Aborted s) (Diagnostics s)
        else mkSuite tests (Pass s) (Fail s) (Inconclusive s) (Halted s) (Matched s) (Crash s) (Aborted s) (Diagnostics s)
      else s
  | None => s
  end.

Definition override (o : option bool) (d : Det) : Det := mkDet (detLevel d) (detRuntimeName d) (detStrict d) (detAllow d) (detExplicit d) o.

Definition RunAll (cfg : RunConfig) (w : World) : option (SuiteResult * World) :=
  match run_tests cfg (Discovery.DiscoverTests spec).1 no_suite (set_det (override (StrictDeterminism cfg) (det w)) w) with
  | None => None
  | Some (s, w) =>
      let s := add_diagnostics (Vacuity.suiteDiagnostics (vacuity w)) s in
      let w := cleanup w in Some (blame_cleanup w s, w)
  end.

Definition Close (w : World) : World := set_host (phase "" "packet_gateway_close" (close_gateway monitor now) (host w)) w.

Definition exitCode (filter : string) (s : SuiteResult) : Z :=
  if negb (String.eqb filter "") && (Matched s =? 0) then 1
  else if 0 <? Fail s then 2
  else if 0 <? Inconclusive s then 3 else 0.

(** The command on a loaded specification, when its outputs can be written. *)
Definition testStarCmd (cfg : RunConfig) (w : World) : option Z :=
  match RunAll cfg w with
  | None => None
  | Some (s, w) => Some (if shutdownFailed (host (Close w)).2 then 1 else exitCode (Filter cfg) s)
  end.

(** ** The scenario of a result *)

Lemma runner_clears fs r : currentFaultScenario (makeFaultScenarioRunner monitor now start call iter fs r).2 = None.
Proof.
  unfold makeFaultScenarioRunner, Effect.bind at 1. cbn [Effect.modify fst snd]. unfold Effect.deferring at 1.
  match goal with |- context [let '(_, _) := ?m in _] => by destruct m end.
Qed.

Lemma judge_matrix name tw e w : currentFaultScenario (rt w) = None -> Matrix (judge name tw e w).1 = None.
Proof.
  intros Hc. unfold judge. fold (ended w). assert (Hm : matrixInfo (ended w) = None) by (unfold matrixInfo; change (rt (ended w)) with (set_log (log (rt w)) (rt w)); cbn; by rewrite Hc).
  rewrite Hm. destruct (supervisorFailure _); [done|]. destruct (e_err e); [destruct (counts _)|]; try done;
    (destruct (defect _ _) as [[? ?]|]; [done|]); by destruct (temporal_verdict _ _ _ _ _ _).
Qed.

Lemma enforced_matrix b t : Matrix (enforceFaults b (enforceShutdownErrors (enforceMockErrors t))) = Matrix t.
Proof.
  unfold enforceFaults, enforceShutdownErrors, enforceMockErrors. destruct (first_diagnostic _) as [[? ?]|]; [destruct (_ && _)|];
    destruct (List.find _ _); destruct (protocolFaultDiagnostics _); try done; destruct (String.eqb _ _); try done; by destruct b.
Qed.

(** C34: the cell of a fault matrix is not in the result of its test: the runner of a scenario clears
    the scenario it had noted when it returns, and the result is made after it returned, so every
    result of a scenario whose body was run to its end has no matrix. *)
Theorem matrix_not_recorded name leaf w fs e w' : bindings !! name = Some (RFault fs) -> reaches name (set_currentLeaf leaf w) e w' ->
  Matrix (RunTestLeaf name leaf w).1 = None.
Proof.
  intros Hb R. unfold RunTestLeaf. destruct (implementation name (set_currentLeaf leaf w)) as [(e1 & w1 & R1 & Et & _)|[N _]]; [|by destruct (N e w')].
  destruct (runTestImpl name _) as [t w2]. cbn [fst snd] in Et.
  assert (Hm : Matrix (set_assertions (Vacuity.assertionCount name (vacuity w2)) (enforceFaults (requireFaultsFire (rt w2)) (enforceShutdownErrors (enforceMockErrors t)))) = None).
  { cbn [Matrix set_assertions]. rewrite enforced_matrix, Et. apply judge_matrix. inversion R1 as [fn ? ? ? w3 ? ? _ A _ _ _ _ _ _ B]. rewrite Hb in A. simplify_eq.
    unfold run_body in B. pose proof (runner_clears fs (rt (set_temporal (Temporal.signalLifecycleAnchor "body_start" (temporal w3)) w3))) as Hc.
    destruct (makeFaultScenarioRunner _ _ _ _ _ _ _) as [r rt']. cbn [snd] in Hc. destruct (expects _) as [[[os reg] a] tf]. destruct (waits _) as [arm first].
    injection B as <- <-. exact Hc. }
  destruct leaf; exact Hm.
Qed.

(** ** The counts of a suite *)

Definition count (c : Class) (ts : list TestResult) : Z := Z.of_nat (length (filter (fun t => class t = c) ts)).

Definition selected (cfg : RunConfig) (names : list string) : list string :=
  List.filter (fun n => String.eqb (Filter cfg) "" || matchTestFilter n (Filter cfg) matrixBases) names.

Record tallied (failOnly : bool) (s : SuiteResult) : Prop := {
  ta_fail : Fail s = count CFail (Tests s); ta_inconclusive : Inconclusive s = count CInconclusive (Tests s);
  ta_pass : failOnly = false -> Pass s = count CPass (Tests s); ta_halted : failOnly = false -> Halted s = count CHalted (Tests s);
  ta_aborted : 0 <= Aborted s }.

Lemma class_count_app c ts ts' : count c (ts ++ ts') = count c ts + count c ts'.
Proof. unfold count. rewrite filter_app, length_app. lia. Qed.

Lemma count_one c t : count c [t] = if decide (class t = c) then 1 else 0.
Proof. unfold count. rewrite filter_cons, filter_nil. by destruct (decide _). Qed.

Lemma tally_tallied failOnly s t : tallied failOnly s -> tallied failOnly (tally failOnly s t).
Proof.
  intros [H1 H2 H3 H4 H5]. assert (K : kept failOnly t = true -> forall c, count c (Tests s ++ [t]) = count c (Tests s) + if decide (class t = c) then 1 else 0)
    by (intros _ c; by rewrite class_count_app, count_one).
  unfold tally, kept in *. destruct (class t) eqn:E; destruct failOnly; split; cbn [Tests Pass Fail Inconclusive Halted Aborted]; intros; try done;
    rewrite ?K, ?app_nil_r by done; cbn; rewrite ?H3, ?H4 by done; repeat case_decide; try done; lia.
Qed.

Lemma crash_same name ts s : let s' := foldl (note_crash name) s ts in
  Tests s' = Tests s /\ Pass s' = Pass s /\ Fail s' = Fail s /\ Inconclusive s' = Inconclusive s /\ Halted s' = Halted s /\ Matched s' = Matched s /\ Aborted s' = Aborted s.
Proof.
  revert s. induction ts as [|t ts IH]; intros s; [by split_and!|]. cbn [foldl]. cbv zeta. destruct (IH (note_crash name s t)) as (-> & -> & -> & -> & -> & -> & ->).
  unfold note_crash. destruct (Crash s); [by split_and!|]. by destruct (_ && _).
Qed.

(** What running tests adds to a suite. *)
Record adds (cfg : RunConfig) (names : list string) (s s' : SuiteResult) : Prop := {
  ad_tallied : tallied (FailOnly cfg) s -> tallied (FailOnly cfg) s';
  ad_matched : Matched s' = Matched s; ad_aborted : Aborted s <= Aborted s';
  ad_tests : exists ts, Tests s' = Tests s ++ ts /\ Forall (fun t => Name t ∈ names) ts }.

Lemma suite_refl cfg names s : adds cfg names s s.
Proof. split; [done..|]. exists []. by rewrite app_nil_r. Qed.

Lemma suite_trans cfg names s1 s2 s3 : adds cfg names s1 s2 -> adds cfg names s2 s3 -> adds cfg names s1 s3.
Proof.
  intros [? ? ? (ts & E & F)] [? ? ? (ts' & E' & F')]. split; [auto|congruence|lia|]. exists (ts ++ ts'). rewrite E', E, app_assoc. split; [done|]. by apply Forall_app.
Qed.

Lemma tally_adds cfg names ts s : Forall (fun t => Name t ∈ names) ts -> adds cfg names s (foldl (tally (FailOnly cfg)) s ts).
Proof.
  revert s. induction ts as [|t ts IH]; intros s F; [apply suite_refl|]. apply Forall_cons in F as [F1 F2]. cbn [foldl]. eapply suite_trans; [|by apply IH].
  split; [apply tally_tallied|done|done|]. exists (if kept (FailOnly cfg) t then [t] else []). split; [done|]. destruct (kept _ t); [by apply Forall_singleton|done].
Qed.

Lemma crash_adds cfg names name ts s : adds cfg names s (foldl (note_crash name) s ts).
Proof.
  destruct (crash_same name ts s) as (E1 & E2 & E3 & E4 & E5 & E6 & E7). split; [|done|by rewrite E7|exists []; by rewrite app_nil_r].
  intros [H1 H2 H3 H4 H5]. split; by rewrite ?E1, ?E2, ?E3, ?E4, ?E5, ?E7.
Qed.

Lemma aborted_adds cfg names n s : 0 <= n -> adds cfg names s (add_aborted n s).
Proof. intros Hn. split; [|done|cbn; lia|exists []; by rewrite app_nil_r]. intros [H1 H2 H3 H4 H5]. split; [done..|]. cbn. lia. Qed.

(** *** Results have the name of their test *)

Lemma judge_name name tw e w : Name (judge name tw e w).1 = name.
Proof.
  unfold judge. destruct (supervisorFailure _); [done|].
  assert (Hb : forall err cause violated evs, Name (body_verdict name err cause violated evs) = name) by (by intros [] []).
  assert (Ht : forall cause b evs w, Name (temporal_verdict name tw cause b evs w).1 = name).
  { intros. unfold temporal_verdict. destruct (Temporal.finalize_loop _ _ _ _ _ _) as [? [?|[]]]; [done..|]. by destruct (timed_out _). }
  destruct (e_err e); [destruct (counts _); [apply Hb|]|]; (destruct (defect _ _) as [[? ?]|]; [done|]);
    match goal with |- context [temporal_verdict _ _ ?c ?b ?v ?x] => specialize (Ht c b v x); by destruct (temporal_verdict name tw c b v x) end.
Qed.

Lemma impl_name name w : Name (runTestImpl name w).1 = name.
Proof.
  unfold runTestImpl. destruct (shutdownFailed _); [done|]. destruct (bindings !! name) as [[f|fs|]|]; try done;
    (destruct (validateTestMockState _ _); [done|]; destruct (launch _) as [[[? ?]|] w1]; [done|]; destruct (register_spec _) as [ids w2]; unfold run_started;
     destruct (run_setup _ _) as [[?|] w3]; [done|]; destruct (assume_verdict _ _) as [[? ?]|]; [done|];
     match goal with |- context [run_body ?fn ?x] => destruct (run_body fn x) as [e w4] end;
     match goal with |- context [judge name ?tw ?e ?x] => pose proof (judge_name name tw e x); by destruct (judge name tw e x) end).
Qed.

Lemma enforced_name b t : Name (enforceFaults b (enforceShutdownErrors (enforceMockErrors t))) = Name t.
Proof.
  unfold enforceFaults, enforceShutdownErrors, enforceMockErrors. destruct (first_diagnostic _) as [[? ?]|]; [destruct (_ && _)|];
    destruct (List.find _ _); destruct (protocolFaultDiagnostics _); try done; destruct (String.eqb _ _); try done; by destruct b.
Qed.

Lemma leaf_name name leaf w : Name (RunTestLeaf name leaf w).1 = name.
Proof.
  unfold RunTestLeaf. pose proof (impl_name name (set_currentLeaf leaf w)) as Hn. destruct (runTestImpl name _) as [t w1]. cbn [fst] in Hn.
  destruct leaf; cbn [fst Name set_leaf set_assertions]; by rewrite enforced_name.
Qed.

Lemma leaves_named name leaves : forall w ts skipped w', fan_leaves name leaves w = (ts, skipped, w') -> Forall (fun t => Name t = name) ts /\ 0 <= skipped.
Proof.
  induction leaves as [|l leaves IH]; intros w ts skipped w'; cbn [fan_leaves]; [by intros [= <- <- _]|]. destruct (dead w).
  { intros [= <- <- _]. split; [done|]. lia. }
  pose proof (leaf_name name (Some l) (reset_body w)) as Hn. destruct (RunTestLeaf name (Some l) _) as [t w1]. destruct (fan_leaves name leaves w1) as [[ts' k] w2] eqn:E.
  intros [= <- <- _]. destruct (IH _ _ _ _ E). split; [by constructor|done].
Qed.

Lemma fanout_named name w ts skipped w' : runTestFanout name w = Some (ts, skipped, w') -> ts <> [] /\ Forall (fun t => Name t = name) ts /\ 0 <= skipped.
Proof.
  unfold runTestFanout. pose proof (leaf_name name (Some (Leaf.mkLeaf 0 ∅ ∅ true ∅)) (reset_body w)) as H0. destruct (RunTestLeaf name _ _) as [t0 w1].
  destruct (_ && _); [intros [= <- <- _]; split_and!; [done|by constructor|done]|].
  destruct (Leaf.enumerateLeaves _ _ _) as [[|l leaves]|]; [done| |done]. pose proof (leaf_name name (Some l) (reset_body w1)) as Hn.
  destruct (RunTestLeaf name (Some l) _) as [t w2]. destruct (fan_leaves name leaves w2) as [[ts' k] w3] eqn:E. intros [= <- <- _].
  destruct (leaves_named _ _ _ _ _ _ E). split_and!; [done|by constructor|done].
Qed.

(** *** Runs, tests and the suite *)

(** A test that ran is in the suite, when passes are kept. *)
Definition present (cfg : RunConfig) (name : string) (s s' : SuiteResult) : Prop :=
  Aborted s' = Aborted s -> FailOnly cfg = false -> exists t, t ∈ Tests s' /\ Name t = name.

Lemma tests_kept cfg names s s' t : adds cfg names s s' -> t ∈ Tests s -> t ∈ Tests s'.
Proof. intros [_ _ _ (ts & -> & _)] Ht. apply elem_of_app. by left. Qed.

Lemma all_kept ts s : Tests (foldl (tally false) s ts) = Tests s ++ ts.
Proof. revert s. induction ts as [|t ts IH]; intros s; cbn [foldl]; [by rewrite app_nil_r|]. rewrite IH. cbn. unfold kept. destruct (class t); by rewrite <- app_assoc. Qed.

Lemma attempt_adds cfg name run testRuns s w s' w' n stopped : attempt cfg name run testRuns s w = Some (s', w', n, stopped) ->
  adds cfg [name] s s' /\ present cfg name s s'.
Proof.
  unfold attempt. destruct (cancelled w).
  { intros [= <- _ _ _]. split; [by apply aborted_adds|]. unfold present. cbn. lia. }
  destruct (runTestFanout name _) as [[[ts skipped] w1]|] eqn:E; [|done]. destruct (fanout_named _ _ _ _ _ E) as (Hne & Hn & Hs).
  set (ts' := set_seed _ <$> ts). intros [= <- _ _ _].
  assert (Hn' : Forall (fun t => Name t ∈ [name]) ts') by (unfold ts'; apply Forall_fmap; eapply Forall_impl; [exact Hn|]; intros t Ht; cbn; rewrite Ht; by left).
  split.
  - eapply suite_trans; [by apply (aborted_adds cfg _ skipped)|]. eapply suite_trans; [apply crash_adds|]. by apply tally_adds.
  - intros _ Hf. rewrite Hf, all_kept. destruct ts as [|t ts]; [done|]. exists (set_seed (default run (cfgSeed cfg)) t). split; [|by apply Forall_cons in Hn as [? _]].
    apply elem_of_app. right. by left.
Qed.

Lemma more_adds cfg name rest : forall run testRuns s w s' w', more_runs cfg name rest run testRuns s w = Some (s', w') -> adds cfg [name] s s'.
Proof.
  induction rest as [|rest IH]; intros run testRuns s w s' w'; cbn [more_runs]; [intros [= <- _]; apply suite_refl|].
  destruct (attempt cfg name run testRuns s w) as [[[[s1 w1] n] []]|] eqn:E; [|intros Hm|done]; destruct (attempt_adds _ _ _ _ _ _ _ _ _ _ E) as [A _].
  - by intros [= <- _].
  - eapply suite_trans; [exact A|]. by eapply IH.
Qed.

Lemma test_adds cfg name s w s' w' : run_test cfg name s w = Some (s', w') -> adds cfg [name] s s' /\ present cfg name s s'.
Proof.
  unfold run_test. destruct (attempt cfg name 0 _ s w) as [[[[s1 w1] n] []]|] eqn:E; [|intros Hm|done]; destruct (attempt_adds _ _ _ _ _ _ _ _ _ _ E) as [A P].
  - by intros [= <- _].
  - pose proof (more_adds _ _ _ _ _ _ _ _ _ Hm) as B. split; [by eapply suite_trans|]. intros Ha Hf. pose proof (ad_aborted _ _ _ _ A). pose proof (ad_aborted _ _ _ _ B).
    destruct P as (t & Ht & Hn); [lia|done|]. exists t. split; [|done]. by eapply tests_kept.
Qed.

Lemma adds_names cfg names names' s s' : names ⊆ names' -> adds cfg names s s' -> adds cfg names' s s'.
Proof. intros Hi [? ? ? (ts & E & F)]. split; [done..|]. exists ts. split; [done|]. eapply Forall_impl; [exact F|]. cbn. auto. Qed.

Lemma matched_tallied failOnly s : tallied failOnly (add_matched s) <-> tallied failOnly s.
Proof. split; intros []; by split. Qed.

(** What the loop over the tests leaves. *)
Record ran (cfg : RunConfig) (names : list string) (s s' : SuiteResult) : Prop := {
  rn_tallied : tallied (FailOnly cfg) s -> tallied (FailOnly cfg) s';
  rn_matched : Matched s' = Matched s + Z.of_nat (length (selected cfg names)); rn_aborted : Aborted s <= Aborted s';
  rn_tests : exists ts, Tests s' = Tests s ++ ts /\ Forall (fun t => Name t ∈ selected cfg names) ts;
  rn_present : Aborted s' = Aborted s -> FailOnly cfg = false -> forall n, n ∈ selected cfg names -> exists t, t ∈ Tests s' /\ Name t = n }.

Lemma ran_skip cfg n names s s' : String.eqb (Filter cfg) "" || matchTestFilter n (Filter cfg) matrixBases = false -> ran cfg names s s' -> ran cfg (n :: names) s s'.
Proof. intros Hn [? ? ? ? ?]. assert (E : selected cfg (n :: names) = selected cfg names) by (unfold selected; cbn; by rewrite Hn). split; rewrite ?E; done. Qed.

Lemma ran_cons cfg n names s s1 s' : String.eqb (Filter cfg) "" || matchTestFilter n (Filter cfg) matrixBases = true ->
  adds cfg [n] (add_matched s) s1 -> present cfg n s s1 -> ran cfg names s1 s' -> ran cfg (n :: names) s s'.
Proof.
  intros Hn [A1 A2 A3 (ts & A4 & A5)] P [R1 R2 R3 (ts' & R4 & R5) R6]. assert (E : selected cfg (n :: names) = n :: selected cfg names) by (unfold selected; cbn; by rewrite Hn).
  cbn [Matched Aborted Tests add_matched] in *. split; rewrite ?E.
  - intros T. by apply R1, A1, matched_tallied.
  - cbn [length]. lia.
  - lia.
  - exists (ts ++ ts'). rewrite R4, A4, app_assoc. split; [done|]. apply Forall_app. split.
    + eapply Forall_impl; [exact A5|]. cbn. intros t ->%list_elem_of_singleton. by left.
    + eapply Forall_impl; [exact R5|]. cbn. intros t Ht. by right.
  - intros Ha Hf m [->|Hm]%elem_of_cons; [|apply R6; [lia|done..]]. destruct P as (t & Ht & Hnm); [lia|done|]. exists t. split; [|done]. rewrite R4. apply elem_of_app. by left.
Qed.

Lemma tests_ran cfg names : forall s w s' w', run_tests cfg names s w = Some (s', w') -> ran cfg names s s'.
Proof.
  induction names as [|n names IH]; intros s w s' w'; cbn [run_tests].
  { intros [= <- _]. split; [done|cbn; lia|done|exists []; by rewrite app_nil_r|]. intros _ _ n Hn. by apply elem_of_nil in Hn. }
  destruct (String.eqb (Filter cfg) "" || matchTestFilter n (Filter cfg) matrixBases) eqn:En.
  - assert (E : negb (String.eqb (Filter cfg) "") && negb (matchTestFilter n (Filter cfg) matrixBases) = false) by (by rewrite <- negb_orb, En).
    rewrite E. destruct (cancelled w).
    + intros R%IH. eapply ran_cons; [done|by apply (aborted_adds cfg [n] 1)| |exact R]. unfold present. cbn. lia.
    + destruct (run_test cfg n (add_matched s) w) as [[s1 w1]|] eqn:Et; [|done]. intros R%IH. destruct (test_adds _ _ _ _ _ _ Et) as [A P]. by eapply ran_cons.
  - assert (E : negb (String.eqb (Filter cfg) "") && negb (matchTestFilter n (Filter cfg) matrixBases) = true) by (by rewrite <- negb_orb, En).
    rewrite E. intros R%IH. by apply ran_skip.
Qed.

Local Abbreviation tests := (Discovery.DiscoverTests spec).1.

Lemma suite_ran cfg w s w' : RunAll cfg w = Some (s, w') -> shutdownFailed (host w').2 = false ->
  tallied (FailOnly cfg) s /\ Matched s = Z.of_nat (length (selected cfg tests)) /\ Forall (fun t => Name t ∈ selected cfg tests) (Tests s) /\
  (Aborted s = 0 -> FailOnly cfg = false -> forall n, n ∈ selected cfg tests -> exists t, t ∈ Tests s /\ Name t = n).
Proof.
  unfold RunAll. destruct (run_tests cfg tests no_suite _) as [[s0 w0]|] eqn:E; [|done]. intros [= <- <-] Hf. apply tests_ran in E as [R1 R2 R3 (ts & R4 & R5) R6].
  assert (Eb : blame_cleanup (cleanup w0) (add_diagnostics (Vacuity.suiteDiagnostics (vacuity w0)) s0) = add_diagnostics (Vacuity.suiteDiagnostics (vacuity w0)) s0)
    by (unfold blame_cleanup; rewrite Hf; by destruct (last _)).
  rewrite Eb. cbn [Matched Tests Aborted add_diagnostics]. assert (T : tallied (FailOnly cfg) s0) by (apply R1; by split). split_and!.
  - destruct T. by split.
  - rewrite R2. done.
  - by rewrite R4.
  - intros Ha. by apply R6.
Qed.

(** C13: when no teardown failed, a suite accounts for its tests: the counts of failures and of
    inconclusive results are those of the results it lists, so are those of passes and halts unless
    only failures are kept, the tests matched are those the filter selects, every result is of one
    of them, and if nothing was left out every one of them has a result. *)
Theorem suite_accounts cfg w s w' : RunAll cfg w = Some (s, w') -> shutdownFailed (host w').2 = false ->
  Fail s = count CFail (Tests s) /\ Inconclusive s = count CInconclusive (Tests s) /\
  (FailOnly cfg = false -> Pass s = count CPass (Tests s) /\ Halted s = count CHalted (Tests s) /\
     Pass s + Fail s + Inconclusive s + Halted s = Z.of_nat (length (Tests s))) /\
  Matched s = Z.of_nat (length (selected cfg tests)) /\ Forall (fun t => Name t ∈ selected cfg tests) (Tests s) /\
  (Aborted s = 0 -> FailOnly cfg = false -> forall n, n ∈ selected cfg tests -> exists t, t ∈ Tests s /\ Name t = n).
Proof.
  intros Hr Hf. destruct (suite_ran _ _ _ _ Hr Hf) as ([H1 H2 H3 H4 _] & Hm & Hn & Hp). split_and!; [done..| |done|done|done].
  intros Ho. rewrite H1, H2, H3, H4 by done. split_and!; [done..|]. clear. induction (Tests s) as [|t ts IH]; [done|].
  change (t :: ts) with ([t] ++ ts). rewrite !class_count_app, !count_one, length_app, Nat2Z.inj_add, <- IH. cbn [length]. destruct (class t); repeat case_decide; try done; lia.
Qed.

Lemma count_zero c ts : count c ts = 0 <-> Forall (fun t => class t <> c) ts.
Proof.
  induction ts as [|t ts IH]; [done|]. change (t :: ts) with ([t] ++ ts). rewrite class_count_app, count_one, Forall_app, Forall_singleton, <- IH.
  assert (0 <= count c ts) by (unfold count; lia). destruct (decide (class t = c)); split; [lia|by intros []|intros; split; [done|lia]|intros []; lia].
Qed.

Lemma phase_failed service ph f (h : @St V G) : shutdownFailed (phase service ph f h).2 = false -> shutdownFailed (f h).2 = false.
Proof. unfold shutdownPhase. destruct (outcome service ph) as [[[] ?]|]; cbn; [by rewrite orb_true_r..|by rewrite orb_false_r]. Qed.

Lemma class_good t : class t <> CFail /\ class t <> CInconclusive <-> Result t = "pass" \/ Result t = "halted".
Proof.
  unfold class. destruct (String.eqb_spec (Result t) "pass"); [by intuition|]. destruct (String.eqb_spec (Result t) "inconclusive") as [->|]; [by intuition|].
  destruct (String.eqb_spec (Result t) "halted"); by intuition.
Qed.

(** C28: the command exits with zero exactly when the suite ran, no teardown failed, the filter
    selected a test and every result is a pass or a halt; tests left out by an interrupt do not count
    against it. *)
Theorem exit_zero_exact cfg w : testStarCmd cfg w = Some 0 <-> exists s w', RunAll cfg w = Some (s, w') /\ shutdownFailed (host (Close w')).2 = false /\
  (Filter cfg = "" \/ selected cfg tests <> []) /\ Forall (fun t => Result t = "pass" \/ Result t = "halted") (Tests s).
Proof.
  unfold testStarCmd. destruct (RunAll cfg w) as [[s w']|] eqn:E; [|split; [done|]; by intros (? & ? & ? & _)].
  transitivity (shutdownFailed (host (Close w')).2 = false /\ (Filter cfg = "" \/ selected cfg tests <> []) /\ Forall (fun t => Result t = "pass" \/ Result t = "halted") (Tests s));
    [|split; [by intros ?; exists s, w'|]; by intros (? & ? & [= <- <-] & ?)].
  destruct (shutdownFailed (host (Close w')).2) eqn:Ef; [split; [done|]; by intros [? _]|].
  assert (Hf : shutdownFailed (host w').2 = false) by exact (phase_failed _ _ _ _ Ef). destruct (suite_ran _ _ _ _ E Hf) as ([H1 H2 _ _ _] & Hm & _ & _).
  assert (Hg : Forall (fun t => Result t = "pass" \/ Result t = "halted") (Tests s) <-> Fail s = 0 /\ Inconclusive s = 0).
  { rewrite H1, H2, !count_zero, <- Forall_and. split; intros F; (eapply Forall_impl; [exact F|]); intros t; cbn; by rewrite class_good. }
  rewrite Hg. assert (Hs : (Filter cfg = "" \/ selected cfg tests <> []) <-> negb (String.eqb (Filter cfg) "") && (Matched s =? 0) = false).
  { rewrite Hm. destruct (String.eqb_spec (Filter cfg) "") as [Q|Q]; cbn [negb andb]; [split; [done|by left]|].
    destruct (selected cfg tests) as [|x l]; [split; [by intros [?|?]|done]|]. split; [done|by right]. }
  rewrite Hs. assert (0 <= Fail s /\ 0 <= Inconclusive s) as [? ?] by (rewrite H1, H2; unfold count; lia). unfold exitCode.
  destruct (_ && _); [split; [done|]; by intros (_ & ? & _)|]. destruct (Z.ltb_spec 0 (Fail s)); [split; [done|]; intros (_ & _ & ? & _); lia|].
  destruct (Z.ltb_spec 0 (Inconclusive s)); [split; [done|]; intros (_ & _ & _ & ?); lia|]. split; [|done]. intros _. split_and!; [done..|lia|lia].
Qed.

End Run.
End Verdict.

(** ** Runs of small suites *)
Module VerdictExample.
Import Verdict InjectExample.

Local Abbreviation World := (Verdict.World (V := unit) (G := unit)).

Definition smoke : Callable := mkCallable "test_smoke" "function" 1.
Definition later : Callable := mkCallable "test_zz_later" "function" 2.
Definition cell : FaultScenarioDef := mkFaultScenario "matrix_order_down" (mkCallable "order" "function" 3) [] None [] 0 (Some (mkMatrix "order" "down")) false.
Definition spec : Spec.Runtime :=
  mkRuntime {["test_smoke" := RFunction smoke; "test_zz_later" := RFunction later]} [] ∅ {["matrix_order_down" := cell]} ∅ [] [] ∅.

Definition idle : RT unit :=
  mkRT {["db" := db]} ∅ ∅ [] (Manager.NewManager true) EventLog.NewEventLog (Subscribers.mkState [] 0) ∅ [] None false "" false (mkPackets "default" [] None ∅ 0 None 0 ∅ ∅).
Definition fresh : World :=
  mkWorld (idle, mkHost ["db"] ∅ false ∅ None false [] false) [] [] false false (mkDet "L1" "default" true ∅ false None) Vacuity.newVacuityState false None None [] [] 0 0 0 0.

Section Suite.
(** What the functions do, the errors of the teardown, and when the run is interrupted. *)
Context (perform : Callable -> World -> BodyEnd * World).
Context (outcome : string -> string -> option (bool * string)) (dead : World -> bool).

Definition waiting (w : World) := (objs w, alwaysFired w, twFired w).
Definition leaf_run := RunTestLeaf no_monitor clock listens answers in_order (fun _ => Ok "fbtun0") tt outcome 0 (fun m => (map_to_list m).*2) spec false
  (fun w => (None, w)) (fun _ w => (None, w)) perform (fun _ _ => Ok true) (fun w => (objs w, registered w, false, false)) (fun _ => (Temporal.ArmBody, false)) waiting
  (fun _ => Raises "error") (fun _ => "") (fun _ => "30s").
Definition suite_run := RunAll no_monitor clock listens answers in_order (fun _ => Ok "fbtun0") tt outcome 0 (fun m => (map_to_list m).*2) spec false
  (fun w => (None, w)) (fun _ w => (None, w)) perform (fun _ _ => Ok true) (fun w => (objs w, registered w, false, false)) (fun _ => (Temporal.ArmBody, false)) waiting
  (fun _ => Raises "error") (fun _ => "") (fun _ => "30s") dead (fun _ => None) false.
Definition command := testStarCmd no_monitor clock listens answers in_order (fun _ => Ok "fbtun0") tt outcome 0 (fun m => (map_to_list m).*2) spec false
  (fun w => (None, w)) (fun _ w => (None, w)) perform (fun _ _ => Ok true) (fun w => (objs w, registered w, false, false)) (fun _ => (Temporal.ArmBody, false)) waiting
  (fun _ => Raises "error") (fun _ => "") (fun _ => "30s") dead (fun _ => None) false.

End Suite.

Definition returns (_ : Callable) (w : World) : BodyEnd * World := (mkEnd Temporal.ArmBody false None, w).
Definition no_failure (_ _ : string) : option (bool * string) := None.
Definition never {A} (_ : A) : bool := false.
Definition everything : RunConfig := mkRun "" None 0 false "" None.

Lemma pass_exact_witness : exists e w',
  reaches no_monitor clock listens answers in_order (fun _ => Ok "fbtun0") spec false (fun w => (None, w)) (fun _ w => (None, w)) returns (fun _ _ => Ok true)
    (fun w => (objs w, registered w, false, false)) (fun _ => (Temporal.ArmBody, false)) (fun _ => Raises "error") "test_smoke" (set_currentLeaf None fresh) e w' /\
  clean no_monitor clock in_order tt no_failure 0 (fun m => (map_to_list m).*2) waiting (fun _ => "") (snd <$> (testConfigs spec !! "test_smoke" ≫= tc_terminate)) e w'.
Proof.
  apply (pass_exact no_monitor clock listens answers in_order (fun _ => Ok "fbtun0") tt no_failure 0 (fun m => (map_to_list m).*2) spec false
    (fun w => (None, w)) (fun _ w => (None, w)) returns (fun _ _ => Ok true) (fun w => (objs w, registered w, false, false)) (fun _ => (Temporal.ArmBody, false)) waiting
    (fun _ => Raises "error") (fun _ => "") (fun _ => "30s") in_order_perm "test_smoke" None fresh).
  vm_compute. reflexivity.
Defined.

Lemma suite_accounts_witness : exists s w', suite_run returns no_failure never everything fresh = Some (s, w') /\
  Pass s + Fail s + Inconclusive s + Halted s = Z.of_nat (length (Tests s)) /\ Pass s = 3.
Proof.
  destruct (suite_run returns no_failure never everything fresh) as [[s w']|] eqn:E; [|exfalso; revert E; vm_compute; discriminate].
  assert (E' : (fun p => (shutdownFailed (host p.2).2, Pass p.1)) <$> suite_run returns no_failure never everything fresh = Some (false, 3)) by (vm_compute; reflexivity).
  rewrite E in E'. cbn in E'. injection E' as Ef Ep. exists s, w'. split; [done|]. split; [|done].
  apply (suite_accounts no_monitor clock listens answers in_order (fun _ => Ok "fbtun0") tt no_failure 0 (fun m => (map_to_list m).*2) spec false
    (fun w => (None, w)) (fun _ w => (None, w)) returns (fun _ _ => Ok true) (fun w => (objs w, registered w, false, false)) (fun _ => (Temporal.ArmBody, false)) waiting
    (fun _ => Raises "error") (fun _ => "") (fun _ => "30s") never (fun _ => None) false everything fresh s w' E Ef). reflexivity.
Defined.

(** The run of the scenario of a matrix. *)
Lemma matrix_not_recorded_witness : Matrix (leaf_run returns no_failure "test_matrix_order_down" None fresh).1 = None /\ Result (leaf_run returns no_failure "test_matrix_order_down" None fresh).1 = "pass".
Proof.
  assert (P : Result (leaf_run returns no_failure "test_matrix_order_down" None fresh).1 = "pass") by (vm_compute; reflexivity). split; [|exact P].
  apply pass_reaches in P as (e & w' & R).
  eapply (matrix_not_recorded no_monitor clock listens answers in_order (fun _ => Ok "fbtun0") tt no_failure 0 (fun m => (map_to_list m).*2) spec false
    (fun w => (None, w)) (fun _ w => (None, w)) returns (fun _ _ => Ok true) (fun w => (objs w, registered w, false, false)) (fun _ => (Temporal.ArmBody, false)) waiting
    (fun _ => Raises "error") (fun _ => "") (fun _ => "30s")); [|exact R]. vm_compute. reflexivity.
Defined.

(** An assertion that fails after [terminate_when=] fired does not fail the test. *)
Example terminate_when_hides_failure :
  let body (_ : Callable) w := (mkEnd Temporal.ArmBody false (Some (Raises "assert_eq failed")), set_temporal (Temporal.mkRt (objs w) (registered w) (log (rt w)) false true) w) in
  Result (leaf_run body no_failure "test_smoke" None fresh).1 = "pass".
Proof. vm_compute. reflexivity. Qed.

(** A predicate that raised in an earlier test fails this one. *)
Example old_predicate_fails_test :
  Result (leaf_run returns no_failure "test_smoke" None (set_rt (set_packets (recordWhereError "no such attribute" (packets idle)) idle) fresh)).1 = "fail".
Proof. vm_compute. reflexivity. Qed.

(** One test that ends in an error, and a cleanup that fails: two failures. *)
Example error_counted_twice :
  let body (_ : Callable) w := (mkEnd Temporal.ArmBody false (Some (GoPanic "panic: nil map")), w) in
  let failing (service phase : string) := if String.eqb service "db" then Some (false, "timeout") else None in
  (fun p => (Fail p.1, length (Tests p.1))) <$> suite_run body failing never (mkRun "smoke" None 0 false "" None) fresh = Some (2, 1%nat).
Proof. vm_compute. reflexivity. Qed.

(** An interrupt after the first test: two are not run, and the exit code is that of a good run. *)
Example interrupted_run_exits_zero :
  let stops w := (1 <=? ticks w)%nat in
  (fun p => (Pass p.1, Aborted p.1)) <$> suite_run returns no_failure stops everything fresh = Some (1, 2) /\
  command returns no_failure stops everything fresh = Some 0.
Proof. split; vm_compute; reflexivity. Qed.

End VerdictExample.
