(* ===== verification/ProcFs.v ===== *)
(** * The text of [/proc] ([internal/connowner/proc_linux.go])

    The readers of [/proc/<pid>/stat] and of the rows of [/proc/<pid>/net/tcp] and [tcp6], the addresses of
    [net/netip] they produce, and the addresses of accepted connections they are compared with
    ([internal/connowner/tracker.go], [address]). *)

From Stdlib Require Import ZArith Lia Ascii.
From S2P Require Import Prelude GoStd GoText.
From stdpp Require Import base gmap sets strings numbers list.
Local Open Scope Z_scope.
Import GoStd GoText.

Module ProcFs.

(** ** Numbers ([strconv.ParseUint], [encoding/hex]) *)

Fixpoint digits_in (base : Z) (acc : Z) (s : string) : option Z :=
  match s with
  | EmptyString => Some acc
  | String c r =>
      match hex_value c with
      | Some d => if d <? base then digits_in base (base * acc + d) r else None
      | None => None
      end
  end.

(** [strconv.ParseUint(s, base, bits)] for base 10 or 16. *)
Definition ParseUint (base bits : Z) (s : string) : option Z :=
  match s with
  | EmptyString => None
  | _ => match digits_in base 0 s with
         | Some n => if n <? 2 ^ bits then Some n else None
         | None => None
         end
  end.

Fixpoint DecodeString (s : string) : option string :=
  match s with
  | EmptyString => Some EmptyString
  | String a (String b r) =>
      match hex_value a, hex_value b, DecodeString r with
      | Some x, Some y, Some bs => Some (String (byte_of (16 * x + y)) bs)
      | _, _, _ => None
      end
  | String _ EmptyString => None
  end.

(** ** Addresses ([net/netip]) *)

(** The bytes of an address: four, or sixteen. *)
Inductive Addr := Addr4 (b : string) | Addr6 (b : string).

#[export] Instance Addr_eq_dec : EqDecision Addr.
Proof. solve_decision. Defined.

#[export] Instance Addr_countable : Countable Addr.
Proof.
  refine (inj_countable' (fun a => match a with Addr4 b => inl b | Addr6 b => inr b end)
            (fun x => match x with inl b => Addr4 b | inr b => Addr6 b end) _).
  by intros [].
Defined.

Definition AddrFromSlice (b : string) : option Addr :=
  if (slen b =? 4)%nat then Some (Addr4 b) else if (slen b =? 16)%nat then Some (Addr6 b) else None.

Definition mapped_prefix : string := put_be 12 65535.

(** [Unmap]: an IPv4-mapped address becomes the IPv4 address. *)
Definition Unmap (a : Addr) : Addr :=
  match a with
  | Addr6 b => if has_prefix mapped_prefix b then Addr4 (sdrop 12 b) else a
  | Addr4 _ => a
  end.

Definition nth_byte (i : nat) (b : string) : Z := match sget i b with Some c => bval c | None => 0 end.
Definition v6u16 (b : string) : Z := 256 * nth_byte 0 b + nth_byte 1 b.

Definition IsLinkLocalUnicast (a : Addr) : bool :=
  match Unmap a with
  | Addr4 b => (nth_byte 0 b =? 169) && (nth_byte 1 b =? 254)
  | Addr6 b => Z.land (v6u16 b) 0xffc0 =? 0xfe80
  end.

Definition IsLinkLocalMulticast (a : Addr) : bool :=
  match Unmap a with
  | Addr4 b => (nth_byte 0 b =? 224) && (nth_byte 1 b =? 0) && (nth_byte 2 b =? 0)
  | Addr6 b => Z.land (v6u16 b) 0xff0f =? 0xff02
  end.

Definition link_local (a : Addr) : bool := IsLinkLocalUnicast a || IsLinkLocalMulticast a.

Record endpoint := mkEndpoint { addr : Addr; port : Z }.
Record tuple := mkTuple { from : endpoint; to : endpoint }.

#[export] Instance endpoint_eq_dec : EqDecision endpoint.
Proof. solve_decision. Defined.
#[export] Instance tuple_eq_dec : EqDecision tuple.
Proof. solve_decision. Defined.

#[export] Instance tuple_countable : Countable tuple.
Proof.
  refine (inj_countable' (fun t => ((addr (from t), port (from t)), (addr (to t), port (to t))))
            (fun x => mkTuple (mkEndpoint x.1.1 x.1.2) (mkEndpoint x.2.1 x.2.2)) _).
  by intros [[] []].
Defined.

(** The addresses of a connection: TCP addresses, or those of another network. *)
Inductive NetAddr := TCPAddr (ip : string) (p : Z) | OtherAddr.

Definition address (a : NetAddr) : option endpoint :=
  match a with
  | TCPAddr ip p =>
      match AddrFromSlice ip with
      | None => None
      | Some a =>
          if (p <=? 0) || (65535 <? p) then None
          else if link_local a then None
          else Some (mkEndpoint (Unmap a) (u16 p))
      end
  | OtherAddr => None
  end.

Definition connectionTuple (f t : NetAddr) : option tuple :=
  match address f, address t with Some src, Some dst => Some (mkTuple src dst) | _, _ => None end.

(** ** Rows of the connection tables *)

Inductive ByteOrder := LittleEndian | BigEndian.

Definition Uint32 (o : ByteOrder) (b : string) : Z :=
  match o with LittleEndian => le 4 b | BigEndian => be 4 b end.

(** The loop over the four-byte words of [raw]. *)
Fixpoint swap_words (o : ByteOrder) (n : nat) (raw : string) : string :=
  match n with
  | O => EmptyString
  | S n => put_be 4 (Uint32 o (stake 4 raw)) +:+ swap_words o n (sdrop 4 raw)
  end.

Definition parseProcEndpoint (value : string) (o : ByteOrder) : option endpoint :=
  match scut ":" value with
  | None => None
  | Some (host, portText) =>
      if negb (slen host =? 8)%nat && negb (slen host =? 32)%nat then None
      else
        match DecodeString host with
        | None => None
        | Some raw =>
            let raw := swap_words o (slen raw / 4) raw in
            match ParseUint 16 16 portText with
            | None => None
            | Some p =>
                if p =? 0 then None
                else
                  match AddrFromSlice raw with
                  | None => None
                  | Some ip => if link_local ip then None else Some (mkEndpoint (Unmap ip) (u16 p))
                  end
            end
        end
  end.

(** [None] when the row is not one of an open connection with an inode. *)
Definition parseTCPRow (line : string) (o : ByteOrder) : option (tuple * Z) :=
  let f := fields line in
  match f !! 1%nat, f !! 2%nat, f !! 3%nat, f !! 9%nat with
  | Some f1, Some f2, Some f3, Some f9 =>
      if String.eqb f3 "0A" || String.eqb f3 "06" then None
      else
        match parseProcEndpoint f1 o, parseProcEndpoint f2 o, ParseUint 10 64 f9 with
        | Some from, Some to, Some inode => if 0 <? inode then Some (mkTuple from to, inode) else None
        | _, _, _ => None
        end
  | _, _, _, _ => None
  end.

(** ** The status line of a process *)

Record process := mkProcess { pid : Z; parent : Z; start : Z }.

#[export] Instance process_eq_dec : EqDecision process.
Proof. solve_decision. Defined.

Inductive stat_error := InvalidStat | InvalidPID | IncompleteStat | ProcessGone | InvalidParent | InvalidStart.

Definition parseProcessStat (data : string) : result stat_error process :=
  match scut "(" data with
  | None => Err InvalidStat
  | Some (head, rest) =>
      if String.eqb head "" then Err InvalidStat
      else
        match scut_last ")" rest with
        | None => Err InvalidStat
        | Some (_, tail) =>
            match atoi (trim_space head) with
            | None => Err InvalidPID
            | Some p =>
                if p <=? 0 then Err InvalidPID
                else
                  match fields tail with
                  | f0 :: f1 :: fs =>
                      match fs !! 17%nat with
                      | None => Err IncompleteStat
                      | Some f19 =>
                          if String.eqb f0 "Z" || String.eqb f0 "X" then Err ProcessGone
                          else
                            match atoi f1 with
                            | None => Err InvalidParent
                            | Some pp =>
                                match ParseUint 10 64 f19 with
                                | None => Err InvalidStart
                                | Some st => Ok (mkProcess p pp st)
                                end
                            end
                      end
                  | _ => Err IncompleteStat
                  end
            end
        end
  end.

Ltac dlia := Z.to_euclidean_division_equations; lia.

(** ** How the kernel prints

    [%08X] of each address word as the machine reads it, [%04X] of the port. *)

Definition hex_digit (d : Z) : ascii := byte_of (if d <? 10 then 48 + d else 55 + d).

Fixpoint show_hex (n : nat) (z : Z) : string :=
  match n with O => EmptyString | S n => show_hex n (z / 16) +:+ String (hex_digit (z mod 16)) EmptyString end.

Fixpoint show_words (o : ByteOrder) (n : nat) (b : string) : string :=
  match n with
  | O => EmptyString
  | S n => show_hex 8 (Uint32 o (stake 4 b)) +:+ show_words o n (sdrop 4 b)
  end.

Definition show_endpoint (o : ByteOrder) (b : string) (p : Z) : string :=
  show_words o (slen b / 4) b +:+ ":" +:+ show_hex 4 p.

Lemma hex_value_digit d : 0 <= d < 16 -> hex_value (hex_digit d) = Some d.
Proof.
  intros H. assert (d = 0 \/ d = 1 \/ d = 2 \/ d = 3 \/ d = 4 \/ d = 5 \/ d = 6 \/ d = 7 \/ d = 8 \/ d = 9 \/ d = 10 \/
    d = 11 \/ d = 12 \/ d = 13 \/ d = 14 \/ d = 15) as Hd by lia.
  by repeat (destruct Hd as [->|Hd]; [done|]); subst d.
Qed.

Lemma slen_show_hex n z : slen (show_hex n z) = n.
Proof. revert z. induction n as [|n IH]; intros z; [done|]. cbn [show_hex]. rewrite slen_app, IH. cbn. lia. Qed.

Lemma digits_in_app base acc a b n :
  digits_in base acc a = Some n -> digits_in base acc (a +:+ b) = digits_in base n b.
Proof.
  revert acc. induction a as [|c a IH]; intros acc; [by intros [= ->]|]. rewrite string_app_cons. cbn.
  destruct (hex_value c) as [d|]; [|done]. destruct (d <? base); [apply IH|done].
Qed.

Lemma digits_in_show_hex n z acc : 0 <= z < 16 ^ Z.of_nat n ->
  digits_in 16 acc (show_hex n z) = Some (acc * 16 ^ Z.of_nat n + z).
Proof.
  revert z. induction n as [|n IH]; intros z Hz.
  - change (16 ^ Z.of_nat 0) with 1 in *. cbn. f_equal. lia.
  - rewrite Nat2Z.inj_succ, Z.pow_succ_r in * by lia. cbn [show_hex].
    rewrite (digits_in_app _ _ _ _ _ (IH (z / 16) ltac:(dlia))). cbn.
    rewrite hex_value_digit by dlia. rewrite (proj2 (Z.ltb_lt _ _)) by dlia. f_equal. dlia.
Qed.

Lemma ParseUint_show_hex n z : (0 < n)%nat -> 0 <= z < 16 ^ Z.of_nat n ->
  ParseUint 16 (4 * Z.of_nat n) (show_hex n z) = Some z.
Proof.
  intros Hn Hz. unfold ParseUint. pose proof (slen_show_hex n z). destruct (show_hex n z) eqn:E; [cbn in *; lia|].
  rewrite <- E, digits_in_show_hex by done. rewrite Z.pow_mul_r by lia. change (2 ^ 4) with 16.
  rewrite (proj2 (Z.ltb_lt _ _)) by lia. done.
Qed.

Lemma decode_app a b x y : DecodeString a = Some x -> DecodeString b = Some y -> DecodeString (a +:+ b) = Some (x +:+ y).
Proof.
  intros Ha Hb. revert a x Ha. fix IH 1. intros [|c [|d a]] x; cbn; [by intros [= <-]|done|].
  rewrite !string_app_cons. cbn. specialize (IH a).
  destruct (hex_value c), (hex_value d), (DecodeString a) as [bs|]; try done.
  intros [= <-]. by rewrite (IH bs).
Qed.

(** Two digits for each byte. *)
Lemma decode_show_hex n z : 0 <= z < 256 ^ Z.of_nat n -> DecodeString (show_hex (2 * n) z) = Some (put_be n z).
Proof.
  revert z. induction n as [|n IH]; intros z Hz; [done|].
  rewrite Nat2Z.inj_succ, Z.pow_succ_r in Hz by lia.
  replace (2 * S n)%nat with (S (S (2 * n))) by lia. cbn [show_hex]. rewrite string_app_assoc, put_be_S.
  replace (z / 16 / 16) with (z / 256) by by rewrite Z.div_div.
  apply decode_app; [apply IH; dlia|]. rewrite string_app_cons. change ("" +:+ ?x) with x. cbn.
  rewrite !hex_value_digit by dlia. do 2 f_equal. unfold byte_of. do 2 f_equal. unfold u8, wrap_u. dlia.
Qed.

Lemma Uint32_range o b : 0 <= Uint32 o b < 256 ^ Z.of_nat 4.
Proof. destruct o; [apply le_range|apply be_range]. Qed.

Lemma decode_show_words o n b : DecodeString (show_words o n b) = Some (swap_words o n b).
Proof.
  revert b. induction n as [|n IH]; intros b; [done|]. cbn [show_words swap_words].
  apply decode_app; [|apply IH]. apply (decode_show_hex 4), Uint32_range.
Qed.

(** Reading a word in the machine's order and writing it in the network's, twice, gives the word back. *)
Lemma word_twice o w : slen w = 4%nat -> put_be 4 (Uint32 o (put_be 4 (Uint32 o w))) = w.
Proof.
  destruct w as [|a [|b [|c [|d [|? ?]]]]]; cbn [slen String.length]; try lia. intros _.
  pose proof (bval_range a). pose proof (bval_range b). pose proof (bval_range c). pose proof (bval_range d).
  assert (forall x y, x mod 256 = y mod 256 -> byte_of x = byte_of y) as Hmod.
  { intros x y E. unfold byte_of, u8, wrap_u. change (2 ^ 8) with 256. by rewrite E. }
  assert (forall v x y z t, v = 16777216 * x + 65536 * y + 256 * z + t ->
    0 <= x < 256 -> 0 <= y < 256 -> 0 <= z < 256 -> 0 <= t < 256 ->
    put_be 4 v = String (byte_of x) (String (byte_of y) (String (byte_of z) (String (byte_of t) "")))) as Hput.
  { intros v x y z t Hv Hx Hy Hz Ht. unfold put_be. cbn [put_be_acc].
    rewrite (Hmod v t), (Hmod (v / 256) z), (Hmod (v / 256 / 256) y), (Hmod (v / 256 / 256 / 256) x) by dlia. done. }
  assert (forall o x y z t, 0 <= x < 256 -> 0 <= y < 256 -> 0 <= z < 256 -> 0 <= t < 256 ->
    Uint32 o (String (byte_of x) (String (byte_of y) (String (byte_of z) (String (byte_of t) "")))) =
    match o with LittleEndian => 16777216 * t + 65536 * z + 256 * y + x | BigEndian => 16777216 * x + 65536 * y + 256 * z + t end)
    as Hget.
  { intros q x y z t Hx Hy Hz Ht. destruct q; unfold Uint32, le, be; cbn [stake le_value be_value];
      rewrite !bval_byte_of; unfold u8, wrap_u; rewrite !Z.mod_small by lia; lia. }
  rewrite <- (byte_of_bval a), <- (byte_of_bval b), <- (byte_of_bval c), <- (byte_of_bval d).
  rewrite Hget by done. destruct o.
  - rewrite (Hput (_ + bval a) (bval d) (bval c) (bval b) (bval a)) by done. rewrite Hget by done. by apply Hput.
  - rewrite (Hput (_ + bval d) (bval a) (bval b) (bval c) (bval d)) by done. rewrite Hget by done. by apply Hput.
Qed.

Lemma swap_words_twice o n b : slen b = (4 * n)%nat -> swap_words o n (swap_words o n b) = b.
Proof.
  revert b. induction n as [|n IH]; intros b Hb; [symmetry; apply slen_0; lia|]. cbn [swap_words].
  rewrite stake_app_n, sdrop_app_n by apply slen_put_be.
  rewrite IH by (rewrite slen_sdrop; lia). rewrite word_twice by (rewrite slen_stake; lia). apply stake_sdrop.
Qed.

Lemma slen_swap_words o n b : slen (swap_words o n b) = (4 * n)%nat.
Proof. revert b. induction n as [|n IH]; intros b; [done|]. cbn [swap_words]. rewrite slen_app, slen_put_be, IH. lia. Qed.

Lemma slen_show_words o n b : slen (show_words o n b) = (8 * n)%nat.
Proof. revert b. induction n as [|n IH]; intros b; [done|]. cbn [show_words]. rewrite slen_app, slen_show_hex, IH. lia. Qed.

Lemma hex_digit_plain d : 0 <= d < 16 ->
  is_not ":" (hex_digit d) = true /\ negb (is_space (hex_digit d)) = true /\ is_not ")" (hex_digit d) = true.
Proof.
  intros H. assert (d = 0 \/ d = 1 \/ d = 2 \/ d = 3 \/ d = 4 \/ d = 5 \/ d = 6 \/ d = 7 \/ d = 8 \/ d = 9 \/ d = 10 \/
    d = 11 \/ d = 12 \/ d = 13 \/ d = 14 \/ d = 15) as Hd by lia.
  by repeat (destruct Hd as [->|Hd]; [done|]); subst d.
Qed.

Lemma show_hex_all f n z : (forall d, 0 <= d < 16 -> f (hex_digit d) = true) -> 0 <= z -> sall f (show_hex n z) = true.
Proof.
  intros Hf. revert z. induction n as [|n IH]; intros z Hz; [done|]. cbn [show_hex].
  rewrite sall_app, IH by dlia. cbn. by rewrite Hf by dlia.
Qed.

Lemma show_words_all f o n b : (forall d, 0 <= d < 16 -> f (hex_digit d) = true) -> sall f (show_words o n b) = true.
Proof.
  intros Hf. revert b. induction n as [|n IH]; intros b; [done|]. cbn [show_words].
  rewrite sall_app, IH. rewrite show_hex_all by (done || apply Uint32_range). done.
Qed.

(** What the table shows of an address is read as the address of the accepted connection is: the same endpoint,
    or unusable in both. *)
Lemma endpoint_agrees o ip p : slen ip = 4%nat \/ slen ip = 16%nat -> 0 <= p < 65536 ->
  parseProcEndpoint (show_endpoint o ip p) o = address (TCPAddr ip p).
Proof.
  intros Hip Hp. unfold parseProcEndpoint, show_endpoint. change (":" +:+ show_hex 4 p) with (String ":" (show_hex 4 p)).
  set (n := (slen ip / 4)%nat).
  assert (slen ip = (4 * n)%nat /\ (n = 1 \/ n = 4)%nat) as [Hn Hn'] by (unfold n; destruct Hip as [-> | ->]; cbn; lia).
  rewrite scut_app by (apply show_words_all; intros d Hd; by apply hex_digit_plain).
  rewrite slen_show_words, decode_show_words, slen_swap_words. replace (4 * n / 4)%nat with n by (destruct Hn' as [-> | ->]; done).
  rewrite swap_words_twice by done.
  rewrite (ParseUint_show_hex 4) by (done || lia). unfold address.
  destruct Hn' as [Hn' | Hn']; rewrite Hn'; cbn [Nat.eqb Nat.mul Nat.add negb andb].
  all: destruct (AddrFromSlice ip) as [a|]; destruct (Z.eqb_spec p 0) as [->|Hnz]; try done.
  all: rewrite (proj2 (Z.leb_gt p 0)), (proj2 (Z.ltb_ge 65535 p)) by lia; done.
Qed.

(** An IPv4 connection shown in the IPv6 table has the same endpoint. *)
Lemma mapped_same ip p : slen ip = 4%nat -> address (TCPAddr (mapped_prefix +:+ ip) p) = address (TCPAddr ip p).
Proof.
  intros Hip. unfold address, AddrFromSlice. rewrite slen_app, Hip. cbn [Nat.eqb].
  change (slen mapped_prefix + 4)%nat with 16%nat. cbn [Nat.eqb].
  unfold link_local, IsLinkLocalUnicast, IsLinkLocalMulticast.
  assert (Unmap (Addr6 (mapped_prefix +:+ ip)) = Addr4 ip) as ->.
  { unfold Unmap. rewrite has_prefix_app. by rewrite (sdrop_app_n 12 mapped_prefix ip). }
  done.
Qed.

(** *** Lines of fields *)

Lemma fields_join l : Forall word l -> fields (sjoin " " l) = l.
Proof.
  induction 1 as [|w l Hw Hl IH]; [done|]. destruct l as [|x l]; [by apply fields_one|].
  change (sjoin " " (w :: x :: l)) with (w +:+ String " " (sjoin " " (x :: l))). by rewrite fields_cons, IH.
Qed.

Lemma ParseUint_show bits z : 0 <= z < 2 ^ bits -> ParseUint 10 bits (show_Z z) = Some z.
Proof.
  intros Hz. pose proof (show_Z_value z ltac:(lia)) as Hv. unfold ParseUint.
  assert (forall s acc n, digits_value acc s = Some n -> digits_in 10 acc s = Some n) as Hd.
  { induction s as [|c s IH]; intros acc n; cbn; [done|]. unfold hex_value. destruct (digit_of c) as [d|] eqn:E; [|done].
    intros H. assert (d < 10) as Hd.
    { unfold digit_of in E. destruct (_ && _) eqn:B; [|done]. apply andb_prop in B as [_ ?%Z.leb_le]. injection E. lia. }
    rewrite (proj2 (Z.ltb_lt _ _) Hd). by apply IH. }
  unfold unsigned_value in Hv. destruct (show_Z z) eqn:E; [done|]. rewrite (Hd _ _ _ Hv).
  by rewrite (proj2 (Z.ltb_lt _ _)) by lia.
Qed.

Lemma show_endpoint_word o ip p : 0 <= p -> word (show_endpoint o ip p).
Proof.
  intros Hp. unfold show_endpoint. change (":" +:+ show_hex 4 p) with (String ":" (show_hex 4 p)). split.
  - intros E. apply (f_equal slen) in E. rewrite slen_app in E. cbn in E. lia.
  - rewrite sall_app, show_words_all by (intros; by apply hex_digit_plain). cbn [sall andb].
    rewrite show_hex_all; [done|intros; by apply hex_digit_plain|done].
Qed.

(** *** Padded lines *)

Fixpoint blanks (n : nat) : string := match n with O => "" | S n => String " " (blanks n) end.

(** The words of a line, [pad i] spaces before the word at [i], and spaces at the end. *)
Fixpoint show_line (pad : nat -> nat) (trail : nat) (ws : list string) : string :=
  match ws with
  | [] => blanks trail
  | w :: ws => blanks (pad 0%nat) +:+ w +:+ show_line (fun i => pad (S i)) trail ws
  end.

Lemma fields_space s : fields (String " " s) = fields s.
Proof. done. Qed.

Lemma fields_blanks n s : fields (blanks n +:+ s) = fields s.
Proof. induction n as [|n IH]; [done|]. cbn [blanks]. rewrite string_app_cons. rewrite <- IH. apply fields_space. Qed.

Lemma fields_line pad trail ws : Forall word ws -> (forall i, (1 <= pad (S i))%nat) -> fields (show_line pad trail ws) = ws.
Proof.
  intros Hw. revert pad. induction Hw as [|w ws Hw _ IH]; intros pad Hp; cbn [show_line].
  - rewrite <- (string_app_nil (blanks trail)). by rewrite fields_blanks.
  - rewrite fields_blanks. destruct ws as [|x ws].
    + cbn [show_line]. destruct trail as [|n]; [rewrite string_app_nil; by apply fields_one|]. cbn [blanks]. rewrite fields_cons by done.
      by rewrite <- (string_app_nil (blanks n)), fields_blanks.
    + specialize (IH (fun i => pad (S i)) (fun i => Hp (S i))). pose proof (Hp 0%nat) as H1. cbn [show_line] in *. destruct (pad 1%nat) as [|n]; [lia|].
      cbn [blanks] in *. rewrite string_app_cons in *. rewrite fields_cons by done. f_equal. by rewrite fields_space in IH.
Qed.

(** A row of the table: number, two addresses, state, five counters, inode, and what follows; the kernel pads some of
    the columns. *)
Definition show_row (o : ByteOrder) (pad : nat -> nat) (trail : nat) (sl src : string) (sp : Z) (dst : string) (dp : Z) (state : string)
    (counters : list string) (inode : Z) (rest : list string) : string :=
  show_line pad trail (sl :: show_endpoint o src sp :: show_endpoint o dst dp :: state :: counters ++ show_Z inode :: rest).

Definition ip_bytes (ip : string) : Prop := slen ip = 4%nat \/ slen ip = 16%nat.

(** C36: a row of the kernel's table of TCP connections, on a machine of either byte order and however its columns are
    padded, is read as exactly the pair of endpoints that the two ends of that connection report, with its inode; a listening socket, a
    socket in [TIME_WAIT], a row without an inode and a connection over link-local addresses are left out. *)
Theorem parseTCPRow_reads_connection o pad trail sl src sp dst dp state counters inode rest :
  (forall i, (1 <= pad (S i))%nat) -> ip_bytes src -> ip_bytes dst -> 0 <= sp < 65536 -> 0 <= dp < 65536 -> 0 <= inode < 2 ^ 64 ->
  word sl -> word state -> length counters = 5%nat -> Forall word counters -> Forall word rest ->
  parseTCPRow (show_row o pad trail sl src sp dst dp state counters inode rest) o =
  if String.eqb state "0A" || String.eqb state "06" || (inode =? 0) then None
  else match connectionTuple (TCPAddr src sp) (TCPAddr dst dp) with
       | Some t => Some (t, inode)
       | None => None
       end.
Proof.
  intros Hpad Hs Hd Hsp Hdp Hi Hsl Hst Hc HcF Hr. unfold parseTCPRow, show_row.
  rewrite fields_line; [| |done].
  2: { repeat (apply Forall_cons; split; [first [done|apply show_endpoint_word; lia]|]).
       apply Forall_app. split; [done|]. apply Forall_cons. split; [apply show_Z_word; lia|done]. }
  do 5 (destruct counters as [|? counters]; [done|]). destruct counters; [|done].
  cbn [app lookup list_lookup]. rewrite !endpoint_agrees, ParseUint_show by done. unfold connectionTuple.
  destruct (String.eqb state "0A" || String.eqb state "06"); [done|]. cbn [orb].
  destruct (Z.ltb_spec 0 inode), (Z.eqb_spec inode 0); try lia;
    by destruct (address (TCPAddr src sp)), (address (TCPAddr dst dp)).
Qed.

(** The padding of the columns in a row of [/proc/net/tcp6]: the number is four wide, the user five, the timeouts eight. *)
Definition kernel_pad (i : nat) : nat := (match i with 0 => 3 | 7 => 2 | 8 => 8 | _ => 1 end)%nat.

Lemma parseTCPRow_reads_connection_witness :
  parseTCPRow (show_row LittleEndian kernel_pad 5 "0:" (put_be 4 2130706433) 40000 (mapped_prefix +:+ put_be 4 2130706433) 9092 "01"
    ["00000000:00000000"; "00:00000000"; "00000000"; "1000"; "0"] 4711 ["1"]) LittleEndian =
  Some (mkTuple (mkEndpoint (Addr4 (put_be 4 2130706433)) 40000) (mkEndpoint (Addr4 (put_be 4 2130706433)) 9092), 4711).
Proof.
  rewrite (parseTCPRow_reads_connection LittleEndian kernel_pad 5 "0:" (put_be 4 2130706433) 40000
    (mapped_prefix +:+ put_be 4 2130706433) 9092 "01"
    ["00000000:00000000"; "00:00000000"; "00000000"; "1000"; "0"] 4711 ["1"]); [vm_compute; done|..].
  1: { intros i. do 8 (destruct i as [|i]; [cbn; lia|]). cbn. lia. }
  all: try done; try lia; try (by left); try (by right); by repeat constructor.
Defined.

(** A row as it stands in [/proc/net/tcp]. *)
Example kernel_row_read :
  parseTCPRow "   0: 0100007F:9C40 0100007F:2384 01 00000000:00000000 00:00000000 00000000  1000        0 4711 1 0000000000000000 20 4 30 10 -1      " LittleEndian =
  Some (mkTuple (mkEndpoint (Addr4 (put_be 4 2130706433)) 40000) (mkEndpoint (Addr4 (put_be 4 2130706433)) 9092), 4711).
Proof. vm_compute. reflexivity. Qed.

Lemma trim_space_blank s : s <> "" -> sall not_space s = true -> trim_space (s +:+ " ") = s.
Proof.
  intros Hne Hs. rewrite <- (trim_space_nospace s Hs) at 2. unfold trim_space.
  assert (forall s, s <> "" -> sall not_space s = true -> trim_left (s +:+ " ") = trim_left s +:+ " ") as Hl.
  { clear. intros [|c s] Hne Hs; [done|]. rewrite string_app_cons. cbn in Hs |- *. apply andb_prop in Hs as [Hc _].
    unfold not_space in Hc. by destruct (is_space c). }
  rewrite (Hl s Hne Hs). generalize (trim_left s). clear. intros s. induction s as [|c s IH]; [done|].
  rewrite string_app_cons. cbn. by rewrite IH.
Qed.

(** The status line: identifier, command in parentheses, state, parent, 17 fields, start time and what follows. *)
Definition show_stat (p : Z) (comm state : string) (pp : Z) (mid : list string) (st : Z) (rest : list string) : string :=
  show_Z p +:+ " (" +:+ comm +:+ ") " +:+ sjoin " " (state :: show_Z pp :: mid ++ show_Z st :: rest).

Definition stat_word (w : string) : Prop := word w /\ sall (is_not ")") w = true.

Lemma show_Z_stat_word z : 0 <= z -> stat_word (show_Z z).
Proof.
  intros Hz. split; [by apply show_Z_word|]. eapply sall_impl; [|by apply show_Z_digits].
  by intros [[] [] [] [] [] [] [] []].
Qed.

(** the status line of a process is read back whatever its command name holds, spaces, newlines and
    parentheses included; a zombie or dead process is reported as gone. *)
Theorem parseProcessStat_reads_line p comm state pp mid st rest :
  0 < p < 2 ^ 63 -> 0 <= pp < 2 ^ 63 -> 0 <= st < 2 ^ 64 -> length mid = 17%nat ->
  stat_word state -> Forall stat_word mid -> Forall stat_word rest ->
  parseProcessStat (show_stat p comm state pp mid st rest) =
  if String.eqb state "Z" || String.eqb state "X" then Err ProcessGone else Ok (mkProcess p pp st).
Proof.
  intros Hp Hpp Hst Hm Hs HmF Hr. unfold parseProcessStat, show_stat.
  set (fs := state :: show_Z pp :: mid ++ show_Z st :: rest).
  assert (Forall stat_word fs) as Hfs.
  { repeat (apply Forall_cons; split; [first [done|apply show_Z_stat_word; lia]|]).
    apply Forall_app. split; [done|]. apply Forall_cons. split; [apply show_Z_stat_word; lia|done]. }
  replace (show_Z p +:+ " (" +:+ comm +:+ ") " +:+ sjoin " " fs)
    with ((show_Z p +:+ " ") +:+ String "(" (comm +:+ String ")" (String " " (sjoin " " fs))))
    by by rewrite string_app_assoc.
  assert (sall is_digit_char (show_Z p) = true) as Hdig by (apply show_Z_digits; lia).
  rewrite scut_app; [|rewrite sall_app; apply andb_true_intro; split; [|done]; eapply sall_impl; [|exact Hdig];
    by intros [[] [] [] [] [] [] [] []]].
  assert (String.eqb (show_Z p +:+ " ") "" = false) as ->.
  { apply String.eqb_neq. intros E. apply (f_equal slen) in E. rewrite slen_app in E. cbn in E. lia. }
  rewrite scut_last_app; [|change (sall (is_not ")") (sjoin " " fs) = true); apply sall_sjoin; [done|eapply Forall_impl; [exact Hfs|by intros ? []]]].
  assert (fields (String " " (sjoin " " fs)) = fs) as ->.
  { change (fields (String " " (sjoin " " fs))) with (fields (sjoin " " fs)). apply fields_join.
    eapply Forall_impl; [exact Hfs|by intros ? []]. }
  assert (trim_space (show_Z p +:+ " ") = show_Z p) as ->.
  { destruct (show_Z_word p ltac:(lia)) as [Hne Hw]. by apply trim_space_blank. }
  rewrite atoi_show by lia. rewrite (proj2 (Z.leb_gt p 0)) by lia. unfold fs.
  rewrite lookup_app_r by lia. rewrite Hm. cbn [Nat.sub lookup list_lookup].
  by rewrite atoi_show, ParseUint_show.
Qed.

Lemma parseProcessStat_reads_line_witness :
  parseProcessStat (show_stat 42 "my) Z 1 (srv" "S" 1 (replicate 17 "0") 12345 ["0"]) = Ok (mkProcess 42 1 12345).
Proof.
  rewrite (parseProcessStat_reads_line 42 "my) Z 1 (srv" "S" 1 (replicate 17 "0") 12345 ["0"]);
    try done; try lia; by repeat constructor.
Defined.

End ProcFs.
