(* ===== verification/ConnOwner.v ===== *)
(** * Attribution of connections to processes ([internal/connowner])

    A tracker registers the roots of managed process trees, binds accepted connections and finds out, from
    [/proc], which registered tree holds the other end.  [/proc] belongs to the kernel and changes all the
    time: it is a parameter, indexed by a clock that advances at every access.  Other goroutines act on the
    tracker between any two of its critical sections: what they do there is a schedule of the world. *)

From Stdlib Require Import ZArith Lia Ascii.
From S2P Require Import Prelude GoStd GoText ProcFs.
From stdpp Require Import base gmap sets strings numbers list.
Local Open Scope Z_scope.
Import GoStd GoText ProcFs.

Module ConnOwner.

(** ** The file system *)

Inductive ferr := ErrNotExist | ErrOther.

(** [os.ReadFile], [os.ReadDir] (names only) and [os.Readlink] at each moment, on paths below the root. *)
Class ProcView := {
  file : nat -> list string -> result ferr string;
  dir : nat -> list string -> result ferr (list string);
  link : nat -> list string -> result ferr string }.

(** Computations that look at [/proc]: every access takes one tick. *)
Definition P (A : Type) : Type := nat -> A * nat.
Definition ret {A} (x : A) : P A := fun t => (x, t).
Definition bind {A B} (m : P A) (k : A -> P B) : P B := fun t => let '(x, t) := m t in k x t.

Declare Scope proc_scope.
Notation "x <- m ;; k" := (bind m (fun x => k)) (at level 100, m at next level, right associativity) : proc_scope.
Local Open Scope proc_scope.

Section Proc.
Context `{V : ProcView} (NativeEndian : ByteOrder).

Definition ReadFile (path : list string) : P (result ferr string) := fun t => (file t path, S t).
Definition ReadDir (path : list string) : P (result ferr (list string)) := fun t => (dir t path, S t).
Definition Readlink (path : list string) : P (result ferr string) := fun t => (link t path, S t).

(** ** Processes ([proc_linux.go]) *)

(** An error as [errors.Is] tells it apart. *)
Inductive rerr := NotExist | Gone | Other.

Definition readProcess (p : Z) : P (result rerr process) :=
  r <- ReadFile [show_Z p; "stat"];;
  ret (match r with
       | Err ErrNotExist => Err NotExist
       | Err ErrOther => Err Other
       | Ok data =>
           match parseProcessStat data with
           | Ok q => if pid q =? p then Ok q else Err Other
           | Err ProcessGone => Err Gone
           | Err _ => Err Other
           end
       end).

Definition processStart (p : Z) : P (result rerr Z) :=
  r <- readProcess p;; ret (let? q := r in Ok (start q)).

Definition sameProcess (p : process) : P bool :=
  r <- readProcess (pid p);; ret (match r with Ok current => bool_decide (current = p) | Err _ => false end).

(** The children listed by one thread; [None] is an error. *)
Fixpoint child_loop (par : process) (fs : list string) (seen : gset Z) (acc : list process)
    : P (option (gset Z * list process)) :=
  match fs with
  | [] => ret (Some (seen, acc))
  | f :: fs =>
      match atoi f with
      | None => child_loop par fs seen acc
      | Some p =>
          if (p <=? 0) || bool_decide (p ∈ seen) then child_loop par fs seen acc
          else
            r <- readProcess p;;
            match r with
            | Err Other => ret None
            | Err _ => child_loop par fs ({[p]} ∪ seen) acc
            | Ok child =>
                child_loop par fs ({[p]} ∪ seen)
                  (if (parent child =? pid par) && (start par <=? start child) then acc ++ [child] else acc)
            end
      end
  end.

Fixpoint task_loop (par : process) (tasks : list string) (seen : gset Z) (acc : list process)
    : P (option (list process)) :=
  match tasks with
  | [] => ret (Some acc)
  | task :: tasks =>
      match atoi task with
      | None => task_loop par tasks seen acc
      | Some _ =>
          r <- ReadFile [show_Z (pid par); "task"; task; "children"];;
          match r with
          | Err ErrNotExist => task_loop par tasks seen acc
          | Err ErrOther => ret None
          | Ok data =>
              s <- child_loop par (fields data) seen acc;;
              match s with None => ret None | Some (seen, acc) => task_loop par tasks seen acc end
          end
      end
  end.

Definition children (par : process) : P (option (list process)) :=
  r <- ReadDir [show_Z (pid par); "task"];;
  match r with
  | Err _ => ret None
  | Ok tasks =>
      s <- task_loop par tasks ∅ [];;
      match s with
      | None => ret None
      | Some result => same <- sameProcess par;; ret (if same : bool then Some result else None)
      end
  end.

(** *** Sockets *)

Definition socket_name (inode : Z) : string := "socket:[" +:+ show_Z inode +:+ "]".

(** The inode a descriptor's target names. *)
Definition inode_of (target : string) : option Z :=
  if has_prefix "socket:[" target && has_suffix "]" target
  then match ParseUint 10 64 (stake (slen target - 9) (sdrop 8 target)) with
       | Some i => if i =? 0 then None else Some i
       | None => None
       end
  else None.

Fixpoint fd_loop (p : process) (entries : list string) (inodes : gmap Z (list string))
    : P (option (gmap Z (list string))) :=
  match entries with
  | [] => ret (Some inodes)
  | e :: entries =>
      r <- Readlink [show_Z (pid p); "fd"; e];;
      match r with
      | Err ErrOther => ret None
      | Err ErrNotExist => fd_loop p entries inodes
      | Ok target =>
          match inode_of target with
          | None => fd_loop p entries inodes
          | Some i => fd_loop p entries (<[i := default [] (inodes !! i) ++ [e]]> inodes)
          end
      end
  end.

(** The descriptors that were seen with the inode are looked at again. *)
Fixpoint recheck_loop (p : process) (inode : Z) (fds : list string) : P bool :=
  match fds with
  | [] => ret false
  | fd :: fds =>
      r <- Readlink [show_Z (pid p); "fd"; fd];;
      match r with
      | Ok target =>
          if String.eqb target (socket_name inode) then
            same <- sameProcess p;; if same : bool then ret true else recheck_loop p inode fds
          else recheck_loop p inode fds
      | Err _ => recheck_loop p inode fds
      end
  end.

Fixpoint row_loop (p : process) (key : tuple) (inodes : gmap Z (list string)) (lines : list string) : P bool :=
  match lines with
  | [] => ret false
  | line :: lines =>
      match parseTCPRow line NativeEndian with
      | Some (t, inode) =>
          if bool_decide (t = key) then
            same <- sameProcess p;;
            if same : bool then
              found <- recheck_loop p inode (default [] (inodes !! inode));;
              if found : bool then ret true else row_loop p key inodes lines
            else row_loop p key inodes lines
          else row_loop p key inodes lines
      | None => row_loop p key inodes lines
      end
  end.

Fixpoint table_loop (p : process) (key : tuple) (inodes : gmap Z (list string)) (names : list string)
    : P (option bool) :=
  match names with
  | [] => ret (Some false)
  | name :: names =>
      r <- ReadFile [show_Z (pid p); "net"; name];;
      match r with
      | Err ErrNotExist => if String.eqb name "tcp6" then table_loop p key inodes names else ret None
      | Err ErrOther => ret None
      | Ok data =>
          found <- row_loop p key inodes (split_all LF data);;
          if found : bool then ret (Some true) else table_loop p key inodes names
      end
  end.

Definition processOwnsTuple (p : process) (key : tuple) : P (option bool) :=
  r <- ReadDir [show_Z (pid p); "fd"];;
  match r with
  | Err _ => ret None
  | Ok entries =>
      s <- fd_loop p entries ∅;;
      match s with
      | None => ret None
      | Some inodes => if bool_decide (inodes = ∅) then ret (Some false) else table_loop p key inodes ["tcp"; "tcp6"]
      end
  end.

(** *** The process tree *)

(** What [visit] answers: an error, or whether the connection was found; and the identifiers seen so far. *)
Definition visited : Type := option bool * gset Z.

(** The loop over the children of [current]; [v] visits one of them.  [None]: out of fuel. *)
Fixpoint descend (v : process -> gset Z -> P (option visited)) (current : process) (ds : list process) (seen : gset Z)
    : P (option visited) :=
  match ds with
  | [] => ret (Some (Some false, seen))
  | child :: ds =>
      r <- v child seen;;
      match r with
      | None => ret None
      | Some (None, seen) => ret (Some (None, seen))
      | Some (Some false, seen) => descend v current ds seen
      | Some (Some true, seen) =>
          same <- sameProcess current;;
          if same : bool then ret (Some (Some true, seen)) else descend v current ds seen
      end
  end.

Definition maxTree : nat := 4096.

Fixpoint visit (fuel : nat) (key : tuple) (current : process) (seen : gset Z) : P (option visited) :=
  match fuel with
  | O => ret None
  | S fuel =>
      if bool_decide (pid current ∈ seen) then ret (Some (None, seen))
      else
        same <- sameProcess current;;
        if same : bool then
          let seen := {[pid current]} ∪ seen in
          if (maxTree <? size seen)%nat then ret (Some (None, seen))
          else
            r <- processOwnsTuple current key;;
            match r with
            | None => ret (Some (None, seen))
            | Some true => ret (Some (Some true, seen))
            | Some false =>
                ds <- children current;;
                match ds with
                | None => ret (Some (None, seen))
                | Some ds => descend (visit fuel key) current ds seen
                end
            end
        else ret (Some (None, seen))
  end.

(** Every call of [visit] but a failing one adds an identifier, so this is never used up. *)
Definition visit_fuel : nat := S maxTree.

Record Source := mkSource { Service : string; Instance : string; PID : Z }.

Definition noSource : Source := mkSource "" "" 0.
Definition Known (s : Source) : bool := negb (String.eqb (Instance s) "").

Record registration := mkReg { source : Source; reg_start : Z; token : Z }.

(** [(owned, complete)]; [None] when the fuel is used up. *)
Definition ownsConnection (reg : registration) (key : tuple) : P (option (bool * bool)) :=
  r <- readProcess (PID (source reg));;
  match r with
  | Err e => ret (Some (false, match e with NotExist | Gone => true | Other => false end))
  | Ok p =>
      if negb (start p =? reg_start reg) then ret (Some (false, true))
      else
        v <- visit visit_fuel key p ∅;;
        match v with
        | None => ret None
        | Some (None, _) => ret (Some (false, false))
        | Some (Some owned, _) =>
            o <- (if owned : bool then sameProcess p else ret false);;
            c <- sameProcess p;;
            ret (Some (o, c))
        end
  end.

End Proc.

#[export] Instance Source_eq_dec : EqDecision Source.
Proof. solve_decision. Defined.

(** ** The tracker ([tracker.go]) *)

(** A binding: the tuple of the accepted connection, if it is usable, whether it was closed, and the proven
    owner. *)
Record Binding := mkBinding { b_tuple : option tuple; closed : bool; b_source : Source }.

Record Tracker := mkTracker {
  next : Z;
  registrations : gmap string registration;
  bridges : gmap tuple (gmap Z nat) }.

Definition newTracker : Tracker := mkTracker 0 ∅ ∅.

(** What the other goroutines do in one critical section of theirs, but for calls of [Source], which the file on the
    pool of calls interleaves.  [AForward] carries the tuple of the new
    upstream connection and that of the accepted one. *)
Inductive action :=
  | ARegister (service : string) (pid start : Z)
  | AUnregister (instance : string) (tok : Z)
  | ABind (key : option tuple)
  | AClose (b : nat)
  | AForward (key : tuple) (accepted : option tuple)
  | ARemove (key : tuple) (tok : Z).

(** For the proofs: the bridges ever installed and the registrations ever made. *)
Record Ghost := mkGhost { forwards : list (tuple * option tuple); registered : list registration }.

(** The tracker and the bindings, the schedule of the others, and the clock of [/proc]. *)
Record World := mkWorld {
  tr : Tracker; binds : list Binding; sched : list (list action); clock : nat; ghost : Ghost }.

Definition newWorld (sched : list (list action)) (clock : nat) : World :=
  mkWorld newTracker [] sched clock (mkGhost [] []).

Section Tracker.
Context `{V : ProcView} (NativeEndian : ByteOrder) (identity : string).

(** The order in which a range over the registrations visits them, at each moment. *)
Context (iter : nat -> list registration -> list registration).

Definition instance_name (pid start tok : Z) : string :=
  identity +:+ "/" +:+ show_Z pid +:+ "/" +:+ show_Z start +:+ "/" +:+ show_Z tok.

(** The critical section of [Register]. *)
Definition register (service : string) (pid start : Z) (w : World) : registration * World :=
  let tok := u64 (next (tr w) + 1) in
  let reg := mkReg (mkSource service (instance_name pid start tok) pid) start tok in
  (reg, mkWorld (mkTracker tok (<[Instance (source reg) := reg]> (registrations (tr w))) (bridges (tr w)))
          (binds w) (sched w) (clock w) (mkGhost (forwards (ghost w)) (registered (ghost w) ++ [reg]))).

Definition unregister (instance : string) (tok : Z) (w : World) : World :=
  match registrations (tr w) !! instance with
  | Some current =>
      if token current =? tok
      then mkWorld (mkTracker (next (tr w)) (delete instance (registrations (tr w))) (bridges (tr w)))
             (binds w) (sched w) (clock w) (ghost w)
      else w
  | None => w
  end.

Definition Bind (key : option tuple) (w : World) : nat * World :=
  (length (binds w),
   mkWorld (tr w) (binds w ++ [mkBinding key false noSource]) (sched w) (clock w) (ghost w)).

Definition set_binding (b : nat) (f : Binding -> Binding) (w : World) : World :=
  mkWorld (tr w) (alter f b (binds w)) (sched w) (clock w) (ghost w).

Definition Close (b : nat) (w : World) : World :=
  set_binding b (fun x => mkBinding (b_tuple x) true (b_source x)) w.

(** [Forward], for usable upstream addresses: the token and the binding of the new bridge. *)
Definition forward (key : tuple) (accepted : option tuple) (w : World) : Z * nat * World :=
  let '(b, w) := Bind accepted w in
  let tok := u64 (next (tr w) + 1) in
  let m := default ∅ (bridges (tr w) !! key) in
  (tok, b, mkWorld (mkTracker tok (registrations (tr w)) (<[key := <[tok := b]> m]> (bridges (tr w))))
             (binds w) (sched w) (clock w) (mkGhost (forwards (ghost w) ++ [(key, accepted)]) (registered (ghost w)))).

(** The second half of the cleanup that [Forward] returns. *)
Definition remove_bridge (key : tuple) (tok : Z) (w : World) : World :=
  let m := delete tok (default ∅ (bridges (tr w) !! key)) in
  mkWorld (mkTracker (next (tr w)) (registrations (tr w))
             (if decide (m = ∅) then delete key (bridges (tr w)) else <[key := m]> (bridges (tr w))))
    (binds w) (sched w) (clock w) (ghost w).

Definition act (a : action) (w : World) : World :=
  match a with
  | ARegister service pid start => (register service pid start w).2
  | AUnregister instance tok => unregister instance tok w
  | ABind key => (Bind key w).2
  | AClose b => Close b w
  | AForward key accepted => (forward key accepted w).2
  | ARemove key tok => remove_bridge key tok w
  end.

(** Entering a critical section: the others had their turn. *)
Definition interfere (w : World) : World :=
  match sched w with
  | [] => w
  | acts :: rest =>
      let w' := foldl (fun w a => act a w) w acts in
      mkWorld (tr w') (binds w') rest (clock w') (ghost w')
  end.

(** A look at [/proc]. *)
Definition on_proc {A} (m : P A) (w : World) : A * World :=
  let '(x, t) := m (clock w) in (x, mkWorld (tr w) (binds w) (sched w) t (ghost w)).

Definition IsActive (s : Source) (w : World) : bool * World :=
  if negb (Known s) then (false, w)
  else
    let w := interfere w in
    match registrations (tr w) !! Instance s with
    | None => (false, w)
    | Some reg =>
        if negb (bool_decide (source reg = s)) then (false, w)
        else
          let '(r, w) := on_proc (processStart (PID s)) w in
          match r with
          | Err _ => (false, w)
          | Ok st =>
              if negb (st =? reg_start reg) then (false, w)
              else
                let w := interfere w in
                match registrations (tr w) !! Instance s with
                | Some current => (token current =? token reg, w)
                | None => (false, w)
                end
          end
    end.

(** The loop over the registrations; [None]: out of fuel. *)
Fixpoint reg_loop (key : tuple) (regs : list registration) (found : Source) (w : World) : option (Source * World) :=
  match regs with
  | [] => Some (found, w)
  | reg :: regs =>
      let '(r, w) := on_proc (ownsConnection NativeEndian reg key) w in
      match r with
      | None => None
      | Some (owned, complete) =>
          let w := interfere w in
          match registrations (tr w) !! Instance (source reg) with
          | None => reg_loop key regs found w
          | Some current =>
              if negb (token current =? token reg) then reg_loop key regs found w
              else if negb complete then Some (noSource, w)
              else
                let '(active, w) := IsActive (source reg) w in
                if negb active then reg_loop key regs found w
                else if (owned : bool) then
                  if Known found && negb (bool_decide (found = source reg)) then Some (noSource, w)
                  else reg_loop key regs (source reg) w
                else reg_loop key regs found w
          end
      end
  end.

(** [Tracker.resolve]; [resolveB] resolves a bridge's binding. *)
Definition resolveT (resolveB : nat -> World -> option (Source * World)) (key : tuple) (w : World)
    : option (Source * World) :=
  let w := interfere w in
  let bs := default ∅ (bridges (tr w) !! key) in
  let regs := iter (clock w) (map_to_list (registrations (tr w))).*2 in
  match map_to_list bs with
  | [] => reg_loop key regs noSource w
  | [(_, bridge)] => resolveB bridge w
  | _ => Some (noSource, w)
  end.

Definition cache (s : Source) (x : Binding) : Binding :=
  if negb (closed x) && negb (Known (b_source x)) && Known s then mkBinding (b_tuple x) (closed x) s else x.

(** [Binding.resolve]; [None] when the fuel is used up, or for a binding that does not exist. *)
Fixpoint resolve (fuel : nat) (seen : gset nat) (b : nat) (w : World) : option (Source * World) :=
  match fuel with
  | O => None
  | S fuel =>
      let w := interfere w in
      x ← binds w !! b;
      match b_tuple x with
      | None => Some (b_source x, w)
      | Some key =>
          if Known (b_source x) || closed x then Some (b_source x, w)
          else if bool_decide (b ∈ seen) then Some (noSource, w)
          else
            '(s, w) ← resolveT (resolve fuel ({[b]} ∪ seen)) key w;
            let w := set_binding b (cache s) (interfere w) in
            x ← binds w !! b;
            Some (b_source x, w)
      end
  end.

(** Bindings there are, and bindings the schedule still makes. *)
Definition makes (a : action) : nat := match a with ABind _ | AForward _ _ => 1%nat | _ => 0%nat end.
Definition total_binds (w : World) : nat := (length (binds w) + sum_list (makes <$> concat (sched w)))%nat.

(** [Binding.Source]. *)
Definition SourceOf (b : nat) (w : World) : option (Source * World) := resolve (S (total_binds w)) ∅ b w.

(** [Register]: [None] for a service without a name or an identifier that is not positive. *)
Definition Register (service : string) (p : Z) (w : World) : option (result rerr registration) * World :=
  if String.eqb service "" || (p <=? 0) then (None, w)
  else
    let '(r, w) := on_proc (processStart p) w in
    match r with
    | Err e => (Some (Err e), w)
    | Ok st => let '(reg, w) := register service p st (interfere w) in (Some (Ok reg), w)
    end.

(** [Forward]: [None] for an upstream connection whose addresses are not usable. *)
Definition Forward (client_remote client_local up_local up_remote : NetAddr) (w : World) : option (tuple * Z * nat) * World :=
  match connectionTuple up_local up_remote with
  | None => (None, w)
  | Some key =>
      let '(tok, b, w) := forward key (connectionTuple client_remote client_local) (interfere w) in
      (Some (key, tok, b), w)
  end.

(** The cleanup that [Forward] returns. *)
Definition cleanup (bridge : tuple * Z * nat) (w : World) : World :=
  let '(key, tok, b) := bridge in remove_bridge key tok (interfere (Close b w)).

End Tracker.
(** ** What a look at [/proc] establishes *)

Section ProcFacts.
Context `{V : ProcView} (NativeEndian : ByteOrder).

(** At moment [t], process [p] existed, with this parent and this start time. *)
Definition proc_at (t : nat) (p : process) : Prop :=
  exists data, file t [show_Z (pid p); "stat"] = Ok data /\ parseProcessStat data = Ok p.

(** Between [t0] and [t1]: descriptor [fd] of [p] named the socket, and after that [p] was still there. *)
Definition still (t0 t1 : nat) (p : process) (inode : Z) (fd : string) : Prop :=
  exists td te, (t0 <= td)%nat /\ (td < te)%nat /\ (te < t1)%nat /\
    link td [show_Z (pid p); "fd"; fd] = Ok (socket_name inode) /\ proc_at te p.

(** A line shows the connection with a socket recorded for a descriptor; after it was read [p] was there, and
    the descriptor still named the socket. *)
Definition row_seen (t0 t1 : nat) (p : process) (key : tuple) (inodes : gmap Z (list string)) (ls : list string) : Prop :=
  exists line inode fd tc, line ∈ ls /\ parseTCPRow line NativeEndian = Some (key, inode) /\
    fd ∈ default [] (inodes !! inode) /\ (t0 <= tc)%nat /\ proc_at tc p /\ still (S tc) t1 p inode fd.

Definition table_seen (t0 t1 : nat) (p : process) (key : tuple) (inodes : gmap Z (list string)) : Prop :=
  exists name data tb, (t0 <= tb)%nat /\ file tb [show_Z (pid p); "net"; name] = Ok data /\
    row_seen (S tb) t1 p key inodes (split_all LF data).

(** Between [t0] and [t1]: a descriptor of [p] named a socket, later the table showed that socket as the
    connection [key], [p] was still there, later the descriptor still named the socket, and [p] was still
    there. *)
Definition holds (t0 t1 : nat) (p : process) (key : tuple) : Prop :=
  exists inode fd target name data line ta tb tc,
    (t0 <= ta)%nat /\ (ta < tb)%nat /\ (tb < tc)%nat /\
    link ta [show_Z (pid p); "fd"; fd] = Ok target /\ inode_of target = Some inode /\
    file tb [show_Z (pid p); "net"; name] = Ok data /\ line ∈ split_all LF data /\
    parseTCPRow line NativeEndian = Some (key, inode) /\ proc_at tc p /\ still (S tc) t1 p inode fd.

(** Between [t0] and [t1]: a thread of [par] listed [child], which then was a child of [par], not older than it. *)
Definition listed (t0 t1 : nat) (par child : process) : Prop :=
  exists task data f tl tc, (t0 <= tl)%nat /\ (tl < tc)%nat /\ (tc < t1)%nat /\
    file tl [show_Z (pid par); "task"; task; "children"] = Ok data /\ f ∈ fields data /\ atoi f = Some (pid child) /\
    proc_at tc child /\ parent child = pid par /\ start par <= start child.

(** And afterwards [par] was still there. *)
Definition child_of (t0 t1 : nat) (par child : process) : Prop :=
  exists te, listed t0 te par child /\ (te < t1)%nat /\ proc_at te par.

(** Between [t0] and [t1], [p] or a descendant of it held the connection, and every process on the way there
    was seen before and after. *)
Inductive owner_in : nat -> nat -> process -> tuple -> Prop :=
  | own_self t0 ts t1 p key : (t0 <= ts)%nat -> proc_at ts p -> holds (S ts) t1 p key -> owner_in t0 t1 p key
  | own_child t0 ts t1 ta tb tc p child key :
      (t0 <= ts)%nat -> proc_at ts p -> (ts < ta)%nat -> (ta <= tb)%nat -> child_of ta tb p child ->
      owner_in tb tc child key -> (tc < t1)%nat -> proc_at tc p -> owner_in t0 t1 p key.

Lemma readProcess_ok p q t t' : readProcess p t = (Ok q, t') -> t' = S t /\ proc_at t q /\ pid q = p.
Proof.
  unfold readProcess, bind, ReadFile, ret. destruct (file t _) as [data|[]] eqn:Hf; try done.
  destruct (parseProcessStat data) as [r|[]] eqn:Hp; try done. destruct (Z.eqb_spec (pid r) p) as [<-|]; [|done].
  intros [= <- <-]. split; [done|]. split; [|done]. by exists data.
Qed.

Lemma readProcess_tick p t : (readProcess p t).2 = S t.
Proof. done. Qed.

Lemma sameProcess_tick p t : sameProcess p t = ((sameProcess p t).1, S t).
Proof. done. Qed.

Lemma sameProcess_true p t t' : sameProcess p t = (true, t') -> t' = S t /\ proc_at t p.
Proof.
  unfold sameProcess, bind, ret. destruct (readProcess (pid p) t) as [r t1] eqn:Hr.
  destruct r as [q|]; [|done]. apply readProcess_ok in Hr as (-> & Hq & _). intros [= Hb <-].
  apply bool_decide_eq_true in Hb. by subst q.
Qed.

(** Time does not run backwards. *)
Definition forward_in {A} (m : P A) : Prop := forall t, (t <= (m t).2)%nat.

Lemma forward_ret {A} (x : A) : forward_in (ret x).
Proof. intros t. done. Qed.

Lemma forward_bind {A B} (m : P A) (k : A -> P B) : forward_in m -> (forall x, forward_in (k x)) -> forward_in (bind m k).
Proof. intros Hm Hk t. unfold bind. specialize (Hm t). destruct (m t) as [x t1]. specialize (Hk x t1). cbn in *. lia. Qed.

Lemma forward_tick {A} (f : nat -> A) : forward_in (fun t => (f t, S t)).
Proof. intros t. cbn. lia. Qed.

Create HintDb proc.
#[local] Hint Resolve forward_ret forward_bind forward_tick : proc.
#[local] Hint Extern 1 (forward_in (if ?b then _ else _)) => destruct b : proc.
#[local] Hint Extern 1 (forward_in (match ?x with _ => _ end)) => destruct x : proc.

Lemma forward_read p : forward_in (readProcess p).
Proof. intros t. rewrite readProcess_tick. lia. Qed.
Lemma forward_same p : forward_in (sameProcess p).
Proof. intros t. rewrite sameProcess_tick. cbn. lia. Qed.
#[local] Hint Resolve forward_read forward_same : proc.

Ltac steps := repeat first [progress auto with proc|apply forward_bind; intros|apply forward_tick|case_match].

Lemma forward_child_loop par fs seen acc : forward_in (child_loop par fs seen acc).
Proof. revert seen acc. induction fs as [|f fs IH]; intros seen acc; cbn [child_loop]; steps. Qed.
#[local] Hint Resolve forward_child_loop : proc.

Lemma forward_task_loop par tasks seen acc : forward_in (task_loop par tasks seen acc).
Proof. revert seen acc. induction tasks as [|f fs IH]; intros seen acc; cbn [task_loop]; unfold ReadFile; steps. Qed.
#[local] Hint Resolve forward_task_loop : proc.

Lemma forward_children par : forward_in (children par).
Proof. unfold children, ReadDir. steps. Qed.

Lemma forward_fd_loop p es inodes : forward_in (fd_loop p es inodes).
Proof. revert inodes. induction es as [|e es IH]; intros inodes; cbn [fd_loop]; unfold Readlink; steps. Qed.

Lemma forward_recheck p i fds : forward_in (recheck_loop p i fds).
Proof. induction fds as [|e es IH]; cbn [recheck_loop]; unfold Readlink; steps. Qed.
#[local] Hint Resolve forward_fd_loop forward_recheck forward_children : proc.

Lemma forward_row_loop p key inodes ls : forward_in (row_loop NativeEndian p key inodes ls).
Proof. induction ls as [|e es IH]; cbn [row_loop]; steps. Qed.
#[local] Hint Resolve forward_row_loop : proc.

Lemma forward_table_loop p key inodes ns : forward_in (table_loop NativeEndian p key inodes ns).
Proof. induction ns as [|e es IH]; cbn [table_loop]; unfold ReadFile; steps. Qed.
#[local] Hint Resolve forward_table_loop : proc.

Lemma forward_owns p key : forward_in (processOwnsTuple NativeEndian p key).
Proof. unfold processOwnsTuple, ReadDir. steps. Qed.
#[local] Hint Resolve forward_owns : proc.

Lemma bind_inv {A B} (m : P A) (k : A -> P B) t y t' :
  bind m k t = (y, t') -> exists x t1, m t = (x, t1) /\ k x t1 = (y, t').
Proof. unfold bind. destruct (m t) as [x t1]. eauto. Qed.

Lemma forward_le {A} (m : P A) t x t' : forward_in m -> m t = (x, t') -> (t <= t')%nat.
Proof. intros Hm E. specialize (Hm t). by rewrite E in Hm. Qed.

(** Takes the computation of a hypothesis apart, one access at a time. *)
Ltac unbind H :=
  let x := fresh "x" in let t := fresh "u" in let E := fresh "E" in
  apply bind_inv in H; destruct H as (x & t & E & H).

Lemma still_weaken t0 t0' t1 p inode fd : (t0' <= t0)%nat -> still t0 t1 p inode fd -> still t0' t1 p inode fd.
Proof. intros Hle (td & te & ? & ?). exists td, te. split; [lia|done]. Qed.

Lemma row_seen_weaken t0 t0' t1 p key inodes line ls : (t0' <= t0)%nat ->
  row_seen t0 t1 p key inodes ls -> row_seen t0' t1 p key inodes (line :: ls).
Proof.
  intros Hle (l & i & fd & tc & Hl & ? & ? & ? & ?). exists l, i, fd, tc. split; [set_solver|].
  split; [done|]. split; [done|]. split; [lia|done].
Qed.

Lemma table_seen_weaken t0 t0' t1 p key inodes : (t0' <= t0)%nat ->
  table_seen t0 t1 p key inodes -> table_seen t0' t1 p key inodes.
Proof. intros Hle (n & d & tb & ? & ?). exists n, d, tb. split; [lia|done]. Qed.

Lemma recheck_found p inode fds t t' : recheck_loop p inode fds t = (true, t') ->
  exists fd, fd ∈ fds /\ still t t' p inode fd.
Proof.
  revert t. induction fds as [|fd fds IH]; intros t H; cbn [recheck_loop] in H; [done|].
  assert (forall t1, (t <= t1)%nat -> recheck_loop p inode fds t1 = (true, t') ->
    exists fd', fd' ∈ fd :: fds /\ still t t' p inode fd') as Hrest.
  { intros t1 Ht1 (fd' & ? & ?)%IH. exists fd'. split; [set_solver|by eapply still_weaken]. }
  unbind H. injection E as <- <-.
  destruct (link t _) as [target|] eqn:Hl; [|eauto]. destruct (String.eqb_spec target (socket_name inode)) as [->|]; [|eauto].
  unbind H. destruct x; [|rewrite sameProcess_tick in E; injection E as _ <-; eauto].
  apply sameProcess_true in E as [-> Hp]. injection H as <-. exists fd. split; [set_solver|].
  exists t, (S t). repeat split; try done; lia.
Qed.

(** The descriptors recorded for an inode were seen to name it. *)
Definition recorded (t0 t1 : nat) (p : process) (inodes : gmap Z (list string)) : Prop :=
  forall i fd, fd ∈ default [] (inodes !! i) ->
    exists ta target, (t0 <= ta)%nat /\ (ta < t1)%nat /\ link ta [show_Z (pid p); "fd"; fd] = Ok target /\ inode_of target = Some i.

Lemma recorded_weaken t0 t1 t1' p inodes : (t1 <= t1')%nat -> recorded t0 t1 p inodes -> recorded t0 t1' p inodes.
Proof. intros Hle H i fd Hin. destruct (H i fd Hin) as (ta & tg & ? & ? & ?). exists ta, tg. split; [done|]. split; [lia|done]. Qed.

Lemma fd_loop_recorded p t0 es inodes t inodes' t' : (t0 <= t)%nat ->
  recorded t0 t p inodes -> fd_loop p es inodes t = (Some inodes', t') -> recorded t0 t' p inodes'.
Proof.
  revert inodes t. induction es as [|e es IH]; intros inodes t Ht Hrec H; cbn [fd_loop] in H.
  { by injection H as <- <-. }
  unbind H. injection E as <- <-. apply (recorded_weaken t0 t (S t)) in Hrec as Hrec'; [|lia].
  destruct (link t _) as [target|[]] eqn:Hl; [|by eapply IH in H; [|lia|]|done].
  destruct (inode_of target) as [i|] eqn:Hi; [|by eapply IH in H; [|lia|]].
  eapply IH in H; [done|lia|]. intros j fd. rewrite lookup_insert. case_decide as Hij; [subst j|apply Hrec'].
  cbn. rewrite elem_of_app, list_elem_of_singleton. intros [Hin| ->]; [by apply Hrec'|].
  exists t, target. repeat split; try done; lia.
Qed.

Lemma row_found p key inodes ls t t' : row_loop NativeEndian p key inodes ls t = (true, t') ->
  row_seen t t' p key inodes ls.
Proof.
  revert t. induction ls as [|line ls IH]; intros t H; cbn [row_loop] in H; [done|].
  assert (forall t1, (t <= t1)%nat -> row_loop NativeEndian p key inodes ls t1 = (true, t') ->
    row_seen t t' p key inodes (line :: ls)) as Hrest by eauto using row_seen_weaken.
  destruct (parseTCPRow line NativeEndian) as [[tu inode]|] eqn:Hrow; [|eauto].
  destruct (bool_decide_reflect (tu = key)) as [->|]; [|eauto].
  unbind H. destruct x; [|rewrite sameProcess_tick in E; injection E as _ <-; eauto].
  apply sameProcess_true in E as [-> Hp]. unbind H. destruct x.
  - injection H as <-. apply recheck_found in E as (fd & ? & ?).
    exists line, inode, fd, t. split; [set_solver|]. done.
  - eapply Hrest, H. apply forward_le in E; [lia|auto with proc].
Qed.

Lemma table_found p key inodes ns t t' : table_loop NativeEndian p key inodes ns t = (Some true, t') ->
  table_seen t t' p key inodes.
Proof.
  revert t. induction ns as [|name ns IH]; intros t H; cbn [table_loop] in H; [done|].
  assert (forall t1, (t <= t1)%nat -> table_loop NativeEndian p key inodes ns t1 = (Some true, t') ->
    table_seen t t' p key inodes) as Hrest by eauto using table_seen_weaken.
  unbind H. injection E as <- <-.
  destruct (file t _) as [data|[]] eqn:Hf; [|destruct (String.eqb name "tcp6"); [eauto|done]|done].
  unbind H. destruct x; [|eapply Hrest, H; apply forward_le in E; [lia|auto with proc]].
  injection H as <-. apply row_found in E. exists name, data, t. split; [lia|done].
Qed.

Lemma owns_holds p key t t' : processOwnsTuple NativeEndian p key t = (Some true, t') -> holds t t' p key.
Proof.
  intros H. unfold processOwnsTuple in H. unbind H. injection E as <- <-. destruct (dir t _) as [es|]; [|done].
  unbind H. destruct x as [inodes|]; [|done]. destruct (bool_decide _); [done|].
  apply (fd_loop_recorded p t) in E as Hrec; [|lia|by intros i fd; rewrite lookup_empty; intros ?%elem_of_nil].
  apply table_found in H as (name & data & tb & ? & ? & line & inode & fd & tc & ? & ? & Hfd & ? & ? & ?).
  destruct (Hrec inode fd Hfd) as (ta & target & ? & ? & ? & ?).
  exists inode, fd, target, name, data, line, ta, tb, tc. repeat split; try done; lia.
Qed.

(** *** The tree *)

Lemma listed_weaken t0 t1 t1' par c : (t1 <= t1')%nat -> listed t0 t1 par c -> listed t0 t1' par c.
Proof.
  intros Hle (task & data & f & tl & tc & ? & ? & ? & ?). exists task, data, f, tl, tc.
  split; [done|]. split; [done|]. split; [lia|done].
Qed.

Lemma Forall_listed_weaken t0 t1 t1' par l : (t1 <= t1')%nat ->
  Forall (listed t0 t1 par) l -> Forall (listed t0 t1' par) l.
Proof. intros Hle Hl. eapply Forall_impl; [exact Hl|]. intros c. by apply listed_weaken. Qed.

Lemma child_loop_listed par t0 tl task data fs seen acc t seen' acc' t' :
  (t0 <= tl)%nat -> (tl < t)%nat -> file tl [show_Z (pid par); "task"; task; "children"] = Ok data -> fs ⊆ fields data ->
  Forall (listed t0 t par) acc -> child_loop par fs seen acc t = (Some (seen', acc'), t') ->
  Forall (listed t0 t' par) acc'.
Proof.
  intros Htl. revert seen acc t. induction fs as [|f fs IH]; intros seen acc t Ht Hfile Hfs Hacc H; cbn [child_loop] in H.
  { by injection H as <- <- <-. }
  assert (fs ⊆ fields data) as Hfs' by set_solver.
  destruct (atoi f) as [p|] eqn:Hf; [|by eapply IH]. destruct (_ || _); [by eapply IH|].
  unbind H. pose proof (readProcess_tick p t) as Ht1. rewrite E in Ht1. cbn in Ht1. subst u.
  apply (Forall_listed_weaken t0 t (S t)) in Hacc; [|lia].
  destruct x as [child|[]]; [|by eapply IH in H; try done; lia..|done].
  eapply IH in H; try done; [lia|]. destruct (_ && _) eqn:Hc; [|done].
  apply andb_prop in Hc as [Hpar%Z.eqb_eq Hst%Z.leb_le]. apply Forall_app. split; [done|]. apply Forall_singleton.
  apply readProcess_ok in E as (_ & Hp & <-). exists task, data, f, tl, t. repeat split; try done; try lia. set_solver.
Qed.

Lemma task_loop_listed par t0 tasks seen acc t acc' t' : (t0 <= t)%nat ->
  Forall (listed t0 t par) acc -> task_loop par tasks seen acc t = (Some acc', t') -> Forall (listed t0 t' par) acc'.
Proof.
  revert seen acc t. induction tasks as [|task tasks IH]; intros seen acc t Ht Hacc H; cbn [task_loop] in H.
  { by injection H as <- <-. }
  destruct (atoi task); [|by eapply IH]. unbind H. injection E as <- <-.
  apply (Forall_listed_weaken t0 t (S t)) in Hacc; [|lia].
  destruct (file t _) as [data|[]] eqn:Hf; [|by eapply IH in H; try done; lia|done].
  unbind H. destruct x as [[seen' acc'']|]; [|done].
  pose proof (forward_le _ _ _ _ (forward_child_loop _ _ _ _) E).
  eapply (child_loop_listed par t0 t) in E; try done; [|lia]. eapply IH in H; try done; lia.
Qed.

Lemma children_of par t ds t' : children par t = (Some ds, t') -> Forall (child_of t t' par) ds.
Proof.
  intros H. unfold children in H. unbind H. injection E as <- <-. destruct (dir t _) as [tasks|]; [|done].
  unbind H. destruct x as [res|]; [|done]. eapply (task_loop_listed par t) in E; [|lia|done].
  unbind H. destruct x; [|done]. apply sameProcess_true in E0 as [-> Hp]. injection H as <- <-.
  eapply Forall_impl; [exact E|]. intros c Hc. exists u. split; [done|]. split; [lia|done].
Qed.

Lemma owner_in_earlier t0 t0' t1 p key : (t0' <= t0)%nat -> owner_in t0 t1 p key -> owner_in t0' t1 p key.
Proof.
  intros Hle H. destruct H as [t0 ts t1 p key|t0 ts t1 ta tb tc p child key];
    [apply (own_self _ ts)|apply (own_child _ ts _ ta tb tc _ child)]; try done; lia.
Qed.

Lemma descend_found v key current ds seen t seen' t' tb ts ta t0 :
  (t0 <= ts)%nat -> proc_at ts current -> (ts < ta)%nat -> (ta <= tb)%nat -> (tb <= t)%nat ->
  (forall c s, forward_in (v c s)) ->
  (forall c s t s' t', v c s t = (Some (Some true, s'), t') -> owner_in t t' c key) ->
  Forall (child_of ta tb current) ds ->
  descend v current ds seen t = (Some (Some true, seen'), t') -> owner_in t0 t' current key.
Proof.
  intros H0 Hts Hta Htb Ht Hf Hv Hds. revert seen t Ht. induction Hds as [|c ds Hc _ IH]; intros seen t Ht H; cbn [descend] in H.
  { done. }
  unbind H. pose proof (forward_le _ _ _ _ (Hf _ _) E). destruct x as [[[[]|] s1]|]; try done.
  - apply Hv in E. unbind H. destruct x.
    + apply sameProcess_true in E0 as [-> Hp]. injection H as <- <-.
      eapply (own_child t0 ts _ ta tb u); try done; [|lia]. by eapply owner_in_earlier.
    + rewrite sameProcess_tick in E0. injection E0 as _ <-. eapply IH; [|done]. lia.
  - eapply IH; [|done]. lia.
Qed.

Lemma forward_descend v current ds seen : (forall c s, forward_in (v c s)) -> forward_in (descend v current ds seen).
Proof. intros Hv. revert seen. induction ds as [|c ds IH]; intros seen; cbn [descend]; steps. Qed.
#[local] Hint Resolve forward_descend : proc.

Lemma forward_visit fuel key current seen : forward_in (visit NativeEndian fuel key current seen).
Proof. revert current seen. induction fuel as [|fuel IH]; intros current seen; cbn [visit]; steps. Qed.

(** A visit that says yes has seen the evidence. *)
Lemma visit_found fuel key current seen t seen' t' :
  visit NativeEndian fuel key current seen t = (Some (Some true, seen'), t') -> owner_in t t' current key.
Proof.
  revert current seen t seen' t'. induction fuel as [|fuel IH]; intros current seen t seen' t' H; cbn [visit] in H; [done|].
  destruct (bool_decide _); [done|]. unbind H. destruct x; [|done]. apply sameProcess_true in E as [-> Hp].
  destruct (_ <? _)%nat; [done|]. unbind H. destruct x as [[]|]; [| |done].
  { injection H as <- <-. apply (own_self _ t); [lia|done|by apply owns_holds]. }
  unbind H. destruct x as [ds|]; [|done].
  pose proof (forward_le _ _ _ _ (forward_owns _ _) E). pose proof (forward_le _ _ _ _ (forward_children _) E0).
  apply children_of in E0. eapply (descend_found _ _ _ _ _ u0 _ _ u0 t u); try done; try lia; eauto using forward_visit.
Qed.

(** *** Termination

    Every visit that goes on has a new identifier, and there is a bound on those. *)

Definition finishes (low : nat) (m : P (option visited)) : Prop :=
  forall t, exists r s t', m t = (Some (r, s), t') /\ (r = None \/ low <= size s <= maxTree)%nat.

Lemma finishes_weaken low low' m : (low' <= low)%nat -> finishes low m -> finishes low' m.
Proof.
  intros Hle Hm t. destruct (Hm t) as (r & s & t' & ? & Hr). exists r, s, t'. split; [done|].
  destruct Hr as [|]; [by left|right; lia].
Qed.

Lemma descend_total v current ds low seen : (low <= size seen <= maxTree)%nat ->
  (forall c s, (low <= size s <= maxTree)%nat -> finishes low (v c s)) -> finishes low (descend v current ds seen).
Proof.
  intros Hb Hv. revert seen Hb. induction ds as [|c ds IH]; intros seen Hb t; cbn [descend].
  { eexists _, _, _. split; [done|by right]. }
  unfold bind at 1. destruct (Hv c seen Hb t) as (r & s1 & t1 & -> & [-> |Hs]); [by eexists _, _, _; split; [|left]|].
  destruct r as [[]|]; [|by apply IH|eexists _, _, _; split; [done|by left]].
  unfold bind. rewrite sameProcess_tick. destruct (sameProcess current t1).1; [|by apply IH].
  eexists _, _, _. split; [done|by right].
Qed.

Lemma visit_total fuel key current seen : (size seen <= maxTree)%nat -> (maxTree - size seen < fuel)%nat ->
  finishes (size seen) (visit NativeEndian fuel key current seen).
Proof.
  revert current seen. induction fuel as [|fuel IH]; intros current seen Hs Hf t; [lia|]. cbn [visit].
  assert (forall s t, exists r s' t', @ret (option visited) (Some (None, s)) t = (Some (r, s'), t') /\
    (r = None \/ size seen <= size s' <= maxTree)%nat) as Herr by (intros; eexists _, _, _; split; [done|by left]).
  destruct (bool_decide_reflect (pid current ∈ seen)) as [|Hnew]; [apply Herr|].
  unfold bind at 1. rewrite sameProcess_tick. destruct (sameProcess current t).1; [|apply Herr].
  assert (size ({[pid current]} ∪ seen) = S (size seen)) as Hsize by (rewrite size_union by set_solver; by rewrite size_singleton).
  destruct (Nat.ltb_spec maxTree (size ({[pid current]} ∪ seen))) as [|Hle]; [apply Herr|].
  unfold bind at 1. destruct (processOwnsTuple NativeEndian current key (S t)) as [[[]|] t1]; [|clear Herr|apply Herr].
  { eexists _, _, _. split; [done|]. right. lia. }
  unfold bind. destruct (children current t1) as [[ds|] t2]; [|by eexists _, _, _; split; [|left]].
  eapply finishes_weaken, (descend_total _ _ _ (S (size seen))); [lia|lia|]. intros c s Hcs.
  eapply finishes_weaken, IH; lia.
Qed.

Lemma ownsConnection_total reg key t : is_Some (ownsConnection NativeEndian reg key t).1.
Proof.
  unfold ownsConnection, bind at 1. destruct (readProcess _ t) as [[p|e] t1]; [|done].
  destruct (negb _); [done|]. unfold bind at 1.
  destruct (visit_total visit_fuel key p ∅ ltac:(rewrite size_empty; unfold maxTree; lia)
    ltac:(rewrite size_empty; unfold visit_fuel; lia) t1) as (r & s & t2 & -> & _).
  destruct r as [o|]; [|done]. unfold bind, ret. destruct o; repeat destruct (sameProcess p _); cbn; eauto.
Qed.

(** What [ownsConnection] has seen when it says yes: the registered process, of the registered generation, before
    and after its tree was found to hold the connection. *)
Definition evidence (t0 t1 : nat) (reg : registration) (key : tuple) : Prop :=
  exists p te, pid p = PID (source reg) /\ start p = reg_start reg /\ proc_at t0 p /\
    owner_in (S t0) te p key /\ (te < t1)%nat /\ proc_at te p.

Lemma ownsConnection_found reg key t c t' :
  ownsConnection NativeEndian reg key t = (Some (true, c), t') -> evidence t t' reg key.
Proof.
  intros H. unfold ownsConnection in H. unbind H. destruct x as [p|e]; [|done].
  apply readProcess_ok in E as (-> & Hp & Hpid). destruct (Z.eqb_spec (start p) (reg_start reg)) as [Hst|]; [|done].
  cbn [negb] in H. unbind H. destruct x as [[[[]|] s]|]; try done.
  unbind H. destruct x; [|by unbind H; injection H]. apply sameProcess_true in E0 as [-> Hp'].
  unbind H. rewrite sameProcess_tick in E0. injection E0 as _ <-. injection H as _ <-.
  exists p, u. apply visit_found in E. repeat split; try done; lia.
Qed.

End ProcFacts.
(** ** The tracker and the others *)

Section TrackerFacts.
Context `{V : ProcView} (NativeEndian : ByteOrder) (identity : string).
Context (iter : nat -> list registration -> list registration).
Hypothesis iter_perm : forall t l, iter t l ≡ₚ l.

Local Abbreviation act := (act identity).
Local Abbreviation interfere := (interfere identity).
Local Abbreviation IsActive := (IsActive identity).
Local Abbreviation reg_loop := (reg_loop NativeEndian identity).
Local Abbreviation resolveT := (resolveT NativeEndian identity iter).
Local Abbreviation resolve := (resolve NativeEndian identity iter).
Local Abbreviation SourceOf := (SourceOf NativeEndian identity iter).
Local Abbreviation evidence := (evidence NativeEndian).

(** A connection is attributed to a registration whose process tree was seen to hold it, or that was seen to
    hold the connection on whose behalf a proxy opened it. *)
Inductive attributed (g : Ghost) : tuple -> Source -> Prop :=
  | att_here key reg t0 t1 : reg ∈ registered g -> evidence t0 t1 reg key -> attributed g key (source reg)
  | att_through key key' s : (key, Some key') ∈ forwards g -> attributed g key' s -> attributed g key s.

Definition bridges_ok (w : World) : Prop :=
  forall key m tok b, bridges (tr w) !! key = Some m -> m !! tok = Some b ->
    exists x, binds w !! b = Some x /\ (key, b_tuple x) ∈ forwards (ghost w).

Definition regs_ok (w : World) : Prop :=
  forall i reg, registrations (tr w) !! i = Some reg -> i = Instance (source reg) /\ reg ∈ registered (ghost w).

Definition caches_ok (w : World) : Prop :=
  forall b x, binds w !! b = Some x -> Known (b_source x) = true ->
    exists key, b_tuple x = Some key /\ attributed (ghost w) key (b_source x).

Definition wf (w : World) : Prop := bridges_ok w /\ regs_ok w /\ caches_ok w.

(** Nothing recorded is forgotten, and bindings keep their connection. *)
Record grows (w w' : World) : Prop := mkGrows {
  g_forwards : forwards (ghost w) ⊆ forwards (ghost w');
  g_registered : registered (ghost w) ⊆ registered (ghost w');
  g_binds : forall b x, binds w !! b = Some x -> exists x', binds w' !! b = Some x' /\ b_tuple x' = b_tuple x }.

#[local] Instance grows_preorder : PreOrder grows.
Proof.
  split; [intros w; split; eauto|]. intros w1 w2 w3 [F1 R1 B1] [F2 R2 B2]. split; [set_solver..|].
  intros b x Hx. destruct (B1 b x Hx) as (x1 & H1 & E1). destruct (B2 b x1 H1) as (x2 & ? & ?). exists x2. split; [done|congruence].
Qed.

(** What every step of the tracker does to the world. *)
Definition moves (w w' : World) : Prop :=
  wf w -> wf w' /\ grows w w' /\ total_binds w' = total_binds w.

#[local] Instance moves_preorder : PreOrder moves.
Proof.
  split; [by intros w Hw|]. intros w1 w2 w3 H1 H2 Hw. destruct (H1 Hw) as (Hw2 & G1 & T1), (H2 Hw2) as (Hw3 & G2 & T2).
  split; [done|]. split; [by etrans|congruence].
Qed.

Lemma attributed_grows g g' key s : forwards g ⊆ forwards g' -> registered g ⊆ registered g' ->
  attributed g key s -> attributed g' key s.
Proof.
  intros Hf Hr. induction 1 as [key reg t0 t1 Hreg Hev|key key' s Hin _ IH];
    [eapply att_here; [by apply Hr|done]|eapply att_through; [by apply Hf|done]].
Qed.

(** A change that keeps the bindings but for closing and proven owners. *)
Lemma caches_grow w w' : caches_ok w -> forwards (ghost w) ⊆ forwards (ghost w') -> registered (ghost w) ⊆ registered (ghost w') ->
  (forall b x', binds w' !! b = Some x' -> Known (b_source x') = true ->
     (exists x, binds w !! b = Some x /\ b_tuple x' = b_tuple x /\ b_source x' = b_source x) \/
     exists key, b_tuple x' = Some key /\ attributed (ghost w') key (b_source x')) -> caches_ok w'.
Proof.
  intros Hc Hf Hr Hb b x' Hx' Hk. destruct (Hb b x' Hx' Hk) as [(x & Hx & Et & Es)|]; [|done].
  rewrite Es in Hk. destruct (Hc b x Hx Hk) as (key & ? & ?). exists key. split; [congruence|].
  rewrite Es. by eapply attributed_grows.
Qed.

Lemma alter_grows f b w : (forall x, b_tuple (f x) = b_tuple x) -> grows w (set_binding b f w).
Proof.
  intros Hf. split; [done..|]. intros b' x Hx. cbn. rewrite list_lookup_alter. case_decide as E; [|eauto].
  subst b'. rewrite Hx. cbn. eauto.
Qed.

Lemma alter_wf f b w : wf w -> (forall x, b_tuple (f x) = b_tuple x) ->
  (forall x, binds w !! b = Some x -> Known (b_source (f x)) = true ->
     b_source (f x) = b_source x \/ exists key, b_tuple x = Some key /\ attributed (ghost w) key (b_source (f x))) ->
  wf (set_binding b f w).
Proof.
  intros (Hb & Hr & Hc) Hf Hk. pose proof (alter_grows f b w Hf) as [_ _ G]. split; [|split; [exact Hr|]].
  - intros key m tok b' Hm Htok. destruct (Hb key m tok b' Hm Htok) as (x & Hx & Hin).
    destruct (G b' x Hx) as (x' & Hx' & E). exists x'. rewrite E. done.
  - apply (caches_grow w); [done..|]. intros b' x'. cbn. rewrite list_lookup_alter. case_decide as E; [|eauto 10].
    subst b'. intros (x & Hx & ->)%fmap_Some Hk'. rewrite Hf. destruct (Hk x Hx Hk'); eauto 10.
Qed.

(** *** What the others do *)

Lemma bind_wf key w : wf w -> wf (Bind key w).2 /\ grows w (Bind key w).2.
Proof.
  intros (Hb & Hr & Hc). assert (grows w (Bind key w).2) as G.
  { split; [done..|]. intros b x Hx. exists x. cbn. by rewrite (lookup_app_l_Some _ _ _ _ Hx). }
  split; [|done]. split; [|split; [exact Hr|]].
  - intros k m tok b Hm Htok. destruct (Hb k m tok b Hm Htok) as (x & Hx & Hin).
    destruct (g_binds _ _ G b x Hx) as (x' & ? & E). exists x'. by rewrite E.
  - apply (caches_grow w); [done..|]. intros b x'. cbn. intros [Hx|[_ Hx]]%lookup_app_Some; [eauto 10|].
    apply list_lookup_singleton_Some in Hx as [_ <-]. done.
Qed.

Lemma act_register service p st w : wf w -> wf (register identity service p st w).2 /\ grows w (register identity service p st w).2.
Proof.
  intros (Hb & Hr & Hc). split; [|split; [done|cbn; set_solver|eauto]]. split; [exact Hb|]. split.
  - intros i reg. cbn. rewrite lookup_insert. case_decide as E; [|intros [-> ?]%Hr; set_solver].
    intros [= <-]. split; [done|]. set_solver.
  - apply (caches_grow w); [done|done|cbn; set_solver|]. cbn. eauto 10.
Qed.

Lemma act_unregister i tok w : wf w -> wf (unregister i tok w) /\ grows w (unregister i tok w).
Proof.
  intros Hw. unfold unregister. destruct (registrations (tr w) !! i) as [reg|]; [|done]. destruct (_ =? _); [|done].
  destruct Hw as (Hb & Hr & Hc). split; [|by split; eauto]. split; [exact Hb|]. split; [|exact Hc].
  intros j r. cbn. intros [_ Hj]%lookup_delete_Some. by apply Hr.
Qed.

Lemma act_forward key accepted w : wf w -> wf (forward key accepted w).2 /\ grows w (forward key accepted w).2.
Proof.
  intros Hw. destruct (bind_wf accepted w Hw) as [(Hb & Hr & Hc) G].
  assert (grows w (forward key accepted w).2) as G'.
  { destruct G as [_ _ GB]. split; [cbn; set_solver|done|exact GB]. }
  split; [|done]. split; [|split; [exact Hr|]].
  - intros k m tok b. cbn. rewrite lookup_insert. case_decide as E.
    + subst k. intros [= <-]. rewrite lookup_insert. case_decide as E; [intros [= <-]|].
      * exists (mkBinding accepted false noSource). rewrite lookup_app_r, Nat.sub_diag by lia. split; [done|]. cbn. set_solver.
      * destruct (bridges (tr w) !! key) as [m|] eqn:Hm; cbn; [|by rewrite lookup_empty].
        intros Htok. destruct (Hb key m tok b Hm Htok) as (x & ? & ?). exists x. split; [done|cbn in *; set_solver].
    + intros Hm Htok. destruct (Hb k m tok b Hm Htok) as (x & ? & ?). exists x. split; [done|cbn in *; set_solver].
  - eapply (caches_grow (Bind accepted w).2); [done|cbn; set_solver|done|]. eauto 10.
Qed.

Lemma act_remove key tok w : wf w -> wf (remove_bridge key tok w) /\ grows w (remove_bridge key tok w).
Proof.
  intros (Hb & Hr & Hc). split; [|by split; eauto]. split; [|split; [exact Hr|exact Hc]].
  intros k m t b. unfold remove_bridge. cbn. case_decide as E.
  - intros [_ Hm]%lookup_delete_Some. by apply Hb.
  - rewrite lookup_insert. case_decide as Ek; [subst k; intros [= <-]|by apply Hb].
    intros [_ Ht]%lookup_delete_Some. destruct (bridges (tr w) !! key) as [m'|] eqn:Hm; [|done]. by eapply Hb.
Qed.

Lemma act_ok a w : wf w -> wf (act a w) /\ grows w (act a w).
Proof.
  destruct a; cbn [ConnOwner.act]; [by apply act_register|by apply act_unregister|by apply bind_wf| |by apply act_forward|by apply act_remove].
  intros Hw. split; [apply alter_wf; [done..|]; by left|by apply alter_grows].
Qed.

Lemma act_binds a w : length (binds (act a w)) = (length (binds w) + makes a)%nat.
Proof.
  destruct a; cbn; rewrite ?length_app, ?length_alter; cbn; try lia.
  unfold unregister. destruct (_ !! _); [|lia]. destruct (_ =? _); cbn; lia.
Qed.

Lemma acts_ok acts w : wf w ->
  let w' := foldl (fun w a => act a w) w acts in
  wf w' /\ grows w w' /\ length (binds w') = (length (binds w) + sum_list (makes <$> acts))%nat.
Proof.
  revert w. induction acts as [|a acts IH]; intros w Hw; cbn; [by rewrite Nat.add_0_r|].
  destruct (act_ok a w Hw) as [Hw1 G1], (IH (act a w) Hw1) as (Hw2 & G2 & L). split; [done|]. split; [by etrans|].
  rewrite L, act_binds. lia.
Qed.

Lemma act_sched a w : sched (act a w) = sched w.
Proof. destruct a; try done. cbn. unfold unregister. destruct (_ !! _); [|done]. by destruct (_ =? _). Qed.

Lemma interfere_moves w : moves w (interfere w).
Proof.
  intros Hw. unfold ConnOwner.interfere. destruct (sched w) as [|acts rest] eqn:Hs; [done|].
  destruct (acts_ok acts w Hw) as ((Hb & Hr & Hc) & [G1 G2 G3] & L). split; [done|]. split; [done|].
  unfold total_binds. cbn [binds sched]. rewrite L, Hs. cbn [concat]. rewrite fmap_app, sum_list_with_app. lia.
Qed.

Lemma on_proc_moves {A} (m : P A) w : moves w (on_proc m w).2.
Proof.
  intros (Hb & Hr & Hc). unfold on_proc. destruct (m (clock w)) as [x t]. cbn.
  split; [done|]. split; [by split; eauto|done].
Qed.

Lemma isActive_moves s w : moves w (IsActive s w).2.
Proof.
  unfold ConnOwner.IsActive. destruct (negb (Known s)); [done|]. set (w1 := interfere w).
  transitivity w1; [apply interfere_moves|]. destruct (registrations (tr w1) !! _) as [reg|]; [|done].
  destruct (negb _); [done|]. pose proof (on_proc_moves (processStart (PID s)) w1) as M.
  destruct (on_proc _ w1) as [r w2]. transitivity w2; [exact M|]. destruct r as [st|]; [|done].
  destruct (negb _); [done|]. transitivity (interfere w2); [apply interfere_moves|].
  by destruct (registrations _ !! _).
Qed.

(** *** Attribution is backed by evidence *)

Definition backed (key : tuple) (s : Source) (w : World) : Prop := Known s = true -> attributed (ghost w) key s.

Lemma backed_grows key s w w' : grows w w' -> backed key s w -> backed key s w'.
Proof. intros [? ? _] H Hk. eapply attributed_grows; [done..|]. by apply H. Qed.

Lemma backed_none key w : backed key noSource w.
Proof. done. Qed.

Lemma reg_loop_sound key regs found w s w' : wf w -> regs ⊆ registered (ghost w) -> backed key found w ->
  reg_loop key regs found w = Some (s, w') -> wf w' /\ grows w w' /\ total_binds w' = total_binds w /\ backed key s w'.
Proof.
  revert found w. induction regs as [|reg regs IH]; intros found w Hw Hregs Hf H; cbn [ConnOwner.reg_loop] in H.
  { by injection H as <- <-. }
  unfold on_proc at 1 in H. destruct (ownsConnection NativeEndian reg key (clock w)) as [r t1] eqn:Hown.
  set (w1 := mkWorld _ _ _ t1 _) in H.
  assert (moves w w1) as M1 by (pose proof (on_proc_moves (ownsConnection NativeEndian reg key) w) as M;
    unfold on_proc in M; by rewrite Hown in M).
  destruct r as [[owned complete]|]; [|done].
  assert (moves w (interfere w1)) as M2 by (etrans; [exact M1|apply interfere_moves]). set (w2 := interfere w1) in *.
  assert (forall f v, moves w v -> backed key f v -> reg_loop key regs f v = Some (s, w') ->
    wf w' /\ grows w w' /\ total_binds w' = total_binds w /\ backed key s w') as Hrest.
  { intros f v Mv Hb E. destruct (Mv Hw) as (Hv & Gv & Tv).
    destruct (IH f v Hv) as (? & ? & ? & ?); [destruct Gv; set_solver|done|done|].
    split; [done|]. split; [by etrans|]. split; [congruence|done]. }
  assert (forall v, moves w v -> Some (noSource, v) = Some (s, w') ->
    wf w' /\ grows w w' /\ total_binds w' = total_binds w /\ backed key s w') as Hnone.
  { intros v Mv [= <- <-]. destruct (Mv Hw) as (? & ? & ?). done. }
  destruct (registrations (tr w2) !! _) as [current|]; [|apply (Hrest found w2 M2); [|done]; by eapply backed_grows, Hf; apply M2].
  destruct (negb (token current =? token reg)); [apply (Hrest found w2 M2); [|done]; by eapply backed_grows, Hf; apply M2|].
  destruct (negb complete); [by apply (Hnone w2)|].
  pose proof (isActive_moves (source reg) w2) as M3. destruct (IsActive (source reg) w2) as [active w3].
  assert (moves w w3) as M4 by by transitivity w2. assert (backed key found w3) as Hf3 by (eapply backed_grows, Hf; by apply M4).
  destruct active; [|by apply (Hrest found w3)]. cbn [negb] in H. destruct owned; [|by apply (Hrest found w3)].
  destruct (_ && _); [by apply (Hnone w3)|]. apply (Hrest (source reg) w3 M4); [|done].
  intros _. destruct (M4 Hw) as (_ & [_ Hr _] & _). eapply att_here; [|by eapply ownsConnection_found]. set_solver.
Qed.

(** *** The loop over the registrations ends *)

Lemma reg_loop_total key regs found w : is_Some (reg_loop key regs found w).
Proof.
  revert found w. induction regs as [|reg regs IH]; intros found w; cbn [ConnOwner.reg_loop]; [done|].
  unfold on_proc at 1. destruct (ownsConnection_total NativeEndian reg key (clock w)) as [[owned complete] E].
  destruct (ownsConnection NativeEndian reg key (clock w)) as [r t1]. cbn in E. subst r.
  destruct (registrations _ !! _); [|apply IH]. destruct (negb _); [apply IH|]. destruct (negb _); [done|].
  destruct (IsActive _ _) as [active w3]. destruct (negb active); [apply IH|]. destruct owned; [|apply IH].
  destruct (_ && _); [done|apply IH].
Qed.

(** What resolving a binding promises. *)
Definition resolves (b : nat) (w : World) (s : Source) (w' : World) : Prop :=
  wf w' /\ grows w w' /\ total_binds w' = total_binds w /\
  (Known s = true -> exists x key, binds w' !! b = Some x /\ b_tuple x = Some key /\ attributed (ghost w') key s).

Lemma snapshot_registered w t : wf w -> iter t (map_to_list (registrations (tr w))).*2 ⊆ registered (ghost w).
Proof.
  intros (_ & Hr & _) reg. rewrite (iter_perm _ _). intros ([i r] & -> & Hi%elem_of_map_to_list)%list_elem_of_fmap.
  by apply (Hr i r).
Qed.

Lemma resolveT_sound rb key w s w' : wf w ->
  (forall b w s w', wf w -> rb b w = Some (s, w') -> resolves b w s w') ->
  resolveT rb key w = Some (s, w') -> wf w' /\ grows w w' /\ total_binds w' = total_binds w /\ backed key s w'.
Proof.
  intros Hw Hrb H. unfold ConnOwner.resolveT in H. destruct (interfere_moves w Hw) as (Hw1 & G1 & T1). set (w1 := interfere w) in *.
  assert (forall v, wf w' /\ grows w1 w' /\ total_binds w' = total_binds w1 /\ v ->
    wf w' /\ grows w w' /\ total_binds w' = total_binds w /\ v) as Hafter.
  { intros v (? & ? & ? & ?). split; [done|]. split; [by etrans|]. split; [congruence|done]. }
  destruct (map_to_list _) as [|[tok b] [|]] eqn:Hm; apply Hafter.
  - eapply reg_loop_sound; [exact Hw1|by apply snapshot_registered|apply backed_none|exact H].
  - destruct (Hrb b w1 s w' Hw1 H) as (? & G & ? & Hk). split; [done|]. split; [done|]. split; [done|].
    intros Hs. destruct (Hk Hs) as (x & key' & Hx & Ht & Hatt). eapply att_through; [|exact Hatt].
    assert ((tok, b) ∈ map_to_list (default ∅ (bridges (tr w1) !! key))) as Hin by (rewrite Hm; set_solver).
    apply elem_of_map_to_list in Hin. destruct (bridges (tr w1) !! key) as [m|] eqn:Hb; [|done].
    destruct Hw1 as (Hbr & _ & _). destruct (Hbr key m tok b Hb Hin) as (x1 & Hx1 & Hfw).
    destruct G as [GF _ GB]. destruct (GB b x1 Hx1) as (x2 & Hx2 & E2). rewrite Hx in Hx2. injection Hx2 as <-.
    apply GF. by rewrite <- Ht, E2.
  - injection H as <- <-. split; [done|]. split; [done|]. split; [done|apply backed_none].
Qed.

Lemma resolve_sound fuel seen b w s w' : wf w -> resolve fuel seen b w = Some (s, w') -> resolves b w s w'.
Proof.
  revert seen b w s w'. induction fuel as [|fuel IH]; intros seen b w s w' Hw H; cbn [ConnOwner.resolve] in H; [done|].
  destruct (interfere_moves w Hw) as (Hw1 & G1 & T1). set (w1 := interfere w) in *.
  destruct (binds w1 !! b) as [x|] eqn:Hx; [|done]. cbn in H.
  assert (forall v, wf v -> grows w v -> total_binds v = total_binds w -> forall y, binds v !! b = Some y ->
    Some (b_source y, v) = Some (s, w') -> resolves b w s w') as Hcached.
  { intros v Hv Gv Tv y Hy [= <- <-]. split; [done|]. split; [done|]. split; [done|]. intros Hk.
    destruct Hv as (_ & _ & Hc). destruct (Hc b y Hy Hk) as (key & ? & ?). eauto. }
  destruct (b_tuple x) as [key|] eqn:Ht; [|by eapply (Hcached w1)]. destruct (_ || _); [by eapply (Hcached w1)|].
  destruct (bool_decide _); [injection H as <- <-; by split_and!|].
  destruct (resolveT _ key w1) as [[s2 w2]|] eqn:HT; [|done]. cbn -[set_binding ConnOwner.interfere] in H.
  destruct (resolveT_sound _ key w1 s2 w2 Hw1 (IH _) HT) as (Hw2 & G2 & T2 & Hback).
  destruct (interfere_moves w2 Hw2) as (Hw3 & G3 & T3). set (w3 := interfere w2) in *.
  assert (grows w3 (set_binding b (cache s2) w3)) as G4 by (apply alter_grows; intros y; unfold cache; by destruct (_ && _)).
  destruct (alter (cache s2) b (binds w3) !! b) as [y|] eqn:Hy; [|done].
  eapply (Hcached (set_binding b (cache s2) w3)); [|exact (transitivity G1 (transitivity G2 (transitivity G3 G4)))| |exact Hy|exact H].
  - apply alter_wf; [done|intros z; unfold cache; by destruct (_ && _)|]. intros z Hz. unfold cache.
    destruct (_ && _) eqn:E; cbn; [|by left]. intros Hk. right.
    destruct (g_binds _ _ (transitivity G2 G3) b x Hx) as (z' & Hz' & Et). rewrite Hz in Hz'. injection Hz' as <-.
    exists key. split; [congruence|]. by apply (backed_grows _ _ _ _ G3 Hback).
  - unfold total_binds in *. cbn. rewrite length_alter. lia.
Qed.

(** *** Resolution ends *)

Lemma seen_bounded (seen : gset nat) n : (forall b, b ∈ seen -> (b < n)%nat) -> (size seen <= n)%nat.
Proof.
  intros H. assert (size (list_to_set (seq 0 n) : gset nat) = n) as <-.
  { rewrite size_list_to_set by apply NoDup_seq. by rewrite length_seq. }
  apply subseteq_size. intros b Hb. apply elem_of_list_to_set, elem_of_seq. specialize (H b Hb). lia.
Qed.

Lemma resolveT_total rb key w : wf w ->
  (forall b w', wf w' -> total_binds w' = total_binds w -> (b < length (binds w'))%nat -> is_Some (rb b w')) ->
  is_Some (resolveT rb key w).
Proof.
  intros Hw Hrb. unfold ConnOwner.resolveT. destruct (interfere_moves w Hw) as (Hw1 & G1 & T1). set (w1 := interfere w) in *.
  destruct (map_to_list _) as [|[tok b] [|]] eqn:Hm; [apply reg_loop_total| |done]. apply Hrb; [done..|].
  assert ((tok, b) ∈ map_to_list (default ∅ (bridges (tr w1) !! key))) as Hin by (rewrite Hm; set_solver).
  apply elem_of_map_to_list in Hin. destruct (bridges (tr w1) !! key) as [m|] eqn:Hb; [|done].
  destruct (proj1 Hw1 key m tok b Hb Hin) as (x & Hx & _). by eapply lookup_lt_Some.
Qed.

Lemma resolve_total fuel seen b w : wf w -> (b < length (binds w))%nat ->
  (forall c, c ∈ seen -> (c < total_binds w)%nat) -> (total_binds w < fuel + size seen)%nat ->
  is_Some (resolve fuel seen b w).
Proof.
  revert seen b w. induction fuel as [|fuel IH]; intros seen b w Hw Hb Hseen Hfuel.
  { pose proof (seen_bounded seen _ Hseen). lia. }
  cbn [ConnOwner.resolve]. destruct (interfere_moves w Hw) as (Hw1 & G1 & T1). set (w1 := interfere w) in *.
  destruct (lookup_lt_is_Some_2 _ _ Hb) as [x0 Hx0]. destruct (g_binds _ _ G1 b x0 Hx0) as (x & Hx & _). rewrite Hx. cbn.
  destruct (b_tuple x) as [key|]; [|done]. destruct (_ || _); [done|].
  destruct (bool_decide_reflect (b ∈ seen)) as [|Hnew]; [done|].
  assert (b < total_binds w)%nat as Hbt by (unfold total_binds; lia).
  assert (is_Some (resolveT (resolve fuel ({[b]} ∪ seen)) key w1)) as [[s2 w2] HT].
  { apply resolveT_total; [done|]. intros c v Hv Tv Hc. apply IH; [done|done|rewrite Tv, T1; set_solver|].
    rewrite Tv, T1, size_union, size_singleton by set_solver. lia. }
  rewrite HT. cbn.
  destruct (resolveT_sound _ key w1 s2 w2 Hw1 (resolve_sound _ _) HT) as (Hw2 & G2 & _).
  destruct (interfere_moves w2 Hw2) as (_ & G3 & _).
  destruct (g_binds _ _ (transitivity G2 G3) b x Hx) as (y & Hy & _).
  rewrite list_lookup_alter_eq, Hy. done.
Qed.

(** ** The properties *)

(** The worlds a tracker can be in: fresh; after an action of any goroutine; after a resolution, whatever the
    others did meanwhile and were to do; with another schedule, and at another time. *)
Inductive reach : World -> Prop :=
  | reach_new sc t : reach (newWorld sc t)
  | reach_act w a : reach w -> reach (act a w)
  | reach_resolve w b s w' : reach w -> SourceOf b w = Some (s, w') -> reach w'
  | reach_time w sc t : reach w -> reach (mkWorld (tr w) (binds w) sc t (ghost w)).

Lemma reach_wf w : reach w -> wf w.
Proof.
  induction 1 as [sc t|w a _ IH|w b s w' _ IH H|w sc t _ IH].
  - split; [|split]; intros ? *; cbn; by rewrite ?lookup_empty, ?lookup_nil.
  - by apply act_ok.
  - by apply (resolve_sound _ _ _ _ _ _ IH H).
  - exact IH.
Qed.

(** C17: resolving a binding returns, also when bridges lead in a circle and while other goroutines add bindings
    and bridges: the search through a process tree visits an identifier once and gives up past 4096 of
    them, and the search through bridges meets a binding once. *)
Theorem resolution_terminates w b :
  reach w -> (b < length (binds w))%nat -> is_Some (SourceOf b w).
Proof.
  intros Hr Hb. apply resolve_total; [by apply reach_wf|done|set_solver|]. rewrite size_empty. lia.
Qed.

End TrackerFacts.

(** *** Registrations are told apart by their tokens *)

Section Tokens.
Context `{V : ProcView} (identity : string).

Local Abbreviation act := (act identity).
Local Abbreviation interfere := (interfere identity).
Local Abbreviation IsActive := (IsActive identity).

Lemma show_Z_no_slash z : 0 <= z -> sall (is_not "/") (show_Z z) = true.
Proof. intros Hz. eapply sall_impl; [|by apply show_Z_digits]. by intros [[] [] [] [] [] [] [] []]. Qed.

Lemma instance_name_token p st tok p' st' tok' : 0 <= tok -> 0 <= tok' ->
  instance_name identity p st tok = instance_name identity p' st' tok' -> tok = tok'.
Proof.
  intros H H' E. unfold instance_name in E.
  assert (forall p st tok, identity +:+ "/" +:+ show_Z p +:+ "/" +:+ show_Z st +:+ "/" +:+ show_Z tok =
    (identity +:+ "/" +:+ show_Z p +:+ "/" +:+ show_Z st) +:+ String "/" (show_Z tok)) as Hl.
  { intros. by rewrite !string_app_assoc. }
  rewrite !Hl in E. apply (f_equal (scut_last "/")) in E.
  rewrite !scut_last_app in E by by apply show_Z_no_slash. injection E as _ E.
  pose proof (show_Z_value tok H) as Hv. rewrite E, show_Z_value in Hv by done. by injection Hv.
Qed.

(** Tokens of registrations ever made are names that were given out; [n] more may be. *)
Definition tokens_ok (n : Z) (w : World) : Prop :=
  0 <= next (tr w) /\ next (tr w) + n < 2 ^ 64 /\
  forall reg, reg ∈ registered (ghost w) ->
    0 <= token reg <= next (tr w) /\ exists p st, Instance (source reg) = instance_name identity p st (token reg).

(** The source of [reg] belongs to no registration. *)
Definition retired (reg : registration) (w : World) : Prop :=
  reg ∈ registered (ghost w) /\ registrations (tr w) !! Instance (source reg) = None.

Lemma u64_next n w : 0 <= n -> tokens_ok (Z.succ n) w -> u64 (next (tr w) + 1) = next (tr w) + 1.
Proof. intros Hn (H0 & H1 & _). unfold u64. apply wrap_u_small. lia. Qed.

Lemma act_tokens n a w : 0 <= n -> tokens_ok (Z.succ n) w -> tokens_ok n (act a w).
Proof.
  intros Hn Hw. pose proof (u64_next n w Hn Hw) as Hu. destruct Hw as (H0 & H1 & Hr).
  assert (tokens_ok n w) as Hsame by (split; [done|]; split; [lia|done]).
  destruct a as [service p st|i tok|key|b|key acc|key tok]; cbn [ConnOwner.act]; try done.
  - unfold register. cbn. rewrite Hu. split; [cbn; lia|]. split; [cbn; lia|]. cbn. intros reg.
    rewrite elem_of_app, list_elem_of_singleton. intros [Hin| ->].
    + destruct (Hr reg Hin) as [? ?]. split; [lia|done].
    + cbn. split; [lia|]. eauto.
  - unfold unregister. destruct (_ !! _); [|done]. by destruct (_ =? _).
  - cbn. rewrite Hu. split; [cbn; lia|]. split; [cbn; lia|]. cbn. intros reg Hin. destruct (Hr reg Hin). split; [lia|done].
Qed.

Lemma act_retired n a w reg : 0 <= n -> tokens_ok (Z.succ n) w -> retired reg w -> retired reg (act a w).
Proof.
  intros Hn Hw [Hin Hnone]. pose proof (u64_next n w Hn Hw) as Hu. destruct Hw as (H0 & H1 & Hr).
  destruct a as [service p st|i tok|key|b|key acc|key tok]; cbn [ConnOwner.act]; try done.
  - unfold register. cbn. split; [cbn; set_solver|]. cbn. rewrite Hu. rewrite lookup_insert_ne; [done|].
    destruct (Hr reg Hin) as (Htok & p' & st' & ->). intros E%instance_name_token; lia.
  - unfold unregister. destruct (_ !! i); [|done]. destruct (_ =? _); [|done]. split; [done|]. cbn.
    by rewrite lookup_delete, Hnone; case_decide.
Qed.

Lemma acts_tokens acts w : tokens_ok (Z.of_nat (length acts)) w -> forall n, 0 <= n ->
  tokens_ok (n + Z.of_nat (length acts)) w -> tokens_ok n (foldl (fun w a => act a w) w acts).
Proof.
  revert w. induction acts as [|a acts IH]; intros w Hw n Hn Hwn; cbn [foldl]; [by rewrite Z.add_0_r in Hwn|].
  cbn [length] in *. apply IH; [|done|]; apply act_tokens; [lia| |lia|].
  - by rewrite <- Nat2Z.inj_succ.
  - replace (Z.succ (n + Z.of_nat (length acts))) with (n + Z.of_nat (S (length acts))) by lia. done.
Qed.

Lemma acts_retired acts w reg : tokens_ok (Z.of_nat (length acts)) w -> retired reg w ->
  retired reg (foldl (fun w a => act a w) w acts).
Proof.
  revert w. induction acts as [|a acts IH]; intros w Hw Hreg; cbn [foldl]; [done|]. cbn [length] in Hw.
  rewrite Nat2Z.inj_succ in Hw. apply IH; [apply act_tokens; [lia|done]|apply (act_retired (Z.of_nat (length acts))); [lia|done..]].
Qed.

(** a source whose registration was removed is never active again, whatever is registered later, under the
    same service name or a reused process identifier, and whatever happens while the question is answered
    (for the 2^64 - 1 tokens a tracker has). *)
Theorem unregistered_stays_inactive sc t acts later reg :
  Z.of_nat (length acts + length later + length (concat sc)) < 2 ^ 64 ->
  let w := foldl (fun w a => act a w) (newWorld sc t) acts in
  reg ∈ registered (ghost w) -> registrations (tr w) !! Instance (source reg) = None ->
  (IsActive (source reg) (foldl (fun w a => act a w) w later)).1 = false.
Proof.
  intros Hlen w Hin Hnone.
  assert (tokens_ok (Z.of_nat (length acts + length later + length (concat sc))) (newWorld sc t)) as H0.
  { split; [done|]. split; [cbn; lia|]. cbn. set_solver. }
  assert (tokens_ok (Z.of_nat (length later + length (concat sc))) w) as H1.
  { apply acts_tokens; [|lia|by replace (_ + _) with (Z.of_nat (length acts + length later + length (concat sc))) by lia].
    destruct H0 as (? & ? & ?). split; [done|]. split; [lia|done]. }
  assert (forall k, (k <= length later + length (concat sc))%nat -> tokens_ok (Z.of_nat k) w) as H2.
  { intros k Hk. destruct H1 as (? & ? & ?). split; [done|]. split; [lia|done]. }
  set (v := foldl (fun w a => act a w) w later).
  assert (sched v = sc) as Hs.
  { assert (forall l x, sched (foldl (fun w a => act a w) x l) = sched x) as Hsc.
    { induction l as [|a l IH]; intros x; cbn; [done|]. by rewrite IH, act_sched. }
    unfold v, w. by rewrite !Hsc. }
  assert (retired reg (interfere v)) as [_ Hr].
  { unfold ConnOwner.interfere. rewrite Hs. destruct sc as [|acts2 sc']; [by apply acts_retired; [apply H2; lia|]|].
    cbn [concat] in *. rewrite length_app in *.
    assert (retired reg (foldl (fun w a => act a w) w (later ++ acts2))) as [? ?].
    { apply acts_retired; [|done]. rewrite length_app. apply H2. lia. }
    rewrite foldl_app in *. done. }
  unfold ConnOwner.IsActive. destruct (Known (source reg)); [|done]. cbn [negb]. by rewrite Hr.
Qed.

End Tokens.
(** ** An example

    Process 42 is registered as [api]; its child 43 holds a connection to port 9092. *)

Module Example.

Definition ip : string := put_be 4 2130706433.
Definition key : tuple := mkTuple (mkEndpoint (Addr4 ip) 40000) (mkEndpoint (Addr4 ip) 9092).
Definition stat (p pp st : Z) : string := show_stat p "srv (x)" "S" pp (replicate 17 "0") st ["0"].
Definition row : string := show_row LittleEndian kernel_pad 5 "0:" ip 40000 ip 9092 "01" ["0:0"; "0:0"; "0"; "0"; "0"] 7 ["1"].

Definition files : gmap (list string) string := list_to_map
  [(["42"; "stat"], stat 42 1 100); (["43"; "stat"], stat 43 42 105);
   (["42"; "task"; "42"; "children"], "43 "); (["43"; "task"; "43"; "children"], "");
   (["42"; "net"; "tcp"], "  sl" +:+ String LF row); (["43"; "net"; "tcp"], "  sl" +:+ String LF row)].
Definition dirs : gmap (list string) (list string) := list_to_map
  [(["42"; "task"], ["42"]); (["43"; "task"], ["43"]); (["42"; "fd"], ["0"]); (["43"; "fd"], ["0"; "3"])].
Definition links : gmap (list string) string := list_to_map
  [(["42"; "fd"; "0"], "/dev/null"); (["43"; "fd"; "0"], "/dev/null"); (["43"; "fd"; "3"], socket_name 7)].

Definition found {A} (x : option A) : result ferr A := match x with Some x => Ok x | None => Err ErrNotExist end.

#[export] Instance view : ProcView :=
  {| file _ path := found (files !! path); dir _ path := found (dirs !! path); link _ path := found (links !! path) |}.

Definition w0 : World := act "id" (ABind (Some key)) (act "id" (ARegister "api" 42 100) (newWorld [] 0)).
Definition keep (_ : nat) (l : list registration) : list registration := l.

Lemma keep_perm t l : keep t l ≡ₚ l.
Proof. done. Qed.

Definition api : registration := mkReg (mkSource "api" "id/42/100/1" 42) 100 1.
Definition resolved : Source * World := default (noSource, w0) (SourceOf LittleEndian "id" keep 0 w0).

Lemma w0_reach : reach LittleEndian "id" keep w0.
Proof. apply reach_act, reach_act, reach_new. Qed.

(** A circle of bridges: the connection was forwarded to itself. *)
Definition w1 : World := act "id" (AForward key (Some key)) w0.

Lemma resolution_terminates_witness : is_Some (SourceOf LittleEndian "id" keep 1 w1).
Proof.
  apply (resolution_terminates LittleEndian "id" keep keep_perm w1 1); [apply reach_act, w0_reach|vm_compute; lia].
Defined.

Lemma unregistered_stays_inactive_witness :
  (IsActive "id" (source api)
     (foldl (fun w a => act "id" a w)
        (foldl (fun w a => act "id" a w) (newWorld [] 0) [ARegister "api" 42 100; AUnregister "id/42/100/1" 1])
        [ARegister "api" 42 100])).1 = false.
Proof.
  apply (unregistered_stays_inactive "id" [] 0 [ARegister "api" 42 100; AUnregister "id/42/100/1" 1] [ARegister "api" 42 100] api).
  - cbn. lia.
  - vm_compute. apply list_elem_of_singleton. reflexivity.
  - vm_compute. reflexivity.
Defined.

End Example.

End ConnOwner.
