(* ===== verification/ConnPool.v ===== *)
(** * Concurrent attribution ([internal/connowner/tracker.go])

    [Binding.Source] as a program of atomic steps - the critical sections of the tracker and of
    the bindings, and the looks at [/proc] - and any number of such programs stepped in turn
    with the other operations of the tracker.  Run alone under a schedule the program is the
    [resolve] of the file on the tracker. *)

From Stdlib Require Import ZArith Lia.
From S2P Require Import Prelude GoStd GoText ProcFs ConnOwner.
From stdpp Require Import base gmap sets strings numbers relations list.
Local Open Scope Z_scope.
Import GoStd ProcFs ConnOwner.

Module ConnPool.

(** A program: the result, or a step on the world and the rest.  [locked]: the step is a critical section. *)
Inductive prog (A : Type) :=
  | Ret (a : A)
  | Step (locked : bool) (k : World -> prog A * World).
Arguments Ret {A}.
Arguments Step {A}.

(** Induction over the steps of a program. *)
Lemma prog_steps {A} (Q : prog A -> Prop) : (forall a, Q (Ret a)) -> (forall locked k, (forall w, Q (k w).1) -> Q (Step locked k)) -> forall p, Q p.
Proof. intros HR HS. fix IH 1. intros [a|locked k]; [apply HR|]. apply HS. intros w. apply IH. Qed.

Fixpoint bindp {A B} (p : prog A) (f : A -> prog B) : prog B :=
  match p with
  | Ret a => f a
  | Step locked k => Step locked (fun w => let '(p, w) := k w in (bindp p f, w))
  end.

Declare Scope prog_scope.
Delimit Scope prog_scope with prog.
Notation "x <~ p ; k" := (bindp p (fun x => k)) (at level 20, p at level 100, k at level 200) : prog_scope.
Local Open Scope prog_scope.

(** A critical section that only reads, and a look at [/proc]. *)
Definition look {A} (f : World -> A) : prog A := Step true (fun w => (Ret (f w), w)).
Definition proc {A} (m : P A) : prog A := Step false (fun w => let '(x, w) := on_proc m w in (Ret x, w)).

Section Programs.
Context `{V : ProcView} (NativeEndian : ByteOrder) (identity : string).
Context (iter : nat -> list registration -> list registration).

Definition IsActiveP (s : Source) : prog bool :=
  if negb (Known s) then Ret false
  else
    r <~ look (fun w => registrations (tr w) !! Instance s);
    match r with
    | None => Ret false
    | Some reg =>
        if negb (bool_decide (source reg = s)) then Ret false
        else
          st <~ proc (processStart (PID s));
          match st with
          | Err _ => Ret false
          | Ok st =>
              if negb (st =? reg_start reg) then Ret false
              else
                c <~ look (fun w => registrations (tr w) !! Instance s);
                Ret (match c with Some current => token current =? token reg | None => false end)
          end
    end.

Fixpoint reg_loopP (key : tuple) (regs : list registration) (found : Source) : prog (option Source) :=
  match regs with
  | [] => Ret (Some found)
  | reg :: regs =>
      r <~ proc (ownsConnection NativeEndian reg key);
      match r with
      | None => Ret None
      | Some (owned, complete) =>
          c <~ look (fun w => registrations (tr w) !! Instance (source reg));
          match c with
          | None => reg_loopP key regs found
          | Some current =>
              if negb (token current =? token reg) then reg_loopP key regs found
              else if negb complete then Ret (Some noSource)
              else
                active <~ IsActiveP (source reg);
                if negb active then reg_loopP key regs found
                else if (owned : bool) then
                  if Known found && negb (bool_decide (found = source reg)) then Ret (Some noSource)
                  else reg_loopP key regs (source reg)
                else reg_loopP key regs found
          end
      end
  end.

Definition resolveTP (resolveB : nat -> prog (option Source)) (key : tuple) : prog (option Source) :=
  r <~ look (fun w => (map_to_list (default ∅ (bridges (tr w) !! key)), iter (clock w) (map_to_list (registrations (tr w))).*2));
  match r.1 with
  | [] => reg_loopP key r.2 noSource
  | [(_, bridge)] => resolveB bridge
  | _ => Ret (Some noSource)
  end.

(** The last critical section of [Binding.resolve]. *)
Definition remember (b : nat) (s : Source) : prog (option Source) :=
  Step true (fun w => let w := set_binding b (cache s) w in (Ret (b_source <$> binds w !! b), w)).

Fixpoint resolveP (fuel : nat) (seen : gset nat) (b : nat) : prog (option Source) :=
  match fuel with
  | O => Ret None
  | S fuel =>
      x <~ look (fun w => binds w !! b);
      match x with
      | None => Ret None
      | Some x =>
          match b_tuple x with
          | None => Ret (Some (b_source x))
          | Some key =>
              if Known (b_source x) || closed x then Ret (Some (b_source x))
              else if bool_decide (b ∈ seen) then Ret (Some noSource)
              else
                s <~ resolveTP (resolveP fuel ({[b]} ∪ seen)) key;
                match s with None => Ret None | Some s => remember b s end
          end
      end
  end.

(** ** One program under a schedule *)

Fixpoint run {A} (p : prog A) (w : World) : A * World :=
  match p with
  | Ret a => (a, w)
  | Step locked k => let '(p, w) := k (if locked then interfere identity w else w) in run p w
  end.

Lemma run_bind {A B} (p : prog A) (f : A -> prog B) w : run (bindp p f) w = let '(a, w) := run p w in run (f a) w.
Proof.
  revert w. induction p as [a|locked k IH] using prog_steps; intros w; [done|]. cbn.
  specialize (IH (if locked then interfere identity w else w)). destruct (k _) as [p' w']. apply IH.
Qed.

Local Abbreviation reg_loop := (reg_loop NativeEndian identity).
Local Abbreviation resolveT := (resolveT NativeEndian identity iter).
Local Abbreviation resolve := (resolve NativeEndian identity iter).

(** What a run gives, as the tracker's functions give it. *)
Definition outcome (r : option Source * World) : option (Source * World) := s ← r.1; Some (s, r.2).

Lemma run_IsActive s w : run (IsActiveP s) w = IsActive identity s w.
Proof.
  unfold IsActiveP, IsActive. destruct (negb (Known s)); [done|]. rewrite run_bind. cbn [run look]. set (w1 := interfere identity w).
  destruct (registrations (tr w1) !! _) as [reg|]; [|done]. destruct (negb _); [done|]. rewrite run_bind. cbn [run proc].
  destruct (on_proc (processStart (PID s)) w1) as [[st|] w2]; [|done]. cbn [run]. destruct (negb _); [done|]. cbn. by destruct (registrations _ !! _).
Qed.

Lemma run_reg_loop key regs found w : outcome (run (reg_loopP key regs found) w) = reg_loop key regs found w.
Proof.
  revert found w. induction regs as [|reg regs IH]; intros found w; [done|]. cbn [reg_loopP ConnOwner.reg_loop]. rewrite run_bind. cbn [run proc].
  destruct (on_proc _ w) as [[[owned complete]|] w1]; [|done]. cbn [run]. rewrite run_bind. cbn [run look]. set (w2 := interfere identity w1).
  destruct (registrations (tr w2) !! _) as [current|]; [|apply IH]. destruct (negb _); [apply IH|]. destruct (negb complete); [done|].
  rewrite run_bind, run_IsActive. destruct (IsActive _ _ _) as [active w3]. destruct (negb active); [apply IH|]. destruct owned; [|apply IH].
  destruct (_ && _); [done|apply IH].
Qed.

(** Run alone under a schedule, the program is [resolve]. *)
Theorem run_resolve fuel seen b w : outcome (run (resolveP fuel seen b) w) = resolve fuel seen b w.
Proof.
  revert seen b w. induction fuel as [|fuel IH]; intros seen b w; [done|]. cbn [resolveP ConnOwner.resolve]. rewrite run_bind. cbn [run look].
  set (w1 := interfere identity w). destruct (binds w1 !! b) as [x|]; [|done]. cbn [mbind option_bind].
  destruct (b_tuple x) as [key|]; [|done]. destruct (_ || _); [done|]. destruct (bool_decide _); [done|]. rewrite run_bind.
  assert (ET : outcome (run (resolveTP (resolveP fuel ({[b]} ∪ seen)) key) w1) = resolveT (resolve fuel ({[b]} ∪ seen)) key w1).
  { unfold resolveTP, ConnOwner.resolveT. rewrite run_bind. cbn [run look fst snd].
    destruct (map_to_list (default ∅ _)) as [|[tok c] [|]]; [apply run_reg_loop|apply IH|done]. }
  rewrite <- ET. destruct (run (resolveTP _ key) w1) as [[s|] w2]; [|done]. cbn. by destruct (alter _ _ _ !! b).
Qed.

(** ** Any number of programs *)

(** A call of [Source] for a binding, and what is left of it. *)
Record Pool := mkPool { world : World; calls : list (nat * prog (option Source)) }.

(** What can happen next: another operation of the tracker in a critical section of its own; time passes; [Source] is
    called; a call takes its next step. *)
Inductive pstep : Pool -> Pool -> Prop :=
  | PAct a w cs : pstep (mkPool w cs) (mkPool (act identity a w) cs)
  | PTime n w cs : pstep (mkPool w cs) (mkPool (mkWorld (tr w) (binds w) (sched w) (clock w + n) (ghost w)) cs)
  | PSource fuel b w cs : pstep (mkPool w cs) (mkPool w (cs ++ [(b, resolveP fuel ∅ b)]))
  | PRun i b locked k w cs : cs !! i = Some (b, Step locked k) ->
      pstep (mkPool w cs) (mkPool (k w).2 (<[i := (b, (k w).1)]> cs)).

Definition reachable (P : Pool) : Prop := exists t, rtc pstep (mkPool (newWorld [] t) []) P.

(** *** A step keeps what the others rely on *)

Hypothesis iter_perm : forall t l, iter t l ≡ₚ l.

Local Abbreviation wf := (wf NativeEndian).
Local Abbreviation backed := (backed NativeEndian).

Definition rely (w w' : World) : Prop := wf w' /\ grows w w'.

Lemma rely_refl w : wf w -> rely w w.
Proof. intros Hw. split; [done|]. split; eauto. Qed.

Lemma world_grows_trans w1 w2 w3 : grows w1 w2 -> grows w2 w3 -> grows w1 w3.
Proof.
  intros [F1 R1 B1] [F2 R2 B2]. split; [set_solver..|]. intros b x Hx. destruct (B1 b x Hx) as (x1 & H1 & E1).
  destruct (B2 b x1 H1) as (x2 & ? & ?). exists x2. split; [done|congruence].
Qed.

Lemma rely_trans w1 w2 w3 : rely w1 w2 -> rely w2 w3 -> rely w1 w3.
Proof. intros [_ G1] [W G2]. split; [done|by eapply world_grows_trans]. Qed.

(** Whatever happens between its steps, every step of the program keeps the tracker in order, and the
    result satisfies [Q]. *)
Fixpoint safe {A} (p : prog A) (w : World) (Q : A -> World -> Prop) : Prop :=
  match p with
  | Ret a => forall w', rely w w' -> Q a w'
  | Step _ k => forall w', rely w w' -> let '(p, w'') := k w' in rely w' w'' /\ safe p w'' Q
  end.

Lemma safe_rely {A} (p : prog A) w w' Q : rely w w' -> safe p w Q -> safe p w' Q.
Proof. intros Hr. destruct p as [a|locked k]; intros H v Hv; apply H; by eapply rely_trans. Qed.

Lemma safe_bind {A B} (p : prog A) (f : A -> prog B) w R Q : wf w -> safe p w R -> (forall a v, rely w v -> R a v -> safe (f a) v Q) -> safe (bindp p f) w Q.
Proof.
  revert w. induction p as [a|locked k IH] using prog_steps; intros w Hw H Hf.
  - apply Hf; [by apply rely_refl|]. by apply H, rely_refl.
  - intros w' Hr. specialize (H w' Hr). specialize (IH w'). cbn. destruct (k w') as [p w'']. destruct H as [Hr' Hp]. split; [done|].
    apply IH; [apply Hr'|done|]. intros a v Hv. apply Hf. eapply rely_trans; [exact Hr|]. by eapply rely_trans.
Qed.

Lemma safe_weaken {A} (p : prog A) w (Q Q' : A -> World -> Prop) : (forall a v, rely w v -> Q a v -> Q' a v) -> safe p w Q -> safe p w Q'.
Proof.
  revert w. induction p as [a|locked k IH] using prog_steps; intros w Hq H w' Hr; [by apply Hq, H|].
  specialize (H w' Hr). specialize (IH w'). destruct (k w') as [p w'']. destruct H as [Hr' Hp]. split; [done|]. apply IH; [|done].
  intros a v Hv. apply Hq. eapply rely_trans; [exact Hr|]. by eapply rely_trans.
Qed.

Lemma safe_look {A B} (f : World -> A) (k : A -> prog B) w Q : (forall v, rely w v -> safe (k (f v)) v Q) -> safe (bindp (look f) k) w Q.
Proof. intros H w' Hr. cbn. split; [apply rely_refl, Hr|]. by apply H. Qed.

Lemma on_proc_rely {A} (m : P A) w : wf w -> rely w (on_proc m w).2.
Proof. intros Hw. destruct (on_proc_moves NativeEndian m w Hw) as (? & ? & _). by split. Qed.

Lemma safe_proc {A B} (m : P A) (k : A -> prog B) w Q :
  (forall v, rely w v -> safe (k (m (clock v)).1) (on_proc m v).2 Q) -> safe (bindp (proc m) k) w Q.
Proof.
  intros H w' Hr. cbn. pose proof (on_proc_rely m w' (proj1 Hr)) as Hm. specialize (H w' Hr).
  unfold on_proc in *. destruct (m (clock w')) as [x t]. split; [exact Hm|exact H].
Qed.

Lemma safe_IsActive s w : wf w -> safe (IsActiveP s) w (fun _ _ => True).
Proof.
  intros Hw. unfold IsActiveP. destruct (negb (Known s)); [done|]. apply safe_look. intros v Hv. destruct (registrations (tr v) !! _) as [reg|]; [|done].
  destruct (negb _); [done|]. apply safe_proc. intros u Hu. destruct (processStart _ _) as [[st|] t]; [|done]. cbn [fst]. destruct (negb _); [done|].
  by apply safe_look.
Qed.

Definition found_ok (key : tuple) (r : option Source) (w : World) : Prop := match r with Some s => backed key s w | None => True end.

Lemma backed_rely key s w w' : rely w w' -> backed key s w -> backed key s w'.
Proof. intros [_ G]. by apply backed_grows. Qed.

Lemma safe_reg_loop key regs found w : wf w -> regs ⊆ registered (ghost w) -> backed key found w -> safe (reg_loopP key regs found) w (found_ok key).
Proof.
  revert found w. induction regs as [|reg regs IH]; intros found w Hw Hregs Hf; cbn [reg_loopP].
  { intros w' Hr. by eapply backed_rely. }
  assert (Hrest : forall f v, rely w v -> backed key f v -> safe (reg_loopP key regs f) v (found_ok key)).
  { intros f v [Hv Gv] Hb. apply IH; [done| |done]. destruct Gv. set_solver. }
  assert (Hnone : forall v, safe (Ret (Some noSource)) v (found_ok key)) by (intros v w' _; apply backed_none).
  apply safe_proc. intros v Hv. pose proof (on_proc_rely (ownsConnection NativeEndian reg key) v (proj1 Hv)) as Hm. unfold on_proc in *.
  destruct (ownsConnection NativeEndian reg key (clock v)) as [r t] eqn:Hown. cbn [fst snd] in *. set (v1 := mkWorld _ _ _ t _) in *.
  assert (Hv1 : rely w v1) by by eapply rely_trans. destruct r as [[owned complete]|]; [|done].
  apply safe_look. intros v2 Hv2. assert (Hw2 : rely w v2) by by eapply rely_trans. assert (Hf2 : backed key found v2) by by eapply backed_rely.
  destruct (registrations (tr v2) !! _) as [current|]; [|by apply Hrest]. destruct (negb _); [by apply Hrest|]. destruct (negb complete); [apply Hnone|].
  eapply safe_bind; [apply Hw2|apply safe_IsActive, Hw2|]. intros active v3 Hv3 _. assert (Hw3 : rely w v3) by by eapply rely_trans.
  assert (Hf3 : backed key found v3) by by eapply backed_rely. destruct (negb active); [by apply Hrest|]. destruct owned; [|by apply Hrest].
  destruct (_ && _); [apply Hnone|]. apply Hrest; [done|]. intros _. eapply att_here; [|by eapply ownsConnection_found]. destruct Hw3 as [_ [_ Hr _]]. set_solver.
Qed.

(** What a call of [Source] promises. *)
Definition answers (b : nat) (r : option Source) (w : World) : Prop :=
  forall s, r = Some s -> Known s = true -> exists x key, binds w !! b = Some x /\ b_tuple x = Some key /\ attributed NativeEndian (ghost w) key s.

Lemma answers_rely b r w w' : rely w w' -> answers b r w -> answers b r w'.
Proof.
  intros [_ [F R B]] H s Hs Hk. destruct (H s Hs Hk) as (x & key & Hx & Ht & Ha). destruct (B b x Hx) as (x' & Hx' & E). exists x', key.
  split_and!; [done|congruence|]. by eapply attributed_grows.
Qed.

Lemma answers_cached b x w : wf w -> binds w !! b = Some x -> answers b (Some (b_source x)) w.
Proof. intros (_ & _ & Hc) Hx s [= <-] Hk. destruct (Hc b x Hx Hk) as (key & ? & ?). by exists x, key. Qed.

Lemma safe_answer b r w : answers b r w -> safe (Ret r) w (answers b).
Proof. intros H w' Hr. by eapply answers_rely. Qed.

Lemma remember_rely b s x key w : wf w -> binds w !! b = Some x -> b_tuple x = Some key -> backed key s w -> rely w (set_binding b (cache s) w).
Proof.
  intros Hw Hx Ht Hb. split; [|apply alter_grows; intros y; unfold cache; by destruct (_ && _)].
  apply alter_wf; [done|intros z; unfold cache; by destruct (_ && _)|]. intros z Hz. unfold cache. destruct (_ && _); cbn; [|by left].
  intros Hk. right. exists key. split; [congruence|by apply Hb].
Qed.

Lemma safe_resolve fuel seen b w : wf w -> safe (resolveP fuel seen b) w (answers b).
Proof using iter_perm.
  revert seen b w. induction fuel as [|fuel IH]; intros seen b w Hw; cbn [resolveP]; [by apply safe_answer|].
  apply safe_look. intros v Hv. destruct (binds v !! b) as [x|] eqn:Hx; [|by apply safe_answer].
  pose proof (answers_cached b x v (proj1 Hv) Hx) as Hc. destruct (b_tuple x) as [key|] eqn:Ht; [|by apply safe_answer].
  destruct (_ || _); [by apply safe_answer|]. destruct (bool_decide _); [apply safe_answer; by intros s [= <-]|].
  apply (safe_bind _ _ _ (found_ok key)); [apply Hv| |].
  - unfold resolveTP. apply safe_look. intros u Hu. cbn [fst snd].
    destruct (map_to_list (default ∅ _)) as [|[tok c] [|]] eqn:Hm; [apply safe_reg_loop; [apply Hu| |apply backed_none]| |].
    + apply (snapshot_registered NativeEndian iter); [exact iter_perm|apply Hu].
    + eapply safe_weaken; [|apply IH, Hu]. intros [s|] y Hy Ha; [|done]. intros Hk. destruct (Ha s eq_refl Hk) as (z & key' & Hz & Hzt & Hatt).
      eapply att_through; [|exact Hatt]. assert (Hin : (tok, c) ∈ map_to_list (default ∅ (bridges (tr u) !! key))) by (rewrite Hm; set_solver).
      apply elem_of_map_to_list in Hin. destruct (bridges (tr u) !! key) as [m|] eqn:Hb; [|done]. destruct (proj1 (proj1 Hu) key m tok c Hb Hin) as (x1 & Hx1 & Hfw).
      destruct Hy as [_ [GF _ GB]]. destruct (GB c x1 Hx1) as (x2 & Hx2 & E2). rewrite Hz in Hx2. injection Hx2 as <-. apply GF. by rewrite <- Hzt, E2.
    + intros w' _. apply backed_none.
  - intros [s|] u Hu Hf; [|by apply safe_answer]. intros w' Hw'. cbn. destruct (g_binds _ _ (proj2 (rely_trans _ _ _ Hu Hw')) b x Hx) as (y & Hy & Ey).
    assert (Hr : rely w' (set_binding b (cache s) w')) by (apply (remember_rely b s y key); [apply Hw'|done|congruence|by eapply backed_rely]).
    split; [exact Hr|]. rewrite list_lookup_alter_eq, Hy. apply safe_answer, answers_cached; [apply Hr|]. cbn. by rewrite list_lookup_alter_eq, Hy.
Qed.

(** *** The invariant of a pool *)

Definition pool_ok (P : Pool) : Prop := wf (world P) /\ Forall (fun c => safe c.2 (world P) (answers c.1)) (calls P).

Lemma calls_rely cs w w' : rely w w' -> Forall (fun c : nat * prog (option Source) => safe c.2 w (answers c.1)) cs -> Forall (fun c => safe c.2 w' (answers c.1)) cs.
Proof. intros Hr H. eapply Forall_impl; [exact H|]. intros c. by apply safe_rely. Qed.

Lemma pstep_ok P P' : pstep P P' -> pool_ok P -> pool_ok P'.
Proof using iter_perm.
  intros H [Hw Hc]. destruct H as [a w cs|n w cs|fuel b w cs|i b locked k w cs Hi]; cbn [world calls] in *.
  - assert (Hr : rely w (act identity a w)) by by eapply (act_ok NativeEndian identity iter). split; [apply Hr|by eapply calls_rely].
  - assert (Hr : rely w (mkWorld (tr w) (binds w) (sched w) (clock w + n) (ghost w))) by (split; [exact Hw|split; eauto]).
    split; [apply Hr|by eapply calls_rely].
  - split; [done|]. apply Forall_app. split; [done|]. apply Forall_singleton. by apply safe_resolve.
  - rewrite Forall_lookup in Hc. pose proof (Hc i _ Hi) as Hs. cbn in Hs. specialize (Hs w (rely_refl w Hw)). destruct (k w) as [p w'] eqn:Ek. destruct Hs as [Hr Hp].
    split; [apply Hr|]. apply Forall_insert; [|exact Hp]. eapply calls_rely; [exact Hr|]. by apply Forall_lookup.
Qed.

Lemma reachable_ok P : reachable P -> pool_ok P.
Proof using iter_perm.
  intros [t H]. assert (H0 : pool_ok (mkPool (newWorld [] t) [])).
  { split; [|constructor]. split; [|split]; intros ? *; cbn; by rewrite ?lookup_empty, ?lookup_nil. }
  revert H0. induction H as [P|P1 P2 P3 H1 _ IH]; [done|]. intros H0. by eapply IH, pstep_ok.
Qed.

(** C16: attribution fails closed.  However [/proc] changes, and in every interleaving of any number of calls of
    [Source] with each other and with registrations, unregistrations, bindings, forwards, their
    cleanups and closes, an owner that a finished call reports for a connection, and one that a binding
    remembers, was registered, and its root was seen, in its registered generation, before and after a process
    of its tree was seen to hold that connection, or the connection on whose behalf proxies opened it. *)
Theorem attribution_is_evidenced P : reachable P ->
  (forall i b s, calls P !! i = Some (b, Ret (Some s)) -> Known s = true ->
     exists x key, binds (world P) !! b = Some x /\ b_tuple x = Some key /\ attributed NativeEndian (ghost (world P)) key s) /\
  (forall b x, binds (world P) !! b = Some x -> Known (b_source x) = true ->
     exists key, b_tuple x = Some key /\ attributed NativeEndian (ghost (world P)) key (b_source x)).
Proof using iter_perm.
  intros Hr. destruct (reachable_ok P Hr) as [Hw Hc]. split; [|apply Hw]. intros i b s Hi Hk. rewrite Forall_lookup in Hc.
  by apply (Hc i _ Hi (world P) (rely_refl _ Hw) s).
Qed.

End Programs.

(** *** Two calls in turn *)
Module PoolExample.
Import ConnOwner.Example.

(** The next step of a call. *)
Definition turn (P : Pool) (i : nat) : Pool :=
  match calls P !! i with
  | Some (b, Step _ k) => mkPool (k (world P)).2 (<[i := (b, (k (world P)).1)]> (calls P))
  | _ => P
  end.

Lemma turn_steps P i : rtc (pstep LittleEndian "id" keep) P (turn P i).
Proof.
  destruct P as [w cs]. unfold turn. cbn [calls world]. destruct (cs !! i) as [[b [r|locked k]]|] eqn:E; [reflexivity| |reflexivity].
  apply rtc_once. by eapply PRun.
Qed.

Lemma turns_steps js P : rtc (pstep LittleEndian "id" keep) P (foldl turn P js).
Proof. revert P. induction js as [|i js IH]; intros P; [reflexivity|]. cbn. etrans; [apply turn_steps|apply IH]. Qed.

(** A service and a connection of its process; two goroutines ask for the owner. *)
Definition asked : Pool := mkPool w0 [(0%nat, resolveP LittleEndian keep 2 ∅ 0); (0%nat, resolveP LittleEndian keep 2 ∅ 0)].
Definition both : Pool := foldl turn asked (concat (replicate 12 [0%nat; 1%nat])).

Lemma both_reachable : reachable LittleEndian "id" keep both.
Proof.
  exists 0%nat. etrans; [|apply turns_steps].
  eapply rtc_l; [apply (PAct _ _ _ (ARegister "api" 42 100))|]. eapply rtc_l; [apply (PAct _ _ _ (ABind (Some key)))|].
  eapply rtc_l; [apply (PSource _ _ _ 2 0)|]. apply rtc_once. exact (PSource LittleEndian "id" keep 2 0 w0 [(0%nat, resolveP LittleEndian keep 2 ∅ 0)]).
Qed.

Lemma attribution_is_evidenced_witness :
  calls both = [(0%nat, Ret (Some (source api))); (0%nat, Ret (Some (source api)))] /\
  exists x key, binds (world both) !! 0%nat = Some x /\ b_tuple x = Some key /\ attributed LittleEndian (ghost (world both)) key (source api).
Proof.
  split; [vm_compute; reflexivity|].
  destruct (attribution_is_evidenced LittleEndian "id" keep keep_perm both both_reachable) as [H _].
  apply (H 1%nat 0%nat); vm_compute; reflexivity.
Defined.

End PoolExample.
End ConnPool.
