(* ===== verification/ConnQuiet.v ===== *)
(** * Attribution when nothing moves ([internal/connowner])

    On a machine whose process table does not change during the call and without other goroutines, the tracker
    finds the registered process tree that holds a connection, when there is exactly one. *)

From Stdlib Require Import ZArith Lia Ascii.
From S2P Require Import Prelude GoStd GoText ProcFs ConnOwner.
From stdpp Require Import base gmap sets strings numbers list.
Local Open Scope Z_scope.
Import GoStd GoText ProcFs ConnOwner.

Module ConnQuiet.

Section Quiet.
Context `{V : ProcView} (NativeEndian : ByteOrder) (identity : string).
Context (iter : nat -> list registration -> list registration).
Hypothesis iter_perm : forall t l, iter t l ≡ₚ l.

(** The process table stays as it is. *)
Definition steady : Prop :=
  forall t path, file t path = file 0%nat path /\ dir t path = dir 0%nat path /\ link t path = link 0%nat path.

Hypothesis quiet : steady.

(** A computation whose result does not depend on when it runs, and its result. *)
Definition gives {A} (m : P A) (x : A) : Prop := forall t, (m t).1 = x.

Lemma gives_ret {A} (x : A) : gives (ret x) x.
Proof. done. Qed.

Lemma gives_bind {A B} (m : P A) (k : A -> P B) x y : gives m x -> gives (k x) y -> gives (bind m k) y.
Proof. intros Hm Hk t. unfold bind. specialize (Hm t). destruct (m t) as [x' t1]. cbn in Hm. subst x'. apply Hk. Qed.

Lemma gives_file path : gives (ReadFile path) (file 0%nat path).
Proof. intros t. apply quiet. Qed.
Lemma gives_dir path : gives (ReadDir path) (dir 0%nat path).
Proof. intros t. apply quiet. Qed.
Lemma gives_link path : gives (Readlink path) (link 0%nat path).
Proof. intros t. apply quiet. Qed.

(** A process that is there. *)
Definition alive (p : process) : Prop := proc_at 0%nat p.

Lemma gives_read p : alive p -> gives (readProcess (pid p)) (Ok p).
Proof.
  intros (data & Hf & Hp). eapply gives_bind; [apply gives_file|]. rewrite Hf, Hp, Z.eqb_refl. apply gives_ret.
Qed.

Lemma gives_same p : alive p -> gives (sameProcess p) true.
Proof.
  intros Hp. eapply gives_bind; [by apply gives_read|]. cbn. rewrite bool_decide_true by done. apply gives_ret.
Qed.

(** ** Sockets *)

Lemma inode_of_name i : 0 < i < 2 ^ 64 -> inode_of (socket_name i) = Some i.
Proof.
  intros Hi. unfold inode_of, socket_name. rewrite has_prefix_app.
  assert (has_suffix "]" ("socket:[" +:+ show_Z i +:+ "]") = true) as ->.
  { unfold has_suffix. rewrite !slen_app. cbn [slen String.length]. apply andb_true_intro. split; [apply Nat.leb_le; lia|].
    apply String.eqb_eq. replace (8 + (slen (show_Z i) + 1) - 1)%nat with (slen ("socket:[" +:+ show_Z i))
      by (rewrite slen_app; cbn; lia). rewrite <- string_app_assoc. apply sdrop_app. }
  cbn [andb]. rewrite !slen_app. change (slen "socket:[") with 8%nat. change (slen "]") with 1%nat.
  replace (8 + (slen (show_Z i) + 1) - 9)%nat with (slen (show_Z i)) by lia.
  change 8%nat with (slen "socket:[") at 1. rewrite sdrop_app, stake_app, ParseUint_show by lia.
  by rewrite (proj2 (Z.eqb_neq i 0)) by lia.
Qed.

Definition fd_path (p : process) (fd : string) : list string := [show_Z (pid p); "fd"; fd].
Definition net_path (p : process) (name : string) : list string := [show_Z (pid p); "net"; name].

(** What can be read of the sockets of a process. *)
Definition readable (p : process) : Prop :=
  (exists es, dir 0%nat [show_Z (pid p); "fd"] = Ok es /\ forall fd, fd ∈ es -> link 0%nat (fd_path p fd) <> Err ErrOther) /\
  (exists data, file 0%nat (net_path p "tcp") = Ok data) /\
  file 0%nat (net_path p "tcp6") <> Err ErrOther.

(** A table of the process shows the connection with a socket of it. *)
Definition shown (p : process) (key : tuple) (inode : Z) : Prop :=
  exists name data line, (name = "tcp" \/ name = "tcp6") /\ file 0%nat (net_path p name) = Ok data /\
    line ∈ split_all LF data /\ parseTCPRow line NativeEndian = Some (key, inode).

Definition has_socket (p : process) (inode : Z) : Prop :=
  exists es fd, dir 0%nat [show_Z (pid p); "fd"] = Ok es /\ fd ∈ es /\ link 0%nat (fd_path p fd) = Ok (socket_name inode).

Definition holds_now (p : process) (key : tuple) : Prop :=
  exists inode, shown p key inode /\ has_socket p inode.

(** A computation of a truth value. *)
Definition decides (m : P bool) (Q : Prop) : Prop := exists b : bool, gives m b /\ (b = true <-> Q).

Lemma decides_true Q : Q -> decides (ret true) Q.
Proof. intros. exists true. split; [apply gives_ret|done]. Qed.
Lemma decides_false (Q : Prop) : ~ Q -> decides (ret false) Q.
Proof. intros. exists false. split; [apply gives_ret|done]. Qed.
Lemma decides_iff m (Q R : Prop) : (Q <-> R) -> decides m Q -> decides m R.
Proof. intros HQ (b & ? & Hb). exists b. split; [done|]. by rewrite Hb. Qed.
Lemma decides_bind {A} (m : P A) k x Q : gives m x -> decides (k x) Q -> decides (bind m k) Q.
Proof. intros Hm (b & Hb & ?). exists b. split; [by eapply gives_bind|done]. Qed.
Lemma decides_or (m n : P bool) (Q R : Prop) : decides m Q -> decides n R ->
  decides (bind m (fun b => if b then ret true else n)) (Q \/ R).
Proof.
  intros (b & Hb & HQ) (c & Hc & HR). exists (b || c). split; [|rewrite orb_true_iff; tauto].
  eapply gives_bind; [done|]. by destruct b.
Qed.

(** Something of a list has a property. *)
Definition some_in {A} (l : list A) (Q : A -> Prop) : Prop := exists x, x ∈ l /\ Q x.

Lemma some_cons {A} (x : A) l Q : some_in (x :: l) Q <-> Q x \/ some_in l Q.
Proof. unfold some_in. setoid_rewrite elem_of_cons. naive_solver. Qed.

Lemma some_nil {A} (Q : A -> Prop) : ~ some_in [] Q.
Proof. intros (x & ?%elem_of_nil & _). done. Qed.

Lemma decides_skip {A} m (x : A) l Q : ~ Q x -> decides m (some_in l Q) -> decides m (some_in (x :: l) Q).
Proof. intros Hx. apply decides_iff. rewrite some_cons. tauto. Qed.

Definition names_socket (p : process) (inode : Z) (fd : string) : Prop := link 0%nat (fd_path p fd) = Ok (socket_name inode).

Lemma recheck_decides p inode fds : alive p -> decides (recheck_loop p inode fds) (some_in fds (names_socket p inode)).
Proof.
  intros Hp. induction fds as [|fd fds IH]; cbn [recheck_loop]; [apply decides_false, some_nil|].
  eapply decides_bind; [apply gives_link|]. fold (fd_path p fd). destruct (link 0%nat (fd_path p fd)) as [tg|] eqn:Hl.
  2: { apply decides_skip; [unfold names_socket; congruence|done]. }
  destruct (String.eqb_spec tg (socket_name inode)) as [->|Hne];
    [|apply decides_skip; [unfold names_socket; congruence|done]].
  eapply decides_bind; [by apply gives_same|]. apply decides_true, some_cons. by left.
Qed.

Definition row_of (p : process) (key : tuple) (inodes : gmap Z (list string)) (line : string) : Prop :=
  exists inode, parseTCPRow line NativeEndian = Some (key, inode) /\
    some_in (default [] (inodes !! inode)) (names_socket p inode).

Lemma row_decides p key inodes ls : alive p ->
  decides (row_loop NativeEndian p key inodes ls) (some_in ls (row_of p key inodes)).
Proof.
  intros Hp. induction ls as [|line ls IH]; cbn [row_loop]; [apply decides_false, some_nil|].
  destruct (parseTCPRow line NativeEndian) as [[tu inode]|] eqn:Hrow;
    [|apply decides_skip; [intros (? & ? & _); congruence|done]].
  destruct (bool_decide_reflect (tu = key)) as [->|Hne];
    [|apply decides_skip; [intros (? & ? & _); congruence|done]].
  eapply decides_bind; [by apply gives_same|]. eapply decides_iff, decides_or; [|by apply recheck_decides|exact IH].
  rewrite some_cons. unfold row_of at 2. rewrite Hrow. split; (intros [H|H]; [left|by right]); [by exists inode|].
  by destruct H as (? & [= <-] & ?).
Qed.

Lemma fd_loop_gives p es inodes :
  (forall fd, fd ∈ es -> link 0%nat (fd_path p fd) <> Err ErrOther) ->
  exists inodes', gives (fd_loop p es inodes) (Some inodes') /\
    forall i fd, fd ∈ default [] (inodes' !! i) <->
      fd ∈ default [] (inodes !! i) \/ fd ∈ es /\ exists tg, link 0%nat (fd_path p fd) = Ok tg /\ inode_of tg = Some i.
Proof.
  revert inodes. induction es as [|e es IH]; intros inodes Hes; cbn [fd_loop].
  { exists inodes. split; [apply gives_ret|]. intros i fd. split; [by left|]. intros [|[?%elem_of_nil _]]; done. }
  assert (forall fd, fd ∈ es -> link 0%nat (fd_path p fd) <> Err ErrOther) as Hes' by (intros; apply Hes; set_solver).
  assert (link 0%nat (fd_path p e) <> Err ErrOther) as He by (apply Hes; set_solver).
  setoid_rewrite elem_of_cons.
  destruct (link 0%nat (fd_path p e)) as [tg|[]] eqn:Hl; [| |done].
  2: { destruct (IH inodes Hes') as (m & Hm & Hi). exists m. split; [eapply gives_bind; [apply gives_link|];
         fold (fd_path p e); by rewrite Hl|]. intros i fd. rewrite Hi. split; [tauto|]. intros [?|[[->|?] (tg & ? & ?)]]; [by left|congruence|]. right. eauto. }
  destruct (inode_of tg) as [i0|] eqn:Hi0.
  - destruct (IH (<[i0 := default [] (inodes !! i0) ++ [e]]> inodes) Hes') as (m & Hm & Hi). exists m.
    split; [eapply gives_bind; [apply gives_link|]; fold (fd_path p e); by rewrite Hl, Hi0|].
    intros i fd. rewrite Hi, lookup_insert. case_decide as E; cbn; [subst i0; rewrite elem_of_app, list_elem_of_singleton|].
    + split; [intros [[?| ->]|[? ?]]; eauto 10|]. intros [?|[[->|?] ?]]; eauto 10.
    + split; [intros [?|[? ?]]; eauto 10|]. intros [?|[[->|?] (tg' & ? & ?)]]; [by left|congruence|]. right. eauto.
  - destruct (IH inodes Hes') as (m & Hm & Hi). exists m.
    split; [eapply gives_bind; [apply gives_link|]; fold (fd_path p e); by rewrite Hl, Hi0|].
    intros i fd. rewrite Hi. split; [tauto|]. intros [?|[[->|?] (tg' & ? & ?)]]; [by left|congruence|]. right. eauto.
Qed.

Lemma parseTCPRow_inode line o tu i : parseTCPRow line o = Some (tu, i) -> 0 < i < 2 ^ 64.
Proof.
  unfold parseTCPRow. repeat case_match; try done. intros [= _ <-].
  match goal with H : (0 <? _) = true |- _ => apply Z.ltb_lt in H end.
  match goal with H : ParseUint 10 64 ?f = Some _ |- _ => revert H; unfold ParseUint; destruct f; [done|] end.
  destruct (digits_in _ _ _) as [n|]; [|done]. destruct (Z.ltb_spec n (2 ^ 64)); [|done]. intros [= ->]. lia.
Qed.

(** The rows that match a recorded socket, and the sockets a process has. *)
Lemma row_of_socket p key es inodes line :
  dir 0%nat [show_Z (pid p); "fd"] = Ok es ->
  (forall i fd, fd ∈ default [] (inodes !! i) <-> fd ∈ es /\ exists tg, link 0%nat (fd_path p fd) = Ok tg /\ inode_of tg = Some i) ->
  row_of p key inodes line <-> exists i, parseTCPRow line NativeEndian = Some (key, i) /\ has_socket p i.
Proof.
  intros Hdir Hin. unfold row_of. split; intros (i & Hrow & H); exists i; (split; [done|]).
  - destruct H as (fd & Hfd%Hin & Hn). exists es, fd. tauto.
  - destruct H as (es' & fd & E & Hfd & Hl). rewrite Hdir in E. injection E as <-. exists fd. split; [|done].
    apply Hin. split; [done|]. exists (socket_name i). split; [done|]. by eapply inode_of_name, parseTCPRow_inode.
Qed.

(** A line of [data] shows the connection with a socket of [p]. *)
Definition shows (p : process) (key : tuple) (data : string) : Prop :=
  exists line i, line ∈ split_all LF data /\ parseTCPRow line NativeEndian = Some (key, i) /\ has_socket p i.

Lemma tcp6_gives p key inodes :
  (forall data, decides (row_loop NativeEndian p key inodes (split_all LF data)) (shows p key data)) ->
  file 0%nat (net_path p "tcp6") <> Err ErrOther ->
  exists b : bool, gives (table_loop NativeEndian p key inodes ["tcp6"]) (Some b) /\
    (b = true <-> exists data, file 0%nat (net_path p "tcp6") = Ok data /\ shows p key data).
Proof.
  intros Hrows Ht6. cbn [table_loop]. destruct (file 0%nat (net_path p "tcp6")) as [d2|[]] eqn:E2; [| |done].
  - destruct (Hrows d2) as (b & G & B). exists b. split.
    + eapply gives_bind; [apply gives_file|]. fold (net_path p "tcp6"). rewrite E2. eapply gives_bind; [exact G|]. by destruct b.
    + rewrite B. split; [intros ?; by exists d2|]. by intros (d & [= <-] & ?).
  - exists false. split; [|split; [done|by intros (? & ? & _)]].
    eapply gives_bind; [apply gives_file|]. fold (net_path p "tcp6"). by rewrite E2.
Qed.

Lemma owns_gives p key : alive p -> readable p ->
  exists b : bool, gives (processOwnsTuple NativeEndian p key) (Some b) /\ (b = true <-> holds_now p key).
Proof.
  intros Hp ((es & Hdir & Hes) & (d1 & Ht1) & Ht6).
  destruct (fd_loop_gives p es ∅ Hes) as (inodes & Hfd & Hin).
  assert (forall i fd, fd ∈ default [] (inodes !! i) <->
    fd ∈ es /\ exists tg, link 0%nat (fd_path p fd) = Ok tg /\ inode_of tg = Some i) as Hin'.
  { intros i fd. rewrite Hin, lookup_empty. split; [intros [?%elem_of_nil|]; done|by right]. }
  assert (forall data, decides (row_loop NativeEndian p key inodes (split_all LF data)) (shows p key data)) as Hrows.
  { intros data. eapply decides_iff, row_decides; [|done]. unfold some_in, shows. setoid_rewrite row_of_socket; [|done..].
    split; [intros (l & ? & i & ?)|intros (l & i & ? & ?)]; eauto. }
  destruct (Hrows d1) as (b1 & G1 & B1). destruct (tcp6_gives p key inodes Hrows Ht6) as (b2 & G2 & B2).
  assert (inodes = ∅ -> forall data, ~ shows p key data) as Hempty.
  { intros -> data (l & i & _ & Hrow & Hs).
    destruct (proj2 (row_of_socket p key es ∅ l Hdir Hin')) as (j & _ & fd & Hj & _); [eauto|].
    rewrite lookup_empty in Hj. by apply elem_of_nil in Hj. }
  exists (b1 || b2). split.
  - eapply gives_bind; [apply gives_dir|]. rewrite Hdir. eapply gives_bind; [exact Hfd|]. cbv beta iota.
    destruct (bool_decide_reflect (inodes = ∅)) as [E|_].
    + assert (b1 || b2 = false) as ->; [|apply gives_ret]. apply orb_false_iff. rewrite <- !not_true_iff_false, B1, B2.
      split; [by apply Hempty|]. intros (d & _ & ?). by eapply Hempty.
    + cbn [table_loop]. eapply gives_bind; [apply gives_file|]. fold (net_path p "tcp"). rewrite Ht1.
      eapply gives_bind; [exact G1|]. destruct b1; [apply gives_ret|exact G2].
  - rewrite orb_true_iff, B1, B2. unfold holds_now, shown, shows. split.
    + intros [(l & i & ? & ? & ?)|(d & ? & l & i & ? & ? & ?)]; exists i; (split; [|done]); eauto 10.
    + intros (i & (name & d & l & [->| ->] & Hf & ? & ?) & ?); [left|right; eauto 10].
      rewrite Ht1 in Hf. injection Hf as <-. eauto.
Qed.

(** ** Process trees *)

Inductive ptree := Node (p : process) (kids : list ptree).

Definition root (t : ptree) : process := match t with Node p _ => p end.

Fixpoint nodes (t : ptree) : list process :=
  match t with Node p kids => p :: concat (nodes <$> kids) end.

(** The tree that [/proc] shows below a process: every process of it there and readable, its children those
    that the code's own reading of the [children] files lists. *)
Fixpoint healthy (t : ptree) : Prop :=
  match t with
  | Node p kids =>
      alive p /\ readable p /\ gives (children p) (Some (root <$> kids)) /\
      (fix all ts := match ts with [] => True | t :: ts => healthy t /\ all ts end) kids
  end.

Definition holds_in (t : ptree) (key : tuple) : Prop := some_in (nodes t) (fun p => holds_now p key).

Lemma ptree_ind' (Q : ptree -> Prop) : (forall p kids, Forall Q kids -> Q (Node p kids)) -> forall t, Q t.
Proof.
  intros H. fix IH 1. intros [p kids]. apply H. induction kids as [|t kids IHk]; constructor; [apply IH|exact IHk].
Qed.

Lemma healthy_kids p kids : healthy (Node p kids) -> Forall healthy kids.
Proof. cbn. intros (_ & _ & _ & H). induction kids as [|t kids IH]; [done|]. destruct H. constructor; auto. Qed.

Definition pids (t : ptree) : list Z := pid <$> nodes t.

(** What visiting a tree gives: whether it holds the connection, and, if not, its identifiers added to those seen. *)
Definition visits (key : tuple) (m : P (option visited)) (ps : list Z) (seen : gset Z) (Q : Prop) : Prop :=
  exists b seen', gives m (Some (Some b, seen')) /\ (b = true <-> Q) /\ (b = false -> seen' = list_to_set ps ∪ seen).

Lemma descend_visits key v current kids seen : alive current ->
  (forall t s, t ∈ kids -> (forall x, x ∈ pids t -> x ∉ s) -> (size s + length (pids t) <= maxTree)%nat ->
     visits key (v (root t) s) (pids t) s (holds_in t key)) ->
  NoDup (concat (pids <$> kids)) -> (forall x, x ∈ concat (pids <$> kids) -> x ∉ seen) ->
  (size seen + length (concat (pids <$> kids)) <= maxTree)%nat ->
  visits key (descend v current (root <$> kids) seen) (concat (pids <$> kids)) seen (some_in kids (fun t => holds_in t key)).
Proof.
  intros Hc. revert seen. induction kids as [|t kids IH]; intros seen Hv Hnd Hseen Hsize; cbn [fmap list_fmap concat descend] in *.
  { exists false, seen. split; [apply gives_ret|]. split; [split; [done|by intros ?%some_nil]|]. intros _. set_solver. }
  rewrite length_app in Hsize. apply NoDup_app in Hnd as (Hnd1 & Hdis & Hnd2).
  destruct (Hv t seen) as (b & s1 & G1 & B1 & S1); [set_solver|set_solver|lia|].
  destruct b.
  { exists true, s1. split; [|split; [|done]].
    - eapply gives_bind; [exact G1|]. eapply gives_bind; [by apply gives_same|]. apply gives_ret.
    - split; [|done]. intros _. apply some_cons. left. by apply B1. }
  specialize (S1 eq_refl). subst s1.
  destruct (IH (list_to_set (pids t) ∪ seen)) as (b & s2 & G2 & B2 & S2); [set_solver|done|set_solver| |].
  { rewrite size_union by set_solver. rewrite size_list_to_set by done. lia. }
  exists b, s2. split; [eapply gives_bind; [exact G1|exact G2]|]. split.
  - rewrite B2, some_cons. split; [by right|]. intros [H|]; [|done]. by apply B1 in H.
  - intros Hb. rewrite (S2 Hb), list_to_set_app_L. set_solver.
Qed.

Lemma elem_of_concat {A} (x : A) ls : x ∈ concat ls <-> exists l, x ∈ l /\ l ∈ ls.
Proof.
  induction ls as [|l ls IH]; cbn; [split; [by intros ?%elem_of_nil|by intros (? & _ & ?%elem_of_nil)]|].
  rewrite elem_of_app, IH. setoid_rewrite elem_of_cons. naive_solver.
Qed.

Lemma holds_in_node p kids key :
  holds_in (Node p kids) key <-> holds_now p key \/ some_in kids (fun t => holds_in t key).
Proof.
  unfold holds_in. cbn [nodes]. rewrite some_cons. apply or_iff_compat_l. unfold some_in.
  setoid_rewrite elem_of_concat. setoid_rewrite list_elem_of_fmap. split.
  - intros (q & (ps & Hq & t & -> & Ht) & Hh). eauto.
  - intros (t & Ht & q & Hq & Hh). eauto 10.
Qed.

Lemma pids_node p kids : pids (Node p kids) = pid p :: concat (pids <$> kids).
Proof.
  unfold pids. cbn [nodes]. rewrite fmap_cons. f_equal. induction kids as [|t kids IH]; [done|]. cbn.
  rewrite fmap_app. by f_equal.
Qed.

Lemma kid_pids t kids : t ∈ kids -> (length (pids t) <= length (concat (pids <$> kids)))%nat /\
  (NoDup (concat (pids <$> kids)) -> NoDup (pids t)).
Proof.
  induction 1 as [t kids|t t' kids _ [IH1 IH2]]; cbn; rewrite length_app.
  - split; [lia|]. by intros (? & _)%NoDup_app.
  - split; [lia|]. intros (_ & _ & ?)%NoDup_app. auto.
Qed.

Lemma visit_visits key t fuel seen : healthy t -> NoDup (pids t) -> (forall x, x ∈ pids t -> x ∉ seen) ->
  (size seen + length (pids t) <= maxTree)%nat -> (length (pids t) <= fuel)%nat ->
  visits key (visit NativeEndian fuel key (root t) seen) (pids t) seen (holds_in t key).
Proof.
  revert fuel seen. induction t as [p kids IH] using ptree_ind'. intros fuel seen Hh Hnd Hseen Hsize Hfuel.
  rewrite pids_node in *. cbn [length] in *. destruct fuel as [|fuel]; [lia|]. apply NoDup_cons in Hnd as [Hp Hnd].
  pose proof (healthy_kids _ _ Hh) as Hkids. cbn in Hh. destruct Hh as (Ha & Hr & Hc & _).
  destruct (owns_gives p key Ha Hr) as (b & Gb & Bb). cbn [root visit].
  assert (pid p ∉ seen) as Hnew by (apply Hseen; set_solver). rewrite bool_decide_false by done.
  assert (size ({[pid p]} ∪ seen) = S (size seen)) as Hsz by (rewrite size_union, size_singleton by set_solver; done).
  assert (forall (k : option bool -> P (option visited)) v y, gives (processOwnsTuple NativeEndian p key) v -> gives (k v) y ->
    gives (bind (sameProcess p) (fun same : bool => if same then
      (let seen := {[pid p]} ∪ seen in if (maxTree <? size seen)%nat then ret (Some (None, seen)) else
        bind (processOwnsTuple NativeEndian p key) k) else ret (Some (None, seen)))) y) as Hstep.
  { intros k v y Hv Hy. eapply gives_bind; [by apply gives_same|]. cbv beta iota zeta.
    rewrite (proj2 (Nat.ltb_ge _ _)) by lia. by eapply gives_bind. }
  destruct b.
  { exists true, ({[pid p]} ∪ seen). split; [by eapply Hstep|]. split; [|done]. split; [|done].
    intros _. apply holds_in_node. left. by apply Bb. }
  destruct (descend_visits key (visit NativeEndian fuel key) p kids ({[pid p]} ∪ seen) Ha) as (b & s & G & B & S).
  - intros t s Ht Hts Hs. rewrite Forall_forall in IH, Hkids. destruct (kid_pids t kids Ht) as [Hl Hn].
    apply IH; [done|by apply Hkids|auto|done|done|lia].
  - done.
  - intros x Hx. apply not_elem_of_union. split; [|apply Hseen; by right]. intros ->%elem_of_singleton. done.
  - lia.
  - exists b, s. split; [|split].
    + eapply Hstep; [exact Gb|]. cbv beta iota. by eapply gives_bind.
    + rewrite B, holds_in_node. split; [by right|]. intros [H|]; [by apply Bb in H|done].
    + intros Hb. rewrite (S Hb). cbn. by rewrite (assoc_L _), (comm_L (∪) _ {[pid p]}).
Qed.

(** ** Registrations *)

(** The tree of a registered root: it is the root, of the registered generation, and is small enough. *)
Definition tree_of (t : ptree) (reg : registration) : Prop :=
  healthy t /\ NoDup (pids t) /\ (length (pids t) <= maxTree)%nat /\
  pid (root t) = PID (source reg) /\ start (root t) = reg_start reg.

Lemma ownsConnection_gives t reg key : tree_of t reg ->
  exists b : bool, gives (ownsConnection NativeEndian reg key) (Some (b, true)) /\ (b = true <-> holds_in t key).
Proof.
  intros (Hh & Hnd & Hl & Hpid & Hst).
  destruct (visit_visits key t visit_fuel ∅ Hh Hnd) as (b & s & G & B & _); [set_solver|rewrite size_empty; lia|unfold visit_fuel; lia|].
  exists b. split; [|done]. assert (alive (root t)) as Ha by (destruct t; by destruct Hh).
  eapply gives_bind; [rewrite <- Hpid; by apply (gives_read (root t))|]. cbv beta iota.
  rewrite Hst, Z.eqb_refl. cbn [negb].
  eapply gives_bind; [exact G|]. cbv beta iota.
  eapply gives_bind; [destruct b; [by apply gives_same|apply gives_ret]|].
  eapply gives_bind; [by apply gives_same|]. destruct b; apply gives_ret.
Qed.

(** The same world, later. *)
Definition at_time (w : World) (t : nat) : World := mkWorld (tr w) (binds w) (sched w) t (ghost w).

Lemma on_proc_gives {A} (m : P A) x w : gives m x -> exists t, on_proc m w = (x, at_time w t).
Proof.
  intros Hm. specialize (Hm (clock w)). unfold on_proc. destruct (m (clock w)) as [y t]. cbn in Hm. subst y. by exists t.
Qed.

Lemma interfere_quiet w : sched w = [] -> interfere identity w = w.
Proof. intros H. unfold interfere. by rewrite H. Qed.

(** A registration that is in place, with its tree. *)
Definition in_place (T : registration -> ptree) (w : World) (reg : registration) : Prop :=
  registrations (tr w) !! Instance (source reg) = Some reg /\ Known (source reg) = true /\ tree_of (T reg) reg.

Lemma isActive_quiet T reg w : sched w = [] -> in_place T w reg ->
  exists t, IsActive identity (source reg) w = (true, at_time w t).
Proof.
  intros Hs (Hreg & Hk & Hh & _ & _ & Hpid & Hst). unfold IsActive. rewrite Hk. cbn [negb].
  rewrite (interfere_quiet w Hs), Hreg, bool_decide_true by done. cbn [negb].
  destruct (on_proc_gives (processStart (PID (source reg))) (Ok (reg_start reg)) w) as (t & ->).
  { eapply gives_bind; [rewrite <- Hpid; apply (gives_read (root (T reg))); destruct (T reg); by destruct Hh|].
    cbn. rewrite Hst. apply gives_ret. }
  rewrite Z.eqb_refl. cbn [negb]. rewrite (interfere_quiet (at_time w t) Hs). cbn [tr at_time]. rewrite Hreg, Z.eqb_refl.
  by exists t.
Qed.

(** What the loop over the registrations computes from their answers. *)
Fixpoint pick (q : registration -> bool) (regs : list registration) (found : Source) : Source :=
  match regs with
  | [] => found
  | reg :: regs =>
      if q reg then if Known found && negb (bool_decide (found = source reg)) then noSource else pick q regs (source reg)
      else pick q regs found
  end.

Definition answers (key : tuple) (reg : registration) : bool :=
  match (ownsConnection NativeEndian reg key 0%nat).1 with Some (b, _) => b | None => false end.

Lemma answers_holds T w key reg : in_place T w reg ->
  gives (ownsConnection NativeEndian reg key) (Some (answers key reg, true)) /\ (answers key reg = true <-> holds_in (T reg) key).
Proof.
  intros (_ & _ & Ht). destruct (ownsConnection_gives (T reg) reg key Ht) as (b & G & B).
  assert (answers key reg = b) as -> by (unfold answers; by rewrite (G 0%nat)). done.
Qed.

Lemma reg_loop_quiet T key regs found w : sched w = [] -> (forall reg, reg ∈ regs -> in_place T w reg) ->
  exists t, reg_loop NativeEndian identity key regs found w = Some (pick (answers key) regs found, at_time w t).
Proof.
  revert found w. induction regs as [|reg regs IH]; intros found w Hs Hregs; cbn [reg_loop pick].
  { exists (clock w). by destruct w. }
  pose proof (Hregs reg ltac:(set_solver)) as Hr. destruct (answers_holds T w key reg Hr) as [G _].
  destruct (on_proc_gives _ _ w G) as (t1 & ->). rewrite (interfere_quiet (at_time w t1) Hs). cbn [tr at_time].
  pose proof Hr as (Hreg & _ & _). rewrite Hreg, Z.eqb_refl. cbn [negb].
  destruct (isActive_quiet T reg (at_time w t1) Hs Hr) as (t2 & ->). cbn [negb].
  assert (forall f, exists t, reg_loop NativeEndian identity key regs f (at_time (at_time w t1) t2) =
    Some (pick (answers key) regs f, at_time w t)) as Hrest.
  { intros f. apply (IH f (at_time w t2)); [done|]. intros r Hin. apply Hregs. set_solver. }
  destruct (answers key reg); [|apply Hrest]. destruct (_ && _); [by exists t2|apply Hrest].
Qed.

(** *** The choice *)

Lemma pick_known q regs found s : Known s = true -> (found = noSource \/ found = s) ->
  (forall r, r ∈ regs -> q r = true -> source r = s) ->
  pick q regs found = if existsb q regs then s else found.
Proof.
  intros Hk. revert found. induction regs as [|r regs IH]; intros found Hf Hq; cbn; [done|].
  destruct (q r) eqn:Er; cbn [orb]; [|apply IH; [done|set_solver]].
  assert (source r = s) as Hr by (apply Hq; [set_solver|done]).
  assert (Known found && negb (bool_decide (found = source r)) = false) as ->.
  { destruct Hf as [->| ->]; [done|]. rewrite bool_decide_true by done. apply andb_false_r. }
  rewrite Hr, (IH s) by (by right || set_solver). by destruct (existsb q regs).
Qed.

Lemma pick_conflict q regs found r : Known found = true -> (forall r, r ∈ regs -> Known (source r) = true) ->
  r ∈ regs -> q r = true -> source r <> found -> pick q regs found = noSource.
Proof.
  intros Hf Hk Hr Hq Hne. revert found Hf Hne. induction regs as [|x regs IH]; intros found Hf Hne; cbn; [by apply elem_of_nil in Hr|].
  destruct (q x) eqn:Ex.
  - rewrite Hf. destruct (bool_decide_reflect (found = source x)) as [->|]; [|done]. cbn.
    apply elem_of_cons in Hr as [->|Hr]; [done|]. apply IH; [set_solver|done..].
  - apply elem_of_cons in Hr as [->|Hr]; [congruence|]. apply IH; [set_solver|done..].
Qed.

Lemma pick_two q regs r1 r2 : (forall r, r ∈ regs -> Known (source r) = true) ->
  r1 ∈ regs -> r2 ∈ regs -> q r1 = true -> q r2 = true -> source r1 <> source r2 -> pick q regs noSource = noSource.
Proof.
  induction regs as [|x regs IH]; intros Hk H1 H2 Q1 Q2 Hne; cbn; [by apply elem_of_nil in H1|].
  assert (forall r, r ∈ regs -> Known (source r) = true) as Hk' by set_solver.
  apply elem_of_cons in H1 as [->|H1], H2 as [->|H2]; [done| | |].
  - rewrite Q1. eapply (pick_conflict _ _ _ r2); [apply Hk; set_solver|done..].
  - rewrite Q2. eapply (pick_conflict _ _ _ r1); [apply Hk; set_solver|done..].
  - destruct (q x) eqn:Ex; [|by apply IH]. cbn.
    destruct (decide (source x = source r1)) as [E|E].
    + apply (pick_conflict q regs (source x) r2); [apply Hk; set_solver|done..|congruence].
    + apply (pick_conflict q regs (source x) r1); [apply Hk; set_solver|done..|congruence].
Qed.

Lemma pick_shape q regs found : (forall r, r ∈ regs -> Known (source r) = true) ->
  found = noSource \/ Known found = true -> pick q regs found = noSource \/ Known (pick q regs found) = true.
Proof.
  intros Hk. revert found. induction regs as [|r regs IH]; intros found Hf; cbn; [done|].
  destruct (q r); [destruct (_ && _); [by left|]|]; apply IH; set_solver.
Qed.

(** ** Resolution *)

(** The registrations whose tree holds the connection. *)
Definition owner (T : registration -> ptree) (w : World) (key : tuple) (reg : registration) : Prop :=
  registrations (tr w) !! Instance (source reg) = Some reg /\ holds_in (T reg) key.

Lemma snapshot_quiet T w t reg : map_Forall (fun i reg => i = Instance (source reg) /\ in_place T w reg) (registrations (tr w)) ->
  reg ∈ iter t (map_to_list (registrations (tr w))).*2 <->
  registrations (tr w) !! Instance (source reg) = Some reg /\ in_place T w reg.
Proof.
  intros Hall. rewrite (iter_perm _ _), list_elem_of_fmap. split.
  - intros ([i r] & -> & Hi%elem_of_map_to_list). destruct (Hall i r Hi) as [-> ?]. done.
  - intros [Hr _]. exists (Instance (source reg), reg). split; [done|]. by apply elem_of_map_to_list.
Qed.

Lemma source_of_quiet T w b x key :
  sched w = [] -> binds w !! b = Some x -> b_tuple x = Some key -> closed x = false -> b_source x = noSource ->
  bridges (tr w) !! key = None ->
  map_Forall (fun i reg => i = Instance (source reg) /\ in_place T w reg) (registrations (tr w)) ->
  exists regs t, (forall reg, reg ∈ regs <-> registrations (tr w) !! Instance (source reg) = Some reg /\ in_place T w reg) /\
    SourceOf NativeEndian identity iter b w =
      Some (pick (answers key) regs noSource,
            set_binding b (cache (pick (answers key) regs noSource)) (at_time w t)).
Proof.
  intros Hs Hb Ht Hc Hsrc Hbr Hall. set (regs := iter (clock w) (map_to_list (registrations (tr w))).*2).
  exists regs. assert (forall reg, reg ∈ regs <-> registrations (tr w) !! Instance (source reg) = Some reg /\ in_place T w reg)
    as Hregs by (intros; by apply snapshot_quiet).
  destruct (reg_loop_quiet T key regs noSource w Hs) as (t & Hloop); [intros; by apply Hregs|].
  exists t. split; [done|]. unfold SourceOf. cbn [resolve]. rewrite (interfere_quiet w Hs), Hb. cbn [mbind option_bind].
  rewrite Ht, Hsrc, Hc. cbn [Known orb]. change (Known noSource || false) with false. cbv iota.
  rewrite bool_decide_false by set_solver. unfold resolveT. rewrite (interfere_quiet w Hs), Hbr. cbn [default].
  rewrite map_to_list_empty. fold regs. rewrite Hloop. cbn [mbind option_bind].
  rewrite (interfere_quiet (at_time w t) Hs). unfold set_binding at 2. cbn [binds at_time].
  rewrite list_lookup_alter_eq, Hb. cbn. unfold cache. rewrite Hc, Hsrc. cbn.
  destruct (Known (pick (answers key) regs noSource)) eqn:Hk; cbn; [done|]. rewrite Hsrc.
  destruct (pick_shape (answers key) regs noSource) as [->|]; [intros r [_ (_ & ? & _)]%Hregs; done|by left|done|congruence].
Qed.

(** C18: when [/proc] stands still and no other goroutine interferes, resolving an open, unbridged connection of
    registered process trees that can be read returns the registration whose tree holds it, and remembers it,
    when there is exactly one; and nobody when there is none or more than one. *)
Theorem quiet_resolution_finds_owner T w b x key :
  sched w = [] -> binds w !! b = Some x -> b_tuple x = Some key -> closed x = false -> b_source x = noSource ->
  bridges (tr w) !! key = None ->
  map_Forall (fun i reg => i = Instance (source reg) /\ in_place T w reg) (registrations (tr w)) ->
  exists s w', SourceOf NativeEndian identity iter b w = Some (s, w') /\
    (forall reg, owner T w key reg -> (forall reg', owner T w key reg' -> reg' = reg) ->
       s = source reg /\ binds w' !! b = Some (mkBinding (Some key) false (source reg))) /\
    ((forall reg, ~ owner T w key reg) -> s = noSource) /\
    (forall r1 r2, owner T w key r1 -> owner T w key r2 -> r1 <> r2 -> s = noSource).
Proof.
  intros Hs Hb Ht Hc Hsrc Hbr Hall.
  destruct (source_of_quiet T w b x key Hs Hb Ht Hc Hsrc Hbr Hall) as (regs & t & Hregs & E). eexists _, _. split; [exact E|].
  assert (forall reg, reg ∈ regs -> answers key reg = true -> owner T w key reg) as Ho.
  { intros reg [Hr Hp]%Hregs Ha. split; [done|]. by apply (answers_holds T w key reg Hp). }
  assert (forall reg, owner T w key reg -> reg ∈ regs /\ answers key reg = true /\ Known (source reg) = true) as Ho'.
  { intros reg [Hr Hh]. destruct (Hall _ _ Hr) as [_ Hp]. split; [by apply Hregs|].
    split; [by apply (answers_holds T w key reg Hp)|by destruct Hp as (_ & ? & _)]. }
  split; [|split].
  - intros reg Hreg Huniq. destruct (Ho' reg Hreg) as (Hin & Ha & Hk).
    rewrite (pick_known _ _ _ (source reg)); [|done|by left|intros r Hr Hq; by rewrite (Huniq r (Ho r Hr Hq))].
    assert (existsb (answers key) regs = true) as ->.
    { apply existsb_exists. exists reg. by rewrite <- list_elem_of_In. }
    split; [done|]. cbn. rewrite list_lookup_alter_eq, Hb. cbn. unfold cache. rewrite Hc, Hsrc, Hk, Ht. done.
  - intros Hno. assert (existsb (answers key) regs = false) as Hex.
    { apply not_true_iff_false. intros (r & Hr & Hq)%existsb_exists. apply list_elem_of_In in Hr. by eapply Hno, Ho. }
    rewrite (pick_known _ _ _ (mkSource "" "x" 0)); [by rewrite Hex|done|by left|]. intros r Hr Hq. by destruct (Hno r (Ho r Hr Hq)).
  - intros r1 r2 H1 H2 Hne. destruct (Ho' r1 H1) as (I1 & A1 & _), (Ho' r2 H2) as (I2 & A2 & _).
    eapply (pick_two _ _ r1 r2); try done; [intros r [_ (_ & ? & _)]%Hregs; done|]. intros E'.
    destruct H1 as [H1 _], H2 as [H2 _]. rewrite E' in H1. congruence.
Qed.

End Quiet.
(** ** An example *)

Module Example.
Import ConnOwner.Example.

Definition p42 : process := mkProcess 42 1 100.
Definition p43 : process := mkProcess 43 42 105.
Definition tree (_ : registration) : ptree := Node p42 [Node p43 []].

Lemma view_steady : steady.
Proof. done. Qed.

Lemma readable_42_43 p : p = p42 \/ p = p43 -> readable p.
Proof.
  intros [->| ->]; (split; [eexists; split; [vm_compute; reflexivity|]|split; [eexists; vm_compute; reflexivity|vm_compute; discriminate]]).
  - intros fd [->|?%elem_of_nil]%elem_of_cons; [vm_compute; discriminate|done].
  - intros fd [->|[->|?%elem_of_nil]%elem_of_cons]%elem_of_cons; [vm_compute; discriminate..|done].
Qed.

Lemma alive_42 : alive p42.
Proof. exists (stat 42 1 100). split; vm_compute; reflexivity. Qed.
Lemma alive_43 : alive p43.
Proof. exists (stat 43 42 105). split; vm_compute; reflexivity. Qed.

Lemma children_42 : gives (children p42) (Some [p43]).
Proof. intros t. vm_compute. reflexivity. Qed.
Lemma children_43 : gives (children p43) (Some []).
Proof. intros t. vm_compute. reflexivity. Qed.

Lemma tree_of_api : tree_of (tree api) api.
Proof.
  split; [|split; [|split; [|done]]].
  - cbn. auto 10 using alive_42, alive_43, children_42, children_43, readable_42_43.
  - change (NoDup [42; 43]). repeat constructor; set_solver.
  - apply Nat.leb_le. vm_compute. reflexivity.
Qed.

Lemma regs_w0 : registrations (tr w0) = {[ Instance (source api) := api ]}.
Proof. vm_compute. reflexivity. Qed.

Lemma all_in_place : map_Forall (fun i reg => i = Instance (source reg) /\ in_place tree w0 reg) (registrations (tr w0)).
Proof.
  intros i reg. rewrite regs_w0. intros [<- <-]%lookup_singleton_Some. split; [done|].
  split; [by rewrite regs_w0, lookup_singleton_eq|]. split; [done|apply tree_of_api].
Qed.

Lemma owner_api : owner LittleEndian tree w0 key api.
Proof.
  split; [by rewrite regs_w0, lookup_singleton_eq|]. exists p43. split; [cbn; set_solver|].
  exists 7. split.
  - exists "tcp", ("  sl" +:+ String LF row), row. split; [by left|]. split; [vm_compute; reflexivity|].
    split; [|vm_compute; reflexivity]. vm_compute. right. left.
  - exists ["0"; "3"], "3". split; [vm_compute; reflexivity|]. split; [set_solver|vm_compute; reflexivity].
Qed.

Lemma quiet_resolution_finds_owner_witness :
  exists s w', SourceOf LittleEndian "id" keep 0 w0 = Some (s, w') /\ s = source api.
Proof.
  destruct (quiet_resolution_finds_owner LittleEndian "id" keep keep_perm view_steady tree w0 0
    (mkBinding (Some key) false noSource) key eq_refl eq_refl eq_refl eq_refl eq_refl eq_refl all_in_place)
    as (s & w' & E & H & _).
  exists s, w'. split; [exact E|]. apply (H api owner_api).
  intros reg [Hr _]. rewrite regs_w0 in Hr. apply lookup_singleton_Some in Hr as [_ <-]. reflexivity.
Defined.

End Example.

End ConnQuiet.
