(* ===== verification/RedisProxy.v ===== *)
(** * The Redis proxy ([internal/proxy/redis.go])

    The RESP reader of client commands, its inverse, the reader that takes one
    reply of the server off the stream unchanged, and the command loop with the
    fault rules.  Replies are recursive: the reader has fuel, and twice the bytes
    that have arrived are shown to be enough. *)

From Stdlib Require Import ZArith Lia Ascii.
From S2P Require Import Prelude GoStd GoText ProxyCore.
From stdpp Require Import base gmap strings numbers list.
Local Open Scope Z_scope.
Import GoStd GoText.

Module RedisProxy.
Import Rules Net Observe.

(** ** Reading commands *)

Definition expected {A} (what line : string) : M (result IOErr A) :=
  mret (Err (ErrOther ("expected " +:+ what +:+ ", got " +:+ line))).

(** One bulk string of a command. *)
Definition read_bulk_arg : M (result IOErr string) :=
  and_then (read_line Client) (fun bulkLine =>
    let bulkLine := trim_crlf bulkLine in
    match bulkLine with
    | String "$" num =>
        let size := atoi_value num in
        if size <? 0 then mret (Ok "")
        else
          make 1 (i64 (size + 2)) ;;
          and_then (read_full Client (Z.to_nat (i64 (size + 2)))) (fun buf =>
            mret (Ok (stake (Z.to_nat size) buf)))
    | _ => expected "bulk string" bulkLine
    end).

Fixpoint read_args (n : nat) : M (result IOErr (list string)) :=
  match n with
  | O => mret (Ok [])
  | S n => and_then read_bulk_arg (fun a => and_then (read_args n) (fun rest => mret (Ok (a :: rest))))
  end.

Definition readRESPArray : M (result IOErr (list string)) :=
  and_then (read_line Client) (fun line =>
    let line := trim_crlf line in
    match line with
    | String "*" num =>
        let n := atoi_value num in
        if n <=? 0 then mret (Ok [])
        else make 16 n ;; read_args (Z.to_nat n)
    | _ => expected "RESP array" line
    end).

Definition encode_bulk (arg : string) : string :=
  "$" +:+ show_Z (Z.of_nat (slen arg)) +:+ crlf +:+ arg +:+ crlf.

Fixpoint encode_bulks (args : list string) : string :=
  match args with [] => "" | a :: rest => encode_bulk a +:+ encode_bulks rest end.

Definition encodeRESPArray (args : list string) : string :=
  "*" +:+ show_Z (Z.of_nat (length args)) +:+ crlf +:+ encode_bulks args.

(** ** Reading a reply as it is *)

Definition is_line_type (c : ascii) : bool := has_char c "+-:_#,(".
Definition is_blob_type (c : ascii) : bool := has_char c "$=!".
Definition is_list_type (c : ascii) : bool := has_char c "*~>".
Definition is_map_type (c : ascii) : bool := has_char c "%|".

(** The rest of a reply after its first line, given the readers of one element and of several. *)
Definition reply_rest (raw : M (result IOErr string)) (elems : Z -> M (result IOErr string)) (line : string)
    : M (result IOErr string) :=
  match line with
  | EmptyString => mret (Ok line)
  | String c num =>
      let n := atoi_value (trim_crlf num) in
      if is_line_type c then mret (Ok line)
      else if is_blob_type c then
        if n <? 0 then mret (Ok line)
        else
          make 1 (i64 (n + 2)) ;;
          and_then (read_full Server (Z.to_nat (i64 (n + 2)))) (fun data => mret (Ok (line +:+ data)))
      else if is_list_type c then
        and_then (elems n) (fun es => mret (Ok (line +:+ es)))
      else if is_map_type c then
        and_then (elems (i64 (2 * n))) (fun es =>
          if Ascii.eqb c "|" then and_then raw (fun v => mret (Ok (line +:+ es +:+ v)))
          else mret (Ok (line +:+ es)))
      else mret (Ok line)
  end.

Fixpoint readRESPRaw (fuel : nat) : M (result IOErr string) :=
  match fuel with
  | O => out_of_fuel
  | S fuel => and_then (read_line Server) (reply_rest (readRESPRaw fuel) (read_elems fuel))
  end
with read_elems (fuel : nat) (n : Z) : M (result IOErr string) :=
  if n <=? 0 then mret (Ok "")
  else
    match fuel with
    | O => out_of_fuel
    | S fuel =>
        and_then (readRESPRaw fuel) (fun e =>
          and_then (read_elems fuel (n - 1)) (fun rest => mret (Ok (e +:+ rest))))
    end.

(** The fuel of one reply: twice the bytes that have arrived, and one. *)
Definition read_reply : M (result IOErr string) := fun io =>
  readRESPRaw (S (2 * slen (unread (server io)))) io.

(** ** The command loop *)

Definition redis_event (t : connTracker) (action : string) (fields : list (string * string)) : ProxyEvent :=
  mkEvent "" "redis" action (service t) (list_to_map fields).

(** The action of a rule: [Some] when the command is handled. *)
Definition redis_act (t : connTracker) (command key : string) (r : Rule) : M (option unit) :=
  match RuleAction r with
  | ActionError =>
      let errMsg := if String.eqb (ErrorMsg r) "" then "ERR injected fault" else ErrorMsg r in
      write Client ("-" +:+ errMsg +:+ crlf) ;;
      emit (onEvent t) (redis_event t "error" [("command", command); ("key", key); ("error", errMsg)]) ;;
      mret (Some tt)
  | ActionRespond =>
      (if String.eqb (Body r) "" then write Client ("$-1" +:+ crlf)
       else write Client ("$" +:+ show_Z (Z.of_nat (slen (Body r))) +:+ crlf +:+ Body r +:+ crlf)) ;;
      emit (onEvent t) (redis_event t "respond" [("command", command); ("key", key)]) ;;
      mret (Some tt)
  | ActionDelay =>
      emit (onEvent t)
        (redis_event t "delay" [("command", command); ("key", key); ("delay_ms", ms (Delay r))]) ;;
      mret None
  | ActionDrop => close Client ;; exit "client_eof"
  | ActionDuplicate => mret None
  end.

Definition redis_matches (command key : string) (r : Rule) : bool := MatchRequest r "" "" "" key "" command.

(** Forwarding a command and its reply. *)
Definition redis_forward (t : connTracker) (command : string) (args : list string) (commandsServed : Z) : M Z :=
  let raw := encodeRESPArray args in
  AddBytesC2S (slen raw) ;;
  write_or_exit (because Server) Server raw ;;
  resp ← or_exit (because Server) read_reply;
  AddBytesS2C (slen resp) ;;
  write_or_exit (because Client) Client resp ;;
  let commandsServed := i64 (commandsServed + 1) in
  (if commandsServed =? 1 then
     let authMethod := if String.eqb command "HELLO" then "hello"
                       else if String.eqb command "AUTH" then "auth" else "" in
     EmitHandshakeComplete t authMethod 1
   else mret tt) ;;
  mret commandsServed.

(** The key of a command is its first argument, if it has one. *)
Definition key_of (rest : list string) : string := match rest with k :: _ => k | [] => "" end.

(** One round of the loop, with the rules of the moment. *)
Definition redis_round (t : connTracker) (rules : list Rule) (commandsServed : Z) : M Z :=
  cancelled ← ctx_done;
  if cancelled : bool then exit "context_cancel"
  else
    args ← or_exit (because Client) readRESPArray;
    match args with
    | [] => mret commandsServed
    | a0 :: rest =>
        let command := to_upper a0 in
        let key := key_of rest in
        handled ← rule_loop (redis_matches command key) (redis_act t command key) rules;
        match handled with
        | Some _ => mret commandsServed
        | None => redis_forward t command args commandsServed
        end
    end.

Definition redis_handleConn (t : connTracker) (dialed : bool) (rules : list Rule) (fuel : nat) : M unit :=
  if negb dialed then close Client
  else
    EmitOpen t ;;
    deferred t (rounds fuel (redis_round t rules) 0 ;; mret tt).

(** ** The command reader inverts the encoder *)

(** Lengths that [make] accepts and that fit an integer. *)
Definition arg_ok (a : string) : Prop := Z.of_nat (slen a) + 2 <= max_alloc.
Definition args_ok (args : list string) : Prop :=
  Forall arg_ok args /\ 16 * Z.of_nat (length args) <= max_alloc.

Definition header (c : ascii) (n : nat) : string := String c (show_Z (Z.of_nat n)).

Lemma header_text c n : is_crlf c = false -> sall (fun c => negb (is_crlf c)) (header c n) = true.
Proof. intros Hc. unfold header. cbn [sall]. rewrite Hc. apply show_Z_no_crlf. lia. Qed.

Lemma read_bulk_arg_encode a rest io : arg_ok a ->
  unread (client io) = encode_bulk a +:+ rest ->
  read_bulk_arg io = (Val (Ok a), set_unread Client rest io).
Proof.
  intros Ha Hu. unfold arg_ok, max_alloc in Ha.
  assert (Ht : sall (fun c => negb (is_crlf c)) (header "$" (slen a)) = true) by (by apply header_text).
  unfold read_bulk_arg.
  erewrite and_then_ok by (apply (read_line_text Client _ (a +:+ crlf +:+ rest) io Ht);
    cbn [conn]; rewrite Hu; unfold encode_bulk, header; by rewrite !string_app_assoc).
  rewrite trim_crlf_line by done. cbn [header]. unfold header.
  rewrite atoi_value_show by lia. rewrite (proj2 (Z.ltb_ge _ _)) by lia.
  rewrite i64_small by lia.
  erewrite bind_val by (apply make_ok; unfold max_alloc; lia).
  erewrite and_then_ok.
  2: { apply (read_full_app _ _ (a +:+ crlf) rest).
       - rewrite conn_set_unread. by rewrite string_app_assoc.
       - rewrite slen_app. cbn. lia. }
  rewrite Nat2Z.id, stake_app. by destruct io.
Qed.

Lemma read_args_encode args : Forall arg_ok args -> forall rest io,
  unread (client io) = encode_bulks args +:+ rest ->
  read_args (length args) io = (Val (Ok args), set_unread Client rest io).
Proof.
  induction 1 as [|a args Ha _ IH]; intros rest io Hu; cbn [read_args length encode_bulks] in *.
  - replace rest with (unread (client io)) by (by rewrite Hu).
    by destruct io as [[] ? ? ? ? ? ? ? ? ? ? ? ?].
  - rewrite string_app_assoc in Hu. erewrite and_then_ok by (by apply read_bulk_arg_encode).
    erewrite and_then_ok by (apply (IH rest); apply (conn_set_unread Client)). by destruct io.
Qed.

(** The proxy reads a command as its client encoded it, whatever bytes the arguments hold, and
    leaves what follows. *)
Lemma readRESPArray_encode args rest io : args_ok args -> args <> [] ->
  unread (client io) = encodeRESPArray args +:+ rest ->
  readRESPArray io = (Val (Ok args), set_unread Client rest io).
Proof.
  intros [Ha Hn] Hne Hu. unfold max_alloc in Hn.
  assert (Ht : sall (fun c => negb (is_crlf c)) (header "*" (length args)) = true) by (by apply header_text).
  unfold readRESPArray.
  erewrite and_then_ok by (apply (read_line_text Client _ (encode_bulks args +:+ rest) io Ht);
    cbn [conn]; rewrite Hu; unfold encodeRESPArray, header; by rewrite !string_app_assoc).
  rewrite trim_crlf_line by done. unfold header.
  assert (0 < length args)%nat by (destruct args; [done|cbn; lia]).
  rewrite atoi_value_show by lia. rewrite (proj2 (Z.leb_gt _ _)) by lia.
  erewrite bind_val by (apply make_ok; unfold max_alloc; lia).
  rewrite Nat2Z.id. rewrite (read_args_encode args Ha rest) by apply (conn_set_unread Client).
  by destruct io.
Qed.

(** ** The reply reader takes exactly one reply *)

(** The replies of RESP2 and RESP3: a line, a blob, the null blob or list, a list or set or push, a
    map as its keys and values in turn, and an attribute before the value it describes. *)
Inductive Resp :=
  | RLine (c : ascii) (text : string)
  | RBlob (c : ascii) (data : string)
  | RNull (c : ascii)
  | RList (c : ascii) (l : list Resp)
  | RMap (kvs : list Resp)
  | RAttr (kvs : list Resp) (v : Resp).

Fixpoint resp_encode (v : Resp) : string :=
  let all := fix all (l : list Resp) : string :=
    match l with [] => "" | v :: l => resp_encode v +:+ all l end in
  match v with
  | RLine c text => String c text +:+ crlf
  | RBlob c data => header c (slen data) +:+ crlf +:+ data +:+ crlf
  | RNull c => String c "-1" +:+ crlf
  | RList c l => header c (length l) +:+ crlf +:+ all l
  | RMap kvs => header "%" (length kvs / 2) +:+ crlf +:+ all kvs
  | RAttr kvs v => header "|" (length kvs / 2) +:+ crlf +:+ all kvs +:+ resp_encode v
  end.

Fixpoint resp_encodes (l : list Resp) : string :=
  match l with [] => "" | v :: l => resp_encode v +:+ resp_encodes l end.

(** Lines hold no line end, lengths fit, and a map has as many values as keys. *)
Fixpoint resp_ok (v : Resp) : Prop :=
  let all := fix all (l : list Resp) : Prop :=
    match l with [] => True | v :: l => resp_ok v /\ all l end in
  match v with
  | RLine c text => is_line_type c = true /\ sall (fun c => negb (is_crlf c)) text = true
  | RBlob c data => is_blob_type c = true /\ Z.of_nat (slen data) + 2 <= max_alloc
  | RNull c => is_blob_type c = true \/ is_list_type c = true
  | RList c l => is_list_type c = true /\ Z.of_nat (length l) < 2 ^ 62 /\ all l
  | RMap kvs => Nat.Even (length kvs) /\ Z.of_nat (length kvs) < 2 ^ 62 /\ all kvs
  | RAttr kvs v => Nat.Even (length kvs) /\ Z.of_nat (length kvs) < 2 ^ 62 /\ all kvs /\ resp_ok v
  end.

Fixpoint resps_ok (l : list Resp) : Prop :=
  match l with [] => True | v :: l => resp_ok v /\ resps_ok l end.

Lemma resp_encode_nonempty v : (3 <= slen (resp_encode v))%nat.
Proof. destruct v; cbn [resp_encode]; rewrite !slen_app; cbn; lia. Qed.

(** The classes of type characters are disjoint, and none is a line end. *)
Lemma type_char c :
  (is_line_type c = true -> is_crlf c = false) /\
  (is_blob_type c = true -> is_crlf c = false /\ is_line_type c = false) /\
  (is_list_type c = true -> is_crlf c = false /\ is_line_type c = false /\ is_blob_type c = false).
Proof. by destruct c as [[] [] [] [] [] [] [] []]. Qed.

Lemma read_header s c n rest io : is_crlf c = false ->
  unread (conn s io) = header c n +:+ crlf +:+ rest ->
  read_line s io = (Val (Ok (String c (show_Z (Z.of_nat n) +:+ crlf))), set_unread s rest io).
Proof. intros Hc Hu. apply (read_line_text s (header c n)); [by apply header_text|done]. Qed.

Lemma trim_count n : trim_crlf (show_Z (Z.of_nat n) +:+ crlf) = show_Z (Z.of_nat n).
Proof. apply trim_crlf_line, show_Z_no_crlf. lia. Qed.

(** What the two readers do on encoded replies, with enough fuel. *)
Definition raw_reads (fuel : nat) : Prop := forall v rest io,
  resp_ok v -> unread (server io) = resp_encode v +:+ rest -> (2 * slen (resp_encode v) < fuel)%nat ->
  readRESPRaw fuel io = (Val (Ok (resp_encode v)), set_unread Server rest io).
Definition elems_read (fuel : nat) : Prop := forall l rest io,
  resps_ok l -> unread (server io) = resp_encodes l +:+ rest -> (2 * slen (resp_encodes l) + 2 <= fuel)%nat ->
  read_elems fuel (Z.of_nat (length l)) io = (Val (Ok (resp_encodes l)), set_unread Server rest io).

Lemma elems_read_step fuel : raw_reads fuel -> elems_read fuel -> elems_read (S fuel).
Proof.
  intros Hraw Hel [|v l] rest io Hok Hu Hf.
  { cbn [read_elems length resp_encodes] in *.
    replace rest with (unread (conn Server io)) by (cbn [conn]; by rewrite Hu).
    by rewrite set_unread_same. }
  destruct Hok as [Hv Hl]. cbn [resp_encodes length] in *. rewrite slen_app in Hf.
  pose proof (resp_encode_nonempty v). cbn [read_elems].
  rewrite (proj2 (Z.leb_gt _ 0)) by lia. rewrite string_app_assoc in Hu.
  erewrite and_then_ok by (apply Hraw; [done|exact Hu|lia]).
  replace (Z.of_nat (S (length l)) - 1) with (Z.of_nat (length l)) by lia.
  erewrite and_then_ok by (apply (Hel _ rest); [done|apply (conn_set_unread Server)|lia]).
  by rewrite set_unread_twice.
Qed.

(** The reader on a header line: its first character and count select the branch. *)
Lemma raw_header fuel c n rest io : is_crlf c = false -> Z.of_nat n < 2 ^ 63 ->
  unread (server io) = header c n +:+ crlf +:+ rest ->
  readRESPRaw (S fuel) io =
  (let line := header c n +:+ crlf in
   let z := Z.of_nat n in
   if is_line_type c then mret (Ok line)
   else if is_blob_type c then
     make 1 (i64 (z + 2)) ;;
     and_then (read_full Server (Z.to_nat (i64 (z + 2)))) (fun data => mret (Ok (line +:+ data)))
   else if is_list_type c then
     and_then (read_elems fuel z) (fun elems => mret (Ok (line +:+ elems)))
   else if is_map_type c then
     and_then (read_elems fuel (i64 (2 * z))) (fun elems =>
       if Ascii.eqb c "|" then
         and_then (readRESPRaw fuel) (fun v => mret (Ok (line +:+ elems +:+ v)))
       else mret (Ok (line +:+ elems)))
   else mret (Ok line)) (set_unread Server rest io).
Proof.
  intros Hc Hn Hu. cbn [readRESPRaw].
  erewrite and_then_ok by (by apply (read_header Server c n rest io)).
  unfold reply_rest. cbv beta iota zeta.
  rewrite trim_count, atoi_value_show by lia.
  by rewrite (proj2 (Z.ltb_ge (Z.of_nat n) 0)) by lia.
Qed.

Lemma raw_reads_blob fuel c data rest io : is_blob_type c = true -> Z.of_nat (slen data) + 2 <= max_alloc ->
  unread (server io) = resp_encode (RBlob c data) +:+ rest ->
  readRESPRaw (S fuel) io = (Val (Ok (resp_encode (RBlob c data))), set_unread Server rest io).
Proof.
  intros Hc Hn Hu. pose proof (type_char c) as (_ & Hb & _). destruct (Hb Hc) as [H1 H2].
  cbn [resp_encode] in *. unfold max_alloc in Hn.
  rewrite (raw_header fuel c (slen data) (data +:+ crlf +:+ rest)) by (first [done|lia|by rewrite Hu, !string_app_assoc]).
    cbv zeta.
  rewrite H2, Hc, i64_small by lia.
  erewrite bind_val by (apply make_ok; unfold max_alloc; lia).
  erewrite and_then_ok.
  2: { apply (read_full_app _ _ (data +:+ crlf) rest).
       - rewrite conn_set_unread. by rewrite string_app_assoc.
       - rewrite slen_app. cbn. lia. }
  rewrite set_unread_twice. by rewrite !string_app_assoc.
Qed.

Lemma raw_reads_null fuel c rest io : is_blob_type c = true \/ is_list_type c = true ->
  unread (server io) = resp_encode (RNull c) +:+ rest ->
  readRESPRaw (S fuel) io = (Val (Ok (resp_encode (RNull c))), set_unread Server rest io).
Proof.
  intros Hc Hu. pose proof (type_char c) as (_ & Hb & Hl). cbn [resp_encode readRESPRaw] in *.
  assert (H1 : is_crlf c = false) by (destruct Hc as [H|H]; [by apply Hb|by apply Hl]).
  erewrite and_then_ok.
  2: { apply (read_line_text Server (String c "-1") rest).
       - cbn [sall]. by rewrite H1.
       - cbn [conn]. by rewrite Hu, string_app_assoc. }
  unfold reply_rest. change (String c "-1" +:+ crlf) with (String c ("-1" +:+ crlf)). cbv zeta iota beta.
  change (atoi_value (trim_crlf ("-1" +:+ crlf))) with (-1). cbn [Z.ltb Z.leb Z.compare].
  destruct Hc as [H|H].
  - destruct (Hb H) as [_ H2]. by rewrite H2, H.
  - destruct (Hl H) as (_ & H2 & H3). rewrite H2, H3, H. by destruct fuel.
Qed.

Lemma all_encodes l :
  (fix all (l : list Resp) : string := match l with [] => "" | v :: l => resp_encode v +:+ all l end) l =
  resp_encodes l.
Proof. induction l as [|v l IH]; [done|]. cbn [resp_encodes]. by rewrite <- IH. Qed.

Lemma all_ok l :
  (fix all (l : list Resp) : Prop := match l with [] => True | v :: l => resp_ok v /\ all l end) l <->
  resps_ok l.
Proof. induction l as [|v l IH]; [done|]. cbn [resps_ok]. by rewrite <- IH. Qed.

Lemma even_half n : Nat.Even n -> Z.of_nat n < 2 ^ 62 -> i64 (2 * Z.of_nat (n / 2)) = Z.of_nat n.
Proof.
  intros [k ->] Hn. rewrite Nat.mul_comm, Nat.div_mul, i64_small by lia. lia.
Qed.

Lemma raw_reads_step fuel : raw_reads fuel -> elems_read fuel -> raw_reads (S fuel).
Proof.
  intros Hraw Hel v rest io Hok Hu Hf. destruct v as [c text|c data|c|c l|kvs|kvs v];
    cbn [resp_ok] in Hok; rewrite ?all_ok in Hok.
  - destruct Hok as [Hc Ht]. pose proof (type_char c) as (Hl & _). cbn [resp_encode readRESPRaw] in *.
    erewrite and_then_ok.
    2: { apply (read_line_text Server (String c text) rest).
         - cbn [sall]. by rewrite (Hl Hc).
         - cbn [conn]. by rewrite Hu, string_app_assoc. }
    change (String c text +:+ crlf) with (String c (text +:+ crlf)). cbn [reply_rest]. by rewrite Hc.
  - destruct Hok. by apply raw_reads_blob.
  - by apply raw_reads_null.
  - destruct Hok as (Hc & Hn & Hok). pose proof (type_char c) as (_ & _ & Hl).
    destruct (Hl Hc) as (H1 & H2 & H3). cbn [resp_encode] in *. rewrite all_encodes in *.
    rewrite !slen_app in Hf. cbn in Hf.
    rewrite (raw_header fuel c (length l) (resp_encodes l +:+ rest)) by (first [done|lia|by rewrite Hu, !string_app_assoc]).
    cbv zeta.
    rewrite H2, H3, Hc.
    erewrite and_then_ok by (apply (Hel _ rest); [done|apply (conn_set_unread Server)|lia]).
    by rewrite set_unread_twice, string_app_assoc.
  - destruct Hok as (He & Hn & Hok). cbn [resp_encode] in *. rewrite all_encodes in *.
    rewrite !slen_app in Hf. cbn in Hf. pose proof (Nat.Div0.div_le_upper_bound (length kvs) 2 (length kvs)).
    rewrite (raw_header fuel "%" (length kvs / 2) (resp_encodes kvs +:+ rest)) by (first [done|lia|by rewrite Hu, !string_app_assoc]).
    cbv zeta.
    change (is_line_type "%") with false. change (is_blob_type "%") with false.
    change (is_list_type "%") with false. change (is_map_type "%") with true. cbv iota.
    rewrite even_half by done.
    erewrite and_then_ok by (apply (Hel _ rest); [done|apply (conn_set_unread Server)|lia]).
    by rewrite set_unread_twice, string_app_assoc.
  - destruct Hok as (He & Hn & Hok & Hv). cbn [resp_encode] in *. rewrite all_encodes in *.
    rewrite !slen_app in Hf. cbn in Hf. pose proof (Nat.Div0.div_le_upper_bound (length kvs) 2 (length kvs)).
    rewrite (raw_header fuel "|" (length kvs / 2) (resp_encodes kvs +:+ resp_encode v +:+ rest)) by (first [done|lia|by rewrite Hu, !string_app_assoc]).
    cbv zeta.
    change (is_line_type "|") with false. change (is_blob_type "|") with false.
    change (is_list_type "|") with false. change (is_map_type "|") with true. cbv iota.
    rewrite even_half by done.
    erewrite and_then_ok by (apply (Hel kvs (resp_encode v +:+ rest)); [done|apply (conn_set_unread Server)|lia]).
    rewrite Ascii.eqb_refl.
    erewrite and_then_ok by (apply (Hraw v rest); [done|apply (conn_set_unread Server)|lia]).
    by rewrite !set_unread_twice, !string_app_assoc.
Qed.

Lemma readers_read fuel : raw_reads fuel /\ elems_read fuel.
Proof.
  induction fuel as [|fuel [IH1 IH2]].
  - split; intros ? ? ? ? ? Hf; lia.
  - split; [by apply raw_reads_step|by apply elems_read_step].
Qed.

(** One reply is read off the stream byte for byte, and the replies after it stay. *)
Lemma read_reply_encode v rest io : resp_ok v ->
  unread (server io) = resp_encode v +:+ rest ->
  read_reply io = (Val (Ok (resp_encode v)), set_unread Server rest io).
Proof.
  intros Hok Hu. unfold read_reply. apply readers_read; [done..|]. rewrite Hu, slen_app. lia.
Qed.

(** ** The reply reader on any bytes *)

(** What a reader returns is what it took off the front of the server's bytes. *)
Definition exactly (m : M (result IOErr string)) (io : IO) : Prop :=
  forall x io', m io = (Val (Ok x), io') ->
  exists u, io' = set_unread Server u io /\ unread (server io) = x +:+ u.

Lemma exactly_empty io : exactly (mret (Ok "")) io.
Proof. intros x io' [= <- <-]. exists (unread (server io)). split; [|done]. by rewrite (set_unread_same Server). Qed.

Lemma exactly_line io : exactly (read_line Server) io.
Proof.
  intros x io'. unfold read_line. cbn [conn]. destruct (line_split (unread (server io))) as [[l t]|] eqn:E.
  - intros [= <- <-]. exists t. by apply line_split_sound in E as [-> _].
  - by destruct (shut (server io)), (peer_closed (server io)).
Qed.

Lemma exactly_full n io : exactly (read_full Server n) io.
Proof.
  intros x io'. unfold read_full. cbn [conn]. destruct (n <=? _)%nat.
  - intros [= <- <-]. eexists. split; [done|]. by rewrite stake_sdrop.
  - by destruct (shut (server io)), (peer_closed (server io)).
Qed.

(** Reading one thing and then another. *)
Lemma exactly_seq m1 (k : string -> M (result IOErr string)) io :
  exactly m1 io ->
  (forall a io1, m1 io = (Val (Ok a), io1) ->
   forall x io2, k a io1 = (Val (Ok x), io2) ->
   exists b u, x = a +:+ b /\ io2 = set_unread Server u io1 /\ unread (server io1) = b +:+ u) ->
  exactly (and_then m1 k) io.
Proof.
  intros H1 H2 x io'. unfold and_then, mbind, M_bind.
  destruct (m1 io) as [[[a|]| | | |] io1] eqn:E; try done. intros Ek.
  destruct (H1 _ _ E) as (u & -> & Hu). destruct (H2 _ _ eq_refl _ _ Ek) as (b & u' & -> & -> & Hb).
  exists u'. rewrite set_unread_twice. split; [done|]. cbn in Hb. by rewrite Hu, Hb, string_app_assoc.
Qed.

(** The two shapes of a continuation: stop, or read more and append it. *)
Lemma seq_stop (a x : string) io1 io2 : (mret (Ok a) : M (result IOErr string)) io1 = (Val (Ok x), io2) ->
  exists b u, x = a +:+ b /\ io2 = set_unread Server u io1 /\ unread (server io1) = b +:+ u.
Proof.
  intros [= <- <-]. exists "", (unread (server io1)).
  by rewrite string_app_nil, (set_unread_same Server).
Qed.

Lemma seq_more m (a x : string) io1 io2 : exactly m io1 ->
  and_then m (fun b => mret (Ok (a +:+ b))) io1 = (Val (Ok x), io2) ->
  exists b u, x = a +:+ b /\ io2 = set_unread Server u io1 /\ unread (server io1) = b +:+ u.
Proof.
  intros Hm. unfold and_then, mbind, M_bind. destruct (m io1) as [[[b|]| | | |] io'] eqn:E; try done.
  intros [= <- <-]. destruct (Hm _ _ E) as (u & -> & Hu). by exists b, u.
Qed.

(** After the first line the readers only append to it. *)
Lemma reply_rest_more raw elems line io1 x io2 :
  (forall io, exactly raw io) -> (forall n io, exactly (elems n) io) ->
  reply_rest raw elems line io1 = (Val (Ok x), io2) ->
  exists b u, x = line +:+ b /\ io2 = set_unread Server u io1 /\ unread (server io1) = b +:+ u.
Proof.
  intros Hr He. unfold reply_rest. destruct line as [|c num]; [apply seq_stop|]. cbv zeta.
  destruct (is_line_type c); [apply seq_stop|].
  destruct (is_blob_type c).
  { destruct (_ <? 0); [apply seq_stop|]. intros H%make_then. revert H. apply seq_more, exactly_full. }
  destruct (is_list_type c); [apply seq_more, He|].
  destruct (is_map_type c); [|apply seq_stop].
  destruct (Ascii.eqb c "|"); [|apply seq_more, He].
  unfold and_then at 1, mbind at 1, M_bind at 1.
  destruct (elems _ io1) as [[[e|]| | | |] io3] eqn:E; try done. intros H.
  destruct (He _ _ _ _ E) as (u & -> & Hu).
  destruct (seq_more raw (String c num +:+ e) x (set_unread Server u io1) io2 (Hr _))
    as (b & u' & -> & -> & Hb).
  { rewrite <- H. unfold and_then, mbind, M_bind. destruct (raw _) as [[[]| | | |] ?]; try done.
    by rewrite string_app_assoc. }
  exists (e +:+ b), u'. rewrite string_app_assoc, set_unread_twice. split_and!; [done..|].
  cbn in Hb. by rewrite Hu, Hb, string_app_assoc.
Qed.

Lemma readers_exact fuel :
  (forall io, exactly (readRESPRaw fuel) io) /\ (forall n io, exactly (read_elems fuel n) io).
Proof.
  induction fuel as [|fuel [IH1 IH2]]; split.
  - done.
  - intros n io. cbn. destruct (n <=? 0); [apply exactly_empty|done].
  - intros io. cbn [readRESPRaw]. apply exactly_seq; [apply exactly_line|].
    intros line io1 _ x io2. by apply reply_rest_more.
  - intros n io. cbn [read_elems]. destruct (n <=? 0); [apply exactly_empty|].
    apply exactly_seq; [apply IH1|]. intros a io1 _ x io2. apply seq_more, IH2.
Qed.

(** *** Termination *)

Definition left_over (io : IO) : nat := slen (unread (server io)).

Lemma raw_progress fuel io x io' : readRESPRaw fuel io = (Val (Ok x), io') -> (left_over io' < left_over io)%nat.
Proof.
  destruct fuel as [|fuel]; [done|]. cbn [readRESPRaw]. unfold and_then, mbind, M_bind.
  destruct (read_line Server io) as [[[l|]| | | |] io1] eqn:E; try done. intros H.
  apply (read_line_progress Server) in E. pose proof (readers_exact fuel) as [H1 H2].
  destruct (reply_rest_more _ _ _ _ _ _ H1 H2 H) as (b & u & _ & -> & Hb).
  unfold left_over. cbn [conn] in E. rewrite Hb, slen_app in E. cbn. lia.
Qed.

Lemma reply_rest_fuel raw elems line io1 :
  (forall n io, (left_over io <= left_over io1)%nat -> (elems n io).1 <> OutOfFuel) ->
  (forall io, (left_over io <= left_over io1)%nat -> (raw io).1 <> OutOfFuel) ->
  (forall n io, exactly (elems n) io) ->
  (reply_rest raw elems line io1).1 <> OutOfFuel.
Proof.
  intros He Hr Hx. unfold reply_rest. destruct line as [|c num]; [done|]. cbv zeta.
  destruct (is_line_type c); [done|]. destruct (is_blob_type c).
  { destruct (_ <? 0); [done|]. unfold make, mbind at 1, M_bind at 1. destruct (_ || _); [done|]. cbn.
    apply and_then_fuel; [|done]. apply (read_fuel Server). }
  destruct (is_list_type c); [apply and_then_fuel; [by apply He|done]|].
  destruct (is_map_type c); [|done]. apply and_then_fuel; [by apply He|].
  intros es io2 E. destruct (Ascii.eqb c "|"); [|done]. apply and_then_fuel; [|done].
  apply Hr. destruct (Hx _ _ _ _ E) as (u & -> & Hu). unfold left_over. rewrite Hu, slen_app. cbn. lia.
Qed.

Lemma readers_fuel fuel :
  (forall io, (2 * left_over io < fuel)%nat -> (readRESPRaw fuel io).1 <> OutOfFuel) /\
  (forall n io, (2 * left_over io + 2 <= fuel)%nat -> (read_elems fuel n io).1 <> OutOfFuel).
Proof.
  induction fuel as [|fuel [IH1 IH2]]; split; [lia..| |].
  - intros io Hf. cbn [readRESPRaw]. apply and_then_fuel; [apply (read_fuel Server 0)|].
    intros line io1 E. apply (read_line_progress Server) in E.
    change (left_over io1 < left_over io)%nat in E. apply reply_rest_fuel.
    + intros n io2 H. apply IH2. lia.
    + intros io2 H. apply IH1. lia.
    + apply readers_exact.
  - intros n io Hf. cbn [read_elems]. destruct (n <=? 0); [done|].
    apply and_then_fuel; [apply IH1; lia|]. intros e io1 E. apply raw_progress in E.
    apply and_then_fuel; [|done]. apply IH2. lia.
Qed.

(** *** One command *)


Lemma redis_forward_reply t command args served v rest io : live io ->
  resp_ok v -> unread (server io) = resp_encode v +:+ rest ->
  exists io', redis_forward t command args served io = (Val (i64 (served + 1)), io') /\
              moved io io' (unread (client io)) rest (resp_encode v) (encodeRESPArray args).
Proof.
  intros Hl Hv Hu. unfold redis_forward. cbv zeta. pose proof Hl as [[H1 H2] [H3 H4] H5].
  erewrite bind_val by (unfold AddBytesC2S; done).
  erewrite bind_val by (by apply write_or_exit_live).
  erewrite bind_val.
  2: { apply or_exit_ok, (read_reply_encode v rest); [done|]. by destruct io. }
  erewrite bind_val by (unfold AddBytesS2C; done).
  erewrite bind_val by (by apply write_or_exit_live).
  destruct (i64 (served + 1) =? 1).
  - unfold EmitHandshakeComplete. destruct (onEvent t); cbn [negb].
    + unfold cas_handshake, Since, emit. destruct io as [[] [] ? ? ? ? ? ? ? ? [] ? ?];
        cbn in *; (eexists; split; [done|]; by split; cbn; rewrite ?Hu).
    + eexists. split; [done|]. by destruct io.
  - eexists. split; [done|]. by destruct io.
Qed.

(** The rules that answer a command or end the connection. *)
Definition redis_terminal (r : Rule) : bool :=
  match RuleAction r with ActionError | ActionRespond | ActionDrop => true | _ => false end.

(** What the client is sent by a rule that answers. *)
Definition redis_answer (r : Rule) : string :=
  match RuleAction r with
  | ActionError => "-" +:+ (if String.eqb (ErrorMsg r) "" then "ERR injected fault" else ErrorMsg r) +:+ crlf
  | _ => if String.eqb (Body r) "" then "$-1" +:+ crlf
         else "$" +:+ show_Z (Z.of_nat (slen (Body r))) +:+ crlf +:+ Body r +:+ crlf
  end.

Lemma redis_act_silent t command key r : redis_terminal r = false -> silent None (redis_act t command key r).
Proof.
  unfold redis_terminal, redis_act. destruct (RuleAction r); try done; intros _.
  - eapply silent_bind; [apply silent_emit|apply silent_ret].
  - apply silent_ret.
Qed.

Lemma redis_act_settles t command key r io io' : redis_terminal r = true ->
  redis_act t command key r io <> (Val None, io').
Proof.
  unfold redis_terminal, redis_act, write, emit, mbind, M_bind. destruct (RuleAction r); try done; intros _.
  - destruct (String.eqb (Body r) ""); by destruct (shut (conn Client io)), (broken (conn Client io)).
  - by destruct (shut (conn Client io)), (broken (conn Client io)).
Qed.

(** The answer of a settling rule that does not drop. *)
Lemma redis_act_answer t command key r io : live io -> redis_terminal r = true -> RuleAction r <> ActionDrop ->
  exists io', redis_act t command key r io = (Val (Some tt), io') /\
              moved io io' (unread (client io)) (unread (server io)) (redis_answer r) "".
Proof.
  intros Hl Ht Hd. pose proof Hl as [[H1 H2] [H3 H4] H5].
  unfold redis_terminal, redis_act, redis_answer in *. destruct (RuleAction r); try done.
  - assert (E : forall b, (if String.eqb (Body r) "" then write Client ("$-1" +:+ crlf) else write Client b) io =
      (Val None, wrote Client (if String.eqb (Body r) "" then "$-1" +:+ crlf else b) io)).
    { intros b. by destruct (String.eqb (Body r) ""); apply write_live. }
    erewrite bind_val by apply E. eexists. split; [done|].
    unfold emit. destruct (onEvent t), io; (split; [done..|by rewrite string_app_nil|done]).
  - erewrite bind_val by (by apply write_live). eexists. split; [done|].
    unfold emit. destruct (onEvent t), io; (split; [done..|by rewrite string_app_nil|done]).
Qed.

Section round.
Context (t : connTracker) (rules : list Rule) (served : Z) (io : IO).
Context (a0 : string) (as0 : list string) (rest : string).
Let args := a0 :: as0.
Let command := to_upper a0.
Let key := key_of as0.

(** The rule that settles the command, if any. *)
Definition redis_verdict : option Rule :=
  settles (floats io) (drawn io) redis_terminal (redis_matches command key) rules.

Hypothesis Hl : live io.
Hypothesis Hargs : args_ok args.
Hypothesis Hu : unread (client io) = encodeRESPArray args +:+ rest.

(** A round reads one command, and what it does then is up to the verdict. *)
Lemma redis_round_reads : exists io1,
  moved io io1 rest (unread (server io)) "" "" /\
  redis_round t rules served io =
  match redis_verdict with
  | None => redis_forward t command args served io1
  | Some r => (redis_act t command key r ;; mret served) io1
  end.
Proof.
  pose proof Hl as [[H1 H2] [H3 H4] H5].
  unfold redis_round. erewrite bind_val by done. rewrite H5. cbv iota beta.
  erewrite bind_val by (apply or_exit_ok, (readRESPArray_encode args rest); [done..|by destruct io]).
  set (io0 := set_unread Client rest _).
  destruct (rule_loop_settles redis_terminal (redis_matches command key) (redis_act t command key) rules
    ltac:(apply redis_act_silent) ltac:(apply redis_act_settles) io0) as (io1 & Q & E).
  exists io1. split.
  { eapply quiet_live in Q as Hl1; [|by split; destruct io]. destruct Q as [Q1 Q2 _ _].
    split; rewrite ?Q1, ?Q2; try done; by rewrite string_app_nil; destruct io. }
  subst args. cbv iota beta zeta. unfold mbind at 1, M_bind at 1. unfold command, key in E. rewrite E.
  fold command key. unfold redis_verdict. replace (floats io0) with (floats io) by (by destruct io).
  replace (drawn io0) with (drawn io) by (by destruct io).
  destruct (settles _ _ _ _ _) as [r|] eqn:Es; [|done]. apply settles_some in Es as (Ht & _).
  pose proof (redis_act_settles t command key r io1) as Hn. unfold mbind, M_bind.
  destruct (redis_act _ _ _ r io1) as [[[]| | | |] io2]; try done. by destruct (Hn io2 Ht).
Qed.

(** A command that no rule settles reaches the server as the client sent it, and the server's reply
    the client. *)
Lemma redis_round_forwards v srest : redis_verdict = None -> resp_ok v ->
  unread (server io) = resp_encode v +:+ srest ->
  exists io', redis_round t rules served io = (Val (i64 (served + 1)), io') /\
              moved io io' rest srest (resp_encode v) (encodeRESPArray args).
Proof.
  intros Hv Hok Hs. destruct redis_round_reads as (io1 & Hm & ->). rewrite Hv.
  destruct (redis_forward_reply t command args served v srest io1) as (io' & E & Hm'); [apply Hm|done| |].
  { by rewrite (mv_server _ _ _ _ _ _ Hm). }
  exists io'. split; [done|]. rewrite (mv_client _ _ _ _ _ _ Hm) in Hm'. exact (moved_trans _ _ _ _ _ _ _ _ _ _ _ Hm Hm').
Qed.

(** A command that a rule answers gets the rule's answer, and the server sees nothing of it. *)
Lemma redis_round_answers r : redis_verdict = Some r -> RuleAction r <> ActionDrop ->
  exists io', redis_round t rules served io = (Val served, io') /\
              moved io io' rest (unread (server io)) (redis_answer r) "".
Proof.
  intros Hv Hd. destruct redis_round_reads as (io1 & Hm & ->). rewrite Hv.
  apply settles_some in Hv as (Ht & _).
  destruct (redis_act_answer t command key r io1) as (io' & E & Hm'); [apply Hm|done..|].
  exists io'. erewrite bind_val by exact E. split; [done|].
  rewrite (mv_client _ _ _ _ _ _ Hm), (mv_server _ _ _ _ _ _ Hm) in Hm'. exact (moved_trans _ _ _ _ _ _ _ _ _ _ _ Hm Hm').
Qed.

(** A command that a rule drops ends the handler with nothing sent to either side; the reason given
    is the client's end of file. *)
Lemma redis_round_drops r : redis_verdict = Some r -> RuleAction r = ActionDrop ->
  exists io', redis_round t rules served io = (Exit "client_eof", io') /\
              written (client io') = written (client io) /\ written (server io') = written (server io) /\
              shut (client io') = true.
Proof.
  intros Hv Hd. destruct redis_round_reads as (io1 & [_ _ E1 E2 _] & ->). rewrite Hv.
  unfold redis_act. rewrite Hd. eexists. split; [done|]. rewrite string_app_nil in *. by destruct io1.
Qed.

End round.

(** *** A session refines the exchange of messages *)

(** The rule that settles a command when no rule has a probability. *)
Definition redis_settler (rules : list Rule) (a0 : string) (as0 : list string) : option Rule :=
  List.find (fun r => redis_matches (to_upper a0) (key_of as0) r && redis_terminal r) rules.

(** The exchange at the level of messages: each command is answered by its settling rule or
    forwarded and answered by the server's next reply.  [None] is an exchange that drops the
    connection or waits for a reply. *)
Fixpoint redis_spec (rules : list Rule) (cmds : list (string * list string)) (replies : list Resp)
    : option (string * string) :=
  match cmds with
  | [] => match replies with [] => Some ("", "") | _ => None end
  | (a0, as0) :: cmds =>
      match redis_settler rules a0 as0 with
      | Some r =>
          match RuleAction r with
          | ActionDrop => None
          | _ => '(c, s) ← redis_spec rules cmds replies; Some (redis_answer r +:+ c, s)
          end
      | None =>
          match replies with
          | [] => None
          | v :: replies =>
              '(c, s) ← redis_spec rules cmds replies;
              Some (resp_encode v +:+ c, encodeRESPArray (a0 :: as0) +:+ s)
          end
      end
  end.

Fixpoint encode_cmds (cmds : list (string * list string)) : string :=
  match cmds with [] => "" | (a0, as0) :: cmds => encodeRESPArray (a0 :: as0) +:+ encode_cmds cmds end.

(** C26: Whatever is pipelined, and however the bytes arrive: the client receives, in the order of
    its commands, the answer of the rule that settles a command or the server's reply to it, and the
    server receives exactly the commands that no rule settles, re-encoded as they were sent. *)
Lemma redis_session_refines t rules cmds : Forall certain rules ->
  Forall (fun '(a0, as0) => args_ok (a0 :: as0)) cmds ->
  forall replies served io crest srest to_client to_server,
  resps_ok replies -> redis_spec rules cmds replies = Some (to_client, to_server) -> live io ->
  unread (client io) = encode_cmds cmds +:+ crest -> unread (server io) = resp_encodes replies +:+ srest ->
  exists n io', rounds (length cmds) (redis_round t rules) served io = (Val n, io') /\
                moved io io' crest srest to_client to_server.
Proof.
  intros Hc. induction 1 as [|[a0 as0] cmds Hargs _ IH]; intros replies served io crest srest tc ts Hok Hs Hl Hu Hv.
  { cbn in Hs. destruct replies; [|done]. injection Hs as <- <-. exists served, io. split; [done|].
    split; by rewrite ?string_app_nil. }
  cbn [encode_cmds] in Hu. rewrite string_app_assoc in Hu.
  cbn [redis_spec] in Hs. unfold redis_settler in Hs. rewrite <- (settles_certain (floats io) (drawn io)) in Hs by done.
  cbn [length rounds]. destruct (settles _ _ _ _ _) as [r|] eqn:Er.
  - assert (Hd : RuleAction r <> ActionDrop) by (by intros E; rewrite E in Hs).
    assert (Hs' : ('(c, s) ← redis_spec rules cmds replies; Some (redis_answer r +:+ c, s)) = Some (tc, ts))
      by (by destruct (RuleAction r)). clear Hs.
    destruct (redis_spec rules cmds replies) as [[c s]|] eqn:Hs; [|done]. injection Hs' as <- <-.
    destruct (redis_round_answers t rules served io a0 as0 _ Hl Hargs Hu r Er Hd) as (io1 & E1 & M1).
    destruct (IH replies served io1 crest srest c s Hok Hs (mv_live _ _ _ _ _ _ M1)
      (mv_client _ _ _ _ _ _ M1)) as (n & io2 & E2 & M2); [by rewrite (mv_server _ _ _ _ _ _ M1)|].
    exists n, io2. erewrite bind_val by exact E1. split; [done|].
    exact (moved_trans _ _ _ _ _ _ _ _ _ _ _ M1 M2).
  - destruct replies as [|v replies]; [done|]. destruct Hok as [Hv1 Hok].
    destruct (redis_spec rules cmds replies) as [[c s]|] eqn:Hs'; [|done]. injection Hs as <- <-.
    cbn [resp_encodes] in Hv. rewrite string_app_assoc in Hv.
    destruct (redis_round_forwards t rules served io a0 as0 _ Hl Hargs Hu v _ Er Hv1 Hv) as (io1 & E1 & M1).
    destruct (IH replies (i64 (served + 1)) io1 crest srest c s Hok Hs' (mv_live _ _ _ _ _ _ M1)
      (mv_client _ _ _ _ _ _ M1) (mv_server _ _ _ _ _ _ M1)) as (n & io2 & E2 & M2).
    exists n, io2. erewrite bind_val by exact E1. split; [done|].
    exact (moved_trans _ _ _ _ _ _ _ _ _ _ _ M1 M2).
Qed.

Lemma redis_session_refines_witness :
  let t := mkTracker "id" true "cache" "main" "redis" "" "" in
  let rules := [mkRule "" "" "" "" "" "DEL" ActionError 0 "" "READONLY" 0 f64_0] in
  exists n io', rounds 2 (redis_round t rules) 0
      (on_wire (encode_cmds [("del", ["k"]); ("get", ["k"])]) (resp_encode (RBlob "$" "v")) 0) = (Val n, io') /\
    moved (on_wire (encode_cmds [("del", ["k"]); ("get", ["k"])]) (resp_encode (RBlob "$" "v")) 0) io' "" ""
      ("-READONLY" +:+ crlf +:+ "$1" +:+ crlf +:+ "v" +:+ crlf) (encodeRESPArray ["get"; "k"]).
Proof.
  intros t rules.
  apply (redis_session_refines t rules [("del", ["k"]); ("get", ["k"])]) with (replies := [RBlob "$" "v"]).
  - repeat constructor.
  - repeat constructor; vm_compute; done.
  - repeat split; vm_compute; done.
  - vm_compute. done.
  - apply on_wire_live.
  - vm_compute. done.
  - vm_compute. done.
Defined.

(** *** The loop comes to an end *)

Lemma shrinks_read_bulk_arg : shrinks Client read_bulk_arg.
Proof. unfold read_bulk_arg, expected. shrink. Qed.

Lemma shrinks_read_args n : shrinks Client (read_args n).
Proof. pose proof shrinks_read_bulk_arg. induction n; cbn [read_args]; shrink. Qed.

Lemma shrinks_readRESPRaw fuel :
  shrinks Client (readRESPRaw fuel) /\ forall n, shrinks Client (read_elems fuel n).
Proof.
  induction fuel as [|fuel [IH1 IH2]]; split.
  - apply shrinks_out_of_fuel.
  - intros n. cbn. destruct (n <=? 0); shrink.
  - cbn [readRESPRaw]. unfold reply_rest. shrink.
  - intros n. cbn [read_elems]. shrink.
Qed.

Lemma redis_round_consumes t rules served : consumes Client (redis_round t rules served).
Proof.
  unfold redis_round. apply consumes_after; [shrink|]. intros []; [apply consumes_exit|].
  apply consumes_bind.
  { apply consumes_line. pose proof shrinks_read_args. unfold expected. shrink. }
  assert (Hr : shrinks Client read_reply) by (intros io r io' E; by apply (shrinks_readRESPRaw _) in E).
  unfold redis_act, redis_forward. shrink.
Qed.

Lemma redis_round_fueled t rules served : fueled (redis_round t rules served).
Proof.
  assert (Hr : fueled read_reply) by (intros io; apply readers_fuel; unfold left_over; lia).
  assert (Hb : fueled read_bulk_arg) by (unfold read_bulk_arg, expected; fuel_ok).
  assert (Ha : forall n, fueled (read_args n)) by (induction n; cbn [read_args]; fuel_ok).
  unfold redis_round, readRESPArray, expected, redis_act, redis_forward. fuel_ok.
Qed.

(** Whatever bytes the two sides have sent, and whatever the rules, the handler of a connection
    comes to an end: it returns, waits for more bytes, or panics, and never loops on what it has. *)
Theorem redis_handler_terminates (t : connTracker) (rules : list Rule) (io : IO) (fuel : nat) :
  (slen (unread (client io)) < fuel)%nat -> ended (redis_handleConn t true rules fuel io).1.
Proof.
  intros Hf. apply handler_ended with (s0 := Client); [|apply redis_round_fueled|done].
  apply consumes_productive, redis_round_consumes.
Qed.

Lemma redis_handler_terminates_witness :
  let t := mkTracker "id" true "cache" "main" "redis" "" "" in
  ended (redis_handleConn t true [] 100 (on_wire (encodeRESPArray ["get"; "k"]) ("*1" +:+ crlf) 0)).1.
Proof. intros t. apply (redis_handler_terminates t [] _ 100). vm_compute. lia. Defined.

(** *** Lengths at the edge *)

(** A bulk length at the top of the integers overflows when the terminator is added to it, and the
    allocation of a negative size panics. *)
Lemma redis_length_overflow_panics t rules served rest io : live io ->
  unread (client io) = "*1" +:+ crlf +:+ "$9223372036854775807" +:+ crlf +:+ rest ->
  (redis_round t rules served io).1 = Panic.
Proof.
  intros Hl Hu. unfold redis_round. erewrite bind_val by done. rewrite (live_ctx io Hl). cbv iota beta.
  set (io0 := mkIO _ _ _ _ _ _ _ _ _ _ _ _ _).
  assert (E : (readRESPArray io0).1 = Panic).
  { unfold readRESPArray.
    erewrite and_then_ok by (apply (read_line_text Client "*1"); [done|]; exact Hu).
    change (trim_crlf ("*1" +:+ crlf)) with "*1". cbv iota beta zeta. change (atoi_value "1") with 1.
    cbn [Z.leb Z.compare]. erewrite bind_val by (by apply make_ok).
    change (Z.to_nat 1) with 1%nat. cbn [read_args]. unfold and_then at 1, mbind at 1, M_bind at 1.
    unfold read_bulk_arg.
    erewrite and_then_ok by (apply (read_line_text Client "$9223372036854775807"); [done|apply conn_set_unread]).
    done. }
  unfold mbind, M_bind, or_exit, mbind, M_bind. revert E. by destruct (readRESPArray io0) as [[] ?]; intros E.
Qed.

(** A null bulk string in a command is forwarded as an empty one. *)
Lemma redis_null_argument rest io :
  unread (client io) = "$-1" +:+ crlf +:+ rest ->
  read_bulk_arg io = (Val (Ok ""), set_unread Client rest io) /\ encode_bulk "" = "$0" +:+ crlf +:+ crlf.
Proof.
  intros Hu. split; [|done]. unfold read_bulk_arg.
  by erewrite and_then_ok by (apply (read_line_text Client "$-1"); [done|exact Hu]).
Qed.

End RedisProxy.
