(* ===== verification/MemcachedProxy.v ===== *)
(** * The Memcached proxy ([internal/proxy/memcached.go])

    The text-protocol command loop: the command line, the data block of a storage
    command, the fault rules, and the reply, whose end for a GET is the line END. *)

From Stdlib Require Import ZArith Lia Ascii.
From S2P Require Import Prelude GoStd GoText ProxyCore.
From stdpp Require Import base gmap strings numbers list.
Local Open Scope Z_scope.
Import GoStd GoText.

Module MemcachedProxy.
Import Rules Net Observe.

Definition isStorageCommand (cmd : string) : bool :=
  bool_decide (cmd ∈ ["SET"; "ADD"; "REPLACE"; "APPEND"; "PREPEND"; "CAS"]).

Definition memcached_event (t : connTracker) (action : string) (fields : list (string * string)) : ProxyEvent :=
  mkEvent "" "memcached" action (service t) (list_to_map fields).

Definition memcached_matches (command key : string) (r : Rule) : bool :=
  criterion command (Command r) && criterion key (Key r).

(** The action of a rule: whether the command is handled, when the rule decides that. *)
Definition memcached_act (t : connTracker) (command key : string) (r : Rule) : M (option bool) :=
  match RuleAction r with
  | ActionError =>
      let errMsg := if String.eqb (ErrorMsg r) "" then "SERVER_ERROR injected fault" else ErrorMsg r in
      write Client (errMsg +:+ crlf) ;;
      emit (onEvent t)
        (memcached_event t "error" [("command", command); ("key", key); ("error", errMsg)]) ;;
      mret (Some true)
  | ActionRespond =>
      let resp := if String.eqb (Body r) "" then "NOT_FOUND" else Body r in
      write Client (resp +:+ crlf) ;; mret (Some true)
  | ActionDelay =>
      emit (onEvent t)
        (memcached_event t "delay" [("command", command); ("key", key); ("delay_ms", ms (Delay r))]) ;;
      mret (Some false)
  | ActionDrop => close Client ;; mret (Some true)
  | ActionDuplicate => mret None
  end.

Definition memcached_checkRules (t : connTracker) (rules : list Rule) (command key : string) : M bool :=
  o ← rule_loop (memcached_matches command key) (memcached_act t command key) rules;
  mret (default false o).

(** The data block after a VALUE line; the error of its read is ignored. *)
Definition value_block (n : Z) : M unit :=
  make 1 (i64 (n + 2)) ;;
  data ← read_fill Server (Z.to_nat (i64 (n + 2)));
  AddBytesS2C (slen data) ;;
  write Client data ;;
  mret tt.

(** One line of the reply of a GET after the first. *)
Definition get_line : M string :=
  resp ← or_exit (because Server) (read_line Server);
  AddBytesS2C (slen resp) ;;
  write Client resp ;;
  (if has_prefix "VALUE" resp then
     match fields resp with
     | _ :: _ :: _ :: n :: _ => value_block (atoi_value n)
     | _ => mret tt
     end
   else mret tt) ;;
  mret resp.

(** [for !strings.HasPrefix(resp, "END")]: each round reads a line from the server. *)
Fixpoint get_lines (fuel : nat) (resp : string) : M unit :=
  if has_prefix "END" resp then mret tt
  else match fuel with O => out_of_fuel | S fuel => resp ← get_line; get_lines fuel resp end.

(** As many rounds as the server has sent bytes, and one. *)
Definition get_rest (resp : string) : M unit := fun io => get_lines (S (slen (unread (server io)))) resp io.

(** The data block of a storage command. *)
Definition data_block (command : string) (parts : list string) : M (option string) :=
  match parts with
  | _ :: _ :: _ :: _ :: n :: _ =>
      if isStorageCommand command then
        make 1 (i64 (atoi_value n + 2)) ;;
        d ← or_exit (because Client) (read_full Client (Z.to_nat (i64 (atoi_value n + 2))));
        AddBytesC2S (slen d) ;;
        mret (Some d)
      else mret None
  | _ => mret None
  end.

(** Forwarding a command and its reply; failed writes are ignored. *)
Definition memcached_forward (t : connTracker) (command line : string) (dataBlock : option string)
    (requestsSeen : Z) : M Z :=
  write Server (line +:+ crlf) ;;
  match dataBlock with Some d => write Server d | None => mret None end ;;
  resp ← or_exit (because Server) (read_line Server);
  AddBytesS2C (slen resp) ;;
  write Client resp ;;
  (if String.eqb command "GET" || String.eqb command "GETS" then get_rest resp else mret tt) ;;
  let requestsSeen := i64 (requestsSeen + 1) in
  (if requestsSeen =? 1 then EmitHandshakeComplete t "" 1 else mret tt) ;;
  mret requestsSeen.

(** One round of the loop. *)
Definition memcached_round (t : connTracker) (rules : list Rule) (requestsSeen : Z) : M Z :=
  cancelled ← ctx_done;
  if cancelled : bool then exit "context_cancel"
  else
    line ← or_exit (because Client) (read_line Client);
    AddBytesC2S (slen line) ;;
    let line := trim_crlf line in
    let parts := fields line in
    match parts with
    | [] => mret requestsSeen
    | p0 :: rest =>
        let command := to_upper p0 in
        let key := match rest with k :: _ => k | [] => "" end in
        dataBlock ← data_block command parts;
        handled ← memcached_checkRules t rules command key;
        if handled : bool then mret requestsSeen
        else memcached_forward t command line dataBlock requestsSeen
    end.

Definition memcached_handleConn (t : connTracker) (dialed : bool) (rules : list Rule) (fuel : nat) : M unit :=
  if negb dialed then close Client
  else
    EmitOpen t ;;
    deferred t (rounds fuel (memcached_round t rules) 0 ;; mret tt).

(** ** The loop comes to an end *)

Lemma get_line_consumes : consumes Server get_line.
Proof.
  unfold get_line, value_block. apply consumes_bind; [apply consumes_read_line|]. shrink.
Qed.

Lemma get_lines_fuel fuel : forall resp io, (slen (unread (server io)) < fuel)%nat ->
  (get_lines fuel resp io).1 <> OutOfFuel.
Proof.
  assert (Hf : fueled get_line) by (unfold get_line, value_block; fuel_ok).
  induction fuel as [|fuel IH]; intros resp io Hlt; [lia|]. cbn [get_lines].
  destruct (has_prefix "END" resp); [done|]. unfold mbind, M_bind. specialize (Hf io).
  destruct (get_line io) as [[x| | | |] io1] eqn:E; try done.
  apply get_line_consumes in E. cbn [conn] in E. apply IH. lia.
Qed.

Lemma shrinks_get_lines s fuel resp : shrinks s (get_lines fuel resp).
Proof.
  revert resp. induction fuel as [|fuel IH]; intros resp; cbn [get_lines]; unfold get_line, value_block; shrink.
Qed.

Lemma memcached_round_consumes t rules seen : consumes Client (memcached_round t rules seen).
Proof.
  unfold memcached_round. apply consumes_after; [shrink|]. intros []; [apply consumes_exit|].
  apply consumes_bind; [apply consumes_read_line|].
  assert (Hg : forall resp, shrinks Client (get_rest resp))
    by (intros resp io r io' E; by apply (shrinks_get_lines Client) in E).
  unfold memcached_checkRules, memcached_act, memcached_forward, data_block. shrink.
Qed.

Lemma memcached_round_fueled t rules seen : fueled (memcached_round t rules seen).
Proof.
  assert (Hg : forall resp, fueled (get_rest resp)) by (intros resp io; apply get_lines_fuel; lia).
  unfold memcached_round, memcached_checkRules, memcached_act, memcached_forward, data_block. fuel_ok.
Qed.

(** Whatever the two sides have sent, the handler returns, waits for more, or panics. *)
Lemma memcached_handler_terminates t rules io fuel :
  (slen (unread (client io)) < fuel)%nat -> ended (memcached_handleConn t true rules fuel io).1.
Proof.
  intros Hf. apply handler_ended with (s0 := Client); [|apply memcached_round_fueled|done].
  apply consumes_productive, memcached_round_consumes.
Qed.

(** ** Commands and replies *)

Section command.
Context (t : connTracker) (rules : list Rule) (seen : Z) (io : IO).
Context (line p0 rest : string) (ps : list string).
Hypothesis Hl : live io.
Hypothesis Hline : sall (fun c => negb (is_crlf c)) line = true.
Hypothesis Hparts : fields line = p0 :: ps.
Let command := to_upper p0.
Let key := match ps with k :: _ => k | [] => "" end.
Hypothesis Hrules : Forall (fun r => memcached_matches command key r = false) rules.

(** A command without a data block that no rule matches is forwarded. *)
Lemma memcached_round_line : isStorageCommand command = false ->
  unread (client io) = line +:+ crlf +:+ rest ->
  exists io1, moved io io1 rest (unread (server io)) "" "" /\
              memcached_round t rules seen io = memcached_forward t command line None seen io1.
Proof.
  intros Hst Hu. pose proof Hl as [[H1 H2] [H3 H4] H5].
  unfold memcached_round. erewrite bind_val by done. rewrite H5. cbv iota beta.
  erewrite bind_val by (apply or_exit_ok, (read_line_text Client line rest); [done|exact Hu]).
  erewrite bind_val by (unfold AddBytesC2S; done). rewrite trim_crlf_line by done. cbv zeta.
  rewrite Hparts. fold command key.
  eexists. erewrite bind_val.
  2: { unfold data_block. rewrite Hst. by destruct ps as [|? [|? [|? [|]]]]. }
  unfold memcached_checkRules. erewrite bind_val.
  2: { erewrite bind_val; [done|]. rewrite rule_loop_picks, picks_none by done. done. }
  cbv iota beta. split; [|done]. destruct io. split; cbn; try done; by rewrite string_app_nil.
Qed.

(** A storage command is forwarded with its data block, whatever bytes the block holds. *)
Lemma memcached_round_store (x y n : string) (more : list string) (data : string) :
  isStorageCommand command = true -> ps = key :: x :: y :: n :: more ->
  atoi_value n = Z.of_nat (slen data) -> Z.of_nat (slen data) + 2 <= max_alloc ->
  unread (client io) = line +:+ crlf +:+ data +:+ crlf +:+ rest ->
  exists io1, moved io io1 rest (unread (server io)) "" "" /\
    memcached_round t rules seen io = memcached_forward t command line (Some (data +:+ crlf)) seen io1.
Proof.
  intros Hst Hps Hn Hmax Hu. pose proof Hl as [[H1 H2] [H3 H4] H5]. unfold max_alloc in Hmax.
  unfold memcached_round. erewrite bind_val by done. rewrite H5. cbv iota beta.
  erewrite bind_val by (apply or_exit_ok, (read_line_text Client line); [done|exact Hu]).
  erewrite bind_val by (unfold AddBytesC2S; done). rewrite trim_crlf_line by done. cbv zeta.
  rewrite Hparts. fold command key. eexists. erewrite bind_val.
  2: { unfold data_block. rewrite Hps, Hst, Hn, i64_small by lia.
       erewrite bind_val by (apply make_ok; unfold max_alloc; lia).
       erewrite bind_val.
       2: { apply or_exit_ok, (read_full_app Client _ (data +:+ crlf) rest).
            - cbn. by rewrite string_app_assoc.
            - rewrite slen_app. cbn. lia. }
       erewrite bind_val by (unfold AddBytesC2S; done). done. }
  unfold memcached_checkRules. erewrite bind_val.
  2: { erewrite bind_val; [done|]. rewrite rule_loop_picks, picks_none by done. done. }
  cbv iota beta. split; [|done]. destruct io. split; cbn; try done; by rewrite string_app_nil.
Qed.

End command.

(** *** The end of a GET *)

(** A command forwarded without data, up to the reading of its reply. *)
Lemma memcached_forward_reply t command line seen l srest io : live io ->
  sall (fun c => negb (is_crlf c)) l = true -> unread (server io) = l +:+ crlf +:+ srest ->
  exists io1, moved io io1 (unread (client io)) srest (l +:+ crlf) (line +:+ crlf) /\
  memcached_forward t command line None seen io =
  ((if String.eqb command "GET" || String.eqb command "GETS" then get_rest (l +:+ crlf) else mret tt) ;;
   let requestsSeen := i64 (seen + 1) in
   (if requestsSeen =? 1 then EmitHandshakeComplete t "" 1 else mret tt) ;;
   mret requestsSeen) io1.
Proof.
  intros Hl Hline Hu. unfold memcached_forward. pose proof Hl as [[H1 H2] [H3 H4] H5].
  erewrite bind_val by (by apply write_live). erewrite bind_val by done.
  erewrite bind_val by (apply or_exit_ok, (read_line_text Server l srest); [done|exact Hu]).
  erewrite bind_val by (unfold AddBytesS2C; done).
  erewrite bind_val by (by apply write_live).
  eexists. split; [|done]. by destruct io.
Qed.

Lemma handshake_moved t n a k io : live io ->
  exists io', ((if n =? 1 then EmitHandshakeComplete t a k else mret tt) ;; mret n) io = (Val n, io') /\
              moved io io' (unread (client io)) (unread (server io)) "" "".
Proof.
  intros Hl. assert (S : silent tt (if n =? 1 then EmitHandshakeComplete t a k else mret tt)).
  { destruct (n =? 1); [apply silent_EmitHandshakeComplete|apply silent_ret]. }
  destruct (S io) as (io' & E & Q & _). exists io'. erewrite bind_val by exact E.
  split; [done|by apply quiet_moved_self].
Qed.

Lemma get_lines_end fuel resp : has_prefix "END" resp = true -> get_lines fuel resp = mret tt.
Proof. intros H. destruct fuel; cbn [get_lines]; by rewrite H. Qed.

Lemma get_line_text l srest io : live io -> sall (fun c => negb (is_crlf c)) l = true ->
  has_prefix "VALUE" (l +:+ crlf) = false -> unread (server io) = l +:+ crlf +:+ srest ->
  exists io', get_line io = (Val (l +:+ crlf), io') /\
              moved io io' (unread (client io)) srest (l +:+ crlf) "".
Proof.
  intros Hl Hline Hv Hu. pose proof Hl as [[H1 H2] [H3 H4] H5]. unfold get_line.
  erewrite bind_val by (apply or_exit_ok, (read_line_text Server l srest); [done|exact Hu]).
  erewrite bind_val by (unfold AddBytesS2C; done). erewrite bind_val by (by apply write_live).
  rewrite Hv. eexists. split; [done|]. destruct io. by split; cbn; rewrite ?string_app_nil.
Qed.

(** The first VALUE line of a GET is not followed by a read of its length: its data block is read
    as lines.  A value whose first line starts with END ends the reply there, and the real END is
    left to be taken for the reply of the next command. *)
Lemma memcached_get_desync t rules seen io key tail rest srest :
  live io -> word key -> sall (fun c => negb (is_crlf c)) tail = true ->
  Forall (fun r => memcached_matches "GET" key r = false) rules ->
  let data := "END" +:+ tail in
  let value := "VALUE " +:+ key +:+ " 0 " +:+ show_Z (Z.of_nat (slen data)) in
  unread (client io) = "get " +:+ key +:+ crlf +:+ rest ->
  unread (server io) = value +:+ crlf +:+ data +:+ crlf +:+ "END" +:+ crlf +:+ srest ->
  exists io', memcached_round t rules seen io = (Val (i64 (seen + 1)), io') /\
    moved io io' rest ("END" +:+ crlf +:+ srest) (value +:+ crlf +:+ data +:+ crlf) ("get " +:+ key +:+ crlf).
Proof.
  intros Hl Hk Ht Hr data value Hu Hs.
  destruct (memcached_round_line t rules seen io ("get " +:+ key) "get" rest [key]) as (io1 & M1 & ->); [done|..|done| |].
  { rewrite sall_app. by rewrite (word_no_crlf key). }
  { change ("get " +:+ key) with ("get" +:+ String " " key). by rewrite fields_cons, fields_one. }
  { done. }
  { by rewrite Hu, string_app_assoc. }
  change (to_upper "get") with "GET".
  assert (Hv : sall (fun c => negb (is_crlf c)) value = true).
  { unfold value. rewrite !sall_app, (word_no_crlf key), show_Z_no_crlf by (done || lia). done. }
  destruct (memcached_forward_reply t "GET" ("get " +:+ key) seen value
    (data +:+ crlf +:+ "END" +:+ crlf +:+ srest) io1) as (io2 & M2 & ->);
    [apply M1|done|by rewrite (mv_server _ _ _ _ _ _ M1)|].
  cbn [orb String.eqb]. 
  destruct (get_line_text data ("END" +:+ crlf +:+ srest) io2) as (io3 & E3 & M3); [apply M2| |done| |].
  { unfold data. by rewrite sall_app, Ht. }
  { apply M2. }
  assert (G : get_rest (value +:+ crlf) io2 = (Val tt, io3)).
  { unfold get_rest. cbn [get_lines]. replace (has_prefix "END" (value +:+ crlf)) with false by done.
    erewrite bind_val by exact E3. rewrite get_lines_end; [done|].
    unfold data. rewrite string_app_assoc. apply has_prefix_app. }
  erewrite bind_val by exact G. cbv zeta.
  destruct (handshake_moved t (i64 (seen + 1)) "" 1 io3) as (io4 & E4 & M4); [apply M3|].
  exists io4. split; [done|].
  pose proof (moved_trans _ _ _ _ _ _ _ _ _ _ _ M1 (moved_trans _ _ _ _ _ _ _ _ _ _ _ M2
    (moved_trans _ _ _ _ _ _ _ _ _ _ _ M3 M4))) as M.
  rewrite !string_app_nil, (mv_client _ _ _ _ _ _ M3), (mv_client _ _ _ _ _ _ M2),
    (mv_client _ _ _ _ _ _ M1), (mv_server _ _ _ _ _ _ M3), !string_app_assoc in M. exact M.
Qed.

Lemma memcached_get_desync_witness :
  let t := mkTracker "id" true "cache" "main" "memcached" "" "" in
  let io := on_wire ("get k" +:+ crlf) ("VALUE k 0 6" +:+ crlf +:+ "ENDING" +:+ crlf +:+ "END" +:+ crlf) 0 in
  exists io', memcached_round t [] 0 io = (Val 1, io') /\
    moved io io' "" ("END" +:+ crlf) ("VALUE k 0 6" +:+ crlf +:+ "ENDING" +:+ crlf) ("get k" +:+ crlf).
Proof.
  intros t io. apply (memcached_get_desync t [] 0 io "k" "ING" "" "").
  - apply on_wire_live.
  - vm_compute. done.
  - vm_compute. done.
  - constructor.
  - vm_compute. done.
  - vm_compute. done.
Defined.

(** A GET that the server answers with an error line, and nothing more, is waited on for ever. *)
Lemma memcached_get_error_waits t seen io l :
  live io -> peer_closed (server io) = false -> sall (fun c => negb (is_crlf c)) l = true ->
  has_prefix "END" (l +:+ crlf) = false -> unread (server io) = l +:+ crlf ->
  (memcached_forward t "GET" "get k" None seen io).1 = Block Server.
Proof.
  intros Hl Hp Hline He Hu. pose proof Hl as [[H1 H2] [H3 H4] H5].
  unfold memcached_forward. erewrite bind_val by (by apply write_live). erewrite bind_val by done.
  erewrite bind_val by (apply or_exit_ok, (read_line_text Server l ""); [done|]; cbn;
    by rewrite Hu, string_app_nil).
  erewrite bind_val by (unfold AddBytesS2C; done). erewrite bind_val by (by apply write_live).
  cbn [orb String.eqb]. unfold get_rest, mbind at 1, M_bind at 1. cbn [get_lines]. rewrite He.
  unfold get_line, or_exit, mbind, M_bind, read_line. destruct io. cbn in *. by rewrite H3, Hp.
Qed.

(** A dropped command closes the client's connection, but the commands that the reader had already
    buffered are still executed on the server. *)
Example memcached_drop_then_delete :
  let drop := mkRule "" "" "" "hot" "" "" ActionDrop 0 "" "" 0 f64_0 in
  let t := mkTracker "id" false "svc" "main" "memcached" "" "" in
  let io := on_wire ("get hot" +:+ crlf +:+ "delete cold" +:+ crlf) ("DELETED" +:+ crlf) 100 in
  let io' := (rounds 2 (memcached_round t [drop]) 0 io).2 in
  (shut (client io'), written (client io'), written (server io')) = (true, "", "delete cold" +:+ crlf).
Proof. vm_compute. reflexivity. Qed.

End MemcachedProxy.
