(* ===== verification/NatsProxy.v ===== *)
(** * The NATS proxy ([internal/proxy/nats.go])

    A relay per direction: control lines keep their terminator, a PUB or MSG line
    is followed by a payload of its declared length, and a dropped message goes
    with its payload. *)

From Stdlib Require Import ZArith Lia Ascii.
From S2P Require Import Prelude GoStd GoText ProxyCore.
From stdpp Require Import base gmap strings numbers list.
Local Open Scope Z_scope.
Import GoStd GoText.

Module NatsProxy.
Import Rules Net Observe.

Definition natsPayloadLen (line verb : string) : Z :=
  if negb (has_prefix verb line) then -1
  else
    let fs := fields (trim_crlf line) in
    if (length fs <? 3)%nat then -1
    else match last fs ≫= atoi with
         | Some n => if n <? 0 then -1 else n
         | None => -1
         end.

Definition extractNATSSubject (line : string) : string :=
  match fields line with _ :: subject :: _ => subject | _ => "" end.

Definition nats_event (t : connTracker) (action : string) (fs : list (string * string)) : ProxyEvent :=
  mkEvent "" "nats" action (service t) (list_to_map fs).

Definition nats_matches (subject : string) (r : Rule) : bool := criterion subject (Topic r).

Definition nats_act (t : connTracker) (subject direction : string) (r : Rule) : M (option bool) :=
  match RuleAction r with
  | ActionDrop =>
      emit (onEvent t) (nats_event t "drop" [("subject", subject); ("direction", direction)]) ;;
      mret (Some true)
  | ActionDelay =>
      emit (onEvent t) (nats_event t "delay" [("subject", subject); ("delay_ms", ms (Delay r))]) ;;
      mret None
  | _ => mret None
  end.

Definition shouldDrop (t : connTracker) (rules : list Rule) (subject direction : string) : M bool :=
  o ← rule_loop (nats_matches subject) (nats_act t subject direction) rules;
  mret (default false o).

(** The direction of a relay: the side it reads, to write on the other, the verb that carries a
    payload, its name, the counter and the callback on each line. *)
Record Relay := mkRelay {
  src : Side; verb : string; direction : string; count : nat -> M unit; onLine : Z -> M Z }.

(** The relay ends with an error: the handler's close reason. *)
Definition relay_end {A} (e : IOErr) : M A := exit (because Client e).

(** One line and its payload; the state is the callback's. *)
Definition relay_round (t : connTracker) (rules : list Rule) (d : Relay) (lines : Z) : M Z :=
  le ← read_bytes (src d);
  let '(line, err) := le : string * option IOErr in
  match String.eqb line "", err with
  | true, Some e => relay_end e
  | _, _ =>
      count d (slen line) ;;
      let n := natsPayloadLen line (verb d) in
      payload ← (if 0 <=? n then
                   make 1 (i64 (n + 2)) ;;
                   p ← or_exit (because Client) (read_full (src d) (Z.to_nat (i64 (n + 2))));
                   count d (slen p) ;;
                   mret p
                 else mret "");
      drop ← (if has_prefix (verb d) line then shouldDrop t rules (extractNATSSubject line) (direction d)
              else mret false);
      lines ← (if drop : bool then mret lines
               else
                 write_or_exit (because Client) (other (src d)) line ;;
                 (if String.eqb payload "" then mret tt
                  else write_or_exit (because Client) (other (src d)) payload) ;;
                 onLine d lines);
      match err with Some e => relay_end e | None => mret lines end
  end.

(** The two relays of a connection. *)
Definition deliver (t : connTracker) : Relay :=
  mkRelay Server "MSG " "deliver" AddBytesS2C (fun linesSeen =>
    let linesSeen := i64 (linesSeen + 1) in
    (if linesSeen =? 1 then EmitHandshakeComplete t "info" 1 else mret tt) ;;
    mret linesSeen).

Definition publish : Relay := mkRelay Client "PUB " "publish" AddBytesC2S (fun lines => mret lines).

(** The two goroutines take turns; the first to end gives the handler its reason. *)
Fixpoint nats_turns (t : connTracker) (rules : list Rule) (turns : list bool) (linesSeen : Z) : M Z :=
  match turns with
  | [] => mret linesSeen
  | b :: turns =>
      linesSeen ← (if b : bool then relay_round t rules (deliver t) linesSeen
                   else relay_round t rules publish linesSeen);
      nats_turns t rules turns linesSeen
  end.

Definition nats_handleConn (t : connTracker) (dialed : bool) (rules : list Rule) (turns : list bool) : M unit :=
  if negb dialed then close Client
  else
    EmitOpen t ;;
    deferred t (nats_turns t rules turns 0 ;; mret tt).

(** ** What a relay does with a stream of messages *)

(** A control line, or a message with its subject, the words between it and the length, and its
    payload of any bytes. *)
Inductive NMsg := Ctl (line : string) | Msg (subject : string) (mids : list string) (payload : string).

Fixpoint words_line (ws : list string) (final : string) : string :=
  match ws with [] => final | w :: ws => w +:+ String " " (words_line ws final) end.

Definition msg_line (w subject : string) (mids : list string) (payload : string) : string :=
  words_line (w :: subject :: mids) (show_Z (Z.of_nat (slen payload))).

Definition nats_encode (w : string) (m : NMsg) : string :=
  match m with
  | Ctl line => line +:+ crlf
  | Msg subject mids payload => msg_line w subject mids payload +:+ crlf +:+ payload +:+ crlf
  end.

Fixpoint nats_encodes (w : string) (ms : list NMsg) : string :=
  match ms with [] => "" | m :: ms => nats_encode w m +:+ nats_encodes w ms end.

Definition msg_ok (w : string) (m : NMsg) : Prop :=
  match m with
  | Ctl line => sall (fun c => negb (is_crlf c)) line = true /\ has_prefix (w +:+ " ") (line +:+ crlf) = false
  | Msg subject mids payload => word subject /\ Forall word mids /\ Z.of_nat (slen payload) + 2 <= max_alloc
  end.

Definition is_drop (r : Rule) : bool := bool_decide (RuleAction r = ActionDrop).

(** Whether a message is dropped, when no rule has a probability. *)
Definition nats_drops (rules : list Rule) (m : NMsg) : bool :=
  match m with
  | Ctl _ => false
  | Msg subject _ _ => existsb (fun r => nats_matches subject r && is_drop r) rules
  end.

Definition survivors (rules : list Rule) (ms : list NMsg) : list NMsg :=
  List.filter (fun m => negb (nats_drops rules m)) ms.

(** A relay whose callbacks only count. *)
Record relay_ok (w : string) (d : Relay) : Prop := {
  ro_verb : verb d = w +:+ " ";
  ro_word : word w;
  ro_count : forall n, silent tt (count d n);
  ro_line : forall n, exists n', silent n' (onLine d n) }.

Lemma silent_AddBytes n : silent tt (AddBytesC2S n) /\ silent tt (AddBytesS2C n).
Proof. split; intros io; eexists; by split. Qed.

Lemma deliver_ok t : relay_ok "MSG" (deliver t).
Proof.
  split; [done..|apply silent_AddBytes|]. intros n. eexists. cbn. eapply silent_bind; [|apply silent_ret].
  destruct (_ =? 1); [apply silent_EmitHandshakeComplete|apply silent_ret].
Qed.

Lemma publish_ok : relay_ok "PUB" publish.
Proof. split; [done..|apply silent_AddBytes|]. intros n. exists n. apply silent_ret. Qed.

Lemma fields_words_line ws final : Forall word ws -> word final -> fields (words_line ws final) = ws ++ [final].
Proof.
  intros Hws Hf. induction Hws as [|w ws Hw _ IH]; cbn [words_line app]; [by apply fields_one|].
  by rewrite fields_cons, IH.
Qed.

Lemma words_line_text ws final : Forall word ws -> word final ->
  sall (fun c => negb (is_crlf c)) (words_line ws final) = true.
Proof.
  intros Hws Hf. induction Hws as [|w ws Hw _ IH]; cbn [words_line]; [by apply word_no_crlf|].
  rewrite sall_app, (word_no_crlf w Hw). cbn [sall]. by rewrite IH.
Qed.

Section relay.
Context (w : string) (d : Relay) (Hd : relay_ok w d).

Lemma msg_words subject mids payload : msg_ok w (Msg subject mids payload) ->
  let line := msg_line w subject mids payload in
  sall (fun c => negb (is_crlf c)) line = true /\
  fields line = (w :: subject :: mids) ++ [show_Z (Z.of_nat (slen payload))] /\
  has_prefix (verb d) (line +:+ crlf) = true.
Proof.
  intros (Hs & Hm & Hp). pose proof (ro_word _ _ Hd) as Hw.
  assert (Hn : word (show_Z (Z.of_nat (slen payload)))) by (apply show_Z_word; lia).
  assert (Hall : Forall word (w :: subject :: mids)) by (constructor; [done|by constructor]).
  split_and!.
  - by apply words_line_text.
  - by apply fields_words_line.
  - unfold msg_line. cbn [words_line]. rewrite (ro_verb _ _ Hd). apply has_prefix_iff.
    eexists. rewrite !string_app_assoc. reflexivity.
Qed.

(** A line's declared length is its payload's. *)
Lemma natsPayloadLen_msg subject mids payload : msg_ok w (Msg subject mids payload) ->
  natsPayloadLen (msg_line w subject mids payload +:+ crlf) (verb d) = Z.of_nat (slen payload).
Proof.
  intros Hok. destruct (msg_words _ _ _ Hok) as (Ht & Hf & Hp). destruct Hok as (_ & _ & Hmax).
  unfold max_alloc in Hmax. unfold natsPayloadLen. rewrite Hp. cbn [negb].
  rewrite trim_crlf_line, Hf by done. rewrite length_app. cbn [length].
  rewrite (proj2 (Nat.ltb_ge _ 3)) by lia. rewrite last_snoc. cbn [mbind option_bind].
  rewrite atoi_show by lia. by rewrite (proj2 (Z.ltb_ge _ 0)) by lia.
Qed.

Lemma extractNATSSubject_msg subject mids payload : msg_ok w (Msg subject mids payload) ->
  extractNATSSubject (msg_line w subject mids payload +:+ crlf) = subject.
Proof.
  intros Hok. pose proof Hok as (Hs & Hm & Hp). pose proof (ro_word _ _ Hd) as Hw.
  unfold extractNATSSubject, msg_line. cbn [words_line].
  rewrite string_app_assoc, string_app_cons, fields_cons by done.
  by rewrite string_app_assoc, string_app_cons, fields_cons.
Qed.

(** The decision on a subject is quiet. *)
Lemma shouldDrop_certain t rules subject dir io : Forall certain rules ->
  exists io', shouldDrop t rules subject dir io =
    (Val (existsb (fun r => nats_matches subject r && is_drop r) rules), io') /\ quiet io io'.
Proof.
  intros Hc. unfold shouldDrop.
  destruct (rule_loop_settles is_drop (nats_matches subject) (nats_act t subject dir) rules) with (io := io)
    as (io1 & Q & E).
  - intros r. unfold is_drop, nats_act. destruct (RuleAction r); try done; intros _; try apply silent_ret.
    eapply silent_bind; [apply silent_emit|apply silent_ret].
  - intros r io1 io2. unfold is_drop, nats_act. destruct (RuleAction r); done.
  - rewrite (settles_certain _ _ _ _ _ Hc) in E.
    destruct (List.find _ rules) as [r|] eqn:F.
    + apply List.find_some in F as [Hin Hr].
      assert (Ex : existsb (fun r => nats_matches subject r && is_drop r) rules = true)
        by (apply existsb_exists; exists r; by split).
      apply andb_true_iff in Hr as [_ Hr]. unfold is_drop in Hr. apply bool_decide_eq_true in Hr.
      unfold nats_act in E. rewrite Hr in E. erewrite bind_val by exact E. rewrite Ex.
      eexists. split; [done|]. eapply quiet_trans; [exact Q|]. by destruct (onEvent t).
    + erewrite bind_val by exact E. exists io1. split; [|done].
      replace (existsb _ rules) with false; [done|].
      symmetry. apply not_true_iff_false. intros (r & Hin & Hr)%existsb_exists.
      pose proof (List.find_none _ _ F r Hin). congruence.
Qed.

(** Writing a line and its payload, and the callback. *)
Lemma relay_write io0 io1 rest line payload lines : passed (src d) io0 io1 rest "" ->
  exists lines' io2,
    (write_or_exit (because Client) (other (src d)) line ;;
     (if String.eqb payload "" then mret tt else write_or_exit (because Client) (other (src d)) payload) ;;
     onLine d lines) io1 = (Val lines', io2) /\ passed (src d) io0 io2 rest (line +:+ payload).
Proof.
  intros R. erewrite bind_val by (apply write_or_exit_live; by eapply passed_live).
  pose proof (passed_wrote _ _ _ _ _ line R) as R1. change ("" +:+ line) with line in R1.
  assert (P : exists io2, (if String.eqb payload "" then mret tt
      else write_or_exit (because Client) (other (src d)) payload) (wrote (other (src d)) line io1) = (Val tt, io2) /\
    passed (src d) io0 io2 rest (line +:+ payload)).
  { destruct (String.eqb_spec payload "") as [->|_].
    - eexists. split; [done|]. by rewrite string_app_nil.
    - eexists. split; [apply write_or_exit_live; by eapply passed_live|by apply passed_wrote]. }
  destruct P as (io2 & E2 & R2). erewrite bind_val by exact E2.
  destruct (ro_line _ _ Hd lines) as [n' Hn]. destruct (Hn io2) as (io3 & E3 & Q3 & _).
  exists n', io3. split; [done|by eapply passed_quiet].
Qed.

(** A control line is forwarded as it is. *)
Lemma relay_round_ctl t rules lines line rest io : live io -> msg_ok w (Ctl line) ->
  unread (conn (src d) io) = line +:+ crlf +:+ rest ->
  exists lines' io', relay_round t rules d lines io = (Val lines', io') /\ passed (src d) io io' rest (line +:+ crlf).
Proof.
  intros Hl [Ht Hv] Hu. rewrite <- (ro_verb _ _ Hd) in Hv. unfold relay_round.
  erewrite bind_val by (by apply read_bytes_text). cbv zeta iota beta.
  destruct (String.eqb_spec (line +:+ crlf) "") as [E|_]; [by destruct line|].
  destruct (ro_count _ _ Hd (slen (line +:+ crlf)) (set_unread (src d) rest io)) as (io1 & E1 & Q1 & _).
  erewrite bind_val by exact E1. unfold natsPayloadLen. rewrite Hv. cbn [negb Z.leb Z.compare].
  erewrite bind_val by done. erewrite bind_val by done. cbv iota beta.
  destruct (relay_write io io1 rest (line +:+ crlf) "" lines) as (lines' & io2 & E2 & R2).
  { eapply passed_quiet; [by apply passed_read|done]. }
  rewrite string_app_nil in R2. exists lines', io2. split; [|done]. by erewrite bind_val by exact E2.
Qed.

(** A message is forwarded with its payload, or dropped with it. *)
Lemma relay_round_msg t rules lines subject mids payload rest io :
  live io -> Forall certain rules -> msg_ok w (Msg subject mids payload) ->
  unread (conn (src d) io) = nats_encode w (Msg subject mids payload) +:+ rest ->
  exists lines' io', relay_round t rules d lines io = (Val lines', io') /\
    passed (src d) io io' rest
      (if nats_drops rules (Msg subject mids payload) then "" else nats_encode w (Msg subject mids payload)).
Proof.
  intros Hl Hc Hok Hu. destruct (msg_words _ _ _ Hok) as (Ht & _ & Hv). cbn [nats_encode nats_drops] in *.
  pose proof Hok as (_ & _ & Hmax). unfold max_alloc in Hmax. rewrite !string_app_assoc in Hu. unfold relay_round.
  erewrite bind_val by (by apply read_bytes_text). cbv zeta iota beta.
  set (line := msg_line w subject mids payload) in *.
  destruct (String.eqb_spec (line +:+ crlf) "") as [E|_]; [by destruct line|].
  destruct (ro_count _ _ Hd (slen (line +:+ crlf)) (set_unread (src d) (payload +:+ crlf +:+ rest) io))
    as (io1 & E1 & Q1 & _).
  erewrite bind_val by exact E1. 
  replace (natsPayloadLen (line +:+ crlf) (verb d)) with (Z.of_nat (slen payload))
    by (symmetry; by apply natsPayloadLen_msg).
  rewrite (proj2 (Z.leb_le 0 _)), i64_small by lia.
  assert (R1 : passed (src d) io io1 (payload +:+ crlf +:+ rest) "")
    by (eapply passed_quiet; [by apply passed_read|done]).
  destruct (ro_count _ _ Hd (slen (payload +:+ crlf)) (set_unread (src d) rest io1)) as (io2 & E2 & Q2 & _).
  erewrite bind_val.
  2: { erewrite bind_val by (apply make_ok; unfold max_alloc; lia).
       erewrite bind_val.
       2: { apply or_exit_ok, (read_full_app (src d) _ (payload +:+ crlf) rest).
            - by rewrite (passed_rest _ _ _ _ _ R1), string_app_assoc.
            - rewrite slen_app. cbn. lia. }
       erewrite bind_val by exact E2. done. }
  assert (R2 : passed (src d) io io2 rest "") by (eapply passed_quiet; [by eapply passed_more|done]).
  rewrite Hv.
  replace (extractNATSSubject (line +:+ crlf)) with subject by (symmetry; by apply extractNATSSubject_msg).
  destruct (shouldDrop_certain t rules subject (direction d) io2 Hc) as (io3 & E3 & Q3).
  erewrite bind_val by exact E3. assert (R3 : passed (src d) io io3 rest "") by (by eapply passed_quiet).
  destruct (existsb _ rules).
  - exists lines, io3. by split.
  - destruct (relay_write io io3 rest (line +:+ crlf) (payload +:+ crlf) lines R3) as (lines' & io4 & E4 & R4).
    exists lines', io4. erewrite bind_val by exact E4. split; [done|]. by rewrite string_app_assoc in R4.
Qed.

(** A relay passes on the stream of its source, byte for byte, less the dropped messages with
    their payloads: the messages that survive the rules, in order. *)
Lemma relay_survivors t rules msgs : Forall certain rules -> Forall (msg_ok w) msgs ->
  forall lines io rest, live io -> unread (conn (src d) io) = nats_encodes w msgs +:+ rest ->
  exists lines' io', rounds (length msgs) (relay_round t rules d) lines io = (Val lines', io') /\
    passed (src d) io io' rest (nats_encodes w (survivors rules msgs)).
Proof.
  intros Hc. induction 1 as [|m msgs Hm _ IH]; intros lines io rest Hl Hu.
  { exists lines, io. split; [done|]. change (unread (conn (src d) io) = rest) in Hu.
    pose proof (passed_read (src d) io rest Hl) as P. rewrite <- Hu in P at 1. by rewrite set_unread_same in P. }
  cbn [nats_encodes] in Hu. rewrite string_app_assoc in Hu. cbn [length rounds].
  assert (Hr : exists lines1 io1, relay_round t rules d lines io = (Val lines1, io1) /\
    passed (src d) io io1 (nats_encodes w msgs +:+ rest) (if nats_drops rules m then "" else nats_encode w m)).
  { destruct m as [line|subject mids payload]; [|by apply relay_round_msg].
    cbn [nats_encode nats_drops] in *. rewrite string_app_assoc in Hu. by apply relay_round_ctl. }
  destruct Hr as (lines1 & io1 & E1 & R1). erewrite bind_val by exact E1.
  destruct (IH lines1 io1 rest (passed_live _ _ _ _ _ R1) (passed_rest _ _ _ _ _ R1)) as (lines2 & io2 & E2 & R2).
  exists lines2, io2. split; [done|]. pose proof (passed_trans _ _ _ _ _ _ _ _ R1 R2) as R.
  unfold survivors in *. cbn [List.filter]. by destruct (nats_drops rules m).
Qed.

End relay.

(** The relay of each direction and its verb. *)
Definition relay_of (t : connTracker) (to_client : bool) : Relay := if to_client then deliver t else publish.
Definition verb_of (to_client : bool) : string := if to_client then "MSG" else "PUB".

Lemma relay_of_ok t b : relay_ok (verb_of b) (relay_of t b).
Proof. destruct b; [apply deliver_ok|apply publish_ok]. Qed.

(** In both directions, whatever bytes the payloads hold: the destination receives exactly the
    messages that no drop rule matches, byte for byte and in order, each with its payload, the
    control lines with their terminators, and nothing else moves on the wire. *)
Theorem nats_relay_exact (t : connTracker) (rules : list Rule) (to_client : bool) (msgs : list NMsg)
    (lines : Z) (io : IO) (rest : string) :
  Forall certain rules -> Forall (msg_ok (verb_of to_client)) msgs -> live io ->
  unread (conn (src (relay_of t to_client)) io) = nats_encodes (verb_of to_client) msgs +:+ rest ->
  exists lines' io',
    rounds (length msgs) (relay_round t rules (relay_of t to_client)) lines io = (Val lines', io') /\
    passed (src (relay_of t to_client)) io io' rest (nats_encodes (verb_of to_client) (survivors rules msgs)).
Proof. intros Hc Hm Hl Hu. apply relay_survivors; [apply relay_of_ok|done..]. Qed.

Lemma nats_relay_exact_witness :
  let t := mkTracker "id" true "bus" "main" "nats" "" "" in
  let rules := [mkRule "" "" "" "" "orders.*" "" ActionDrop 0 "" "" 0 f64_0] in
  let msgs := [Msg "orders.new" [] "a"; Ctl "PING"; Msg "audit" [] ("PUB x 1" +:+ crlf)] in
  exists lines' io',
    rounds 3 (relay_round t rules publish) 0 (on_wire (nats_encodes "PUB" msgs) "" 0) = (Val lines', io') /\
    passed Client (on_wire (nats_encodes "PUB" msgs) "" 0) io' ""
      (nats_encodes "PUB" [Ctl "PING"; Msg "audit" [] ("PUB x 1" +:+ crlf)]).
Proof.
  intros t rules msgs. apply (nats_relay_exact t rules false msgs 0 (on_wire (nats_encodes "PUB" msgs) "" 0) "").
  - repeat constructor.
  - repeat constructor; vm_compute; done.
  - apply on_wire_live.
  - vm_compute. done.
Defined.

(** A message with headers is not recognised: its line passes whatever the rules say, and its
    payload is left to be read as lines. *)
Lemma hpub_passes_every_rule t rules line rest io :
  live io -> sall (fun c => negb (is_crlf c)) line = true ->
  unread (client io) = ("HPUB " +:+ line) +:+ crlf +:+ rest ->
  exists lines' io', relay_round t rules publish 0 io = (Val lines', io') /\
    passed Client io io' rest (("HPUB " +:+ line) +:+ crlf).
Proof.
  intros Hl Ht Hu. apply (relay_round_ctl "PUB" publish publish_ok); [done| |done]. by split.
Qed.

End NatsProxy.
