(* ===== verification/SqlMatch.v ===== *)
(** * SQL patterns ([internal/proxy/sqlmatch/sqlmatch.go])

    The normal form of a query that the MySQL and Postgres rules are matched on.
    The byte loop is a scanner with two bits of state: inside a string literal, and
    inside the digits of a numbered placeholder. *)

From Stdlib Require Import ZArith Lia Ascii.
From S2P Require Import Prelude GoText ProxyCore.
From stdpp Require Import base strings numbers list.
Import GoText.

Module SqlMatch.
Import Rules.

Definition quote : ascii := "'".

(** [strings.TrimSpace] and the loop that drops trailing semicolons; each round shortens the text. *)
Fixpoint strip_semicolons (fuel : nat) (sql : string) : string :=
  match fuel with
  | O => sql
  | S fuel => if has_suffix ";" sql then strip_semicolons fuel (trim_space (trim_suffix sql ";")) else sql
  end.

Definition strip (sql : string) : string := let sql := trim_space sql in strip_semicolons (slen sql) sql.

Definition two_char (c d : ascii) : bool :=
  (Ascii.eqb c "!" && Ascii.eqb d "=") || (Ascii.eqb c "<" && Ascii.eqb d ">") ||
  (Ascii.eqb c "<" && Ascii.eqb d "=") || (Ascii.eqb c ">" && Ascii.eqb d "=").

Definition one_char (c : ascii) : bool :=
  Ascii.eqb c "=" || Ascii.eqb c "<" || Ascii.eqb c ">" || Ascii.eqb c "," || Ascii.eqb c "(" || Ascii.eqb c ")".

Definition digit (c : ascii) : bool := is_digit_char c.

Definition spaced (op : string) (rest : string) : string := String " " (op +:+ String " " rest).

(** The byte loop. *)
Fixpoint scan (inString inDigits : bool) (s : string) : string :=
  match s with
  | EmptyString => EmptyString
  | String c r =>
      if inDigits && digit c then scan inString true r
      else if Ascii.eqb c quote then String c (scan (negb inString) false r)
      else if inString then String c (scan inString false r)
      else
        match r with
        | String d r' =>
            if two_char c d then spaced (String c (String d EmptyString)) (scan inString false r')
            else if one_char c then spaced (String c EmptyString) (scan inString false r)
            else if Ascii.eqb c "?" then "$?" +:+ scan inString false r
            else if Ascii.eqb c "$" && digit d then "$?" +:+ scan inString true r
            else String (ascii_lower c) (scan inString false r)
        | EmptyString =>
            if one_char c then spaced (String c EmptyString) EmptyString
            else if Ascii.eqb c "?" then "$?"
            else String (ascii_lower c) EmptyString
        end
  end.

Definition Canonicalize (sql : string) : string :=
  let sql := strip sql in
  if String.eqb sql "" then "" else sjoin " " (fields (scan false false sql)).

Definition sql_matchGlob (actual pattern : string) : bool :=
  if String.eqb pattern "" then true
  else if contains "*" pattern then
    match FilePath.Match pattern actual with
    | Some true => true
    | _ => star_fallback actual pattern
    end
  else String.eqb actual pattern.

Definition Match (query pattern : string) : bool :=
  if String.eqb pattern "" then true else sql_matchGlob (Canonicalize query) (Canonicalize pattern).

(** ** Writing the same query in another way *)

(** The lexical elements of a query without string literals: a word in lower case, an operator, a
    placeholder. *)
Inductive Tok := TWord (w : string) | TOp (o : string) | TMark.

Definition word_char (c : ascii) : bool :=
  negb (is_space c || one_char c || Ascii.eqb c quote || Ascii.eqb c "?" || Ascii.eqb c "$" || Ascii.eqb c "!" ||
        Ascii.eqb c ";").

Definition ops : list string := ["!="; "<>"; "<="; ">="; "="; "<"; ">"; ","; "("; ")"].

Definition tok_text (t : Tok) : string := match t with TWord w => w | TOp o => o | TMark => "$?" end.

(** The ways to write an element: a word in any case, a placeholder of either dialect. *)
Inductive spells : Tok -> string -> Prop :=
  | spells_word w s : s <> "" -> sall word_char s = true -> to_lower s = w -> spells (TWord w) s
  | spells_op o : o ∈ ops -> spells (TOp o) o
  | spells_question : spells TMark "?"
  | spells_number n : n <> "" -> sall digit n = true -> spells TMark (String "$" n).

Definition is_op (t : Tok) : bool := match t with TOp _ => true | _ => false end.

Definition blank (s : string) : bool := sall is_space s.

(** Two neighbours may touch when exactly one of them is an operator. *)
Definition sep_ok (a b : Tok) (sep : string) : Prop :=
  blank sep = true /\ (sep = "" -> is_op a <> is_op b).

(** The texts of a sequence of elements. *)
Inductive writes : list Tok -> string -> Prop :=
  | writes_one t s : spells t s -> writes [t] s
  | writes_more a b l s sep rest : spells a s -> sep_ok a b sep -> writes (b :: l) rest ->
      writes (a :: b :: l) (s +:+ sep +:+ rest).

(** *** The scanner on one element *)

Definition opens (f : ascii -> bool) (s : string) : Prop :=
  match s with EmptyString => True | String c _ => f c = true end.

Lemma scan_not_digit s : opens (fun c => negb (digit c)) s -> scan false true s = scan false false s.
Proof. destruct s as [|c s]; [done|]. cbn [opens scan andb]. rewrite negb_true_iff. by intros ->. Qed.

(** A character of a word or a space stands for itself, in lower case. *)
Definition quiet_char (c : ascii) : bool := word_char c || is_space c.

Lemma quiet_char_facts c d : quiet_char c = true ->
  Ascii.eqb c quote = false /\ two_char c d = false /\ one_char c = false /\ Ascii.eqb c "?" = false /\
  Ascii.eqb c "$" = false.
Proof. unfold two_char. by destruct c as [[] [] [] [] [] [] [] []]. Qed.

Lemma scan_quiet w r : sall quiet_char w = true -> scan false false (w +:+ r) = to_lower w +:+ scan false false r.
Proof.
  induction w as [|c w IH]; [done|]. cbn [sall]. rewrite andb_true_iff. intros [Hc Hw].
  rewrite string_app_cons. cbn [scan andb]. change (to_lower (String c w)) with (String (ascii_lower c) (to_lower w)).
  rewrite (string_app_cons (ascii_lower c)), <- IH by done.
  destruct (quiet_char_facts c NUL Hc) as (H1 & _ & H2 & H3 & H4). rewrite H1, H2, H3, H4. cbn [andb].
  destruct (w +:+ r) as [|d r'] eqn:E; [done|]. by destruct (quiet_char_facts c d Hc) as (_ & -> & _).
Qed.

Lemma scan_digits n r : sall digit n = true -> scan false true (n +:+ r) = scan false true r.
Proof.
  induction n as [|c n IH]; [done|]. cbn [sall]. rewrite andb_true_iff. intros [Hc Hn].
  rewrite string_app_cons. cbn [scan andb]. rewrite Hc. by apply IH.
Qed.

(** What may follow an operator of one character without changing it. *)
Definition after_op (c : ascii) : bool := negb (Ascii.eqb c "=" || Ascii.eqb c ">").

Lemma scan_op1 c r : one_char c = true -> opens after_op r ->
  scan false false (String c r) = spaced (String c "") (scan false false r).
Proof.
  intros Hc Hr. cbn [scan andb]. assert (Ascii.eqb c quote = false) as ->
    by (revert Hc; by destruct c as [[] [] [] [] [] [] [] []]).
  rewrite Hc. destruct r as [|d r]; [done|].
  assert (two_char c d = false) as ->; [|done].
  cbn [opens] in Hr. unfold after_op in Hr. rewrite negb_true_iff, orb_false_iff in Hr. destruct Hr as [H1 H2].
  unfold two_char. by rewrite H1, H2, !andb_false_r.
Qed.

Lemma scan_op o r : o ∈ ops -> opens after_op r -> scan false false (o +:+ r) = spaced o (scan false false r).
Proof.
  intros Ho Hr. unfold ops in Ho. repeat (apply elem_of_cons in Ho as [->|Ho]); [done..| | | | | | |];
    try (by apply scan_op1). by apply elem_of_nil in Ho.
Qed.

(** *** Fields of what the scanner writes *)

Lemma fields_blank b r : blank b = true -> fields (b +:+ r) = fields r.
Proof.
  unfold blank, fields. induction b as [|c b IH]; [done|]. cbn [sall]. rewrite andb_true_iff. intros [Hc Hb].
  rewrite string_app_cons. cbn [fields_from]. rewrite Hc. by apply IH.
Qed.

Lemma fields_word w r : word w -> opens is_space r -> fields (w +:+ r) = w :: fields r.
Proof.
  intros Hw Hr. destruct r as [|c r]; [by rewrite string_app_nil, fields_one|].
  destruct Hw as [Hne Hw]. unfold fields. rewrite fields_from_word by done. cbn [fields_from opens] in *. rewrite Hr.
  pose proof (srev_app_invol w "") as E. cbn [srev_app] in E. rewrite E.
  destruct (srev_app w "") eqn:Ew; [|done]. by rewrite <- E in Hne.
Qed.

Lemma op_word o : o ∈ ops -> word o.
Proof.
  intros Ho. unfold ops in Ho. repeat (apply elem_of_cons in Ho as [->|Ho]); [done..|by apply elem_of_nil in Ho].
Qed.

Lemma lower_not_space c : is_space (ascii_lower c) = is_space c.
Proof. by destruct c as [[] [] [] [] [] [] [] []]. Qed.

Lemma to_lower_word s : s <> "" -> sall word_char s = true -> word (to_lower s).
Proof.
  intros Hne Hs. split; [by destruct s|]. clear Hne. induction s as [|c s IH]; [done|].
  cbn [sall] in *. apply andb_true_iff in Hs as [Hc Hs]. unfold to_lower in *. cbn [smap sall].
  rewrite lower_not_space, IH by done. revert Hc. by destruct c as [[] [] [] [] [] [] [] []].
Qed.

Lemma blank_lower b : blank b = true -> to_lower b = b.
Proof.
  unfold blank. induction b as [|c b IH]; [done|]. cbn [sall]. rewrite andb_true_iff. intros [Hc Hb].
  unfold to_lower in *. cbn [smap]. rewrite IH by done. f_equal. revert Hc. by destruct c as [[] [] [] [] [] [] [] []].
Qed.

(** What may come after an element. *)
Record follows (a : Tok) (r : string) : Prop := {
  after_operator : is_op a = true -> opens after_op r;
  after_text : is_op a = false -> opens (fun c => negb (digit c)) r /\ opens is_space (scan false false r) }.

Lemma fields_spaced o x : o ∈ ops -> fields (spaced o x) = o :: fields x.
Proof.
  intros Ho. unfold spaced. change (String " " (o +:+ String " " x)) with (" " +:+ o +:+ String " " x).
  rewrite fields_blank by done. by rewrite fields_word; [|apply op_word|].
Qed.

Lemma fields_tok a s r : spells a s -> follows a r ->
  fields (scan false false (s +:+ r)) = tok_text a :: fields (scan false false r).
Proof.
  intros Ha [Hop Htx]. destruct Ha as [w s Hne Hs <-|o Ho| |n Hne Hn]; cbn [is_op tok_text] in *.
  - destruct (Htx eq_refl) as [_ Hsp]. rewrite scan_quiet.
    + apply fields_word; [by apply to_lower_word|done].
    + eapply sall_impl; [|exact Hs]. intros c Hc. unfold quiet_char. by rewrite Hc.
  - rewrite scan_op by auto. by apply fields_spaced.
  - destruct (Htx eq_refl) as [_ Hsp].
    assert (scan false false ("?" +:+ r) = "$?" +:+ scan false false r) as ->
      by (change ("?" +:+ r) with (String "?" r); by destruct r).
    by apply fields_word.
  - destruct (Htx eq_refl) as [Hd Hsp].
    assert (scan false false (String "$" n +:+ r) = "$?" +:+ scan false true (n +:+ r)) as ->.
    { destruct n as [|d n]; [done|]. cbn [sall] in Hn. apply andb_true_iff in Hn as [Hn _].
      rewrite !string_app_cons. cbn [scan andb]. by rewrite Hn. }
    rewrite scan_digits, scan_not_digit by done. by apply fields_word.
Qed.

Lemma scan_op_space c r : one_char c = true -> opens is_space (scan false false (String c r)).
Proof.
  intros Hc. cbn [scan andb]. assert (Ascii.eqb c quote = false) as ->
    by (revert Hc; by destruct c as [[] [] [] [] [] [] [] []]).
  rewrite Hc. destruct r as [|d r]; [done|]. by destruct (two_char c d).
Qed.

(** The first character of a text. *)
Lemma writes_first b l rest : writes (b :: l) rest ->
  exists c x, rest = String c x /\
    if is_op b then opens is_space (scan false false rest) /\ digit c = false
    else after_op c = true.
Proof.
  assert (Hsp : forall s r, spells b s ->
    exists c x, s +:+ r = String c x /\
      if is_op b then opens is_space (scan false false (s +:+ r)) /\ digit c = false else after_op c = true).
  { intros s r Hb. destruct Hb as [w s Hne Hs _|o Ho| |n Hne Hn]; cbn [is_op].
    - destruct s as [|c s]; [done|]. exists c, (s +:+ r). split; [done|]. cbn [sall] in Hs.
      apply andb_true_iff in Hs as [Hc _]. revert Hc. by destruct c as [[] [] [] [] [] [] [] []].
    - unfold ops in Ho. repeat (apply elem_of_cons in Ho as [->|Ho]); [..|by apply elem_of_nil in Ho];
        (eexists _, _; split; [done|]; split; [|done]); try done;
        by apply scan_op_space.
    - by eexists _, _.
    - by eexists _, _. }
  inversion 1 as [t s Hb|? ? ? s sep r Hb _ _]; subst.
  - destruct (Hsp rest "" Hb) as (c & x & E & H'). rewrite string_app_nil in *. by exists c, x.
  - by apply Hsp.
Qed.

Lemma writes_follows a b l sep rest : sep_ok a b sep -> writes (b :: l) rest -> follows a (sep +:+ rest).
Proof.
  intros [Hb Hne] Hw. destruct (writes_first _ _ _ Hw) as (c & x & -> & Hc).
  destruct sep as [|d sep].
  - specialize (Hne eq_refl). change ("" +:+ String c x) with (String c x).
    split; intros Ha; rewrite Ha in Hne; destruct (is_op b); try done.
    destruct Hc as [Hs Hd]. cbn [opens]. by rewrite Hd.
  - unfold blank in Hb. pose proof Hb as Hb'. cbn [sall] in Hb'. apply andb_true_iff in Hb' as [Hd _].
    rewrite string_app_cons. split; intros _; cbn [opens].
    + revert Hd. by destruct d as [[] [] [] [] [] [] [] []].
    + split; [revert Hd; by destruct d as [[] [] [] [] [] [] [] []]|].
      rewrite <- string_app_cons, scan_quiet, blank_lower by
        (first [done|eapply sall_impl; [|exact Hb]; intros c' Hc'; unfold quiet_char; by rewrite Hc', orb_true_r]).
      done.
Qed.

Lemma fields_writes toks s : writes toks s -> fields (scan false false s) = map tok_text toks.
Proof.
  induction 1 as [t s Ht|a b l s sep rest Ha Hs Hw IH].
  - rewrite <- (string_app_nil s). by rewrite (fields_tok t s "" Ht) by (by split).
  - rewrite (fields_tok a s (sep +:+ rest) Ha (writes_follows _ _ _ _ _ Hs Hw)).
    change (map tok_text (a :: b :: l)) with (tok_text a :: map tok_text (b :: l)). f_equal. rewrite <- IH.
    destruct Hs as [Hb _]. rewrite scan_quiet, blank_lower, fields_blank by
      (first [done|eapply sall_impl; [|exact Hb]; intros c' Hc'; unfold quiet_char; by rewrite Hc', orb_true_r]).
    done.
Qed.

(** *** Stripping *)

Lemma string_snoc s : s = "" \/ exists a c, s = a +:+ String c "".
Proof.
  induction s as [|c s [->|(a & d & ->)]]; [by left|right; by exists "", c|].
  right. exists (String c a), d. done.
Qed.

Lemma trim_right_keep s c t : is_space c = false ->
  trim_right ((s +:+ String c "") +:+ t) = (s +:+ String c "") +:+ trim_right t.
Proof.
  intros Hc. rewrite !string_app_assoc. induction s as [|d s IH].
  - change ("" +:+ String c "" +:+ t) with (String c t).
    change ("" +:+ String c "" +:+ trim_right t) with (String c (trim_right t)).
    cbn [trim_right]. destruct (trim_right t); [by rewrite Hc|done].
  - rewrite !(string_app_cons d). cbn [trim_right]. rewrite IH. by destruct s.
Qed.

Lemma trim_left_opens s : opens (fun c => negb (is_space c)) s -> trim_left s = s.
Proof. destruct s as [|c s]; [done|]. cbn. rewrite negb_true_iff. by intros ->. Qed.

Lemma trim_left_blank b s : blank b = true -> trim_left (b +:+ s) = trim_left s.
Proof.
  unfold blank. induction b as [|c b IH]; [done|]. cbn [sall]. rewrite andb_true_iff. intros [Hc Hb].
  rewrite string_app_cons. cbn [trim_left]. rewrite Hc. by apply IH.
Qed.

(** The end of a text: white space and semicolons. *)
Definition tail_char (c : ascii) : bool := is_space c || Ascii.eqb c ";".

Lemma trim_right_shorter s : exists b, s = trim_right s +:+ b.
Proof.
  induction s as [|c s [b IH]]; [by exists ""|]. cbn [trim_right].
  destruct (trim_right s) as [|d r] eqn:E.
  - destruct (is_space c); [by exists (String c s)|]. exists s. done.
  - exists b. rewrite string_app_cons. by rewrite <- IH.
Qed.

Lemma trim_right_last s a c : trim_right s = a +:+ String c "" -> is_space c = false.
Proof.
  revert a. induction s as [|d s IH]; intros a; [by destruct a|]. cbn [trim_right].
  destruct (trim_right s) as [|e r] eqn:E.
  - destruct (is_space d) eqn:Hd; [by destruct a|]. destruct a as [|x a]; [by intros [= <-]|].
    rewrite string_app_cons. intros [= _ E']. by destruct a.
  - destruct a as [|x a]; [done|]. rewrite string_app_cons. intros [= _ E']. by apply (IH a).
Qed.

Section strip.
Context (s : string) (c : ascii).
Hypothesis Hc : tail_char c = false.
Hypothesis Hopen : opens (fun c => negb (is_space c)) (s +:+ String c "").

Lemma opens_body t : opens (fun c => negb (is_space c)) ((s +:+ String c "") +:+ t).
Proof. by destruct s. Qed.

Lemma strip_semicolons_tail fuel tail : sall tail_char tail = true -> slen (trim_right tail) <= fuel ->
  strip_semicolons fuel (trim_right ((s +:+ String c "") +:+ tail)) = (s +:+ String c "").
Proof.
  unfold tail_char in Hc. apply orb_false_iff in Hc as [Hsp Hsc].
  revert tail. induction fuel as [|fuel IH]; intros tail Ht Hf.
  { assert (E : trim_right tail = "") by (apply slen_0; lia).
    by rewrite trim_right_keep, E, string_app_nil. }
  rewrite trim_right_keep by done. destruct (trim_right_shorter tail) as [b Hb].
  destruct (string_snoc (trim_right tail)) as [E|(a & d & E)].
  - rewrite E, string_app_nil. cbn [strip_semicolons].
    assert (has_suffix ";" (s +:+ String c "") = false) as ->; [|done].
    apply not_true_iff_false. intros [r Er]%has_suffix_iff.
    assert (c = ";"%char) as ->; [|done]. clear - Er. revert r Er.
    induction s as [|x s0 IH]; intros [|y r] Er; try done.
    + by injection Er.
    + rewrite string_app_cons in Er. injection Er as _ Er. by destruct r.
    + rewrite string_app_cons in Er. injection Er as _ Er. by destruct s0.
    + rewrite !string_app_cons in Er. injection Er as _ Er. by apply (IH r).
  - pose proof (trim_right_last _ _ _ E) as Hd. rewrite E in *.
    rewrite Hb, !sall_app in Ht. apply andb_true_iff in Ht as [Ht _]. apply andb_true_iff in Ht as [Ha Ht].
    cbn [sall] in Ht. unfold tail_char in Ht. rewrite Hd in Ht. cbn in Ht. rewrite andb_true_r in Ht.
    apply Ascii.eqb_eq in Ht as ->. cbn [strip_semicolons].
    rewrite <- (string_app_assoc _ a). rewrite has_suffix_app, trim_suffix_app.
    unfold trim_space. rewrite trim_left_opens by apply opens_body. apply IH; [done|].
    destruct (trim_right_shorter a) as [b' Eb]. apply (f_equal slen) in Eb. rewrite slen_app in *.
    cbn in Hf. lia.
Qed.

Lemma strip_body pre tail : blank pre = true -> sall tail_char tail = true ->
  strip (pre +:+ (s +:+ String c "") +:+ tail) = (s +:+ String c "").
Proof.
  intros Hp Ht. unfold strip, trim_space. rewrite trim_left_blank, trim_left_opens by (done || apply opens_body).
  apply strip_semicolons_tail; [done|]. unfold tail_char in Hc. apply orb_false_iff in Hc as [Hsp _].
  rewrite trim_right_keep by done. rewrite slen_app. lia.
Qed.

End strip.

(** The last character of a text. *)
Lemma writes_last toks s : writes toks s -> exists a c, s = a +:+ String c "" /\ tail_char c = false.
Proof.
  assert (Hsp : forall t s, spells t s -> exists a c, s = a +:+ String c "" /\ tail_char c = false).
  { intros t s0 H. destruct H as [w s0 Hne Hs _|o Ho| |n Hne Hn].
    - destruct (string_snoc s0) as [->|(a & c & ->)]; [done|]. exists a, c. split; [done|].
      rewrite sall_app in Hs. apply andb_true_iff in Hs as [_ Hs]. revert Hs.
      by destruct c as [[] [] [] [] [] [] [] []].
    - unfold ops in Ho. repeat (apply elem_of_cons in Ho as [->|Ho]); [..|by apply elem_of_nil in Ho];
        (eexists (String _ ""), _; by split) || by eexists "", _.
    - by exists "", "?"%char.
    - destruct (string_snoc n) as [->|(a & c & ->)]; [done|]. exists (String "$" a), c. split; [done|].
      rewrite sall_app in Hn. apply andb_true_iff in Hn as [_ Hn]. revert Hn.
      by destruct c as [[] [] [] [] [] [] [] []]. }
  induction 1 as [t s Ht|a b l s sep rest Ha _ _ (x & c & -> & Hc)]; [by eapply Hsp|].
  exists (s +:+ sep +:+ x), c. by rewrite !string_app_assoc.
Qed.

Lemma writes_opens toks s : writes toks s -> opens (fun c => negb (is_space c)) s.
Proof.
  assert (Hsp : forall t s r, spells t s -> opens (fun c => negb (is_space c)) (s +:+ r)).
  { intros t s0 r H. destruct H as [w s0 Hne Hs _|o Ho| |n Hne Hn]; [|..|done|done].
    - destruct s0 as [|c s0]; [done|]. cbn [sall] in Hs. apply andb_true_iff in Hs as [Hs _].
      rewrite string_app_cons. cbn [opens]. revert Hs. by destruct c as [[] [] [] [] [] [] [] []].
    - unfold ops in Ho. by repeat (apply elem_of_cons in Ho as [->|Ho]); [..|apply elem_of_nil in Ho]. }
  destruct 1 as [t s Ht|a b l s sep rest Ha _ _]; [|by eapply Hsp].
  rewrite <- (string_app_nil s). by eapply Hsp.
Qed.

Lemma Canonicalize_writes toks s pre tail : writes toks s -> blank pre = true -> sall tail_char tail = true ->
  Canonicalize (pre +:+ s +:+ tail) = sjoin " " (map tok_text toks).
Proof.
  intros Hw Hp Ht. pose proof (writes_opens _ _ Hw) as Ho. pose proof (fields_writes _ _ Hw) as Hf.
  destruct (writes_last _ _ Hw) as (a & c & -> & Hc).
  unfold Canonicalize. rewrite strip_body by done. rewrite Hf. by destruct a.
Qed.

(** Two texts of the same query have the same normal form, whatever their case, spacing, placeholder
    dialect, surrounding white space and trailing semicolons, and so meet the same rules. *)
Theorem same_query_same_rules (toks : list Tok) (s1 s2 pre1 pre2 tail1 tail2 pattern : string) :
  writes toks s1 -> writes toks s2 -> blank pre1 = true -> blank pre2 = true ->
  sall tail_char tail1 = true -> sall tail_char tail2 = true ->
  Match (pre1 +:+ s1 +:+ tail1) pattern = Match (pre2 +:+ s2 +:+ tail2) pattern.
Proof. intros H1 H2 ? ? ? ?. unfold Match. by rewrite !(Canonicalize_writes toks). Qed.

Lemma same_query_same_rules_witness :
  Match (" " +:+ ("WHERE" +:+ " " +:+ "id" +:+ "" +:+ "=" +:+ "" +:+ "$1") +:+ ";") "where id = *" =
  Match ("" +:+ ("where" +:+ "  " +:+ "Id" +:+ " " +:+ "=" +:+ " " +:+ "?") +:+ "") "where id = *".
Proof.
  apply (same_query_same_rules [TWord "where"; TWord "id"; TOp "="; TMark]); try done;
    repeat constructor; done.
Defined.

(** The canonical placeholder is not a fixed point: a rule written with the marker of the normal form
    does not match the queries it stands for. *)
Lemma canonical_marker_is_not_canonical :
  Canonicalize "id = ?" = "id = $?" /\ Canonicalize "id = $?" = "id = $$?" /\ Match "id = ?" "id = $?" = false.
Proof. vm_compute. done. Qed.

(** White space inside a string literal is collapsed. *)
Lemma literal_not_verbatim : Canonicalize "x = 'a  b'" = Canonicalize "x = 'a b'".
Proof. vm_compute. done. Qed.

End SqlMatch.
