(* ===== verification/PostgresProxy.v ===== *)
(** * The Postgres proxy ([internal/proxy/postgres.go])

    Length-prefixed messages, the startup exchange with its authentication
    replies, and the query loop, which forwards one message of the client and then
    the server's messages until ReadyForQuery. *)

From Stdlib Require Import ZArith Lia Ascii.
From S2P Require Import Prelude GoStd GoText ProxyCore SqlMatch.
From stdpp Require Import base gmap strings numbers list.
Local Open Scope Z_scope.
Import GoStd GoText.

Module PostgresProxy.
Import Rules Net Observe.

(** ** Messages *)

(** A message body of the length its header declares. *)
Definition read_body (s : Side) (msgLen : Z) : M (result IOErr string) :=
  make 1 (msgLen - 4) ;;
  if 0 <? msgLen - 4 then read_full s (Z.to_nat (msgLen - 4)) else mret (Ok "").

Definition header_type (header : string) : ascii := default NUL (sget 0 header).
Definition header_len (header : string) : Z := be 4 (sdrop 1 header).

Definition readMessage (s : Side) : M (result IOErr (ascii * string)) :=
  and_then (read_full s 5) (fun header =>
    let msgLen := header_len header in
    if msgLen <? 4 then mret (Err (ErrOther ("invalid message length: " +:+ show_Z msgLen)))
    else and_then (read_body s msgLen) (fun body => mret (Ok (header_type header, body)))).

(** [int]s that become the four length bytes are cut to 32 bits. *)
Definition pg_header (ty : ascii) (body : string) : string :=
  String ty (put_be 4 (u32 (Z.of_nat (slen body) + 4))).

Definition writeMessage (s : Side) (ty : ascii) (body : string) : M (result IOErr unit) :=
  e ← write s (pg_header ty body);
  match e with
  | Some e => mret (Err e)
  | None =>
      if (0 <? slen body)%nat then
        e ← write s body;
        mret (match e with Some e => Err e | None => Ok tt end)
      else mret (Ok tt)
  end.

(** ** The startup exchange *)

Definition authNeedsClientReply (body : string) : bool :=
  if (slen body <? 4)%nat then false
  else let code := be 4 body in (code =? 3) || (code =? 5) || (code =? 10) || (code =? 11).

Definition forwardStartup : M (result IOErr unit) :=
  and_then (read_full Client 4) (fun lenBuf =>
    let msgLen := be 4 lenBuf in
    if (msgLen <? 4) || (10000 <? msgLen) then
      mret (Err (ErrOther ("invalid startup length: " +:+ show_Z msgLen)))
    else
      and_then (read_full Client (Z.to_nat (msgLen - 4))) (fun body =>
        e ← write Server lenBuf;
        match e with
        | Some e => mret (Err e)
        | None => e ← write Server body; mret (match e with Some e => Err e | None => Ok tt end)
        end)).

(** The loop until ReadyForQuery; each round reads a message of the server. *)
Fixpoint until_ready (fuel : nat) : M (result IOErr unit) :=
  match fuel with
  | O => out_of_fuel
  | S fuel =>
      and_then (readMessage Server) (fun '(msgType, body) =>
      and_then (writeMessage Client msgType body) (fun _ =>
        if Ascii.eqb msgType "R" && authNeedsClientReply body then
          and_then (wrapped "client auth response" (readMessage Client)) (fun '(replyType, replyBody) =>
          and_then (wrapped "client auth response" (writeMessage Server replyType replyBody)) (fun _ =>
          until_ready fuel))
        else if Ascii.eqb msgType "Z" then mret (Ok tt)
        else until_ready fuel))
  end.

Definition forwardUntilReady : M (result IOErr unit) := fun io =>
  until_ready (S (slen (unread (server io)))) io.

(** ** Queries *)

Definition extractQuery (msgType : ascii) (body : string) : string :=
  if Ascii.eqb msgType "Q" then (cut_nul body).1
  else if Ascii.eqb msgType "P" then
    match (cut_nul body).2 with Some rest => (cut_nul rest).1 | None => "" end
  else "".

Definition pg_error_payload (msg : string) : string :=
  "SERROR" +:+ String NUL ("M" +:+ msg +:+ String NUL (String NUL "")).

(** Both writes ignore their errors. *)
Definition sendPgError (msg : string) : M unit :=
  let payload := pg_error_payload msg in
  write Client (pg_header "E" payload) ;; write Client payload ;; mret tt.

Definition ready_for_query : string := pg_header "Z" "I" +:+ "I".

Definition sendReadyForQuery : M unit := write Client ready_for_query ;; mret tt.

Definition pg_event (t : connTracker) (action : string) (fs : list (string * string)) : ProxyEvent :=
  mkEvent "" "postgres" action (service t) (list_to_map fs).

Definition pg_matches (query : string) (r : Rule) : bool := SqlMatch.Match query (Query r).

Definition pg_error_text (r : Rule) : string :=
  if String.eqb (ErrorMsg r) "" then "ERROR: injected fault" else ErrorMsg r.

Definition pg_act (t : connTracker) (query : string) (r : Rule) : M (option bool) :=
  match RuleAction r with
  | ActionError =>
      let errMsg := pg_error_text r in
      sendPgError errMsg ;;
      sendReadyForQuery ;;
      emit (onEvent t) (pg_event t "error" [("query", query); ("error", errMsg)]) ;;
      mret (Some true)
  | ActionDelay =>
      emit (onEvent t) (pg_event t "delay" [("query", query); ("delay_ms", ms (Delay r))]) ;;
      mret (Some false)
  | ActionDrop => close Client ;; mret (Some true)
  | ActionRespond | ActionDuplicate => mret None
  end.

Definition pg_checkRules (t : connTracker) (rules : list Rule) (query : string) : M bool :=
  o ← rule_loop (pg_matches query) (pg_act t query) rules;
  mret (default false o).

(** Forwarding a message and the server's answer to it. *)
Definition pg_forward (header body : string) : M unit :=
  write_or_exit (because Server) Server header ;;
  (if (0 <? slen body)%nat then write_or_exit (because Server) Server body else mret tt) ;;
  or_exit (because Server) forwardUntilReady.

(** Whether a rule handles the message; only the queries of Query and Parse are looked at. *)
Definition pg_intercept (t : connTracker) (rules : list Rule) (msgType : ascii) (body : string) : M bool :=
  let query := extractQuery msgType body in
  if (Ascii.eqb msgType "Q" || Ascii.eqb msgType "P") && negb (String.eqb query "") then
    pg_checkRules t rules query
  else mret false.

(** One message of the query phase. *)
Definition pg_round (t : connTracker) (rules : list Rule) (u : unit) : M unit :=
  cancelled ← ctx_done;
  if cancelled : bool then exit "context_cancel"
  else
    header ← or_exit (because Client) (read_full Client 5);
    AddBytesC2S 5 ;;
    let msgType := header_type header in
    let msgLen := header_len header in
    if msgLen <? 4 then exit "io_error"
    else
      body ← or_exit (because Client) (read_body Client msgLen);
      AddBytesC2S (slen body) ;;
      handled ← pg_intercept t rules msgType body;
      if handled : bool then mret tt else pg_forward header body.

(** The first phase: the startup packet and the server's answer to it. *)
Definition pg_handshake (t : connTracker) : M unit :=
  or_exit (because Client) forwardStartup ;;
  or_exit (because Server) forwardUntilReady ;;
  EmitHandshakeComplete t "" 0.

Definition pg_session (t : connTracker) (rules : list Rule) (fuel : nat) : M unit :=
  pg_handshake t ;; rounds fuel (pg_round t rules) tt ;; mret tt.

Definition pg_handleConn (t : connTracker) (dialed : bool) (rules : list Rule) (fuel : nat) : M unit :=
  if negb dialed then close Client else EmitOpen t ;; deferred t (pg_session t rules fuel).

(** ** Messages on the wire *)

Abbreviation Message := (ascii * string)%type.

Definition pg_encode (m : Message) : string := pg_header m.1 m.2 +:+ m.2.
Fixpoint pg_encodes (l : list Message) : string :=
  match l with [] => "" | m :: l => pg_encode m +:+ pg_encodes l end.

(** Lengths below four gigabytes. *)
Definition body_ok (m : Message) : Prop := Z.of_nat (slen m.2) + 4 < 2 ^ 32.

Lemma slen_pg_header ty body : slen (pg_header ty body) = 5%nat.
Proof. unfold pg_header. cbn [slen]. by rewrite slen_put_be. Qed.

Lemma header_len_pg ty body : body_ok (ty, body) -> header_len (pg_header ty body) = Z.of_nat (slen body) + 4.
Proof.
  unfold body_ok, header_len, pg_header. cbn [snd sdrop]. intros H.
  rewrite wrap_u_small by lia. rewrite <- (string_app_nil (put_be 4 _)). apply be_app.
  change (256 ^ Z.of_nat 4) with (2 ^ 32). lia.
Qed.

Lemma header_type_pg ty body : header_type (pg_header ty body) = ty.
Proof. done. Qed.

Lemma read_body_ok s m rest io : body_ok m -> unread (conn s io) = m.2 +:+ rest ->
  read_body s (Z.of_nat (slen m.2) + 4) io = (Val (Ok m.2), set_unread s rest io).
Proof.
  intros Hm Hu. unfold body_ok in Hm. unfold read_body.
  erewrite bind_val by (apply make_ok; unfold max_alloc; lia).
  replace (Z.of_nat (slen m.2) + 4 - 4) with (Z.of_nat (slen m.2)) by lia.
  destruct (Z.ltb_spec 0 (Z.of_nat (slen m.2))) as [_|H].
  - rewrite Nat2Z.id. by apply read_full_app.
  - assert (E : m.2 = "") by (apply slen_0; lia). rewrite E in *. change ("" +:+ rest) with rest in Hu.
    rewrite <- Hu. by rewrite set_unread_same.
Qed.

(** A message is read back as it was encoded. *)
Lemma readMessage_encode s m rest io : body_ok m -> unread (conn s io) = pg_encode m +:+ rest ->
  readMessage s io = (Val (Ok m), set_unread s rest io).
Proof.
  intros Hm Hu. destruct m as [ty body]. unfold readMessage, pg_encode in *. cbn [fst snd] in *.
  rewrite string_app_assoc in Hu.
  erewrite and_then_ok by (apply (read_full_app s 5 (pg_header ty body)); [exact Hu|apply slen_pg_header]).
  cbv zeta. rewrite header_len_pg by done. rewrite (proj2 (Z.ltb_ge _ 4)) by lia.
  erewrite and_then_ok by (apply (read_body_ok s (ty, body)); [done|apply conn_set_unread]).
  by rewrite set_unread_twice.
Qed.

Lemma writeMessage_live s m io : live io ->
  writeMessage s m.1 m.2 io = (Val (Ok tt), wrote s (pg_encode m) io).
Proof.
  intros Hl. unfold writeMessage, pg_encode. erewrite bind_val by (by apply write_live).
  destruct (Nat.ltb_spec 0 (slen m.2)) as [_|H].
  - erewrite bind_val by (apply write_live; by apply wrote_live). by rewrite wrote_wrote.
  - assert (E : m.2 = "") by (apply slen_0; lia). by rewrite E, string_app_nil.
Qed.

(** ** The exchange until ReadyForQuery *)

Definition needs_reply (m : Message) : bool := Ascii.eqb m.1 "R" && authNeedsClientReply m.2.

(** The server's messages, each with the client's reply when it asks for one. *)
Abbreviation Script := (list (Message * option Message)).

Definition step_ok (p : Message * option Message) : Prop :=
  body_ok p.1 /\ Ascii.eqb p.1.1 "Z" = false /\
  match p.2 with
  | Some r => needs_reply p.1 = true /\ body_ok r
  | None => needs_reply p.1 = false
  end.

Fixpoint said (sc : Script) : string :=
  match sc with [] => "" | (m, _) :: sc => pg_encode m +:+ said sc end.
Fixpoint replied (sc : Script) : string :=
  match sc with
  | [] => ""
  | (_, Some r) :: sc => pg_encode r +:+ replied sc
  | (_, None) :: sc => replied sc
  end.

Lemma until_ready_script sc zbody : Forall step_ok sc -> body_ok ("Z"%char, zbody) ->
  forall fuel io crest srest, (length sc < fuel)%nat -> live io ->
  unread (client io) = replied sc +:+ crest ->
  unread (server io) = said sc +:+ pg_encode ("Z"%char, zbody) +:+ srest ->
  exists io', until_ready fuel io = (Val (Ok tt), io') /\
    moved io io' crest srest (said sc +:+ pg_encode ("Z"%char, zbody)) (replied sc).
Proof.
  intros Hsc Hz. induction Hsc as [|[m o] sc (Hm & Hty & Ho) _ IH]; intros fuel io crest srest Hf Hl Hc Hs;
    (destruct fuel as [|fuel]; [cbn in Hf; lia|]); cbn [until_ready said replied length] in *.
  - erewrite and_then_ok by (apply (readMessage_encode Server ("Z"%char, zbody) srest); [done|exact Hs]). cbv beta iota.
    erewrite and_then_ok by (apply (writeMessage_live Client ("Z"%char, zbody)); by apply (moved_read Server)).
    eexists. split; [done|]. change ("" +:+ crest) with crest in Hc.
    pose proof (moved_trans _ _ _ _ _ _ _ _ _ _ _ (moved_read Server io srest Hl)
      (moved_wrote_client _ (pg_encode ("Z"%char, zbody)) (mv_live _ _ _ _ _ _ (moved_read Server io srest Hl)))) as M.
    cbn [conn] in M. rewrite <- Hc. exact M.
  - rewrite string_app_assoc in Hs. destruct m as [ty body]. cbn [fst snd] in *.
    erewrite and_then_ok by (apply (readMessage_encode Server (ty, body)); [done|exact Hs]). cbv beta iota.
    pose proof (moved_read Server io (said sc +:+ pg_encode ("Z"%char, zbody) +:+ srest) Hl) as M1.
    erewrite and_then_ok by (apply (writeMessage_live Client (ty, body)), M1).
    pose proof (moved_wrote_client _ (pg_encode (ty, body)) (mv_live _ _ _ _ _ _ M1)) as M2.
    pose proof (moved_trans _ _ _ _ _ _ _ _ _ _ _ M1 M2) as M12. unfold needs_reply in Ho. cbn [fst snd] in Ho.
    destruct o as [[rty rbody]|]; cbn [replied] in *.
    + destruct Ho as [-> Hr]. rewrite string_app_assoc in Hc. set (io2 := wrote Client _ _) in *.
      assert (E3 : readMessage Client io2 = (Val (Ok (rty, rbody)), set_unread Client (replied sc +:+ crest) io2)).
      { apply readMessage_encode; [done|]. cbn [conn]. by rewrite (mv_client _ _ _ _ _ _ M12). }
      erewrite and_then_ok by (unfold wrapped; erewrite bind_val by exact E3; done). cbv beta iota.
      pose proof (moved_read Client io2 (replied sc +:+ crest) (mv_live _ _ _ _ _ _ M12)) as M3.
      erewrite and_then_ok by (unfold wrapped; erewrite bind_val by
        (apply (writeMessage_live Server (rty, rbody)), M3); done).
      pose proof (moved_wrote_server _ (pg_encode (rty, rbody)) (mv_live _ _ _ _ _ _ M3)) as M4.
      pose proof (moved_trans _ _ _ _ _ _ _ _ _ _ _ M12 (moved_trans _ _ _ _ _ _ _ _ _ _ _ M3 M4)) as M.
      rewrite !string_app_nil in M.
      destruct (IH fuel _ crest srest ltac:(lia) (mv_live _ _ _ _ _ _ M)) as (io' & E & M').
      * by rewrite (mv_client _ _ _ _ _ _ M).
      * by rewrite (mv_server _ _ _ _ _ _ M).
      * exists io'. split; [done|]. rewrite string_app_assoc. exact (moved_trans _ _ _ _ _ _ _ _ _ _ _ M M').
    + rewrite Ho, Hty. destruct (IH fuel _ crest srest ltac:(lia) (mv_live _ _ _ _ _ _ M12)) as (io' & E & M').
      * by rewrite (mv_client _ _ _ _ _ _ M12).
      * by rewrite (mv_server _ _ _ _ _ _ M12).
      * exists io'. split; [done|]. rewrite string_app_assoc.
        exact (moved_trans _ _ _ _ _ _ _ _ _ _ _ M12 M').
Qed.

(** ** The query phase *)

(** A round reads one message and leaves the rest to the rules and the server. *)
Lemma pg_round_reads t rules m rest io : live io -> body_ok m -> unread (client io) = pg_encode m +:+ rest ->
  exists io1, moved io io1 rest (unread (server io)) "" "" /\ floats io1 = floats io /\ drawn io1 = drawn io /\
  pg_round t rules tt io =
  (handled ← pg_intercept t rules m.1 m.2;
   if handled : bool then mret tt else pg_forward (pg_header m.1 m.2) m.2) io1.
Proof.
  intros Hl Hm Hu. destruct m as [ty body]. cbn [fst snd]. pose proof Hl as [[H1 H2] [H3 H4] H5].
  unfold pg_round. erewrite bind_val by done. rewrite H5. cbv iota beta.
  unfold pg_encode in Hu. cbn [fst snd] in Hu. rewrite string_app_assoc in Hu.
  erewrite bind_val by (apply or_exit_ok, (read_full_app Client 5 (pg_header ty body));
    [exact Hu|apply slen_pg_header]).
  erewrite bind_val by (unfold AddBytesC2S; done). cbv zeta. rewrite header_len_pg, header_type_pg by done.
  rewrite (proj2 (Z.ltb_ge _ 4)) by lia.
  erewrite bind_val by (apply or_exit_ok, (read_body_ok Client (ty, body) rest); [done|by destruct io]).
  erewrite bind_val by (unfold AddBytesC2S; done).
  eexists. split; [|split; [|split; [|done]]]; destruct io; [split; cbn; try done; by rewrite string_app_nil|done..].
Qed.

(** The two writes of a forwarded message. *)
Lemma pg_forward_writes m io : live io ->
  pg_forward (pg_header m.1 m.2) m.2 io =
  or_exit (because Server) forwardUntilReady (wrote Server (pg_encode m) io).
Proof.
  intros Hl. unfold pg_forward. erewrite bind_val by (by apply write_or_exit_live). unfold pg_encode.
  destruct (Nat.ltb_spec 0 (slen m.2)) as [_|H].
  - erewrite bind_val by (apply write_or_exit_live; by apply wrote_live). by rewrite wrote_wrote.
  - assert (E : m.2 = "") by (apply slen_0; lia). by rewrite E, string_app_nil.
Qed.

Lemma length_said (sc : Script) : (length sc <= slen (said sc))%nat.
Proof.
  induction sc as [|[m o] sc IH]; [done|]. cbn [length said]. unfold pg_encode.
  rewrite !slen_app, slen_pg_header. lia.
Qed.

(** What the server sent to be relayed, for a message that is forwarded. *)
Lemma pg_forward_script m sc zbody crest srest io : live io -> Forall step_ok sc -> body_ok ("Z"%char, zbody) ->
  unread (client io) = replied sc +:+ crest ->
  unread (server io) = said sc +:+ pg_encode ("Z"%char, zbody) +:+ srest ->
  exists io', pg_forward (pg_header m.1 m.2) m.2 io = (Val tt, io') /\
    moved io io' crest srest (said sc +:+ pg_encode ("Z"%char, zbody)) (pg_encode m +:+ replied sc).
Proof.
  intros Hl Hsc Hz Hc Hs. rewrite pg_forward_writes by done.
  pose proof (moved_wrote_server io (pg_encode m) Hl) as M1.
  destruct (until_ready_script sc zbody Hsc Hz (S (slen (unread (server io)))) (wrote Server (pg_encode m) io)
    crest srest) as (io' & E' & M'); [|apply M1|done..|].
  { rewrite Hs, slen_app. pose proof (length_said sc). lia. }
  exists io'. split; [|exact (moved_trans _ _ _ _ _ _ _ _ _ _ _ M1 M')].
  apply or_exit_ok. unfold forwardUntilReady. by destruct io.
Qed.

(** The rule that decides on a query. *)
Definition pg_terminal (r : Rule) : bool :=
  match RuleAction r with ActionError | ActionDelay | ActionDrop => true | _ => false end.

Definition interceptable (m : Message) : bool :=
  (Ascii.eqb m.1 "Q" || Ascii.eqb m.1 "P") && negb (String.eqb (extractQuery m.1 m.2) "").

Definition pg_verdict (fl : nat -> float64) (k : nat) (rules : list Rule) (m : Message) : option Rule :=
  if interceptable m then settles fl k pg_terminal (pg_matches (extractQuery m.1 m.2)) rules else None.

Lemma pg_intercept_verdict t rules m io : exists io1, quiet io io1 /\
  pg_intercept t rules m.1 m.2 io =
  match pg_verdict (floats io) (drawn io) rules m with
  | None => (Val false, io1)
  | Some r => (o ← pg_act t (extractQuery m.1 m.2) r; mret (default false o)) io1
  end.
Proof.
  unfold pg_intercept, pg_verdict, interceptable. destruct (_ && _); [|by exists io]. unfold pg_checkRules.
  destruct (rule_loop_settles pg_terminal (pg_matches (extractQuery m.1 m.2)) (pg_act t (extractQuery m.1 m.2)) rules)
    with (io := io) as (io1 & Q & E).
  - intros r. unfold pg_terminal, pg_act. destruct (RuleAction r); try done; intros _; apply silent_ret.
  - intros r io1 io2. unfold pg_terminal, pg_act, sendPgError, sendReadyForQuery, write, emit, mbind, M_bind.
    destruct (RuleAction r); try done. intros _.
    destruct (shut (conn Client io1)) eqn:E1, (broken (conn Client io1)) eqn:E2; cbn in *; rewrite ?E1, ?E2; cbn;
      rewrite ?E1, ?E2; done.
  - exists io1. split; [done|]. unfold mbind at 1, M_bind at 1. rewrite E.
    destruct (settles _ _ _ _ _); [|done]. unfold mbind, M_bind. by destruct (pg_act _ _ _ io1) as [[]].
Qed.

Section round.
Context (t : connTracker) (rules : list Rule) (io : IO) (m : Message) (rest : string).
Hypothesis Hl : live io.
Hypothesis Hm : body_ok m.
Hypothesis Hu : unread (client io) = pg_encode m +:+ rest.
Let verdict := pg_verdict (floats io) (drawn io) rules m.

(** A rule that lets the message pass, or none. *)
Definition lets_pass (o : option Rule) : Prop :=
  match o with None => True | Some r => RuleAction r = ActionDelay end.

Lemma pg_round_passes : lets_pass verdict ->
  exists io1, moved io io1 rest (unread (server io)) "" "" /\
    pg_round t rules tt io = pg_forward (pg_header m.1 m.2) m.2 io1.
Proof.
  intros Hv. destruct (pg_round_reads t rules m rest io Hl Hm Hu) as (io1 & M1 & F1 & D1 & ->).
  destruct (pg_intercept_verdict t rules m io1) as (io2 & Q2 & E2). rewrite F1, D1 in E2.
  fold verdict in E2. unfold mbind at 1, M_bind at 1. rewrite E2.
  assert (G : forall io3, quiet io1 io3 -> moved io io3 rest (unread (server io)) "" "").
  { intros io3 Q3. pose proof (quiet_moved_self _ _ (mv_live _ _ _ _ _ _ M1) Q3) as M3.
    pose proof (moved_trans _ _ _ _ _ _ _ _ _ _ _ M1 M3) as M.
    by rewrite (mv_client _ _ _ _ _ _ M1), (mv_server _ _ _ _ _ _ M1) in M. }
  destruct verdict as [r|].
  - cbn in Hv. unfold pg_act, mbind, M_bind, emit. rewrite Hv. cbn. eexists. split; [|done].
    apply G. eapply quiet_trans; [exact Q2|]. by destruct (onEvent t).
  - exists io2. split; [by apply G|done].
Qed.

(** A message that passes is forwarded, and the server's answer up to ReadyForQuery relayed. *)
Lemma pg_round_forwards sc zbody srest : lets_pass verdict -> Forall step_ok sc -> replied sc = "" ->
  body_ok ("Z"%char, zbody) -> unread (server io) = said sc +:+ pg_encode ("Z"%char, zbody) +:+ srest ->
  exists io', pg_round t rules tt io = (Val tt, io') /\
    moved io io' rest srest (said sc +:+ pg_encode ("Z"%char, zbody)) (pg_encode m).
Proof.
  intros Hv Hsc Hr Hz Hs. destruct (pg_round_passes Hv) as (io1 & M1 & ->).
  destruct (pg_forward_script m sc zbody rest srest io1) as (io' & E & M); [apply M1|done..| | |].
  - by rewrite (mv_client _ _ _ _ _ _ M1), Hr.
  - by rewrite (mv_server _ _ _ _ _ _ M1).
  - exists io'. split; [done|]. rewrite Hr, string_app_nil in M.
    exact (moved_trans _ _ _ _ _ _ _ _ _ _ _ M1 M).
Qed.

(** A query that an error rule decides is answered with the error and ReadyForQuery; the server sees
    nothing of it. *)
Lemma pg_round_errors r : verdict = Some r -> RuleAction r = ActionError ->
  exists io', pg_round t rules tt io = (Val tt, io') /\
    moved io io' rest (unread (server io))
      (pg_encode ("E"%char, pg_error_payload (pg_error_text r)) +:+ pg_encode ("Z"%char, "I")) "".
Proof.
  intros Hv Ha. destruct (pg_round_reads t rules m rest io Hl Hm Hu) as (io1 & M1 & F1 & D1 & ->).
  destruct (pg_intercept_verdict t rules m io1) as (io2 & Q2 & E2). rewrite F1, D1 in E2.
  fold verdict in E2. rewrite Hv in E2. unfold mbind at 1, M_bind at 1. rewrite E2.
  pose proof (quiet_moved_self _ _ (mv_live _ _ _ _ _ _ M1) Q2) as M2.
  pose proof (moved_trans _ _ _ _ _ _ _ _ _ _ _ M1 M2) as M.
  rewrite (mv_client _ _ _ _ _ _ M1), (mv_server _ _ _ _ _ _ M1) in M.
  pose proof (mv_live _ _ _ _ _ _ M) as Hl2.
  assert (E : exists io3, pg_act t (extractQuery m.1 m.2) r io2 = (Val (Some true), io3) /\
    quiet (wrote Client (pg_encode ("E"%char, pg_error_payload (pg_error_text r)) +:+ pg_encode ("Z"%char, "I")) io2) io3).
  { unfold pg_act. rewrite Ha. unfold sendPgError, sendReadyForQuery. eexists. split.
    - erewrite bind_val.
      2: { cbv zeta. erewrite bind_val by (by apply write_live).
           erewrite bind_val by (apply write_live; by apply wrote_live). rewrite wrote_wrote. done. }
      erewrite bind_val.
      2: { erewrite bind_val by (apply write_live; by apply wrote_live). rewrite wrote_wrote. done. }
      erewrite bind_val by done. done.
    - unfold pg_encode, ready_for_query. cbn [fst snd]. by destruct (onEvent t). }
  destruct E as (io3 & E & Q3). unfold mbind, M_bind. rewrite E. cbn. exists io3. split; [done|].
  pose proof (moved_wrote_client io2 (pg_encode ("E"%char, pg_error_payload (pg_error_text r)) +:+
    pg_encode ("Z"%char, "I")) Hl2) as Mw.
  pose proof (moved_trans _ _ _ _ _ _ _ _ _ _ _ M
    (moved_trans _ _ _ _ _ _ _ _ _ _ _ Mw (quiet_moved_self _ _ (mv_live _ _ _ _ _ _ Mw) Q3))) as R.
  cbn [wrote conn] in R. rewrite !string_app_nil in R.
  cbn in R. rewrite (mv_client _ _ _ _ _ _ M), (mv_server _ _ _ _ _ _ M) in R. exact R.
Qed.

End round.

(** ** The loop waits for ReadyForQuery after every message *)

(** Without ReadyForQuery the messages of the server are relayed, and the proxy waits, or sees the
    server's end of file. *)
Lemma until_ready_waits answer : Forall body_ok answer ->
  Forall (fun m => needs_reply m = false /\ Ascii.eqb m.1 "Z" = false) answer ->
  forall fuel io, (length answer < fuel)%nat -> live io -> unread (server io) = pg_encodes answer ->
  exists r io', until_ready fuel io = (r, io') /\ (r = Block Server \/ r = Val (Err EOF)) /\
    moved io io' (unread (client io)) "" (pg_encodes answer) "".
Proof.
  intros Hb. induction Hb as [|m answer Hm _ IH]; intros Hn fuel io Hf Hl Hu;
    (destruct fuel as [|fuel]; [cbn in Hf; lia|]); cbn [until_ready length pg_encodes] in *.
  - pose proof Hl as [[H1 H2] [H3 H4] H5].
    assert (Hm : moved io io (unread (client io)) "" "" "") by (split; rewrite ?string_app_nil; done).
    unfold and_then, mbind, M_bind, readMessage, and_then, mbind, M_bind, read_full. cbn [conn].
    rewrite Hu, H3. destruct (peer_closed (server io)).
    + eexists _, _. split; [done|]. split; [by right|]. pose proof (moved_read Server io "" Hl) as M. done.
    + eexists _, io. split; [done|]. split; [by left|done].
  - apply Forall_cons in Hn as [[Hr Hz] Hn]. destruct m as [ty body]. unfold needs_reply in Hr. cbn [fst snd] in *.
    erewrite and_then_ok by (apply (readMessage_encode Server (ty, body)); [done|exact Hu]). cbv beta iota.
    pose proof (moved_read Server io (pg_encodes answer) Hl) as M1.
    erewrite and_then_ok by (apply (writeMessage_live Client (ty, body)), M1). rewrite Hr, Hz.
    pose proof (moved_wrote_client _ (pg_encode (ty, body)) (mv_live _ _ _ _ _ _ M1)) as M2.
    pose proof (moved_trans _ _ _ _ _ _ _ _ _ _ _ M1 M2) as M.
    destruct (IH Hn fuel _ ltac:(lia) (mv_live _ _ _ _ _ _ M)) as (r & io' & E & Hr' & M').
    + by rewrite (mv_server _ _ _ _ _ _ M).
    + exists r, io'. split; [done|]. split; [done|]. exact (moved_trans _ _ _ _ _ _ _ _ _ _ _ M M').
Qed.

Lemma length_encodes l : (length l <= slen (pg_encodes l))%nat.
Proof.
  induction l as [|m l IH]; [done|]. cbn [length pg_encodes]. unfold pg_encode.
  rewrite !slen_app, slen_pg_header. lia.
Qed.

(** The extended protocol: the server answers Parse with ParseComplete and sends ReadyForQuery only
    after Sync.  The proxy has forwarded Parse, relays what the server sends, and waits for
    ReadyForQuery; the messages the client sent after Parse, Sync among them, stay unread, so that
    what it waits for cannot come. *)
Theorem extended_query_stalls (t : connTracker) (rules : list Rule) (io : IO) (parse : Message)
    (rest : string) (answer : list Message) :
  live io -> body_ok parse -> lets_pass (pg_verdict (floats io) (drawn io) rules parse) ->
  unread (client io) = pg_encode parse +:+ rest ->
  unread (server io) = pg_encodes answer -> Forall body_ok answer ->
  Forall (fun m => needs_reply m = false /\ Ascii.eqb m.1 "Z" = false) answer ->
  exists r io', pg_round t rules tt io = (r, io') /\ (r = Block Server \/ r = Exit "server_eof") /\
    moved io io' rest "" (pg_encodes answer) (pg_encode parse).
Proof.
  intros Hl Hm Hv Hu Hs Hb Hn. destruct (pg_round_passes t rules io parse rest Hl Hm Hu Hv) as (io1 & M1 & ->).
  rewrite pg_forward_writes by apply M1.
  pose proof (moved_wrote_server io1 (pg_encode parse) (mv_live _ _ _ _ _ _ M1)) as M2.
  pose proof (moved_trans _ _ _ _ _ _ _ _ _ _ _ M1 M2) as M.
  destruct (until_ready_waits answer Hb Hn (S (slen (unread (server (wrote Server (pg_encode parse) io1)))))
    (wrote Server (pg_encode parse) io1)) as (r & io' & E & Hr & M').
  - rewrite (mv_server _ _ _ _ _ _ M), (mv_server _ _ _ _ _ _ M1), Hs. pose proof (length_encodes answer). lia.
  - apply M.
  - by rewrite (mv_server _ _ _ _ _ _ M), (mv_server _ _ _ _ _ _ M1).
  - rewrite (mv_client _ _ _ _ _ _ M), (mv_client _ _ _ _ _ _ M1) in M'.
    pose proof (moved_trans _ _ _ _ _ _ _ _ _ _ _ M M') as MM. rewrite !string_app_nil in MM.
    unfold or_exit, forwardUntilReady, mbind, M_bind. rewrite E.
    destruct Hr as [-> | ->]; (eexists _, io'; split; [done|]; split; [|exact MM]); [by left|by right].
Qed.

Lemma extended_query_stalls_witness :
  let t := mkTracker "id" true "db" "postgres" "postgres" "" "" in
  let parse := ("P"%char, String NUL ("select 1" +:+ zeros 3)) in
  let sync := pg_encode ("S"%char, "") in
  let io := on_wire (pg_encode parse +:+ sync) (pg_encodes [("1"%char, "")]) 0 in
  exists r io', pg_round t [] tt io = (r, io') /\ (r = Block Server \/ r = Exit "server_eof") /\
    moved io io' sync "" (pg_encodes [("1"%char, "")]) (pg_encode parse).
Proof.
  intros t parse sync io. apply (extended_query_stalls t [] io parse sync [("1"%char, "")]).
  - apply on_wire_live.
  - vm_compute. done.
  - vm_compute. done.
  - done.
  - done.
  - repeat constructor.
  - repeat constructor.
Defined.

(** ** A session *)

(** The startup packet: its length and its parameters. *)
Definition startup (params : string) : string := put_be 4 (Z.of_nat (slen params) + 4) +:+ params.

Lemma forwardStartup_ok params rest io : live io -> Z.of_nat (slen params) + 4 <= 10000 ->
  unread (client io) = startup params +:+ rest ->
  exists io', forwardStartup io = (Val (Ok tt), io') /\
    moved io io' rest (unread (server io)) "" (startup params).
Proof.
  intros Hl Hp Hu. unfold forwardStartup, startup in *. rewrite string_app_assoc in Hu.
  erewrite and_then_ok by (apply (read_full_app Client 4 (put_be 4 (Z.of_nat (slen params) + 4))); [exact Hu|apply slen_put_be]).
  assert (E : be 4 (put_be 4 (Z.of_nat (slen params) + 4)) = Z.of_nat (slen params) + 4).
  { rewrite <- (string_app_nil (put_be 4 _)). apply be_app. change (256 ^ Z.of_nat 4) with (2 ^ 32). lia. }
  cbv zeta. rewrite E, (proj2 (Z.ltb_ge _ 4)), (proj2 (Z.ltb_ge 10000 _)) by lia. cbn [orb].
  pose proof (moved_read Client io (params +:+ rest) Hl) as M1.
  erewrite and_then_ok by (apply (read_full_app Client _ params rest); [apply (conn_set_unread Client)|lia]).
  rewrite set_unread_twice. pose proof (moved_read Client io rest Hl) as M2.
  erewrite bind_val by (apply write_live, M2). cbv beta iota.
  erewrite bind_val by (apply write_live, wrote_live, M2). rewrite wrote_wrote.
  eexists. split; [done|].
  exact (moved_trans _ _ _ _ _ _ _ _ _ _ _ M2 (moved_wrote_server _ _ (mv_live _ _ _ _ _ _ M2))).
Qed.

(** What a client's message leads to: an error made up by a rule, or the server's answer. *)
Inductive Outcome := Injected (text : string) | Answered (answer : list Message) (zbody : string).

Definition answer_script (answer : list Message) : Script := map (fun m => (m, None)) answer.

Definition outcome_ok (rules : list Rule) (p : Message * Outcome) : Prop :=
  body_ok p.1 /\
  match p.2 with
  | Injected text => exists r, pg_verdict (fun _ => f64_0) 0 rules p.1 = Some r /\
                               RuleAction r = ActionError /\ text = pg_error_text r
  | Answered answer zbody =>
      lets_pass (pg_verdict (fun _ => f64_0) 0 rules p.1) /\ body_ok ("Z"%char, zbody) /\
      Forall (fun m => body_ok m /\ needs_reply m = false /\ Ascii.eqb m.1 "Z" = false) answer
  end.

(** The four streams of an exchange. *)
Fixpoint asked_of (l : list (Message * Outcome)) : string :=
  match l with [] => "" | (m, _) :: l => pg_encode m +:+ asked_of l end.
Fixpoint forwarded (l : list (Message * Outcome)) : string :=
  match l with
  | [] => ""
  | (m, Answered _ _) :: l => pg_encode m +:+ forwarded l
  | _ :: l => forwarded l
  end.
Fixpoint answered (l : list (Message * Outcome)) : string :=
  match l with
  | [] => ""
  | (_, Answered answer z) :: l => pg_encodes answer +:+ pg_encode ("Z"%char, z) +:+ answered l
  | _ :: l => answered l
  end.
Fixpoint delivered (l : list (Message * Outcome)) : string :=
  match l with
  | [] => ""
  | (_, Answered answer z) :: l => pg_encodes answer +:+ pg_encode ("Z"%char, z) +:+ delivered l
  | (_, Injected text) :: l =>
      pg_encode ("E"%char, pg_error_payload text) +:+ pg_encode ("Z"%char, "I") +:+ delivered l
  end.

Lemma answer_script_facts answer :
  Forall (fun m => body_ok m /\ needs_reply m = false /\ Ascii.eqb m.1 "Z" = false) answer ->
  Forall step_ok (answer_script answer) /\ said (answer_script answer) = pg_encodes answer /\
  replied (answer_script answer) = "".
Proof.
  induction 1 as [|m answer (H1 & H2 & H3) _ (I1 & I2 & I3)]; [done|]. cbn. split_and!.
  - constructor; [by split_and!|done].
  - by rewrite <- I2.
  - done.
Qed.

Lemma pg_verdict_certain fl k rules m : Forall certain rules ->
  pg_verdict fl k rules m = pg_verdict (fun _ => f64_0) 0 rules m.
Proof. intros H. unfold pg_verdict. destruct (interceptable m); [|done]. by rewrite !settles_certain. Qed.

(** The query phase exchanges whole messages: the server receives the queries that no error rule
    decides, in order and byte for byte; the client receives the server's answers to them and, in
    the place of each other query, the rule's error and a ReadyForQuery. *)
Lemma pg_exchange t rules l : Forall certain rules -> Forall (outcome_ok rules) l ->
  forall io crest srest, live io -> unread (client io) = asked_of l +:+ crest ->
  unread (server io) = answered l +:+ srest ->
  exists io', rounds (length l) (pg_round t rules) tt io = (Val tt, io') /\
    moved io io' crest srest (delivered l) (forwarded l).
Proof.
  intros Hc. induction 1 as [|[m o] l [Hm Ho] _ IH]; intros io crest srest Hl Hu Hs.
  { exists io. split; [done|]. cbn in *. split; rewrite ?string_app_nil; done. }
  cbn [asked_of length rounds fst snd] in *. rewrite string_app_assoc in Hu.
  rewrite <- (pg_verdict_certain (floats io) (drawn io)) in Ho by done.
  destruct o as [text|answer zbody]; cbn [forwarded answered delivered] in *.
  - destruct Ho as (r & Hv & Ha & ->).
    destruct (pg_round_errors t rules io m _ Hl Hm Hu r Hv Ha) as (io1 & E1 & M1).
    destruct (IH io1 crest srest (mv_live _ _ _ _ _ _ M1) (mv_client _ _ _ _ _ _ M1)) as (io2 & E2 & M2).
    { by rewrite (mv_server _ _ _ _ _ _ M1). }
    exists io2. erewrite bind_val by exact E1. split; [done|].
    pose proof (moved_trans _ _ _ _ _ _ _ _ _ _ _ M1 M2) as M. by rewrite string_app_assoc in M.
  - destruct Ho as (Hv & Hz & Ha). destruct (answer_script_facts answer Ha) as (F1 & F2 & F3).
    rewrite string_app_assoc in Hs. rewrite <- F2 in Hs |- *.
    rewrite string_app_assoc in Hs.
    destruct (pg_round_forwards t rules io m _ Hl Hm Hu (answer_script answer) zbody (answered l +:+ srest) Hv F1 F3 Hz Hs)
      as (io1 & E1 & M1).
    destruct (IH io1 crest srest (mv_live _ _ _ _ _ _ M1) (mv_client _ _ _ _ _ _ M1)
      (mv_server _ _ _ _ _ _ M1)) as (io2 & E2 & M2).
    exists io2. erewrite bind_val by exact E1. split; [done|].
    pose proof (moved_trans _ _ _ _ _ _ _ _ _ _ _ M1 M2) as M. by rewrite string_app_assoc in M.
Qed.

(** The authentication exchange passes in both directions, whatever the method asks for. *)
Lemma pg_handshake_relays t params auth z0 crest srest io :
  live io -> Z.of_nat (slen params) + 4 <= 10000 -> Forall step_ok auth -> body_ok ("Z"%char, z0) ->
  unread (client io) = startup params +:+ replied auth +:+ crest ->
  unread (server io) = said auth +:+ pg_encode ("Z"%char, z0) +:+ srest ->
  exists io', pg_handshake t io = (Val tt, io') /\
    moved io io' crest srest (said auth +:+ pg_encode ("Z"%char, z0)) (startup params +:+ replied auth).
Proof.
  intros Hl Hp Ha Hz Hu Hs. unfold pg_handshake.
  destruct (forwardStartup_ok params _ io Hl Hp Hu) as (io1 & E1 & M1).
  erewrite bind_val by (apply or_exit_ok; exact E1).
  destruct (until_ready_script auth z0 Ha Hz (S (slen (unread (server io1)))) io1 crest srest) as (io2 & E2 & M2).
  { rewrite (mv_server _ _ _ _ _ _ M1), Hs, slen_app. pose proof (length_said auth). lia. }
  { apply M1. }
  { by rewrite (mv_client _ _ _ _ _ _ M1). }
  { by rewrite (mv_server _ _ _ _ _ _ M1). }
  erewrite bind_val by (apply or_exit_ok; exact E2).
  destruct (silent_EmitHandshakeComplete t "" 0 io2) as (io3 & E3 & Q3 & _). exists io3. split; [done|].
  pose proof (quiet_moved_self _ _ (mv_live _ _ _ _ _ _ M2) Q3) as M3.
  rewrite (mv_client _ _ _ _ _ _ M2), (mv_server _ _ _ _ _ _ M2) in M3.
  pose proof (moved_trans _ _ _ _ _ _ _ _ _ _ _ M1 (moved_trans _ _ _ _ _ _ _ _ _ _ _ M2 M3)) as M.
  by rewrite !string_app_nil in M.
Qed.

(** C5: A connection from its startup packet on. *)
Theorem postgres_session_refines (t : connTracker) (rules : list Rule) (io : IO) (params : string)
    (auth : Script) (z0 : string) (l : list (Message * Outcome)) (crest srest : string) :
  live io -> Z.of_nat (slen params) + 4 <= 10000 -> Forall step_ok auth -> body_ok ("Z"%char, z0) ->
  Forall certain rules -> Forall (outcome_ok rules) l ->
  unread (client io) = startup params +:+ replied auth +:+ asked_of l +:+ crest ->
  unread (server io) = said auth +:+ pg_encode ("Z"%char, z0) +:+ answered l +:+ srest ->
  exists io', pg_session t rules (length l) io = (Val tt, io') /\
    moved io io' crest srest
      (said auth +:+ pg_encode ("Z"%char, z0) +:+ delivered l)
      (startup params +:+ replied auth +:+ forwarded l).
Proof.
  intros Hl Hp Ha Hz Hc Ho Hu Hs. unfold pg_session.
  destruct (pg_handshake_relays t params auth z0 _ _ io Hl Hp Ha Hz Hu Hs) as (io1 & E1 & M1).
  erewrite bind_val by exact E1.
  destruct (pg_exchange t rules l Hc Ho io1 crest srest (mv_live _ _ _ _ _ _ M1)
    (mv_client _ _ _ _ _ _ M1) (mv_server _ _ _ _ _ _ M1)) as (io2 & E2 & M2).
  erewrite bind_val by exact E2. exists io2. split; [done|].
  pose proof (moved_trans _ _ _ _ _ _ _ _ _ _ _ M1 M2) as M. by rewrite !string_app_assoc in M.
Qed.

Lemma postgres_session_refines_witness :
  let t := mkTracker "id" true "db" "postgres" "postgres" "" "" in
  let rules := [mkRule "" "" "insert *" "" "" "" ActionError 0 "" "disk full" 0 f64_0] in
  let l := [(("Q"%char, "insert into t" +:+ zeros 1), Injected "disk full");
            (("Q"%char, "select 1" +:+ zeros 1), Answered [("C"%char, "SELECT")] "I")] in
  let auth := [(("R"%char, put_be 4 3), Some ("p"%char, "secret")); (("R"%char, put_be 4 0), None)] in
  let io := on_wire (startup "user" +:+ replied auth +:+ asked_of l) (said auth +:+ pg_encode ("Z"%char, "I") +:+ answered l) 0 in
  exists io', pg_session t rules 2 io = (Val tt, io') /\
    moved io io' "" "" (said auth +:+ pg_encode ("Z"%char, "I") +:+ delivered l)
      (startup "user" +:+ replied auth +:+ forwarded l).
Proof.
  intros t rules l auth io. apply (postgres_session_refines t rules io "user" auth "I" l "" "").
  - apply on_wire_live.
  - vm_compute. done.
  - repeat constructor.
  - vm_compute. done.
  - repeat constructor.
  - constructor; [|constructor; [|constructor]].
    + split; [vm_compute; done|]. exists (mkRule "" "" "insert *" "" "" "" ActionError 0 "" "disk full" 0 f64_0). repeat split; vm_compute; done.
    + split; [vm_compute; done|]. split; [vm_compute; done|]. split; [vm_compute; done|].
      constructor; [repeat split; vm_compute; done|constructor].
  - by rewrite !string_app_nil.
  - by rewrite !string_app_nil.
Defined.

(** *** The loop comes to an end *)

Lemma shrinks_until_ready fuel : shrinks Client (until_ready fuel).
Proof.
  induction fuel as [|fuel IH]; cbn [until_ready]; [apply shrinks_out_of_fuel|].
  unfold wrapped, readMessage, writeMessage, read_body. shrink.
Qed.

Lemma pg_round_consumes t rules u : consumes Client (pg_round t rules u).
Proof.
  unfold pg_round. apply consumes_after; [shrink|]. intros []; [apply consumes_exit|].
  apply consumes_bind; [apply consumes_read_full; lia|].
  assert (Hf : shrinks Client forwardUntilReady)
    by (intros io r io' E; by apply shrinks_until_ready in E).
  unfold read_body, pg_intercept, pg_checkRules, pg_act, sendPgError, sendReadyForQuery, pg_forward. shrink.
Qed.

Lemma fueled_messages s ty body :
  fueled (readMessage s) /\ fueled (writeMessage s ty body) /\ fueled (wrapped "client auth response" (readMessage s)) /\
  fueled (wrapped "client auth response" (writeMessage s ty body)).
Proof. unfold wrapped, readMessage, writeMessage, read_body. split_and!; fuel_ok. Qed.

Lemma readMessage_progress s io m io' : readMessage s io = (Val (Ok m), io') ->
  (slen (unread (conn s io')) < slen (unread (conn s io)))%nat.
Proof.
  unfold readMessage, and_then, mbind, M_bind.
  destruct (read_full s 5 io) as [[[h|]| | | |] io1] eqn:E5; try done. apply read_full_progress in E5; [|lia].
  destruct (header_len h <? 4); [done|].
  assert (Hs : shrinks s (read_body s (header_len h))) by (unfold read_body; shrink).
  destruct (read_body s _ io1) as [[[b|]| | | |] io2] eqn:Eb; try done. intros [= <- <-].
  apply Hs in Eb. lia.
Qed.

Lemma until_ready_fuel fuel : forall io, (slen (unread (server io)) < fuel)%nat ->
  (until_ready fuel io).1 <> OutOfFuel.
Proof.
  induction fuel as [|fuel IH]; intros io Hf; [lia|]. cbn [until_ready].
  apply and_then_fuel; [apply (fueled_messages Server NUL "")|]. intros [ty body] io1 E1.
  apply (readMessage_progress Server) in E1. cbn [conn] in E1.
  assert (Hw : shrinks Server (writeMessage Client ty body)) by (unfold writeMessage; shrink).
  apply and_then_fuel; [apply (fueled_messages Client ty body)|]. intros u2 io2 E2. apply Hw in E2. cbn [conn] in E2.
  destruct (_ && _); [|destruct (Ascii.eqb ty "Z"); [done|apply IH; lia]].
  apply and_then_fuel; [apply (fueled_messages Client NUL "")|]. intros [rty rbody] io3 E3.
  assert (Hr : shrinks Server (wrapped "client auth response" (readMessage Client))) by (unfold wrapped, readMessage, read_body; shrink).
  apply Hr in E3. cbn [conn] in E3.
  apply and_then_fuel; [apply (fueled_messages Server rty rbody)|]. intros u4 io4 E4.
  assert (Hv : shrinks Server (wrapped "client auth response" (writeMessage Server rty rbody))) by (unfold wrapped, writeMessage; shrink).
  apply Hv in E4. cbn [conn] in E4. apply IH. lia.
Qed.

(** Whatever the two sides have sent, the handler returns, waits for more, or panics. *)
Lemma postgres_handler_terminates t rules io fuel :
  (slen (unread (client io)) < fuel)%nat -> ended (pg_handleConn t true rules fuel io).1.
Proof.
  intros Hf. assert (Hready : fueled forwardUntilReady) by (intros io'; apply until_ready_fuel; lia).
  assert (Hs : shrinks Client forwardUntilReady) by (intros ? ? ? E; by apply shrinks_until_ready in E).
  apply session_ended with (s0 := Client); [| |by apply consumes_productive, pg_round_consumes| |done].
  - unfold pg_handshake, forwardStartup. shrink.
  - unfold pg_handshake, forwardStartup. fuel_ok.
  - intros u. unfold pg_round, read_body, pg_intercept, pg_checkRules, pg_act, sendPgError, sendReadyForQuery, pg_forward.
    fuel_ok.
Qed.

End PostgresProxy.
