(* ===== verification/MysqlProxy.v ===== *)
(** * The MySQL proxy ([internal/proxy/mysql.go])

    Packets with a three-byte length and a sequence number, the connection phase
    with its authentication rounds, the command loop, and the copy of the server's
    responses that runs beside it.  An injected error is two writes, and the schedule of
    the two goroutines says how much of the responses is copied between them. *)

From Stdlib Require Import ZArith Lia Ascii.
From S2P Require Import Prelude GoStd GoText ProxyCore SqlMatch.
From stdpp Require Import base gmap strings numbers list.
Local Open Scope Z_scope.
Import GoStd GoText.

Module MysqlProxy.
Import Rules Net Observe.

(** [int(h[0]) | int(h[1])<<8 | int(h[2])<<16]. *)
Definition payload_len (header : string) : Z :=
  let b i := match sget i header with Some c => bval c | None => 0 end in
  Z.lor (Z.lor (b 0%nat) (Z.shiftl (b 1%nat) 8)) (Z.shiftl (b 2%nat) 16).

Definition seq_id (header : string) : ascii := default NUL (sget 3 header).

Definition byte_at (i : nat) (s : string) : Z := match sget i s with Some c => bval c | None => 0 end.

Definition write_r (s : Side) (b : string) : M (result IOErr unit) :=
  e ← write s b; mret (match e with Some e => Err e | None => Ok tt end).

Definition forwardMySQLPacketReturningFirstTwoBytes (src : Side) : M (result IOErr (Z * Z)) :=
  and_then (read_full src 4) (fun header =>
    let payloadLen := payload_len header in
    and_then (write_r (other src) header) (fun _ =>
      if payloadLen =? 0 then mret (Ok (0, 0))
      else
        make 1 payloadLen ;;
        and_then (read_full src (Z.to_nat payloadLen)) (fun payload =>
        and_then (write_r (other src) payload) (fun _ =>
          if payloadLen =? 1 then mret (Ok (byte_at 0 payload, 0))
          else mret (Ok (byte_at 0 payload, byte_at 1 payload)))))).

Definition forwardMySQLPacket (src : Side) : M (result IOErr unit) :=
  and_then (forwardMySQLPacketReturningFirstTwoBytes src) (fun _ => mret (Ok tt)).

Definition mysqlPktOK : Z := 0.
Definition mysqlPktAuthMoreData : Z := 1.
Definition mysqlPktERR : Z := 255.
Definition mysqlSha2FastAuthSuccess : Z := 3.

(** The rounds after the first client packet, at most [n]. *)
Fixpoint auth_rounds (n : nat) : M (result IOErr unit) :=
  match n with
  | O => mret (Err (ErrOther "handshake exceeded 16 rounds without OK/ERR"))
  | S n =>
      and_then (wrapped "server auth response" (forwardMySQLPacketReturningFirstTwoBytes Server))
        (fun '(first, second) =>
          if (first =? mysqlPktOK) || (first =? mysqlPktERR) then mret (Ok tt)
          else if (first =? mysqlPktAuthMoreData) && (second =? mysqlSha2FastAuthSuccess) then auth_rounds n
          else and_then (wrapped "client auth continuation" (forwardMySQLPacket Client)) (fun _ => auth_rounds n))
  end.

Definition maxRounds : nat := 16.

Definition forwardHandshake : M (result IOErr unit) :=
  and_then (wrapped "server greeting" (forwardMySQLPacket Server)) (fun _ =>
  and_then (wrapped "client handshake response" (forwardMySQLPacket Client)) (fun _ =>
  auth_rounds maxRounds)).

(** ** Commands *)

Definition mysql_error_payload (code : Z) (msg : string) : string :=
  String (byte_of 255) (String (byte_of code) (String (byte_of (Z.shiftr code 8)) ("#HY000" +:+ msg))).

Definition mysql_header (seq : ascii) (payload : string) : string :=
  let n := Z.of_nat (slen payload) in
  String (byte_of n) (String (byte_of (Z.shiftr n 8)) (String (byte_of (Z.shiftr n 16)) (String seq ""))).

(** The response goroutine's [io.Copy]: the next [n] bytes the server sent, which are there. *)
Definition response_copy (n : nat) : M unit :=
  e ← copied n;
  match e with None => mret tt | Some _ => close Client end.

(** Two writes; the response goroutine copies [n] bytes between them. *)
Definition sendMySQLError (n : nat) (seq : ascii) (code : Z) (msg : string) : M unit :=
  let payload := mysql_error_payload code msg in
  write Client (mysql_header seq payload) ;; response_copy n ;; write Client payload ;; mret tt.

Definition mysql_event (t : connTracker) (action : string) (fs : list (string * string)) : ProxyEvent :=
  mkEvent "" "mysql" action (service t) (list_to_map fs).

Definition mysql_matches (query : string) (r : Rule) : bool := SqlMatch.Match query (Query r).

Definition mysql_error_text (r : Rule) : string :=
  if String.eqb (ErrorMsg r) "" then "Injected fault" else ErrorMsg r.

Definition mysql_act (t : connTracker) (n : nat) (seq : ascii) (query : string) (r : Rule) : M (option bool) :=
  match RuleAction r with
  | ActionError =>
      let errMsg := mysql_error_text r in
      sendMySQLError n (byte_of (bval seq + 1)) 1105 errMsg ;;
      emit (onEvent t) (mysql_event t "error" [("query", query); ("error", errMsg)]) ;;
      mret (Some true)
  | ActionDelay =>
      emit (onEvent t) (mysql_event t "delay" [("query", query); ("delay_ms", ms (Delay r))]) ;;
      mret (Some false)
  | ActionDrop => close Client ;; mret (Some true)
  | ActionRespond | ActionDuplicate => mret None
  end.

Definition mysql_checkRules (t : connTracker) (rules : list Rule) (n : nat) (seq : ascii) (query : string) : M bool :=
  o ← rule_loop (mysql_matches query) (mysql_act t n seq query) rules;
  mret (default false o).

(** The text of a COM_QUERY or COM_STMT_PREPARE that starts a command. *)
Definition mysql_query (seq : ascii) (payload : string) : option string :=
  match payload with
  | String c q => if Ascii.eqb seq NUL && ((bval c =? 3) || (bval c =? 22)) then Some q else None
  | EmptyString => None
  end.

(** Whether a rule handles the packet. *)
Definition mysql_intercept (t : connTracker) (rules : list Rule) (n : nat) (seq : ascii) (payload : string) : M bool :=
  match mysql_query seq payload with
  | Some query => mysql_checkRules t rules n seq query
  | None => mret false
  end.

Definition mysql_forward (header payload : string) : M unit :=
  write_or_exit (because Server) Server header ;;
  write_or_exit (because Server) Server payload.

(** One command packet; [n] as in [sendMySQLError], if it is answered with an error. *)
Definition mysql_round (t : connTracker) (rules : list Rule) (n : nat) : M unit :=
  cancelled ← ctx_done;
  if cancelled : bool then exit "context_cancel"
  else
    header ← or_exit (because Client) (read_full Client 4);
    AddBytesC2S 4 ;;
    let payloadLen := payload_len header in
    make 1 payloadLen ;;
    payload ← or_exit (because Client) (read_full Client (Z.to_nat payloadLen));
    AddBytesC2S (Z.to_nat payloadLen) ;;
    handled ← mysql_intercept t rules n (seq_id header) payload;
    if handled : bool then mret tt else mysql_forward header payload.

(** The two goroutines take turns: a command, or a piece of the responses.  The command goroutine's other
    operations commute with the copy, which reads from the server and writes to the client; between
    the two writes of an error it does not, and [Cmd n] copies [n] bytes there. *)
Inductive Turn := Cmd (n : nat) | Copy (n : nat).

Fixpoint mysql_turns (t : connTracker) (rules : list Rule) (turns : list Turn) : M unit :=
  match turns with
  | [] => mret tt
  | Cmd n :: turns => mysql_round t rules n ;; mysql_turns t rules turns
  | Copy n :: turns => response_copy n ;; mysql_turns t rules turns
  end.

Definition mysql_handleConn (t : connTracker) (dialed : bool) (rules : list Rule) (turns : list Turn) : M unit :=
  if negb dialed then close Client
  else
    EmitOpen t ;;
    deferred t
      (or_exit (because Client) forwardHandshake ;; EmitHandshakeComplete t "" 0 ;; mysql_turns t rules turns).

(** ** Packets on the wire *)

Abbreviation Packet := (ascii * string)%type.

Definition my_encode (p : Packet) : string := mysql_header p.1 p.2 +:+ p.2.
Definition packet_ok (p : Packet) : Prop := Z.of_nat (slen p.2) < 2 ^ 24.

Lemma slen_mysql_header seq payload : slen (mysql_header seq payload) = 4%nat.
Proof. done. Qed.

Lemma payload_len_header seq payload : Z.of_nat (slen payload) < 2 ^ 24 ->
  payload_len (mysql_header seq payload) = Z.of_nat (slen payload).
Proof.
  intros Hn. unfold payload_len, mysql_header. cbn [sget]. rewrite !bval_byte_of.
  set (n := Z.of_nat (slen payload)) in *. assert (0 <= n) by (unfold n; lia). rewrite !Z.shiftr_div_pow2 by lia.
  unfold wrap_u. pose proof (Z.mod_pos_bound n (2 ^ 8) ltac:(lia)).
  pose proof (Z.mod_pos_bound (n / 2 ^ 8) (2 ^ 8) ltac:(lia)).
  rewrite (lor_shift (n mod 2 ^ 8)) by lia.
  rewrite lor_shift by (change (2 ^ 16) with (2 ^ 8 * 2 ^ 8); lia).
  change (2 ^ 16) with (256 * 256). change (2 ^ 8) with 256 in *.
  rewrite (Z.mod_small (n / (256 * 256))) by (split; [apply Z.div_pos; lia|apply Z.div_lt_upper_bound; lia]).
  rewrite <- Z.div_div by lia.
  pose proof (Z.div_mod n 256 ltac:(lia)). pose proof (Z.div_mod (n / 256) 256 ltac:(lia)). lia.
Qed.

Lemma seq_id_header seq payload : seq_id (mysql_header seq payload) = seq.
Proof. done. Qed.

Definition first_two (p : Packet) : Z * Z :=
  if (slen p.2 =? 0)%nat then (0, 0)
  else if (slen p.2 =? 1)%nat then (byte_at 0 p.2, 0) else (byte_at 0 p.2, byte_at 1 p.2).

Lemma forward_packet src p rest io : live io -> packet_ok p -> unread (conn src io) = my_encode p +:+ rest ->
  exists io', forwardMySQLPacketReturningFirstTwoBytes src io = (Val (Ok (first_two p)), io') /\
    passed src io io' rest (my_encode p).
Proof.
  intros Hl Hp Hu. destruct p as [seq payload]. unfold packet_ok, my_encode, first_two in *. cbn [fst snd] in *.
  rewrite string_app_assoc in Hu. unfold forwardMySQLPacketReturningFirstTwoBytes.
  erewrite and_then_ok by (apply (read_full_app src 4 (mysql_header seq payload)); [exact Hu|done]).
  cbv zeta. rewrite payload_len_header by done.
  set (io1 := set_unread src (payload +:+ rest) io).
  assert (L1 : live io1) by (unfold io1; destruct src; by apply (moved_read _ io)).
  erewrite and_then_ok by (unfold write_r; by erewrite bind_val by (by apply write_live)).
  assert (P : forall a out, passed src io (wrote (other src) out (set_unread src a io)) a out).
  { intros a out. pose proof Hl as [[] [] ?]. destruct src; split; cbn; rewrite ?string_app_nil; done. }
  destruct (Z.eqb_spec (Z.of_nat (slen payload)) 0) as [E0|N0].
  { assert (payload = "") as -> by (apply slen_0; lia). eexists. split; [done|].
    rewrite string_app_nil. apply P. }
  erewrite bind_val by (apply make_ok; unfold max_alloc; lia).
  erewrite and_then_ok.
  2: { apply (read_full_app src _ payload rest); [|lia]. unfold io1. by destruct src. }
  set (io2 := set_unread src rest _).
  assert (E2 : io2 = wrote (other src) (mysql_header seq payload) (set_unread src rest io)) by (by destruct src).
  rewrite E2. clear E2 io2.
  assert (L2 : live (set_unread src rest io)) by (destruct src; by apply (moved_read _ io)).
  erewrite and_then_ok by (unfold write_r; by erewrite bind_val by (by apply write_live, wrote_live)).
  rewrite wrote_wrote. eexists. split; [|apply P].
  destruct (Nat.eqb_spec (slen payload) 0); [lia|].
  destruct (Nat.eqb_spec (slen payload) 1) as [E1|N1], (Z.eqb_spec (Z.of_nat (slen payload)) 1); try done; lia.
Qed.

(** ** The connection phase *)

Abbreviation AuthScript := (list (Packet * option Packet)).

Definition ends_auth (p : Packet) : bool := ((first_two p).1 =? mysqlPktOK) || ((first_two p).1 =? mysqlPktERR).
Definition fast_auth (p : Packet) : bool :=
  ((first_two p).1 =? mysqlPktAuthMoreData) && ((first_two p).2 =? mysqlSha2FastAuthSuccess).

(** A packet of the server that neither ends the phase nor is the fast-path notice gets a reply. *)
Definition auth_step_ok (s : Packet * option Packet) : Prop :=
  packet_ok s.1 /\ ends_auth s.1 = false /\
  match s.2 with Some r => fast_auth s.1 = false /\ packet_ok r | None => fast_auth s.1 = true end.

Fixpoint auth_said (sc : AuthScript) : string :=
  match sc with [] => "" | (p, _) :: sc => my_encode p +:+ auth_said sc end.
Fixpoint auth_replied (sc : AuthScript) : string :=
  match sc with
  | [] => ""
  | (_, Some r) :: sc => my_encode r +:+ auth_replied sc
  | (_, None) :: sc => auth_replied sc
  end.

Lemma forward_packet_ok src p rest io : live io -> packet_ok p -> unread (conn src io) = my_encode p +:+ rest ->
  exists io', forwardMySQLPacket src io = (Val (Ok tt), io') /\ passed src io io' rest (my_encode p).
Proof.
  intros Hl Hp Hu. destruct (forward_packet src p rest io Hl Hp Hu) as (io' & E & P).
  exists io'. split; [|done]. unfold forwardMySQLPacket. by erewrite and_then_ok by exact E.
Qed.

Lemma auth_rounds_script sc last : Forall auth_step_ok sc -> packet_ok last -> ends_auth last = true ->
  forall n io crest srest, (length sc < n)%nat -> live io ->
  unread (client io) = auth_replied sc +:+ crest ->
  unread (server io) = auth_said sc +:+ my_encode last +:+ srest ->
  exists io', auth_rounds n io = (Val (Ok tt), io') /\
    moved io io' crest srest (auth_said sc +:+ my_encode last) (auth_replied sc).
Proof.
  intros Hsc Hp He. induction Hsc as [|[p o] sc (Hp' & He' & Ho) _ IH]; intros n io crest srest Hn Hl Hc Hs;
    (destruct n as [|n]; [cbn in Hn; lia|]); cbn [auth_rounds auth_said auth_replied length fst snd] in *.
  - destruct (forward_packet Server last srest io Hl Hp Hs) as (io1 & E1 & M1). cbn [passed] in M1.
    erewrite and_then_ok by (apply wrapped_ok; exact E1). unfold ends_auth in He.
    destruct (first_two last) as [a b]. cbn [fst] in He. cbv beta iota. rewrite He.
    exists io1. split; [done|]. change ("" +:+ crest) with crest in Hc. by rewrite <- Hc.
  - rewrite string_app_assoc in Hs.
    destruct (forward_packet Server p _ io Hl Hp' Hs) as (io1 & E1 & M1). cbn [passed] in M1.
    erewrite and_then_ok by (apply wrapped_ok; exact E1). unfold ends_auth, fast_auth in *.
    destruct (first_two p) as [a b]. cbn [fst snd] in *. cbv beta iota. rewrite He'.
    pose proof (mv_live _ _ _ _ _ _ M1) as L1. destruct o as [r|]; cbn [auth_replied] in *.
    + destruct Ho as [-> Hr]. rewrite string_app_assoc in Hc.
      destruct (forward_packet_ok Client r (auth_replied sc +:+ crest) io1 L1 Hr) as (io2 & E2 & M2).
      { cbn [conn]. by rewrite (mv_client _ _ _ _ _ _ M1). }
      erewrite and_then_ok by (apply wrapped_ok; exact E2). cbn [passed] in M2.
      pose proof (moved_trans _ _ _ _ _ _ _ _ _ _ _ M1 M2) as M. rewrite string_app_nil in M.
      destruct (IH n io2 crest srest ltac:(lia) (mv_live _ _ _ _ _ _ M)) as (io3 & E3 & M3).
      { by rewrite (mv_client _ _ _ _ _ _ M). }
      { by rewrite (mv_server _ _ _ _ _ _ M), (mv_server _ _ _ _ _ _ M1). }
      exists io3. split; [done|]. rewrite string_app_assoc. exact (moved_trans _ _ _ _ _ _ _ _ _ _ _ M M3).
    + rewrite Ho. destruct (IH n io1 crest srest ltac:(lia) L1) as (io3 & E3 & M3).
      { by rewrite (mv_client _ _ _ _ _ _ M1). }
      { by rewrite (mv_server _ _ _ _ _ _ M1). }
      exists io3. split; [done|]. rewrite string_app_assoc. exact (moved_trans _ _ _ _ _ _ _ _ _ _ _ M1 M3).
Qed.

(** The connection phase passes in both directions, packet by packet, whichever authentication
    method the two sides use, as long as it takes fewer than sixteen rounds. *)
Lemma handshake_relays greeting response sc last crest srest io :
  live io -> packet_ok greeting -> packet_ok response -> Forall auth_step_ok sc -> packet_ok last ->
  ends_auth last = true -> (length sc < maxRounds)%nat ->
  unread (client io) = my_encode response +:+ auth_replied sc +:+ crest ->
  unread (server io) = my_encode greeting +:+ auth_said sc +:+ my_encode last +:+ srest ->
  exists io', forwardHandshake io = (Val (Ok tt), io') /\
    moved io io' crest srest (my_encode greeting +:+ auth_said sc +:+ my_encode last)
      (my_encode response +:+ auth_replied sc).
Proof.
  intros Hl Hg Hr Hsc Hp He Hn Hc Hs. unfold forwardHandshake.
  destruct (forward_packet_ok Server greeting _ io Hl Hg Hs) as (io1 & E1 & M1). cbn [passed] in M1.
  erewrite and_then_ok by (apply wrapped_ok; exact E1).
  destruct (forward_packet_ok Client response (auth_replied sc +:+ crest) io1 (mv_live _ _ _ _ _ _ M1) Hr)
    as (io2 & E2 & M2). { cbn [conn]. by rewrite (mv_client _ _ _ _ _ _ M1). }
  erewrite and_then_ok by (apply wrapped_ok; exact E2). cbn [passed] in M2.
  pose proof (moved_trans _ _ _ _ _ _ _ _ _ _ _ M1 M2) as M. rewrite string_app_nil in M.
  destruct (auth_rounds_script sc last Hsc Hp He maxRounds io2 crest srest Hn (mv_live _ _ _ _ _ _ M)) as (io3 & E3 & M3).
  { by rewrite (mv_client _ _ _ _ _ _ M). }
  { by rewrite (mv_server _ _ _ _ _ _ M), (mv_server _ _ _ _ _ _ M1). }
  exists io3. split; [done|]. exact (moved_trans _ _ _ _ _ _ _ _ _ _ _ M M3).
Qed.

(** ** The command phase *)

Definition mysql_terminal (r : Rule) : bool :=
  match RuleAction r with ActionError | ActionDelay | ActionDrop => true | _ => false end.

(** The rule that decides on a command, when no rule has a probability. *)
Definition mysql_verdict (rules : list Rule) (p : Packet) : option Rule :=
  match mysql_query p.1 p.2 with
  | Some query => List.find (fun r => mysql_matches query r && mysql_terminal r) rules
  | None => None
  end.

Definition mysql_error (p : Packet) (r : Rule) : string :=
  my_encode (byte_of (bval p.1 + 1), mysql_error_payload 1105 (mysql_error_text r)).

Lemma mysql_intercept_verdict t rules n p io : Forall certain rules -> exists io1, quiet io io1 /\
  mysql_intercept t rules n p.1 p.2 io =
  match mysql_verdict rules p with
  | None => (Val false, io1)
  | Some r => (o ← mysql_act t n p.1 (default "" (mysql_query p.1 p.2)) r; mret (default false o)) io1
  end.
Proof.
  intros Hc. unfold mysql_verdict, mysql_intercept. destruct (mysql_query p.1 p.2) as [query|]; [|by exists io].
  unfold mysql_checkRules. cbn [default].
  destruct (rule_loop_settles mysql_terminal (mysql_matches query) (mysql_act t n p.1 query) rules)
    with (io := io) as (io1 & Q & E).
  - intros r. unfold mysql_terminal, mysql_act. destruct (RuleAction r); try done; intros _; apply silent_ret.
  - intros r io1 io2. unfold mysql_terminal, mysql_act. destruct (RuleAction r); try done; intros _; unfold mbind, M_bind; [|done..].
    destruct (sendMySQLError n _ _ _ io1) as [[]]; done.
  - exists io1. split; [done|]. rewrite settles_certain in E by done. unfold mbind at 1, M_bind at 1. rewrite E.
    destruct (List.find _ rules); [|done]. unfold mbind, M_bind. by destruct (mysql_act _ _ _ _ _ io1) as [[]].
Qed.

Lemma mysql_round_reads t rules n p rest io : live io -> packet_ok p -> unread (client io) = my_encode p +:+ rest ->
  exists io1, moved io io1 rest (unread (server io)) "" "" /\
    mysql_round t rules n io =
    (handled ← mysql_intercept t rules n p.1 p.2;
     if handled : bool then mret tt else mysql_forward (mysql_header p.1 p.2) p.2) io1.
Proof.
  intros Hl Hp Hu. destruct p as [seq payload]. pose proof Hl as [[H1 H2] [H3 H4] H5].
  unfold my_encode in Hu. cbn [fst snd] in *. rewrite string_app_assoc in Hu. unfold packet_ok in Hp. cbn [snd] in Hp.
  unfold mysql_round. erewrite bind_val by done. rewrite H5. cbv iota beta.
  erewrite bind_val by (apply or_exit_ok, (read_full_app Client 4 (mysql_header seq payload)); [exact Hu|done]).
  erewrite bind_val by (unfold AddBytesC2S; done). cbv zeta. rewrite payload_len_header by done.
  erewrite bind_val by (apply make_ok; unfold max_alloc; lia).
  erewrite bind_val by (apply or_exit_ok, (read_full_app Client _ payload rest); [by destruct io|lia]).
  erewrite bind_val by (unfold AddBytesC2S; done). rewrite seq_id_header.
  eexists. split; [|done]. destruct io. split; cbn; try done; by rewrite string_app_nil.
Qed.

Lemma mysql_forward_moves p io : live io ->
  exists io', mysql_forward (mysql_header p.1 p.2) p.2 io = (Val tt, io') /\
    moved io io' (unread (client io)) (unread (server io)) "" (my_encode p).
Proof.
  intros Hl. unfold mysql_forward. erewrite bind_val by (by apply write_or_exit_live).
  rewrite write_or_exit_live by (by apply wrote_live). rewrite wrote_wrote. eexists. split; [done|].
  by apply moved_wrote_server.
Qed.

Lemma response_copy_moves n io : live io -> (n <= slen (unread (server io)))%nat ->
  exists io', response_copy n io = (Val tt, io') /\
    moved io io' (unread (client io)) (sdrop n (unread (server io))) (stake n (unread (server io))) "".
Proof.
  intros Hl Hn. destruct (copied_moves n io Hl Hn) as (io' & E & M). exists io'. split; [|done].
  unfold response_copy. by erewrite bind_val by exact E.
Qed.

(** The error's packet, with what was copied between its header and its payload. *)
Definition split_error (p : Packet) (r : Rule) (between : string) : string :=
  let payload := mysql_error_payload 1105 (mysql_error_text r) in
  mysql_header (byte_of (bval p.1 + 1)) payload +:+ between +:+ payload.

Lemma mysql_injects t n seq query r io : live io -> RuleAction r = ActionError -> (n <= slen (unread (server io)))%nat ->
  exists io', mysql_act t n seq query r io = (Val (Some true), io') /\
    moved io io' (unread (client io)) (sdrop n (unread (server io))) (split_error (seq, query) r (stake n (unread (server io)))) "".
Proof.
  intros Hl Ha Hn. unfold mysql_act. rewrite Ha. unfold sendMySQLError, split_error. cbv zeta. cbn [fst].
  set (payload := mysql_error_payload 1105 _). set (header := mysql_header _ payload).
  pose proof (moved_wrote_client io header Hl) as M1. set (io1 := wrote Client header io) in *.
  destruct (response_copy_moves n io1 (mv_live _ _ _ _ _ _ M1)) as (io2 & E2 & M2); [by rewrite (mv_server _ _ _ _ _ _ M1)|].
  pose proof (moved_wrote_client io2 payload (mv_live _ _ _ _ _ _ M2)) as M3.
  erewrite bind_val.
  2: { erewrite bind_val by (by apply write_live). erewrite bind_val by exact E2. erewrite bind_val by (apply write_live, M2). done. }
  rewrite (mv_client _ _ _ _ _ _ M1), (mv_server _ _ _ _ _ _ M1) in M2. pose proof (moved_trans _ _ _ _ _ _ _ _ _ _ _ M1 M2) as M12.
  rewrite (mv_client _ _ _ _ _ _ M2), (mv_server _ _ _ _ _ _ M2) in M3. pose proof (moved_trans _ _ _ _ _ _ _ _ _ _ _ M12 M3) as M.
  rewrite string_app_assoc in M. eexists. split; [done|]. eapply moved_quiet; [exact M|]. by destruct (onEvent t).
Qed.

(** What a command packet leads to: the bytes for the client and for the server, and the responses left, when
    [n] bytes of them come between the two writes of an error.  [None] is a dropped connection. *)
Definition mysql_effect (rules : list Rule) (n : nat) (responses : string) (p : Packet) : option (string * string * string) :=
  match mysql_verdict rules p with
  | None => Some ("", my_encode p, responses)
  | Some r =>
      match RuleAction r with
      | ActionError =>
          if (n <=? slen responses)%nat then Some (split_error p r (stake n responses), "", sdrop n responses) else None
      | ActionDrop => None
      | _ => Some ("", my_encode p, responses)
      end
  end.

Lemma mysql_round_effect t rules n p rest io c s left : live io -> Forall certain rules -> packet_ok p ->
  unread (client io) = my_encode p +:+ rest -> mysql_effect rules n (unread (server io)) p = Some (c, s, left) ->
  exists io', mysql_round t rules n io = (Val tt, io') /\ moved io io' rest left c s.
Proof.
  intros Hl Hc Hp Hu He. destruct (mysql_round_reads t rules n p rest io Hl Hp Hu) as (io1 & M1 & ->).
  pose proof (mv_live _ _ _ _ _ _ M1) as L1.
  destruct (mysql_intercept_verdict t rules n p io1 Hc) as (io2 & Q2 & E2).
  assert (G : forall io3, quiet io1 io3 -> moved io io3 rest (unread (server io)) "" "").
  { intros io3 Q3. by eapply moved_quiet. }
  assert (F : forall io3, quiet io1 io3 -> exists io', mysql_forward (mysql_header p.1 p.2) p.2 io3 = (Val tt, io') /\
    moved io io' rest (unread (server io)) "" (my_encode p)).
  { intros io3 Q3. pose proof (G io3 Q3) as M3.
    destruct (mysql_forward_moves p io3 (mv_live _ _ _ _ _ _ M3)) as (io' & E & M'). exists io'. split; [done|].
    rewrite (mv_client _ _ _ _ _ _ M3), (mv_server _ _ _ _ _ _ M3) in M'.
    exact (moved_trans _ _ _ _ _ _ _ _ _ _ _ M3 M'). }
  unfold mbind at 1, M_bind at 1. rewrite E2. unfold mysql_effect in He.
  destruct (mysql_verdict rules p) as [r|] eqn:Ev; [|injection He as <- <- <-; by apply F].
  destruct (RuleAction r) eqn:Ea; try done.
  - unfold mysql_verdict in Ev. destruct (mysql_query p.1 p.2); [|done]. apply List.find_some in Ev as [_ Ht].
    unfold mysql_terminal in Ht. by rewrite Ea, andb_false_r in Ht.
  - destruct (Nat.leb_spec n (slen (unread (server io)))) as [Hn|]; [|done]. injection He as <- <- <-. pose proof (G io2 Q2) as M2.
    destruct (mysql_injects t n p.1 (default "" (mysql_query p.1 p.2)) r io2 (mv_live _ _ _ _ _ _ M2) Ea)
      as (io3 & E3 & M3); [by rewrite (mv_server _ _ _ _ _ _ M2)|]. unfold mbind, M_bind. rewrite E3. cbn. exists io3. split; [done|].
    rewrite (mv_client _ _ _ _ _ _ M2), (mv_server _ _ _ _ _ _ M2) in M3.
    exact (moved_trans _ _ _ _ _ _ _ _ _ _ _ M2 M3).
  - injection He as <- <- <-. unfold mysql_act, mbind, M_bind, emit. rewrite Ea. cbn. apply F.
    eapply quiet_trans; [exact Q2|]. by destruct (onEvent t).
  - unfold mysql_verdict in Ev. destruct (mysql_query p.1 p.2); [|done]. apply List.find_some in Ev as [_ Ht].
    unfold mysql_terminal in Ht. by rewrite Ea, andb_false_r in Ht.
Qed.

(** *** The two goroutines in any order *)

(** The exchange at the level of packets: the commands left, the server's bytes left, and what was
    sent to each side. *)
Fixpoint mysql_spec (rules : list Rule) (turns : list Turn) (cmds : list Packet) (responses : string)
    : option (list Packet * string * string * string) :=
  match turns with
  | [] => Some (cmds, responses, "", "")
  | Cmd n :: turns =>
      match cmds with
      | [] => None
      | p :: cmds =>
          '(c, s, responses) ← mysql_effect rules n responses p;
          '(cmds, responses, c', s') ← mysql_spec rules turns cmds responses;
          Some (cmds, responses, c +:+ c', s +:+ s')
      end
  | Copy n :: turns =>
      if (n <=? slen responses)%nat then
        '(cmds, responses', c', s') ← mysql_spec rules turns cmds (sdrop n responses);
        Some (cmds, responses', stake n responses +:+ c', s')
      else None
  end.

Fixpoint my_encodes (l : list Packet) : string :=
  match l with [] => "" | p :: l => my_encode p +:+ my_encodes l end.

(** No piece of the responses comes between the two writes of an error. *)
Definition undivided (turns : list Turn) : Prop := Forall (fun u => match u with Cmd n => n = 0%nat | Copy _ => True end) turns.

(** The error packet that answers a command, if one does. *)
Definition answer (rules : list Rule) (p : Packet) : list string :=
  match mysql_verdict rules p with
  | Some r => match RuleAction r with ActionError => [mysql_error p r] | _ => [] end
  | None => []
  end.

(** What the turns send to the client, whole errors and pieces of the responses. *)
Fixpoint to_client_pieces (rules : list Rule) (turns : list Turn) (cmds : list Packet) (responses : string) : list string :=
  match turns, cmds with
  | [], _ => []
  | Cmd _ :: turns, [] => to_client_pieces rules turns [] responses
  | Cmd _ :: turns, p :: cmds => answer rules p ++ to_client_pieces rules turns cmds responses
  | Copy n :: turns, _ => stake n responses :: to_client_pieces rules turns cmds (sdrop n responses)
  end.

Lemma undivided_effect rules rs p c s left : mysql_effect rules 0 rs p = Some (c, s, left) -> left = rs /\ c = foldr String.append "" (answer rules p).
Proof.
  unfold mysql_effect, answer. destruct (mysql_verdict rules p) as [r|]; [|by intros [= <- <- <-]].
  destruct (RuleAction r); try done; cbn [Nat.leb foldr]; intros [= <- <- <-]; try done. split; [by destruct rs|].
  rewrite string_app_nil. unfold split_error, mysql_error, my_encode. cbn [fst snd]. by destruct rs.
Qed.

Lemma joined_app l l' : foldr String.append "" (l ++ l') = foldr String.append "" l +:+ foldr String.append "" l'.
Proof. induction l as [|x l IH]; [done|]. cbn [app foldr]. by rewrite IH, string_app_assoc. Qed.

Lemma undivided_pieces rules turns : undivided turns -> forall cmds responses cmds' responses' tc ts,
  mysql_spec rules turns cmds responses = Some (cmds', responses', tc, ts) -> tc = foldr String.append "" (to_client_pieces rules turns cmds responses).
Proof.
  induction 1 as [|[n|n] turns Hn _ IH]; intros cmds rs cmds' rs' tc ts; cbn [mysql_spec to_client_pieces].
  - by intros [= _ _ <- _].
  - subst n. destruct cmds as [|p cmds]; [done|]. destruct (mysql_effect rules 0 rs p) as [[[c s] left]|] eqn:He; [|done]. cbn [mbind option_bind].
    apply undivided_effect in He as [-> ->]. destruct (mysql_spec rules turns cmds rs) as [[[[? ?] ?] ?]|] eqn:Es; [|done]. intros [= <- <- <- <-].
    by rewrite joined_app, (IH _ _ _ _ _ _ Es).
  - destruct (n <=? slen rs)%nat; [|done]. destruct (mysql_spec rules turns cmds (sdrop n rs)) as [[[[? ?] ?] ?]|] eqn:Es; [|done].
    cbn [mbind option_bind]. intros [= <- <- <- <-]. cbn [foldr]. by rewrite (IH _ _ _ _ _ _ Es).
Qed.

(** C30: The client receives the injected errors and the server's responses in the order in which the
    two goroutines wrote them, and the server the commands that no error rule decides; no byte is lost,
    repeated or changed on the way.  An injected error is two writes, and a piece of the responses that comes
    between them splits its packet; when none does, the client receives whole error packets and the
    pieces of the responses. *)
Theorem mysql_refines_packets (t : connTracker) (rules : list Rule) (turns : list Turn) :
  Forall certain rules ->
  forall (cmds cmds' : list Packet) (responses responses' to_client to_server crest : string) (io : IO),
  Forall packet_ok cmds -> live io ->
  mysql_spec rules turns cmds responses = Some (cmds', responses', to_client, to_server) ->
  unread (client io) = my_encodes cmds +:+ crest -> unread (server io) = responses ->
  exists io', mysql_turns t rules turns io = (Val tt, io') /\
    moved io io' (my_encodes cmds' +:+ crest) responses' to_client to_server /\
    (undivided turns -> to_client = foldr String.append "" (to_client_pieces rules turns cmds responses)).
Proof.
  intros Hc cmds cmds' rs rs' tc ts crest io Hp Hl Hs Hu Hv.
  enough (exists io', mysql_turns t rules turns io = (Val tt, io') /\ moved io io' (my_encodes cmds' +:+ crest) rs' tc ts) as (io' & E & M)
    by (exists io'; split_and!; [done..|]; intros Hd; by eapply undivided_pieces).
  revert cmds cmds' rs rs' tc ts crest io Hp Hl Hs Hu Hv. induction turns as [|[n|n] turns IH]; intros cmds cmds' rs rs' tc ts crest io Hp Hl Hs Hu Hv;
    cbn [mysql_spec mysql_turns] in *.
  - injection Hs as <- <- <- <-. exists io. split; [done|]. split; rewrite ?string_app_nil; done.
  - destruct cmds as [|p cmds]; [done|]. apply Forall_cons in Hp as [Hp1 Hp].
    destruct (mysql_effect rules n rs p) as [[[c s] left]|] eqn:He; [|done]. cbn [mbind option_bind] in Hs. rewrite <- Hv in He.
    destruct (mysql_spec rules turns cmds left) as [[[[x1 x2] x3] x4]|] eqn:Es; [|done]. injection Hs as <- <- <- <-.
    cbn [my_encodes] in Hu. rewrite string_app_assoc in Hu.
    destruct (mysql_round_effect t rules n p _ io c s left Hl Hc Hp1 Hu He) as (io1 & E1 & M1).
    erewrite bind_val by exact E1.
    destruct (IH cmds x1 left x2 x3 x4 crest io1 Hp (mv_live _ _ _ _ _ _ M1) Es (mv_client _ _ _ _ _ _ M1) (mv_server _ _ _ _ _ _ M1)) as (io2 & E2 & M2).
    exists io2. split; [done|]. exact (moved_trans _ _ _ _ _ _ _ _ _ _ _ M1 M2).
  - destruct (Nat.leb_spec n (slen rs)) as [Hn|]; [|done]. subst rs.
    destruct (mysql_spec rules turns cmds _) as [[[[x1 x2] x3] x4]|] eqn:Es; [|done]. injection Hs as <- <- <- <-.
    destruct (response_copy_moves n io Hl Hn) as (io1 & E1 & M1). erewrite bind_val by exact E1.
    destruct (IH cmds x1 _ x2 x3 x4 crest io1 Hp (mv_live _ _ _ _ _ _ M1) Es) as (io2 & E2 & M2).
    { by rewrite (mv_client _ _ _ _ _ _ M1). }
    { apply M1. }
    exists io2. split; [done|]. exact (moved_trans _ _ _ _ _ _ _ _ _ _ _ M1 M2).
Qed.

Lemma mysql_refines_packets_witness :
  let t := mkTracker "id" true "db" "mysql" "mysql" "" "" in
  let rule := mkRule "" "" "insert *" "" "" "" ActionError 0 "" "disk full" 0 f64_0 in
  let bad := (NUL, String (byte_of 3) "insert into t") in
  let good := (NUL, String (byte_of 3) "select 1") in
  let io := on_wire (my_encodes [bad; good]) "rows" 0 in
  exists io', mysql_turns t [rule] [Copy 1; Cmd 2; Cmd 0; Copy 1] io = (Val tt, io') /\
    moved io io' "" "" ("r" +:+ split_error bad rule "ow" +:+ "s") (my_encode good).
Proof.
  intros t rule bad good io.
  destruct (mysql_refines_packets t [rule] [Copy 1; Cmd 2; Cmd 0; Copy 1]) with (cmds := [bad; good]) (cmds' := @nil Packet)
    (responses := "rows") (responses' := "") (crest := "") (to_client := "r" +:+ split_error bad rule "ow" +:+ "s") (to_server := my_encode good) (io := io)
    as (io' & E & M & _); [..|exists io'; by split].
  - repeat constructor.
  - repeat constructor.
  - apply on_wire_live.
  - vm_compute. done.
  - by rewrite string_app_nil.
  - done.
Defined.

(** The injected error is a packet that answers the command: the next sequence number, the error
    marker and code, and the rule's text. *)
Lemma mysql_error_is_packet p r rest io : Z.of_nat (slen (mysql_error_text r)) + 9 < 2 ^ 24 -> live io ->
  unread (server io) = mysql_error p r +:+ rest ->
  exists io', forwardMySQLPacketReturningFirstTwoBytes Server io = (Val (Ok (255, 81)), io').
Proof.
  intros Hn Hl Hu. unfold mysql_error in Hu.
  destruct (forward_packet Server (byte_of (bval p.1 + 1), mysql_error_payload 1105 (mysql_error_text r)) rest io Hl)
    as (io' & E & _); [|exact Hu|].
  { unfold packet_ok, mysql_error_payload. cbn [snd slen]. rewrite slen_app. cbn. lia. }
  by exists io'.
Qed.

End MysqlProxy.
