(* ===== verification/KafkaProxy.v ===== *)
(** * The Kafka proxy and its request headers
    ([internal/proxy/kafka.go], [internal/kafkawire/request.go])

    Size-prefixed frames; the request header with its client identifier and tagged
    fields; the rules on Produce and Fetch, among them the duplication of a
    produce; and the topic names learnt from metadata responses.  The message
    bodies are decoded by a third-party package, a parameter here. *)

From Stdlib Require Import ZArith Lia Ascii.
From S2P Require Import Prelude GoStd GoText ProxyCore.
From stdpp Require Import base gmap strings numbers list.
Local Open Scope Z_scope.
Import GoStd GoText.

Module KafkaWire.

(** [binary.Uvarint]: the value and the bytes read; no bytes for a buffer too short, and a failure
    for a value above 64 bits. *)
Fixpoint uvarint (i : nat) (shift : Z) (x : Z) (b : string) : option (Z * string) :=
  match b with
  | EmptyString => None
  | String c r =>
      if (i =? 10)%nat then None
      else if bval c <? 128 then
        if (i =? 9)%nat && (1 <? bval c) then None
        else Some (Z.lor x (u64 (Z.shiftl (bval c) shift)), r)
      else uvarint (S i) (shift + 7) (Z.lor x (u64 (Z.shiftl (Z.land (bval c) 127) shift))) r
  end.

Definition Uvarint (b : string) : option (Z * string) := uvarint 0 0 0 b.

(** The tag loop; every round reads at least two bytes. *)
Fixpoint skip_tags (fuel : nat) (count : Z) (b : string) : result string string :=
  if count <=? 0 then Ok b
  else
    match fuel with
    | O => Err "invalid Kafka tag"
    | S fuel =>
        match Uvarint b with
        | None => Err "invalid Kafka tag"
        | Some (_, b) =>
            match Uvarint b with
            | None => Err "invalid Kafka tag size"
            | Some (size, b) =>
                if Z.of_nat (slen b) <? size then Err "truncated Kafka tag"
                else skip_tags fuel (count - 1) (sdrop (Z.to_nat size) b)
            end
        end
    end.

Definition SkipTags (b : string) : result string string :=
  match Uvarint b with
  | None => Err "invalid Kafka tag count"
  | Some (count, b) => skip_tags (S (slen b)) count b
  end.

(** The message package: whether a key is known, whether a version has tagged fields, and the
    decoder of a body. *)
Class Kmsg (Req : Type) := {
  known_key : Z -> bool;
  is_flexible : Z -> Z -> bool;
  read_from : Z -> Z -> string -> option Req }.

Record Decoded (Req : Type) := mkDecoded { request : Req; corr : Z; client_id : string }.
Arguments mkDecoded {Req}.
Arguments request {Req}.
Arguments corr {Req}.
Arguments client_id {Req}.

Definition i16 (z : Z) : Z := wrap_s 16 z.

Definition DecodeRequest `{Kmsg Req} (b : string) : result string (Decoded Req) :=
  if (slen b <? 10)%nat then Err "truncated Kafka header"
  else
    let key := i16 (be 2 b) in
    let version := i16 (be 2 (sdrop 2 b)) in
    let corr := i32 (be 4 (sdrop 4 b)) in
    let size := i16 (be 2 (sdrop 8 b)) in
    if negb (known_key key) then Err ("unknown Kafka API " +:+ show_Z key)
    else
      let b := sdrop 10 b in
      let? cb := (if 0 <=? size then
                    if Z.of_nat (slen b) <? size then Err "truncated client ID"
                    else Ok (stake (Z.to_nat size) b, sdrop (Z.to_nat size) b)
                  else Ok ("", b)) in
      let '(client, b) := cb : string * string in
      let? b := (if is_flexible key version then SkipTags b else Ok b) in
      match read_from key version b with
      | None => Err "request body"
      | Some req => Ok (mkDecoded req corr client)
      end.

(** ** Tagged fields *)

(** The encoding of a number, seven bits to a byte. *)
Fixpoint put_uvarint (fuel : nat) (z : Z) : string :=
  match fuel with
  | O => ""
  | S fuel =>
      if z <? 128 then String (byte_of z) ""
      else String (byte_of (z mod 128 + 128)) (put_uvarint fuel (z / 128))
  end.

(** A section of tagged fields: their number, then each field's tag, size and bytes. *)
Fixpoint put_tags (l : list (Z * string)) : string :=
  match l with
  | [] => ""
  | (tag, v) :: l => put_uvarint 5 tag +:+ put_uvarint 5 (Z.of_nat (slen v)) +:+ v +:+ put_tags l
  end.

Definition tag_section (l : list (Z * string)) : string :=
  put_uvarint 5 (Z.of_nat (length l)) +:+ put_tags l.

Lemma uvarint_put fuel : forall i x z r, (i + fuel <= 9)%nat -> 0 <= x < 2 ^ (7 * Z.of_nat i) ->
  0 <= z < 2 ^ (7 * Z.of_nat fuel) -> (0 < fuel)%nat ->
  uvarint i (7 * Z.of_nat i) x (put_uvarint fuel z +:+ r) = Some (x + z * 2 ^ (7 * Z.of_nat i), r).
Proof.
  induction fuel as [|fuel IH]; intros i x z r Hi Hx Hz Hf; [lia|]. cbn [put_uvarint].
  assert (P : 2 ^ (7 * Z.of_nat (S i)) = 128 * 2 ^ (7 * Z.of_nat i)).
  { replace (7 * Z.of_nat (S i)) with (7 + 7 * Z.of_nat i) by lia. rewrite Z.pow_add_r by lia. done. }
  assert (P' : 2 ^ (7 * Z.of_nat (S i)) <= 2 ^ 63) by (apply Z.pow_le_mono_r; lia).
  assert (Pi : 0 < 2 ^ (7 * Z.of_nat i)) by (apply Z.pow_pos_nonneg; lia).
  destruct (Z.ltb_spec z 128) as [Hz1|Hz1]; rewrite string_app_cons; cbn [uvarint];
    (destruct (Nat.eqb_spec i 10); [lia|]); rewrite bval_byte_of.
  - rewrite (wrap_u_small 8) by lia. rewrite (proj2 (Z.ltb_lt z 128)) by lia.
    destruct (Nat.eqb_spec i 9); [lia|]. cbn [andb].
    rewrite wrap_u_small by (rewrite Z.shiftl_mul_pow2 by lia; nia). by rewrite lor_shift by lia.
  - pose proof (Z.mod_pos_bound z 128 ltac:(lia)). rewrite (wrap_u_small 8) by lia.
    rewrite (proj2 (Z.ltb_ge _ 128)) by lia.
    assert (E : Z.land (z mod 128 + 128) 127 = z mod 128).
    { change 127 with (Z.ones 7). rewrite Z.land_ones by lia. change (2 ^ 7) with 128.
      rewrite <- (Z.mul_1_l 128) at 2. rewrite Z.mod_add, Z.mod_mod by lia. done. }
    rewrite E. rewrite wrap_u_small by (rewrite Z.shiftl_mul_pow2 by lia; nia). rewrite lor_shift by lia.
    replace (7 * Z.of_nat i + 7) with (7 * Z.of_nat (S i)) by lia. rewrite IH; [|lia|rewrite P; nia| |].
    + do 2 f_equal. rewrite P. pose proof (Z.div_mod z 128 ltac:(lia)). nia.
    + split; [apply Z.div_pos; lia|]. apply Z.div_lt_upper_bound; [lia|].
      replace (7 * Z.of_nat (S fuel)) with (7 + 7 * Z.of_nat fuel) in Hz by lia.
      rewrite Z.pow_add_r in Hz by lia. change (2 ^ 7) with 128 in Hz. lia.
    + destruct fuel; [|lia]. change (7 * Z.of_nat 1) with 7 in Hz. lia.
Qed.

Lemma Uvarint_put z r : 0 <= z < 2 ^ 35 -> Uvarint (put_uvarint 5 z +:+ r) = Some (z, r).
Proof.
  intros Hz. unfold Uvarint. pose proof (uvarint_put 5 0 0 z r ltac:(lia) ltac:(lia) ltac:(lia) ltac:(lia)) as H.
  change (7 * Z.of_nat 0) with 0 in H. rewrite H. do 2 f_equal. lia.
Qed.

Lemma slen_put_uvarint fuel z : (0 < fuel)%nat -> (1 <= slen (put_uvarint fuel z))%nat.
Proof. destruct fuel; [lia|]. intros _. cbn. destruct (z <? 128); cbn; lia. Qed.

Definition tag_ok (p : Z * string) : Prop := 0 <= p.1 < 2 ^ 35 /\ Z.of_nat (slen p.2) < 2 ^ 35.

Lemma skip_tags_put l : Forall tag_ok l -> forall fuel body, (length l <= fuel)%nat ->
  skip_tags fuel (Z.of_nat (length l)) (put_tags l +:+ body) = Ok body.
Proof.
  induction 1 as [|[tag v] l [Ht Hv] _ IH]; intros fuel body Hf.
  { by destruct fuel. }
  cbn [length] in *. destruct fuel as [|fuel]; [lia|]. cbn [skip_tags put_tags fst snd] in *.
  rewrite (proj2 (Z.leb_gt _ 0)) by lia. rewrite !string_app_assoc, Uvarint_put by lia.
  rewrite Uvarint_put by lia. rewrite slen_app, (proj2 (Z.ltb_ge _ _)) by lia.
  rewrite Nat2Z.id, sdrop_app. replace (Z.of_nat (S (length l)) - 1) with (Z.of_nat (length l)) by lia.
  apply IH. lia.
Qed.

Lemma length_put_tags l : (length l <= slen (put_tags l))%nat.
Proof.
  induction l as [|[tag v] l IH]; [done|]. cbn [length put_tags]. rewrite !slen_app.
  pose proof (slen_put_uvarint 5 tag). lia.
Qed.

(** A section of tagged fields is skipped to the byte, whatever the fields hold. *)
Lemma SkipTags_section l body : Forall tag_ok l -> Z.of_nat (length l) < 2 ^ 35 ->
  SkipTags (tag_section l +:+ body) = Ok body.
Proof.
  intros Hl Hn. unfold SkipTags, tag_section. rewrite string_app_assoc, Uvarint_put by lia.
  apply skip_tags_put; [done|]. pose proof (length_put_tags l). rewrite slen_app. lia.
Qed.

Lemma SkipTags_section_witness : SkipTags (tag_section [(0, "ab"); (300, "")] +:+ "body") = Ok "body".
Proof. apply (SkipTags_section [(0, "ab"); (300, "")] "body"); [repeat constructor; vm_compute; done|vm_compute; done]. Defined.

(** On any bytes, what is left after the tags is an end of them. *)
Lemma uvarint_suffix b : forall i shift x v r, uvarint i shift x b = Some (v, r) ->
  exists p, b = p +:+ r /\ (1 <= slen p)%nat.
Proof.
  induction b as [|c b IH]; intros i shift x v r; [done|]. cbn [uvarint].
  destruct (i =? 10)%nat; [done|]. destruct (bval c <? 128).
  - destruct (_ && _); [done|]. intros [= _ <-]. exists (String c ""). split; [done|]. cbn. lia.
  - intros (p & -> & Hp)%IH. exists (String c p). split; [done|]. cbn. lia.
Qed.

Lemma skip_tags_suffix fuel : forall count b r, skip_tags fuel count b = Ok r -> exists p, b = p +:+ r.
Proof.
  induction fuel as [|fuel IH]; intros count b r; cbn [skip_tags].
  { destruct (count <=? 0); [|done]. intros [= ->]. by exists "". }
  destruct (count <=? 0); [intros [= ->]; by exists ""|].
  destruct (Uvarint b) as [[v1 b1]|] eqn:E1; [|done]. destruct (Uvarint b1) as [[v2 b2]|] eqn:E2; [|done].
  destruct (_ <? v2); [done|]. intros [p Hp]%IH.
  apply uvarint_suffix in E1 as (p1 & -> & _). apply uvarint_suffix in E2 as (p2 & -> & _).
  exists (p1 +:+ p2 +:+ stake (Z.to_nat v2) b2 +:+ p). rewrite !string_app_assoc, <- Hp. by rewrite stake_sdrop.
Qed.

End KafkaWire.

Module KafkaProxy.
Import Rules Net Observe KafkaWire.

Definition kafkaAPIProduce : Z := 0.
Definition kafkaAPIFetch : Z := 1.

(** What the proxy asks of a decoded request and of a metadata response. *)
Class KafkaMessages (Req : Type) `{Kmsg Req} := {
  produce_acks : Req -> option Z;                       (* the acks of a ProduceRequest *)
  first_topic : Req -> option (string * string);        (* the first topic of a Produce or Fetch: name and id *)
  response_flexible : Req -> bool;
  metadata_topics : Req -> string -> option (list (string * option string)) }.

Section proxy.
Context {Req : Type} `{KafkaMessages Req}.

(** The identifier of no topic. *)
Definition zero_id : string := zeros 16.

Definition extractTopic (topicIDs : gmap string string) (payload : string) : string :=
  match DecodeRequest payload with
  | Err _ => ""
  | Ok d =>
      let '(name, id) := default ("", zero_id) (first_topic (request d)) in
      if negb (String.eqb name "") then name else default "" (topicIDs !! id)
  end.

Definition learnTopics (topicIDs : gmap string string) (req resp : string) : gmap string string :=
  if (slen req <? 2)%nat || negb (be 2 req =? 3) || (slen resp <? 4)%nat then topicIDs
  else
    match DecodeRequest req with
    | Err _ => topicIDs
    | Ok d =>
        let body := sdrop 4 resp in
        match (if response_flexible (request d) then SkipTags body else Ok body) with
        | Err _ => topicIDs
        | Ok body =>
            match metadata_topics (request d) body with
            | None => topicIDs
            | Some topics =>
                fold_left (fun ids '(id, name) => match name with Some n => <[id := n]> ids | None => ids end)
                  topics topicIDs
            end
        end
    end.

Definition kafka_event (t : connTracker) (action : string) (fs : list (string * string)) : ProxyEvent :=
  mkEvent "" "kafka" action (service t) (list_to_map fs).

Definition apiName (apiKey : Z) : string := if apiKey =? kafkaAPIFetch then "fetch" else "produce".

(** Handled, and duplicate. *)
Definition kafka_act (t : connTracker) (apiKey : Z) (topic : string) (r : Rule) : M (option (bool * bool)) :=
  match RuleAction r with
  | ActionDrop =>
      emit (onEvent t) (kafka_event t "drop" [("api", apiName apiKey); ("topic", topic)]) ;;
      mret (Some (true, false))
  | ActionDelay =>
      emit (onEvent t)
        (kafka_event t "delay" [("api", apiName apiKey); ("topic", topic); ("delay_ms", ms (Delay r))]) ;;
      mret (Some (false, false))
  | ActionError =>
      close Client ;;
      emit (onEvent t)
        (kafka_event t "error" [("api", apiName apiKey); ("topic", topic); ("error", ErrorMsg r)]) ;;
      mret (Some (true, false))
  | ActionDuplicate =>
      if negb (apiKey =? kafkaAPIProduce) then mret None
      else
        emit (onEvent t) (kafka_event t "duplicate" [("api", apiName apiKey); ("topic", topic)]) ;;
        mret (Some (false, true))
  | ActionRespond => mret None
  end.

Definition kafka_checkRules (t : connTracker) (rules : list Rule) (apiKey : Z) (topic : string) : M (bool * bool) :=
  o ← rule_loop (fun r => criterion topic (Topic r)) (kafka_act t apiKey topic) rules;
  mret (default (false, false) o).

Definition max_frame : Z := 10 * 1024 * 1024.

Definition bad_length (n : Z) : bool := (n <=? 0) || (max_frame <? n).

(** [io.CopyN(io.Discard, conn, n)]: a stream that ends early is an end of file. *)
Definition discard (n : nat) : M (result IOErr unit) :=
  r ← read_full Server n;
  mret (match r with Ok _ => Ok tt | Err UnexpectedEOF => Err EOF | Err e => Err e end).

(** The produce again, whose response is read and thrown away. *)
Definition forwardDuplicate (lenBuf payload : string) : M (result IOErr unit) :=
  e ← write Server lenBuf;
  match e with
  | Some e => mret (Err e)
  | None =>
      e ← write Server payload;
      match e with
      | Some e => mret (Err e)
      | None =>
          AddBytesC2S (slen payload) ;;
          and_then (read_full Server 4) (fun respLenBuf =>
            AddBytesS2C 4 ;;
            let respLen := be 4 respLenBuf in
            if bad_length respLen then mret (Err (ErrOther "duplicate response length out of range"))
            else
              and_then (discard (Z.to_nat respLen)) (fun _ =>
                AddBytesS2C (Z.to_nat respLen) ;; mret (Ok tt)))
      end
  end.

(** The verdict on a request: whether the rules look at it, and what they say. *)
Definition kafka_intercept (t : connTracker) (rules : list Rule) (topicIDs : gmap string string) (payload : string)
    : M (bool * bool) :=
  let apiKey := i16 (be 2 payload) in
  if (8 <=? slen payload)%nat && ((apiKey =? kafkaAPIProduce) || (apiKey =? kafkaAPIFetch)) then
    kafka_checkRules t rules apiKey (extractTopic topicIDs payload)
  else mret (false, false).

(** A produce that asks for no acknowledgement. *)
Definition no_response (payload : string) : bool :=
  match DecodeRequest payload with
  | Ok d => match produce_acks (request d) with Some acks => acks =? 0 | None => false end
  | Err _ => false
  end.

(** The state of the loop: the requests seen, and the topic names learnt so far. *)
Record KState := mkK { requestsSeen : Z; topicIDs : gmap string string }.

(** After the request was forwarded: its response, the duplicate, the first round trip. *)
Definition kafka_respond (t : connTracker) (k : KState) (lenBuf payload : string) (duplicate : bool) : M KState :=
  respLenBuf ← or_exit (because Server) (read_full Server 4);
  AddBytesS2C 4 ;;
  let respLen := be 4 respLenBuf in
  if bad_length respLen then exit "io_error"
  else
    make 1 respLen ;;
    resp ← or_exit (because Server) (read_full Server (Z.to_nat respLen));
    AddBytesS2C (Z.to_nat respLen) ;;
    let ids := learnTopics (topicIDs k) payload resp in
    write Client respLenBuf ;;
    write Client resp ;;
    (if duplicate then or_exit (because Server) (forwardDuplicate lenBuf payload) else mret tt) ;;
    let requestsSeen := i64 (requestsSeen k + 1) in
    (if requestsSeen =? 1 then EmitHandshakeComplete t "" 1 else mret tt) ;;
    mret (mkK requestsSeen ids).

Definition kafka_round (t : connTracker) (rules : list Rule) (k : KState) : M KState :=
  cancelled ← ctx_done;
  if cancelled : bool then exit "context_cancel"
  else
    lenBuf ← or_exit (because Client) (read_full Client 4);
    AddBytesC2S 4 ;;
    let msgLen := be 4 lenBuf in
    if bad_length msgLen then exit "io_error"
    else
      make 1 msgLen ;;
      payload ← or_exit (because Client) (read_full Client (Z.to_nat msgLen));
      AddBytesC2S (Z.to_nat msgLen) ;;
      hd ← kafka_intercept t rules (topicIDs k) payload;
      let '(handled, duplicate) := hd : bool * bool in
      if handled : bool then mret k
      else
        write_or_exit (because Server) Server lenBuf ;;
        write_or_exit (because Server) Server payload ;;
        if no_response payload then
          (if duplicate then write Server lenBuf ;; write Server payload ;; mret tt else mret tt) ;; mret k
        else kafka_respond t k lenBuf payload duplicate.

Definition kafka_handleConn (t : connTracker) (dialed : bool) (rules : list Rule) (ids : gmap string string)
    (fuel : nat) : M unit :=
  if negb dialed then close Client
  else
    EmitOpen t ;;
    deferred t (rounds fuel (kafka_round t rules) (mkK 0 ids) ;; mret tt).

(** ** Frames *)

Definition frame (payload : string) : string := put_be 4 (Z.of_nat (slen payload)) +:+ payload.
Definition frame_ok (payload : string) : Prop := 0 < Z.of_nat (slen payload) <= max_frame.

Lemma frame_length payload : frame_ok payload ->
  be 4 (put_be 4 (Z.of_nat (slen payload))) = Z.of_nat (slen payload) /\
  bad_length (Z.of_nat (slen payload)) = false.
Proof.
  unfold frame_ok, max_frame, bad_length. intros Hf. split.
  - rewrite <- (string_app_nil (put_be 4 _)). apply be_app. change (256 ^ Z.of_nat 4) with (2 ^ 32). lia.
  - rewrite (proj2 (Z.leb_gt _ 0)), (proj2 (Z.ltb_ge _ _)) by (unfold max_frame; lia). done.
Qed.

(** The rule that decides on a request, when no rule has a probability. *)
Definition kafka_terminal (apiKey : Z) (r : Rule) : bool :=
  match RuleAction r with
  | ActionDrop | ActionDelay | ActionError => true
  | ActionDuplicate => apiKey =? kafkaAPIProduce
  | ActionRespond => false
  end.

Definition kafka_verdict (rules : list Rule) (ids : gmap string string) (payload : string) : option Rule :=
  let apiKey := i16 (be 2 payload) in
  if (8 <=? slen payload)%nat && ((apiKey =? kafkaAPIProduce) || (apiKey =? kafkaAPIFetch)) then
    List.find (fun r => criterion (extractTopic ids payload) (Topic r) && kafka_terminal apiKey r) rules
  else None.

(** What the rules make of a request: lost, or forwarded once or twice. *)
Inductive Fate := Lost | Sent (twice : bool).

Definition kafka_fate (rules : list Rule) (ids : gmap string string) (payload : string) : option Fate :=
  match kafka_verdict rules ids payload with
  | None => Some (Sent false)
  | Some r =>
      match RuleAction r with
      | ActionDrop => Some Lost
      | ActionError => None
      | ActionDuplicate => Some (Sent true)
      | _ => Some (Sent false)
      end
  end.

Lemma kafka_intercept_fate t rules ids payload io f : Forall certain rules ->
  kafka_fate rules ids payload = Some f ->
  exists io1, quiet io io1 /\
    kafka_intercept t rules ids payload io =
    (Val (match f with Lost => (true, false) | Sent d => (false, d) end), io1).
Proof.
  intros Hc. unfold kafka_fate, kafka_verdict, kafka_intercept. cbv zeta.
  set (apiKey := i16 (be 2 payload)). set (topic := extractTopic ids payload).
  destruct (_ && _); [|intros [= <-]; by exists io]. unfold kafka_checkRules.
  destruct (rule_loop_settles (kafka_terminal apiKey) (fun r => criterion topic (Topic r)) (kafka_act t apiKey topic) rules)
    with (io := io) as (io1 & Q & E).
  - intros r. unfold kafka_terminal, kafka_act. destruct (RuleAction r); try done; intros Hr; [apply silent_ret|].
    rewrite Hr. apply silent_ret.
  - intros r io1 io2. unfold kafka_terminal, kafka_act. destruct (RuleAction r); try done. by intros ->.
  - rewrite settles_certain in E by done. unfold mbind at 1, M_bind at 1. rewrite E.
    destruct (List.find _ rules) as [r|] eqn:F; [|intros [= <-]; by exists io1].
    apply List.find_some in F as [_ F]. apply andb_true_iff in F as [_ F].
    unfold kafka_act, kafka_terminal in *.
    destruct (RuleAction r); try done; try (intros [= <-]; cbn; eexists; split; [|done];
      eapply quiet_trans; [exact Q|]; by destruct (onEvent t)).
    rewrite F. intros [= <-]. cbn. eexists; split; [|done]. eapply quiet_trans; [exact Q|]. by destruct (onEvent t).
Qed.

Lemma discard_ok n a r io : unread (server io) = a +:+ r -> slen a = n ->
  discard n io = (Val (Ok tt), set_unread Server r io).
Proof. intros Hu Hn. unfold discard. by erewrite bind_val by (by apply read_full_app). Qed.

(** The duplicate reaches the server, and its response goes nowhere. *)
Lemma forwardDuplicate_ok payload resp srest io : live io -> frame_ok payload -> frame_ok resp ->
  unread (server io) = frame resp +:+ srest ->
  exists io', forwardDuplicate (put_be 4 (Z.of_nat (slen payload))) payload io = (Val (Ok tt), io') /\
    moved io io' (unread (client io)) srest "" (frame payload).
Proof.
  intros Hl Hp Hr Hu. destruct (frame_length resp Hr) as [E1 E2]. unfold frame in Hu. rewrite string_app_assoc in Hu.
  unfold forwardDuplicate. erewrite bind_val by (by apply write_live). cbv iota.
  erewrite bind_val by (by apply write_live, wrote_live). cbv iota. rewrite wrote_wrote.
  erewrite bind_val by (unfold AddBytesC2S; done).
  erewrite and_then_ok by (apply (read_full_app Server 4 (put_be 4 (Z.of_nat (slen resp)))); [exact Hu|apply slen_put_be]).
  erewrite bind_val by (unfold AddBytesS2C; done). cbv zeta. rewrite E1, E2.
  erewrite and_then_ok by (apply (discard_ok _ resp srest); [by destruct io|lia]).
  erewrite bind_val by (unfold AddBytesS2C; done). eexists. split; [done|].
  pose proof Hl as [[] [] ?]. destruct io. split; cbn; try done. by rewrite string_app_nil.
Qed.

(** The response of a request that has one, and the duplicate after it. *)
Lemma kafka_respond_ok t k payload (dup : bool) resp resp2 srest io :
  live io -> frame_ok payload -> frame_ok resp -> frame_ok resp2 ->
  unread (server io) = frame resp +:+ (if dup then frame resp2 else "") +:+ srest ->
  exists io', kafka_respond t k (put_be 4 (Z.of_nat (slen payload))) payload dup io =
      (Val (mkK (i64 (requestsSeen k + 1)) (learnTopics (topicIDs k) payload resp)), io') /\
    moved io io' (unread (client io)) srest (frame resp) (if dup then frame payload else "").
Proof.
  intros Hl Hp Hr Hr2 Hu. destruct (frame_length resp Hr) as [E1 E2]. unfold frame in Hu at 1.
  rewrite string_app_assoc in Hu. unfold kafka_respond.
  erewrite bind_val by (apply or_exit_ok, (read_full_app Server 4 (put_be 4 (Z.of_nat (slen resp))));
    [exact Hu|apply slen_put_be]).
  erewrite bind_val by (unfold AddBytesS2C; done). cbv zeta. rewrite E1, E2.
  assert (Hm : Z.of_nat (slen resp) <= max_frame) by apply Hr. unfold max_frame in Hm.
  erewrite bind_val by (apply make_ok; unfold max_alloc; lia).
  erewrite bind_val by (apply or_exit_ok, (read_full_app Server _ resp ((if dup then frame resp2 else "") +:+ srest));
    [by destruct io|lia]).
  erewrite bind_val by (unfold AddBytesS2C; done). pose proof Hl as [[] [] ?].
  erewrite bind_val by (apply write_live; by split).
  erewrite bind_val by (apply write_live, wrote_live; by split). rewrite wrote_wrote.
  set (io1 := wrote Client _ _).
  assert (M1 : moved io io1 (unread (client io)) ((if dup then frame resp2 else "") +:+ srest) (frame resp) "")
    by (unfold io1; destruct io; split; cbn; rewrite ?string_app_nil; done).
  assert (D : exists io2, (if dup then or_exit (because Server) (forwardDuplicate (put_be 4 (Z.of_nat (slen payload))) payload)
      else mret tt) io1 = (Val tt, io2) /\
    moved io io2 (unread (client io)) srest (frame resp) (if dup then frame payload else "")).
  { destruct dup; [|by exists io1].
    destruct (forwardDuplicate_ok payload resp2 srest io1 (mv_live _ _ _ _ _ _ M1) Hp Hr2) as (io2 & E & M2).
    { by rewrite (mv_server _ _ _ _ _ _ M1). }
    exists io2. split; [by apply or_exit_ok|]. rewrite (mv_client _ _ _ _ _ _ M1) in M2.
    pose proof (moved_trans _ _ _ _ _ _ _ _ _ _ _ M1 M2) as M. by rewrite string_app_nil in M. }
  destruct D as (io2 & E3 & M2). erewrite bind_val by exact E3.
  assert (S : silent tt (if i64 (requestsSeen k + 1) =? 1 then EmitHandshakeComplete t "" 1 else mret tt)).
  { destruct (_ =? 1); [apply silent_EmitHandshakeComplete|apply silent_ret]. }
  destruct (S io2) as (io3 & E4 & Q & _). erewrite bind_val by exact E4. exists io3. split; [done|].
  by eapply moved_quiet.
Qed.

(** A round reads one request. *)
Lemma kafka_round_reads t rules k payload rest io : live io -> frame_ok payload ->
  unread (client io) = frame payload +:+ rest ->
  exists io1, moved io io1 rest (unread (server io)) "" "" /\
    kafka_round t rules k io =
    (hd ← kafka_intercept t rules (topicIDs k) payload;
     let '(handled, duplicate) := hd : bool * bool in
     if handled : bool then mret k
     else
       write_or_exit (because Server) Server (put_be 4 (Z.of_nat (slen payload))) ;;
       write_or_exit (because Server) Server payload ;;
       if no_response payload then
         (if duplicate then write Server (put_be 4 (Z.of_nat (slen payload))) ;; write Server payload ;; mret tt
          else mret tt) ;; mret k
       else kafka_respond t k (put_be 4 (Z.of_nat (slen payload))) payload duplicate) io1.
Proof.
  intros Hl Hp Hu. destruct (frame_length payload Hp) as [E1 E2]. pose proof Hl as [[H1 H2] [H3 H4] H5].
  unfold frame in Hu. rewrite string_app_assoc in Hu.
  unfold kafka_round. erewrite bind_val by done. rewrite H5. cbv iota beta.
  erewrite bind_val by (apply or_exit_ok, (read_full_app Client 4 (put_be 4 (Z.of_nat (slen payload))));
    [exact Hu|apply slen_put_be]).
  erewrite bind_val by (unfold AddBytesC2S; done). cbv zeta. rewrite E1, E2.
  assert (Hm : Z.of_nat (slen payload) <= max_frame) by apply Hp. unfold max_frame in Hm.
  erewrite bind_val by (apply make_ok; unfold max_alloc; lia).
  erewrite bind_val by (apply or_exit_ok, (read_full_app Client _ payload rest); [by destruct io|lia]).
  erewrite bind_val by (unfold AddBytesC2S; done).
  eexists. split; [|done]. destruct io. split; cbn; try done; by rewrite string_app_nil.
Qed.

(** Whether a request is answered, and how often it is sent, decide the four streams: a lost request
    moves nothing; one that is sent twice reaches the server twice and is answered to the client
    once; one that asks for no acknowledgement takes nothing from the server's stream. *)
Theorem kafka_request_fate (t : connTracker) (rules : list Rule) (k : KState) (payload rest : string)
    (f : Fate) (resp resp2 srest : string) (io : IO) :
  live io -> Forall certain rules -> frame_ok payload -> frame_ok resp -> frame_ok resp2 ->
  kafka_fate rules (topicIDs k) payload = Some f ->
  unread (client io) = frame payload +:+ rest ->
  unread (server io) =
    match f with
    | Lost => srest
    | Sent dup => if no_response payload then srest
                  else frame resp +:+ (if dup then frame resp2 else "") +:+ srest
    end ->
  exists k' io', kafka_round t rules k io = (Val k', io') /\
    moved io io' rest srest
      (match f with Lost => "" | Sent _ => if no_response payload then "" else frame resp end)
      (match f with Lost => "" | Sent dup => frame payload +:+ (if dup then frame payload else "") end).
Proof.
  intros Hl Hc Hp Hr Hr2 Hf Hu Hs. destruct (kafka_round_reads t rules k payload rest io Hl Hp Hu) as (io1 & M1 & ->).
  destruct (kafka_intercept_fate t rules (topicIDs k) payload io1 f Hc Hf) as (io2 & Q2 & E2).
  erewrite bind_val by exact E2. pose proof (moved_quiet _ _ _ _ _ _ _ M1 Q2) as M2.
  rewrite Hs in M2. destruct f as [|dup]; cbv iota beta; [by exists k, io2|].
  pose proof (mv_live _ _ _ _ _ _ M2) as L2.
  erewrite bind_val by (by apply write_or_exit_live).
  erewrite bind_val by (by apply write_or_exit_live, wrote_live). rewrite wrote_wrote. fold (frame payload).
  pose proof (moved_trans _ _ _ _ _ _ _ _ _ _ _ M2 (moved_wrote_server io2 (frame payload) L2)) as M3.
  rewrite (mv_client _ _ _ _ _ _ M2), (mv_server _ _ _ _ _ _ M2) in M3. pose proof (mv_live _ _ _ _ _ _ M3) as L3.
  destruct (no_response payload).
  - destruct dup.
    + eexists k, _. split.
      * erewrite bind_val; [done|]. erewrite bind_val by (by apply write_live).
        erewrite bind_val by (by apply write_live, wrote_live). by rewrite wrote_wrote.
      * fold (frame payload). pose proof (moved_trans _ _ _ _ _ _ _ _ _ _ _ M3 (moved_wrote_server _ (frame payload) L3)) as M4.
        rewrite (mv_client _ _ _ _ _ _ M3), (mv_server _ _ _ _ _ _ M3) in M4. exact M4.
    + eexists k, _. split; [done|]. by rewrite string_app_nil.
  - destruct (kafka_respond_ok t k payload dup resp resp2 srest _ L3 Hp Hr Hr2 (mv_server _ _ _ _ _ _ M3)) as (io4 & E4 & M4).
    rewrite E4. eexists _, io4. split; [done|]. rewrite (mv_client _ _ _ _ _ _ M3) in M4.
    exact (moved_trans _ _ _ _ _ _ _ _ _ _ _ M3 M4).
Qed.

End proxy.

(** A message package for the example: the body of every request is the name of its topic. *)
Definition named_body : Kmsg string := {|
  known_key k := (0 <=? k) && (k <=? 3); is_flexible _ _ := false; read_from _ _ b := Some b |}.
Definition named_topics : KafkaMessages (H := named_body) string := {|
  produce_acks _ := Some 1; first_topic b := Some (b, zero_id); response_flexible _ := false;
  metadata_topics _ _ := None |}.

Lemma kafka_request_fate_witness :
  let t := mkTracker "id" true "broker" "main" "kafka" "" "" in
  let rules := [mkRule "" "" "" "" "orders" "" ActionDuplicate 0 "" "" 0 f64_0] in
  let payload := put_be 2 0 +:+ put_be 2 0 +:+ put_be 4 7 +:+ put_be 2 65535 +:+ "orders" in
  let io := on_wire (frame payload) (frame "ack1" +:+ frame "ack2") 0 in
  exists k' io', kafka_round (H0 := named_topics) t rules (mkK 0 ∅) io = (Val k', io') /\
    moved io io' "" "" (frame "ack1") (frame payload +:+ frame payload).
Proof.
  intros t rules payload io.
  apply (kafka_request_fate (H0 := named_topics) t rules (mkK 0 ∅) payload "" (Sent true) "ack1" "ack2" "" io).
  - apply on_wire_live.
  - repeat constructor.
  - vm_compute. done.
  - vm_compute. done.
  - vm_compute. done.
  - vm_compute. done.
  - by rewrite string_app_nil.
  - vm_compute. done.
Defined.

End KafkaProxy.
