(* ===== verification/AmqpProxy.v ===== *)
(** * The AMQP proxy ([internal/proxy/amqp.go])

    The protocol header, then a relay of frames in each direction.  The rules look
    at the method frames of Basic.Publish only; the content of a message follows
    in frames of its own. *)

From Stdlib Require Import ZArith Lia Ascii.
From S2P Require Import Prelude GoStd GoText ProxyCore.
From stdpp Require Import base gmap strings numbers list.
Local Open Scope Z_scope.
Import GoStd GoText.

Module AmqpProxy.
Import Rules Net Observe.

Definition amqpFrameMethod : Z := 1.
Definition amqpClassBasic : Z := 60.
Definition amqpMethodPublish : Z := 40.

(** A short string at the front of the data: its bytes and the rest. *)
Definition shortstr (data : string) : option (string * string) :=
  match data with
  | EmptyString => None
  | String n rest =>
      if Z.of_nat (slen rest) <? bval n then None
      else Some (stake (Z.to_nat (bval n)) rest, sdrop (Z.to_nat (bval n)) rest)
  end.

Definition parseBasicPublish (data : string) : string * string :=
  if (slen data <? 3)%nat then ("", "")
  else
    match shortstr (sdrop 2 data) with
    | None => ("", "")
    | Some (exchange, rest) =>
        match shortstr rest with
        | None => (exchange, "")
        | Some (routingKey, _) => (exchange, routingKey)
        end
    end.

Definition amqp_event (t : connTracker) (action : string) (fs : list (string * string)) : ProxyEvent :=
  mkEvent "" "amqp" action (service t) (list_to_map fs).

Definition amqp_act (t : connTracker) (src : Side) (direction exchange routingKey : string) (r : Rule)
    : M (option bool) :=
  match RuleAction r with
  | ActionDrop =>
      emit (onEvent t)
        (amqp_event t "drop" [("exchange", exchange); ("routing_key", routingKey); ("direction", direction)]) ;;
      mret (Some true)
  | ActionDelay =>
      emit (onEvent t)
        (amqp_event t "delay" [("exchange", exchange); ("routing_key", routingKey); ("delay_ms", ms (Delay r))]) ;;
      mret (Some false)
  | ActionError =>
      close src ;;
      emit (onEvent t)
        (amqp_event t "error" [("exchange", exchange); ("routing_key", routingKey); ("error", ErrorMsg r)]) ;;
      mret (Some true)
  | ActionRespond | ActionDuplicate => mret None
  end.

(** The topic is the routing key or, without one, the exchange. *)
Definition amqp_topic (exchange routingKey : string) : string :=
  if String.eqb routingKey "" then exchange else routingKey.

Definition amqp_checkRules (t : connTracker) (rules : list Rule) (src : Side)
    (direction exchange routingKey : string) : M bool :=
  o ← rule_loop (fun r => criterion (amqp_topic exchange routingKey) (Topic r))
        (amqp_act t src direction exchange routingKey) rules;
  mret (default false o).

(** The exchange and routing key of a Basic.Publish method frame. *)
Definition publish_of (frameType frameSize : Z) (payload : string) : option (string * string) :=
  if (frameType =? amqpFrameMethod) && (4 <=? frameSize) then
    if (be 2 payload =? amqpClassBasic) && (be 2 (sdrop 2 payload) =? amqpMethodPublish) then
      Some (parseBasicPublish (sdrop 4 payload))
    else None
  else None.

Definition amqp_end {A} (e : IOErr) : M A := exit (because Client e).

(** One frame of a direction; an error of either side ends the handler as the client's. *)
Definition forward_frame (t : connTracker) (rules : list Rule) (src : Side) (direction : string)
    (addBytes : nat -> M unit) (u : unit) : M unit :=
  cancelled ← ctx_done;
  if cancelled : bool then amqp_end (ErrOther "context canceled")
  else
    frameHeader ← or_exit (because Client) (read_full src 7);
    addBytes 7%nat ;;
    let frameType := match sget 0 frameHeader with Some c => bval c | None => 0 end in
    let frameSize := be 4 (sdrop 3 frameHeader) in
    make 1 (frameSize + 1) ;;
    payload ← or_exit (because Client) (read_full src (Z.to_nat (frameSize + 1)));
    addBytes (slen payload) ;;
    handled ← match publish_of frameType frameSize payload with
              | Some (exchange, routingKey) => amqp_checkRules t rules src direction exchange routingKey
              | None => mret false
              end;
    if handled : bool then mret tt
    else
      write_or_exit (because Client) (other src) frameHeader ;;
      write_or_exit (because Client) (other src) payload.

Definition amqp_direction (src : Side) : string := match src with Server => "deliver" | Client => "publish" end.
Definition amqp_count (src : Side) : nat -> M unit := match src with Server => AddBytesS2C | Client => AddBytesC2S end.

Definition forwardFrames (t : connTracker) (rules : list Rule) (src : Side) (fuel : nat) : M unit :=
  rounds fuel (forward_frame t rules src (amqp_direction src) (amqp_count src)) tt.

(** The protocol header goes to the server before the frames. *)
Definition amqp_handshake (t : connTracker) : M unit :=
  protoHeader ← or_exit (because Client) (read_full Client 8);
  AddBytesC2S 8 ;;
  write_or_exit (because Server) Server protoHeader ;;
  EmitHandshakeComplete t "amqp_proto_header" 1.

(** The two goroutines take turns. *)
Fixpoint amqp_turns (t : connTracker) (rules : list Rule) (turns : list Side) : M unit :=
  match turns with
  | [] => mret tt
  | src :: turns =>
      forward_frame t rules src (amqp_direction src) (amqp_count src) tt ;; amqp_turns t rules turns
  end.

Definition amqp_handleConn (t : connTracker) (dialed : bool) (rules : list Rule) (turns : list Side) : M unit :=
  if negb dialed then close Client
  else EmitOpen t ;; deferred t (amqp_handshake t ;; amqp_turns t rules turns).

(** ** What a direction does with a stream of frames *)

(** A frame: its type, channel, content and end octet. *)
Record Frame := mkFrame { f_type : ascii; f_channel : string; f_content : string; f_end : ascii }.

Definition frame_head (f : Frame) : string :=
  String (f_type f) (f_channel f +:+ put_be 4 (Z.of_nat (slen (f_content f)))).
Definition frame_tail (f : Frame) : string := f_content f +:+ String (f_end f) "".
Definition frame_encode (f : Frame) : string := frame_head f +:+ frame_tail f.
Fixpoint frames_encode (l : list Frame) : string :=
  match l with [] => "" | f :: l => frame_encode f +:+ frames_encode l end.

Definition frame_ok (f : Frame) : Prop := slen (f_channel f) = 2%nat /\ Z.of_nat (slen (f_content f)) < 2 ^ 32.

Definition amqp_terminal (r : Rule) : bool :=
  match RuleAction r with ActionDrop | ActionDelay | ActionError => true | _ => false end.

(** The rule that decides on a frame, when no rule has a probability. *)
Definition amqp_verdict (rules : list Rule) (f : Frame) : option Rule :=
  match publish_of (bval (f_type f)) (Z.of_nat (slen (f_content f))) (frame_tail f) with
  | Some (exchange, routingKey) =>
      List.find (fun r => criterion (amqp_topic exchange routingKey) (Topic r) && amqp_terminal r) rules
  | None => None
  end.

Definition frame_dropped (rules : list Rule) (f : Frame) : bool :=
  match amqp_verdict rules f with Some r => bool_decide (RuleAction r = ActionDrop) | None => false end.

(** No error rule decides on the frame. *)
Definition no_error (rules : list Rule) (f : Frame) : Prop :=
  match amqp_verdict rules f with Some r => RuleAction r <> ActionError | None => True end.

Lemma frame_head_facts f : frame_ok f ->
  slen (frame_head f) = 7%nat /\ sget 0 (frame_head f) = Some (f_type f) /\
  be 4 (sdrop 3 (frame_head f)) = Z.of_nat (slen (f_content f)).
Proof.
  intros [Hc Hn]. unfold frame_head. cbn [slen sget]. rewrite slen_app, slen_put_be, Hc.
  split_and!; [done..|].
  change (sdrop 3 (String (f_type f) (f_channel f +:+ put_be 4 (Z.of_nat (slen (f_content f))))))
    with (sdrop 2 (f_channel f +:+ put_be 4 (Z.of_nat (slen (f_content f))))).
  rewrite sdrop_app_n by done.
  rewrite <- (string_app_nil (put_be 4 _)). apply be_app. change (256 ^ Z.of_nat 4) with (2 ^ 32). lia.
Qed.

Lemma amqp_count_silent src n : silent tt (amqp_count src n).
Proof. destruct src; intros io; eexists; by split. Qed.

Lemma amqp_intercept t rules src f io : Forall certain rules -> no_error rules f ->
  exists io1, quiet io io1 /\
    (match publish_of (bval (f_type f)) (Z.of_nat (slen (f_content f))) (frame_tail f) with
     | Some (exchange, routingKey) => amqp_checkRules t rules src (amqp_direction src) exchange routingKey
     | None => mret false
     end) io = (Val (frame_dropped rules f), io1).
Proof.
  intros Hc. unfold no_error, frame_dropped, amqp_verdict.
  destruct (publish_of _ _ _) as [[exchange routingKey]|]; [|by exists io]. unfold amqp_checkRules.
  destruct (check_settles false amqp_terminal (fun r => criterion (amqp_topic exchange routingKey) (Topic r))
    (amqp_act t src (amqp_direction src) exchange routingKey) rules io) as (io1 & Q & E); [| |done|].
  - intros r. unfold amqp_terminal, amqp_act. destruct (RuleAction r); try done; intros _; apply silent_ret.
  - intros r io1 io2. unfold amqp_terminal, amqp_act. by destruct (RuleAction r).
  - rewrite E. destruct (List.find _ rules) as [r|] eqn:F; [|by exists io1].
    apply List.find_some in F as [_ F]. apply andb_true_iff in F as [_ F]. unfold amqp_terminal, amqp_act in *.
    destruct (RuleAction r); try done; intros _; cbn; (eexists; split; [|done]);
      (eapply quiet_trans; [exact Q|]; by destruct (onEvent t)).
Qed.

Lemma forward_frame_ok t rules src f rest io : live io -> Forall certain rules -> frame_ok f -> no_error rules f ->
  unread (conn src io) = frame_encode f +:+ rest ->
  exists io', forward_frame t rules src (amqp_direction src) (amqp_count src) tt io = (Val tt, io') /\
    passed src io io' rest (if frame_dropped rules f then "" else frame_encode f).
Proof.
  intros Hl Hc Hf He Hu. destruct (frame_head_facts f Hf) as (F1 & F2 & F3). destruct Hf as [Hch Hn].
  unfold forward_frame. erewrite bind_val by done. rewrite (live_ctx io Hl). cbv iota beta.
  set (io0 := mkIO _ _ _ _ _ _ _ _ _ _ _ _ _).
  assert (Q0 : quiet io io0) by done.
  assert (P0 : passed src io io0 (unread (conn src io)) "").
  { eapply passed_quiet; [|exact Q0]. pose proof (passed_read src io (unread (conn src io)) Hl) as P.
    by rewrite set_unread_same in P. }
  unfold frame_encode in Hu. rewrite string_app_assoc in Hu.
  erewrite bind_val by (apply or_exit_ok, (read_full_app src 7 (frame_head f)); [by destruct src|done]).
  pose proof (passed_more _ _ _ _ (frame_tail f +:+ rest) _ P0) as P1.
  destruct (amqp_count_silent src 7 (set_unread src (frame_tail f +:+ rest) io0)) as (io1 & E1 & Q1 & _).
  erewrite bind_val by exact E1. cbv zeta. rewrite F2, F3. pose proof (passed_quiet _ _ _ _ _ _ P1 Q1) as P2.
  erewrite bind_val by (apply make_ok; unfold max_alloc; lia).
  erewrite bind_val by (apply or_exit_ok, (read_full_app src _ (frame_tail f) rest);
    [by apply (passed_rest _ _ _ _ _ P2)|unfold frame_tail; rewrite slen_app; cbn; lia]).
  pose proof (passed_more _ _ _ _ rest _ P2) as P3.
  destruct (amqp_count_silent src (slen (frame_tail f)) (set_unread src rest io1)) as (io2 & E2 & Q2 & _).
  erewrite bind_val by exact E2. pose proof (passed_quiet _ _ _ _ _ _ P3 Q2) as P4.
  destruct (amqp_intercept t rules src f io2 Hc He) as (io3 & Q3 & E3). erewrite bind_val by exact E3.
  pose proof (passed_quiet _ _ _ _ _ _ P4 Q3) as P5. pose proof (passed_live _ _ _ _ _ P5) as L5.
  destruct (frame_dropped rules f); [by exists io3|].
  erewrite bind_val by (by apply write_or_exit_live). rewrite write_or_exit_live by (by apply wrote_live).
  rewrite wrote_wrote. eexists. split; [done|]. exact (passed_wrote _ _ _ _ _ (frame_encode f) P5).
Qed.

(** A direction passes on every frame but the Basic.Publish frames that a drop rule decides. *)
Lemma frames_survive t rules src l : Forall certain rules -> Forall (fun f => frame_ok f /\ no_error rules f) l ->
  forall io rest, live io -> unread (conn src io) = frames_encode l +:+ rest ->
  exists io', forwardFrames t rules src (length l) io = (Val tt, io') /\
    passed src io io' rest (frames_encode (List.filter (fun f => negb (frame_dropped rules f)) l)).
Proof.
  intros Hc. unfold forwardFrames. induction 1 as [|f l [Hf He] _ IH]; intros io rest Hl Hu.
  { exists io. split; [done|]. change (unread (conn src io) = rest) in Hu.
    pose proof (passed_read src io rest Hl) as P. rewrite <- Hu in P at 1. by rewrite set_unread_same in P. }
  cbn [frames_encode] in Hu. rewrite string_app_assoc in Hu. cbn [length rounds].
  destruct (forward_frame_ok t rules src f _ io Hl Hc Hf He Hu) as (io1 & E1 & P1).
  erewrite bind_val by exact E1.
  destruct (IH io1 rest (passed_live _ _ _ _ _ P1) (passed_rest _ _ _ _ _ P1)) as (io2 & E2 & P2).
  exists io2. split; [done|]. pose proof (passed_trans _ _ _ _ _ _ _ _ P1 P2) as P.
  cbn [List.filter]. by destruct (frame_dropped rules f).
Qed.

(** A dropped publish leaves its content behind: the method frame does not reach the server, the
    frames that carry the message's header and body do. *)
Theorem amqp_drop_orphans_content (t : connTracker) (rules : list Rule) (publish : Frame) (content : list Frame)
    (io : IO) (rest : string) :
  live io -> Forall certain rules -> Forall frame_ok (publish :: content) ->
  frame_dropped rules publish = true -> Forall (fun f => f_type f <> byte_of amqpFrameMethod) content ->
  unread (client io) = frames_encode (publish :: content) +:+ rest ->
  exists io', forwardFrames t rules Client (length (publish :: content)) io = (Val tt, io') /\
    moved io io' rest (unread (server io)) "" (frames_encode content).
Proof.
  intros Hl Hc Hok Hd Ht Hu. apply Forall_cons in Hok as [Hp Hcs].
  assert (Hn : Forall (fun f => amqp_verdict rules f = None) content).
  { eapply Forall_impl; [exact Ht|]. intros f Hf. unfold amqp_verdict, publish_of.
    destruct (Z.eqb_spec (bval (f_type f)) amqpFrameMethod) as [E|]; [|done].
    destruct Hf. rewrite <- (byte_of_bval (f_type f)), E. done. }
  destruct (frames_survive t rules Client (publish :: content) Hc) with (io := io) (rest := rest) as (io' & E & P); [|done..|].
  - constructor.
    + split; [done|]. unfold no_error, frame_dropped in *. destruct (amqp_verdict rules publish) as [r|]; [|done].
      apply bool_decide_eq_true in Hd. by rewrite Hd.
    + apply Forall_forall. intros f Hf. rewrite Forall_forall in Hcs, Hn. split; [by apply Hcs|].
      unfold no_error. by rewrite Hn.
  - exists io'. split; [done|]. cbn [List.filter] in P. rewrite Hd in P. cbn [negb] in P.
    replace (List.filter (fun f => negb (frame_dropped rules f)) content) with content in P; [done|].
    clear - Hn. induction Hn as [|f l Hf _ IH]; [done|]. cbn. unfold frame_dropped at 1. rewrite Hf. cbn. by rewrite <- IH.
Qed.

Lemma amqp_drop_orphans_content_witness :
  let t := mkTracker "id" true "bus" "main" "amqp" "" "" in
  let rules := [mkRule "" "" "" "" "orders" "" ActionDrop 0 "" "" 0 f64_0] in
  let chan := put_be 2 1 in
  let publish := mkFrame (byte_of 1) chan (put_be 2 60 +:+ put_be 2 40 +:+ zeros 3 +:+ String (byte_of 6) "orders" +:+ zeros 1) (byte_of 206) in
  let content := [mkFrame (byte_of 2) chan (zeros 14) (byte_of 206); mkFrame (byte_of 3) chan "payload" (byte_of 206)] in
  let io := on_wire (frames_encode (publish :: content)) "" 0 in
  exists io', forwardFrames t rules Client 3 io = (Val tt, io') /\ moved io io' "" "" "" (frames_encode content).
Proof.
  intros t rules chan publish content io. apply (amqp_drop_orphans_content t rules publish content io "").
  - apply on_wire_live.
  - repeat constructor.
  - repeat constructor; vm_compute; done.
  - vm_compute. done.
  - repeat constructor; vm_compute; done.
  - by rewrite string_app_nil.
Defined.

(** The rules never see a delivery: a frame that is no Basic.Publish passes, whatever the rules. *)
Lemma deliver_not_matched rules f : be 2 (sdrop 2 (frame_tail f)) <> amqpMethodPublish -> frame_dropped rules f = false.
Proof.
  intros H. unfold frame_dropped, amqp_verdict, publish_of. destruct (_ && _); [|done].
  rewrite (proj2 (Z.eqb_neq _ _) H). by rewrite andb_false_r.
Qed.

End AmqpProxy.
