(* ===== verification/MongoProxy.v ===== *)
(** * The MongoDB proxy ([internal/proxy/mongodb.go])

    Messages with a sixteen-byte header, the command and collection of an OP_MSG,
    the rules, and the response.  The encoder of the injected error document is a
    third-party package, a parameter here. *)

From Stdlib Require Import ZArith Lia Ascii.
From S2P Require Import Prelude GoStd GoText ProxyCore.
From stdpp Require Import base gmap strings numbers list.
Local Open Scope Z_scope.
Import GoStd GoText.

Module MongoProxy.
Import Rules Net Observe.

Definition opMsgCode : Z := 2013.

(** The value of a string element: [None] is the panic of a slice that ends before it starts. *)
Definition string_value (cmd val : string) : option (string * string) :=
  if (slen val <? 4)%nat then Some (cmd, "")
  else
    let strLen := le 4 val in
    let val := sdrop 4 val in
    if Z.of_nat (slen val) <? strLen then Some (cmd, "")
    else if strLen =? 0 then None
    else Some (cmd, stake (Z.to_nat (strLen - 1)) val).

Definition parseOPMSG (body : string) : option (string * string) :=
  if (slen body <? 5)%nat then Some ("", "")
  else if negb (Ascii.eqb (default NUL (sget 4 body)) NUL) then Some ("", "")
  else if (slen body <? 9)%nat then Some ("", "")
  else
    let bsonLen := le 4 (sdrop 5 body) in
    if Z.of_nat (slen body) <? 5 + bsonLen then Some ("", "")
    else
      let bsonDoc := stake (Z.to_nat bsonLen) (sdrop 5 body) in
      if (slen bsonDoc <=? 4)%nat then Some ("", "")
      else
        let elemType := default NUL (sget 4 bsonDoc) in
        match cut_nul (sdrop 5 bsonDoc) with
        | (_, None) => Some ("", "")
        | (cmd, Some val) =>
            if bval elemType =? 2 then string_value cmd val else Some (cmd, "")
        end.

Definition mongo_event (t : connTracker) (action : string) (fs : list (string * string)) : ProxyEvent :=
  mkEvent "" "mongodb" action (service t) (list_to_map fs).

Definition mongo_matches (cmd collection : string) (r : Rule) : bool :=
  criterion cmd (Method r) && criterion collection (Key r).

Section proxy.
(** [bson.Marshal] of the error document with a message. *)
Context (marshal_error : string -> option string).

Definition mongo_error_frame (requestID : Z) (bsonData : string) : string * string :=
  let msgBody := zeros 4 +:+ String NUL bsonData in
  (put_le 4 (u32 (16 + Z.of_nat (slen msgBody))) +:+ put_le 4 (u32 (requestID + 1)) +:+ put_le 4 requestID +:+
   put_le 4 opMsgCode, msgBody).

Definition sendMongoError (requestID : Z) (errMsg : string) : M unit :=
  match marshal_error errMsg with
  | None => mret tt
  | Some bsonData =>
      let '(header, msgBody) := mongo_error_frame requestID bsonData in
      write Client header ;; write Client msgBody ;; mret tt
  end.

Definition mongo_error_text (r : Rule) : string :=
  if String.eqb (ErrorMsg r) "" then "injected fault" else ErrorMsg r.

Definition mongo_act (t : connTracker) (requestID : Z) (cmd collection : string) (r : Rule) : M (option bool) :=
  match RuleAction r with
  | ActionError =>
      let errMsg := mongo_error_text r in
      sendMongoError requestID errMsg ;;
      emit (onEvent t) (mongo_event t "error" [("command", cmd); ("collection", collection); ("error", errMsg)]) ;;
      mret (Some true)
  | ActionDelay =>
      emit (onEvent t)
        (mongo_event t "delay" [("command", cmd); ("collection", collection); ("delay_ms", ms (Delay r))]) ;;
      mret (Some false)
  | ActionDrop => close Client ;; mret (Some true)
  | ActionRespond | ActionDuplicate => mret None
  end.

Definition mongo_checkRules (t : connTracker) (rules : list Rule) (requestID : Z) (cmd collection : string) : M bool :=
  o ← rule_loop (mongo_matches cmd collection) (mongo_act t requestID cmd collection) rules;
  mret (default false o).

(** Whether a rule handles the message. *)
Definition mongo_intercept (t : connTracker) (rules : list Rule) (requestID opCode : Z) (body : string) : M bool :=
  if opCode =? opMsgCode then
    match parseOPMSG body with
    | None => panic
    | Some (cmd, collection) =>
        if String.eqb cmd "" then mret false else mongo_checkRules t rules requestID cmd collection
    end
  else mret false.

(** The response: a length below the header's panics in [make]. *)
Definition mongo_respond (t : connTracker) (requestsSeen : Z) : M Z :=
  respHeader ← or_exit (because Server) (read_full Server 16);
  AddBytesS2C 16 ;;
  let respLen := le 4 respHeader in
  make 1 (respLen - 16) ;;
  respBody ← (if 0 <? respLen - 16 then
                b ← or_exit (because Server) (read_full Server (Z.to_nat (respLen - 16)));
                AddBytesS2C (slen b) ;; mret b
              else mret "");
  write Client respHeader ;;
  write Client respBody ;;
  let requestsSeen := i64 (requestsSeen + 1) in
  (if requestsSeen =? 1 then EmitHandshakeComplete t "" 1 else mret tt) ;;
  mret requestsSeen.

Definition mongo_round (t : connTracker) (rules : list Rule) (requestsSeen : Z) : M Z :=
  cancelled ← ctx_done;
  if cancelled : bool then exit "context_cancel"
  else
    header ← or_exit (because Client) (read_full Client 16);
    AddBytesC2S 16 ;;
    let msgLen := le 4 header in
    let requestID := le 4 (sdrop 4 header) in
    let opCode := i32 (le 4 (sdrop 12 header)) in
    if (msgLen <? 16) || (48 * 1024 * 1024 <? msgLen) then exit "io_error"
    else
      make 1 (msgLen - 16) ;;
      body ← (if 0 <? msgLen - 16 then
                b ← or_exit (because Client) (read_full Client (Z.to_nat (msgLen - 16)));
                AddBytesC2S (slen b) ;; mret b
              else mret "");
      handled ← mongo_intercept t rules requestID opCode body;
      if handled : bool then mret requestsSeen
      else
        write_or_exit (because Server) Server header ;;
        (if (0 <? slen body)%nat then write_or_exit (because Server) Server body else mret tt) ;;
        mongo_respond t requestsSeen.

Definition mongo_handleConn (t : connTracker) (dialed : bool) (rules : list Rule) (fuel : nat) : M unit :=
  if negb dialed then close Client
  else EmitOpen t ;; deferred t (rounds fuel (mongo_round t rules) 0 ;; mret tt).

(** ** Messages *)

(** A message: its three identifying numbers and its body. *)
Record Message := mkMessage { m_request : Z; m_response : Z; m_op : Z; m_body : string }.

Definition mongo_header (m : Message) : string :=
  put_le 4 (16 + Z.of_nat (slen (m_body m))) +:+ put_le 4 (m_request m) +:+ put_le 4 (m_response m) +:+
  put_le 4 (m_op m).
Definition mongo_encode (m : Message) : string := mongo_header m +:+ m_body m.

Definition message_ok (m : Message) : Prop :=
  16 + Z.of_nat (slen (m_body m)) <= 48 * 1024 * 1024 /\
  0 <= m_request m < 2 ^ 32 /\ 0 <= m_response m < 2 ^ 32 /\ 0 <= m_op m < 2 ^ 31.

Lemma mongo_header_facts m : message_ok m ->
  slen (mongo_header m) = 16%nat /\ le 4 (mongo_header m) = 16 + Z.of_nat (slen (m_body m)) /\
  le 4 (sdrop 4 (mongo_header m)) = m_request m /\ i32 (le 4 (sdrop 12 (mongo_header m))) = m_op m.
Proof.
  intros (Hn & H1 & H2 & H3). unfold mongo_header. assert (P : 256 ^ Z.of_nat 4 = 2 ^ 32) by done.
  rewrite !slen_app, !slen_put_le. split_and!; [done|apply le_app; lia| |].
  - rewrite sdrop_app_n by apply slen_put_le. apply le_app. lia.
  - replace (sdrop 12 _) with (sdrop 4 (sdrop 4 (sdrop 4
      (put_le 4 (16 + Z.of_nat (slen (m_body m))) +:+ put_le 4 (m_request m) +:+ put_le 4 (m_response m) +:+ put_le 4 (m_op m)))))
      by (by rewrite !sdrop_sdrop).
    rewrite !sdrop_app_n by apply slen_put_le. rewrite <- (string_app_nil (put_le 4 (m_op m))), le_app by lia.
    apply wrap_s_small; lia.
Qed.

(** A round reads one message. *)
Lemma mongo_round_reads t rules seen m rest io : live io -> message_ok m ->
  unread (client io) = mongo_encode m +:+ rest ->
  exists io1, moved io io1 rest (unread (server io)) "" "" /\
    mongo_round t rules seen io =
    (handled ← mongo_intercept t rules (m_request m) (m_op m) (m_body m);
     if handled : bool then mret seen
     else
       write_or_exit (because Server) Server (mongo_header m) ;;
       (if (0 <? slen (m_body m))%nat then write_or_exit (because Server) Server (m_body m) else mret tt) ;;
       mongo_respond t seen) io1.
Proof.
  intros Hl Hm Hu. destruct (mongo_header_facts m Hm) as (F1 & F2 & F3 & F4). pose proof Hl as [[H1 H2] [H3 H4] H5].
  destruct Hm as (Hn & _). unfold mongo_encode in Hu. rewrite string_app_assoc in Hu.
  unfold mongo_round. erewrite bind_val by done. rewrite H5. cbv iota beta.
  erewrite bind_val by (apply or_exit_ok, (read_full_app Client 16 (mongo_header m)); [exact Hu|done]).
  erewrite bind_val by (unfold AddBytesC2S; done). cbv zeta. rewrite F2, F3, F4.
  rewrite (proj2 (Z.ltb_ge _ 16)), (proj2 (Z.ltb_ge (48 * 1024 * 1024) _)) by lia. cbn [orb].
  erewrite bind_val by (apply make_ok; unfold max_alloc; lia).
  replace (16 + Z.of_nat (slen (m_body m)) - 16) with (Z.of_nat (slen (m_body m))) by lia.
  destruct (Z.ltb_spec 0 (Z.of_nat (slen (m_body m)))) as [_|H0].
  - eexists. split.
    2: { erewrite bind_val; [done|].
         erewrite bind_val by (apply or_exit_ok, (read_full_app Client _ (m_body m) rest); [by destruct io|lia]).
         erewrite bind_val by (unfold AddBytesC2S; done). done. }
    destruct io. split; cbn; try done; by rewrite string_app_nil.
  - assert (E : m_body m = "") by (apply slen_0; lia). rewrite E in *. change ("" +:+ rest) with rest.
    eexists. split; [|by erewrite bind_val by done]. destruct io. split; cbn; try done; by rewrite string_app_nil.
Qed.

(** The response of the server goes to the client as it is. *)
Lemma mongo_respond_ok t seen r srest io : live io -> message_ok r ->
  unread (server io) = mongo_encode r +:+ srest ->
  exists io', mongo_respond t seen io = (Val (i64 (seen + 1)), io') /\
    moved io io' (unread (client io)) srest (mongo_encode r) "".
Proof.
  intros Hl Hm Hu. destruct (mongo_header_facts r Hm) as (F1 & F2 & _). destruct Hm as (Hn & _).
  unfold mongo_encode in Hu. rewrite string_app_assoc in Hu. pose proof Hl as [[] [] ?]. unfold mongo_respond.
  erewrite bind_val by (apply or_exit_ok, (read_full_app Server 16 (mongo_header r)); [exact Hu|done]).
  erewrite bind_val by (unfold AddBytesS2C; done). cbv zeta. rewrite F2.
  erewrite bind_val by (apply make_ok; unfold max_alloc; lia).
  replace (16 + Z.of_nat (slen (m_body r)) - 16) with (Z.of_nat (slen (m_body r))) by lia.
  set (io0 := (mkIO _ _ _ _ _ _ _ _ _ _ _ _ _)).
  assert (B : exists io1, (if 0 <? Z.of_nat (slen (m_body r)) then
      b ← or_exit (because Server) (read_full Server (Z.to_nat (Z.of_nat (slen (m_body r)))));
      AddBytesS2C (slen b) ;; mret b else mret "") io0 = (Val (m_body r), io1) /\
    moved io io1 (unread (client io)) srest "" "").
  { destruct (Z.ltb_spec 0 (Z.of_nat (slen (m_body r)))) as [_|Hz].
    - eexists. split.
      + erewrite bind_val by (apply or_exit_ok, (read_full_app Server _ (m_body r) srest); [by destruct io|lia]).
        erewrite bind_val by (unfold AddBytesS2C; done). done.
      + destruct io. split; cbn; try done; by rewrite string_app_nil.
    - assert (E : m_body r = "") by (apply slen_0; lia). rewrite E in Hu. exists io0. split; [by rewrite E|].
      unfold io0. rewrite E. destruct io. split; cbn; try done; by rewrite string_app_nil. }
  destruct B as (io1 & E1 & M1). erewrite bind_val by exact E1. pose proof (mv_live _ _ _ _ _ _ M1) as L1.
  erewrite bind_val by (by apply write_live). erewrite bind_val by (by apply write_live, wrote_live).
  rewrite wrote_wrote. fold (mongo_encode r).
  pose proof (moved_trans _ _ _ _ _ _ _ _ _ _ _ M1 (moved_wrote_client io1 (mongo_encode r) L1)) as M2.
  rewrite (mv_client _ _ _ _ _ _ M1), (mv_server _ _ _ _ _ _ M1) in M2.
  assert (S : silent tt (if i64 (seen + 1) =? 1 then EmitHandshakeComplete t "" 1 else mret tt)).
  { destruct (_ =? 1); [apply silent_EmitHandshakeComplete|apply silent_ret]. }
  destruct (S (wrote Client (mongo_encode r) io1)) as (io3 & E4 & Q & _).
  erewrite bind_val by exact E4. exists io3. split; [done|]. by eapply moved_quiet.
Qed.

Definition mongo_terminal (r : Rule) : bool :=
  match RuleAction r with ActionError | ActionDelay | ActionDrop => true | _ => false end.

(** The rule that decides on a message, when no rule has a probability and the body parses. *)
Definition mongo_verdict (rules : list Rule) (m : Message) : option Rule :=
  if m_op m =? opMsgCode then
    match parseOPMSG (m_body m) with
    | Some (cmd, collection) =>
        if String.eqb cmd "" then None
        else List.find (fun r => mongo_matches cmd collection r && mongo_terminal r) rules
    | None => None
    end
  else None.

Definition parses (m : Message) : Prop := m_op m = opMsgCode -> parseOPMSG (m_body m) <> None.

(** The injected error answers the request: its [responseTo] is the request's identifier. *)
Definition injected (m : Message) (bsonData : string) : string :=
  let '(header, body) := mongo_error_frame (m_request m) bsonData in header +:+ body.

Lemma mongo_intercept_verdict t rules m io : Forall certain rules -> parses m -> exists io1, quiet io io1 /\
  mongo_intercept t rules (m_request m) (m_op m) (m_body m) io =
  match mongo_verdict rules m with
  | None => (Val false, io1)
  | Some r =>
      let '(cmd, collection) := default ("", "") (parseOPMSG (m_body m)) in
      (o ← mongo_act t (m_request m) cmd collection r; mret (default false o)) io1
  end.
Proof.
  intros Hc Hp. unfold mongo_intercept, mongo_verdict, parses in *.
  destruct (Z.eqb_spec (m_op m) opMsgCode) as [E|]; [|by exists io]. specialize (Hp E).
  destruct (parseOPMSG (m_body m)) as [[cmd collection]|]; [|done]. cbn [default].
  destruct (String.eqb cmd ""); [by exists io|]. unfold mongo_checkRules. apply check_settles; [| |done].
  - intros r. unfold mongo_terminal, mongo_act. destruct (RuleAction r); try done; intros _; apply silent_ret.
  - intros r io1 io2. unfold mongo_terminal, mongo_act, sendMongoError, mongo_error_frame, write, emit, mbind, M_bind.
    destruct (RuleAction r); try done. intros _. destruct (marshal_error _); [|done].
    destruct (shut (conn Client io1)) eqn:E1, (broken (conn Client io1)) eqn:E2; cbn in *; rewrite ?E1, ?E2; done.
Qed.

(** A message that no rule stops reaches the server, and the server's response the client. *)
Lemma mongo_round_forwards t rules seen m r rest srest io :
  live io -> Forall certain rules -> message_ok m -> message_ok r -> parses m ->
  match mongo_verdict rules m with None => True | Some rule => RuleAction rule = ActionDelay end ->
  unread (client io) = mongo_encode m +:+ rest -> unread (server io) = mongo_encode r +:+ srest ->
  exists io', mongo_round t rules seen io = (Val (i64 (seen + 1)), io') /\
    moved io io' rest srest (mongo_encode r) (mongo_encode m).
Proof.
  intros Hl Hc Hm Hr Hp Hv Hu Hs. destruct (mongo_round_reads t rules seen m rest io Hl Hm Hu) as (io1 & M1 & ->).
  destruct (mongo_intercept_verdict t rules m io1 Hc Hp) as (io2 & Q2 & E2).
  assert (I : exists io3, quiet io1 io3 /\ mongo_intercept t rules (m_request m) (m_op m) (m_body m) io1 = (Val false, io3)).
  { rewrite E2. destruct (mongo_verdict rules m) as [rule|]; [|by exists io2].
    destruct (default _ _) as [cmd collection]. unfold mongo_act. rewrite Hv. eexists. split; [|done].
    eapply quiet_trans; [exact Q2|]. by destruct (onEvent t). }
  destruct I as (io3 & Q3 & E3). erewrite bind_val by exact E3. cbv iota beta.
  pose proof (moved_quiet _ _ _ _ _ _ _ M1 Q3) as M3. pose proof (mv_live _ _ _ _ _ _ M3) as L3.
  erewrite bind_val by (by apply write_or_exit_live).
  assert (E : (if (0 <? slen (m_body m))%nat then write_or_exit (because Server) Server (m_body m) else mret tt)
      (wrote Server (mongo_header m) io3) = (Val tt, wrote Server (mongo_encode m) io3)).
  { unfold mongo_encode. destruct (Nat.ltb_spec 0 (slen (m_body m))) as [_|H].
    - rewrite write_or_exit_live by (by apply wrote_live). by rewrite wrote_wrote.
    - assert (Eb : m_body m = "") by (apply slen_0; lia). by rewrite Eb, string_app_nil. }
  erewrite bind_val by exact E.
  pose proof (moved_trans _ _ _ _ _ _ _ _ _ _ _ M3 (moved_wrote_server io3 (mongo_encode m) L3)) as M4.
  rewrite (mv_client _ _ _ _ _ _ M3), (mv_server _ _ _ _ _ _ M3), Hs in M4.
  destruct (mongo_respond_ok t seen r srest _ (mv_live _ _ _ _ _ _ M4) Hr (mv_server _ _ _ _ _ _ M4)) as (io5 & E5 & M5).
  exists io5. split; [done|]. rewrite (mv_client _ _ _ _ _ _ M4) in M5.
  pose proof (moved_trans _ _ _ _ _ _ _ _ _ _ _ M4 M5) as M6. rewrite !string_app_nil in M6. exact M6.
Qed.

(** *** Messages that crash the proxy *)

(** An OP_MSG whose first element is a string with the length zero. *)
Definition empty_string_command (key tail : string) : string :=
  let element := String (byte_of 2) (key +:+ String NUL (zeros 4 +:+ tail)) in
  zeros 4 +:+ String NUL (put_le 4 (4 + Z.of_nat (slen element)) +:+ element).

Lemma cut_nul_app a b : sall (fun c => negb (Ascii.eqb c NUL)) a = true -> cut_nul (a +:+ String NUL b) = (a, Some b).
Proof.
  induction a as [|c a IH]; [done|]. cbn [sall]. rewrite andb_true_iff, negb_true_iff. intros [Hc Ha].
  rewrite string_app_cons. cbn [cut_nul]. by rewrite Hc, IH.
Qed.

Lemma parseOPMSG_empty_string key tail : sall (fun c => negb (Ascii.eqb c NUL)) key = true ->
  Z.of_nat (slen key) + Z.of_nat (slen tail) + 10 < 2 ^ 32 -> parseOPMSG (empty_string_command key tail) = None.
Proof.
  intros Hk Hn. unfold empty_string_command. set (element := String (byte_of 2) _). cbv zeta.
  assert (Hlen : slen element = (slen key + slen tail + 6)%nat).
  { unfold element. cbn [slen]. rewrite slen_app. cbn [slen]. rewrite slen_app. change (slen (zeros 4)) with 4%nat. lia. }
  set (doc := put_le 4 (4 + Z.of_nat (slen element)) +:+ element).
  assert (Hd : slen doc = (slen element + 4)%nat) by (unfold doc; rewrite slen_app, slen_put_le; lia).
  assert (Hle : le 4 doc = 4 + Z.of_nat (slen element)).
  { unfold doc. apply le_app. change (256 ^ Z.of_nat 4) with (2 ^ 32). lia. }
  unfold parseOPMSG.
  assert (Hb : slen (zeros 4 +:+ String NUL doc) = (slen doc + 5)%nat) by (rewrite slen_app; change (slen (zeros 4)) with 4%nat; cbn [slen]; lia).
  assert (H5 : sdrop 5 (zeros 4 +:+ String NUL doc) = doc) by (cbn; by destruct doc).
  rewrite Hb, H5, Hle, (proj2 (Nat.ltb_ge _ 5)), (proj2 (Nat.ltb_ge _ 9)), (proj2 (Z.ltb_ge _ _)) by lia.
  change (default NUL (sget 4 (zeros 4 +:+ String NUL doc))) with NUL. rewrite Ascii.eqb_refl. cbn [negb]. cbv zeta.
  rewrite stake_all by lia. rewrite (proj2 (Nat.leb_gt _ 4)) by lia.
  assert (Hg : sget 4 doc = Some (byte_of 2) /\ sdrop 5 doc = key +:+ String NUL (zeros 4 +:+ tail)).
  { unfold doc. pose proof (slen_put_le 4 (4 + Z.of_nat (slen element))) as Hp.
    destruct (put_le 4 _) as [|c1 [|c2 [|c3 [|c4 [|]]]]]; done. }
  destruct Hg as [-> ->]. rewrite cut_nul_app by done. cbn [default].
  change (bval (byte_of 2) =? 2) with true. cbv iota. unfold string_value.
  rewrite slen_app, (proj2 (Nat.ltb_ge _ 4)) by (change (slen (zeros 4)) with 4%nat; lia).
  assert (Hz : le 4 (zeros 4 +:+ tail) = 0) by (change (zeros 4) with (put_le 4 0); apply le_app; cbn; lia).
  rewrite Hz. cbv zeta. rewrite (proj2 (Z.ltb_ge _ 0)) by lia. done.
Qed.

(** A client that sends such a message takes the whole process down: the slice of the empty string's
    bytes without its terminator ends before it starts, whatever the rules. *)
Theorem mongodb_empty_string_panics (t : connTracker) (rules : list Rule) (seen : Z) (m : Message)
    (key tail rest : string) (io : IO) :
  live io -> message_ok m -> m_op m = opMsgCode -> m_body m = empty_string_command key tail ->
  sall (fun c => negb (Ascii.eqb c NUL)) key = true ->
  unread (client io) = mongo_encode m +:+ rest ->
  (mongo_round t rules seen io).1 = Panic.
Proof.
  intros Hl Hm Ho Hb Hk Hu. destruct (mongo_round_reads t rules seen m rest io Hl Hm Hu) as (io1 & _ & ->).
  unfold mongo_intercept, mbind, M_bind. rewrite Ho, Z.eqb_refl, Hb, parseOPMSG_empty_string; [done..|].
  destruct Hm as (Hn & _). rewrite Hb in Hn. unfold empty_string_command in Hn. cbv zeta in Hn.
  rewrite slen_app in Hn. cbn [slen] in Hn. rewrite slen_app, slen_put_le in Hn. cbn [slen] in Hn.
  rewrite slen_app in Hn. cbn [slen] in Hn. rewrite slen_app in Hn. cbn [slen zeros] in Hn. lia.
Qed.

(** A response that declares less than its header panics as well. *)
Lemma mongodb_short_response_panics t seen header rest io : slen header = 16%nat -> le 4 header < 16 ->
  unread (server io) = header +:+ rest -> (mongo_respond t seen io).1 = Panic.
Proof.
  intros Hh Hn Hu. unfold mongo_respond.
  erewrite bind_val by (apply or_exit_ok, (read_full_app Server 16 header); [exact Hu|done]).
  erewrite bind_val by (unfold AddBytesS2C; done). cbv zeta. unfold make at 1.
  rewrite (proj2 (Z.ltb_lt _ 0)) by lia. done.
Qed.

End proxy.

Lemma mongodb_empty_string_panics_witness :
  let t := mkTracker "id" true "db" "main" "mongodb" "" "" in
  let m := mkMessage 1 0 opMsgCode (empty_string_command "find" (zeros 1)) in
  (mongo_round (fun _ => None) t [] 0 (on_wire (mongo_encode m) "" 0)).1 = Panic.
Proof.
  intros t m. apply (mongodb_empty_string_panics (fun _ => None) t [] 0 m "find" (zeros 1) "").
  - apply on_wire_live.
  - vm_compute. done.
  - done.
  - done.
  - done.
  - by rewrite string_app_nil.
Defined.

End MongoProxy.
