(* ===== verification/CassandraProxy.v ===== *)
(** * The Cassandra proxy ([internal/proxy/cassandra.go])

    Native-protocol frames from the client, with rules on QUERY, EXECUTE and BATCH,
    beside an uninspected copy of the responses.  An injected error is two writes, so
    the schedule of the two goroutines says how much of the responses is copied between
    them. *)

From Stdlib Require Import ZArith Lia Ascii.
From S2P Require Import Prelude GoStd GoText ProxyCore.
From stdpp Require Import base gmap strings numbers list.
Local Open Scope Z_scope.
Import GoStd GoText.

Module CassandraProxy.
Import Rules Net Observe.

Definition cqlOpError : Z := 0.
Definition cqlOpQuery : Z := 7.
Definition cqlOpExecute : Z := 10.
Definition cqlOpBatch : Z := 13.
Definition cqlResponseFlag : Z := 128.

(** [truncate]; the ellipsis is the three bytes of U+2026. *)
Definition truncate (s : string) (n : nat) : string :=
  if (slen s <=? n)%nat then s
  else trim_space (stake n s) +:+ String (byte_of 226) (String (byte_of 128) (String (byte_of 166) "")).

Definition extractCQL (opcode : Z) (body : string) : string :=
  if opcode =? cqlOpQuery then
    if (slen body <? 4)%nat then ""
    else
      let n := be 4 body in
      if (n <? 0) || (Z.of_nat (slen body) <? 4 + n) then "" else stake (Z.to_nat n) (sdrop 4 body)
  else "".

Definition cassandra_error_body (msg : string) : string :=
  zeros 4 +:+ put_be 2 (u16 (Z.of_nat (slen msg))) +:+ msg.

(** The nine bytes before a frame's body. *)
Definition cql_header (version flags : ascii) (stream : Z) (opcode : ascii) (bodyLen : Z) : string :=
  String version (String flags (put_be 2 stream +:+ String opcode (put_be 4 bodyLen))).

Definition cassandra_error_header (version : ascii) (streamID : Z) (body : string) : string :=
  cql_header (byte_of (Z.lor (bval version) cqlResponseFlag)) NUL streamID (byte_of cqlOpError)
    (u32 (Z.of_nat (slen body))).

(** The two writes of the error frame; the response goroutine copies [between] bytes in between. *)
Definition sendCassandraError (between : nat) (version : ascii) (streamID : Z) (msg : string) : M unit :=
  let body := cassandra_error_body msg in
  write Client (cassandra_error_header version streamID body) ;;
  copied between ;;
  write Client body ;;
  mret tt.

Definition cassandra_event (t : connTracker) (action : string) (fs : list (string * string)) : ProxyEvent :=
  mkEvent "" "cassandra" action (service t) (list_to_map fs).

Definition cassandra_matches (cql : string) (r : Rule) : bool :=
  String.eqb (Query r) "" || matchGlob cql (Query r).

Definition cassandra_error_text (r : Rule) : string :=
  if String.eqb (ErrorMsg r) "" then "injected fault" else ErrorMsg r.

Definition cassandra_act (t : connTracker) (between : nat) (version : ascii) (streamID : Z) (cql : string) (r : Rule)
    : M (option bool) :=
  match RuleAction r with
  | ActionError =>
      let errMsg := cassandra_error_text r in
      sendCassandraError between version streamID errMsg ;;
      emit (onEvent t) (cassandra_event t "error" [("query", truncate cql 120); ("error", errMsg)]) ;;
      mret (Some true)
  | ActionDrop => close Client ;; mret (Some true)
  | ActionDelay =>
      emit (onEvent t) (cassandra_event t "delay" [("query", truncate cql 120); ("delay_ms", ms (Delay r))]) ;;
      mret (Some false)
  | ActionRespond | ActionDuplicate => mret None
  end.

Definition cassandra_checkRules (t : connTracker) (rules : list Rule) (between : nat) (version : ascii) (streamID : Z)
    (cql : string) : M bool :=
  o ← rule_loop (cassandra_matches cql) (cassandra_act t between version streamID cql) rules;
  mret (default false o).

Definition inspected (opcode : Z) : bool :=
  (opcode =? cqlOpQuery) || (opcode =? cqlOpExecute) || (opcode =? cqlOpBatch).

Definition cassandra_intercept (t : connTracker) (rules : list Rule) (between : nat) (header body : string) : M bool :=
  let opcode := bval (default NUL (sget 4 header)) in
  if inspected opcode then
    cassandra_checkRules t rules between (default NUL (sget 0 header)) (be 2 (sdrop 2 header)) (extractCQL opcode body)
  else mret false.

(** A body is read or written only when there is one. *)
Definition unless_empty {A} (n : Z) (a : A) (m : M A) : M A := if 0 <? n then m else mret a.

(** One frame; [seen] is [requestsSeen]. *)
Definition cassandra_round (t : connTracker) (rules : list Rule) (between : nat) (seen : Z) : M Z :=
  cancelled ← ctx_done;
  if cancelled : bool then exit "context_cancel"
  else
    header ← or_exit (because Client) (read_full Client 9);
    AddBytesC2S 9 ;;
    let bodyLen := be 4 (sdrop 5 header) in
    if 256 * 1024 * 1024 <? bodyLen then exit "io_error"
    else
      make 1 bodyLen ;;
      body ← unless_empty bodyLen ""
        (b ← or_exit (because Client) (read_full Client (Z.to_nat bodyLen)); AddBytesC2S (Z.to_nat bodyLen) ;; mret b);
      handled ← cassandra_intercept t rules between header body;
      if handled : bool then mret seen
      else
        write_or_exit (because Server) Server header ;;
        unless_empty bodyLen tt (write_or_exit (because Server) Server body) ;;
        let seen := i64 (seen + 1) in
        (if seen =? 1 then EmitHandshakeComplete t "" 1 else mret tt) ;;
        mret seen.

(** The two goroutines take turns: a frame, with the bytes copied inside an injected error, or a
    piece of the responses. *)
Inductive CTurn := Request (between : nat) | Respond (n : nat).

Fixpoint cassandra_turns (t : connTracker) (rules : list Rule) (turns : list CTurn) (seen : Z) : M Z :=
  match turns with
  | [] => mret seen
  | Request between :: turns => seen ← cassandra_round t rules between seen; cassandra_turns t rules turns seen
  | Respond n :: turns => copied n ;; cassandra_turns t rules turns seen
  end.

Definition cassandra_handleConn (t : connTracker) (dialed : bool) (rules : list Rule) (turns : list CTurn) : M unit :=
  if negb dialed then close Client
  else EmitOpen t ;; deferred t (cassandra_turns t rules turns 0 ;; mret tt).

(** ** Frames on the wire *)

Record Frame := mkFrame { f_version : ascii; f_flags : ascii; f_stream : Z; f_opcode : ascii; f_body : string }.

Definition frame_header (f : Frame) : string :=
  cql_header (f_version f) (f_flags f) (f_stream f) (f_opcode f) (Z.of_nat (slen (f_body f))).
Definition frame_encode (f : Frame) : string := frame_header f +:+ f_body f.
Definition frame_ok (f : Frame) : Prop :=
  0 <= f_stream f < 2 ^ 16 /\ Z.of_nat (slen (f_body f)) <= 256 * 1024 * 1024.

Lemma frame_header_facts f : frame_ok f -> slen (frame_header f) = 9%nat /\
  sget 0 (frame_header f) = Some (f_version f) /\ be 2 (sdrop 2 (frame_header f)) = f_stream f /\
  sget 4 (frame_header f) = Some (f_opcode f) /\ be 4 (sdrop 5 (frame_header f)) = Z.of_nat (slen (f_body f)).
Proof.
  intros [Hs Hb]. unfold frame_header, cql_header.
  pose proof (be_app 2 (f_stream f) (String (f_opcode f) (put_be 4 (Z.of_nat (slen (f_body f)))))) as H2.
  pose proof (be_put_be 4 (Z.of_nat (slen (f_body f))) ltac:(change (256 ^ Z.of_nat 4) with (2 ^ 32); lia)) as H4.
  specialize (H2 ltac:(change (256 ^ Z.of_nat 2) with (2 ^ 16); lia)).
  pose proof (slen_put_be 2 (f_stream f)) as L2. pose proof (slen_put_be 4 (Z.of_nat (slen (f_body f)))) as L4.
  by destruct (put_be 2 (f_stream f)) as [|a [|b [|]]].
Qed.

(** ** Rules *)

Definition cassandra_terminal (r : Rule) : bool :=
  match RuleAction r with ActionError | ActionDelay | ActionDrop => true | _ => false end.

Definition frame_cql (f : Frame) : string := extractCQL (bval (f_opcode f)) (f_body f).

(** The rule that decides on a frame, when no rule has a probability. *)
Definition cassandra_verdict (rules : list Rule) (f : Frame) : option Rule :=
  if inspected (bval (f_opcode f)) then
    List.find (fun r => cassandra_matches (frame_cql f) r && cassandra_terminal r) rules
  else None.

(** An injected error as a frame: a response on the request's stream. *)
Definition error_frame (f : Frame) (r : Rule) : Frame :=
  mkFrame (byte_of (Z.lor (bval (f_version f)) cqlResponseFlag)) NUL (f_stream f) (byte_of cqlOpError)
    (cassandra_error_body (cassandra_error_text r)).

Definition error_short (r : Rule) : Prop := Z.of_nat (slen (cassandra_error_text r)) < 2 ^ 16.

Lemma error_header f r : error_short r ->
  cassandra_error_header (f_version f) (f_stream f) (cassandra_error_body (cassandra_error_text r)) =
  frame_header (error_frame f r).
Proof.
  intros He. unfold cassandra_error_header, frame_header, error_frame. cbn [f_version f_flags f_stream f_opcode f_body].
  f_equal. apply wrap_u_small. unfold cassandra_error_body. rewrite !slen_app, slen_put_be.
  change (slen (zeros 4)) with 4%nat. unfold error_short in He. lia.
Qed.

Lemma cassandra_intercept_verdict t rules between f io : Forall certain rules -> frame_ok f -> exists io1, quiet io io1 /\
  cassandra_intercept t rules between (frame_header f) (f_body f) io =
  match cassandra_verdict rules f with
  | None => (Val false, io1)
  | Some r =>
      (o ← cassandra_act t between (f_version f) (f_stream f) (frame_cql f) r; mret (default false o)) io1
  end.
Proof.
  intros Hc Hf. destruct (frame_header_facts f Hf) as (_ & E0 & E2 & E4 & _).
  unfold cassandra_intercept, cassandra_verdict. rewrite E0, E2, E4. cbn [default]. cbv zeta.
  destruct (inspected _); [|by exists io]. unfold cassandra_checkRules. apply check_settles; [| |done].
  - intros r. unfold cassandra_terminal, cassandra_act. destruct (RuleAction r); try done; intros _; apply silent_ret.
  - intros r io1 io2. unfold cassandra_terminal, cassandra_act. destruct (RuleAction r); try done. intros _.
    unfold emit, mbind, M_bind. by destruct (sendCassandraError _ _ _ _ io1) as [[]].
Qed.

Lemma body_read f rest io : live io -> unread (client io) = f_body f +:+ rest ->
  let n := Z.of_nat (slen (f_body f)) in
  exists io', unless_empty n ""
      (b ← or_exit (because Client) (read_full Client (Z.to_nat n)); AddBytesC2S (Z.to_nat n) ;; mret b) io =
    (Val (f_body f), io') /\ moved io io' rest (unread (server io)) "" "".
Proof.
  intros Hl Hu n. unfold unless_empty. subst n. pose proof Hl as [[] [] ?].
  destruct (Z.ltb_spec 0 (Z.of_nat (slen (f_body f)))) as [Hp|Hp].
  - erewrite bind_val by (apply or_exit_ok, (read_full_app Client _ (f_body f) rest); [exact Hu|lia]).
    erewrite bind_val by (unfold AddBytesC2S; done). eexists. split; [done|].
    destruct io. split; cbn; try done; by rewrite string_app_nil.
  - assert (Ef : f_body f = "") by (apply slen_0; lia). rewrite Ef in *. change ("" +:+ rest) with rest in Hu.
    exists io. split; [done|]. split; rewrite ?string_app_nil; done.
Qed.

Lemma cassandra_round_reads t rules between seen f rest io :
  live io -> frame_ok f -> unread (client io) = frame_encode f +:+ rest ->
  exists io1, moved io io1 rest (unread (server io)) "" "" /\
    cassandra_round t rules between seen io =
    (handled ← cassandra_intercept t rules between (frame_header f) (f_body f);
     if handled : bool then mret seen
     else
       write_or_exit (because Server) Server (frame_header f) ;;
       unless_empty (Z.of_nat (slen (f_body f))) tt (write_or_exit (because Server) Server (f_body f)) ;;
       (if i64 (seen + 1) =? 1 then EmitHandshakeComplete t "" 1 else mret tt) ;;
       mret (i64 (seen + 1))) io1.
Proof.
  intros Hl Hf Hu. pose proof Hl as [[H1 H2] [H3 H4] H5]. destruct (frame_header_facts f Hf) as (E9 & _ & _ & _ & E5).
  destruct Hf as [_ Hb]. unfold frame_encode in Hu. rewrite string_app_assoc in Hu.
  unfold cassandra_round. erewrite bind_val by done. rewrite H5. cbv iota beta.
  erewrite bind_val by (apply or_exit_ok, (read_full_app Client 9 (frame_header f)); [exact Hu|done]).
  erewrite bind_val by (unfold AddBytesC2S; done). cbv zeta. rewrite E5.
  rewrite (proj2 (Z.ltb_ge _ _)) by lia. erewrite bind_val by (apply make_ok; unfold max_alloc; lia).
  set (io1 := mkIO _ _ _ _ _ _ _ _ _ _ _ _ _).
  destruct (body_read f rest io1) as (io2 & E & M2); [by destruct io; split|by destruct io|].
  erewrite bind_val by exact E. exists io2. split; [|done].
  assert (M1 : moved io io1 (f_body f +:+ rest) (unread (server io)) "" "").
  { destruct io. split; cbn; try done; by rewrite string_app_nil. }
  rewrite (mv_server _ _ _ _ _ _ M1) in M2. exact (moved_trans _ _ _ _ _ _ _ _ _ _ _ M1 M2).
Qed.

Lemma cassandra_forward_moves t seen f io : live io ->
  exists io', (write_or_exit (because Server) Server (frame_header f) ;;
     unless_empty (Z.of_nat (slen (f_body f))) tt (write_or_exit (because Server) Server (f_body f)) ;;
     (if i64 (seen + 1) =? 1 then EmitHandshakeComplete t "" 1 else mret tt) ;;
     mret (i64 (seen + 1))) io = (Val (i64 (seen + 1)), io') /\
    moved io io' (unread (client io)) (unread (server io)) "" (frame_encode f).
Proof.
  intros Hl. erewrite bind_val by (by apply write_or_exit_live).
  rewrite (bind_val _ _ _ tt (wrote Server (frame_encode f) io)).
  2: { unfold unless_empty, frame_encode. destruct (Z.ltb_spec 0 (Z.of_nat (slen (f_body f)))) as [_|H].
       - rewrite write_or_exit_live by (by apply wrote_live). by rewrite wrote_wrote.
       - assert (Eb : f_body f = "") by (apply slen_0; lia). by rewrite Eb, string_app_nil. }
  pose proof (moved_wrote_server io (frame_encode f) Hl) as M. cbv beta.
  destruct (_ =? 1); [|by eexists].
  destruct (silent_EmitHandshakeComplete t "" 1 (wrote Server (frame_encode f) io)) as (io' & E & Q & _).
  erewrite bind_val by exact E. exists io'. split; [done|]. by eapply moved_quiet.
Qed.

(** An injected error, with a piece of the responses between its two writes. *)
Lemma cassandra_injects t between f r io : live io -> error_short r -> RuleAction r = ActionError ->
  (between <= slen (unread (server io)))%nat ->
  exists io', cassandra_act t between (f_version f) (f_stream f) (frame_cql f) r io = (Val (Some true), io') /\
    moved io io' (unread (client io)) (sdrop between (unread (server io)))
      (frame_header (error_frame f r) +:+ stake between (unread (server io)) +:+ f_body (error_frame f r)) "".
Proof.
  intros Hl He Ha Hn. unfold cassandra_act. rewrite Ha. unfold sendCassandraError. cbv zeta.
  rewrite error_header by done. set (h := frame_header (error_frame f r)). set (b := cassandra_error_body _).
  pose proof (moved_wrote_client io h Hl) as M1. pose proof (wrote_live Client h io Hl) as L1.
  destruct (copied_moves between (wrote Client h io) L1) as (io2 & E2 & M2).
  { by rewrite (mv_server _ _ _ _ _ _ M1). }
  rewrite (mv_client _ _ _ _ _ _ M1), (mv_server _ _ _ _ _ _ M1) in M2.
  pose proof (moved_trans _ _ _ _ _ _ _ _ _ _ _ M1 M2) as M3. pose proof (mv_live _ _ _ _ _ _ M3) as L3.
  pose proof (moved_wrote_client io2 b L3) as M4.
  rewrite (mv_client _ _ _ _ _ _ M3), (mv_server _ _ _ _ _ _ M3) in M4.
  pose proof (moved_trans _ _ _ _ _ _ _ _ _ _ _ M3 M4) as M5. rewrite !string_app_nil, string_app_assoc in M5.
  erewrite bind_val.
  2: { erewrite bind_val by (by apply write_live). erewrite bind_val by exact E2.
       erewrite bind_val by (by apply write_live). done. }
  destruct (silent_emit (onEvent t) (cassandra_event t "error"
    [("query", truncate (frame_cql f) 120); ("error", cassandra_error_text r)]) (wrote Client b io2)) as (io5 & E5 & Q5 & _).
  erewrite bind_val by exact E5. exists io5. split; [done|]. by eapply moved_quiet.
Qed.

(** ** The two goroutines in any order *)

(** The exchange at the level of frames: the requests left, the server's bytes left, and what was
    sent to each side.  A dropped connection and a copy of bytes that have not arrived have no
    outcome here. *)
Fixpoint cassandra_spec (rules : list Rule) (turns : list CTurn) (frames : list Frame) (responses : string)
    : option (list Frame * string * string * string) :=
  match turns with
  | [] => Some (frames, responses, "", "")
  | Request between :: turns =>
      match frames with
      | [] => None
      | f :: frames =>
          let forwarded :=
            '(frames, responses, c, s) ← cassandra_spec rules turns frames responses;
            Some (frames, responses, c, frame_encode f +:+ s) in
          match cassandra_verdict rules f with
          | None => forwarded
          | Some r =>
              match RuleAction r with
              | ActionDrop => None
              | ActionError =>
                  if (between <=? slen responses)%nat then
                    '(frames, responses', c, s) ← cassandra_spec rules turns frames (sdrop between responses);
                    Some (frames, responses',
                          frame_header (error_frame f r) +:+ stake between responses +:+ f_body (error_frame f r) +:+ c, s)
                  else None
              | _ => forwarded
              end
          end
      end
  | Respond n :: turns =>
      if (n <=? slen responses)%nat then
        '(frames, responses', c, s) ← cassandra_spec rules turns frames (sdrop n responses);
        Some (frames, responses', stake n responses +:+ c, s)
      else None
  end.

Fixpoint frames_encode (l : list Frame) : string :=
  match l with [] => "" | f :: l => frame_encode f +:+ frames_encode l end.

(** A frame that no error or drop rule decides goes to the server. *)
Lemma cassandra_round_forwards t rules between seen f rest io : live io -> Forall certain rules -> frame_ok f ->
  unread (client io) = frame_encode f +:+ rest ->
  match cassandra_verdict rules f with
  | Some r => RuleAction r <> ActionError /\ RuleAction r <> ActionDrop | None => True end ->
  exists io', cassandra_round t rules between seen io = (Val (i64 (seen + 1)), io') /\
    moved io io' rest (unread (server io)) "" (frame_encode f).
Proof.
  intros Hl Hc Hf Hu Hv. destruct (cassandra_round_reads t rules between seen f rest io Hl Hf Hu) as (io1 & M1 & ->).
  destruct (cassandra_intercept_verdict t rules between f io1 Hc Hf) as (io2 & Q2 & E2).
  assert (I : exists io3, quiet io1 io3 /\
    cassandra_intercept t rules between (frame_header f) (f_body f) io1 = (Val false, io3)).
  { rewrite E2. destruct (cassandra_verdict rules f) as [r|] eqn:Ev; [|by exists io2].
    destruct Hv as [N1 N2]. unfold cassandra_act. unfold cassandra_verdict in Ev.
    destruct (inspected _); [|done]. apply List.find_some in Ev as [_ Ht]. apply andb_true_iff in Ht as [_ Ht].
    unfold cassandra_terminal in Ht. destruct (RuleAction r); try done. eexists. split; [|done].
    eapply quiet_trans; [exact Q2|]. by destruct (onEvent t). }
  destruct I as (io3 & Q3 & E3). erewrite bind_val by exact E3. cbv iota beta.
  pose proof (moved_quiet _ _ _ _ _ _ _ M1 Q3) as M3.
  destruct (cassandra_forward_moves t seen f io3 (mv_live _ _ _ _ _ _ M3)) as (io' & E & M).
  exists io'. split; [done|]. rewrite (mv_client _ _ _ _ _ _ M3), (mv_server _ _ _ _ _ _ M3) in M.
  exact (moved_trans _ _ _ _ _ _ _ _ _ _ _ M3 M).
Qed.

Lemma cassandra_round_injects t rules between seen f r rest io : live io -> Forall certain rules -> frame_ok f ->
  unread (client io) = frame_encode f +:+ rest -> cassandra_verdict rules f = Some r -> RuleAction r = ActionError ->
  error_short r -> (between <= slen (unread (server io)))%nat ->
  exists io', cassandra_round t rules between seen io = (Val seen, io') /\
    moved io io' rest (sdrop between (unread (server io)))
      (frame_header (error_frame f r) +:+ stake between (unread (server io)) +:+ f_body (error_frame f r)) "".
Proof.
  intros Hl Hc Hf Hu Ev Ha Hs Hn. destruct (cassandra_round_reads t rules between seen f rest io Hl Hf Hu) as (io1 & M1 & ->).
  destruct (cassandra_intercept_verdict t rules between f io1 Hc Hf) as (io2 & Q2 & E2). rewrite Ev in E2.
  pose proof (moved_quiet _ _ _ _ _ _ _ M1 Q2) as M2.
  destruct (cassandra_injects t between f r io2 (mv_live _ _ _ _ _ _ M2) Hs Ha) as (io3 & E3 & M3).
  { by rewrite (mv_server _ _ _ _ _ _ M2). }
  rewrite (mv_client _ _ _ _ _ _ M2), (mv_server _ _ _ _ _ _ M2) in M3.
  erewrite bind_val.
  2: { rewrite E2. by erewrite bind_val by exact E3. }
  exists io3. split; [done|]. exact (moved_trans _ _ _ _ _ _ _ _ _ _ _ M2 M3).
Qed.

Definition errors_short (rules : list Rule) : Prop := Forall error_short rules.

Lemma verdict_in rules f r : cassandra_verdict rules f = Some r -> r ∈ rules.
Proof.
  unfold cassandra_verdict. destruct (inspected _); [|done]. intros E. apply List.find_some in E as [H _].
  by apply list_elem_of_In.
Qed.

(** C31: The client receives the injected error frames and the server's bytes in the order of the writes,
    and the server every other request; an error frame is whole only when the response goroutine
    copies nothing between its header and its body, which nothing in the code rules out. *)
Theorem cassandra_refines_frames (t : connTracker) (rules : list Rule) (turns : list CTurn) :
  Forall certain rules -> errors_short rules ->
  forall (frames frames' : list Frame) (responses responses' to_client to_server crest : string) (seen : Z) (io : IO),
  Forall frame_ok frames -> live io ->
  cassandra_spec rules turns frames responses = Some (frames', responses', to_client, to_server) ->
  unread (client io) = frames_encode frames +:+ crest -> unread (server io) = responses ->
  exists (seen' : Z) (io' : IO), cassandra_turns t rules turns seen io = (Val seen', io') /\
    moved io io' (frames_encode frames' +:+ crest) responses' to_client to_server.
Proof.
  intros Hc He. induction turns as [|[b|n] turns IH]; intros fs fs' rs rs' tc ts crest seen io Hf Hl Hs Hu Hv;
    cbn [cassandra_spec cassandra_turns] in *.
  - injection Hs as <- <- <- <-. exists seen, io. split; [done|]. split; rewrite ?string_app_nil; done.
  - destruct fs as [|f fs]; [done|]. apply Forall_cons in Hf as [Hf1 Hf].
    cbn [frames_encode] in Hu. rewrite string_app_assoc in Hu. cbv zeta in Hs. subst rs.
    assert (Fwd : match cassandra_verdict rules f with
        | Some r => RuleAction r <> ActionError /\ RuleAction r <> ActionDrop | None => True end ->
      forall x1 x2 x3 x4, cassandra_spec rules turns fs (unread (server io)) = Some (x1, x2, x3, x4) ->
      exists seen' io', (s ← cassandra_round t rules b seen; cassandra_turns t rules turns s) io = (Val seen', io') /\
        moved io io' (frames_encode x1 +:+ crest) x2 x3 (frame_encode f +:+ x4)).
    { intros Hv x1 x2 x3 x4 Es.
      destruct (cassandra_round_forwards t rules b seen f _ io Hl Hc Hf1 Hu Hv) as (io1 & E1 & M1).
      erewrite bind_val by exact E1.
      destruct (IH fs x1 _ x2 x3 x4 crest (i64 (seen + 1)) io1 Hf (mv_live _ _ _ _ _ _ M1) Es (mv_client _ _ _ _ _ _ M1))
        as (s2 & io2 & E2 & M2). { by rewrite (mv_server _ _ _ _ _ _ M1). }
      exists s2, io2. split; [done|]. exact (moved_trans _ _ _ _ _ _ _ _ _ _ _ M1 M2). }
    destruct (cassandra_verdict rules f) as [r|] eqn:Ev; [destruct (RuleAction r) eqn:Ea; try done|].
    2: { destruct (Nat.leb_spec b (slen (unread (server io)))) as [Hn|]; [|done].
         destruct (cassandra_spec rules turns fs _) as [[[[x1 x2] x3] x4]|] eqn:Es; [|done]. injection Hs as <- <- <- <-.
         assert (Hr : error_short r) by (by eapply (proj1 (Forall_forall _ _) He), verdict_in).
         destruct (cassandra_round_injects t rules b seen f r _ io Hl Hc Hf1 Hu Ev Ea Hr Hn) as (io1 & E1 & M1).
         erewrite bind_val by exact E1.
         destruct (IH fs x1 _ x2 x3 x4 crest seen io1 Hf (mv_live _ _ _ _ _ _ M1) Es (mv_client _ _ _ _ _ _ M1))
           as (s2 & io2 & E2 & M2). { by rewrite (mv_server _ _ _ _ _ _ M1). }
         exists s2, io2. split; [done|]. pose proof (moved_trans _ _ _ _ _ _ _ _ _ _ _ M1 M2) as M.
         by rewrite !string_app_assoc in M. }
    all: destruct (cassandra_spec rules turns fs _) as [[[[x1 x2] x3] x4]|] eqn:Es; [|done]; injection Hs as <- <- <- <-;
      by apply Fwd.
  - destruct (Nat.leb_spec n (slen rs)) as [Hn|]; [|done]. subst rs.
    destruct (cassandra_spec rules turns fs _) as [[[[x1 x2] x3] x4]|] eqn:Es; [|done]. injection Hs as <- <- <- <-.
    destruct (copied_moves n io Hl Hn) as (io1 & E1 & M1). erewrite bind_val by exact E1.
    destruct (IH fs x1 _ x2 x3 x4 crest seen io1 Hf (mv_live _ _ _ _ _ _ M1) Es) as (s2 & io2 & E2 & M2).
    { by rewrite (mv_client _ _ _ _ _ _ M1). }
    { apply M1. }
    exists s2, io2. split; [done|]. exact (moved_trans _ _ _ _ _ _ _ _ _ _ _ M1 M2).
Qed.

Lemma cassandra_refines_frames_witness :
  let t := mkTracker "id" true "db" "main" "cassandra" "" "" in
  let rule := mkRule "" "" "*insert*" "" "" "" ActionError 0 "" "overloaded" 0 f64_0 in
  let query s := mkFrame (byte_of 4) NUL 1 (byte_of 7) (put_be 4 (Z.of_nat (slen s)) +:+ s) in
  let io := on_wire (frames_encode [query "select"; query "insert"]) "result" 0 in
  exists seen' io', cassandra_turns t [rule] [Request 0; Request 6] 0 io = (Val seen', io') /\
    moved io io' "" ""
      (frame_header (error_frame (query "insert") rule) +:+ "result" +:+ f_body (error_frame (query "insert") rule))
      (frame_encode (query "select")).
Proof.
  intros t rule query io.
  apply (cassandra_refines_frames t [rule] [Request 0; Request 6]) with (frames := [query "select"; query "insert"])
    (frames' := []) (responses := "result") (crest := "").
  - repeat constructor.
  - repeat constructor.
  - repeat constructor; vm_compute; done.
  - apply on_wire_live.
  - vm_compute. done.
  - by rewrite string_app_nil.
  - done.
Defined.

End CassandraProxy.
